(* ===== verification/_CoqProject ===== *)
-Q . S2P
Prelude.v
BTreeMap.v
IoRead.v
DepotModel.v
DepotCompose.v
DepotDiff.v
DepotOcclusion.v
DepotLaws.v
DepotCodec.v
DepotStream.v
DepotStreamParse.v
DepotMerge.v
DepotStreamCompose.v
DepotStreamDiff.v
DepotStreamOverlay.v
DepotStreamLaws.v
DepotWalk.v
DepotVariant.v
DepotFrames.v
ChainStore.v
DepotVbf.v
WikiDepot.v
WikiDepotRep.v
WikiDepotTier.v
WikiDepotChain.v
WikiDepotSteps.v
WikiDepotOps.v
WikiDepotEvict.v
WikiDepotOpen.v
WikiDepotLaws.v
WireAtoms.v
WireValues.v
WireFrames.v
TraceWire.v
SocketWire.v
Glob.v
GlobSpec.v
Rules.v
RulesLaws.v
RuleGates.v
NetPrompt.v
StrPool.v
StrPoolLaws.v
StrPools.v
GitLanes.v
GitLanesLaws.v
GitCompactLaws.v
GitPlanLaws.v
GitSlots.v
GitSlotsLaws.v
GitVariants.v
GeoStack.v
GitDelta.v
GitFold.v
GitTree.v
GitTreeLaws.v
GitLayer.v
GitLayerLaws.v
GitEntries.v
GitStacked.v
GitKway.v
GitStackedLaws.v
GitLockstep.v
SlipPool.v
Jobserver.v
LayerMirror.v
SandboxLayers.v
SandboxLayersLaws.v
BoxStore.v
BoxStoreLaws.v
BoxTransfer.v
BoxTransferTree.v
SudRing.v
WebFilter.v
NetNames.v
RecordLocks.v
NodeTables.v
BoxNodes.v
HostDisk.v
LayerCache.v
