(* ===== verification/Prelude.v ===== *)
(** * Sarun: a verification development

    The repository builds sandboxes out of layers: a layer is a delta over a
    tree of named nodes (blobs, attributes, children), stacks of layers resolve
    to views, and depots store histories of layers.  Around them are mirrors
    that keep histories of other systems as layers (a git mirror, a string
    pool), and an engine that runs processes over a layered file system, gates
    their file and network accesses by rules and prompts, and talks to its
    clients over typed wire protocols.  This development models the layer
    algebra, its canonical encoding and streaming operations, the stores that
    keep layer histories down to the bytes of their files, the union encoder of
    the git mirror, the string pool, the layered file system of a box with its
    database, its file operations, inode numbers and record locks, the
    jobserver, the rules, prompts, names and filters of a box's network, the
    shared-memory request ring, the wire protocols, and the cache of layers as
    trees of real files.

    ** The parts of the program and the files that model them

    Layers:
    - [chupa/depot/src/lib.rs], the layer algebra: [DepotModel] (views, deltas,
      [apply], [apply_mut], [resolve]), [DepotCompose] ([compose], [harden],
      [squash], [resolve_over]), [DepotDiff] ([diff], [rotate]),
      [DepotOcclusion] (the reading of a stack path by path), [DepotLaws] (the
      claims).
    - [chupa/depot/src/codec.rs], the canonical bytes of a layer: [DepotCodec].
    - [chupa/depot/src/stream.rs], compose, diff and overlay on encoded layers:
      [DepotStream] (the operations), [DepotStreamParse], [DepotMerge],
      [DepotStreamCompose], [DepotStreamDiff], [DepotStreamOverlay] (their
      correctness against the algebra), [DepotStreamLaws] (the claims).
    - [chupa/depot/src/walk.rs], the cursor over encoded layers: [DepotWalk].
    - [chupa/depot/src/variant.rs], sinks, sources, transfer and readouts:
      [DepotVariant], with the source's traits as classes.
    - [chupa/depot-stream/src/lib.rs], layers as a stream of anchored frames:
      [DepotFrames].

    Layer histories on disk:
    - [chupa/wikimak/depot/src/lib.rs], the chain depot as its clients see it:
      [ChainStore], a class with its laws, and the batching helpers.
    - [chupa/wikimak/depot/src/inner.rs], the chain depot on disk: [WikiDepot]
      ([DepotInner] and every operation that changes it, over the bytes of the
      index, the tier files and the cold file), [WikiDepotOpen] ([open] and the
      counters sidecar); [WikiDepotRep] (the frames behind the bytes and the
      invariant), [WikiDepotTier], [WikiDepotChain], [WikiDepotSteps],
      [WikiDepotOps], [WikiDepotEvict] (its preservation by each operation),
      [WikiDepotLaws] (the claims).
    - [chupa/depot-vbf/src/lib.rs], layer histories in chains: [DepotVbf], over
      any [ChainStore].
    - [chupa/depot-cache/src/lib.rs], layers as trees of real files:
      [LayerCache], over [HostDisk] (the file system of the host: names, inodes,
      links, path resolution, and runs that may stop at any step).

    The git mirror ([chupa/gitdepot/src]):
    - [lanes.rs] and [plan_from_parents] of [lanestore.rs], the lanes of a
      commit history: [GitLanes] (assignment, compaction, plan),
      [GitLanesLaws], [GitCompactLaws], [GitPlanLaws].
    - the git side of [oidenc.rs], tree objects and what a revision changes:
      [GitTree] (parsing, difference, distribution to paths and shards),
      [GitTreeLaws].
    - [reslot.rs] and the variant sets of [oidenc.rs], the slots of a path:
      [GitSlots], [GitSlotsLaws], [GitVariants].
    - [layer.rs], the union as a layer: [GitLayer] (modes, names, orders,
      variant nodes, rebuilding a tree's id), [GitLayerLaws]; its readers:
      [GitEntries] ([visit_entries], [EntryCursor], [extract_lane_entries]) and
      [GitStacked] ([visit_stacked], the lockstep walk over a base and deltas),
      proved in [GitKway], [GitStackedLaws] and [GitLockstep].
    - [geostack.rs] and the folding of records ([lanestore.rs], [oidenc.rs]):
      [GeoStack] (the stacking policy over any layer type), [GitDelta] (the
      deltas of the chain as elements of the layer algebra), [GitFold].

    The string pool ([chupa/strpool/src]): [StrPool] (footer and shard files),
    [StrPoolLaws], [StrPools] (shards behind one interface).

    The engine ([engine/src]):
    - [rules/glob.rs], the extended glob matcher: [Glob], and [GlobSpec] (the
      languages patterns stand for, and in module [Syntax] the documented notation).
    - [rules.rs], the rule grammar and its decisions: [Rules], [RulesLaws]; where
      rules gate writes and connections ([overlay.rs], [net/policy.rs],
      [net/dispatch.rs]): [RuleGates].
    - [net/prompt.rs], the approval queue: [NetPrompt].
    - [net/subnet.rs], [net/dns.rs], [net/dhcp.rs] and the host a connection is
      judged by ([net/dispatch.rs]): [NetNames]; [net/filter.rs], the web filter:
      [WebFilter].
    - [slippool.rs] and the jobserver of [sarunfs/synthetic.rs]: [SlipPool] (the
      pool and its queue), [Jobserver] (the calls of host and guests, cut at
      their locks).
    - what a box sees: [LayerMirror] (the index of a captured layer, from
      [capture.rs]), [SandboxLayers] ([sarunfs/layers.rs], [attach.rs], the chain
      and the listing of [overlay.rs]), [SandboxLayersLaws].
    - the store of a box: [BoxStore] ([depot.rs], [entry_from_row] and
      [load_mirror] of [capture.rs]), [BoxStoreLaws]; boxes as layers:
      [BoxTransfer] ([export_layer], [import_layer]), [BoxTransferTree].
    - [sarunfs.rs], inode numbers and handles, and the journal of
      [sarunfs/mutation.rs]: [NodeTables].
    - the file operations of [overlay.rs]: [BoxNodes] (make, link, remove, rename,
      copy-up, attributes, as a state and error monad); its record locks:
      [RecordLocks].
    - [sud_ring.rs], the request ring in shared memory: [SudRing].
    - [wire.rs], atoms and typed values: [WireAtoms], [WireValues]; [frames.rs],
      the box channel's frames: [WireFrames]; [sudwire.rs], the trace stream:
      [TraceWire]; [socket_wire.rs], the control socket: [SocketWire].

    [std::io] is [IoRead], Rust's [BTreeMap] is [BTreeMap]; this file holds
    machine data, [Result], [Ord], little-endian words, the tactics and the hint
    database.

    How they interact: the stream operations and the stores work on the codec's
    bytes; [DepotVbf] is proved against the class [ChainStoreLaws];
    [WikiDepotLaws] discharges the class with the byte-level depot, so that the
    history of a chain is followed from layers to the bytes of files and back.
    [GitFold] instantiates the laws that [GeoStack] asks of a layer type with
    the streaming composition of encoded deltas.  [GitTreeLaws] composes the
    distribution of a revision with the slots of [GitVariants].  [GitEntries]
    and [GitStacked] read with the cursor of [DepotWalk].  [RuleGates] and
    [SocketWire] are clients of [Rules] and [WireValues]; [NetNames] puts the
    name server in front of the gate of [RuleGates].  [BoxNodes] composes the
    resolution of [SandboxLayers], the rows of [BoxStore] and the tables of
    [NodeTables] the way the file operations call them; [BoxTransfer] goes from
    [BoxStore] to the layers of [DepotModel] and back.

    ** How the code is translated

    Data types keep the source's constructors and fields.  A byte is a [Z], a
    byte string a list of them, a map a sorted association list.  [Result] is
    the source's; an operation that changes state is a function from the state
    to the new state and a result, and [None] stands for a panic or for a loop
    that has used up its fuel.  A callback that collects is the list of what it
    is called with.  Recursion over encoded bytes takes fuel; every exported
    operation passes fuel that is proved enough, and totality is a theorem or
    part of one ([decode_total], [depot_refines_chains], [compaction_invisible],
    [globmatch_tokens], [frames_bounded], [stacked_reads_composition]).  The
    fuels: the length of the input for parsers and walks (each step consumes a
    byte), the length of the cold file for cold walks (cold pointers point
    back), the number of data files for eviction (each round leaves one file
    with dead bytes fewer), the length of the pattern and one for globs, the
    number of words for rule clauses, the offset of the tail for the frames of a
    shard, the number of slots for a free slot, the depth of directories for the
    distribution of a revision.  Widths are written out where they matter:
    varints are 64-bit, pointer words pack 16 and 48 bits, frame lengths are
    32-bit, prompt numbers are 64-bit (executions of fewer than 2^64 steps),
    lane numbers are 32-bit (histories of fewer than 2^32 commits), inode numbers
    and handles are 64-bit (a table that is used up panics), record locks are
    over 64-bit offsets.  The chain of a box has at most 64 links; its loop gets
    66 rounds, which is proved enough.

    Parameters, with what is assumed of them as named hypotheses or class laws:
    zstd and its dictionaries (decompression inverts compression), the digest
    and hexadecimal crates (for the cache, without collisions on the contents that
    occur), the store of git objects (the class [Objects]), the
    path display and process facts a rule tests, the transports a message is
    read from (they deliver the bytes in order, in any pieces), the clock and
    the user of the approval queue (any interleaving), the name and lease packet
    crates, the host file system below a box (its modes, directories and bytes as
    functions), the processes, signals and system calls around the jobserver and
    the ring (any interleaving).

    ** What the theorems show

    - The layer algebra: composition is sequential application; resolving over
      a backdrop and rotation keep what a stack shows; diff and apply are
      inverse; the in-place and the shortcut versions agree with the plain ones.
      Where the documented equations fail, at directories that become empty, a
      theorem shows it and the laws hold up to empty nodes.
    - The codec: round trip, totality, truncated and trailing input.
    - The streams: each writes exactly the encoding of what the algebra computes.
    - Transport and stores: frames and histories read back as written, a cut
      stream gives its whole frames and then an error, batches are split without
      loss.
    - The chain depot: a simulation of a map of chains by the bytes, for every
      sequence of operations; eviction and reopening change no chain; reads never
      fail; counters are restored or recounted exactly.
    - The cache of trees, used one operation at a time with UTF-8 names: whatever
      operations were stopped or failed before, a view that is materialized shows
      exactly its layer, and it is materialized unless a read-only leftover stands
      in the way of an unprivileged process; eviction takes the files no tree holds
      and no other.  Theorems on a sample cache show what it does not guard
      against: threads that share a temporary name, names that are paths or not
      UTF-8, octal modes, a read-only leftover.
    - The git mirror: lanes are first-parent chains, lanes alive together never
      share an index, and a longer history renumbers nothing; a revision's
      transitions reach exactly the paths whose files changed and leave every
      lane of every path with its file; keys and modes classify back; the walk,
      the pulling cursor and the lockstep over deltas visit exactly the variants
      of the tree; records folded through the geometric stack give the state of
      applying them one by one.
    - The string pool: strings without a zero byte are found under the ids they
      were given, in frames of at most 64 KiB; a seal that stops anywhere leaves
      a shard that opens, with its tail or with a frame that decompresses to it.
      Theorems show what a zero byte and a larger frame do.
    - Rules: the glob matcher decides the documented language of written patterns,
      [+(..)] over empty alternatives aside, and for every pattern the language of
      the tokens the code cuts it into; printed rules read back; a saved answer decides; a write is routed by the whole grammar.
    - Prompts: only an answer to its own prompt lets a connection through, and
      every connection is decided.
    - Names and filters: a connection to an address the name server gave is
      judged by the name it was given for, and different names have different
      addresses; the filter blocks what the lines of its file ask for, and nothing
      else where every pattern has a star.
    - The file system of a box: listing and look-up agree, attachments included;
      the mirror in memory is what a reload of the rows gives, for the operations
      of [op_ok]; a box without a row for its root comes back row by row from the
      layer it is exported as; a
      directory's rows move with it; a renamed file shows at its new name with its
      bytes, nothing at the old, and the rest unchanged; a removed name is gone
      whatever lies below.  The theorems about a sample host in [BoxNodes] show where
      renames of directories and of files of a parent box go wrong.
    - Inode numbers keep their files through renames and removals and are never
      given twice; handles are fresh; the journal keeps the newest mutations.
    - Record locks, kept as ranges that are split, are a lock per owner and byte;
      a waiting call is woken when nothing is in its way.
    - The jobserver: slips are conserved, granted in order, and held only by
      processes that are watched.
    - The ring: in every interleaving of accesses, without the reaper of dead
      owners, no reply is crossed; with the reaper one can be, which a theorem
      shows.
    - The wire: atoms, values, frames, traces and messages are read back however
      the bytes are cut, and what is accepted keeps the bounds of its type.

    ** What is not modelled, and why

    I/O errors of the chain depot and the order in which writes reach the disk
    (fsync), so nothing is claimed about crashes in the middle of its
    operations; the processes that share a layer cache, disks that are full or
    fail, and steps that reach the disk in another order; reservations of memory ([Vec::with_capacity] on a count read
    from the input); [Arc] sharing, except that [diff] is proved for every sound
    identity test; mutexes and read counters; the decimal text of the counters
    sidecar (its lines are); arithmetic overflow in sums of lengths read from
    files that no depot wrote; the thread pools of scans and shards.  Of the git
    mirror, reading objects and packs, the sqlite metadata and the frames on
    disk.  Of a box, opening, reading and writing of contents, passthrough to the
    host, extended attributes at the protocol, synthetic files and projections;
    errors of the engine's own database and disk; the attribution of writes to
    processes.  Of the ring, mapping and passing of descriptors; memory is
    sequentially consistent at the grain of its accesses.  The file-system
    transports, the proxy and the TCP stack, the user interface, process and
    image management, the wiki mirror and its renderers and the shell are mostly
    I/O around libraries and are outside the development. *)

From stdpp Require Export base tactics list option numbers sets.

Declare Scope sarun_scope.
Delimit Scope sarun_scope with sarun.

(** ** Machine data

    A byte is a [Z] in [0 .. 255]; a byte string ([Vec<u8>], [&[u8]]) is a
    list of them.  Lengths are [nat]; a length cast [as u64] is its [Z.of_nat]. *)
Abbreviation u8 := Z (only parsing).
Abbreviation bytes := (list Z) (only parsing).

Definition u64_limit : Z := 2 ^ 64.
Definition u32_limit : Z := 2 ^ 32.

(** [len as u64] *)
Definition zlen {A} (l : list A) : Z := Z.of_nat (length l).

(** ** Rust's [Result] *)
Inductive Result (A E : Type) : Type :=
| Ok (a : A)
| Err (e : E).
Arguments Ok {A E} a.
Arguments Err {A E} e.

#[export] Instance Result_eq_dec {A E} `{EqDecision A, EqDecision E} : EqDecision (Result A E).
Proof. solve_decision. Defined.

(** [result?] followed by the rest of the function. *)
Definition rbind {A B E} (m : Result A E) (k : A → Result B E) : Result B E :=
  match m with
  | Ok a => k a
  | Err e => Err e
  end.

Notation "'let?' x ':=' m 'in' k" := (rbind m (λ x, k))
  (at level 10, x pattern, m at level 100, k at level 200) : sarun_scope.

(** ** Rust's [Ord]: a three-way comparison with the laws of a total order. *)
Class Ord (K : Type) : Type := cmp : K → K → comparison.

Class OrdLaws (K : Type) `{Ord K} : Prop := {
  cmp_eq_iff : ∀ x y : K, cmp x y = Eq ↔ x = y;
  cmp_opp : ∀ x y : K, cmp y x = CompOpp (cmp x y);
  cmp_lt_trans : ∀ x y z : K, cmp x y = Lt → cmp y z = Lt → cmp x z = Lt
}.

#[export] Instance Z_ord : Ord Z := Z.compare.
#[export] Instance nat_ord : Ord nat := Nat.compare.

(** Lexicographic comparison of slices, as [<[T] as Ord>::cmp]. *)
Fixpoint list_cmp {A} `{Ord A} (xs ys : list A) : comparison :=
  match xs, ys with
  | [], [] => Eq
  | [], _ :: _ => Lt
  | _ :: _, [] => Gt
  | x :: xs', y :: ys' =>
      match cmp x y with
      | Eq => list_cmp xs' ys'
      | c => c
      end
  end.
#[export] Instance list_ord {A} `{Ord A} : Ord (list A) := list_cmp.

Definition is_lt (c : comparison) : bool :=
  match c with Lt => true | _ => false end.

(** Equality of byte strings, as [==] on slices. *)
Definition bytes_eqb (xs ys : bytes) : bool := bool_decide (xs = ys).

(** [to_le_bytes] and [from_le_bytes] of an [n]-byte unsigned integer. *)
Fixpoint le_encode (n : nat) (v : Z) : bytes :=
  match n with
  | O => []
  | S n => (v mod 256)%Z :: le_encode n (v / 256)%Z
  end.
Fixpoint le_decode (b : bytes) : Z :=
  match b with
  | [] => 0%Z
  | x :: b => (x + 256 * le_decode b)%Z
  end.

(** ** Tactics *)

(** Case analysis on every [match] of the goal, keeping the equations. *)
Ltac split_matches :=
  repeat match goal with
  | |- context [match ?x with _ => _ end] => destruct x eqn:?; simplify_eq/=
  end.

(** Split a conjunction of booleans found in the hypotheses. *)
Ltac split_andb :=
  repeat match goal with
  | H : (_ && _) = true |- _ => apply andb_true_iff in H as [? ?]
  | |- (_ && _) = true => apply andb_true_iff; split
  end.

(** Split a disjunction of booleans known to be false. *)
Ltac split_orb :=
  repeat match goal with
  | H : (_ || _) = false |- _ => apply orb_false_iff in H as [? ?]
  end.

(** ** Lemmas *)

Create HintDb sarun discriminated.
Create Rewrite HintDb sarun.

#[export] Instance Z_ord_laws : OrdLaws Z.
Proof.
  constructor; unfold cmp, Z_ord; intros.
  - apply Z.compare_eq_iff.
  - apply Z.compare_antisym.
  - rewrite Z.compare_lt_iff in *. lia.
Qed.

#[export] Instance nat_ord_laws : OrdLaws nat.
Proof.
  constructor; unfold cmp, nat_ord; intros.
  - apply Nat.compare_eq_iff.
  - apply Nat.compare_antisym.
  - rewrite Nat.compare_lt_iff in *. lia.
Qed.

Section ord_facts.
Context {K : Type} `{OrdLaws K}.
Implicit Types x y z : K.

Lemma cmp_refl x : cmp x x = Eq.
Proof. by apply cmp_eq_iff. Qed.

Lemma cmp_lt_ne x y : cmp x y = Lt → x ≠ y.
Proof. intros Hlt ->. by rewrite cmp_refl in Hlt. Qed.

Lemma cmp_gt_ne x y : cmp x y = Gt → x ≠ y.
Proof. intros Hgt ->. by rewrite cmp_refl in Hgt. Qed.

Lemma cmp_gt_lt x y : cmp x y = Gt ↔ cmp y x = Lt.
Proof. rewrite (cmp_opp x y). destruct (cmp x y); naive_solver. Qed.

Lemma cmp_lt_asym x y : cmp x y = Lt → cmp y x = Gt.
Proof. by rewrite cmp_gt_lt. Qed.

Lemma cmp_eq x y : cmp x y = Eq → x = y.
Proof. apply cmp_eq_iff. Qed.

#[export] Instance ord_eq_dec : EqDecision K | 100.
Proof.
  intros x y. destruct (cmp x y) eqn:E.
  - left. by apply cmp_eq.
  - right. by apply cmp_lt_ne.
  - right. by apply cmp_gt_ne.
Defined.
End ord_facts.

Lemma list_cmp_eq_iff {A} `{OrdLaws A} (xs ys : list A) :
  list_cmp xs ys = Eq ↔ xs = ys.
Proof.
  revert ys. induction xs as [|x xs IH]; intros [|y ys]; simpl; try naive_solver.
  destruct (cmp x y) eqn:E.
  - apply cmp_eq in E as ->. rewrite IH. naive_solver.
  - apply cmp_lt_ne in E. naive_solver.
  - apply cmp_gt_ne in E. naive_solver.
Qed.

Lemma list_cmp_opp {A} `{OrdLaws A} (xs ys : list A) :
  list_cmp ys xs = CompOpp (list_cmp xs ys).
Proof.
  revert ys. induction xs as [|x xs IH]; intros [|y ys]; simpl; try done.
  rewrite (cmp_opp x y). destruct (cmp x y); simpl; auto.
Qed.

Lemma list_cmp_lt_trans {A} `{OrdLaws A} (xs ys zs : list A) :
  list_cmp xs ys = Lt → list_cmp ys zs = Lt → list_cmp xs zs = Lt.
Proof.
  revert ys zs. induction xs as [|x xs IH]; intros [|y ys] [|z zs]; simpl; try done.
  destruct (cmp x y) eqn:Exy, (cmp y z) eqn:Eyz; intros; try done;
    repeat match goal with
    | E : cmp _ _ = Eq |- _ => apply cmp_eq in E as ->
    end; rewrite ?cmp_refl, ?Exy, ?Eyz; eauto.
  by rewrite (cmp_lt_trans _ _ _ Exy Eyz).
Qed.

#[export] Instance list_ord_laws {A} `{OrdLaws A} : OrdLaws (list A).
Proof.
  constructor; unfold cmp, list_ord.
  - apply list_cmp_eq_iff.
  - apply list_cmp_opp.
  - apply list_cmp_lt_trans.
Qed.

Lemma rbind_ok {A B E} (m : Result A E) (k : A → Result B E) b :
  rbind m k = Ok b ↔ ∃ a, m = Ok a ∧ k a = Ok b.
Proof. destruct m; naive_solver. Qed.

Lemma bytes_eqb_eq (xs ys : bytes) : bytes_eqb xs ys = true ↔ xs = ys.
Proof. unfold bytes_eqb. by rewrite bool_decide_eq_true. Qed.

Lemma bytes_eqb_refl (xs : bytes) : bytes_eqb xs xs = true.
Proof. by apply bytes_eqb_eq. Qed.

Lemma bytes_eqb_ne (xs ys : bytes) : xs ≠ ys → bytes_eqb xs ys = false.
Proof. unfold bytes_eqb. by rewrite bool_decide_eq_false. Qed.

Lemma zlen_app {A} (l k : list A) : zlen (l ++ k) = (zlen l + zlen k)%Z.
Proof. unfold zlen. rewrite length_app. lia. Qed.

Lemma zlen_nonneg {A} (l : list A) : (0 ≤ zlen l)%Z.
Proof. unfold zlen. lia. Qed.

Lemma le_encode_length n v : length (le_encode n v) = n.
Proof. revert v. induction n as [|n IH]; intros v; simpl; [done|]. by rewrite IH. Qed.

Lemma le_roundtrip n v : (0 ≤ v < 256 ^ Z.of_nat n)%Z → le_decode (le_encode n v) = v.
Proof.
  revert v. induction n as [|n IH]; intros v Hv; simpl.
  - change (256 ^ Z.of_nat 0)%Z with 1%Z in Hv. lia.
  - rewrite Nat2Z.inj_succ, Z.pow_succ_r in Hv by lia.
    rewrite IH.
    + pose proof (Z.div_mod v 256). lia.
    + split; [apply Z.div_pos; lia|]. apply Z.div_lt_upper_bound; lia.
Qed.

Lemma le_encode_inj n v w :
  (0 ≤ v < 256 ^ Z.of_nat n)%Z → (0 ≤ w < 256 ^ Z.of_nat n)%Z →
  le_encode n v = le_encode n w → v = w.
Proof. intros Hv Hw E. rewrite <- (le_roundtrip n v Hv), <- (le_roundtrip n w Hw). by rewrite E. Qed.

(** A number below [2 ^ k] fits under a multiple of [2 ^ k]. *)
Lemma lor_shift_add k hi lo :
  (0 ≤ k → 0 ≤ lo < 2 ^ k → Z.lor (hi * 2 ^ k) lo = hi * 2 ^ k + lo)%Z.
Proof.
  intros Hk Hlo. assert (Hl : Z.land (hi * 2 ^ k) lo = 0%Z).
  { apply Z.bits_inj'. intros n Hn. rewrite Z.land_spec, Z.bits_0.
    destruct (Z.lt_ge_cases n k) as [Hlt|Hge].
    - by rewrite Z.mul_pow2_bits_low by lia.
    - destruct (Z.eq_dec lo 0%Z) as [->|]; [by rewrite Z.bits_0, andb_false_r|].
      rewrite (Z.bits_above_log2 lo), andb_false_r; [done|lia|].
      apply Z.lt_le_trans with k; [|done]. apply Z.log2_lt_pow2; lia. }
  rewrite <- Z.lxor_lor by done. symmetry. by apply Z.add_nocarry_lxor.
Qed.

#[export] Hint Resolve cmp_refl cmp_lt_ne cmp_gt_ne cmp_eq zlen_nonneg : sarun.
#[export] Hint Rewrite @length_app @zlen_app : sarun.
