(* ===== verification/BTreeMap.v ===== *)
(** * Rust's [BTreeMap] as a strictly ascending association list.

    The source keys every tree by a [BTreeMap] and relies on its iteration
    order.  A map is the list of its entries in that order; [bt_ok] says
    that a list is one.  On such lists equality is extensional ([bt_ext]). *)

From S2P Require Import Prelude.

Abbreviation btmap K V := (list (K * V)) (only parsing).

Section btmap_defs.
Context {K : Type} `{Ord K}.

(** [BTreeMap::get] *)
Fixpoint bt_get {V} (k : K) (m : btmap K V) : option V :=
  match m with
  | [] => None
  | (k', v) :: m' => match cmp k k' with Eq => Some v | _ => bt_get k m' end
  end.

(** [BTreeMap::contains_key] *)
Definition bt_contains {V} (k : K) (m : btmap K V) : bool :=
  match bt_get k m with Some _ => true | None => false end.

(** [BTreeMap::insert] *)
Fixpoint bt_insert {V} (k : K) (v : V) (m : btmap K V) : btmap K V :=
  match m with
  | [] => [(k, v)]
  | (k', v') :: m' =>
      match cmp k k' with
      | Lt => (k, v) :: m
      | Eq => (k, v) :: m'
      | Gt => (k', v') :: bt_insert k v m'
      end
  end.

(** [BTreeMap::remove] (the map left behind; the removed value is [bt_get]) *)
Fixpoint bt_remove {V} (k : K) (m : btmap K V) : btmap K V :=
  match m with
  | [] => []
  | (k', v') :: m' =>
      match cmp k k' with Eq => m' | _ => (k', v') :: bt_remove k m' end
  end.

(** The loop [for (k, v) in m { if let Some(w) = f(k, v) { acc.insert(k, w) } }];
    with [acc] empty it is [m.iter().filter_map(f).collect()]. *)
Definition bt_put_all {V W} (f : K → V → option W) (m : btmap K V)
    (acc : btmap K W) : btmap K W :=
  fold_left
    (λ acc '(k, v), match f k v with Some w => bt_insert k w acc | None => acc end)
    m acc.

(** The loop [for (k, v) in m { let mut s = acc.remove(k); f(&mut s, v);
    if let Some(w) = s { acc.insert(k, w) } }]. *)
Definition bt_alter_all {V W} (f : option W → V → option W) (m : btmap K V)
    (acc : btmap K W) : btmap K W :=
  fold_left
    (λ acc '(k, v),
      match f (bt_get k acc) v with
      | Some w => bt_insert k w (bt_remove k acc)
      | None => bt_remove k acc
      end)
    m acc.

(** Strictly ascending keys. *)
Fixpoint bt_ok {V} (m : btmap K V) : bool :=
  match m with
  | [] => true
  | (k, _) :: m' => forallb (λ '(k', _), is_lt (cmp k k')) m' && bt_ok m'
  end.
End btmap_defs.

Section btmap_facts.
Context {K : Type} `{OrdLaws K}.
Implicit Types j k : K.

Lemma bt_get_insert_eq {V} k (v : V) m : bt_get k (bt_insert k v m) = Some v.
Proof.
  induction m as [|[k' v'] m IH]; simpl; [by rewrite cmp_refl|].
  destruct (cmp k k') eqn:E; simpl; rewrite ?cmp_refl, ?E; auto.
Qed.

Lemma bt_get_insert_ne {V} j k (v : V) m :
  j ≠ k → bt_get j (bt_insert k v m) = bt_get j m.
Proof.
  intros Hne.
  assert (Hjk : cmp j k ≠ Eq) by (by intros ?%cmp_eq).
  induction m as [|[k' v'] m IH]; simpl.
  - by destruct (cmp j k).
  - destruct (cmp k k') eqn:E; simpl.
    + apply cmp_eq in E as ->. by destruct (cmp j k').
    + by destruct (cmp j k).
    + by rewrite IH.
Qed.

Lemma bt_get_insert {V} j k (v : V) m :
  bt_get j (bt_insert k v m) = if decide (j = k) then Some v else bt_get j m.
Proof.
  case_decide as E; [subst; apply bt_get_insert_eq|by apply bt_get_insert_ne].
Qed.

Lemma bt_ok_cons {V} k (v : V) m :
  bt_ok ((k, v) :: m) = true ↔
  (∀ k' v', (k', v') ∈ m → cmp k k' = Lt) ∧ bt_ok m = true.
Proof.
  simpl. rewrite andb_true_iff, forallb_forall.
  apply and_iff_compat_r. split.
  - intros Hall k' v' Hin. apply list_elem_of_In in Hin.
    specialize (Hall _ Hin). simpl in Hall. by destruct (cmp k k').
  - intros Hall [k' v'] Hin. apply list_elem_of_In in Hin. by rewrite (Hall _ _ Hin).
Qed.

Lemma bt_get_elem {V} k (v : V) m : bt_get k m = Some v → (k, v) ∈ m.
Proof.
  induction m as [|[k' v'] m IH]; simpl; [done|].
  destruct (cmp k k') eqn:E; intros; simplify_eq; [apply cmp_eq in E as ->|..];
    set_solver.
Qed.

Lemma bt_elem_get {V} k (v : V) m :
  bt_ok m = true → (k, v) ∈ m → bt_get k m = Some v.
Proof.
  induction m as [|[k' v'] m IH]; intros Hok Hin; [set_solver|].
  apply bt_ok_cons in Hok as [Hlt Hok]. simpl.
  apply elem_of_cons in Hin as [[= -> ->]|Hin]; [by rewrite cmp_refl|].
  rewrite (proj2 (cmp_gt_lt _ _) (Hlt _ _ Hin)). auto.
Qed.

Lemma bt_get_None_lt {V} k (v : V) m :
  bt_ok ((k, v) :: m) = true → bt_get k m = None.
Proof.
  intros [Hlt _]%bt_ok_cons. destruct (bt_get k m) as [w|] eqn:E; [|done].
  apply bt_get_elem in E. apply Hlt in E. by rewrite cmp_refl in E.
Qed.

Lemma bt_insert_elem {V} j k (v w : V) m :
  (j, w) ∈ bt_insert k v m → (j = k ∧ w = v) ∨ (j, w) ∈ m.
Proof.
  induction m as [|[k' v'] m IH]; simpl; [set_solver|].
  destruct (cmp k k') eqn:E; set_solver.
Qed.

Lemma bt_ok_insert {V} k (v : V) m : bt_ok m = true → bt_ok (bt_insert k v m) = true.
Proof.
  induction m as [|[k' v'] m IH]; intros Hok; [done|].
  pose proof Hok as [Hlt Hok']%bt_ok_cons. simpl.
  destruct (cmp k k') eqn:E.
  - apply cmp_eq in E as ->. by apply bt_ok_cons.
  - apply bt_ok_cons. split; [|done]. intros j w Hin.
    apply elem_of_cons in Hin as [[= -> ->]|Hin]; [done|].
    eapply cmp_lt_trans; eauto.
  - apply bt_ok_cons. split; [|by apply IH]. intros j w Hin.
    apply bt_insert_elem in Hin as [[-> ->]|Hin]; [by apply cmp_gt_lt|eauto].
Qed.

Lemma bt_remove_elem {V} j k (w : V) m : (j, w) ∈ bt_remove k m → (j, w) ∈ m.
Proof.
  induction m as [|[k' v'] m IH]; simpl; [done|]. destruct (cmp k k'); set_solver.
Qed.

Lemma bt_ok_remove {V} k (m : btmap K V) : bt_ok m = true → bt_ok (bt_remove k m) = true.
Proof.
  induction m as [|[k' v'] m IH]; intros Hok; [done|].
  apply bt_ok_cons in Hok as [Hlt Hok']. simpl.
  destruct (cmp k k'); [done|..]; apply bt_ok_cons; split; auto;
    intros j w ?%bt_remove_elem; eauto.
Qed.

Lemma bt_get_remove {V} j k (m : btmap K V) :
  bt_ok m = true →
  bt_get j (bt_remove k m) = if decide (j = k) then None else bt_get j m.
Proof.
  induction m as [|[k' v'] m IH]; intros Hok; simpl; [by case_decide|].
  pose proof (bt_get_None_lt _ _ _ Hok) as Hnone.
  apply bt_ok_cons in Hok as [Hlt Hok].
  destruct (cmp k k') eqn:E; simpl.
  - apply cmp_eq in E as ->. case_decide as Ejk; [by subst|].
    destruct (cmp j k') eqn:Ej; [by apply cmp_eq in Ej|done..].
  - rewrite IH by done. case_decide as Ejk; [|done].
    subst. by rewrite E.
  - rewrite IH by done. case_decide as Ejk; [|done].
    subst. by rewrite E.
Qed.

(** Extensionality: maps are determined by their lookups. *)
Lemma bt_ext {V} (m1 m2 : btmap K V) :
  bt_ok m1 = true → bt_ok m2 = true →
  (∀ k, bt_get k m1 = bt_get k m2) → m1 = m2.
Proof.
  revert m2. induction m1 as [|[k1 v1] m1 IH]; intros [|[k2 v2] m2] Hok1 Hok2 Hext.
  - done.
  - specialize (Hext k2). simpl in Hext. by rewrite cmp_refl in Hext.
  - specialize (Hext k1). simpl in Hext. by rewrite cmp_refl in Hext.
  - pose proof (bt_get_None_lt _ _ _ Hok1) as Hn1.
    pose proof (bt_get_None_lt _ _ _ Hok2) as Hn2.
    pose proof Hok1 as [Hlt1 Hok1']%bt_ok_cons.
    pose proof Hok2 as [Hlt2 Hok2']%bt_ok_cons.
    assert (k1 = k2) as <-.
    { pose proof (Hext k1) as H1. pose proof (Hext k2) as H2. simpl in H1, H2.
      rewrite cmp_refl in H1. rewrite cmp_refl in H2.
      destruct (cmp k1 k2) eqn:E; [by apply cmp_eq| |].
      - symmetry in H1. apply bt_get_elem, Hlt2 in H1.
        pose proof (cmp_lt_trans _ _ _ E H1) as Habs. by rewrite cmp_refl in Habs.
      - apply cmp_gt_lt in E. rewrite E in H2. apply bt_get_elem, Hlt1 in H2.
        pose proof (cmp_lt_trans _ _ _ E H2) as Habs. by rewrite cmp_refl in Habs. }
    assert (v1 = v2) as <-.
    { pose proof (Hext k1) as H1. simpl in H1. rewrite cmp_refl in H1. by simplify_eq. }
    f_equal. apply IH; [done..|]. intros k. specialize (Hext k). simpl in Hext.
    destruct (cmp k k1) eqn:E; [|done..].
    apply cmp_eq in E as ->. by rewrite Hn1, Hn2.
Qed.

Lemma bt_ok_put_all {V W} (f : K → V → option W) m acc :
  bt_ok acc = true → bt_ok (bt_put_all f m acc) = true.
Proof.
  unfold bt_put_all. revert acc. induction m as [|[k v] m IH]; intros acc Hok; simpl; [done|].
  apply IH. destruct (f k v); [by apply bt_ok_insert|done].
Qed.

Lemma bt_get_put_all {V W} (f : K → V → option W) m acc j :
  bt_ok m = true →
  bt_get j (bt_put_all f m acc) =
  match bt_get j m with
  | Some v => match f j v with Some w => Some w | None => bt_get j acc end
  | None => bt_get j acc
  end.
Proof.
  unfold bt_put_all. revert acc. induction m as [|[k v] m IH]; intros acc Hok; simpl; [done|].
  pose proof (bt_get_None_lt _ _ _ Hok) as Hn.
  apply bt_ok_cons in Hok as [Hlt Hok]. rewrite IH by done.
  destruct (cmp j k) eqn:E.
  - apply cmp_eq in E as ->. rewrite Hn.
    destruct (f k v); [by rewrite bt_get_insert_eq|done].
  - destruct (f k v); [|done]. rewrite bt_get_insert_ne by eauto with sarun.
    done.
  - destruct (f k v); [|done]. rewrite bt_get_insert_ne by eauto with sarun.
    done.
Qed.

Lemma bt_ok_alter_all {V W} (f : option W → V → option W) m acc :
  bt_ok acc = true → bt_ok (bt_alter_all f m acc) = true.
Proof.
  unfold bt_alter_all. revert acc. induction m as [|[k v] m IH]; intros acc Hok; simpl; [done|].
  apply IH. destruct (f (bt_get k acc) v); [apply bt_ok_insert|]; by apply bt_ok_remove.
Qed.

Lemma bt_get_alter_all {V W} (f : option W → V → option W) m acc j :
  bt_ok m = true → bt_ok acc = true →
  bt_get j (bt_alter_all f m acc) =
  match bt_get j m with
  | Some v => f (bt_get j acc) v
  | None => bt_get j acc
  end.
Proof.
  unfold bt_alter_all. revert acc.
  induction m as [|[k v] m IH]; intros acc Hok Hacc; simpl; [done|].
  pose proof (bt_get_None_lt _ _ _ Hok) as Hn.
  apply bt_ok_cons in Hok as [Hlt Hok].
  rewrite IH; [|done|by destruct (f _ v); [apply bt_ok_insert|]; apply bt_ok_remove].
  assert (Hstep : ∀ o, bt_get j (match o with
      | Some w => bt_insert k w (bt_remove k acc) | None => bt_remove k acc end)
    = if decide (j = k) then o else bt_get j acc).
  { intros [w|]; rewrite ?bt_get_insert, bt_get_remove by done; by case_decide. }
  rewrite Hstep. destruct (cmp j k) eqn:E.
  - apply cmp_eq in E as ->. rewrite decide_True by done. by rewrite Hn.
  - rewrite decide_False by eauto with sarun. done.
  - rewrite decide_False by eauto with sarun. done.
Qed.

(** Appending the greatest key. *)
Lemma bt_ok_app {V} (m1 m2 : btmap K V) :
  bt_ok (m1 ++ m2) = true ↔
  bt_ok m1 = true ∧ bt_ok m2 = true ∧
  ∀ k1 v1 k2 v2, (k1, v1) ∈ m1 → (k2, v2) ∈ m2 → cmp k1 k2 = Lt.
Proof.
  induction m1 as [|[k v] m1 IH]; [set_solver|].
  rewrite <- app_comm_cons, !bt_ok_cons, IH. split.
  - intros [Hlt (?&?&Hx)]. split_and!; [set_solver|done|done|].
    intros k1 v1 k2 v2 [[= -> ->]|Hin]%elem_of_cons Hin2.
    + apply (Hlt k2 v2). set_solver.
    + by eapply Hx.
  - intros [[Hlt ?] [? Hx]]. split_and!; [|done|done|].
    + intros k' v' [Hin|Hin]%elem_of_app; [by eapply Hlt|].
      apply (Hx k v k' v'); set_solver.
    + intros k1 v1 k2 v2 ??. apply (Hx k1 v1 k2 v2); set_solver.
Qed.

Lemma bt_insert_last {V} k (v : V) m :
  (∀ k' v', (k', v') ∈ m → cmp k' k = Lt) → bt_insert k v m = m ++ [(k, v)].
Proof.
  induction m as [|[k' v'] m IH]; intros Hlt; [done|]. simpl.
  assert (E : cmp k k' = Gt) by (apply cmp_gt_lt, (Hlt k' v'); set_solver).
  rewrite E, IH; [done|]. intros k1 v1 ?. apply (Hlt k1 v1). set_solver.
Qed.

Lemma bt_insert_snoc {V} (m : btmap K V) k v :
  bt_ok (m ++ [(k, v)]) = true → bt_insert k v m = m ++ [(k, v)].
Proof. intros (_&_&Hlt)%bt_ok_app. apply bt_insert_last. intros k' v' ?. apply (Hlt k' v' k v); set_solver. Qed.

Lemma bt_ok_prefix {V} (m : btmap K V) x m' :
  bt_ok (m ++ x :: m') = true → bt_ok (m ++ [x]) = true.
Proof.
  replace (m ++ x :: m') with ((m ++ [x]) ++ m') by (by rewrite <- app_assoc).
  by intros (?&_&_)%bt_ok_app.
Qed.

(** The greatest key was not there before. *)
Lemma bt_get_snoc {V} (m : btmap K V) k v : bt_ok (m ++ [(k, v)]) = true → bt_get k m = None.
Proof.
  intros (_&_&Hlt)%bt_ok_app. destruct (bt_get k m) as [w|] eqn:E; [|done].
  apply bt_get_elem in E. specialize (Hlt k w k v E ltac:(set_solver)). by rewrite cmp_refl in Hlt.
Qed.

Lemma bt_insert_length {V} k (v : V) m :
  bt_get k m = None → length (bt_insert k v m) = S (length m).
Proof.
  induction m as [|[k' v'] m IH]; simpl; [done|]. destruct (cmp k k'); [done|done|].
  intros. simpl. by rewrite IH.
Qed.

Lemma bt_contains_get {V} k (m : btmap K V) :
  bt_contains k m = match bt_get k m with Some _ => true | None => false end.
Proof. done. Qed.

Lemma bt_nil_get {V} (m : btmap K V) : (∀ k, bt_get k m = None) → m = [].
Proof.
  destruct m as [|[k v] m]; [done|]. intros Hn. specialize (Hn k). simpl in Hn.
  by rewrite cmp_refl in Hn.
Qed.
End btmap_facts.

#[export] Hint Resolve bt_ok_insert bt_ok_remove bt_ok_put_all bt_ok_alter_all : sarun.
