(* ===== verification/IoRead.v ===== *)
(** * Readers and writers.

    What the source uses of [std::io]: [Read], [Write], [Read::read_exact], and
    the laws a transport keeps however it cuts the bytes into pieces. *)

From S2P Require Import Prelude.

(** [io::Write]: the writer after a [write_all]. *)
Class Write (W : Type) : Type := write_all : W → bytes → W * Result unit Z.

(** [io::Read]: up to [n] bytes, none only at the end of the input. *)
Class Read (R : Type) : Type := read : R → nat → R * Result bytes Z.

(** [Vec<u8>] as a writer. *)
#[export] Instance vec_write : Write bytes := λ w b, (w ++ b, Ok tt).

(** Why a buffer was not filled: an error, the end of the input with what had
    been read before it, or no rounds left. *)
Inductive ReadFault : Type :=
| Failed (e : Z)
| Ended (got : bytes)
| Stuck.

Section reader.
Context {R : Type} `{Read R}.

(** A loop of reads until [want] bytes are there; every read gives a byte at
    least, so that as many rounds as bytes are asked for are enough. *)
Fixpoint read_fill (rounds : nat) (input : R) (want : nat) (filled : bytes) :
    R * Result bytes ReadFault :=
  if (want <=? length filled)%nat then (input, Ok filled) else
  match rounds with
  | O => (input, Err Stuck)
  | S rounds =>
      match read input (want - length filled) with
      | (input, Err e) => (input, Err (Failed e))
      | (input, Ok []) => (input, Err (Ended filled))
      | (input, Ok chunk) => read_fill rounds input want (filled ++ chunk)
      end
  end.

(** [Read::read_exact] *)
Definition read_exact (input : R) (want : nat) : R * Result bytes ReadFault :=
  read_fill want input want [].
End reader.

(** ** Transports *)

(** What a reader promises: it hands out its contents in order, in pieces of
    any size, and an empty piece only at the end. *)
Class ReadLaws (R : Type) `{Read R} (contents : R → bytes) : Prop :=
  read_spec : ∀ r n, (0 < n)%nat → ∃ chunk r',
    read r n = (r', Ok chunk) ∧ contents r = chunk ++ contents r' ∧
    (length chunk ≤ n)%nat ∧ (chunk = [] → contents r = []).

(** [&[u8]] as a reader: as much as fits. *)
#[export] Instance slice_read : Read bytes := λ r n, (drop n r, Ok (take n r)).
#[export] Instance slice_read_laws : ReadLaws bytes (λ r, r).
Proof.
  intros r n Hn. exists (take n r), (drop n r). split_and!.
  - done.
  - by rewrite take_drop.
  - rewrite length_take. lia.
  - destruct r; [done|]. destruct n; [lia|done].
Qed.

(** A transport that hands out one byte at a time. *)
Record Trickle : Type := MkTrickle { dripping : bytes }.
#[export] Instance trickle_read : Read Trickle := λ r _,
  match dripping r with
  | [] => (r, Ok [])
  | b :: rest => (MkTrickle rest, Ok [b])
  end.
#[export] Instance trickle_read_laws : ReadLaws Trickle dripping.
Proof.
  intros [[|b rest]] n Hn.
  - exists [], (MkTrickle []). repeat split; simpl; lia.
  - exists [b], (MkTrickle rest). repeat split; simpl; [lia|done].
Qed.

Section transport.
Context {R : Type} `{ReadLaws R contents}.

Lemma read_fill_complete rounds r want filled bs rest :
  contents r = bs ++ rest → (length filled + length bs = want)%nat → (length bs ≤ rounds)%nat →
  ∃ r', read_fill rounds r want filled = (r', Ok (filled ++ bs)) ∧ contents r' = rest.
Proof.
  revert r filled bs. induction rounds as [|rounds IH]; intros r filled bs Hc Hw Hr; simpl.
  - destruct bs; [|simpl in Hr; lia]. rewrite app_nil_r. simpl in Hw.
    destruct (Nat.leb_spec want (length filled)); [|lia]. by eexists.
  - destruct (Nat.leb_spec want (length filled)).
    { destruct bs; [|simpl in Hw; lia]. rewrite app_nil_r. by eexists. }
    destruct (read_spec r (want - length filled)) as (chunk&r'&->&Hsplit&Hlen&Hend); [lia|].
    destruct chunk as [|b chunk].
    { exfalso. rewrite Hc in Hend. destruct bs; [simpl in Hw; lia|]. by specialize (Hend eq_refl). }
    rewrite Hc in Hsplit. set (c := b :: chunk) in *.
    assert (Hle : (length c ≤ length bs)%nat) by lia.
    pose proof (f_equal (take (length c)) Hsplit) as Ht.
    rewrite take_app_le, take_app_length in Ht by done.
    pose proof (f_equal (drop (length c)) Hsplit) as Hd.
    rewrite drop_app_le, drop_app_length in Hd by done.
    destruct (IH r' (filled ++ c) (drop (length c) bs)) as (r''&Hf&Hr''); [done| | |].
    + rewrite length_app, length_drop. lia.
    + rewrite length_drop. simpl. lia.
    + exists r''. split; [|done]. rewrite Hf, <- app_assoc. do 3 f_equal.
      rewrite <- Ht at 1. by rewrite take_drop.
Qed.

Lemma read_fill_short rounds r want filled :
  (length filled + length (contents r) < want)%nat → (want ≤ length filled + rounds)%nat →
  ∃ r', read_fill rounds r want filled = (r', Err (Ended (filled ++ contents r))).
Proof.
  revert r filled. induction rounds as [|rounds IH]; intros r filled Hw Hr; simpl;
    (destruct (Nat.leb_spec want (length filled)); [lia|]); [lia|].
  destruct (read_spec r (want - length filled)) as (chunk&r'&->&Hsplit&Hlen&Hend); [lia|].
  destruct chunk as [|b chunk].
  - rewrite (Hend eq_refl), app_nil_r. by eexists.
  - rewrite Hsplit in *. rewrite length_app in Hw. simpl in Hw.
    destruct (IH r' (filled ++ b :: chunk)) as (r''&->).
    + rewrite length_app. simpl. lia.
    + rewrite length_app. simpl. lia.
    + exists r''. by rewrite <- app_assoc.
Qed.

Lemma read_exact_ok r bs rest :
  contents r = bs ++ rest →
  ∃ r', read_exact r (length bs) = (r', Ok bs) ∧ contents r' = rest.
Proof. intros Hc. by apply (read_fill_complete (length bs) r (length bs) [] bs rest). Qed.

Lemma read_exact_ended r want :
  (length (contents r) < want)%nat →
  ∃ r', read_exact r want = (r', Err (Ended (contents r))).
Proof. intros Hw. apply (read_fill_short want r want []); simpl; lia. Qed.
End transport.
