(* ===== verification/DepotModel.v ===== *)
(** * The depot node model: views, delta nodes, and overlaying a delta.

    Models [chupa/depot/src/lib.rs]: the data types, [apply] and its in-place
    twin [apply_mut].  [Arc] sharing is invisible to a pure value: a shared
    subtree is the same value, and copy-on-write is a functional update. *)

From S2P Require Import Prelude.
From S2P Require Import BTreeMap.

(** [type Name = Vec<u8>] *)
Abbreviation Name := (list Z) (only parsing).
(** [type Attrs = BTreeMap<Name, Vec<u8>>] *)
Abbreviation Attrs := (list (list Z * list Z)) (only parsing).

(** A resolved tree: [struct View]. *)
Inductive View : Type := MkView {
  v_blob : option bytes;
  v_attrs : Attrs;
  v_children : btmap Name View
}.

(** [View::default()] *)
Definition view_default : View := MkView None [] [].

(** [enum BlobOp] *)
Inductive BlobOp : Type :=
| Keep
| SetBlob (b : bytes)
| Remove.

(** [enum Presence] *)
Inductive Presence : Type := Live | Tombstone.

(** [enum Anchor] *)
Inductive Anchor : Type := Lower | Backdrop.

(** One node of a delta tree: [struct Node]. *)
Inductive Node : Type := MkNode {
  presence : Presence;
  blob : BlobOp;
  opaque : bool;
  attrs : option Attrs;
  anchor : Anchor;
  children : btmap Name Node
}.

(** [struct Layer] *)
Record Layer : Type := MkLayer { root : Node }.

(** [Node::keep] *)
Definition keep : Node := MkNode Live Keep false None Lower [].

(** [Node::tombstone] *)
Definition tombstone : Node := MkNode Tombstone Keep false None Lower [].

(** [Node::hole] *)
Definition hole : Node := MkNode Live Keep false None Backdrop [].

(** [Layer::empty] *)
Definition layer_empty : Layer := MkLayer keep.

Definition is_tombstone (n : Node) : bool :=
  match presence n with Tombstone => true | Live => false end.

Definition is_keep (b : BlobOp) : bool :=
  match b with Keep => true | _ => false end.

Definition is_backdrop (a : Anchor) : bool :=
  match a with Backdrop => true | Lower => false end.

Definition is_nil {A} (l : list A) : bool :=
  match l with [] => true | _ :: _ => false end.

Definition is_some {A} (o : option A) : bool :=
  match o with Some _ => true | None => false end.

(** [Node::is_identity] *)
Definition is_identity (n : Node) : bool :=
  negb (is_tombstone n)
  && is_keep (blob n)
  && negb (opaque n)
  && negb (is_some (attrs n))
  && negb (is_backdrop (anchor n))
  && is_nil (children n).

(** [is_empty_view] *)
Definition is_empty_view (v : View) : bool :=
  negb (is_some (v_blob v)) && is_nil (v_attrs v) && is_nil (v_children v).

(** [asserts_self] *)
Definition asserts_self (n : Node) : bool :=
  negb (is_keep (blob n)) || is_some (attrs n) || opaque n.

(** The existence rule at the end of [apply_node], [apply_node_mut] and
    [apply_child_mut]. *)
Definition node_exists (v : View) (n : Node) (base_empty_present : bool) : bool :=
  is_some (v_blob v) || negb (is_nil (v_attrs v)) || negb (is_nil (v_children v))
  || asserts_self n || base_empty_present.

(** [apply_node] *)
Fixpoint apply_node (base : option View) (n : Node) {struct n} : option View :=
  if is_tombstone n then None else
  let base_empty_present :=
    match base with Some b => is_empty_view b | None => false end in
  let blob' :=
    match blob n with
    | Keep => base ≫= v_blob
    | SetBlob b => Some b
    | Remove => None
    end in
  let attrs' :=
    match attrs n with
    | Some map => map
    | None => match base with Some b => v_attrs b | None => [] end
    end in
  let lower_children : option (btmap Name View) :=
    if opaque n then None else v_children <$> base in
  let passed :=
    match lower_children with
    | Some lower =>
        bt_put_all
          (λ name child, if bt_contains name (children n) then None else Some child)
          lower []
    | None => []
    end in
  let children' :=
    bt_put_all
      (λ name child_node, apply_node (lower_children ≫= bt_get name) child_node)
      (children n) passed in
  let v := MkView blob' attrs' children' in
  if node_exists v n base_empty_present then Some v else None.

(** [apply] *)
Definition apply (base : option View) (l : Layer) : option View :=
  apply_node base (root l).

(** [resolve]: fold [apply] over nothing. *)
Definition resolve (stack : list Layer) : option View :=
  fold_left (λ view layer, apply view layer) stack None.

(** [mutate_view], over the recursive call it makes on the children. *)
Definition mutate_view_with (child_mut : option View → Node → option View)
    (v : View) (n : Node) : View :=
  let blob' :=
    match blob n with
    | Keep => v_blob v
    | SetBlob b => Some b
    | Remove => None
    end in
  let attrs' := match attrs n with Some map => map | None => v_attrs v end in
  let cleared := if opaque n then [] else v_children v in
  MkView blob' attrs' (bt_alter_all child_mut (children n) cleared).

(** [apply_child_mut]: the slot before, the slot after. *)
Fixpoint apply_child_mut (slot : option View) (n : Node) {struct n} : option View :=
  if is_tombstone n then None else
  let base_empty_present :=
    match slot with Some v => is_empty_view v | None => false end in
  let v := mutate_view_with apply_child_mut (default view_default slot) n in
  if node_exists v n base_empty_present then Some v else None.

(** [mutate_view] *)
Definition mutate_view : View → Node → View := mutate_view_with apply_child_mut.

(** [apply_node_mut] *)
Definition apply_node_mut (slot : option View) (n : Node) : option View :=
  if is_tombstone n then None else
  let base_empty_present :=
    match slot with Some v => is_empty_view v | None => false end in
  let v := mutate_view (default view_default slot) n in
  if node_exists v n base_empty_present then Some v else None.

(** [apply_mut] *)
Definition apply_mut (base : option View) (l : Layer) : option View :=
  apply_node_mut base (root l).

(** ** Well-formedness: every [BTreeMap] of the tree is one. *)
Fixpoint wf_view (v : View) : bool :=
  bt_ok (v_attrs v) && bt_ok (v_children v)
  && forallb (λ '(_, c), wf_view c) (v_children v).

Fixpoint wf_node (n : Node) : bool :=
  match attrs n with Some a => bt_ok a | None => true end
  && bt_ok (children n)
  && forallb (λ '(_, c), wf_node c) (children n).

Definition wf_oview (o : option View) : bool :=
  match o with Some v => wf_view v | None => true end.

(** ** Observations of an optional view

    What a reader of the tree sees: the blob, the attributes and the child
    below a name, absence reading as emptiness. *)
Definition oblob (o : option View) : option bytes := o ≫= v_blob.
Definition oattrs (o : option View) : Attrs :=
  match o with Some v => v_attrs v | None => [] end.
Definition ochildren (o : option View) : btmap Name View :=
  match o with Some v => v_children v | None => [] end.
Definition okid (k : Name) (o : option View) : option View := bt_get k (ochildren o).

(** An explicitly present empty node. *)
Definition empty_present (o : option View) : bool :=
  match o with Some v => is_empty_view v | None => false end.

(** The node has something to show. *)
Definition has_content (o : option View) : bool :=
  is_some (oblob o) || negb (is_nil (oattrs o)) || negb (is_nil (ochildren o)).

(** What [n] makes of the child [k] of [base]. *)
Definition lower_kid (base : option View) (n : Node) (k : Name) : option View :=
  if opaque n then None else okid k base.

Definition kid_after (f : option View → Node → option View)
    (base : option View) (n : Node) (k : Name) : option View :=
  match bt_get k (children n) with
  | Some c => f (lower_kid base n k) c
  | None => lower_kid base n k
  end.

(** ** Induction over the nested trees *)

Section tree_induction.

Lemma view_ind' (P : View → Prop) :
  (∀ v, (∀ k c, (k, c) ∈ v_children v → P c) → P v) → ∀ v, P v.
Proof.
  intros Hstep. fix IH 1. intros [b a cs]. apply Hstep. simpl. clear b a.
  induction cs as [|[k' c'] cs IHcs]; intros k c Hin.
  - clear IH. by apply not_elem_of_nil in Hin.
  - apply elem_of_cons in Hin as [[= -> ->]|Hin]; [apply IH|by eapply IHcs].
Qed.

Lemma node_ind' (P : Node → Prop) :
  (∀ n, (∀ k c, (k, c) ∈ children n → P c) → P n) → ∀ n, P n.
Proof.
  intros Hstep. fix IH 1. intros [p b o a an cs]. apply Hstep. simpl. clear p b o a an.
  induction cs as [|[k' c'] cs IHcs]; intros k c Hin.
  - clear IH. by apply not_elem_of_nil in Hin.
  - apply elem_of_cons in Hin as [[= -> ->]|Hin]; [apply IH|by eapply IHcs].
Qed.
End tree_induction.

(** ** Well-formedness facts *)

Lemma wf_view_unfold v :
  wf_view v = true ↔
  bt_ok (v_attrs v) = true ∧ bt_ok (v_children v) = true ∧
  ∀ k c, (k, c) ∈ v_children v → wf_view c = true.
Proof.
  destruct v as [b a cs]; simpl. rewrite !andb_true_iff, forallb_forall.
  setoid_rewrite <- list_elem_of_In. split.
  - intros [[??] Hall]. split_and!; try done. intros k c Hin. apply (Hall _ Hin).
  - intros (?&?&Hall). split_and!; try done. intros [k c]. apply Hall.
Qed.

Lemma wf_node_unfold n :
  wf_node n = true ↔
  match attrs n with Some a => bt_ok a = true | None => True end ∧
  bt_ok (children n) = true ∧
  ∀ k c, (k, c) ∈ children n → wf_node c = true.
Proof.
  destruct n as [p b o a an cs]; simpl. rewrite !andb_true_iff, forallb_forall.
  setoid_rewrite <- list_elem_of_In. split.
  - intros [[??] Hall]. split_and!; [by destruct a|done|]. intros k c Hin. apply (Hall _ Hin).
  - intros (?&?&Hall). split_and!; [by destruct a|done|]. intros [k c]. apply Hall.
Qed.

#[global] Arguments wf_view : simpl never.
#[global] Arguments wf_node : simpl never.
#[global] Arguments apply_node : simpl never.

Lemma child_elem n k c : bt_get k (children n) = Some c → (k, c) ∈ children n.
Proof. apply bt_get_elem. Qed.

Lemma vchild_elem v k c : bt_get k (v_children v) = Some c → (k, c) ∈ v_children v.
Proof. apply bt_get_elem. Qed.

#[export] Hint Resolve child_elem vchild_elem : sarun.

Lemma wf_node_children n : wf_node n = true → bt_ok (children n) = true.
Proof. by intros (_&?&_)%wf_node_unfold. Qed.

Lemma wf_node_child n k c :
  wf_node n = true → bt_get k (children n) = Some c → wf_node c = true.
Proof. intros (_&_&Hall)%wf_node_unfold ?%bt_get_elem. eauto. Qed.

Lemma wf_oview_children o : wf_oview o = true → bt_ok (ochildren o) = true.
Proof. destruct o as [v|]; [|done]. by intros (_&?&_)%wf_view_unfold. Qed.

Lemma wf_okid o k : wf_oview o = true → wf_oview (okid k o) = true.
Proof.
  destruct o as [v|]; [|done]. intros (_&_&Hall)%wf_view_unfold.
  unfold okid. simpl. destruct (bt_get k (v_children v)) eqn:E; [|done].
  apply bt_get_elem in E. eapply Hall, E.
Qed.

Lemma wf_lower_kid o n k : wf_oview o = true → wf_oview (lower_kid o n k) = true.
Proof. unfold lower_kid. destruct (opaque n); [done|apply wf_okid]. Qed.

#[export] Hint Resolve wf_node_children wf_node_child wf_oview_children wf_okid
  wf_lower_kid : sarun.

(** ** Extensionality of optional views *)

Lemma has_content_false o :
  has_content o = false ↔ oblob o = None ∧ oattrs o = [] ∧ ochildren o = [].
Proof.
  unfold has_content. destruct (oblob o), (oattrs o), (ochildren o); naive_solver.
Qed.

Lemma is_nil_get {V} (m1 m2 : btmap Name V) :
  (∀ k, is_some (bt_get k m1) = is_some (bt_get k m2)) → is_nil m1 = is_nil m2.
Proof.
  intros Hk. destruct m1 as [|[k1 x1] m1], m2 as [|[k2 x2] m2]; try done.
  - specialize (Hk k2). simpl in Hk. by rewrite cmp_refl in Hk.
  - specialize (Hk k1). simpl in Hk. by rewrite cmp_refl in Hk.
Qed.

Lemma has_content_ext o1 o2 :
  oblob o1 = oblob o2 → oattrs o1 = oattrs o2 →
  (∀ k, is_some (okid k o1) = is_some (okid k o2)) →
  has_content o1 = has_content o2.
Proof.
  intros Hb Ha Hk. unfold has_content. rewrite Hb, Ha.
  f_equal. f_equal. by apply is_nil_get.
Qed.

Lemma oview_ext o1 o2 :
  bt_ok (ochildren o1) = true → bt_ok (ochildren o2) = true →
  is_some o1 = is_some o2 →
  oblob o1 = oblob o2 → oattrs o1 = oattrs o2 →
  (∀ k, okid k o1 = okid k o2) → o1 = o2.
Proof.
  intros Hok1 Hok2 Hs Hb Ha Hk.
  assert (Hc : ochildren o1 = ochildren o2) by (by apply bt_ext).
  destruct o1 as [[]|], o2 as [[]|]; simpl in *; naive_solver.
Qed.

(** ** The behaviour of [apply_node], observation by observation *)

Section apply_facts.

Implicit Types (n : Node) (base : option View) (k : Name).

Lemma apply_node_unfold base n :
  apply_node base n =
  if is_tombstone n then None else
  let v := MkView
    (match blob n with Keep => oblob base | SetBlob b => Some b | Remove => None end)
    (match attrs n with Some map => map | None => oattrs base end)
    (bt_put_all
      (λ name c, apply_node ((if opaque n then None else v_children <$> base) ≫= bt_get name) c)
      (children n)
      (match (if opaque n then None else v_children <$> base) with
       | Some lower => bt_put_all
           (λ name child, if bt_contains name (children n) then None else Some child) lower []
       | None => [] end)) in
  if node_exists v n (empty_present base) then Some v else None.
Proof. by destruct n. Qed.

Lemma lower_kid_bind base n k :
  (if opaque n then None else v_children <$> base) ≫= bt_get k = lower_kid base n k.
Proof. unfold lower_kid, okid. by destruct (opaque n), base. Qed.

Lemma apply_children_ok base n :
  bt_ok (ochildren (apply_node base n)) = true.
Proof.
  rewrite apply_node_unfold. destruct (is_tombstone n); [done|]. cbv zeta.
  destruct (node_exists _ _ _); [|done]. simpl. apply bt_ok_put_all.
  destruct (if opaque n then None else _); [|done]. by apply bt_ok_put_all.
Qed.

Lemma apply_tombstone base n : is_tombstone n = true → apply_node base n = None.
Proof. intros Ht. rewrite apply_node_unfold. by rewrite Ht. Qed.

Section live.
Context (base : option View) (n : Node) (Hlive : is_tombstone n = false).

Lemma apply_live_cases :
  apply_node base n = None ∧ asserts_self n = false ∧ empty_present base = false
    ∧ (blob n = Keep ∧ oblob base = None) ∧ (attrs n = None ∧ oattrs base = []) ∨
  ∃ v, apply_node base n = Some v.
Proof.
  rewrite apply_node_unfold, Hlive. cbv zeta.
  destruct (node_exists _ _ _) eqn:E; [by right; eexists|left].
  unfold node_exists in E. simpl in E.
  split_orb.
  split_and!; try done.
  - unfold asserts_self in *. destruct (blob n), (oblob base); naive_solver.
  - unfold asserts_self in *. destruct (blob n), (oblob base); naive_solver.
  - unfold asserts_self in *. destruct (attrs n), (blob n); naive_solver.
  - unfold asserts_self in *. destruct (attrs n), (oattrs base), (blob n); naive_solver.
Qed.

Lemma apply_oblob :
  oblob (apply_node base n) =
  match blob n with Keep => oblob base | SetBlob b => Some b | Remove => None end.
Proof.
  destruct apply_live_cases as [(->&_&_&[-> ->]&_)|[v Hv]]; [done|].
  rewrite Hv. rewrite apply_node_unfold, Hlive in Hv. cbv zeta in Hv.
  destruct (node_exists _ _ _); by simplify_eq/=.
Qed.

Lemma apply_oattrs :
  oattrs (apply_node base n) =
  match attrs n with Some map => map | None => oattrs base end.
Proof.
  destruct apply_live_cases as [(->&_&_&_&[-> ->])|[v Hv]]; [done|].
  rewrite Hv. rewrite apply_node_unfold, Hlive in Hv. cbv zeta in Hv.
  destruct (node_exists _ _ _); by simplify_eq/=.
Qed.

Context (Hn : bt_ok (children n) = true) (Hb : bt_ok (ochildren base) = true).

Lemma apply_okid k : okid k (apply_node base n) = kid_after apply_node base n k.
Proof.
  set (kids := bt_put_all
      (λ name c, apply_node ((if opaque n then None else v_children <$> base) ≫= bt_get name) c)
      (children n)
      (match (if opaque n then None else v_children <$> base) with
       | Some lower => bt_put_all
           (λ name child, if bt_contains name (children n) then None else Some child) lower []
       | None => [] end)).
  assert (Hkids : bt_get k kids = kid_after apply_node base n k).
  { unfold kids, kid_after. rewrite bt_get_put_all by done.
    rewrite lower_kid_bind. unfold lower_kid, okid.
    destruct (opaque n); [destruct (bt_get k (children n)); [by case_match|done]|].
    destruct base as [b|]; simpl in *; [|destruct (bt_get k (children n)); [by case_match|done]].
    rewrite bt_get_put_all by done. unfold bt_contains.
    destruct (bt_get k (children n)); repeat case_match; naive_solver. }
  unfold okid. rewrite apply_node_unfold, Hlive. cbv zeta. fold kids.
  destruct (node_exists _ _ _) eqn:E; simpl; [done|].
  rewrite <- Hkids. unfold node_exists in E. simpl in E. split_orb.
  destruct kids; done.
Qed.

Lemma apply_exists :
  is_some (apply_node base n) =
  has_content (apply_node base n) || asserts_self n || empty_present base.
Proof.
  rewrite apply_node_unfold, Hlive. cbv zeta.
  destruct (node_exists _ _ _) eqn:E; simpl; unfold node_exists in E; simpl in E.
  - unfold has_content. simpl. by rewrite <- E.
  - split_orb. by destruct (asserts_self n), (empty_present base).
Qed.
End live.

Lemma wf_apply_node base n :
  wf_node n = true → wf_oview base = true → wf_oview (apply_node base n) = true.
Proof.
  revert base. induction n as [n IH] using node_ind'; intros base Hn Hb.
  destruct (is_tombstone n) eqn:Ht; [by rewrite apply_tombstone|].
  pose proof (apply_oattrs base n Ht) as Ha.
  pose proof (apply_okid base n Ht (wf_node_children _ Hn) (wf_oview_children _ Hb)) as Hk.
  pose proof (apply_children_ok base n) as Hok.
  pose proof Hn as (Hna&_&_)%wf_node_unfold.
  destruct (apply_node base n) as [v|]; [|done]. simpl in *.
  apply wf_view_unfold. split_and!; [|done|].
  - rewrite Ha. destruct (attrs n); [done|]. destruct base as [b|]; [|done].
    by apply wf_view_unfold in Hb as (?&_&_).
  - intros k c Hin. apply bt_elem_get in Hin; [|done].
    specialize (Hk k). unfold okid in Hk. simpl in Hk. rewrite Hin in Hk.
    unfold kid_after in Hk. pose proof (wf_lower_kid base n k Hb) as Hl.
    destruct (bt_get k (children n)) as [nc|] eqn:Enc.
    + pose proof (IH _ _ (bt_get_elem _ _ _ Enc) (lower_kid base n k)) as IHk.
      rewrite <- Hk in IHk. apply IHk; eauto with sarun.
    + by rewrite <- Hk in Hl.
Qed.
End apply_facts.

#[export] Hint Resolve apply_children_ok wf_apply_node : sarun.

(** ** In-place application agrees with [apply] *)

Section apply_mut_facts.

Lemma mutate_children_agree slot n :
  bt_ok (children n) = true → bt_ok (ochildren slot) = true →
  (∀ k c o, (k, c) ∈ children n → wf_oview o = true →
    apply_child_mut o c = apply_node o c) →
  wf_oview slot = true →
  bt_alter_all apply_child_mut (children n)
    (if opaque n then [] else v_children (default view_default slot)) =
  bt_put_all
    (λ name c, apply_node ((if opaque n then None else v_children <$> slot) ≫= bt_get name) c)
    (children n)
    (match (if opaque n then None else v_children <$> slot) with
     | Some lower => bt_put_all
         (λ name child, if bt_contains name (children n) then None else Some child) lower []
     | None => [] end).
Proof.
  intros Hn Hs Hrec Hwf.
  assert (Hc : bt_ok (if opaque n then [] else v_children (default view_default slot)) = true)
    by (destruct (opaque n), slot; done).
  apply bt_ext.
  - by apply bt_ok_alter_all.
  - apply bt_ok_put_all. destruct (opaque n), slot; try done. by apply bt_ok_put_all.
  - intros k. rewrite bt_get_alter_all, bt_get_put_all by done.
    rewrite lower_kid_bind.
    assert (Hl : bt_get k (if opaque n then [] else v_children (default view_default slot))
                 = lower_kid slot n k).
    { unfold lower_kid, okid. by destruct (opaque n), slot. }
    rewrite Hl. unfold lower_kid, okid, bt_contains.
    destruct (bt_get k (children n)) as [c|] eqn:E.
    + rewrite (Hrec k c) by (exact (bt_get_elem _ _ _ E) || exact (wf_lower_kid _ n k Hwf)).
      destruct (apply_node _ c) eqn:Ea; [done|].
      destruct (opaque n); [done|]. destruct slot as [v|]; [|done]. simpl.
      rewrite bt_get_put_all by done. rewrite E. by case_match.
    + destruct (opaque n); [done|]. destruct slot as [v|]; [|done]. simpl.
      rewrite bt_get_put_all by done. rewrite E. by case_match.
Qed.

Lemma apply_child_mut_apply n slot :
  wf_node n = true → wf_oview slot = true → apply_child_mut slot n = apply_node slot n.
Proof.
  revert slot. induction n as [n IH] using node_ind'; intros slot Hn Hs.
  assert (Hrec : ∀ k c o, (k, c) ∈ children n → wf_oview o = true →
    apply_child_mut o c = apply_node o c).
  { intros k c o Hin Ho. apply (IH k); [done| |done].
    apply wf_node_unfold in Hn as (_&_&Hall). eauto. }
  pose proof (mutate_children_agree slot n (wf_node_children _ Hn) (wf_oview_children _ Hs)
    Hrec Hs) as Hkids.
  rewrite apply_node_unfold. cbv zeta. rewrite <- Hkids. clear IH Hrec Hkids.
  destruct n; simpl. unfold mutate_view_with. simpl. by destruct slot.
Qed.
End apply_mut_facts.

(** ** The identity delta *)

Lemma is_identity_inv n :
  is_identity n = true →
  presence n = Live ∧ blob n = Keep ∧ opaque n = false ∧ attrs n = None ∧
  anchor n = Lower ∧ children n = [].
Proof.
  unfold is_identity, is_tombstone, is_keep, is_backdrop.
  destruct n as [[] [] [] [] [] []]; naive_solver.
Qed.

Lemma is_identity_keep n : is_identity n = true ↔ n = keep.
Proof.
  split; [|by intros ->]. intros (?&?&?&?&?&?)%is_identity_inv.
  destruct n; by simplify_eq/=.
Qed.

Lemma empty_present_content o : is_some o = has_content o || empty_present o.
Proof. by destruct o as [[[] [] []]|]. Qed.

Lemma empty_present_no_content o : empty_present o = true → has_content o = false.
Proof. by destruct o as [[[] [] []]|]. Qed.

Lemma apply_keep base : wf_oview base = true → apply_node base keep = base.
Proof.
  intros Hb.
  assert (Hk : ∀ k, okid k (apply_node base keep) = okid k base)
    by (intros k; by rewrite apply_okid by (done || by apply wf_oview_children)).
  apply oview_ext; auto with sarun.
  - rewrite apply_exists, (empty_present_content base) by done.
    rewrite (has_content_ext _ base); rewrite ?apply_oblob, ?apply_oattrs by done;
      [by rewrite orb_false_r|done..|]. intros k. by rewrite Hk.
  - by rewrite apply_oblob.
  - by rewrite apply_oattrs.
Qed.

Lemma apply_identity base n :
  is_identity n = true → wf_oview base = true → apply_node base n = base.
Proof. intros ->%is_identity_keep. apply apply_keep. Qed.
