(* ===== verification/DepotCompose.v ===== *)
(** * Composition of delta layers.

    Models the compose half of [chupa/depot/src/lib.rs]: [compose_node],
    [materializes], [harden], [compose], [squash], [resolve_over].  The
    laws relate composing two deltas to applying them one after the other,
    exactly where no directory is emptied on the way ([settles]) and up to
    the presence of empty nodes ([veq]) always. *)

From S2P Require Import Prelude.
From S2P Require Import BTreeMap.
From S2P Require Import DepotModel.

(** [materializes] *)
Fixpoint materializes (n : Node) : bool :=
  negb (is_tombstone n)
  && (asserts_self n || existsb (λ '(_, c), materializes c) (children n)).

(** [harden] *)
Fixpoint harden (n : Node) : Node :=
  if negb (materializes n) then tombstone else
  MkNode Live
    (match blob n with SetBlob b => SetBlob b | Keep | Remove => Remove end)
    true
    (Some (default [] (attrs n)))
    Lower
    (bt_put_all
      (λ _ v, let h := harden v in if is_tombstone h then None else Some h)
      (children n) []).

(** [compose_node] *)
Fixpoint compose_node (a b : Node) {struct a} : Node :=
  if is_tombstone b then tombstone else
  if is_backdrop (anchor b) then b else
  if is_tombstone a then harden b else
  let blob' := match blob b with Keep => blob a | other => other end in
  let attrs' := match attrs b with Some map => Some map | None => attrs a end in
  let '(opaque', children') :=
    if opaque b then
      (true,
       bt_put_all
         (λ _ v, let h := harden v in if is_tombstone h then None else Some h)
         (children b) [])
    else
      let kids :=
        bt_put_all
          (λ name ac,
            match bt_get name (children b) with
            | Some bc =>
                let c := compose_node ac bc in
                if is_identity c then None else Some c
            | None => Some ac
            end)
          (children a) [] in
      (opaque a,
       bt_put_all
         (λ name bc,
           if bt_contains name (children a) then None
           else if opaque a then
             let h := harden bc in if is_tombstone h then None else Some h
           else if is_identity bc then None else Some bc)
         (children b) kids) in
  MkNode Live blob' opaque' attrs' (anchor a) children'.

(** [compose] *)
Definition compose (a b : Layer) : Layer := MkLayer (compose_node (root a) (root b)).

(** [squash] *)
Definition squash (stack : list Layer) : Layer :=
  fold_left (λ acc layer, compose acc layer) stack layer_empty.

(** [resolve_over] *)
Definition resolve_over (backdrop : option View) (stack : list Layer) : option View :=
  apply backdrop (squash stack).

(** ** Vocabulary of the laws *)

(** No node that can take effect is backdrop-anchored. *)
Fixpoint lower_anchored (n : Node) : bool :=
  is_tombstone n
  || negb (is_backdrop (anchor n)) && forallb (λ '(_, c), lower_anchored c) (children n).

(** Applied to [o], the delta [b] makes no node vanish otherwise than by a
    tombstone: it never leaves a node without content and without a witness. *)
Fixpoint settles (o : option View) (b : Node) : bool :=
  is_tombstone b
  || (negb (is_some o) || is_some (apply_node o b))
     && forallb (λ '(k, c), settles (lower_kid o b k) c) (children b).

(** A view without its empty nodes. *)
Fixpoint norm (v : View) : option View :=
  let v' := MkView (v_blob v) (v_attrs v)
              (bt_put_all (λ _ c, norm c) (v_children v) []) in
  if is_empty_view v' then None else Some v'.

Definition onorm (o : option View) : option View := o ≫= norm.

(** Equality of well-formed optional views up to empty nodes: a partial
    equivalence, so that rewriting keeps track of well-formedness. *)
Definition veq (o1 o2 : option View) : Prop :=
  wf_oview o1 = true ∧ wf_oview o2 = true ∧ onorm o1 = onorm o2.

(** A well-formed layer with a live root. *)
Definition wf_layer (l : Layer) : bool := wf_node (root l).
Definition pure_layer (l : Layer) : bool := wf_node (root l) && lower_anchored (root l).

(** ** Materialization and hardening *)

Lemma is_some_true {A} (o : option A) : is_some o = true ↔ is_Some o.
Proof. destruct o; naive_solver. Qed.

Lemma materializes_unfold n :
  materializes n =
  negb (is_tombstone n)
  && (asserts_self n || existsb (λ '(_, c), materializes c) (children n)).
Proof. by destruct n. Qed.

Lemma materializes_apply n :
  wf_node n = true → materializes n = is_some (apply_node None n).
Proof.
  induction n as [n IH] using node_ind'; intros Hn. rewrite materializes_unfold.
  destruct (is_tombstone n) eqn:Ht; [by rewrite apply_tombstone|].
  rewrite apply_exists by done. simpl. rewrite orb_false_r.
  destruct (asserts_self n) eqn:Hs; [by rewrite orb_true_r|]. simpl. rewrite orb_false_r.
  pose proof Hn as (_&Hok&Hall)%wf_node_unfold.
  unfold asserts_self in Hs. split_orb. unfold has_content.
  rewrite apply_oblob, apply_oattrs by done.
  destruct (blob n); try done. destruct (attrs n); try done. simpl.
  set (kids := ochildren (apply_node None n)).
  assert (Hk : ∀ k c, bt_get k (children n) = Some c → bt_get k kids = apply_node None c).
  { intros k c E. pose proof (apply_okid None n Ht Hok eq_refl k) as Hk.
    unfold okid, kid_after, lower_kid in Hk. fold kids in Hk. rewrite Hk, E.
    by destruct (opaque n). }
  destruct (existsb _ (children n)) eqn:Hex.
  - apply existsb_exists in Hex as ([k c]&Hin%list_elem_of_In&Hm).
    specialize (IH _ _ Hin (Hall _ _ Hin)). rewrite Hm in IH.
    symmetry in IH. apply is_some_true in IH as [v Hv].
    specialize (Hk k c (bt_elem_get _ _ _ Hok Hin)). rewrite Hv in Hk.
    by destruct kids.
  - destruct kids as [|[k v] kids'] eqn:Ekids; [done|]. exfalso.
    pose proof (apply_okid None n Ht Hok eq_refl k) as Hk'.
    unfold okid, kid_after, lower_kid in Hk'. fold kids in Hk'.
    rewrite Ekids in Hk'. simpl in Hk'. rewrite cmp_refl in Hk'.
    destruct (bt_get k (children n)) as [c|] eqn:E; [|by destruct (opaque n)].
    apply bt_get_elem in E. specialize (IH _ _ E (Hall _ _ E)).
    assert (existsb (λ '(_, c), materializes c) (children n) = true) as Hcon.
    { apply existsb_exists. exists (k, c). split; [by apply list_elem_of_In|].
      rewrite IH. change (okid k None) with (@None View) in Hk'.
      destruct (opaque n); by rewrite <- Hk'. }
    by rewrite Hcon in Hex.
Qed.

Lemma harden_unfold n :
  harden n =
  if negb (materializes n) then tombstone else
  MkNode Live
    (match blob n with SetBlob b => SetBlob b | Keep | Remove => Remove end)
    true (Some (default [] (attrs n))) Lower
    (bt_put_all
      (λ _ v, let h := harden v in if is_tombstone h then None else Some h)
      (children n) []).
Proof. by destruct n. Qed.

Lemma harden_tombstone n : is_tombstone (harden n) = negb (materializes n).
Proof. rewrite harden_unfold. by destruct (materializes n). Qed.

Lemma harden_opaque n : is_tombstone (harden n) = false → opaque (harden n) = true.
Proof. rewrite harden_unfold. by destruct (materializes n). Qed.

Lemma wf_put_all {V} (f : Name → V → option Node) (m : btmap Name V) acc :
  bt_ok acc = true → (∀ k c, (k, c) ∈ acc → wf_node c = true) →
  (∀ k v c, (k, v) ∈ m → f k v = Some c → wf_node c = true) →
  ∀ k c, (k, c) ∈ bt_put_all f m acc → wf_node c = true.
Proof.
  unfold bt_put_all. revert acc.
  induction m as [|[k' v'] m IH]; intros acc Hok Hacc Hf k c Hin; simpl in Hin; [eauto|].
  destruct (f k' v') as [w|] eqn:E.
  - eapply IH; [| |intros; eapply Hf; set_solver|done]; [by apply bt_ok_insert|].
    intros j d [[-> ->]|Hd]%bt_insert_elem; [|eauto].
    eapply Hf; [|done]. set_solver.
  - eapply IH; [done|done|intros; eapply Hf; set_solver|done].
Qed.

Lemma wf_harden n : wf_node n = true → wf_node (harden n) = true.
Proof.
  induction n as [n IH] using node_ind'; intros Hn. rewrite harden_unfold.
  destruct (materializes n); simpl; [|done].
  pose proof Hn as (Ha&Hok&Hall)%wf_node_unfold.
  apply wf_node_unfold. split_and!.
  - simpl. by destruct (attrs n).
  - by apply bt_ok_put_all.
  - apply wf_put_all; [done|set_solver|]. intros k v c Hin.
    destruct (is_tombstone (harden v)) eqn:E; [done|]. intros [= <-]. eauto.
Qed.

(** Hardening freezes a delta to what it shows over nothing. *)
Lemma apply_harden base n :
  wf_node n = true → wf_oview base = true →
  apply_node base (harden n) = apply_node None n.
Proof.
  revert base. induction n as [n IH] using node_ind'; intros base Hn Hb.
  pose proof (materializes_apply n Hn) as Hm.
  destruct (materializes n) eqn:Emat.
  2:{ rewrite apply_tombstone by (by rewrite harden_tombstone, Emat).
      by destruct (apply_node None n). }
  assert (Hlive : is_tombstone n = false).
  { rewrite materializes_unfold in Emat. by destruct (is_tombstone n). }
  assert (Hhl : is_tombstone (harden n) = false) by (by rewrite harden_tombstone, Emat).
  pose proof (wf_harden n Hn) as Hwh.
  pose proof Hn as (Ha&Hok&Hall)%wf_node_unfold.
  assert (Hk : ∀ k, okid k (apply_node base (harden n)) = okid k (apply_node None n)).
  { intros k. rewrite !apply_okid by eauto with sarun.
    unfold kid_after, lower_kid.
    rewrite harden_unfold, Emat. simpl. rewrite bt_get_put_all by done.
    replace (if opaque n then None else okid k None) with (@None View)
      by (by destruct (opaque n)).
    destruct (bt_get k (children n)) as [c|] eqn:E; [|done]. simpl.
    apply bt_get_elem in E. pose proof (IH _ _ E None (Hall _ _ E) eq_refl) as IHc.
    destruct (is_tombstone (harden c)) eqn:Et; [|done].
    rewrite apply_tombstone in IHc by done. done. }
  apply oview_ext; auto with sarun.
  - rewrite <- Hm, apply_exists by done.
    rewrite harden_unfold, Emat. simpl. by destruct (blob n); rewrite orb_true_r.
  - rewrite !apply_oblob by done. rewrite harden_unfold, Emat. by destruct (blob n).
  - rewrite !apply_oattrs by done. rewrite harden_unfold, Emat. by destruct (attrs n).
Qed.

(** ** The shape of a composed node *)

Definition live_harden (v : Node) : option Node :=
  let h := harden v in if is_tombstone h then None else Some h.

Definition drop_identity (n : Node) : option Node :=
  if is_identity n then None else Some n.

(** The child [k] of [compose_node a b] when both are live and [b] is
    lower-anchored. *)
Definition composed_kid (a b : Node) (k : Name) : option Node :=
  if opaque b then bt_get k (children b) ≫= live_harden
  else match bt_get k (children a), bt_get k (children b) with
       | Some ac, Some bc => drop_identity (compose_node ac bc)
       | Some ac, None => Some ac
       | None, Some bc => if opaque a then live_harden bc else drop_identity bc
       | None, None => None
       end.

Lemma compose_b_tombstone a b : is_tombstone b = true → compose_node a b = tombstone.
Proof. intros Hb. destruct a; simpl. by rewrite Hb. Qed.

Lemma compose_b_backdrop a b :
  is_tombstone b = false → is_backdrop (anchor b) = true → compose_node a b = b.
Proof. intros Hb Ha. destruct a; simpl. by rewrite Hb, Ha. Qed.

Lemma compose_a_tombstone a b :
  is_tombstone b = false → is_backdrop (anchor b) = false → is_tombstone a = true →
  compose_node a b = harden b.
Proof. intros Hb Hn Ha. destruct a; simpl in *. by rewrite Hb, Hn, Ha. Qed.

Section composed_shape.
Context (a b : Node) (Hb : is_tombstone b = false)
  (Hanc : is_backdrop (anchor b) = false) (Ha : is_tombstone a = false).

Lemma compose_shape :
  presence (compose_node a b) = Live ∧
  blob (compose_node a b) = match blob b with Keep => blob a | other => other end ∧
  opaque (compose_node a b) = opaque b || opaque a ∧
  attrs (compose_node a b) = match attrs b with Some m => Some m | None => attrs a end ∧
  anchor (compose_node a b) = anchor a.
Proof.
  destruct a as [pa ba oa aa na ca]. simpl. rewrite Hb, Hanc, Ha.
  by destruct (opaque b).
Qed.

Lemma compose_live : is_tombstone (compose_node a b) = false.
Proof. unfold is_tombstone. by destruct compose_shape as [-> _]. Qed.

Lemma compose_asserts : asserts_self (compose_node a b) = asserts_self a || asserts_self b.
Proof.
  destruct compose_shape as (_&Hbl&Hop&Hat&_). unfold asserts_self.
  rewrite Hbl, Hop, Hat.
  by destruct (blob a), (blob b), (attrs a), (attrs b), (opaque a), (opaque b).
Qed.

Lemma compose_children_ok : bt_ok (children (compose_node a b)) = true.
Proof.
  destruct a as [pa ba oa aa na ca]. simpl. rewrite Hb, Hanc, Ha.
  destruct (opaque b); simpl; by repeat apply bt_ok_put_all.
Qed.

Lemma compose_kid k :
  bt_ok (children a) = true → bt_ok (children b) = true →
  bt_get k (children (compose_node a b)) = composed_kid a b k.
Proof.
  intros Hoka Hokb. unfold composed_kid.
  destruct a as [pa ba oa aa na ca]. simpl in *. rewrite Hb, Hanc, Ha.
  destruct (opaque b); simpl; rewrite !bt_get_put_all by done.
  - destruct (bt_get k (children b)); [|done]. unfold live_harden. simpl. by case_match.
  - unfold bt_contains, drop_identity, live_harden.
    destruct (bt_get k ca), (bt_get k (children b)); simpl; repeat case_match; naive_solver.
Qed.
End composed_shape.

Lemma compose_wf a b :
  wf_node a = true → wf_node b = true → wf_node (compose_node a b) = true.
Proof.
  revert b. induction a as [a IH] using node_ind'; intros b Ha Hb.
  destruct (is_tombstone b) eqn:Tb.
  { destruct a. simpl. by rewrite Tb. }
  destruct (is_backdrop (anchor b)) eqn:Ab.
  { destruct a. simpl. by rewrite Tb, Ab. }
  destruct (is_tombstone a) eqn:Ta.
  { destruct a. simpl. rewrite Tb, Ab, Ta. by apply wf_harden. }
  pose proof Ha as (Haa&Hoka&Halla)%wf_node_unfold.
  pose proof Hb as (Hba&Hokb&Hallb)%wf_node_unfold.
  pose proof (compose_shape a b Tb Ab Ta) as (_&_&_&Hat&_).
  apply wf_node_unfold. split_and!.
  - rewrite Hat. destruct (attrs b); [done|]. by destruct (attrs a).
  - by apply compose_children_ok.
  - intros k c Hin. apply bt_elem_get in Hin; [|by apply compose_children_ok].
    rewrite compose_kid in Hin by done. unfold composed_kid, live_harden, drop_identity in Hin.
    destruct (opaque b); [|].
    + destruct (bt_get k (children b)) as [bc|] eqn:Eb; simplify_eq/=.
      case_match; simplify_eq. apply wf_harden. eauto with sarun.
    + destruct (bt_get k (children a)) as [ac|] eqn:Ea,
        (bt_get k (children b)) as [bc|] eqn:Eb; try done.
      * case_match; simplify_eq. apply (IH k); eauto with sarun.
      * simplify_eq. eauto with sarun.
      * pose proof (wf_node_child _ _ _ Hb Eb) as Hbc. pose proof (wf_harden _ Hbc).
        destruct (opaque a); by case_match; simplify_eq.
Qed.

#[export] Hint Resolve compose_wf wf_harden : sarun.

Lemma lower_anchored_inv n :
  lower_anchored n = true → is_tombstone n = false →
  is_backdrop (anchor n) = false ∧
  ∀ k c, (k, c) ∈ children n → lower_anchored c = true.
Proof.
  destruct n as [p b o a an cs]; simpl. intros H Ht. rewrite Ht in H. simpl in H.
  apply andb_true_iff in H as [?%negb_true_iff Hall]. split; [done|].
  rewrite forallb_forall in Hall. intros k c Hin%list_elem_of_In. apply (Hall _ Hin).
Qed.

Lemma settles_inv o b :
  settles o b = true → is_tombstone b = false →
  (is_some o = true → is_some (apply_node o b) = true) ∧
  ∀ k c, (k, c) ∈ children b → settles (lower_kid o b k) c = true.
Proof.
  destruct b as [p bl op a an cs]. intros H Ht. cbn [settles] in H. rewrite Ht in H.
  simpl in H. apply andb_true_iff in H as [Hex Hall]. split.
  - intros Hs. rewrite Hs in Hex. done.
  - rewrite forallb_forall in Hall. intros k c Hin%list_elem_of_In. apply (Hall _ Hin).
Qed.

(** ** Composition against sequential application

    One case analysis for both laws: [R] relates the children, and the
    observations of the two sides follow. *)
Section compose_obs.
Context (R : option View → option View → Prop) (Rrefl : Reflexive R).
Context (base : option View) (a b : Node).
Context (Ha : wf_node a = true) (Hb : wf_node b = true) (Hbase : wf_oview base = true).
Context (Ta : is_tombstone a = false) (Tb : is_tombstone b = false)
  (Ab : is_backdrop (anchor b) = false).
Context (Hrec : ∀ k ac bc,
  bt_get k (children a) = Some ac → bt_get k (children b) = Some bc → opaque b = false →
  R (apply_node (lower_kid base a k) (compose_node ac bc))
    (apply_node (apply_node (lower_kid base a k) ac) bc)).

Lemma live_harden_over_nothing bc :
  wf_node bc = true →
  match live_harden bc with Some h => apply_node None h | None => None end
  = apply_node None bc.
Proof.
  intros Hbc. unfold live_harden. pose proof (apply_harden None bc Hbc eq_refl) as Hh.
  destruct (is_tombstone (harden bc)) eqn:E; [|done].
  by rewrite apply_tombstone in Hh.
Qed.

Lemma drop_identity_apply o n :
  wf_oview o = true →
  match drop_identity n with Some c => apply_node o c | None => o end = apply_node o n.
Proof.
  intros Ho. unfold drop_identity. destruct (is_identity n) eqn:E; [|done].
  symmetry. by apply apply_identity.
Qed.

Lemma compose_obs_kid k :
  R (okid k (apply_node base (compose_node a b)))
    (okid k (apply_node (apply_node base a) b)).
Proof.
  pose proof (wf_lower_kid base a k Hbase) as Hl.
  rewrite (apply_okid base) by
    (auto using compose_live, compose_children_ok with sarun).
  rewrite apply_okid by eauto with sarun.
  unfold kid_after at 1. rewrite compose_kid by eauto with sarun.
  pose proof (compose_shape a b Tb Ab Ta) as (_&_&Hop&_).
  unfold lower_kid at 1 2. rewrite Hop. unfold kid_after, composed_kid.
  destruct (opaque b) eqn:Ob; simpl.
  - unfold lower_kid. rewrite Ob. destruct (bt_get k (children b)) as [bc|] eqn:Eb; [|done].
    simpl. pose proof (live_harden_over_nothing bc (wf_node_child _ _ _ Hb Eb)) as Hh.
    by rewrite Hh.
  - unfold lower_kid at 1 2. rewrite Ob.
    rewrite !(apply_okid base a) by eauto with sarun. unfold kid_after.
    fold (lower_kid base a k).
    destruct (bt_get k (children a)) as [ac|] eqn:Ea,
      (bt_get k (children b)) as [bc|] eqn:Eb; try done.
    + pose proof (drop_identity_apply (lower_kid base a k) (compose_node ac bc) Hl) as Hd.
      rewrite Hd. auto.
    + destruct (opaque a) eqn:Oa.
      * pose proof (live_harden_over_nothing bc (wf_node_child _ _ _ Hb Eb)) as Hh.
        assert (lower_kid base a k = None) as -> by (unfold lower_kid; by rewrite Oa).
        by rewrite Hh.
      * pose proof (drop_identity_apply (lower_kid base a k) bc Hl) as Hd.
        by rewrite Hd.
Qed.

Lemma compose_obs_blob :
  oblob (apply_node base (compose_node a b)) = oblob (apply_node (apply_node base a) b).
Proof.
  rewrite !apply_oblob by auto using compose_live.
  pose proof (compose_shape a b Tb Ab Ta) as (_&->&_). by destruct (blob b).
Qed.

Lemma compose_obs_attrs :
  oattrs (apply_node base (compose_node a b)) = oattrs (apply_node (apply_node base a) b).
Proof.
  rewrite !apply_oattrs by auto using compose_live.
  pose proof (compose_shape a b Tb Ab Ta) as (_&_&_&->&_). by destruct (attrs b).
Qed.
End compose_obs.

(** Composition is sequential application where [b] settles. *)
Lemma compose_apply_settled a b base :
  wf_node a = true → wf_node b = true → wf_oview base = true →
  lower_anchored b = true → settles (apply_node base a) b = true →
  apply_node base (compose_node a b) = apply_node (apply_node base a) b.
Proof.
  revert b base. induction a as [a IH] using node_ind'; intros b base Ha Hb Hbase Hl Hs.
  destruct (is_tombstone b) eqn:Tb.
  { rewrite (apply_tombstone _ b) by done. destruct a; simpl. by rewrite Tb. }
  pose proof (lower_anchored_inv _ Hl Tb) as [Ab Hlc].
  pose proof (settles_inv _ _ Hs Tb) as [Hex Hsc].
  destruct (is_tombstone a) eqn:Ta.
  { rewrite (apply_tombstone _ a) by done. destruct a; simpl. rewrite Tb, Ab, Ta.
    by apply apply_harden. }
  assert (Hkid : ∀ k, okid k (apply_node base (compose_node a b))
                    = okid k (apply_node (apply_node base a) b)).
  { intros k. apply (compose_obs_kid eq _); auto. clear k. intros k ac bc Ea Eb Ob.
    apply (IH k); eauto with sarun.
    specialize (Hsc k bc (bt_get_elem _ _ _ Eb)). unfold lower_kid at 1 in Hsc.
    rewrite Ob, apply_okid in Hsc by eauto with sarun.
    unfold kid_after in Hsc. by rewrite Ea in Hsc. }
  apply oview_ext; auto using compose_obs_blob, compose_obs_attrs with sarun.
  rewrite !apply_exists by auto using compose_live.
  rewrite compose_asserts by done.
  rewrite (has_content_ext _ (apply_node (apply_node base a) b));
    auto using compose_obs_blob, compose_obs_attrs.
  2:{ intros k. by rewrite Hkid. }
  rewrite (apply_exists (apply_node base a) b Tb) in Hex.
  pose proof (apply_exists base a Ta) as Hea.
  pose proof (empty_present_content (apply_node base a)) as Hce.
  pose proof (empty_present_no_content (apply_node base a)) as Hne.
  destruct (has_content (apply_node (apply_node base a) b)), (asserts_self b); simpl;
    rewrite ?orb_true_r; try done.
  rewrite orb_false_r. simpl in Hex.
  destruct (is_some (apply_node base a)), (asserts_self a), (empty_present base),
    (empty_present (apply_node base a)), (has_content (apply_node base a)); naive_solver.
Qed.

(** ** Views up to empty nodes *)

Lemma norm_unfold v :
  norm v =
  let v' := MkView (v_blob v) (v_attrs v) (bt_put_all (λ _ c, norm c) (v_children v) []) in
  if is_empty_view v' then None else Some v'.
Proof. by destruct v. Qed.

#[global] Arguments norm : simpl never.

Section onorm_obs.
Implicit Types o : option View.

Lemma onorm_children_ok o : bt_ok (ochildren (onorm o)) = true.
Proof.
  destruct o as [v|]; [|done]. unfold onorm. simpl. rewrite norm_unfold. cbv zeta.
  case_match; [done|]. by apply bt_ok_put_all.
Qed.

Lemma onorm_oblob o : oblob (onorm o) = oblob o.
Proof.
  destruct o as [v|]; [|done]. unfold onorm. simpl. rewrite norm_unfold. cbv zeta.
  unfold is_empty_view. simpl. destruct (v_blob v); simpl; [done|]. by case_match.
Qed.

Lemma onorm_oattrs o : oattrs (onorm o) = oattrs o.
Proof.
  destruct o as [v|]; [|done]. unfold onorm. simpl. rewrite norm_unfold. cbv zeta.
  unfold is_empty_view. simpl. destruct (v_attrs v) eqn:E; simpl.
  - by case_match.
  - by rewrite andb_false_r.
Qed.

Lemma onorm_okid o k : wf_oview o = true → okid k (onorm o) = onorm (okid k o).
Proof.
  destruct o as [v|]; [|done]. intros (_&Hok&_)%wf_view_unfold.
  unfold onorm, okid. simpl. rewrite norm_unfold. cbv zeta.
  assert (Hg : bt_get k (bt_put_all (λ _ c, norm c) (v_children v) [])
             = bt_get k (v_children v) ≫= norm).
  { rewrite bt_get_put_all by done. destruct (bt_get k (v_children v)); simpl; [by case_match|done]. }
  destruct (is_empty_view _) eqn:E; simpl; [|done]. rewrite <- Hg.
  unfold is_empty_view in E. simpl in E. apply andb_true_iff in E as [_ E].
  by destruct (bt_put_all _ _ _).
Qed.

Lemma onorm_exists o : is_some (onorm o) = has_content (onorm o).
Proof.
  destruct o as [v|]; [|done]. unfold onorm. simpl. rewrite norm_unfold. cbv zeta.
  destruct (is_empty_view _) eqn:E; [done|]. unfold is_empty_view in E. simpl in *.
  unfold has_content. simpl. by destruct (v_blob v), (v_attrs v), (bt_put_all _ _ _).
Qed.

Lemma veq_intro o1 o2 :
  wf_oview o1 = true → wf_oview o2 = true →
  oblob o1 = oblob o2 → oattrs o1 = oattrs o2 →
  (∀ k, veq (okid k o1) (okid k o2)) → veq o1 o2.
Proof.
  intros H1 H2 Hb Ha Hk. split_and!; [done..|].
  assert (Hk' : ∀ k, okid k (onorm o1) = okid k (onorm o2)).
  { intros k. rewrite !onorm_okid by done. by destruct (Hk k) as (_&_&?). }
  apply oview_ext; auto using onorm_children_ok.
  - rewrite !onorm_exists. apply has_content_ext.
    + by rewrite !onorm_oblob.
    + by rewrite !onorm_oattrs.
    + intros k. by rewrite Hk'.
  - by rewrite !onorm_oblob.
  - by rewrite !onorm_oattrs.
Qed.

Lemma veq_elim o1 o2 :
  veq o1 o2 →
  wf_oview o1 = true ∧ wf_oview o2 = true ∧
  oblob o1 = oblob o2 ∧ oattrs o1 = oattrs o2 ∧ ∀ k, veq (okid k o1) (okid k o2).
Proof.
  intros (H1&H2&He). split_and!; try done.
  - by rewrite <- (onorm_oblob o1), He, onorm_oblob.
  - by rewrite <- (onorm_oattrs o1), He, onorm_oattrs.
  - intros k. split_and!; [by apply wf_okid..|]. by rewrite <- !onorm_okid, He.
Qed.
End onorm_obs.

#[export] Instance veq_sym : Symmetric veq.
Proof. intros o1 o2 (?&?&?). done. Qed.

#[export] Instance veq_trans : Transitive veq.
Proof. intros o1 o2 o3 (?&?&E1) (?&?&E2). unfold veq. by rewrite E1. Qed.

Lemma veq_refl o : wf_oview o = true → veq o o.
Proof. done. Qed.

Lemma veq_apply n o1 o2 :
  wf_node n = true → veq o1 o2 → veq (apply_node o1 n) (apply_node o2 n).
Proof.
  revert o1 o2. induction n as [n IH] using node_ind'; intros o1 o2 Hn Hv.
  pose proof (veq_elim _ _ Hv) as (H1&H2&Hb&Ha&Hk).
  destruct (is_tombstone n) eqn:Tn; [by rewrite !apply_tombstone|].
  assert (Hlow : ∀ k, veq (lower_kid o1 n k) (lower_kid o2 n k)).
  { intros k. unfold lower_kid. destruct (opaque n); [by apply veq_refl|auto]. }
  apply veq_intro; auto with sarun.
  - rewrite !apply_oblob by done. by rewrite Hb.
  - rewrite !apply_oattrs by done. by rewrite Ha.
  - intros k. rewrite !apply_okid by auto with sarun. unfold kid_after.
    destruct (bt_get k (children n)) as [c|] eqn:E; [|done].
    apply (IH k); eauto with sarun.
Qed.

#[export] Instance apply_proper n : wf_node n = true → Proper (veq ==> veq) (λ o, apply_node o n).
Proof. intros Hn o1 o2. by apply veq_apply. Qed.

(** Composition is sequential application up to empty nodes, without any
    condition on the views. *)
Lemma compose_apply_veq a b base :
  wf_node a = true → wf_node b = true → wf_oview base = true → lower_anchored b = true →
  veq (apply_node base (compose_node a b)) (apply_node (apply_node base a) b).
Proof.
  revert b base. induction a as [a IH] using node_ind'; intros b base Ha Hb Hbase Hl.
  assert (Hwf : wf_oview (apply_node (apply_node base a) b) = true) by auto with sarun.
  destruct (is_tombstone b) eqn:Tb.
  { rewrite (apply_tombstone _ b) by done. destruct a; simpl. by rewrite Tb. }
  pose proof (lower_anchored_inv _ Hl Tb) as [Ab Hlc].
  destruct (is_tombstone a) eqn:Ta.
  { rewrite (apply_tombstone _ a) by done. destruct a; simpl. rewrite Tb, Ab, Ta.
    rewrite apply_harden by done. apply veq_refl. auto with sarun. }
  apply veq_intro; auto using compose_obs_blob, compose_obs_attrs with sarun.
  intros k.
  apply (compose_obs_kid (λ o1 o2, wf_oview o1 = true → wf_oview o2 = true → veq o1 o2));
    auto with sarun.
  - intros o Ho _. by apply veq_refl.
  - clear k. intros k ac bc Ea Eb Ob _ _. apply (IH k); eauto with sarun.
Qed.

(** ** Stacks *)

Lemma pure_layer_inv l :
  pure_layer l = true → wf_node (root l) = true ∧ lower_anchored (root l) = true.
Proof. apply andb_true_iff. Qed.

Lemma compose_wf_layer a b :
  wf_layer a = true → wf_layer b = true → wf_layer (compose a b) = true.
Proof. unfold wf_layer. simpl. auto with sarun. Qed.

Lemma squash_wf_acc stack acc :
  wf_layer acc = true → forallb wf_layer stack = true →
  wf_layer (fold_left compose stack acc) = true.
Proof.
  revert acc. induction stack as [|l stack IH]; intros acc Hacc Hs; simpl; [done|].
  simpl in Hs. split_andb. apply IH; auto using compose_wf_layer.
Qed.

Lemma squash_wf stack : forallb wf_layer stack = true → wf_layer (squash stack) = true.
Proof. by apply squash_wf_acc. Qed.

Lemma forallb_pure_wf stack :
  forallb pure_layer stack = true → forallb wf_layer stack = true.
Proof.
  intros Hs. apply forallb_forall. intros l Hl.
  rewrite forallb_forall in Hs. by apply Hs, pure_layer_inv in Hl as [??].
Qed.

(** Squashing after [acc] is applying one layer at a time after [acc]. *)
Lemma squash_acc_veq stack acc base :
  forallb pure_layer stack = true → wf_layer acc = true → wf_oview base = true →
  veq (apply base (fold_left compose stack acc))
      (fold_left (λ v l, apply v l) stack (apply base acc)).
Proof.
  revert acc. induction stack as [|l stack IH]; intros acc Hs Hacc Hb; simpl.
  - apply veq_refl. unfold apply. auto with sarun.
  - simpl in Hs. apply andb_true_iff in Hs as [[Hl Hla]%pure_layer_inv Hs].
    etrans; [apply IH; auto using compose_wf_layer|].
    assert (Hfold : ∀ o1 o2, veq o1 o2 →
      veq (fold_left (λ v l, apply v l) stack o1) (fold_left (λ v l, apply v l) stack o2)).
    { clear IH. induction stack as [|l' stack' IHs]; intros o1 o2 Ho; simpl; [done|].
      simpl in Hs. apply andb_true_iff in Hs as [[Hl' _]%pure_layer_inv Hs].
      apply IHs; [done|]. by apply veq_apply. }
    apply Hfold. unfold apply. simpl. by apply compose_apply_veq.
Qed.

Lemma squash_veq stack base :
  forallb pure_layer stack = true → wf_oview base = true →
  veq (apply base (squash stack)) (fold_left (λ v l, apply v l) stack base).
Proof.
  intros Hs Hb. pose proof (squash_acc_veq stack layer_empty base Hs eq_refl Hb) as Hv.
  change (apply base layer_empty) with (apply_node base keep) in Hv.
  by rewrite apply_keep in Hv.
Qed.
