(* ===== verification/DepotDiff.v ===== *)
(** * Differences of views, and rotation of two layers.

    Models [diff_node], [diff], [rotate], [records], [facets_recorded],
    [replicate] and [inverse_node] of [chupa/depot/src/lib.rs].  The two
    [Arc::ptr_eq] shortcuts of [diff_node] are a parameter: whether two
    slots hold the same allocation is not a function of the values, and all
    the code relies on is that one allocation holds one value. *)

From S2P Require Import Prelude.
From S2P Require Import BTreeMap.
From S2P Require Import DepotModel.
From S2P Require Import DepotCompose.

(** [attrs == attrs] *)
Definition attrs_eqb (a1 a2 : Attrs) : bool := bool_decide (a1 = a2).

Section diff_defs.
(** [Arc::ptr_eq] on two blob slots and on two child slots. *)
Variable blob_ptr_eq : bytes → bytes → bool.
Variable view_ptr_eq : View → View → bool.

(** The blob arm of [diff_node]. *)
Definition diff_blob (base : option View) (target : View) : BlobOp :=
  match base ≫= v_blob, v_blob target with
  | Some old, Some new =>
      if blob_ptr_eq old new || bytes_eqb old new then Keep else SetBlob new
  | None, Some new => SetBlob new
  | Some _, None => Remove
  | None, None => Keep
  end.

(** The attrs arm of [diff_node]. *)
Definition diff_attrs (base : option View) (target : View) : option Attrs :=
  match base with
  | Some b => if attrs_eqb (v_attrs b) (v_attrs target) then None else Some (v_attrs target)
  | None => if is_nil (v_attrs target) then None else Some (v_attrs target)
  end.

(** [diff_node] *)
Fixpoint diff_node (base : option View) (target : View) {struct target} : Node :=
  let blob' := diff_blob base target in
  let attrs' := diff_attrs base target in
  let removed :=
    match base with
    | Some b =>
        bt_put_all
          (λ name (_ : View), if bt_contains name (v_children target) then None else Some tombstone)
          (v_children b) []
    | None => []
    end in
  let children' :=
    bt_put_all
      (λ name tchild,
        let bchild := match base with Some b => bt_get name (v_children b) | None => None end in
        if match bchild with Some bc => view_ptr_eq bc tchild | None => false end then None
        else
          let d := diff_node bchild tchild in
          if is_identity d then None else Some d)
      (v_children target) removed in
  let n := MkNode Live blob' false attrs' Lower children' in
  if is_empty_view target && negb (asserts_self n)
     && negb (match base with Some b => is_empty_view b | None => false end)
  then MkNode Live blob' false (Some (v_attrs target)) Lower children'
  else n.

(** [diff] *)
Definition diff (base target : option View) : Layer :=
  match target with
  | Some t => MkLayer (diff_node base t)
  | None => MkLayer (MkNode Live Remove true (Some []) Lower [])
  end.
End diff_defs.

(** [records] *)
Definition records (n : Node) : bool := negb (is_identity n).

(** [facets_recorded] *)
Definition facets_recorded (n : Node) : bool :=
  is_tombstone n || negb (is_keep (blob n)) || is_some (attrs n) || opaque n
  || is_backdrop (anchor n).

(** [replicate] *)
Definition replicate_net (net : Node) : Node :=
  if is_tombstone net then tombstone
  else MkNode (presence net) (blob net) (opaque net) (attrs net) Backdrop (children net).

(** [inverse_node] *)
Fixpoint inverse_node (net : option Node) (b : Node) {struct b} : Node :=
  if facets_recorded b then
    match net with
    | Some n => replicate_net n
    | None => hole
    end
  else if match net with Some n => is_tombstone n | None => false end then tombstone
  else
    MkNode Live Keep false None Lower
      (bt_put_all
        (λ name bc,
          if negb (records bc) then None else
          let net_child := match net with Some n => bt_get name (children n) | None => None end in
          let inv := inverse_node net_child bc in
          if is_identity inv then None else Some inv)
        (children b) []).

(** [rotate] *)
Definition rotate (ancestors : list Layer) (a b : Layer) : Layer * Layer :=
  let b_new := compose a b in
  let net := squash (ancestors ++ [a]) in
  (b_new, MkLayer (inverse_node (Some (root net)) (root b))).

(** ** The delta leads from its base to its target *)

Section diff_facts.
Context (blob_ptr_eq : bytes → bytes → bool) (view_ptr_eq : View → View → bool).
(** One allocation holds one value. *)
Hypothesis blob_ptr_eq_sound : ∀ x y, blob_ptr_eq x y = true → x = y.
Hypothesis view_ptr_eq_sound : ∀ x y, view_ptr_eq x y = true → x = y.

Local Abbreviation dnode := (diff_node blob_ptr_eq view_ptr_eq).
Local Abbreviation dblob := (diff_blob blob_ptr_eq).

Lemma diff_blob_apply base t :
  match dblob base t with Keep => oblob base | SetBlob b => Some b | Remove => None end
  = v_blob t.
Proof.
  unfold diff_blob, oblob. destruct (base ≫= v_blob) as [old|], (v_blob t) as [new|]; try done.
  destruct (blob_ptr_eq old new || bytes_eqb old new) eqn:E; [|done].
  apply orb_true_iff in E as [?%blob_ptr_eq_sound|?%bytes_eqb_eq]; by subst.
Qed.

Lemma diff_attrs_apply base t :
  match diff_attrs base t with Some m => m | None => oattrs base end = v_attrs t.
Proof.
  unfold diff_attrs, attrs_eqb. destruct base as [b|]; simpl.
  - case_bool_decide as E; [by rewrite E|done].
  - by destruct (v_attrs t).
Qed.

(** The existence witness [diff_node] adds for an empty target. *)
Definition needs_witness (base : option View) (t : View) (n : Node) : bool :=
  is_empty_view t && negb (asserts_self n) && negb (empty_present base).

Definition diff_kids (base : option View) (t : View) : btmap Name Node :=
  bt_put_all
    (λ name tchild,
      if match okid name base with Some bc => view_ptr_eq bc tchild | None => false end then None
      else drop_identity (dnode (okid name base) tchild))
    (v_children t)
    (match base with
     | Some b => bt_put_all
        (λ name (_ : View), if bt_contains name (v_children t) then None else Some tombstone)
        (v_children b) []
     | None => [] end).

Lemma diff_node_unfold base t :
  let n := MkNode Live (dblob base t) false (diff_attrs base t) Lower (diff_kids base t) in
  dnode base t =
  if needs_witness base t n
  then MkNode Live (dblob base t) false (Some (v_attrs t)) Lower (diff_kids base t) else n.
Proof.
  destruct t as [tb ta tc]. simpl. unfold needs_witness, diff_kids, empty_present, okid.
  by destruct base.
Qed.

Lemma diff_node_fields base t :
  presence (dnode base t) = Live ∧ blob (dnode base t) = dblob base t ∧
  opaque (dnode base t) = false ∧ anchor (dnode base t) = Lower ∧
  children (dnode base t) = diff_kids base t.
Proof. rewrite diff_node_unfold. by case_match. Qed.

Lemma diff_node_live base t : is_tombstone (dnode base t) = false.
Proof. unfold is_tombstone. by destruct (diff_node_fields base t) as (->&_). Qed.

Lemma diff_kids_ok base t : bt_ok (diff_kids base t) = true.
Proof. apply bt_ok_put_all. destruct base; [by apply bt_ok_put_all|done]. Qed.

Lemma diff_kids_get base t k :
  wf_oview base = true → wf_view t = true →
  bt_get k (diff_kids base t) =
  match bt_get k (v_children t) with
  | Some tc =>
      if match okid k base with Some bc => view_ptr_eq bc tc | None => false end then None
      else drop_identity (dnode (okid k base) tc)
  | None => if is_some (okid k base) then Some tombstone else None
  end.
Proof.
  intros Hb (_&Ht&_)%wf_view_unfold. unfold diff_kids.
  rewrite bt_get_put_all by done. unfold bt_contains.
  destruct base as [b|].
  - apply wf_view_unfold in Hb as (_&Hb&_). rewrite bt_get_put_all by done.
    unfold okid. simpl.
    destruct (bt_get k (v_children t)), (bt_get k (v_children b)); try done;
      repeat case_match; naive_solver.
  - unfold okid. simpl. destruct (bt_get k (v_children t)); [|done]. by case_match.
Qed.

Lemma diff_node_wf base t :
  wf_oview base = true → wf_view t = true → wf_node (dnode base t) = true.
Proof.
  revert base. induction t as [t IH] using view_ind'; intros base Hb Ht.
  pose proof (diff_node_fields base t) as (_&_&_&_&Hc).
  pose proof Ht as (Hta&Htc&Hall)%wf_view_unfold.
  apply wf_node_unfold. rewrite Hc. split_and!.
  - rewrite diff_node_unfold. destruct (needs_witness _ _ _); simpl; [done|].
    unfold diff_attrs.
    destruct base; repeat case_match; by simplify_eq.
  - apply diff_kids_ok.
  - intros k c Hin. apply bt_elem_get in Hin; [|apply diff_kids_ok].
    rewrite diff_kids_get in Hin by done.
    destruct (bt_get k (v_children t)) as [tc|] eqn:E.
    + apply vchild_elem in E.
      assert (Hd : wf_node (dnode (okid k base) tc) = true) by (eapply IH; eauto with sarun).
      destruct (match okid k base with Some _ => _ | None => _ end); [done|].
      unfold drop_identity in Hin. destruct (is_identity _); by simplify_eq.
    + case_match; by simplify_eq.
Qed.

Lemma diff_apply base t :
  wf_oview base = true → wf_view t = true → apply_node base (dnode base t) = Some t.
Proof.
  revert base. induction t as [t IH] using view_ind'; intros base Hb Ht.
  pose proof (diff_node_fields base t) as (_&Hbl&Hop&_&Hc).
  pose proof (diff_node_live base t) as Tn.
  pose proof (diff_node_wf base t Hb Ht) as Hwn.
  pose proof Ht as (Hta&Htc&Hall)%wf_view_unfold.
  assert (Hkid : ∀ k, okid k (apply_node base (dnode base t)) = okid k (Some t)).
  { intros k. rewrite apply_okid by auto with sarun.
    unfold kid_after, lower_kid. rewrite Hop, Hc, diff_kids_get by done.
    change (okid k (Some t)) with (bt_get k (v_children t)).
    destruct (bt_get k (v_children t)) as [tc|] eqn:E.
    - assert (Hc' : apply_node (okid k base) (dnode (okid k base) tc) = Some tc).
      { apply vchild_elem in E. eapply IH; eauto with sarun. }
      destruct (match okid k base with Some _ => _ | None => _ end) eqn:Ep.
      + destruct (okid k base); [|done]. by apply view_ptr_eq_sound in Ep as ->.
      + pose proof (drop_identity_apply (okid k base) (dnode (okid k base) tc)) as Hd.
        rewrite <- Hc', <- Hd by auto with sarun. done.
    - destruct (okid k base); simpl; [by rewrite apply_tombstone|done]. }
  assert (Hat : oattrs (apply_node base (dnode base t)) = v_attrs t).
  { rewrite apply_oattrs by done. rewrite diff_node_unfold.
    destruct (needs_witness _ _ _); [done|]. apply diff_attrs_apply. }
  assert (Hblob : oblob (apply_node base (dnode base t)) = v_blob t).
  { rewrite apply_oblob, Hbl by done. apply diff_blob_apply. }
  apply oview_ext; auto with sarun. simpl.
  rewrite apply_exists by done.
  rewrite (has_content_ext _ (Some t)) by (done || intros; by rewrite Hkid).
  pose proof (empty_present_content (Some t)) as Hec. simpl in Hec.
  destruct (has_content (Some t)); [done|]. simpl in *.
  rewrite diff_node_unfold. cbv zeta.
  set (n := MkNode Live _ false _ _ _). destruct (needs_witness base t n) eqn:En.
  - unfold asserts_self. by destruct (dblob base t).
  - unfold needs_witness in En. rewrite <- Hec in En. simpl in En.
    by destruct (asserts_self n), (empty_present base).
Qed.

(** Nothing differs: the identity delta. *)
Lemma diff_node_same v : wf_view v = true → dnode (Some v) v = keep.
Proof.
  induction v as [v IH] using view_ind'; intros Hv.
  pose proof Hv as (_&Hok&Hall)%wf_view_unfold.
  assert (Hk : diff_kids (Some v) v = []).
  { apply bt_nil_get. intros k. rewrite diff_kids_get by done. unfold okid. simpl.
    destruct (bt_get k (v_children v)) as [c|] eqn:E; [|done].
    destruct (view_ptr_eq c c); [done|].
    apply vchild_elem in E. by rewrite (IH _ _ E) by eauto. }
  assert (Hb : dblob (Some v) v = Keep).
  { unfold diff_blob. simpl. destruct (v_blob v); [|done].
    by rewrite bytes_eqb_refl, orb_true_r. }
  assert (Ha : diff_attrs (Some v) v = None).
  { unfold diff_attrs, attrs_eqb. by rewrite bool_decide_true. }
  rewrite diff_node_unfold, Hk, Hb, Ha. unfold needs_witness. simpl.
  by destruct (is_empty_view v).
Qed.

Lemma diff_node_lower base t :
  wf_oview base = true → wf_view t = true → lower_anchored (dnode base t) = true.
Proof.
  revert base. induction t as [t IH] using view_ind'; intros base Hb Ht.
  pose proof (diff_node_fields base t) as (Hp&_&_&Han&Hc).
  pose proof Ht as (_&_&Hall)%wf_view_unfold.
  destruct (dnode base t) as [p b o a an cs]. simpl in *. subst.
  apply orb_true_iff. right. simpl. apply forallb_forall.
  intros [k c] Hin%list_elem_of_In. apply bt_elem_get in Hin; [|apply diff_kids_ok].
  rewrite diff_kids_get in Hin by done.
  destruct (bt_get k (v_children t)) as [tc|] eqn:E.
  - apply vchild_elem in E.
    assert (Hd : lower_anchored (dnode (okid k base) tc) = true)
      by (eapply IH; eauto with sarun).
    destruct (match okid k base with Some _ => _ | None => _ end); [done|].
    unfold drop_identity in Hin. destruct (is_identity _); by simplify_eq.
  - destruct (is_some _); by simplify_eq.
Qed.

Lemma diff_node_settles base t :
  wf_oview base = true → wf_view t = true → settles base (dnode base t) = true.
Proof.
  revert base. induction t as [t IH] using view_ind'; intros base Hb Ht.
  pose proof (diff_apply base t Hb Ht) as Hap.
  pose proof (diff_node_fields base t) as (_&_&Hop&_&Hc).
  pose proof Ht as (_&_&Hall)%wf_view_unfold.
  assert (Hkids : forallb (λ '(k, c), settles (okid k base) c) (diff_kids base t) = true).
  { apply forallb_forall. intros [k c] Hin%list_elem_of_In.
    apply bt_elem_get in Hin; [|apply diff_kids_ok]. rewrite diff_kids_get in Hin by done.
    destruct (bt_get k (v_children t)) as [tc|] eqn:E.
    - apply vchild_elem in E.
      assert (Hd : settles (okid k base) (dnode (okid k base) tc) = true)
        by (eapply IH; eauto with sarun).
      destruct (match okid k base with Some _ => _ | None => _ end); [done|].
      unfold drop_identity in Hin. destruct (is_identity _); by simplify_eq.
    - destruct (is_some _); by simplify_eq. }
  destruct (dnode base t) as [p b o a an cs]. cbn [settles]. simpl in Hop, Hc. subst.
  rewrite Hap. apply orb_true_iff. right. by rewrite orb_true_r.
Qed.
End diff_facts.

(** The pointer shortcuts change nothing. *)
Lemma diff_node_ptr_irrelevant bp vp base t :
  (∀ x y, bp x y = true → x = y) → (∀ x y, vp x y = true → x = y) →
  wf_oview base = true → wf_view t = true →
  diff_node bp vp base t = diff_node (λ _ _, false) (λ _ _, false) base t.
Proof.
  intros Hbp Hvp. revert base. induction t as [t IH] using view_ind'; intros base Hb Ht.
  pose proof Ht as (_&_&Hall)%wf_view_unfold.
  assert (Hbl : diff_blob bp base t = diff_blob (λ _ _, false) base t).
  { unfold diff_blob. destruct (base ≫= v_blob) as [old|], (v_blob t) as [new|]; try done.
    destruct (bp old new) eqn:E; [|done]. apply Hbp in E as ->.
    by rewrite bytes_eqb_refl. }
  assert (Hk : diff_kids bp vp base t = diff_kids (λ _ _, false) (λ _ _, false) base t).
  { apply bt_ext; [apply diff_kids_ok..|]. intros k. rewrite !diff_kids_get by done.
    destruct (bt_get k (v_children t)) as [tc|] eqn:E; [|done].
    apply vchild_elem in E. pose proof (Hall _ _ E) as Htc.
    rewrite (IH _ _ E) by eauto with sarun.
    destruct (okid k base) as [bc|]; [|done].
    destruct (vp bc tc) eqn:Ev; [|done]. apply Hvp in Ev as ->.
    by rewrite diff_node_same. }
  rewrite !diff_node_unfold. by rewrite Hbl, Hk.
Qed.

(** ** Rotation keeps well-formedness *)

Lemma replicate_net_wf n : wf_node n = true → wf_node (replicate_net n) = true.
Proof.
  unfold replicate_net. destruct (is_tombstone n); [done|]. by rewrite !wf_node_unfold.
Qed.

Lemma inverse_wf net b :
  match net with Some n => wf_node n = true | None => True end → wf_node b = true →
  wf_node (inverse_node net b) = true.
Proof.
  revert net. induction b as [b IH] using node_ind'; intros net Hnet Hb.
  pose proof Hb as (_&Hok&Hall)%wf_node_unfold.
  destruct b as [pb bb ob ab nb cb]. cbn [inverse_node]. simpl in *.
  destruct (facets_recorded _); [destruct net; [by apply replicate_net_wf|done]|].
  destruct (match net with Some n => is_tombstone n | None => false end); [done|].
  apply wf_node_unfold. simpl. split_and!; [done| |].
  - by apply bt_ok_put_all.
  - apply wf_put_all; [done|set_solver|]. intros k v c Hin.
    destruct (negb (records v)); [done|].
    assert (Hi : wf_node (inverse_node
      (match net with Some n => bt_get k (children n) | None => None end) v) = true).
    { apply (IH k); [done| |eauto]. destruct net as [n|]; [|done].
      destruct (bt_get k (children n)) eqn:E; [eauto with sarun|done]. }
    destruct (is_identity _); [done|]. by intros [= <-].
Qed.
