(* ===== verification/DepotOcclusion.v ===== *)
(** * Occlusion semantics: what a stack of layers says about each path.

    The abstract specification of the layer algebra.  A delta tree is read
    path by path as an [Occ]: the blob and attributes it records there, or
    that the backdrop decides.  Composition then is a function on these
    readings ([overlay]), applying a layer to a backdrop is a pointwise
    choice, and the laws of squashing and rotation of
    [chupa/depot/src/lib.rs] (also for layers with holes) become equations
    between readings. *)

From S2P Require Import Prelude.
From S2P Require Import BTreeMap.
From S2P Require Import DepotModel.
From S2P Require Import DepotCompose.
From S2P Require Import DepotDiff.

Abbreviation Path := (list (list Z)) (only parsing).

(** What is recorded at one path: [None] leaves the facet to the backdrop;
    [oc_clear] says that nothing recorded strictly above hides the backdrop. *)
Record Occ : Type := MkOcc {
  oc_blob : option (option bytes);
  oc_attrs : option Attrs;
  oc_clear : bool
}.

Definition silent : Occ := MkOcc None None true.
Definition mask (o : Occ) : Occ :=
  MkOcc (Some (default None (oc_blob o))) (Some (default [] (oc_attrs o))) false.
Definition mask_if (m : bool) (o : Occ) : Occ := if m then mask o else o.
Definition masked : Occ := mask silent.

Definition blob_occ (b : BlobOp) : option (option bytes) :=
  match b with Keep => None | SetBlob x => Some (Some x) | Remove => Some None end.

(** The reading of a delta tree ([None]: the name is not recorded). *)
Fixpoint reading (n : option Node) (p : Path) : Occ :=
  match n with
  | None => silent
  | Some n =>
      match p with
      | [] =>
          if is_tombstone n then MkOcc (Some None) (Some []) true
          else MkOcc (blob_occ (blob n)) (attrs n) true
      | k :: p' =>
          if is_tombstone n then masked
          else mask_if (opaque n) (reading (bt_get k (children n)) p')
      end
  end.

(** A delta node's own facets over a reading. *)
Definition facets_over (b : Node) (o : Occ) : Occ :=
  MkOcc (match blob_occ (blob b) with Some r => Some r | None => oc_blob o end)
        (match attrs b with Some m => Some m | None => oc_attrs o end)
        (oc_clear o).

(** The reading of [D] with the delta [b] stacked on it. *)
Fixpoint overlay (b : option Node) (D : Path → Occ) (p : Path) : Occ :=
  match b with
  | None => D p
  | Some b =>
      if is_tombstone b then
        match p with
        | [] => MkOcc (Some None) (Some []) (oc_clear (D []))
        | _ :: _ => masked
        end
      else if is_backdrop (anchor b) then
        mask_if (negb (oc_clear (D []))) (reading (Some b) p)
      else
        match p with
        | [] => facets_over b (D [])
        | k :: p' =>
            if opaque b then mask (reading (bt_get k (children b)) p')
            else overlay (bt_get k (children b)) (λ q, D (k :: q)) p'
        end
  end.

(** The view at a path. *)
Fixpoint view_at_path (o : option View) (p : Path) : option View :=
  match p with
  | [] => o
  | k :: p' => view_at_path (okid k o) p'
  end.

(** What a reader sees at a path. *)
Definition blob_at (o : option View) (p : Path) : option bytes := oblob (view_at_path o p).
Definition attrs_at (o : option View) (p : Path) : Attrs := oattrs (view_at_path o p).

(** The reading of a whole stack, lower-first. *)
Definition stack_reading (stack : list Layer) : Path → Occ :=
  fold_left (λ D l, overlay (Some (root l)) D) stack (λ _, silent).

(** ** Readings *)

Lemma reading_none p : reading None p = silent.
Proof. by destruct p. Qed.

Lemma reading_cons n k p :
  is_tombstone n = false →
  reading (Some n) (k :: p) = mask_if (opaque n) (reading (bt_get k (children n)) p).
Proof. simpl. by intros ->. Qed.

Lemma reading_keep p : reading (Some keep) p = silent.
Proof. destruct p; simpl; [done|]. apply reading_none. Qed.

Lemma reading_tombstone_cons n k p :
  is_tombstone n = true → reading (Some n) (k :: p) = masked.
Proof. simpl. by intros ->. Qed.

Lemma mask_mask o : mask (mask o) = mask o.
Proof. done. Qed.

Lemma mask_if_mask m o : mask_if m (mask o) = mask o.
Proof. by destruct m. Qed.

Lemma mask_if_mask_if m1 m2 o : mask_if m1 (mask_if m2 o) = mask_if (m1 || m2) o.
Proof. by destruct m1, m2. Qed.

Lemma reading_drop_identity n p : reading (drop_identity n) p = reading (Some n) p.
Proof.
  unfold drop_identity. destruct (is_identity n) eqn:E; [|done].
  apply is_identity_keep in E as ->. by rewrite reading_none, reading_keep.
Qed.

(** Behind a mask, hardening is invisible. *)
Lemma reading_harden n p :
  wf_node n = true → mask (reading (Some (harden n)) p) = mask (reading (Some n) p).
Proof.
  revert n. induction p as [|k p IH]; intros n Hn.
  - simpl. rewrite harden_tombstone. rewrite harden_unfold.
    destruct (materializes n) eqn:Em; simpl.
    + assert (is_tombstone n = false) as ->.
      { rewrite materializes_unfold in Em. by destruct (is_tombstone n). }
      unfold mask. simpl. by destruct (blob n), (attrs n).
    + destruct (is_tombstone n) eqn:Et; [done|].
      rewrite materializes_unfold, Et in Em. simpl in Em. split_orb.
      unfold asserts_self in *. split_orb.
      by destruct (blob n), (attrs n).
  - pose proof (wf_node_children _ Hn) as Hok.
    destruct (materializes n) eqn:Em.
    + assert (Et : is_tombstone n = false).
      { rewrite materializes_unfold in Em. by destruct (is_tombstone n). }
      rewrite !reading_cons by (try done; by rewrite harden_tombstone, Em).
      rewrite harden_unfold, Em. simpl. rewrite bt_get_put_all by done.
      assert (Hmm : ∀ o, mask (mask_if (opaque n) o) = mask o) by (by destruct (opaque n)).
      rewrite Hmm. destruct (bt_get k (children n)) as [c|] eqn:E; [|by rewrite !reading_none].
      specialize (IH c (wf_node_child _ _ _ Hn E)). rewrite <- IH.
      destruct (is_tombstone (harden c)) eqn:Eh; [|done].
      rewrite reading_none. destruct p; simpl; by rewrite Eh.
    + rewrite (reading_tombstone_cons (harden n)) by (by rewrite harden_tombstone, Em).
      destruct (is_tombstone n) eqn:Et; [by rewrite reading_tombstone_cons|].
      rewrite reading_cons by done.
      rewrite materializes_unfold, Et in Em. simpl in Em. split_orb.
      unfold asserts_self in *. split_orb. destruct (opaque n); [done|]. simpl.
      destruct (bt_get k (children n)) as [c|] eqn:E; [|by rewrite reading_none].
      rewrite <- (IH c (wf_node_child _ _ _ Hn E)).
      assert (Hc : materializes c = false).
      { destruct (materializes c) eqn:Ec; [|done].
        assert (existsb (λ '(_, c), materializes c) (children n) = true); [|congruence].
        apply existsb_exists. exists (k, c). split; [|done].
        by apply list_elem_of_In, child_elem. }
      destruct p; simpl; by rewrite harden_tombstone, Hc.
Qed.

Lemma reading_live_harden n p :
  wf_node n = true → mask (reading (live_harden n) p) = mask (reading (Some n) p).
Proof.
  intros Hn. rewrite <- reading_harden by done. unfold live_harden.
  destruct (is_tombstone (harden n)) eqn:E; [|done].
  rewrite reading_none. destruct p; simpl; by rewrite E.
Qed.

Lemma reading_clear_root n : oc_clear (reading n []) = true.
Proof. destruct n as [n|]; simpl; [|done]. by destruct (is_tombstone n). Qed.

(** ** Overlaying *)

Lemma overlay_ext b D D' p : (∀ q, D q = D' q) → overlay b D p = overlay b D' p.
Proof.
  revert b D D'. induction p as [|k p IH]; intros [b|] D D' Hext; simpl; rewrite ?Hext; auto.
  do 3 (case_match; [done|]). apply IH. auto.
Qed.

Lemma overlay_none D p : overlay None D p = D p.
Proof. by destruct p. Qed.

Lemma overlay_clear b D : oc_clear (overlay b D []) = oc_clear (D []).
Proof.
  destruct b as [b|]; simpl; [|done]. destruct (is_tombstone b); [done|].
  destruct (is_backdrop (anchor b)); [|done]. by destruct (oc_clear (D [])).
Qed.

Lemma overlay_keep D p : overlay (Some keep) D p = D p.
Proof.
  destruct p as [|k p]; simpl; [by destruct (D [])|by rewrite overlay_none].
Qed.

Lemma overlay_drop_identity n D p : overlay (drop_identity n) D p = overlay (Some n) D p.
Proof.
  unfold drop_identity. destruct (is_identity n) eqn:E; [|done].
  apply is_identity_keep in E as ->. by rewrite overlay_none, overlay_keep.
Qed.

Lemma overlay_mask b D p : overlay b (λ q, mask (D q)) p = mask (overlay b D p).
Proof.
  revert b D. induction p as [|k p IH]; intros [b|] D; simpl; try done.
  - destruct (is_tombstone b); [done|]. destruct (is_backdrop (anchor b)).
    + by destruct (negb (oc_clear (D []))).
    + unfold facets_over, mask. simpl. by destruct (blob_occ (blob b)), (attrs b).
  - destruct (is_tombstone b); [done|]. destruct (is_backdrop (anchor b)).
    + by destruct (negb (oc_clear (D []))).
    + destruct (opaque b); [done|]. apply IH.
Qed.

Lemma overlay_mask_if m b D p :
  overlay b (λ q, mask_if m (D q)) p = mask_if m (overlay b D p).
Proof. destruct m; [apply overlay_mask|done]. Qed.

Lemma overlay_silent b p : overlay b (λ _, silent) p = reading b p.
Proof.
  revert b. induction p as [|k p IH]; intros [b|]; simpl; try done.
  - destruct (is_tombstone b); [done|]. destruct (is_backdrop (anchor b)); [done|].
    unfold facets_over. simpl. by destruct (blob_occ (blob b)), (attrs b).
  - destruct (is_tombstone b); [done|]. destruct (is_backdrop (anchor b)); [done|].
    destruct (opaque b); [done|]. apply IH.
Qed.

Lemma overlay_masked b p : overlay b (λ _, masked) p = mask (reading b p).
Proof.
  rewrite (overlay_ext b _ (λ q, mask silent)) by done.
  rewrite (overlay_mask b (λ _, silent)). by rewrite overlay_silent.
Qed.

Lemma overlay_cons b D k p :
  is_tombstone b = false → is_backdrop (anchor b) = false → opaque b = false →
  overlay (Some b) D (k :: p) = overlay (bt_get k (children b)) (λ q, D (k :: q)) p.
Proof. intros Ht Ha Ho. simpl. by rewrite Ht, Ha, Ho. Qed.

Lemma overlay_tombstone b D p :
  is_tombstone b = true →
  overlay (Some b) D p =
  match p with [] => MkOcc (Some None) (Some []) (oc_clear (D [])) | _ :: _ => masked end.
Proof. intros Ht. destruct p; simpl; by rewrite Ht. Qed.

Lemma overlay_backdrop b D p :
  is_tombstone b = false → is_backdrop (anchor b) = true →
  overlay (Some b) D p = mask_if (negb (oc_clear (D []))) (reading (Some b) p).
Proof. intros Ht Ha. destruct p; simpl; by rewrite Ht, Ha. Qed.

Lemma overlay_root b D :
  is_tombstone b = false → is_backdrop (anchor b) = false →
  overlay (Some b) D [] = facets_over b (D []).
Proof. intros Ht Ha. simpl. by rewrite Ht, Ha. Qed.

Lemma overlay_opaque b D k p :
  is_tombstone b = false → is_backdrop (anchor b) = false → opaque b = true →
  overlay (Some b) D (k :: p) = mask (reading (bt_get k (children b)) p).
Proof. intros Ht Ha Ho. simpl. by rewrite Ht, Ha, Ho. Qed.

(** ** Composition is overlaying *)

Section compose_reading.

(** The child of a composed node, read behind the mask of the lower node. *)
Lemma composed_kid_reading a b k p :
  wf_node a = true → wf_node b = true → opaque b = false →
  (∀ ac bc, bt_get k (children a) = Some ac → bt_get k (children b) = Some bc →
    reading (Some (compose_node ac bc)) p = overlay (Some bc) (reading (Some ac)) p) →
  mask_if (opaque a) (reading (composed_kid a b k) p) =
  mask_if (opaque a) (overlay (bt_get k (children b)) (reading (bt_get k (children a))) p).
Proof.
  intros Ha Hb Ob Hrec. unfold composed_kid. rewrite Ob.
  destruct (bt_get k (children a)) as [ac|] eqn:Ea,
    (bt_get k (children b)) as [bc|] eqn:Eb; rewrite ?overlay_none; try done.
  - by rewrite reading_drop_identity, Hrec.
  - rewrite (overlay_ext _ _ (λ _, silent)) by (intros; by rewrite reading_none).
    rewrite overlay_silent. destruct (opaque a); simpl.
    + apply reading_live_harden. eauto with sarun.
    + apply reading_drop_identity.
Qed.

Lemma reading_harden_over n p :
  wf_node n = true → is_tombstone n = false → is_backdrop (anchor n) = false →
  reading (Some (harden n)) p = overlay (Some n) (reading (Some tombstone)) p.
Proof.
  intros Hn Ht Ha. destruct p as [|k p].
  - simpl. rewrite Ht, Ha, harden_tombstone. rewrite harden_unfold.
    unfold facets_over. simpl. destruct (materializes n) eqn:Em; simpl.
    + by destruct (blob n), (attrs n).
    + rewrite materializes_unfold, Ht in Em. simpl in Em. split_orb.
      unfold asserts_self in *. split_orb. by destruct (blob n), (attrs n).
  - assert (Hr : overlay (Some n) (reading (Some tombstone)) (k :: p)
               = mask (reading (bt_get k (children n)) p)).
    { simpl. rewrite Ht, Ha. destruct (opaque n); [done|].
      etrans; [by apply (overlay_ext _ _ (λ _, masked))|apply overlay_masked]. }
    rewrite Hr.
    assert (Hm : ∀ n', mask (reading (Some n') (k :: p)) =
      if is_tombstone n' then masked else mask (reading (bt_get k (children n')) p)).
    { intros n'. simpl. destruct (is_tombstone n'); [done|]. by destruct (opaque n'). }
    pose proof (reading_harden n (k :: p) Hn) as Hh. rewrite (Hm n), Ht in Hh.
    rewrite <- Hh. simpl. destruct (is_tombstone (harden n)) eqn:Eh; [done|].
    by rewrite harden_opaque.
Qed.

Lemma compose_reading a b p :
  wf_node a = true → wf_node b = true →
  reading (Some (compose_node a b)) p = overlay (Some b) (reading (Some a)) p.
Proof.
  revert a b. induction p as [|k p IH]; intros a b Ha Hb.
  all: destruct (is_tombstone b) eqn:Tb;
    [rewrite compose_b_tombstone by done; simpl; rewrite Tb; by destruct (is_tombstone a)|].
  all: destruct (is_backdrop (anchor b)) eqn:Ab;
    [rewrite compose_b_backdrop by done; simpl; rewrite Tb, Ab; by destruct (is_tombstone a)|].
  all: destruct (is_tombstone a) eqn:Ta;
    [rewrite compose_a_tombstone, reading_harden_over by done; apply overlay_ext;
     intros [|??]; simpl; by rewrite Ta|].
  - simpl. rewrite compose_live, Tb, Ab, Ta by done.
    destruct (compose_shape a b Tb Ab Ta) as (_&->&_&->&_).
    unfold facets_over. simpl. by destruct (blob b), (attrs b).
  - rewrite reading_cons by (by apply compose_live).
    destruct (compose_shape a b Tb Ab Ta) as (_&_&->&_).
    rewrite compose_kid by eauto with sarun.
    destruct (opaque b) eqn:Ob; simpl.
    + rewrite Tb, Ab, Ob. unfold composed_kid. rewrite Ob.
      destruct (bt_get k (children b)) as [bc|] eqn:Eb; simpl; [|done].
      apply reading_live_harden. eauto with sarun.
    + rewrite Tb, Ab, Ob. rewrite composed_kid_reading by eauto with sarun.
      rewrite <- overlay_mask_if. apply overlay_ext. intros q. by rewrite Ta.
Qed.
End compose_reading.

(** A recreated subtree does not see what it is stacked on. *)
Lemma overlay_harden n D p :
  wf_node n = true → is_tombstone n = false → is_backdrop (anchor n) = false →
  overlay (Some (harden n)) D p =
  overlay (Some n) (overlay (Some tombstone) D) p.
Proof.
  intros Hn Tn An.
  assert (Hn' : anchor (harden n) = Lower) by (rewrite harden_unfold; by destruct (materializes n)).
  destruct p as [|k p].
  - rewrite (overlay_root n) by done. rewrite (overlay_tombstone tombstone) by done.
    destruct (is_tombstone (harden n)) eqn:Eh.
    + rewrite overlay_tombstone by done. rewrite harden_tombstone in Eh.
      apply negb_true_iff in Eh. rewrite materializes_unfold, Tn in Eh. simpl in Eh.
      split_orb. unfold asserts_self, facets_over in *. split_orb.
      by destruct (blob n), (attrs n).
    + rewrite overlay_root by (by rewrite ?Hn').
      rewrite harden_tombstone in Eh. apply negb_false_iff in Eh.
      rewrite harden_unfold, Eh. unfold facets_over. simpl.
      by destruct (blob n), (attrs n).
  - pose proof (reading_harden_over n (k :: p) Hn Tn An) as Hr.
    transitivity (overlay (Some n) (reading (Some tombstone)) (k :: p)).
    + rewrite <- Hr. destruct (is_tombstone (harden n)) eqn:Eh.
      * by rewrite overlay_tombstone, reading_tombstone_cons.
      * rewrite overlay_opaque by (rewrite ?Hn'; auto using harden_opaque).
        by rewrite reading_cons, harden_opaque.
    + simpl. rewrite Tn, An. destruct (opaque n); [done|].
      apply overlay_ext. intros q. by rewrite ?overlay_tombstone.
Qed.

(** Stacking on a reading is associative: the cases where one node decides. *)
Lemma overlay_compose_decided a b D p :
  wf_node a = true → wf_node b = true →
  is_tombstone b || is_backdrop (anchor b) || is_tombstone a || is_backdrop (anchor a) = true →
  overlay (Some (compose_node a b)) D p = overlay (Some b) (overlay (Some a) D) p.
Proof.
  intros Ha Hb. destruct (is_tombstone b) eqn:Tb; intros Hcase.
  { rewrite compose_b_tombstone, !overlay_tombstone by done. by rewrite overlay_clear. }
  destruct (is_backdrop (anchor b)) eqn:Ab.
  { rewrite compose_b_backdrop, !overlay_backdrop by done. by rewrite overlay_clear. }
  destruct (is_tombstone a) eqn:Ta.
  { rewrite compose_a_tombstone, overlay_harden by done. apply overlay_ext. intros q.
    by rewrite !overlay_tombstone. }
  destruct (is_backdrop (anchor a)) eqn:Aa; [|done].
  pose proof (compose_shape a b Tb Ab Ta) as (_&_&_&_&Han).
  rewrite overlay_backdrop by (rewrite ?Han; auto using compose_live).
  rewrite compose_reading by done. rewrite <- overlay_mask_if.
  apply overlay_ext. intros q. by rewrite overlay_backdrop.
Qed.

Lemma overlay_compose a b D p :
  wf_node a = true → wf_node b = true →
  overlay (Some (compose_node a b)) D p = overlay (Some b) (overlay (Some a) D) p.
Proof.
  revert a b D. induction p as [|k p IH]; intros a b D Ha Hb.
  all: destruct (is_tombstone b || is_backdrop (anchor b) || is_tombstone a
                 || is_backdrop (anchor a)) eqn:Hcase;
    [by apply overlay_compose_decided|]; split_orb.
  all: pose proof (compose_shape a b) as (_&Hbl&Hop&Hat&Han); [done..|].
  all: pose proof (compose_live a b) as Tc; repeat (specialize (Tc ltac:(done))).
  { rewrite !overlay_root by (done || by rewrite Han).
    unfold facets_over. rewrite Hbl, Hat. by destruct (blob b), (attrs b). }
  destruct (opaque b) eqn:Ob.
  { rewrite !overlay_opaque by (done || by rewrite ?Han, ?Hop).
    rewrite compose_kid by eauto with sarun. unfold composed_kid. rewrite Ob.
    destruct (bt_get k (children b)) as [bc|] eqn:Eb; [|done]. simpl.
    apply reading_live_harden. eauto with sarun. }
  rewrite (overlay_cons b) by done.
  destruct (opaque a) eqn:Oa.
  - rewrite overlay_opaque by (done || by rewrite ?Han, ?Hop).
    rewrite compose_kid by eauto with sarun.
    pose proof (composed_kid_reading a b k p Ha Hb Ob) as Hk. rewrite Oa in Hk. simpl in Hk.
    rewrite Hk by (intros; apply compose_reading; eauto with sarun).
    rewrite <- overlay_mask. apply overlay_ext. intros q. by rewrite overlay_opaque.
  - rewrite overlay_cons by (done || by rewrite ?Han, ?Hop).
    rewrite compose_kid by eauto with sarun.
    transitivity (overlay (bt_get k (children b))
      (overlay (bt_get k (children a)) (λ q, D (k :: q))) p).
    2:{ apply overlay_ext. intros q. by rewrite overlay_cons. }
    unfold composed_kid. rewrite Ob, Oa.
    destruct (bt_get k (children a)) as [ac|] eqn:Ea,
      (bt_get k (children b)) as [bc|] eqn:Eb; rewrite ?overlay_none; try done.
    + rewrite overlay_drop_identity. apply IH; eauto with sarun.
    + rewrite overlay_drop_identity. apply overlay_ext. intros q. by rewrite overlay_none.
Qed.

(** The restoration [inverse_node] writes where [b] recorded a facet. *)
Definition restoration (net : option Node) : Node :=
  match net with Some n => replicate_net n | None => hole end.

Lemma overlay_restoration net D m p :
  oc_clear (D []) = negb m →
  overlay (Some (restoration net)) D p = mask_if m (reading net p).
Proof.
  intros Hc. destruct net as [n|]; simpl.
  - unfold replicate_net. destruct (is_tombstone n) eqn:Tn.
    + rewrite overlay_tombstone by done. rewrite Hc.
      destruct p; simpl; rewrite Tn; by destruct m.
    + assert (Hl : presence n = Live) by (unfold is_tombstone in Tn; by destruct (presence n)).
      rewrite overlay_backdrop, Hc, negb_involutive by (simpl; by rewrite ?Hl).
      f_equal. destruct p; simpl; rewrite Tn; unfold is_tombstone; simpl; by rewrite Hl.
  - rewrite overlay_backdrop, Hc, negb_involutive by done. f_equal.
    destruct p; simpl; [done|]. by rewrite !reading_none.
Qed.

Lemma inverse_recorded net b :
  facets_recorded b = true → inverse_node net b = restoration net.
Proof. intros Hf. destruct b; simpl in *. by rewrite Hf. Qed.

Lemma inverse_deleted n b :
  facets_recorded b = false → is_tombstone n = true →
  inverse_node (Some n) b = restoration (Some n).
Proof.
  intros Hf Tn. destruct b; simpl in *. rewrite Hf, Tn. unfold replicate_net. by rewrite Tn.
Qed.

Definition net_child (net : option Node) (k : Name) : option Node :=
  match net with Some n => bt_get k (children n) | None => None end.

(** The inverse of a carrier: a carrier of the children's inverses. *)
Lemma inverse_carrier net b :
  facets_recorded b = false →
  match net with Some n => is_tombstone n | None => false end = false →
  bt_ok (children b) = true →
  let inv := inverse_node net b in
  is_tombstone inv = false ∧ is_backdrop (anchor inv) = false ∧ opaque inv = false ∧
  blob inv = Keep ∧ attrs inv = None ∧
  ∀ k, bt_get k (children inv) =
    match bt_get k (children b) with
    | Some bc => if is_identity bc then None
                 else drop_identity (inverse_node (net_child net k) bc)
    | None => None
    end.
Proof.
  intros Hf Hn Hok. simpl. destruct b as [pb bb ob ab nb cb]. cbn [inverse_node].
  simpl in Hok. rewrite Hf, Hn. simpl. split_and!; try done.
  intros k. rewrite bt_get_put_all by done.
  destruct (bt_get k cb) as [bc|]; [|done].
  unfold records, drop_identity, net_child. destruct (is_identity bc); [done|]. simpl.
  by destruct (is_identity _).
Qed.

Lemma facets_recorded_false b :
  facets_recorded b = false →
  is_tombstone b = false ∧ blob b = Keep ∧ attrs b = None ∧ opaque b = false ∧
  is_backdrop (anchor b) = false.
Proof. unfold facets_recorded. intros. split_orb. by destruct (blob b), (attrs b). Qed.

(** [inverse_node] takes back what [b] records. *)
Lemma overlay_inverse net b m p :
  match net with Some n => wf_node n = true | None => True end → wf_node b = true →
  overlay (Some (inverse_node net b))
    (overlay (Some b) (λ q, mask_if m (reading net q))) p
  = mask_if m (reading net p).
Proof.
  revert net b m. induction p as [|k p IH]; intros net b m Hnet Hb.
  all: assert (Hclear : oc_clear (overlay (Some b) (λ q, mask_if m (reading net q)) []) = negb m)
    by (rewrite overlay_clear; pose proof (reading_clear_root net); by destruct m).
  all: destruct (facets_recorded b) eqn:Hf;
    [rewrite inverse_recorded by done; by apply overlay_restoration|].
  all: destruct (match net with Some n => is_tombstone n | None => false end) eqn:Hn;
    [destruct net as [n|]; [|done]; rewrite inverse_deleted by done;
     by apply overlay_restoration|].
  all: pose proof (facets_recorded_false b Hf) as (Tb&Bb&Atb&Ob&Ab).
  all: pose proof (inverse_carrier net b Hf Hn (wf_node_children _ Hb))
         as (Ti&Ai&Oi&Bi&Ati&Hi).
  - rewrite !overlay_root by done. unfold facets_over. rewrite Bi, Ati, Bb, Atb.
    cbn [blob_occ oc_blob oc_attrs oc_clear]. by destruct (mask_if m (reading net [])).
  - rewrite (overlay_cons (inverse_node net b)) by done. rewrite Hi.
    assert (Hnet' : match net_child net k with Some n => wf_node n = true | None => True end).
    { destruct net as [n|]; simpl; [|done].
      destruct (bt_get k (children n)) eqn:E; [eauto with sarun|done]. }
    assert (Hread : ∃ m', ∀ q, mask_if m (reading net (k :: q))
                              = mask_if m' (reading (net_child net k) q)).
    { destruct net as [n|]; simpl.
      - exists (m || opaque n). intros q. rewrite Hn. apply mask_if_mask_if.
      - exists m. intros q. by rewrite reading_none. }
    destruct Hread as [m' Hread]. rewrite Hread.
    assert (Hin : ∀ q, overlay (Some b) (λ q, mask_if m (reading net q)) (k :: q)
      = overlay (bt_get k (children b)) (λ q, mask_if m' (reading (net_child net k) q)) q).
    { intros q. rewrite overlay_cons by done. apply overlay_ext. auto. }
    destruct (bt_get k (children b)) as [bc|] eqn:E.
    + destruct (is_identity bc) eqn:Eid.
      * rewrite overlay_none, Hin. apply is_identity_keep in Eid as ->. by rewrite overlay_keep.
      * rewrite overlay_drop_identity, (overlay_ext _ _ _ _ Hin).
        apply IH; eauto with sarun.
    + rewrite overlay_none, Hin. by rewrite overlay_none.
Qed.

(** ** From readings to views *)

Lemma view_at_okid o k p : view_at_path o (k :: p) = view_at_path (okid k o) p.
Proof. done. Qed.

(** Applying a delta chooses, path by path, between it and the backdrop. *)
Lemma apply_at base n p :
  wf_node n = true → wf_oview base = true →
  blob_at (apply_node base n) p
    = default (blob_at base p) (oc_blob (reading (Some n) p)) ∧
  attrs_at (apply_node base n) p
    = default (attrs_at base p) (oc_attrs (reading (Some n) p)).
Proof.
  unfold blob_at, attrs_at. revert base n. induction p as [|k p IH]; intros base n Hn Hb.
  - simpl. destruct (is_tombstone n) eqn:Tn; [by rewrite apply_tombstone|].
    rewrite apply_oblob, apply_oattrs by done. simpl.
    by destruct (blob n), (attrs n).
  - destruct (is_tombstone n) eqn:Tn.
    { rewrite apply_tombstone, reading_tombstone_cons by done. simpl.
      replace (okid k None) with (@None View) by done. clear. by induction p. }
    simpl. rewrite Tn, apply_okid by auto with sarun. unfold kid_after, lower_kid.
    assert (Hnone : ∀ q, view_at_path None q = None) by (intros q; by induction q).
    destruct (bt_get k (children n)) as [c|] eqn:E.
    + destruct (opaque n) eqn:On; simpl.
      * destruct (IH None c) as [-> ->]; eauto with sarun. rewrite Hnone. simpl.
        by destruct (oc_blob _), (oc_attrs _).
      * apply IH; eauto with sarun.
    + rewrite reading_none. destruct (opaque n); simpl; [by rewrite Hnone|done].
Qed.

(** Views with the same facets everywhere are equal up to empty nodes. *)
Lemma veq_no_facets o :
  wf_oview o = true → (∀ p, blob_at o p = None ∧ attrs_at o p = []) → veq o None.
Proof.
  destruct o as [v|]; [|done]. induction v as [v IH] using view_ind'; intros Hv Hp.
  apply veq_intro; try done.
  - apply (Hp []).
  - apply (Hp []).
  - intros k. change (okid k None) with (@None View).
    destruct (okid k (Some v)) as [c|] eqn:E; [|done].
    pose proof (wf_okid (Some v) k Hv) as Hc. rewrite E in Hc.
    eapply IH; [by apply vchild_elem|done|].
    intros p. specialize (Hp (k :: p)). unfold blob_at, attrs_at in Hp. simpl in Hp.
    by rewrite E in Hp.
Qed.

Lemma veq_facets o1 o2 :
  wf_oview o1 = true → wf_oview o2 = true →
  (∀ p, blob_at o1 p = blob_at o2 p ∧ attrs_at o1 p = attrs_at o2 p) → veq o1 o2.
Proof.
  assert (Hnone : ∀ q, view_at_path None q = None) by (intros q; by induction q).
  destruct o1 as [v|]; intros H1 H2 Hp.
  2:{ symmetry. apply veq_no_facets; [done|]. intros p. destruct (Hp p) as [<- <-].
      unfold blob_at, attrs_at. by rewrite Hnone. }
  revert o2 H1 H2 Hp. induction v as [v IH] using view_ind'; intros o2 H1 H2 Hp.
  apply veq_intro; try done; [apply (Hp [])..|].
  intros k. pose proof (wf_okid (Some v) k H1) as Hc1. pose proof (wf_okid o2 k H2) as Hc2.
  assert (Hpk : ∀ p, blob_at (okid k (Some v)) p = blob_at (okid k o2) p
                   ∧ attrs_at (okid k (Some v)) p = attrs_at (okid k o2) p)
    by (intros p; apply (Hp (k :: p))).
  destruct (okid k (Some v)) as [c|] eqn:E.
  - eapply IH; [by apply vchild_elem|done..].
  - symmetry. apply veq_no_facets; [done|]. intros p. destruct (Hpk p) as [<- <-].
    unfold blob_at, attrs_at. by rewrite Hnone.
Qed.

(** Two deltas with the same reading show the same over every backdrop. *)
Lemma veq_reading n1 n2 base :
  wf_node n1 = true → wf_node n2 = true → wf_oview base = true →
  (∀ p, reading (Some n1) p = reading (Some n2) p) →
  veq (apply_node base n1) (apply_node base n2).
Proof.
  intros H1 H2 Hb Hr. apply veq_facets; auto with sarun. intros p.
  destruct (apply_at base n1 p H1 Hb) as [-> ->].
  destruct (apply_at base n2 p H2 Hb) as [-> ->]. by rewrite Hr.
Qed.

(** ** Stacks and rotation *)

Lemma squash_reading_acc stack acc p :
  forallb wf_layer stack = true → wf_layer acc = true →
  reading (Some (root (fold_left compose stack acc))) p =
  fold_left (λ D l, overlay (Some (root l)) D) stack (reading (Some (root acc))) p.
Proof.
  revert acc p. induction stack as [|l stack IH]; intros acc p Hs Hacc; simpl; [done|].
  simpl in Hs. split_andb. rewrite IH by auto using compose_wf_layer.
  assert (Hext : ∀ D D', (∀ q, D q = D' q) →
    fold_left (λ D l, overlay (Some (root l)) D) stack D p =
    fold_left (λ D l, overlay (Some (root l)) D) stack D' p).
  { clear. revert p. induction stack as [|l stack IH]; intros p D D' HD; simpl; [done|].
    apply IH. intros q. by apply overlay_ext. }
  apply Hext. intros q. unfold compose. simpl. by apply compose_reading.
Qed.

Lemma squash_reading stack p :
  forallb wf_layer stack = true →
  reading (Some (root (squash stack))) p = stack_reading stack p.
Proof.
  intros Hs. unfold squash, stack_reading. rewrite squash_reading_acc by done.
  assert (Hext : ∀ D D', (∀ q, D q = D' q) →
    fold_left (λ D l, overlay (Some (root l)) D) stack D p =
    fold_left (λ D l, overlay (Some (root l)) D) stack D' p).
  { clear. revert p. induction stack as [|l stack IH]; intros p D D' HD; simpl; [done|].
    apply IH. intros q. by apply overlay_ext. }
  apply Hext. intros q. apply reading_keep.
Qed.
