(* ===== verification/DepotLaws.v ===== *)
(** * The laws of the layer algebra.

    The equations the module documentation of [chupa/depot/src/lib.rs] states
    for [apply], [resolve], [compose], [squash], [diff] and [rotate], for all
    well-formed layers and views, with an instance of each on concrete
    layers. *)

From S2P Require Import Prelude.
From S2P Require Import BTreeMap.
From S2P Require Import DepotModel.
From S2P Require Import DepotCompose.
From S2P Require Import DepotDiff.
From S2P Require Import DepotOcclusion.

(** ** Concrete layers *)
Module Sample.

Definition name_d : Name := [100%Z].
Definition name_f : Name := [102%Z].

(** [f] holding the bytes "hi". *)
Definition file_node : Node := MkNode Live (SetBlob [104; 105]%Z) false None Lower [].

(** Nothing of its own; one child. *)
Definition carrier (k : Name) (n : Node) : Node := MkNode Live Keep false None Lower [(k, n)].

(** [mkdir d] *)
Definition mkdir_d : Layer := MkLayer (carrier name_d (MkNode Live Keep false (Some []) Lower [])).
(** [echo -n hi > d/f] *)
Definition write_df : Layer := MkLayer (carrier name_d (carrier name_f file_node)).
(** [rm d/f] *)
Definition remove_df : Layer := MkLayer (carrier name_d (carrier name_f tombstone)).
(** [rm -r d] *)
Definition remove_d : Layer := MkLayer (carrier name_d tombstone).

Definition host_view : View :=
  MkView None [] [(name_d, MkView None [] [(name_f, MkView (Some [111; 108; 100]%Z) [] [])])].

Definition target_view : View :=
  MkView None [] [(name_d, MkView None [] []); (name_f, MkView (Some [104; 105]%Z) [] [])].

(** Allocation identity when nothing is shared. *)
Definition unshared {A} (_ _ : A) : bool := false.
End Sample.
Import Sample.

(** ** Applying and composing *)

(** C1. Composing two deltas is applying them in order: over any base, for a
    lower-anchored upper delta that leaves no directory empty and unasserted,
    [apply(base, compose(a, b))] equals [apply(apply(base, a), b)]. *)
Theorem compose_is_sequential (a b : Layer) (base : option View)
    (Ha : wf_layer a = true) (Hb : pure_layer b = true) (Hbase : wf_oview base = true)
    (Hs : settles (apply base a) (root b) = true) :
  apply base (compose a b) = apply (apply base a) b.
Proof.
  apply pure_layer_inv in Hb as [Hb Hl]. unfold apply. simpl. by apply compose_apply_settled.
Qed.

Lemma compose_is_sequential_witness :
  settles (apply (Some host_view) mkdir_d) (root write_df) = true ∧
  apply (Some host_view) (compose mkdir_d write_df)
  = apply (apply (Some host_view) mkdir_d) write_df.
Proof. split; [reflexivity|]. apply compose_is_sequential; reflexivity. Defined.

(** The squash law: replacing the top of a stack by its squash shows the
    same tree, up to the presence of empty nodes. *)
Theorem squash_tail_law (stack tail : list Layer)
    (Hs : forallb pure_layer stack = true) (Ht : forallb pure_layer tail = true) :
  veq (resolve (stack ++ [squash tail])) (resolve (stack ++ tail)).
Proof.
  unfold resolve. rewrite !fold_left_app. simpl.
  apply squash_veq; [done|]. apply forallb_pure_wf in Hs. clear Ht.
  assert (Hgen : ∀ o, wf_oview o = true →
    wf_oview (fold_left (λ v l, apply v l) stack o) = true).
  { induction stack as [|l stack IH]; intros o Ho; simpl; [done|].
    simpl in Hs. split_andb. apply IH; [done|]. by apply wf_apply_node. }
  by apply Hgen.
Qed.

Lemma squash_tail_law_witness :
  veq (resolve ([mkdir_d] ++ [squash [write_df; remove_df]]))
      (resolve ([mkdir_d] ++ [write_df; remove_df])).
Proof. apply squash_tail_law; reflexivity. Defined.

(** Composing first and applying once over the backdrop ([resolve_over])
    shows the same tree as applying layer by layer, up to empty nodes. *)
Theorem resolve_over_is_layerwise (stack : list Layer) (backdrop : option View)
    (Hs : forallb pure_layer stack = true) (Hb : wf_oview backdrop = true) :
  veq (resolve_over backdrop stack) (fold_left (λ v l, apply v l) stack backdrop).
Proof. by apply squash_veq. Qed.

Lemma resolve_over_is_layerwise_witness :
  veq (resolve_over (Some host_view) [remove_d; mkdir_d; write_df])
      (fold_left (λ v l, apply v l) [remove_d; mkdir_d; write_df] (Some host_view)).
Proof. apply resolve_over_is_layerwise; reflexivity. Defined.

(** The path-by-path specification of a stack, holes included: the blob
    and attributes seen at a path are the ones the stack's reading records
    there, and the backdrop's where it records nothing. *)
Theorem resolve_over_reads_occlusion (stack : list Layer) (backdrop : option View) (p : Path)
    (Hs : forallb wf_layer stack = true) (Hb : wf_oview backdrop = true) :
  blob_at (resolve_over backdrop stack) p
    = default (blob_at backdrop p) (oc_blob (stack_reading stack p)) ∧
  attrs_at (resolve_over backdrop stack) p
    = default (attrs_at backdrop p) (oc_attrs (stack_reading stack p)).
Proof.
  rewrite <- squash_reading by done. apply apply_at; [|done]. by apply squash_wf.
Qed.

Lemma resolve_over_reads_occlusion_witness :
  blob_at (resolve_over (Some host_view) [remove_d; write_df]) [name_d; name_f]
  = Some [104; 105]%Z.
Proof.
  destruct (resolve_over_reads_occlusion [remove_d; write_df] (Some host_view)
    [name_d; name_f] eq_refl eq_refl) as [-> _].
  reflexivity.
Defined.

(** The in-place [apply_mut] computes exactly [apply]. *)
Theorem apply_mut_agrees (base : option View) (l : Layer)
    (Hb : wf_oview base = true) (Hl : wf_layer l = true) :
  apply_mut base l = apply base l.
Proof.
  unfold apply_mut, apply. rewrite <- apply_child_mut_apply by done.
  unfold apply_node_mut, mutate_view. by destruct (root l).
Qed.

Lemma apply_mut_agrees_witness :
  apply_mut (Some host_view) write_df = apply (Some host_view) write_df.
Proof. apply apply_mut_agrees; reflexivity. Defined.

(** ** Differences *)

Section diff_laws.
Context (blob_ptr_eq : bytes → bytes → bool) (view_ptr_eq : View → View → bool).
Hypothesis blob_ptr_eq_sound : ∀ x y, blob_ptr_eq x y = true → x = y.
Hypothesis view_ptr_eq_sound : ∀ x y, view_ptr_eq x y = true → x = y.

(** C36. [apply(base, diff(base, target)) == target], with empty directories
    kept distinct from absent ones. *)
Theorem apply_diff (base : option View) (t : View)
    (Hb : wf_oview base = true) (Ht : wf_view t = true) :
  apply base (diff blob_ptr_eq view_ptr_eq base (Some t)) = Some t.
Proof. by apply diff_apply. Qed.

(** Recording a change as a difference composes exactly: over the base
    of the lower layer, the composed layer shows the target. *)
Theorem compose_diff (a : Layer) (base : option View) (t : View)
    (Ha : wf_layer a = true) (Hb : wf_oview base = true) (Ht : wf_view t = true) :
  apply base (compose a (diff blob_ptr_eq view_ptr_eq (apply base a) (Some t))) = Some t.
Proof.
  assert (Ho : wf_oview (apply base a) = true) by (by apply wf_apply_node).
  unfold apply, compose. simpl. rewrite compose_apply_settled.
  - by apply diff_apply.
  - done.
  - by apply diff_node_wf.
  - done.
  - by apply diff_node_lower.
  - by apply diff_node_settles.
Qed.

(** The [Arc::ptr_eq] shortcuts are pure short-circuits: the emitted
    layer is the one of the comparison without them. *)
Theorem diff_shortcut_exact (base : option View) (t : View)
    (Hb : wf_oview base = true) (Ht : wf_view t = true) :
  diff blob_ptr_eq view_ptr_eq base (Some t) = diff unshared unshared base (Some t).
Proof. unfold diff. f_equal. by apply diff_node_ptr_irrelevant. Qed.

(** Equal views differ by the identity layer, and only they do. *)
Theorem diff_identity_iff (v t : View) (Hv : wf_view v = true) (Ht : wf_view t = true) :
  is_identity (root (diff blob_ptr_eq view_ptr_eq (Some v) (Some t))) = true ↔ v = t.
Proof.
  simpl. split.
  - intros Hid. pose proof (diff_apply blob_ptr_eq view_ptr_eq blob_ptr_eq_sound
      view_ptr_eq_sound (Some v) t Hv Ht) as Hap.
    rewrite apply_identity in Hap by done. by simplify_eq.
  - intros <-. by rewrite diff_node_same.
Qed.
End diff_laws.

Lemma apply_diff_witness :
  apply (Some host_view) (diff unshared unshared (Some host_view) (Some target_view))
  = Some target_view.
Proof. apply apply_diff; first [done | reflexivity]. Defined.

Lemma compose_diff_witness :
  apply (Some host_view)
    (compose remove_df
      (diff unshared unshared (apply (Some host_view) remove_df) (Some target_view)))
  = Some target_view.
Proof. apply compose_diff; first [done | reflexivity]. Defined.

(** Sharing decided by equality: the most sharing there can be. *)
Definition shared_view (x y : View) : bool :=
  match x, y with
  | MkView None [] [], MkView None [] [] => true
  | _, _ => false
  end.

Lemma diff_shortcut_exact_witness :
  diff bytes_eqb shared_view (Some target_view) (Some target_view)
  = diff unshared unshared (Some target_view) (Some target_view).
Proof.
  apply diff_shortcut_exact; try reflexivity.
  - intros x y. apply bytes_eqb_eq.
  - intros [[] [] []] [[] [] []]; simpl; congruence.
Defined.

Lemma diff_identity_iff_witness :
  is_identity (root (diff unshared unshared (Some host_view) (Some target_view))) = true
  ↔ host_view = target_view.
Proof. apply diff_identity_iff; first [done | reflexivity]. Defined.

(** ** Rotation *)

Section rotation_laws.
Context (ancestors : list Layer) (a b : Layer) (backdrop : option View).
Hypothesis ancestors_wf : forallb wf_layer ancestors = true.
Hypothesis a_wf : wf_layer a = true.
Hypothesis b_wf : wf_layer b = true.
Hypothesis backdrop_wf : wf_oview backdrop = true.

Local Lemma stack_wf (l : list Layer) :
  forallb wf_layer l = true → forallb wf_layer (ancestors ++ l) = true.
Proof. intros Hl. by rewrite forallb_app, ancestors_wf, Hl. Qed.

Local Lemma rotated_reading p :
  reading (Some (root (squash (ancestors ++ [compose a b])))) p
  = overlay (Some (root b)) (reading (Some (root (squash (ancestors ++ [a]))))) p.
Proof.
  unfold squash. rewrite !fold_left_app. simpl.
  pose proof (squash_wf ancestors ancestors_wf) as Hsq. unfold wf_layer in *.
  rewrite !compose_reading by auto using compose_wf.
  rewrite overlay_compose by done. apply overlay_ext. intros q.
  by rewrite compose_reading.
Qed.

(** Rotation keeps the promoted child: over every backdrop and every
    chain of ancestors, the new parent shows what the old parent and child
    showed together, up to empty nodes. *)
Theorem rotate_promotes :
  veq (resolve_over backdrop (ancestors ++ [(rotate ancestors a b).1]))
      (resolve_over backdrop (ancestors ++ [a; b])).
Proof.
  unfold resolve_over, apply. simpl. apply veq_reading; [| |done|].
  - apply squash_wf, stack_wf. simpl. by rewrite compose_wf_layer.
  - apply squash_wf, stack_wf. simpl. by rewrite a_wf, b_wf.
  - intros p. rewrite rotated_reading. unfold squash. rewrite !fold_left_app. simpl.
    pose proof (squash_wf ancestors ancestors_wf) as Hsq. unfold wf_layer in *.
    rewrite (compose_reading (compose_node _ _)) by auto using compose_wf. done.
Qed.

(** Rotation restores the demoted parent: with the new child stacked on
    the new parent, every backdrop shows what the old parent showed, up to
    empty nodes. *)
Theorem rotate_restores :
  veq (resolve_over backdrop
         (ancestors ++ [(rotate ancestors a b).1; (rotate ancestors a b).2]))
      (resolve_over backdrop (ancestors ++ [a])).
Proof.
  assert (Hnet : wf_layer (squash (ancestors ++ [a])) = true).
  { apply squash_wf, stack_wf. simpl. by rewrite a_wf. }
  assert (Hnew : wf_layer (squash (ancestors ++ [compose a b])) = true).
  { apply squash_wf, stack_wf. simpl. by rewrite compose_wf_layer. }
  assert (Hinv : wf_node (inverse_node (Some (root (squash (ancestors ++ [a])))) (root b)) = true)
    by (by apply inverse_wf).
  assert (Hsplit : ∀ x y, squash (ancestors ++ [x; y]) = compose (squash (ancestors ++ [x])) y).
  { intros x y. unfold squash. by rewrite !fold_left_app. }
  unfold resolve_over, apply. simpl. rewrite Hsplit.
  apply veq_reading; [by apply compose_wf|done..|].
  intros p. simpl. rewrite compose_reading by done.
  rewrite (overlay_ext _ _ _ _ rotated_reading).
  apply (overlay_inverse (Some (root (squash (ancestors ++ [a])))) (root b) false); done.
Qed.
End rotation_laws.

Lemma rotate_promotes_witness :
  veq (resolve_over (Some host_view) ([remove_d] ++ [(rotate [remove_d] mkdir_d write_df).1]))
      (resolve_over (Some host_view) ([remove_d] ++ [mkdir_d; write_df])).
Proof. apply rotate_promotes; reflexivity. Defined.

Lemma rotate_restores_witness :
  veq (resolve_over (Some host_view)
         ([remove_d] ++ [(rotate [remove_d] mkdir_d write_df).1;
                         (rotate [remove_d] mkdir_d write_df).2]))
      (resolve_over (Some host_view) ([remove_d] ++ [mkdir_d])).
Proof. apply rotate_restores; reflexivity. Defined.

(** ** Where the laws stop at empty nodes *)

(** Creating [d], writing [d/f] and removing [d/f] again: layer by layer
    [d] is gone, composed first [d] remains as an empty directory. *)
Theorem emptied_directory_depends_on_order :
  resolve [mkdir_d; write_df; remove_df] = None ∧
  resolve_over None [mkdir_d; write_df; remove_df]
  = Some (MkView None [] [(name_d, MkView None [] [])]).
Proof. split; reflexivity. Qed.

(** A whole-view difference to nothing does not produce nothing: the
    root stays as an explicitly present empty node. *)
Theorem diff_to_nothing_leaves_root (bp : bytes → bytes → bool) (vp : View → View → bool)
    (base : option View) :
  apply base (diff bp vp base None) = Some view_default.
Proof. by destruct base. Qed.
