(* ===== verification/DepotCodec.v ===== *)
(** * The canonical layer encoding.

    Models [chupa/depot/src/codec.rs]: the writer ([put_varint], [put_bytes],
    [encode_node], [encode]) over an output buffer, and the reader over an
    untrusted buffer as a state-and-error monad.  The recursion of
    [Reader::node] and its counted loops run on fuel; [None] is running out
    of it, which [decode_total] excludes. *)


From S2P Require Import Prelude.
From S2P Require Import BTreeMap.
From S2P Require Import DepotModel.
From S2P Require Import DepotCompose.
From S2P Require Import DepotLaws.
Open Scope Z_scope.

(** ** Flags *)
Definition FLAG_TOMBSTONE : Z := 1.
Definition BLOB_SHIFT : Z := 1.
Definition BLOB_MASK : Z := Z.shiftl 3 BLOB_SHIFT.
Definition BLOB_KEEP : Z := Z.shiftl 0 BLOB_SHIFT.
Definition BLOB_SET : Z := Z.shiftl 1 BLOB_SHIFT.
Definition BLOB_REMOVE : Z := Z.shiftl 2 BLOB_SHIFT.
Definition FLAG_OPAQUE : Z := Z.shiftl 1 3.
Definition FLAG_ATTRS : Z := Z.shiftl 1 4.
Definition FLAG_BACKDROP : Z := Z.shiftl 1 5.
Definition KNOWN_FLAGS : Z :=
  Z.lor (Z.lor (Z.lor (Z.lor FLAG_TOMBSTONE BLOB_MASK) FLAG_OPAQUE) FLAG_ATTRS) FLAG_BACKDROP.

(** [flags & f != 0] *)
Definition has_flag (flags f : Z) : bool := negb (Z.land flags f =? 0).

(** [flags & !KNOWN_FLAGS != 0], on eight bits. *)
Definition unknown_flags (flags : Z) : bool := has_flag flags (Z.lxor 255 KNOWN_FLAGS).

(** [enum DecodeError] *)
Inductive DecodeError : Type :=
| Truncated
| BadVarint
| BadFlags (b : Z)
| BadLength (n : Z)
| NotCanonical
| TombstoneRoot
| TrailingBytes (n : nat).

(** ** Writing *)

(** [put_varint]: at most ten rounds for a [u64]. *)
Fixpoint put_varint_loop (rounds : nat) (out : bytes) (v : Z) : bytes :=
  match rounds with
  | O => out
  | S r =>
      let byte := Z.land v 127 in
      let v' := Z.shiftr v 7 in
      if v' =? 0 then out ++ [byte]
      else put_varint_loop r (out ++ [Z.lor byte 128]) v'
  end.
Definition put_varint (out : bytes) (v : Z) : bytes := put_varint_loop 10 out v.

(** [put_bytes] *)
Definition put_bytes (out b : bytes) : bytes := put_varint out (zlen b) ++ b.

(** The flag byte of a live node, as [encode_node] builds it. *)
Definition node_flags (n : Node) : Z :=
  let flags := match blob n with Keep => BLOB_KEEP | SetBlob _ => BLOB_SET | Remove => BLOB_REMOVE end in
  let flags := if opaque n then Z.lor flags FLAG_OPAQUE else flags in
  let flags := if is_some (attrs n) then Z.lor flags FLAG_ATTRS else flags in
  if is_backdrop (anchor n) then Z.lor flags FLAG_BACKDROP else flags.

Definition put_attrs (out : bytes) (a : Attrs) : bytes :=
  fold_left (λ out '(k, v), put_bytes (put_bytes out k) v) a (put_varint out (zlen a)).

(** [encode_node] *)
Fixpoint encode_node (out : bytes) (n : Node) {struct n} : bytes :=
  if is_tombstone n then out ++ [FLAG_TOMBSTONE] else
  let out := out ++ [node_flags n] in
  let out := match blob n with SetBlob b => put_bytes out b | _ => out end in
  let out := match attrs n with Some a => put_attrs out a | None => out end in
  let out := put_varint out (zlen (children n)) in
  fold_left (λ out '(name, child), encode_node (put_bytes out name) child) (children n) out.

(** [encode] *)
Definition encode (l : Layer) : bytes := encode_node [] (root l).

(** ** Reading *)

(** [struct Reader] *)
Record Reader : Type := MkReader { buf : bytes; pos : nat }.

(** The outcome of a fallible computation; [None] when the fuel ran out. *)
Definition Run (A : Type) : Type := option (Result A DecodeError).

Definition run_bind {A B} (m : Run A) (k : A → Run B) : Run B :=
  match m with
  | Some (Ok a) => k a
  | Some (Err e) => Some (Err e)
  | None => None
  end.
Definition run_ok {A} (a : A) : Run A := Some (Ok a).

Notation "'let!' x ':=' m 'in' k" := (run_bind m (λ x, k))
  (at level 10, x pattern, m at level 100, k at level 200) : sarun_scope.

(** A step of the reader: a value and the advanced reader, or the error the
    whole decoding ends with. *)
Definition Parser (A : Type) : Type := Reader → Run (A * Reader).

Definition fail {A} (e : DecodeError) : Parser A := λ _, Some (Err e).
Definition out_of_fuel {A} : Parser A := λ _, None.
#[export] Instance parser_ret : MRet Parser := λ A a r, Some (Ok (a, r)).
#[export] Instance parser_bind : MBind Parser := λ A B k p r,
  match p r with
  | Some (Ok (a, r')) => k a r'
  | Some (Err e) => Some (Err e)
  | None => None
  end.

(** [Reader::byte] *)
Definition byte : Parser Z := λ r,
  match buf r !! pos r with
  | Some b => Some (Ok (b, MkReader (buf r) (S (pos r))))
  | None => Some (Err Truncated)
  end.

(** [Reader::varint]: the shifts [(0..64).step_by(7)]. *)
Definition varint_shifts : list Z := [0; 7; 14; 21; 28; 35; 42; 49; 56; 63].

Fixpoint varint_loop (shifts : list Z) (v : Z) : Parser Z :=
  match shifts with
  | [] => fail BadVarint
  | shift :: rest =>
      b ← byte;
      let low := Z.land b 127 in
      if (shift =? 63) && (1 <? low) then fail BadVarint
      else
        let v' := Z.lor v (Z.shiftl low shift) in
        if Z.land b 128 =? 0 then mret v' else varint_loop rest v'
  end.
Definition varint : Parser Z := varint_loop varint_shifts 0.

(** The slice of [Reader::bytes] after its length prefix. *)
Definition read_slice (len : Z) : Parser bytes := λ r,
  let remaining := Z.of_nat (length (buf r) - pos r) in
  if remaining <? len then Some (Err (BadLength len))
  else
    let n := Z.to_nat len in
    Some (Ok (take n (drop (pos r) (buf r)), MkReader (buf r) (pos r + n))).

(** [Reader::bytes] *)
Definition read_bytes : Parser bytes := len ← varint; read_slice len.

(** [prev.as_ref().is_some_and(|p| *p >= k)] *)
Definition out_of_order (prev : option Name) (k : Name) : bool :=
  match prev with Some p => negb (is_lt (cmp p k)) | None => false end.

(** The attribute loop of [Reader::node]. *)
Fixpoint attrs_loop (fuel : nat) (count : Z) (prev : option Name) (map : Attrs) : Parser Attrs :=
  if count <=? 0 then mret map else
  match fuel with
  | O => out_of_fuel
  | S f =>
      k ← read_bytes;
      if out_of_order prev k then fail NotCanonical else
      v ← read_bytes;
      attrs_loop f (count - 1) (Some k) (bt_insert k v map)
  end.

(** The child loop of [Reader::node], over the reader of one node. *)
Fixpoint children_loop (node : Parser Node) (fuel : nat) (count : Z) (prev : option Name)
    (map : btmap Name Node) : Parser (btmap Name Node) :=
  if count <=? 0 then mret map else
  match fuel with
  | O => out_of_fuel
  | S f =>
      name ← read_bytes;
      if out_of_order prev name then fail NotCanonical else
      child ← node;
      children_loop node f (count - 1) (Some name) (bt_insert name child map)
  end.

(** The blob arm of [Reader::node]. *)
Definition read_blob (flags : Z) : Parser BlobOp :=
  if Z.land flags BLOB_MASK =? BLOB_KEEP then mret Keep
  else if Z.land flags BLOB_MASK =? BLOB_SET then b ← read_bytes; mret (SetBlob b)
  else if Z.land flags BLOB_MASK =? BLOB_REMOVE then mret Remove
  else fail (BadFlags flags).

(** [Reader::node] *)
Fixpoint read_node (fuel : nat) : Parser Node :=
  match fuel with
  | O => out_of_fuel
  | S f =>
      flags ← byte;
      if unknown_flags flags then fail (BadFlags flags) else
      if has_flag flags FLAG_TOMBSTONE then
        if negb (flags =? FLAG_TOMBSTONE) then fail (BadFlags flags) else mret tombstone
      else
      blob ← read_blob flags;
      attrs ← (if has_flag flags FLAG_ATTRS then
                 count ← varint; map ← attrs_loop f count None []; mret (Some map)
               else mret None);
      count ← varint;
      children ← children_loop (read_node f) f count None [];
      mret (MkNode Live blob (has_flag flags FLAG_OPAQUE) attrs
              (if has_flag flags FLAG_BACKDROP then Backdrop else Lower) children)
  end.

(** [decode_node] *)
Definition decode_node (b : bytes) (p : nat) : Run (Node * nat) :=
  match read_node (S (length b)) (MkReader b p) with
  | Some (Ok (n, r)) => Some (Ok (n, pos r))
  | Some (Err e) => Some (Err e)
  | None => None
  end.

(** [decode] *)
Definition decode (b : bytes) : Run Layer :=
  match read_node (S (length b)) (MkReader b 0) with
  | Some (Ok (n, r)) =>
      if is_tombstone n then Some (Err TombstoneRoot)
      else if negb (pos r =? length b)%nat then Some (Err (TrailingBytes (length b - pos r)))
      else Some (Ok (MkLayer n))
  | Some (Err e) => Some (Err e)
  | None => None
  end.

(** What the encoding keeps of a node: everything, except the meaningless
    fields of a tombstone. *)
Fixpoint canon (n : Node) : Node :=
  if is_tombstone n then tombstone
  else MkNode (presence n) (blob n) (opaque n) (attrs n) (anchor n)
         ((λ '(k, c), (k, canon c)) <$> children n).

Definition canon_layer (l : Layer) : Layer := MkLayer (canon (root l)).

(** ** The writers append *)

Lemma put_varint_loop_app rounds out v :
  put_varint_loop rounds out v = out ++ put_varint_loop rounds [] v.
Proof.
  revert out v. induction rounds as [|r IH]; intros out v; simpl; [by rewrite app_nil_r|].
  case_match; [done|]. rewrite (IH (out ++ _)), (IH [_]). by rewrite app_assoc.
Qed.

Lemma put_varint_app out v : put_varint out v = out ++ put_varint [] v.
Proof. apply put_varint_loop_app. Qed.

Lemma put_bytes_app out b : put_bytes out b = out ++ put_bytes [] b.
Proof. unfold put_bytes. rewrite put_varint_app. by rewrite app_assoc. Qed.

(** A fold of an appending step appends. *)
Lemma fold_append {A} (step : bytes → A → bytes) (l : list A) out :
  (∀ out x, x ∈ l → step out x = out ++ step [] x) →
  fold_left step l out = out ++ fold_left step l [].
Proof.
  revert out. induction l as [|x l IH]; intros out Hs; simpl; [by rewrite app_nil_r|].
  rewrite (Hs out) by set_solver.
  assert (Hl : ∀ out y, y ∈ l → step out y = out ++ step [] y) by set_solver.
  rewrite (IH (out ++ _)), (IH (step [] x)) by done. by rewrite app_assoc.
Qed.

Lemma fold_append_cons {A} (step : bytes → A → bytes) x (l : list A) out :
  (∀ out x', x' ∈ l → step out x' = out ++ step [] x') →
  fold_left step (x :: l) out = step out x ++ fold_left step l [].
Proof. intros Hs. simpl. by apply fold_append. Qed.

Lemma put_attrs_app out a : put_attrs out a = out ++ put_attrs [] a.
Proof.
  unfold put_attrs.
  assert (Hs : ∀ out (x : Name * bytes), x ∈ a →
    (let '(k, v) := x in put_bytes (put_bytes out k) v)
    = out ++ (let '(k, v) := x in put_bytes (put_bytes [] k) v)).
  { intros o [k v] _. rewrite (put_bytes_app (put_bytes o k)), (put_bytes_app o).
    rewrite (put_bytes_app (put_bytes [] k)). by rewrite app_assoc. }
  rewrite fold_append by done. rewrite (fold_append _ _ (put_varint [] _)) by done.
  rewrite put_varint_app. by rewrite app_assoc.
Qed.

Lemma encode_node_app out n : encode_node out n = out ++ encode_node [] n.
Proof.
  revert out. induction n as [n IH] using node_ind'; intros out.
  destruct n as [p b o a an cs]. simpl in IH. cbn [encode_node].
  destruct (is_tombstone _); [done|].
  assert (Hs : ∀ out (x : Name * Node), x ∈ cs →
    (let '(name, child) := x in encode_node (put_bytes out name) child)
    = out ++ (let '(name, child) := x in encode_node (put_bytes [] name) child)).
  { intros o' [k c] Hin. rewrite (IH _ _ Hin (put_bytes o' k)).
    rewrite (IH _ _ Hin (put_bytes [] k)). rewrite put_bytes_app. by rewrite app_assoc. }
  cbv zeta. cbn [blob attrs children].
  rewrite fold_append by done. rewrite (fold_append _ _ (put_varint _ _)) by done.
  rewrite app_assoc. f_equal.
  rewrite (put_varint_app (match a with Some _ => _ | None => _ end)).
  rewrite (put_varint_app (match a with Some _ => _ | None => _ end) (zlen cs)).
  rewrite app_assoc. f_equal.
  destruct a as [a|].
  - rewrite put_attrs_app, (put_attrs_app (match b with SetBlob _ => _ | _ => _ end)).
    rewrite app_assoc. f_equal.
    destruct b; [done| |done]. rewrite put_bytes_app, (put_bytes_app ([] ++ _)).
    by rewrite <- app_assoc.
  - destruct b; [done| |done]. rewrite put_bytes_app, (put_bytes_app ([] ++ _)).
    by rewrite <- app_assoc.
Qed.

(** The encoding of one child entry, and of a live node, as concatenations. *)
Definition enc_child (kc : Name * Node) : bytes := put_bytes [] kc.1 ++ encode_node [] kc.2.
Definition enc_attr (kv : Name * bytes) : bytes := put_bytes [] kv.1 ++ put_bytes [] kv.2.
Definition enc_attrs (a : Attrs) : bytes := put_varint [] (zlen a) ++ concat (enc_attr <$> a).
Definition enc_blob (b : BlobOp) : bytes :=
  match b with SetBlob x => put_bytes [] x | _ => [] end.

Lemma put_attrs_concat a : put_attrs [] a = enc_attrs a.
Proof.
  unfold put_attrs, enc_attrs. generalize (put_varint [] (zlen a)) as out.
  induction a as [|[k v] a IH]; intros out; simpl; [by rewrite app_nil_r|].
  rewrite IH. rewrite (put_bytes_app _ v), (put_bytes_app out k).
  unfold enc_attr. simpl. by rewrite <- !app_assoc.
Qed.

Lemma encode_tombstone n : is_tombstone n = true → encode_node [] n = [FLAG_TOMBSTONE].
Proof. intros Ht. destruct n; cbn. by rewrite Ht. Qed.

Lemma encode_live n :
  is_tombstone n = false →
  encode_node [] n =
  [node_flags n] ++ enc_blob (blob n)
  ++ match attrs n with Some a => enc_attrs a | None => [] end
  ++ put_varint [] (zlen (children n)) ++ concat (enc_child <$> children n).
Proof.
  intros Ht. destruct n as [p b o a an cs]. cbn [encode_node]. rewrite Ht. cbv zeta.
  cbn [blob attrs children].
  assert (Hcs : ∀ out, fold_left
    (λ out '(name, child), encode_node (put_bytes out name) child) cs out
    = out ++ concat (enc_child <$> cs)).
  { clear Ht. induction cs as [|[k c] cs IH]; intros out; simpl; [by rewrite app_nil_r|].
    rewrite IH, encode_node_app, put_bytes_app. unfold enc_child at 2. simpl.
    by rewrite <- !app_assoc. }
  rewrite Hcs. rewrite (put_varint_app (match a with Some _ => _ | None => _ end)).
  rewrite !app_assoc. do 2 f_equal. destruct a as [a|].
  - rewrite put_attrs_app, put_attrs_concat. f_equal.
    destruct b; simpl; rewrite ?app_nil_r; [done| |done]. by rewrite put_bytes_app.
  - rewrite app_nil_r. destruct b; simpl; [done| |done]. by rewrite put_bytes_app.
Qed.

(** ** Parsing what was written

    [parses p bs x]: wherever the unread input starts with [bs], the reader
    [p] returns [x] and stops right after [bs]. *)

Definition unread (r : Reader) : bytes := drop (pos r) (buf r).
Definition advance (r : Reader) (n : nat) : Reader := MkReader (buf r) (pos r + n).

Definition parses {A} (p : Parser A) (bs : bytes) (x : A) : Prop :=
  ∀ r s, unread r = bs ++ s → p r = Some (Ok (x, advance r (length bs))).

Lemma unread_advance r bs s : unread r = bs ++ s → unread (advance r (length bs)) = s.
Proof.
  unfold unread, advance. simpl. intros Hr. rewrite <- drop_drop, Hr. by rewrite drop_app_length.
Qed.

Lemma parses_ret {A} (x : A) : parses (mret x) [] x.
Proof.
  intros [b p] s _. unfold mret, parser_ret, advance. simpl. by rewrite Nat.add_0_r.
Qed.

Lemma parses_bind {A B} (p : Parser A) (k : A → Parser B) b1 b2 x y :
  parses p b1 x → parses (k x) b2 y → parses (p ≫= k) (b1 ++ b2) y.
Proof.
  intros Hp Hk r s Hr. rewrite <- app_assoc in Hr.
  unfold mbind, parser_bind. rewrite (Hp r (b2 ++ s)) by done.
  rewrite (Hk _ s) by (by apply unread_advance). unfold advance. simpl.
  rewrite length_app. by rewrite Nat.add_assoc.
Qed.

Lemma parses_map {A B} (p : Parser A) (f : A → B) bs x :
  parses p bs x → parses (y ← p; mret (f y)) bs (f x).
Proof.
  intros Hp. rewrite <- (app_nil_r bs). eapply parses_bind; [done|apply parses_ret].
Qed.

Lemma parses_byte b : parses byte [b] b.
Proof.
  intros r s Hr. unfold byte. unfold unread in Hr.
  assert (Hb : buf r !! pos r = Some b).
  { rewrite <- (Nat.add_0_r (pos r)), <- lookup_drop, Hr. done. }
  rewrite Hb. unfold advance. simpl. by rewrite Nat.add_1_r.
Qed.

Lemma parses_slice x : parses (read_slice (zlen x)) x x.
Proof.
  intros r s Hr. unfold read_slice, zlen.
  assert (Hlen : (length (buf r) - pos r = length x + length s)%nat).
  { pose proof (f_equal length Hr) as Hl. unfold unread in Hl.
    by rewrite length_drop, length_app in Hl. }
  rewrite Hlen. case_match eqn:E; [apply Z.ltb_lt in E; lia|].
  unfold unread in Hr. by rewrite Nat2Z.id, Hr, take_app_length.
Qed.

(** ** Varints *)

Lemma low_bits v : Z.land (Z.lor (Z.land v 127) 128) 127 = Z.land v 127.
Proof.
  rewrite Z.land_lor_distr_l, <- Z.land_assoc. simpl. by rewrite Z.lor_0_r.
Qed.

Lemma more_bit v : Z.land (Z.lor (Z.land v 127) 128) 128 = 128.
Proof. by rewrite Z.land_lor_distr_l, <- Z.land_assoc, Z.land_0_r. Qed.

Lemma last_bit v : Z.land (Z.land v 127) 128 = 0.
Proof. by rewrite <- Z.land_assoc, Z.land_0_r. Qed.

Lemma low_idem v : Z.land (Z.land v 127) 127 = Z.land v 127.
Proof. by rewrite <- Z.land_assoc. Qed.

Lemma shift_split v s :
  0 ≤ s →
  Z.lor (Z.shiftl (Z.land v 127) s) (Z.shiftl (Z.shiftr v 7) (s + 7)) = Z.shiftl v s.
Proof.
  intros Hs. change 127 with (Z.ones 7). apply Z.bits_inj'. intros i Hi.
  rewrite Z.lor_spec, !Z.shiftl_spec by done.
  destruct (Z.ltb_spec i s).
  { rewrite !(Z.testbit_neg_r _ (i - s)), !(Z.testbit_neg_r _ (i - (s + 7))) by lia. done. }
  rewrite Z.land_spec. destruct (Z.ltb_spec (i - s) 7).
  - rewrite Z.ones_spec_low by lia. rewrite (Z.testbit_neg_r _ (i - (s + 7))) by lia.
    by rewrite andb_true_r, orb_false_r.
  - rewrite Z.ones_spec_high by lia. rewrite Z.shiftr_spec by lia.
    rewrite andb_false_r. simpl. f_equal. lia.
Qed.

Lemma shiftr7_zero v : 0 ≤ v → Z.shiftr v 7 = 0 → Z.land v 127 = v.
Proof.
  intros Hv Hz. change 127 with (Z.ones 7). rewrite Z.land_ones by lia.
  rewrite Z.shiftr_div_pow2 in Hz by lia. apply Z.mod_small.
  apply Z.div_small_iff in Hz; lia.
Qed.

(** [k] rounds are left, the last of them at shift 63. *)
Definition shifts_left (k : nat) : list Z := drop (10 - k) varint_shifts.

Lemma parses_varint_loop k v acc :
  (1 ≤ k ≤ 10)%nat → 0 ≤ v < 2 ^ (7 * Z.of_nat k - 6) →
  parses (varint_loop (shifts_left k) acc) (put_varint_loop k [] v)
    (Z.lor acc (Z.shiftl v (70 - 7 * Z.of_nat k))).
Proof.
  revert v acc. induction k as [|k IH]; intros v acc Hk Hv; [lia|].
  assert (Hs : shifts_left (S k) = (70 - 7 * Z.of_nat (S k)) :: shifts_left k).
  { do 10 (destruct k as [|k]; [reflexivity|]). lia. }
  rewrite Hs. cbn [varint_loop put_varint_loop].
  assert (Hguard : ∀ b, (Z.land b 127 = Z.land v 127) →
    ((70 - 7 * Z.of_nat (S k) =? 63) && (1 <? Z.land b 127)) = false).
  { intros b ->. destruct (Z.eqb_spec (70 - 7 * Z.of_nat (S k)) 63) as [E|E]; [|done].
    assert (k = 0%nat) as -> by lia. simpl. apply Z.ltb_ge.
    change (2 ^ (7 * Z.of_nat 1 - 6)) with 2 in Hv.
    assert (v = 0 ∨ v = 1) as [-> | ->] by lia; by vm_compute. }
  destruct (Z.eqb_spec (Z.shiftr v 7) 0) as [E|E].
  - rewrite <- (app_nil_r ([] ++ _)). eapply parses_bind; [apply parses_byte|].
    cbv beta zeta. rewrite Hguard by apply low_idem. rewrite last_bit. simpl.
    rewrite low_idem, shiftr7_zero by (done || lia). apply parses_ret.
  - rewrite put_varint_loop_app. eapply parses_bind; [apply parses_byte|].
    cbv beta zeta. rewrite Hguard by apply low_bits. rewrite more_bit, low_bits. simpl.
    assert (Hk1 : (1 ≤ k)%nat).
    { destruct k; [|lia]. exfalso. apply E. change (2 ^ (7 * Z.of_nat 1 - 6)) with 2 in Hv.
      assert (v = 0 ∨ v = 1) as [-> | ->] by lia; reflexivity. }
    rewrite <- (shift_split v (70 - 7 * Z.of_nat (S k))) by lia.
    rewrite Z.lor_assoc. replace (70 - 7 * Z.of_nat (S k) + 7) with (70 - 7 * Z.of_nat k) by lia.
    apply IH; [lia|]. rewrite Z.shiftr_div_pow2 by lia. split; [apply Z.div_pos; lia|].
    apply Z.div_lt_upper_bound; [lia|]. rewrite <- Z.pow_add_r by lia.
    replace (7 + (7 * Z.of_nat k - 6)) with (7 * Z.of_nat (S k) - 6) by lia. lia.
Qed.

Lemma parses_varint v : 0 ≤ v < u64_limit → parses varint (put_varint [] v) v.
Proof.
  intros Hv. pose proof (parses_varint_loop 10 v 0 ltac:(lia) Hv) as Hp.
  change (shifts_left 10) with varint_shifts in Hp.
  replace (70 - 7 * Z.of_nat 10) with 0 in Hp by lia.
  by rewrite Z.shiftl_0_r, Z.lor_0_l in Hp.
Qed.

(** ** Fields, attributes, children *)

Lemma parses_bytes x : zlen x < u64_limit → parses read_bytes (put_bytes [] x) x.
Proof.
  intros Hx. unfold read_bytes, put_bytes.
  eapply parses_bind; [apply parses_varint|apply parses_slice].
  split; [apply zlen_nonneg|done].
Qed.

(** The keys read so far lie below the next one. *)
Definition follows {V} (prev : option Name) (m : btmap Name V) : Prop :=
  match last m with
  | Some (k, _) => prev = Some k
  | None => prev = None
  end.

Lemma follows_in_order {V} prev (m : btmap Name V) k v :
  follows prev m → bt_ok (m ++ [(k, v)]) = true → out_of_order prev k = false.
Proof.
  unfold follows, out_of_order. intros Hf (_&_&Hlt)%bt_ok_app.
  destruct (last m) as [[k' v']|] eqn:E; subst; [|done].
  apply last_Some in E as [m' ->]. rewrite (Hlt k' v' k v) by set_solver. done.
Qed.

Lemma follows_snoc {V} (m : btmap Name V) k v : follows (Some k) (m ++ [(k, v)]).
Proof. unfold follows. by rewrite last_snoc. Qed.

Lemma zlen_cons {A} (x : A) l : zlen (x :: l) = zlen l + 1.
Proof. unfold zlen. simpl. lia. Qed.

Lemma parses_attrs_loop fuel a prev m :
  (length a ≤ fuel)%nat → follows prev m → bt_ok (m ++ a) = true →
  zlen (concat (enc_attr <$> a)) < u64_limit →
  parses (attrs_loop fuel (zlen a) prev m) (concat (enc_attr <$> a)) (m ++ a).
Proof.
  revert fuel prev m. induction a as [|[k v] a IH]; intros fuel prev m Hf Hp Hok Hz.
  { rewrite app_nil_r. destruct fuel; apply parses_ret. }
  destruct fuel as [|fuel]; simpl in Hf; [lia|].
  pose proof (bt_ok_prefix _ _ _ Hok) as Hok1.
  cbn [attrs_loop]. rewrite zlen_cons in *. cbn [fmap list_fmap concat] in *.
  unfold enc_attr at 1 in Hz. simpl in Hz. rewrite !zlen_app in Hz.
  pose proof (zlen_nonneg (concat (enc_attr <$> a))).
  pose proof (zlen_nonneg (put_varint [] (zlen k))).
  pose proof (zlen_nonneg (put_varint [] (zlen v))).
  unfold put_bytes in Hz. rewrite !zlen_app in Hz.
  pose proof (zlen_nonneg k). pose proof (zlen_nonneg v). pose proof (zlen_nonneg a).
  destruct (Z.leb_spec (zlen a + 1) 0); [lia|].
  unfold enc_attr at 1. simpl. rewrite <- app_assoc.
  eapply parses_bind; [apply parses_bytes; lia|]. cbv beta.
  erewrite follows_in_order by done.
  eapply parses_bind; [apply parses_bytes; lia|]. cbv beta.
  replace (zlen a + 1 - 1) with (zlen a) by lia.
  rewrite bt_insert_snoc by done.
  replace (m ++ (k, v) :: a) with ((m ++ [(k, v)]) ++ a) by (by rewrite <- app_assoc).
  apply IH; [lia|apply follows_snoc| |lia]. by rewrite <- app_assoc.
Qed.

Abbreviation canon_kid := (λ '(k, c), (k, canon c)) (only parsing).

(** The keys of a map survive a change of its values. *)
Lemma bt_ok_fmap {V W} (f : V → W) (m : btmap Name V) :
  bt_ok ((λ '(k, v), (k, f v)) <$> m) = bt_ok m.
Proof.
  induction m as [|[k v] m IH]; [done|]. csimpl. rewrite IH. f_equal. clear IH.
  induction m as [|[k' v'] m IH]; [done|]. csimpl. by rewrite IH.
Qed.

Lemma parses_children_loop (node : Parser Node) fuel cs prev m :
  (length cs ≤ fuel)%nat → follows prev m → bt_ok (m ++ (canon_kid <$> cs)) = true →
  zlen (concat (enc_child <$> cs)) < u64_limit →
  (∀ k c, (k, c) ∈ cs → parses node (encode_node [] c) (canon c)) →
  parses (children_loop node fuel (zlen cs) prev m)
    (concat (enc_child <$> cs)) (m ++ (canon_kid <$> cs)).
Proof.
  revert fuel prev m. induction cs as [|[k c] cs IH]; intros fuel prev m Hf Hp Hok Hz Hn.
  { rewrite app_nil_r. destruct fuel; apply parses_ret. }
  destruct fuel as [|fuel]; simpl in Hf; [lia|].
  cbn [children_loop]. rewrite zlen_cons in *. cbn [fmap list_fmap concat] in *.
  pose proof (bt_ok_prefix _ _ _ Hok) as Hok1.
  unfold enc_child at 1 in Hz. simpl in Hz. unfold put_bytes in Hz. rewrite !zlen_app in Hz.
  pose proof (zlen_nonneg (concat (enc_child <$> cs))).
  pose proof (zlen_nonneg (put_varint [] (zlen k))).
  pose proof (zlen_nonneg (encode_node [] c)).
  pose proof (zlen_nonneg k). pose proof (zlen_nonneg cs).
  destruct (Z.leb_spec (zlen cs + 1) 0); [lia|].
  unfold enc_child at 1. simpl. rewrite <- app_assoc.
  eapply parses_bind; [apply parses_bytes; lia|]. cbv beta.
  erewrite follows_in_order by done.
  eapply parses_bind; [apply (Hn k c); set_solver|]. cbv beta.
  replace (zlen cs + 1 - 1) with (zlen cs) by lia.
  rewrite bt_insert_snoc by done.
  replace (m ++ (k, canon c) :: (canon_kid <$> cs))
    with ((m ++ [(k, canon c)]) ++ (canon_kid <$> cs)) by (by rewrite <- app_assoc).
  apply IH; [lia|apply follows_snoc| |lia|set_solver]. by rewrite <- app_assoc.
Qed.

(** ** Nodes *)

(** What the flag byte says. *)
Lemma node_flags_spec n :
  unknown_flags (node_flags n) = false ∧
  has_flag (node_flags n) FLAG_TOMBSTONE = false ∧
  has_flag (node_flags n) FLAG_OPAQUE = opaque n ∧
  has_flag (node_flags n) FLAG_ATTRS = is_some (attrs n) ∧
  has_flag (node_flags n) FLAG_BACKDROP = is_backdrop (anchor n) ∧
  Z.land (node_flags n) BLOB_MASK =
    match blob n with Keep => BLOB_KEEP | SetBlob _ => BLOB_SET | Remove => BLOB_REMOVE end.
Proof.
  destruct n as [p b o a an cs]. unfold node_flags. cbn [blob opaque attrs anchor].
  destruct b, o, a, an; vm_compute; split_and!; reflexivity.
Qed.

Lemma parses_blob n :
  zlen (enc_blob (blob n)) < u64_limit →
  parses (read_blob (node_flags n)) (enc_blob (blob n)) (blob n).
Proof.
  intros Hz. destruct (node_flags_spec n) as (_&_&_&_&_&Hm).
  unfold read_blob. rewrite Hm. destruct (blob n) as [|b|]; simpl in *.
  - apply parses_ret.
  - rewrite <- (app_nil_r (put_bytes [] b)). eapply parses_bind; [|apply parses_ret].
    apply parses_bytes. unfold put_bytes in Hz. rewrite zlen_app in Hz.
    pose proof (zlen_nonneg (put_varint [] (zlen b))). lia.
  - apply parses_ret.
Qed.

Lemma put_varint_pos v : (1 ≤ length (put_varint [] v))%nat.
Proof.
  unfold put_varint. change 10%nat with (S 9). generalize 9%nat as r. intros r.
  cbn [put_varint_loop]. case_match; [done|].
  rewrite put_varint_loop_app, length_app. simpl. lia.
Qed.

Lemma concat_length_bound {A} (f : A → bytes) l :
  (∀ x, x ∈ l → (1 ≤ length (f x))%nat) → (length l ≤ length (concat (f <$> l)))%nat.
Proof.
  induction l as [|x l IH]; intros Hf; [done|]. csimpl. rewrite length_app.
  pose proof (Hf x ltac:(set_solver)). specialize (IH ltac:(set_solver)). lia.
Qed.

Lemma concat_length_elem {A} (f : A → bytes) l x :
  x ∈ l → (length (f x) ≤ length (concat (f <$> l)))%nat.
Proof.
  induction l as [|y l IH]; [set_solver|]. csimpl. rewrite length_app.
  intros [->|Hin]%elem_of_cons; [lia|]. specialize (IH Hin). lia.
Qed.

Lemma enc_child_pos kc : (1 ≤ length (enc_child kc))%nat.
Proof.
  unfold enc_child, put_bytes. rewrite !length_app. pose proof (put_varint_pos (zlen kc.1)). lia.
Qed.

Lemma enc_attr_pos kv : (1 ≤ length (enc_attr kv))%nat.
Proof.
  unfold enc_attr, put_bytes. rewrite !length_app. pose proof (put_varint_pos (zlen kv.1)). lia.
Qed.

Lemma parses_attrs fuel a :
  (length (enc_attrs a) ≤ fuel)%nat → bt_ok a = true → zlen (enc_attrs a) < u64_limit →
  parses (count ← varint; map ← attrs_loop fuel count None []; mret (Some map))
    (enc_attrs a) (Some a).
Proof.
  unfold enc_attrs. rewrite zlen_app, length_app. intros Hf Hok Hz.
  pose proof (concat_length_bound enc_attr a (λ x _, enc_attr_pos x)) as Hc.
  unfold zlen in Hz. eapply parses_bind; [apply parses_varint; unfold zlen; lia|]. cbv beta.
  rewrite <- (app_nil_r (concat _)).
  eapply parses_bind; [|apply parses_ret].
  apply (parses_attrs_loop _ a None []); try done; [lia|unfold zlen; lia].
Qed.

Lemma parses_node fuel n :
  (length (encode_node [] n) ≤ fuel)%nat → wf_node n = true →
  zlen (encode_node [] n) < u64_limit →
  parses (read_node fuel) (encode_node [] n) (canon n).
Proof.
  revert fuel. induction n as [n IH] using node_ind'; intros fuel Hf Hwf Hz.
  destruct (is_tombstone n) eqn:Ht.
  { pose proof (encode_tombstone n Ht) as E.
    assert (canon n = tombstone) as -> by (destruct n; cbn; by rewrite Ht).
    rewrite E in *. destruct fuel; simpl in Hf; [lia|]. cbn [read_node].
    rewrite <- (app_nil_r [_]). eapply parses_bind; [apply parses_byte|]. apply parses_ret. }
  assert (canon n = MkNode Live (blob n) (opaque n) (attrs n) (anchor n) (canon_kid <$> children n)) as ->.
  { destruct n as [[] b o a an cs]; [reflexivity|discriminate]. }
  rewrite encode_live in * by done. rewrite !zlen_app in Hz. rewrite !length_app in Hf.
  apply wf_node_unfold in Hwf as (Hoka&Hok&Hall).
  destruct fuel as [|fuel]; cbn [length] in Hf; [lia|]. cbn [read_node].
  pose proof (concat_length_bound enc_child (children n) (λ x _, enc_child_pos x)) as Hc.
  pose proof (put_varint_pos (zlen (children n))).
  destruct (node_flags_spec n) as (Hu&Htf&Ho&Ha&Hb&_).
  unfold zlen in Hz. eapply parses_bind; [apply parses_byte|]. cbv beta.
  rewrite Hu, Htf, Ho, Ha, Hb.
  eapply parses_bind; [apply parses_blob; unfold zlen; lia|]. cbv beta.
  eapply parses_bind with (x := attrs n).
  { destruct (attrs n) as [a|]; simpl; [|apply parses_ret].
    apply parses_attrs; [lia|done|unfold zlen; lia]. }
  cbv beta. eapply parses_bind; [apply parses_varint; unfold zlen; lia|]. cbv beta.
  rewrite <- (app_nil_r (concat _)). eapply parses_bind.
  { apply (parses_children_loop _ _ (children n) None []);
      [lia|done|by rewrite app_nil_l, (bt_ok_fmap canon)|unfold zlen; lia|].
    intros k c Hin. pose proof (concat_length_elem enc_child _ _ Hin) as Hl.
    unfold enc_child at 1 in Hl. cbn [fst snd] in Hl. rewrite length_app in Hl.
    eapply IH; [done|lia|by eapply Hall|unfold zlen; lia]. }
  destruct (anchor n); apply parses_ret.
Qed.

(** ** Reading anything

    [safe n c Q p]: with at most [n] bytes unread, [p] does not run out of
    fuel, and where it succeeds it has consumed at least [c] bytes, none
    beyond the end, and its value satisfies [Q]. *)

Definition safe {A} (n c : nat) (Q : A → Prop) (p : Parser A) : Prop :=
  ∀ r, (pos r ≤ length (buf r))%nat → (length (buf r) - pos r ≤ n)%nat →
  match p r with
  | None => False
  | Some (Err _) => True
  | Some (Ok (a, r')) =>
      buf r' = buf r ∧ (pos r + c ≤ pos r' ≤ length (buf r))%nat ∧ Q a
  end.

Lemma safe_ret {A} n (Q : A → Prop) a : Q a → safe n 0 Q (mret a).
Proof. intros HQ r Hr Hn. simpl. split_and!; [done|lia|lia|done]. Qed.

Lemma safe_fail {A} n c (Q : A → Prop) e : safe n c Q (fail e).
Proof. intros r Hr Hn. done. Qed.

Lemma safe_bind {A B} n c1 c2 (Q : A → Prop) (R : B → Prop) (p : Parser A) (k : A → Parser B) :
  safe n c1 Q p →
  (∀ a, Q a → (c1 ≤ n)%nat → safe (n - c1) c2 R (k a)) →
  safe n (c1 + c2) R (p ≫= k).
Proof.
  intros Hp Hk r Hr Hn. specialize (Hp r Hr Hn). unfold mbind, parser_bind.
  destruct (p r) as [[[a r']|e]|]; [|done|done]. destruct Hp as (Hb&Hpos&HQ).
  specialize (Hk a HQ ltac:(lia) r' ltac:(rewrite Hb; lia) ltac:(rewrite Hb; lia)).
  destruct (k a r') as [[[b r'']|e]|]; [|done|done]. destruct Hk as (Hb'&Hpos'&HR).
  rewrite Hb in *. split_and!; [done|lia|lia|done].
Qed.

Lemma safe_weaken {A} n n' c c' (Q R : A → Prop) (p : Parser A) :
  safe n c Q p → (n' ≤ n)%nat → (c' ≤ c)%nat → (∀ a, Q a → R a) → safe n' c' R p.
Proof.
  intros Hp Hn Hc HQ r Hr Hl. specialize (Hp r Hr ltac:(lia)).
  destruct (p r) as [[[a r']|e]|]; [|done|done]. destruct Hp as (?&?&?).
  split_and!; [done|lia|lia|auto].
Qed.

Lemma safe_any {A} n c (Q : A → Prop) (p : Parser A) : safe n c Q p → safe n 0 Q p.
Proof. intros Hp. eapply safe_weaken; [exact Hp|done|lia|done]. Qed.

Lemma safe_byte n : safe n 1 (λ _, True) byte.
Proof.
  intros r Hr Hn. unfold byte. destruct (buf r !! pos r) eqn:E; simpl; [|done].
  apply lookup_lt_Some in E. split_and!; [done|lia|lia|done].
Qed.

Lemma safe_varint_loop n shifts v : safe n 1 (λ _, True) (varint_loop shifts v).
Proof.
  revert n v. induction shifts as [|s shifts IH]; intros n v; simpl; [apply safe_fail|].
  eapply (safe_bind n 1 0); [apply safe_byte|]. intros b _ Hn.
  case_match; [apply safe_fail|]. case_match; [by apply safe_ret|].
  eapply safe_weaken; [apply (IH (n - 1)%nat)|lia|lia|done].
Qed.

Lemma safe_varint n : safe n 1 (λ _, True) varint.
Proof. apply safe_varint_loop. Qed.

Lemma safe_bytes n : safe n 1 (λ _, True) read_bytes.
Proof.
  eapply (safe_bind n 1 0); [apply safe_varint|]. intros len _ Hn r Hr Hl.
  unfold read_slice. cbv zeta. destruct (Z.ltb_spec (Z.of_nat (length (buf r) - pos r)) len);
    [done|]. simpl. split_and!; [done|lia|lia|done].
Qed.

Lemma safe_attrs_loop fuel n count prev m :
  (n < fuel)%nat → bt_ok m = true →
  safe n 0 (λ a, bt_ok a = true) (attrs_loop fuel count prev m).
Proof.
  revert n count prev m. induction fuel as [|f IH]; intros n count prev m Hf Hok; [lia|].
  simpl. case_match; [by apply safe_ret|].
  eapply safe_any.
  eapply (safe_bind n 1 1); [apply safe_bytes|]. intros k _ Hn.
  case_match; [apply safe_fail|].
  eapply (safe_bind _ 1 0); [apply safe_bytes|]. intros v _ Hn'.
  apply IH; [lia|by apply bt_ok_insert].
Qed.

(** What a decoded node promises. *)
Definition decoded (c : Node) : Prop := wf_node c = true ∧ canon c = c.
Definition decoded_kids (cs : btmap Name Node) : Prop :=
  bt_ok cs = true ∧ ∀ k c, (k, c) ∈ cs → decoded c.

Lemma safe_children_loop node fuel n count prev m :
  (n < fuel)%nat → decoded_kids m →
  (∀ n', (n' < n)%nat → safe n' 0 decoded node) →
  safe n 0 decoded_kids (children_loop node fuel count prev m).
Proof.
  revert n count prev m. induction fuel as [|f IH]; intros n count prev m Hf [Hok Hall] Hnode; [lia|].
  simpl. case_match; [by apply safe_ret|].
  eapply safe_any.
  eapply (safe_bind n 1 0); [apply safe_bytes|]. intros k _ Hn.
  case_match; [apply safe_fail|].
  eapply (safe_bind _ 0 0); [apply Hnode; lia|]. intros c Hc Hn'.
  apply IH; [lia| |intros; apply Hnode; lia].
  split; [by apply bt_ok_insert|]. intros k' c' [[-> ->]|Hin]%bt_insert_elem; eauto.
Qed.

Lemma canon_kids_id (cs : btmap Name Node) :
  (∀ (k : Name) c, (k, c) ∈ cs → canon c = c) → (λ '(k, c), (k, canon c)) <$> cs = cs.
Proof.
  intros Hc. induction cs as [|[k c] cs IH]; [done|]. csimpl.
  rewrite (Hc k c) by set_solver. f_equal. apply IH. intros k' c' ?. apply (Hc k'). set_solver.
Qed.

Lemma decoded_live b o a an cs :
  match a with Some m => bt_ok m = true | None => True end → decoded_kids cs →
  decoded (MkNode Live b o a an cs).
Proof.
  intros Ha [Hok Hall]. split.
  - apply wf_node_unfold. simpl. split_and!; [done|done|]. intros k c Hin. by eapply Hall.
  - cbn. f_equal. apply canon_kids_id. intros k c Hin. by eapply Hall.
Qed.

Lemma safe_blob n flags : safe n 0 (λ _, True) (read_blob flags).
Proof.
  unfold read_blob. repeat case_match; try (by apply safe_ret); [|apply safe_fail].
  eapply safe_any.
  eapply (safe_bind n 1 0); [apply safe_bytes|]. intros b _ Hn. by apply safe_ret.
Qed.

Lemma safe_opt_attrs fuel n (present : bool) :
  (n < fuel)%nat →
  safe n 0 (λ a : option Attrs, match a with Some m => bt_ok m = true | None => True end)
    (if present then count ← varint; map ← attrs_loop fuel count None []; mret (Some map)
     else mret None).
Proof.
  intros Hf. destruct present; [|by apply safe_ret].
  eapply safe_any.
  eapply (safe_bind n 1 0); [apply safe_varint|]. intros count _ Hn.
  eapply (safe_bind _ 0 0); [apply safe_attrs_loop; [lia|done]|]. intros m Hm _.
  by apply safe_ret.
Qed.

Lemma safe_node fuel n : (n < fuel)%nat → safe n 1 decoded (read_node fuel).
Proof.
  revert n. induction fuel as [|f IH]; intros n Hf; [lia|]. cbn [read_node].
  eapply (safe_bind n 1 0); [apply safe_byte|]. intros flags _ Hn.
  case_match; [apply safe_fail|].
  case_match; [case_match; [apply safe_fail|by apply safe_ret]|].
  eapply (safe_bind _ 0 0); [apply safe_blob|]. intros b _ _.
  eapply (safe_bind _ 0 0); [apply safe_opt_attrs; lia|]. intros a Ha _.
  eapply safe_any.
  eapply (safe_bind _ 1 0); [apply safe_varint|]. intros count _ Hn'.
  eapply (safe_bind _ 0 0).
  { apply safe_children_loop; [lia|split; [done|set_solver]|]. intros n' Hn''.
    eapply safe_weaken; [apply IH|done|lia|done]. lia. }
  intros cs Hcs _. by apply safe_ret, decoded_live.
Qed.

(** Decoding a position of any buffer ends, and a node it returns is canonical. *)
Lemma decode_node_total b p :
  (p ≤ length b)%nat →
  match decode_node b p with
  | Some (Ok (n, q)) => decoded n ∧ (p < q ≤ length b)%nat
  | Some (Err _) => True
  | None => False
  end.
Proof.
  intros Hp. unfold decode_node.
  pose proof (safe_node (S (length b)) (length b) ltac:(lia) (MkReader b p) Hp) as Hs.
  cbn [buf pos] in Hs. specialize (Hs ltac:(lia)).
  destruct (read_node _ _) as [[[n r]|e]|]; simpl in Hs; [|done|done]. destruct Hs as (?&?&?).
  split; [done|]. lia.
Qed.

Lemma decode_node_encode pre n suf :
  wf_node n = true → zlen (encode_node [] n) < u64_limit →
  decode_node (pre ++ encode_node [] n ++ suf) (length pre)
  = Some (Ok (canon n, (length pre + length (encode_node [] n))%nat)).
Proof.
  intros Hn Hz. unfold decode_node.
  rewrite (parses_node _ n) with (s := suf); [done| |done|done|].
  - rewrite !length_app. lia.
  - unfold unread. simpl. by rewrite drop_app_length.
Qed.

(** ** More input changes nothing

    [extends p q]: what [p] reads with success, [q] reads alike from a buffer
    that goes on. *)

Definition longer (r : Reader) (s : bytes) : Reader := MkReader (buf r ++ s) (pos r).

Definition extends {A} (p q : Parser A) : Prop :=
  ∀ r a r' s, p r = Some (Ok (a, r')) → q (longer r s) = Some (Ok (a, longer r' s)).

Lemma extends_ret {A} (a : A) : extends (mret a) (mret a).
Proof. intros r a' r' s [= -> ->]. done. Qed.

Lemma extends_fail {A} e (q : Parser A) : extends (fail e) q.
Proof. intros r a r' s [=]. Qed.

Lemma extends_bind {A B} (p q : Parser A) (k h : A → Parser B) :
  extends p q → (∀ a, extends (k a) (h a)) → extends (p ≫= k) (q ≫= h).
Proof.
  intros Hp Hk r b r' s. unfold mbind, parser_bind.
  destruct (p r) as [[[a r1]|e]|] eqn:E; [|done|done]. rewrite (Hp _ _ _ s E). apply Hk.
Qed.

Lemma extends_byte : extends byte byte.
Proof.
  intros [b p] a r' s. unfold byte, longer. simpl.
  destruct (b !! p) as [x|] eqn:E; intros [= <- <-]. by rewrite (lookup_app_l_Some _ _ _ _ E).
Qed.

Lemma extends_varint_loop shifts v : extends (varint_loop shifts v) (varint_loop shifts v).
Proof.
  revert v. induction shifts as [|s shifts IH]; intros v; simpl; [apply extends_fail|].
  apply extends_bind; [apply extends_byte|]. intros b.
  case_match; [apply extends_fail|]. case_match; [apply extends_ret|apply IH].
Qed.

Lemma extends_bytes : extends read_bytes read_bytes.
Proof.
  apply extends_bind; [apply extends_varint_loop|]. intros len [b p] a r' s.
  unfold read_slice, longer. cbn [buf pos]. cbv zeta. rewrite length_app.
  destruct (Z.ltb_spec (Z.of_nat (length b - p)) len); [done|]. intros [= <- <-].
  destruct (Z.ltb_spec (Z.of_nat (length b + length s - p)) len); [lia|].
  simpl. do 3 f_equal. destruct (Z.to_nat len) as [|n] eqn:E; [done|].
  rewrite drop_app_le by lia. rewrite take_app_le; [done|]. rewrite length_drop. lia.
Qed.

Lemma extends_attrs_loop f g count prev m :
  (f ≤ g)%nat → extends (attrs_loop f count prev m) (attrs_loop g count prev m).
Proof.
  revert g count prev m. induction f as [|f IH]; intros g count prev m Hg.
  - simpl. destruct g; simpl; (case_match; [apply extends_ret|by intros r a r' s [=]]).
  - destruct g as [|g]; [lia|]. simpl. case_match; [apply extends_ret|].
    apply extends_bind; [apply extends_bytes|]. intros k. case_match; [apply extends_fail|].
    apply extends_bind; [apply extends_bytes|]. intros v. apply IH. lia.
Qed.

Lemma extends_children_loop (p q : Parser Node) f g count prev m :
  (f ≤ g)%nat → extends p q →
  extends (children_loop p f count prev m) (children_loop q g count prev m).
Proof.
  revert g count prev m. induction f as [|f IH]; intros g count prev m Hg Hpq.
  - simpl. destruct g; simpl; (case_match; [apply extends_ret|by intros r a r' s [=]]).
  - destruct g as [|g]; [lia|]. simpl. case_match; [apply extends_ret|].
    apply extends_bind; [apply extends_bytes|]. intros k. case_match; [apply extends_fail|].
    apply extends_bind; [done|]. intros v. apply IH; [lia|done].
Qed.

Lemma extends_node f g : (f ≤ g)%nat → extends (read_node f) (read_node g).
Proof.
  revert g. induction f as [|f IH]; intros g Hg; [by intros r a r' s [=]|].
  destruct g as [|g]; [lia|]. cbn [read_node].
  apply extends_bind; [apply extends_byte|]. intros flags.
  case_match; [apply extends_fail|].
  case_match; [case_match; [apply extends_fail|apply extends_ret]|].
  apply extends_bind.
  { unfold read_blob. repeat case_match; try apply extends_ret; [|apply extends_fail].
    apply extends_bind; [apply extends_bytes|]. intros; apply extends_ret. }
  intros b. apply extends_bind.
  { case_match; [|apply extends_ret]. apply extends_bind; [apply extends_varint_loop|].
    intros count. apply extends_bind; [apply extends_attrs_loop; lia|]. intros; apply extends_ret. }
  intros a. apply extends_bind; [apply extends_varint_loop|]. intros count.
  apply extends_bind; [apply extends_children_loop; [lia|apply IH; lia]|].
  intros; apply extends_ret.
Qed.

#[global] Arguments put_varint : simpl never.
#[global] Arguments put_bytes : simpl never.
#[global] Arguments encode_node : simpl never.

(** * Laws of the canonical layer encoding.

    The claims about [chupa/depot/src/codec.rs]: decoding inverts encoding,
    decoding arbitrary bytes ends and yields canonical well-formed layers,
    and the encoding is self-delimiting. *)

(** A layer the codec can carry: ordered maps, a live root, and an encoding
    whose length fits the 64-bit length fields. *)
Definition encodable (l : Layer) : bool :=
  wf_layer l && negb (is_tombstone (root l)) && (zlen (encode l) <? u64_limit).

Lemma encodable_spec l :
  encodable l = true →
  wf_node (root l) = true ∧ is_tombstone (root l) = false ∧ zlen (encode l) < u64_limit.
Proof.
  unfold encodable. intros Hl. split_andb. split_and!;
    [done|by apply negb_true_iff|by apply Z.ltb_lt].
Qed.

Lemma canon_live n : is_tombstone n = false → is_tombstone (canon n) = false.
Proof. destruct n as [[] b o a an cs]; [done|discriminate]. Qed.

(** What reading the encoding of a layer with more bytes behind it gives. *)
Lemma read_encoded l s :
  encodable l = true →
  read_node (S (length (encode l ++ s))) (MkReader (encode l ++ s) 0)
  = Some (Ok (canon (root l), MkReader (encode l ++ s) (length (encode l)))).
Proof.
  intros (Hwf&_&Hz)%encodable_spec. unfold encode in *.
  refine (parses_node _ (root l) _ Hwf Hz _ s _); [rewrite length_app; lia|done].
Qed.

Lemma decode_encode_app l s :
  encodable l = true →
  decode (encode l ++ s) =
  Some (match s with [] => Ok (canon_layer l) | _ => Err (TrailingBytes (length s)) end).
Proof.
  intros Hl. unfold decode. rewrite read_encoded by done.
  apply encodable_spec in Hl as (_&Ht&_). rewrite canon_live by done. cbn [pos].
  rewrite length_app. destruct s as [|b s].
  - rewrite Nat.add_0_r, Nat.eqb_refl. done.
  - destruct (Nat.eqb_spec (length (encode l)) (length (encode l) + length (b :: s))).
    + simpl in *. lia.
    + simpl. do 3 f_equal. lia.
Qed.

(** C3. Decoding the encoding of a layer returns the layer, up to the
    meaningless fields of its tombstones, which the encoding does not carry. *)
Theorem decode_encode l :
  encodable l = true → decode (encode l) = Some (Ok (canon_layer l)).
Proof. intros Hl. rewrite <- (app_nil_r (encode l)) at 1. by rewrite decode_encode_app. Qed.

Lemma decode_encode_witness :
  decode (encode Sample.remove_df) = Some (Ok Sample.remove_df).
Proof. apply (decode_encode Sample.remove_df). vm_compute. reflexivity. Defined.

(** C39. Decoding any bytes at all ends, and every layer it returns is well
    formed, has a live root and is in canonical form. *)
Theorem decode_total b :
  match decode b with
  | Some (Ok l) => wf_layer l = true ∧ is_tombstone (root l) = false ∧ canon_layer l = l
  | Some (Err _) => True
  | None => False
  end.
Proof.
  unfold decode. pose proof (decode_node_total b 0 ltac:(lia)) as Hd. unfold decode_node in Hd.
  destruct (read_node _ _) as [[[n r]|e]|]; [|done|done]. destruct Hd as [[Hwf Hc] _].
  destruct (is_tombstone n) eqn:Ht; [done|]. destruct (negb _); [done|].
  split_and!; [done|done|]. unfold canon_layer. cbn [root]. by rewrite Hc.
Qed.

(** Bytes after a layer are refused, and their number is reported. *)
Theorem decode_trailing l extra :
  encodable l = true → extra ≠ [] →
  decode (encode l ++ extra) = Some (Err (TrailingBytes (length extra))).
Proof. intros Hl He. rewrite decode_encode_app by done. by destruct extra. Qed.

Lemma decode_trailing_witness :
  decode (encode Sample.remove_df ++ [0; 0]) = Some (Err (TrailingBytes 2)).
Proof. apply (decode_trailing Sample.remove_df [0; 0]); [reflexivity|discriminate]. Defined.

(** No proper prefix of an encoding decodes: a truncated layer is an
    error, never a smaller layer. *)
Theorem decode_truncated l cut rest :
  encodable l = true → encode l = cut ++ rest → rest ≠ [] →
  ∃ e, decode cut = Some (Err e).
Proof.
  intros Hl Hcut Hr. pose proof (read_encoded l [] Hl) as Hread.
  rewrite app_nil_r, Hcut in Hread.
  pose proof (decode_node_total cut 0 ltac:(lia)) as Hd. unfold decode_node in Hd. unfold decode.
  destruct (read_node (S (length cut)) _) as [[[n r]|e]|] eqn:E; [|by eexists|done].
  destruct Hd as [_ [_ Hpos]].
  pose proof (extends_node (S (length cut)) (S (length (cut ++ rest)))
    ltac:(rewrite length_app; lia) _ _ _ rest E) as Hlong.
  unfold longer in Hlong. cbn [buf pos] in Hlong. rewrite Hread in Hlong.
  injection Hlong as <- _ Hp. rewrite <- Hp, length_app in Hpos.
  destruct rest; [done|]. simpl in Hpos. lia.
Qed.

Lemma decode_truncated_witness : ∃ e, decode (take 6 (encode Sample.remove_df)) = Some (Err e).
Proof.
  apply (decode_truncated Sample.remove_df _ (drop 6 (encode Sample.remove_df)));
    [reflexivity|reflexivity|discriminate].
Defined.

(** Two layers with one encoding are the same layer, up to the
    meaningless fields of tombstones. *)
Theorem encode_injective l1 l2 :
  encodable l1 = true → encodable l2 = true → encode l1 = encode l2 →
  canon_layer l1 = canon_layer l2.
Proof.
  intros H1 H2 He. pose proof (decode_encode_app l1 [] H1) as E1.
  pose proof (decode_encode_app l2 [] H2) as E2. rewrite !app_nil_r in *. congruence.
Qed.

(** A tombstone that still carries a blob has the encoding of a bare one. *)
Definition loaded_tombstone : Layer :=
  MkLayer (Sample.carrier Sample.name_d
    (MkNode Tombstone (SetBlob [1]) true None Lower [(Sample.name_f, keep)])).

Lemma encode_injective_witness : canon_layer loaded_tombstone = canon_layer Sample.remove_d.
Proof. apply (encode_injective loaded_tombstone Sample.remove_d); reflexivity. Defined.

(** The decoder does not insist on minimal varints: the empty layer is
    also read from a three-byte form that [encode] never writes. *)
Theorem decode_accepts_padded_varint :
  decode [0; 128; 0] = Some (Ok layer_empty) ∧ decode [0; 0] = Some (Ok layer_empty)
  ∧ encode layer_empty = [0; 0].
Proof. split_and!; reflexivity. Qed.
