(* ===== verification/DepotStream.v ===== *)
(** * The streaming layer algebra.

    Models [chupa/depot/src/stream.rs]: compose, diff and overlay computed on
    the canonical bytes.  A cursor is the reader of the codec ([struct Cur] is
    [struct Reader] again, and its [u8], [varint] and [slice] are the reader's
    [byte], [varint] and [bytes]).  Cursors and the output buffer are passed
    explicitly; recursion and counted loops run on fuel. *)

From S2P Require Import Prelude.
From S2P Require Import BTreeMap.
From S2P Require Import DepotModel.
From S2P Require Import DepotCompose.
From S2P Require Import DepotDiff.
From S2P Require Import DepotCodec.
Open Scope Z_scope.
Open Scope sarun_scope.

(** [const ID] *)
Definition ID : bytes := [0; 0].

(** ** Cursor: [struct Cur] *)
Abbreviation Cur := Reader (only parsing).
Definition cur_new (b : bytes) : Cur := MkReader b 0.
Definition cur_u8 : Parser Z := byte.
Definition cur_varint : Parser Z := varint.
Definition cur_take (n : Z) : Parser bytes := read_slice n.
Definition slice : Parser bytes := n ← cur_varint; cur_take n.

(** [&cur.buf[start..cur.pos]] after running [p] from [start]. *)
Definition consumed (p : Parser unit) : Parser bytes := λ r,
  let! (_, r') := p r in run_ok (take (pos r' - pos r) (drop (pos r) (buf r)), r').

(** [struct Head]; [enum Blob] is [BlobOp] over a borrowed slice. *)
Record Head : Type := MkHead {
  h_tombstone : bool;
  h_blob : BlobOp;
  h_opaque : bool;
  h_backdrop : bool;
  h_attrs : option bytes;
  h_child_count : Z
}.

(** The entry loop of the attrs block of [read_head]. *)
Fixpoint skip_entries (fuel : nat) (count : Z) : Parser unit :=
  if count <=? 0 then mret tt else
  match fuel with
  | O => out_of_fuel
  | S f => _ ← slice; _ ← slice; skip_entries f (count - 1)
  end.

(** [read_head] *)
Definition read_head (fuel : nat) : Parser Head :=
  flags ← cur_u8;
  if unknown_flags flags then fail (BadFlags flags) else
  if has_flag flags FLAG_TOMBSTONE then
    if negb (flags =? FLAG_TOMBSTONE) then fail (BadFlags flags)
    else mret (MkHead true Keep false false None 0)
  else
  blob ← (if Z.land flags BLOB_MASK =? BLOB_KEEP then mret Keep
          else if Z.land flags BLOB_MASK =? BLOB_SET then b ← slice; mret (SetBlob b)
          else if Z.land flags BLOB_MASK =? BLOB_REMOVE then mret Remove
          else fail (BadFlags flags));
  attrs ← (if has_flag flags FLAG_ATTRS then
             raw ← consumed (count ← cur_varint; skip_entries fuel count);
             mret (Some raw)
           else mret None);
  child_count ← cur_varint;
  mret (MkHead false blob (has_flag flags FLAG_OPAQUE) (has_flag flags FLAG_BACKDROP)
          attrs child_count).

(** [for _ in 0..count { cur.slice()?; skip_node(cur)?; }] *)
Fixpoint skip_children (skip : Parser unit) (fuel : nat) (count : Z) : Parser unit :=
  if count <=? 0 then mret tt else
  match fuel with
  | O => out_of_fuel
  | S f => _ ← slice; _ ← skip; skip_children skip f (count - 1)
  end.

(** [skip_node] *)
Fixpoint skip_node (fuel : nat) : Parser unit :=
  match fuel with
  | O => out_of_fuel
  | S f => head ← read_head f; skip_children (skip_node f) f (h_child_count head)
  end.

(** [collect_children] *)
Fixpoint collect_loop (fuel : nat) (count : Z) (out : list (bytes * bytes)) :
    Parser (list (bytes * bytes)) :=
  if count <=? 0 then mret out else
  match fuel with
  | O => out_of_fuel
  | S f =>
      name ← slice;
      sub ← consumed (skip_node f);
      collect_loop f (count - 1) (out ++ [(name, sub)])
  end.
Definition collect_children (fuel : nat) (count : Z) : Parser (list (bytes * bytes)) :=
  collect_loop fuel count [].

(** [emit_facets] *)
Definition emit_facets (out : bytes) (blob : BlobOp) (opaque backdrop : bool)
    (attrs : option bytes) : bytes :=
  let flags := match blob with Keep => BLOB_KEEP | SetBlob _ => BLOB_SET | Remove => BLOB_REMOVE end in
  let flags := if opaque then Z.lor flags FLAG_OPAQUE else flags in
  let flags := if is_some attrs then Z.lor flags FLAG_ATTRS else flags in
  let flags := if backdrop then Z.lor flags FLAG_BACKDROP else flags in
  let out := out ++ [flags] in
  let out := match blob with SetBlob b => put_bytes out b | _ => out end in
  match attrs with Some a => out ++ a | None => out end.

(** The lockstep loop over two peekable child lists that the three operations
    share, over what each of them does with a one-sided and a two-sided child. *)
Section merge_walk.
Context {St : Type}.
Variables (on_a on_b : bytes → bytes → St → Run St).
Variable (on_both : bytes → bytes → bytes → St → Run St).

Fixpoint merge_walk (ia : list (bytes * bytes)) : list (bytes * bytes) → St → Run St :=
  fix walk_b ib st :=
    match ia, ib with
    | (an, asub) :: ia', (bn, bsub) :: ib' =>
        match cmp an bn with
        | Lt => let! st' := on_a an asub st in merge_walk ia' ib st'
        | Gt => let! st' := on_b bn bsub st in walk_b ib' st'
        | Eq => let! st' := on_both an asub bsub st in merge_walk ia' ib' st'
        end
    | (an, asub) :: ia', [] => let! st' := on_a an asub st in merge_walk ia' [] st'
    | [], (bn, bsub) :: ib' => let! st' := on_b bn bsub st in walk_b ib' st'
    | [], [] => run_ok st
    end.
End merge_walk.

(** ** Compose *)

(** The loop of [compose_collapses], which returns at the first survivor. *)
Fixpoint collapses_walk (collapses : bytes → bytes → Run bool) (ia : list (bytes * bytes)) :
    list (bytes * bytes) → Run bool :=
  fix walk_b ib :=
    match ia, ib with
    | (an, asub) :: ia', (bn, bsub) :: ib' =>
        match cmp an bn with
        | Lt => run_ok false
        | Gt => if negb (bytes_eqb bsub ID) then run_ok false else walk_b ib'
        | Eq => let! c := collapses asub bsub in
                if negb c then run_ok false else collapses_walk collapses ia' ib'
        end
    | _ :: _, [] => run_ok false
    | [], (bn, bsub) :: ib' => if negb (bytes_eqb bsub ID) then run_ok false else walk_b ib'
    | [], [] => run_ok true
    end.

(** [compose_collapses] *)
Fixpoint compose_collapses (fuel : nat) (a b : bytes) : Run bool :=
  match fuel with
  | O => None
  | S f =>
      let! (bh, cb) := read_head f (cur_new b) in
      if h_tombstone bh || h_backdrop bh then run_ok false else
      let! (ah, ca) := read_head f (cur_new a) in
      if h_tombstone ah then run_ok false else
      let blob_keep := is_keep (h_blob bh) && is_keep (h_blob ah) in
      if negb blob_keep || is_some (h_attrs bh) || is_some (h_attrs ah)
         || h_opaque bh || h_opaque ah || h_backdrop ah
      then run_ok false else
      let! (a_children, _) := collect_children f (h_child_count ah) ca in
      let! (b_children, _) := collect_children f (h_child_count bh) cb in
      collapses_walk (compose_collapses f) a_children b_children
  end.

(** [enum Src] of [compose_node] *)
Inductive CSrc : Type :=
| CopyA (s : bytes)
| CopyB (s : bytes)
| Both (asub bsub : bytes)
| Owned (v : bytes).

(** Hardening one encoded child: its bytes, unless nothing of it stays. *)
Definition hardened (sub : bytes) : Run (option bytes) :=
  let! (node, _) := decode_node sub 0 in
  let h := harden node in
  run_ok (if negb (is_tombstone h) then Some (encode_node [] h) else None).

(** [push_compose_b_only] *)
Definition push_compose_b_only (items : list (bytes * CSrc)) (name bsub : bytes) (a_opaque : bool) :
    Run (list (bytes * CSrc)) :=
  if a_opaque then
    let! h := hardened bsub in
    run_ok (match h with Some v => items ++ [(name, Owned v)] | None => items end)
  else if negb (bytes_eqb bsub ID) then run_ok (items ++ [(name, CopyB bsub)])
  else run_ok items.

(** The [bh.opaque] loop of [compose_node]. *)
Fixpoint harden_kids (b_children : list (bytes * bytes)) (kids : list (bytes * bytes)) :
    Run (list (bytes * bytes)) :=
  match b_children with
  | [] => run_ok kids
  | (name, bsub) :: rest =>
      let! h := hardened bsub in
      harden_kids rest (match h with Some v => kids ++ [(name, v)] | None => kids end)
  end.

(** One source of the emission loop of [compose_node], over its recursive call. *)
Definition emit_src (compose2 : bytes → bytes → bytes → Run bytes) (out : bytes) (src : CSrc) :
    Run bytes :=
  match src with
  | CopyA s | CopyB s | Owned s => run_ok (out ++ s)
  | Both asub bsub => compose2 asub bsub out
  end.

(** The emission loop of [compose_node]. *)
Fixpoint emit_composed (compose2 : bytes → bytes → bytes → Run bytes)
    (items : list (bytes * CSrc)) (out : bytes) : Run bytes :=
  match items with
  | [] => run_ok out
  | (name, src) :: rest =>
      let! out := emit_src compose2 (put_bytes out name) src in
      emit_composed compose2 rest out
  end.

(** [for (name, bytes) in kids { put_bytes(out, name); out.extend(bytes) }] *)
Definition emit_raw (out : bytes) (kids : list (bytes * bytes)) : bytes :=
  fold_left (λ out '(name, v), put_bytes out name ++ v) kids out.

(** [compose_node]: the output and the two cursors past their nodes. *)
Fixpoint stream_compose_node (fuel : nat) (a b : Cur) (out : bytes) : Run (bytes * Cur * Cur) :=
  match fuel with
  | O => None
  | S f =>
      let b_start := pos b in
      let! (bh, b) := read_head f b in
      if h_tombstone bh then
        let! (_, a) := skip_node f a in run_ok (out ++ [FLAG_TOMBSTONE], a, b)
      else if h_backdrop bh then
        let! (_, b) := skip_children (skip_node f) f (h_child_count bh) b in
        let! (_, a) := skip_node f a in
        run_ok (out ++ take (pos b - b_start) (drop b_start (buf b)), a, b)
      else
      let! (ah, a) := read_head f a in
      if h_tombstone ah then
        let! (_, b) := skip_children (skip_node f) f (h_child_count bh) b in
        let! (bnode, _) := decode_node (buf b) b_start in
        run_ok (encode_node out (harden bnode), a, b)
      else
      let blob := match h_blob bh with Keep => h_blob ah | other => other end in
      let attrs := match h_attrs bh with Some x => Some x | None => h_attrs ah end in
      let! (a_children, a) := collect_children f (h_child_count ah) a in
      let! (b_children, b) := collect_children f (h_child_count bh) b in
      if h_opaque bh then
        let! kids := harden_kids b_children [] in
        let out := emit_facets out blob true (h_backdrop ah) attrs in
        run_ok (emit_raw (put_varint out (zlen kids)) kids, a, b)
      else
        let! items := merge_walk
          (λ an asub items, run_ok (items ++ [(an, CopyA asub)]))
          (λ bn bsub items, push_compose_b_only items bn bsub (h_opaque ah))
          (λ an asub bsub items,
            let! c := compose_collapses f asub bsub in
            run_ok (if negb c then items ++ [(an, Both asub bsub)] else items))
          a_children b_children [] in
        let out := emit_facets out blob (h_opaque ah) (h_backdrop ah) attrs in
        let! out := emit_composed
          (λ asub bsub out,
            let! (out, _, _) := stream_compose_node f (cur_new asub) (cur_new bsub) out in
            run_ok out)
          items (put_varint out (zlen items)) in
        run_ok (out, a, b)
  end.

(** [compose_stream]: fuel for one byte more than both inputs hold. *)
Definition compose_stream (a b out : bytes) : Run bytes :=
  let! (out, _, _) := stream_compose_node (S (length a + length b)) (cur_new a) (cur_new b) out in
  run_ok out.

(** ** Diff *)

(** [norm_attrs] *)
Definition norm_attrs (attrs : option bytes) : option bytes :=
  match attrs with Some [0] => None | other => other end.

(** The view-blob of a full-state node: its [Set] payload. *)
Definition set_payload (b : BlobOp) : option bytes :=
  match b with SetBlob x => Some x | _ => None end.

(** [enum Src] of [diff_node] *)
Inductive DSrc : Type :=
| DRemove
| DCopyB (s : bytes)
| DBoth (asub bsub : bytes).

(** [enum DAttrs] of [diff_node] *)
Inductive DAttrs : Type :=
| DInherit
| DSet (raw : bytes)
| DEmpty.

(** One source of the emission loop of [diff_node], over its recursive call. *)
Definition emit_dsrc (diff2 : bytes → bytes → bytes → Run bytes) (remove out : bytes) (src : DSrc) :
    Run bytes :=
  match src with
  | DRemove => run_ok (out ++ remove)
  | DCopyB s => run_ok (out ++ s)
  | DBoth asub bsub => diff2 asub bsub out
  end.

(** The emission loop of [diff_node]. *)
Fixpoint emit_diffed (diff2 : bytes → bytes → bytes → Run bytes) (remove : bytes)
    (items : list (bytes * DSrc)) (out : bytes) : Run bytes :=
  match items with
  | [] => run_ok out
  | (name, src) :: rest =>
      let! out := emit_dsrc diff2 remove (put_bytes out name) src in
      emit_diffed diff2 remove rest out
  end.

(** [diff_node] *)
Fixpoint stream_diff_node (fuel : nat) (a b : Cur) (remove out : bytes) : Run (bytes * Cur * Cur) :=
  match fuel with
  | O => None
  | S f =>
      let! (ah, a) := read_head f a in
      let! (bh, b) := read_head f b in
      let va_blob := set_payload (h_blob ah) in
      let vb_blob := set_payload (h_blob bh) in
      let dblob := match va_blob, vb_blob with
                   | Some o, Some n => if bytes_eqb o n then Keep else SetBlob n
                   | None, Some n => SetBlob n
                   | Some _, None => Remove
                   | None, None => Keep
                   end in
      let va_attrs := norm_attrs (h_attrs ah) in
      let vb_attrs := norm_attrs (h_attrs bh) in
      let dattrs := if bool_decide (va_attrs = vb_attrs) then DInherit
                    else match vb_attrs with Some raw => DSet raw | None => DEmpty end in
      let! (a_children, a) := collect_children f (h_child_count ah) a in
      let! (b_children, b) := collect_children f (h_child_count bh) b in
      let! items := merge_walk
        (λ an asub items, run_ok (items ++ [(an, DRemove)]))
        (λ bn bsub items, run_ok (items ++ [(bn, DCopyB bsub)]))
        (λ an asub bsub items,
          run_ok (if negb (bytes_eqb asub bsub) then items ++ [(an, DBoth asub bsub)] else items))
        a_children b_children [] in
      let b_empty_view := negb (is_some vb_blob) && negb (is_some vb_attrs) && is_nil b_children in
      let a_empty_view := negb (is_some va_blob) && negb (is_some va_attrs) && is_nil a_children in
      let asserts_self := negb (is_keep dblob)
                          || negb (match dattrs with DInherit => true | _ => false end) in
      let dattrs := if b_empty_view && negb asserts_self && negb a_empty_view then DEmpty else dattrs in
      let attrs_raw := match dattrs with
                       | DInherit => None
                       | DSet raw => Some raw
                       | DEmpty => Some [0]
                       end in
      let out := emit_facets out dblob false false attrs_raw in
      let! out := emit_diffed
        (λ asub bsub out,
          let! (out, _, _) := stream_diff_node f (cur_new asub) (cur_new bsub) remove out in
          run_ok out)
        remove items (put_varint out (zlen items)) in
      run_ok (out, a, b)
  end.

Definition diff_marked (remove a b out : bytes) : Run bytes :=
  let! (out, _, _) :=
    stream_diff_node (S (length a + length b)) (cur_new a) (cur_new b) remove out in
  run_ok out.

(** [diff_stream] *)
Definition diff_stream (a b out : bytes) : Run bytes := diff_marked [FLAG_TOMBSTONE] a b out.

(** [diff_stream_holes] *)
Definition diff_stream_holes (a b out : bytes) : Run bytes := diff_marked [FLAG_BACKDROP; 0] a b out.

(** ** Overlay *)

(** [is_tombstone] and [is_backdrop] on an encoded node *)
Definition sub_is_tombstone (sub : bytes) : bool := bytes_eqb sub [FLAG_TOMBSTONE].
Definition sub_is_backdrop (sub : bytes) : bool :=
  match sub with f :: _ => has_flag f FLAG_BACKDROP | [] => false end.

(** [diff(None, view)]: against no base, [diff] compares no slots, so that the
    pointer comparisons it takes are immaterial. *)
Definition no_sharing {A} (_ _ : A) : bool := false.
Definition full_state (v : View) : Node := diff_node no_sharing no_sharing None v.

(** [positive_over_nothing] *)
Definition positive_over_nothing (sub : bytes) : Run (option bytes) :=
  let! (node, _) := decode_node sub 0 in
  run_ok (match apply None (MkLayer node) with
          | Some view => Some (encode_node [] (full_state view))
          | None => None
          end).

(** Pushing a resolved child, where it materializes. *)
Definition push_resolved (items : list (bytes * bytes)) (name : bytes) (v : option bytes) :
    list (bytes * bytes) :=
  match v with Some v => items ++ [(name, v)] | None => items end.

(** The [dh.opaque] loop of [overlay_node]. *)
Fixpoint resolve_kids (delta_children items : list (bytes * bytes)) : Run (list (bytes * bytes)) :=
  match delta_children with
  | [] => run_ok items
  | (name, dsub) :: rest =>
      let! v := positive_over_nothing dsub in
      resolve_kids rest (push_resolved items name v)
  end.

(** [overlay_node]: whether the node exists, the output, the cursors.  An
    item's source, copied or owned, is its bytes. *)
Fixpoint overlay_node (fuel : nat) (base delta : Cur) (out : bytes) :
    Run (bool * bytes * Cur * Cur) :=
  match fuel with
  | O => None
  | S f =>
      let delta_start := pos delta in
      let! (bh, base) := read_head f base in
      let! (dh, delta) := read_head f delta in
      if h_backdrop dh then
        let! (_, base) := skip_children (skip_node f) f (h_child_count bh) base in
        let! (_, delta) := skip_children (skip_node f) f (h_child_count dh) delta in
        let! v := positive_over_nothing
                    (take (pos delta - delta_start) (drop delta_start (buf delta))) in
        run_ok (match v with
                | Some v => (true, out ++ v, base, delta)
                | None => (false, out, base, delta)
                end)
      else
      let base_blob := set_payload (h_blob bh) in
      let base_attrs := norm_attrs (h_attrs bh) in
      let base_empty_present :=
        negb (is_some base_blob) && negb (is_some base_attrs) && (h_child_count bh =? 0) in
      let res_blob := match h_blob dh with
                      | SetBlob x => Some x
                      | Remove => None
                      | Keep => base_blob
                      end in
      let res_attrs := match h_attrs dh with
                       | Some _ => norm_attrs (h_attrs dh)
                       | None => base_attrs
                       end in
      let delta_asserts := negb (is_keep (h_blob dh)) || is_some (h_attrs dh) || h_opaque dh in
      let! (base_children, base) := collect_children f (h_child_count bh) base in
      let! (delta_children, delta) := collect_children f (h_child_count dh) delta in
      let! items :=
        if h_opaque dh then resolve_kids delta_children []
        else merge_walk
          (λ bn bsub items, run_ok (items ++ [(bn, bsub)]))
          (λ dn dsub items, let! v := positive_over_nothing dsub in
                            run_ok (push_resolved items dn v))
          (λ bn bsub dsub items,
            if sub_is_backdrop dsub then
              let! v := positive_over_nothing dsub in run_ok (push_resolved items bn v)
            else if negb (sub_is_tombstone dsub) then
              let! (ex, tmp, _, _) := overlay_node f (cur_new bsub) (cur_new dsub) [] in
              run_ok (if ex then items ++ [(bn, tmp)] else items)
            else run_ok items)
          base_children delta_children [] in
      let exists_ := is_some res_blob || is_some res_attrs || negb (is_nil items)
                     || delta_asserts || base_empty_present in
      if negb exists_ then run_ok (false, out, base, delta) else
      let view_empty := negb (is_some res_blob) && negb (is_some res_attrs) && is_nil items in
      let attrs_out := match res_attrs with
                       | Some raw => Some raw
                       | None => if view_empty then Some [0] else None
                       end in
      let blob_out := match res_blob with Some x => SetBlob x | None => Keep end in
      let out := emit_facets out blob_out false false attrs_out in
      run_ok (true, emit_raw (put_varint out (zlen items)) items, base, delta)
  end.

(** [overlay_full] *)
Definition overlay_full (base d out : bytes) : Run bytes :=
  let! (_, out, _, _) :=
    overlay_node (S (length base + length d)) (cur_new base) (cur_new d) out in
  run_ok out.
