(* ===== verification/DepotStreamParse.v ===== *)
(** * Reading encoded nodes with the streaming cursor.

    What [read_head], [skip_node] and [collect_children] of
    [chupa/depot/src/stream.rs] return on the encoding of a node, and what a
    lockstep walk over two sorted child lists yields. *)

From S2P Require Import Prelude.
From S2P Require Import BTreeMap.
From S2P Require Import DepotModel.
From S2P Require Import DepotCompose.
From S2P Require Import DepotDiff.
From S2P Require Import DepotCodec.
From S2P Require Import DepotStream.
Open Scope Z_scope.
Open Scope sarun_scope.

(** ** The parts of an encoding *)

(** The children that the encoding of a node carries. *)
Definition kids (n : Node) : btmap Name Node := if is_tombstone n then [] else children n.

(** Facets and child count: what [read_head] consumes. *)
Definition enc_head (n : Node) : bytes :=
  if is_tombstone n then [FLAG_TOMBSTONE] else
  [node_flags n] ++ enc_blob (blob n)
  ++ match attrs n with Some a => enc_attrs a | None => [] end
  ++ put_varint [] (zlen (children n)).

Definition head_of (n : Node) : Head :=
  if is_tombstone n then MkHead true Keep false false None 0 else
  MkHead false (blob n) (opaque n) (is_backdrop (anchor n)) (enc_attrs <$> attrs n)
    (zlen (children n)).

(** The children as [collect_children] returns them. *)
Definition enc_kids (cs : btmap Name Node) : list (bytes * bytes) :=
  (λ '(k, c), (k, encode_node [] c)) <$> cs.

(** A node whose maps are ordered and whose encoding fits 64-bit lengths. *)
Definition fits (n : Node) : Prop := wf_node n = true ∧ zlen (encode_node [] n) < u64_limit.

(** The bytes of a node, its size. *)
Abbreviation esize n := (length (encode_node [] n)) (only parsing).

Lemma encode_split n : encode_node [] n = enc_head n ++ concat (enc_child <$> kids n).
Proof.
  unfold enc_head, kids. destruct (is_tombstone n) eqn:Ht.
  - by rewrite encode_tombstone.
  - rewrite encode_live by done. by rewrite <- !app_assoc.
Qed.

Lemma head_count n : h_child_count (head_of n) = zlen (kids n).
Proof. unfold head_of, kids. by destruct (is_tombstone n). Qed.

Lemma head_tombstone n : h_tombstone (head_of n) = is_tombstone n.
Proof. unfold head_of. by destruct (is_tombstone n). Qed.

Section live_head.
Context (n : Node) (Ht : is_tombstone n = false).

Lemma head_blob : h_blob (head_of n) = blob n.
Proof. unfold head_of. by rewrite Ht. Qed.
Lemma head_opaque : h_opaque (head_of n) = opaque n.
Proof. unfold head_of. by rewrite Ht. Qed.
Lemma head_backdrop : h_backdrop (head_of n) = is_backdrop (anchor n).
Proof. unfold head_of. by rewrite Ht. Qed.
Lemma head_attrs : h_attrs (head_of n) = enc_attrs <$> attrs n.
Proof. unfold head_of. by rewrite Ht. Qed.
Lemma kids_live : kids n = children n.
Proof. unfold kids. by rewrite Ht. Qed.
End live_head.

Lemma kids_elem n k c : (k, c) ∈ kids n → (k, c) ∈ children n.
Proof. unfold kids. destruct (is_tombstone n); [set_solver|done]. Qed.

Lemma kids_ok n : wf_node n = true → bt_ok (kids n) = true.
Proof. intros Hn. unfold kids. destruct (is_tombstone n); [done|]. by apply wf_node_children. Qed.

Lemma enc_head_pos n : (1 ≤ length (enc_head n))%nat.
Proof. unfold enc_head. destruct (is_tombstone n); [done|]. simpl. lia. Qed.

Lemma esize_pos n : (1 ≤ esize n)%nat.
Proof. rewrite encode_split, length_app. pose proof (enc_head_pos n). lia. Qed.

Lemma enc_kid_size n k c :
  (k, c) ∈ kids n → (esize c + length (put_bytes [] k) + length (enc_head n) ≤ esize n)%nat.
Proof.
  intros Hin. rewrite (encode_split n), length_app.
  pose proof (concat_length_elem enc_child _ _ Hin) as Hl.
  unfold enc_child at 1 in Hl. cbn [fst snd] in Hl. rewrite length_app in Hl. lia.
Qed.

Lemma put_bytes_size k : (length k + 1 ≤ length (put_bytes [] k))%nat.
Proof. unfold put_bytes. rewrite length_app. pose proof (put_varint_pos (zlen k)). lia. Qed.

Lemma fits_kid n k c : fits n → (k, c) ∈ kids n → fits c ∧ zlen k < u64_limit.
Proof.
  intros [Hwf Hz] Hin. pose proof (enc_kid_size _ _ _ Hin). pose proof (put_bytes_size k).
  unfold zlen in *. split; [split|].
  - apply wf_node_unfold in Hwf as (_&_&Hall). by eapply Hall, kids_elem.
  - unfold zlen. lia.
  - lia.
Qed.

Lemma kids_count n : (length (kids n) + length (enc_head n) ≤ esize n)%nat.
Proof.
  rewrite (encode_split n), length_app.
  pose proof (concat_length_bound enc_child (kids n) (λ x _, enc_child_pos x)). lia.
Qed.

Lemma fits_count n : fits n → zlen (kids n) < u64_limit.
Proof. intros [_ Hz]. pose proof (kids_count n). unfold zlen in *. lia. Qed.

(** ** The cursor on an encoding *)

Lemma parses_slice_field k : zlen k < u64_limit → parses slice (put_bytes [] k) k.
Proof. apply parses_bytes. Qed.

Lemma parses_consumed (p : Parser unit) bs x : parses p bs x → parses (consumed p) bs bs.
Proof.
  intros Hp r s Hr. unfold consumed, run_bind. rewrite (Hp r s Hr). unfold run_ok.
  do 3 f_equal. unfold advance. cbn [pos]. unfold unread in Hr. rewrite Hr.
  replace (pos r + length bs - pos r)%nat with (length bs) by lia. by rewrite take_app_length.
Qed.

Lemma parses_skip_entries fuel a :
  (length a ≤ fuel)%nat → zlen (concat (enc_attr <$> a)) < u64_limit →
  parses (skip_entries fuel (zlen a)) (concat (enc_attr <$> a)) tt.
Proof.
  revert fuel. induction a as [|[k v] a IH]; intros fuel Hf Hz.
  { destruct fuel; apply parses_ret. }
  destruct fuel as [|fuel]; simpl in Hf; [lia|].
  cbn [skip_entries]. rewrite zlen_cons in *. csimpl. csimpl in Hz.
  unfold enc_attr at 1 in Hz. cbn [fst snd] in Hz. rewrite !zlen_app in Hz.
  pose proof (put_bytes_size k). pose proof (put_bytes_size v). unfold zlen in Hz.
  destruct (Z.leb_spec (zlen a + 1) 0); [unfold zlen in *; lia|].
  unfold enc_attr at 1. cbn [fst snd]. rewrite <- app_assoc.
  eapply parses_bind; [apply parses_slice_field; unfold zlen; lia|]. cbv beta.
  eapply parses_bind; [apply parses_slice_field; unfold zlen; lia|]. cbv beta.
  replace (zlen a + 1 - 1) with (zlen a) by lia. apply IH; [lia|unfold zlen; lia].
Qed.

Lemma parses_raw_attrs fuel a :
  (length (enc_attrs a) ≤ fuel)%nat → zlen (enc_attrs a) < u64_limit →
  parses (consumed (count ← cur_varint; skip_entries fuel count)) (enc_attrs a) (enc_attrs a).
Proof.
  unfold enc_attrs. rewrite zlen_app, length_app. intros Hf Hz.
  pose proof (concat_length_bound enc_attr a (λ x _, enc_attr_pos x)) as Hc.
  unfold zlen in Hz. eapply parses_consumed.
  eapply parses_bind; [apply parses_varint; unfold zlen; lia|]. cbv beta.
  apply parses_skip_entries; [lia|unfold zlen; lia].
Qed.

Lemma parses_head fuel n :
  fits n → (length (enc_head n) ≤ S fuel)%nat →
  parses (read_head fuel) (enc_head n) (head_of n).
Proof.
  intros [Hwf Hz] Hf. pose proof (kids_count n) as Hk.
  rewrite encode_split, zlen_app in Hz. unfold enc_head, head_of, kids in *.
  destruct (is_tombstone n) eqn:Ht.
  { rewrite <- (app_nil_r [_]). eapply parses_bind; [apply parses_byte|]. apply parses_ret. }
  rewrite !zlen_app in Hz. rewrite !length_app in Hf. rewrite (encode_live n) in Hk by done.
  rewrite !length_app in Hk. cbn [length] in Hf. unfold zlen in Hz.
  destruct (node_flags_spec n) as (Hu&Htf&Ho&Ha&Hb&_).
  unfold read_head. eapply parses_bind; [apply parses_byte|]. cbv beta.
  rewrite Hu, Htf, Ho, Ha, Hb.
  eapply parses_bind; [apply parses_blob; unfold zlen; lia|]. cbv beta.
  eapply parses_bind with (x := enc_attrs <$> attrs n).
  { destruct (attrs n) as [a|]; simpl; [|apply parses_ret].
    apply (parses_map _ Some), parses_raw_attrs; [lia|unfold zlen; lia]. }
  cbv beta. rewrite <- (app_nil_r (put_varint _ _)).
  eapply parses_bind; [apply parses_varint; unfold zlen; lia|]. apply parses_ret.
Qed.

(** ** Whole subtrees *)

Lemma parses_skip_children (skip : Parser unit) fuel (cs : btmap Name Node) :
  (length cs ≤ fuel)%nat →
  (∀ k c, (k, c) ∈ cs → zlen k < u64_limit ∧ parses skip (encode_node [] c) tt) →
  parses (skip_children skip fuel (zlen cs)) (concat (enc_child <$> cs)) tt.
Proof.
  revert fuel. induction cs as [|[k c] cs IH]; intros fuel Hf Hc.
  { destruct fuel; apply parses_ret. }
  destruct fuel as [|fuel]; simpl in Hf; [lia|].
  cbn [skip_children]. rewrite zlen_cons. csimpl.
  destruct (Z.leb_spec (zlen cs + 1) 0); [unfold zlen in *; lia|].
  destruct (Hc k c ltac:(set_solver)) as [Hk Hs].
  unfold enc_child at 1. cbn [fst snd]. rewrite <- app_assoc.
  eapply parses_bind; [by apply parses_slice_field|]. cbv beta.
  eapply parses_bind; [done|]. cbv beta.
  replace (zlen cs + 1 - 1) with (zlen cs) by lia. apply IH; [lia|].
  intros k' c' ?. apply Hc. set_solver.
Qed.

(** Skipping the children that follow a head. *)
Lemma parses_skip_kids (skip : Parser unit) fuel n :
  fits n → (esize n ≤ S fuel)%nat →
  (∀ k c, (k, c) ∈ kids n → parses skip (encode_node [] c) tt) →
  parses (skip_children skip fuel (h_child_count (head_of n))) (concat (enc_child <$> kids n)) tt.
Proof.
  intros Hn Hf Hs. rewrite head_count. pose proof (kids_count n). pose proof (enc_head_pos n).
  apply parses_skip_children; [lia|]. intros k c Hin. split; [by eapply fits_kid|by eapply Hs].
Qed.

Lemma parses_skip_node fuel n :
  fits n → (esize n ≤ fuel)%nat → parses (skip_node fuel) (encode_node [] n) tt.
Proof.
  revert fuel. induction n as [n IH] using node_ind'; intros fuel Hn Hf.
  pose proof (kids_count n). pose proof (enc_head_pos n).
  destruct fuel as [|fuel]; [lia|]. cbn [skip_node]. rewrite encode_split.
  eapply parses_bind; [apply parses_head; [done|lia]|]. cbv beta.
  apply parses_skip_kids; [done|lia|]. intros k c Hin.
  pose proof (enc_kid_size _ _ _ Hin). pose proof (put_bytes_size k).
  eapply IH; [by apply kids_elem|by eapply fits_kid|lia].
Qed.

Lemma parses_collect_loop fuel (cs : btmap Name Node) acc :
  (∀ k c, (k, c) ∈ cs → fits c ∧ zlen k < u64_limit) →
  (length (concat (enc_child <$> cs)) ≤ fuel)%nat →
  parses (collect_loop fuel (zlen cs) acc) (concat (enc_child <$> cs)) (acc ++ enc_kids cs).
Proof.
  revert fuel acc. induction cs as [|[k c] cs IH]; intros fuel acc Hc Hf.
  { rewrite app_nil_r. destruct fuel; apply parses_ret. }
  csimpl in Hf. unfold enc_child at 1 in Hf. cbn [fst snd] in Hf. rewrite !length_app in Hf.
  pose proof (put_bytes_size k). destruct (Hc k c ltac:(set_solver)) as [Hfit Hk].
  destruct fuel as [|fuel]; [lia|]. cbn [collect_loop]. rewrite zlen_cons. csimpl.
  destruct (Z.leb_spec (zlen cs + 1) 0); [unfold zlen in *; lia|].
  unfold enc_child at 1. cbn [fst snd]. rewrite <- app_assoc.
  eapply parses_bind; [by apply parses_slice_field|]. cbv beta.
  eapply parses_bind; [eapply parses_consumed, parses_skip_node; [done|lia]|]. cbv beta.
  replace (zlen cs + 1 - 1) with (zlen cs) by lia.
  change (acc ++ (k, encode_node [] c) :: enc_kids cs)
    with (acc ++ [(k, encode_node [] c)] ++ enc_kids cs).
  rewrite (app_assoc acc).
  apply IH; [|lia]. intros k' c' ?. apply (Hc k' c'). set_solver.
Qed.

Lemma parses_collect fuel n :
  fits n → (esize n ≤ S fuel)%nat →
  parses (collect_children fuel (h_child_count (head_of n)))
    (concat (enc_child <$> kids n)) (enc_kids (kids n)).
Proof.
  intros Hn Hf. rewrite head_count. unfold collect_children.
  apply (parses_collect_loop fuel (kids n) []).
  - intros k c Hin. by eapply fits_kid.
  - rewrite encode_split, length_app in Hf. pose proof (enc_head_pos n). lia.
Qed.

(** ** Running the cursor *)

(** The cursor [r] stands on the encoding of [n]. *)
Definition on_node (r : Reader) (n : Node) : Prop := ∃ s, unread r = encode_node [] n ++ s.

Lemma on_new n : on_node (cur_new (encode_node [] n)) n.
Proof. exists []. unfold unread. simpl. by rewrite app_nil_r. Qed.

(** After the head of [n]. *)
Definition after_head (r : Reader) (n : Node) : Reader := advance r (length (enc_head n)).
Definition after_node (r : Reader) (n : Node) : Reader :=
  advance (after_head r n) (length (concat (enc_child <$> kids n))).

Lemma after_node_pos r n : pos (after_node r n) = (pos r + esize n)%nat.
Proof. unfold after_node, after_head, advance. simpl. rewrite encode_split, length_app. lia. Qed.

Section on_node.
Context (r : Reader) (n : Node) (fuel : nat).
Hypothesis Hon : on_node r n.
Hypothesis Hfits : fits n.
Hypothesis Hfuel : (esize n ≤ fuel)%nat.

Lemma run_read_head : read_head fuel r = run_ok (head_of n, after_head r n).
Proof.
  destruct Hon as [s Hs]. rewrite encode_split, <- app_assoc in Hs.
  apply (parses_head fuel n Hfits) with (s := concat (enc_child <$> kids n) ++ s); [|done].
  pose proof (kids_count n). lia.
Qed.

Lemma unread_after_head : ∃ s, unread (after_head r n) = concat (enc_child <$> kids n) ++ s.
Proof.
  destruct Hon as [s Hs]. rewrite encode_split, <- app_assoc in Hs. exists s.
  by apply unread_advance.
Qed.

Lemma run_collect :
  collect_children fuel (h_child_count (head_of n)) (after_head r n)
  = run_ok (enc_kids (kids n), after_node r n).
Proof.
  destruct unread_after_head as [s Hs].
  exact (parses_collect fuel n Hfits ltac:(lia) _ s Hs).
Qed.

Lemma run_skip_kids :
  skip_children (skip_node fuel) fuel (h_child_count (head_of n)) (after_head r n)
  = run_ok (tt, after_node r n).
Proof.
  destruct unread_after_head as [s Hs].
  refine (parses_skip_kids (skip_node fuel) fuel n Hfits ltac:(lia) _ _ s Hs).
  intros k c Hin. pose proof (enc_kid_size _ _ _ Hin).
  apply parses_skip_node; [by eapply fits_kid|lia].
Qed.

Lemma run_skip_node : skip_node fuel r = run_ok (tt, after_node r n).
Proof.
  destruct Hon as [s Hs].
  rewrite (parses_skip_node fuel n Hfits Hfuel _ s Hs). unfold run_ok. do 3 f_equal.
  unfold after_node, after_head, advance. simpl. rewrite encode_split, length_app. f_equal. lia.
Qed.

End on_node.

Section on_node_bytes.
Context (r : Reader) (n : Node).
Hypothesis Hon : on_node r n.

(** The node's own bytes, sliced out between the two cursor positions. *)
Lemma run_slice :
  take (pos (after_node r n) - pos r) (drop (pos r) (buf (after_node r n))) = encode_node [] n.
Proof.
  destruct Hon as [s Hs]. rewrite after_node_pos. unfold after_node, after_head, advance. simpl.
  unfold unread in Hs. rewrite Hs.
  replace (pos r + esize n - pos r)%nat with (esize n) by lia. by rewrite take_app_length.
Qed.

Lemma run_decode : fits n → decode_node (buf r) (pos r) = run_ok (canon n, (pos r + esize n)%nat).
Proof.
  intros [Hwf Hz]. destruct Hon as [s Hs]. unfold unread in Hs.
  assert (Hpre : buf r = take (pos r) (buf r) ++ encode_node [] n ++ s).
  { rewrite <- Hs. by rewrite take_drop. }
  assert (Hlen : length (take (pos r) (buf r)) = pos r).
  { rewrite length_take. pose proof (f_equal length Hs) as Hl.
    rewrite length_drop, length_app in Hl. pose proof (esize_pos n). lia. }
  pose proof (decode_node_encode (take (pos r) (buf r)) n s Hwf Hz) as Hd.
  by rewrite <- Hpre, Hlen in Hd.
Qed.
End on_node_bytes.
