(* ===== verification/DepotMerge.v ===== *)
(** * Lockstep merges of two sorted maps.

    The reference definition of the merge-walk of [chupa/depot/src/stream.rs]:
    [merge_maps] on maps, its lookup law, and the agreement of the walk over
    encoded children with it. *)

From S2P Require Import Prelude.
From S2P Require Import BTreeMap.
From S2P Require Import DepotModel.
From S2P Require Import DepotCompose.
From S2P Require Import DepotDiff.
From S2P Require Import DepotCodec.
From S2P Require Import DepotStream.
From S2P Require Import DepotStreamParse.
Open Scope Z_scope.
Open Scope sarun_scope.

Definition push {X} (k : Name) (o : option X) : btmap Name X :=
  match o with Some x => [(k, x)] | None => [] end.

Section merge_maps.
Context {V W X : Type}.
Variables (L : Name → V → option X) (R : Name → W → option X) (B : Name → V → W → option X).

Fixpoint merge_maps (ma : btmap Name V) : btmap Name W → btmap Name X :=
  fix go mb :=
    match ma, mb with
    | (ka, va) :: ma', (kb, vb) :: mb' =>
        match cmp ka kb with
        | Lt => push ka (L ka va) ++ merge_maps ma' mb
        | Gt => push kb (R kb vb) ++ go mb'
        | Eq => push ka (B ka va vb) ++ merge_maps ma' mb'
        end
    | (ka, va) :: ma', [] => push ka (L ka va) ++ merge_maps ma' []
    | [], (kb, vb) :: mb' => push kb (R kb vb) ++ go mb'
    | [], [] => []
    end.

(** The equations of the walk. *)
Lemma merge_nil_nil : merge_maps [] [] = [].
Proof. done. Qed.
Lemma merge_a_nil ka va ma :
  merge_maps ((ka, va) :: ma) [] = push ka (L ka va) ++ merge_maps ma [].
Proof. done. Qed.
Lemma merge_nil_b kb vb mb :
  merge_maps [] ((kb, vb) :: mb) = push kb (R kb vb) ++ merge_maps [] mb.
Proof. done. Qed.
Lemma merge_lt ka va ma kb vb mb :
  cmp ka kb = Lt →
  merge_maps ((ka, va) :: ma) ((kb, vb) :: mb)
  = push ka (L ka va) ++ merge_maps ma ((kb, vb) :: mb).
Proof. intros E. cbn. by rewrite E. Qed.
Lemma merge_gt ka va ma kb vb mb :
  cmp ka kb = Gt →
  merge_maps ((ka, va) :: ma) ((kb, vb) :: mb)
  = push kb (R kb vb) ++ merge_maps ((ka, va) :: ma) mb.
Proof. intros E. cbn. by rewrite E. Qed.
Lemma merge_eq k va ma vb mb :
  merge_maps ((k, va) :: ma) ((k, vb) :: mb) = push k (B k va vb) ++ merge_maps ma mb.
Proof. cbn. by rewrite cmp_refl. Qed.

(** Induction along the walk. *)
Lemma merge_ind (P : btmap Name V → btmap Name W → Prop) :
  P [] [] →
  (∀ ka va ma, P ma [] → P ((ka, va) :: ma) []) →
  (∀ kb vb mb, P [] mb → P [] ((kb, vb) :: mb)) →
  (∀ ka va ma kb vb mb, cmp ka kb = Lt → P ma ((kb, vb) :: mb) → P ((ka, va) :: ma) ((kb, vb) :: mb)) →
  (∀ ka va ma kb vb mb, cmp ka kb = Gt → P ((ka, va) :: ma) mb → P ((ka, va) :: ma) ((kb, vb) :: mb)) →
  (∀ k va ma vb mb, P ma mb → P ((k, va) :: ma) ((k, vb) :: mb)) →
  ∀ ma mb, P ma mb.
Proof.
  intros H00 Ha Hb Hlt Hgt Heq. induction ma as [|[ka va] ma IHa].
  - induction mb as [|[kb vb] mb IHb]; auto.
  - induction mb as [|[kb vb] mb IHb]; auto.
    destruct (cmp ka kb) eqn:E; [apply cmp_eq in E as ->|..]; auto.
Qed.

Lemma push_elem k (o : option X) k' x : (k', x) ∈ push k o → k' = k ∧ o = Some x.
Proof. destruct o; simpl; [|set_solver]. intros [= -> ->]%list_elem_of_singleton. done. Qed.

Lemma merge_elem ma mb k x :
  (k, x) ∈ merge_maps ma mb → (∃ v, (k, v) ∈ ma) ∨ (∃ w, (k, w) ∈ mb).
Proof.
  revert ma mb. apply (merge_ind (λ ma mb, (k, x) ∈ merge_maps ma mb → _)); [set_solver|..];
    [intros ka va ma IH Hin|intros kb vb mb IH Hin|intros ka va ma kb vb mb E IH Hin
    |intros ka va ma kb vb mb E IH Hin|intros k' va ma vb mb IH Hin];
    [rewrite merge_a_nil in Hin|rewrite merge_nil_b in Hin|rewrite merge_lt in Hin by done
    |rewrite merge_gt in Hin by done|rewrite merge_eq in Hin];
    apply elem_of_app in Hin as [[-> _]%push_elem|Hin]; set_solver.
Qed.

Lemma bt_ok_push k (o : option X) m :
  (∀ k' x, (k', x) ∈ m → cmp k k' = Lt) → bt_ok m = true → bt_ok (push k o ++ m) = true.
Proof. intros Hlt Hok. destruct o; simpl app; [|done]. by apply bt_ok_cons. Qed.

(** What lies above both heads lies above the merge of the tails. *)
Lemma merge_above ma mb k :
  (∀ k' v, (k', v) ∈ ma → cmp k k' = Lt) → (∀ k' w, (k', w) ∈ mb → cmp k k' = Lt) →
  ∀ k' x, (k', x) ∈ merge_maps ma mb → cmp k k' = Lt.
Proof. intros Ha Hb k' x [[v Hin]|[w Hin]]%merge_elem; eauto. Qed.

Lemma above_cons {T} (j k : Name) (x : T) m :
  cmp j k = Lt → bt_ok ((k, x) :: m) = true →
  ∀ k' y, (k', y) ∈ (k, x) :: m → cmp j k' = Lt.
Proof.
  intros Hlt [Hm _]%bt_ok_cons k' y [[= -> ->]|Hin]%elem_of_cons; [done|].
  eapply cmp_lt_trans; [done|by eapply Hm].
Qed.

Lemma merge_ok ma mb :
  bt_ok ma = true → bt_ok mb = true → bt_ok (merge_maps ma mb) = true.
Proof.
  revert ma mb. apply (merge_ind (λ ma mb, bt_ok ma = true → bt_ok mb = true → _)); [done|..];
    [intros ka va ma IH Ha Hb|intros kb vb mb IH Ha Hb|intros ka va ma kb vb mb E IH Ha Hb
    |intros ka va ma kb vb mb E IH Ha Hb|intros k va ma vb mb IH Ha Hb];
    [rewrite merge_a_nil|rewrite merge_nil_b|rewrite merge_lt by done
    |rewrite merge_gt by done|rewrite merge_eq];
    apply bt_ok_push; try apply merge_above; try (apply IH);
    repeat match goal with
    | H : bt_ok (_ :: _) = true |- bt_ok ?m = true => by apply bt_ok_cons in H as [_ ?]
    | H : bt_ok ((?k, _) :: ?m) = true |- ∀ _ _, _ ∈ ?m → cmp ?k _ = Lt =>
        by apply bt_ok_cons in H as [? _]
    end; try done; try set_solver.
  - by apply above_cons.
  - apply above_cons; [by apply cmp_gt_lt|done].
Qed.

Definition merged_at (k : Name) (ma : btmap Name V) (mb : btmap Name W) : option X :=
  match bt_get k ma, bt_get k mb with
  | Some v, Some w => B k v w
  | Some v, None => L k v
  | None, Some w => R k w
  | None, None => None
  end.

Lemma bt_get_push k j (o : option X) m :
  bt_get k m = None ∨ k ≠ j →
  bt_get j (push k o ++ m) = if decide (j = k) then o else bt_get j m.
Proof.
  intros Hk. destruct o as [x|]; simpl.
  - case_decide as E; [subst; by rewrite cmp_refl|].
    destruct (cmp j k) eqn:Ec; [by apply cmp_eq in Ec|done..].
  - case_decide as E; [subst; by destruct Hk|done].
Qed.

Lemma bt_get_below {T} (k : Name) (m : btmap Name T) :
  (∀ k' x, (k', x) ∈ m → cmp k k' = Lt) → bt_get k m = None.
Proof.
  intros Hlt. destruct (bt_get k m) eqn:E; [|done].
  apply bt_get_elem, Hlt in E. by rewrite cmp_refl in E.
Qed.

Lemma bt_get_cons_ne {T} (j k : Name) (x : T) m : j ≠ k → bt_get j ((k, x) :: m) = bt_get j m.
Proof. intros Hne. simpl. destruct (cmp j k) eqn:E; [by apply cmp_eq in E|done..]. Qed.

Lemma bt_get_cons_eq {T} (k : Name) (x : T) m : bt_get k ((k, x) :: m) = Some x.
Proof. simpl. by rewrite cmp_refl. Qed.

Lemma merge_get ma mb k :
  bt_ok ma = true → bt_ok mb = true →
  bt_get k (merge_maps ma mb) = merged_at k ma mb.
Proof.
  revert ma mb. apply (merge_ind (λ ma mb, bt_ok ma = true → bt_ok mb = true → _)); [done|..];
    [intros ka va ma IH Ha Hb|intros kb vb mb IH Ha Hb|intros ka va ma kb vb mb E IH Ha Hb
    |intros ka va ma kb vb mb E IH Ha Hb|intros ka va ma vb mb IH Ha Hb];
    [rewrite merge_a_nil|rewrite merge_nil_b|rewrite merge_lt by done
    |rewrite merge_gt by done|rewrite merge_eq].
  - apply bt_ok_cons in Ha as [Hlt Ha]. rewrite bt_get_push, IH by
      (try done; left; apply bt_get_below, merge_above; set_solver).
    unfold merged_at. case_decide as Ek; [subst; by rewrite bt_get_cons_eq|].
    by rewrite bt_get_cons_ne.
  - apply bt_ok_cons in Hb as [Hlt Hb]. rewrite bt_get_push, IH by
      (try done; left; apply bt_get_below, merge_above; set_solver).
    unfold merged_at. case_decide as Ek; [subst; by rewrite bt_get_cons_eq|].
    by rewrite bt_get_cons_ne.
  - pose proof (above_cons _ _ _ _ E Hb) as Hab. apply bt_ok_cons in Ha as [Hlt Ha].
    rewrite bt_get_push, IH by (try done; left; apply bt_get_below, merge_above; done).
    unfold merged_at. case_decide as Ek; [subst|by rewrite (bt_get_cons_ne _ ka)].
    rewrite bt_get_cons_eq. by rewrite (bt_get_below _ _ Hab).
  - apply cmp_gt_lt in E. pose proof (above_cons _ _ _ _ E Ha) as Hab.
    apply bt_ok_cons in Hb as [Hlt Hb].
    rewrite bt_get_push, IH by (try done; left; apply bt_get_below, merge_above; done).
    unfold merged_at. case_decide as Ek; [subst|by rewrite (bt_get_cons_ne _ kb)].
    rewrite bt_get_cons_eq. by rewrite (bt_get_below _ _ Hab).
  - apply bt_ok_cons in Ha as [Hlta Ha]. apply bt_ok_cons in Hb as [Hltb Hb].
    rewrite bt_get_push, IH by (try done; left; apply bt_get_below, merge_above; done).
    unfold merged_at. case_decide as Ek; [subst; by rewrite !bt_get_cons_eq|].
    by rewrite !bt_get_cons_ne.
Qed.
End merge_maps.

Ltac merge_induction :=
  match goal with |- ∀ ma mb, @?P ma mb => apply (merge_ind P); cbv beta end.

(** Two merges of the same maps, related choice by choice. *)
Lemma merge_related {V W X Y} (P : X → Y → Prop)
    (L1 : Name → V → option X) (R1 : Name → W → option X) (B1 : Name → V → W → option X)
    (L2 : Name → V → option Y) (R2 : Name → W → option Y) (B2 : Name → V → W → option Y) ma mb :
  (∀ k v, (k, v) ∈ ma → option_Forall2 P (L1 k v) (L2 k v)) →
  (∀ k w, (k, w) ∈ mb → option_Forall2 P (R1 k w) (R2 k w)) →
  (∀ k v w, (k, v) ∈ ma → (k, w) ∈ mb → option_Forall2 P (B1 k v w) (B2 k v w)) →
  Forall2 (λ x y, x.1 = y.1 ∧ P x.2 y.2) (merge_maps L1 R1 B1 ma mb) (merge_maps L2 R2 B2 ma mb).
Proof.
  assert (Hpush : ∀ (k : Name) o1 o2 l1 l2, option_Forall2 P o1 o2 →
    Forall2 (λ x y, x.1 = y.1 ∧ P x.2 y.2) l1 l2 →
    Forall2 (λ x y, x.1 = y.1 ∧ P x.2 y.2) (push k o1 ++ l1) (push k o2 ++ l2)).
  { intros k o1 o2 l1 l2 [x y Hp|] Hl; simpl; [by constructor|done]. }
  revert ma mb. apply (merge_ind (λ ma mb, (∀ k v, (k, v) ∈ ma → _) → (∀ k w, (k, w) ∈ mb → _) →
    (∀ k v w, (k, v) ∈ ma → (k, w) ∈ mb → _) → _)); [done|..];
    [intros ka va ma IH Ha Hb Hc|intros kb vb mb IH Ha Hb Hc|intros ka va ma kb vb mb E IH Ha Hb Hc
    |intros ka va ma kb vb mb E IH Ha Hb Hc|intros ka va ma vb mb IH Ha Hb Hc];
    [rewrite !merge_a_nil|rewrite !merge_nil_b|rewrite !merge_lt by done
    |rewrite !merge_gt by done|rewrite !merge_eq];
    apply Hpush;
    first [apply IH; intros; first [apply Ha|apply Hb|apply Hc]; set_solver
          |first [apply Ha|apply Hb|apply Hc]; set_solver].
Qed.

Lemma merge_ext_elem {V W X} (L L' : Name → V → option X) (R R' : Name → W → option X)
    (B B' : Name → V → W → option X) ma mb :
  (∀ k v, (k, v) ∈ ma → L k v = L' k v) → (∀ k w, (k, w) ∈ mb → R k w = R' k w) →
  (∀ k v w, (k, v) ∈ ma → (k, w) ∈ mb → B k v w = B' k v w) →
  merge_maps L R B ma mb = merge_maps L' R' B' ma mb.
Proof.
  intros HL HR HB. apply list_eq_Forall2.
  assert (Hrefl : ∀ o o' : option X, o = o' → option_Forall2 eq o o')
    by (intros [x|] ? <-; by constructor).
  eapply Forall2_impl; [apply (merge_related eq L R B L' R' B')|]; [auto..|].
  intros [k x] [k' x'] [??]. simpl in *. by subst.
Qed.

(** Merging maps whose values were mapped. *)
Definition map_vals {V W} (f : V → W) (m : btmap Name V) : btmap Name W :=
  (λ '(k, v), (k, f v)) <$> m.

Lemma map_vals_nil {V W} (f : V → W) : map_vals f [] = [].
Proof. done. Qed.

Lemma map_vals_cons {V W} (f : V → W) k v m :
  map_vals f ((k, v) :: m) = (k, f v) :: map_vals f m.
Proof. done. Qed.

Lemma map_vals_get {V W} (f : V → W) k m : bt_get k (map_vals f m) = f <$> bt_get k m.
Proof.
  unfold map_vals. induction m as [|[k' v] m IH]; [done|]. csimpl.
  cbn [bt_get]. by destruct (cmp k k').
Qed.

Lemma map_vals_ok {V W} (f : V → W) m : bt_ok (map_vals f m) = bt_ok m.
Proof. apply bt_ok_fmap. Qed.

Lemma zlen_map_vals {V W} (f : V → W) m : zlen (map_vals f m) = zlen m.
Proof. unfold zlen, map_vals. by rewrite length_fmap. Qed.

Lemma map_vals_elem {V W} (f : V → W) k w m :
  (k, w) ∈ map_vals f m → ∃ v, w = f v ∧ (k, v) ∈ m.
Proof. intros ([k' v]&[= -> ->]&Hin)%list_elem_of_fmap. eauto. Qed.

Lemma map_vals_comp {U V W} (f : U → V) (g : V → W) m :
  map_vals g (map_vals f m) = map_vals (λ x, g (f x)) m.
Proof.
  induction m as [|[k v] m IH]; [done|]. by rewrite !map_vals_cons, IH.
Qed.

Lemma merge_map_vals {V W V' W' X} (f : V → V') (g : W → W')
    (L : Name → V' → option X) (R : Name → W' → option X) (B : Name → V' → W' → option X) ma mb :
  merge_maps L R B (map_vals f ma) (map_vals g mb)
  = merge_maps (λ k v, L k (f v)) (λ k w, R k (g w)) (λ k v w, B k (f v) (g w)) ma mb.
Proof.
  revert ma mb. merge_induction;
    [done|intros ka va ma IH|intros kb vb mb IH|intros ka va ma kb vb mb E IH
    |intros ka va ma kb vb mb E IH|intros ka va ma vb mb IH];
    rewrite ?map_vals_cons in *; rewrite ?map_vals_nil in *;
    [rewrite !merge_a_nil|rewrite !merge_nil_b|rewrite !merge_lt by done
    |rewrite !merge_gt by done|rewrite !merge_eq]; by rewrite IH.
Qed.

(** The walk over encoded children pushes what the merge of the maps holds. *)
Lemma merge_walk_maps {V W X} (ea : V → bytes) (eb : W → bytes) on_a on_b on_both
    (L : Name → V → option X) (R : Name → W → option X) (B : Name → V → W → option X) ma mb items :
  (∀ k c items, (k, c) ∈ ma → on_a k (ea c) items = run_ok (items ++ push k (L k c))) →
  (∀ k c items, (k, c) ∈ mb → on_b k (eb c) items = run_ok (items ++ push k (R k c))) →
  (∀ k c d items, (k, c) ∈ ma → (k, d) ∈ mb →
    on_both k (ea c) (eb d) items = run_ok (items ++ push k (B k c d))) →
  merge_walk on_a on_b on_both (map_vals ea ma) (map_vals eb mb) items
  = run_ok (items ++ merge_maps L R B ma mb).
Proof.
  revert ma mb items. merge_induction;
    [intros items _ _ _; by rewrite app_nil_r|..];
    [intros ka va ma IH items Ha Hb Hc|intros kb vb mb IH items Ha Hb Hc
    |intros ka va ma kb vb mb E IH items Ha Hb Hc
    |intros ka va ma kb vb mb E IH items Ha Hb Hc|intros ka va ma vb mb IH items Ha Hb Hc];
    [rewrite merge_a_nil|rewrite merge_nil_b|rewrite merge_lt by done
    |rewrite merge_gt by done|rewrite merge_eq];
    rewrite ?map_vals_cons, ?map_vals_nil; cbn [merge_walk]; rewrite ?E, ?cmp_refl;
    first [rewrite Ha by set_solver|rewrite Hb by set_solver|rewrite Hc by set_solver];
    cbn [run_bind]; unfold run_ok at 1; cbn [run_bind]; rewrite app_assoc;
    apply IH; set_solver.
Qed.
