(* ===== verification/DepotStreamCompose.v ===== *)
(** * Composing encoded layers.

    [compose_stream] of [chupa/depot/src/stream.rs] writes exactly the
    encoding of the composed layer, and [compose_collapses] decides exactly
    when a composed child is the identity. *)

From S2P Require Import Prelude.
From S2P Require Import BTreeMap.
From S2P Require Import DepotModel.
From S2P Require Import DepotCompose.
From S2P Require Import DepotDiff.
From S2P Require Import DepotLaws.
From S2P Require Import DepotCodec.
From S2P Require Import DepotStream.
From S2P Require Import DepotStreamParse.
From S2P Require Import DepotMerge.
Open Scope Z_scope.
Open Scope sarun_scope.

(** ** Hardening ignores what the encoding drops *)

Lemma canon_unfold n :
  is_tombstone n = false →
  canon n = MkNode Live (blob n) (opaque n) (attrs n) (anchor n)
              ((λ '(k, c), (k, canon c)) <$> children n).
Proof. by destruct n as [[] b o a an cs]. Qed.

Lemma canon_tombstone n : is_tombstone n = true → canon n = tombstone.
Proof. by destruct n as [[] b o a an cs]. Qed.

Lemma materializes_canon n : materializes (canon n) = materializes n.
Proof.
  induction n as [n IH] using node_ind'. rewrite (materializes_unfold n).
  destruct (is_tombstone n) eqn:Ht; [by rewrite canon_tombstone|].
  rewrite canon_unfold by done. cbn. f_equal.
  assert (Hcs : ∀ cs, (∀ k c, (k, c) ∈ cs → materializes (canon c) = materializes c) →
    existsb (λ '(_, c), materializes c) ((λ '(k, c), (k, canon c)) <$> cs)
    = existsb (λ '(_, c), materializes c) (cs : btmap Name Node)).
  { clear. induction cs as [|[k c] cs IHcs]; intros Hc; [done|]. csimpl.
    rewrite (Hc k c) by set_solver. rewrite IHcs; [done|]. intros k' c' ?. apply (Hc k'). set_solver. }
  by apply Hcs.
Qed.

Lemma put_all_canon {X} (f g : Name → Node → option X) cs acc :
  (∀ k c, (k, c) ∈ cs → f k (canon c) = g k c) →
  bt_put_all f ((λ '(k, c), (k, canon c)) <$> cs) acc = bt_put_all g cs acc.
Proof.
  unfold bt_put_all. revert acc. induction cs as [|[k c] cs IH]; intros acc Hc; [done|].
  csimpl. cbn [fold_left]. rewrite (Hc k c) by set_solver. apply IH.
  intros k' c' ?. apply (Hc k'). set_solver.
Qed.

Lemma harden_canon n : harden (canon n) = harden n.
Proof.
  induction n as [n IH] using node_ind'. rewrite (harden_unfold n), harden_unfold, materializes_canon.
  destruct (materializes n) eqn:Em; [|done]. cbn [negb].
  assert (Ht : is_tombstone n = false).
  { destruct (is_tombstone n) eqn:Ht; [|done]. by rewrite materializes_unfold, Ht in Em. }
  rewrite canon_unfold by done. cbn [blob attrs children]. f_equal.
  apply put_all_canon. intros k c Hin. by rewrite (IH k c Hin).
Qed.

(** ** The parts of the composed node *)

(** [bt_put_all] into an empty map is a one-sided merge. *)
Lemma put_all_merge {V W} (f : Name → V → option W) (m : btmap Name V) :
  bt_ok m = true →
  bt_put_all f m [] = merge_maps (λ _ (_ : V), None) f (λ _ _ _, None) [] m.
Proof.
  intros Hok. apply bt_ext; [by apply bt_ok_put_all|by apply merge_ok|].
  intros k. rewrite bt_get_put_all, merge_get by done. unfold merged_at. simpl.
  destruct (bt_get k m); [|done]. by case_match.
Qed.

Definition hard_kids (cs : btmap Name Node) : btmap Name Node :=
  merge_maps (λ _ (_ : Node), None) (λ _ c, live_harden c) (λ _ _ _, None) [] cs.

Section shape.
Context (a b : Node) (Tb : is_tombstone b = false) (Ab : is_backdrop (anchor b) = false)
  (Ta : is_tombstone a = false) (Ha : wf_node a = true) (Hb : wf_node b = true).

Lemma compose_children_opaque :
  opaque b = true → children (compose_node a b) = hard_kids (children b).
Proof.
  intros Ob. apply bt_ext; [by apply compose_children_ok|apply merge_ok; eauto with sarun|].
  intros k. rewrite compose_kid by eauto with sarun. unfold composed_kid. rewrite Ob.
  unfold hard_kids. rewrite merge_get by eauto with sarun. unfold merged_at. simpl.
  by destruct (bt_get k (children b)).
Qed.

Lemma compose_children_merge :
  opaque b = false →
  children (compose_node a b) =
  merge_maps (λ _ ac, Some ac)
    (λ _ bc, if opaque a then live_harden bc else drop_identity bc)
    (λ _ ac bc, drop_identity (compose_node ac bc)) (children a) (children b).
Proof.
  intros Ob. apply bt_ext; [by apply compose_children_ok|apply merge_ok; eauto with sarun|].
  intros k. rewrite compose_kid by eauto with sarun. unfold composed_kid. rewrite Ob.
  rewrite merge_get by eauto with sarun. done.
Qed.
End shape.

(** ** What the emitters write *)

Lemma emit_facets_head out c :
  is_tombstone c = false →
  put_varint (emit_facets out (blob c) (opaque c) (is_backdrop (anchor c)) (enc_attrs <$> attrs c))
    (zlen (children c))
  = out ++ enc_head c.
Proof.
  intros Ht. unfold enc_head. rewrite Ht, put_varint_app. unfold emit_facets, node_flags.
  replace (is_some (enc_attrs <$> attrs c)) with (is_some (attrs c)) by (by destruct (attrs c)).
  set (fl := if is_backdrop (anchor c) then _ else _).
  destruct (attrs c) as [a|], (blob c) as [|x|]; cbn [fmap option_fmap option_map enc_blob];
    try rewrite put_bytes_app; rewrite <- ?app_assoc; done.
Qed.

Lemma emit_raw_kids out cs : emit_raw out (enc_kids cs) = out ++ concat (enc_child <$> cs).
Proof.
  unfold emit_raw, enc_kids. revert out.
  induction cs as [|[k c] cs IH]; intros out; csimpl; [by rewrite app_nil_r|].
  cbn [fold_left]. rewrite IH, put_bytes_app. unfold enc_child at 2. cbn [fst snd].
  by rewrite <- !app_assoc.
Qed.

Lemma hardened_enc c :
  fits c → hardened (encode_node [] c) = run_ok (encode_node [] <$> live_harden c).
Proof.
  intros Hc. unfold hardened.
  pose proof (run_decode _ c (on_new c) Hc) as Hd. cbn [buf pos cur_new] in Hd.
  rewrite Hd. cbn.
  rewrite harden_canon. unfold live_harden. by destruct (is_tombstone (harden c)).
Qed.

Lemma harden_kids_enc cs acc :
  (∀ k c, (k, c) ∈ cs → fits c) →
  harden_kids (enc_kids cs) acc = run_ok (acc ++ enc_kids (hard_kids cs)).
Proof.
  unfold hard_kids, enc_kids. revert acc. induction cs as [|[k c] cs IH]; intros acc Hc.
  { by rewrite app_nil_r. }
  rewrite merge_nil_b. csimpl. cbn [harden_kids]. rewrite hardened_enc by (apply (Hc k); set_solver).
  cbn. rewrite IH by (intros k' c' ?; apply (Hc k'); set_solver).
  destruct (live_harden c); simpl; [|done]. by rewrite <- app_assoc.
Qed.

(** An encoded child is two zero bytes exactly when it is the identity. *)
Lemma enc_is_ID c : fits c → bytes_eqb (encode_node [] c) ID = is_identity c.
Proof.
  intros [Hwf Hz]. destruct (is_identity c) eqn:E.
  { apply is_identity_keep in E as ->. reflexivity. }
  apply bytes_eqb_ne. intros Henc.
  assert (Hc : canon c = keep).
  { pose proof (decode_node_encode [] c [] Hwf Hz) as Hd. rewrite app_nil_r, Henc in Hd.
    assert (Hk : decode_node ([] ++ ID) (length (@nil Z)) = Some (Ok (keep, 2%nat))) by reflexivity.
    congruence. }
  destruct (is_tombstone c) eqn:Ht; [by rewrite canon_tombstone in Hc|].
  rewrite canon_unfold in Hc by done. injection Hc as Hb Ho Ha Han Hcs.
  apply fmap_nil_inv in Hcs. unfold is_identity in E. by rewrite Ht, Hb, Ho, Ha, Han, Hcs in E.
Qed.

(** ** Collapsing *)

Lemma collapses_walk_enc col ma mb :
  (∀ k c, (k, c) ∈ mb → fits c) →
  (∀ k c d, (k, c) ∈ ma → (k, d) ∈ mb →
    col (encode_node [] c) (encode_node [] d) = run_ok (is_identity (compose_node c d))) →
  collapses_walk col (enc_kids ma) (enc_kids mb)
  = run_ok (is_nil (merge_maps (λ _ ac, Some ac) (λ _ bc, drop_identity bc)
                      (λ _ ac bc, drop_identity (compose_node ac bc)) ma mb)).
Proof.
  revert ma mb. merge_induction;
    [done|intros ka va ma IH Hf Hc|intros kb vb mb IH Hf Hc
    |intros ka va ma kb vb mb E IH Hf Hc
    |intros ka va ma kb vb mb E IH Hf Hc|intros ka va ma vb mb IH Hf Hc];
    [rewrite merge_a_nil; done|rewrite merge_nil_b|rewrite merge_lt by done
    |rewrite merge_gt by done|rewrite merge_eq];
    unfold enc_kids; csimpl; cbn [collapses_walk]; rewrite ?E, ?cmp_refl; [| done | |].
  - rewrite enc_is_ID by (apply (Hf kb); set_solver). unfold drop_identity at 1.
    destruct (is_identity vb); [|done]. apply IH; set_solver.
  - rewrite enc_is_ID by (apply (Hf kb); set_solver). unfold drop_identity at 1.
    destruct (is_identity vb); [|done]. apply IH; set_solver.
  - rewrite (Hc ka va vb) by set_solver. cbn [run_bind run_ok].
    replace (drop_identity (compose_node va vb)) with
      (if is_identity (compose_node va vb) then None else Some (compose_node va vb)) by done.
    destruct (is_identity (compose_node va vb)); [|done]. apply IH; set_solver.
Qed.

Lemma compose_identity a b :
  is_tombstone b = false → is_backdrop (anchor b) = false → is_tombstone a = false →
  is_identity (compose_node a b) =
  negb (negb (is_keep (blob b) && is_keep (blob a)) || is_some (attrs b) || is_some (attrs a)
        || opaque b || opaque a || is_backdrop (anchor a))
  && is_nil (children (compose_node a b)).
Proof.
  intros Tb Ab Ta. unfold is_identity. rewrite compose_live by done.
  destruct (compose_shape a b Tb Ab Ta) as (_&->&->&->&->).
  by destruct (blob b), (blob a), (attrs b), (attrs a), (opaque b), (opaque a), (anchor a).
Qed.

Lemma harden_not_identity n : is_identity (harden n) = false.
Proof. rewrite harden_unfold. by destruct (materializes n), (blob n). Qed.

(** The byte budget of a two-sided child. *)
Lemma pair_size a b k j c d :
  (k, c) ∈ kids a → (j, d) ∈ kids b → (esize c + esize d + 2 ≤ esize a + esize b)%nat.
Proof.
  intros Hc Hd. pose proof (enc_kid_size _ _ _ Hc). pose proof (enc_kid_size _ _ _ Hd).
  pose proof (enc_head_pos a). pose proof (enc_head_pos b). lia.
Qed.

Lemma compose_collapses_enc fuel a b :
  fits a → fits b → (esize a + esize b < fuel)%nat →
  compose_collapses fuel (encode_node [] a) (encode_node [] b)
  = run_ok (is_identity (compose_node a b)).
Proof.
  revert a b. induction fuel as [|f IH]; intros a b Ha Hb Hf; [lia|]. cbn [compose_collapses].
  rewrite (run_read_head _ b f (on_new b) Hb) by lia. cbn [run_bind run_ok].
  rewrite head_tombstone. destruct (is_tombstone b) eqn:Tb.
  { by rewrite compose_b_tombstone. }
  rewrite head_backdrop by done. destruct (is_backdrop (anchor b)) eqn:Ab.
  { rewrite compose_b_backdrop by done. unfold is_identity. rewrite Ab.
    by rewrite andb_false_r. }
  cbn [orb]. rewrite (run_read_head _ a f (on_new a) Ha) by lia. cbn [run_bind run_ok].
  rewrite head_tombstone. destruct (is_tombstone a) eqn:Ta.
  { rewrite compose_a_tombstone by done. by rewrite harden_not_identity. }
  rewrite compose_identity, !head_blob, !head_attrs, !head_opaque, head_backdrop by done.
  replace (is_some (enc_attrs <$> attrs a)) with (is_some (attrs a)) by (by destruct (attrs a)).
  replace (is_some (enc_attrs <$> attrs b)) with (is_some (attrs b)) by (by destruct (attrs b)).
  destruct (negb _ || _ || _ || opaque b || _ || _) eqn:Eg; [done|]. split_orb.
  rewrite (run_collect _ a f (on_new a) Ha) by lia. cbn [run_bind run_ok].
  rewrite (run_collect _ b f (on_new b) Hb) by lia. cbn [run_bind run_ok].
  destruct Ha as [Hwa Hza], Hb as [Hwb Hzb].
  rewrite collapses_walk_enc.
  - rewrite !kids_live by done. rewrite compose_children_merge by done.
    by replace (opaque a) with false by done.
  - intros k c Hin. by eapply (fits_kid b).
  - intros k c d Hc Hd. pose proof (pair_size _ _ _ _ _ _ Hc Hd).
    apply IH; [by eapply (fits_kid a)|by eapply (fits_kid b)|lia].
Qed.

(** ** Composing *)

Lemma after_tombstone r n : is_tombstone n = true → after_node r n = after_head r n.
Proof.
  intros Ht. unfold after_node, kids. rewrite Ht. unfold after_head, advance. cbn [fmap list_fmap concat length buf pos].
  by rewrite Nat.add_0_r.
Qed.

(** Emitting a source appends the encoding of a node. *)
Definition emits (compose2 : bytes → bytes → bytes → Run bytes) (src : CSrc) (c : Node) : Prop :=
  ∀ out, emit_src compose2 out src = run_ok (out ++ encode_node [] c).

(** The emission loop writes the children its items stand for. *)
Lemma emit_composed_enc compose2 items cs out :
  Forall2 (λ x y, x.1 = y.1 ∧ emits compose2 x.2 y.2) items cs →
  emit_composed compose2 items out = run_ok (out ++ concat (enc_child <$> cs)).
Proof.
  intros Hall. revert out. induction Hall as [|[k src] [k' c] items cs [Hk Hs] _ IH]; intros out.
  { by rewrite app_nil_r. }
  cbn [fst snd] in *. subst k'. cbn [emit_composed]. cbv zeta. rewrite Hs. cbn [run_bind run_ok].
  rewrite IH. csimpl. unfold enc_child at 2. cbn [fst snd]. rewrite put_bytes_app.
  by rewrite <- !app_assoc.
Qed.

Definition citem_a (k : Name) (c : Node) : option CSrc := Some (CopyA (encode_node [] c)).
Definition citem_b (a_opaque : bool) (k : Name) (c : Node) : option CSrc :=
  if a_opaque then (λ h, Owned (encode_node [] h)) <$> live_harden c
  else (λ h, CopyB (encode_node [] h)) <$> drop_identity c.
Definition citem_both (k : Name) (c d : Node) : option CSrc :=
  (λ _, Both (encode_node [] c) (encode_node [] d)) <$> drop_identity (compose_node c d).

Lemma push_compose_b_only_enc items k c a_opaque :
  fits c →
  push_compose_b_only items k (encode_node [] c) a_opaque
  = run_ok (items ++ push k (citem_b a_opaque k c)).
Proof.
  intros Hc. unfold push_compose_b_only, citem_b. destruct a_opaque.
  - rewrite hardened_enc by done. cbn. destruct (live_harden c); cbn; by rewrite ?app_nil_r.
  - rewrite enc_is_ID by done. unfold drop_identity.
    destruct (is_identity c); cbn; by rewrite ?app_nil_r.
Qed.

(** Finishing a live node: facets, count, children. *)
Lemma finish_live out c :
  is_tombstone c = false →
  put_varint (emit_facets out (blob c) (opaque c) (is_backdrop (anchor c)) (enc_attrs <$> attrs c))
    (zlen (children c)) ++ concat (enc_child <$> children c)
  = out ++ encode_node [] c.
Proof.
  intros Ht. rewrite emit_facets_head by done. rewrite (encode_split c), kids_live by done.
  by rewrite <- app_assoc.
Qed.

(** The recursive call of the emission loop. *)
Definition compose2 (fuel : nat) (asub bsub out : bytes) : Run bytes :=
  let! (out, _, _) := stream_compose_node fuel (cur_new asub) (cur_new bsub) out in run_ok out.

Section live_nodes.
Context (f : nat) (a b : Node).
Context (Tb : is_tombstone b = false) (Ab : is_backdrop (anchor b) = false)
  (Ta : is_tombstone a = false) (Ha : fits a) (Hb : fits b) (Hf : (esize a + esize b < S f)%nat).
Hypothesis IH : ∀ k c d, (k, c) ∈ kids a → (k, d) ∈ kids b →
  emits (compose2 f) (Both (encode_node [] c) (encode_node [] d)) (compose_node c d).

(** The merge of two live nodes decides every child's source. *)
Lemma compose_items :
  merge_walk
    (λ an asub items, run_ok (items ++ [(an, CopyA asub)]))
    (λ bn bsub items, push_compose_b_only items bn bsub (opaque a))
    (λ an asub bsub items,
      let! c := compose_collapses f asub bsub in
      run_ok (if negb c then items ++ [(an, Both asub bsub)] else items))
    (enc_kids (kids a)) (enc_kids (kids b)) []
  = run_ok (merge_maps citem_a (citem_b (opaque a)) citem_both (children a) (children b)).
Proof.
  rewrite (merge_walk_maps (encode_node []) (encode_node []) _ _ _
    citem_a (citem_b (opaque a)) citem_both).
  - by rewrite !kids_live.
  - intros k c items _. done.
  - intros k c items Hin. apply push_compose_b_only_enc. by eapply (fits_kid b).
  - intros k c d items Hc Hd. pose proof (pair_size _ _ _ _ _ _ Hc Hd).
    rewrite compose_collapses_enc; [|by eapply (fits_kid a)|by eapply (fits_kid b)|lia].
    cbn [run_bind run_ok]. unfold citem_both, drop_identity.
    destruct (is_identity (compose_node c d)); cbn; by rewrite ?app_nil_r.
Qed.

(** Those sources stand for the children of the composed node. *)
Lemma compose_items_emit :
  opaque b = false →
  Forall2 (λ x y, x.1 = y.1 ∧ emits (compose2 f) x.2 y.2)
    (merge_maps citem_a (citem_b (opaque a)) citem_both (children a) (children b))
    (children (compose_node a b)).
Proof.
  intros Op. rewrite compose_children_merge by (done || apply Ha || apply Hb).
  rewrite <- !kids_live by done. apply merge_related.
  - intros k c _. constructor. done.
  - intros k c _. unfold citem_b. destruct (opaque a).
    + destruct (live_harden c); constructor. done.
    + destruct (drop_identity c); constructor. done.
  - intros k c d Hc Hd. unfold citem_both, drop_identity.
    destruct (is_identity (compose_node c d)); constructor. by eapply IH.
Qed.

Lemma compose_attrs_or :
  match enc_attrs <$> attrs b with Some x => Some x | None => enc_attrs <$> attrs a end
  = enc_attrs <$> attrs (compose_node a b).
Proof. destruct (compose_shape a b Tb Ab Ta) as (_&_&_&->&_). by destruct (attrs b). Qed.
End live_nodes.

Lemma stream_compose_enc fuel a b ra rb out :
  on_node ra a → on_node rb b → fits a → fits b → (esize a + esize b < fuel)%nat →
  stream_compose_node fuel ra rb out
  = run_ok (out ++ encode_node [] (compose_node a b), after_node ra a, after_node rb b).
Proof.
  revert a b ra rb out. induction fuel as [|f IH]; intros a b ra rb out Oa Ob Ha Hb Hf; [lia|].
  cbn [stream_compose_node]. cbv zeta.
  rewrite (run_read_head _ b f Ob Hb) by lia. cbn [run_bind run_ok].
  rewrite head_tombstone. destruct (is_tombstone b) eqn:Tb.
  { rewrite (run_skip_node _ a f Oa Ha) by lia. cbn [run_bind run_ok].
    by rewrite compose_b_tombstone, (after_tombstone rb b). }
  rewrite head_backdrop by done. destruct (is_backdrop (anchor b)) eqn:Ab.
  { rewrite (run_skip_kids _ b f Ob Hb) by lia. cbn [run_bind run_ok].
    rewrite (run_skip_node _ a f Oa Ha) by lia. cbn [run_bind run_ok].
    by rewrite (run_slice rb b Ob), compose_b_backdrop. }
  rewrite (run_read_head _ a f Oa Ha) by lia. cbn [run_bind run_ok].
  rewrite head_tombstone. destruct (is_tombstone a) eqn:Ta.
  { rewrite (run_skip_kids _ b f Ob Hb) by lia. cbn [run_bind run_ok].
    change (buf (after_node rb b)) with (buf rb).
    rewrite (run_decode rb b Ob Hb). cbn [run_bind run_ok].
    rewrite harden_canon, encode_node_app.
    by rewrite compose_a_tombstone, (after_tombstone ra a). }
  rewrite (run_collect _ a f Oa Ha) by lia. cbn [run_bind run_ok].
  rewrite (run_collect _ b f Ob Hb) by lia. cbn [run_bind run_ok].
  rewrite !head_blob, !head_attrs, !head_opaque, head_backdrop, compose_attrs_or by done.
  destruct (compose_shape a b Tb Ab Ta) as (_&Hbl&Hop&_&Han). rewrite <- Hbl, <- Han.
  pose proof (compose_live a b Tb Ab Ta) as Tc. destruct (opaque b) eqn:Op.
  - rewrite (harden_kids_enc (kids b) []) by (intros k c Hin; by eapply (fits_kid b)).
    cbn [run_bind run_ok app]. rewrite kids_live, <- (compose_children_opaque a b)
      by (done || apply Ha || apply Hb).
    rewrite emit_raw_kids. unfold enc_kids at 1. replace (zlen (_ <$> _)) with
      (zlen (children (compose_node a b))) by (unfold zlen; by rewrite length_fmap).
    change true with (true || opaque a). rewrite <- Hop. by rewrite finish_live.
  - rewrite (compose_items f a b) by done. cbn [run_bind run_ok].
    assert (Hem := λ IH', compose_items_emit f a b Tb Ab Ta Ha Hb IH' Op).
    specialize (Hem ltac:(
      intros k c d Hc Hd o; pose proof (pair_size _ _ _ _ _ _ Hc Hd); simpl; unfold compose2;
      rewrite (IH c d);
      [done|apply on_new|apply on_new|by eapply (fits_kid a)|by eapply (fits_kid b)|lia])).
    rewrite (emit_composed_enc (compose2 f) _ _ _ Hem). cbn [run_bind run_ok].
    replace (zlen (merge_maps _ _ _ _ _)) with (zlen (children (compose_node a b))) by
      (unfold zlen; by rewrite (Forall2_length _ _ _ Hem)).
    replace (opaque a) with (opaque (compose_node a b)) by (by rewrite Hop).
    by rewrite finish_live.
Qed.

Lemma compose_stream_app a b out :
  fits a → fits b →
  compose_stream (encode_node [] a) (encode_node [] b) out
  = run_ok (out ++ encode_node [] (compose_node a b)).
Proof.
  intros Ha Hb. unfold compose_stream.
  rewrite (stream_compose_enc _ a b) by (try apply on_new; done || lia). done.
Qed.
