(* ===== verification/DepotStreamDiff.v ===== *)
(** * Differences of encoded full states.

    A full state is the record [diff(None, view)] of a view.  [diff_stream]
    and [diff_stream_holes] of [chupa/depot/src/stream.rs] write, from two
    full-state records, the encoding of the difference of their views, with
    removed names marked by tombstones or by holes. *)

From S2P Require Import Prelude.
From S2P Require Import BTreeMap.
From S2P Require Import DepotModel.
From S2P Require Import DepotCompose.
From S2P Require Import DepotDiff.
From S2P Require Import DepotLaws.
From S2P Require Import DepotCodec.
From S2P Require Import DepotStream.
From S2P Require Import DepotStreamParse.
From S2P Require Import DepotMerge.
From S2P Require Import DepotStreamCompose.
Open Scope Z_scope.
Open Scope sarun_scope.

Abbreviation vdiff := (diff_node no_sharing no_sharing) (only parsing).

Lemma no_sharing_sound {A} (x y : A) : no_sharing x y = true → x = y.
Proof. done. Qed.

(** ** Full states *)

Definition fs_blob (v : View) : BlobOp :=
  match v_blob v with Some b => SetBlob b | None => Keep end.
Definition fs_attrs (v : View) : option Attrs :=
  if is_nil (v_attrs v) then if is_empty_view v then Some [] else None else Some (v_attrs v).

Lemma full_state_apply v : wf_view v = true → apply_node None (full_state v) = Some v.
Proof. intros Hv. by apply (diff_apply no_sharing no_sharing no_sharing_sound no_sharing_sound None). Qed.

Lemma full_state_wf v : wf_view v = true → wf_node (full_state v) = true.
Proof. intros Hv. by apply diff_node_wf. Qed.

Lemma full_state_not_identity v : wf_view v = true → is_identity (full_state v) = false.
Proof.
  intros Hv. destruct (is_identity (full_state v)) eqn:E; [|done].
  apply is_identity_keep in E. pose proof (full_state_apply v Hv) as Ha. by rewrite E in Ha.
Qed.

Lemma full_state_shape v :
  wf_view v = true →
  full_state v = MkNode Live (fs_blob v) false (fs_attrs v) Lower (map_vals full_state (v_children v)).
Proof.
  intros Hv. pose proof Hv as (_&Hok&Hall)%wf_view_unfold.
  assert (Hk : diff_kids no_sharing no_sharing None v = map_vals full_state (v_children v)).
  { apply bt_ext; [apply diff_kids_ok|by rewrite map_vals_ok|]. intros k.
    rewrite diff_kids_get, map_vals_get by done. unfold okid. simpl.
    destruct (bt_get k (v_children v)) as [c|] eqn:E; [|done]. simpl.
    unfold drop_identity. fold (full_state c).
    rewrite full_state_not_identity; [done|]. by eapply Hall, bt_get_elem. }
  unfold full_state at 1. rewrite diff_node_unfold. cbv zeta. rewrite Hk.
  unfold needs_witness, asserts_self, diff_blob, diff_attrs, fs_blob, fs_attrs, is_empty_view.
  simpl. by destruct (v_blob v), (v_attrs v), (v_children v).
Qed.

Lemma full_state_live v : wf_view v = true → is_tombstone (full_state v) = false.
Proof. intros Hv. by rewrite full_state_shape. Qed.

Lemma full_state_kids v : wf_view v = true → kids (full_state v) = map_vals full_state (v_children v).
Proof. intros Hv. rewrite kids_live by by apply full_state_live. by rewrite full_state_shape. Qed.

Lemma full_state_canon v : wf_view v = true → canon (full_state v) = full_state v.
Proof.
  induction v as [v IH] using view_ind'; intros Hv.
  rewrite canon_unfold by by apply full_state_live. rewrite full_state_shape by done. simpl. f_equal.
  apply canon_kids_id. intros k c (w&->&Hin)%map_vals_elem. apply (IH k w Hin).
  apply wf_view_unfold in Hv as (_&_&Hall). eauto.
Qed.

(** A view whose full-state record the codec can carry. *)
Definition recordable (v : View) : Prop :=
  wf_view v = true ∧ zlen (encode_node [] (full_state v)) < u64_limit.

Lemma recordable_fits v : recordable v → fits (full_state v).
Proof. intros [Hv Hz]. split; [by apply full_state_wf|done]. Qed.

Lemma recordable_kid v k c : recordable v → (k, c) ∈ v_children v → recordable c.
Proof.
  intros Hv Hin. pose proof Hv as [(_&_&Hall)%wf_view_unfold _].
  pose proof (recordable_fits v Hv) as Hf. split; [eauto|].
  apply (fits_kid _ k (full_state c)) in Hf; [by destruct Hf as [[_ ?] _]|].
  rewrite full_state_kids by apply Hv. apply list_elem_of_fmap. by exists (k, c).
Qed.

(** Equal records, equal views: the comparison of byte ranges is exact. *)
Lemma full_state_inj v w :
  recordable v → recordable w →
  encode_node [] (full_state v) = encode_node [] (full_state w) → v = w.
Proof.
  intros [Hv Zv] [Hw Zw] He.
  pose proof (decode_node_encode [] _ [] (full_state_wf v Hv) Zv) as Dv.
  pose proof (decode_node_encode [] _ [] (full_state_wf w Hw) Zw) as Dw.
  rewrite He in Dv. rewrite !full_state_canon in * by done.
  pose proof (full_state_apply v Hv) as Av. pose proof (full_state_apply w Hw) as Aw.
  congruence.
Qed.

Lemma enc_full_eqb v w :
  recordable v → recordable w →
  bytes_eqb (encode_node [] (full_state v)) (encode_node [] (full_state w))
  = is_identity (vdiff (Some v) w).
Proof.
  intros Hv Hw. destruct (decide (encode_node [] (full_state v) = encode_node [] (full_state w))) as [E|E].
  - rewrite E, bytes_eqb_refl. apply full_state_inj in E as ->; [|done..].
    rewrite diff_node_same; [done|apply no_sharing_sound..|apply Hw].
  - rewrite bytes_eqb_ne by done. symmetry. apply not_true_is_false. intros Hid. apply E.
    apply is_identity_keep in Hid.
    pose proof (diff_apply no_sharing no_sharing no_sharing_sound no_sharing_sound
      (Some v) w ltac:(apply Hv) ltac:(apply Hw)) as Hap.
    rewrite Hid, apply_keep in Hap by apply Hv. congruence.
Qed.

(** ** Attribute blocks *)

Lemma enc_attrs_nil : enc_attrs [] = [0].
Proof. reflexivity. Qed.

Lemma enc_attrs_cons a : a ≠ [] → enc_attrs a ≠ [0].
Proof.
  intros Ha Hz. apply (f_equal length) in Hz. unfold enc_attrs in Hz. rewrite length_app in Hz.
  pose proof (put_varint_pos (zlen a)).
  pose proof (concat_length_bound enc_attr a (λ x _, enc_attr_pos x)).
  destruct a; [done|]. cbn [length] in *. lia.
Qed.

Lemma enc_attrs_inj a b :
  bt_ok a = true → bt_ok b = true → zlen (enc_attrs a) < u64_limit →
  zlen (enc_attrs b) < u64_limit → enc_attrs a = enc_attrs b → a = b.
Proof.
  intros Ha Hb Za Zb He.
  assert (Hr : ∀ x : bytes, unread (MkReader x 0) = x ++ []) by (intros; by rewrite app_nil_r).
  pose proof (parses_attrs (length (enc_attrs a)) a ltac:(lia) Ha Za _ [] (Hr _)) as Pa.
  pose proof (parses_attrs (length (enc_attrs b)) b ltac:(lia) Hb Zb _ [] (Hr _)) as Pb.
  rewrite He in Pa. congruence.
Qed.

(** The attributes of a view as the normalized block its record carries. *)
Definition attrs_block (v : View) : option bytes :=
  if is_nil (v_attrs v) then None else Some (enc_attrs (v_attrs v)).

Lemma norm_attrs_block a :
  norm_attrs (Some (enc_attrs a)) = if is_nil a then None else Some (enc_attrs a).
Proof.
  destruct a as [|x a]; [done|]. simpl. pose proof (enc_attrs_cons (x :: a) ltac:(done)) as Hne.
  unfold norm_attrs. destruct (enc_attrs (x :: a)) as [|z [|]]; [done|by destruct z|by destruct z].
Qed.

Lemma norm_full_state v : norm_attrs (enc_attrs <$> fs_attrs v) = attrs_block v.
Proof.
  unfold fs_attrs, attrs_block. destruct (v_attrs v) as [|x a] eqn:E; cbn [is_nil].
  - by destruct (is_empty_view v).
  - apply (norm_attrs_block (x :: a)).
Qed.

Lemma set_payload_full v : set_payload (fs_blob v) = v_blob v.
Proof. unfold fs_blob. by destruct (v_blob v). Qed.

Lemma attrs_size v : recordable v → zlen (enc_attrs (v_attrs v)) < u64_limit.
Proof.
  intros [Hv Hz]. rewrite full_state_shape in Hz by done.
  rewrite encode_live in Hz by done. cbn [attrs] in Hz. unfold fs_attrs in Hz.
  rewrite !zlen_app in Hz. unfold zlen in *.
  destruct (v_attrs v) as [|x a]; [done|]. simpl is_nil in Hz. cbv iota in Hz. lia.
Qed.

Lemma attrs_block_eq v w :
  recordable v → recordable w → attrs_block v = attrs_block w ↔ v_attrs v = v_attrs w.
Proof.
  intros Hv Hw. unfold attrs_block. split; [|by intros ->].
  pose proof (attrs_size v Hv). pose proof (attrs_size w Hw).
  destruct Hv as [(Hva&_&_)%wf_view_unfold _], Hw as [(Hwa&_&_)%wf_view_unfold _].
  destruct (v_attrs v) as [|x a] eqn:Ev, (v_attrs w) as [|y b] eqn:Ew; simpl; try done.
  intros [= He]. by apply enc_attrs_inj.
Qed.

(** ** Marked differences *)

(** A delta whose tombstones are replaced by the removal marker [rm]. *)
Fixpoint mark (rm n : Node) : Node :=
  if is_tombstone n then rm
  else MkNode (presence n) (blob n) (opaque n) (attrs n) (anchor n)
         ((λ '(k, c), (k, mark rm c)) <$> children n).

Lemma mark_live rm n :
  is_tombstone n = false →
  mark rm n = MkNode (presence n) (blob n) (opaque n) (attrs n) (anchor n) (map_vals (mark rm) (children n)).
Proof. intros Ht. destruct n. cbn [mark]. by rewrite Ht. Qed.

Lemma mark_tombstone rm n : is_tombstone n = true → mark rm n = rm.
Proof. intros Ht. destruct n. cbn [mark]. by rewrite Ht. Qed.

Lemma mark_full_state rm v : wf_view v = true → mark rm (full_state v) = full_state v.
Proof.
  induction v as [v IH] using view_ind'; intros Hv.
  rewrite mark_live by by apply full_state_live. rewrite full_state_shape by done. simpl. f_equal.
  apply wf_view_unfold in Hv as (_&Hok&Hall).
  apply bt_ext; [by rewrite !map_vals_ok|by rewrite map_vals_ok|].
  intros k. rewrite !map_vals_get. destruct (bt_get k (v_children v)) as [c|] eqn:E; [|done].
  simpl. apply bt_get_elem in E. by rewrite (IH _ _ E) by eauto.
Qed.

(** The marked difference of two views. *)
Definition mdiff (rm : Node) (v w : View) : Node := mark rm (vdiff (Some v) w).

Section mdiff.
Context (rm : Node) (v w : View) (Hv : wf_view v = true) (Hw : wf_view w = true).

Lemma mdiff_live : is_tombstone (mdiff rm v w) = false.
Proof.
  unfold mdiff. pose proof (diff_node_live no_sharing no_sharing (Some v) w) as Ht.
  rewrite mark_live by done. unfold is_tombstone. simpl. by unfold is_tombstone in Ht.
Qed.

Lemma mdiff_facets :
  blob (mdiff rm v w) = diff_blob no_sharing (Some v) w ∧ opaque (mdiff rm v w) = false ∧
  anchor (mdiff rm v w) = Lower ∧ attrs (mdiff rm v w) = attrs (vdiff (Some v) w).
Proof.
  unfold mdiff. destruct (diff_node_fields no_sharing no_sharing (Some v) w) as (_&Hb&Ho&Ha&_).
  rewrite mark_live by apply diff_node_live. simpl. by rewrite Hb, Ho, Ha.
Qed.

Lemma mdiff_children :
  children (mdiff rm v w) =
  merge_maps (λ _ _, Some rm) (λ _ d, Some (full_state d))
    (λ _ c d, if is_identity (vdiff (Some c) d) then None else Some (mdiff rm c d))
    (v_children v) (v_children w).
Proof.
  pose proof Hv as (_&Hokv&Hallv)%wf_view_unfold. pose proof Hw as (_&Hokw&Hallw)%wf_view_unfold.
  destruct (diff_node_fields no_sharing no_sharing (Some v) w) as (_&_&_&_&Hc).
  unfold mdiff at 1. rewrite mark_live by apply diff_node_live. cbn [children]. rewrite Hc.
  apply bt_ext; [rewrite map_vals_ok; apply diff_kids_ok|by apply merge_ok|].
  intros k. rewrite map_vals_get, diff_kids_get, merge_get by done.
  unfold merged_at, okid. cbn [ochildren].
  destruct (bt_get k (v_children v)) as [c|], (bt_get k (v_children w)) as [d|] eqn:Ed; simpl; try done.
  - unfold drop_identity. by destruct (is_identity (vdiff (Some c) d)).
  - fold (full_state d). apply bt_get_elem in Ed. unfold drop_identity.
    rewrite full_state_not_identity by eauto. simpl. by rewrite mark_full_state by eauto.
Qed.
End mdiff.

(** ** The streaming difference *)

Section diff_node_facets.
Context (v w : View) (Hv : recordable v) (Hw : recordable w).

Lemma diff_blob_payload :
  match v_blob v, v_blob w with
  | Some o, Some n => if bytes_eqb o n then Keep else SetBlob n
  | None, Some n => SetBlob n
  | Some _, None => Remove
  | None, None => Keep
  end = diff_blob no_sharing (Some v) w.
Proof. unfold diff_blob. simpl. by destruct (v_blob v), (v_blob w). Qed.

Lemma diff_attrs_raw :
  let dblob := diff_blob no_sharing (Some v) w in
  let dattrs := if bool_decide (attrs_block v = attrs_block w) then DInherit
                else match attrs_block w with Some raw => DSet raw | None => DEmpty end in
  let asserts := negb (is_keep dblob) || negb (match dattrs with DInherit => true | _ => false end) in
  match (if is_empty_view w && negb asserts && negb (is_empty_view v) then DEmpty else dattrs) with
  | DInherit => None | DSet raw => Some raw | DEmpty => Some [0]
  end = enc_attrs <$> attrs (vdiff (Some v) w).
Proof.
  cbv zeta. rewrite diff_node_unfold. cbv zeta. unfold needs_witness, asserts_self.
  cbn [blob attrs opaque empty_present]. rewrite orb_false_r.
  assert (Hd : diff_attrs (Some v) w = if bool_decide (attrs_block v = attrs_block w) then None
               else Some (v_attrs w)).
  { unfold diff_attrs, attrs_eqb. pose proof (attrs_block_eq v w Hv Hw).
    by repeat case_bool_decide; naive_solver. }
  rewrite Hd. destruct (bool_decide (attrs_block v = attrs_block w)).
  - simpl. rewrite orb_false_r. destruct (is_empty_view w) eqn:Ew; simpl; [|done].
    assert (Hn : v_attrs w = []).
    { unfold is_empty_view in Ew. split_andb. by destruct (v_attrs w). }
    rewrite Hn. destruct (negb _ && negb _); done.
  - unfold attrs_block. destruct (v_attrs w) as [|x a]; simpl;
      rewrite orb_true_r; by rewrite andb_false_r.
Qed.

Lemma empty_view_block :
  negb (is_some (v_blob v)) && negb (is_some (attrs_block v)) && is_nil (enc_kids (kids (full_state v)))
  = is_empty_view v.
Proof.
  rewrite full_state_kids by apply Hv. unfold is_empty_view, attrs_block.
  by destruct (v_blob v), (v_attrs v), (v_children v) as [|[]].
Qed.
End diff_node_facets.

(** The recursive call of the emission loop. *)
Definition diff2 (fuel : nat) (remove asub bsub out : bytes) : Run bytes :=
  let! (out, _, _) := stream_diff_node fuel (cur_new asub) (cur_new bsub) remove out in run_ok out.

Lemma emit_diffed_enc d2 rm items cs out :
  Forall2 (λ x y, x.1 = y.1 ∧ ∀ o, emit_dsrc d2 (encode_node [] rm) o x.2
                                  = run_ok (o ++ encode_node [] y.2)) items cs →
  emit_diffed d2 (encode_node [] rm) items out = run_ok (out ++ concat (enc_child <$> cs)).
Proof.
  intros Hall. revert out. induction Hall as [|[k src] [k' c] items cs [Hk Hs] _ IH]; intros out.
  { by rewrite app_nil_r. }
  cbn [fst snd] in *. subst k'. cbn [emit_diffed]. rewrite Hs. cbn [run_bind run_ok].
  rewrite IH. csimpl. unfold enc_child at 2. cbn [fst snd]. rewrite put_bytes_app.
  by rewrite <- !app_assoc.
Qed.

Definition ditem_both (c d : View) : option DSrc :=
  if is_identity (vdiff (Some c) d) then None
  else Some (DBoth (encode_node [] (full_state c)) (encode_node [] (full_state d))).

Lemma diff_items v w :
  recordable v → recordable w →
  merge_walk
    (λ an asub items, run_ok (items ++ [(an, DRemove)]))
    (λ bn bsub items, run_ok (items ++ [(bn, DCopyB bsub)]))
    (λ an asub bsub items,
      run_ok (if negb (bytes_eqb asub bsub) then items ++ [(an, DBoth asub bsub)] else items))
    (enc_kids (kids (full_state v))) (enc_kids (kids (full_state w))) []
  = run_ok (merge_maps (λ _ _, Some DRemove) (λ _ d, Some (DCopyB (encode_node [] (full_state d))))
              (λ _ c d, ditem_both c d) (v_children v) (v_children w)).
Proof.
  intros Hv Hw. rewrite !full_state_kids by (apply Hv || apply Hw). unfold enc_kids.
  fold (map_vals (encode_node []) (map_vals full_state (v_children v))).
  fold (map_vals (encode_node []) (map_vals full_state (v_children w))). rewrite !map_vals_comp.
  rewrite (merge_walk_maps _ _ _ _ _ (λ _ _, Some DRemove)
    (λ _ d, Some (DCopyB (encode_node [] (full_state d)))) (λ _ c d, ditem_both c d)); [done..|].
  intros k c d items Hc Hd. unfold ditem_both.
  rewrite enc_full_eqb by first [by eapply (recordable_kid v)|by eapply (recordable_kid w)].
  destruct (is_identity _); simpl; by rewrite ?app_nil_r.
Qed.

Lemma stream_diff_enc fuel rm v w rv rw out :
  on_node rv (full_state v) → on_node rw (full_state w) → recordable v → recordable w →
  (esize (full_state v) + esize (full_state w) < fuel)%nat →
  stream_diff_node fuel rv rw (encode_node [] rm) out
  = run_ok (out ++ encode_node [] (mdiff rm v w),
            after_node rv (full_state v), after_node rw (full_state w)).
Proof.
  revert v w rv rw out. induction fuel as [|f IH]; intros v w rv rw out Ov Ow Hv Hw Hf; [lia|].
  pose proof (recordable_fits v Hv) as Fv. pose proof (recordable_fits w Hw) as Fw.
  pose proof Hv as [Wv _]. pose proof Hw as [Ww _].
  cbn [stream_diff_node]. cbv zeta.
  rewrite (run_read_head _ _ f Ov Fv) by lia. cbn [run_bind run_ok].
  rewrite (run_read_head _ _ f Ow Fw) by lia. cbn [run_bind run_ok].
  rewrite (run_collect _ _ f Ov Fv) by lia. cbn [run_bind run_ok].
  rewrite (run_collect _ _ f Ow Fw) by lia. cbn [run_bind run_ok].
  rewrite diff_items by done. cbn [run_bind run_ok].
  rewrite !head_blob, !head_attrs by by apply full_state_live.
  assert (Hsh : ∀ u, wf_view u = true → blob (full_state u) = fs_blob u ∧ attrs (full_state u) = fs_attrs u).
  { intros u Hu. by rewrite full_state_shape. }
  destruct (Hsh v Wv) as [-> ->], (Hsh w Ww) as [-> ->]. clear Hsh.
  rewrite !norm_full_state, !set_payload_full, diff_blob_payload.
  rewrite !empty_view_block by done. rewrite (diff_attrs_raw v w) by done.
  destruct (mdiff_facets rm v w) as (Hb&Ho&Ha&Hat). rewrite <- Hb, <- Hat.
  set (items := merge_maps _ _ _ _ _).
  assert (Hitems : Forall2 (λ x y, x.1 = y.1 ∧ ∀ o,
    emit_dsrc (diff2 f (encode_node [] rm)) (encode_node [] rm) o x.2
    = run_ok (o ++ encode_node [] y.2)) items (children (mdiff rm v w))).
  { rewrite mdiff_children by done. subst items.
    apply (merge_related (λ x y, ∀ o,
      emit_dsrc (diff2 f (encode_node [] rm)) (encode_node [] rm) o x
      = run_ok (o ++ encode_node [] y))); [constructor; done|constructor; done|].
    intros k c d Hc Hd. unfold ditem_both. destruct (is_identity _); constructor. intros o.
    assert (Kc : (k, full_state c) ∈ kids (full_state v)).
    { rewrite full_state_kids by done. apply list_elem_of_fmap. by exists (k, c). }
    assert (Kd : (k, full_state d) ∈ kids (full_state w)).
    { rewrite full_state_kids by done. apply list_elem_of_fmap. by exists (k, d). }
    pose proof (pair_size _ _ _ _ _ _ Kc Kd). cbn [emit_dsrc]. unfold diff2.
    rewrite (IH c d); [done|apply on_new|apply on_new|by eapply (recordable_kid v)|by eapply (recordable_kid w)|lia]. }
  rewrite (emit_diffed_enc (diff2 f (encode_node [] rm)) rm _ _ _ Hitems). cbn [run_bind run_ok].
  replace (zlen items) with (zlen (children (mdiff rm v w))) by
    (unfold zlen; by rewrite (Forall2_length _ _ _ Hitems)).
  rewrite <- finish_live by apply mdiff_live. by rewrite Ho, Ha.
Qed.

Lemma diff_marked_enc rm v w out :
  recordable v → recordable w →
  diff_marked (encode_node [] rm) (encode_node [] (full_state v)) (encode_node [] (full_state w)) out
  = run_ok (out ++ encode_node [] (mdiff rm v w)).
Proof.
  intros Hv Hw. unfold diff_marked.
  rewrite (stream_diff_enc _ rm v w) by (try apply on_new; done || lia). done.
Qed.
