(* ===== verification/DepotStreamOverlay.v ===== *)
(** * Overlaying an encoded delta on an encoded full state.

    [overlay_full] of [chupa/depot/src/stream.rs] writes the full state of
    what the delta, composed over the recorded view, shows over an empty
    backdrop. *)

From S2P Require Import Prelude.
From S2P Require Import BTreeMap.
From S2P Require Import DepotModel.
From S2P Require Import DepotCompose.
From S2P Require Import DepotDiff.
From S2P Require Import DepotLaws.
From S2P Require Import DepotCodec.
From S2P Require Import DepotStream.
From S2P Require Import DepotStreamParse.
From S2P Require Import DepotMerge.
From S2P Require Import DepotStreamCompose.
From S2P Require Import DepotStreamDiff.
Open Scope Z_scope.
Open Scope sarun_scope.

(** ** What the overlaid node shows *)

(** The reference: the delta composed over the full state, over nothing. *)
Definition overlaid (v : View) (d : Node) : option View :=
  apply_node None (compose_node (full_state v) d).

Lemma apply_canon n : apply_node None (canon n) = apply_node None n.
Proof.
  induction n as [n IH] using node_ind'.
  destruct (is_tombstone n) eqn:Ht; [by rewrite canon_tombstone, (apply_tombstone None n)|].
  rewrite (apply_node_unfold None n), apply_node_unfold, Ht, canon_unfold by done. cbn [is_tombstone presence].
  cbv zeta. cbn [blob attrs opaque children].
  assert (Hn : ∀ o : bool, (if o then None else v_children <$> (None : option View)) = None) by by intros [].
  rewrite !Hn. rewrite (put_all_canon _
    (λ name c, apply_node (None ≫= bt_get name) c)) by (intros k c Hin; by apply (IH k c)).
  done.
Qed.

Lemma positive_over_nothing_enc c :
  fits c →
  positive_over_nothing (encode_node [] c)
  = run_ok ((λ u, encode_node [] (full_state u)) <$> apply_node None c).
Proof.
  intros Hc. unfold positive_over_nothing.
  pose proof (run_decode _ c (on_new c) Hc) as Hd. cbn [buf pos cur_new] in Hd.
  rewrite Hd. cbn [run_bind run_ok]. unfold apply. cbn [root]. rewrite apply_canon.
  by destruct (apply_node None c).
Qed.

Lemma positive_live v : wf_view v = true → opaque (full_state v) = false.
Proof. intros Hv. by rewrite full_state_shape. Qed.

Section overlaid.
Context (v : View) (d : Node) (Hv : wf_view v = true) (Hd : wf_node d = true)
  (Td : is_tombstone d = false) (Ad : is_backdrop (anchor d) = false).

Let c := compose_node (full_state v) d.

Lemma overlaid_live : is_tombstone c = false.
Proof. apply compose_live; [done|done|by apply full_state_live]. Qed.

Lemma overlaid_ok : bt_ok (children c) = true.
Proof. apply wf_node_children, compose_wf; [by apply full_state_wf|done]. Qed.

Lemma overlaid_blob :
  oblob (overlaid v d) = match blob d with Keep => v_blob v | SetBlob b => Some b | Remove => None end.
Proof.
  unfold overlaid. rewrite apply_oblob by apply overlaid_live.
  destruct (compose_shape (full_state v) d Td Ad (full_state_live v Hv)) as (_&->&_).
  rewrite full_state_shape by done. simpl. unfold fs_blob.
  by destruct (blob d), (v_blob v).
Qed.

Lemma overlaid_attrs :
  oattrs (overlaid v d) = match attrs d with Some m => m | None => v_attrs v end.
Proof.
  unfold overlaid. rewrite apply_oattrs by apply overlaid_live.
  destruct (compose_shape (full_state v) d Td Ad (full_state_live v Hv)) as (_&_&_&->&_).
  rewrite full_state_shape by done. simpl. unfold fs_attrs.
  by destruct (attrs d), (v_attrs v), (is_empty_view v).
Qed.

Lemma overlaid_kid k :
  okid k (overlaid v d) = match bt_get k (children c) with Some x => apply_node None x | None => None end.
Proof.
  unfold overlaid. rewrite apply_okid by (auto using overlaid_live, overlaid_ok).
  fold c. unfold kid_after, lower_kid, okid.
  by destruct (bt_get k (children c)), (opaque c).
Qed.

Lemma overlaid_children_opaque :
  opaque d = true →
  ochildren (overlaid v d)
  = merge_maps (λ _ (_ : View), None) (λ _ x, apply_node None x) (λ _ _ _, None) [] (children d).
Proof.
  intros Od. apply bt_ext; [apply apply_children_ok|apply merge_ok; eauto with sarun|].
  intros k. change (bt_get k (ochildren (overlaid v d))) with (okid k (overlaid v d)).
  rewrite overlaid_kid. unfold c. rewrite (compose_children_opaque (full_state v) d)
    by auto using full_state_live, full_state_wf.
  unfold hard_kids. rewrite !merge_get by eauto with sarun. unfold merged_at. simpl.
  destruct (bt_get k (children d)) as [x|] eqn:E; [|done].
  apply live_harden_over_nothing. eauto with sarun.
Qed.

Lemma overlaid_children :
  opaque d = false →
  ochildren (overlaid v d)
  = merge_maps (λ _ u, Some u) (λ _ x, apply_node None x) (λ _ u x, overlaid u x)
      (v_children v) (children d).
Proof.
  intros Od. pose proof Hv as (_&Hok&Hall)%wf_view_unfold.
  apply bt_ext; [apply apply_children_ok|apply merge_ok; eauto with sarun|].
  intros k. change (bt_get k (ochildren (overlaid v d))) with (okid k (overlaid v d)).
  rewrite overlaid_kid. unfold c.
  rewrite compose_kid by (try done; eauto using full_state_live, full_state_wf with sarun).
  unfold composed_kid. rewrite Od, positive_live, full_state_shape by done. cbn [children].
  rewrite map_vals_get, merge_get by eauto with sarun. unfold merged_at.
  assert (Hdrop : ∀ n, match drop_identity n with Some x => apply_node None x | None => None end
                       = apply_node None n).
  { intros n. unfold drop_identity. destruct (is_identity n) eqn:E; [|done].
    by apply is_identity_keep in E as ->. }
  destruct (bt_get k (v_children v)) as [u|] eqn:Eu, (bt_get k (children d)) as [x|]; simpl;
    [apply Hdrop| |apply Hdrop|done].
  apply full_state_apply. by eapply Hall, bt_get_elem.
Qed.

Lemma overlaid_exists :
  is_some (overlaid v d) = has_content (overlaid v d) || asserts_self d || is_empty_view v.
Proof.
  unfold overlaid. rewrite apply_exists by apply overlaid_live. fold (overlaid v d). simpl.
  rewrite orb_false_r, compose_asserts by (try done; by apply full_state_live).
  unfold has_content. rewrite overlaid_blob, overlaid_attrs.
  rewrite full_state_shape by done. unfold asserts_self. simpl. unfold fs_blob, fs_attrs, is_empty_view.
  destruct (v_blob v), (v_attrs v), (v_children v), (blob d), (attrs d), (opaque d);
    simpl; rewrite ?orb_true_r, ?orb_false_r; done.
Qed.
End overlaid.

(** ** The streaming overlay *)

Abbreviation frec := (λ u, encode_node [] (full_state u)) (only parsing).

Lemma sub_tombstone_enc c : sub_is_tombstone (encode_node [] c) = is_tombstone c.
Proof.
  unfold sub_is_tombstone. destruct (is_tombstone c) eqn:Ht.
  - by rewrite encode_tombstone.
  - apply bytes_eqb_ne. rewrite encode_live by done. intros [= Hf _].
    destruct (node_flags_spec c) as (_&Hb&_). by rewrite Hf in Hb.
Qed.

Lemma sub_backdrop_enc c :
  is_tombstone c = false → sub_is_backdrop (encode_node [] c) = is_backdrop (anchor c).
Proof.
  intros Ht. unfold sub_is_backdrop. rewrite encode_live by done. simpl.
  by destruct (node_flags_spec c) as (_&_&_&_&Hb&_).
Qed.

Lemma resolve_kids_enc cs acc :
  (∀ k c, (k, c) ∈ cs → fits c) →
  resolve_kids (enc_kids cs) acc
  = run_ok (acc ++ merge_maps (λ _ (_ : View), None) (λ _ c, frec <$> apply_node None c)
                     (λ _ _ _, None) [] cs).
Proof.
  unfold enc_kids. revert acc. induction cs as [|[k c] cs IH]; intros acc Hc.
  { by rewrite app_nil_r. }
  rewrite merge_nil_b. csimpl. cbn [resolve_kids].
  rewrite positive_over_nothing_enc by (apply (Hc k); set_solver).
  cbn [run_bind run_ok]. rewrite IH by (intros k' c' ?; apply (Hc k'); set_solver).
  destruct (apply_node None c); simpl; [|done]. by rewrite <- app_assoc.
Qed.

(** A merge followed by a map of its values. *)
Lemma map_vals_merge {V W X Y} (f : X → Y) (L : Name → V → option X) (R : Name → W → option X)
    (B : Name → V → W → option X) ma mb :
  map_vals f (merge_maps L R B ma mb)
  = merge_maps (λ k v, f <$> L k v) (λ k w, f <$> R k w) (λ k v w, f <$> B k v w) ma mb.
Proof.
  assert (Hp : ∀ k (o : option X) m, map_vals f (push k o ++ m) = push k (f <$> o) ++ map_vals f m).
  { by intros k [x|] m. }
  revert ma mb. merge_induction;
    [done|intros ka va ma IH|intros kb vb mb IH|intros ka va ma kb vb mb E IH
    |intros ka va ma kb vb mb E IH|intros ka va ma vb mb IH];
    [rewrite !merge_a_nil|rewrite !merge_nil_b|rewrite !merge_lt by done
    |rewrite !merge_gt by done|rewrite !merge_eq]; by rewrite Hp, IH.
Qed.

Lemma enc_kids_full m : enc_kids (map_vals full_state m) = map_vals frec m.
Proof. apply (map_vals_comp full_state (encode_node [])). Qed.

(** Facets and existence of the resolved node, as [overlay_node] computes them. *)
Section resolved.
Context (v : View) (d : Node) (Hv : recordable v) (Hd : wf_node d = true)
  (Td : is_tombstone d = false) (Ad : is_backdrop (anchor d) = false).

Definition res_block : option bytes :=
  match enc_attrs <$> attrs d with
  | Some _ => norm_attrs (enc_attrs <$> attrs d)
  | None => attrs_block v
  end.

Lemma res_block_attrs :
  res_block = if is_nil (oattrs (overlaid v d)) then None
              else Some (enc_attrs (oattrs (overlaid v d))).
Proof.
  unfold res_block. rewrite overlaid_attrs by (done || apply Hv).
  destruct (attrs d) as [m|]; [apply norm_attrs_block|done].
Qed.

Lemma res_blob_head :
  match blob d with SetBlob x => Some x | Remove => None | Keep => set_payload (blob (full_state v)) end
  = oblob (overlaid v d).
Proof.
  rewrite overlaid_blob by (done || apply Hv). rewrite full_state_shape by apply Hv.
  cbn [blob]. rewrite set_payload_full. by destruct (blob d).
Qed.

Lemma base_empty_head :
  negb (is_some (set_payload (blob (full_state v))))
  && negb (is_some (norm_attrs (enc_attrs <$> attrs (full_state v))))
  && (h_child_count (head_of (full_state v)) =? 0) = is_empty_view v.
Proof.
  rewrite <- (empty_view_block v) by done. rewrite full_state_shape at 1 2 by apply Hv.
  cbn [blob attrs]. rewrite set_payload_full, norm_full_state, head_count. f_equal.
  rewrite full_state_kids by apply Hv. by destruct (v_children v) as [|[]].
Qed.

Lemma resolved_exists :
  is_some (oblob (overlaid v d)) || is_some res_block
  || negb (is_nil (map_vals frec (ochildren (overlaid v d))))
  || asserts_self d || is_empty_view v
  = is_some (overlaid v d).
Proof.
  rewrite overlaid_exists by (done || apply Hv). unfold has_content. rewrite res_block_attrs.
  by destruct (oattrs (overlaid v d)), (ochildren (overlaid v d)) as [|[]].
Qed.

(** Writing the resolved node. *)
Lemma resolved_emit out u :
  overlaid v d = Some u →
  let items := map_vals frec (ochildren (overlaid v d)) in
  let blob_out := match oblob (overlaid v d) with Some x => SetBlob x | None => Keep end in
  let attrs_out :=
    match res_block with
    | Some raw => Some raw
    | None => if negb (is_some (oblob (overlaid v d))) && negb (is_some res_block) && is_nil items
              then Some [0] else None
    end in
  emit_raw (put_varint (emit_facets out blob_out false false attrs_out) (zlen items)) items
  = out ++ encode_node [] (full_state u).
Proof.
  intros Hu. cbv zeta. rewrite res_block_attrs, Hu. cbn [oblob oattrs ochildren mbind option_bind].
  assert (Hwu : wf_view u = true).
  { pose proof (wf_apply_node None (compose_node (full_state v) d)) as Hw.
    unfold overlaid in Hu. rewrite Hu in Hw.
    apply Hw; [apply compose_wf; [apply full_state_wf, Hv|done]|done]. }
  rewrite <- (enc_kids_full (v_children u)), emit_raw_kids.
  rewrite <- (finish_live out (full_state u)) by by apply full_state_live.
  rewrite full_state_shape by done. cbn [blob opaque anchor attrs children is_backdrop].
  f_equal. f_equal; [|unfold zlen, enc_kids; by rewrite length_fmap]. unfold emit_facets, fs_blob, fs_attrs, is_empty_view.
  destruct (v_attrs u), (v_blob u), (v_children u) as [|[]]; done.
Qed.
End resolved.

(** The outcome of overlaying [d] on [v]. *)
Definition overlay_outcome (v : View) (d : Node) (out : bytes) : bool * bytes :=
  match overlaid v d with
  | Some u => (true, out ++ encode_node [] (full_state u))
  | None => (false, out)
  end.

(** Two-sided children, over the recursive call. *)
Lemma overlay_both f k u x items :
  fits x →
  (is_tombstone x = false → is_backdrop (anchor x) = false → ∃ r1 r2,
    overlay_node f (cur_new (frec u)) (cur_new (encode_node [] x)) []
    = run_ok (overlay_outcome u x [], r1, r2)) →
  (if sub_is_backdrop (encode_node [] x) then
     let! w := positive_over_nothing (encode_node [] x) in run_ok (push_resolved items k w)
   else if negb (sub_is_tombstone (encode_node [] x)) then
     let! (ex, tmp, _, _) :=
       overlay_node f (cur_new (frec u)) (cur_new (encode_node [] x)) [] in
     run_ok (if ex then items ++ [(k, tmp)] else items)
   else run_ok items)
  = run_ok (items ++ push k (frec <$> overlaid u x)).
Proof.
  intros Hx IH. rewrite sub_tombstone_enc. destruct (is_tombstone x) eqn:Tx.
  { rewrite encode_tombstone by done. simpl. unfold overlaid.
    rewrite compose_b_tombstone, apply_tombstone by done. by rewrite app_nil_r. }
  rewrite sub_backdrop_enc by done. destruct (is_backdrop (anchor x)) eqn:Ax.
  - rewrite positive_over_nothing_enc by done. cbn [run_bind run_ok]. unfold overlaid.
    rewrite compose_b_backdrop by done.
    destruct (apply_node None x); simpl; by rewrite ?app_nil_r.
  - cbn [negb]. destruct (IH eq_refl eq_refl) as (r1&r2&->). cbn [run_bind run_ok].
    unfold overlay_outcome. destruct (overlaid u x); simpl; by rewrite ?app_nil_r.
Qed.

Lemma overlay_items f v d :
  recordable v → fits d → is_tombstone d = false → is_backdrop (anchor d) = false →
  (∀ k u x, (k, u) ∈ v_children v → (k, x) ∈ children d →
    is_tombstone x = false → is_backdrop (anchor x) = false → ∃ r1 r2,
    overlay_node f (cur_new (frec u)) (cur_new (encode_node [] x)) []
    = run_ok (overlay_outcome u x [], r1, r2)) →
  (if opaque d then resolve_kids (enc_kids (kids d)) []
   else merge_walk
     (λ bn bsub items, run_ok (items ++ [(bn, bsub)]))
     (λ dn dsub items, let! w := positive_over_nothing dsub in run_ok (push_resolved items dn w))
     (λ bn bsub dsub items,
       if sub_is_backdrop dsub then
         let! w := positive_over_nothing dsub in run_ok (push_resolved items bn w)
       else if negb (sub_is_tombstone dsub) then
         let! (ex, tmp, _, _) := overlay_node f (cur_new bsub) (cur_new dsub) [] in
         run_ok (if ex then items ++ [(bn, tmp)] else items)
       else run_ok items)
     (enc_kids (kids (full_state v))) (enc_kids (kids d)) [])
  = run_ok (map_vals frec (ochildren (overlaid v d))).
Proof.
  intros Hv Hd Td Ad IH. destruct (opaque d) eqn:Od.
  - rewrite resolve_kids_enc by (intros k c Hin; by eapply (fits_kid d)).
    rewrite overlaid_children_opaque by (done || apply Hv || apply Hd).
    rewrite map_vals_merge, kids_live by done. done.
  - rewrite full_state_kids by apply Hv. rewrite enc_kids_full.
    rewrite (merge_walk_maps frec (encode_node []) _ _ _ (λ _ u, Some (frec u))
      (λ _ x, frec <$> apply_node None x) (λ _ u x, frec <$> overlaid u x) (v_children v) (kids d)).
    + rewrite overlaid_children by (done || apply Hv || apply Hd).
      rewrite map_vals_merge, kids_live by done. done.
    + done.
    + intros k c items Hin. rewrite positive_over_nothing_enc by (by eapply (fits_kid d)).
      cbn [run_bind run_ok]. destruct (apply_node None c); simpl; by rewrite ?app_nil_r.
    + intros k u x items Hu Hx. apply (overlay_both f k u x items); [by eapply (fits_kid d)|].
      intros Tx Ax. apply (IH k u x Hu); [by apply kids_elem|done|done].
Qed.

Lemma overlay_enc fuel v d rv rd out :
  on_node rv (full_state v) → on_node rd d → recordable v → fits d → is_tombstone d = false →
  (esize (full_state v) + esize d < fuel)%nat →
  overlay_node fuel rv rd out
  = run_ok (overlay_outcome v d out, after_node rv (full_state v), after_node rd d).
Proof.
  revert v d rv rd out. induction fuel as [|f IH]; intros v d rv rd out Ov Od Hv Hd Td Hf; [lia|].
  pose proof (recordable_fits v Hv) as Fv. pose proof Hv as [Wv _].
  cbn [overlay_node]. cbv zeta.
  rewrite (run_read_head _ _ f Ov Fv) by lia. cbn [run_bind run_ok].
  rewrite (run_read_head _ _ f Od Hd) by lia. cbn [run_bind run_ok].
  rewrite (head_backdrop d) by done. destruct (is_backdrop (anchor d)) eqn:Ad.
  { rewrite (run_skip_kids _ _ f Ov Fv) by lia. cbn [run_bind run_ok].
    rewrite (run_skip_kids _ _ f Od Hd) by lia. cbn [run_bind run_ok].
    rewrite (run_slice rd d Od), positive_over_nothing_enc by done. cbn [run_bind run_ok].
    unfold overlay_outcome, overlaid. rewrite compose_b_backdrop by done.
    by destruct (apply_node None d). }
  rewrite (run_collect _ _ f Ov Fv) by lia. cbn [run_bind run_ok].
  rewrite (run_collect _ _ f Od Hd) by lia. cbn [run_bind run_ok].
  rewrite !head_blob, !head_attrs, !head_opaque by (done || by apply full_state_live).
  rewrite (overlay_items f v d) by first [done|
    intros k u x Hu Hx Tx Ax; do 2 eexists;
    assert (Ku : (k, full_state u) ∈ kids (full_state v)) by
      (rewrite full_state_kids by done; apply list_elem_of_fmap; by exists (k, u));
    rewrite <- (kids_live d) in Hx by done;
    pose proof (pair_size _ _ _ _ _ _ Ku Hx);
    apply (IH u x);
    [apply on_new|apply on_new|by eapply (recordable_kid v)|by eapply (fits_kid d)|done|lia] ].
  cbn [run_bind run_ok].
  rewrite res_blob_head, base_empty_head by (done || apply Hd).
  replace (norm_attrs (enc_attrs <$> attrs (full_state v))) with (attrs_block v) by
    (rewrite full_state_shape by done; cbn [attrs]; by rewrite norm_full_state).
  change (match enc_attrs <$> attrs d with Some _ => _ | None => attrs_block v end) with (res_block v d).
  replace (is_some (enc_attrs <$> attrs d)) with (is_some (attrs d)) by (by destruct (attrs d)).
  fold (asserts_self d). rewrite resolved_exists by (done || apply Hd).
  unfold overlay_outcome. destruct (overlaid v d) as [u|] eqn:Eu; [|done]. cbn [is_some negb].
  pose proof (resolved_emit v d Hv ltac:(apply Hd) Td Ad out u Eu) as Hemit. cbv zeta in Hemit.
  rewrite Eu in Hemit. by rewrite Hemit.
Qed.

Lemma overlay_full_enc v d out :
  recordable v → fits d → is_tombstone d = false →
  overlay_full (frec v) (encode_node [] d) out
  = run_ok (out ++ match overlaid v d with Some u => frec u | None => [] end).
Proof.
  intros Hv Hd Td. unfold overlay_full.
  rewrite (overlay_enc _ v d) by (try apply on_new; done || lia).
  unfold overlay_outcome. destruct (overlaid v d); simpl; by rewrite ?app_nil_r.
Qed.

(** ** Overlaying a difference *)

Lemma mdiff_attrs_apply v w :
  match attrs (vdiff (Some v) w) with Some m => m | None => v_attrs v end = v_attrs w.
Proof.
  pose proof (diff_attrs_apply (Some v) w) as Ha. rewrite diff_node_unfold. cbv zeta.
  by destruct (needs_witness _ _ _).
Qed.

Lemma vdiff_identity v w :
  wf_view v = true → wf_view w = true → is_identity (vdiff (Some v) w) = true → v = w.
Proof.
  intros Hv Hw Hid. apply is_identity_keep in Hid.
  pose proof (diff_apply no_sharing no_sharing no_sharing_sound no_sharing_sound (Some v) w Hv Hw) as Ha.
  rewrite Hid, apply_keep in Ha by done. congruence.
Qed.

Lemma mark_wf rm n : wf_node rm = true → wf_node n = true → wf_node (mark rm n) = true.
Proof.
  intros Hrm. induction n as [n IH] using node_ind'; intros Hn.
  destruct (is_tombstone n) eqn:Ht; [by rewrite mark_tombstone|]. rewrite mark_live by done.
  apply wf_node_unfold in Hn as (Ha&Hok&Hall). apply wf_node_unfold. simpl.
  split_and!; [done|by rewrite map_vals_ok|]. intros k c (x&->&Hin)%map_vals_elem. eauto.
Qed.

Lemma mdiff_wf rm v w :
  wf_node rm = true → wf_view v = true → wf_view w = true → wf_node (mdiff rm v w) = true.
Proof. intros. apply mark_wf; [done|]. by apply diff_node_wf. Qed.

(** A removal marker shows nothing over a removed node. *)
Definition removes (rm : Node) : Prop := wf_node rm = true ∧ ∀ u, overlaid u rm = None.

Lemma tombstone_removes : removes tombstone.
Proof. split; [done|]. intros u. unfold overlaid. by rewrite compose_b_tombstone, apply_tombstone. Qed.

Lemma hole_removes : removes hole.
Proof. split; [done|]. intros u. unfold overlaid. by rewrite compose_b_backdrop. Qed.

Lemma overlaid_mdiff rm v w :
  removes rm → wf_view v = true → wf_view w = true → overlaid v (mdiff rm v w) = Some w.
Proof.
  intros [Hrm Hrem]. revert v. induction w as [w IH] using view_ind'; intros v Hv Hw.
  pose proof (mdiff_wf rm v w Hrm Hv Hw) as Hwd. pose proof (mdiff_live rm v w) as Td.
  destruct (mdiff_facets rm v w) as (Hb&Ho&Ha&Hat).
  assert (Ad : is_backdrop (anchor (mdiff rm v w)) = false) by by rewrite Ha.
  pose proof Hv as (_&Hokv&Hallv)%wf_view_unfold. pose proof Hw as (_&Hokw&Hallw)%wf_view_unfold.
  assert (Hkid : ∀ k, okid k (overlaid v (mdiff rm v w)) = okid k (Some w)).
  { intros k. unfold okid. rewrite overlaid_children, merge_get by auto with sarun.
    unfold merged_at. cbn [ochildren].
    rewrite mdiff_children, merge_get by done. unfold merged_at.
    destruct (bt_get k (v_children v)) as [c|] eqn:Ec, (bt_get k (v_children w)) as [d|] eqn:Ed;
      [|apply Hrem| |done]; apply bt_get_elem in Ed.
    - apply bt_get_elem in Ec. destruct (is_identity (vdiff (Some c) d)) eqn:Eid.
      + f_equal. apply vdiff_identity; eauto.
      + eapply IH; eauto.
    - apply full_state_apply. eauto. }
  assert (Hbl : oblob (overlaid v (mdiff rm v w)) = v_blob w).
  { rewrite overlaid_blob, Hb by done. apply (diff_blob_apply no_sharing no_sharing_sound (Some v)). }
  assert (Hatt : oattrs (overlaid v (mdiff rm v w)) = v_attrs w).
  { rewrite overlaid_attrs, Hat by done. apply mdiff_attrs_apply. }
  apply oview_ext; [apply apply_children_ok|done| |by rewrite Hbl|by rewrite Hatt|done].
  rewrite overlaid_exists by done.
  rewrite (has_content_ext _ (Some w)) by (try done; intros k; by rewrite Hkid).
  simpl. destruct (is_empty_view w) eqn:Ew.
  - unfold asserts_self. rewrite Hb, Ho, Hat, diff_node_unfold. cbv zeta.
    unfold needs_witness. rewrite Ew. cbn [empty_present].
    destruct (is_empty_view v); [by rewrite !orb_true_r|]. cbn [negb andb]. rewrite !orb_false_r, andb_true_r.
    unfold asserts_self. cbn [blob attrs opaque].
    destruct (diff_blob _ _ _), (diff_attrs _ _); simpl; by rewrite ?orb_true_r.
  - unfold has_content, is_empty_view in *. simpl.
    destruct (v_blob w), (v_attrs w), (v_children w); done.
Qed.
