(* ===== verification/DepotStreamLaws.v ===== *)
(** * Laws of the streaming algebra.

    The claims about [chupa/depot/src/stream.rs]: each operation on bytes
    writes exactly the encoding of its reference operation on trees, and the
    pair difference/overlay advances a full-state record. *)

From S2P Require Import Prelude.
From S2P Require Import BTreeMap.
From S2P Require Import DepotModel.
From S2P Require Import DepotCompose.
From S2P Require Import DepotDiff.
From S2P Require Import DepotLaws.
From S2P Require Import DepotCodec.
From S2P Require Import DepotStream.
From S2P Require Import DepotStreamParse.
From S2P Require Import DepotMerge.
From S2P Require Import DepotStreamCompose.
From S2P Require Import DepotStreamDiff.
From S2P Require Import DepotStreamOverlay.
Open Scope Z_scope.

Lemma encodable_fits l : encodable l = true → fits (root l).
Proof. intros (?&_&?)%encodable_spec. by split. Qed.

(** A view whose record the codec can carry, decidably. *)
Definition recordableb (v : View) : bool :=
  wf_view v && (zlen (encode_node [] (full_state v)) <? u64_limit).

Lemma recordableb_spec v : recordableb v = true → recordable v.
Proof. unfold recordableb. intros Hv. split_andb. split; [done|by apply Z.ltb_lt]. Qed.

(** C22. Composing two encoded layers writes, after what the buffer held, byte
    for byte the encoding of the composed layer. *)
Theorem compose_stream_exact a b out :
  encodable a = true → encodable b = true →
  compose_stream (encode a) (encode b) out = Some (Ok (out ++ encode (compose a b))).
Proof. intros Ha%encodable_fits Hb%encodable_fits. by apply compose_stream_app. Qed.

Lemma compose_stream_exact_witness :
  compose_stream (encode Sample.write_df) (encode Sample.remove_df) [7]
  = Some (Ok ([7] ++ encode (compose Sample.write_df Sample.remove_df))).
Proof. apply compose_stream_exact; reflexivity. Defined.

(** The head-only predicate decides exactly whether two encoded layers
    compose to the identity, which is when a two-sided child is dropped. *)
Theorem compose_collapses_exact a b fuel :
  encodable a = true → encodable b = true →
  (length (encode a) + length (encode b) < fuel)%nat →
  compose_collapses fuel (encode a) (encode b)
  = Some (Ok (is_identity (root (compose a b)))).
Proof. intros Ha%encodable_fits Hb%encodable_fits Hf. by apply compose_collapses_enc. Qed.

(** A skeleton without facets whose only child is the identity. *)
Definition hollow : Layer := MkLayer (Sample.carrier Sample.name_d keep).

Lemma compose_collapses_exact_witness :
  compose_collapses 100 (encode layer_empty) (encode hollow) = Some (Ok true).
Proof. apply (compose_collapses_exact layer_empty hollow 100); [reflexivity|reflexivity|vm_compute; lia]. Defined.

Section reference_diff.
(** Any pointer comparisons the reference difference may consult. *)
Variable blob_ptr_eq : bytes → bytes → bool.
Variable view_ptr_eq : View → View → bool.
Hypothesis blob_ptr_eq_sound : ∀ x y, blob_ptr_eq x y = true → x = y.
Hypothesis view_ptr_eq_sound : ∀ x y, view_ptr_eq x y = true → x = y.

Local Lemma mdiff_tombstone v w :
  wf_view v = true → wf_view w = true →
  encode_node [] (mdiff tombstone v w)
  = encode (diff blob_ptr_eq view_ptr_eq (Some v) (Some w)).
Proof.
  intros Hv Hw. unfold encode, diff. cbn [root].
  rewrite (diff_node_ptr_irrelevant blob_ptr_eq view_ptr_eq) by done. unfold mdiff.
  change (diff_node (λ _ _, false) (λ _ _, false)) with (diff_node (@no_sharing bytes) (@no_sharing View)).
  generalize (diff_node (@no_sharing bytes) (@no_sharing View) (Some v) w) as n. clear.
  intros n. induction n as [n IH] using node_ind'.
  destruct (is_tombstone n) eqn:Ht; [by rewrite mark_tombstone, (encode_tombstone n)|].
  rewrite mark_live, (encode_live n) by done. rewrite encode_live by (by destruct n as [[]]).
  cbn [blob attrs children]. rewrite zlen_map_vals.
  replace (node_flags _) with (node_flags n) by (by destruct n). do 4 f_equal.
  unfold map_vals. generalize dependent (children n). clear. intros cs IH.
  induction cs as [|[k c] cs IHcs]; [done|]. csimpl.
  rewrite IHcs by set_solver. f_equal. unfold enc_child. cbn [fst snd].
  by rewrite (IH k c) by set_solver.
Qed.

(** From two full-state records, the streaming difference writes byte for
    byte the encoding of the difference of the two views. *)
Theorem diff_stream_exact v w out :
  recordableb v = true → recordableb w = true →
  diff_stream (encode_node [] (full_state v)) (encode_node [] (full_state w)) out
  = Some (Ok (out ++ encode (diff blob_ptr_eq view_ptr_eq (Some v) (Some w)))).
Proof.
  intros Hv%recordableb_spec Hw%recordableb_spec. unfold diff_stream.
  change [FLAG_TOMBSTONE] with (encode_node [] tombstone).
  rewrite diff_marked_enc by done. by rewrite mdiff_tombstone by (apply Hv || apply Hw).
Qed.
End reference_diff.

Lemma diff_stream_exact_witness :
  diff_stream (encode_node [] (full_state Sample.host_view))
    (encode_node [] (full_state Sample.target_view)) []
  = Some (Ok (encode (diff Sample.unshared Sample.unshared
                        (Some Sample.host_view) (Some Sample.target_view)))).
Proof.
  apply (diff_stream_exact Sample.unshared Sample.unshared
    ltac:(done) ltac:(done) Sample.host_view Sample.target_view []); reflexivity.
Defined.

(** Overlaying an encoded delta on a full-state record writes the
    full-state record of what the delta, composed over the recorded view,
    shows over an empty backdrop; nothing at all when it shows nothing. *)
Theorem overlay_full_exact v d out :
  recordableb v = true → encodable d = true →
  overlay_full (encode_node [] (full_state v)) (encode d) out
  = Some (Ok (out ++
      match apply None (compose (MkLayer (full_state v)) d) with
      | Some u => encode_node [] (full_state u)
      | None => []
      end)).
Proof.
  intros Hv%recordableb_spec Hd. pose proof (encodable_fits d Hd) as Fd.
  apply encodable_spec in Hd as (_&Td&_). by apply overlay_full_enc.
Qed.

Lemma overlay_full_exact_witness :
  overlay_full (encode_node [] (full_state Sample.host_view)) (encode Sample.mkdir_d) []
  = Some (Ok (match apply None (compose (MkLayer (full_state Sample.host_view)) Sample.mkdir_d) with
              | Some u => encode_node [] (full_state u)
              | None => []
              end)).
Proof. apply (overlay_full_exact Sample.host_view Sample.mkdir_d []); reflexivity. Defined.

(** The two streams advance a full state: the difference with holes,
    overlaid on the old record, writes exactly the new record. *)
Theorem overlay_after_diff v w delta :
  recordableb v = true → recordableb w = true →
  diff_stream_holes (encode_node [] (full_state v)) (encode_node [] (full_state w)) []
    = Some (Ok delta) →
  zlen delta < u64_limit →
  overlay_full (encode_node [] (full_state v)) delta []
  = Some (Ok (encode_node [] (full_state w))).
Proof.
  intros Hv%recordableb_spec Hw%recordableb_spec Hdelta Hz. unfold diff_stream_holes in Hdelta.
  change [FLAG_BACKDROP; 0] with (encode_node [] hole) in Hdelta.
  rewrite diff_marked_enc in Hdelta by done. injection Hdelta as <-.
  pose proof Hv as [Wv _]. pose proof Hw as [Ww _].
  rewrite overlay_full_enc; [|done|split; [by apply mdiff_wf|done]|apply mdiff_live].
  rewrite overlaid_mdiff; [done|apply hole_removes|done|done].
Qed.

Lemma overlay_after_diff_witness :
  ∃ delta,
    diff_stream_holes (encode_node [] (full_state Sample.host_view))
      (encode_node [] (full_state Sample.target_view)) [] = Some (Ok delta) ∧
    overlay_full (encode_node [] (full_state Sample.host_view)) delta []
    = Some (Ok (encode_node [] (full_state Sample.target_view))).
Proof.
  eexists. split; [vm_compute; reflexivity|].
  apply (overlay_after_diff _ Sample.target_view); [reflexivity..|vm_compute; reflexivity].
Defined.

(** The record of a single file, and a delta that punches it out. *)
Definition one_file : View := MkView None [] [(Sample.name_f, MkView (Some [1]) [] [])].
Definition punch_f : Layer := MkLayer (Sample.carrier Sample.name_f hole).

(** When the delta erases everything, [overlay_full] writes no bytes: not
    a full state, for the result does not decode, and not the encoding of
    the difference from nothing to nothing either. *)
Theorem overlay_full_can_write_nothing :
  overlay_full (encode_node [] (full_state one_file)) (encode punch_f) [] = Some (Ok [])
  ∧ decode [] = Some (Err Truncated)
  ∧ encode (diff no_sharing no_sharing None
       (apply None (compose (MkLayer (full_state one_file)) punch_f))) = [28; 0; 0].
Proof. split_and!; reflexivity. Qed.
