(* ===== verification/DepotWalk.v ===== *)
(** * The public forward cursor.

    Models [chupa/depot/src/walk.rs]: [Cursor] reads node headers and names
    off canonical bytes and skips whole subtrees.  Its primitives are the
    reader's again. *)

From S2P Require Import Prelude.
From S2P Require Import BTreeMap.
From S2P Require Import DepotModel.
From S2P Require Import DepotCompose.
From S2P Require Import DepotLaws.
From S2P Require Import DepotCodec.
From S2P Require Import DepotStream.
From S2P Require Import DepotStreamParse.
From S2P Require Import DepotMerge.
Open Scope Z_scope.
Open Scope sarun_scope.

(** [struct Node] of the cursor *)
Record WalkNode : Type := MkWalkNode {
  w_tombstone : bool;
  w_backdrop : bool;
  w_opaque : bool;
  w_blob : option bytes;
  w_child_count : Z
}.

(** [Cursor::new] and its private readers *)
Definition cursor_new (b : bytes) : Reader := MkReader b 0.
Definition cursor_byte : Parser Z := byte.
Definition cursor_varint : Parser Z := varint.
Definition cursor_take (n : Z) : Parser bytes := read_slice n.
Definition cursor_slice : Parser bytes := n ← cursor_varint; cursor_take n.

(** The attribute loop of [Cursor::node]. *)
Fixpoint cursor_attrs (fuel : nat) (count : Z) : Parser unit :=
  if count <=? 0 then mret tt else
  match fuel with
  | O => out_of_fuel
  | S f => _ ← cursor_slice; _ ← cursor_slice; cursor_attrs f (count - 1)
  end.

(** [Cursor::node] *)
Definition cursor_node (fuel : nat) : Parser WalkNode :=
  flags ← cursor_byte;
  if unknown_flags flags then fail (BadFlags flags) else
  if has_flag flags FLAG_TOMBSTONE then
    if negb (flags =? FLAG_TOMBSTONE) then fail (BadFlags flags)
    else mret (MkWalkNode true false false None 0)
  else
  blob ← (if Z.land flags BLOB_MASK =? BLOB_KEEP then mret None
          else if Z.land flags BLOB_MASK =? BLOB_SET then b ← cursor_slice; mret (Some b)
          else if Z.land flags BLOB_MASK =? BLOB_REMOVE then mret None
          else fail (BadFlags flags));
  _ ← (if has_flag flags FLAG_ATTRS then count ← cursor_varint; cursor_attrs fuel count
       else mret tt);
  child_count ← cursor_varint;
  mret (MkWalkNode false (has_flag flags FLAG_BACKDROP) (has_flag flags FLAG_OPAQUE)
          blob child_count).

(** [Cursor::name] *)
Definition cursor_name : Parser bytes := cursor_slice.

(** The child loop of [Cursor::skip]. *)
Fixpoint cursor_skip_children (skip : Parser unit) (fuel : nat) (count : Z) : Parser unit :=
  if count <=? 0 then mret tt else
  match fuel with
  | O => out_of_fuel
  | S f => _ ← cursor_name; _ ← skip; cursor_skip_children skip f (count - 1)
  end.

(** [Cursor::skip] *)
Fixpoint cursor_skip (fuel : nat) : Parser unit :=
  match fuel with
  | O => out_of_fuel
  | S f => node ← cursor_node f; cursor_skip_children (cursor_skip f) f (w_child_count node)
  end.

(** The header the cursor reports for a node. *)
Definition walk_node (n : Node) : WalkNode :=
  if is_tombstone n then MkWalkNode true false false None 0 else
  MkWalkNode false (is_backdrop (anchor n)) (opaque n) (set_payload (blob n)) (zlen (children n)).

(** The headers a consumer reads: the whole tree in preorder, each node under
    the name it was reached by.  The recursion the documentation prescribes:
    a header, then for each child its name and the child. *)
Fixpoint cursor_walk_children (walk : Name → Parser (list (Name * WalkNode))) (fuel : nat)
    (count : Z) (acc : list (Name * WalkNode)) : Parser (list (Name * WalkNode)) :=
  if count <=? 0 then mret acc else
  match fuel with
  | O => out_of_fuel
  | S f => name ← cursor_name; sub ← walk name;
           cursor_walk_children walk f (count - 1) (acc ++ sub)
  end.

Fixpoint cursor_walk (fuel : nat) (name : Name) : Parser (list (Name * WalkNode)) :=
  match fuel with
  | O => out_of_fuel
  | S f => node ← cursor_node f;
           cursor_walk_children (cursor_walk f) f (w_child_count node) [(name, node)]
  end.

(** The same preorder on the tree. *)
Fixpoint preorder (name : Name) (n : Node) : list (Name * WalkNode) :=
  (name, walk_node n) ::
  (if is_tombstone n then [] else concat ((λ '(k, c), preorder k c) <$> children n)).

(** ** Reading encodings *)

Lemma parses_cursor_blob n :
  zlen (enc_blob (blob n)) < u64_limit →
  parses (if Z.land (node_flags n) BLOB_MASK =? BLOB_KEEP then mret None
          else if Z.land (node_flags n) BLOB_MASK =? BLOB_SET then b ← cursor_slice; mret (Some b)
          else if Z.land (node_flags n) BLOB_MASK =? BLOB_REMOVE then mret None
          else fail (BadFlags (node_flags n)))
    (enc_blob (blob n)) (set_payload (blob n)).
Proof.
  intros Hz. destruct (node_flags_spec n) as (_&_&_&_&_&Hm). rewrite Hm.
  destruct (blob n) as [|b|]; simpl in *; [apply parses_ret| |apply parses_ret].
  apply (parses_map _ Some), parses_slice_field. pose proof (put_bytes_size b). unfold zlen in *. lia.
Qed.

Lemma parses_cursor_attrs fuel a :
  (length a ≤ fuel)%nat → zlen (concat (enc_attr <$> a)) < u64_limit →
  parses (cursor_attrs fuel (zlen a)) (concat (enc_attr <$> a)) tt.
Proof. apply parses_skip_entries. Qed.

Lemma parses_cursor_node fuel n :
  fits n → (length (enc_head n) ≤ S fuel)%nat →
  parses (cursor_node fuel) (enc_head n) (walk_node n).
Proof.
  intros [Hwf Hz] Hf. pose proof (kids_count n) as Hk.
  rewrite encode_split, zlen_app in Hz. unfold enc_head, walk_node, kids in *.
  destruct (is_tombstone n) eqn:Ht.
  { rewrite <- (app_nil_r [_]). eapply parses_bind; [apply parses_byte|]. apply parses_ret. }
  rewrite !zlen_app in Hz. rewrite !length_app in Hf. rewrite (encode_live n) in Hk by done.
  rewrite !length_app in Hk. cbn [length] in Hf. unfold zlen in Hz.
  destruct (node_flags_spec n) as (Hu&Htf&Ho&Ha&Hb&_).
  unfold cursor_node. eapply parses_bind; [apply parses_byte|]. cbv beta.
  rewrite Hu, Htf, Ho, Ha, Hb.
  eapply parses_bind; [apply parses_cursor_blob; unfold zlen; lia|]. cbv beta.
  eapply parses_bind with (x := tt).
  { destruct (attrs n) as [a|]; [|apply parses_ret]. unfold enc_attrs in *.
    rewrite length_app in *. pose proof (concat_length_bound enc_attr a (λ x _, enc_attr_pos x)).
    eapply parses_bind; [apply parses_varint; unfold zlen; lia|].
    apply parses_cursor_attrs; [lia|unfold zlen; lia]. }
  apply (parses_map _ (MkWalkNode false _ _ _)), parses_varint. unfold zlen. lia.
Qed.

Lemma walk_count n : w_child_count (walk_node n) = zlen (kids n).
Proof. unfold walk_node, kids. by destruct (is_tombstone n). Qed.

Lemma parses_cursor_skip fuel n :
  fits n → (esize n ≤ fuel)%nat → parses (cursor_skip fuel) (encode_node [] n) tt.
Proof.
  revert fuel. induction n as [n IH] using node_ind'; intros fuel Hn Hf.
  pose proof (kids_count n). pose proof (enc_head_pos n).
  destruct fuel as [|fuel]; [lia|]. cbn [cursor_skip]. rewrite encode_split.
  eapply parses_bind; [apply parses_cursor_node; [done|lia]|]. cbv beta. rewrite walk_count.
  apply (parses_skip_children (cursor_skip fuel)); [lia|]. intros k c Hin.
  pose proof (enc_kid_size _ _ _ Hin). pose proof (put_bytes_size k).
  destruct (fits_kid _ _ _ Hn Hin). split; [done|]. eapply IH; [by apply kids_elem|done|lia].
Qed.

Lemma preorder_unfold name n :
  preorder name n = (name, walk_node n) :: concat ((λ '(k, c), preorder k c) <$> kids n).
Proof. unfold kids. destruct n; cbn. by destruct (is_tombstone _). Qed.

Lemma parses_walk_children walk fuel (cs : btmap Name Node) acc :
  (length cs ≤ fuel)%nat →
  (∀ k c, (k, c) ∈ cs → zlen k < u64_limit ∧ parses (walk k) (encode_node [] c) (preorder k c)) →
  parses (cursor_walk_children walk fuel (zlen cs) acc) (concat (enc_child <$> cs))
    (acc ++ concat ((λ '(k, c), preorder k c) <$> cs)).
Proof.
  revert fuel acc. induction cs as [|[k c] cs IH]; intros fuel acc Hf Hc.
  { rewrite app_nil_r. destruct fuel; apply parses_ret. }
  destruct fuel as [|fuel]; simpl in Hf; [lia|].
  cbn [cursor_walk_children]. rewrite zlen_cons. csimpl.
  destruct (Z.leb_spec (zlen cs + 1) 0); [unfold zlen in *; lia|].
  destruct (Hc k c ltac:(set_solver)) as [Hk Hs].
  unfold enc_child at 1. cbn [fst snd]. rewrite <- app_assoc.
  eapply parses_bind; [by apply parses_slice_field|]. cbv beta.
  eapply parses_bind; [done|]. cbv beta.
  replace (zlen cs + 1 - 1) with (zlen cs) by lia. rewrite app_assoc.
  apply IH; [lia|]. intros k' c' ?. apply Hc. set_solver.
Qed.

Lemma parses_walk fuel name n :
  fits n → (esize n ≤ fuel)%nat →
  parses (cursor_walk fuel name) (encode_node [] n) (preorder name n).
Proof.
  revert fuel name. induction n as [n IH] using node_ind'; intros fuel name Hn Hf.
  pose proof (kids_count n). pose proof (enc_head_pos n).
  destruct fuel as [|fuel]; [lia|]. cbn [cursor_walk]. rewrite encode_split, preorder_unfold.
  eapply parses_bind; [apply parses_cursor_node; [done|lia]|]. cbv beta. rewrite walk_count.
  apply (parses_walk_children (cursor_walk fuel) fuel (kids n) [(name, walk_node n)]); [lia|].
  intros k c Hin. pose proof (enc_kid_size _ _ _ Hin). pose proof (put_bytes_size k).
  destruct (fits_kid _ _ _ Hn Hin). split; [done|]. eapply IH; [by apply kids_elem|done|lia].
Qed.

(** ** Claims *)

(** A cursor on the encoding of a layer reads, header by header and name by
    name, exactly the nodes of the layer in preorder, and ends past them. *)
Theorem cursor_reads_preorder l :
  encodable l = true →
  cursor_walk (S (length (encode l))) [] (cursor_new (encode l))
  = Some (Ok (preorder [] (root l), MkReader (encode l) (length (encode l)))).
Proof.
  intros (Hwf&_&Hz)%encodable_spec.
  refine (parses_walk _ [] (root l) (conj Hwf Hz) _ (cursor_new (encode l)) [] _).
  - unfold encode. lia.
  - unfold unread. simpl. by rewrite app_nil_r.
Qed.

Lemma cursor_reads_preorder_witness :
  cursor_walk 14 [] (cursor_new (encode Sample.write_df))
  = Some (Ok (preorder [] (root Sample.write_df), MkReader (encode Sample.write_df) 13)).
Proof. apply (cursor_reads_preorder Sample.write_df). reflexivity. Defined.

(** Skipping advances over exactly one subtree, whatever follows it. *)
Theorem cursor_skip_exact l rest :
  encodable l = true →
  cursor_skip (S (length (encode l))) (cursor_new (encode l ++ rest))
  = Some (Ok (tt, MkReader (encode l ++ rest) (length (encode l)))).
Proof.
  intros (Hwf&_&Hz)%encodable_spec.
  refine (parses_cursor_skip _ (root l) (conj Hwf Hz) _ (cursor_new (encode l ++ rest)) rest _).
  - unfold encode. lia.
  - done.
Qed.

Lemma cursor_skip_exact_witness :
  cursor_skip 14 (cursor_new (encode Sample.write_df ++ [9; 9]))
  = Some (Ok (tt, MkReader (encode Sample.write_df ++ [9; 9]) 13)).
Proof. apply (cursor_skip_exact Sample.write_df [9; 9]). reflexivity. Defined.
