(* ===== verification/DepotVariant.v ===== *)
(** * Depot variants: the sink and source halves, transfer, readout.

    Models [chupa/depot/src/variant.rs].  The traits are classes; what a
    variant promises is stated once, as which layers a source yields
    ([yields]) and which state a sink reaches ([accepts]), and [transfer] is
    proved against those promises only. *)

From S2P Require Import Prelude.
From S2P Require Import BTreeMap.
From S2P Require Import DepotModel.
From S2P Require Import DepotCompose.
From S2P Require Import DepotLaws.
Open Scope Z_scope.

(** ** The traits *)

(** [trait LayerSink] *)
Class LayerSink (S E : Type) : Type :=
  put_layer : S → Layer → S * Result unit E.

(** [trait LayerSource] *)
Class LayerSource (S E : Type) : Type :=
  next_layer : S → S * Result (option Layer) E.

(** [enum TransferError] *)
Inductive TransferError (S K : Type) : Type :=
| Source (e : S)
| Sink (e : K).
Arguments Source {S K} e.
Arguments Sink {S K} e.

Section transfer.
Context {Src Snk SE KE : Type} `{LayerSource Src SE} `{LayerSink Snk KE}.

(** The loop of [transfer]: both sides after it, and its result; [None] when
    the fuel ran out. *)
Fixpoint transfer_loop (fuel : nat) (src : Src) (dst : Snk) (moved : Z) :
    option (Src * Snk * Result Z (TransferError SE KE)) :=
  match fuel with
  | O => None
  | S f =>
      match next_layer src with
      | (src, Err e) => Some (src, dst, Err (Source e))
      | (src, Ok None) => Some (src, dst, Ok moved)
      | (src, Ok (Some layer)) =>
          match put_layer dst layer with
          | (dst, Err e) => Some (src, dst, Err (Sink e))
          | (dst, Ok tt) => transfer_loop f src dst (moved + 1)
          end
      end
  end.

(** [transfer] *)
Definition transfer (fuel : nat) (src : Src) (dst : Snk) := transfer_loop fuel src dst 0.

(** ** The promises *)

(** The source yields exactly [ls] and then ends. *)
Fixpoint yields (src : Src) (ls : list Layer) (src' : Src) : Prop :=
  match ls with
  | [] => next_layer src = (src', Ok None)
  | l :: ls => ∃ s, next_layer src = (s, Ok (Some l)) ∧ yields s ls src'
  end.

(** The sink takes all of [ls], in order. *)
Fixpoint accepts (dst : Snk) (ls : list Layer) (dst' : Snk) : Prop :=
  match ls with
  | [] => dst = dst'
  | l :: ls => ∃ d, put_layer dst l = (d, Ok tt) ∧ accepts d ls dst'
  end.

Lemma transfer_loop_all ls src src' dst dst' moved fuel :
  yields src ls src' → accepts dst ls dst' → (length ls < fuel)%nat →
  transfer_loop fuel src dst moved = Some (src', dst', Ok (moved + zlen ls)).
Proof.
  revert src dst moved fuel. induction ls as [|l ls IH]; intros src dst moved fuel Hy Ha Hf;
    (destruct fuel as [|fuel]; [simpl in Hf; lia|]); simpl in *.
  - rewrite Hy, Ha. do 3 f_equal. unfold zlen. simpl. lia.
  - destruct Hy as (s&->&Hy), Ha as (d&->&Ha). rewrite (IH s d) by (done || lia).
    do 3 f_equal. unfold zlen. simpl. lia.
Qed.

(** [ls] is taken, then [l] is refused with [e]. *)
Lemma transfer_loop_refused ls l rest src src' dst d d' e moved fuel :
  yields src (ls ++ l :: rest) src' → accepts dst ls d → put_layer d l = (d', Err e) →
  (length ls < fuel)%nat →
  ∃ s, transfer_loop fuel src dst moved = Some (s, d', Err (Sink e)).
Proof.
  revert src dst moved fuel. induction ls as [|x ls IH]; intros src dst moved fuel Hy Ha Hr Hf;
    (destruct fuel as [|fuel]; [simpl in Hf; lia|]); simpl in *.
  - destruct Hy as (s&->&_). subst d. rewrite Hr. by eexists.
  - destruct Hy as (s&->&Hy), Ha as (dd&->&Ha). apply (IH s dd); [done|done|done|lia].
Qed.
End transfer.

(** ** Readout *)

(** [enum ReadoutKind] *)
Inductive ReadoutKind : Type := Branch | Leaf.

(** [struct ReadoutEntry] *)
Record ReadoutEntry : Type := MkReadoutEntry {
  kind : ReadoutKind;
  blob_len : option Z;
  entry_attrs : Attrs
}.

(** [enum Blob] of the readout; a host path is its byte string. *)
Inductive ReadoutBlob : Type :=
| Bytes (b : bytes)
| File (path : bytes).

(** [trait Readout] *)
Class Readout (R : Type) : Type := {
  entry : R → list Name → option ReadoutEntry;
  readout_children : R → list Name → list Name;
  readout_blob : R → list Name → option ReadoutBlob
}.

(** [view_at] *)
Fixpoint view_at (v : View) (at_ : list Name) : option View :=
  match at_ with
  | [] => Some v
  | name :: rest => match bt_get name (v_children v) with Some c => view_at c rest | None => None end
  end.

(** [view_entry] *)
Definition view_entry (v : View) : ReadoutEntry :=
  MkReadoutEntry (if is_nil (v_children v) then Leaf else Branch) (zlen <$> v_blob v) (v_attrs v).

(** [nest_view] *)
Definition nest_view (view : View) (prefix : list Name) : View :=
  fold_left (λ v name, MkView None [] (bt_insert name v [])) (rev prefix) view.

(** [struct ViewReadout] *)
Record ViewReadout : Type := MkViewReadout { ro_view : View }.

(** [ViewReadout::nested] *)
Definition nested (view : View) (prefix : list Name) : ViewReadout :=
  MkViewReadout (nest_view view prefix).

(** [impl Readout for ViewReadout] *)
#[export] Instance view_readout : Readout ViewReadout := {
  entry r at_ := view_entry <$> view_at (ro_view r) at_;
  readout_children r at_ :=
    match view_at (ro_view r) at_ with Some v => (v_children v).*1 | None => [] end;
  readout_blob r at_ := view_at (ro_view r) at_ ≫= λ v, Bytes <$> v_blob v
}.

Lemma nest_view_cons v name prefix :
  nest_view v (name :: prefix) = MkView None [] [(name, nest_view v prefix)].
Proof. unfold nest_view. simpl. by rewrite fold_left_app. Qed.

Lemma view_at_nest v prefix at_ : view_at (nest_view v prefix) (prefix ++ at_) = view_at v at_.
Proof.
  induction prefix as [|name prefix IH]; [done|]. rewrite nest_view_cons. simpl.
  by rewrite cmp_refl.
Qed.

Lemma view_at_app v p q :
  view_at v (p ++ q) = view_at v p ≫= λ u, view_at u q.
Proof. revert v. induction p as [|k p IH]; intros v; simpl; [done|]. case_match; [apply IH|done]. Qed.

Lemma view_at_wf v p u : wf_view v = true → view_at v p = Some u → wf_view u = true.
Proof.
  revert v. induction p as [|k p IH]; intros v Hv; simpl; [by intros [= <-]|].
  destruct (bt_get k (v_children v)) as [c|] eqn:E; [|done]. apply IH.
  apply wf_view_unfold in Hv as (_&_&Hall). by eapply Hall, bt_get_elem.
Qed.

(** ** Claims *)

(** Transfer moves everything: whatever layers the source yields and the
    sink takes, in order, all of them are moved and counted. *)
Theorem transfer_moves_all {Src Snk SE KE} `{LayerSource Src SE} `{LayerSink Snk KE}
    (ls : list Layer) (src src' : Src) (dst dst' : Snk) fuel :
  yields src ls src' → accepts dst ls dst' → (length ls < fuel)%nat →
  transfer fuel src dst = Some (src', dst', Ok (zlen ls)).
Proof. intros Hy Ha Hf. unfold transfer. by rewrite (transfer_loop_all ls src src' dst dst'). Qed.

(** Transfer stops at the first layer the sink refuses: the sink is left
    with exactly the layers before it, and its error is reported as the sink's. *)
Theorem transfer_stops_at_refusal {Src Snk SE KE} `{LayerSource Src SE} `{LayerSink Snk KE}
    (ls rest : list Layer) l (src src' : Src) (dst d d' : Snk) e fuel :
  yields src (ls ++ l :: rest) src' → accepts dst ls d → put_layer d l = (d', Err e) →
  (length ls < fuel)%nat →
  ∃ s, transfer fuel src dst = Some (s, d', Err (Sink e)).
Proof. intros. by eapply transfer_loop_refused. Qed.

(** A sequence in memory: a source that pops, and a sink of bounded room. *)
Definition pop_source (ls : list Layer) : list Layer * Result (option Layer) unit :=
  match ls with [] => ([], Ok None) | l :: ls => (ls, Ok (Some l)) end.
Definition room_sink (room : nat) (ls : list Layer) (l : Layer) : list Layer * Result unit nat :=
  if decide (length ls < room)%nat then (ls ++ [l], Ok tt) else (ls, Err room).

Lemma transfer_moves_all_witness :
  @transfer _ _ _ _ pop_source (room_sink 9) 5 [Sample.write_df; Sample.remove_d] []
  = Some ([], [Sample.write_df; Sample.remove_d], Ok 2).
Proof.
  apply (@transfer_moves_all _ _ _ _ pop_source (room_sink 9) [Sample.write_df; Sample.remove_d]);
    [repeat (simpl; eexists; split; [reflexivity|]); reflexivity..|vm_compute; lia].
Defined.

Lemma transfer_stops_at_refusal_witness :
  ∃ s, @transfer _ _ _ _ pop_source (room_sink 1) 5 [Sample.write_df; Sample.remove_d] []
       = Some (s, [Sample.write_df], Err (Sink 1%nat)).
Proof.
  apply (@transfer_stops_at_refusal _ _ _ _ pop_source (room_sink 1)
    [Sample.write_df] [] Sample.remove_d _ [] _ [Sample.write_df]);
    [repeat (simpl; eexists; split; [reflexivity|]); reflexivity
    |repeat (simpl; eexists; split; [reflexivity|]); reflexivity|reflexivity|vm_compute; lia].
Defined.

(** A view served under a prefix answers, below the prefix, exactly what
    the view itself answers. *)
Theorem nested_readout view prefix at_ :
  entry (nested view prefix) (prefix ++ at_) = entry (MkViewReadout view) at_
  ∧ readout_children (nested view prefix) (prefix ++ at_) = readout_children (MkViewReadout view) at_
  ∧ readout_blob (nested view prefix) (prefix ++ at_) = readout_blob (MkViewReadout view) at_.
Proof. simpl. by rewrite view_at_nest. Qed.

(** Listing and lookup agree: a location has an entry exactly when its
    parent lists it. *)
Theorem children_are_entries view at_ name :
  wf_view view = true →
  name ∈ readout_children (MkViewReadout view) at_
  ↔ is_Some (entry (MkViewReadout view) (at_ ++ [name])).
Proof.
  intros Hv. simpl. rewrite view_at_app. destruct (view_at view at_) as [u|] eqn:E; simpl.
  - pose proof (view_at_wf _ _ _ Hv E) as (_&Hok&_)%wf_view_unfold. rewrite list_elem_of_fmap. split.
    + intros ([k c]&->&Hin). simpl. rewrite (bt_elem_get k c) by done. by eexists.
    + destruct (bt_get name (v_children u)) as [c|] eqn:Ek; simpl; [|by intros []].
      intros _. exists (name, c). split; [done|by apply bt_get_elem].
  - split; [set_solver|by intros []].
Qed.

Lemma children_are_entries_witness :
  Sample.name_d ∈ readout_children (MkViewReadout Sample.host_view) [].
Proof.
  apply (children_are_entries Sample.host_view [] Sample.name_d); [reflexivity|].
  vm_compute. by eexists.
Defined.
