(* ===== verification/DepotFrames.v ===== *)
(** * The stream variant: layers as compressed frames.

    Models [chupa/depot-stream/src/lib.rs].  The compressor (zstd with a
    reference prefix) is a parameter with its documented round trip as a
    hypothesis; the byte transport is a class, so that the reader is proved
    against any transport that may hand out the bytes in pieces. *)

From S2P Require Import Prelude.
From S2P Require Import BTreeMap.
From S2P Require Import IoRead.
From S2P Require Import DepotModel.
From S2P Require Import DepotCompose.
From S2P Require Import DepotLaws.
From S2P Require Import DepotCodec.
From S2P Require Import DepotVariant.
Open Scope Z_scope.

(** [enum Error]; an I/O error and a zstd error name are numbers. *)
Inductive Error : Type :=
| Io (e : Z)
| Zstd (e : Z)
| Codec (e : DecodeError)
| StreamTruncated
| BadFrame.

(** [u32::to_le_bytes] and [u32::from_le_bytes], the cast [as u32] included. *)
Definition as_u32 (n : Z) : Z := n mod u32_limit.
Definition to_le_bytes (n : Z) : bytes := le_encode 4 n.
Definition from_le_bytes (b : bytes) : Z := le_decode b.

(** [codec::decode]; decoding always ends ([decode_total]). *)
Definition decode_layer (b : bytes) : Result Layer DecodeError :=
  match decode b with Some r => r | None => Err Truncated end.

Section frames.
(** zstd: compression at a level, and decompression into a buffer of the given
    capacity, both with an optional reference prefix. *)
Variable zstd_compress : option bytes → Z → bytes → Result bytes Z.
Variable zstd_decompress : option bytes → nat → bytes → Result bytes Z.

Definition map_err {A E F} (f : E → F) (r : Result A E) : Result A F :=
  match r with Ok a => Ok a | Err e => Err (f e) end.

(** [compress] *)
Definition compress (src : bytes) (prefix : option bytes) (level : Z) : Result bytes Error :=
  map_err Zstd (zstd_compress prefix level src).

(** [decompress] *)
Definition decompress (src : bytes) (prefix : option bytes) (raw_len : nat) : Result bytes Error :=
  match zstd_decompress prefix raw_len src with
  | Err e => Err (Zstd e)
  | Ok out => if negb (length out =? raw_len)%nat then Err BadFrame else Ok out
  end.

(** ** Writer *)

(** [struct StreamWriter] *)
Record StreamWriter (W : Type) : Type := MkStreamWriter {
  sw_out : W;
  sw_prev : option bytes;
  sw_level : Z;
  sw_written : Z
}.
Arguments MkStreamWriter {W}.
Arguments sw_out {W}.
Arguments sw_prev {W}.
Arguments sw_level {W}.
Arguments sw_written {W}.

(** [StreamWriter::new] *)
Definition stream_writer_new {W} (out : W) (level : Z) : StreamWriter W :=
  MkStreamWriter out None level 0.

Section writer.
Context {W : Type} `{Write W}.

(** Three [write_all]s, stopping at the first that fails. *)
Fixpoint write_parts (w : W) (parts : list bytes) : W * Result unit Z :=
  match parts with
  | [] => (w, Ok tt)
  | p :: parts =>
      match write_all w p with
      | (w, Ok tt) => write_parts w parts
      | (w, Err e) => (w, Err e)
      end
  end.

(** [impl LayerSink for StreamWriter] *)
#[export] Instance stream_sink : LayerSink (StreamWriter W) Error := λ sw layer,
  let record := encode layer in
  match compress record (sw_prev sw) (sw_level sw) with
  | Err e => (sw, Err e)
  | Ok frame =>
      match write_parts (sw_out sw)
              [to_le_bytes (as_u32 (zlen record)); to_le_bytes (as_u32 (zlen frame)); frame] with
      | (w, Err e) => (MkStreamWriter w (sw_prev sw) (sw_level sw) (sw_written sw), Err (Io e))
      | (w, Ok tt) =>
          (MkStreamWriter w (Some record) (sw_level sw) (sw_written sw + (8 + zlen frame)), Ok tt)
      end
  end.
End writer.

(** ** Reader *)

(** [struct StreamReader] *)
Record StreamReader (R : Type) : Type := MkStreamReader { sr_input : R; sr_prev : option bytes }.
Arguments MkStreamReader {R}.
Arguments sr_input {R}.
Arguments sr_prev {R}.

(** [StreamReader::new] *)
Definition stream_reader_new {R} (input : R) : StreamReader R := MkStreamReader input None.

Section reader.
Context {R : Type} `{Read R}.

(** The fill loop of [read_exact_opt]: every round reads at least a byte, so
    that as many rounds as bytes are asked for are enough. *)
Fixpoint fill (rounds : nat) (input : R) (want : nat) (filled : bytes) (at_boundary : bool) :
    R * Result (option bytes) Error :=
  if (want <=? length filled)%nat then (input, Ok (Some filled)) else
  match rounds with
  | O => (input, Err StreamTruncated)
  | S rounds =>
      match read input (want - length filled) with
      | (input, Err e) => (input, Err (Io e))
      | (input, Ok []) =>
          if is_nil filled && at_boundary then (input, Ok None)
          else (input, Err StreamTruncated)
      | (input, Ok chunk) => fill rounds input want (filled ++ chunk) at_boundary
      end
  end.

(** [read_exact_opt]: the bytes read stand for the filled buffer. *)
Definition read_exact_opt (input : R) (want : nat) (at_boundary : bool) :
    R * Result (option bytes) Error := fill want input want [] at_boundary.

(** [impl LayerSource for StreamReader] *)
#[export] Instance stream_source : LayerSource (StreamReader R) Error := λ sr,
  match read_exact_opt (sr_input sr) 8 true with
  | (i, Err e) => (MkStreamReader i (sr_prev sr), Err e)
  | (i, Ok None) => (MkStreamReader i (sr_prev sr), Ok None)
  | (i, Ok (Some head)) =>
      let raw_len := Z.to_nat (from_le_bytes (take 4 head)) in
      let flen := Z.to_nat (from_le_bytes (drop 4 head)) in
      match read_exact_opt i flen false with
      | (i, Err e) => (MkStreamReader i (sr_prev sr), Err e)
      | (i, Ok None) => (MkStreamReader i (sr_prev sr), Err StreamTruncated)
      | (i, Ok (Some frame)) =>
          match decompress frame (sr_prev sr) raw_len with
          | Err e => (MkStreamReader i (sr_prev sr), Err e)
          | Ok record =>
              match decode_layer record with
              | Err e => (MkStreamReader i (sr_prev sr), Err (Codec e))
              | Ok layer => (MkStreamReader i (Some record), Ok (Some layer))
              end
          end
      end
  end.
End reader.
End frames.

Arguments MkStreamWriter {W}.
Arguments sw_out {W}.
Arguments sw_prev {W}.
Arguments sw_level {W}.
Arguments sw_written {W}.
Arguments MkStreamReader {R}.
Arguments sr_input {R}.
Arguments sr_prev {R}.

(** ** Reading from a transport *)

Section transport.
Context {R : Type} `{ReadLaws R contents}.

(** The fill loop is the loop of [IoRead], with this module's errors. *)
Lemma fill_read_fill rounds r want filled boundary :
  fill rounds r want filled boundary =
  match read_fill rounds r want filled with
  | (r, Ok b) => (r, Ok (Some b))
  | (r, Err (Failed e)) => (r, Err (Io e))
  | (r, Err (Ended got)) =>
      (r, if is_nil got && boundary then Ok None else Err StreamTruncated)
  | (r, Err Stuck) => (r, Err StreamTruncated)
  end.
Proof.
  revert r filled. induction rounds as [|rounds IH]; intros r filled; simpl;
    (destruct (want <=? length filled)%nat; [done|]); [done|].
  destruct (read r (want - length filled)) as [r' [[|b chunk]|e]]; [|apply IH|done].
  by destruct (is_nil filled && boundary).
Qed.

Lemma read_exact_complete r bs rest boundary :
  contents r = bs ++ rest →
  ∃ r', read_exact_opt r (length bs) boundary = (r', Ok (Some bs)) ∧ contents r' = rest.
Proof.
  intros Hc. destruct (read_fill_complete (length bs) r (length bs) [] bs rest) as (r'&Hf&Hr'); [done..|].
  exists r'. split; [|done]. unfold read_exact_opt. by rewrite fill_read_fill, Hf.
Qed.

Lemma read_exact_short r want boundary :
  (length (contents r) < want)%nat →
  ∃ r', read_exact_opt r want boundary =
    (r', if is_nil (contents r) && boundary then Ok None else Err StreamTruncated).
Proof.
  intros Hw. destruct (read_fill_short want r want []) as (r'&Hf); [simpl; lia..|].
  exists r'. unfold read_exact_opt. by rewrite fill_read_fill, Hf.
Qed.
End transport.

(** ** Little-endian headers *)

Lemma le_bytes_roundtrip n : 0 ≤ n < u32_limit → from_le_bytes (to_le_bytes n) = n.
Proof. apply (le_roundtrip 4). Qed.

Lemma header_roundtrip n :
  n < u32_limit → 0 ≤ n → from_le_bytes (to_le_bytes (as_u32 n)) = n.
Proof. intros. unfold as_u32. rewrite Z.mod_small by done. by apply le_bytes_roundtrip. Qed.

(** ** Round trip *)

Lemma decode_layer_encode l : encodable l = true → decode_layer (encode l) = Ok (canon_layer l).
Proof.
  intros Hl. unfold decode_layer. rewrite <- (app_nil_r (encode l)).
  by rewrite decode_encode_app.
Qed.

(** zstd's bound on the size of a frame. *)
Definition compress_bound (n : Z) : Z := n + n / 256 + 64.

(** A layer the frame headers can describe: both lengths fit 32 bits. *)
Definition storable (l : Layer) : bool :=
  encodable l && (compress_bound (zlen (encode l)) <? u32_limit).

Section roundtrip.
Variable zstd_compress : option bytes → Z → bytes → Result bytes Z.
Variable zstd_decompress : option bytes → nat → bytes → Result bytes Z.
Hypothesis zstd_roundtrip : ∀ prefix level raw frame,
  zstd_compress prefix level raw = Ok frame →
  zstd_decompress prefix (length raw) frame = Ok raw.
Hypothesis zstd_bounded : ∀ prefix level raw frame,
  zstd_compress prefix level raw = Ok frame → zlen frame ≤ compress_bound (zlen raw).

Context {R : Type} `{ReadLaws R contents}.

#[local] Existing Instance stream_sink.
#[local] Existing Instance stream_source.
#[local] Instance the_sink : LayerSink (StreamWriter bytes) Error := stream_sink zstd_compress.
#[local] Instance the_source : LayerSource (StreamReader R) Error := stream_source zstd_decompress.

(** One frame as the writer lays it out. *)
Definition frame_bytes (record frame : bytes) : bytes :=
  to_le_bytes (as_u32 (zlen record)) ++ to_le_bytes (as_u32 (zlen frame)) ++ frame.

Lemma put_layer_ok (sw sw' : StreamWriter bytes) l :
  put_layer sw l = (sw', Ok tt) →
  ∃ frame, zstd_compress (sw_prev sw) (sw_level sw) (encode l) = Ok frame ∧
    sw_out sw' = sw_out sw ++ frame_bytes (encode l) frame ∧
    sw_prev sw' = Some (encode l) ∧ sw_level sw' = sw_level sw.
Proof.
  unfold put_layer, the_sink, stream_sink, compress. simpl.
  destruct (zstd_compress _ _ _) as [frame|e]; simpl; [|done]. intros [= <-].
  exists frame. unfold frame_bytes. simpl. by rewrite <- !app_assoc.
Qed.

Lemma storable_spec l :
  storable l = true →
  encodable l = true ∧ zlen (encode l) < u32_limit ∧ compress_bound (zlen (encode l)) < u32_limit.
Proof.
  unfold storable. intros [Hl Hb%Z.ltb_lt]%andb_true_iff.
  split_and!; [done| |done]. unfold compress_bound in *. pose proof (zlen_nonneg (encode l)).
  assert (0 ≤ zlen (encode l) / 256) by (apply Z.div_pos; lia). lia.
Qed.

(** Reading back one frame. *)
Lemma next_layer_frame r prev level l frame rest :
  storable l = true → zstd_compress prev level (encode l) = Ok frame →
  contents r = frame_bytes (encode l) frame ++ rest →
  ∃ r', next_layer (MkStreamReader r prev)
        = (MkStreamReader r' (Some (encode l)), Ok (Some (canon_layer l)))
        ∧ contents r' = rest.
Proof.
  intros (Hl&Hrec&Hb)%storable_spec Hz Hc. unfold frame_bytes in Hc.
  rewrite app_assoc in Hc. rewrite <- app_assoc in Hc.
  unfold next_layer, the_source, stream_source. cbn [sr_input sr_prev].
  destruct (read_exact_complete r _ _ true Hc) as (r1&Hr1&Hc1). change 8%nat with
    (length (to_le_bytes (as_u32 (zlen (encode l))) ++ to_le_bytes (as_u32 (zlen frame)))).
  rewrite Hr1. change 4%nat with (length (to_le_bytes (as_u32 (zlen (encode l))))).
  cbv zeta. rewrite take_app_length, drop_app_length.
  pose proof (zstd_bounded _ _ _ _ Hz) as Hfb.
  rewrite !header_roundtrip by (apply zlen_nonneg || lia).
  unfold zlen at 1 2. rewrite !Nat2Z.id.
  destruct (read_exact_complete r1 _ _ false Hc1) as (r2&Hr2&Hc2). rewrite Hr2.
  unfold decompress. rewrite (zstd_roundtrip _ _ _ _ Hz), Nat.eqb_refl. cbn [negb].
  rewrite decode_layer_encode by done. by exists r2.
Qed.

Lemma next_layer_end r prev :
  contents r = [] → ∃ r', next_layer (MkStreamReader r prev) = (MkStreamReader r' prev, Ok None).
Proof.
  intros Hc. unfold next_layer, the_source, stream_source. cbn [sr_input sr_prev].
  destruct (read_exact_short r 8 true) as (r'&->); [rewrite Hc; simpl; lia|].
  rewrite Hc. simpl. by eexists.
Qed.

Lemma written_yields (sw sw' : StreamWriter bytes) ls :
  forallb storable ls = true → accepts sw ls sw' →
  ∃ suffix, sw_out sw' = sw_out sw ++ suffix ∧
  ∀ r, contents r = suffix → ∃ r', yields (MkStreamReader r (sw_prev sw)) (canon_layer <$> ls) r'.
Proof.
  revert sw. induction ls as [|l ls IH]; intros sw Hs Ha; simpl in *.
  - subst sw'. exists []. split; [by rewrite app_nil_r|]. intros r Hr.
    destruct (next_layer_end r (sw_prev sw) Hr) as (r'&->). by eexists.
  - split_andb. destruct Ha as (sw1&Hput&Ha). apply put_layer_ok in Hput as (frame&Hz&Hout&Hprev&Hlev).
    destruct (IH sw1) as (suffix&Hsuf&Hread); [done|done|].
    exists (frame_bytes (encode l) frame ++ suffix). split; [by rewrite Hsuf, Hout, app_assoc|].
    intros r Hr. destruct (next_layer_frame r (sw_prev sw) (sw_level sw) l frame suffix) as (r1&Hn&Hc1); [done..|].
    rewrite Hprev in Hread. destruct (Hread r1 Hc1) as (r'&Hy). exists r', (MkStreamReader r1 (Some (encode l))).
    split; done.
Qed.

(** Layers written to a stream come back: over any transport of the bytes
    the writer produced, in pieces of any size, the reader yields the same
    layers in the same order and then ends. *)
Theorem stream_roundtrip ls level (sw : StreamWriter bytes) r :
  forallb storable ls = true → accepts (stream_writer_new [] level) ls sw →
  contents r = sw_out sw →
  ∃ r', yields (stream_reader_new r) (canon_layer <$> ls) r'.
Proof.
  intros Hs Ha Hc. destruct (written_yields _ _ _ Hs Ha) as (suffix&Hout&Hread). simpl in *.
  apply Hread. congruence.
Qed.

(** The frame in which a stream is cut *)
Lemma cut_frame_is_error (sw sw' : StreamWriter bytes) l cut rest r :
  storable l = true → put_layer sw l = (sw', Ok tt) →
  sw_out sw' = sw_out sw ++ cut ++ rest → cut ≠ [] → rest ≠ [] → contents r = cut →
  ∃ r', next_layer (MkStreamReader r (sw_prev sw)) = (r', Err StreamTruncated).
Proof.
  intros (Hl&Hrec&Hb)%storable_spec (frame&Hz&Hout&_)%put_layer_ok Hcut Hne Hrest Hc.
  rewrite Hout in Hcut. apply app_inv_head in Hcut. unfold frame_bytes in Hcut.
  unfold next_layer, the_source, stream_source. cbn [sr_input sr_prev].
  destruct (decide (length cut < 8)%nat) as [Hlt|Hge].
  { destruct (read_exact_short r 8 true) as (r'&->); [by rewrite Hc|].
    rewrite Hc. destruct cut; [done|]. by eexists. }
  set (h := to_le_bytes (as_u32 (zlen (encode l))) ++ to_le_bytes (as_u32 (zlen frame))).
  assert (Hh : length h = 8%nat) by done. rewrite app_assoc in Hcut. fold h in Hcut.
  assert (Hsplit : cut = h ++ drop 8 cut ∧ frame = drop 8 cut ++ rest).
  { pose proof (f_equal (take 8) Hcut) as Ht. pose proof (f_equal (drop 8) Hcut) as Hd.
    rewrite <- Hh in Ht, Hd at 1. rewrite take_app_length, take_app_le in Ht by lia.
    rewrite drop_app_length, drop_app_le in Hd by lia. split; [|done].
    rewrite Ht at 1. by rewrite take_drop. }
  destruct Hsplit as [Hcut' Hframe]. rewrite Hcut' in Hc.
  destruct (read_exact_complete r _ _ true Hc) as (r1&Hr1&Hc1). rewrite Hh in Hr1. rewrite Hr1.
  unfold h at 1 2. change 4%nat with (length (to_le_bytes (as_u32 (zlen (encode l))))).
  cbv zeta. rewrite take_app_length, drop_app_length.
  pose proof (zstd_bounded _ _ _ _ Hz) as Hfb.
  rewrite !header_roundtrip by (apply zlen_nonneg || lia). unfold zlen. rewrite !Nat2Z.id.
  destruct (read_exact_short r1 (length frame) false) as (r2&->).
  - rewrite Hc1. pose proof (f_equal length Hframe) as Hlf. rewrite length_app in Hlf.
    destruct rest; [done|]. simpl in Hlf. lia.
  - rewrite andb_false_r. by eexists.
Qed.
(** The reader returns [ls], one layer after the other, and is then at [sr']. *)
Fixpoint reads (sr : StreamReader R) (ls : list Layer) (sr' : StreamReader R) : Prop :=
  match ls with
  | [] => sr' = sr
  | l :: ls => ∃ s, next_layer sr = (s, Ok (Some l)) ∧ reads s ls sr'
  end.

(** Whole frames are read whatever follows them. *)
Lemma written_reads (sw sw' : StreamWriter bytes) ls :
  forallb storable ls = true → accepts sw ls sw' →
  ∃ written, sw_out sw' = sw_out sw ++ written ∧
  ∀ r more, contents r = written ++ more →
    ∃ r', reads (MkStreamReader r (sw_prev sw)) (canon_layer <$> ls) (MkStreamReader r' (sw_prev sw')) ∧ contents r' = more.
Proof.
  revert sw. induction ls as [|l ls IH]; intros sw Hs Ha; simpl in *.
  - subst sw'. exists []. split; [by rewrite app_nil_r|]. intros r more Hr. by exists r.
  - split_andb. destruct Ha as (sw1&Hput&Ha). apply put_layer_ok in Hput as (frame&Hz&Hout&Hprev&Hlev).
    destruct (IH sw1) as (written&Hw&Hread); [done|done|].
    exists (frame_bytes (encode l) frame ++ written). split; [by rewrite Hw, Hout, app_assoc|].
    intros r more Hr. rewrite <- app_assoc in Hr.
    destruct (next_layer_frame r (sw_prev sw) (sw_level sw) l frame (written ++ more)) as (r1&Hn&Hc1); [done..|].
    rewrite Hprev in Hread. destruct (Hread r1 more Hc1) as (r'&Hy&Hm). exists r'. split; [|done].
    by exists (MkStreamReader r1 (Some (encode l))).
Qed.

(** C40. A stream of well-formed layers whose lengths fit the 32 bits of a frame
    header, cut inside a frame: over any transport of what is left, the reader
    returns every layer whose frame is whole, in order, and then reports the
    truncation; it neither ends silently nor returns a layer of the cut frame. *)
Theorem stream_cut_is_error ls level (sw sw' : StreamWriter bytes) l cut rest r :
  forallb storable ls = true → accepts (stream_writer_new [] level) ls sw →
  storable l = true → put_layer sw l = (sw', Ok tt) →
  sw_out sw' = sw_out sw ++ cut ++ rest → cut ≠ [] → rest ≠ [] → contents r = sw_out sw ++ cut →
  ∃ sr sr', reads (stream_reader_new r) (canon_layer <$> ls) sr ∧ next_layer sr = (sr', Err StreamTruncated).
Proof.
  intros Hs Ha Hl Hput Hout Hne Hrest Hc. destruct (written_reads _ _ _ Hs Ha) as (written&Hw&Hread). simpl in *.
  destruct (Hread r cut) as (r1&Hr1&Hc1); [by rewrite Hc, Hw|].
  destruct (cut_frame_is_error sw sw' l cut rest r1 Hl Hput Hout Hne Hrest Hc1) as (sr'&Hn).
  by exists (MkStreamReader r1 (sw_prev sw)), sr'.
Qed.
End roundtrip.

(** ** A concrete compressor *)

(** Storing without compressing, with a capacity check on the way out. *)
Definition store_compress (_ : option bytes) (_ : Z) (raw : bytes) : Result bytes Z := Ok raw.
Definition store_decompress (_ : option bytes) (capacity : nat) (frame : bytes) : Result bytes Z :=
  if (length frame <=? capacity)%nat then Ok frame else Err 70.

Lemma store_roundtrip prefix level raw frame :
  store_compress prefix level raw = Ok frame →
  store_decompress prefix (length raw) frame = Ok raw.
Proof. intros [= <-]. unfold store_decompress. by rewrite Nat.leb_refl. Qed.

Lemma store_bounded prefix level raw frame :
  store_compress prefix level raw = Ok frame → zlen frame ≤ compress_bound (zlen raw).
Proof.
  intros [= <-]. unfold compress_bound. pose proof (zlen_nonneg raw).
  assert (0 ≤ zlen raw / 256) by (apply Z.div_pos; lia). lia.
Qed.

(** The bytes of two layers written one after the other. *)
Definition two_layers : list Layer := [Sample.write_df; Sample.remove_df].
Definition two_written : StreamWriter bytes :=
  let put sw l := (stream_sink store_compress sw l).1 in
  fold_left put two_layers (stream_writer_new [] 3).

Lemma stream_roundtrip_witness :
  ∃ r', @yields _ _ (stream_source store_decompress)
          (stream_reader_new (MkTrickle (sw_out two_written))) two_layers r'.
Proof.
  apply (stream_roundtrip store_compress store_decompress store_roundtrip store_bounded
    two_layers 3 two_written (MkTrickle (sw_out two_written))); [reflexivity| |reflexivity].
  repeat (simpl; eexists; split; [reflexivity|]). reflexivity.
Defined.

Definition one_written : StreamWriter bytes := (stream_sink store_compress (stream_writer_new [] 3) Sample.write_df).1.

Lemma stream_cut_is_error_witness :
  let cut := take 11 (drop (length (sw_out one_written)) (sw_out two_written)) in
  ∃ sr sr', reads store_decompress (stream_reader_new (MkTrickle (sw_out one_written ++ cut))) [Sample.write_df] sr ∧
    stream_source store_decompress sr = (sr', Err StreamTruncated).
Proof.
  apply (stream_cut_is_error store_compress store_decompress store_roundtrip store_bounded
    [Sample.write_df] 3 one_written two_written Sample.remove_df
    (take 11 (drop (length (sw_out one_written)) (sw_out two_written)))
    (drop 11 (drop (length (sw_out one_written)) (sw_out two_written))));
    [reflexivity|simpl; eexists; split; reflexivity|reflexivity|reflexivity|vm_compute; reflexivity|vm_compute; discriminate|vm_compute; discriminate|reflexivity].
Defined.
