(* ===== verification/ChainStore.v ===== *)
(** * The chain depot as its clients see it.

    The contract of [chupa/wikimak/depot/src/lib.rs] ([Depot]): chains of
    opaque frames in three tiers, newest first, as the class [ChainStore] with
    its laws over an abstract chain; and the two pure helpers clients build
    their prepends with, [chunk_newest_first] and [compose_f1]. *)

From S2P Require Import Prelude.
From S2P Require Import BTreeMap.
Open Scope Z_scope.

(** [enum Error] of the depot; the payload of [Corrupt] is dropped. *)
Inductive DepotError : Type :=
| DIo (e : Z)
| NoFrame
| ChainIdOutOfRange
| FirstPrependHasF1
| MissingF1
| CannotSealNoF1
| ChainNotEmpty
| StaleBuilder
| IndexSizeMismatch
| FrameTooLarge
| Format
| Corrupt.

(** ** Chains *)

(** The frames of a chain: the head, the accumulator, the cold frames newest
    first. *)
Record Chain : Type := MkChain {
  c_f0 : bytes;
  c_f1 : option bytes;
  c_cold : list bytes
}.

(** What a prepend makes of a chain. *)
Definition chain_prepend (c : option Chain) (f0 : bytes) (f1 : option bytes) (seal : bool) :
    Result Chain DepotError :=
  match c with
  | None =>
      if match f1 with Some _ => true | None => false end then Err FirstPrependHasF1
      else if seal then Err CannotSealNoF1
      else Ok (MkChain f0 None [])
  | Some c =>
      match f1 with
      | None => Err MissingF1
      | Some f1 =>
          if seal then
            match c_f1 c with
            | None => Err CannotSealNoF1
            | Some old => Ok (MkChain f0 (Some f1) (old :: c_cold c))
            end
          else Ok (MkChain f0 (Some f1) (c_cold c))
      end
  end.

(** The operations of [Depot] its clients use. *)
Class ChainStore (D : Type) : Type := {
  d_read_f0 : D → Z → Result bytes DepotError;
  d_read_f1 : D → Z → Result (option bytes) DepotError;
  (** [cold_iter]: the frames in walk order. *)
  d_cold : D → Z → Result (list (Result bytes DepotError)) DepotError;
  d_prepend : D → Z → bytes → option bytes → bool → D * Result unit DepotError;
  d_delete_chain : D → Z → D * Result unit DepotError
}.

(** The laws, over the chain a depot holds under each id it can hold.  A
    mutation may still fail for want of room; then nothing is promised. *)
Class ChainStoreLaws (D : Type) `{ChainStore D} (valid : D → Prop) (chain_of : D → Z → option Chain)
    (in_range : Z → Prop) : Prop := {
  read_f0_spec : ∀ d id, valid d → in_range id →
    d_read_f0 d id = match chain_of d id with Some c => Ok (c_f0 c) | None => Err NoFrame end;
  read_f1_spec : ∀ d id, valid d → in_range id →
    d_read_f1 d id = match chain_of d id with Some c => Ok (c_f1 c) | None => Err NoFrame end;
  cold_spec : ∀ d id, valid d → in_range id →
    d_cold d id = Ok (match chain_of d id with Some c => Ok <$> c_cold c | None => [] end);
  prepend_spec : ∀ d id f0 f1 seal d', valid d → in_range id →
    d_prepend d id f0 f1 seal = (d', Ok tt) →
    valid d' ∧
    ∃ c, chain_prepend (chain_of d id) f0 f1 seal = Ok c ∧
      chain_of d' id = Some c ∧ ∀ j, j ≠ id → chain_of d' j = chain_of d j;
  delete_spec : ∀ d id d', valid d → in_range id →
    d_delete_chain d id = (d', Ok tt) →
    valid d' ∧ chain_of d' id = None ∧ ∀ j, j ≠ id → chain_of d' j = chain_of d j
}.

(** ** Splitting a batch *)

(** The inner loop of [chunk_newest_first]: where the chunk ending at [end_]
    starts. *)
Fixpoint chunk_start (sizes : list Z) (threshold : Z) (end_ start : nat) (total : Z) : nat :=
  match start with
  | O => O
  | S s' =>
      let s := default 0 (sizes !! s') in
      if negb (start =? end_)%nat && (threshold <? total + s) then start
      else chunk_start sizes threshold end_ s' (total + s)
  end.

(** The outer loop: every chunk holds at least one record, so that as many
    rounds as records are enough. *)
Fixpoint chunk_loop (rounds : nat) (sizes : list Z) (threshold : Z) (end_ : nat) : list (nat * nat) :=
  match rounds, end_ with
  | _, O => []
  | O, _ => []
  | S r, _ =>
      let start := chunk_start sizes threshold end_ end_ 0 in
      (start, end_) :: chunk_loop r sizes threshold start
  end.

(** [chunk_newest_first]: half-open index ranges, oldest first. *)
Definition chunk_newest_first (sizes : list Z) (threshold : Z) : list (nat * nat) :=
  chunk_loop (length sizes) sizes threshold (length sizes).

(** [&records[range]] *)
Definition slice_range {A} (l : list A) (r : nat * nat) : list A := take (r.2 - r.1) (drop r.1 l).

(** [compose_f1] *)
Definition compose_f1 (entries : list bytes) (old_f1_raw : option bytes) (threshold : Z) :
    bytes * bool :=
  let entries_len := fold_left (λ n e, n + zlen e) entries 0 in
  let old := default [] old_f1_raw in
  let seal := negb (match old with [] => true | _ => false end)
              && (threshold <? zlen old + entries_len) in
  (concat entries ++ (if seal then [] else old), seal).

(** ** Facts about chunks *)

Definition range_total (sizes : list Z) (lo hi : nat) : Z :=
  fold_right Z.add 0 (take (hi - lo) (drop lo sizes)).

Lemma chunk_start_lt sizes threshold end_ start total :
  (0 < start)%nat → start = end_ → (chunk_start sizes threshold end_ start total < end_)%nat.
Proof.
  assert (Hle : ∀ s t, (chunk_start sizes threshold end_ s t ≤ s)%nat).
  { induction s as [|s IH]; intros t; simpl; [lia|]. case_match; [lia|].
    specialize (IH (t + default 0 (sizes !! s))). lia. }
  intros Hs ->. destruct end_ as [|e]; [lia|]. simpl. rewrite Nat.eqb_refl. simpl.
  specialize (Hle e (total + default 0 (sizes !! e))). lia.
Qed.

Lemma range_total_grow sizes lo hi :
  (lo < hi ≤ length sizes)%nat →
  range_total sizes lo hi = default 0 (sizes !! lo) + range_total sizes (S lo) hi.
Proof.
  intros Hlt. unfold range_total.
  destruct (lookup_lt_is_Some_2 sizes lo ltac:(lia)) as [x Hx]. rewrite Hx. simpl.
  rewrite (drop_S _ _ _ Hx). replace (hi - lo)%nat with (S (hi - S lo)) by lia. done.
Qed.

(** The chunk found keeps within the threshold, unless it is one record. *)
Lemma chunk_start_bounded sizes threshold end_ start total :
  (start ≤ end_ ≤ length sizes)%nat → total = range_total sizes start end_ →
  (total ≤ threshold ∨ (end_ - start ≤ 1)%nat) →
  let s := chunk_start sizes threshold end_ start total in
  range_total sizes s end_ ≤ threshold ∨ (end_ - s ≤ 1)%nat.
Proof.
  revert total. induction start as [|s IH]; intros total Hlen Htot Hb; cbn [chunk_start]; [by subst|].
  cbv zeta. destruct (negb _ && _) eqn:E; [by subst|].
  apply IH; [lia| |].
  - rewrite (range_total_grow sizes s end_) by lia. lia.
  - apply andb_false_iff in E as [E|E].
    + apply negb_false_iff, Nat.eqb_eq in E. right. lia.
    + left. by apply Z.ltb_ge in E.
Qed.

Lemma slice_range_app {A} (l : list A) lo mid hi :
  (lo ≤ mid ≤ hi)%nat →
  slice_range l (lo, hi) = slice_range l (lo, mid) ++ slice_range l (mid, hi).
Proof.
  intros Hle. unfold slice_range. simpl.
  replace (hi - lo)%nat with ((mid - lo) + (hi - mid))%nat by lia.
  rewrite <- take_take_drop, drop_drop. do 3 f_equal. lia.
Qed.

(** Newest-first, the chunks put back together are the batch. *)
Lemma chunk_loop_partition {A} (l : list A) rounds sizes threshold end_ :
  (end_ ≤ rounds)%nat → (end_ ≤ length l)%nat →
  concat (slice_range l <$> rev (chunk_loop rounds sizes threshold end_)) = take end_ l.
Proof.
  revert end_. induction rounds as [|r IH]; intros end_ Hr Hl.
  { assert (end_ = 0%nat) as -> by lia. done. }
  destruct end_ as [|e]; [done|]. cbn [chunk_loop]. set (s := chunk_start _ _ _ _ _).
  assert (Hs : (s < S e)%nat) by (apply chunk_start_lt; lia).
  cbn [rev]. rewrite fmap_app, concat_app, IH by lia. simpl. rewrite app_nil_r.
  unfold slice_range. cbn [fst snd]. rewrite take_take_drop. f_equal. lia.
Qed.

Lemma chunk_loop_elem rounds sizes threshold end_ lo hi :
  (end_ ≤ length sizes)%nat → (lo, hi) ∈ chunk_loop rounds sizes threshold end_ →
  (lo < hi ≤ end_)%nat ∧ (range_total sizes lo hi ≤ threshold ∨ (hi - lo = 1)%nat).
Proof.
  revert end_. induction rounds as [|r IH]; intros end_ Hl Hin; [destruct end_; set_solver|].
  destruct end_ as [|e]; [set_solver|]. cbn [chunk_loop] in Hin.
  set (s := chunk_start _ _ _ _ _) in *.
  assert (Hs : (s < S e)%nat) by (apply chunk_start_lt; lia).
  apply elem_of_cons in Hin as [[= -> ->]|Hin].
  - split; [lia|]. pose proof (chunk_start_bounded sizes threshold (S e) (S e) 0 ltac:(lia)) as Hb.
    fold s in Hb. cbv zeta in Hb. destruct Hb as [Hb|Hb].
    + unfold range_total. by rewrite Nat.sub_diag.
    + right. lia.
    + by left.
    + right. lia.
  - destruct (IH s ltac:(lia) Hin) as [? ?]. split; [lia|done].
Qed.
