(* ===== verification/DepotVbf.v ===== *)
(** * The VBF variant: layer histories in a chain depot.

    Models [chupa/depot-vbf/src/lib.rs]: layers as length-delimited records in
    three tiers of frames, each frame compressed against the record just newer
    than it.  The chain depot is taken through its class; the frame compressor
    is a parameter with its round trip as a hypothesis. *)


From S2P Require Import Prelude.
From S2P Require Import BTreeMap.
From S2P Require Import DepotModel.
From S2P Require Import DepotCompose.
From S2P Require Import DepotLaws.
From S2P Require Import DepotCodec.
From S2P Require Import DepotVariant.
From S2P Require Import DepotFrames.
From S2P Require Import ChainStore.
Open Scope Z_scope.
Open Scope sarun_scope.

(** [enum Error] *)
Inductive VbfError : Type :=
| VDepot (e : DepotError)
| VCodec (e : DecodeError)
| VZstd (e : Z)
| VTruncated.

(** [delimit] *)
Definition delimit (records : list bytes) : bytes :=
  fold_left (λ out r, (out ++ to_le_bytes (as_u32 (zlen r))) ++ r) records [].

(** [undelimit], on the rest of the buffer: every round consumes four bytes, so
    that the length of the buffer is fuel enough. *)
Fixpoint undelimit_loop (fuel : nat) (buf : bytes) (out : list bytes) : Result (list bytes) VbfError :=
  match buf with
  | [] => Ok out
  | _ =>
      match fuel with
      | O => Err VTruncated
      | S f =>
          if (length buf <? 4)%nat then Err VTruncated else
          let len := Z.to_nat (from_le_bytes (take 4 buf)) in
          let rest := drop 4 buf in
          if (length rest <? len)%nat then Err VTruncated else
          undelimit_loop f (drop len rest) (out ++ [take len rest])
      end
  end.
Definition undelimit (buf : bytes) (out : list bytes) : Result (list bytes) VbfError :=
  undelimit_loop (length buf) buf out.

Section vbf.
(** The depot, and [compress_frame]/[decompress_frame] at level 3. *)
Context {D : Type} `{ChainStore D}.
Variable compress_frame : bytes → option bytes → Result bytes Z.
Variable decompress_frame : bytes → option bytes → Result bytes Z.

(** [struct VbfDepot] *)
Record VbfDepot : Type := MkVbf { vd_depot : D; vd_threshold : Z }.

(** [compress] and [decompress] *)
Definition vcompress (raw : bytes) (prefix : option bytes) : Result bytes VbfError :=
  map_err VZstd (compress_frame raw prefix).
Definition vdecompress (frame : bytes) (prefix : option bytes) : Result bytes VbfError :=
  map_err VZstd (decompress_frame frame prefix).

(** ** Reading *)

(** [records.pop()] as the next anchor. *)
Definition next_anchor (records : list bytes) (anchor : bytes) : bytes := default anchor (last records).

(** The cold loop of [scan_frames]; [visit] threads the closure's state and
    says whether to stop. *)
Fixpoint scan_cold {St} (visit : St → list bytes → St * bool) (anchor : bytes)
    (colds : list (Result bytes DepotError)) (st : St) : Result St VbfError :=
  match colds with
  | [] => Ok st
  | cold :: colds =>
      let? frame := map_err VDepot cold in
      let? raw := vdecompress frame (Some anchor) in
      let? records := undelimit raw [] in
      let '(st, stop) := visit st records in
      if stop then Ok st else scan_cold visit (next_anchor records anchor) colds st
  end.

(** [scan_frames] *)
Definition scan_frames {St} (vd : VbfDepot) (chain_id : Z) (visit : St → list bytes → St * bool)
    (st : St) : Result St VbfError :=
  match d_read_f0 (vd_depot vd) chain_id with
  | Err NoFrame | Err ChainIdOutOfRange => Ok st
  | Err e => Err (VDepot e)
  | Ok frame =>
      let? anchor := vdecompress frame None in
      let '(st, stop) := visit st [anchor] in
      if stop then Ok st else
      let? f1 := map_err VDepot (d_read_f1 (vd_depot vd) chain_id) in
      let? step :=
        match f1 with
        | Some f1 =>
            let? raw := vdecompress f1 (Some anchor) in
            let? records := undelimit raw [] in
            let '(st, stop) := visit st records in
            Ok (next_anchor records anchor, st, stop)
        | None => Ok (anchor, st, false)
        end in
      let '(anchor, st, stop) := step in
      if stop then Ok st else
      let? colds := map_err VDepot (d_cold (vd_depot vd) chain_id) in
      scan_cold visit anchor colds st
  end.

(** The closure of [scan_newest_first]: the records of one frame, decoded until
    [visit] stops or a record is bad. *)
Fixpoint visit_records {St} (visit : St → Layer → St * bool) (st : St * option VbfError)
    (records : list bytes) : (St * option VbfError) * bool :=
  match records with
  | [] => (st, false)
  | r :: records =>
      match decode_layer r with
      | Ok layer =>
          let '(s, stop) := visit st.1 layer in
          if stop then ((s, st.2), true) else visit_records visit (s, st.2) records
      | Err e => ((st.1, Some (VCodec e)), true)
      end
  end.

(** [scan_newest_first] *)
Definition scan_newest_first {St} (vd : VbfDepot) (chain_id : Z) (visit : St → Layer → St * bool)
    (st : St) : Result St VbfError :=
  let? out := scan_frames vd chain_id (visit_records visit) (st, None) in
  match out.2 with Some e => Err e | None => Ok out.1 end.

(** [layers_newest_first] *)
Definition layers_newest_first (vd : VbfDepot) (chain_id : Z) : Result (list Layer) VbfError :=
  scan_newest_first vd chain_id (λ out layer, (out ++ [layer], false)) [].

(** [head_layer] *)
Definition head_layer (vd : VbfDepot) (chain_id : Z) : Result (option Layer) VbfError :=
  match d_read_f0 (vd_depot vd) chain_id with
  | Ok frame =>
      let? record := vdecompress frame None in
      let? layer := map_err VCodec (decode_layer record) in
      Ok (Some layer)
  | Err NoFrame | Err ChainIdOutOfRange => Ok None
  | Err e => Err (VDepot e)
  end.

(** ** Writing *)

(** The store after an operation, and its result. *)
Definition wrote (vd : VbfDepot) (r : D * Result unit DepotError) : VbfDepot * Result unit VbfError :=
  (MkVbf r.1 (vd_threshold vd), map_err VDepot r.2).

(** Absorbing [newest :: older_new] into a chain whose head is [prev_f0]. *)
Definition absorb (vd : VbfDepot) (chain_id : Z) (newest : bytes) (older_new : list bytes)
    (prev_f0 : bytes) : VbfDepot * Result unit VbfError :=
  let prepared :=
    let? prev_record := vdecompress prev_f0 None in
    let? old_f1 := map_err VDepot (d_read_f1 (vd_depot vd) chain_id) in
    let? old_f1_raw := match old_f1 with
                       | Some f => vdecompress f (Some prev_record)
                       | None => Ok []
                       end in
    let delimited := (λ r, delimit [r]) <$> (older_new ++ [prev_record]) in
    let '(new_f1_raw, seal) :=
      compose_f1 delimited (match old_f1_raw with [] => None | _ => Some old_f1_raw end)
        (vd_threshold vd) in
    let? new_f0 := vcompress newest None in
    let? new_f1 := vcompress new_f1_raw (Some newest) in
    Ok (new_f0, new_f1, seal) in
  match prepared with
  | Err e => (vd, Err e)
  | Ok (new_f0, new_f1, seal) =>
      wrote vd (d_prepend (vd_depot vd) chain_id new_f0 (Some new_f1) seal)
  end.

(** [prepend_records]; [None] is the panic on an empty chunk.  The recursive
    call is on a shorter chunk, so that its length is fuel enough. *)
Fixpoint prepend_records (fuel : nat) (vd : VbfDepot) (chain_id : Z) (records : list bytes) :
    option (VbfDepot * Result unit VbfError) :=
  match fuel, records with
  | O, _ | _, [] => None
  | S f, newest :: older_new =>
      match d_read_f0 (vd_depot vd) chain_id with
      | Ok prev_f0 => Some (absorb vd chain_id newest older_new prev_f0)
      | Err NoFrame =>
          let oldest := List.last records [] in
          let newer := removelast records in
          match vcompress oldest None with
          | Err e => Some (vd, Err e)
          | Ok frame =>
              match wrote vd (d_prepend (vd_depot vd) chain_id frame None false) with
              | (vd, Err e) => Some (vd, Err e)
              | (vd, Ok tt) =>
                  match newer with
                  | [] => Some (vd, Ok tt)
                  | _ => prepend_records f vd chain_id newer
                  end
              end
          end
      | Err e => Some (vd, Err (VDepot e))
      end
  end.

(** The chunk loop of [put_layers]. *)
Fixpoint put_chunks (vd : VbfDepot) (chain_id : Z) (records : list bytes) (ranges : list (nat * nat)) :
    option (VbfDepot * Result unit VbfError) :=
  match ranges with
  | [] => Some (vd, Ok tt)
  | range :: ranges =>
      match prepend_records (length (slice_range records range)) vd chain_id (slice_range records range) with
      | None => None
      | Some (vd, Err e) => Some (vd, Err e)
      | Some (vd, Ok tt) => put_chunks vd chain_id records ranges
      end
  end.

(** [put_layers] *)
Definition put_layers (vd : VbfDepot) (chain_id : Z) (layers : list Layer) :
    option (VbfDepot * Result unit VbfError) :=
  match layers with
  | [] => Some (vd, Ok tt)
  | _ =>
      let records := encode <$> rev layers in
      let sizes := (λ r, zlen r + 4) <$> records in
      put_chunks vd chain_id records (chunk_newest_first sizes (vd_threshold vd))
  end.

(** [put_layer] *)
Definition vbf_put_layer (vd : VbfDepot) (chain_id : Z) (layer : Layer) :=
  put_layers vd chain_id [layer].

(** [delete_chain] *)
Definition vbf_delete_chain (vd : VbfDepot) (chain_id : Z) : VbfDepot * Result unit VbfError :=
  wrote vd (d_delete_chain (vd_depot vd) chain_id).
End vbf.

Arguments MkVbf {D}.
Arguments vd_depot {D}.
Arguments vd_threshold {D}.

(** ** Delimited records *)

Definition small (r : bytes) : Prop := zlen r < u32_limit.

Lemma delimit_app out rs :
  fold_left (λ out r, (out ++ to_le_bytes (as_u32 (zlen r))) ++ r) rs out = out ++ delimit rs.
Proof.
  unfold delimit. revert out. induction rs as [|r rs IH]; intros out; cbn [fold_left];
    [by rewrite app_nil_r|].
  rewrite IH, (IH (([] ++ _) ++ r)). by rewrite <- !app_assoc.
Qed.

Lemma delimit_cons r rs : delimit (r :: rs) = to_le_bytes (as_u32 (zlen r)) ++ r ++ delimit rs.
Proof. unfold delimit at 1. cbn [fold_left]. rewrite delimit_app. by rewrite <- !app_assoc. Qed.

Lemma delimit_concat rs : concat ((λ r, delimit [r]) <$> rs) = delimit rs.
Proof.
  induction rs as [|r rs IH]; [done|]. cbn [fmap list_fmap concat] in *.
  rewrite IH, (delimit_cons r rs), (delimit_cons r []).
  change (delimit []) with (@nil Z). by rewrite app_nil_r, <- app_assoc.
Qed.

Lemma delimit_plus rs1 rs2 : delimit (rs1 ++ rs2) = delimit rs1 ++ delimit rs2.
Proof. rewrite <- !delimit_concat, fmap_app, concat_app. done. Qed.

Lemma delimit_nonempty rs : rs ≠ [] → delimit rs ≠ [].
Proof. destruct rs; [done|]. by rewrite delimit_cons. Qed.

Lemma undelimit_loop_delimit fuel rs out :
  Forall small rs → (length (delimit rs) ≤ fuel)%nat →
  undelimit_loop fuel (delimit rs) out = Ok (out ++ rs).
Proof.
  intros Hs. revert fuel out. induction Hs as [|r rs Hr _ IH]; intros fuel out Hf.
  { rewrite app_nil_r. by destruct fuel. }
  rewrite delimit_cons in *. set (h := to_le_bytes _) in *.
  assert (Hh : length h = 4%nat) by done. rewrite !length_app, Hh in Hf.
  destruct fuel as [|fuel]; [lia|]. cbn [undelimit_loop].
  destruct (h ++ r ++ delimit rs) as [|b buf] eqn:E; [by destruct h|]. rewrite <- E. clear E.
  destruct (Nat.ltb_spec (length (h ++ r ++ delimit rs)) 4) as [Hl|_];
    [rewrite length_app in Hl; lia|]. cbv zeta.
  rewrite <- Hh, take_app_length, drop_app_length. unfold h.
  rewrite header_roundtrip by (done || apply zlen_nonneg). unfold zlen. rewrite Nat2Z.id.
  destruct (Nat.ltb_spec (length (r ++ delimit rs)) (length r)) as [Hl|_];
    [rewrite length_app in Hl; lia|].
  rewrite take_app_length, drop_app_length, IH by lia. by rewrite <- app_assoc.
Qed.

Lemma undelimit_delimit rs : Forall small rs → undelimit (delimit rs) [] = Ok rs.
Proof. intros Hs. unfold undelimit. by rewrite undelimit_loop_delimit. Qed.

(** ** What a chain stores *)

Section stored.
Context {D : Type} `{ChainStoreLaws D valid chain_of in_range}.
Variable compress_frame : bytes → option bytes → Result bytes Z.
Variable decompress_frame : bytes → option bytes → Result bytes Z.
Hypothesis frame_roundtrip : ∀ raw prefix frame,
  compress_frame raw prefix = Ok frame → decompress_frame frame prefix = Ok raw.

(** A frame that holds [recs], compressed against [anchor]. *)
Definition frame_holds (frame anchor : bytes) (recs : list bytes) : Prop :=
  decompress_frame frame (Some anchor) = Ok (delimit recs) ∧ recs ≠ [].

(** Cold frames, each anchored on the record just newer than its own. *)
Fixpoint colds_hold (anchor : bytes) (colds : list bytes) (recs : list bytes) : Prop :=
  match colds with
  | [] => recs = []
  | frame :: colds => ∃ rs1 rs2, recs = rs1 ++ rs2 ∧ frame_holds frame anchor rs1
                       ∧ colds_hold (next_anchor rs1 anchor) colds rs2
  end.

(** The records of a chain, newest first. *)
Definition chain_holds (c : option Chain) (recs : list bytes) : Prop :=
  match c with
  | None => recs = []
  | Some c => ∃ head f1recs coldrecs,
      recs = head :: f1recs ++ coldrecs
      ∧ decompress_frame (c_f0 c) None = Ok head
      ∧ match c_f1 c with
        | None => f1recs = [] ∧ c_cold c = []
        | Some f1 => frame_holds f1 head f1recs
        end
      ∧ colds_hold (next_anchor f1recs head) (c_cold c) coldrecs
  end.

Lemma next_anchor_app rs1 rs2 anchor anchor' :
  rs2 ≠ [] → next_anchor (rs1 ++ rs2) anchor = next_anchor rs2 anchor'.
Proof.
  intros Hne. unfold next_anchor. destruct rs2 as [|r rs2 _] using rev_ind; [done|].
  rewrite app_assoc, !last_snoc. done.
Qed.

Lemma vdecompress_ok frame prefix raw :
  decompress_frame frame prefix = Ok raw → vdecompress decompress_frame frame prefix = Ok raw.
Proof. unfold vdecompress. by intros ->. Qed.

Lemma vcompress_ok raw prefix frame :
  vcompress compress_frame raw prefix = Ok frame → decompress_frame frame prefix = Ok raw.
Proof.
  unfold vcompress. destruct (compress_frame raw prefix) eqn:E; simpl; [|done].
  intros [= <-]. by apply frame_roundtrip.
Qed.

(** Absorbing newer records into a chain: the accumulator grows, or becomes the
    newest cold frame, whose anchor is the demoted head. *)
Lemma absorb_chain c newest older head f1recs coldrecs old_raw new_f0 new_f1 threshold c' :
  decompress_frame (c_f0 c) None = Ok head →
  match c_f1 c with
  | None => f1recs = [] ∧ c_cold c = []
  | Some f1 => frame_holds f1 head f1recs
  end →
  colds_hold (next_anchor f1recs head) (c_cold c) coldrecs →
  old_raw = delimit f1recs →
  let f1 := compose_f1 ((λ r, delimit [r]) <$> (older ++ [head]))
              (match old_raw with [] => None | _ => Some old_raw end) threshold in
  decompress_frame new_f0 None = Ok newest →
  decompress_frame new_f1 (Some newest) = Ok f1.1 →
  chain_prepend (Some c) new_f0 (Some new_f1) f1.2 = Ok c' →
  chain_holds (Some c') (newest :: older ++ head :: f1recs ++ coldrecs).
Proof.
  intros Hf0 Hf1 Hcold -> f1 Hn0 Hn1 Hp. subst f1. unfold compose_f1 in *.
  rewrite delimit_concat in Hn1. cbv zeta in *. cbn [fst snd] in *.
  set (old := default [] _) in *.
  assert (Hold : old = delimit f1recs) by (unfold old; by destruct (delimit f1recs)).
  clearbody old. subst old. destruct (negb _ && _) eqn:Eseal; simpl in Hp.
  - apply andb_true_iff in Eseal as [Hne _]. rewrite app_nil_r in Hn1.
    destruct (c_f1 c) as [f1|]; [|by destruct Hf1 as [-> _]]. injection Hp as <-.
    exists newest, (older ++ [head]), (f1recs ++ coldrecs). simpl. split_and!.
    + by rewrite <- app_assoc.
    + done.
    + split; [done|]. by destruct older.
    + exists f1recs, coldrecs. split_and!; [done| |].
      * unfold next_anchor. by rewrite last_snoc.
      * destruct Hf1 as [_ Hne1]. unfold next_anchor at 2. rewrite last_snoc. simpl.
        done.
  - injection Hp as <-. exists newest, (older ++ head :: f1recs), coldrecs. simpl. split_and!.
    + by rewrite <- app_assoc.
    + done.
    + split; [|by destruct older]. rewrite Hn1.
      rewrite <- delimit_plus, <- app_assoc. done.
    + destruct (c_f1 c) as [f1|].
      * destruct Hf1 as [_ Hne1]. replace (older ++ head :: f1recs) with ((older ++ [head]) ++ f1recs)
          by (by rewrite <- app_assoc). by rewrite (next_anchor_app _ _ _ head).
      * destruct Hf1 as [-> Hc]. rewrite Hc in *. done.
Qed.

(** The store after an operation: valid, other chains and the threshold kept. *)
Definition advanced (vd vd' : VbfDepot) (id : Z) (recs : list bytes) : Prop :=
  valid (vd_depot vd') ∧ vd_threshold vd' = vd_threshold vd ∧
  chain_holds (chain_of (vd_depot vd') id) recs ∧
  ∀ j, j ≠ id → chain_of (vd_depot vd') j = chain_of (vd_depot vd) j.

Lemma absorb_advances vd vd' id newest older c recs :
  valid (vd_depot vd) → in_range id → chain_of (vd_depot vd) id = Some c →
  chain_holds (Some c) recs → Forall small recs →
  absorb compress_frame decompress_frame vd id newest older (c_f0 c) = (vd', Ok tt) →
  advanced vd vd' id (newest :: older ++ recs).
Proof.
  intros Hv Hr Hc (head&f1recs&coldrecs&->&Hf0&Hf1&Hcold) Hsmall. unfold absorb.
  rewrite (vdecompress_ok _ _ _ Hf0), (read_f1_spec _ _ Hv Hr), Hc. cbn [rbind map_err].
  assert (Hraw : match c_f1 c with
                 | Some f => vdecompress decompress_frame f (Some head) | None => Ok [] end
                 = Ok (delimit f1recs)).
  { destruct (c_f1 c) as [f1|]; [apply vdecompress_ok; by destruct Hf1|by destruct Hf1 as [-> _]]. }
  rewrite Hraw. cbn [rbind]. cbv zeta.
  destruct (compose_f1 _ _ _) as [f1raw seal] eqn:Ef1.
  destruct (vcompress _ newest None) as [new_f0|] eqn:E0; [|done]. cbn [rbind].
  destruct (vcompress _ f1raw _) as [new_f1|] eqn:E1; [|done]. cbn [rbind]. unfold wrote.
  destruct (d_prepend _ _ _ _ _) as [d' [[]|e]] eqn:Ep; [|done]. intros [= <-].
  destruct (prepend_spec _ _ _ _ _ _ Hv Hr Ep) as (Hv'&c'&Hcp&Hc'&Hoth).
  split_and!; [done|done| |done]. simpl. rewrite Hc'. rewrite Hc in Hcp.
  apply (absorb_chain c newest older head f1recs coldrecs (delimit f1recs) new_f0 new_f1
    (vd_threshold vd)); rewrite ?Ef1; eauto using vcompress_ok.
Qed.

Lemma prepend_records_advances fuel vd vd' id records recs :
  valid (vd_depot vd) → in_range id → chain_holds (chain_of (vd_depot vd) id) recs →
  Forall small recs → Forall small records →
  prepend_records compress_frame decompress_frame fuel vd id records = Some (vd', Ok tt) →
  advanced vd vd' id (records ++ recs).
Proof.
  revert vd records recs. induction fuel as [|f IH]; intros vd records recs Hv Hr Hh Hs Hs'; [done|].
  destruct records as [|newest older]; [done|]. cbn [prepend_records].
  rewrite (read_f0_spec _ _ Hv Hr). destruct (chain_of (vd_depot vd) id) as [c|] eqn:Ec.
  { intros [= Ha]. by eapply absorb_advances. }
  simpl in Hh. subst recs. set (records := newest :: older) in *.
  destruct (vcompress _ _ None) as [frame|] eqn:E0; [|done]. unfold wrote.
  destruct (d_prepend _ _ _ _ _) as [d1 [[]|e]] eqn:Ep; [|done]. cbn [map_err fst snd].
  destruct (prepend_spec _ _ _ _ _ _ Hv Hr Ep) as (Hv1&c1&Hcp&Hc1&Hoth1).
  rewrite Ec in Hcp. simpl in Hcp. injection Hcp as <-.
  assert (Hsplit : records = removelast records ++ [List.last records []])
    by (by apply app_removelast_last).
  assert (Hh1 : chain_holds (chain_of d1 id) [List.last records []]).
  { rewrite Hc1. exists (List.last records []), [], []. split_and!; try done.
    simpl. by apply vcompress_ok. }
  destruct (removelast records) as [|n ns] eqn:En.
  - intros [= <-]. split_and!; [done|done| |done]. rewrite Hsplit. done.
  - intros Hrec. rewrite Hsplit in Hs'. apply Forall_app in Hs' as [Hs1 Hs2].
    destruct (IH (MkVbf d1 (vd_threshold vd)) (n :: ns) [List.last records []])
      as (Hv2&Ht2&Hh2&Hoth2); [done..|].
    split_and!; [done|done| |].
    + by rewrite app_nil_r, Hsplit.
    + intros j Hj. rewrite Hoth2 by done. simpl. by apply Hoth1.
Qed.

Lemma put_chunks_advances vd vd' id records ranges recs :
  valid (vd_depot vd) → in_range id → chain_holds (chain_of (vd_depot vd) id) recs →
  Forall small recs → Forall small records →
  put_chunks compress_frame decompress_frame vd id records ranges = Some (vd', Ok tt) →
  advanced vd vd' id (concat (slice_range records <$> rev ranges) ++ recs).
Proof.
  revert vd recs. induction ranges as [|range ranges IH]; intros vd recs Hv Hr Hh Hs Hs'; simpl.
  { intros [= <-]. by split_and!. }
  destruct (prepend_records _ _ _ _ _ _) as [[vd1 [[]|e]]|] eqn:Ep; [|done..]. intros Hput.
  assert (Hslice : Forall small (slice_range records range)).
  { unfold slice_range. by apply Forall_take, Forall_drop. }
  destruct (prepend_records_advances _ _ _ _ _ _ Hv Hr Hh Hs Hslice Ep) as (Hv1&Ht1&Hh1&Ho1).
  destruct (IH vd1 _ Hv1 Hr Hh1 ltac:(by apply Forall_app) Hs' Hput) as (Hv2&Ht2&Hh2&Ho2).
  split_and!; [done|congruence| |intros j Hj; by rewrite Ho2, Ho1].
  rewrite fmap_app, concat_app. simpl. by rewrite app_nil_r, <- app_assoc.
Qed.
(** ** Reading back *)

Definition decodes (r : bytes) (l : Layer) : Prop := decode_layer r = Ok l.
Definition collect_layer (out : list Layer) (l : Layer) : list Layer * bool := (out ++ [l], false).

Lemma visit_records_collect rs ls out :
  Forall2 decodes rs ls →
  visit_records collect_layer (out, None) rs = ((out ++ ls, None), false).
Proof.
  intros Hd. revert out. induction Hd as [|r l rs ls Hr _ IH]; intros out; simpl.
  { by rewrite app_nil_r. }
  rewrite Hr. simpl. rewrite IH. by rewrite <- app_assoc.
Qed.

Lemma frame_holds_raw frame anchor rs :
  frame_holds frame anchor rs → Forall small rs →
  vdecompress decompress_frame frame (Some anchor) = Ok (delimit rs) ∧ undelimit (delimit rs) [] = Ok rs.
Proof.
  intros [Hd _] Hs. split; [by apply vdecompress_ok|by apply undelimit_delimit].
Qed.

Lemma scan_cold_collect anchor colds rs ls out :
  colds_hold anchor colds rs → Forall small rs → Forall2 decodes rs ls →
  scan_cold decompress_frame (visit_records collect_layer) anchor (Ok <$> colds) (out, None)
  = Ok (out ++ ls, None).
Proof.
  revert anchor rs ls out. induction colds as [|frame colds IH]; intros anchor rs ls out Hc Hs Hd; simpl in Hc.
  - subst rs. inversion Hd; subst. simpl. by rewrite app_nil_r.
  - destruct Hc as (rs1&rs2&->&Hf&Hc). apply Forall_app in Hs as [Hs1 Hs2].
    apply Forall2_app_inv_l in Hd as (ls1&ls2&Hd1&Hd2&->).
    destruct (frame_holds_raw _ _ _ Hf Hs1) as [Hv Hu].
    csimpl. cbn [scan_cold map_err rbind]. rewrite Hv. cbn [rbind]. rewrite Hu. cbn [rbind].
    rewrite (visit_records_collect rs1 ls1) by done. rewrite (IH _ rs2 ls2) by done.
    by rewrite app_assoc.
Qed.

Lemma scan_frames_collect vd id recs ls :
  valid (vd_depot vd) → in_range id → chain_holds (chain_of (vd_depot vd) id) recs →
  Forall small recs → Forall2 decodes recs ls →
  scan_frames decompress_frame vd id (visit_records collect_layer) ([], None) = Ok (ls, None).
Proof.
  intros Hv Hr Hh Hs Hd. unfold scan_frames.
  rewrite (read_f0_spec _ _ Hv Hr), (read_f1_spec _ _ Hv Hr), (cold_spec _ _ Hv Hr).
  destruct (chain_of (vd_depot vd) id) as [c|]; simpl in Hh; [|subst recs; by inversion Hd].
  destruct Hh as (head&f1recs&coldrecs&->&Hf0&Hf1&Hcold).
  apply Forall2_cons_inv_l in Hd as (l&ls'&Hl&Hd&->).
  apply Forall2_app_inv_l in Hd as (ls1&ls2&Hd1&Hd2&->).
  apply Forall_cons in Hs as [_ [Hs1 Hs2]%Forall_app].
  rewrite (vdecompress_ok _ _ _ Hf0). cbn [rbind].
  rewrite (visit_records_collect [head] [l]) by (by constructor). cbn [rbind map_err app].
  destruct (c_f1 c) as [f1|].
  - destruct (frame_holds_raw _ _ _ Hf1 Hs1) as [Hdec Hu]. rewrite Hdec. cbn [rbind].
    rewrite Hu. cbn [rbind]. rewrite (visit_records_collect f1recs ls1) by done. cbn [rbind].
    by rewrite (scan_cold_collect _ _ coldrecs ls2).
  - destruct Hf1 as [-> Hc0]. inversion Hd1; subst. cbn [rbind].
    by rewrite (scan_cold_collect head (c_cold c) coldrecs ls2).
Qed.

(** ** The history of a chain *)

(** A layer a record can carry. *)
Definition recordable_layer (l : Layer) : bool := encodable l && (zlen (encode l) <? u32_limit).

(** The store holds the layers [h], newest first, under [id]. *)
Definition vbf_holds (vd : VbfDepot) (id : Z) (h : list Layer) : Prop :=
  valid (vd_depot vd) ∧ in_range id ∧ forallb recordable_layer h = true ∧
  chain_holds (chain_of (vd_depot vd) id) (encode <$> h).

Lemma recordable_small h :
  forallb recordable_layer h = true →
  Forall small (encode <$> h) ∧ Forall2 decodes (encode <$> h) (canon_layer <$> h).
Proof.
  induction h as [|l h IH]; [by repeat constructor|]. cbn [forallb]. intros [Hl Hh]%andb_true_iff.
  destruct (IH Hh) as [Hs Hd]. unfold recordable_layer in Hl.
  apply andb_true_iff in Hl as [Hl Hz%Z.ltb_lt]. csimpl.
  split; constructor; [done|done| |done]. by apply decode_layer_encode.
Qed.

Lemma vbf_read vd id h :
  vbf_holds vd id h →
  layers_newest_first decompress_frame vd id = Ok (canon_layer <$> h).
Proof.
  intros (Hv&Hr&Hh&Hc). destruct (recordable_small h Hh) as [Hs Hd].
  unfold layers_newest_first, scan_newest_first. fold collect_layer.
  by rewrite (scan_frames_collect vd id _ _ Hv Hr Hc Hs Hd).
Qed.

Lemma vbf_head vd id h :
  vbf_holds vd id h → head_layer decompress_frame vd id = Ok (canon_layer <$> head h).
Proof.
  intros (Hv&Hr&Hh&Hc). destruct (recordable_small h Hh) as [_ Hd].
  unfold head_layer. rewrite (read_f0_spec _ _ Hv Hr).
  destruct (chain_of (vd_depot vd) id) as [c|]; simpl in Hc.
  - destruct Hc as (r&f1recs&coldrecs&Hrecs&Hf0&_). destruct h as [|l h]; [done|].
    csimpl in *. injection Hrecs as <- _. rewrite (vdecompress_ok _ _ _ Hf0). cbn [rbind].
    apply Forall2_cons in Hd as [Hd _]. unfold decodes in Hd. by rewrite Hd.
  - by apply fmap_nil_inv in Hc as ->.
Qed.

Lemma vbf_put vd vd' id h ls :
  vbf_holds vd id h → forallb recordable_layer ls = true →
  put_layers compress_frame decompress_frame vd id ls = Some (vd', Ok tt) →
  vbf_holds vd' id (rev ls ++ h) ∧ vd_threshold vd' = vd_threshold vd ∧
  ∀ j k, j ≠ id → vbf_holds vd j k → vbf_holds vd' j k.
Proof.
  intros (Hv&Hr&Hh&Hc) Hls Hput. destruct (recordable_small h Hh) as [Hs _].
  assert (Hrev : forallb recordable_layer (rev ls) = true).
  { apply forallb_forall. intros l Hin%in_rev. by eapply forallb_forall in Hls. }
  destruct (recordable_small _ Hrev) as [Hs' _].
  assert (Hadv : advanced vd vd' id ((encode <$> rev ls) ++ (encode <$> h))).
  { destruct ls as [|l ls]; [injection Hput as <-; by split_and!|].
    unfold put_layers in Hput. apply (put_chunks_advances _ _ _ _ _ (encode <$> h)) in Hput; [|done..].
    unfold chunk_newest_first in Hput. rewrite length_fmap in Hput.
    rewrite chunk_loop_partition in Hput by lia. by rewrite firstn_all in Hput. }
  destruct Hadv as (Hv'&Ht&Hc'&Ho). split_and!; [|done|].
  - split_and!; [done|done|by rewrite forallb_app, Hrev, Hh|by rewrite fmap_app].
  - intros j k Hj (_&Hrj&Hk&Hck). split_and!; [done|done|done|by rewrite Ho].
Qed.
End stored.

(** ** Batches never panic *)

Section no_panic.
Context {D : Type} `{ChainStore D}.
Variable compress_frame : bytes → option bytes → Result bytes Z.
Variable decompress_frame : bytes → option bytes → Result bytes Z.

Lemma prepend_records_some fuel vd id records :
  records ≠ [] → (length records ≤ fuel)%nat →
  is_Some (prepend_records compress_frame decompress_frame fuel vd id records).
Proof.
  revert vd records. induction fuel as [|f IH]; intros vd records Hne Hf.
  { destruct records; [done|simpl in Hf; lia]. }
  destruct records as [|newest older]; [done|]. cbn [prepend_records].
  set (records := newest :: older) in *.
  destruct (d_read_f0 _ _) as [prev|[]]; try by eexists.
  destruct (vcompress _ _ _); [|by eexists]. destruct (wrote _ _) as [vd1 [[]|]]; [|by eexists].
  destruct (removelast records) as [|n ns] eqn:En; [by eexists|]. apply IH; [done|].
  pose proof (app_removelast_last [] Hne) as Hsplit. apply (f_equal length) in Hsplit.
  rewrite length_app, En in Hsplit. simpl in *. lia.
Qed.

Lemma put_chunks_some vd id records ranges :
  (∀ lo hi, (lo, hi) ∈ ranges → (lo < hi ≤ length records)%nat) →
  is_Some (put_chunks compress_frame decompress_frame vd id records ranges).
Proof.
  revert vd. induction ranges as [|[lo hi] ranges IH]; intros vd Hin; simpl; [by eexists|].
  destruct (Hin lo hi) as [Hlt Hle]; [set_solver|].
  destruct (prepend_records_some (length (slice_range records (lo, hi))) vd id
    (slice_range records (lo, hi))) as [[vd1 [[]|e]] ->].
  - intros Hnil. apply (f_equal length) in Hnil. unfold slice_range in Hnil. simpl in Hnil.
    rewrite length_take, length_drop in Hnil. lia.
  - done.
  - apply IH. set_solver.
  - by eexists.
Qed.
End no_panic.

(** * Laws of the VBF variant.

    The claims about [chupa/depot-vbf/src/lib.rs] and the batching helpers of
    [chupa/wikimak/depot/src/lib.rs], proved for every chain depot that keeps
    the laws of [ChainStore]; a depot held in memory shows that they can be
    kept. *)

(** ** The single-chain store as sink and source *)

Section store.
Context {D : Type} `{ChainStore D}.
Variable compress_frame : bytes → option bytes → Result bytes Z.
Variable decompress_frame : bytes → option bytes → Result bytes Z.

(** [struct VbfStore] *)
Record VbfStore : Type := MkVbfStore { inner : @VbfDepot D; store_chain_id : Z }.

(** [impl LayerSink for VbfStore]; [put_layers_total] excludes the panic. *)
#[export] Instance vbf_sink : LayerSink VbfStore VbfError := λ s l,
  match vbf_put_layer compress_frame decompress_frame (inner s) (store_chain_id s) l with
  | Some (vd, r) => (MkVbfStore vd (store_chain_id s), r)
  | None => (s, Err VTruncated)
  end.

(** [struct VbfReader] and [VbfReader::new] *)
Record VbfReader : Type := MkVbfReader { reader_layers : list Layer }.
Definition vbf_reader_new (s : VbfStore) : Result VbfReader VbfError :=
  match layers_newest_first decompress_frame (inner s) (store_chain_id s) with
  | Ok ls => Ok (MkVbfReader ls)
  | Err e => Err e
  end.

(** [impl LayerSource for VbfReader] *)
#[export] Instance vbf_source : LayerSource VbfReader VbfError := λ r,
  match reader_layers r with
  | [] => (r, Ok None)
  | l :: ls => (MkVbfReader ls, Ok (Some l))
  end.

Lemma reader_yields ls : yields (MkVbfReader ls) ls (MkVbfReader []).
Proof. induction ls as [|l ls IH]; [done|]. by exists (MkVbfReader ls). Qed.
End store.
Arguments MkVbfStore {D}.
Arguments inner {D}.
Arguments store_chain_id {D}.

(** ** A chain depot in memory *)

Definition mem_prepend (d : btmap Z Chain) (id : Z) (f0 : bytes) (f1 : option bytes) (seal : bool) :
    btmap Z Chain * Result unit DepotError :=
  match chain_prepend (bt_get id d) f0 f1 seal with
  | Ok c => (bt_insert id c d, Ok tt)
  | Err e => (d, Err e)
  end.

#[export] Instance mem_store : ChainStore (btmap Z Chain) := {
  d_read_f0 d id := match bt_get id d with Some c => Ok (c_f0 c) | None => Err NoFrame end;
  d_read_f1 d id := match bt_get id d with Some c => Ok (c_f1 c) | None => Err NoFrame end;
  d_cold d id := Ok (match bt_get id d with Some c => Ok <$> c_cold c | None => [] end);
  d_prepend := mem_prepend;
  d_delete_chain d id := (bt_remove id d, Ok tt)
}.

#[export] Instance mem_store_laws :
  ChainStoreLaws (btmap Z Chain) (λ d, bt_ok d = true) (λ d id, bt_get id d) (λ _, True).
Proof.
  constructor; simpl; try done.
  - intros d id f0 f1 seal d' Hok _. unfold mem_prepend.
    destruct (chain_prepend _ _ _ _) as [c|e]; [|done]. intros [= <-].
    split; [by apply bt_ok_insert|]. exists c. split_and!; [done|by rewrite bt_get_insert_eq|].
    intros j Hj. by rewrite bt_get_insert_ne.
  - intros d id d' Hok _ [= <-]. split_and!; [by apply bt_ok_remove| |].
    + rewrite bt_get_remove by done. by rewrite decide_True.
    + intros j Hj. rewrite bt_get_remove by done. by rewrite decide_False.
Qed.

(** Storing frames uncompressed, anchor and all. *)
Definition plain_compress (raw : bytes) (_ : option bytes) : Result bytes Z := Ok raw.
Definition plain_decompress (frame : bytes) (_ : option bytes) : Result bytes Z := Ok frame.

(** ** Claims *)

(** Whatever batch of layers is put on a chain, oldest first, reading the
    chain newest-first afterwards returns the batch reversed in front of what
    the chain held, the head is the newest layer, and no other chain changes;
    the sealing of accumulators and the choice of anchors are invisible. *)
Theorem vbf_put_then_read {D} `{ChainStoreLaws D valid chain_of in_range}
    (compress_frame decompress_frame : bytes → option bytes → Result bytes Z)
    (vd vd' : @VbfDepot D) id h ls :
  (∀ raw prefix frame, compress_frame raw prefix = Ok frame →
     decompress_frame frame prefix = Ok raw) →
  vbf_holds (valid := valid) (chain_of := chain_of) (in_range := in_range) decompress_frame vd id h →
  forallb recordable_layer ls = true →
  put_layers compress_frame decompress_frame vd id ls = Some (vd', Ok tt) →
  layers_newest_first decompress_frame vd' id = Ok (canon_layer <$> (rev ls ++ h))
  ∧ head_layer decompress_frame vd' id = Ok (canon_layer <$> head (rev ls ++ h))
  ∧ ∀ j k, j ≠ id →
      vbf_holds (valid := valid) (chain_of := chain_of) (in_range := in_range) decompress_frame vd j k →
      layers_newest_first decompress_frame vd' j = Ok (canon_layer <$> k).
Proof.
  intros Hrt Hh Hls Hput.
  destruct (vbf_put compress_frame decompress_frame Hrt vd vd' id h ls Hh Hls Hput) as (Hh'&_&Ho).
  split_and!.
  - by eapply vbf_read.
  - by eapply vbf_head.
  - intros j k Hj Hk. eapply vbf_read. by apply Ho.
Qed.

(** A store that seals often: every record is above the threshold of 8 bytes. *)
Definition tiny_store : @VbfDepot (btmap Z Chain) := MkVbf [] 8.
Definition three_layers : list Layer := [Sample.mkdir_d; Sample.write_df; Sample.remove_df].

Lemma vbf_put_then_read_witness :
  ∃ vd', put_layers plain_compress plain_decompress tiny_store 5 three_layers = Some (vd', Ok tt)
  ∧ layers_newest_first plain_decompress vd' 5
    = Ok [Sample.remove_df; Sample.write_df; Sample.mkdir_d].
Proof.
  eexists. split; [vm_compute; reflexivity|].
  refine (proj1 (vbf_put_then_read (chain_of := λ d id, bt_get id d) (in_range := λ _, True)
    plain_compress plain_decompress tiny_store _ 5 [] three_layers _ _ _ _)).
  - by intros raw prefix frame [= <-].
  - by split_and!.
  - reflexivity.
  - vm_compute. reflexivity.
Defined.

(** Putting layers never panics: every chunk of a batch holds a record. *)
Theorem put_layers_total {D} `{ChainStore D}
    (compress_frame decompress_frame : bytes → option bytes → Result bytes Z)
    (vd : @VbfDepot D) id ls :
  is_Some (put_layers compress_frame decompress_frame vd id ls).
Proof.
  destruct ls as [|l ls]; [by eexists|]. unfold put_layers. apply put_chunks_some.
  intros lo hi Hin. unfold chunk_newest_first in Hin. apply chunk_loop_elem in Hin as [Hlt _]; [|lia].
  by rewrite length_fmap in Hlt.
Qed.

(** A batch is split without loss and without reordering: the chunks,
    put back newest first, are the batch, and every chunk keeps within the
    seal threshold or is a single record. *)
Theorem chunks_partition (sizes : list Z) threshold :
  concat (slice_range sizes <$> rev (chunk_newest_first sizes threshold)) = sizes
  ∧ ∀ lo hi, (lo, hi) ∈ chunk_newest_first sizes threshold →
      (lo < hi ≤ length sizes)%nat ∧
      (range_total sizes lo hi ≤ threshold ∨ (hi - lo = 1)%nat).
Proof.
  unfold chunk_newest_first. split.
  - rewrite chunk_loop_partition by lia. by rewrite firstn_all.
  - intros lo hi Hin. by apply chunk_loop_elem in Hin.
Qed.
