(* ===== verification/WikiDepot.v ===== *)
(** * The chain depot on disk.

    Models [DepotInner] of [chupa/wikimak/depot/src/inner.rs] down to the bytes
    of its files: an index of pointer words, two tiers of data files, one cold
    file.  An operation is a state transformer that can fail and still have
    changed the files; [None] is a panic or the end of the fuel of a loop.
    Writing never fails here (no I/O errors), reading past the end of a file
    does. *)

From S2P Require Import Prelude.
From S2P Require Import BTreeMap.
From S2P Require Import ChainStore.
Open Scope Z_scope.

(** ** Constants *)
Definition HEADER_LEN : Z := 24.
Definition MAX_OFFSET : Z := Z.shiftl 1 48 - 1.
Definition MAX_FILE_ID : Z := 65535.
Definition COLD_FILE_ID : Z := 0.
Definition CHAIN_ID_CEILING : Z := Z.shiftl 1 40.
Definition UNEXPECTED_EOF : Z := 0.

(** ** Pointers and frames *)

(** [pack], [unpack], [is_cold_ptr] *)
Definition pack (file_id offset : Z) : Z := Z.lor (Z.shiftl offset 16) file_id.
Definition unpack (ptr : Z) : Z * Z := (Z.land ptr 65535, Z.shiftr ptr 16).
Definition is_cold_ptr (ptr : Z) : bool := negb (ptr =? 0) && (Z.land ptr 65535 =? COLD_FILE_ID).

(** [encode_frame] *)
Definition encode_frame (chain_id next_pointer : Z) (zstd : bytes) : bytes :=
  le_encode 8 chain_id ++ le_encode 8 next_pointer ++ le_encode 8 (zlen zstd) ++ zstd.

(** ** Files *)

(** [FileExt::write_all_at] and [read_exact_at] *)
Definition write_at (data : bytes) (off : nat) (b : bytes) : bytes :=
  take off data ++ replicate (off - length data) 0 ++ b ++ drop (off + length b) data.
Definition read_exact_at (data : bytes) (off : Z) (n : nat) : Result bytes DepotError :=
  if (Z.to_nat off + n <=? length data)%nat then Ok (take n (drop (Z.to_nat off) data))
  else Err (DIo UNEXPECTED_EOF).

(** [struct DataFile]; the file id is its key in the tier. *)
Record DataFile : Type := MkDataFile { df_data : bytes; df_len : Z; df_dead : Z }.

(** [struct Tier] *)
Record Tier : Type := MkTier {
  t_files : btmap Z DataFile;
  t_current : option Z;
  t_next_id : Z;
  t_written : Z
}.

(** [Tier::ensure_room]; [None] is the panic on a current file that is gone. *)
Definition ensure_room (t : Tier) (frame_size threshold : Z) : option (Tier * Result Z DepotError) :=
  let fresh :=
    let id := t_next_id t in
    if MAX_FILE_ID <? id then (t, Err Corrupt)
    else (MkTier (bt_insert id (MkDataFile [] 0 0) (t_files t)) (Some id) (id + 1) (t_written t), Ok id) in
  match t_current t with
  | None => Some fresh
  | Some id =>
      match bt_get id (t_files t) with
      | None => None
      | Some df => Some (if df_len df + frame_size <=? threshold then (t, Ok id) else fresh)
      end
  end.

(** [Tier::append] *)
Definition tier_append (t : Tier) (frame : bytes) (threshold : Z) :
    option (Tier * Result (Z * Z) DepotError) :=
  match ensure_room t (zlen frame) threshold with
  | None => None
  | Some (t, Err e) => Some (t, Err e)
  | Some (t, Ok id) =>
      match bt_get id (t_files t) with
      | None => None
      | Some df =>
          let off := df_len df in
          if MAX_OFFSET <? off + zlen frame then Some (t, Err FrameTooLarge)
          else
            let df := MkDataFile (write_at (df_data df) (Z.to_nat off) frame)
                        (off + zlen frame) (df_dead df) in
            Some (MkTier (bt_insert id df (t_files t)) (t_current t) (t_next_id t)
                    (t_written t + zlen frame), Ok (id, off))
      end
  end.

(** [read_next_pointer], [read_zstd_len], [read_zstd] *)
Definition tier_field (t : Tier) (file_id offset : Z) : Result Z DepotError :=
  match bt_get file_id (t_files t) with
  | None => Err Corrupt
  | Some df =>
      match read_exact_at (df_data df) offset 8 with
      | Ok b => Ok (le_decode b)
      | Err e => Err e
      end
  end.
Definition read_next_pointer (t : Tier) (file_id offset : Z) : Result Z DepotError :=
  tier_field t file_id (offset + 8).
Definition read_zstd_len (t : Tier) (file_id offset : Z) : Result Z DepotError :=
  tier_field t file_id (offset + 16).
Definition read_zstd (t : Tier) (file_id offset : Z) : Result bytes DepotError :=
  match bt_get file_id (t_files t) with
  | None => Err Corrupt
  | Some df =>
      match read_exact_at (df_data df) (offset + 16) 8 with
      | Err e => Err e
      | Ok b => read_exact_at (df_data df) (offset + HEADER_LEN) (Z.to_nat (le_decode b))
      end
  end.

(** [if let Some(df) = tier.files.get_mut(&id) { df.dead += n }] *)
Definition add_dead (t : Tier) (id n : Z) : Tier :=
  match bt_get id (t_files t) with
  | None => t
  | Some df =>
      MkTier (bt_insert id (MkDataFile (df_data df) (df_len df) (df_dead df + n)) (t_files t))
        (t_current t) (t_next_id t) (t_written t)
  end.

(** [patch.write_all_at(&ptr.to_le_bytes(), off + 8)] on a tier file *)
Definition patch_next (t : Tier) (id off ptr : Z) : option Tier :=
  match bt_get id (t_files t) with
  | None => None
  | Some df =>
      Some (MkTier (bt_insert id (MkDataFile (write_at (df_data df) (Z.to_nat (off + 8)) (le_encode 8 ptr))
                                    (df_len df) (df_dead df)) (t_files t))
              (t_current t) (t_next_id t) (t_written t))
  end.

(** ** The depot *)

(** [struct DepotInner] *)
Record DepotInner : Type := MkInner {
  file_size_threshold : Z;
  index : list Z;
  slots : Z;
  f0 : Tier;
  f1 : Tier;
  cold_file : bytes;
  cold_len : Z;
  cold_dead : Z;
  misc_written : Z
}.

Definition with_f0 (s : DepotInner) (t : Tier) : DepotInner :=
  MkInner (file_size_threshold s) (index s) (slots s) t (f1 s) (cold_file s) (cold_len s)
    (cold_dead s) (misc_written s).
Definition with_f1 (s : DepotInner) (t : Tier) : DepotInner :=
  MkInner (file_size_threshold s) (index s) (slots s) (f0 s) t (cold_file s) (cold_len s)
    (cold_dead s) (misc_written s).
Definition add_misc (s : DepotInner) (n : Z) : DepotInner :=
  MkInner (file_size_threshold s) (index s) (slots s) (f0 s) (f1 s) (cold_file s) (cold_len s)
    (cold_dead s) (misc_written s + n).
Definition add_cold_dead (s : DepotInner) (n : Z) : DepotInner :=
  MkInner (file_size_threshold s) (index s) (slots s) (f0 s) (f1 s) (cold_file s) (cold_len s)
    (cold_dead s + n) (misc_written s).

(** Operations on the depot. *)
Definition DM (A : Type) : Type := DepotInner → option (DepotInner * Result A DepotError).

#[export] Instance dm_ret : MRet DM := λ A a s, Some (s, Ok a).
#[export] Instance dm_bind : MBind DM := λ A B k m s,
  match m s with
  | None => None
  | Some (s, Err e) => Some (s, Err e)
  | Some (s, Ok a) => k a s
  end.
Definition dm_err {A} (e : DepotError) : DM A := λ s, Some (s, Err e).
Definition dm_read {A} (f : DepotInner → Result A DepotError) : DM A := λ s, Some (s, f s).
Definition dm_modify (f : DepotInner → DepotInner) : DM unit := λ s, Some (f s, Ok tt).

(** A freshly created depot: one index slot, no files. *)
Definition depot_fresh (threshold : Z) : DepotInner :=
  MkInner threshold [0] 1 (MkTier [] None 1 0) (MkTier [] None 1 0) [] 0 0 0.

(** [index_get] and [index_put]; an id beyond the index is a panic. *)
Definition index_get (chain_id : Z) : DM Z := λ s,
  match index s !! Z.to_nat chain_id with
  | None => None
  | Some ptr => Some (s, Ok ptr)
  end.
Definition index_put (chain_id ptr : Z) : DM unit := λ s,
  if (Z.to_nat chain_id <? length (index s))%nat then
    Some (MkInner (file_size_threshold s) (<[Z.to_nat chain_id := ptr]> (index s)) (slots s)
            (f0 s) (f1 s) (cold_file s) (cold_len s) (cold_dead s) (misc_written s + 8), Ok tt)
  else None.

(** [u64::next_power_of_two] *)
Definition next_power_of_two (n : Z) : Z := 2 ^ Z.log2_up n.

(** [ensure_slot] *)
Definition ensure_slot (chain_id : Z) : DM unit := λ s,
  if CHAIN_ID_CEILING <=? chain_id then Some (s, Err ChainIdOutOfRange)
  else if chain_id <? slots s then Some (s, Ok tt)
  else
    let new_slots :=
      Z.min (Z.max (next_power_of_two (chain_id + 1)) (Z.min (slots s * 2) (u64_limit - 1)))
        CHAIN_ID_CEILING in
    Some (MkInner (file_size_threshold s)
            (index s ++ replicate (Z.to_nat new_slots - length (index s)) 0) new_slots
            (f0 s) (f1 s) (cold_file s) (cold_len s) (cold_dead s) (misc_written s), Ok tt).

(** [slot_ptr]; the index maps a file of [slots] words, so that the access is
    in range. *)
Definition slot_ptr (s : DepotInner) (chain_id : Z) : Result Z DepotError :=
  if CHAIN_ID_CEILING <=? chain_id then Err ChainIdOutOfRange
  else if slots s <=? chain_id then Ok 0
  else Ok (default 0 (index s !! Z.to_nat chain_id)).

(** [self.f0.append(..)?] and [self.f1.append(..)?] *)
Definition append_f0 (frame : bytes) : DM (Z * Z) := λ s,
  match tier_append (f0 s) frame (file_size_threshold s) with
  | None => None
  | Some (t, r) => Some (with_f0 s t, r)
  end.
Definition append_f1 (frame : bytes) : DM (Z * Z) := λ s,
  match tier_append (f1 s) frame (file_size_threshold s) with
  | None => None
  | Some (t, r) => Some (with_f1 s t, r)
  end.

(** [cold_append] *)
Definition cold_append (frame : bytes) : DM Z := λ s,
  let s :=
    if cold_len s =? 0 then
      MkInner (file_size_threshold s) (index s) (slots s) (f0 s) (f1 s) (cold_file s ++ [0]) 1
        (cold_dead s) (misc_written s + 1)
    else s in
  if MAX_OFFSET <? cold_len s + zlen frame then Some (s, Err FrameTooLarge)
  else
    Some (MkInner (file_size_threshold s) (index s) (slots s) (f0 s) (f1 s)
            (cold_file s ++ frame) (cold_len s + zlen frame) (cold_dead s)
            (misc_written s + zlen frame), Ok (cold_len s)).

(** ** Reading *)

(** [read_f0] *)
Definition inner_read_f0 (s : DepotInner) (chain_id : Z) : Result bytes DepotError :=
  match slot_ptr s chain_id with
  | Err e => Err e
  | Ok ptr => if ptr =? 0 then Err NoFrame else read_zstd (f0 s) (unpack ptr).1 (unpack ptr).2
  end.

(** [read_f1] *)
Definition inner_read_f1 (s : DepotInner) (chain_id : Z) : Result (option bytes) DepotError :=
  match slot_ptr s chain_id with
  | Err e => Err e
  | Ok ptr =>
      if ptr =? 0 then Err NoFrame else
      match read_next_pointer (f0 s) (unpack ptr).1 (unpack ptr).2 with
      | Err e => Err e
      | Ok f1_ptr =>
          if (f1_ptr =? 0) || is_cold_ptr f1_ptr then Ok None
          else match read_zstd (f1 s) (unpack f1_ptr).1 (unpack f1_ptr).2 with
               | Ok z => Ok (Some z)
               | Err e => Err e
               end
      end
  end.

(** [cold_head] *)
Definition cold_head (s : DepotInner) (chain_id : Z) : Result Z DepotError :=
  match slot_ptr s chain_id with
  | Err e => Err e
  | Ok ptr =>
      if ptr =? 0 then Ok 0 else
      match read_next_pointer (f0 s) (unpack ptr).1 (unpack ptr).2 with
      | Err e => Err e
      | Ok f1_ptr =>
          if f1_ptr =? 0 then Ok 0
          else if is_cold_ptr f1_ptr then Ok f1_ptr
          else read_next_pointer (f1 s) (unpack f1_ptr).1 (unpack f1_ptr).2
      end
  end.

(** The header of a cold frame: its next pointer and payload length. *)
Definition cold_header (cold : bytes) (off : Z) : Result (Z * Z) DepotError :=
  match read_exact_at cold off 24 with
  | Err e => Err e
  | Ok h => Ok (le_decode (take 8 (drop 8 h)), le_decode (drop 16 h))
  end.

(** [read_cold_frame] *)
Definition read_cold_frame (s : DepotInner) (ptr : Z) : Result (bytes * Z) DepotError :=
  if negb ((unpack ptr).1 =? COLD_FILE_ID) then Err Corrupt else
  match cold_header (cold_file s) (unpack ptr).2 with
  | Err e => Err e
  | Ok (next, zstd_len) =>
      match read_exact_at (cold_file s) ((unpack ptr).2 + HEADER_LEN) (Z.to_nat zstd_len) with
      | Err e => Err e
      | Ok z => Ok (z, next)
      end
  end.

(** The frames [ColdIter] yields from a cursor on: it stops after an error. *)
Fixpoint cold_walk (fuel : nat) (s : DepotInner) (ptr : Z) : option (list (Result bytes DepotError)) :=
  if ptr =? 0 then Some [] else
  match fuel with
  | O => None
  | S fuel =>
      match read_cold_frame s ptr with
      | Err e => Some [Err e]
      | Ok (z, next) => cons (Ok z) <$> cold_walk fuel s next
      end
  end.

(** [has_chain] *)
Definition has_chain (s : DepotInner) (chain_id : Z) : Result bool DepotError :=
  match slot_ptr s chain_id with Err e => Err e | Ok ptr => Ok (negb (ptr =? 0)) end.

(** [occupied_chain_ids_after] *)
Definition occupied_chain_ids_after (s : DepotInner) (after : option Z) (limit : nat) : list Z :=
  let start := match after with None => 0 | Some id => Z.min (id + 1) (u64_limit - 1) end in
  take limit (filter (λ id, negb (default 0 (index s !! Z.to_nat id) =? 0))
    ((λ i, start + Z.of_nat i) <$> seq 0 (Z.to_nat (slots s - start)))).

(** ** Writing *)

(** The frame size a header describes. *)
Definition frame_size (s : DepotInner) (t : DepotInner → Tier) (id off : Z) : Result Z DepotError :=
  match read_zstd_len (t s) id off with Ok n => Ok (HEADER_LEN + n) | Err e => Err e end.

(** The next pointer of the f1 frame a prepend writes. *)
Definition new_f1_next (chain_id old_f1_ptr direct_cold : Z) (seal_old_f1 : bool) : DM Z :=
  let '(old_f1_fid, old_f1_off) := unpack old_f1_ptr in
  if seal_old_f1 then
    old_f1_next ← dm_read (λ s, read_next_pointer (f1 s) old_f1_fid old_f1_off);
    old_f1_zstd ← dm_read (λ s, read_zstd (f1 s) old_f1_fid old_f1_off);
    cold_off ← cold_append (encode_frame chain_id old_f1_next old_f1_zstd);
    mret (pack COLD_FILE_ID cold_off)
  else if negb (old_f1_ptr =? 0) then
    dm_read (λ s, read_next_pointer (f1 s) old_f1_fid old_f1_off)
  else mret direct_cold.

(** Installing a head over a history: f1 if there is one, f0, the index flip;
    how [prepend], [finish_chain] and [finish_replace_chain] commit. *)
Definition install_head (chain_id cold_head : Z) (f0_bytes : bytes) (f1_bytes : option bytes) : DM unit :=
  f0_next ← (match f1_bytes with
             | Some f1_bytes =>
                 '(fid, off) ← append_f1 (encode_frame chain_id cold_head f1_bytes);
                 mret (pack fid off)
             | None => mret cold_head
             end);
  '(fid, off) ← append_f0 (encode_frame chain_id f0_next f0_bytes);
  index_put chain_id (pack fid off).

(** [prepend] to a chain that has no frames yet *)
Definition prepend_first (chain_id : Z) (new_f0_bytes : bytes) (new_f1_bytes : option bytes)
    (seal_old_f1 : bool) : DM unit :=
  if match new_f1_bytes with Some _ => true | None => false end then dm_err FirstPrependHasF1
  else if seal_old_f1 then dm_err CannotSealNoF1
  else
    '(fid, off) ← append_f0 (encode_frame chain_id 0 new_f0_bytes);
    index_put chain_id (pack fid off).

(** [prepend] over the head at [old_f0_ptr] *)
Definition prepend_over (chain_id old_f0_ptr : Z) (new_f0_bytes : bytes)
    (new_f1_bytes : option bytes) (seal_old_f1 : bool) : DM unit :=
  match new_f1_bytes with
  | None => dm_err MissingF1
  | Some new_f1_bytes =>
      let '(old_f0_fid, old_f0_off) := unpack old_f0_ptr in
      old_f0_ptr_field ← dm_read (λ s, read_next_pointer (f0 s) old_f0_fid old_f0_off);
      let '(old_f1_ptr, direct_cold) :=
        if is_cold_ptr old_f0_ptr_field then (0, old_f0_ptr_field) else (old_f0_ptr_field, 0) in
      if seal_old_f1 && (old_f1_ptr =? 0) then dm_err CannotSealNoF1 else
      old_f0_size ← dm_read (λ s, frame_size s f0 old_f0_fid old_f0_off);
      let '(old_f1_fid, old_f1_off) := unpack old_f1_ptr in
      old_f1_size ← (if negb (old_f1_ptr =? 0) then dm_read (λ s, frame_size s f1 old_f1_fid old_f1_off)
                     else mret 0);
      new_f1_next_ptr ← new_f1_next chain_id old_f1_ptr direct_cold seal_old_f1;
      _ ← install_head chain_id new_f1_next_ptr new_f0_bytes (Some new_f1_bytes);
      _ ← dm_modify (λ s, with_f0 s (add_dead (f0 s) old_f0_fid old_f0_size));
      dm_modify (λ s, if negb (old_f1_ptr =? 0)
                      then with_f1 s (add_dead (f1 s) old_f1_fid old_f1_size) else s)
  end.

(** [prepend] *)
Definition prepend (chain_id : Z) (new_f0_bytes : bytes) (new_f1_bytes : option bytes)
    (seal_old_f1 : bool) : DM unit :=
  _ ← ensure_slot chain_id;
  old_f0_ptr ← index_get chain_id;
  if old_f0_ptr =? 0 then prepend_first chain_id new_f0_bytes new_f1_bytes seal_old_f1
  else prepend_over chain_id old_f0_ptr new_f0_bytes new_f1_bytes seal_old_f1.

(** The commit of [seal_f1]: the live f0 repointed in place. *)
Definition repoint_f0 (f0_fid f0_off ptr : Z) : DM unit := λ s,
  match patch_next (f0 s) f0_fid f0_off ptr with
  | None => Some (s, Err Corrupt)
  | Some t => Some (add_misc (with_f0 s t) 8, Ok tt)
  end.

(** [seal_f1] *)
Definition seal_f1 (chain_id : Z) : DM unit :=
  f0_ptr ← dm_read (λ s, slot_ptr s chain_id);
  if f0_ptr =? 0 then dm_err NoFrame else
  let '(f0_fid, f0_off) := unpack f0_ptr in
  f1_ptr ← dm_read (λ s, read_next_pointer (f0 s) f0_fid f0_off);
  if (f1_ptr =? 0) || is_cold_ptr f1_ptr then dm_err CannotSealNoF1 else
  let '(f1_fid, f1_off) := unpack f1_ptr in
  f1_next ← dm_read (λ s, read_next_pointer (f1 s) f1_fid f1_off);
  f1_zstd ← dm_read (λ s, read_zstd (f1 s) f1_fid f1_off);
  cold_off ← cold_append (encode_frame chain_id f1_next f1_zstd);
  _ ← repoint_f0 f0_fid f0_off (pack COLD_FILE_ID cold_off);
  dm_modify (λ s, with_f1 s (add_dead (f1 s) f1_fid (HEADER_LEN + zlen f1_zstd))).

(** The header walk of [delete_chain] over the cold frames from [next] on;
    [None] when the fuel runs out, on a cyclic chain. *)
Fixpoint bury_cold (fuel : nat) (next : Z) : DM unit :=
  if next =? 0 then mret tt else
  match fuel with
  | O => λ _, None
  | S fuel =>
      if negb ((unpack next).1 =? COLD_FILE_ID) then dm_err Corrupt else
      '(next', zstd_len) ← dm_read (λ s, cold_header (cold_file s) (unpack next).2);
      _ ← dm_modify (λ s, add_cold_dead s (HEADER_LEN + zstd_len));
      bury_cold fuel next'
  end.

(** The header walk of [chain_footprint]. *)
Fixpoint cold_bytes_from (fuel : nat) (s : DepotInner) (next : Z) (acc : Z) :
    option (Result Z DepotError) :=
  if next =? 0 then Some (Ok acc) else
  match fuel with
  | O => None
  | S fuel =>
      if negb ((unpack next).1 =? COLD_FILE_ID) then Some (Err Corrupt) else
      match cold_header (cold_file s) (unpack next).2 with
      | Err e => Some (Err e)
      | Ok (next', zstd_len) => cold_bytes_from fuel s next' (acc + (HEADER_LEN + zstd_len))
      end
  end.
Definition cold_bytes (next : Z) : DM Z := λ s,
  match cold_bytes_from (S (length (cold_file s))) s next 0 with
  | None => None
  | Some r => Some (s, r)
  end.

(** [delete_chain] *)
Definition delete_chain (chain_id : Z) : DM unit :=
  ptr ← dm_read (λ s, slot_ptr s chain_id);
  if ptr =? 0 then mret tt else
  let '(f0_fid, f0_off) := unpack ptr in
  f0_next ← dm_read (λ s, read_next_pointer (f0 s) f0_fid f0_off);
  f0_size ← dm_read (λ s, frame_size s f0 f0_fid f0_off);
  _ ← dm_modify (λ s, with_f0 s (add_dead (f0 s) f0_fid f0_size));
  head ← (if f0_next =? 0 then mret 0
          else if is_cold_ptr f0_next then mret f0_next
          else
            let '(f1_fid, f1_off) := unpack f0_next in
            f1_size ← dm_read (λ s, frame_size s f1 f1_fid f1_off);
            next ← dm_read (λ s, read_next_pointer (f1 s) f1_fid f1_off);
            _ ← dm_modify (λ s, with_f1 s (add_dead (f1 s) f1_fid f1_size));
            mret next);
  _ ← (λ s, bury_cold (S (length (cold_file s))) head s);
  index_put chain_id 0.

(** [begin_chain] and [begin_replace_chain] *)
Definition begin_chain (chain_id : Z) : DM unit :=
  _ ← ensure_slot chain_id;
  ptr ← index_get chain_id;
  if negb (ptr =? 0) then dm_err ChainNotEmpty else mret tt.
Definition begin_replace_chain (chain_id : Z) : DM Z :=
  _ ← ensure_slot chain_id;
  ptr ← index_get chain_id;
  if ptr =? 0 then dm_err NoFrame else mret ptr.

(** [append_history_frame] *)
Definition append_history_frame (chain_id next_ptr : Z) (zstd : bytes) : DM Z :=
  off ← cold_append (encode_frame chain_id next_ptr zstd);
  mret (pack COLD_FILE_ID off).

(** [finish_chain] *)
Definition finish_chain (chain_id cold_head : Z) (f0_bytes : bytes) (f1_bytes : option bytes) : DM unit :=
  ptr ← index_get chain_id;
  if negb (ptr =? 0) then dm_err ChainNotEmpty else install_head chain_id cold_head f0_bytes f1_bytes.

(** [replace_f0] *)
Definition replace_f0 (chain_id : Z) (f0_bytes : bytes) : DM unit :=
  old_ptr ← dm_read (λ s, slot_ptr s chain_id);
  if old_ptr =? 0 then dm_err NoFrame else
  let '(old_file, old_off) := unpack old_ptr in
  next ← dm_read (λ s, read_next_pointer (f0 s) old_file old_off);
  old_bytes ← dm_read (λ s, frame_size s f0 old_file old_off);
  '(file, off) ← append_f0 (encode_frame chain_id next f0_bytes);
  _ ← index_put chain_id (pack file off);
  dm_modify (λ s, with_f0 s (add_dead (f0 s) old_file old_bytes)).

(** [struct ChainFootprint] *)
Record ChainFootprint : Type := MkFootprint {
  fp_f0_file : Z;
  fp_f0_bytes : Z;
  fp_f1 : option (Z * Z);
  fp_cold_bytes : Z
}.

(** [chain_footprint] *)
Definition chain_footprint (ptr : Z) : DM ChainFootprint :=
  let '(f0_file, f0_off) := unpack ptr in
  f0_bytes ← dm_read (λ s, frame_size s f0 f0_file f0_off);
  f0_next ← dm_read (λ s, read_next_pointer (f0 s) f0_file f0_off);
  '(fp1, cold) ←
    (if f0_next =? 0 then mret (None, 0)
     else if is_cold_ptr f0_next then mret (None, f0_next)
     else
       let '(file, off) := unpack f0_next in
       bytes ← dm_read (λ s, frame_size s f1 file off);
       next ← dm_read (λ s, read_next_pointer (f1 s) file off);
       mret (Some (file, bytes), next));
  dead ← cold_bytes cold;
  mret (MkFootprint f0_file f0_bytes fp1 dead).

(** [finish_replace_chain] *)
Definition finish_replace_chain (chain_id expected_old_ptr cold_head : Z) (f0_bytes : bytes)
    (f1_bytes : option bytes) : DM unit :=
  old_ptr ← dm_read (λ s, slot_ptr s chain_id);
  if old_ptr =? 0 then dm_err NoFrame else
  if negb (old_ptr =? expected_old_ptr) then dm_err StaleBuilder else
  old ← chain_footprint old_ptr;
  _ ← install_head chain_id cold_head f0_bytes f1_bytes;
  _ ← dm_modify (λ s, with_f0 s (add_dead (f0 s) (fp_f0_file old) (fp_f0_bytes old)));
  _ ← dm_modify (λ s, match fp_f1 old with
                      | Some (file, bytes) => with_f1 s (add_dead (f1 s) file bytes)
                      | None => s
                      end);
  dm_modify (λ s, add_cold_dead s (fp_cold_bytes old)).

(** ** Bulk construction, as the clients see it *)

(** [struct ChainBuilder] *)
Record ChainBuilder : Type := MkBuilder {
  b_chain_id : Z;
  b_cold_head : Z;
  b_frames : Z;
  b_replaced_ptr : option Z
}.

(** [Depot::begin_chain], [begin_replace_chain], [append_history_frame] and
    [finish_chain] *)
Definition depot_begin_chain (chain_id : Z) : DM ChainBuilder :=
  _ ← begin_chain chain_id;
  mret (MkBuilder chain_id 0 0 None).
Definition depot_begin_replace_chain (chain_id : Z) : DM ChainBuilder :=
  replaced_ptr ← begin_replace_chain chain_id;
  mret (MkBuilder chain_id 0 0 (Some replaced_ptr)).
Definition depot_append_history_frame (b : ChainBuilder) (zstd : bytes) : DM ChainBuilder :=
  ptr ← append_history_frame (b_chain_id b) (b_cold_head b) zstd;
  mret (MkBuilder (b_chain_id b) ptr (b_frames b + 1) (b_replaced_ptr b)).
Definition depot_finish_chain (b : ChainBuilder) (f0_bytes : bytes) (f1_bytes : option bytes) : DM unit :=
  match b_replaced_ptr b with
  | Some expected =>
      finish_replace_chain (b_chain_id b) expected (b_cold_head b) f0_bytes f1_bytes
  | None => finish_chain (b_chain_id b) (b_cold_head b) f0_bytes f1_bytes
  end.

(** A client's build: the history frames, oldest first, then the head. *)
Fixpoint feed_builder (b : ChainBuilder) (frames : list bytes) : DM ChainBuilder :=
  match frames with
  | [] => mret b
  | z :: frames => b ← depot_append_history_frame b z; feed_builder b frames
  end.
Definition build_chain (begin : DM ChainBuilder) (frames : list bytes) (f0_bytes : bytes)
    (f1_bytes : option bytes) : DM unit :=
  b ← begin;
  b ← feed_builder b frames;
  depot_finish_chain b f0_bytes f1_bytes.

(** ** Eviction *)

(** [struct WalkedFrame] *)
Record WalkedFrame : Type := MkWalked { wf_offset : Z; wf_header : bytes; wf_zstd : bytes }.

(** [walk_frames], from [off] on; every frame has a header, so that the length
    of the file is fuel enough. *)
Fixpoint walk_loop (fuel : nat) (df : DataFile) (off : Z) (out : list WalkedFrame) :
    option (Result (list WalkedFrame) DepotError) :=
  if df_len df <=? off then Some (Ok out) else
  match fuel with
  | O => None
  | S fuel =>
      match read_exact_at (df_data df) off 24 with
      | Err e => Some (Err e)
      | Ok header =>
          let zstd_len := le_decode (drop 16 header) in
          match read_exact_at (df_data df) (off + HEADER_LEN) (Z.to_nat zstd_len) with
          | Err e => Some (Err e)
          | Ok zstd =>
              walk_loop fuel df (off + (HEADER_LEN + zstd_len)) (out ++ [MkWalked off header zstd])
          end
      end
  end.
Definition walk_frames (df : DataFile) : option (Result (list WalkedFrame) DepotError) :=
  walk_loop (S (length (df_data df))) df 0 [].

(** [wf.header[0..8]] *)
Definition wf_chain (wf : WalkedFrame) : Z := le_decode (take 8 (wf_header wf)).

(** The victim's frames: [walk_frames(tier.files.get(&vid).expect(..))?] *)
Definition victim_frames (t : DepotInner → Tier) (vid : Z) : DM (list WalkedFrame) := λ s,
  match bt_get vid (t_files (t s)) with
  | None => None
  | Some df => match walk_frames df with None => None | Some r => Some (s, r) end
  end.

(** [tier.files.remove(&vid)] and the unlink *)
Definition remove_file (t : Tier) (vid : Z) : Tier :=
  MkTier (bt_remove vid (t_files t)) (t_current t) (t_next_id t) (t_written t).

(** A live frame of the victim appended again and the index flipped. *)
Definition move_f0 (wf : WalkedFrame) : DM unit :=
  '(new_fid, new_off) ← append_f0 (wf_header wf ++ wf_zstd wf);
  index_put (wf_chain wf) (pack new_fid new_off).

(** The frame loop of [evict_f0]. *)
Fixpoint migrate_f0 (vid : Z) (frames : list WalkedFrame) : DM unit :=
  match frames with
  | [] => mret tt
  | wf :: frames =>
      live_ptr ← index_get (wf_chain wf);
      let '(live_fid, live_off) := unpack live_ptr in
      if negb ((live_fid =? vid) && (live_off =? wf_offset wf)) then migrate_f0 vid frames else
      _ ← move_f0 wf;
      migrate_f0 vid frames
  end.

(** [evict_f0] *)
Definition evict_f0 (vid : Z) : DM unit :=
  frames ← victim_frames f0 vid;
  _ ← migrate_f0 vid frames;
  dm_modify (λ s, with_f0 s (remove_file (f0 s) vid)).

(** The live f0 repointed at the migrated f1; [None] is the panic on a file
    that is gone. *)
Definition repoint_migrated (f0_fid f0_off ptr : Z) : DM unit := λ s,
  match patch_next (f0 s) f0_fid f0_off ptr with
  | None => None
  | Some t => Some (add_misc (with_f0 s t) 8, Ok tt)
  end.

(** A live frame of the victim appended again and its f0 repointed. *)
Definition move_f1 (f0_fid f0_off : Z) (wf : WalkedFrame) : DM unit :=
  '(new_fid, new_off) ← append_f1 (wf_header wf ++ wf_zstd wf);
  repoint_migrated f0_fid f0_off (pack new_fid new_off).

(** The frame loop of [evict_f1]. *)
Fixpoint migrate_f1 (vid : Z) (frames : list WalkedFrame) : DM unit :=
  match frames with
  | [] => mret tt
  | wf :: frames =>
      live_f0_ptr ← index_get (wf_chain wf);
      if live_f0_ptr =? 0 then migrate_f1 vid frames else
      let '(f0_fid, f0_off) := unpack live_f0_ptr in
      current_f1_ptr ← dm_read (λ s, read_next_pointer (f0 s) f0_fid f0_off);
      let '(cur_f1_fid, cur_f1_off) := unpack current_f1_ptr in
      if negb ((cur_f1_fid =? vid) && (cur_f1_off =? wf_offset wf)) then migrate_f1 vid frames else
      _ ← move_f1 f0_fid f0_off wf;
      migrate_f1 vid frames
  end.

(** [evict_f1] *)
Definition evict_f1 (vid : Z) : DM unit :=
  frames ← victim_frames f1 vid;
  _ ← migrate_f1 vid frames;
  dm_modify (λ s, with_f1 s (remove_file (f1 s) vid)).

Definition clear_current (t : Tier) (vid : Z) : Tier :=
  MkTier (t_files t) (if bool_decide (t_current t = Some vid) then None else t_current t)
    (t_next_id t) (t_written t).

Section evict_pass.
(** [(dead as f32 / len as f32) > eviction_dead_ratio] *)
Variable over_ratio : Z → Z → bool.

(** The first victim of a tier, in file order. *)
Definition find_victim (t : Tier) (include_current : bool) : option Z :=
  (λ x : nat * (Z * DataFile), x.2.1) <$>
  list_find (λ kd : Z * DataFile,
    negb (negb include_current && bool_decide (Some kd.1 = t_current t))
    && (0 <? df_len kd.2) && over_ratio (df_dead kd.2) (df_len kd.2)) (t_files t).

(** [evict_pass]; [None] when the fuel runs out. *)
Fixpoint evict_pass (fuel : nat) (include_current : bool) : DM unit := λ s,
  match find_victim (f0 s) include_current, find_victim (f1 s) include_current with
  | None, None => Some (s, Ok tt)
  | Some vid, _ =>
      match fuel with
      | O => None
      | S fuel =>
          (_ ← dm_modify (λ s, with_f0 s (clear_current (f0 s) vid));
           _ ← evict_f0 vid;
           evict_pass fuel include_current) s
      end
  | None, Some vid =>
      match fuel with
      | O => None
      | S fuel =>
          (_ ← dm_modify (λ s, with_f1 s (clear_current (f1 s) vid));
           _ ← evict_f1 vid;
           evict_pass fuel include_current) s
      end
  end.

(** [maybe_evict] and [collect]; a round leaves one file with dead bytes fewer,
    so that as many rounds as files are enough. *)
Definition maybe_evict : DM unit := λ s,
  evict_pass (length (t_files (f0 s)) + length (t_files (f1 s))) false s.
Definition collect : DM unit := λ s,
  evict_pass (length (t_files (f0 s)) + length (t_files (f1 s))) true s.
End evict_pass.

(** [collect_f0] *)
Fixpoint collect_f0_loop (fuel : nat) : DM unit := λ s,
  match list_find (λ kd : Z * DataFile, 0 < df_dead kd.2) (t_files (f0 s)) with
  | None => Some (s, Ok tt)
  | Some (_, (vid, _)) =>
      match fuel with
      | O => None
      | S fuel =>
          (_ ← dm_modify (λ s, with_f0 s (clear_current (f0 s) vid));
           _ ← evict_f0 vid;
           collect_f0_loop fuel) s
      end
  end.
Definition collect_f0 : DM unit := λ s, collect_f0_loop (length (t_files (f0 s))) s.

(** [delete_all] *)
Definition delete_all : DM unit := dm_modify (λ s,
  MkInner (file_size_threshold s) (replicate (Z.to_nat (slots s)) 0) (slots s)
    (MkTier [] None 1 (t_written (f0 s))) (MkTier [] None 1 (t_written (f1 s))) [] 0 0
    (misc_written s)).
