(* ===== verification/WikiDepotRep.v ===== *)
(** * The frames behind the chain depot's bytes.

    What the files of [WikiDepot] hold, frame by frame: a data file is a
    sequence of encoded frames, the cold file a pad byte and such a sequence.
    [chain_at] says which chain a pointer word leads to, and [depot_inv] is the
    invariant of every depot.  The reading functions return the frames of the
    sequence; appending, patching and walking a file are operations on it. *)

From stdpp Require Import gmap.
From S2P Require Import Prelude.
From S2P Require Import BTreeMap.
From S2P Require Import ChainStore.
From S2P Require Import WikiDepot.
Open Scope Z_scope.

(** ** Frames and files of frames *)

Record Frame : Type := MkFrame { fr_chain : Z; fr_next : Z; fr_zstd : bytes }.

Definition enc (fr : Frame) : bytes := encode_frame (fr_chain fr) (fr_next fr) (fr_zstd fr).
Definition encs (fs : list Frame) : bytes := concat (enc <$> fs).

(** The frame that starts at an offset. *)
Fixpoint frame_at (fs : list Frame) (off : Z) : option Frame :=
  match fs with
  | [] => None
  | fr :: fs => if off =? 0 then Some fr else frame_at fs (off - zlen (enc fr))
  end.

(** The words of a header fit their fields. *)
Definition frame_ok (fr : Frame) : Prop :=
  0 ≤ fr_chain fr < u64_limit ∧ 0 ≤ fr_next fr < u64_limit ∧ zlen (fr_zstd fr) < u64_limit.

Definition file_rep (df : DataFile) (fs : list Frame) : Prop :=
  df_data df = encs fs ∧ df_len df = zlen (encs fs) ∧ df_len df ≤ MAX_OFFSET ∧ Forall frame_ok fs.

(** The frames of a tier, by file id. *)
Abbreviation frames := (gmap Z (list Frame)).
Definition lookup_frame (m : frames) (fid off : Z) : option Frame :=
  fs ← m !! fid; frame_at fs off.

Record tier_rep (t : Tier) (m : frames) : Prop := {
  tr_sorted : bt_ok (t_files t) = true;
  tr_files : ∀ fid,
    match bt_get fid (t_files t), m !! fid with
    | Some df, Some fs => file_rep df fs ∧ 1 ≤ fid < t_next_id t
    | None, None => True
    | _, _ => False
    end;
  tr_current : ∀ fid, t_current t = Some fid → is_Some (m !! fid);
  tr_next : 1 ≤ t_next_id t ≤ MAX_FILE_ID + 1
}.

(** ** Chains *)

Record Ghost : Type := MkGhost { g0 : frames; g1 : frames; gc : list Frame }.

(** The cold frames from a pointer on; they point back. *)
Inductive cold_at (gc : list Frame) : Z → list bytes → Prop :=
| cold_at_nil : cold_at gc 0 []
| cold_at_cons ptr off fr l :
    ptr = pack COLD_FILE_ID off → 1 ≤ off ≤ MAX_OFFSET →
    frame_at gc (off - 1) = Some fr → (unpack (fr_next fr)).2 < off →
    cold_at gc (fr_next fr) l →
    cold_at gc ptr (fr_zstd fr :: l).

(** Addresses in a tier. *)
Definition addr (fid off : Z) : Prop := 1 ≤ fid ≤ MAX_FILE_ID ∧ 0 ≤ off ≤ MAX_OFFSET.

(** What follows the head: an accumulator, or the cold frames. *)
Inductive tail_at (g : Ghost) (id : Z) : Z → option bytes → list bytes → Prop :=
| tail_cold ptr l : cold_at (gc g) ptr l → tail_at g id ptr None l
| tail_f1 ptr fid off fr l :
    ptr = pack fid off → addr fid off →
    lookup_frame (g1 g) fid off = Some fr → fr_chain fr = id →
    cold_at (gc g) (fr_next fr) l →
    tail_at g id ptr (Some (fr_zstd fr)) l.

Inductive chain_at (g : Ghost) (id : Z) : Z → Chain → Prop :=
| chain_at_intro ptr fid off fr o l :
    ptr = pack fid off → addr fid off →
    lookup_frame (g0 g) fid off = Some fr → fr_chain fr = id →
    tail_at g id (fr_next fr) o l →
    chain_at g id ptr (MkChain (fr_zstd fr) o l).

(** ** The invariant of a depot *)

Record files_inv (s : DepotInner) (g : Ghost) : Prop := {
  fi_f0 : tier_rep (f0 s) (g0 g);
  fi_f1 : tier_rep (f1 s) (g1 g);
  fi_cold : cold_file s = (if cold_len s =? 0 then [] else 0 :: encs (gc g));
  fi_cold_len : cold_len s = if cold_len s =? 0 then 0 else 1 + zlen (encs (gc g));
  fi_cold_nil : cold_len s = 0 → gc g = [];
  fi_cold_max : cold_len s ≤ MAX_OFFSET;
  fi_cold_ok : Forall frame_ok (gc g);
  fi_slots : slots s = zlen (index s);
  fi_slots_max : 1 ≤ slots s ≤ CHAIN_ID_CEILING;
  fi_ids0 : ∀ fid off fr, lookup_frame (g0 g) fid off = Some fr → fr_chain fr < slots s;
  fi_ids1 : ∀ fid off fr, lookup_frame (g1 g) fid off = Some fr → fr_chain fr < slots s
}.

(** The index word of a chain; zero beyond the index. *)
Definition ptr_of (s : DepotInner) (id : Z) : Z := default 0 (index s !! Z.to_nat id).

(** What a word means: no chain, or the chain it leads to. *)
Definition chain_is (g : Ghost) (id ptr : Z) (oc : option Chain) : Prop :=
  match oc with
  | None => ptr = 0
  | Some c => chain_at g id ptr c
  end.

(** Every word of the index is zero or leads to a chain. *)
Definition index_inv (s : DepotInner) (g : Ghost) : Prop :=
  ∀ id, 0 ≤ id → ∃ oc, chain_is g id (ptr_of s id) oc.

Definition depot_inv (s : DepotInner) (g : Ghost) : Prop := files_inv s g ∧ index_inv s g.

(** What can be read of a chain through the depot's operations. *)
Definition cold_frames (s : DepotInner) (chain_id : Z) : option (list bytes) :=
  match cold_head s chain_id with
  | Err _ => None
  | Ok ptr =>
      l ← cold_walk (S (length (cold_file s))) s ptr;
      mapM (λ r : Result bytes DepotError, match r with Ok z => Some z | Err _ => None end) l
  end.
Definition chain_of (s : DepotInner) (chain_id : Z) : option Chain :=
  match inner_read_f0 s chain_id, inner_read_f1 s chain_id, cold_frames s chain_id with
  | Ok z, Ok o, Some l => Some (MkChain z o l)
  | _, _, _ => None
  end.

(** The states of a depot's life. *)
Definition valid (s : DepotInner) : Prop := ∃ g, depot_inv s g.

#[global] Arguments le_encode : simpl never.
#[global] Arguments pack : simpl never.
#[global] Arguments unpack : simpl never.
#[global] Arguments encode_frame : simpl never.

(** ** Pointer words *)

Lemma pack_add fid off : 0 ≤ fid < 65536 → pack fid off = off * 65536 + fid.
Proof.
  intros Hf. unfold pack. rewrite Z.shiftl_mul_pow2 by lia. by apply (lor_shift_add 16).
Qed.

Lemma unpack_pack fid off : 0 ≤ fid < 65536 → 0 ≤ off → unpack (pack fid off) = (fid, off).
Proof.
  intros Hf Ho. rewrite pack_add by done. unfold unpack.
  change 65535 with (Z.ones 16). rewrite Z.land_ones, Z.shiftr_div_pow2 by lia.
  change (2 ^ 16) with 65536. f_equal.
  - rewrite Z.add_comm, Z_mod_plus_full. by apply Z.mod_small.
  - rewrite Z.add_comm, Z.div_add by lia. rewrite Z.div_small by lia. lia.
Qed.

Lemma unpack_addr fid off : addr fid off → unpack (pack fid off) = (fid, off).
Proof. intros [??]. apply unpack_pack; unfold MAX_FILE_ID in *; lia. Qed.

Lemma unpack_cold off : 0 ≤ off → unpack (pack COLD_FILE_ID off) = (COLD_FILE_ID, off).
Proof. intros. apply unpack_pack; unfold COLD_FILE_ID; lia. Qed.

Lemma pack_addr_nonzero fid off : addr fid off → pack fid off ≠ 0.
Proof. intros [??]. rewrite pack_add; unfold MAX_FILE_ID in *; lia. Qed.

Lemma pack_cold_nonzero off : 1 ≤ off → pack COLD_FILE_ID off ≠ 0.
Proof. intros. rewrite pack_add; unfold COLD_FILE_ID; lia. Qed.

Lemma is_cold_pack off : 1 ≤ off → is_cold_ptr (pack COLD_FILE_ID off) = true.
Proof.
  intros Ho. unfold is_cold_ptr. pose proof (pack_cold_nonzero off Ho) as Hn.
  apply Z.eqb_neq in Hn. rewrite Hn. pose proof (unpack_cold off ltac:(lia)) as [= -> _]. done.
Qed.

Lemma is_cold_addr fid off : addr fid off → is_cold_ptr (pack fid off) = false.
Proof.
  intros Ha. unfold is_cold_ptr. pose proof (unpack_addr fid off Ha) as [= -> _].
  destruct Ha as [? _]. assert ((fid =? COLD_FILE_ID) = false) as -> by (unfold COLD_FILE_ID; lia).
  apply andb_false_r.
Qed.

Lemma pack_bound fid off : 0 ≤ fid < 65536 → 0 ≤ off ≤ MAX_OFFSET → 0 ≤ pack fid off < u64_limit.
Proof.
  intros Hf Ho. rewrite pack_add by done. unfold MAX_OFFSET, u64_limit in *.
  change (Z.shiftl 1 48) with (2 ^ 48) in Ho. change (2 ^ 64) with (2 ^ 48 * 65536).
  change (2 ^ 48) with 281474976710656 in *. lia.
Qed.

(** ** Bytes *)

Lemma read_exact_app pre x post off :
  off = zlen pre → read_exact_at (pre ++ x ++ post) off (length x) = Ok x.
Proof.
  intros ->. unfold read_exact_at, zlen. rewrite Nat2Z.id, !length_app.
  rewrite (proj2 (Nat.leb_le _ _)) by lia. by rewrite drop_app_length, take_app_length.
Qed.

Lemma le8_roundtrip v : 0 ≤ v < u64_limit → le_decode (le_encode 8 v) = v.
Proof. intros. by apply le_roundtrip. Qed.

Lemma le8_zlen v : zlen (le_encode 8 v) = 8.
Proof. unfold zlen. by rewrite le_encode_length. Qed.

Lemma enc_zlen fr : zlen (enc fr) = HEADER_LEN + zlen (fr_zstd fr).
Proof. unfold enc, encode_frame. rewrite !zlen_app, !le8_zlen. unfold HEADER_LEN. lia. Qed.

Lemma enc_pos fr : 0 < zlen (enc fr).
Proof. rewrite enc_zlen. pose proof (zlen_nonneg (fr_zstd fr)). unfold HEADER_LEN. lia. Qed.

Lemma encs_app fs1 fs2 : encs (fs1 ++ fs2) = encs fs1 ++ encs fs2.
Proof. unfold encs. by rewrite fmap_app, concat_app. Qed.

Lemma encs_cons fr fs : encs (fr :: fs) = enc fr ++ encs fs.
Proof. done. Qed.

Lemma encs_one fr : encs [fr] = enc fr.
Proof. apply app_nil_r. Qed.

Lemma write_at_end data b : write_at data (length data) b = data ++ b.
Proof.
  unfold write_at. rewrite take_ge, Nat.sub_diag, drop_ge by lia. simpl. by rewrite app_nil_r.
Qed.

Lemma write_at_mid pre x y post off :
  off = length pre → length x = length y → write_at (pre ++ x ++ post) off y = pre ++ y ++ post.
Proof.
  intros -> Hl. unfold write_at. rewrite take_app_length, !length_app.
  replace (length pre - _)%nat with 0%nat by lia. simpl.
  do 2 f_equal. rewrite <- Hl, <- length_app, app_assoc. by rewrite drop_app_length.
Qed.

(** ** Finding frames *)

Lemma frame_at_split fs off fr :
  frame_at fs off = Some fr ↔ ∃ pre post, fs = pre ++ fr :: post ∧ off = zlen (encs pre).
Proof.
  revert off. induction fs as [|x fs IH]; intros off; cbn [frame_at].
  - split; [done|]. intros (pre&post&E&_). by destruct pre.
  - destruct (Z.eqb_spec off 0) as [->|Hne].
    + split.
      * intros [= ->]. by exists [], fs.
      * intros ([|y pre]&post&[= -> ->]&E); [done|].
        rewrite encs_cons, zlen_app in E. pose proof (enc_pos y). pose proof (zlen_nonneg (encs pre)). lia.
    + rewrite IH. split.
      * intros (pre&post&->&E). exists (x :: pre), post. split; [done|].
        rewrite encs_cons, zlen_app. lia.
      * intros ([|y pre]&post&[= -> ->]&->); [done|]. exists pre, post. split; [done|].
        rewrite encs_cons, zlen_app. lia.
Qed.

Lemma frame_at_bound fs off fr :
  frame_at fs off = Some fr → 0 ≤ off ∧ off + zlen (enc fr) ≤ zlen (encs fs).
Proof.
  intros (pre&post&->&->)%frame_at_split. rewrite encs_app, encs_cons, !zlen_app.
  pose proof (zlen_nonneg (encs pre)). pose proof (zlen_nonneg (encs post)). lia.
Qed.

Lemma frame_at_app fs fr off x :
  frame_at (fs ++ [fr]) off = Some x ↔
  frame_at fs off = Some x ∨ (off = zlen (encs fs) ∧ x = fr).
Proof.
  revert off. induction fs as [|y fs IH]; intros off; cbn [frame_at app].
  - change (zlen (encs [])) with 0. destruct (Z.eqb_spec off 0); naive_solver.
  - rewrite encs_cons, zlen_app. destruct (Z.eqb_spec off 0) as [->|Hne].
    + pose proof (enc_pos y). pose proof (zlen_nonneg (encs fs)). naive_solver lia.
    + rewrite IH. naive_solver lia.
Qed.

Lemma frame_at_ok fs off fr : Forall frame_ok fs → frame_at fs off = Some fr → frame_ok fr.
Proof.
  intros Hok (pre&post&->&_)%frame_at_split. apply Forall_app in Hok as [_ Hok].
  by apply Forall_cons in Hok as [? _].
Qed.

(** Reading the header words and the payload of a frame. *)
Section read_frame.
Variables (pre post : bytes) (fr : Frame).
Hypothesis (Hok : frame_ok fr).

Definition header_of : bytes :=
  le_encode 8 (fr_chain fr) ++ le_encode 8 (fr_next fr) ++ le_encode 8 (zlen (fr_zstd fr)).

Lemma enc_header : enc fr = header_of ++ fr_zstd fr.
Proof. unfold enc, encode_frame, header_of. by rewrite <- !app_assoc. Qed.

Lemma header_zlen_24 : zlen header_of = HEADER_LEN.
Proof. unfold header_of. by rewrite !zlen_app, !le8_zlen. Qed.

Lemma read_next_word off :
  off = zlen pre → read_exact_at (pre ++ enc fr ++ post) (off + 8) 8 = Ok (le_encode 8 (fr_next fr)).
Proof.
  intros ->. unfold enc, encode_frame. 
  rewrite <- (app_assoc (le_encode 8 (fr_chain fr))), <- (app_assoc (le_encode 8 (fr_next fr))).
  rewrite (app_assoc pre). 
  rewrite <- (le_encode_length 8 (fr_next fr)) at 2. apply read_exact_app.
  by rewrite zlen_app, le8_zlen.
Qed.

Lemma read_len_word off :
  off = zlen pre →
  read_exact_at (pre ++ enc fr ++ post) (off + 16) 8 = Ok (le_encode 8 (zlen (fr_zstd fr))).
Proof.
  intros ->. unfold enc, encode_frame. rewrite <- !(app_assoc (le_encode 8 _)).
  rewrite (app_assoc (le_encode 8 _) (le_encode 8 _)), (app_assoc pre).
  rewrite <- (le_encode_length 8 (zlen (fr_zstd fr))) at 2. apply read_exact_app.
  by rewrite !zlen_app, !le8_zlen.
Qed.

Lemma read_payload off :
  off = zlen pre →
  read_exact_at (pre ++ enc fr ++ post) (off + HEADER_LEN) (Z.to_nat (zlen (fr_zstd fr)))
  = Ok (fr_zstd fr).
Proof.
  intros ->. rewrite enc_header, <- app_assoc, (app_assoc pre).
  unfold zlen at 2. rewrite Nat2Z.id. apply read_exact_app. by rewrite zlen_app, header_zlen_24.
Qed.

Lemma read_header off :
  off = zlen pre → read_exact_at (pre ++ enc fr ++ post) off 24 = Ok header_of.
Proof.
  intros ->. rewrite enc_header, <- app_assoc. by apply (read_exact_app _ header_of).
Qed.

Lemma header_chain : le_decode (take 8 header_of) = fr_chain fr.
Proof.
  unfold header_of. rewrite take_app_length' by (by rewrite le_encode_length).
  apply le8_roundtrip, Hok.
Qed.
Lemma header_next : le_decode (take 8 (drop 8 header_of)) = fr_next fr.
Proof.
  unfold header_of. rewrite drop_app_length' by (by rewrite le_encode_length).
  rewrite take_app_length' by (by rewrite le_encode_length). apply le8_roundtrip, Hok.
Qed.
Lemma header_zlen : le_decode (drop 16 header_of) = zlen (fr_zstd fr).
Proof.
  unfold header_of. rewrite app_assoc, drop_app_length'.
  - apply le8_roundtrip. split; [apply zlen_nonneg|apply Hok].
  - by rewrite length_app, !le_encode_length.
Qed.
End read_frame.
