(* ===== verification/WikiDepotTier.v ===== *)
(** * One tier of the chain depot: reading, appending, patching, walking.

    Each operation on the bytes of a tier is an operation on its frames. *)

From stdpp Require Import gmap.
From S2P Require Import Prelude.
From S2P Require Import BTreeMap.
From S2P Require Import ChainStore.
From S2P Require Import WikiDepot.
From S2P Require Import WikiDepotRep.
Open Scope Z_scope.

(** ** Lookups *)

Lemma tier_get t m fid fs :
  tier_rep t m → m !! fid = Some fs →
  ∃ df, bt_get fid (t_files t) = Some df ∧ file_rep df fs ∧ 1 ≤ fid < t_next_id t.
Proof.
  intros Hr Hm. pose proof (tr_files _ _ Hr fid) as Hf. rewrite Hm in Hf.
  destruct (bt_get fid (t_files t)) as [df|]; [|done]. eauto.
Qed.

Lemma tier_lookup t m fid off fr :
  tier_rep t m → lookup_frame m fid off = Some fr →
  ∃ df pre post, bt_get fid (t_files t) = Some df ∧
    df_data df = encs pre ++ enc fr ++ encs post ∧ off = zlen (encs pre) ∧ frame_ok fr ∧ addr fid off.
Proof.
  intros Hr Hl. unfold lookup_frame in Hl. apply bind_Some in Hl as (fs&Hm&Hat).
  destruct (tier_get _ _ _ _ Hr Hm) as (df&Hg&(Hd&Hlen&Hmax&Hok)&Hid).
  pose proof (frame_at_ok _ _ _ Hok Hat) as Hfr. pose proof (frame_at_bound _ _ _ Hat) as Hb.
  pose proof (enc_pos fr). pose proof (tr_next _ _ Hr) as Hn.
  apply frame_at_split in Hat as (pre&post&->&->). exists df, pre, post.
  do 2 (split; [done || by rewrite Hd, encs_app, encs_cons|]). do 2 (split; [done|]).
  unfold addr. lia.
Qed.

Section tier_reads.
Variables (t : Tier) (m : frames) (fid off : Z) (fr : Frame).
Hypotheses (Hrep : tier_rep t m) (Hfr : lookup_frame m fid off = Some fr).

Lemma lookup_addr : addr fid off.
Proof. destruct (tier_lookup _ _ _ _ _ Hrep Hfr) as (?&?&?&?&?&?&?&?). done. Qed.

Lemma lookup_ok : frame_ok fr.
Proof. destruct (tier_lookup _ _ _ _ _ Hrep Hfr) as (?&?&?&?&?&?&?&?). done. Qed.

Lemma read_next_pointer_ok : read_next_pointer t fid off = Ok (fr_next fr).
Proof.
  destruct (tier_lookup _ _ _ _ _ Hrep Hfr) as (df&pre&post&Hg&Hd&Ho&Hok&_).
  unfold read_next_pointer, tier_field. rewrite Hg, Hd, read_next_word by done.
  f_equal. apply le8_roundtrip, Hok.
Qed.

Lemma read_zstd_len_ok : read_zstd_len t fid off = Ok (zlen (fr_zstd fr)).
Proof.
  destruct (tier_lookup _ _ _ _ _ Hrep Hfr) as (df&pre&post&Hg&Hd&Ho&Hok&_).
  unfold read_zstd_len, tier_field. rewrite Hg, Hd, read_len_word by done.
  f_equal. apply le8_roundtrip. split; [apply zlen_nonneg|apply Hok].
Qed.

Lemma read_zstd_ok : read_zstd t fid off = Ok (fr_zstd fr).
Proof.
  destruct (tier_lookup _ _ _ _ _ Hrep Hfr) as (df&pre&post&Hg&Hd&Ho&Hok&_).
  unfold read_zstd. rewrite Hg, Hd, read_len_word by done.
  rewrite le8_roundtrip by (split; [apply zlen_nonneg|apply Hok]). by apply read_payload.
Qed.
End tier_reads.

(** ** Replacing one file of a tier *)

Lemma tier_rep_put t m fid df fs cur written :
  tier_rep t m → file_rep df fs → 1 ≤ fid < t_next_id t →
  (∀ i, cur = Some i → i = fid ∨ is_Some (m !! i)) →
  tier_rep (MkTier (bt_insert fid df (t_files t)) cur (t_next_id t) written) (<[fid := fs]> m).
Proof.
  intros Hr Hf Hid Hcur. constructor; simpl.
  - by apply bt_ok_insert, Hr.
  - intros i. rewrite bt_get_insert. case_decide as E.
    + subst. by rewrite lookup_insert_eq.
    + rewrite lookup_insert_ne by done. apply (tr_files _ _ Hr).
  - intros i Hi. apply lookup_insert_is_Some'. destruct (Hcur i Hi) as [->|]; [by left|by right].
  - apply (tr_next _ _ Hr).
Qed.

Lemma tier_rep_current t m i : tier_rep t m → t_current t = Some i → is_Some (m !! i).
Proof. intros Hr. apply (tr_current _ _ Hr). Qed.

Lemma add_dead_rep t m fid n : tier_rep t m → tier_rep (add_dead t fid n) m.
Proof.
  intros Hr. unfold add_dead. pose proof (tr_files _ _ Hr fid) as Hf.
  destruct (bt_get fid (t_files t)) as [df|] eqn:Hg; [|done].
  destruct (m !! fid) as [fs|] eqn:Hm; [|done]. destruct Hf as [Hf Hid].
  rewrite <- (insert_id m fid fs) by done. apply tier_rep_put; [done|done|done|].
  intros i Hi. right. by eapply tier_rep_current.
Qed.

(** ** Appending *)

(** The frames after an append. *)
Definition appended (m m' : frames) (fid off : Z) (fr : Frame) : Prop :=
  ∀ i o x, lookup_frame m' i o = Some x ↔
    lookup_frame m i o = Some x ∨ (i = fid ∧ o = off ∧ x = fr).

(** The frames stay, in perhaps one more file. *)
Definition same_frames (m m' : frames) : Prop :=
  ∀ i o, lookup_frame m' i o = lookup_frame m i o.

Lemma lookup_insert_frame m fid fs i o :
  lookup_frame (<[fid := fs]> m) i o = if decide (i = fid) then frame_at fs o else lookup_frame m i o.
Proof.
  unfold lookup_frame. case_decide as E.
  - subst. by rewrite lookup_insert_eq.
  - by rewrite lookup_insert_ne.
Qed.

(** [ensure_room] finds a file of the tier, at worst a fresh one. *)
Lemma ensure_room_spec t m size threshold :
  tier_rep t m →
  ∃ t' r m', ensure_room t size threshold = Some (t', r) ∧ tier_rep t' m' ∧ same_frames m m' ∧
    (∀ i, t_current t' = Some i → is_Some (m !! i) → t_current t = Some i) ∧
    match r with
    | Ok fid => t_current t' = Some fid ∧ is_Some (m' !! fid)
    | Err e => e = Corrupt
    end.
Proof.
  intros Hr. unfold ensure_room.
  assert (Hfresh : ∃ t' r m',
    (if MAX_FILE_ID <? t_next_id t then (t, Err Corrupt)
     else (MkTier (bt_insert (t_next_id t) (MkDataFile [] 0 0) (t_files t)) (Some (t_next_id t))
             (t_next_id t + 1) (t_written t), Ok (t_next_id t))) = (t', r) ∧
    tier_rep t' m' ∧ same_frames m m' ∧
    (∀ i, t_current t' = Some i → is_Some (m !! i) → t_current t = Some i) ∧
    match r with Ok fid => t_current t' = Some fid ∧ is_Some (m' !! fid) | Err e => e = Corrupt end).
  { pose proof (tr_next _ _ Hr) as Hn.
    assert (Hnew : m !! t_next_id t = None).
    { pose proof (tr_files _ _ Hr (t_next_id t)) as Hf.
      destruct (bt_get _ _), (m !! t_next_id t); try done. lia. }
    destruct (MAX_FILE_ID <? t_next_id t) eqn:E.
    - by exists t, (Err Corrupt), m.
    - eexists _, _, (<[t_next_id t := []]> m). split; [done|]. split_and!; simpl.
      + constructor; simpl.
        * by apply bt_ok_insert, Hr.
        * intros i. rewrite bt_get_insert. case_decide as Ei.
          -- subst. rewrite lookup_insert_eq. split; [|lia]. repeat split; [|constructor].
             by vm_compute.
          -- rewrite lookup_insert_ne by done. pose proof (tr_files _ _ Hr i) as Hf.
             destruct (bt_get i (t_files t)), (m !! i); try done. destruct Hf. split; [done|lia].
        * intros i [= <-]. rewrite lookup_insert_eq. eauto.
        * lia.
      + intros i o. rewrite lookup_insert_frame. case_decide as Ei; [|done].
        subst. unfold lookup_frame. by rewrite Hnew.
      + intros i [= <-] Hs. rewrite Hnew in Hs. by destruct Hs.
      + done.
      + rewrite lookup_insert_eq. eauto. }
  destruct Hfresh as (t'&r&m'&Hf&Hrest). rewrite Hf.
  destruct (t_current t) as [cur|] eqn:Hcur; [|by exists t', r, m'].
  pose proof (tr_current _ _ Hr cur Hcur) as Hs. destruct (Hs) as [fs Hm].
  destruct (tier_get _ _ _ _ Hr Hm) as (df&Hg&_). rewrite Hg.
  destruct (_ <=? _); [|by exists t', r, m'].
  exists t, (Ok cur), m. split_and!; [done..|intros i Hi _; congruence|done|done].
Qed.

(** [append] puts the frame at the end of a file, or refuses. *)
Lemma tier_append_spec t m fr threshold :
  tier_rep t m →
  0 ≤ fr_chain fr < u64_limit → 0 ≤ fr_next fr < u64_limit →
  ∃ t' r m', tier_append t (enc fr) threshold = Some (t', r) ∧ tier_rep t' m' ∧
    (∀ i, t_current t' = Some i → is_Some (m !! i) → t_current t = Some i) ∧
    match r with
    | Ok (fid, off) =>
        appended m m' fid off fr ∧ addr fid off ∧ t_current t' = Some fid ∧ frame_ok fr
    | Err e => same_frames m m' ∧ (e = Corrupt ∨ e = FrameTooLarge)
    end.
Proof.
  intros Hr Hc Hn. unfold tier_append.
  destruct (ensure_room_spec t m (zlen (enc fr)) threshold Hr) as (t'&r&m'&->&Hr'&Hsame&Hcur&Hres).
  destruct r as [fid|e]; [|exists t', (Err e), m'; naive_solver].
  destruct Hres as [Hc' [fs Hm]]. destruct (tier_get _ _ _ _ Hr' Hm) as (df&Hg&Hrep&Hid).
  rewrite Hg. pose proof Hrep as (Hd&Hlen&Hmax&Hok).
  destruct (MAX_OFFSET <? df_len df + zlen (enc fr)) eqn:E.
  { exists t', (Err FrameTooLarge), m'. naive_solver. }
  apply Z.ltb_ge in E. pose proof (enc_zlen fr) as Hel. pose proof (zlen_nonneg (fr_zstd fr)).
  assert (Hfr : frame_ok fr).
  { repeat split; try lia. pose proof (zlen_nonneg (encs fs)).
    unfold HEADER_LEN in *. assert (MAX_OFFSET < u64_limit) by (by vm_compute). lia. }
  pose proof (tr_next _ _ Hr') as Hnx. pose proof (zlen_nonneg (encs fs)) as Hp.
  eexists _, _, (<[fid := fs ++ [fr]]> m'). split; [done|]. split_and!; simpl.
  - apply tier_rep_put; [done| |done|].
    + split_and!; simpl.
      * rewrite Hd, Hlen. unfold zlen. rewrite Nat2Z.id, write_at_end, encs_app. by rewrite encs_one.
      * rewrite encs_app, encs_one, zlen_app. lia.
      * lia.
      * apply Forall_app. split; [done|by apply Forall_singleton].
    + intros i Hi. right. by eapply tier_rep_current.
  - done.
  - intros i o x. rewrite <- (Hsame i o). rewrite lookup_insert_frame. case_decide as Ei.
    + subst. rewrite frame_at_app. unfold lookup_frame. rewrite Hm. simpl. naive_solver.
    + naive_solver.
  - unfold addr. lia.
  - done.
  - done.
Qed.

(** ** Patching a next pointer in place *)

Definition set_next (fr : Frame) (ptr : Z) : Frame := MkFrame (fr_chain fr) ptr (fr_zstd fr).

Lemma frame_at_patch pre fr post ptr o :
  frame_at (pre ++ set_next fr ptr :: post) o =
  if decide (o = zlen (encs pre)) then Some (set_next fr ptr) else frame_at (pre ++ fr :: post) o.
Proof.
  revert o. induction pre as [|x pre IH]; intros o; cbn [app frame_at].
  - change (zlen (encs [])) with 0. rewrite !enc_zlen. simpl.
    case_decide as E; [by subst|]. apply Z.eqb_neq in E. by rewrite E.
  - rewrite encs_cons, zlen_app, IH. pose proof (enc_pos x). pose proof (zlen_nonneg (encs pre)).
    destruct (Z.eqb_spec o 0) as [->|]; [by rewrite decide_False by lia|].
    do 2 case_decide; try done; lia.
Qed.

(** A frame around its next pointer. *)
Definition fr_rest (fr : Frame) : bytes := le_encode 8 (zlen (fr_zstd fr)) ++ fr_zstd fr.
Lemma enc_next fr rest :
  enc fr ++ rest = le_encode 8 (fr_chain fr) ++ le_encode 8 (fr_next fr) ++ fr_rest fr ++ rest.
Proof. unfold enc, encode_frame, fr_rest. by rewrite <- !app_assoc. Qed.

Lemma patch_next_spec t m fid off fr ptr :
  tier_rep t m → lookup_frame m fid off = Some fr → 0 ≤ ptr < u64_limit →
  ∃ t' m', patch_next t fid off ptr = Some t' ∧ tier_rep t' m' ∧ t_current t' = t_current t ∧
    ∀ i o, lookup_frame m' i o =
      if decide (i = fid ∧ o = off) then Some (set_next fr ptr) else lookup_frame m i o.
Proof.
  intros Hr Hl Hp. unfold lookup_frame in Hl. apply bind_Some in Hl as (fs&Hm&Hat).
  destruct (tier_get _ _ _ _ Hr Hm) as (df&Hg&(Hd&Hlen&Hmax&Hok)&Hid).
  apply frame_at_split in Hat as (pre&post&->&->).
  apply Forall_app in Hok as [Hok1 Hok2]. apply Forall_cons in Hok2 as [Hfr Hok2].
  assert (Hz : zlen (encs (pre ++ set_next fr ptr :: post)) = zlen (encs (pre ++ fr :: post))).
  { by rewrite !encs_app, !encs_cons, !zlen_app, !enc_zlen. }
  unfold patch_next. rewrite Hg. eexists _, (<[fid := pre ++ set_next fr ptr :: post]> m).
  split; [done|]. split_and!; [|done|].
  - apply tier_rep_put; [done| |done|].
    + split_and!; simpl; [|congruence|done|].
      * rewrite Hd, !encs_app, !encs_cons, !enc_next, !(app_assoc (encs pre)).
        apply write_at_mid; [|by rewrite !le_encode_length].
        rewrite length_app, le_encode_length. unfold zlen. lia.
      * apply Forall_app. split; [done|]. constructor; [|done].
        destruct Hfr as (?&?&?). done.
    + intros i Hi. right. by eapply tier_rep_current.
  - intros i o. rewrite lookup_insert_frame. case_decide as Ei.
    + subst. rewrite frame_at_patch. unfold lookup_frame. rewrite Hm. simpl.
      do 2 case_decide; naive_solver.
    + by rewrite decide_False by naive_solver.
Qed.

(** ** Dropping a file *)

Lemma remove_file_spec t m vid :
  tier_rep t m → t_current t ≠ Some vid →
  tier_rep (remove_file t vid) (delete vid m) ∧
  ∀ i o, lookup_frame (delete vid m) i o = if decide (i = vid) then None else lookup_frame m i o.
Proof.
  intros Hr Hc. split.
  - constructor; simpl.
    + by apply bt_ok_remove, Hr.
    + intros i. rewrite bt_get_remove by apply Hr. case_decide as E.
      * subst. by rewrite lookup_delete_eq.
      * rewrite lookup_delete_ne by done. apply (tr_files _ _ Hr).
    + intros i Hi. rewrite lookup_delete_ne by congruence. by apply (tr_current _ _ Hr).
    + apply (tr_next _ _ Hr).
  - intros i o. unfold lookup_frame. case_decide as E.
    + subst. by rewrite lookup_delete_eq.
    + by rewrite lookup_delete_ne.
Qed.

Lemma clear_current_rep t m vid :
  tier_rep t m → tier_rep (clear_current t vid) m ∧ t_current (clear_current t vid) ≠ Some vid.
Proof.
  intros Hr. split.
  - constructor; simpl; try apply Hr. intros i. case_bool_decide; [done|apply Hr].
  - simpl. by case_bool_decide.
Qed.

(** ** Walking a file *)

(** The frames [walk_frames] meets, from an offset on. *)
Fixpoint walked (off : Z) (fs : list Frame) : list WalkedFrame :=
  match fs with
  | [] => []
  | fr :: fs => MkWalked off (header_of fr) (fr_zstd fr) :: walked (off + zlen (enc fr)) fs
  end.

Lemma walk_loop_spec df pre fs out fuel :
  df_data df = encs pre ++ encs fs → df_len df = zlen (df_data df) →
  Forall frame_ok fs → (length fs < fuel)%nat →
  walk_loop fuel df (zlen (encs pre)) out = Some (Ok (out ++ walked (zlen (encs pre)) fs)).
Proof.
  revert pre out fuel. induction fs as [|fr fs IH]; intros pre out fuel Hd Hl Hok Hf;
    (destruct fuel as [|fuel]; [simpl in Hf; lia|]); cbn [walk_loop].
  - rewrite Hl, Hd, app_nil_r, Z.leb_refl. simpl. by rewrite app_nil_r.
  - apply Forall_cons in Hok as [Hfr Hok]. rewrite encs_cons in Hd.
    pose proof (enc_pos fr). pose proof (zlen_nonneg (encs fs)).
    rewrite (proj2 (Z.leb_gt _ _)) by (rewrite Hl, Hd, !zlen_app; lia).
    rewrite Hd, read_header by done. rewrite header_zlen by done. rewrite read_payload by done.
    replace (zlen (encs pre) + (HEADER_LEN + zlen (fr_zstd fr))) with (zlen (encs (pre ++ [fr])))
      by (rewrite encs_app, encs_one, zlen_app, enc_zlen; lia).
    rewrite IH; [|by rewrite Hd, encs_app, encs_one, <- app_assoc|done|done|simpl in Hf; lia].
    rewrite encs_app, encs_one, zlen_app, <- app_assoc. done.
Qed.

Lemma encs_length fs : (length fs ≤ length (encs fs))%nat.
Proof.
  induction fs as [|fr fs IH]; [simpl; lia|]. rewrite encs_cons, length_app. simpl.
  pose proof (enc_pos fr). unfold zlen in *. lia.
Qed.

Lemma walk_frames_spec df fs :
  file_rep df fs → walk_frames df = Some (Ok (walked 0 fs)).
Proof.
  intros (Hd&Hl&_&Hok). unfold walk_frames. change 0 with (zlen (encs [])).
  apply (walk_loop_spec df [] fs []); [done|by rewrite Hd|done|].
  rewrite Hd. pose proof (encs_length fs). lia.
Qed.

(** The walked frames are the file's frames with their addresses. *)
Lemma walked_elem off fs wf :
  wf ∈ walked off fs → ∃ fr, frame_at fs (wf_offset wf - off) = Some fr ∧
    wf_header wf = header_of fr ∧ wf_zstd wf = fr_zstd fr ∧ off ≤ wf_offset wf.
Proof.
  revert off. induction fs as [|fr fs IH]; intros off; cbn [walked]; [set_solver|].
  intros [->|Hin]%elem_of_cons.
  - exists fr. simpl. rewrite Z.sub_diag. simpl. repeat split. lia.
  - destruct (IH _ Hin) as (x&Hat&?&?&Hle). pose proof (enc_pos fr). exists x. cbn [frame_at].
    rewrite (proj2 (Z.eqb_neq _ _)) by lia.
    replace (wf_offset wf - off - zlen (enc fr)) with (wf_offset wf - (off + zlen (enc fr))) by lia.
    split_and!; [done..|lia].
Qed.

Lemma walked_complete off fs o fr :
  frame_at fs o = Some fr → MkWalked (off + o) (header_of fr) (fr_zstd fr) ∈ walked off fs.
Proof.
  revert off o. induction fs as [|x fs IH]; intros off o; cbn [walked frame_at]; [done|].
  destruct (Z.eqb_spec o 0) as [->|Hne].
  - intros [= ->]. rewrite Z.add_0_r. apply elem_of_cons. by left.
  - intros Hat. apply elem_of_cons. right.
    replace (off + o) with (off + zlen (enc x) + (o - zlen (enc x))) by lia. by apply IH.
Qed.
