(* ===== verification/WikiDepotChain.v ===== *)
(** * Chains of the chain depot: reading them, and keeping them.

    The reading operations return the chain a pointer word leads to
    ([chain_of_is]); a chain survives every change of the files that keeps its
    frames ([chain_at_keeps]).  [wp] is total correctness of an operation: it
    neither panics nor runs out of fuel. *)

From stdpp Require Import gmap.
From S2P Require Import Prelude.
From S2P Require Import BTreeMap.
From S2P Require Import ChainStore.
From S2P Require Import WikiDepot.
From S2P Require Import WikiDepotRep.
From S2P Require Import WikiDepotTier.
Open Scope Z_scope.

(** ** Total correctness *)

Definition wp {A} (m : DM A) (s : DepotInner) (Q : DepotInner → Result A DepotError → Prop) : Prop :=
  ∃ s' r, m s = Some (s', r) ∧ Q s' r.

Lemma wp_mono {A} (m : DM A) s (P Q : DepotInner → Result A DepotError → Prop) :
  wp m s P → (∀ s' r, P s' r → Q s' r) → wp m s Q.
Proof. intros (s'&r&Hm&HP) HPQ. exists s', r. auto. Qed.

Lemma wp_ret {A} (a : A) s Q : Q s (Ok a) → wp (mret a) s Q.
Proof. intros HQ. by exists s, (Ok a). Qed.

Lemma wp_err {A} e s (Q : DepotInner → Result A DepotError → Prop) : Q s (Err e) → wp (dm_err e) s Q.
Proof. intros HQ. by exists s, (Err e). Qed.

Lemma wp_read {A} (f : DepotInner → Result A DepotError) s Q : Q s (f s) → wp (dm_read f) s Q.
Proof. intros HQ. by exists s, (f s). Qed.

Lemma wp_modify f s Q : Q (f s) (Ok tt) → wp (dm_modify f) s Q.
Proof. intros HQ. by exists (f s), (Ok tt). Qed.

Lemma wp_bind {A B} (m : DM A) (k : A → DM B) s (Q : DepotInner → Result B DepotError → Prop) :
  wp m s (λ s' r, match r with Ok a => wp (k a) s' Q | Err e => Q s' (Err e) end) →
  wp (m ≫= k) s Q.
Proof.
  intros (s'&r&Hm&HQ). unfold wp, mbind, dm_bind. rewrite Hm.
  destruct r as [a|e]; [done|]. by exists s', (Err e).
Qed.

(** A read of a known result, followed by the rest. *)
Lemma wp_read_bind {A B} (f : DepotInner → Result A DepotError) (k : A → DM B) s a Q :
  f s = Ok a → wp (k a) s Q → wp (dm_read f ≫= k) s Q.
Proof. intros Hf HQ. apply wp_bind, wp_read. by rewrite Hf. Qed.

(** ** Chains that survive *)

(** The frames of chain [j] are still there, and the cold frames. *)
Record keeps (j : Z) (g g' : Ghost) : Prop := {
  k0 : ∀ fid off fr, lookup_frame (g0 g) fid off = Some fr → fr_chain fr = j →
       lookup_frame (g0 g') fid off = Some fr;
  k1 : ∀ fid off fr, lookup_frame (g1 g) fid off = Some fr → fr_chain fr = j →
       lookup_frame (g1 g') fid off = Some fr;
  kc : ∀ off fr, frame_at (gc g) off = Some fr → frame_at (gc g') off = Some fr
}.

#[export] Instance keeps_refl j : Reflexive (keeps j).
Proof. intros g. by constructor. Qed.
#[export] Instance keeps_trans j : Transitive (keeps j).
Proof. intros g g' g'' [] []. constructor; auto. Qed.

Lemma cold_at_keeps gc gc' ptr l :
  (∀ off fr, frame_at gc off = Some fr → frame_at gc' off = Some fr) →
  cold_at gc ptr l → cold_at gc' ptr l.
Proof. intros Hk. induction 1; econstructor; eauto. Qed.

Lemma tail_at_keeps j g g' ptr o l : keeps j g g' → tail_at g j ptr o l → tail_at g' j ptr o l.
Proof.
  intros [H0 H1 Hc]. destruct 1; econstructor; eauto using cold_at_keeps.
Qed.

Lemma chain_at_keeps j g g' ptr c : keeps j g g' → chain_at g j ptr c → chain_at g' j ptr c.
Proof. intros Hk. destruct 1; econstructor; eauto using tail_at_keeps, k0. Qed.

Lemma chain_is_keeps j g g' ptr oc : keeps j g g' → chain_is g j ptr oc → chain_is g' j ptr oc.
Proof. intros Hk. destruct oc; simpl; eauto using chain_at_keeps. Qed.

(** ** Reading a chain *)

Section reads.
Variables (s : DepotInner) (g : Ghost).
Hypothesis (Hinv : files_inv s g).

Lemma slots_length : slots s = Z.of_nat (length (index s)).
Proof. apply (fi_slots _ _ Hinv). Qed.

Lemma slot_ptr_ok id : 0 ≤ id < CHAIN_ID_CEILING → slot_ptr s id = Ok (ptr_of s id).
Proof.
  intros Hid. unfold slot_ptr, ptr_of.
  rewrite (proj2 (Z.leb_gt _ _)) by lia. destruct (Z.leb_spec (slots s) id) as [Hle|]; [|done].
  rewrite lookup_ge_None_2; [done|]. pose proof slots_length. lia.
Qed.

(** A cold frame below the length of the file. *)
Lemma cold_frame_at off fr :
  1 ≤ off → frame_at (gc g) (off - 1) = Some fr →
  frame_ok fr ∧ (Z.to_nat off < length (cold_file s))%nat ∧
  cold_header (cold_file s) off = Ok (fr_next fr, zlen (fr_zstd fr)) ∧
  read_exact_at (cold_file s) (off + HEADER_LEN) (Z.to_nat (zlen (fr_zstd fr))) = Ok (fr_zstd fr).
Proof.
  intros Ho Hat. pose proof (frame_at_ok _ _ _ (fi_cold_ok _ _ Hinv) Hat) as Hok.
  pose proof (fi_cold_nil _ _ Hinv) as Hnil. pose proof (fi_cold _ _ Hinv) as Hc.
  destruct (Z.eqb_spec (cold_len s) 0) as [E|E]; [by rewrite (Hnil E) in Hat|].
  apply frame_at_split in Hat as (pre&post&Hg&Hoff).
  assert (Hc' : cold_file s = (0 :: encs pre) ++ enc fr ++ encs post)
    by (rewrite Hc, Hg, encs_app, encs_cons; done).
  assert (Hz : off = zlen (0 :: encs pre)) by (unfold zlen in *; simpl; lia).
  split; [done|]. unfold cold_header. rewrite Hc'. split_and!.
  - rewrite !length_app. pose proof (enc_pos fr). unfold zlen in *. lia.
  - rewrite read_header by done. by rewrite header_next, header_zlen.
  - by apply read_payload.
Qed.

Lemma read_cold_frame_ok off fr :
  1 ≤ off → frame_at (gc g) (off - 1) = Some fr →
  read_cold_frame s (pack COLD_FILE_ID off) = Ok (fr_zstd fr, fr_next fr).
Proof.
  intros Ho Hat. destruct (cold_frame_at off fr Ho Hat) as (_&_&Hh&Hp).
  unfold read_cold_frame. rewrite unpack_cold by lia. cbn [fst snd]. by rewrite Hh, Hp.
Qed.

(** Cold pointers point back, so that the walk ends within the file. *)
Lemma cold_walk_ok ptr l fuel :
  cold_at (gc g) ptr l → (Z.to_nat (unpack ptr).2 < fuel)%nat →
  cold_walk fuel s ptr = Some (Ok <$> l).
Proof.
  intros Hat. revert fuel.
  induction Hat as [|ptr off fr l -> Ho Hfr Hlt Hat IH]; intros fuel Hf; [by destruct fuel|].
  rewrite unpack_cold in Hf by lia. cbn [fst snd] in Hf. destruct fuel as [|fuel]; [lia|].
  cbn [cold_walk]. rewrite (proj2 (Z.eqb_neq _ _)) by (apply pack_cold_nonzero; lia).
  rewrite (read_cold_frame_ok off fr) by (done || lia).
  rewrite IH by lia. done.
Qed.

Lemma cold_at_fuel ptr l :
  cold_at (gc g) ptr l → (Z.to_nat (unpack ptr).2 < S (length (cold_file s)))%nat.
Proof.
  intros [|p off fr k -> Ho Hfr _ _]; [change (unpack 0) with (0, 0); simpl; lia|]. rewrite unpack_cold by lia. cbn [snd].
  destruct (cold_frame_at off fr ltac:(lia) Hfr) as (_&?&_). lia.
Qed.

Lemma cold_at_cases ptr l :
  cold_at (gc g) ptr l → (ptr = 0 ∧ l = []) ∨ (ptr ≠ 0 ∧ is_cold_ptr ptr = true).
Proof.
  intros [|p off fr k -> Ho _ _ _]; [by left|]. right.
  split; [apply pack_cold_nonzero; lia|apply is_cold_pack; lia].
Qed.

Section one_chain.
Variables (id ptr : Z) (fr : Frame) (fid off : Z).
Hypotheses (Hid : 0 ≤ id < CHAIN_ID_CEILING) (Hptr : ptr_of s id = pack fid off)
  (Haddr : addr fid off) (Hfr : lookup_frame (g0 g) fid off = Some fr).

Lemma read_f0_at : inner_read_f0 s id = Ok (fr_zstd fr).
Proof.
  unfold inner_read_f0. rewrite slot_ptr_ok, Hptr by done.
  rewrite (proj2 (Z.eqb_neq _ _)) by by apply pack_addr_nonzero.
  rewrite unpack_addr by done. by apply (read_zstd_ok _ _ _ _ _ (fi_f0 _ _ Hinv)).
Qed.

Lemma read_f1_at o l : tail_at g id (fr_next fr) o l → inner_read_f1 s id = Ok o.
Proof.
  intros Ht. unfold inner_read_f1. rewrite slot_ptr_ok, Hptr by done.
  rewrite (proj2 (Z.eqb_neq _ _)) by by apply pack_addr_nonzero.
  rewrite unpack_addr by done. cbn [fst snd].
  rewrite (read_next_pointer_ok _ _ _ _ _ (fi_f0 _ _ Hinv) Hfr).
  destruct Ht as [p k Hc|p fid1 off1 fr1 k -> Ha1 Hfr1 _ Hc].
  - destruct (cold_at_cases _ _ Hc) as [[-> _]|[? ->]]; [done|]. by rewrite orb_true_r.
  - rewrite (proj2 (Z.eqb_neq _ _)) by by apply pack_addr_nonzero.
    rewrite is_cold_addr, unpack_addr by done. cbn [orb fst snd].
    by rewrite (read_zstd_ok _ _ _ _ _ (fi_f1 _ _ Hinv) Hfr1).
Qed.

Lemma cold_head_at o l : tail_at g id (fr_next fr) o l → ∃ p, cold_head s id = Ok p ∧ cold_at (gc g) p l.
Proof.
  intros Ht. unfold cold_head. rewrite slot_ptr_ok, Hptr by done.
  rewrite (proj2 (Z.eqb_neq _ _)) by by apply pack_addr_nonzero.
  rewrite unpack_addr by done. cbn [fst snd].
  rewrite (read_next_pointer_ok _ _ _ _ _ (fi_f0 _ _ Hinv) Hfr).
  destruct Ht as [p k Hc|p fid1 off1 fr1 k -> Ha1 Hfr1 _ Hc].
  - exists p. destruct (cold_at_cases _ _ Hc) as [[-> _]|[Hn ->]]; [done|].
    by rewrite (proj2 (Z.eqb_neq _ _) Hn).
  - exists (fr_next fr1). rewrite (proj2 (Z.eqb_neq _ _)) by by apply pack_addr_nonzero.
    rewrite is_cold_addr, unpack_addr by done. cbn [fst snd].
    by rewrite (read_next_pointer_ok _ _ _ _ _ (fi_f1 _ _ Hinv) Hfr1).
Qed.
End one_chain.

Lemma mapM_ok (l : list bytes) :
  mapM (λ r : Result bytes DepotError, match r with Ok z => Some z | Err _ => None end) (Ok <$> l)
  = Some l.
Proof. induction l as [|z l IH]; [done|]. rewrite fmap_cons. cbn [mapM]. by rewrite IH. Qed.

(** Reading a chain gives the chain its index word leads to. *)
Lemma chain_of_is id oc : 0 ≤ id → chain_is g id (ptr_of s id) oc → chain_of s id = oc.
Proof.
  intros Hid Hc. destruct (Z.lt_ge_cases id CHAIN_ID_CEILING) as [Hlt|Hge].
  - destruct oc as [c|]; simpl in Hc.
    + inversion Hc as [p fid off fr o l Hp Ha Hfr Hch Ht]; subst.
      unfold chain_of, cold_frames. rewrite (read_f0_at _ fr fid off) by done.
      rewrite (read_f1_at _ fr fid off ltac:(done) Hp Ha Hfr o l) by done.
      destruct (cold_head_at _ fr fid off ltac:(done) Hp Ha Hfr o l Ht) as (hp&->&Hcold).
      rewrite (cold_walk_ok hp l) by eauto using cold_at_fuel. csimpl. by rewrite mapM_ok.
    + unfold chain_of, inner_read_f0. by rewrite slot_ptr_ok, Hc.
  - assert (Hz : ptr_of s id = 0).
    { unfold ptr_of. rewrite lookup_ge_None_2; [done|].
      pose proof slots_length. pose proof (fi_slots_max _ _ Hinv). lia. }
    destruct oc as [c|].
    + inversion Hc as [p fid off fr o l Hp Ha]; subst. rewrite Hz in Hp.
      by destruct (pack_addr_nonzero fid off Ha).
    + unfold chain_of, inner_read_f0, slot_ptr. by rewrite (proj2 (Z.leb_le _ _)) by lia.
Qed.
End reads.

(** ** Effects of an operation *)

(** An operation that changed at most chain [id]. *)
Definition effect (s s' : DepotInner) (id : Z) (oc : option Chain) : Prop :=
  valid s' ∧ chain_of s' id = oc ∧ ∀ j, 0 ≤ j → j ≠ id → chain_of s' j = chain_of s j.

(** An operation that changed no chain. *)
Definition inert (s s' : DepotInner) : Prop :=
  valid s' ∧ ∀ j, 0 ≤ j → chain_of s' j = chain_of s j.

#[export] Instance inert_trans : Transitive inert.
Proof. intros s1 s2 s3 [_ H1] [? H2]. split; [done|]. intros. rewrite H2, H1; done. Qed.

Lemma effect_after s1 s2 s3 id oc : inert s1 s2 → effect s2 s3 id oc → effect s1 s3 id oc.
Proof.
  intros [_ H1] (?&?&H2). split_and!; [done..|]. intros. rewrite H2, H1; done.
Qed.

(** The general frame argument: every chain but [id] is where it was. *)
Lemma commit_gen s g s' g' id oc :
  0 ≤ id → depot_inv s g → files_inv s' g' →
  (∀ j oj, 0 ≤ j → j ≠ id → chain_is g j (ptr_of s j) oj → chain_is g' j (ptr_of s' j) oj) →
  chain_is g' id (ptr_of s' id) oc →
  depot_inv s' g' ∧ effect s s' id oc.
Proof.
  intros Hid [Hf Hi] Hf' Hk Hc.
  assert (Hd : depot_inv s' g').
  { split; [done|]. intros j Hj. destruct (decide (j = id)) as [->|Hne]; [by exists oc|].
    destruct (Hi j Hj) as [oj Hoj]. exists oj. by apply Hk. }
  split; [done|]. split_and!.
  - by exists g'.
  - by apply (chain_of_is s' g').
  - intros j Hj Hne. destruct (Hi j Hj) as [oj Hoj].
    rewrite (chain_of_is s g Hf j oj) by done. apply (chain_of_is s' g'); [done..|]. by apply Hk.
Qed.

Lemma commit s g s' g' id oc :
  0 ≤ id → depot_inv s g → files_inv s' g' →
  (∀ j, 0 ≤ j → j ≠ id → ptr_of s' j = ptr_of s j) →
  (∀ j, j ≠ id → keeps j g g') →
  chain_is g' id (ptr_of s' id) oc →
  depot_inv s' g' ∧ effect s s' id oc.
Proof.
  intros Hid Hd Hf' Hp Hk Hc. eapply commit_gen; [done..| |done].
  intros j oj Hj Hne Hoj. rewrite Hp by done. eauto using chain_is_keeps.
Qed.

Lemma unchanged_gen s g s' g' :
  depot_inv s g → files_inv s' g' →
  (∀ j oj, 0 ≤ j → chain_is g j (ptr_of s j) oj → chain_is g' j (ptr_of s' j) oj) →
  depot_inv s' g' ∧ inert s s'.
Proof.
  intros Hd Hf' Hk. pose proof Hd as [Hf Hi]. destruct (Hi 0 ltac:(lia)) as [oc Hoc].
  destruct (commit_gen s g s' g' 0 oc) as [Hd' (?&Hc0&Hj)]; [done..|intros; by apply Hk|by apply Hk|].
  split; [done|]. split; [done|]. intros j Hj0. destruct (decide (j = 0)) as [->|]; [|by apply Hj].
  rewrite Hc0. symmetry. by apply (chain_of_is s g).
Qed.

Lemma unchanged s g s' g' :
  depot_inv s g → files_inv s' g' →
  (∀ j, 0 ≤ j → ptr_of s' j = ptr_of s j) → (∀ j, keeps j g g') →
  depot_inv s' g' ∧ inert s s'.
Proof.
  intros Hd Hf' Hp Hk. eapply unchanged_gen; [done..|].
  intros j oj Hj Hoj. rewrite Hp by done. eauto using chain_is_keeps.
Qed.

Lemma inert_effect s s' id : 0 ≤ id → inert s s' ↔ effect s s' id (chain_of s id).
Proof.
  intros Hid. split.
  - intros [? Hs]. split_and!; [done|by apply Hs|]. intros. by apply Hs.
  - intros (?&He&Hs). split; [done|]. intros j Hj. destruct (decide (j = id)) as [->|]; auto.
Qed.
