(* ===== verification/WikiDepotSteps.v ===== *)
(** * The steps the chain depot's operations are made of.

    Total-correctness specifications of [ensure_slot], the index accesses, the
    three appends and the in-place changes, over the frames of the files. *)

From stdpp Require Import gmap.
From S2P Require Import Prelude.
From S2P Require Import BTreeMap.
From S2P Require Import ChainStore.
From S2P Require Import WikiDepot.
From S2P Require Import WikiDepotRep.
From S2P Require Import WikiDepotTier.
From S2P Require Import WikiDepotChain.
Open Scope Z_scope.

(** Errors for want of room. *)
Definition no_room (e : DepotError) : Prop := e = Corrupt ∨ e = FrameTooLarge.

(** Operations that leave the index alone. *)
Definition same_index (s s' : DepotInner) : Prop := index s' = index s ∧ slots s' = slots s.

#[export] Instance same_index_refl : Reflexive same_index.
Proof. by split. Qed.
#[export] Instance same_index_trans : Transitive same_index.
Proof. intros s1 s2 s3 [??] [??]. split; congruence. Qed.

Lemma same_index_ptr s s' j : same_index s s' → ptr_of s' j = ptr_of s j.
Proof. intros [E _]. unfold ptr_of. by rewrite E. Qed.

(** ** Changing one part of a depot *)

Lemma files_inv_f0 s g t m :
  files_inv s g → tier_rep t m →
  (∀ fid off fr, lookup_frame m fid off = Some fr → fr_chain fr < slots s) →
  files_inv (with_f0 s t) (MkGhost m (g1 g) (gc g)).
Proof. intros [] ??. by constructor. Qed.

Lemma files_inv_f1 s g t m :
  files_inv s g → tier_rep t m →
  (∀ fid off fr, lookup_frame m fid off = Some fr → fr_chain fr < slots s) →
  files_inv (with_f1 s t) (MkGhost (g0 g) m (gc g)).
Proof. intros [] ??. by constructor. Qed.

Lemma files_inv_misc s g n : files_inv s g → files_inv (add_misc s n) g.
Proof. intros []. by constructor. Qed.

Lemma files_inv_cold_dead s g n : files_inv s g → files_inv (add_cold_dead s n) g.
Proof. intros []. by constructor. Qed.

Lemma files_inv_dead0 s g fid n : files_inv s g → files_inv (with_f0 s (add_dead (f0 s) fid n)) g.
Proof.
  intros Hf. destruct g as [m0 m1 c]. apply (files_inv_f0 s (MkGhost m0 m1 c)); [done| |].
  - apply add_dead_rep, Hf.
  - apply (fi_ids0 _ _ Hf).
Qed.

Lemma files_inv_dead1 s g fid n : files_inv s g → files_inv (with_f1 s (add_dead (f1 s) fid n)) g.
Proof.
  intros Hf. destruct g as [m0 m1 c]. apply (files_inv_f1 s (MkGhost m0 m1 c)); [done| |].
  - apply add_dead_rep, Hf.
  - apply (fi_ids1 _ _ Hf).
Qed.

#[export] Hint Resolve files_inv_misc files_inv_cold_dead files_inv_dead0 files_inv_dead1 : sarun.

(** ** The index *)

Lemma next_power_of_two_ge n : 1 ≤ n → n ≤ next_power_of_two n.
Proof.
  intros Hn. unfold next_power_of_two. destruct (Z.eq_dec n 1) as [->|]; [done|].
  apply Z.log2_up_spec. lia.
Qed.

(** [ensure_slot] grows the index with empty slots, or refuses the id. *)
Lemma ensure_slot_spec s g id :
  depot_inv s g → 0 ≤ id →
  wp (ensure_slot id) s (λ s' r,
    depot_inv s' g ∧ inert s s' ∧
    match r with
    | Ok _ => id < slots s'
    | Err e => e = ChainIdOutOfRange ∧ CHAIN_ID_CEILING ≤ id
    end).
Proof.
  intros Hd Hid. unfold wp, ensure_slot. pose proof Hd as [Hf _].
  assert (Hself : depot_inv s g ∧ inert s s) by (by eapply unchanged).
  destruct Hself. destruct (Z.leb_spec CHAIN_ID_CEILING id) as [Hge|Hlt].
  { eexists _, _. split; [done|]. done. }
  destruct (Z.ltb_spec id (slots s)) as [Hin|Hout].
  { eexists _, _. split; [done|]. done. }
  set (n := Z.min _ _). pose proof (next_power_of_two_ge (id + 1) ltac:(lia)).
  assert (Hn : id < n ≤ CHAIN_ID_CEILING) by (unfold n; lia). clearbody n.
  pose proof (fi_slots _ _ Hf) as Hs. pose proof (fi_slots_max _ _ Hf) as Hm. unfold zlen in Hs.
  eexists _, _. split; [done|]. 
  destruct (unchanged s g (MkInner (file_size_threshold s)
     (index s ++ replicate (Z.to_nat n - length (index s)) 0) n (f0 s) (f1 s) (cold_file s)
     (cold_len s) (cold_dead s) (misc_written s)) g) as [??].
  - done.
  - constructor; simpl; try apply Hf.
    + unfold zlen. rewrite length_app, length_replicate. lia.
    + lia.
    + intros fid off fr Hl. pose proof (fi_ids0 _ _ Hf fid off fr Hl). lia.
    + intros fid off fr Hl. pose proof (fi_ids1 _ _ Hf fid off fr Hl). lia.
  - intros j Hj. unfold ptr_of. simpl. rewrite lookup_app.
    destruct (index s !! Z.to_nat j) eqn:E; [done|].
    destruct (replicate _ _ !! _) eqn:E'; [|done]. apply lookup_replicate in E' as [-> _]. done.
  - reflexivity.
  - split_and!; [done..|]. simpl. lia.
Qed.

Lemma ptr_of_lookup s id : 0 ≤ id < zlen (index s) → index s !! Z.to_nat id = Some (ptr_of s id).
Proof.
  intros Hid. unfold ptr_of, zlen in *.
  destruct (lookup_lt_is_Some_2 (index s) (Z.to_nat id) ltac:(lia)) as [p ->]. done.
Qed.

Lemma index_get_spec s g id :
  files_inv s g → 0 ≤ id < slots s → wp (index_get id) s (λ s' r, s' = s ∧ r = Ok (ptr_of s id)).
Proof.
  intros Hf Hid. unfold wp, index_get. rewrite ptr_of_lookup by (rewrite <- (fi_slots _ _ Hf); lia).
  eauto.
Qed.

Lemma wp_index_get {A} s g id (k : Z → DM A) Q :
  files_inv s g → 0 ≤ id < slots s → wp (k (ptr_of s id)) s Q → wp (index_get id ≫= k) s Q.
Proof.
  intros Hf Hid HQ. apply wp_bind. eapply wp_mono; [by eapply index_get_spec|].
  by intros s' r [-> ->].
Qed.

Lemma index_put_spec s g id ptr :
  files_inv s g → 0 ≤ id < slots s →
  wp (index_put id ptr) s (λ s' r, r = Ok tt ∧ files_inv s' g ∧
    ∀ j, 0 ≤ j → ptr_of s' j = if decide (j = id) then ptr else ptr_of s j).
Proof.
  intros Hf Hid. pose proof (fi_slots _ _ Hf) as Hs. unfold zlen in Hs.
  unfold wp, index_put. rewrite (proj2 (Nat.ltb_lt _ _)) by lia.
  eexists _, _. split; [done|]. split_and!; [done| |].
  - destruct Hf. constructor; simpl; try done. unfold zlen. by rewrite length_insert.
  - intros j Hj. unfold ptr_of. simpl. case_decide as E.
    + subst. by rewrite list_lookup_insert_eq by lia.
    + rewrite list_lookup_insert_ne; [done|lia].
Qed.

Lemma index_put_tiers s id ptr s' r :
  index_put id ptr s = Some (s', r) → f0 s' = f0 s ∧ f1 s' = f1 s.
Proof. unfold index_put. by destruct (_ <? _)%nat; intros [= <- <-]. Qed.

(** ** Appending *)

(** The frames a tier append leaves. *)
Lemma appended_keeps m m' fid off fr :
  appended m m' fid off fr → ∀ i o x, lookup_frame m i o = Some x → lookup_frame m' i o = Some x.
Proof. intros Ha i o x Hl. apply Ha. by left. Qed.

Lemma appended_new m m' fid off fr : appended m m' fid off fr → lookup_frame m' fid off = Some fr.
Proof. intros Ha. apply Ha. by right. Qed.

Lemma append_f0_spec s g chain next z :
  files_inv s g → 0 ≤ chain < slots s → 0 ≤ next < u64_limit →
  wp (append_f0 (encode_frame chain next z)) s (λ s' r, ∃ m',
    let g' := MkGhost m' (g1 g) (gc g) in
    files_inv s' g' ∧ same_index s s' ∧ f1 s' = f1 s ∧
    (∀ i, t_current (f0 s') = Some i → is_Some (g0 g !! i) → t_current (f0 s) = Some i) ∧
    match r with
    | Ok (fid, off) =>
        appended (g0 g) m' fid off (MkFrame chain next z) ∧ addr fid off ∧
        t_current (f0 s') = Some fid
    | Err e => same_frames (g0 g) m' ∧ no_room e
    end).
Proof.
  intros Hf Hc Hn. pose proof (fi_slots_max _ _ Hf) as Hm.
  assert (CHAIN_ID_CEILING < u64_limit) by (by vm_compute).
  destruct (tier_append_spec (f0 s) (g0 g) (MkFrame chain next z) (file_size_threshold s)
    (fi_f0 _ _ Hf) ltac:(simpl; lia) Hn) as (t'&r&m'&Ht&Hr&Hcur&Hres).
  unfold wp, append_f0. change (encode_frame chain next z) with (enc (MkFrame chain next z)).
  rewrite Ht. eexists _, _. split; [done|]. exists m'. cbv zeta.
  split_and!; [|done..|by destruct r as [[fid off]|e]; [naive_solver|]].
  apply files_inv_f0; [done..|]. intros i o x Hl. destruct r as [[fid off]|e].
  - destruct Hres as [Ha _]. apply Ha in Hl as [Hl|(->&->&->)]; [by eapply fi_ids0|simpl; lia].
  - destruct Hres as [Ha _]. rewrite Ha in Hl. by eapply fi_ids0.
Qed.

Lemma append_f1_spec s g chain next z :
  files_inv s g → 0 ≤ chain < slots s → 0 ≤ next < u64_limit →
  wp (append_f1 (encode_frame chain next z)) s (λ s' r, ∃ m',
    let g' := MkGhost (g0 g) m' (gc g) in
    files_inv s' g' ∧ same_index s s' ∧ f0 s' = f0 s ∧
    (∀ i, t_current (f1 s') = Some i → is_Some (g1 g !! i) → t_current (f1 s) = Some i) ∧
    match r with
    | Ok (fid, off) =>
        appended (g1 g) m' fid off (MkFrame chain next z) ∧ addr fid off ∧
        t_current (f1 s') = Some fid
    | Err e => same_frames (g1 g) m' ∧ no_room e
    end).
Proof.
  intros Hf Hc Hn. pose proof (fi_slots_max _ _ Hf) as Hm.
  assert (CHAIN_ID_CEILING < u64_limit) by (by vm_compute).
  destruct (tier_append_spec (f1 s) (g1 g) (MkFrame chain next z) (file_size_threshold s)
    (fi_f1 _ _ Hf) ltac:(simpl; lia) Hn) as (t'&r&m'&Ht&Hr&Hcur&Hres).
  unfold wp, append_f1. change (encode_frame chain next z) with (enc (MkFrame chain next z)).
  rewrite Ht. eexists _, _. split; [done|]. exists m'. cbv zeta.
  split_and!; [|done..|by destruct r as [[fid off]|e]; [naive_solver|]].
  apply files_inv_f1; [done..|]. intros i o x Hl. destruct r as [[fid off]|e].
  - destruct Hres as [Ha _]. apply Ha in Hl as [Hl|(->&->&->)]; [by eapply fi_ids1|simpl; lia].
  - destruct Hres as [Ha _]. rewrite Ha in Hl. by eapply fi_ids1.
Qed.

(** [cold_append] puts the frame after the last one, past the pad byte. *)
Lemma cold_append_spec s g chain next z :
  files_inv s g → 0 ≤ chain < u64_limit → 0 ≤ next < u64_limit →
  wp (cold_append (encode_frame chain next z)) s (λ s' r,
    same_index s s' ∧ f0 s' = f0 s ∧ f1 s' = f1 s ∧
    match r with
    | Ok off =>
        files_inv s' (MkGhost (g0 g) (g1 g) (gc g ++ [MkFrame chain next z])) ∧
        1 ≤ off ≤ MAX_OFFSET ∧ off = 1 + zlen (encs (gc g))
    | Err e => files_inv s' g ∧ no_room e
    end).
Proof.
  intros Hf Hc Hn. set (fr := MkFrame chain next z).
  change (encode_frame chain next z) with (enc fr). unfold wp, cold_append.
  set (s1 := if cold_len s =? 0 then _ else s).
  assert (H1 : files_inv s1 g ∧ cold_len s1 = 1 + zlen (encs (gc g)) ∧
    cold_file s1 = 0 :: encs (gc g) ∧ same_index s s1 ∧ f0 s1 = f0 s ∧ f1 s1 = f1 s).
  { unfold s1. pose proof (fi_cold _ _ Hf) as Hcf. pose proof (fi_cold_len _ _ Hf) as Hcl.
    destruct (Z.eqb_spec (cold_len s) 0) as [E|E]; [|by split_and!].
    pose proof (fi_cold_nil _ _ Hf E) as Hg. rewrite Hg. split_and!; try done.
    - destruct Hf. constructor; simpl; try done.
      + by rewrite Hcf, Hg.
      + by rewrite Hg.
    - simpl. by rewrite Hcf. }
  clearbody s1. destruct H1 as (Hf1&Hl&Hd&Hi&H0&H1). pose proof (zlen_nonneg (encs (gc g))).
  pose proof (enc_zlen fr) as Hz. pose proof (zlen_nonneg z). simpl in Hz.
  destruct (MAX_OFFSET <? cold_len s1 + zlen (enc fr)) eqn:E; (eexists _, _; split; [done|]).
  { split_and!; [apply Hi..|done|done|done|by right]. }
  apply Z.ltb_ge in E. unfold HEADER_LEN in *. assert (MAX_OFFSET < u64_limit) by (by vm_compute).
  split_and!; simpl; try apply Hi; try done; try lia.
  destruct Hf1. constructor; simpl; try done.
  - rewrite (proj2 (Z.eqb_neq _ _)) by lia. by rewrite Hd, encs_app, encs_one.
  - rewrite (proj2 (Z.eqb_neq _ _)) by lia. rewrite encs_app, encs_one, zlen_app. lia.
  - lia.
  - apply Forall_app. split; [done|]. apply Forall_singleton. unfold frame_ok, fr. simpl. lia.
Qed.

(** The new cold frame heads the frames it points to. *)
Lemma cold_at_append gc chain next z l off :
  cold_at gc next l → off = 1 + zlen (encs gc) → 1 ≤ off ≤ MAX_OFFSET →
  cold_at (gc ++ [MkFrame chain next z]) (pack COLD_FILE_ID off) (z :: l).
Proof.
  intros Hat Hoff Hb. 
  assert (Hk : ∀ o fr, frame_at gc o = Some fr → frame_at (gc ++ [MkFrame chain next z]) o = Some fr).
  { intros o fr Ho. apply frame_at_app. by left. }
  apply (cold_at_cons _ _ off (MkFrame chain next z)); cbn [fr_next]; [done|done| | |].
  - apply frame_at_app. right. split; [lia|done].
  - destruct Hat as [|p o fr k -> Ho Hfr _ _]; [change (unpack 0) with (0, 0); cbn [snd]; lia|].
    rewrite unpack_cold by lia. cbn [snd]. apply frame_at_bound in Hfr. pose proof (enc_pos fr). lia.
  - by eapply cold_at_keeps.
Qed.

Lemma cold_at_bound gc ptr l : cold_at gc ptr l → 0 ≤ ptr < u64_limit.
Proof.
  intros [|p o fr k -> Ho _ _ _]; [by split|]. apply pack_bound; unfold COLD_FILE_ID; lia.
Qed.

Lemma addr_bound fid off : addr fid off → 0 ≤ pack fid off < u64_limit.
Proof. intros [??]. apply pack_bound; unfold MAX_FILE_ID in *; lia. Qed.

(** ** Keeping chains through the steps *)

Lemma keeps_f0 j g m' :
  (∀ i o x, lookup_frame (g0 g) i o = Some x → fr_chain x = j → lookup_frame m' i o = Some x) →
  keeps j g (MkGhost m' (g1 g) (gc g)).
Proof. by constructor. Qed.

Lemma keeps_f1 j g m' :
  (∀ i o x, lookup_frame (g1 g) i o = Some x → fr_chain x = j → lookup_frame m' i o = Some x) →
  keeps j g (MkGhost (g0 g) m' (gc g)).
Proof. by constructor. Qed.

Lemma keeps_cold j g fr : keeps j g (MkGhost (g0 g) (g1 g) (gc g ++ [fr])).
Proof. constructor; simpl; try done. intros o x Ho. apply frame_at_app. by left. Qed.

Lemma keeps_appended0 j g m' fid off fr :
  appended (g0 g) m' fid off fr → keeps j g (MkGhost m' (g1 g) (gc g)).
Proof. intros Ha. apply keeps_f0. eauto using appended_keeps. Qed.

Lemma keeps_appended1 j g m' fid off fr :
  appended (g1 g) m' fid off fr → keeps j g (MkGhost (g0 g) m' (gc g)).
Proof. intros Ha. apply keeps_f1. eauto using appended_keeps. Qed.

Lemma keeps_same0 j g m' : same_frames (g0 g) m' → keeps j g (MkGhost m' (g1 g) (gc g)).
Proof. intros Ha. apply keeps_f0. intros. by rewrite Ha. Qed.

Lemma keeps_same1 j g m' : same_frames (g1 g) m' → keeps j g (MkGhost (g0 g) m' (gc g)).
Proof. intros Ha. apply keeps_f1. intros. by rewrite Ha. Qed.

#[export] Hint Resolve keeps_cold keeps_appended0 keeps_appended1 keeps_same0 keeps_same1
  cold_at_bound addr_bound unpack_addr : sarun.
#[export] Hint Extern 0 (keeps _ _ _) => reflexivity : sarun.
