(* ===== verification/WikiDepotOps.v ===== *)
(** * The chain depot's writes, as operations on chains.

    Every mutation of one chain neither panics nor loops, does to its chain
    what the abstract operation does, and leaves every other chain alone; one
    that fails leaves them all alone. *)

From stdpp Require Import gmap.
From S2P Require Import Prelude.
From S2P Require Import BTreeMap.
From S2P Require Import ChainStore.
From S2P Require Import WikiDepot.
From S2P Require Import WikiDepotRep.
From S2P Require Import WikiDepotTier.
From S2P Require Import WikiDepotChain.
From S2P Require Import WikiDepotSteps.
Open Scope Z_scope.

(** ** The abstract operations *)

Definition chain_seal (c : option Chain) : Result Chain DepotError :=
  match c with
  | None => Err NoFrame
  | Some c =>
      match c_f1 c with
      | None => Err CannotSealNoF1
      | Some z => Ok (MkChain (c_f0 c) None (z :: c_cold c))
      end
  end.

Definition chain_replace_f0 (c : option Chain) (z : bytes) : Result Chain DepotError :=
  match c with
  | None => Err NoFrame
  | Some c => Ok (MkChain z (c_f1 c) (c_cold c))
  end.

(** What an operation on chain [id] with the abstract result [spec] does. *)
Definition refines (s : DepotInner) (id : Z) (spec : Result (option Chain) DepotError)
    (s' : DepotInner) (r : Result unit DepotError) : Prop :=
  match r with
  | Ok _ => ∃ oc, spec = Ok oc ∧ effect s s' id oc
  | Err e =>
      inert s s' ∧ (spec = Err e ∨ (e = ChainIdOutOfRange ∧ CHAIN_ID_CEILING ≤ id) ∨ no_room e)
  end.

Definition to_some (r : Result Chain DepotError) : Result (option Chain) DepotError :=
  match r with Ok c => Ok (Some c) | Err e => Err e end.

Lemma refines_after s s1 id spec1 spec s' r :
  inert s s1 → refines s1 id spec1 s' r → spec1 = spec → refines s id spec s' r.
Proof.
  intros Hi Hr <-. destruct r as [u|e]; simpl in *.
  - destruct Hr as (oc&?&?). eauto using effect_after.
  - destruct Hr as [??]. split; [|done]. by etrans.
Qed.

Lemma inert_refl s g : depot_inv s g → inert s s.
Proof. intros Hd. split; [by exists g|done]. Qed.
#[export] Hint Resolve inert_refl : sarun.

Lemma refines_out s g id spec :
  depot_inv s g → CHAIN_ID_CEILING ≤ id → refines s id spec s (Err ChainIdOutOfRange).
Proof. intros Hd Hge. split; [eauto with sarun|]. auto. Qed.

Lemma refines_err s g id e : depot_inv s g → refines s id (Err e) s (Err e).
Proof. intros Hd. split; [eauto with sarun|]. auto. Qed.
#[export] Hint Resolve refines_out refines_err : sarun.

Lemma chain_is_of s g id : depot_inv s g → 0 ≤ id → chain_is g id (ptr_of s id) (chain_of s id).
Proof.
  intros [Hf Hi] Hid. destruct (Hi id Hid) as [oc Hoc]. by rewrite (chain_of_is s g Hf id oc).
Qed.

Lemma chain_at_nonzero g id ptr c : chain_at g id ptr c → ptr ≠ 0.
Proof. destruct 1; subst. by apply pack_addr_nonzero. Qed.

(** An operation that looks a chain up, then goes on from its word. *)
Lemma wp_slot_ptr {A} s g id (k : Z → DM A) Q :
  depot_inv s g → 0 ≤ id →
  (id < CHAIN_ID_CEILING → wp (k (ptr_of s id)) s Q) →
  (CHAIN_ID_CEILING ≤ id → Q s (Err ChainIdOutOfRange)) →
  wp (dm_read (λ s, slot_ptr s id) ≫= k) s Q.
Proof.
  intros [Hf _] Hid Hk He. apply wp_bind, wp_read.
  destruct (Z.lt_ge_cases id CHAIN_ID_CEILING) as [Hlt|Hge].
  - rewrite (slot_ptr_ok s g) by done. by apply Hk.
  - unfold slot_ptr. rewrite (proj2 (Z.leb_le _ _)) by done. by apply He.
Qed.

Lemma live_slot s g id : files_inv s g → 0 ≤ id → ptr_of s id ≠ 0 → id < slots s.
Proof.
  intros Hf Hid Hp. rewrite (fi_slots _ _ Hf). unfold zlen, ptr_of in *.
  destruct (index s !! Z.to_nat id) eqn:E; [|done]. apply lookup_lt_Some in E. lia.
Qed.

(** ** Installing a head *)

Lemma install_head_spec s g id head l z0 z1 :
  depot_inv s g → 0 ≤ id < slots s → cold_at (gc g) head l →
  wp (install_head id head z0 z1) s (λ s' r,
    match r with
    | Ok _ => ∃ g', files_inv s' g' ∧ (∀ j, keeps j g g') ∧
        (∀ j, 0 ≤ j → j ≠ id → ptr_of s' j = ptr_of s j) ∧
        chain_at g' id (ptr_of s' id) (MkChain z0 z1 l)
    | Err e => no_room e ∧ inert s s'
    end).
Proof.
  intros Hd Hid Hc. unfold install_head. apply wp_bind.
  eapply (wp_mono _ _ (λ s1 r, match r with
    | Ok next => ∃ g1, files_inv s1 g1 ∧ (∀ j, keeps j g g1) ∧ same_index s s1 ∧
        0 ≤ next < u64_limit ∧ tail_at g1 id next z1 l
    | Err e => no_room e ∧ inert s s1 end)).
  { destruct z1 as [z1|]; [apply wp_bind|].
    - eapply wp_mono; [apply (append_f1_spec s g id head z1); eauto with sarun; apply Hd|].
      intros s1 [[fid off]|e] (m'&Hf&Hi&_&_&Hres).
      + destruct Hres as (Ha&Had&_). apply wp_ret. eexists. do 4 (split; [by eauto with sarun|]).
        eapply tail_f1 with (fr := MkFrame id head z1); eauto using appended_new.
      + destruct Hres as [Hs He]. split; [done|].
        eapply unchanged; [done..| |eauto with sarun]. intros. by apply same_index_ptr.
    - apply wp_ret. exists g. split; [apply Hd|]. do 3 (split; [by eauto with sarun|]). by constructor. }
  intros s1 [next|e]; [|done]. intros (g1'&Hf1&Hk1&Hi1&Hb&Ht).
  assert (Hd1 : depot_inv s1 g1' ∧ inert s s1)
    by (eapply unchanged; [done..| |done]; intros; by apply same_index_ptr).
  destruct Hd1 as [Hd1 Hin1]. apply wp_bind.
  eapply wp_mono; [apply (append_f0_spec s1 g1' id next z0); [done| |done]|].
  { destruct Hi1 as [_ ->]. done. }
  intros s2 [[fid off]|e] (m'&Hf2&Hi2&_&_&Hres); [|split; [apply Hres|]].
  - destruct Hres as (Ha&Had&_).
    eapply wp_mono; [eapply index_put_spec; [done|]|].
    { destruct Hi2 as [_ ->], Hi1 as [_ ->]. done. }
    intros s3 r (->&Hf3&Hp). eexists. split_and!; [done| | |].
    + intros j. etrans; [apply Hk1|]. eauto with sarun.
    + intros j Hj Hne. rewrite Hp, decide_False by done.
      by rewrite (same_index_ptr s1 s2), (same_index_ptr s s1).
    + rewrite Hp, decide_True by (done || lia).
      eapply chain_at_intro with (fr := MkFrame id next z0); eauto using appended_new.
      eapply tail_at_keeps; [|done]. eauto with sarun.
  - etrans; [done|]. eapply unchanged; [done..| |].
    + intros. by apply same_index_ptr.
    + intros j. apply keeps_same0, Hres.
Qed.

(** ** Prepending *)

Lemma prepend_first_spec s g id z0 z1 seal :
  depot_inv s g → 0 ≤ id < slots s → ptr_of s id = 0 →
  wp (prepend_first id z0 z1 seal) s (refines s id (to_some (chain_prepend None z0 z1 seal))).
Proof.
  intros Hd Hid Hp. unfold prepend_first. destruct z1 as [z1|]; simpl.
  { apply wp_err. simpl. eauto with sarun. }
  destruct seal; [apply wp_err; simpl; eauto with sarun|].
  pose proof (install_head_spec s g id 0 [] z0 None Hd Hid (cold_at_nil _)) as Hins.
  eapply wp_mono; [exact Hins|]. intros s' [[]|e].
  - intros (g'&Hf'&Hk&Hptr&Hch). simpl. eexists. split; [done|].
    eapply (commit s g s' g'); [lia|done..].
  - intros [??]. simpl. eauto.
Qed.

(** The next pointer of the new accumulator leads to the cold frames, the old
    accumulator sealed in front of them if it was asked for. *)
Lemma new_f1_next_sealed s g id fid off fr l direct :
  depot_inv s g → 0 ≤ id < u64_limit → addr fid off →
  lookup_frame (g1 g) fid off = Some fr → cold_at (gc g) (fr_next fr) l →
  wp (new_f1_next id (pack fid off) direct true) s (λ s' r,
    match r with
    | Ok ptr => ∃ g', depot_inv s' g' ∧ inert s s' ∧ same_index s s' ∧ (∀ j, keeps j g g') ∧
        cold_at (gc g') ptr (fr_zstd fr :: l)
    | Err e => no_room e ∧ inert s s'
    end).
Proof.
  intros Hd Hid Ha Hfr Hc. pose proof Hd as [Hf _]. unfold new_f1_next. rewrite unpack_addr by done.
  eapply wp_read_bind; [by apply (read_next_pointer_ok _ _ _ _ _ (fi_f1 _ _ Hf) Hfr)|].
  eapply wp_read_bind; [by apply (read_zstd_ok _ _ _ _ _ (fi_f1 _ _ Hf) Hfr)|]. apply wp_bind.
  eapply wp_mono; [apply (cold_append_spec s g id (fr_next fr) (fr_zstd fr)); eauto with sarun|].
  intros s' [o|e] (Hi&_&_&Hres).
  - destruct Hres as (Hf'&Hb&Ho). apply wp_ret.
    edestruct (unchanged s g s') as [Hd' Hin];
      [done..|by intros; apply same_index_ptr|eauto with sarun|].
    eexists. split_and!; [done|done|done|eauto with sarun|]. by apply cold_at_append.
  - destruct Hres as [Hf' He]. split; [done|].
    eapply unchanged; [done..|by intros; apply same_index_ptr|eauto with sarun].
Qed.

(** The commit of a prepend, and the accounting of what it replaced. *)
Lemma prepend_commit s g id head l z0 z1 fid0 n0 (b : bool) fid1 n1 :
  depot_inv s g → 0 ≤ id < slots s → cold_at (gc g) head l →
  wp (_ ← install_head id head z0 z1;
      _ ← dm_modify (λ s, with_f0 s (add_dead (f0 s) fid0 n0));
      dm_modify (λ s, if b then with_f1 s (add_dead (f1 s) fid1 n1) else s)) s
    (refines s id (Ok (Some (MkChain z0 z1 l)))).
Proof.
  intros Hd Hid Hc. apply wp_bind. eapply wp_mono; [by eapply install_head_spec|].
  intros s' [[]|e].
  - intros (g'&Hf'&Hk&Hptr&Hch). apply wp_bind, wp_modify, wp_modify. eexists. split; [done|].
    destruct b; (eapply (commit s g _ g'); [lia|done|eauto with sarun|done..]).
  - intros [??]. simpl. eauto.
Qed.

Lemma frame_size_f0 s g fid off fr :
  files_inv s g → lookup_frame (g0 g) fid off = Some fr →
  frame_size s f0 fid off = Ok (HEADER_LEN + zlen (fr_zstd fr)).
Proof.
  intros Hf Hfr. unfold frame_size. by rewrite (read_zstd_len_ok _ _ _ _ _ (fi_f0 _ _ Hf) Hfr).
Qed.

Lemma frame_size_f1 s g fid off fr :
  files_inv s g → lookup_frame (g1 g) fid off = Some fr →
  frame_size s f1 fid off = Ok (HEADER_LEN + zlen (fr_zstd fr)).
Proof.
  intros Hf Hfr. unfold frame_size. by rewrite (read_zstd_len_ok _ _ _ _ _ (fi_f1 _ _ Hf) Hfr).
Qed.

Lemma refines_ok_after s s1 id c s' r :
  inert s s1 → refines s1 id (Ok (Some c)) s' r → refines s id (Ok (Some c)) s' r.
Proof. intros Hi Hr. by eapply refines_after. Qed.

Lemma prepend_over_spec s g id c z0 z1 seal :
  depot_inv s g → 0 ≤ id < slots s → chain_at g id (ptr_of s id) c →
  wp (prepend_over id (ptr_of s id) z0 z1 seal) s
    (refines s id (to_some (chain_prepend (Some c) z0 z1 seal))).
Proof.
  intros Hd Hid Hch. pose proof Hd as [Hf _]. unfold prepend_over.
  destruct z1 as [z1|]; [|apply wp_err; simpl; eauto with sarun].
  inversion Hch as [p fid off fr o l Hp Ha Hfr Hcid Ht]; subst. rewrite Hp, unpack_addr by done.
  eapply wp_read_bind; [by apply (read_next_pointer_ok _ _ _ _ _ (fi_f0 _ _ Hf) Hfr)|].
  pose proof (fi_slots_max _ _ Hf). assert (CHAIN_ID_CEILING < u64_limit) by (by vm_compute).
  inversion Ht as [p k Hc|p fid1 off1 fr1 k Hp1 Ha1 Hfr1 Hcid1 Hc]; subst.
  - assert (Hf1 : (if is_cold_ptr (fr_next fr) then (0, fr_next fr) else (fr_next fr, 0))
      = (0, fr_next fr)).
    { by destruct (cold_at_cases _ _ _ Hc) as [[-> _]|[_ ->]]. }
    rewrite Hf1. cbn [andb negb]. destruct seal; [apply wp_err; simpl; eauto with sarun|].
    eapply wp_read_bind; [by eapply frame_size_f0|]. 
    change (unpack 0) with (0, 0). cbn [negb Z.eqb andb]. apply wp_bind, wp_ret. apply wp_bind.
    apply wp_ret. by apply (prepend_commit s g _ _ _ z0 (Some z1) _ _ false 0 0).
  - rewrite Hp1, is_cold_addr by done. rewrite (proj2 (Z.eqb_neq _ _)) by by apply pack_addr_nonzero.
    rewrite andb_false_r. eapply wp_read_bind; [by eapply frame_size_f0|].
    rewrite unpack_addr by done. cbn [negb].
    eapply wp_read_bind; [by eapply frame_size_f1|]. apply wp_bind. destruct seal.
    + eapply wp_mono; [by eapply new_f1_next_sealed; eauto with sarun; lia|].
      intros s1 [ptr|e]; [|intros [??]; simpl; eauto].
      intros (g'&Hd'&Hin&Hi&Hk&Hc'). simpl. eapply wp_mono.
      * eapply (prepend_commit s1 g' _ _ _ z0 (Some z1) _ _ true); [done| |done].
        destruct Hi as [_ ->]. done.
      * intros s' r. by apply refines_ok_after.
    + unfold new_f1_next. rewrite unpack_addr by done.
      rewrite (proj2 (Z.eqb_neq _ _)) by by apply pack_addr_nonzero. cbn [negb].
      apply wp_read. rewrite (read_next_pointer_ok _ _ _ _ _ (fi_f1 _ _ Hf) Hfr1).
      by apply (prepend_commit s g _ _ _ z0 (Some z1) _ _ true).
Qed.

Lemma prepend_spec s g id z0 z1 seal :
  depot_inv s g → 0 ≤ id →
  wp (prepend id z0 z1 seal) s
    (refines s id (to_some (chain_prepend (chain_of s id) z0 z1 seal))).
Proof.
  intros Hd Hid. unfold prepend. apply wp_bind.
  eapply wp_mono; [by eapply ensure_slot_spec|]. intros s1 [[]|e] (Hd1&Hin&Hres).
  - pose proof Hd1 as [Hf1 _]. eapply wp_index_get; [done|done|].
    pose proof (chain_is_of s1 g id Hd1 Hid) as Hc. destruct Hin as [Hv Hsame].
    rewrite <- Hsame by done. destruct (chain_of s1 id) as [c|] eqn:Ec; simpl in Hc.
    + rewrite (proj2 (Z.eqb_neq _ _)) by eauto using chain_at_nonzero.
      eapply wp_mono; [by apply (prepend_over_spec s1 g)|].
      intros s' r Hr. by eapply refines_after; [done|exact Hr|].
    + rewrite Hc. simpl. eapply wp_mono; [by apply (prepend_first_spec s1 g)|].
      intros s' r Hr. by eapply refines_after; [done|exact Hr|].
  - simpl. destruct Hres as [-> ?]. eauto.
Qed.

(** ** Sealing, replacing the head, deleting *)

(** Repointing a live f0 keeps the frames of every other chain. *)
Lemma repoint_keeps g id fid off fr ptr m' j :
  lookup_frame (g0 g) fid off = Some fr → fr_chain fr = id →
  (∀ i o, lookup_frame m' i o =
    if decide (i = fid ∧ o = off) then Some (set_next fr ptr) else lookup_frame (g0 g) i o) →
  j ≠ id → keeps j g (MkGhost m' (g1 g) (gc g)).
Proof.
  intros Hfr <- Hm Hne. apply keeps_f0. intros i o x Hx Hj. rewrite Hm.
  case_decide as E; [|done]. destruct E as [-> ->]. congruence.
Qed.

Lemma repoint_spec s g id fid off fr ptr :
  depot_inv s g → lookup_frame (g0 g) fid off = Some fr → fr_chain fr = id → 0 ≤ ptr < u64_limit →
  ∃ t m', patch_next (f0 s) fid off ptr = Some t ∧
    files_inv (add_misc (with_f0 s t) 8) (MkGhost m' (g1 g) (gc g)) ∧
    lookup_frame m' fid off = Some (set_next fr ptr) ∧
    t_current t = t_current (f0 s) ∧
    (∀ i o, lookup_frame m' i o =
      if decide (i = fid ∧ o = off) then Some (set_next fr ptr) else lookup_frame (g0 g) i o) ∧
    ∀ j, j ≠ id → keeps j g (MkGhost m' (g1 g) (gc g)).
Proof.
  intros [Hf _] Hfr Hcid Hb.
  destruct (patch_next_spec _ _ _ _ _ ptr (fi_f0 _ _ Hf) Hfr Hb) as (t&m'&Hp&Hr&Hcur&Hm).
  exists t, m'. split_and!; [done| | |done|done|].
  - apply files_inv_misc, files_inv_f0; [done..|]. intros i o x. rewrite Hm. case_decide.
    + intros [= <-]. simpl. by eapply (fi_ids0 _ _ Hf).
    + by apply (fi_ids0 _ _ Hf).
  - by rewrite Hm, decide_True.
  - intros j Hj. by eapply repoint_keeps.
Qed.

Lemma seal_f1_spec s g id :
  depot_inv s g → 0 ≤ id →
  wp (seal_f1 id) s (refines s id (to_some (chain_seal (chain_of s id)))).
Proof.
  intros Hd Hid. unfold seal_f1. pose proof (chain_is_of s g id Hd Hid) as Hc.
  eapply wp_slot_ptr; [done|done|intros Hlt|by eauto with sarun].
  destruct (chain_of s id) as [c|]; simpl in Hc.
  2:{ rewrite Hc. apply wp_err. simpl. eauto with sarun. }
  pose proof Hd as [Hf _]. rewrite (proj2 (Z.eqb_neq _ _)) by eauto using chain_at_nonzero.
  inversion Hc as [p fid off fr o l Hp Ha Hfr Hcid Ht]; subst c. rewrite Hp, unpack_addr by done.
  eapply wp_read_bind; [by apply (read_next_pointer_ok _ _ _ _ _ (fi_f0 _ _ Hf) Hfr)|].
  inversion Ht as [p1 k Hcold|p1 fid1 off1 fr1 k Hp1 Ha1 Hfr1 Hcid1 Hcold]; simplify_eq.
  { assert ((fr_next fr =? 0) || is_cold_ptr (fr_next fr) = true) as ->.
    { destruct (cold_at_cases _ _ _ Hcold) as [[-> _]|[_ ->]]; [done|]. by rewrite orb_true_r. }
    apply wp_err. simpl. eauto with sarun. }
  rewrite Hp1, (proj2 (Z.eqb_neq _ _)), is_cold_addr, unpack_addr
    by (done || by apply pack_addr_nonzero). cbn [orb].
  eapply wp_read_bind; [by apply (read_next_pointer_ok _ _ _ _ _ (fi_f1 _ _ Hf) Hfr1)|].
  eapply wp_read_bind; [by apply (read_zstd_ok _ _ _ _ _ (fi_f1 _ _ Hf) Hfr1)|].
  assert (CHAIN_ID_CEILING < u64_limit) by (by vm_compute). apply wp_bind.
  eapply wp_mono.
  { apply (cold_append_spec s g (fr_chain fr) (fr_next fr1) (fr_zstd fr1)); eauto with sarun; lia. }
  intros s1 [o|e] (Hi&E0&E1&Hres); [|destruct Hres as [Hf1 He]].
  - destruct Hres as (Hf1&Hb&Ho). set (g' := MkGhost _ _ _) in Hf1.
    assert (Hk : ∀ j, keeps j g g') by eauto with sarun.
    destruct (unchanged s g s1 g') as [Hd1 Hin1]; [done..|by intros; apply same_index_ptr|done|].
    assert (Hcold' := cold_at_append _ (fr_chain fr) _ (fr_zstd fr1) _ _ Hcold Ho Hb).
    destruct (repoint_spec s1 g' (fr_chain fr) fid off fr (pack COLD_FILE_ID o) Hd1 Hfr eq_refl)
      as (t&m'&Hpt&Hf2&Hfr2&_&_&Hk2); [eauto with sarun|].
    apply wp_bind. unfold wp, repoint_f0. rewrite Hpt. eexists _, _. split; [done|].
    apply wp_modify. eapply refines_ok_after; [done|]. eexists. split; [done|].
    eapply (commit s1 g'); [done|done|by eauto with sarun|done|done|]. simpl.
    change (ptr_of _ (fr_chain fr)) with (ptr_of s1 (fr_chain fr)).
    rewrite (same_index_ptr s s1), Hp by done.
    apply (chain_at_intro _ _ _ fid off (set_next fr (pack COLD_FILE_ID o))); [done..|]. by constructor.
  - split; [|by right; right]. eapply unchanged; [done..|by intros; apply same_index_ptr|eauto with sarun].
Qed.

Lemma replace_f0_spec s g id z :
  depot_inv s g → 0 ≤ id →
  wp (replace_f0 id z) s (refines s id (to_some (chain_replace_f0 (chain_of s id) z))).
Proof.
  intros Hd Hid. unfold replace_f0. pose proof (chain_is_of s g id Hd Hid) as Hc.
  eapply wp_slot_ptr; [done|done|intros Hlt|by eauto with sarun].
  destruct (chain_of s id) as [c|]; simpl in Hc.
  2:{ rewrite Hc. apply wp_err. simpl. eauto with sarun. }
  pose proof Hd as [Hf _]. rewrite (proj2 (Z.eqb_neq _ _)) by eauto using chain_at_nonzero.
  assert (Hslot : id < slots s) by (eapply live_slot; eauto using chain_at_nonzero).
  inversion Hc as [p fid off fr o l Hp Ha Hfr Hcid Ht]; subst c. rewrite Hp, unpack_addr by done.
  eapply wp_read_bind; [by apply (read_next_pointer_ok _ _ _ _ _ (fi_f0 _ _ Hf) Hfr)|].
  eapply wp_read_bind; [by eapply frame_size_f0|]. apply wp_bind.
  eapply wp_mono.
  { apply (append_f0_spec s g id (fr_next fr) z); [done|done|].
    apply (lookup_ok _ _ _ _ _ (fi_f0 _ _ Hf) Hfr). }
  intros s1 [[fid' off']|e] (m'&Hf1&Hi&_&_&Hres).
  - destruct Hres as (Happ&Ha'&_). apply wp_bind.
    eapply wp_mono; [eapply index_put_spec; [done|destruct Hi as [_ ->]; done]|].
    intros s2 r (->&Hf2&Hp2). apply wp_modify. eexists. split; [done|].
    eapply (commit s g); [done|done|by eauto with sarun| |by eauto with sarun|].
    + intros j Hj Hne. change (ptr_of s2 j = ptr_of s j). rewrite Hp2, decide_False by done.
      by apply same_index_ptr.
    + change (ptr_of _ id) with (ptr_of s2 id). rewrite Hp2, decide_True by done.
      apply (chain_at_intro _ _ _ fid' off' (MkFrame id (fr_next fr) z)); eauto using appended_new.
      eapply tail_at_keeps; [|done]. eauto with sarun.
  - destruct Hres as [Hs He]. split; [|by right; right].
    eapply unchanged; [done..|by intros; apply same_index_ptr|eauto with sarun].
Qed.

(** ** Walking the headers of the cold frames *)

(** The bytes of cold frames. *)
Definition cold_size (l : list bytes) : Z := fold_right (λ z n, HEADER_LEN + zlen z + n) 0 l.

Lemma bury_cold_spec s g ptr l fuel :
  files_inv s g → cold_at (gc g) ptr l → (Z.to_nat (unpack ptr).2 < fuel)%nat →
  wp (bury_cold fuel ptr) s (λ s' r, r = Ok tt ∧ files_inv s' g ∧ same_index s s' ∧
    cold_dead s' = cold_dead s + cold_size l).
Proof.
  intros Hf Hat. revert s fuel Hf.
  induction Hat as [|ptr off fr l -> Ho Hfr Hlt Hat IH]; intros s fuel Hf Hfuel.
  { destruct fuel; apply wp_ret; (split_and!; [done|done|done|simpl; lia]). }
  rewrite unpack_cold in Hfuel by lia. cbn [fst snd] in Hfuel. destruct fuel as [|fuel]; [lia|].
  cbn [bury_cold]. rewrite (proj2 (Z.eqb_neq _ _)) by (apply pack_cold_nonzero; lia).
  rewrite unpack_cold by lia. cbn [fst snd negb Z.eqb COLD_FILE_ID].
  destruct (cold_frame_at s g Hf off fr ltac:(lia) Hfr) as (_&_&Hh&_).
  eapply wp_read_bind; [done|]. apply wp_bind, wp_modify.
  eapply wp_mono; [apply (IH _ fuel); [by eauto with sarun|lia]|].
  intros s' r (->&Hf'&Hi&Hd). split_and!; [done|done|by etrans; [|done]|].
  rewrite Hd. simpl. lia.
Qed.

Lemma cold_bytes_from_spec s g ptr l fuel acc :
  files_inv s g → cold_at (gc g) ptr l → (Z.to_nat (unpack ptr).2 < fuel)%nat →
  cold_bytes_from fuel s ptr acc = Some (Ok (acc + cold_size l)).
Proof.
  intros Hf Hat. revert fuel acc.
  induction Hat as [|ptr off fr l -> Ho Hfr Hlt Hat IH]; intros fuel acc Hfuel.
  { destruct fuel; simpl; do 3 f_equal; lia. }
  rewrite unpack_cold in Hfuel by lia. cbn [fst snd] in Hfuel. destruct fuel as [|fuel]; [lia|].
  cbn [cold_bytes_from]. rewrite (proj2 (Z.eqb_neq _ _)) by (apply pack_cold_nonzero; lia).
  rewrite unpack_cold by lia. cbn [fst snd negb Z.eqb COLD_FILE_ID].
  destruct (cold_frame_at s g Hf off fr ltac:(lia) Hfr) as (_&_&->&_).
  rewrite IH by lia. simpl. do 2 f_equal. lia.
Qed.

(** ** Deleting a chain *)

(** What [delete_chain] finds behind the head, before the cold frames. *)
Lemma delete_chain_spec s g id :
  depot_inv s g → 0 ≤ id →
  wp (delete_chain id) s (refines s id (Ok None)).
Proof.
  intros Hd Hid. unfold delete_chain. pose proof (chain_is_of s g id Hd Hid) as Hc.
  eapply wp_slot_ptr; [done|done|intros Hlt|by eauto with sarun].
  pose proof Hd as [Hf _]. destruct (chain_of s id) as [c|] eqn:Ec; simpl in Hc.
  2:{ rewrite Hc. apply wp_ret. exists None. split; [done|]. rewrite <- Ec.
      by apply inert_effect; eauto with sarun. }
  rewrite (proj2 (Z.eqb_neq _ _)) by eauto using chain_at_nonzero.
  assert (Hslot : id < slots s) by (eapply live_slot; eauto using chain_at_nonzero).
  inversion Hc as [p fid off fr o l Hp Ha Hfr Hcid Ht]; subst c. rewrite Hp, unpack_addr by done.
  eapply wp_read_bind; [by apply (read_next_pointer_ok _ _ _ _ _ (fi_f0 _ _ Hf) Hfr)|].
  eapply wp_read_bind; [by eapply frame_size_f0|]. apply wp_bind, wp_modify.
  set (s1 := with_f0 _ _). assert (Hf1 : files_inv s1 g) by (unfold s1; eauto with sarun).
  apply wp_bind. eapply (wp_mono _ _ (λ s2 r, files_inv s2 g ∧ same_index s s2 ∧
    ∃ head, r = Ok head ∧ cold_at (gc g) head l)).
  { inversion Ht as [p1 k Hcold|p1 fid1 off1 fr1 k Hp1 Ha1 Hfr1 Hcid1 Hcold]; simplify_eq.
    - destruct (cold_at_cases _ _ _ Hcold) as [[Hz ->]|[Hz Hic]].
      + rewrite Hz. simpl. apply wp_ret. rewrite Hz in Hcold. split_and!; [done|done|by eauto].
      + rewrite (proj2 (Z.eqb_neq _ _) Hz), Hic. apply wp_ret. split_and!; [done|done|by eauto].
    - rewrite Hp1, (proj2 (Z.eqb_neq _ _)), is_cold_addr, unpack_addr
        by (done || by apply pack_addr_nonzero).
      eapply wp_read_bind; [by eapply (frame_size_f1 s1 g)|].
      eapply wp_read_bind; [by apply (read_next_pointer_ok _ _ _ _ _ (fi_f1 _ _ Hf1) Hfr1)|].
      apply wp_bind, wp_modify, wp_ret. split_and!; [by eauto with sarun|done|by eauto]. }
  intros s2 r (Hf2&Hi2&head&->&Hcold). apply wp_bind.
  eapply (wp_mono (λ s, bury_cold _ head s)).
  { apply (bury_cold_spec s2 g head l); [done|done|by eapply cold_at_fuel]. }
  intros s3 r (->&Hf3&Hi3&_).
  eapply wp_mono; [eapply (index_put_spec s3 g); [done|]|].
  { destruct Hi3 as [_ ->], Hi2 as [_ ->]. done. }
  intros s4 r (->&Hf4&Hp4). exists None. split; [done|].
  eapply (commit s g s4 g); [done|done|done| |done|].
  - intros j Hj Hne. rewrite Hp4, decide_False by done.
    rewrite (same_index_ptr s2 s3) by done. by apply same_index_ptr.
  - simpl. by rewrite Hp4, decide_True.
Qed.

(** ** Bulk construction *)

(** The footprint of a chain that is there can be read. *)
Lemma chain_footprint_spec s g id c :
  depot_inv s g → chain_at g id (ptr_of s id) c →
  wp (chain_footprint (ptr_of s id)) s (λ s' r, s' = s ∧ ∃ fp, r = Ok fp ∧
    fp_f0_bytes fp = HEADER_LEN + zlen (c_f0 c) ∧ fp_cold_bytes fp = cold_size (c_cold c)).
Proof.
  intros [Hf _] Hc. unfold chain_footprint.
  inversion Hc as [p fid off fr o l Hp Ha Hfr Hcid Ht]; subst. rewrite Hp, unpack_addr by done.
  eapply wp_read_bind; [by eapply frame_size_f0|].
  eapply wp_read_bind; [by apply (read_next_pointer_ok _ _ _ _ _ (fi_f0 _ _ Hf) Hfr)|].
  apply wp_bind. eapply (wp_mono _ _ (λ s2 r, s2 = s ∧
    ∃ fp1 head, r = Ok (fp1, head) ∧ cold_at (gc g) head l)).
  { inversion Ht as [p1 k Hcold|p1 fid1 off1 fr1 k Hp1 Ha1 Hfr1 Hcid1 Hcold]; simplify_eq.
    - destruct (cold_at_cases _ _ _ Hcold) as [[Hz ->]|[Hz Hic]].
      + rewrite Hz. simpl. apply wp_ret. rewrite Hz in Hcold. by eauto.
      + rewrite (proj2 (Z.eqb_neq _ _) Hz), Hic. apply wp_ret. by eauto.
    - rewrite Hp1, (proj2 (Z.eqb_neq _ _)), is_cold_addr, unpack_addr
        by (done || by apply pack_addr_nonzero).
      eapply wp_read_bind; [by eapply frame_size_f1|].
      eapply wp_read_bind; [by apply (read_next_pointer_ok _ _ _ _ _ (fi_f1 _ _ Hf) Hfr1)|].
      apply wp_ret. by eauto. }
  intros s2 r (->&fp1&head&->&Hcold). apply wp_bind. unfold wp at 1, cold_bytes.
  rewrite (cold_bytes_from_spec s g head l) by eauto using cold_at_fuel.
  eexists _, _. split; [done|]. apply wp_ret. split; [done|]. by eauto.
Qed.

Lemma finish_chain_spec s g id head l z0 z1 :
  depot_inv s g → 0 ≤ id < slots s → cold_at (gc g) head l →
  wp (finish_chain id head z0 z1) s (refines s id
    match chain_of s id with
    | None => Ok (Some (MkChain z0 z1 l))
    | Some _ => Err ChainNotEmpty
    end).
Proof.
  intros Hd Hid Hcold. pose proof Hd as [Hf _]. unfold finish_chain.
  eapply wp_index_get; [done|lia|]. pose proof (chain_is_of s g id Hd ltac:(lia)) as Hc.
  destruct (chain_of s id) as [c|]; simpl in Hc.
  - rewrite (proj2 (Z.eqb_neq _ _)) by eauto using chain_at_nonzero. apply wp_err. by eauto with sarun.
  - rewrite Hc. simpl. eapply wp_mono; [by eapply install_head_spec|]. intros s' [[]|e].
    + intros (g'&Hf'&Hk&Hptr&Hch). eexists. split; [done|].
      eapply (commit s g s' g'); [lia|done..].
    + intros [??]. simpl. eauto.
Qed.

Lemma finish_replace_chain_spec s g id expected head l z0 z1 :
  depot_inv s g → 0 ≤ id → cold_at (gc g) head l →
  wp (finish_replace_chain id expected head z0 z1) s (refines s id
    match chain_of s id with
    | None => Err NoFrame
    | Some _ =>
        if ptr_of s id =? expected then Ok (Some (MkChain z0 z1 l)) else Err StaleBuilder
    end).
Proof.
  intros Hd Hid Hcold. unfold finish_replace_chain. pose proof (chain_is_of s g id Hd Hid) as Hc.
  eapply wp_slot_ptr; [done|done|intros Hlt|by eauto with sarun].
  destruct (chain_of s id) as [c|]; simpl in Hc.
  2:{ rewrite Hc. apply wp_err. by eauto with sarun. }
  pose proof Hd as [Hf _]. rewrite (proj2 (Z.eqb_neq _ _)) by eauto using chain_at_nonzero.
  assert (Hslot : id < slots s) by (eapply live_slot; eauto using chain_at_nonzero).
  destruct (ptr_of s id =? expected); cbn [negb]; [|apply wp_err; by eauto with sarun].
  apply wp_bind. eapply wp_mono; [by eapply chain_footprint_spec|].
  intros s1 r (->&fp&->&_). apply wp_bind. eapply wp_mono; [by eapply install_head_spec|].
  intros s' [[]|e].
  - intros (g'&Hf'&Hk&Hptr&Hch).
    apply wp_bind, wp_modify, wp_bind, wp_modify, wp_modify. eexists. split; [done|].
    destruct (fp_f1 fp) as [[fid n]|];
      (eapply (commit s g _ g'); [done|done|by eauto 6 with sarun|done..]).
  - intros [??]. simpl. eauto.
Qed.

(** A builder that has written the history [l], newest first. *)
Definition builder_ok (s : DepotInner) (g : Ghost) (b : ChainBuilder) (l : list bytes) : Prop :=
  0 ≤ b_chain_id b < slots s ∧ cold_at (gc g) (b_cold_head b) l.

Lemma feed_builder_spec s g b l frames :
  depot_inv s g → builder_ok s g b l →
  wp (feed_builder b frames) s (λ s' r,
    match r with
    | Ok b' => ∃ g', depot_inv s' g' ∧ inert s s' ∧ same_index s s' ∧
        builder_ok s' g' b' (rev frames ++ l) ∧
        b_chain_id b' = b_chain_id b ∧ b_replaced_ptr b' = b_replaced_ptr b
    | Err e => no_room e ∧ inert s s'
    end).
Proof.
  revert s g b l. induction frames as [|z frames IH]; intros s g b l Hd Hb; cbn [feed_builder].
  { apply wp_ret. exists g. split_and!; eauto with sarun. reflexivity. }
  destruct Hb as [Hid Hcold]. pose proof Hd as [Hf _]. pose proof (fi_slots_max _ _ Hf).
  assert (CHAIN_ID_CEILING < u64_limit) by (by vm_compute).
  unfold depot_append_history_frame, append_history_frame. do 3 apply wp_bind.
  eapply wp_mono.
  { apply (cold_append_spec s g (b_chain_id b) (b_cold_head b) z); eauto with sarun. lia. }
  intros s1 [off|e] (Hi&_&_&Hres); [|destruct Hres as [Hf1 He]].
  - destruct Hres as (Hf1&Hbound&Hoff). do 2 apply wp_ret.
    edestruct (unchanged s g s1) as [Hd1 Hin1];
      [done..|by intros; apply same_index_ptr|by eauto with sarun|].
    eapply wp_mono; [eapply (IH s1 _ _ (z :: l) Hd1)|].
    { destruct Hi as [_ Hs]. split; simpl; [by rewrite Hs|]. by apply cold_at_append. }
    intros s' [b'|e].
    + intros (g'&?&?&?&Hb'&?&?). exists g'. split_and!; [done|by etrans|by etrans| |done|done].
      simpl. by rewrite <- app_assoc.
    + intros [??]. split; [done|]. by etrans.
  - split; [done|]. eapply unchanged; [done..|by intros; apply same_index_ptr|eauto with sarun].
Qed.

(** The history and the head of a build, behind the check it starts with. *)
Lemma build_chain_spec s g id frames z0 z1 :
  depot_inv s g → 0 ≤ id →
  wp (build_chain (depot_begin_chain id) frames z0 z1) s (refines s id
    match chain_of s id with
    | None => Ok (Some (MkChain z0 z1 (rev frames)))
    | Some _ => Err ChainNotEmpty
    end).
Proof.
  intros Hd Hid. unfold build_chain, depot_begin_chain, begin_chain. do 3 apply wp_bind.
  eapply wp_mono; [by eapply ensure_slot_spec|]. intros s1 [[]|e] (Hd1&Hin&Hres).
  2:{ destruct Hres as [-> ?]. simpl. eauto. }
  pose proof Hd1 as [Hf1 _]. eapply wp_index_get; [done|done|].
  pose proof (chain_is_of s1 g id Hd1 Hid) as Hc. pose proof (proj2 Hin id Hid) as Hsame.
  destruct (chain_of s1 id) as [c|] eqn:Ec; simpl in Hc; rewrite <- Hsame.
  { rewrite (proj2 (Z.eqb_neq _ _)) by eauto using chain_at_nonzero. apply wp_err. simpl. auto. }
  rewrite Hc. simpl. do 2 apply wp_ret. apply wp_bind.
  eapply wp_mono; [apply (feed_builder_spec s1 g _ [])|].
  { done. }
  { split; [simpl; lia|constructor]. }
  intros s2 [b|e]; [|intros [??]; simpl; split; [by etrans|auto]].
  intros (g2&Hd2&Hin2&Hi2&[Hid2 Hb2]&Eid&Erep). unfold depot_finish_chain. rewrite Erep. simpl.
  simpl in Eid. rewrite app_nil_r in Hb2. rewrite Eid in *.
  eapply wp_mono; [by eapply (finish_chain_spec s2 g2)|].
  intros s3 r Hr. eapply refines_after; [by etrans|exact Hr|].
  by rewrite (proj2 Hin2 id Hid), Ec.
Qed.

Lemma rebuild_chain_spec s g id frames z0 z1 :
  depot_inv s g → 0 ≤ id →
  wp (build_chain (depot_begin_replace_chain id) frames z0 z1) s (refines s id
    match chain_of s id with
    | None => Err NoFrame
    | Some _ => Ok (Some (MkChain z0 z1 (rev frames)))
    end).
Proof.
  intros Hd Hid. unfold build_chain, depot_begin_replace_chain, begin_replace_chain. do 3 apply wp_bind.
  eapply wp_mono; [by eapply ensure_slot_spec|]. intros s1 [[]|e] (Hd1&Hin&Hres).
  2:{ destruct Hres as [-> ?]. simpl. eauto. }
  pose proof Hd1 as [Hf1 _]. eapply wp_index_get; [done|done|].
  pose proof (chain_is_of s1 g id Hd1 Hid) as Hc. pose proof (proj2 Hin id Hid) as Hsame.
  destruct (chain_of s1 id) as [c|] eqn:Ec; simpl in Hc; rewrite <- Hsame.
  2:{ rewrite Hc. apply wp_err. simpl. auto. }
  rewrite (proj2 (Z.eqb_neq _ _)) by eauto using chain_at_nonzero. do 2 apply wp_ret. apply wp_bind.
  eapply wp_mono; [apply (feed_builder_spec s1 g _ [])|].
  { done. }
  { split; [simpl; lia|constructor]. }
  intros s2 [b|e]; [|intros [??]; simpl; split; [by etrans|auto]].
  intros (g2&Hd2&Hin2&Hi2&[Hid2 Hb2]&Eid&Erep). unfold depot_finish_chain. rewrite Erep. simpl.
  simpl in Eid. rewrite app_nil_r in Hb2. rewrite Eid in *.
  eapply wp_mono; [by eapply (finish_replace_chain_spec s2 g2)|].
  intros s3 r Hr. eapply refines_after; [by etrans|exact Hr|].
  rewrite (proj2 Hin2 id Hid), Ec. rewrite (same_index_ptr s1 s2) by done. by rewrite Z.eqb_refl.
Qed.
