(* ===== verification/WikiDepotEvict.v ===== *)
(** * Eviction in the chain depot: compaction that no reader notices.

    [evict_f0] and [evict_f1] move the live frames of a file elsewhere and drop
    the file; no chain changes.  The loops around them ([evict_pass],
    [collect_f0]) end: every round leaves one file fewer that holds dead
    bytes. *)

From stdpp Require Import gmap.
From S2P Require Import Prelude.
From S2P Require Import BTreeMap.
From S2P Require Import ChainStore.
From S2P Require Import WikiDepot.
From S2P Require Import WikiDepotRep.
From S2P Require Import WikiDepotTier.
From S2P Require Import WikiDepotChain.
From S2P Require Import WikiDepotSteps.
From S2P Require Import WikiDepotOps.
Open Scope Z_scope.

(** ** Files with dead bytes *)

Definition dirty (t : Tier) (fid : Z) : Prop :=
  ∃ df, bt_get fid (t_files t) = Some df ∧ 0 < df_dead df.

Lemma ensure_room_dirty t size threshold t' r fid :
  ensure_room t size threshold = Some (t', r) → dirty t' fid → dirty t fid.
Proof.
  intros He (df&Hg&Hd). unfold ensure_room in He.
  assert (Hfresh : (if MAX_FILE_ID <? t_next_id t then (t, Err Corrupt)
     else (MkTier (bt_insert (t_next_id t) (MkDataFile [] 0 0) (t_files t)) (Some (t_next_id t))
             (t_next_id t + 1) (t_written t), Ok (t_next_id t))) = (t', r) → dirty t fid).
  { destruct (MAX_FILE_ID <? t_next_id t); intros [= <- <-]; [by exists df|].
    simpl in Hg. rewrite bt_get_insert in Hg. case_decide; [|by exists df].
    injection Hg as <-. simpl in Hd. lia. }
  destruct (t_current t) as [cur|]; [|by injection He].
  destruct (bt_get cur (t_files t)) as [cf|]; [|done].
  destruct (_ <=? threshold); [|by injection He]. injection He as <- _. by exists df.
Qed.

Lemma tier_append_dirty t frame threshold t' r fid :
  tier_append t frame threshold = Some (t', r) → dirty t' fid → dirty t fid.
Proof.
  unfold tier_append. destruct (ensure_room t (zlen frame) threshold) as [[t1 [i|e]]|] eqn:E; [|by
    intros [= <- <-]; eapply ensure_room_dirty|done].
  destruct (bt_get i (t_files t1)) as [df|] eqn:Hg; [|done]. intros Ht Hd.
  eapply ensure_room_dirty; [done|]. destruct (_ <? _); injection Ht as <- <-; [done|].
  destruct Hd as (df'&Hg'&Hd). simpl in Hg'. rewrite bt_get_insert in Hg'.
  case_decide; subst; [|by exists df']. injection Hg' as <-. by exists df.
Qed.

Lemma patch_next_dirty t fid off ptr t' i : patch_next t fid off ptr = Some t' → dirty t' i → dirty t i.
Proof.
  unfold patch_next. destruct (bt_get fid (t_files t)) as [df|] eqn:Hg; [|done].
  intros [= <-] (df'&Hg'&Hd). simpl in Hg'. rewrite bt_get_insert in Hg'.
  case_decide; subst; [|by exists df']. injection Hg' as <-. by exists df.
Qed.

(** ** The frames of a victim *)

(** The frames still to be looked at are frames of the victim. *)
Definition of_victim (m : frames) (vid : Z) (wf : WalkedFrame) : Prop :=
  ∃ fr, lookup_frame m vid (wf_offset wf) = Some fr ∧
    wf_header wf = header_of fr ∧ wf_zstd wf = fr_zstd fr.

Lemma of_victim_mono m m' vid wfs :
  (∀ i o x, lookup_frame m i o = Some x → lookup_frame m' i o = Some x) →
  Forall (of_victim m vid) wfs → Forall (of_victim m' vid) wfs.
Proof. intros Hm Hv. eapply Forall_impl; [exact Hv|]. intros wf (fr&?&?&?). exists fr. eauto. Qed.

Lemma lookup_file m fid off fr : lookup_frame m fid off = Some fr → is_Some (m !! fid).
Proof. unfold lookup_frame. intros (fs&->&_)%bind_Some. eauto. Qed.

Lemma victim_walk t m vid fs :
  tier_rep t m → m !! vid = Some fs →
  ∃ df, bt_get vid (t_files t) = Some df ∧ walk_frames df = Some (Ok (walked 0 fs)) ∧
    Forall (of_victim m vid) (walked 0 fs).
Proof.
  intros Hr Hm. destruct (tier_get _ _ _ _ Hr Hm) as (df&Hg&Hf&_). exists df.
  split; [done|]. split; [by apply walk_frames_spec|]. apply Forall_forall. intros wf Hin.
  destruct (walked_elem _ _ _ Hin) as (fr&Hat&?&?&_). exists fr. unfold lookup_frame. rewrite Hm.
  rewrite Z.sub_0_r in Hat. done.
Qed.

Lemma of_victim_chain t m vid wf fr :
  tier_rep t m → lookup_frame m vid (wf_offset wf) = Some fr → wf_header wf = header_of fr →
  wf_chain wf = fr_chain fr.
Proof.
  intros Hr Hl Hh. unfold wf_chain. rewrite Hh. apply header_chain, (lookup_ok _ _ _ _ _ Hr Hl).
Qed.

(** ** Evicting an f0 file *)

(** Every chain headed in the victim is headed by one of the frames left. *)
Definition pending0 (s : DepotInner) (vid : Z) (wfs : list WalkedFrame) : Prop :=
  ∀ j off, 0 ≤ j → addr vid off → ptr_of s j = pack vid off → ∃ wf, wf ∈ wfs ∧ wf_offset wf = off.

Record migrating0 (s0 s : DepotInner) (g : Ghost) (vid : Z) : Prop := {
  mg_inv : depot_inv s g;
  mg_inert : inert s0 s;
  mg_current : t_current (f0 s) ≠ Some vid;
  mg_f1 : f1 s = f1 s0;
  mg_dirty : ∀ fid, dirty (f0 s) fid → dirty (f0 s0) fid
}.

(** The frame the chain's word points at is its head. *)
Lemma head_frame s g j fid off :
  depot_inv s g → 0 ≤ j → addr fid off → ptr_of s j = pack fid off →
  ∃ fr c, lookup_frame (g0 g) fid off = Some fr ∧ fr_chain fr = j ∧
    tail_at g j (fr_next fr) (c_f1 c) (c_cold c) ∧ c_f0 c = fr_zstd fr ∧ chain_of s j = Some c.
Proof.
  intros Hd Hj Ha Hp. pose proof (chain_is_of s g j Hd Hj) as Hc.
  destruct (chain_of s j) as [c|]; simpl in Hc.
  - inversion Hc as [p f o fr oc l Hp' Ha' Hfr Hcid Ht]; subst.
    assert ((f, o) = (fid, off)) as [= -> ->].
    { rewrite <- (unpack_addr f o), <- (unpack_addr fid off) by done. congruence. }
    by exists fr, (MkChain (fr_zstd fr) oc l).
  - rewrite Hp in Hc. by destruct (pack_addr_nonzero fid off Ha).
Qed.

(** Moving the head of a chain to the end of the tier. *)
Lemma move_head_spec s0 s g vid wf fr :
  migrating0 s0 s g vid → of_victim (g0 g) vid wf →
  lookup_frame (g0 g) vid (wf_offset wf) = Some fr → addr vid (wf_offset wf) →
  ptr_of s (fr_chain fr) = pack vid (wf_offset wf) → 0 ≤ fr_chain fr →
  wp (move_f0 wf) s (λ s' r,
    match r with
    | Ok _ => ∃ g', migrating0 s0 s' g' vid ∧
        (∀ i o x, lookup_frame (g0 g) i o = Some x → lookup_frame (g0 g') i o = Some x) ∧
        (∀ j, 0 ≤ j → j ≠ fr_chain fr → ptr_of s' j = ptr_of s j) ∧
        (∀ off, addr vid off → ptr_of s' (fr_chain fr) ≠ pack vid off)
    | Err e => no_room e ∧ inert s0 s'
    end).
Proof.
  intros [Hd Hin Hcur H1 Hdirty] (fr'&Hl'&Hh&Hz) Hl Ha Hp Hj.
  assert (fr' = fr) as -> by congruence. pose proof Hd as [Hf _].
  pose proof (lookup_ok _ _ _ _ _ (fi_f0 _ _ Hf) Hl) as (_&Hn&_).
  pose proof (fi_ids0 _ _ Hf _ _ _ Hl) as Hslot. unfold move_f0.
  rewrite (of_victim_chain _ _ _ _ _ (fi_f0 _ _ Hf) Hl Hh), Hh, Hz, <- enc_header. unfold enc.
  destruct (head_frame s g _ _ _ Hd Hj Ha Hp) as (fr''&c&Hl''&_&Ht&Hc0&Hch).
  assert (fr'' = fr) as -> by congruence. apply wp_bind.
  destruct (append_f0_spec s g (fr_chain fr) (fr_next fr) (fr_zstd fr) Hf ltac:(done) Hn)
    as (s1&r&Happ&m'&Hf1&Hi&E1&Hc1&Hres).
  assert (Hdirty1 : ∀ fid, dirty (f0 s1) fid → dirty (f0 s0) fid).
  { intros fid Hfid. apply Hdirty. unfold append_f0 in Happ.
    destruct (tier_append (f0 s) _ _) as [[t ?]|] eqn:Et; [|done]. injection Happ as <- <-.
    by eapply tier_append_dirty. }
  exists s1, r. split; [done|]. destruct r as [[nf no]|e].
  - destruct Hres as (Hap&Had&Hct).
    assert (Hne : nf ≠ vid) by (intros ->; apply Hcur, Hc1; [done|by eapply lookup_file]).
    destruct (index_put_spec s1 _ (fr_chain fr) (pack nf no) Hf1) as (s2&r&Hput&->&Hf2&Hp2).
    { destruct Hi as [_ ->]. done. }
    destruct (index_put_tiers _ _ _ _ _ Hput) as [E20 E21].
    exists s2, (Ok tt). split; [done|]. exists (MkGhost m' (g1 g) (gc g)).
    assert (Hk : ∀ j, keeps j g (MkGhost m' (g1 g) (gc g))) by eauto with sarun.
    assert (Hptr : ∀ j, 0 ≤ j → j ≠ fr_chain fr → ptr_of s2 j = ptr_of s j).
    { intros j Hj0 Hjne. rewrite Hp2, decide_False by done. by apply same_index_ptr. }
    destruct (commit s g s2 (MkGhost m' (g1 g) (gc g)) (fr_chain fr) (Some c)) as [Hd2 He2];
      [done|done|done|done|done| |].
    { simpl. rewrite Hp2, decide_True by done. destruct c as [cz co cl]. simpl in *. subst cz.
      apply (chain_at_intro _ _ _ nf no (MkFrame (fr_chain fr) (fr_next fr) (fr_zstd fr)));
        eauto using appended_new. eapply tail_at_keeps; [|done]. done. }
    assert (Hin2 : inert s s2) by (apply (inert_effect s s2 (fr_chain fr)); [done|by rewrite Hch]).
    split_and!; [|by eauto using appended_keeps|done|].
    + constructor; [done|by etrans|congruence|congruence|by rewrite E20].
    + intros off Hoff. rewrite Hp2, decide_True by done. intros Heq. apply Hne.
      assert (unpack (pack nf no) = unpack (pack vid off)) as Hu by congruence.
      rewrite !unpack_addr in Hu by done. congruence.
  - split; [apply Hres|]. etrans; [exact Hin|]. eapply unchanged; [done..| |].
    + intros. by apply same_index_ptr.
    + intros j. apply keeps_same0, Hres.
Qed.

(** The loop leaves no chain headed in the victim. *)
Lemma migrate_f0_spec s0 s g vid wfs :
  migrating0 s0 s g vid → Forall (of_victim (g0 g) vid) wfs → pending0 s vid wfs →
  wp (migrate_f0 vid wfs) s (λ s' r,
    match r with
    | Ok _ => ∃ g', migrating0 s0 s' g' vid ∧ pending0 s' vid []
    | Err e => no_room e ∧ inert s0 s'
    end).
Proof.
  revert s g. induction wfs as [|wf wfs IH]; intros s g Hm Hv Hpend; cbn [migrate_f0].
  { apply wp_ret. by exists g. }
  apply Forall_cons in Hv as [Hwf Hv]. pose proof (mg_inv _ _ _ _ Hm) as Hd. pose proof Hd as [Hf _].
  pose proof Hwf as (fr&Hl&Hh&Hz). pose proof (lookup_addr _ _ _ _ _ (fi_f0 _ _ Hf) Hl) as Ha.
  pose proof (lookup_ok _ _ _ _ _ (fi_f0 _ _ Hf) Hl) as [Hid _].
  pose proof (fi_ids0 _ _ Hf _ _ _ Hl) as Hslot.
  rewrite (of_victim_chain _ _ _ _ _ (fi_f0 _ _ Hf) Hl Hh). eapply wp_index_get; [done|lia|].
  assert (Hother : ∀ s', (∀ j off, 0 ≤ j → addr vid off → ptr_of s' j = pack vid off →
      ptr_of s j = pack vid off ∧ (off = wf_offset wf → j ≠ fr_chain fr)) → pending0 s' vid wfs).
  { intros s' Hs j off Hj Hao Hp. destruct (Hs j off Hj Hao Hp) as [Hp' Hne].
    destruct (Hpend j off Hj Hao Hp') as (wf'&[->|Hin]%elem_of_cons&Ho); [|by eauto].
    destruct (Hne (eq_sym Ho)). destruct (head_frame s g j vid off Hd Hj Hao Hp') as (fr2&_&Hl2&<-&_).
    subst off. congruence. }
  destruct (unpack (ptr_of s (fr_chain fr))) as [lf lo] eqn:Hu.
  destruct ((lf =? vid) && (lo =? wf_offset wf)) eqn:Elive; cbn [negb].
  - apply andb_true_iff in Elive as [->%Z.eqb_eq ->%Z.eqb_eq].
    assert (Hp : ptr_of s (fr_chain fr) = pack vid (wf_offset wf)).
    { pose proof (chain_is_of s g (fr_chain fr) Hd ltac:(lia)) as Hc.
      destruct (chain_of s (fr_chain fr)); simpl in Hc.
      - inversion Hc as [p f o fr2 ? ? Hp Ha2]; subst. rewrite Hp, unpack_addr in Hu by done.
        by injection Hu as -> ->.
      - rewrite Hc in Hu. change (unpack 0) with (0, 0) in Hu. destruct Ha as [? _].
        injection Hu as <- _. lia. }
    apply wp_bind. eapply wp_mono; [apply (move_head_spec s0 s g vid wf fr); (done || lia)|].
    intros s' [[]|e]; [|done]. intros (g'&Hm'&Hkeep&Hptr&Hgone).
    apply (IH s' g'); [done|by eapply of_victim_mono|]. apply Hother. intros j off Hj Hao Hp'.
    destruct (decide (j = fr_chain fr)) as [->|Hne]; [by destruct (Hgone off Hao)|].
    rewrite <- Hptr by done. done.
  - apply (IH s g); [done|done|]. apply Hother. intros j off Hj Hao Hp. split; [done|].
    intros -> ->. rewrite Hp, unpack_addr in Hu by done. injection Hu as <- <-.
    by rewrite !Z.eqb_refl in Elive.
Qed.

(** What an eviction of tier [t] leaves: the chains, and no new dead bytes. *)
Definition evicted (t : DepotInner → Tier) (vid : Z) (s s' : DepotInner) : Prop :=
  inert s s' ∧ ¬ dirty (t s') vid ∧
  (∀ fid, dirty (f0 s') fid → dirty (f0 s) fid) ∧ (∀ fid, dirty (f1 s') fid → dirty (f1 s) fid).

Lemma remove_file_dirty t m vid :
  tier_rep t m → ¬ dirty (remove_file t vid) vid ∧
  ∀ fid, dirty (remove_file t vid) fid → dirty t fid.
Proof.
  intros Hr. split.
  - intros (df&Hg&_). simpl in Hg. rewrite bt_get_remove, decide_True in Hg by (done || apply Hr). done.
  - intros fid (df&Hg&Hd). simpl in Hg. rewrite bt_get_remove in Hg by apply Hr.
    case_decide; [done|]. by exists df.
Qed.

Lemma evict_f0_spec s g vid :
  depot_inv s g → is_Some (g0 g !! vid) → t_current (f0 s) ≠ Some vid →
  wp (evict_f0 vid) s (λ s' r,
    match r with Ok _ => evicted f0 vid s s' | Err e => no_room e ∧ inert s s' end).
Proof.
  intros Hd [fs Hfs] Hcur. pose proof Hd as [Hf _]. unfold evict_f0.
  destruct (victim_walk _ _ _ _ (fi_f0 _ _ Hf) Hfs) as (df&Hg&Hw&Hv).
  apply wp_bind. unfold wp at 1, victim_frames. rewrite Hg, Hw. eexists _, _. split; [done|].
  apply wp_bind. eapply wp_mono; [apply (migrate_f0_spec s s g)|].
  - constructor; eauto with sarun.
  - done.
  - intros j off Hj Ha Hp. destruct (head_frame s g j vid off Hd Hj Ha Hp) as (fr&_&Hl&_).
    unfold lookup_frame in Hl. rewrite Hfs in Hl. eexists. split; [by apply walked_complete|]. simpl. lia.
  - intros s' [[]|e]; [|done]. intros (g'&Hm&Hpend). apply wp_modify.
    destruct Hm as [Hd' Hin Hc' H1 Hdirty]. pose proof Hd' as [Hf' _].
    destruct (remove_file_spec _ _ vid (fi_f0 _ _ Hf') Hc') as [Hr Hlk].
    destruct (remove_file_dirty _ _ vid (fi_f0 _ _ Hf')) as [Hgone Hsub]. split_and!; simpl.
    + etrans; [exact Hin|].
      eapply (unchanged_gen s' g' _ (MkGhost (delete vid (g0 g')) (g1 g') (gc g'))); [done| |].
      * apply files_inv_f0; [done..|]. intros i o x. rewrite Hlk. case_decide; [done|].
        apply (fi_ids0 _ _ Hf').
      * intros j oj Hj. change (ptr_of (with_f0 _ _) j) with (ptr_of s' j).
        destruct oj as [c|]; [|done]. simpl. intros Hc.
        inversion Hc as [p fid off fr o l Hp Ha Hfr Hcid Ht]; subst.
        apply (chain_at_intro _ _ _ fid off fr); [done|done| |done|].
        -- simpl. rewrite Hlk. case_decide as E; [|done]. subst fid.
           destruct (Hpend _ off Hj Ha Hp) as (wf&?&_). set_solver.
        -- by destruct Ht; econstructor.
    + done.
    + eauto.
    + by rewrite H1.
Qed.

(** ** Evicting an f1 file *)

(** The accumulator of a chain, if it has one, sits at this address. *)
Definition f1_addr (s : DepotInner) (g : Ghost) (j fid off : Z) : Prop :=
  ∃ f0id f0off fr, ptr_of s j = pack f0id f0off ∧ addr f0id f0off ∧
    lookup_frame (g0 g) f0id f0off = Some fr ∧ fr_next fr = pack fid off.

Definition pending1 (s : DepotInner) (g : Ghost) (vid : Z) (wfs : list WalkedFrame) : Prop :=
  ∀ j off, 0 ≤ j → addr vid off → f1_addr s g j vid off → ∃ wf, wf ∈ wfs ∧ wf_offset wf = off.

Record migrating1 (s0 s : DepotInner) (g : Ghost) (vid : Z) : Prop := {
  mh_inv : depot_inv s g;
  mh_inert : inert s0 s;
  mh_current : t_current (f1 s) ≠ Some vid;
  mh_dirty0 : ∀ fid, dirty (f0 s) fid → dirty (f0 s0) fid;
  mh_dirty1 : ∀ fid, dirty (f1 s) fid → dirty (f1 s0) fid
}.

Lemma pack_inj fid off fid' off' :
  addr fid off → addr fid' off' → pack fid off = pack fid' off' → fid = fid' ∧ off = off'.
Proof.
  intros Ha Ha' E. assert (unpack (pack fid off) = unpack (pack fid' off')) as Hu by congruence.
  rewrite !unpack_addr in Hu by done. by injection Hu.
Qed.

(** The frame a chain's accumulator address leads to is its own. *)
Lemma f1_frame s g j fid off :
  depot_inv s g → 0 ≤ j → addr fid off → f1_addr s g j fid off →
  ∃ fr, lookup_frame (g1 g) fid off = Some fr ∧ fr_chain fr = j.
Proof.
  intros Hd Hj Ha (f0id&f0off&fr0&Hp&Ha0&Hl0&Hn).
  destruct (head_frame s g j f0id f0off Hd Hj Ha0 Hp) as (fr&c&Hl&_&Ht&_).
  assert (fr = fr0) as -> by congruence. rewrite Hn in Ht.
  inversion Ht as [p k Hc|p f o fr1 k Hp1 Ha1 Hl1 Hc1 Hc]; subst.
  - destruct (cold_at_cases _ _ _ Hc) as [[Hz _]|[_ Hic]].
    + by destruct (pack_addr_nonzero fid off Ha).
    + by rewrite is_cold_addr in Hic.
  - destruct (pack_inj fid off f o) as [-> ->]; [done..|]. by exists fr1.
Qed.

(** Moving the accumulator of a chain to the end of the tier. *)
Lemma move_acc_spec s0 s g vid wf fr f0id f0off fr0 :
  migrating1 s0 s g vid → lookup_frame (g1 g) vid (wf_offset wf) = Some fr →
  wf_header wf = header_of fr → wf_zstd wf = fr_zstd fr → addr vid (wf_offset wf) → 0 ≤ fr_chain fr →
  ptr_of s (fr_chain fr) = pack f0id f0off → addr f0id f0off →
  lookup_frame (g0 g) f0id f0off = Some fr0 → fr_next fr0 = pack vid (wf_offset wf) →
  wp (move_f1 f0id f0off wf) s (λ s' r,
    match r with
    | Ok _ => ∃ g', migrating1 s0 s' g' vid ∧
        (∀ i o x, lookup_frame (g1 g) i o = Some x → lookup_frame (g1 g') i o = Some x) ∧
        (∀ j off, addr vid off → f1_addr s' g' j vid off → f1_addr s g j vid off ∧ j ≠ fr_chain fr)
    | Err e => no_room e ∧ inert s0 s'
    end).
Proof.
  intros [Hd Hin Hcur Hd0 Hd1] Hl Hh Hz Ha Hj Hp Ha0 Hl0 Hn. pose proof Hd as [Hf _].
  pose proof (lookup_ok _ _ _ _ _ (fi_f1 _ _ Hf) Hl) as (_&Hnx&_).
  pose proof (fi_ids1 _ _ Hf _ _ _ Hl) as Hslot.
  destruct (head_frame s g _ _ _ Hd Hj Ha0 Hp) as (fr'&c&Hl'&Hcid&Ht&Hc0&Hch).
  assert (fr' = fr0) as -> by congruence. unfold move_f1. rewrite Hh, Hz, <- enc_header. unfold enc.
  apply wp_bind.
  destruct (append_f1_spec s g (fr_chain fr) (fr_next fr) (fr_zstd fr) Hf ltac:(done) Hnx)
    as (s1&r&Happ&m1&Hf1&Hi&E0&Hc1&Hres).
  assert (Hdirty1 : ∀ fid, dirty (f1 s1) fid → dirty (f1 s0) fid).
  { intros fid Hfid. apply Hd1. unfold append_f1 in Happ.
    destruct (tier_append (f1 s) _ _) as [[t ?]|] eqn:Et; [|done]. injection Happ as <- <-.
    by eapply tier_append_dirty. }
  exists s1, r. split; [done|]. destruct r as [[nf no]|e].
  2:{ split; [apply Hres|]. etrans; [exact Hin|].
      eapply unchanged; [done..|by intros; apply same_index_ptr|]. intros j. apply keeps_same1, Hres. }
  destruct Hres as (Hap&Had&Hct).
  assert (Hne : nf ≠ vid) by (intros ->; apply Hcur, Hc1; [done|by eapply lookup_file]).
  set (ga := MkGhost (g0 g) m1 (gc g)) in *.
  assert (Hk : ∀ j, keeps j g ga) by (unfold ga; eauto with sarun).
  destruct (unchanged s g s1 ga) as [Hd1' Hin1]; [done..|by intros; apply same_index_ptr|done|].
  destruct (repoint_spec s1 ga (fr_chain fr) f0id f0off fr0 (pack nf no) Hd1' Hl0 Hcid)
    as (t&m0&Hpt&Hf2&Hfr2&Hct2&Hm0&Hk2); [by eauto with sarun|].
  unfold wp, repoint_migrated. rewrite Hpt. eexists _, _. split; [done|].
  set (s2 := add_misc _ _) in *. exists (MkGhost m0 m1 (gc g)).
  assert (Hptr : ∀ j, ptr_of s2 j = ptr_of s j) by (intros; by rewrite <- (same_index_ptr s s1)).
  destruct (commit s1 ga s2 (MkGhost m0 m1 (gc g)) (fr_chain fr) (Some c)) as [Hd2 He2];
    [done|done|done|done|done| |].
  { simpl. rewrite Hptr, Hp. destruct c as [cz co cl]. simpl in *. subst cz.
    apply (chain_at_intro _ _ _ f0id f0off (set_next fr0 (pack nf no))); [done..|]. simpl.
    rewrite Hn in Ht. inversion Ht as [p k Hc|p f o fr1 k Hp1 Ha1 Hl1 Hcd1 Hc]; subst.
    - destruct (cold_at_cases _ _ _ Hc) as [[Hz0 _]|[_ Hic]].
      + by destruct (pack_addr_nonzero vid (wf_offset wf) Ha).
      + by rewrite is_cold_addr in Hic.
    - destruct (pack_inj vid (wf_offset wf) f o) as [<- <-]; [done..|].
      assert (fr1 = fr) as -> by congruence.
      apply (tail_f1 _ _ _ nf no (MkFrame (fr_chain fr) (fr_next fr) (fr_zstd fr)));
        eauto using appended_new. }
  assert (Hin2 : inert s1 s2).
  { apply (inert_effect s1 s2 (fr_chain fr)); [done|]. by rewrite (proj2 Hin1), Hch. }
  split_and!; [|by eauto using appended_keeps|].
  - constructor; simpl; [done|transitivity s; [done|by transitivity s1]|congruence| |done].
    intros fid Hfid. apply Hd0. rewrite <- E0. by eapply patch_next_dirty.
  - intros j off Hao (a&b&fr2&Hpj&Haj&Hlj&Hnj). simpl in Hlj. rewrite Hm0 in Hlj. rewrite Hptr in Hpj.
    case_decide as E.
    + injection Hlj as <-. simpl in Hnj. by destruct (pack_inj nf no vid off) as [-> _].
    + split; [by exists a, b, fr2|]. intros ->. apply E. apply pack_inj; [done..|congruence].
Qed.

(** The loop leaves no chain with its accumulator in the victim. *)
Lemma migrate_f1_spec s0 s g vid wfs :
  migrating1 s0 s g vid → Forall (of_victim (g1 g) vid) wfs → pending1 s g vid wfs →
  wp (migrate_f1 vid wfs) s (λ s' r,
    match r with
    | Ok _ => ∃ g', migrating1 s0 s' g' vid ∧ pending1 s' g' vid []
    | Err e => no_room e ∧ inert s0 s'
    end).
Proof.
  revert s g. induction wfs as [|wf wfs IH]; intros s g Hm Hv Hpend; cbn [migrate_f1].
  { apply wp_ret. by exists g. }
  apply Forall_cons in Hv as [Hwf Hv]. pose proof (mh_inv _ _ _ _ Hm) as Hd. pose proof Hd as [Hf _].
  pose proof Hwf as (fr&Hl&Hh&Hz). pose proof (lookup_addr _ _ _ _ _ (fi_f1 _ _ Hf) Hl) as Ha.
  pose proof (lookup_ok _ _ _ _ _ (fi_f1 _ _ Hf) Hl) as [Hid _].
  pose proof (fi_ids1 _ _ Hf _ _ _ Hl) as Hslot.
  rewrite (of_victim_chain _ _ _ _ _ (fi_f1 _ _ Hf) Hl Hh). eapply wp_index_get; [done|lia|].
  assert (Hother : ∀ s' g', (∀ j off, 0 ≤ j → addr vid off → f1_addr s' g' j vid off →
      f1_addr s g j vid off ∧ (off = wf_offset wf → j ≠ fr_chain fr)) → pending1 s' g' vid wfs).
  { intros s' g' Hs j off Hj Hao Hp. destruct (Hs j off Hj Hao Hp) as [Hp' Hne].
    destruct (Hpend j off Hj Hao Hp') as (wf'&[->|Hin]%elem_of_cons&Ho); [|by eauto].
    destruct (Hne (eq_sym Ho)). destruct (f1_frame s g j vid off Hd Hj Hao Hp') as (fr2&Hl2&<-).
    subst off. congruence. }
  pose proof (chain_is_of s g (fr_chain fr) Hd ltac:(lia)) as Hc.
  destruct (chain_of s (fr_chain fr)) as [c|]; simpl in Hc.
  2:{ rewrite Hc. simpl. apply (IH s g); [done|done|]. apply Hother.
      intros j off Hj Hao Hp. split; [done|]. intros _ ->.
      destruct Hp as (a&b&?&Hpj&Haj&_). rewrite Hc in Hpj. by destruct (pack_addr_nonzero a b Haj). }
  rewrite (proj2 (Z.eqb_neq _ _)) by eauto using chain_at_nonzero.
  inversion Hc as [p f0id f0off fr0 o l Hp Ha0 Hl0 Hcid Ht]; subst. rewrite Hp, unpack_addr by done.
  eapply wp_read_bind; [by apply (read_next_pointer_ok _ _ _ _ _ (fi_f0 _ _ Hf) Hl0)|].
  destruct (unpack (fr_next fr0)) as [lf lo] eqn:Hu.
  destruct ((lf =? vid) && (lo =? wf_offset wf)) eqn:Elive; cbn [negb].
  - apply andb_true_iff in Elive as [->%Z.eqb_eq ->%Z.eqb_eq].
    assert (Hn : fr_next fr0 = pack vid (wf_offset wf)).
    { inversion Ht as [p k Hcold|p f1id f1off fr1 k Hp1 Ha1 Hl1 Hcd1 Hcold]; subst.
      - destruct Hcold as [|p off fr1 k -> Ho _ _ _].
        + change (unpack 0) with (0, 0) in Hu. destruct Ha as [? _]. injection Hu as <- _. lia.
        + rewrite unpack_cold in Hu by lia. destruct Ha as [? _]. injection Hu as <- _.
          unfold COLD_FILE_ID in *. lia.
      - rewrite Hp1, unpack_addr in Hu by done. by injection Hu as -> ->. }
    apply wp_bind. eapply wp_mono.
    { apply (move_acc_spec s0 s g vid wf fr f0id f0off fr0); (done || lia). }
    intros s' [[]|e]; [|done]. intros (g'&Hm'&Hkeep&Hback).
    apply (IH s' g'); [done|by eapply of_victim_mono|]. apply Hother. intros j off Hj Hao Hp'.
    destruct (Hback j off Hao Hp'). done.
  - apply (IH s g); [done|done|]. apply Hother. intros j off Hj Hao Hpa. split; [done|].
    intros -> ->. destruct Hpa as (a&b&fr2&Hpj&Haj&Hlj&Hnj). rewrite Hp in Hpj.
    destruct (pack_inj f0id f0off a b) as [<- <-]; [done..|].
    assert (fr2 = fr0) as -> by congruence. rewrite Hnj, unpack_addr in Hu by done.
    injection Hu as <- <-. by rewrite !Z.eqb_refl in Elive.
Qed.

Lemma evict_f1_spec s g vid :
  depot_inv s g → is_Some (g1 g !! vid) → t_current (f1 s) ≠ Some vid →
  wp (evict_f1 vid) s (λ s' r,
    match r with Ok _ => evicted f1 vid s s' | Err e => no_room e ∧ inert s s' end).
Proof.
  intros Hd [fs Hfs] Hcur. pose proof Hd as [Hf _]. unfold evict_f1.
  destruct (victim_walk _ _ _ _ (fi_f1 _ _ Hf) Hfs) as (df&Hg&Hw&Hv).
  apply wp_bind. unfold wp at 1, victim_frames. rewrite Hg, Hw. eexists _, _. split; [done|].
  apply wp_bind. eapply wp_mono; [apply (migrate_f1_spec s s g)|].
  - constructor; eauto with sarun.
  - done.
  - intros j off Hj Ha Hp. destruct (f1_frame s g j vid off Hd Hj Ha Hp) as (fr&Hl&_).
    unfold lookup_frame in Hl. rewrite Hfs in Hl. eexists. split; [by apply walked_complete|]. simpl. lia.
  - intros s' [[]|e]; [|done]. intros (g'&Hm&Hpend). apply wp_modify.
    destruct Hm as [Hd' Hin Hc' Hdirty0 Hdirty1]. pose proof Hd' as [Hf' _].
    destruct (remove_file_spec _ _ vid (fi_f1 _ _ Hf') Hc') as [Hr Hlk].
    destruct (remove_file_dirty _ _ vid (fi_f1 _ _ Hf')) as [Hgone Hsub]. split_and!; simpl; eauto.
    etrans; [exact Hin|].
    eapply (unchanged_gen s' g' _ (MkGhost (g0 g') (delete vid (g1 g')) (gc g'))); [done| |].
    + apply files_inv_f1; [done..|]. intros i o x. rewrite Hlk. case_decide; [done|].
      apply (fi_ids1 _ _ Hf').
    + intros j oj Hj. change (ptr_of (with_f1 _ _) j) with (ptr_of s' j).
      destruct oj as [c|]; [|done]. simpl. intros Hc.
      inversion Hc as [p fid off fr o l Hp Ha Hfr Hcid Ht]; subst.
      apply (chain_at_intro _ _ _ fid off fr); [done..|].
      inversion Ht as [p k Hcold|p f1id f1off fr1 k Hp1 Ha1 Hl1 Hcd1 Hcold]; subst; [by constructor|].
      apply (tail_f1 _ _ _ f1id f1off fr1); [done|done| |done|done].
      simpl. rewrite Hlk. case_decide as E; [|done]. subst f1id.
      destruct (Hpend (fr_chain fr) f1off Hj Ha1) as (wf&?&_); [by exists fid, off, fr|set_solver].
Qed.

(** ** The eviction loops *)

(** Rolling the write target away from a victim changes nothing else. *)
Lemma clear_f0_spec s g vid :
  depot_inv s g → let s' := with_f0 s (clear_current (f0 s) vid) in
  depot_inv s' g ∧ inert s s' ∧ t_current (f0 s') ≠ Some vid.
Proof.
  intros Hd. pose proof Hd as [Hf _]. destruct (clear_current_rep _ _ vid (fi_f0 _ _ Hf)) as [Hr Hc].
  cbv zeta. destruct g as [m0 m1 c]. edestruct (unchanged s (MkGhost m0 m1 c)) as [??];
    [done|by apply (files_inv_f0 s (MkGhost m0 m1 c) _ m0 Hf Hr (fi_ids0 _ _ Hf))|done|reflexivity|done].
Qed.

Lemma clear_f1_spec s g vid :
  depot_inv s g → let s' := with_f1 s (clear_current (f1 s) vid) in
  depot_inv s' g ∧ inert s s' ∧ t_current (f1 s') ≠ Some vid.
Proof.
  intros Hd. pose proof Hd as [Hf _]. destruct (clear_current_rep _ _ vid (fi_f1 _ _ Hf)) as [Hr Hc].
  cbv zeta. destruct g as [m0 m1 c]. edestruct (unchanged s (MkGhost m0 m1 c)) as [??];
    [done|by apply (files_inv_f1 s (MkGhost m0 m1 c) _ m1 Hf Hr (fi_ids1 _ _ Hf))|done|reflexivity|done].
Qed.

Lemma dirty_file t m fid : tier_rep t m → dirty t fid → is_Some (m !! fid).
Proof.
  intros Hr (df&Hg&_). pose proof (tr_files _ _ Hr fid) as Hf. rewrite Hg in Hf.
  destruct (m !! fid); [eauto|done].
Qed.

(** One round of either loop on a victim with dead bytes. *)
Lemma evict_round_f0 s g vid :
  depot_inv s g → dirty (f0 s) vid →
  wp (_ ← dm_modify (λ s, with_f0 s (clear_current (f0 s) vid)); evict_f0 vid) s (λ s' r,
    match r with Ok _ => evicted f0 vid s s' | Err e => no_room e ∧ inert s s' end).
Proof.
  intros Hd Hv. destruct (clear_f0_spec s g vid Hd) as (Hd1&Hin1&Hc1).
  apply wp_bind, wp_modify. eapply wp_mono.
  { eapply evict_f0_spec; [done| |done]. destruct Hd1 as [Hf1 _]. by eapply dirty_file; [apply Hf1|]. }
  intros s' [[]|e].
  - intros (Hin&?&?&?). split_and!; [by etrans|done..].
  - intros [??]. split; [done|by etrans].
Qed.

Lemma evict_round_f1 s g vid :
  depot_inv s g → dirty (f1 s) vid →
  wp (_ ← dm_modify (λ s, with_f1 s (clear_current (f1 s) vid)); evict_f1 vid) s (λ s' r,
    match r with Ok _ => evicted f1 vid s s' | Err e => no_room e ∧ inert s s' end).
Proof.
  intros Hd Hv. destruct (clear_f1_spec s g vid Hd) as (Hd1&Hin1&Hc1).
  apply wp_bind, wp_modify. eapply wp_mono.
  { eapply evict_f1_spec; [done| |done]. destruct Hd1 as [Hf1 _]. by eapply dirty_file; [apply Hf1|]. }
  intros s' [[]|e].
  - intros (Hin&?&?&?). split_and!; [by etrans|done..].
  - intros [??]. split; [done|by etrans].
Qed.

Lemma wp_assoc {A B C} (m : DM A) (k : A → DM B) (h : B → DM C) s Q :
  wp (m ≫= k) s (λ s' r, match r with Ok b => wp (h b) s' Q | Err e => Q s' (Err e) end) →
  wp (m ≫= λ a, k a ≫= h) s Q.
Proof.
  unfold wp, mbind, dm_bind. intros (s'&r&Hm&HQ).
  destruct (m s) as [[s1 [a|e]]|]; [|by simplify_eq; eauto|done].
  rewrite Hm. destruct r as [b|e]; [done|]. by eauto.
Qed.

Lemma collect_f0_ends fuel (D : gset Z) s :
  valid s → (∀ fid, dirty (f0 s) fid → fid ∈ D) → (size D ≤ fuel)%nat →
  wp (collect_f0_loop fuel) s (λ s' r, inert s s' ∧
    match r with Ok _ => ∀ fid, ¬ dirty (f0 s') fid | Err e => no_room e end).
Proof.
  revert D s. induction fuel as [|fuel IH]; intros D s [g Hd] HD Hsize; pose proof Hd as [Hf _];
    cbn [collect_f0_loop]; unfold wp;
    destruct (list_find _ _) as [[i [vid df]]|] eqn:Efind.
  1,3: apply list_find_Some in Efind as (Hi&Hdead&_); simpl in Hdead;
    assert (Hv : dirty (f0 s) vid) by (exists df; split; [apply bt_elem_get;
      [apply (fi_f0 _ _ Hf)|by eapply list_elem_of_lookup_2]|done]);
    pose proof (HD vid Hv) as Hin.
  - assert (size D = 0)%nat as Hz by lia. apply size_empty_inv in Hz. set_solver.
  - apply wp_assoc. eapply wp_mono; [by eapply evict_round_f0|]. intros s1 [[]|e].
    + intros (Hin1&Hgone&Hsub&_). eapply wp_mono.
      { apply (IH (D ∖ {[vid]}) s1); [apply Hin1| |].
        - intros fid Hfid. apply elem_of_difference. split; [by apply HD, Hsub|].
          intros ->%elem_of_singleton. done.
        - rewrite size_difference by set_solver. rewrite size_singleton. lia. }
      intros s' r [??]. split; [by etrans|done].
    + intros [??]. done.
  - eexists _, _. split; [done|]. split; [by eauto with sarun|].
    intros fid (df&Hg&Hdead). apply bt_get_elem in Hg.
    apply list_find_None in Efind. rewrite Forall_forall in Efind. by apply (Efind _ Hg).
  - eexists _, _. split; [done|]. split; [by eauto with sarun|].
    intros fid (df&Hg&Hdead). apply bt_get_elem in Hg.
    apply list_find_None in Efind. rewrite Forall_forall in Efind. by apply (Efind _ Hg).
Qed.

Lemma dirty_bound t : ∃ D : gset Z, (∀ fid, dirty t fid → fid ∈ D) ∧ (size D ≤ length (t_files t))%nat.
Proof.
  exists (list_to_set (t_files t).*1). split.
  - intros fid (df&Hg&_). apply bt_get_elem in Hg. apply elem_of_list_to_set.
    apply list_elem_of_fmap. by exists (fid, df).
  - rewrite <- (length_fmap fst (t_files t)). generalize ((t_files t).*1). intros l.
    induction l as [|x l IH].
    + rewrite list_to_set_nil, size_empty. simpl. lia.
    + rewrite list_to_set_cons, size_union_alt, size_singleton. simpl.
      pose proof (subseteq_size (list_to_set l ∖ {[x]}) (list_to_set l : gset Z)). set_solver by lia.
Qed.

Section pass.
Variables (over_ratio : Z → Z → bool) (include_current : bool).
(** A file without dead bytes is not over a ratio. *)
Hypothesis (Hratio : ∀ dead len, over_ratio dead len = true → 0 < dead).

Lemma find_victim_dirty t m vid :
  tier_rep t m → find_victim over_ratio t include_current = Some vid → dirty t vid.
Proof.
  intros Hr Hf. unfold find_victim in Hf. apply fmap_Some in Hf as ([i [fid df]]&Hfind&->).
  apply list_find_Some in Hfind as (Hi&Hp&_). simpl in *. apply Is_true_true in Hp. split_andb.
  exists df. split; [|by eapply Hratio]. apply bt_elem_get; [apply Hr|by eapply list_elem_of_lookup_2].
Qed.

Lemma evict_pass_loop fuel (D0 D1 : gset Z) s :
  valid s → (∀ fid, dirty (f0 s) fid → fid ∈ D0) → (∀ fid, dirty (f1 s) fid → fid ∈ D1) →
  (size D0 + size D1 ≤ fuel)%nat →
  wp (evict_pass over_ratio fuel include_current) s (λ s' r, inert s s' ∧
    match r with
    | Ok _ => find_victim over_ratio (f0 s') include_current = None ∧
              find_victim over_ratio (f1 s') include_current = None
    | Err e => no_room e
    end).
Proof.
  assert (Hpos : ∀ (D : gset Z) x, x ∈ D → (size (D ∖ {[x]}) < size D)%nat).
  { intros D x Hx. apply subset_size. set_solver. }
  revert D0 D1 s. induction fuel as [|fuel IH]; intros D0 D1 s [g Hd] H0 H1 Hsize;
    pose proof Hd as [Hf _]; cbn [evict_pass]; unfold wp;
    (destruct (find_victim over_ratio (f0 s) include_current) as [vid|] eqn:E0;
     [apply (find_victim_dirty _ _ _ (fi_f0 _ _ Hf)) in E0; pose proof (Hpos _ _ (H0 _ E0))
     |destruct (find_victim over_ratio (f1 s) include_current) as [vid|] eqn:E1;
      [apply (find_victim_dirty _ _ _ (fi_f1 _ _ Hf)) in E1; pose proof (Hpos _ _ (H1 _ E1))|]]);
    try lia; try (eexists _, _; split; [done|]; split; [by eauto with sarun|done]).
  - apply wp_assoc. eapply wp_mono; [by eapply evict_round_f0|]. intros s1 [[]|e]; [|by intros [??]].
    intros (Hin1&Hgone&Hs0&Hs1). eapply wp_mono.
    { apply (IH (D0 ∖ {[vid]}) D1 s1); [apply Hin1| |by auto|lia].
      intros fid Hfid. apply elem_of_difference. split; [by auto|]. by intros ->%elem_of_singleton. }
    intros s' r [??]. split; [by etrans|done].
  - apply wp_assoc. eapply wp_mono; [by eapply evict_round_f1|]. intros s1 [[]|e]; [|by intros [??]].
    intros (Hin1&Hgone&Hs0&Hs1). eapply wp_mono.
    { apply (IH D0 (D1 ∖ {[vid]}) s1); [apply Hin1|by auto| |lia].
      intros fid Hfid. apply elem_of_difference. split; [by auto|]. by intros ->%elem_of_singleton. }
    intros s' r [??]. split; [by etrans|done].
Qed.
End pass.
