(* ===== verification/WikiDepotOpen.v ===== *)
(** * Opening a chain depot: from the files back to a depot.

    Models [DepotInner::open], [Tier::open], the dead-byte counters sidecar
    ([persist_counters], [load_counters]) and its rebuild from frame headers in
    [chupa/wikimak/depot/src/inner.rs].  A disk is the contents of the files;
    the sidecar is taken line by line, after its decimal numbers are read.
    Reopening loses no chain, whatever the sidecar says. *)

From stdpp Require Import gmap.
From S2P Require Import Prelude.
From S2P Require Import BTreeMap.
From S2P Require Import ChainStore.
From S2P Require Import WikiDepot.
From S2P Require Import WikiDepotRep.
From S2P Require Import WikiDepotTier.
From S2P Require Import WikiDepotChain.
From S2P Require Import WikiDepotSteps.
From S2P Require Import WikiDepotOps.
Open Scope Z_scope.

(** ** Disks *)

(** The lines of [<root>/counters]. *)
Inductive CounterLine : Type :=
| CMagic
| CCold (len dead : Z)
| CF0 (id len dead : Z)
| CF1 (id len dead : Z)
| COther.

Record Disk : Type := MkDisk {
  dk_format : option bytes;
  dk_index : option bytes;
  dk_f0 : btmap Z bytes;
  dk_f1 : btmap Z bytes;
  dk_cold : bytes;
  dk_counters : option (list CounterLine)
}.

(** [FORMAT_VERSION] and [str::trim] *)
Definition FORMAT_VERSION : bytes := [50].
Definition is_space (b : Z) : bool := (b =? 32) || ((9 <=? b) && (b <=? 13)).
Fixpoint trim_start (b : bytes) : bytes :=
  match b with
  | x :: b' => if is_space x then trim_start b' else b
  | [] => []
  end.
Definition trim (b : bytes) : bytes := rev (trim_start (rev (trim_start b))).

(** ** Opening the tiers *)

(** [Tier::open] *)
Definition tier_open (files : btmap Z bytes) : Tier :=
  let fs := (λ kd : Z * bytes, (kd.1, MkDataFile kd.2 (zlen kd.2) 0)) <$> files in
  MkTier fs (fst <$> last fs)
    (match fs with [] => 1 | _ => fold_left Z.max fs.*1 0 + 1 end) 0.

(** The words of the index file. *)
Fixpoint words (n : nat) (b : bytes) : list Z :=
  match n with
  | O => []
  | S n => le_decode (take 8 b) :: words n (drop 8 b)
  end.

(** ** The counters sidecar *)

(** [persist_counters] *)
Definition persist_counters (s : DepotInner) : list CounterLine :=
  CMagic :: CCold (cold_len s) (cold_dead s)
  :: ((λ kd : Z * DataFile, CF0 kd.1 (df_len kd.2) (df_dead kd.2)) <$> t_files (f0 s))
  ++ ((λ kd : Z * DataFile, CF1 kd.1 (df_len kd.2) (df_dead kd.2)) <$> t_files (f1 s)).

(** The line loop of [load_counters]. *)
Fixpoint read_lines (lines : list CounterLine)
    (st : option (Z * Z) * btmap Z (Z * Z) * btmap Z (Z * Z)) :
    option (option (Z * Z) * btmap Z (Z * Z) * btmap Z (Z * Z)) :=
  let '(cold_rec, rec_f0, rec_f1) := st in
  match lines with
  | [] => Some st
  | CCold len dead :: lines => read_lines lines (Some (len, dead), rec_f0, rec_f1)
  | CF0 id len dead :: lines => read_lines lines (cold_rec, bt_insert id (len, dead) rec_f0, rec_f1)
  | CF1 id len dead :: lines => read_lines lines (cold_rec, rec_f0, bt_insert id (len, dead) rec_f1)
  | CMagic :: _ | COther :: _ => None
  end.

(** The closure [fence]. *)
Definition fence (t : Tier) (recorded : btmap Z (Z * Z)) : bool :=
  (length (t_files t) =? length recorded)%nat &&
  forallb (λ kd : Z * DataFile,
    match bt_get kd.1 recorded with Some (len, _) => len =? df_len kd.2 | None => false end) (t_files t).

(** [df.dead = rec[&df.id].1] *)
Definition adopt (t : Tier) (recorded : btmap Z (Z * Z)) : Tier :=
  MkTier ((λ kd : Z * DataFile, (kd.1, MkDataFile (df_data kd.2) (df_len kd.2)
            (match bt_get kd.1 recorded with Some (_, dead) => dead | None => 0 end))) <$> t_files t)
    (t_current t) (t_next_id t) (t_written t).

(** [load_counters] *)
Definition load_counters (text : option (list CounterLine)) (t0 t1 : Tier) (cold_len : Z) :
    option (Tier * Tier * Z) :=
  match text with
  | Some (CMagic :: lines) =>
      match read_lines lines (None, [], []) with
      | Some (Some (rec_cold_len, rec_cold_dead), rec_f0, rec_f1) =>
          if negb (rec_cold_len =? cold_len) then None
          else if negb (fence t0 rec_f0) || negb (fence t1 rec_f1) then None
          else Some (adopt t0 rec_f0, adopt t1 rec_f1, rec_cold_dead)
      | _ => None
      end
  | _ => None
  end.

(** ** The rebuild from frame headers *)

(** The frame loop of [rebuild_dead_f0] and [rebuild_dead_f1]; [None] is a
    panic, or the end of the fuel. *)
Fixpoint dead_loop (fuel : nat) (alive : Z → Z → option (Result bool DepotError)) (df : DataFile)
    (off dead : Z) : option (Result Z DepotError) :=
  if df_len df <=? off then Some (Ok dead) else
  match fuel with
  | O => None
  | S fuel =>
      match read_exact_at (df_data df) off 24 with
      | Err e => Some (Err e)
      | Ok header =>
          let zstd_len := le_decode (drop 16 header) in
          match alive (le_decode (take 8 header)) off with
          | None => None
          | Some (Err e) => Some (Err e)
          | Some (Ok a) =>
              dead_loop fuel alive df (off + (HEADER_LEN + zstd_len))
                (if a then dead else dead + (HEADER_LEN + zstd_len))
          end
      end
  end.

(** Whether the frame at [off] of file [fid] is the live head of its chain. *)
Definition alive_f0 (index : list Z) (fid chain_id off : Z) : option (Result bool DepotError) :=
  match index !! Z.to_nat chain_id with
  | None => None
  | Some ptr =>
      let '(lfid, loff) := unpack ptr in
      Some (Ok (negb (ptr =? 0) && ((lfid =? fid) && (loff =? off))))
  end.

(** Whether it is the accumulator its chain's head points at. *)
Definition alive_f1 (index : list Z) (f0_tier : Tier) (fid chain_id off : Z) :
    option (Result bool DepotError) :=
  match index !! Z.to_nat chain_id with
  | None => None
  | Some ptr =>
      if ptr =? 0 then Some (Ok false) else
      let '(lfid, loff) := unpack ptr in
      match bt_get lfid (t_files f0_tier) with
      | None => Some (Ok false)
      | Some f0_df =>
          match read_exact_at (df_data f0_df) (loff + 8) 8 with
          | Err e => Some (Err e)
          | Ok np =>
              let '(f1_fid, f1_off) := unpack (le_decode np) in
              Some (Ok ((f1_fid =? fid) && (f1_off =? off)))
          end
      end
  end.

(** The file loop of both. *)
Fixpoint rebuild_files (alive : Z → Z → Z → option (Result bool DepotError))
    (files : btmap Z DataFile) : option (Result (btmap Z DataFile) DepotError) :=
  match files with
  | [] => Some (Ok [])
  | (fid, df) :: files =>
      match dead_loop (S (length (df_data df))) (alive fid) df 0 0 with
      | None => None
      | Some (Err e) => Some (Err e)
      | Some (Ok dead) =>
          match rebuild_files alive files with
          | Some (Ok files) => Some (Ok ((fid, MkDataFile (df_data df) (df_len df) dead) :: files))
          | r => r
          end
      end
  end.
Definition rebuild_dead (alive : Z → Z → Z → option (Result bool DepotError)) (t : Tier) :
    option (Result Tier DepotError) :=
  match rebuild_files alive (t_files t) with
  | None => None
  | Some (Err e) => Some (Err e)
  | Some (Ok files) => Some (Ok (MkTier files (t_current t) (t_next_id t) (t_written t)))
  end.

(** [rebuild_dead_f0] and [rebuild_dead_f1] *)
Definition rebuild_dead_f0 (t : Tier) (index : list Z) : option (Result Tier DepotError) :=
  rebuild_dead (alive_f0 index) t.
Definition rebuild_dead_f1 (t : Tier) (index : list Z) (f0_tier : Tier) : option (Result Tier DepotError) :=
  rebuild_dead (alive_f1 index f0_tier) t.

(** [rebuild_cold_dead], from [off] on *)
Fixpoint cold_dead_loop (fuel : nat) (cold : bytes) (cold_len : Z) (index : list Z) (off dead : Z) :
    option (Result Z DepotError) :=
  if cold_len <? off + HEADER_LEN then Some (Ok dead) else
  match fuel with
  | O => None
  | S fuel =>
      match read_exact_at cold off 24 with
      | Err e => Some (Err e)
      | Ok header =>
          let zstd_len := le_decode (drop 16 header) in
          let live :=
            match index !! Z.to_nat (le_decode (take 8 header)) with
            | Some ptr => negb (ptr =? 0)
            | None => false
            end in
          cold_dead_loop fuel cold cold_len index (off + (HEADER_LEN + zstd_len))
            (if live then dead else dead + (HEADER_LEN + zstd_len))
      end
  end.
Definition rebuild_cold_dead (cold : bytes) (cold_len : Z) (index : list Z) :
    option (Result Z DepotError) :=
  cold_dead_loop (S (length cold)) cold cold_len index (if 0 <? cold_len then 1 else 0) 0.

(** ** Opening a depot *)

(** The counters: the sidecar's, or rebuilt. *)
Definition open_counters (dk : Disk) (index : list Z) (t0 t1 : Tier) :
    option (Result (Tier * Tier * Z) DepotError) :=
  match load_counters (dk_counters dk) t0 t1 (zlen (dk_cold dk)) with
  | Some loaded => Some (Ok loaded)
  | None =>
      match rebuild_dead_f0 t0 index with
      | None => None
      | Some (Err e) => Some (Err e)
      | Some (Ok t0) =>
          match rebuild_dead_f1 t1 index t0 with
          | None => None
          | Some (Err e) => Some (Err e)
          | Some (Ok t1) =>
              match rebuild_cold_dead (dk_cold dk) (zlen (dk_cold dk)) index with
              | None => None
              | Some (Err e) => Some (Err e)
              | Some (Ok cold_dead) => Some (Ok (t0, t1, cold_dead))
              end
          end
      end
  end.

(** [DepotInner::open]; a panic or an endless loop is [None]. *)
Definition depot_open (threshold : Z) (dk : Disk) : option (Result DepotInner DepotError) :=
  let format_ok :=
    match dk_index dk with
    | Some _ => bool_decide (trim (default [] (dk_format dk)) = FORMAT_VERSION)
    | None => true
    end in
  if negb format_ok then Some (Err Format) else
  let current := default [] (dk_index dk) in
  if negb (zlen current =? 0) && negb (zlen current mod 8 =? 0) then Some (Err IndexSizeMismatch) else
  let '(slots, index) :=
    if zlen current =? 0 then (1, [0])
    else (zlen current / 8, words (Z.to_nat (zlen current / 8)) current) in
  match open_counters dk index (tier_open (dk_f0 dk)) (tier_open (dk_f1 dk)) with
  | None => None
  | Some (Err e) => Some (Err e)
  | Some (Ok (t0, t1, cold_dead)) =>
      Some (Ok (MkInner threshold index slots t0 t1 (dk_cold dk) (zlen (dk_cold dk)) cold_dead 0))
  end.

(** The files of a depot, with some sidecar beside them. *)
Definition disk_of (s : DepotInner) (counters : option (list CounterLine)) : Disk :=
  MkDisk (Some (FORMAT_VERSION ++ [10])) (Some (concat (le_encode 8 <$> index s)))
    ((λ kd : Z * DataFile, (kd.1, df_data kd.2)) <$> t_files (f0 s))
    ((λ kd : Z * DataFile, (kd.1, df_data kd.2)) <$> t_files (f1 s))
    (cold_file s) counters.

(** ** Tiers that hold the same data *)

(** Same files, same bytes; the counters may differ. *)
Definition same_file (a b : Z * DataFile) : Prop :=
  a.1 = b.1 ∧ df_data a.2 = df_data b.2 ∧ df_len a.2 = df_len b.2.
Definition same_data : btmap Z DataFile → btmap Z DataFile → Prop := Forall2 same_file.

#[export] Instance same_file_trans : Transitive same_file.
Proof. intros a b c (?&?&?) (?&?&?). split_and!; congruence. Qed.
#[export] Instance same_data_trans : Transitive same_data.
Proof. unfold same_data. apply _. Qed.

Lemma same_data_keys fs fs' : same_data fs fs' → fs.*1 = fs'.*1.
Proof. induction 1 as [|a b fs fs' [E _] _ IH]; [done|]. csimpl. by rewrite E, IH. Qed.

Lemma bt_ok_keys {V W} (m : btmap Z V) (m' : btmap Z W) : m.*1 = m'.*1 → bt_ok m = bt_ok m'.
Proof.
  revert m'. induction m as [|[k v] m IH]; intros [|[k' v'] m']; csimpl; try done.
  intros [= <- E]. rewrite (IH m' E). f_equal. clear IH.
  revert m' E. induction m as [|[j w] m IH]; intros [|[j' w'] m']; csimpl; try done.
  intros [= <- E]. by rewrite (IH m' E).
Qed.

Lemma same_data_get fs fs' fid :
  same_data fs fs' →
  match bt_get fid fs, bt_get fid fs' with
  | Some df, Some df' => df_data df = df_data df' ∧ df_len df = df_len df'
  | None, None => True
  | _, _ => False
  end.
Proof.
  induction 1 as [|[i a] [j b] fs fs' (E&?&?) _ IH]; [done|]. simpl in *. subst j.
  destruct (cmp fid i); [done|exact IH..].
Qed.

(** The write target and the next id [Tier::open] picks. *)
Definition reopened (t : Tier) : Prop :=
  t_current t = fst <$> last (t_files t) ∧
  t_next_id t = match t_files t with [] => 1 | _ => fold_left Z.max (t_files t).*1 0 + 1 end.

Lemma fold_max_spec (l : list Z) a :
  (∀ x, x ∈ l → x ≤ fold_left Z.max l a) ∧ a ≤ fold_left Z.max l a ∧
  (fold_left Z.max l a = a ∨ fold_left Z.max l a ∈ l).
Proof.
  revert a. induction l as [|y l IH]; intros a; simpl; [set_solver by lia|].
  destruct (IH (Z.max a y)) as (H1&H2&H3). split_and!.
  - intros x [->|Hx]%elem_of_cons; [lia|by apply H1].
  - lia.
  - destruct H3 as [->|H3]; [|set_solver]. destruct (Z.max_spec a y) as [[_ ->]|[_ ->]]; set_solver.
Qed.

Lemma tier_rep_reopen t m t' :
  tier_rep t m → same_data (t_files t) (t_files t') → reopened t' → tier_rep t' m.
Proof.
  intros Hr Hs [Hcur Hnext].
  assert (Hsome : ∀ fid df, (fid, df) ∈ t_files t' → is_Some (m !! fid) ∧ 1 ≤ fid ≤ MAX_FILE_ID).
  { intros fid df Hin. apply bt_elem_get in Hin.
    2:{ rewrite <- (bt_ok_keys (t_files t)) by by apply same_data_keys. apply Hr. }
    pose proof (same_data_get _ _ fid Hs) as Hg. rewrite Hin in Hg.
    pose proof (tr_files _ _ Hr fid) as Hf. pose proof (tr_next _ _ Hr).
    destruct (bt_get fid (t_files t)); [|done]. destruct (m !! fid); [|done]. split; [eauto|lia]. }
  assert (Hmax : ∀ fid df, (fid, df) ∈ t_files t' → fid < t_next_id t').
  { intros fid df Hin. rewrite Hnext. destruct (t_files t') as [|x l]; [set_solver|].
    destruct (fold_max_spec (x :: l).*1 0) as (Hle&_). apply Zle_lt_succ, Hle.
    apply list_elem_of_fmap. by exists (fid, df). }
  constructor.
  - rewrite <- (bt_ok_keys (t_files t)) by by apply same_data_keys. apply Hr.
  - intros fid. pose proof (same_data_get _ _ fid Hs) as Hg. pose proof (tr_files _ _ Hr fid) as Hf.
    destruct (bt_get fid (t_files t)) as [df|], (bt_get fid (t_files t')) as [df'|] eqn:E; try done.
    destruct (m !! fid); [|done]. destruct Hf as [(Hd&Hl&Hm&Hok) Hid]. destruct Hg as [Hdd Hlen].
    split; [unfold file_rep; by rewrite <- Hdd, <- Hlen|].
    split; [lia|]. apply bt_get_elem in E. by eapply Hmax.
  - intros fid. rewrite Hcur. intros ([i df]&Hlast&[= ->])%fmap_Some.
    apply last_Some_elem_of in Hlast. by apply (Hsome _ df).
  - rewrite Hnext. destruct (t_files t') as [|x l] eqn:E; [by vm_compute|].
    destruct (fold_max_spec (x :: l).*1 0) as (_&H0&[->|Hin]); [by vm_compute|].
    apply list_elem_of_fmap in Hin as ([fid df]&->&Hin). destruct (Hsome fid df Hin) as [_ ?]. simpl. lia.
Qed.

Lemma tier_open_spec t m :
  tier_rep t m →
  let t' := tier_open ((λ kd : Z * DataFile, (kd.1, df_data kd.2)) <$> t_files t) in
  same_data (t_files t) (t_files t') ∧ reopened t' ∧ t_written t' = 0.
Proof.
  intros Hr t'. split; [|done]. unfold t', tier_open. simpl. rewrite <- list_fmap_compose.
  apply Forall2_fmap_r, Forall2_same_length_lookup. split; [done|].
  intros i [fid df] [fid' df'] Hi Hi'. rewrite Hi in Hi'. injection Hi' as <- <-. unfold same_file. simpl.
  assert (Hg : bt_get fid (t_files t) = Some df).
  { apply bt_elem_get; [apply Hr|]. by eapply list_elem_of_lookup_2. }
  pose proof (tr_files _ _ Hr fid) as Hf. rewrite Hg in Hf. destruct (m !! fid); [|done].
  destruct Hf as [(->&->&_) _]. done.
Qed.

Lemma adopt_spec t rec : same_data (t_files t) (t_files (adopt t rec)) ∧ (reopened t → reopened (adopt t rec)).
Proof.
  assert (Hk : (t_files (adopt t rec)).*1 = (t_files t).*1).
  { unfold adopt. simpl. by rewrite <- list_fmap_compose. }
  split.
  - unfold adopt. simpl. apply Forall2_fmap_r, Forall2_same_length_lookup. split; [done|].
    intros i a b Ha Hb. rewrite Ha in Hb. by injection Hb as <-.
  - intros [Hc Hn]. unfold reopened. rewrite Hk. split; simpl.
    + rewrite Hc, fmap_last. by destruct (last (t_files t)).
    + rewrite Hn. by destruct (t_files t).
Qed.

(** ** Counting dead bytes *)

(** The bytes of the frames that are not alive, from an offset on. *)
Fixpoint dead_sum (al : Frame → Z → bool) (off : Z) (fs : list Frame) : Z :=
  match fs with
  | [] => 0
  | fr :: fs => (if al fr off then 0 else zlen (enc fr)) + dead_sum al (off + zlen (enc fr)) fs
  end.

Lemma dead_loop_spec alive al df pre fs fuel dead :
  df_data df = encs pre ++ encs fs → df_len df = zlen (df_data df) → Forall frame_ok fs →
  (∀ o fr, frame_at fs o = Some fr →
    alive (fr_chain fr) (zlen (encs pre) + o) = Some (Ok (al fr (zlen (encs pre) + o)))) →
  (length fs < fuel)%nat →
  dead_loop fuel alive df (zlen (encs pre)) dead
  = Some (Ok (dead + dead_sum al (zlen (encs pre)) fs)).
Proof.
  revert pre fuel dead. induction fs as [|fr fs IH]; intros pre fuel dead Hd Hl Hok Hal Hf;
    (destruct fuel as [|fuel]; [simpl in Hf; lia|]); cbn [dead_loop].
  - rewrite Hl, Hd, app_nil_r, Z.leb_refl. simpl. by rewrite Z.add_0_r.
  - apply Forall_cons in Hok as [Hfr Hok]. rewrite encs_cons in Hd.
    pose proof (enc_pos fr). pose proof (zlen_nonneg (encs fs)).
    rewrite (proj2 (Z.leb_gt _ _)) by (rewrite Hl, Hd, !zlen_app; lia).
    rewrite Hd, read_header by done. rewrite header_zlen, header_chain by done.
    pose proof (Hal 0 fr eq_refl) as Ha. rewrite Z.add_0_r in Ha. rewrite Ha. rewrite <- enc_zlen.
    replace (zlen (encs pre) + zlen (enc fr)) with (zlen (encs (pre ++ [fr])))
      by (rewrite encs_app, encs_one, zlen_app; lia).
    rewrite IH; [|by rewrite Hd, encs_app, encs_one, <- app_assoc|done|done| |simpl in Hf; lia].
    + cbn [dead_sum]. rewrite encs_app, encs_one, zlen_app. do 2 f_equal.
      destruct (al fr (zlen (encs pre))); lia.
    + intros o x Hx. rewrite encs_app, encs_one, zlen_app, <- Z.add_assoc. apply Hal. cbn [frame_at].
      apply frame_at_bound in Hx as Hb. rewrite (proj2 (Z.eqb_neq _ _)) by lia.
      by replace (zlen (enc fr) + o - zlen (enc fr)) with o by lia.
Qed.

(** A rebuild counts, per file, the frames that are not alive. *)
Lemma rebuild_files_spec (m : frames) (alive : Z → Z → Z → option (Result bool DepotError))
    (al : Z → Frame → Z → bool) files :
  (∀ fid df, (fid, df) ∈ files → ∃ fs, m !! fid = Some fs ∧ file_rep df fs) →
  (∀ fid o fr, lookup_frame m fid o = Some fr → alive fid (fr_chain fr) o = Some (Ok (al fid fr o))) →
  ∃ files', rebuild_files alive files = Some (Ok files') ∧ same_data files files' ∧
    ∀ fid df, (fid, df) ∈ files' → ∃ fs, m !! fid = Some fs ∧ df_dead df = dead_sum (al fid) 0 fs.
Proof.
  intros Hrep Hal. induction files as [|[fid df] files IH]; cbn [rebuild_files].
  { exists []. split_and!; [done|constructor|set_solver]. }
  destruct (Hrep fid df ltac:(set_solver)) as (fs&Hm&Hd&Hl&_&Hok).
  rewrite (dead_loop_spec (alive fid) (al fid) df [] fs); [|done|congruence|done| |].
  - destruct IH as (files'&->&Hs&Hdead); [intros; apply Hrep; set_solver|].
    eexists. split; [done|]. split; [by constructor|].
    intros i x [[= -> ->]|Hin]%elem_of_cons; [by exists fs|by apply Hdead].
  - intros o fr Ho. apply Hal. unfold lookup_frame. by rewrite Hm.
  - rewrite Hd. pose proof (encs_length fs). lia.
Qed.

Lemma rebuild_dead_spec t m alive al :
  tier_rep t m →
  (∀ fid o fr, lookup_frame m fid o = Some fr → alive fid (fr_chain fr) o = Some (Ok (al fid fr o))) →
  ∃ t', rebuild_dead alive t = Some (Ok t') ∧ same_data (t_files t) (t_files t') ∧
    (reopened t → reopened t') ∧
    ∀ fid df, (fid, df) ∈ t_files t' → ∃ fs, m !! fid = Some fs ∧ df_dead df = dead_sum (al fid) 0 fs.
Proof.
  intros Hr Hal. destruct (rebuild_files_spec m alive al (t_files t)) as (files'&He&Hs&Hdead); [|done|].
  { intros fid df Hin. apply bt_elem_get in Hin; [|apply Hr]. pose proof (tr_files _ _ Hr fid) as Hf.
    rewrite Hin in Hf. destruct (m !! fid) as [fs|]; [|done]. exists fs. split; [done|apply Hf]. }
  unfold rebuild_dead. rewrite He. eexists. split; [done|]. split; [done|]. split; [|done].
  intros [Hc Hn]. pose proof (same_data_keys _ _ Hs) as Hk. unfold reopened. simpl. split.
  - rewrite Hc. rewrite <- !fmap_last. by rewrite Hk.
  - rewrite Hn, Hk. destruct (t_files t), files'; done.
Qed.

Lemma cold_dead_loop_spec pre fs idx fuel dead :
  Forall frame_ok fs → (length fs < fuel)%nat →
  ∃ n, cold_dead_loop fuel (0 :: encs (pre ++ fs)) (1 + zlen (encs (pre ++ fs))) idx
         (1 + zlen (encs pre)) dead = Some (Ok n).
Proof.
  revert pre fuel dead. induction fs as [|fr fs IH]; intros pre fuel dead Hok Hf;
    (destruct fuel as [|fuel]; [simpl in Hf; lia|]); cbn [cold_dead_loop].
  - rewrite app_nil_r, (proj2 (Z.ltb_lt _ _)) by (unfold HEADER_LEN; lia). by eauto.
  - apply Forall_cons in Hok as [Hfr Hok]. rewrite !encs_app, !encs_cons.
    pose proof (enc_zlen fr). pose proof (zlen_nonneg (fr_zstd fr)). pose proof (zlen_nonneg (encs fs)).
    rewrite (proj2 (Z.ltb_ge _ _)) by (rewrite !zlen_app; lia).
    rewrite (read_header (0 :: encs pre) (encs fs) fr) by (unfold zlen; simpl; lia).
    rewrite header_zlen, header_chain by done. rewrite <- enc_zlen.
    destruct (IH (pre ++ [fr]) fuel (if match idx !! Z.to_nat (fr_chain fr) with
        | Some ptr => negb (ptr =? 0) | None => false end
      then dead else dead + zlen (enc fr)) Hok ltac:(simpl in Hf; lia)) as [n Hn].
    exists n. rewrite <- Hn, !encs_app, encs_one, <- app_assoc. f_equal. rewrite zlen_app. lia.
Qed.

(** ** The index file *)

Lemma words_spec l :
  Forall (λ p, 0 ≤ p < u64_limit) l → words (length l) (concat (le_encode 8 <$> l)) = l.
Proof.
  induction 1 as [|p l Hp _ IH]; [done|]. rewrite fmap_cons. cbn [length words concat].
  rewrite take_app_length' by by rewrite le_encode_length.
  rewrite drop_app_length' by by rewrite le_encode_length. by rewrite IH, le8_roundtrip.
Qed.

Lemma words_length (l : list Z) : zlen (concat (le_encode 8 <$> l)) = 8 * zlen l.
Proof.
  induction l as [|p l IH]; [done|]. rewrite fmap_cons. cbn [concat]. rewrite zlen_app, IH, le8_zlen. unfold zlen. simpl. lia.
Qed.

Lemma index_words s g : depot_inv s g → Forall (λ p, 0 ≤ p < u64_limit) (index s).
Proof.
  intros [Hf Hi]. apply Forall_lookup. intros i p Hp. destruct (Hi (Z.of_nat i) ltac:(lia)) as [oc Hc].
  unfold ptr_of in Hc. rewrite Nat2Z.id, Hp in Hc. simpl in Hc. destruct oc as [c|]; simpl in Hc.
  - inversion Hc; subst. by apply addr_bound.
  - by subst.
Qed.

(** ** Which frames are alive *)

Lemma pack_unpack x : 0 ≤ x → pack (unpack x).1 (unpack x).2 = x.
Proof.
  intros Hx. unfold unpack. simpl. change 65535 with (Z.ones 16).
  rewrite Z.land_ones, Z.shiftr_div_pow2 by lia. change (2 ^ 16) with 65536.
  rewrite pack_add by (apply Z.mod_pos_bound; lia). pose proof (Z.div_mod x 65536). lia.
Qed.

Lemma unpack_eqb x fid off :
  0 ≤ x → addr fid off → ((unpack x).1 =? fid) && ((unpack x).2 =? off) = (x =? pack fid off).
Proof.
  intros Hx Ha. destruct (Z.eqb_spec x (pack fid off)) as [->|Hne].
  - rewrite unpack_addr by done. by rewrite !Z.eqb_refl.
  - apply andb_false_iff. destruct (Z.eqb_spec (unpack x).1 fid) as [E1|]; [right|by left].
    apply Z.eqb_neq. intros E2. apply Hne. by rewrite <- E1, <- E2, pack_unpack.
Qed.

(** A head is alive if its chain's index word points at it. *)
Definition is_head (s : DepotInner) (fid : Z) (fr : Frame) (off : Z) : bool :=
  ptr_of s (fr_chain fr) =? pack fid off.

(** An accumulator is alive if its chain's head points at it. *)
Definition head_next (s : DepotInner) (g : Ghost) (id : Z) : Z :=
  match lookup_frame (g0 g) (unpack (ptr_of s id)).1 (unpack (ptr_of s id)).2 with
  | Some fr => fr_next fr
  | None => 0
  end.
Definition is_accumulator (s : DepotInner) (g : Ghost) (fid : Z) (fr : Frame) (off : Z) : bool :=
  head_next s g (fr_chain fr) =? pack fid off.

Section alive.
Variables (s : DepotInner) (g : Ghost).
Hypothesis (Hd : depot_inv s g).

Lemma index_word id : 0 ≤ id < slots s → index s !! Z.to_nat id = Some (ptr_of s id) ∧ 0 ≤ ptr_of s id.
Proof.
  intros Hid. pose proof Hd as [Hf _].
  rewrite ptr_of_lookup by (rewrite <- (fi_slots _ _ Hf); lia). split; [done|].
  pose proof (index_words s g Hd) as Hw. rewrite Forall_lookup in Hw.
  apply (Hw (Z.to_nat id)). apply ptr_of_lookup. rewrite <- (fi_slots _ _ Hf). lia.
Qed.

Lemma alive_f0_ok fid o fr :
  lookup_frame (g0 g) fid o = Some fr →
  alive_f0 (index s) fid (fr_chain fr) o = Some (Ok (is_head s fid fr o)).
Proof.
  intros Hl. pose proof Hd as [Hf _]. pose proof (lookup_addr _ _ _ _ _ (fi_f0 _ _ Hf) Hl) as Ha.
  pose proof (lookup_ok _ _ _ _ _ (fi_f0 _ _ Hf) Hl) as [Hid _].
  pose proof (fi_ids0 _ _ Hf _ _ _ Hl) as Hs.
  destruct (index_word (fr_chain fr) ltac:(lia)) as [Hi Hp]. unfold alive_f0, is_head. rewrite Hi.
  rewrite (surjective_pairing (unpack _)), unpack_eqb by done.
  do 2 f_equal. destruct (Z.eqb_spec (ptr_of s (fr_chain fr)) 0) as [->|]; [|done].
  cbn [negb andb]. symmetry. apply Z.eqb_neq. intros E. by destruct (pack_addr_nonzero fid o Ha).
Qed.

Lemma alive_f1_ok t fid o fr :
  tier_rep t (g0 g) → lookup_frame (g1 g) fid o = Some fr →
  alive_f1 (index s) t fid (fr_chain fr) o = Some (Ok (is_accumulator s g fid fr o)).
Proof.
  intros Ht Hl. pose proof Hd as [Hf _]. pose proof (lookup_addr _ _ _ _ _ (fi_f1 _ _ Hf) Hl) as Ha.
  pose proof (lookup_ok _ _ _ _ _ (fi_f1 _ _ Hf) Hl) as [Hid _].
  pose proof (fi_ids1 _ _ Hf _ _ _ Hl) as Hs.
  destruct (index_word (fr_chain fr) ltac:(lia)) as [Hi Hp].
  unfold alive_f1, is_accumulator, head_next. rewrite Hi.
  pose proof (chain_is_of s g (fr_chain fr) Hd ltac:(lia)) as Hc.
  destruct (chain_of s (fr_chain fr)) as [c|]; simpl in Hc.
  - rewrite (proj2 (Z.eqb_neq _ _)) by eauto using chain_at_nonzero.
    inversion Hc as [p f0id f0off fr0 oc l Hp0 Ha0 Hl0 _ _]; subst.
    rewrite Hp0, unpack_addr by done. cbn [fst snd]. rewrite Hl0.
    destruct (tier_lookup _ _ _ _ _ Ht Hl0) as (df&pre&post&Hg&Hdata&Ho&Hok&_).
    rewrite Hg, Hdata, read_next_word by done. rewrite le8_roundtrip by apply Hok.
    rewrite (surjective_pairing (unpack _)), unpack_eqb; [done|apply Hok|done].
  - rewrite Hc. change (0 =? 0) with true. change (unpack 0) with (0, 0). cbn [fst snd].
    destruct (lookup_frame (g0 g) 0 0) as [x|] eqn:E.
    + apply (lookup_addr _ _ _ _ _ (fi_f0 _ _ Hf)) in E as [? _]. lia.
    + do 2 f_equal. symmetry. apply Z.eqb_neq. intros E'. by destruct (pack_addr_nonzero fid o Ha).
Qed.
End alive.

(** ** Reopening *)

Lemma cold_file_len s g : files_inv s g → zlen (cold_file s) = cold_len s.
Proof.
  intros Hf. rewrite (fi_cold _ _ Hf), (fi_cold_len _ _ Hf).
  destruct (cold_len s =? 0) eqn:E; [by rewrite Z.eqb_refl|].
  rewrite (proj2 (Z.eqb_neq _ _)); [unfold zlen; simpl; lia|].
  pose proof (zlen_nonneg (encs (gc g))). lia.
Qed.

Lemma rebuild_cold_ok s g : files_inv s g → ∃ n,
  rebuild_cold_dead (cold_file s) (zlen (cold_file s)) (index s) = Some (Ok n).
Proof.
  intros Hf. unfold rebuild_cold_dead. pose proof (fi_cold _ _ Hf) as Hc.
  destruct (cold_len s =? 0).
  - rewrite Hc. by exists 0.
  - destruct (cold_dead_loop_spec [] (gc g) (index s) (S (length (cold_file s))) 0 (fi_cold_ok _ _ Hf))
      as [n Hn].
    { rewrite Hc. simpl. pose proof (encs_length (gc g)). lia. }
    exists n. rewrite Hc in Hn |- *.
    replace (zlen (0 :: encs (gc g))) with (1 + zlen (encs (gc g))) by (unfold zlen; cbn [length]; lia).
    pose proof (zlen_nonneg (encs (gc g))).
    assert ((0 <? 1 + zlen (encs (gc g))) = true) as -> by (apply Z.ltb_lt; lia). exact Hn.
Qed.

(** What the counters of a reopened tier count, when they were rebuilt. *)
Definition counted (t : Tier) (m : frames) (al : Z → Frame → Z → bool) : Prop :=
  ∀ fid df, (fid, df) ∈ t_files t → ∃ fs, m !! fid = Some fs ∧ df_dead df = dead_sum (al fid) 0 fs.

Lemma open_counters_ok s g counters :
  depot_inv s g →
  ∃ t0 t1 n, open_counters (disk_of s counters) (index s) (tier_open (dk_f0 (disk_of s counters)))
      (tier_open (dk_f1 (disk_of s counters))) = Some (Ok (t0, t1, n)) ∧
    tier_rep t0 (g0 g) ∧ tier_rep t1 (g1 g) ∧
    (counters = None → counted t0 (g0 g) (is_head s) ∧ counted t1 (g1 g) (is_accumulator s g)).
Proof.
  intros Hd. pose proof Hd as [Hf _].
  destruct (tier_open_spec _ _ (fi_f0 _ _ Hf)) as (Hs0&Hr0&_).
  destruct (tier_open_spec _ _ (fi_f1 _ _ Hf)) as (Hs1&Hr1&_).
  unfold open_counters. cbn [disk_of dk_f0 dk_f1 dk_counters dk_cold].
  set (o0 := tier_open _) in *. set (o1 := tier_open ((_ : _ → _) <$> t_files (f1 s))) in *.
  assert (Ht0 : tier_rep o0 (g0 g)) by (eapply tier_rep_reopen; [apply Hf|done|done]).
  assert (Ht1 : tier_rep o1 (g1 g)) by (eapply tier_rep_reopen; [apply Hf|done|done]).
  destruct (load_counters counters o0 o1 (zlen (cold_file s))) as [[[a0 a1] n]|] eqn:El.
  - exists a0, a1, n. split; [done|]. unfold load_counters in El.
    destruct counters as [[|[]]|]; try done.
    destruct (read_lines _ _) as [[[[[??]|] r0] r1]|]; try done.
    destruct (negb _); [done|]. destruct (_ || _); [done|]. injection El as <- <- _.
    split_and!; [| |done];
      (eapply tier_rep_reopen; [done|apply adopt_spec|by apply adopt_spec]).
  - destruct (rebuild_dead_spec o0 (g0 g) (alive_f0 (index s)) (is_head s) Ht0 (alive_f0_ok s g Hd))
      as (t0&E0&Hsd0&Hro0&Hc0).
    unfold rebuild_dead_f0. rewrite E0.
    assert (Hrt0 : tier_rep t0 (g0 g)) by (eapply tier_rep_reopen; [done|done|by apply Hro0]).
    destruct (rebuild_dead_spec o1 (g1 g) (alive_f1 (index s) t0) (is_accumulator s g) Ht1
      (λ fid o fr, alive_f1_ok s g Hd t0 fid o fr Hrt0)) as (t1&E1&Hsd1&Hro1&Hc1).
    unfold rebuild_dead_f1. rewrite E1. destruct (rebuild_cold_ok s g Hf) as [n ->].
    exists t0, t1, n. split_and!; [done|done| |done].
    eapply tier_rep_reopen; [done|done|by apply Hro1].
Qed.

(** Opening the files of a depot gives a depot over the same frames. *)
Lemma depot_open_ok s g counters threshold :
  depot_inv s g →
  ∃ s', depot_open threshold (disk_of s counters) = Some (Ok s') ∧ files_inv s' g ∧
    index s' = index s ∧
    (counters = None → counted (f0 s') (g0 g) (is_head s) ∧
       counted (f1 s') (g1 g) (is_accumulator s g)).
Proof.
  intros Hd. pose proof Hd as [Hf _].
  destruct (open_counters_ok s g counters Hd) as (t0&t1&n&Ho&H0&H1&Hc).
  pose proof (fi_slots _ _ Hf) as Hs. pose proof (fi_slots_max _ _ Hf).
  unfold depot_open. cbn [disk_of dk_format dk_index default].
  rewrite bool_decide_eq_true_2 by by vm_compute. cbn [negb from_option]. unfold id.
  rewrite words_length, <- Hs. rewrite (proj2 (Z.eqb_neq _ 0)) by lia.
  rewrite (Z.mul_comm 8), Z_mod_mult, Z_div_mult by lia. cbn [negb Z.eqb andb].
  assert (Hw : words (Z.to_nat (slots s)) (concat (le_encode 8 <$> index s)) = index s).
  { rewrite Hs. unfold zlen. rewrite Nat2Z.id. by eapply words_spec, index_words. }
  rewrite Hw, Ho. eexists. split; [done|]. split_and!; [|done|done].
  cbn [disk_of dk_cold]. rewrite (cold_file_len s g Hf).
  destruct Hf. constructor; simpl; done.
Qed.

(** ** The sidecar round trip *)

(** What the sidecar records of a tier. *)
Definition recorded (files : btmap Z DataFile) : btmap Z (Z * Z) :=
  (λ kd : Z * DataFile, (kd.1, (df_len kd.2, df_dead kd.2))) <$> files.

Lemma recorded_keys files : (recorded files).*1 = files.*1.
Proof. unfold recorded. by rewrite <- list_fmap_compose. Qed.

Lemma recorded_get files fid :
  bt_get fid (recorded files) = (λ df, (df_len df, df_dead df)) <$> bt_get fid files.
Proof.
  induction files as [|[i df] files IH]; [done|]. unfold recorded in *. csimpl.
  by destruct (cmp fid i).
Qed.

(** Reading the lines of a tier back: the records come in key order. *)
Lemma read_lines_tier (mk : Z → Z → Z → CounterLine)
    (ins : btmap Z (Z * Z) → option (Z * Z) * btmap Z (Z * Z) * btmap Z (Z * Z)) files rest acc :
  (∀ id len dead lines m, read_lines (mk id len dead :: lines) (ins m)
     = read_lines lines (ins (bt_insert id (len, dead) m))) →
  bt_ok (acc ++ recorded files) = true →
  read_lines (((λ kd : Z * DataFile, mk kd.1 (df_len kd.2) (df_dead kd.2)) <$> files) ++ rest) (ins acc)
  = read_lines rest (ins (acc ++ recorded files)).
Proof.
  intros Hmk. revert acc. induction files as [|[i df] files IH]; intros acc Hok.
  - by rewrite app_nil_r.
  - rewrite fmap_cons, <- app_comm_cons, Hmk. unfold recorded in *. rewrite fmap_cons in *.
    cbn [fst snd] in *. rewrite cons_middle, app_assoc in Hok |- *.
    rewrite bt_insert_last; [by apply IH|].
    intros k v Hin. apply bt_ok_app in Hok as [Hok _]. apply bt_ok_app in Hok as (_&_&Hlt).
    eapply Hlt; [done|]. by apply list_elem_of_singleton.
Qed.

Lemma read_persisted s g :
  files_inv s g →
  read_lines (tail (persist_counters s)) (None, [], [])
  = Some (Some (cold_len s, cold_dead s), recorded (t_files (f0 s)), recorded (t_files (f1 s))).
Proof.
  intros Hf. cbn [persist_counters tail read_lines].
  assert (Hok0 : bt_ok (recorded (t_files (f0 s))) = true).
  { rewrite (bt_ok_keys _ (t_files (f0 s))) by apply recorded_keys. apply (fi_f0 _ _ Hf). }
  assert (Hok1 : bt_ok (recorded (t_files (f1 s))) = true).
  { rewrite (bt_ok_keys _ (t_files (f1 s))) by apply recorded_keys. apply (fi_f1 _ _ Hf). }
  rewrite (read_lines_tier CF0 (λ m, (Some (cold_len s, cold_dead s), m, []))); [|done|done].
  rewrite <- (app_nil_r (_ <$> t_files (f1 s))).
  by rewrite (read_lines_tier CF1 (λ m, (Some (cold_len s, cold_dead s), _, m))).
Qed.

(** The fence holds for the files the sidecar was written for, and adopting
    its counters restores the tier's files exactly. *)
Lemma fence_adopt t m :
  tier_rep t m →
  let t' := tier_open ((λ kd : Z * DataFile, (kd.1, df_data kd.2)) <$> t_files t) in
  fence t' (recorded (t_files t)) = true ∧ t_files (adopt t' (recorded (t_files t))) = t_files t.
Proof.
  intros Hr t'.
  assert (Hall : ∀ fid df, (fid, df) ∈ t_files t →
    bt_get fid (recorded (t_files t)) = Some (df_len df, df_dead df) ∧ zlen (df_data df) = df_len df).
  { intros fid df Hin. apply bt_elem_get in Hin; [|apply Hr]. rewrite recorded_get, Hin. split; [done|].
    pose proof (tr_files _ _ Hr fid) as Hf. rewrite Hin in Hf. destruct (m !! fid); [|done].
    destruct Hf as [(->&->&_) _]. done. }
  unfold t', fence, adopt, tier_open. cbn [t_files]. rewrite <- !list_fmap_compose.
  unfold compose. cbn [fst snd df_data df_len]. split.
  - apply andb_true_iff. split.
    + apply Nat.eqb_eq. unfold recorded. by rewrite !length_fmap.
    + apply forallb_forall. intros [fid df] Hin%list_elem_of_In.
      apply list_elem_of_fmap in Hin as ([i x]&[= -> ->]&Hin). simpl.
      destruct (Hall i x Hin) as [-> ->]. apply Z.eqb_refl.
  - rewrite <- (list_fmap_id (t_files t)) at 2. apply list_fmap_ext. intros i [fid df] Hi. simpl.
    apply list_elem_of_lookup_2 in Hi. destruct (Hall fid df Hi) as [-> ->]. by destruct df.
Qed.

Lemma load_persisted s g :
  files_inv s g →
  let dk := disk_of s (Some (persist_counters s)) in
  ∃ t0 t1, load_counters (dk_counters dk) (tier_open (dk_f0 dk)) (tier_open (dk_f1 dk)) (zlen (dk_cold dk))
    = Some (t0, t1, cold_dead s) ∧ t_files t0 = t_files (f0 s) ∧ t_files t1 = t_files (f1 s).
Proof.
  intros Hf. cbv zeta. cbn [disk_of dk_counters dk_f0 dk_f1 dk_cold]. rewrite (cold_file_len s g Hf).
  pose proof (read_persisted s g Hf) as Hread. unfold load_counters, persist_counters in *.
  cbn [tail] in Hread. rewrite Hread, Z.eqb_refl. cbn [negb].
  destruct (fence_adopt _ _ (fi_f0 _ _ Hf)) as [-> E0]. destruct (fence_adopt _ _ (fi_f1 _ _ Hf)) as [-> E1].
  cbn [negb orb]. by eauto.
Qed.
