(* ===== verification/WikiDepotLaws.v ===== *)
(** * Laws of the chain depot.

    The claims about [chupa/wikimak/depot/src/inner.rs]: the byte-level depot
    refines a map from chain ids to chains, whatever sequence of operations is
    run on it; compaction is invisible; and it keeps the laws its clients are
    proved against ([ChainStoreLaws]), so that a layer history written through
    the VBF variant reads back from the bytes of the files. *)

From stdpp Require Import gmap.
From S2P Require Import Prelude.
From S2P Require Import BTreeMap.
From S2P Require Import DepotModel.
From S2P Require Import DepotCompose.
From S2P Require Import DepotLaws.
From S2P Require Import DepotCodec.
From S2P Require Import ChainStore.
From S2P Require Import DepotVbf.
From S2P Require Import WikiDepot.
From S2P Require Import WikiDepotRep.
From S2P Require Import WikiDepotTier.
From S2P Require Import WikiDepotChain.
From S2P Require Import WikiDepotSteps.
From S2P Require Import WikiDepotOps.
From S2P Require Import WikiDepotEvict.
From S2P Require Import WikiDepotOpen.
Open Scope Z_scope.

(** ** Fresh and emptied depots *)

Lemma empty_depot_inv threshold n w0 w1 w :
  1 ≤ Z.of_nat n ≤ CHAIN_ID_CEILING →
  let s := MkInner threshold (replicate n 0) (Z.of_nat n) (MkTier [] None 1 w0) (MkTier [] None 1 w1)
             [] 0 0 w in
  depot_inv s (MkGhost ∅ ∅ []) ∧ ∀ id, 0 ≤ id → chain_of s id = None.
Proof.
  intros Hn s. assert (Hf : files_inv s (MkGhost ∅ ∅ [])).
  { constructor; simpl; try done.
    unfold zlen. by rewrite length_replicate. }
  assert (Hp : ∀ id, ptr_of s id = 0).
  { intros id. unfold ptr_of. simpl. destruct (replicate n 0 !! Z.to_nat id) eqn:E; [|done].
    by apply lookup_replicate in E as [-> _]. }
  split.
  - split; [done|]. intros id Hid. exists None. apply Hp.
  - intros id Hid. apply (chain_of_is s _ Hf id None Hid). apply Hp.
Qed.

Lemma fresh_inv threshold :
  depot_inv (depot_fresh threshold) (MkGhost ∅ ∅ []) ∧
  ∀ id, 0 ≤ id → chain_of (depot_fresh threshold) id = None.
Proof. apply (empty_depot_inv threshold 1 0 0 0). by vm_compute. Qed.

Lemma delete_all_spec s g :
  depot_inv s g →
  wp delete_all s (λ s' r, r = Ok tt ∧ valid s' ∧ ∀ id, 0 ≤ id → chain_of s' id = None).
Proof.
  intros [Hf _]. pose proof (fi_slots_max _ _ Hf) as Hs. apply wp_modify.
  destruct (empty_depot_inv (file_size_threshold s) (Z.to_nat (slots s)) (t_written (f0 s))
    (t_written (f1 s)) (misc_written s)) as [Hd Hc]; [lia|].
  rewrite Z2Nat.id in Hd, Hc by lia. split; [done|]. split; [by eexists|done].
Qed.

(** ** Sequences of operations *)

Inductive DepotOp : Type :=
| OPrepend (id : Z) (z0 : bytes) (z1 : option bytes) (seal : bool)
| OSealF1 (id : Z)
| OReplaceF0 (id : Z) (z0 : bytes)
| ODelete (id : Z)
| OBuild (id : Z) (history : list bytes) (z0 : bytes) (z1 : option bytes)
| ORebuild (id : Z) (history : list bytes) (z0 : bytes) (z1 : option bytes)
| OMaybeEvict
| OCollect
| OCollectF0
| ODeleteAll.

Definition op_chain (op : DepotOp) : option Z :=
  match op with
  | OPrepend id _ _ _ | OSealF1 id | OReplaceF0 id _ | ODelete id | OBuild id _ _ _
  | ORebuild id _ _ _ => Some id
  | OMaybeEvict | OCollect | OCollectF0 | ODeleteAll => None
  end.

(** Chain ids are unsigned. *)
Definition op_wf (op : DepotOp) : Prop := ∀ id, op_chain op = Some id → 0 ≤ id.

(** What the depot stands for. *)
Definition Chains : Type := Z → option Chain.
Definition chains_set (m : Chains) (id : Z) (oc : option Chain) : Chains :=
  λ j, if decide (j = id) then oc else m j.

(** What an operation does to one chain. *)
Definition chain_spec (op : DepotOp) (c : option Chain) : Result (option Chain) DepotError :=
  match op with
  | OPrepend _ z0 z1 seal => to_some (chain_prepend c z0 z1 seal)
  | OSealF1 _ => to_some (chain_seal c)
  | OReplaceF0 _ z0 => to_some (chain_replace_f0 c z0)
  | ODelete _ => Ok None
  | OBuild _ history z0 z1 =>
      match c with None => Ok (Some (MkChain z0 z1 (rev history))) | Some _ => Err ChainNotEmpty end
  | ORebuild _ history z0 z1 =>
      match c with None => Err NoFrame | Some _ => Ok (Some (MkChain z0 z1 (rev history))) end
  | OMaybeEvict | OCollect | OCollectF0 | ODeleteAll => Ok c
  end.

(** The abstract depot: an operation has its effect, or fails and has none. *)
Inductive op_step (op : DepotOp) (m : Chains) : Result unit DepotError → Chains → Prop :=
| step_chain id oc :
    op_chain op = Some id → chain_spec op (m id) = Ok oc → op_step op m (Ok tt) (chains_set m id oc)
| step_refused id e :
    op_chain op = Some id → chain_spec op (m id) = Err e → op_step op m (Err e) m
| step_range id :
    op_chain op = Some id → CHAIN_ID_CEILING ≤ id → op_step op m (Err ChainIdOutOfRange) m
| step_compact : op ∈ [OMaybeEvict; OCollect; OCollectF0] → op_step op m (Ok tt) m
| step_no_room e : no_room e → op_step op m (Err e) m
| step_delete_all : op = ODeleteAll → op_step op m (Ok tt) (λ _, None).

Inductive op_steps : list DepotOp → Chains → list (Result unit DepotError) → Chains → Prop :=
| steps_nil m : op_steps [] m [] m
| steps_cons op ops m r m' rs m'' :
    op_step op m r m' → op_steps ops m' rs m'' → op_steps (op :: ops) m (r :: rs) m''.

Section runs.
Variable over_ratio : Z → Z → bool.

Definition run_op (op : DepotOp) : DM unit :=
  match op with
  | OPrepend id z0 z1 seal => prepend id z0 z1 seal
  | OSealF1 id => seal_f1 id
  | OReplaceF0 id z0 => replace_f0 id z0
  | ODelete id => delete_chain id
  | OBuild id history z0 z1 => build_chain (depot_begin_chain id) history z0 z1
  | ORebuild id history z0 z1 => build_chain (depot_begin_replace_chain id) history z0 z1
  | OMaybeEvict => maybe_evict over_ratio
  | OCollect => collect over_ratio
  | OCollectF0 => collect_f0
  | ODeleteAll => delete_all
  end.

(** A session: every operation is run, whatever the one before returned. *)
Fixpoint run_ops (ops : list DepotOp) (s : DepotInner) :
    option (DepotInner * list (Result unit DepotError)) :=
  match ops with
  | [] => Some (s, [])
  | op :: ops =>
      '(s, r) ← run_op op s;
      '(s, rs) ← run_ops ops s;
      Some (s, r :: rs)
  end.

Hypothesis (Hratio : ∀ dead len, over_ratio dead len = true → 0 < dead).

Lemma evict_pass_spec s include_current :
  valid s →
  wp (λ s, evict_pass over_ratio (length (t_files (f0 s)) + length (t_files (f1 s))) include_current s) s
    (λ s' r, inert s s' ∧
      match r with
      | Ok _ => find_victim over_ratio (f0 s') include_current = None ∧
                find_victim over_ratio (f1 s') include_current = None
      | Err e => no_room e
      end).
Proof.
  intros Hv. destruct (dirty_bound (f0 s)) as (D0&H0&S0). destruct (dirty_bound (f1 s)) as (D1&H1&S1).
  apply (evict_pass_loop over_ratio include_current Hratio _ D0 D1); (done || lia).
Qed.

Lemma collect_f0_spec s :
  valid s →
  wp collect_f0 s (λ s' r, inert s s' ∧
    match r with Ok _ => ∀ fid, ¬ dirty (f0 s') fid | Err e => no_room e end).
Proof.
  intros Hv. destruct (dirty_bound (f0 s)) as (D0&H0&S0). by apply (collect_f0_ends _ D0).
Qed.

(** One operation, against the abstract depot. *)
Lemma chain_op_spec op id s g :
  depot_inv s g → op_chain op = Some id → 0 ≤ id →
  wp (run_op op) s (refines s id (chain_spec op (chain_of s id))).
Proof.
  intros Hd Hop Hid. destruct op; simplify_eq/=;
    eauto using prepend_spec, seal_f1_spec, replace_f0_spec, delete_chain_spec, build_chain_spec,
      rebuild_chain_spec.
Qed.

Lemma run_op_spec op s m :
  valid s → op_wf op → (∀ id, 0 ≤ id → chain_of s id = m id) →
  wp (run_op op) s (λ s' r, valid s' ∧
    ∃ m', op_step op m r m' ∧ ∀ id, 0 ≤ id → chain_of s' id = m' id).
Proof.
  intros [g Hd] Hwf Hm. destruct (op_chain op) as [id|] eqn:Hop.
  - pose proof (Hwf id Hop) as Hid.
    eapply wp_mono; [by apply (chain_op_spec op id s g)|]. intros s' [[]|e].
    + intros (oc&Hspec&Hv&Hc&Hj). split; [done|]. exists (chains_set m id oc).
      split; [eapply step_chain; [done|by rewrite <- Hm]|].
      intros j Hj0. unfold chains_set. case_decide as E; [by subst|]. rewrite Hj by done. by apply Hm.
    + intros [[Hv Hj] Hspec]. split; [done|]. exists m. split; [|intros; by rewrite Hj, Hm].
      destruct Hspec as [Hspec|[[-> Hr]|Hr]].
      * eapply step_refused; [done|by rewrite <- Hm].
      * by eapply step_range.
      * by apply step_no_room.
  - assert (Hcompact : op ∈ [OMaybeEvict; OCollect; OCollectF0] → ∀ s' r,
        inert s s' → match r with Ok _ => True | Err e => no_room e end → valid s' ∧
        ∃ m', op_step op m r m' ∧ ∀ id, 0 ≤ id → chain_of s' id = m' id).
    { intros Hin s' [[]|e] [Hv Hj] Hr; (split; [done|]); exists m;
        (split; [|intros; by rewrite Hj, Hm]); [by apply step_compact|by apply step_no_room]. }
    assert (Hv : valid s) by by exists g.
    destruct op; try done; simpl.
    + eapply wp_mono; [by apply evict_pass_spec|]. intros s' r [??]. apply Hcompact; [set_solver|done|].
      by destruct r.
    + eapply wp_mono; [by apply evict_pass_spec|]. intros s' r [??]. apply Hcompact; [set_solver|done|].
      by destruct r.
    + eapply wp_mono; [by apply collect_f0_spec|]. intros s' r [??]. apply Hcompact; [set_solver|done|].
      by destruct r.
    + eapply wp_mono; [by eapply delete_all_spec|]. intros s' r (->&?&?). split; [done|].
      eexists. split; [by apply step_delete_all|done].
Qed.

Lemma run_ops_spec ops s m :
  valid s → Forall op_wf ops → (∀ id, 0 ≤ id → chain_of s id = m id) →
  ∃ s' rs m', run_ops ops s = Some (s', rs) ∧ op_steps ops m rs m' ∧ valid s' ∧
    ∀ id, 0 ≤ id → chain_of s' id = m' id.
Proof.
  revert s m. induction ops as [|op ops IH]; intros s m Hv Hwf Hm.
  { exists s, [], m. split_and!; [done|constructor|done|done]. }
  apply Forall_cons in Hwf as [Hop Hwf].
  destruct (run_op_spec op s m Hv Hop Hm) as (s1&r&Hrun&Hv1&m1&Hstep&Hm1).
  destruct (IH s1 m1 Hv1 Hwf Hm1) as (s2&rs&m2&Hruns&Hsteps&Hv2&Hm2).
  exists s2, (r :: rs), m2. split_and!; [|by econstructor|done|done].
  simpl. rewrite Hrun. simpl. by rewrite Hruns.
Qed.
End runs.

(** ** The depot as its clients see it *)

(** The operations of [Depot], on a depot that never panics ([wiki_laws]). *)
Definition run_dm (m : DM unit) (s : DepotInner) : DepotInner * Result unit DepotError :=
  default (s, Err Corrupt) (m s).

#[export] Instance wiki_store : ChainStore DepotInner := {
  d_read_f0 := inner_read_f0;
  d_read_f1 := inner_read_f1;
  d_cold s id :=
    match cold_head s id with
    | Err e => Err e
    | Ok ptr => Ok (default [Err Corrupt] (cold_walk (S (length (cold_file s))) s ptr))
    end;
  d_prepend s id z0 z1 seal := run_dm (prepend id z0 z1 seal) s;
  d_delete_chain s id := run_dm (delete_chain id) s
}.

(** The chain under an id; ids are unsigned. *)
Definition chain_in (s : DepotInner) (id : Z) : option Chain :=
  if decide (0 ≤ id) then chain_of s id else None.
Definition chain_id_ok (id : Z) : Prop := 0 ≤ id < CHAIN_ID_CEILING.

#[local] Arguments cold_walk : simpl never.

(** What every reader sees of a chain. *)
Lemma reads_spec s g id :
  depot_inv s g → chain_id_ok id →
  match chain_of s id with
  | None => inner_read_f0 s id = Err NoFrame ∧ inner_read_f1 s id = Err NoFrame ∧ cold_head s id = Ok 0
  | Some c => inner_read_f0 s id = Ok (c_f0 c) ∧ inner_read_f1 s id = Ok (c_f1 c) ∧
      ∃ ptr, cold_head s id = Ok ptr ∧
        cold_walk (S (length (cold_file s))) s ptr = Some (Ok <$> c_cold c)
  end.
Proof.
  intros Hd Hid. pose proof Hd as [Hf _]. pose proof (chain_is_of s g id Hd (proj1 Hid)) as Hc.
  destruct (chain_of s id) as [c|]; simpl in Hc.
  - inversion Hc as [p fid off fr o l Hp Ha Hfr Hcid Ht]; subst. cbn [c_f0 c_f1 c_cold]. split_and!.
    + by apply (read_f0_at s g Hf _ fr fid off).
    + by apply (read_f1_at s g Hf _ fr fid off Hid Hp Ha Hfr o l).
    + destruct (cold_head_at s g Hf _ fr fid off Hid Hp Ha Hfr o l Ht) as (ptr&Hhead&Hcold).
      exists ptr. split; [done|]. apply (cold_walk_ok s g Hf ptr l); [done|by eapply cold_at_fuel].
  - unfold inner_read_f0, inner_read_f1, cold_head. by rewrite (slot_ptr_ok s g Hf id Hid), Hc.
Qed.

Lemma run_dm_ok m s s' : run_dm m s = (s', Ok tt) → m s = Some (s', Ok tt).
Proof. unfold run_dm. destruct (m s) as [x|]; simpl; [by intros ->|done]. Qed.

Lemma wp_inv {A} (m : DM A) s s' r Q : wp m s Q → m s = Some (s', r) → Q s' r.
Proof. intros (s1&r1&E&HQ) E'. rewrite E in E'. by injection E' as -> ->. Qed.

Lemma chain_in_of s id : chain_id_ok id → chain_in s id = chain_of s id.
Proof. intros [??]. unfold chain_in. by rewrite decide_True. Qed.

Lemma chain_in_effect s s' id oc j :
  effect s s' id oc → j ≠ id → chain_in s' j = chain_in s j.
Proof. intros (_&_&Hj) Hne. unfold chain_in. case_decide; [by apply Hj|done]. Qed.

#[export] Instance wiki_laws : ChainStoreLaws DepotInner valid chain_in chain_id_ok.
Proof.
  constructor; simpl.
  - intros s id [g Hd] Hid. rewrite chain_in_of by done. pose proof (reads_spec s g id Hd Hid) as Hr.
    destruct (chain_of s id); apply Hr.
  - intros s id [g Hd] Hid. rewrite chain_in_of by done. pose proof (reads_spec s g id Hd Hid) as Hr.
    destruct (chain_of s id); apply Hr.
  - intros s id [g Hd] Hid. rewrite chain_in_of by done. pose proof (reads_spec s g id Hd Hid) as Hr.
    destruct (chain_of s id).
    + destruct Hr as (_&_&ptr&->&->). done.
    + destruct Hr as (_&_&->). done.
  - intros s id z0 z1 seal s' [g Hd] Hid Hrun%run_dm_ok. rewrite chain_in_of by done.
    pose proof (wp_inv _ _ _ _ _ (prepend_spec s g id z0 z1 seal Hd (proj1 Hid)) Hrun) as Hr.
    destruct Hr as (oc&Hspec&He). unfold to_some in Hspec.
    destruct (chain_prepend _ _ _ _) as [c|e]; [|done]. injection Hspec as <-.
    split; [apply He|]. exists c. rewrite chain_in_of by done.
    split_and!; [done|apply He|]. intros j Hj. by eapply chain_in_effect.
  - intros s id s' [g Hd] Hid Hrun%run_dm_ok.
    pose proof (wp_inv _ _ _ _ _ (delete_chain_spec s g id Hd (proj1 Hid)) Hrun) as Hr.
    destruct Hr as (oc&[= <-]&He). rewrite chain_in_of by done.
    split_and!; [apply He|apply He|]. intros j Hj. by eapply chain_in_effect.
Qed.

(** ** A depot to try things on *)

(** More than half of a file dead is too much. *)
Definition over_half (dead len : Z) : bool := (0 <? dead) && (len <? 2 * dead).
Lemma over_half_pos dead len : over_half dead len = true → 0 < dead.
Proof. unfold over_half. intros [?%Z.ltb_lt _]%andb_true_iff. done. Qed.

Definition session : list DepotOp :=
  [OPrepend 0 [1; 1] None false; OPrepend 3 [9] None false;
   OPrepend 0 [2; 2; 2] (Some [1; 1]) false; OPrepend 0 [3] (Some [2; 2; 2]) true;
   OMaybeEvict; OSealF1 0; OPrepend 3 [8] (Some [9]) true;
   OBuild 2 [[10]; [20]; [30]] [40] None; OCollect; ORebuild 0 [[7]] [6] (Some [5]);
   ODelete 3; OReplaceF0 2 [41]; OCollectF0; OPrepend CHAIN_ID_CEILING [0] None false].

(** ** Claims *)

(** C2. A depot behaves as a map from chain ids to chains.  Whatever
    operations are run on a fresh depot, prepends, seals, head replacements,
    deletions, bulk builds, compactions, in any order and after any errors:
    none panics or fails to return, each either has exactly the effect its
    contract states on its own chain or fails and changes no chain, and it
    fails only as the contract says, for an id at or beyond the ceiling, or
    for want of room; afterwards reading the depot gives the map. *)
Theorem depot_refines_chains over_ratio threshold ops :
  (∀ dead len, over_ratio dead len = true → 0 < dead) → Forall op_wf ops →
  ∃ s rs m, run_ops over_ratio ops (depot_fresh threshold) = Some (s, rs) ∧
    op_steps ops (λ _, None) rs m ∧ valid s ∧ ∀ id, 0 ≤ id → chain_of s id = m id.
Proof.
  intros Hratio Hops. destruct (fresh_inv threshold) as [Hd Hc].
  apply run_ops_spec; [done|by eexists|done|]. intros. by apply Hc.
Qed.

Lemma depot_refines_chains_witness :
  (∃ s rs m, run_ops over_half session (depot_fresh 60) = Some (s, rs) ∧
    op_steps session (λ _, None) rs m ∧ valid s ∧ ∀ id, 0 ≤ id → chain_of s id = m id)
  ∧ match run_ops over_half session (depot_fresh 60) with
    | Some (s, rs) =>
        (chain_of s 0, chain_of s 2, chain_of s 3, rs) =
        (Some (MkChain [6] (Some [5]) [[7]]), Some (MkChain [41] None [[30]; [20]; [10]]), None,
         replicate 6 (Ok tt) ++ [Err CannotSealNoF1] ++ replicate 6 (Ok tt) ++ [Err ChainIdOutOfRange])
    | None => False
    end.
Proof.
  split.
  - apply (depot_refines_chains over_half 60 session).
    + apply over_half_pos.
    + repeat (apply Forall_cons; split; [intros id Hid; simpl in Hid; simplify_eq; by vm_compute|]).
      apply Forall_nil_2.
  - vm_compute. reflexivity.
Defined.

(** A prepend, on every branch.  On a depot in any state its operations
    can reach, it does not panic; if it succeeds, reading the chain gives the
    head and accumulator it was passed, over the cold frames the chain had,
    with the old accumulator in front of them if it was sealed, and every other
    chain reads as before; if it fails, every chain reads as before and the
    error is the one the contract names, or the id is at or beyond the
    ceiling, or a file has no room. *)
Theorem prepend_refines s id z0 z1 seal :
  valid s → 0 ≤ id →
  ∃ s' r, prepend id z0 z1 seal s = Some (s', r) ∧ valid s' ∧
    match r with
    | Ok _ => ∃ c, chain_prepend (chain_of s id) z0 z1 seal = Ok c ∧ chain_of s' id = Some c ∧
        ∀ j, 0 ≤ j → j ≠ id → chain_of s' j = chain_of s j
    | Err e => (∀ j, 0 ≤ j → chain_of s' j = chain_of s j) ∧
        (chain_prepend (chain_of s id) z0 z1 seal = Err e
         ∨ (e = ChainIdOutOfRange ∧ CHAIN_ID_CEILING ≤ id)
         ∨ e = Corrupt ∨ e = FrameTooLarge)
    end.
Proof.
  intros [g Hd] Hid. destruct (prepend_spec s g id z0 z1 seal Hd Hid) as (s'&r&Hrun&Hr).
  exists s', r. split; [done|]. destruct r as [[]|e].
  - destruct Hr as (oc&Hspec&Hv&Hc&Hj). unfold to_some in Hspec.
    destruct (chain_prepend _ _ _ _) as [c|]; [|done]. injection Hspec as <-. by eauto.
  - destruct Hr as [[Hv Hj] Hspec]. split; [done|]. split; [done|]. unfold to_some in Hspec.
    destruct (chain_prepend _ _ _ _); [|by naive_solver]. right. by destruct Hspec.
Qed.

(** Two prepends, the second with an accumulator. *)
Definition two_prepends : DepotInner :=
  match run_ops over_half [OPrepend 1 [1] None false; OPrepend 1 [2] (Some [1]) false] (depot_fresh 60) with
  | Some (s, _) => s
  | None => depot_fresh 60
  end.
Lemma two_prepends_valid : valid two_prepends.
Proof.
  destruct (fresh_inv 60) as [Hd Hc].
  destruct (run_ops_spec over_half over_half_pos
    [OPrepend 1 [1] None false; OPrepend 1 [2] (Some [1]) false] (depot_fresh 60) (λ _, None))
    as (s&rs&m&Hrun&_&Hv&_); [by eexists| |done|].
  - repeat (apply Forall_cons; split; [intros id Hid; simpl in Hid; simplify_eq; by vm_compute|]).
    apply Forall_nil_2.
  - unfold two_prepends. by rewrite Hrun.
Qed.

Lemma prepend_refines_witness :
  (∃ s' r, prepend 1 [3] (Some [2]) true two_prepends = Some (s', r) ∧ valid s' ∧
    match r with
    | Ok _ => ∃ c, chain_prepend (chain_of two_prepends 1) [3] (Some [2]) true = Ok c ∧
        chain_of s' 1 = Some c ∧ ∀ j, 0 ≤ j → j ≠ 1 → chain_of s' j = chain_of two_prepends j
    | Err e => (∀ j, 0 ≤ j → chain_of s' j = chain_of two_prepends j) ∧
        (chain_prepend (chain_of two_prepends 1) [3] (Some [2]) true = Err e
         ∨ (e = ChainIdOutOfRange ∧ CHAIN_ID_CEILING ≤ 1) ∨ e = Corrupt ∨ e = FrameTooLarge)
    end)
  ∧ chain_prepend (chain_of two_prepends 1) [3] (Some [2]) true = Ok (MkChain [3] (Some [2]) [[1]]).
Proof.
  split; [|vm_compute; reflexivity].
  apply (prepend_refines two_prepends 1 [3] (Some [2]) true); [apply two_prepends_valid|lia].
Defined.

(** C37. Compaction is invisible and ends.  [maybe_evict] and [collect] return
    after at most as many rounds as there are files, whatever the ratio, as
    long as a file without dead bytes is never over it; every chain reads as
    before; and unless a file could not be written, no candidate over the
    ratio is left in either tier. *)
Theorem compaction_invisible over_ratio s (session_end : bool) :
  (∀ dead len, over_ratio dead len = true → 0 < dead) → valid s →
  ∃ s' r, (if session_end then collect over_ratio s else maybe_evict over_ratio s) = Some (s', r) ∧
    valid s' ∧ (∀ j, 0 ≤ j → chain_of s' j = chain_of s j) ∧
    match r with
    | Ok _ => find_victim over_ratio (f0 s') session_end = None ∧
              find_victim over_ratio (f1 s') session_end = None
    | Err e => e = Corrupt ∨ e = FrameTooLarge
    end.
Proof.
  intros Hratio Hv.
  destruct (evict_pass_spec over_ratio Hratio s session_end Hv) as (s'&r&Hrun&[Hv' Hj]&Hr).
  exists s', r. by destruct session_end.
Qed.

Lemma compaction_invisible_witness :
  (∃ s' r, collect over_half two_prepends = Some (s', r) ∧ valid s' ∧
    (∀ j, 0 ≤ j → chain_of s' j = chain_of two_prepends j) ∧
    match r with
    | Ok _ => find_victim over_half (f0 s') true = None ∧ find_victim over_half (f1 s') true = None
    | Err e => e = Corrupt ∨ e = FrameTooLarge
    end)
  ∧ match collect over_half two_prepends with
    | Some (s', r) => (r, length (t_files (f0 s')), chain_of s' 1)
                      = (Ok tt, 1%nat, Some (MkChain [2] (Some [1]) []))
    | None => False
    end.
Proof.
  split; [|vm_compute; reflexivity].
  apply (compaction_invisible over_half two_prepends true); [apply over_half_pos|apply two_prepends_valid].
Defined.

(** A replacement build commits at one index flip or not at all.  Built
    from its history (oldest first) and its head, it replaces the whole chain
    or, for want of room or of a chain to replace, leaves every chain as it
    was; and a builder whose chain has a new head since it began is refused
    without touching the depot. *)
Theorem replacement_commits_or_not s id frames z0 z1 :
  valid s → 0 ≤ id < CHAIN_ID_CEILING →
  (∃ s' r, build_chain (depot_begin_replace_chain id) frames z0 z1 s = Some (s', r) ∧ valid s' ∧
    (∀ j, 0 ≤ j → j ≠ id → chain_of s' j = chain_of s j) ∧
    match r with
    | Ok _ => chain_of s id ≠ None ∧ chain_of s' id = Some (MkChain z0 z1 (rev frames))
    | Err e => chain_of s' id = chain_of s id ∧
        ((e = NoFrame ∧ chain_of s id = None) ∨ e = Corrupt ∨ e = FrameTooLarge)
    end)
  ∧ ∀ head n old, chain_of s id ≠ None → old ≠ ptr_of s id →
      depot_finish_chain (MkBuilder id head n (Some old)) z0 z1 s = Some (s, Err StaleBuilder).
Proof.
  intros [g Hd] Hid. split.
  - destruct (rebuild_chain_spec s g id frames z0 z1 Hd (proj1 Hid)) as (s'&r&Hrun&Hr).
    exists s', r. split; [done|]. destruct r as [[]|e].
    + destruct Hr as (oc&Hspec&Hv&Hch&Hj). split; [done|]. split; [done|].
      destruct (chain_of s id); [|done]. by injection Hspec as <-.
    + destruct Hr as [[Hv Hj] Hspec]. split_and!; [done|by intros; apply Hj|apply Hj; lia|].
      destruct Hspec as [Hspec|[[_ ?]|Hspec]]; [|lia|by right].
      destruct (chain_of s id); [done|]. injection Hspec as <-. by left.
  - intros head n old Hc Hp. pose proof (chain_is_of s g id Hd (proj1 Hid)) as Hch.
    destruct (chain_of s id) as [c|]; [|done]. destruct Hd as [Hf _].
    unfold depot_finish_chain, finish_replace_chain, mbind, dm_bind, dm_read. simpl.
    rewrite (slot_ptr_ok s g Hf id Hid), (proj2 (Z.eqb_neq _ _)) by eauto using chain_at_nonzero.
    by rewrite (proj2 (Z.eqb_neq _ _)) by congruence.
Qed.

Lemma replacement_commits_or_not_witness :
  (∃ s' r, build_chain (depot_begin_replace_chain 1) [[7]; [8]] [9] None two_prepends = Some (s', r) ∧
    valid s' ∧ (∀ j, 0 ≤ j → j ≠ 1 → chain_of s' j = chain_of two_prepends j) ∧
    match r with
    | Ok _ => chain_of two_prepends 1 ≠ None ∧ chain_of s' 1 = Some (MkChain [9] None (rev [[7]; [8]]))
    | Err e => chain_of s' 1 = chain_of two_prepends 1 ∧
        ((e = NoFrame ∧ chain_of two_prepends 1 = None) ∨ e = Corrupt ∨ e = FrameTooLarge)
    end)
  ∧ depot_finish_chain (MkBuilder 1 0 0 (Some 1)) [9] None two_prepends
    = Some (two_prepends, Err StaleBuilder).
Proof.
  destruct (replacement_commits_or_not two_prepends 1 [[7]; [8]] [9] None) as [H1 H2].
  - apply two_prepends_valid.
  - by vm_compute.
  - split; [exact H1|]. apply H2; vm_compute; discriminate.
Defined.

(** Reading never fails on a depot its own operations wrote: an id below
    the ceiling has no frames, and says so, or has a head, an accumulator or
    none, and cold frames that a walk of the cold file yields in order, newest
    first, ending within the file. *)
Theorem reads_never_fail s id :
  valid s → 0 ≤ id < CHAIN_ID_CEILING →
  match chain_of s id with
  | None => inner_read_f0 s id = Err NoFrame ∧ inner_read_f1 s id = Err NoFrame ∧
      cold_head s id = Ok 0 ∧ has_chain s id = Ok false
  | Some c => inner_read_f0 s id = Ok (c_f0 c) ∧ inner_read_f1 s id = Ok (c_f1 c) ∧
      has_chain s id = Ok true ∧
      ∃ ptr, cold_head s id = Ok ptr ∧
        cold_walk (S (length (cold_file s))) s ptr = Some (Ok <$> c_cold c)
  end.
Proof.
  intros [g Hd] Hid. pose proof (reads_spec s g id Hd Hid) as Hr.
  pose proof (chain_is_of s g id Hd (proj1 Hid)) as Hc. destruct Hd as [Hf _].
  unfold has_chain. rewrite (slot_ptr_ok s g Hf id Hid).
  destruct (chain_of s id) as [c|]; simpl in Hc.
  - rewrite (proj2 (Z.eqb_neq _ _)) by eauto using chain_at_nonzero. naive_solver.
  - rewrite Hc. naive_solver.
Qed.

Lemma reads_never_fail_witness :
  inner_read_f0 two_prepends 1 = Ok [2] ∧ inner_read_f1 two_prepends 1 = Ok (Some [1]).
Proof.
  assert (Hid : 0 ≤ 1 < CHAIN_ID_CEILING) by (by vm_compute).
  pose proof (reads_never_fail two_prepends 1 two_prepends_valid Hid) as Hr.
  assert (Hc : chain_of two_prepends 1 = Some (MkChain [2] (Some [1]) [])) by (vm_compute; reflexivity).
  rewrite Hc in Hr. destruct Hr as (H0&H1&_). exact (conj H0 H1).
Defined.

(** Pointer words: a file id of 16 bits and an offset of 48 fit a 64-bit
    word and come back from it, no address of a data file is the empty-chain
    word or looks like a cold pointer, and every cold offset but zero does. *)
Theorem pointer_words fid off :
  0 ≤ fid ≤ MAX_FILE_ID → 0 ≤ off ≤ MAX_OFFSET →
  0 ≤ pack fid off < u64_limit ∧ unpack (pack fid off) = (fid, off)
  ∧ (pack fid off = 0 ↔ fid = COLD_FILE_ID ∧ off = 0)
  ∧ is_cold_ptr (pack fid off) = bool_decide (fid = COLD_FILE_ID ∧ off ≠ 0).
Proof.
  intros Hf Ho. unfold MAX_FILE_ID, COLD_FILE_ID in *.
  assert (Hz : pack fid off = 0 ↔ fid = 0 ∧ off = 0) by (rewrite pack_add by lia; lia).
  split_and!; [apply pack_bound; lia|apply pack_bound; lia|by apply unpack_pack; lia|tauto|].
  destruct (decide (fid = 0)) as [->|Hne].
  - destruct (decide (off = 0)) as [->|]; [by vm_compute|].
    change 0 with COLD_FILE_ID at 1. rewrite (is_cold_pack off) by lia. by rewrite bool_decide_eq_true_2.
  - rewrite is_cold_addr by (unfold addr, MAX_FILE_ID; lia).
    by rewrite bool_decide_eq_false_2 by tauto.
Qed.

Lemma pointer_words_witness : unpack (pack 65535 281474976710655) = (65535, 281474976710655).
Proof.
  apply (pointer_words 65535 281474976710655); by vm_compute.
Defined.

(** C23. Layers on disk.  A batch of layers put on a chain of a fresh depot
    through the VBF variant, frames compressed and anchored, accumulators
    sealed, files rolled, is read back from the bytes of the files: newest
    first, each layer as it was up to canonical attributes; the other chains
    stay empty. *)
Theorem layers_survive_on_disk
    (compress_frame decompress_frame : bytes → option bytes → Result bytes Z)
    file_threshold seal_threshold vd id ls :
  (∀ raw prefix frame, compress_frame raw prefix = Ok frame →
     decompress_frame frame prefix = Ok raw) →
  0 ≤ id < CHAIN_ID_CEILING → forallb recordable_layer ls = true →
  put_layers compress_frame decompress_frame (MkVbf (depot_fresh file_threshold) seal_threshold) id ls
    = Some (vd, Ok tt) →
  layers_newest_first decompress_frame vd id = Ok (canon_layer <$> rev ls)
  ∧ ∀ j, 0 ≤ j < CHAIN_ID_CEILING → j ≠ id → layers_newest_first decompress_frame vd j = Ok [].
Proof.
  intros Hrt Hid Hls Hput. destruct (fresh_inv file_threshold) as [Hd Hc].
  assert (Hempty : ∀ j, chain_id_ok j → vbf_holds (valid := valid) (chain_of := chain_in)
    (in_range := chain_id_ok) decompress_frame (MkVbf (depot_fresh file_threshold) seal_threshold) j []).
  { intros j Hj. split_and!; [by eexists|done|done|]. simpl. rewrite chain_in_of by done.
    by rewrite Hc by apply Hj. }
  destruct (vbf_put compress_frame decompress_frame Hrt _ vd id [] ls (Hempty id Hid) Hls Hput)
    as (Hh&_&Ho). split.
  - rewrite app_nil_r in Hh. by eapply vbf_read.
  - intros j Hj Hne. by apply (vbf_read _ vd j []), Ho, Hempty.
Qed.

Lemma layers_survive_on_disk_witness :
  ∃ vd, put_layers plain_compress plain_decompress (MkVbf (depot_fresh 100) 8) 5 three_layers
        = Some (vd, Ok tt)
  ∧ layers_newest_first plain_decompress vd 5
    = Ok [Sample.remove_df; Sample.write_df; Sample.mkdir_d].
Proof.
  eexists. split; [vm_compute; reflexivity|].
  refine (proj1 (layers_survive_on_disk plain_compress plain_decompress 100 8 _ 5 three_layers _ _ _ _)).
  - by intros raw prefix frame [= <-].
  - by vm_compute.
  - reflexivity.
  - vm_compute. reflexivity.
Defined.

(** C38. Closing and opening a depot loses nothing: from the files of a depot,
    with whatever is in the counters sidecar beside them, torn, stale or
    missing, [open] returns a depot in which every chain reads as before. *)
Theorem reopen_keeps_chains s counters threshold :
  valid s →
  ∃ s', depot_open threshold (disk_of s counters) = Some (Ok s') ∧ valid s' ∧
    ∀ id, 0 ≤ id → chain_of s' id = chain_of s id.
Proof.
  intros [g Hd]. destruct (depot_open_ok s g counters threshold Hd) as (s'&Ho&Hf&Hi&_).
  destruct (unchanged s g s' g Hd Hf) as [_ [Hv Hc]]; [|reflexivity|by eauto].
  intros j _. unfold ptr_of. by rewrite Hi.
Qed.

Lemma reopen_keeps_chains_witness :
  (∃ s', depot_open 60 (disk_of two_prepends (Some [CMagic; CCold 7 7])) = Some (Ok s') ∧ valid s' ∧
    ∀ id, 0 ≤ id → chain_of s' id = chain_of two_prepends id)
  ∧ match depot_open 60 (disk_of two_prepends (Some [CMagic; CCold 7 7])) with
    | Some (Ok s') => chain_of s' 1 = Some (MkChain [2] (Some [1]) [])
    | _ => False
    end.
Proof.
  split; [|vm_compute; reflexivity].
  apply (reopen_keeps_chains two_prepends (Some [CMagic; CCold 7 7]) 60). apply two_prepends_valid.
Defined.

(** The dead-byte counters.  Opened with the sidecar it persisted, a depot
    has exactly the files and counters it had; opened without one, it counts
    from the frame headers alone, per file, the bytes of the frames that are
    not the live head of their chain (f0) or the accumulator their chain's
    head points at (f1). *)
Theorem counters_restored s g threshold :
  depot_inv s g →
  (∃ s', depot_open threshold (disk_of s (Some (persist_counters s))) = Some (Ok s') ∧
     t_files (f0 s') = t_files (f0 s) ∧ t_files (f1 s') = t_files (f1 s) ∧ cold_dead s' = cold_dead s)
  ∧ ∃ s', depot_open threshold (disk_of s None) = Some (Ok s') ∧
     counted (f0 s') (g0 g) (is_head s) ∧ counted (f1 s') (g1 g) (is_accumulator s g).
Proof.
  intros Hd. split.
  - destruct (depot_open_ok s g (Some (persist_counters s)) threshold Hd) as (s'&Ho&_).
    exists s'. split; [done|]. destruct (load_persisted s g (proj1 Hd)) as (t0&t1&El&E0&E1).
    unfold depot_open, open_counters in Ho. rewrite El in Ho.
    destruct (negb _); [done|]. destruct (_ && _); [done|]. destruct (if _ =? 0 then _ else _).
    injection Ho as <-. done.
  - destruct (depot_open_ok s g None threshold Hd) as (s'&Ho&_&_&Hc). exists s'. split; [done|]. by apply Hc.
Qed.

Lemma counters_restored_witness :
  ∃ g, (∃ s', depot_open 60 (disk_of two_prepends (Some (persist_counters two_prepends))) = Some (Ok s') ∧
     t_files (f0 s') = t_files (f0 two_prepends) ∧ t_files (f1 s') = t_files (f1 two_prepends) ∧
     cold_dead s' = cold_dead two_prepends)
  ∧ ∃ s', depot_open 60 (disk_of two_prepends None) = Some (Ok s') ∧
     counted (f0 s') (g0 g) (is_head two_prepends) ∧
     counted (f1 s') (g1 g) (is_accumulator two_prepends g).
Proof.
  destruct two_prepends_valid as [g Hd]. exists g. exact (counters_restored two_prepends g 60 Hd).
Defined.

(** An index that lost its growth: a frame of a chain beyond it makes the
    rebuild, and with it [open], panic. *)
Lemma lost_growth_panics :
  depot_open 60 (MkDisk (Some (FORMAT_VERSION ++ [10])) (Some (le_encode 8 0))
    [(1, encode_frame 1 0 [7])] [] [] None) = None.
Proof. vm_compute. reflexivity. Qed.
