(* ===== verification/WireAtoms.v ===== *)
(** * Wire atoms.

    Models the atom layer of [engine/src/wire.rs]: [DecodeError], the length
    prefix, [put_atom], [put_u64], [put_i64], [put_many], [get_atom], [get_u64],
    [get_i64].  A payload of one byte below [0xc0] is its own atom, up to 55
    bytes take a one-byte length, longer ones a little-endian length.  Inputs
    are passed as values: an error leaves the caller's input as it was. *)

From S2P Require Import Prelude.
Open Scope Z_scope.
Open Scope sarun_scope.

(** [enum DecodeError] *)
Inductive DecodeError : Type :=
| Truncated
| LengthOverflow
| TooLarge
| IntegerTooWide
| IntegerOutOfRange
| InvalidValue
| InvalidUtf8
| TrailingFields
| TooFewItems
| TooManyItems.

#[export] Instance DecodeError_eq_dec : EqDecision DecodeError.
Proof. solve_decision. Defined.

Definition usize_max : Z := u64_limit - 1.

(** [usize::checked_add] followed by [ok_or(LengthOverflow)]. *)
Definition checked_add (a b : Z) : Result Z DecodeError :=
  if a + b <=? usize_max then Ok (a + b) else Err LengthOverflow.

(** [length_bytes]; a [usize] is used up after eight rounds. *)
Fixpoint length_bytes_loop (rounds : nat) (length bytes : Z) : Z :=
  match rounds with
  | O => bytes
  | S rounds =>
      if length =? 0 then bytes
      else length_bytes_loop rounds (Z.shiftr length 8) (bytes + 1)
  end.
Definition length_bytes (length : Z) : Z := length_bytes_loop 8 length 0.

(** A payload that is written as itself. *)
Definition self_byte (payload : bytes) : bool :=
  match payload with [b] => b <? 192 | _ => false end.

(** [encoded_len] *)
Definition encoded_len (payload : bytes) : Result Z DecodeError :=
  let length := zlen payload in
  if self_byte payload then Ok 1
  else if length <=? 55 then Ok (1 + length)
  else
    let length_bytes := length_bytes length in
    if 7 <? length_bytes then Err LengthOverflow
    else let? prefix := checked_add 1 length_bytes in checked_add prefix length.

(** The loop of [put_length_prefix] that pushes the length's bytes. *)
Definition push_length (output : bytes) (length bytes : Z) : list Z :=
  fold_left (λ output shift, output ++ [Z.land (Z.shiftr length (shift * 8)) 255])
    (seqZ 0 bytes) output.

(** The last two branches of [put_length_prefix] *)
Definition put_wrapper (output : bytes) (length : Z) : bytes :=
  if length <=? 55 then output ++ [192 + length]
  else
    let bytes := length_bytes length in
    push_length (output ++ [248 + bytes]) length bytes.

(** [put_length_prefix] *)
Definition put_length_prefix (output : bytes) (length : Z) (allow_self_byte : option Z) : bytes :=
  match allow_self_byte with
  | Some byte =>
      if (length =? 1) && (byte <? 192) then output ++ [byte] else put_wrapper output length
  | None => put_wrapper output length
  end.

(** [put_atom] *)
Definition put_atom (output payload : bytes) : Result bytes DecodeError :=
  let? _ := encoded_len payload in
  let output := put_length_prefix output (zlen payload) (head payload) in
  Ok (if negb (self_byte payload) then output ++ payload else output).

(** The loop of [put_u64]: the bytes of the value, no trailing zeros. *)
Fixpoint u64_bytes_loop (rounds : nat) (value : Z) : bytes :=
  match rounds with
  | O => []
  | S rounds =>
      if value =? 0 then []
      else Z.land value 255 :: u64_bytes_loop rounds (Z.shiftr value 8)
  end.
Definition u64_bytes (value : Z) : bytes := u64_bytes_loop 8 value.

(** [put_u64].  The source unwraps the result of [put_atom]; [put_u64_ok] shows
    that there is no error to unwrap. *)
Definition put_u64 (output : bytes) (value : Z) : Result bytes DecodeError :=
  put_atom output (u64_bytes value).

(** The casts [as u64] and [as i64] *)
Definition as_u64 (value : Z) : Z := value mod u64_limit.
Definition as_i64 (value : Z) : Z :=
  (value + 2 ^ 63) mod u64_limit - 2 ^ 63.

(** [put_i64]: zigzag *)
Definition zigzag (value : Z) : Z :=
  Z.lxor (as_u64 (Z.shiftl (as_u64 value) 1)) (as_u64 (Z.shiftr value 63)).
Definition put_i64 (output : bytes) (value : Z) : Result bytes DecodeError :=
  put_u64 output (zigzag value).

(** The length of a compound, as the fold of [put_many] computes it. *)
Definition fields_length (fields : list bytes) : Result Z DecodeError :=
  fold_left (λ total field, let? total := total in let? n := encoded_len field in checked_add total n)
    fields (Ok 0).

(** The loop of [put_many] *)
Fixpoint put_atoms (output : bytes) (fields : list bytes) : Result bytes DecodeError :=
  match fields with
  | [] => Ok output
  | field :: fields => let? output := put_atom output field in put_atoms output fields
  end.

(** [put_many] *)
Definition put_many (output : bytes) (fields : list bytes) : Result bytes DecodeError :=
  let? payload_length := fields_length fields in
  if 7 <? length_bytes payload_length then Err LengthOverflow
  else put_atoms (put_length_prefix output payload_length None) fields.

(** [put_compound_payload] *)
Definition put_compound_payload (output encoded_fields : bytes) : Result bytes DecodeError :=
  if 7 <? length_bytes (zlen encoded_fields) then Err LengthOverflow
  else Ok (put_length_prefix output (zlen encoded_fields) None ++ encoded_fields).

(** The length loop of [get_atom] *)
Fixpoint sum_length (bytes : list Z) (index length : Z) : Result Z DecodeError :=
  match bytes with
  | [] => Ok length
  | byte :: bytes =>
      let? length := checked_add length (Z.shiftl byte (index * 8)) in
      sum_length bytes (index + 1) length
  end.

(** The end of [get_atom], with a wrapper of [prefix] bytes. *)
Definition get_wrapped (source : bytes) (maximum_length prefix length : Z) :
    Result (bytes * bytes) DecodeError :=
  if maximum_length <? length then Err TooLarge
  else
    let? stop := checked_add prefix length in
    if zlen source <? stop then Err Truncated
    else Ok (take (Z.to_nat length) (drop (Z.to_nat prefix) source),
             drop (Z.to_nat stop) source).

(** [get_atom]: the payload and the input that is left. *)
Definition get_atom (input : bytes) (maximum_length : Z) : Result (bytes * bytes) DecodeError :=
  match input with
  | [] => Err Truncated
  | tag :: source =>
      if tag <? 192 then
        if maximum_length <? 1 then Err TooLarge else Ok ([tag], source)
      else if tag <? 248 then get_wrapped input maximum_length 1 (tag - 192)
      else
        let bytes := tag - 248 in
        if zlen input <? 1 + bytes then Err Truncated
        else
          let? length := sum_length (take (Z.to_nat bytes) source) 0 0 in
          get_wrapped input maximum_length (1 + bytes) length
  end.

(** [u64_from_payload] *)
Fixpoint or_bytes (bytes : list Z) (index value : Z) : Z :=
  match bytes with
  | [] => value
  | byte :: bytes => or_bytes bytes (index + 1) (Z.lor value (as_u64 (Z.shiftl byte (index * 8))))
  end.
Definition u64_from_payload (payload : bytes) : Result Z DecodeError :=
  if 8 <? zlen payload then Err IntegerTooWide else Ok (or_bytes payload 0 0).

(** [get_u64] *)
Definition get_u64 (input : bytes) : Result (Z * bytes) DecodeError :=
  let? (payload, input) := get_atom input 8 in
  let? value := u64_from_payload payload in Ok (value, input).

(** [get_i64] *)
Definition unzigzag (value : Z) : Z :=
  Z.lxor (as_i64 (Z.shiftr value 1)) (- Z.land value 1).
Definition get_i64 (input : bytes) : Result (Z * bytes) DecodeError :=
  let? (value, input) := get_u64 input in Ok (unzigzag value, input).

(** [require_empty] *)
Definition require_empty (input : bytes) : Result unit DecodeError :=
  match input with [] => Ok tt | _ => Err TrailingFields end.

(** The atom of a payload and the wrapper of a compound, as values. *)
Definition wrapper (length : Z) : bytes := put_wrapper [] length.
Definition atom (payload : bytes) : bytes :=
  if self_byte payload then payload else wrapper (zlen payload) ++ payload.
Definition compound (fields : bytes) : bytes := wrapper (zlen fields) ++ fields.

(** The largest payload an atom can have. *)
Definition atom_limit : Z := 2 ^ 56.

Definition byte_ok (b : Z) : Prop := 0 ≤ b < 256.
Abbreviation bytes_ok := (Forall byte_ok) (only parsing).

(** ** Lengths *)

Lemma pow256_pos k : 0 < 256 ^ k ∨ k < 0.
Proof. destruct (Z.neg_nonneg_cases k); [by right|left]. by apply Z.pow_pos_nonneg. Qed.

Lemma shiftr8 v : Z.shiftr v 8 = v / 256.
Proof. by rewrite Z.shiftr_div_pow2. Qed.

Lemma land255 v : Z.land v 255 = v mod 256.
Proof. change 255 with (Z.ones 8). by rewrite Z.land_ones. Qed.

Lemma length_bytes_loop_spec rounds n b :
  0 ≤ n < 256 ^ Z.of_nat rounds →
  ∃ k, length_bytes_loop rounds n b = b + k ∧ 0 ≤ k ≤ Z.of_nat rounds ∧ n < 256 ^ k ∧
    ∀ j, 0 ≤ j → n < 256 ^ j → k ≤ j.
Proof.
  revert n b. induction rounds as [|r IH]; intros n b Hn.
  - exists 0. simpl in *. split_and!; lia.
  - cbn [length_bytes_loop]. destruct (Z.eqb_spec n 0) as [->|Hne].
    { exists 0. split_and!; lia. }
    rewrite Nat2Z.inj_succ, Z.pow_succ_r in Hn by lia. rewrite shiftr8.
    destruct (IH (n / 256) (b + 1)) as (k&->&Hk&Hlt&Hmin).
    { split; [apply Z.div_pos; lia|]. apply Z.div_lt_upper_bound; lia. }
    exists (k + 1). split_and!; [lia..| |].
    + rewrite Z.add_1_r, Z.pow_succ_r by lia.
      pose proof (Z.mul_succ_div_gt n 256). nia.
    + intros j Hj Hj'. destruct (Z.eq_dec j 0) as [->|Hj0]; [change (256 ^ 0) with 1 in Hj'; lia|].
      cut (k ≤ j - 1); [lia|]. apply Hmin; [lia|]. apply Z.div_lt_upper_bound; [lia|].
      rewrite <- Z.pow_succ_r by lia. by replace (Z.succ (j - 1)) with j by lia.
Qed.

Lemma length_bytes_spec n :
  0 ≤ n < u64_limit → 0 ≤ length_bytes n ≤ 8 ∧ n < 256 ^ length_bytes n ∧
    (7 <? length_bytes n) = negb (n <? atom_limit).
Proof.
  intros Hn. destruct (length_bytes_loop_spec 8 n 0) as (k&Hk&Hb&Hlt&Hmin); [done|].
  unfold length_bytes. rewrite Hk, Z.add_0_l. split_and!; [lia..|].
  destruct (Z.ltb_spec n atom_limit) as [Hs|Hs]; simpl.
  - apply Z.ltb_ge, Hmin; [lia|done].
  - apply Z.ltb_lt. destruct (Z.le_gt_cases k 7) as [Hle|?]; [|lia]. exfalso.
    pose proof (Z.pow_le_mono_r 256 k 7). unfold atom_limit in Hs.
    change (2 ^ 56) with (256 ^ 7) in Hs. lia.
Qed.

Lemma length_bytes_small n :
  0 ≤ n < atom_limit → 0 ≤ length_bytes n ≤ 7 ∧ n < 256 ^ length_bytes n.
Proof.
  intros Hn. destruct (length_bytes_spec n) as (Hb&Hlt&H7); [unfold atom_limit, u64_limit in *; lia|].
  rewrite (proj2 (Z.ltb_lt n atom_limit)) in H7 by lia. apply Z.ltb_ge in H7. lia.
Qed.

Lemma length_bytes_least n j : 0 ≤ n < u64_limit → 0 ≤ j → n < 256 ^ j → length_bytes n ≤ j.
Proof.
  intros Hn Hj Hlt. destruct (length_bytes_loop_spec 8 n 0) as (k&Hk&_&_&Hmin); [done|].
  unfold length_bytes. rewrite Hk. specialize (Hmin j Hj Hlt). lia.
Qed.

(** ** Little-endian digits *)

Lemma le_encode_shift k v m :
  0 ≤ m → le_encode (S k) (v / 256 ^ m) = v / 256 ^ m mod 256 :: le_encode k (v / 256 ^ (m + 1)).
Proof.
  intros Hm. simpl. f_equal. rewrite Z.pow_add_r, Z.pow_1_r by lia.
  by rewrite Z.div_div by (try apply Z.pow_pos_nonneg; lia).
Qed.

Lemma push_loop out length k m :
  0 ≤ m →
  fold_left (λ output shift, output ++ [Z.land (Z.shiftr length (shift * 8)) 255])
    (seqZ m (Z.of_nat k)) out = out ++ le_encode k (length / 256 ^ m).
Proof.
  revert out m. induction k as [|k IH]; intros out m Hm.
  - by rewrite app_nil_r.
  - rewrite seqZ_cons by lia. cbn [fold_left]. rewrite le_encode_shift by done.
    rewrite land255, Z.shiftr_div_pow2 by lia.
    replace (2 ^ (m * 8)) with (256 ^ m)
      by (rewrite Z.mul_comm, Z.pow_mul_r by lia; done).
    replace (Z.pred (Z.of_nat (S k))) with (Z.of_nat k) by lia.
    rewrite IH by lia. rewrite <- app_assoc. simpl. by replace (Z.succ m) with (m + 1) by lia.
Qed.

Lemma push_length_spec out length k :
  0 ≤ k → push_length out length k = out ++ le_encode (Z.to_nat k) length.
Proof.
  intros Hk. unfold push_length. replace k with (Z.of_nat (Z.to_nat k)) at 1 by lia.
  by rewrite push_loop, Z.pow_0_r, Z.div_1_r by lia.
Qed.

Lemma le_decode_bound b : bytes_ok b → 0 ≤ le_decode b < 256 ^ zlen b.
Proof.
  induction 1 as [|x b Hx _ IH]; unfold zlen in *; simpl le_decode; [done|].
  rewrite length_cons, Nat2Z.inj_succ, Z.pow_succ_r by lia. unfold byte_ok in Hx. lia.
Qed.

Lemma le_encode_bytes k v : bytes_ok (le_encode k v).
Proof.
  revert v. induction k as [|k IH]; intros v; simpl; constructor; [|done].
  unfold byte_ok. pose proof (Z.mod_pos_bound v 256). lia.
Qed.

Lemma sum_length_spec b index length :
  bytes_ok b → 0 ≤ index → index + zlen b ≤ 8 → 0 ≤ length < 256 ^ index →
  sum_length b index length = Ok (length + 256 ^ index * le_decode b).
Proof.
  intros Hb. revert index length. induction Hb as [|x b Hx Hb IH]; intros index length Hi Hl Hlen.
  - simpl. by rewrite Z.mul_0_r, Z.add_0_r.
  - unfold zlen in *. cbn [sum_length]. rewrite length_cons in Hl.
    rewrite Z.shiftl_mul_pow2 by lia.
    replace (2 ^ (index * 8)) with (256 ^ index)
      by (rewrite Z.mul_comm, Z.pow_mul_r by lia; done).
    assert (Hpow : 256 ^ (index + 1) = 256 * 256 ^ index)
      by (rewrite Z.add_1_r, Z.pow_succ_r by lia; done).
    assert (Hle : 256 ^ (index + 1) ≤ 256 ^ 8) by (apply Z.pow_le_mono_r; lia).
    unfold byte_ok in Hx. change (256 ^ 8) with u64_limit in Hle.
    unfold checked_add, usize_max. assert ((length + x * 256 ^ index <=? u64_limit - 1) = true) as ->
      by (apply Z.leb_le; nia).
    simpl. rewrite IH by nia. f_equal. rewrite Hpow. simpl le_decode. lia.
Qed.

(** ** Atoms *)

Lemma put_wrapper_app output length : put_wrapper output length = output ++ wrapper length.
Proof.
  unfold wrapper, put_wrapper. destruct (length <=? 55); [done|].
  unfold push_length. generalize (seqZ 0 (length_bytes length)).
  assert (Hgen : ∀ (f : Z → Z) l out, fold_left (λ o s, o ++ [f s]) l out = out ++ (f <$> l)).
  { intros f l. induction l as [|x l IH]; intros out; simpl; [by rewrite app_nil_r|].
    by rewrite IH, <- app_assoc. }
  intros l. by rewrite !Hgen, <- !app_assoc.
Qed.

Lemma self_byte_cons payload : self_byte payload = true → ∃ b, payload = [b] ∧ b < 192.
Proof. destruct payload as [|b [|]]; simpl; try done. intros ?%Z.ltb_lt. eauto. Qed.

Lemma put_length_prefix_atom output payload :
  put_length_prefix output (zlen payload) (head payload)
  = output ++ (if self_byte payload then payload else wrapper (zlen payload)).
Proof.
  unfold put_length_prefix.
  destruct payload as [|b [|c payload]]; cbn [head self_byte]; [apply put_wrapper_app| |].
  - change (zlen [b] =? 1) with true. destruct (b <? 192); [done|apply put_wrapper_app].
  - rewrite (proj2 (Z.eqb_neq _ _)) by (unfold zlen; cbn [length]; lia). apply put_wrapper_app.
Qed.

Lemma zlen_wrapper length :
  0 ≤ length < u64_limit →
  zlen (wrapper length) = if length <=? 55 then 1 else 1 + length_bytes length.
Proof.
  intros Hl. destruct (length_bytes_spec length Hl) as [Hb _].
  unfold wrapper, put_wrapper. destruct (length <=? 55); [done|].
  rewrite push_length_spec by lia. unfold zlen. rewrite length_app, le_encode_length. simpl. lia.
Qed.

(** [encoded_len] is the length of the atom. *)
Lemma encoded_len_spec payload :
  zlen payload < u64_limit - 9 →
  encoded_len payload = if zlen payload <? atom_limit then Ok (zlen (atom payload)) else Err LengthOverflow.
Proof.
  intros Hlt. pose proof (zlen_nonneg payload) as Hn.
  destruct (length_bytes_spec (zlen payload)) as (Hb&_&H7); [lia|].
  unfold encoded_len, atom. destruct (self_byte payload) eqn:Hs.
  { apply self_byte_cons in Hs as (b&->&_). done. }
  rewrite zlen_app, zlen_wrapper by lia.
  destruct (Z.leb_spec (zlen payload) 55) as [Hle|Hgt].
  { assert ((zlen payload <? atom_limit) = true) as -> by (apply Z.ltb_lt; unfold atom_limit; lia).
    done. }
  rewrite H7. destruct (zlen payload <? atom_limit); simpl; [|done].
  unfold checked_add, usize_max, u64_limit in *.
  rewrite (proj2 (Z.leb_le (1 + _) _)) by lia. simpl.
  by rewrite (proj2 (Z.leb_le _ _)) by lia.
Qed.

Lemma put_atom_ok output payload :
  zlen payload < atom_limit → put_atom output payload = Ok (output ++ atom payload).
Proof.
  intros Hlt. unfold put_atom. rewrite encoded_len_spec by (unfold atom_limit, u64_limit in *; lia).
  rewrite (proj2 (Z.ltb_lt _ _) Hlt). simpl. rewrite put_length_prefix_atom. unfold atom.
  destruct (self_byte payload); simpl; [done|]. by rewrite <- app_assoc.
Qed.

Lemma put_compound_ok output fields :
  zlen fields < atom_limit → put_compound_payload output fields = Ok (output ++ compound fields).
Proof.
  intros Hlt. pose proof (zlen_nonneg fields). unfold put_compound_payload.
  destruct (length_bytes_spec (zlen fields)) as (_&_&->); [unfold atom_limit, u64_limit in *; lia|].
  rewrite (proj2 (Z.ltb_lt _ _) Hlt). simpl. rewrite put_wrapper_app. unfold compound.
  by rewrite <- app_assoc.
Qed.

(** Reading what a wrapper announces. *)
Lemma get_wrapper payload rest maximum :
  zlen payload < atom_limit →
  get_atom (wrapper (zlen payload) ++ payload ++ rest) maximum
  = if maximum <? zlen payload then Err TooLarge else Ok (payload, rest).
Proof.
  intros Hlt. pose proof (zlen_nonneg payload) as Hn.
  assert (Hread : ∀ pre, 1 ≤ zlen pre ≤ 8 →
    get_wrapped (pre ++ payload ++ rest) maximum (zlen pre) (zlen payload)
    = if maximum <? zlen payload then Err TooLarge else Ok (payload, rest)).
  { intros pre Hpre. unfold get_wrapped. destruct (maximum <? zlen payload); [done|].
    unfold checked_add. rewrite (proj2 (Z.leb_le _ _))
      by (unfold usize_max, u64_limit, atom_limit in *; lia). simpl.
    rewrite !zlen_app. pose proof (zlen_nonneg rest).
    rewrite (proj2 (Z.ltb_ge _ _)) by lia.
    unfold zlen in *. f_equal. f_equal.
    - rewrite Nat2Z.id, drop_app_length' by lia. by rewrite take_app_length' by lia.
    - rewrite app_assoc. rewrite drop_app_length'; [done|rewrite length_app; lia]. }
  unfold wrapper, put_wrapper. destruct (Z.leb_spec (zlen payload) 55) as [Hle|Hgt].
  - cbn [app]. unfold get_atom. rewrite (proj2 (Z.ltb_ge _ _)) by lia.
    rewrite (proj2 (Z.ltb_lt _ _)) by lia.
    replace (192 + zlen payload - 192) with (zlen payload) by lia.
    by apply (Hread [192 + zlen payload]).
  - destruct (length_bytes_small (zlen payload)) as [Hb Hk]; [lia|].
    set (k := length_bytes (zlen payload)) in *.
    rewrite push_length_spec by lia. cbn [app]. unfold get_atom.
    rewrite !(proj2 (Z.ltb_ge _ _)) by lia.
    replace (248 + k - 248) with k by lia.
    assert (Hle : zlen (le_encode (Z.to_nat k) (zlen payload)) = k)
      by (unfold zlen; rewrite le_encode_length; lia).
    rewrite (proj2 (Z.ltb_ge _ _)).
    2:{ change (248 + k :: ?x) with ([248 + k] ++ x). rewrite !zlen_app, Hle.
        change (zlen [248 + k]) with 1. pose proof (zlen_nonneg rest). lia. }
    rewrite take_app_length' by (by rewrite le_encode_length).
    rewrite sum_length_spec by (first [apply le_encode_bytes | rewrite ?Hle; lia]).
    simpl rbind. rewrite le_roundtrip by (rewrite Z2Nat.id by lia; lia).
    replace (0 + 256 ^ 0 * zlen payload) with (zlen payload) by lia.
    assert (Hpre : zlen (248 + k :: le_encode (Z.to_nat k) (zlen payload)) = 1 + k)
      by (rewrite <- Hle at 3; unfold zlen; cbn [length]; lia).
    rewrite <- (Hread (248 + k :: le_encode (Z.to_nat k) (zlen payload))) by lia.
    by rewrite Hpre.
Qed.

Lemma get_atom_atom payload rest maximum :
  zlen payload < atom_limit →
  get_atom (atom payload ++ rest) maximum
  = if maximum <? zlen payload then Err TooLarge else Ok (payload, rest).
Proof.
  intros Hlt. unfold atom. destruct (self_byte payload) eqn:Hs.
  - apply self_byte_cons in Hs as (b&->&Hb). cbn [app get_atom].
    by rewrite (proj2 (Z.ltb_lt _ _) Hb).
  - rewrite <- app_assoc. by apply get_wrapper.
Qed.

Lemma get_atom_compound fields rest maximum :
  zlen fields < atom_limit →
  get_atom (compound fields ++ rest) maximum
  = if maximum <? zlen fields then Err TooLarge else Ok (fields, rest).
Proof. intros Hlt. unfold compound. rewrite <- app_assoc. by apply get_wrapper. Qed.

(** ** What a read depends on *)

Lemma get_wrapped_extend source x maximum prefix length r :
  0 ≤ prefix → 0 ≤ length →
  get_wrapped source maximum prefix length = r → r ≠ Err Truncated →
  get_wrapped (source ++ x) maximum prefix length
  = match r with Ok (p, rest) => Ok (p, rest ++ x) | Err e => Err e end.
Proof.
  intros Hp Hl <-. unfold get_wrapped. destruct (maximum <? length); [done|].
  unfold checked_add. destruct (prefix + length <=? usize_max); simpl; [|done].
  destruct (Z.ltb_spec (zlen source) (prefix + length)) as [?|Hge]; [done|]. intros _.
  rewrite zlen_app. pose proof (zlen_nonneg x). rewrite (proj2 (Z.ltb_ge _ _)) by lia.
  unfold zlen in *. rewrite !drop_app_le by lia. rewrite take_app_le; [done|].
  rewrite length_drop. lia.
Qed.

Lemma sum_length_nonneg b index length n :
  bytes_ok b → 0 ≤ index → 0 ≤ length → sum_length b index length = Ok n → 0 ≤ n.
Proof.
  intros Hb. revert index length. induction Hb as [|x b Hx Hb IH]; intros index length Hi Hl; simpl.
  - by intros [= ->].
  - unfold checked_add. case_match; simpl; [|done]. apply IH; [lia|].
    assert (0 ≤ Z.shiftl x (index * 8)) by (apply Z.shiftl_nonneg; unfold byte_ok in Hx; lia). lia.
Qed.

Lemma sum_length_err b index length e : sum_length b index length = Err e → e = LengthOverflow.
Proof.
  revert index length. induction b as [|x b IH]; intros index length; simpl; [done|].
  unfold checked_add. case_match; simpl; [apply IH|by intros [= ->]].
Qed.

(** Bytes that follow an atom do not change how it is read; nor do they change
    an error other than [Truncated]. *)
Lemma get_atom_extend input x maximum r :
  bytes_ok input → get_atom input maximum = r → r ≠ Err Truncated →
  get_atom (input ++ x) maximum
  = match r with Ok (p, rest) => Ok (p, rest ++ x) | Err e => Err e end.
Proof.
  intros Hok <-. destruct input as [|tag source]; [done|]. cbn [app get_atom].
  apply Forall_cons in Hok as [Htag Hok]. unfold byte_ok in Htag.
  destruct (tag <? 192) eqn:?; [by destruct (maximum <? 1)|].
  destruct (Z.ltb_spec tag 248) as [?|?].
  { intros Hr. by eapply (get_wrapped_extend (tag :: source)); [lia..| |]. }
  change (tag :: source ++ x) with ((tag :: source) ++ x). rewrite zlen_app.
  destruct (Z.ltb_spec (zlen (tag :: source)) (1 + (tag - 248))) as [?|Hge]; [done|].
  pose proof (zlen_nonneg x). rewrite (proj2 (Z.ltb_ge _ _)) by lia.
  assert (Hlen : (Z.to_nat (tag - 248) ≤ length source)%nat) by (unfold zlen in Hge; simpl in Hge; lia).
  rewrite take_app_le by done.
  destruct (sum_length _ 0 0) as [n|e] eqn:Hn; simpl rbind; [|done].
  apply sum_length_nonneg in Hn; [|by apply Forall_take|lia..].
  intros Hr. by eapply (get_wrapped_extend (tag :: source)); [lia..| |].
Qed.

Lemma get_wrapped_split source maximum prefix length p rest :
  1 ≤ prefix → 0 ≤ length →
  get_wrapped source maximum prefix length = Ok (p, rest) →
  ∃ pre, source = pre ++ p ++ rest ∧ pre ≠ [] ∧ zlen p ≤ maximum.
Proof.
  intros Hp Hl. unfold get_wrapped. destruct (Z.ltb_spec maximum length) as [|Hm]; [done|].
  unfold checked_add. destruct (_ <=? usize_max); simpl; [|done].
  destruct (Z.ltb_spec (zlen source) (prefix + length)) as [?|Hge]; [done|]. intros [= <- <-].
  exists (take (Z.to_nat prefix) source). split_and!.
  - rewrite Z2Nat.inj_add by lia. rewrite <- drop_drop.
    by rewrite (take_drop (Z.to_nat length)), take_drop.
  - intros E%(f_equal zlen). unfold zlen in *. rewrite length_take in E. simpl in E. lia.
  - unfold zlen in *. rewrite length_take, length_drop. lia.
Qed.

(** An atom that was read is a piece at the front of the input, within the
    limit; something is always consumed. *)
Lemma get_atom_split input maximum p rest :
  bytes_ok input → get_atom input maximum = Ok (p, rest) →
  ∃ pre, input = pre ++ p ++ rest ∧ pre ++ p ≠ [] ∧ zlen p ≤ maximum.
Proof.
  intros Hok Hget. destruct input as [|tag source]; [done|]. cbn [get_atom] in Hget.
  apply Forall_cons in Hok as [Htag Hok]. unfold byte_ok in Htag.
  assert (Hw : ∀ prefix length, 1 ≤ prefix → 0 ≤ length →
    get_wrapped (tag :: source) maximum prefix length = Ok (p, rest) →
    ∃ pre, tag :: source = pre ++ p ++ rest ∧ pre ++ p ≠ [] ∧ zlen p ≤ maximum).
  { intros prefix length ?? Hg. destruct (get_wrapped_split _ _ _ _ _ _ ltac:(done) ltac:(done) Hg)
      as (pre&?&?&?). exists pre. split_and!; [done| |done]. by intros [-> _]%app_eq_nil. }
  revert Hget. destruct (Z.ltb_spec tag 192).
  { destruct (Z.ltb_spec maximum 1); [done|]. intros [= <- <-]. by exists []. }
  destruct (Z.ltb_spec tag 248) as [?|?]; [by apply Hw; lia|].
  destruct (_ <? _); [done|]. destruct (sum_length _ 0 0) as [n|e] eqn:Hn; simpl rbind; [|done].
  apply sum_length_nonneg in Hn; [|by apply Forall_take|lia..]. apply Hw; lia.
Qed.

Lemma get_atom_bytes input maximum p rest :
  bytes_ok input → get_atom input maximum = Ok (p, rest) → bytes_ok p ∧ bytes_ok rest.
Proof.
  intros Hok Hget. destruct (get_atom_split _ _ _ _ Hok Hget) as (pre&->&_).
  rewrite !Forall_app in Hok. naive_solver.
Qed.

Lemma get_atom_rest input maximum p rest :
  bytes_ok input → get_atom input maximum = Ok (p, rest) →
  bytes_ok rest ∧ (length rest < length input)%nat.
Proof.
  intros Hok Hget. destruct (get_atom_split _ _ _ _ Hok Hget) as (pre&->&Hne&_).
  rewrite app_assoc in *. apply Forall_app in Hok as [_ Hr]. split; [done|].
  rewrite length_app. destruct (pre ++ p); [done|]. simpl. lia.
Qed.

(** An input reported as cut short is shorter than the limit and a wrapper. *)
Lemma get_atom_truncated_bound input maximum :
  bytes_ok input → 0 ≤ maximum → get_atom input maximum = Err Truncated → zlen input < maximum + 8.
Proof.
  intros Hok Hm. destruct input as [|tag source]; [unfold zlen; simpl; lia|].
  apply Forall_cons in Hok as [Htag Hok]. unfold byte_ok in Htag. cbn [get_atom].
  assert (Hw : ∀ prefix length, prefix ≤ 8 → get_wrapped (tag :: source) maximum prefix length
    = Err Truncated → zlen (tag :: source) < maximum + 8).
  { intros prefix length Hp. unfold get_wrapped. destruct (Z.ltb_spec maximum length); [done|].
    unfold checked_add. destruct (_ <=? usize_max); simpl rbind; [|done].
    destruct (Z.ltb_spec (zlen (tag :: source)) (prefix + length)); [lia|done]. }
  destruct (tag <? 192); [by destruct (maximum <? 1)|].
  destruct (tag <? 248); [by apply Hw|].
  destruct (Z.ltb_spec (zlen (tag :: source)) (1 + (tag - 248))); [lia|].
  destruct (sum_length _ 0 0) as [n|e] eqn:Hn; simpl rbind; [apply Hw; lia|].
  by apply sum_length_err in Hn as ->.
Qed.

(** A strict prefix of an atom is reported as cut short. *)
Lemma get_atom_prefix a b p maximum :
  bytes_ok a → get_atom (a ++ b) maximum = Ok (p, []) → b ≠ [] →
  get_atom a maximum = Err Truncated.
Proof.
  intros Hok Hget Hb. destruct (decide (get_atom a maximum = Err Truncated)) as [|Hne]; [done|].
  pose proof (get_atom_extend a b maximum _ Hok eq_refl Hne) as Hx. rewrite Hget in Hx.
  destruct (get_atom a maximum) as [[q r]|]; [|done]. injection Hx as -> Hr.
  symmetry in Hr. by apply app_eq_nil in Hr as [_ ->].
Qed.

(** ** Integers *)

Lemma or_bytes_spec b index value :
  bytes_ok b → 0 ≤ index → index + zlen b ≤ 8 → 0 ≤ value < 256 ^ index →
  or_bytes b index value = value + 256 ^ index * le_decode b.
Proof.
  intros Hb. revert index value. induction Hb as [|x b Hx Hb IH]; intros index value Hi Hl Hv.
  - simpl. by rewrite Z.mul_0_r, Z.add_0_r.
  - unfold zlen in *. cbn [or_bytes]. rewrite length_cons in Hl. unfold byte_ok in Hx.
    rewrite Z.shiftl_mul_pow2 by lia.
    assert (Hp : 2 ^ (index * 8) = 256 ^ index)
      by (rewrite Z.mul_comm, Z.pow_mul_r by lia; done).
    assert (Hpow : 256 ^ (index + 1) = 256 * 256 ^ index)
      by (rewrite Z.add_1_r, Z.pow_succ_r by lia; done).
    assert (Hle : 256 ^ (index + 1) ≤ 256 ^ 8) by (apply Z.pow_le_mono_r; lia).
    change (256 ^ 8) with u64_limit in Hle. unfold as_u64. rewrite Z.mod_small by nia.
    rewrite Z.lor_comm, lor_shift_add by lia. rewrite Hp, IH by nia. rewrite Hpow. simpl le_decode. lia.
Qed.

Lemma u64_from_payload_spec b :
  bytes_ok b → zlen b ≤ 8 → u64_from_payload b = Ok (le_decode b).
Proof.
  intros Hb Hl. unfold u64_from_payload. rewrite (proj2 (Z.ltb_ge _ _) Hl).
  rewrite or_bytes_spec by (first [done|lia]). f_equal. lia.
Qed.

Lemma u64_bytes_loop_spec rounds v :
  0 ≤ v < 256 ^ Z.of_nat rounds →
  let b := u64_bytes_loop rounds v in
  bytes_ok b ∧ (length b ≤ rounds)%nat ∧ le_decode b = v.
Proof.
  revert v. induction rounds as [|r IH]; intros v Hv; simpl.
  - change (256 ^ Z.of_nat 0) with 1 in Hv. split_and!; [done..|lia].
  - destruct (Z.eqb_spec v 0) as [->|Hne]; [split_and!; simpl; [done|lia|done]|].
    rewrite Nat2Z.inj_succ, Z.pow_succ_r in Hv by lia. rewrite shiftr8, land255.
    destruct (IH (v / 256)) as (Hb&Hl&Hd).
    { split; [apply Z.div_pos; lia|]. apply Z.div_lt_upper_bound; lia. }
    pose proof (Z.mod_pos_bound v 256). split_and!; simpl.
    + constructor; [unfold byte_ok; lia|done].
    + lia.
    + rewrite Hd. pose proof (Z.div_mod v 256). lia.
Qed.

Lemma u64_bytes_spec v :
  0 ≤ v < u64_limit →
  bytes_ok (u64_bytes v) ∧ zlen (u64_bytes v) ≤ 8 ∧ le_decode (u64_bytes v) = v.
Proof.
  intros Hv. destruct (u64_bytes_loop_spec 8 v) as (?&?&?); [done|].
  split_and!; [done| |done]. unfold zlen, u64_bytes. lia.
Qed.

Lemma put_u64_ok output v :
  0 ≤ v < u64_limit → put_u64 output v = Ok (output ++ atom (u64_bytes v)).
Proof.
  intros Hv. apply put_atom_ok. destruct (u64_bytes_spec v Hv) as (_&?&_). unfold atom_limit. lia.
Qed.

Lemma get_u64_atom v rest :
  0 ≤ v < u64_limit → get_u64 (atom (u64_bytes v) ++ rest) = Ok (v, rest).
Proof.
  intros Hv. destruct (u64_bytes_spec v Hv) as (Hb&Hl&Hd). unfold get_u64.
  rewrite get_atom_atom by (unfold atom_limit; lia). rewrite (proj2 (Z.ltb_ge _ _) Hl). simpl rbind.
  rewrite u64_from_payload_spec by done. simpl. by rewrite Hd.
Qed.

Lemma get_u64_range input v rest :
  bytes_ok input → get_u64 input = Ok (v, rest) →
  0 ≤ v < u64_limit ∧ ∃ pre, input = pre ++ rest ∧ pre ≠ [].
Proof.
  intros Hok. unfold get_u64. destruct (get_atom input 8) as [[p r]|] eqn:Hget; simpl rbind; [|done].
  destruct (get_atom_split _ _ _ _ Hok Hget) as (pre&->&Hne&Hl).
  rewrite !Forall_app in Hok. destruct Hok as (_&Hp&_).
  rewrite u64_from_payload_spec by done. simpl. intros [= <- <-]. split.
  - pose proof (le_decode_bound p Hp). pose proof (Z.pow_le_mono_r 256 (zlen p) 8).
    change (256 ^ 8) with u64_limit in *. lia.
  - exists (pre ++ p). by rewrite <- app_assoc.
Qed.

Definition i64_ok (v : Z) : Prop := - 2 ^ 63 ≤ v < 2 ^ 63.

Lemma as_i64_id v : i64_ok v → as_i64 v = v.
Proof. unfold i64_ok, as_i64, u64_limit. intros Hv. rewrite Z.mod_small; lia. Qed.

Lemma as_i64_ok v : i64_ok (as_i64 v).
Proof.
  unfold i64_ok, as_i64. pose proof (Z.mod_pos_bound (v + 2 ^ 63) u64_limit ltac:(done)) as Hb.
  unfold u64_limit in *. lia.
Qed.

Lemma lxor_ones x k : 0 ≤ k → 0 ≤ x < 2 ^ k → Z.lxor x (Z.ones k) = 2 ^ k - 1 - x.
Proof.
  intros Hk Hx. assert (E : Z.lxor x (Z.ones k) = Z.land (Z.lnot x) (Z.ones k)).
  { apply Z.bits_inj'. intros n Hn. rewrite Z.lxor_spec, Z.land_spec, Z.lnot_spec by done.
    destruct (Z.lt_ge_cases n k).
    - by rewrite Z.ones_spec_low, xorb_true_r, andb_true_r by lia.
    - rewrite Z.ones_spec_high, xorb_false_r, andb_false_r by lia.
      destruct (Z.eq_dec x 0) as [->|]; [apply Z.bits_0|].
      apply Z.bits_above_log2; [lia|]. apply Z.lt_le_trans with k; [|done].
      apply Z.log2_lt_pow2; lia. }
  rewrite E, Z.land_ones by done. symmetry. apply (Z.mod_unique _ _ (-1)); unfold Z.lnot; lia.
Qed.

(** The zigzag code is twice the value, or one less than twice its opposite. *)
Lemma zigzag_spec v : i64_ok v → zigzag v = if 0 <=? v then 2 * v else - 2 * v - 1.
Proof.
  unfold i64_ok, zigzag, as_u64. intros Hv. rewrite Z.shiftl_mul_pow2, Z.shiftr_div_pow2 by lia.
  change (2 ^ 1) with 2. destruct (Z.leb_spec 0 v) as [H|H].
  - rewrite (Z.div_small v) by lia. rewrite (Z.mod_small v) by (unfold u64_limit; lia).
    rewrite Z.mod_0_l by done. rewrite Z.lxor_0_r. rewrite Z.mod_small; unfold u64_limit; lia.
  - assert (v / 2 ^ 63 = -1) as -> by (symmetry; apply (Z.div_unique _ _ _ (v + 2 ^ 63)); lia).
    assert (v mod u64_limit = v + u64_limit) as ->.
    { symmetry. apply (Z.mod_unique _ _ (-1)); unfold u64_limit; lia. }
    assert (((v + u64_limit) * 2) mod u64_limit = 2 * v + u64_limit) as ->.
    { symmetry. apply (Z.mod_unique _ _ 1); unfold u64_limit; lia. }
    change (-1 mod u64_limit) with (Z.ones 64).
    rewrite lxor_ones by (unfold u64_limit; lia). unfold u64_limit. lia.
Qed.

Lemma zigzag_range v : i64_ok v → 0 ≤ zigzag v < u64_limit.
Proof.
  intros Hv. rewrite zigzag_spec by done. unfold i64_ok, u64_limit in *. destruct (Z.leb_spec 0 v); lia.
Qed.

Lemma unzigzag_spec w : 0 ≤ w < u64_limit → unzigzag w = if Z.even w then w / 2 else - (w / 2) - 1.
Proof.
  intros Hw. unfold unzigzag. rewrite Z.shiftr_div_pow2 by lia. change (2 ^ 1) with 2.
  assert (Hd : 0 ≤ w / 2 < 2 ^ 63).
  { split; [apply Z.div_pos; lia|]. apply Z.div_lt_upper_bound; [lia|]. unfold u64_limit in Hw. lia. }
  rewrite as_i64_id by (unfold i64_ok; lia). change 1 with (Z.ones 1).
  rewrite Z.land_ones by lia. change (2 ^ 1) with 2. rewrite Zmod_even. destruct (Z.even w).
  - apply Z.lxor_0_r.
  - change (- (1)) with (-1). change (Z.ones 1) with 1. rewrite Z.lxor_m1_r. unfold Z.lnot. lia.
Qed.

Lemma unzigzag_zigzag v : i64_ok v → unzigzag (zigzag v) = v.
Proof.
  intros Hv. rewrite unzigzag_spec by (by apply zigzag_range). rewrite zigzag_spec by done.
  destruct (Z.leb_spec 0 v).
  - rewrite Z.even_mul. simpl orb. rewrite Z.mul_comm. by rewrite Z.div_mul.
  - replace (-2 * v - 1) with (1 + 2 * (- v - 1)) by lia.
    rewrite Z.even_add_mul_2. simpl.
    rewrite Z.mul_comm, Z.div_add by lia. change (1 / 2) with 0. lia.
Qed.

Lemma unzigzag_range w : 0 ≤ w < u64_limit → i64_ok (unzigzag w).
Proof.
  intros Hw. rewrite unzigzag_spec by done.
  assert (0 ≤ w / 2 < 2 ^ 63).
  { split; [apply Z.div_pos; lia|]. apply Z.div_lt_upper_bound; [lia|]. unfold u64_limit in Hw. lia. }
  unfold i64_ok. destruct (Z.even w); lia.
Qed.

Lemma put_i64_ok output v :
  i64_ok v → put_i64 output v = Ok (output ++ atom (u64_bytes (zigzag v))).
Proof. intros Hv. by apply put_u64_ok, zigzag_range. Qed.

Lemma get_i64_atom v rest :
  i64_ok v → get_i64 (atom (u64_bytes (zigzag v)) ++ rest) = Ok (v, rest).
Proof.
  intros Hv. unfold get_i64. rewrite get_u64_atom by (by apply zigzag_range). simpl.
  by rewrite unzigzag_zigzag.
Qed.

(** ** Bytes that are written *)

Lemma wrapper_bytes length : 0 ≤ length < atom_limit → bytes_ok (wrapper length).
Proof.
  intros Hl. unfold wrapper, put_wrapper. destruct (Z.leb_spec length 55).
  - apply Forall_singleton. unfold byte_ok. lia.
  - destruct (length_bytes_small length) as [Hb _]; [lia|].
    rewrite push_length_spec by lia. apply Forall_app. split; [|apply le_encode_bytes].
    apply Forall_singleton. unfold byte_ok. lia.
Qed.

Lemma compound_bytes fields : zlen fields < atom_limit → bytes_ok fields → bytes_ok (compound fields).
Proof.
  intros Hl Hf. apply Forall_app. split; [|done]. apply wrapper_bytes. pose proof (zlen_nonneg fields). lia.
Qed.

Lemma atom_bytes payload : zlen payload < atom_limit → bytes_ok payload → bytes_ok (atom payload).
Proof. intros Hl Hp. unfold atom. case_match; [done|]. by apply compound_bytes. Qed.

Lemma zlen_atom_bound payload :
  zlen payload < atom_limit → 1 ≤ zlen (atom payload) ≤ zlen payload + 8.
Proof.
  intros Hl. pose proof (zlen_nonneg payload). unfold atom. destruct (self_byte payload) eqn:Hs.
  { apply self_byte_cons in Hs as (b&->&_). done. }
  rewrite zlen_app, zlen_wrapper by (unfold atom_limit, u64_limit in *; lia).
  destruct (length_bytes_small (zlen payload)) as [Hb _]; [lia|]. case_match; lia.
Qed.

Lemma compound_nonempty fields : compound fields ≠ [].
Proof.
  unfold compound, wrapper, put_wrapper. case_match; [done|].
  unfold push_length. intros E. apply app_eq_nil in E as [E _].
  assert (Hgen : ∀ (f : Z → Z) l out, fold_left (λ o s, o ++ [f s]) l out = [] → out = []).
  { intros f l. induction l as [|x l IH]; intros out; simpl; [done|]. intros Ho%IH.
    by apply app_eq_nil in Ho as [-> _]. }
  by apply Hgen in E.
Qed.

(** [put_many] writes the compound of the fields' atoms. *)
Definition atoms (fields : list bytes) : bytes := concat (atom <$> fields).

Lemma put_atoms_ok output fields :
  Forall (λ f, zlen f < atom_limit) fields → put_atoms output fields = Ok (output ++ atoms fields).
Proof.
  intros Hf. revert output. induction Hf as [|f fields Hl _ IH]; intros output; simpl.
  - by rewrite app_nil_r.
  - rewrite put_atom_ok by done. simpl. rewrite IH. unfold atoms. simpl. by rewrite <- app_assoc.
Qed.

Lemma fields_length_ok fields total :
  Forall (λ f, zlen f < atom_limit) fields → 0 ≤ total → total + zlen (atoms fields) < atom_limit →
  fold_left (λ total field, let? total := total in let? n := encoded_len field in checked_add total n)
    fields (Ok total) = Ok (total + zlen (atoms fields)).
Proof.
  intros Hf. revert total. induction Hf as [|f fields Hl _ IH]; intros total Ht Hlt; simpl.
  - unfold zlen. simpl. f_equal. lia.
  - rewrite encoded_len_spec by (unfold atom_limit, u64_limit in *; lia).
    rewrite (proj2 (Z.ltb_lt _ _) Hl). simpl.
    assert (E : zlen (atoms (f :: fields)) = zlen (atom f) + zlen (atoms fields))
      by (unfold atoms; simpl; apply zlen_app). rewrite E in *.
    pose proof (zlen_nonneg (atom f)). pose proof (zlen_nonneg (atoms fields)).
    unfold checked_add. rewrite (proj2 (Z.leb_le _ _)) by (unfold usize_max, atom_limit, u64_limit in *; lia).
    rewrite IH by lia. f_equal. lia.
Qed.

Lemma put_many_ok output fields :
  Forall (λ f, zlen f < atom_limit) fields → zlen (atoms fields) < atom_limit →
  put_many output fields = Ok (output ++ compound (atoms fields)).
Proof.
  intros Hf Hl. pose proof (zlen_nonneg (atoms fields)). unfold put_many, fields_length.
  rewrite (fields_length_ok fields 0) by (first [done|lia]). rewrite Z.add_0_l. simpl rbind.
  destruct (length_bytes_spec (zlen (atoms fields))) as (_&_&->);
    [unfold atom_limit, u64_limit in *; lia|].
  rewrite (proj2 (Z.ltb_lt _ _) Hl). simpl negb. cbn iota. unfold put_length_prefix.
  rewrite put_wrapper_app, put_atoms_ok by done. unfold compound. by rewrite <- app_assoc.
Qed.

(** ** Payloads that are too long *)

Lemma length_bytes_loop_full rounds n b :
  256 ^ (Z.of_nat rounds - 1) ≤ n → length_bytes_loop rounds n b = b + Z.of_nat rounds.
Proof.
  revert n b. induction rounds as [|r IH]; intros n b Hn; simpl length_bytes_loop; [lia|].
  replace (Z.of_nat (S r) - 1) with (Z.of_nat r) in Hn by lia.
  assert (0 < 256 ^ Z.of_nat r) by (apply Z.pow_pos_nonneg; lia).
  rewrite (proj2 (Z.eqb_neq n 0)) by lia. destruct r as [|r]; [simpl; lia|].
  rewrite shiftr8, IH; [lia|]. apply Z.div_le_lower_bound; [lia|].
  replace (Z.of_nat (S r) - 1) with (Z.of_nat r) by lia.
  rewrite Nat2Z.inj_succ, Z.pow_succ_r in Hn by lia. lia.
Qed.

Lemma length_bytes_large n : atom_limit ≤ n → (7 <? length_bytes n) = true.
Proof. intros Hn. unfold length_bytes. by rewrite length_bytes_loop_full. Qed.

Lemma put_atom_too_long output payload :
  atom_limit ≤ zlen payload → put_atom output payload = Err LengthOverflow.
Proof.
  intros Hl. unfold put_atom, encoded_len. destruct (self_byte payload) eqn:Hs.
  { apply self_byte_cons in Hs as (b&->&_). by unfold zlen, atom_limit in Hl; simpl in Hl. }
  rewrite (proj2 (Z.leb_gt (zlen payload) 55)) by (unfold atom_limit in Hl; lia).
  by rewrite length_bytes_large.
Qed.

Lemma put_compound_too_long output fields :
  atom_limit ≤ zlen fields → put_compound_payload output fields = Err LengthOverflow.
Proof. intros Hl. unfold put_compound_payload. by rewrite length_bytes_large. Qed.
