(* ===== verification/WireValues.v ===== *)
(** * Typed wire values.

    Models the trait [WireValue] of [engine/src/wire.rs] and its instances: the
    integers, [f64], [bool], [()], [BoundedBytes], [BoundedText], [FixedBytes],
    [BoundedVec], [BoundedMap] and [Option].  The class [WireLaws] states what
    a transport may rely on: a value is written as one atom that reads back as
    the value, whatever follows, and what is read keeps the bounds of its type. *)

From S2P Require Import Prelude.
From S2P Require Import BTreeMap.
From S2P Require Import WireAtoms.
Open Scope Z_scope.
Open Scope sarun_scope.

(** [trait WireValue] *)
Class WireValue (A : Type) : Type := {
  encode_atom : A → bytes → Result bytes DecodeError;
  decode_atom : bytes → Result (A * bytes) DecodeError
}.

(** One atom: a payload, or the fields of a compound, under its wrapper. *)
Definition one_atom (e : bytes) : Prop :=
  ∃ p, bytes_ok p ∧ zlen p < atom_limit ∧ (e = atom p ∨ e = compound p).

(** [e] is an atom that always reads back as [v]. *)
Definition reads_as {A} `{WireValue A} (e : bytes) (v : A) : Prop :=
  one_atom e ∧ ∀ rest, decode_atom (e ++ rest) = Ok (v, rest).

(** Writing either appends an atom that reads back, or fails because a payload
    is too long for the format. *)
Definition writes {A} `{WireValue A} (v : A) : Prop :=
  (∃ e, (∀ output, encode_atom v output = Ok (output ++ e)) ∧ reads_as e v)
  ∨ ∀ output, encode_atom v output = Err LengthOverflow.

Definition consumes (input rest : bytes) : Prop := ∃ pre, input = pre ++ rest ∧ pre ≠ [].

(** The laws, for the values [wire_ok] accepts: the bounds of the type. *)
Class WireLaws (A : Type) `{WireValue A} : Type := {
  wire_ok : A → Prop;
  wire_writes : ∀ v, wire_ok v → writes v;
  wire_reads : ∀ input v rest, bytes_ok input → decode_atom input = Ok (v, rest) →
    wire_ok v ∧ consumes input rest
}.

(** ** Integers: [u16], [u32], [u64] and [i32], [i64] *)
Record uint (width : Z) : Type := UInt { uint_val : Z }.
Record sint (width : Z) : Type := SInt { sint_val : Z }.
Arguments UInt {width} _.
Arguments uint_val {width} _.
Arguments SInt {width} _.
Arguments sint_val {width} _.

(** [unsigned_wire_value!] *)
#[export] Instance uint_wire {width} : WireValue (uint width) := {
  encode_atom v output := put_u64 output (uint_val v);
  decode_atom input :=
    let? (v, input) := get_u64 input in
    if v <? 2 ^ width then Ok (UInt v, input) else Err IntegerOutOfRange
}.

(** [signed_wire_value!] *)
#[export] Instance sint_wire {width} : WireValue (sint width) := {
  encode_atom v output := put_i64 output (sint_val v);
  decode_atom input :=
    let? (v, input) := get_i64 input in
    if (- 2 ^ (width - 1) <=? v) && (v <? 2 ^ (width - 1)) then Ok (SInt v, input)
    else Err IntegerOutOfRange
}.

(** ** [f64], as its bits *)
Record F64 : Type := MkF64 { f64_bits : Z }.

#[export] Instance f64_wire : WireValue F64 := {
  encode_atom v output := put_atom output (le_encode 8 (f64_bits v));
  decode_atom input :=
    let? (payload, input) := get_atom input 8 in
    if zlen payload =? 8 then Ok (MkF64 (le_decode payload), input) else Err InvalidValue
}.

(** ** [bool] and [()] *)
#[export] Instance bool_wire : WireValue bool := {
  encode_atom v output := put_u64 output (if v : bool then 1 else 0);
  decode_atom input :=
    let? (v, input) := get_u64 input in
    match v with 0 => Ok (false, input) | 1 => Ok (true, input) | _ => Err InvalidValue end
}.

#[export] Instance unit_wire : WireValue unit := {
  encode_atom _ output := put_compound_payload output [];
  decode_atom input :=
    let? (fields, input) := get_atom input 0 in
    match fields with [] => Ok (tt, input) | _ => Err TrailingFields end
}.

(** ** [BoundedBytes] *)
Record BoundedBytes (maximum : Z) : Type := MkBoundedBytes { bb_val : bytes }.
Arguments MkBoundedBytes {maximum} _.
Arguments bb_val {maximum} _.

(** [BoundedBytes::new] *)
Definition bounded_bytes_new {maximum} (value : bytes) : Result (BoundedBytes maximum) DecodeError :=
  if maximum <? zlen value then Err TooLarge else Ok (MkBoundedBytes value).

#[export] Instance bounded_bytes_wire {maximum} : WireValue (BoundedBytes maximum) := {
  encode_atom v output :=
    if maximum <? zlen (bb_val v) then Err TooLarge else put_atom output (bb_val v);
  decode_atom input :=
    let? (payload, input) := get_atom input maximum in Ok (MkBoundedBytes payload, input)
}.

(** ** [BoundedText]: a [String] is its UTF-8 bytes *)

(** Lead and second byte of [std::str::from_utf8]: the second byte's range keeps
    out overlong forms, surrogates and code points above [0x10ffff]. *)
Definition utf8_second (lead second : Z) : bool :=
  let within lo hi := (lo <=? second) && (second <=? hi) in
  if lead =? 224 then within 160 191
  else if lead =? 237 then within 128 159
  else if lead =? 240 then within 144 191
  else if lead =? 244 then within 128 143
  else within 128 191.
Definition utf8_cont (b : Z) : bool := (128 <=? b) && (b <=? 191).

(** [std::str::from_utf8] succeeds *)
Fixpoint utf8_valid (b : bytes) : bool :=
  match b with
  | [] => true
  | x :: b =>
      if x <=? 127 then utf8_valid b
      else if (194 <=? x) && (x <=? 223) then
        match b with y :: b => utf8_cont y && utf8_valid b | _ => false end
      else if (224 <=? x) && (x <=? 239) then
        match b with y :: z :: b => utf8_second x y && utf8_cont z && utf8_valid b | _ => false end
      else if (240 <=? x) && (x <=? 244) then
        match b with
        | y :: z :: w :: b => utf8_second x y && utf8_cont z && utf8_cont w && utf8_valid b
        | _ => false
        end
      else false
  end.

Record BoundedText (maximum : Z) : Type := MkBoundedText { bt_text : bytes }.
Arguments MkBoundedText {maximum} _.
Arguments bt_text {maximum} _.

(** [BoundedText::new] *)
Definition bounded_text_new {maximum} (value : bytes) : Result (BoundedText maximum) DecodeError :=
  if maximum <? zlen value then Err TooLarge else Ok (MkBoundedText value).

#[export] Instance bounded_text_wire {maximum} : WireValue (BoundedText maximum) := {
  encode_atom v output :=
    if maximum <? zlen (bt_text v) then Err TooLarge else put_atom output (bt_text v);
  decode_atom input :=
    let? (payload, input) := get_atom input maximum in
    if utf8_valid payload then Ok (MkBoundedText payload, input) else Err InvalidUtf8
}.

(** ** [FixedBytes] *)
Record FixedBytes (length : Z) : Type := MkFixedBytes { fb_val : bytes }.
Arguments MkFixedBytes {length} _.
Arguments fb_val {length} _.

#[export] Instance fixed_bytes_wire {length} : WireValue (FixedBytes length) := {
  encode_atom v output := put_atom output (fb_val v);
  decode_atom input :=
    let? (payload, input) := get_atom input length in
    if zlen payload =? length then Ok (MkFixedBytes payload, input) else Err InvalidValue
}.

(** ** [BoundedVec] *)
Record BoundedVec (A : Type) (minimum maximum : Z) : Type := MkBoundedVec { bv_val : list A }.
Arguments MkBoundedVec {A minimum maximum} _.
Arguments bv_val {A minimum maximum} _.

(** [check_item_count] *)
Definition check_item_count (minimum maximum count : Z) : Result unit DecodeError :=
  if count <? minimum then Err TooFewItems
  else if maximum <? count then Err TooManyItems
  else Ok tt.

(** [BoundedVec::new] *)
Definition bounded_vec_new {A minimum maximum} (value : list A) :
    Result (BoundedVec A minimum maximum) DecodeError :=
  let? _ := check_item_count minimum maximum (zlen value) in Ok (MkBoundedVec value).

Fixpoint encode_items {A} `{WireValue A} (items : list A) (fields : bytes) :
    Result bytes DecodeError :=
  match items with
  | [] => Ok fields
  | item :: items => let? fields := encode_atom item fields in encode_items items fields
  end.

Fixpoint decode_items {A} `{WireValue A} (count : nat) (fields : bytes) :
    Result (list A * bytes) DecodeError :=
  match count with
  | O => Ok ([], fields)
  | S count =>
      let? (item, fields) := decode_atom fields in
      let? (items, fields) := decode_items count fields in
      Ok (item :: items, fields)
  end.

#[export] Instance bounded_vec_wire {A minimum maximum} `{WireValue A} :
    WireValue (BoundedVec A minimum maximum) := {
  encode_atom v output :=
    let? _ := check_item_count minimum maximum (zlen (bv_val v)) in
    let? fields := put_u64 [] (zlen (bv_val v)) in
    let? fields := encode_items (bv_val v) fields in
    put_compound_payload output fields;
  decode_atom input :=
    let? (fields, input) := get_atom input usize_max in
    let? (count, fields) := get_u64 fields in
    let? _ := check_item_count minimum maximum count in
    let? (values, fields) := decode_items (Z.to_nat count) fields in
    let? _ := require_empty fields in
    Ok (MkBoundedVec values, input)
}.

(** ** [BoundedMap] *)
Record BoundedMap (K V : Type) (maximum : Z) : Type := MkBoundedMap { bm_val : btmap K V }.
Arguments MkBoundedMap {K V maximum} _.
Arguments bm_val {K V maximum} _.

(** [BoundedMap::new] *)
Definition bounded_map_new {K V maximum} (value : btmap K V) :
    Result (BoundedMap K V maximum) DecodeError :=
  if maximum <? zlen value then Err TooManyItems else Ok (MkBoundedMap value).

Fixpoint encode_entries {K V} `{WireValue K, WireValue V} (entries : list (K * V)) (fields : bytes) :
    Result bytes DecodeError :=
  match entries with
  | [] => Ok fields
  | (key, value) :: entries =>
      let? fields := encode_atom key fields in
      let? fields := encode_atom value fields in
      encode_entries entries fields
  end.

Fixpoint decode_entries {K V} `{Ord K, WireValue K, WireValue V} (count : nat) (values : btmap K V)
    (fields : bytes) : Result (btmap K V * bytes) DecodeError :=
  match count with
  | O => Ok (values, fields)
  | S count =>
      let? (key, fields) := decode_atom fields in
      let? (value, fields) := decode_atom fields in
      if bt_contains key values then Err InvalidValue
      else decode_entries count (bt_insert key value values) fields
  end.

#[export] Instance bounded_map_wire {K V maximum} `{Ord K, WireValue K, WireValue V} :
    WireValue (BoundedMap K V maximum) := {
  encode_atom v output :=
    if maximum <? zlen (bm_val v) then Err TooManyItems
    else
      let? fields := put_u64 [] (zlen (bm_val v)) in
      let? fields := encode_entries (bm_val v) fields in
      put_compound_payload output fields;
  decode_atom input :=
    let? (fields, input) := get_atom input usize_max in
    let? (count, fields) := get_u64 fields in
    if maximum <? count then Err TooManyItems
    else
      let? (values, fields) := decode_entries (Z.to_nat count) [] fields in
      let? _ := require_empty fields in
      Ok (MkBoundedMap values, input)
}.

(** ** [Option] *)
Definition option_fields {A} `{WireValue A} (v : option A) : Result bytes DecodeError :=
  match v with
  | None => put_u64 [] 0
  | Some value => let? fields := put_u64 [] 1 in encode_atom value fields
  end.

#[export] Instance option_wire {A} `{WireValue A} : WireValue (option A) := {
  encode_atom v output :=
    let? fields := option_fields v in put_compound_payload output fields;
  decode_atom input :=
    let? (fields, input) := get_atom input usize_max in
    let? (tag, fields) := get_u64 fields in
    let? (value, fields) :=
      match tag with
      | 0 => Ok (None, fields)
      | 1 => let? (value, fields) := decode_atom fields in Ok (Some value, fields)
      | _ => Err InvalidValue
      end in
    let? _ := require_empty fields in
    Ok (value, input)
}.

(** ** The laws of the instances *)

Lemma consumes_cons pre rest : pre ≠ [] → consumes (pre ++ rest) rest.
Proof. intros. by exists pre. Qed.

Lemma consumes_trans a b c : consumes a b → consumes b c → consumes a c.
Proof.
  intros (p&->&Hp) (q&->&_). exists (p ++ q). rewrite <- app_assoc. split; [done|].
  by intros [-> _]%app_eq_nil.
Qed.

Lemma get_atom_consumes input maximum payload rest :
  bytes_ok input → get_atom input maximum = Ok (payload, rest) →
  bytes_ok payload ∧ zlen payload ≤ maximum ∧ consumes input rest.
Proof.
  intros Hok Hget. destruct (get_atom_split _ _ _ _ Hok Hget) as (pre&->&Hne&Hl).
  rewrite !Forall_app in Hok. split_and!; [naive_solver|done|].
  rewrite app_assoc. by apply consumes_cons.
Qed.

Lemma consumes_bytes input rest : bytes_ok input → consumes input rest → bytes_ok rest.
Proof. intros Hok (pre&->&_). by apply Forall_app in Hok as [_ ?]. Qed.

Lemma one_atom_bytes e : one_atom e → bytes_ok e.
Proof. intros (p&Hp&Hl&[->| ->]); [by apply atom_bytes|by apply compound_bytes]. Qed.

(** A payload under the limit of its type is written as its atom, and read. *)
Lemma atom_cases payload maximum :
  bytes_ok payload → zlen payload ≤ maximum →
  (∃ e, (∀ output, put_atom output payload = Ok (output ++ e)) ∧ one_atom e ∧
     ∀ rest, get_atom (e ++ rest) maximum = Ok (payload, rest))
  ∨ ∀ output, put_atom output payload = Err LengthOverflow.
Proof.
  intros Hok Hl. destruct (Z.lt_ge_cases (zlen payload) atom_limit) as [Hlt|Hge].
  - left. exists (atom payload). split_and!.
    + intros. by apply put_atom_ok.
    + exists payload. auto.
    + intros rest. rewrite get_atom_atom by done. by rewrite (proj2 (Z.ltb_ge _ _) Hl).
  - right. intros. by apply put_atom_too_long.
Qed.

Lemma compound_cases fields :
  bytes_ok fields →
  (∃ e, (∀ output, put_compound_payload output fields = Ok (output ++ e)) ∧ one_atom e ∧
     ∀ rest, get_atom (e ++ rest) usize_max = Ok (fields, rest))
  ∨ ∀ output, put_compound_payload output fields = Err LengthOverflow.
Proof.
  intros Hok. destruct (Z.lt_ge_cases (zlen fields) atom_limit) as [Hlt|Hge].
  - left. exists (compound fields). split_and!.
    + intros. by apply put_compound_ok.
    + exists fields. auto.
    + intros rest. rewrite get_atom_compound by done.
      by rewrite (proj2 (Z.ltb_ge _ _)) by (unfold usize_max, u64_limit, atom_limit in *; lia).
  - right. intros. by apply put_compound_too_long.
Qed.

Lemma u64_atom v :
  0 ≤ v < u64_limit →
  ∃ e, (∀ output, put_u64 output v = Ok (output ++ e)) ∧ one_atom e ∧
    ∀ rest, get_u64 (e ++ rest) = Ok (v, rest).
Proof.
  intros Hv. destruct (u64_bytes_spec v Hv) as (Hb&Hl&_).
  exists (atom (u64_bytes v)). split_and!.
  - intros. by apply put_u64_ok.
  - exists (u64_bytes v). split_and!; [done|unfold atom_limit; lia|by left].
  - intros. by apply get_u64_atom.
Qed.

(** A bound on constants that the instances decide. *)
Class Bounded (a b : Z) : Prop := bounded : (a <=? b) = true.
#[export] Hint Extern 0 (Bounded _ _) => reflexivity : typeclass_instances.

Lemma pow2_le_u64 width : (width <=? 64) = true → 2 ^ width ≤ u64_limit.
Proof. intros Hw%Z.leb_le. by apply Z.pow_le_mono_r. Qed.

#[export] Program Instance uint_laws {width} `{Bounded width 64} :
    WireLaws (uint width) := {
  wire_ok v := 0 ≤ uint_val v < 2 ^ width
}.
Next Obligation.
  intros width Hw [v] Hv. simpl in Hv. left.
  destruct (u64_atom v) as (e&He&Hb&Hr); [pose proof (pow2_le_u64 width); naive_solver lia|].
  exists e. split; [done|]. split; [done|]. intros rest. simpl. rewrite Hr. simpl.
  by rewrite (proj2 (Z.ltb_lt _ _)) by lia.
Qed.
Next Obligation.
  intros width _ input [v] rest Hok. simpl. destruct (get_u64 input) as [[w r]|] eqn:Hg; simpl; [|done].
  destruct (get_u64_range _ _ _ Hok Hg) as [Hw Hc]. destruct (Z.ltb_spec w (2 ^ width)); [|done].
  intros [= -> ->]. split; [lia|done].
Qed.

Lemma pow2_le_i64 width : (width <=? 64) = true → 2 ^ (width - 1) ≤ 2 ^ 63.
Proof. intros Hw%Z.leb_le. apply Z.pow_le_mono_r; lia. Qed.

#[export] Program Instance sint_laws {width} `{Bounded width 64} :
    WireLaws (sint width) := {
  wire_ok v := - 2 ^ (width - 1) ≤ sint_val v < 2 ^ (width - 1)
}.
Next Obligation.
  intros width Hw [v] Hv. simpl in Hv. left.
  assert (Hi : i64_ok v) by (pose proof (pow2_le_i64 width); unfold i64_ok; naive_solver lia).
  destruct (u64_atom (zigzag v)) as (e&He&Hb&Hr); [by apply zigzag_range|].
  exists e. split; [done|]. split; [done|]. intros rest. simpl. unfold get_i64. rewrite Hr. simpl.
  rewrite unzigzag_zigzag by done.
  by rewrite (proj2 (Z.leb_le _ _)), (proj2 (Z.ltb_lt _ _)) by lia.
Qed.
Next Obligation.
  intros width _ input [v] rest Hok. simpl. unfold get_i64.
  destruct (get_u64 input) as [[w r]|] eqn:Hg; simpl; [|done].
  destruct (get_u64_range _ _ _ Hok Hg) as [Hw Hc]. destruct (_ && _) eqn:E; [|done].
  intros [= <- <-]. split; [|done]. split_andb. by split; [apply Z.leb_le|apply Z.ltb_lt].
Qed.

#[export] Program Instance f64_laws : WireLaws F64 := {
  wire_ok v := 0 ≤ f64_bits v < u64_limit
}.
Next Obligation.
  intros [v] Hv. simpl in Hv. pose proof (le_encode_bytes 8 v) as Hok.
  pose proof (le_roundtrip 8 v Hv) as Hd. pose proof (le_encode_length 8 v) as Hl.
  unfold writes. cbn [encode_atom f64_wire f64_bits].
  generalize dependent (le_encode 8 v). intros p Hok Hd Hl.
  assert (Hz : zlen p = 8) by (unfold zlen; lia).
  destruct (atom_cases p 8 Hok) as [(e&He&Hb&Hr)|Herr]; [lia| |by right].
  left. exists e. split; [done|]. split; [done|]. intros rest. simpl. rewrite Hr. simpl.
  by rewrite Hz, Hd.
Qed.
Next Obligation.
  intros input [v] rest Hok. simpl. destruct (get_atom input 8) as [[p r]|] eqn:Hg; simpl rbind; [|done].
  destruct (get_atom_consumes _ _ _ _ Hok Hg) as (Hp&_&Hc).
  destruct (Z.eqb_spec (zlen p) 8) as [Hl|]; [|done]. intros [= <- <-]. split; [|done].
  simpl. pose proof (le_decode_bound p Hp) as Hb. by rewrite Hl in Hb.
Qed.

#[export] Program Instance bool_laws : WireLaws bool := { wire_ok _ := True }.
Next Obligation.
  intros v _. left. destruct (u64_atom (if v then 1 else 0)) as (e&He&Hb&Hr); [by destruct v|].
  exists e. split; [done|]. split; [done|]. intros rest. simpl. rewrite Hr. by destruct v.
Qed.
Next Obligation.
  intros input v rest Hok. simpl. destruct (get_u64 input) as [[w r]|] eqn:Hg; simpl rbind; [|done].
  destruct (get_u64_range _ _ _ Hok Hg) as [_ Hc]. by destruct w as [|[p|p|]|p]; intros Heq; simplify_eq.
Qed.

#[export] Program Instance unit_laws : WireLaws unit := { wire_ok _ := True }.
Next Obligation.
  intros [] _. left. exists (compound []). split; [intros; by apply put_compound_ok|].
  split; [exists []; split_and!; [done|done|by right]|].
  intros rest. cbn [decode_atom unit_wire]. by rewrite get_atom_compound.
Qed.
Next Obligation.
  intros input [] rest Hok. simpl. destruct (get_atom input 0) as [[p r]|] eqn:Hg; simpl rbind; [|done].
  destruct (get_atom_consumes _ _ _ _ Hok Hg) as (_&_&Hc). by destruct p; intros Heq; simplify_eq.
Qed.

#[export] Program Instance bounded_bytes_laws {maximum} : WireLaws (BoundedBytes maximum) := {
  wire_ok v := bytes_ok (bb_val v) ∧ zlen (bb_val v) ≤ maximum
}.
Next Obligation.
  intros maximum [v] [Hok Hl]. simpl in *. unfold writes. simpl.
  rewrite (proj2 (Z.ltb_ge _ _) Hl).
  destruct (atom_cases v maximum Hok Hl) as [(e&He&Hb&Hr)|?]; [|by right].
  left. exists e. split; [done|]. split; [done|]. intros rest. simpl. by rewrite Hr.
Qed.
Next Obligation.
  intros maximum input [v] rest Hok. simpl.
  destruct (get_atom input maximum) as [[p r]|] eqn:Hg; simpl; [|done].
  destruct (get_atom_consumes _ _ _ _ Hok Hg) as (?&?&?). by intros [= <- <-].
Qed.

#[export] Program Instance bounded_text_laws {maximum} : WireLaws (BoundedText maximum) := {
  wire_ok v := bytes_ok (bt_text v) ∧ utf8_valid (bt_text v) = true ∧ zlen (bt_text v) ≤ maximum
}.
Next Obligation.
  intros maximum [v] (Hok&Hu&Hl). simpl in *. unfold writes. simpl.
  rewrite (proj2 (Z.ltb_ge _ _) Hl).
  destruct (atom_cases v maximum Hok Hl) as [(e&He&Hb&Hr)|?]; [|by right].
  left. exists e. split; [done|]. split; [done|]. intros rest. simpl. rewrite Hr. simpl.
  by rewrite Hu.
Qed.
Next Obligation.
  intros maximum input [v] rest Hok. simpl.
  destruct (get_atom input maximum) as [[p r]|] eqn:Hg; simpl; [|done].
  destruct (get_atom_consumes _ _ _ _ Hok Hg) as (?&?&?). destruct (utf8_valid p) eqn:Hu; [|done].
  by intros [= <- <-].
Qed.

#[export] Program Instance fixed_bytes_laws {length} : WireLaws (FixedBytes length) := {
  wire_ok v := bytes_ok (fb_val v) ∧ zlen (fb_val v) = length
}.
Next Obligation.
  intros length [v] [Hok <-]. simpl in Hok.
  destruct (atom_cases v (zlen v) Hok) as [(e&He&Hb&Hr)|?]; [lia| |by right].
  left. exists e. split; [done|]. split; [done|]. intros rest. simpl. rewrite Hr. simpl.
  by rewrite Z.eqb_refl.
Qed.
Next Obligation.
  intros length input [v] rest Hok. simpl.
  destruct (get_atom input length) as [[p r]|] eqn:Hg; simpl; [|done].
  destruct (get_atom_consumes _ _ _ _ Hok Hg) as (?&?&?). destruct (Z.eqb_spec (zlen p) length); [|done].
  by intros [= <- <-].
Qed.

(** ** Sequences *)

Section sequences.
Context {A : Type} `{WireLaws A}.

Lemma items_written (items : list A) :
  Forall wire_ok items →
  (∃ e, (∀ fields, encode_items items fields = Ok (fields ++ e)) ∧ bytes_ok e ∧
     ∀ rest, decode_items (length items) (e ++ rest) = Ok (items, rest))
  ∨ ∀ fields, encode_items items fields = Err LengthOverflow.
Proof.
  induction 1 as [|item items Hi _ IH]; simpl.
  - left. exists []. split_and!; [intros; by rewrite app_nil_r|done|done].
  - destruct (wire_writes item Hi) as [(e1&He1&Hb1%one_atom_bytes&Hr1)|Herr].
    2:{ right. intros. by rewrite Herr. }
    destruct IH as [(e2&He2&Hb2&Hr2)|Herr].
    2:{ right. intros. rewrite He1. simpl. apply Herr. }
    left. exists (e1 ++ e2). split_and!.
    + intros. rewrite He1. simpl. by rewrite He2, <- app_assoc.
    + by apply Forall_app.
    + intros rest. rewrite <- app_assoc, Hr1. simpl. by rewrite Hr2.
Qed.

Lemma items_read count fields (items : list A) rest :
  bytes_ok fields → decode_items count fields = Ok (items, rest) →
  Forall wire_ok items ∧ length items = count ∧ bytes_ok rest.
Proof.
  revert fields items. induction count as [|count IH]; intros fields items Hok; simpl.
  - intros [= <- <-]. done.
  - destruct (decode_atom fields) as [[item f]|] eqn:Hi; simpl; [|done].
    destruct (wire_reads _ _ _ Hok Hi) as [Hw Hc]. pose proof (consumes_bytes _ _ Hok Hc) as Hf.
    destruct (decode_items count f) as [[its r]|] eqn:Hits; simpl; [|done].
    intros [= <- <-]. destruct (IH _ _ Hf Hits) as (?&?&?). simpl. split_and!; [by constructor|lia|done].
Qed.

End sequences.

Lemma check_item_count_ok minimum maximum count u :
  check_item_count minimum maximum count = Ok u ↔ minimum ≤ count ≤ maximum.
Proof.
  unfold check_item_count. destruct (Z.ltb_spec count minimum), (Z.ltb_spec maximum count);
    destruct u; naive_solver lia.
Qed.

#[export] Program Instance bounded_vec_laws {A minimum maximum} `{WireLaws A}
    `{Bounded maximum usize_max} : WireLaws (BoundedVec A minimum maximum) := {
  wire_ok v := Forall wire_ok (bv_val v) ∧ minimum ≤ zlen (bv_val v) ≤ maximum
}.
Next Obligation.
  intros A minimum maximum HA HL Hm [items] [Hall Hlen]. simpl in *. apply Z.leb_le in Hm.
  unfold writes. simpl.
  rewrite (proj2 (check_item_count_ok minimum maximum (zlen items) tt) Hlen). simpl.
  destruct (u64_atom (zlen items)) as (c&Hc&Hcb%one_atom_bytes&Hcr);
    [pose proof (zlen_nonneg items); unfold usize_max in Hm; lia|].
  destruct (items_written items Hall) as [(e&He&Hb&Hr)|Herr].
  2:{ right. intros. rewrite Hc. simpl. by rewrite Herr. }
  destruct (compound_cases (c ++ e)) as [(w&Hw&Hwb&Hwr)|Herr]; [by apply Forall_app| |].
  - left. exists w. split; [intros; rewrite Hc; simpl; rewrite He; simpl; apply Hw|].
    split; [done|]. intros rest. simpl. rewrite Hwr. simpl. rewrite Hcr. simpl.
    rewrite (proj2 (check_item_count_ok minimum maximum (zlen items) tt) Hlen). simpl.
    unfold zlen. rewrite Nat2Z.id. pose proof (Hr []) as Hr'. rewrite app_nil_r in Hr'.
    by rewrite Hr'.
  - right. intros. rewrite Hc. simpl. rewrite He. simpl. apply Herr.
Qed.
Next Obligation.
  intros A minimum maximum HA HL _ input [items] rest Hok. simpl.
  destruct (get_atom input usize_max) as [[f r]|] eqn:Hg; simpl; [|done].
  destruct (get_atom_consumes _ _ _ _ Hok Hg) as (Hf&_&Hc).
  destruct (get_u64 f) as [[count f']|] eqn:Hu; simpl; [|done].
  destruct (get_u64_range _ _ _ Hf Hu) as [Hcount Hfc]. pose proof (consumes_bytes _ _ Hf Hfc) as Hf'.
  destruct (check_item_count _ _ _) eqn:Hcheck; simpl; [|done]. apply check_item_count_ok in Hcheck.
  destruct (decode_items _ f') as [[its f'']|] eqn:Hi; simpl; [|done].
  destruct (items_read _ _ _ _ Hf' Hi) as (Hall&Hl&_).
  destruct (require_empty f''); simpl; [|done]. intros [= <- <-]. split; [|done]. split; [done|].
  simpl. unfold zlen. rewrite Hl. lia.
Qed.

(** ** Maps *)

Section maps.
Context {K V : Type} `{OrdLaws K, !WireValue K, !WireLaws K, WireLaws V}.

Definition entry_ok (e : K * V) : Prop := wire_ok e.1 ∧ wire_ok e.2.

Lemma entries_written (m acc : btmap K V) :
  Forall entry_ok m → bt_ok (acc ++ m) = true →
  (∃ e, (∀ fields, encode_entries m fields = Ok (fields ++ e)) ∧ bytes_ok e ∧
     ∀ rest, decode_entries (length m) acc (e ++ rest) = Ok (acc ++ m, rest))
  ∨ ∀ fields, encode_entries m fields = Err LengthOverflow.
Proof.
  intros Hall. revert acc. induction Hall as [|[k v] m [Hk Hv] _ IH]; intros acc Hok; simpl.
  - left. exists []. rewrite app_nil_r. split_and!; [intros; by rewrite app_nil_r|done|done].
  - destruct (wire_writes k Hk) as [(e1&He1&Hb1%one_atom_bytes&Hr1)|Herr].
    2:{ right. intros. by rewrite Herr. }
    destruct (wire_writes v Hv) as [(e2&He2&Hb2%one_atom_bytes&Hr2)|Herr].
    2:{ right. intros. rewrite He1. simpl. by rewrite Herr. }
    assert (Hok' : bt_ok ((acc ++ [(k, v)]) ++ m) = true) by (by rewrite <- app_assoc).
    destruct (IH _ Hok') as [(e3&He3&Hb3&Hr3)|Herr].
    2:{ right. intros. rewrite He1. simpl. rewrite He2. simpl. apply Herr. }
    left. exists (e1 ++ e2 ++ e3). split_and!.
    + intros. rewrite He1. simpl. rewrite He2. simpl. by rewrite He3, <- !app_assoc.
    + by rewrite !Forall_app.
    + intros rest. rewrite <- !app_assoc, Hr1. simpl. rewrite Hr2. simpl.
      apply bt_ok_prefix in Hok. rewrite bt_contains_get, (bt_get_snoc _ _ _ Hok).
      rewrite bt_insert_snoc by done. rewrite Hr3. by rewrite <- app_assoc.
Qed.

Lemma entries_read count (acc m : btmap K V) fields rest :
  bytes_ok fields → Forall entry_ok acc → bt_ok acc = true →
  decode_entries count acc fields = Ok (m, rest) →
  Forall entry_ok m ∧ bt_ok m = true ∧ length m = (length acc + count)%nat.
Proof.
  revert acc fields. induction count as [|count IH]; intros acc fields Hok Hall Hacc; simpl.
  - intros [= <- <-]. split_and!; [done|done|lia].
  - destruct (decode_atom fields) as [[k f1]|] eqn:Hk; simpl; [|done].
    destruct (wire_reads _ _ _ Hok Hk) as [Hwk Hc1]. pose proof (consumes_bytes _ _ Hok Hc1) as Hf1.
    destruct (decode_atom f1) as [[v f2]|] eqn:Hv; simpl; [|done].
    destruct (wire_reads _ _ _ Hf1 Hv) as [Hwv Hc2]. pose proof (consumes_bytes _ _ Hf1 Hc2) as Hf2.
    rewrite bt_contains_get. destruct (bt_get k acc) eqn:Hget; [done|]. intros Hd.
    assert (Hall' : Forall entry_ok (bt_insert k v acc)).
    { apply Forall_forall. intros [k' v'] Hin%bt_insert_elem. rewrite Forall_forall in Hall.
      destruct Hin as [[-> ->]|Hin]; [done|by apply Hall]. }
    destruct (IH _ _ Hf2 Hall' (bt_ok_insert _ _ _ Hacc) Hd) as (?&?&Hl).
    rewrite bt_insert_length in Hl by done. split_and!; [done|done|lia].
Qed.
End maps.

#[export] Program Instance bounded_map_laws {K V maximum} `{OrdLaws K, !WireValue K, !WireLaws K, WireLaws V}
    `{Bounded maximum usize_max} : WireLaws (BoundedMap K V maximum) := {
  wire_ok v := Forall entry_ok (bm_val v) ∧ bt_ok (bm_val v) = true ∧ zlen (bm_val v) ≤ maximum
}.
Next Obligation.
  intros K V maximum ? ? ? ? ? ? Hm [m] (Hall&Hok&Hlen). simpl in *. apply Z.leb_le in Hm.
  unfold writes. simpl. rewrite (proj2 (Z.ltb_ge _ _) Hlen).
  destruct (u64_atom (zlen m)) as (c&Hc&Hcb%one_atom_bytes&Hcr);
    [pose proof (zlen_nonneg m); unfold usize_max in Hm; lia|].
  destruct (entries_written m [] Hall Hok) as [(e&He&Hb&Hr)|Herr].
  2:{ right. intros. rewrite Hc. simpl. by rewrite Herr. }
  destruct (compound_cases (c ++ e)) as [(w&Hw&Hwb&Hwr)|Herr]; [by apply Forall_app| |].
  - left. exists w. split; [intros; rewrite Hc; simpl; rewrite He; simpl; apply Hw|].
    split; [done|]. intros rest. simpl. rewrite Hwr. simpl. rewrite Hcr. simpl.
    rewrite (proj2 (Z.ltb_ge _ _) Hlen). unfold zlen. rewrite Nat2Z.id.
    pose proof (Hr []) as Hr'. rewrite app_nil_r in Hr'. by rewrite Hr'.
  - right. intros. rewrite Hc. simpl. rewrite He. simpl. apply Herr.
Qed.
Next Obligation.
  intros K V maximum ? ? ? ? ? ? _ input [m] rest Hok. simpl.
  destruct (get_atom input usize_max) as [[f r]|] eqn:Hg; simpl; [|done].
  destruct (get_atom_consumes _ _ _ _ Hok Hg) as (Hf&_&Hc).
  destruct (get_u64 f) as [[count f']|] eqn:Hu; simpl; [|done].
  destruct (get_u64_range _ _ _ Hf Hu) as [Hcount Hfc]. pose proof (consumes_bytes _ _ Hf Hfc) as Hf'.
  destruct (Z.ltb_spec maximum count); [done|].
  destruct (decode_entries _ [] f') as [[its f'']|] eqn:Hi; simpl; [|done].
  destruct (entries_read _ _ _ _ _ Hf' ltac:(done) ltac:(done) Hi) as (Hall&?&Hl).
  destruct (require_empty f''); simpl; [|done]. intros [= <- <-]. split; [|done]. split_and!; [done..|].
  simpl. unfold zlen. simpl in Hl. lia.
Qed.

(** ** Options *)

Definition option_ok {A} `{WireLaws A} (v : option A) : Prop :=
  match v with Some a => wire_ok a | None => True end.

Lemma option_fields_written {A} `{WireLaws A} (v : option A) :
  option_ok v →
  (∃ f, option_fields v = Ok f ∧ bytes_ok f ∧ ∃ tag body, get_u64 f = Ok (tag, body) ∧
     match v with None => tag = 0 ∧ body = [] | Some a => tag = 1 ∧ decode_atom body = Ok (a, []) end)
  ∨ option_fields v = Err LengthOverflow.
Proof.
  intros Hv. unfold option_fields. destruct v as [a|].
  - destruct (u64_atom 1) as (c&Hc&Hcb%one_atom_bytes&Hcr); [done|]. rewrite Hc. cbn [rbind app].
    destruct (wire_writes a Hv) as [(e&He&Hb%one_atom_bytes&Hr)|Herr]; [|right; apply Herr].
    left. exists (c ++ e). rewrite He. split_and!; [done|by apply Forall_app|].
    exists 1, e. split; [apply Hcr|]. split; [done|]. pose proof (Hr []) as Hr'.
    by rewrite app_nil_r in Hr'.
  - destruct (u64_atom 0) as (c&Hc&Hcb%one_atom_bytes&Hcr); [done|]. left. exists c. split_and!; [apply Hc|done|].
    exists 0, []. pose proof (Hcr []) as Hcr'. by rewrite app_nil_r in Hcr'.
Qed.

#[export] Program Instance option_laws {A} `{WireLaws A} : WireLaws (option A) := {
  wire_ok := option_ok
}.
Next Obligation.
  intros A HA HL v Hv. unfold writes. cbn [encode_atom decode_atom option_wire].
  destruct (option_fields_written v Hv) as [(f&->&Hfb&tag&body&Htag&Hbody)| ->]; [|by right]. simpl.
  destruct (compound_cases f Hfb) as [(w&Hw&Hwb&Hwr)|Herr]; [|by right].
  left. exists w. split; [done|]. split; [done|]. intros rest. simpl. rewrite Hwr. simpl.
  rewrite Htag. simpl. destruct v as [a|]; destruct Hbody as [-> Hb]; rewrite Hb; done.
Qed.
Next Obligation.
  intros A HA HL input v rest Hok. simpl.
  destruct (get_atom input usize_max) as [[f r]|] eqn:Hg; simpl; [|done].
  destruct (get_atom_consumes _ _ _ _ Hok Hg) as (Hf&_&Hc).
  destruct (get_u64 f) as [[tag f']|] eqn:Hu; simpl; [|done].
  destruct (get_u64_range _ _ _ Hf Hu) as [_ Hfc]. pose proof (consumes_bytes _ _ Hf Hfc) as Hf'.
  destruct tag as [|[p|p|]|p]; simpl; try done.
  - destruct (require_empty f'); simpl; [|done]. by intros [= <- <-].
  - destruct (decode_atom f') as [[a f'']|] eqn:Ha; simpl; [|done].
    destruct (wire_reads _ _ _ Hf' Ha) as [Hw _].
    destruct (require_empty f''); simpl; [|done]. by intros [= <- <-].
Qed.

(** ** [#[derive(Ord)]] on the keys of maps *)

#[export] Instance bounded_bytes_ord {maximum} : Ord (BoundedBytes maximum) :=
  λ a b, cmp (bb_val a) (bb_val b).
#[export] Instance bounded_text_ord {maximum} : Ord (BoundedText maximum) :=
  λ a b, cmp (bt_text a) (bt_text b).

#[export] Instance bounded_bytes_ord_laws {maximum} : OrdLaws (BoundedBytes maximum).
Proof.
  split; unfold cmp, bounded_bytes_ord; intros.
  - rewrite (cmp_eq_iff (bb_val x)). destruct x, y; simpl; naive_solver.
  - apply (cmp_opp (bb_val x)).
  - by eapply (cmp_lt_trans (bb_val x)).
Qed.
#[export] Instance bounded_text_ord_laws {maximum} : OrdLaws (BoundedText maximum).
Proof.
  split; unfold cmp, bounded_text_ord; intros.
  - rewrite (cmp_eq_iff (bt_text x)). destruct x, y; simpl; naive_solver.
  - apply (cmp_opp (bt_text x)).
  - by eapply (cmp_lt_trans (bt_text x)).
Qed.
