(* ===== verification/WireFrames.v ===== *)
(** * Typed frames of the box channel.

    Models [engine/src/frames.rs]: [encode] and [decode] of [(type, payload)]
    frames, the resize and echo payloads, and the receive loop of
    [engine/src/pty.rs] that keeps the undecoded end of the stream.  A frame is
    a compound of the type's atom and the payload's atom. *)

From S2P Require Import Prelude.
From S2P Require Import WireAtoms.
Open Scope Z_scope.
Open Scope sarun_scope.

(** [MAX_FRAME_LEN] *)
Definition MAX_FRAME_LEN : Z := 16 * 1024 * 1024.

Definition Frame : Type := (Z * bytes)%type.

(** [pty_resize_payload] and [pty_resize_parse] *)
Definition u16_be (v : Z) : bytes := [Z.shiftr v 8; Z.land v 255].
Definition pty_resize_payload (rows cols : Z) : bytes := u16_be rows ++ u16_be cols.
Definition pty_resize_parse (payload : bytes) : option (Z * Z) :=
  match payload with
  | a :: b :: c :: d :: _ => Some (a * 256 + b, c * 256 + d)
  | _ => None
  end.

(** [echo_payload] *)
Definition echo_payload (stream : Z) (data : bytes) : bytes := stream :: data.

(** [encode]; the assertion and the [expect] of the source panic ([None]). *)
Definition type_payload (ftype : Z) : bytes := if ftype =? 0 then [] else [ftype].
Definition encode (ftype : Z) (payload : bytes) : option bytes :=
  if zlen payload + 1 <=? MAX_FRAME_LEN then
    match put_many [] [type_payload ftype; payload] with Ok out => Some out | Err _ => None end
  else None.

(** One round of the loop of [decode]. *)
Inductive Step : Type :=
| Decoded (frame : Frame) (remaining : bytes)
| Partial
| Malformed.

Definition decode_step (remaining : bytes) : Step :=
  match get_atom remaining (MAX_FRAME_LEN + 16) with
  | Err Truncated => Partial
  | Err _ => Malformed
  | Ok (outer, remaining) =>
      match get_u64 outer with
      | Err _ => Malformed
      | Ok (ftype, fields) =>
          match get_atom fields MAX_FRAME_LEN with
          | Err _ => Malformed
          | Ok (payload, fields) =>
              if (255 <? ftype) || negb (match fields with [] => true | _ => false end)
                 || (MAX_FRAME_LEN <? zlen payload + 1)
              then Malformed
              else Decoded (ftype, payload) remaining
          end
      end
  end.

(** [decode]: the frames, and the number of bytes they took; after something
    malformed, all of them. *)
Fixpoint decode_loop (fuel : nat) (size : Z) (remaining : bytes) (frames : list Frame) :
    option (list Frame * Z) :=
  match remaining, fuel with
  | [], _ => Some (frames, size - 0)
  | _, O => None
  | _, S fuel =>
      match decode_step remaining with
      | Partial => Some (frames, size - zlen remaining)
      | Malformed => Some (frames, size)
      | Decoded frame remaining => decode_loop fuel size remaining (frames ++ [frame])
      end
  end.
Definition decode (buf : bytes) : option (list Frame * Z) :=
  decode_loop (length buf) (zlen buf) buf [].

(** The receive loop of [pty.rs]: extend the accumulator, decode, drain. *)
Definition receive (acc chunk : bytes) : option (list Frame * bytes) :=
  let acc := acc ++ chunk in
  match decode acc with
  | Some (frames, used) => Some (frames, drop (Z.to_nat used) acc)
  | None => None
  end.
Fixpoint receive_all (acc : bytes) (chunks : list bytes) : option (list Frame * bytes) :=
  match chunks with
  | [] => Some ([], acc)
  | chunk :: chunks =>
      match receive acc chunk with
      | None => None
      | Some (frames, acc) =>
          match receive_all acc chunks with
          | None => None
          | Some (more, acc) => Some (frames ++ more, acc)
          end
      end
  end.

(** ** Frames on the wire *)

Definition frame_ok (f : Frame) : Prop :=
  0 ≤ f.1 < 256 ∧ bytes_ok f.2 ∧ zlen f.2 + 1 ≤ MAX_FRAME_LEN.

Definition frame_bytes (f : Frame) : bytes := compound (atoms [type_payload f.1; f.2]).
Definition stream (fs : list Frame) : bytes := concat (frame_bytes <$> fs).

Lemma type_payload_u64 t : 0 ≤ t < 256 → type_payload t = u64_bytes t.
Proof.
  intros Ht. unfold type_payload, u64_bytes. cbn [u64_bytes_loop].
  destruct (Z.eqb_spec t 0) as [->|Hne]; [done|].
  rewrite shiftr8, Z.div_small, land255, Z.mod_small by lia. done.
Qed.

Lemma frame_atoms f :
  atoms [type_payload f.1; f.2] = atom (type_payload f.1) ++ atom f.2.
Proof. unfold atoms. simpl. by rewrite app_nil_r. Qed.

Lemma frame_sizes f :
  frame_ok f → zlen (type_payload f.1) ≤ 1 ∧ zlen f.2 < atom_limit ∧
    zlen (atoms [type_payload f.1; f.2]) ≤ MAX_FRAME_LEN + 16.
Proof.
  intros (Ht&Hb&Hl). assert (H1 : zlen (type_payload f.1) ≤ 1).
  { unfold type_payload, zlen. case_match; simpl; lia. }
  assert (H2 : zlen f.2 < atom_limit) by (unfold atom_limit, MAX_FRAME_LEN in *; lia).
  split_and!; [done|done|]. rewrite frame_atoms, zlen_app.
  pose proof (zlen_atom_bound (type_payload f.1)). pose proof (zlen_atom_bound f.2 H2).
  unfold atom_limit in *. lia.
Qed.

Lemma encode_ok f : frame_ok f → encode f.1 f.2 = Some (frame_bytes f).
Proof.
  intros Hf. destruct (frame_sizes f Hf) as (H1&H2&H3). destruct Hf as (Ht&Hb&Hl).
  unfold encode. rewrite (proj2 (Z.leb_le _ _) Hl).
  rewrite put_many_ok; [done| |unfold atom_limit, MAX_FRAME_LEN in *; lia].
  repeat constructor; [unfold atom_limit; lia|done].
Qed.

Lemma frame_bytes_ok f : frame_ok f → bytes_ok (frame_bytes f) ∧ frame_bytes f ≠ [].
Proof.
  intros Hf. destruct (frame_sizes f Hf) as (H1&H2&H3). destruct Hf as (Ht&Hb&Hl).
  split; [|apply compound_nonempty].
  apply compound_bytes; [unfold atom_limit, MAX_FRAME_LEN in *; lia|].
  rewrite frame_atoms. apply Forall_app. split; apply atom_bytes; try done.
  - unfold atom_limit. lia.
  - rewrite type_payload_u64 by done. apply u64_bytes_spec. unfold u64_limit. lia.
Qed.

Lemma get_frame_atom f x :
  frame_ok f →
  get_atom (frame_bytes f ++ x) (MAX_FRAME_LEN + 16) = Ok (atoms [type_payload f.1; f.2], x).
Proof.
  intros Hf. destruct (frame_sizes f Hf) as (H1&H2&H3). unfold frame_bytes.
  rewrite get_atom_compound by (unfold atom_limit, MAX_FRAME_LEN in *; lia).
  by rewrite (proj2 (Z.ltb_ge _ _) H3).
Qed.

Lemma decode_step_frame f x : frame_ok f → decode_step (frame_bytes f ++ x) = Decoded f x.
Proof.
  intros Hf. unfold decode_step. rewrite get_frame_atom by done.
  destruct (frame_sizes f Hf) as (H1&H2&_). destruct f as [t p], Hf as (Ht&Hb&Hl). simpl fst in *. simpl snd in *.
  pose proof (frame_atoms (t, p)) as Ha. simpl in Ha. rewrite Ha. rewrite type_payload_u64 by done.
  rewrite get_u64_atom by (unfold u64_limit; lia).
  pose proof (get_atom_atom p [] MAX_FRAME_LEN H2) as Hp. rewrite app_nil_r in Hp. rewrite Hp.
  by rewrite !(proj2 (Z.ltb_ge _ _)) by lia.
Qed.

(** A piece of a frame is waited for. *)
Lemma decode_step_partial f a b :
  frame_ok f → frame_bytes f = a ++ b → b ≠ [] → decode_step a = Partial.
Proof.
  intros Hf E Hb. destruct (frame_bytes_ok f Hf) as [Hok _]. rewrite E in Hok.
  apply Forall_app in Hok as [Ha _]. pose proof (get_frame_atom f [] Hf) as Hg.
  rewrite app_nil_r, E in Hg. unfold decode_step. by rewrite (get_atom_prefix a b _ _ Ha Hg Hb).
Qed.

Lemma decode_step_shrinks r f r' :
  bytes_ok r → decode_step r = Decoded f r' → bytes_ok r' ∧ (length r' < length r)%nat.
Proof.
  intros Hok. unfold decode_step.
  destruct (get_atom r _) as [[outer rem]|e] eqn:Hg; [|by destruct e].
  destruct (get_atom_rest _ _ _ _ Hok Hg) as [Hr Hlr].
  repeat case_match; try done; by intros [= _ <-].
Qed.

(** ** The decoder ends, and keeps little *)

Lemma decode_loop_total fuel size r fs :
  bytes_ok r → (length r ≤ fuel)%nat → is_Some (decode_loop fuel size r fs).
Proof.
  revert r fs. induction fuel as [|fuel IH]; intros r fs Hok Hl.
  - destruct r; [by eexists|simpl in Hl; lia].
  - destruct r as [|x r]; [by eexists|]. cbn [decode_loop].
    destruct (decode_step (x :: r)) as [f r'| |] eqn:Hs; [|by eexists..].
    destruct (decode_step_shrinks _ _ _ Hok Hs). apply IH; [done|lia].
Qed.

Lemma decode_loop_kept fuel size r fs fs' used :
  bytes_ok r → decode_loop fuel size r fs = Some (fs', used) → zlen r ≤ size →
  0 ≤ used ≤ size ∧ size - used < MAX_FRAME_LEN + 24.
Proof.
  revert r fs. induction fuel as [|fuel IH]; intros r fs Hok; destruct r as [|x r]; cbn [decode_loop];
    try done; try (intros [= _ <-] Hz; unfold zlen, MAX_FRAME_LEN in *; simpl in Hz; lia).
  destruct (decode_step (x :: r)) as [f r'| |] eqn:Hs.
  - destruct (decode_step_shrinks _ _ _ Hok Hs). intros Hd Hz. apply (IH _ _ ltac:(done) Hd).
    unfold zlen in *. lia.
  - intros [= _ <-] Hz. pose proof (zlen_nonneg (x :: r)). split; [lia|].
    cut (zlen (x :: r) < MAX_FRAME_LEN + 16 + 8); [lia|].
    apply get_atom_truncated_bound; [done|unfold MAX_FRAME_LEN; lia|].
    revert Hs. unfold decode_step. destruct (get_atom (x :: r) _) as [[]|[]]; try done;
      repeat case_match; done.
  - intros [= _ <-] Hz. pose proof (zlen_nonneg (x :: r)). unfold MAX_FRAME_LEN. lia.
Qed.

(** ** Streams *)

Lemma decode_loop_acc fuel size r fs :
  decode_loop fuel size r fs
  = match decode_loop fuel size r [] with Some (more, used) => Some (fs ++ more, used) | None => None end.
Proof.
  revert r fs. induction fuel as [|fuel IH]; intros r fs; destruct r as [|x r]; cbn [decode_loop];
    try done; try (by rewrite app_nil_r).
  destruct (decode_step (x :: r)) as [f r'| |]; [|by rewrite app_nil_r..].
  rewrite (IH r' (fs ++ [f])), (IH r' ([] ++ [f])).
  destruct (decode_loop fuel size r' []) as [[more used]|]; [|done]. by rewrite <- app_assoc.
Qed.

(** Decoding the front of a stream gives the frames that have arrived whole. *)
Lemma decode_front fs buf x fuel size :
  Forall frame_ok fs → buf ++ x = stream fs → (length buf ≤ fuel)%nat → zlen buf ≤ size →
  ∃ fs1 fs2 tail, fs = fs1 ++ fs2 ∧ buf = stream fs1 ++ tail ∧ tail ++ x = stream fs2 ∧
    decode_loop fuel size buf [] = Some (fs1, size - zlen tail) ∧
    (fs2 = [] ∨ ∃ f fs', fs2 = f :: fs' ∧ (length tail < length (frame_bytes f))%nat).
Proof.
  intros Hall. revert buf fuel. induction Hall as [|f fs Hf Hall IH]; intros buf fuel E Hl Hs.
  { apply app_eq_nil in E as [-> ->]. exists [], [], []. split_and!; try done; [|by left].
    by destruct fuel. }
  unfold stream in E. cbn [fmap list_fmap concat] in E. fold (stream fs) in E.
  destruct (frame_bytes_ok f Hf) as [_ Hne].
  destruct (le_lt_dec (length (frame_bytes f)) (length buf)) as [Hle|Hlt].
  - assert (Hb : ∃ buf', buf = frame_bytes f ++ buf' ∧ buf' ++ x = stream fs).
    { exists (drop (length (frame_bytes f)) buf).
      pose proof (f_equal (take (length (frame_bytes f))) E) as Et.
      rewrite take_app_le, take_app_length in Et by done. split.
      - rewrite <- Et at 1. by rewrite take_drop.
      - apply (f_equal (drop (length (frame_bytes f)))) in E.
        by rewrite drop_app_le, drop_app_length in E. }
    destruct Hb as (buf'&->&E'). rewrite length_app in Hl. rewrite zlen_app in Hs.
    destruct fuel as [|fuel]; [destruct (frame_bytes f); [done|simpl in Hl; lia]|].
    destruct (IH buf' fuel E') as (fs1&fs2&tail&->&->&Ht&Hd&Hend).
    { destruct (frame_bytes f); [done|]. simpl in Hl. lia. }
    { pose proof (zlen_nonneg (frame_bytes f)). lia. }
    exists (f :: fs1), fs2, tail. split_and!; try done; [unfold stream; simpl; by rewrite <- app_assoc|].
    assert (Hstep : decode_loop (S fuel) size (frame_bytes f ++ stream fs1 ++ tail) []
      = decode_loop fuel size (stream fs1 ++ tail) [f]).
    { pose proof (decode_step_frame f (stream fs1 ++ tail) Hf) as Hds.
      destruct (frame_bytes f) as [|b bs]; [done|]. cbn [decode_loop app] in *. by rewrite Hds. }
    rewrite Hstep, decode_loop_acc, Hd. done.
  - exists [], (f :: fs), buf. split_and!; try done; [|right; eauto].
    assert (Hb : ∃ b, frame_bytes f = buf ++ b ∧ b ≠ []).
    { exists (drop (length buf) (frame_bytes f)).
      apply (f_equal (take (length buf))) in E.
      rewrite take_app_length, take_app_le in E by lia. split.
      - rewrite E at 1. by rewrite take_drop.
      - intros En%(f_equal length). rewrite length_drop in En. simpl in En. lia. }
    destruct Hb as (b&Eb&Hbne). pose proof (decode_step_partial f buf b Hf Eb Hbne) as Hp.
    destruct buf as [|y buf]; [by destruct fuel|]. destruct fuel as [|fuel]; [simpl in Hl; lia|].
    cbn [decode_loop]. by rewrite Hp.
Qed.

(** ** Claims *)

(** A stream of frames that arrives in any pieces is received as exactly
    the frames that were encoded, in order, with nothing left over. *)
Theorem frames_received_in_pieces (fs : list Frame) (chunks : list bytes) :
  Forall frame_ok fs → concat chunks = stream fs →
  Forall (λ f, encode f.1 f.2 = Some (frame_bytes f)) fs ∧
  receive_all [] chunks = Some (fs, []).
Proof.
  intros Hall E. split; [by eapply Forall_impl; [done|]; apply encode_ok|].
  assert (Hgen : ∀ chunks acc fs, Forall frame_ok fs → acc ++ concat chunks = stream fs →
    (acc = [] ∨ ∃ f fs', fs = f :: fs' ∧ (length acc < length (frame_bytes f))%nat) →
    receive_all acc chunks = Some (fs, [])).
  { clear. intros chunks. induction chunks as [|c chunks IH]; intros acc fs Hall E Hacc; simpl.
    - simpl in E. rewrite app_nil_r in E. destruct Hacc as [->|(f&fs'&->&Hlt)].
      + destruct fs as [|f fs]; [done|]. apply Forall_cons in Hall as [Hf _].
        destruct (frame_bytes_ok f Hf) as [_ Hne]. unfold stream in E. simpl in E.
        symmetry in E. by apply app_eq_nil in E as [? _].
      + rewrite E in Hlt. unfold stream in Hlt. simpl in Hlt. rewrite length_app in Hlt. lia.
    - unfold receive, decode. simpl in E. rewrite app_assoc in E.
      destruct (decode_front fs (acc ++ c) (concat chunks) (length (acc ++ c)) (zlen (acc ++ c)) Hall E)
        as (fs1&fs2&tail&->&Eb&Et&->&Hend); [lia..|].
      replace (Z.to_nat (zlen (acc ++ c) - zlen tail)) with (length (stream fs1))
        by (rewrite Eb; unfold zlen; rewrite length_app; lia).
      rewrite Eb, drop_app_length. apply Forall_app in Hall as [_ Hall2].
      rewrite (IH tail fs2 Hall2 Et); [done|]. destruct Hend as [->|?]; [|by right]. left.
      by apply app_eq_nil in Et as [-> _]. }
  apply Hgen; [done..|by left].
Qed.

Lemma frames_received_in_pieces_witness :
  Forall (λ f, encode f.1 f.2 = Some (frame_bytes f)) [(7, [104; 105]); (0, [])] ∧
  receive_all [] [[196]; [7; 194; 104]; [105; 194; 192]; [192]] = Some ([(7, [104; 105]); (0, [])], []).
Proof.
  apply frames_received_in_pieces; [|reflexivity].
  repeat constructor; vm_compute; try done; intros [=].
Defined.

(** C20. Whatever a peer sends, decoding ends, never reports more bytes than it
    was given, and leaves at most a frame's limit and 24 bytes buffered. *)
Theorem frames_bounded (buf : bytes) :
  bytes_ok buf →
  ∃ fs used, decode buf = Some (fs, used) ∧ 0 ≤ used ≤ zlen buf ∧
    zlen buf - used < MAX_FRAME_LEN + 24.
Proof.
  intros Hok. destruct (decode_loop_total (length buf) (zlen buf) buf [] Hok) as [[fs used] Hd]; [lia|].
  exists fs, used. split; [done|]. by eapply decode_loop_kept; [|exact Hd|lia].
Qed.

Lemma frames_bounded_witness :
  ∃ fs used, decode [252; 17; 0; 0; 1] = Some (fs, used) ∧ 0 ≤ used ≤ zlen [252; 17; 0; 0; 1] ∧
    zlen [252; 17; 0; 0; 1] - used < MAX_FRAME_LEN + 24.
Proof. apply frames_bounded. repeat constructor; vm_compute; try done; intros [=]. Defined.

(** A resize payload reads back. *)
Lemma pty_resize_roundtrip rows cols :
  0 ≤ rows < 65536 → 0 ≤ cols < 65536 →
  pty_resize_parse (pty_resize_payload rows cols) = Some (rows, cols).
Proof.
  intros Hr Hc. unfold pty_resize_payload, pty_resize_parse, u16_be. simpl.
  rewrite !shiftr8, !land255. pose proof (Z.div_mod rows 256). pose proof (Z.div_mod cols 256).
  do 2 f_equal; lia.
Qed.
