(* ===== verification/TraceWire.v ===== *)
(** * The process-trace stream.

    Models [engine/src/sudwire.rs]: [EvState::build_event], [build_exit] and the
    incremental [Decoder].  An event is a compound of a header and a blob; the
    header's seven scalars are differences to the stream's previous event.
    Arithmetic on [i64] wraps, as in release builds.  The macros of [libc] that
    take a wait status apart are parameters. *)

From stdpp Require Import gmap.
From S2P Require Import Prelude.
From S2P Require Import WireAtoms.
Open Scope Z_scope.
Open Scope sarun_scope.

Definition TRACE_VERSION : Z := 3.
Definition EV_EXIT : Z := 4.
Definition EV_EXIT_EXITED : Z := 0.
Definition EV_EXIT_SIGNALED : Z := 1.
Definition MAX_TRACE_ATOM : Z := 64 * 1024 * 1024.

Definition as_i32 (v : Z) : Z := (v + 2 ^ 31) mod 2 ^ 32 - 2 ^ 31.

(** [struct EvState]; the default is all zeros *)
Record EvState : Type := MkEvState {
  st_ty : Z; st_ts_ns : Z; st_pid : Z; st_tgid : Z; st_ppid : Z; st_nspid : Z; st_nstgid : Z
}.
Definition ev_default : EvState := MkEvState 0 0 0 0 0 0 0.

(** [version_atom] *)
Definition version_atom : Result bytes DecodeError := put_u64 [] TRACE_VERSION.

Fixpoint put_i64s (hdr : bytes) (values : list Z) : Result bytes DecodeError :=
  match values with
  | [] => Ok hdr
  | v :: values => let? hdr := put_i64 hdr v in put_i64s hdr values
  end.

(** The scalars, in the order of the header *)
Definition scalars (st : EvState) : list Z :=
  [st_ty st; st_ts_ns st; st_pid st; st_tgid st; st_ppid st; st_nspid st; st_nstgid st].
Definition deltas (st new : EvState) : list Z :=
  zip_with (λ n o, as_i64 (n - o)) (scalars new) (scalars st).

(** [EvState::build_event]: the event's bytes and the state for the next one.
    The source's [expect] panics where this is an error. *)
Definition build_event (st : EvState) (stream_id : Z) (new : EvState) (extras : list Z)
    (blob : bytes) : EvState * Result bytes DecodeError :=
  (new,
   let? hdr := put_u64 [] stream_id in
   let? hdr := put_i64s hdr (deltas st new) in
   let? hdr := put_i64s hdr extras in
   put_many [] [hdr; blob]).

(** [EvState::build_exit] *)
Section exit.
Context (WIFEXITED WIFSIGNALED : Z → bool) (WEXITSTATUS WTERMSIG : Z → Z) (WCOREDUMP : Z → bool).

Definition exit_extras (wstatus : Z) : list Z :=
  if WIFEXITED wstatus then [EV_EXIT_EXITED; WEXITSTATUS wstatus; 0; wstatus]
  else if WIFSIGNALED wstatus then
    [EV_EXIT_SIGNALED; WTERMSIG wstatus; if WCOREDUMP wstatus then 1 else 0; wstatus]
  else [EV_EXIT_EXITED; 0; 0; wstatus].

Definition build_exit (st : EvState) (stream_id ts_ns pid tgid ppid wstatus : Z) :
    EvState * Result bytes DecodeError :=
  build_event st stream_id (MkEvState EV_EXIT ts_ns pid tgid ppid pid tgid) (exit_extras wstatus) [].
End exit.

(** [struct Event] *)
Record Event : Type := MkEvent {
  ev_ty : Z; ev_ts_ns : Z; ev_pid : Z; ev_tgid : Z; ev_ppid : Z; ev_extras : list Z; ev_blob : bytes
}.

(** The seven [st.field += take_i64(..)?]; the fields already added stay. *)
Definition add_fields : list (Z → EvState → EvState) :=
  [λ d s, MkEvState (as_i64 (st_ty s + d)) (st_ts_ns s) (st_pid s) (st_tgid s) (st_ppid s) (st_nspid s) (st_nstgid s);
   λ d s, MkEvState (st_ty s) (as_i64 (st_ts_ns s + d)) (st_pid s) (st_tgid s) (st_ppid s) (st_nspid s) (st_nstgid s);
   λ d s, MkEvState (st_ty s) (st_ts_ns s) (as_i64 (st_pid s + d)) (st_tgid s) (st_ppid s) (st_nspid s) (st_nstgid s);
   λ d s, MkEvState (st_ty s) (st_ts_ns s) (st_pid s) (as_i64 (st_tgid s + d)) (st_ppid s) (st_nspid s) (st_nstgid s);
   λ d s, MkEvState (st_ty s) (st_ts_ns s) (st_pid s) (st_tgid s) (as_i64 (st_ppid s + d)) (st_nspid s) (st_nstgid s);
   λ d s, MkEvState (st_ty s) (st_ts_ns s) (st_pid s) (st_tgid s) (st_ppid s) (as_i64 (st_nspid s + d)) (st_nstgid s);
   λ d s, MkEvState (st_ty s) (st_ts_ns s) (st_pid s) (st_tgid s) (st_ppid s) (st_nspid s) (as_i64 (st_nstgid s + d))].

Fixpoint take_deltas (adds : list (Z → EvState → EvState)) (st : EvState) (hdr : bytes) :
    EvState * option bytes :=
  match adds with
  | [] => (st, Some hdr)
  | add :: adds =>
      match get_i64 hdr with
      | Ok (d, hdr) => take_deltas adds (add d st) hdr
      | Err _ => (st, None)
      end
  end.

(** [while !hdr.is_empty()]; every round takes a byte at least. *)
Fixpoint take_extras (fuel : nat) (hdr : bytes) : option (list Z) :=
  match hdr, fuel with
  | [], _ => Some []
  | _, O => None
  | _, S fuel =>
      match get_i64 hdr with
      | Ok (e, hdr) => match take_extras fuel hdr with Some es => Some (e :: es) | None => None end
      | Err _ => None
      end
  end.

(** [Decoder::decode_event] *)
Definition decode_event (states : gmap Z EvState) (payload : bytes) :
    gmap Z EvState * option Event :=
  match get_atom payload MAX_TRACE_ATOM with
  | Err _ => (states, None)
  | Ok (hdr, p) =>
      match get_atom p MAX_TRACE_ATOM with
      | Err _ => (states, None)
      | Ok (blob, _) =>
          match get_u64 hdr with
          | Err _ => (states, None)
          | Ok (sid, hdr) =>
              let sid := sid mod 2 ^ 32 in
              let '(st, hdr) := take_deltas add_fields (default ev_default (states !! sid)) hdr in
              (<[sid := st]> states,
               match hdr with
               | None => None
               | Some hdr =>
                   match take_extras (length hdr) hdr with
                   | None => None
                   | Some extras =>
                       Some (MkEvent (st_ty st) (st_ts_ns st) (as_i32 (st_pid st)) (as_i32 (st_tgid st))
                               (as_i32 (st_ppid st)) extras blob)
                   end
               end)
          end
      end
  end.

(** [struct Decoder] *)
Record Decoder : Type := MkDecoder {
  d_buf : bytes;
  d_states : gmap Z EvState;
  d_versioned : bool;
  d_poisoned : bool
}.
Definition decoder_default : Decoder := MkDecoder [] ∅ false false.

(** The loop of [Decoder::feed] over [source = &self.buf[off..]]. *)
Fixpoint feed_loop (fuel : nat) (buf source : bytes) (states : gmap Z EvState) (versioned : bool)
    (out : list Event) : option (Decoder * list Event) :=
  match fuel with
  | O => None
  | S fuel =>
      match get_atom source MAX_TRACE_ATOM with
      | Err Truncated => Some (MkDecoder source states versioned false, out)
      | Err _ => Some (MkDecoder [] states versioned true, out)
      | Ok (payload, remaining) =>
          if negb versioned then
            let v := match u64_from_payload payload with Ok v => v | Err _ => u64_limit - 1 end in
            if negb (v =? TRACE_VERSION) then Some (MkDecoder buf states versioned true, out)
            else feed_loop fuel buf remaining states true out
          else
            match decode_event states payload with
            | (states, Some ev) => feed_loop fuel buf remaining states versioned (out ++ [ev])
            | (states, None) => Some (MkDecoder [] states versioned true, out)
            end
      end
  end.

(** [Decoder::feed] *)
Definition feed (d : Decoder) (bytes : list Z) : option (Decoder * list Event) :=
  if d_poisoned d then Some (d, [])
  else
    let buf := d_buf d ++ bytes in
    feed_loop (S (length buf)) buf buf (d_states d) (d_versioned d) [].

(** Feeding the pieces of a stream as they arrive. *)
Fixpoint feed_all (d : Decoder) (chunks : list bytes) : option (Decoder * list Event) :=
  match chunks with
  | [] => Some (d, [])
  | c :: chunks =>
      match feed d c with
      | None => None
      | Some (d, evs) =>
          match feed_all d chunks with
          | None => None
          | Some (d, more) => Some (d, evs ++ more)
          end
      end
  end.

(** ** Decoders that cannot be told apart *)

(** A poisoned decoder never reads its buffer or its states again. *)
Definition same_decoder (d1 d2 : Decoder) : Prop :=
  (d_poisoned d1 = true ∧ d_poisoned d2 = true) ∨ d1 = d2.

#[export] Instance same_decoder_equiv : Equivalence same_decoder.
Proof.
  split.
  - intros d. by right.
  - intros d1 d2 [[??]| ->]; [by left|by right].
  - intros d1 d2 d3 [[??]| ->] [[??]| ->]; try (by left); by right.
Qed.

Definition same_outcome (r1 r2 : option (Decoder * list Event)) : Prop :=
  match r1, r2 with
  | Some (d1, o1), Some (d2, o2) => same_decoder d1 d2 ∧ o1 = o2
  | None, None => True
  | _, _ => False
  end.

#[export] Instance same_outcome_equiv : Equivalence same_outcome.
Proof.
  split.
  - intros [[d o]|]; simpl; [split; reflexivity|done].
  - intros [[d1 o1]|] [[d2 o2]|]; simpl; try done. intros [Hd ->]. split; [by symmetry|done].
  - intros [[d1 o1]|] [[d2 o2]|] [[d3 o3]|]; simpl; try done. intros [Hd ->] [Hd' ->].
    split; [by etrans|done].
Qed.

#[export] Instance feed_proper : Proper (same_decoder ==> eq ==> same_outcome) feed.
Proof.
  intros d1 d2 Hd ? b ->. destruct Hd as [[H1 H2]| ->]; [|reflexivity].
  unfold feed. rewrite H1, H2. simpl. split; [by left|done].
Qed.

(** ** Pieces *)

Lemma feed_loop_fuel f1 f2 buf s st v out :
  bytes_ok s → (length s < f1)%nat → (length s < f2)%nat →
  feed_loop f1 buf s st v out = feed_loop f2 buf s st v out.
Proof.
  revert f2 s st v out. induction f1 as [|f1 IH]; intros f2 s st v out Hok H1 H2; [lia|].
  destruct f2 as [|f2]; [lia|]. cbn [feed_loop].
  destruct (get_atom s MAX_TRACE_ATOM) as [[p r]|[]] eqn:Hg; try done.
  destruct (get_atom_rest _ _ _ _ Hok Hg) as [Hr Hlr].
  destruct (negb v).
  - case_match; [done|]. apply IH; [done|lia..].
  - destruct (decode_event st p) as [st' [ev|]]; [|done]. apply IH; [done|lia..].
Qed.

Lemma feed_loop_total f buf s st v out :
  bytes_ok s → (length s < f)%nat → is_Some (feed_loop f buf s st v out).
Proof.
  revert s st v out. induction f as [|f IH]; intros s st v out Hok Hl; [lia|]. cbn [feed_loop].
  destruct (get_atom s MAX_TRACE_ATOM) as [[p r]|[]] eqn:Hg; try by eexists.
  destruct (get_atom_rest _ _ _ _ Hok Hg) as [Hr Hlr].
  destruct (negb v).
  - case_match; [by eexists|]. apply IH; [done|lia].
  - destruct (decode_event st p) as [st' [ev|]]; [|by eexists]. apply IH; [done|lia].
Qed.

(** What is left over is a suffix of what was given. *)
Lemma feed_loop_rest f buf s st v out d evs :
  bytes_ok s → feed_loop f buf s st v out = Some (d, evs) → d_poisoned d = false →
  bytes_ok (d_buf d) ∧ (length (d_buf d) ≤ length s)%nat.
Proof.
  revert s st v out. induction f as [|f IH]; intros s st v out Hok; [done|]. cbn [feed_loop].
  destruct (get_atom s MAX_TRACE_ATOM) as [[p r]|[]] eqn:Hg; try (by intros [= <- _]).
  destruct (get_atom_rest _ _ _ _ Hok Hg) as [Hr Hlr].
  destruct (negb v).
  - case_match; [by intros [= <- _]|]. intros Hf Hp.
    destruct (IH _ _ _ _ Hr Hf Hp). split; [done|lia].
  - destruct (decode_event st p) as [st' [ev|]]; [|by intros [= <- _]]. intros Hf Hp.
    destruct (IH _ _ _ _ Hr Hf Hp). split; [done|lia].
Qed.

(** Going on with more bytes is the same as having had them from the start. *)
Lemma feed_loop_extend f f' buf buf' s x st v out d evs :
  bytes_ok s → bytes_ok x → (length (s ++ x) < f')%nat →
  feed_loop f buf s st v out = Some (d, evs) →
  same_outcome
    (feed_loop f' buf' (s ++ x) st v out)
    (if d_poisoned d then Some (d, evs)
     else feed_loop f' buf' (d_buf d ++ x) (d_states d) (d_versioned d) evs).
Proof.
  revert f' s st v out. induction f as [|f IH]; intros f' s st v out Hok Hx Hl Hf; [done|].
  destruct f' as [|f']; [lia|]. set (rhs := if d_poisoned d then _ else _).
  revert Hf. cbn [feed_loop].
  destruct (get_atom s MAX_TRACE_ATOM) as [[p r]|e] eqn:Hg.
  - pose proof (get_atom_extend _ x _ _ Hok Hg ltac:(done)) as Hg'. simpl in Hg'. rewrite Hg'.
    destruct (get_atom_rest _ _ _ _ Hok Hg) as [Hr Hlr].
    assert (Hgo : ∀ st' v' out', feed_loop f buf r st' v' out' = Some (d, evs) →
      same_outcome (feed_loop f' buf' (r ++ x) st' v' out') rhs).
    { unfold rhs. intros st' v' out' Hf. rewrite length_app in Hl.
      pose proof (IH f' r st' v' out' Hr Hx) as IH'. rewrite length_app in IH'.
      specialize (IH' ltac:(lia) Hf). etrans; [exact IH'|].
      destruct (d_poisoned d) eqn:Hp; [reflexivity|].
      destruct (feed_loop_rest _ _ _ _ _ _ _ _ Hr Hf Hp) as [Hb Hlb].
      rewrite (feed_loop_fuel f' (S f')); [reflexivity|by apply Forall_app|rewrite length_app; lia..]. }
    destruct (negb v).
    + destruct (negb (_ =? _)); [|apply Hgo].
      intros [= <- <-]. unfold rhs. simpl. split; [by left|done].
    + destruct (decode_event st p) as [st' [ev|]]; [apply Hgo|].
      intros [= <- <-]. unfold rhs. simpl. split; [by left|done].
  - destruct (decide (e = Truncated)) as [->|Hne].
    + intros [= <- <-]. unfold rhs. simpl d_poisoned. cbn [feed_loop]. reflexivity.
    + pose proof (get_atom_extend _ x _ _ Hok Hg) as Hg'. simpl in Hg'. rewrite Hg' by congruence.
      unfold rhs. destruct e; try done; intros [= <- <-]; simpl; (split; [by left|done]).
Qed.

Lemma feed_loop_acc f buf s st v out :
  feed_loop f buf s st v out
  = match feed_loop f buf s st v [] with Some (d, evs) => Some (d, out ++ evs) | None => None end.
Proof.
  revert s st v out. induction f as [|f IH]; intros s st v out; [done|]. cbn [feed_loop].
  destruct (get_atom s MAX_TRACE_ATOM) as [[p r]|[]]; try (by rewrite app_nil_r).
  destruct (negb v).
  - destruct (negb (_ =? _)); [by rewrite app_nil_r|apply IH].
  - destruct (decode_event st p) as [st' [ev|]]; [|by rewrite app_nil_r].
    rewrite (IH _ _ _ (out ++ [ev])), (IH _ _ _ ([] ++ [ev])).
    destruct (feed_loop f buf r st' v []) as [[d evs]|]; [|done]. by rewrite <- app_assoc.
Qed.

(** The state between two calls: the buffer holds an incomplete atom. *)
Definition decoder_ok (d : Decoder) : Prop :=
  d_poisoned d = true ∨ (bytes_ok (d_buf d) ∧ get_atom (d_buf d) MAX_TRACE_ATOM = Err Truncated).

Lemma feed_loop_ok f buf s st v out d evs :
  bytes_ok s → feed_loop f buf s st v out = Some (d, evs) → decoder_ok d.
Proof.
  revert s st v out. induction f as [|f IH]; intros s st v out Hok; [done|]. cbn [feed_loop].
  destruct (get_atom s MAX_TRACE_ATOM) as [[p r]|e] eqn:Hg.
  - destruct (get_atom_rest _ _ _ _ Hok Hg) as [Hr _]. destruct (negb v).
    + destruct (negb (_ =? _)); [intros [= <- _]; by left|by apply IH].
    + destruct (decode_event st p) as [st' [ev|]]; [by apply IH|intros [= <- _]; by left].
  - destruct e; intros [= <- _]; try (by left). by right.
Qed.

Lemma feed_total d b : decoder_ok d → bytes_ok b → ∃ d' evs, feed d b = Some (d', evs) ∧ decoder_ok d'.
Proof.
  intros Hd Hb. unfold feed. destruct (d_poisoned d) eqn:Hp; [by eauto|].
  destruct Hd as [?|[Hbuf _]]; [congruence|].
  assert (Hok : bytes_ok (d_buf d ++ b)) by (by apply Forall_app).
  destruct (feed_loop_total (S (length (d_buf d ++ b))) (d_buf d ++ b) (d_buf d ++ b) (d_states d)
    (d_versioned d) [] Hok) as [[d' evs] Hf]; [lia|].
  exists d', evs. split; [done|]. by eapply feed_loop_ok.
Qed.

Lemma feed_nil d : decoder_ok d → feed d [] = Some (d, []).
Proof.
  intros Hd. unfold feed. destruct (d_poisoned d) eqn:Hp; [done|].
  destruct Hd as [?|[_ Ht]]; [congruence|]. rewrite app_nil_r. cbn [feed_loop]. rewrite Ht.
  destruct d. simpl in *. by subst.
Qed.

Lemma feed_app d a b d1 e1 :
  decoder_ok d → bytes_ok a → bytes_ok b → feed d a = Some (d1, e1) →
  same_outcome (feed d (a ++ b))
    (match feed d1 b with Some (d2, e2) => Some (d2, e1 ++ e2) | None => None end).
Proof.
  intros Hd Ha Hb Hfa. revert Hfa. unfold feed at 1. destruct (d_poisoned d) eqn:Hp.
  { intros [= <- <-]. unfold feed. rewrite Hp. reflexivity. }
  destruct Hd as [?|[Hbuf _]]; [congruence|]. intros Hfa.
  assert (Hok : bytes_ok (d_buf d ++ a)) by (by apply Forall_app).
  unfold feed at 1. rewrite Hp, app_assoc.
  set (full := (d_buf d ++ a) ++ b).
  assert (Hlt : (length ((d_buf d ++ a) ++ b) < S (length full))%nat) by (unfold full; lia).
  pose proof (feed_loop_extend _ (S (length full)) _ full _ b _ _ _ _ _ Hok Hb Hlt Hfa) as Hx.
  etrans; [exact Hx|]. clear Hx. unfold feed. destruct (d_poisoned d1) eqn:Hp1; [by rewrite app_nil_r|].
  destruct (feed_loop_rest _ _ _ _ _ _ _ _ Hok Hfa Hp1) as [Hb1 Hl1].
  rewrite feed_loop_acc.
  rewrite (feed_loop_fuel (S (length full)) (S (length (d_buf d1 ++ b))));
    [|by apply Forall_app|unfold full; rewrite !length_app in *; lia|lia].
  assert (Hbuf' : ∀ f buf1 buf2 s st v out,
    same_outcome (feed_loop f buf1 s st v out) (feed_loop f buf2 s st v out)).
  { clear. intros f buf1 buf2. induction f as [|f IH]; intros s st v out; [done|]. cbn [feed_loop].
    destruct (get_atom s MAX_TRACE_ATOM) as [[p r]|[]]; try reflexivity. destruct (negb v).
    - destruct (negb (_ =? _)); [simpl; split; [by left|done]|apply IH].
    - destruct (decode_event st p) as [st' [ev|]]; [apply IH|reflexivity]. }
  pose proof (Hbuf' (S (length (d_buf d1 ++ b))) full (d_buf d1 ++ b) (d_buf d1 ++ b) (d_states d1)
    (d_versioned d1) []) as Hs.
  destruct (feed_loop _ full _ _ _ _) as [[d2 o2]|], (feed_loop _ (d_buf d1 ++ b) _ _ _ _) as [[d3 o3]|];
    simpl in *; try done. destruct Hs as [? ->]. by split.
Qed.

(** Feeding the pieces is feeding the whole. *)
Lemma feed_pieces d chunks :
  decoder_ok d → Forall (λ c, bytes_ok c) chunks →
  same_outcome (feed_all d chunks) (feed d (concat chunks)).
Proof.
  intros Hd Hall. revert d Hd. induction Hall as [|c chunks Hc Hall IH]; intros d Hd; simpl.
  { by rewrite feed_nil. }
  destruct (feed_total d c Hd Hc) as (d1&e1&Hf&Hd1). rewrite Hf.
  assert (Hcs : bytes_ok (concat chunks)).
  { clear IH. induction Hall; simpl; [done|]. by apply Forall_app. }
  etrans; [|symmetry; by eapply feed_app]. specialize (IH d1 Hd1).
  destruct (feed_all d1 chunks) as [[d2 o2]|], (feed d1 (concat chunks)) as [[d3 o3]|]; simpl in *; try done.
  destruct IH as [? ->]. by split.
Qed.

(** ** Events that were built *)

(** One call of [build_event] by the process of a stream. *)
Record Emit : Type := MkEmit {
  em_stream : Z; em_new : EvState; em_extras : list Z; em_blob : bytes
}.

Definition emit_ok (e : Emit) : Prop :=
  0 ≤ em_stream e < 2 ^ 32 ∧ Forall i64_ok (scalars (em_new e)) ∧ Forall i64_ok (em_extras e) ∧
  bytes_ok (em_blob e) ∧ 16 * (9 + zlen (em_extras e)) + zlen (em_blob e) + 16 ≤ MAX_TRACE_ATOM.

(** The events that interleaved streams write, each stream with its own state. *)
Fixpoint emit (sts : gmap Z EvState) (es : list Emit) : Result bytes DecodeError :=
  match es with
  | [] => Ok []
  | e :: es =>
      let '(new, r) := build_event (default ev_default (sts !! em_stream e)) (em_stream e) (em_new e)
        (em_extras e) (em_blob e) in
      let? b := r in
      let? more := emit (<[em_stream e := new]> sts) es in
      Ok (b ++ more)
  end.

Definition event_of (e : Emit) : Event :=
  let n := em_new e in
  MkEvent (st_ty n) (st_ts_ns n) (as_i32 (st_pid n)) (as_i32 (st_tgid n)) (as_i32 (st_ppid n))
    (em_extras e) (em_blob e).

Definition i64s (vs : list Z) : bytes := concat ((λ v, atom (u64_bytes (zigzag v))) <$> vs).

Lemma i64_atom_small v : i64_ok v → zlen (u64_bytes (zigzag v)) ≤ 8 ∧ bytes_ok (u64_bytes (zigzag v)).
Proof. intros Hv. destruct (u64_bytes_spec (zigzag v) (zigzag_range v Hv)) as (?&?&_). done. Qed.

Lemma put_i64s_ok hdr vs : Forall i64_ok vs → put_i64s hdr vs = Ok (hdr ++ i64s vs).
Proof.
  intros Hv. revert hdr. induction Hv as [|v vs Hv _ IH]; intros hdr; simpl; [by rewrite app_nil_r|].
  rewrite put_i64_ok by done. simpl. rewrite IH. unfold i64s. simpl. by rewrite <- app_assoc.
Qed.

Lemma i64s_size vs : Forall i64_ok vs → zlen (i64s vs) ≤ 16 * zlen vs ∧ bytes_ok (i64s vs).
Proof.
  induction 1 as [|v vs Hv _ [IHl IHb]]; [done|].
  change (i64s (v :: vs)) with (atom (u64_bytes (zigzag v)) ++ i64s vs).
  destruct (i64_atom_small v Hv) as [Hl Hb]. assert (zlen (u64_bytes (zigzag v)) < atom_limit)
    by (unfold atom_limit; lia).
  pose proof (zlen_atom_bound (u64_bytes (zigzag v)) ltac:(done)). split.
  - rewrite zlen_app. assert (zlen (v :: vs) = 1 + zlen vs) as -> by (unfold zlen; cbn [length]; lia). lia.
  - apply Forall_app. split; [by apply atom_bytes|done].
Qed.

Lemma as_i64_delta a b : i64_ok b → as_i64 (a + as_i64 (b - a)) = b.
Proof.
  intros Hb. rewrite <- (as_i64_id b Hb) at 2. unfold as_i64.
  replace (a + ((b - a + 2 ^ 63) mod u64_limit - 2 ^ 63) + 2 ^ 63)
    with (a + (b - a + 2 ^ 63) mod u64_limit) by lia.
  rewrite Z.add_mod_idemp_r by done. f_equal. f_equal. lia.
Qed.

Lemma deltas_ok st new : Forall i64_ok (deltas st new).
Proof. unfold deltas, scalars. simpl. repeat (constructor; [apply as_i64_ok|]). constructor. Qed.

Lemma take_deltas_built st new rest :
  Forall i64_ok (scalars new) →
  take_deltas add_fields st (i64s (deltas st new) ++ rest) = (new, Some rest).
Proof.
  destruct st, new. unfold scalars. simpl. rewrite !Forall_cons. intros (?&?&?&?&?&?&?&_).
  unfold deltas, scalars, i64s, add_fields. cbn [zip_with fmap list_fmap concat take_deltas].
  rewrite <- !app_assoc. repeat (rewrite get_i64_atom by apply as_i64_ok). cbn.
  by rewrite !as_i64_delta.
Qed.

Lemma take_extras_built fuel es :
  Forall i64_ok es → (length (i64s es) ≤ fuel)%nat → take_extras fuel (i64s es) = Some es.
Proof.
  intros He. revert fuel. induction He as [|e es He Hes IH]; intros fuel Hl; [by destruct fuel|].
  destruct (i64_atom_small e He) as [Hz _].
  pose proof (zlen_atom_bound (u64_bytes (zigzag e)) ltac:(unfold atom_limit; lia)) as Hb.
  pose proof (get_i64_atom e (i64s es) He) as Hg.
  unfold i64s in *. cbn [fmap list_fmap concat] in *.
  destruct (atom (u64_bytes (zigzag e))) as [|x a]; [unfold zlen in Hb; simpl in Hb; lia|].
  destruct fuel as [|fuel]; [simpl in Hl; lia|]. cbn [take_extras app] in *. rewrite Hg.
  rewrite IH; [done|]. simpl in Hl. rewrite length_app in Hl. lia.
Qed.

(** The header of an event and the event's bytes. *)
Definition header (st : EvState) (e : Emit) : bytes :=
  atom (u64_bytes (em_stream e)) ++ i64s (deltas st (em_new e)) ++ i64s (em_extras e).
Definition event_bytes (st : EvState) (e : Emit) : bytes :=
  compound (atoms [header st e; em_blob e]).

Lemma event_sizes st e :
  emit_ok e →
  zlen (header st e) ≤ MAX_TRACE_ATOM ∧ zlen (em_blob e) ≤ MAX_TRACE_ATOM ∧
  zlen (atoms [header st e; em_blob e]) ≤ MAX_TRACE_ATOM ∧ bytes_ok (header st e).
Proof.
  intros (Hs&Hn&He&Hb&Hl). unfold header.
  destruct (u64_bytes_spec (em_stream e)) as (Hub&Hul&_); [unfold u64_limit; lia|].
  pose proof (zlen_atom_bound (u64_bytes (em_stream e)) ltac:(unfold atom_limit; lia)).
  destruct (i64s_size _ (deltas_ok st (em_new e))) as [Hd Hdb].
  destruct (i64s_size _ He) as [Hx Hxb]. change (zlen (deltas st (em_new e))) with 7 in Hd.
  assert (Hh : zlen (header st e) ≤ 16 * (8 + zlen (em_extras e))).
  { unfold header. rewrite !zlen_app. lia. }
  pose proof (zlen_nonneg (em_extras e)). pose proof (zlen_nonneg (em_blob e)).
  pose proof (zlen_atom_bound (header st e) ltac:(unfold MAX_TRACE_ATOM, atom_limit in *; lia)).
  pose proof (zlen_atom_bound (em_blob e) ltac:(unfold MAX_TRACE_ATOM, atom_limit in *; lia)).
  fold (header st e). split_and!; [lia|lia| |].
  - unfold atoms. simpl. rewrite app_nil_r, zlen_app. lia.
  - unfold header. rewrite !Forall_app. split_and!; [|done|done].
    apply atom_bytes; [unfold atom_limit; lia|done].
Qed.

Lemma build_event_ok st e :
  emit_ok e →
  build_event st (em_stream e) (em_new e) (em_extras e) (em_blob e)
  = (em_new e, Ok (event_bytes st e)).
Proof.
  intros Hok. destruct (event_sizes st e Hok) as (Hh&Hb&Ha&_). destruct Hok as (Hs&Hn&He&_&_).
  unfold build_event. rewrite put_u64_ok by (unfold u64_limit; lia). cbn [rbind].
  rewrite put_i64s_ok by apply deltas_ok. cbn [rbind]. rewrite put_i64s_ok by done. cbn [rbind].
  assert (Eh : ((([] ++ atom (u64_bytes (em_stream e))) ++ i64s (deltas st (em_new e)))
    ++ i64s (em_extras e)) = header st e) by (unfold header; simpl; by rewrite <- app_assoc).
  rewrite Eh, put_many_ok; [done| |unfold MAX_TRACE_ATOM, atom_limit in *; lia].
  repeat constructor; unfold MAX_TRACE_ATOM, atom_limit in *; lia.
Qed.

Lemma decode_event_built states e :
  emit_ok e →
  let st := default ev_default (states !! em_stream e) in
  decode_event states (atoms [header st e; em_blob e])
  = (<[em_stream e := em_new e]> states, Some (event_of e)).
Proof.
  intros Hok st. destruct (event_sizes st e Hok) as (Hh&Hb&_&_). destruct Hok as (Hs&Hn&He&_&_).
  assert (Ha : atoms [header st e; em_blob e] = atom (header st e) ++ atom (em_blob e) ++ []) by done.
  unfold decode_event. rewrite Ha.
  rewrite get_atom_atom by (unfold MAX_TRACE_ATOM, atom_limit in *; lia).
  rewrite (proj2 (Z.ltb_ge _ _) Hh).
  rewrite get_atom_atom by (unfold MAX_TRACE_ATOM, atom_limit in *; lia).
  rewrite (proj2 (Z.ltb_ge _ _) Hb). unfold header.
  rewrite get_u64_atom by (unfold u64_limit; lia). rewrite Z.mod_small by done. fold st.
  rewrite take_deltas_built by done. by rewrite take_extras_built.
Qed.

Lemma get_event_atom st e x :
  emit_ok e →
  get_atom (event_bytes st e ++ x) MAX_TRACE_ATOM = Ok (atoms [header st e; em_blob e], x).
Proof.
  intros Hok. destruct (event_sizes st e Hok) as (_&_&Ha&_). unfold event_bytes.
  rewrite get_atom_compound by (unfold MAX_TRACE_ATOM, atom_limit in *; lia).
  by rewrite (proj2 (Z.ltb_ge _ _) Ha).
Qed.

Lemma event_bytes_ok st e : emit_ok e → bytes_ok (event_bytes st e).
Proof.
  intros Hok. destruct (event_sizes st e Hok) as (Hh&Hb&Ha&Hhb). destruct Hok as (_&_&_&Hbb&_).
  apply compound_bytes; [unfold MAX_TRACE_ATOM, atom_limit in *; lia|].
  unfold atoms. simpl. rewrite app_nil_r. apply Forall_app.
  split; apply atom_bytes; try done; unfold MAX_TRACE_ATOM, atom_limit in *; lia.
Qed.

(** The decoder follows the encoders' states. *)
Lemma feed_loop_emitted es states b f buf out :
  Forall emit_ok es → emit states es = Ok b → (length b < f)%nat →
  bytes_ok b ∧ ∃ states',
    feed_loop f buf b states true out = Some (MkDecoder [] states' true false, out ++ (event_of <$> es)).
Proof.
  intros Hes. revert states b f out. induction Hes as [|e es He _ IH]; intros states b f out.
  { intros [= <-] Hf. destruct f as [|f]; [lia|]. split; [done|]. exists states. simpl.
    by rewrite app_nil_r. }
  cbn [emit]. rewrite build_event_ok by done. cbn [rbind].
  set (st := default ev_default (states !! em_stream e)).
  destruct (emit (<[em_stream e := em_new e]> states) es) as [more|] eqn:Hm; simpl; [|done].
  intros [= <-] Hf. pose proof (event_bytes_ok st e He) as Hb.
  destruct f as [|f]; [lia|]. rewrite length_app in Hf.
  assert (Hpos : (0 < length (event_bytes st e))%nat).
  { destruct (event_bytes st e) eqn:E; [|simpl; lia]. by apply compound_nonempty in E. }
  destruct (IH _ more f (out ++ [event_of e]) Hm ltac:(lia)) as [Hmb (states'&Hl)].
  split; [by apply Forall_app|]. exists states'. cbn [feed_loop].
  rewrite get_event_atom by done. cbn [negb].
  unfold st. rewrite (decode_event_built states e He). rewrite Hl. by rewrite <- app_assoc.
Qed.

(** ** Claims *)

(** C16. A trace that arrives in any pieces decodes to the same events as the
    whole: the decoder after the pieces cannot be told from the decoder after
    the whole, errors included. *)
Theorem trace_in_pieces (chunks : list bytes) :
  Forall (λ c, bytes_ok c) chunks →
  same_outcome (feed_all decoder_default chunks) (feed decoder_default (concat chunks)).
Proof. intros Hall. apply feed_pieces; [|done]. by right. Qed.

Lemma trace_in_pieces_witness :
  same_outcome (feed_all decoder_default [[3]; [200; 7]; [1]])
    (feed decoder_default (concat [[3]; [200; 7]; [1]])).
Proof. apply trace_in_pieces. repeat constructor; vm_compute; try done; intros [=]. Defined.

(** Events of interleaved streams, each delta-encoded against its own
    stream, arrive as they were built however the bytes are cut; the decoder
    ends with an empty buffer and unpoisoned. *)
Theorem trace_roundtrip (es : list Emit) (head body : bytes) (chunks : list bytes) :
  Forall emit_ok es → version_atom = Ok head → emit ∅ es = Ok body → concat chunks = head ++ body →
  ∃ d, feed_all decoder_default chunks = Some (d, event_of <$> es) ∧
    d_poisoned d = false ∧ d_buf d = [].
Proof.
  intros Hes [= <-] Hbody Hc. change (concat chunks = 3 :: body) in Hc.
  assert (Hb : bytes_ok body) by (by destruct (feed_loop_emitted es ∅ body (S (length body)) [] [] Hes Hbody ltac:(lia))).
  assert (Hok : Forall (λ c, bytes_ok c) chunks).
  { assert (Hall : bytes_ok (concat chunks))
      by (rewrite Hc; constructor; [unfold byte_ok; lia|done]).
    clear Hc. induction chunks as [|c cs IH]; constructor; simpl in Hall; apply Forall_app in Hall.
    - apply Hall.
    - by apply IH, Hall. }
  pose proof (feed_pieces decoder_default chunks ltac:(by right) Hok) as Hp. rewrite Hc in Hp.
  assert (Hf : ∃ sts, feed decoder_default (3 :: body)
    = Some (MkDecoder [] sts true false, event_of <$> es)).
  { unfold feed, decoder_default. cbn [d_poisoned d_buf d_states d_versioned app length].
    destruct (feed_loop_emitted es ∅ body (S (length body)) (3 :: body) [] Hes Hbody ltac:(lia))
      as [_ (sts&Hl)].
    exists sts. etrans; [|exact Hl]. reflexivity. }
  destruct Hf as [sts Hf]. rewrite Hf in Hp.
  destruct (feed_all decoder_default chunks) as [[d o]|]; [|done].
  destruct Hp as [Hd ->]. exists d. split; [done|].
  destruct Hd as [[_ ?]| ->]; [done|by split].
Qed.

Definition two_streams : list Emit :=
  [MkEmit 3 (MkEvState 0 100 10 10 5 10 10) [] [47; 98];
   MkEmit 4 (MkEvState 7 150 11 11 10 11 11) [] [104; 105];
   MkEmit 3 (MkEvState 4 300 10 10 5 10 10) [0; 9; 0; 2304] []].

Definition result_bytes (r : Result bytes DecodeError) : bytes :=
  match r with Ok b => b | Err _ => [] end.

Lemma trace_roundtrip_witness :
  let b := result_bytes version_atom ++ result_bytes (emit ∅ two_streams) in
  ∃ d, feed_all decoder_default [take 5 b; drop 5 b] = Some (d, event_of <$> two_streams) ∧
    d_poisoned d = false ∧ d_buf d = [].
Proof.
  apply (trace_roundtrip two_streams (result_bytes version_atom) (result_bytes (emit ∅ two_streams))).
  - repeat constructor; vm_compute; try done; intros [=].
  - reflexivity.
  - reflexivity.
  - vm_compute. reflexivity.
Defined.
