(* ===== verification/SocketWire.v ===== *)
(** * Messages on the control socket.

    Models [engine/src/socket_wire.rs]: [read_encoded_atom], which reads one
    canonical atom off a stream and not a byte more, [read_atom], [write_atom]
    and the versioned messages, over any transport and any wire type. *)

From S2P Require Import Prelude.
From S2P Require Import BTreeMap.
From S2P Require Import IoRead.
From S2P Require Import WireAtoms.
From S2P Require Import WireValues.
Open Scope Z_scope.
Open Scope sarun_scope.

(** [WIRE_PROTOCOL_VERSION], [LIMIT_FRAME_BYTES] *)
Definition WIRE_PROTOCOL_VERSION : Z := 1.
Definition LIMIT_FRAME_BYTES : Z := 16777216.

(** [io::Error]: the transport's, or [InvalidData] with its reason. *)
Inductive Invalid : Type :=
| ZeroWidth | NonMinimal | AtomLengthOverflow | NonCanonical | ExceedsLimit
| BadValue (e : DecodeError) | TrailingAtomBytes | UnsupportedVersion (version : Z).
Inductive SocketError : Type :=
| Transport (fault : ReadFault)
| WriteFailed (e : Z)
| InvalidData (why : Invalid).

Section socket.
Context {R : Type} `{Read R}.

(** A reader's result, threaded. *)
Definition sbind {A B} (m : R * Result A SocketError) (k : R → A → R * Result B SocketError) :
    R * Result B SocketError :=
  match m with (r, Ok a) => k r a | (r, Err e) => (r, Err e) end.

Definition take_exact (reader : R) (n : Z) : R * Result bytes SocketError :=
  match read_exact reader (Z.to_nat n) with
  | (r, Ok b) => (r, Ok b)
  | (r, Err f) => (r, Err (Transport f))
  end.

(** The length prefix of a long atom. *)
Definition read_long_prefix (reader : R) (width : Z) : R * Result (bytes * Z) SocketError :=
  if width =? 0 then (reader, Err (InvalidData ZeroWidth)) else
  sbind (take_exact reader width) (λ reader bytes,
  if bool_decide (last bytes = Some 0) then (reader, Err (InvalidData NonMinimal)) else
  match sum_length bytes 0 0 with
  | Err _ => (reader, Err (InvalidData AtomLengthOverflow))
  | Ok length =>
      if length <=? 55 then (reader, Err (InvalidData NonCanonical))
      else (reader, Ok (bytes, length))
  end).

(** [read_encoded_atom] *)
Definition read_encoded_atom (reader : R) (maximum : Z) : R * Result bytes SocketError :=
  sbind (take_exact reader 1) (λ reader first,
  let tag := default 0 (head first) in
  if tag <? 192 then (reader, Ok first) else
  sbind (if tag <? 248 then (reader, Ok ([], tag - 192)) else read_long_prefix reader (tag - 248))
    (λ reader '(prefix, length),
  if maximum <? length then (reader, Err (InvalidData ExceedsLimit)) else
  sbind (take_exact reader length) (λ reader payload,
  (reader, Ok (tag :: prefix ++ payload))))).

Section typed.
Context {A : Type} `{WireValue A}.

(** [read_atom] *)
Definition read_atom (reader : R) : R * Result A SocketError :=
  sbind (read_encoded_atom reader LIMIT_FRAME_BYTES) (λ reader encoded,
  match decode_atom encoded with
  | Err e => (reader, Err (InvalidData (BadValue e)))
  | Ok (value, []) => (reader, Ok value)
  | Ok (_, _ :: _) => (reader, Err (InvalidData TrailingAtomBytes))
  end).
End typed.

(** [read_versioned] *)
Definition read_versioned {A} `{WireValue A} (reader : R) : R * Result A SocketError :=
  sbind (read_atom (A := uint 64) reader) (λ reader version,
  if negb (uint_val version =? WIRE_PROTOCOL_VERSION)
  then (reader, Err (InvalidData (UnsupportedVersion (uint_val version))))
  else read_atom reader).
End socket.

Section writers.
Context {W : Type} `{Write W} {A : Type} `{WireValue A}.

(** [write_atom] *)
Definition write_atom (writer : W) (value : A) : W * Result unit SocketError :=
  match encode_atom value [] with
  | Err e => (writer, Err (InvalidData (BadValue e)))
  | Ok encoded =>
      match write_all writer encoded with
      | (w, Ok u) => (w, Ok u)
      | (w, Err e) => (w, Err (WriteFailed e))
      end
  end.

(** [write_versioned]; the final [flush] has nothing to do for a buffer. *)
Definition write_versioned (writer : W) (value : A) : W * Result unit SocketError :=
  match put_u64 [] WIRE_PROTOCOL_VERSION with
  | Err e => (writer, Err (InvalidData (BadValue e)))
  | Ok version =>
      match write_all writer version with
      | (w, Err e) => (w, Err (WriteFailed e))
      | (w, Ok _) => write_atom w value
      end
  end.
End writers.

(** ** What is accepted *)

Section laws.
Context {R : Type} `{ReadLaws R contents}.

Lemma take_exact_inv r n b r' :
  0 ≤ n → take_exact r n = (r', Ok b) → contents r = b ++ contents r' ∧ zlen b = n.
Proof.
  intros Hn. unfold take_exact. destruct (le_lt_dec (Z.to_nat n) (length (contents r))) as [Hle|Hlt].
  - destruct (read_exact_ok r (take (Z.to_nat n) (contents r)) (drop (Z.to_nat n) (contents r)))
      as (r1&Hr&Hc); [by rewrite take_drop|].
    assert (Hl : length (take (Z.to_nat n) (contents r)) = Z.to_nat n) by (rewrite length_take; lia).
    rewrite Hl in Hr. rewrite Hr. intros [= <- <-]. rewrite Hc, take_drop. split; [done|].
    unfold zlen. lia.
  - destruct (read_exact_ended r (Z.to_nat n) Hlt) as (r1&->). done.
Qed.


Lemma le_decode_encode b : bytes_ok b → le_encode (length b) (le_decode b) = b.
Proof.
  induction 1 as [|x b Hx _ IH]; [done|]. simpl. unfold byte_ok in Hx. f_equal.
  - symmetry. apply (Z.mod_unique _ _ (le_decode b)); lia.
  - etrans; [|exact IH]. f_equal. symmetry. apply (Z.div_unique _ _ _ x); lia.
Qed.

Lemma le_decode_lower b : bytes_ok b → b ≠ [] → last b ≠ Some 0 → 256 ^ (zlen b - 1) ≤ le_decode b.
Proof.
  induction 1 as [|x b Hx Hb IH]; [done|]. intros _ Hlast. unfold byte_ok in Hx.
  destruct b as [|y b].
  - simpl in *. assert (x ≠ 0) by naive_solver. unfold zlen. simpl. lia.
  - assert (Hz : zlen (x :: y :: b) - 1 = Z.succ (zlen (y :: b) - 1)) by (unfold zlen; cbn [length]; lia).
    rewrite Hz, Z.pow_succ_r by (unfold zlen; cbn [length]; lia).
    specialize (IH ltac:(done) Hlast). change (le_decode (x :: y :: b)) with (x + 256 * le_decode (y :: b)).
    lia.
Qed.


(** A long prefix that is accepted is the one [put_length_prefix] writes. *)
Lemma long_prefix_canonical b :
  bytes_ok b → b ≠ [] → zlen b ≤ 7 → last b ≠ Some 0 → 55 < le_decode b →
  wrapper (le_decode b) = (248 + zlen b) :: b ∧ le_decode b < atom_limit.
Proof.
  intros Hb Hne Hl Hlast H55. pose proof (le_decode_bound b Hb) as Hbound.
  pose proof (le_decode_lower b Hb Hne Hlast) as Hlow.
  assert (Hlim : le_decode b < atom_limit).
  { pose proof (Z.pow_le_mono_r 256 (zlen b) 7). unfold atom_limit. change (2 ^ 56) with (256 ^ 7). lia. }
  split; [|done]. unfold wrapper, put_wrapper. rewrite (proj2 (Z.leb_gt _ _)) by lia.
  assert (E : length_bytes (le_decode b) = zlen b).
  { destruct (length_bytes_small (le_decode b)) as [Hk Hklt]; [lia|].
    assert (length_bytes (le_decode b) ≤ zlen b).
    { apply length_bytes_least; [unfold atom_limit, u64_limit in *; lia|apply zlen_nonneg|lia]. }
    destruct (Z.le_gt_cases (zlen b) (length_bytes (le_decode b))) as [|Hgt]; [lia|]. exfalso.
    pose proof (Z.pow_le_mono_r 256 (length_bytes (le_decode b)) (zlen b - 1)). lia. }
  rewrite E, push_length_spec by apply zlen_nonneg. unfold zlen. rewrite Nat2Z.id.
  by rewrite le_decode_encode.
Qed.

(** What [read_encoded_atom] returns is the atom or the compound of a payload
    within the limit, and exactly what was taken from the reader. *)
Lemma read_encoded_atom_inv r maximum r' e :
  bytes_ok (contents r) → 0 < maximum → read_encoded_atom r maximum = (r', Ok e) →
  contents r = e ++ contents r' ∧
  ∃ p, bytes_ok p ∧ zlen p ≤ maximum ∧ (e = atom p ∨ e = compound p).
Proof.
  intros Hok Hm. unfold read_encoded_atom. destruct (take_exact r 1) as [r1 [b|?]] eqn:H1; [|done].
  apply take_exact_inv in H1 as [Hc1 Hl1]; [|lia]. destruct b as [|tag [|]]; try (unfold zlen in Hl1; simpl in Hl1; lia).
  simpl sbind. simpl default. simpl in Hc1. rewrite Hc1 in Hok. apply Forall_cons in Hok as [Htag Hok].
  unfold byte_ok in Htag. destruct (Z.ltb_spec tag 192) as [Hs|Hge].
  { intros [= <- <-]. split; [done|]. exists [tag]. split_and!; [|unfold zlen; simpl; lia|].
    - apply Forall_singleton. unfold byte_ok. lia.
    - left. unfold atom. simpl. by rewrite (proj2 (Z.ltb_lt _ _) Hs). }
  assert (Hend : ∀ r2 prefix length, bytes_ok (contents r2) → contents r1 = prefix ++ contents r2 →
    0 ≤ length → length < atom_limit → wrapper length = tag :: prefix →
    (if maximum <? length then (r2, Err (InvalidData ExceedsLimit)) else
     sbind (take_exact r2 length) (λ reader payload, (reader, Ok (tag :: prefix ++ payload))))
    = (r', Ok e) →
    contents r = e ++ contents r' ∧
    ∃ p, bytes_ok p ∧ zlen p ≤ maximum ∧ (e = atom p ∨ e = compound p)).
  { intros r2 prefix length Hok2 Hc2 Hl0 Hlim Hw. destruct (Z.ltb_spec maximum length) as [|Hle]; [done|].
    destruct (take_exact r2 length) as [r3 [p|?]] eqn:H3; [|done].
    apply take_exact_inv in H3 as [Hc3 Hl3]; [|done]. simpl. intros [= <- <-].
    rewrite Hc3 in Hok2. apply Forall_app in Hok2 as [Hp _]. split.
    - rewrite Hc1, Hc2, Hc3. simpl. by rewrite <- app_assoc.
    - exists p. split_and!; [done|lia|]. right. unfold compound. by rewrite Hl3, Hw. }
  destruct (Z.ltb_spec tag 248) as [Hlt|Hge2]; simpl.
  { apply (Hend r1 [] (tag - 192)); [done|done|lia|unfold atom_limit; lia|].
    unfold wrapper, put_wrapper. rewrite (proj2 (Z.leb_le _ _)) by lia. simpl. do 2 f_equal. lia. }
  unfold read_long_prefix. destruct (Z.eqb_spec (tag - 248) 0) as [|Hw0]; [done|].
  destruct (take_exact r1 (tag - 248)) as [r2 [b|?]] eqn:H2; [|done].
  apply take_exact_inv in H2 as [Hc2 Hl2]; [|lia]. simpl sbind.
  rewrite Hc2 in Hok. apply Forall_app in Hok as [Hb Hok2].
  destruct (bool_decide_reflect (last b = Some 0)) as [|Hlast]; [done|].
  rewrite sum_length_spec by (first [done|lia]). simpl sbind.
  replace (0 + 256 ^ 0 * le_decode b) with (le_decode b) by lia.
  destruct (Z.leb_spec (le_decode b) 55) as [|H55]; [done|]. simpl sbind.
  destruct (long_prefix_canonical b) as [Hwr Hlim]; [done| |lia|done|done|].
  { intros ->. unfold zlen in Hl2. simpl in Hl2. lia. }
  apply (Hend r2 b (le_decode b)); [done|done|lia|done|]. rewrite Hwr. f_equal. lia.
Qed.

End laws.

(** ** Typed messages *)

Section messages.
Context {R : Type} `{ReadLaws R contents} {A : Type} `{WireLaws A}.


Lemma read_atom_inv r r' (v : A) :
  bytes_ok (contents r) → read_atom r = (r', Ok v) →
  wire_ok v ∧ ∃ e, contents r = e ++ contents r' ∧ decode_atom e = Ok (v, []).
Proof.
  intros Hok. unfold read_atom.
  destruct (read_encoded_atom r LIMIT_FRAME_BYTES) as [r1 [e|?]] eqn:Hr; [|done]. simpl sbind.
  apply read_encoded_atom_inv in Hr as [Hc _]; [|done|done]. rewrite Hc in Hok.
  apply Forall_app in Hok as [He _].
  destruct (decode_atom e) as [[w [|]]|] eqn:Hd; try done. intros [= <- <-].
  split; [by eapply wire_reads|]. by exists e.
Qed.
End messages.

(** ** Claims *)


(** A box's environment and exit code, say. *)
Abbreviation Sample := (option (BoundedMap (BoundedBytes 8) (BoundedVec (sint 32) 1 4) 2)) (only parsing).
Definition sample : Sample :=
  Some (MkBoundedMap [(MkBoundedBytes [72], MkBoundedVec [SInt (-1); SInt 300]);
                      (MkBoundedBytes [72; 73], MkBoundedVec [SInt 7])]).


(** C21. Whatever bytes a client sends, a message that is accepted has the
    protocol's version, keeps every bound of its type, and was decoded from
    exactly the bytes taken from the stream. *)
Theorem message_within_bounds {R} `{ReadLaws R contents} {A} `{WireLaws A} (r r' : R) (v : A) :
  bytes_ok (contents r) → read_versioned r = (r', Ok v) →
  wire_ok v ∧ ∃ ve e, contents r = ve ++ e ++ contents r' ∧
    get_u64 ve = Ok (WIRE_PROTOCOL_VERSION, []) ∧ decode_atom e = Ok (v, []).
Proof.
  intros Hok. unfold read_versioned.
  destruct (read_atom (A := uint 64) r) as [r1 [[ver]|?]] eqn:Hver; [|done].
  destruct (read_atom_inv _ _ _ Hok Hver) as [_ (ve&Hc&Hd)]. simpl sbind. simpl uint_val.
  destruct (Z.eqb_spec ver WIRE_PROTOCOL_VERSION) as [->|]; [|done]. simpl negb. cbv iota. intros Hv.
  rewrite Hc in Hok. apply Forall_app in Hok as [_ Hok1].
  destruct (read_atom_inv _ _ _ Hok1 Hv) as [Hw (e&Hc1&Hd1)]. split; [done|].
  exists ve, e. rewrite Hc, Hc1. split_and!; [done| |done].
  revert Hd. simpl. destruct (get_u64 ve) as [[w rest]|]; simpl; [|done].
  destruct (w <? _); [|done]. by intros [= -> ->].
Qed.

Lemma message_within_bounds_witness :
  wire_ok sample ∧ ∃ ve e, (write_versioned [] sample).1 = ve ++ e ++ [] ∧
    get_u64 ve = Ok (WIRE_PROTOCOL_VERSION, []) ∧ decode_atom e = Ok (sample, []).
Proof.
  apply (message_within_bounds (R := Trickle) (contents := dripping) (A := Sample)
    (MkTrickle (write_versioned [] sample).1) (MkTrickle []) sample).
  - vm_compute. repeat constructor; intros [=].
  - vm_compute. reflexivity.
Defined.
