(* ===== verification/Glob.v ===== *)
(** * The glob matcher.

    Models [engine/src/rules/glob.rs]: brace expansion, the backtracking matcher
    [m] with its extended groups and bracket classes, [globmatch] and
    [textmatch].  A string is the list of its characters.  A position in the
    pattern or in the text is the rest of the list from there; of the pattern
    before it, the matcher only asks whether it is empty or ends in a slash. *)

From stdpp Require Import strings gmap.
From S2P Require Import Prelude.
Open Scope Z_scope.

Abbreviation char := Z (only parsing).
Abbreviation text := (list Z) (only parsing).

(** The characters of a literal of the source *)
Definition str (s : string) : text :=
  (λ a, Z.of_N (Ascii.N_of_ascii a)) <$> String.list_ascii_of_string s.
Definition chr (s : string) : char := default 0 (head (str s)).

Definition SLASH : char := Eval vm_compute in chr "/".
Definition STAR : char := Eval vm_compute in chr "*".
Definition QUERY : char := Eval vm_compute in chr "?".
Definition AT : char := Eval vm_compute in chr "@".
Definition BANG : char := Eval vm_compute in chr "!".
Definition PLUS : char := Eval vm_compute in chr "+".
Definition CARET : char := Eval vm_compute in chr "^".
Definition DASH : char := Eval vm_compute in chr "-".
Definition PIPE : char := Eval vm_compute in chr "|".
Definition COMMA : char := Eval vm_compute in chr ",".
Definition BACKSLASH : char := Eval vm_compute in chr "\".
Definition LBRACK : char := Eval vm_compute in chr "[".
Definition RBRACK : char := Eval vm_compute in chr "]".
Definition LPAREN : char := Eval vm_compute in chr "(".
Definition RPAREN : char := Eval vm_compute in chr ")".
Definition LBRACE : char := Eval vm_compute in chr "{".
Definition RBRACE : char := Eval vm_compute in chr "}".

(** ** Brace expansion *)

(** [scan_group], from its opening brace: the text after the closing brace, the
    parts, and whether there was a separating comma. *)
Fixpoint scan_group (chars : text) (depth_brace depth_paren : Z) (parts : list text) (cur : text)
    (had_comma : bool) : option (text * list text * bool) :=
  match chars with
  | [] => None
  | c :: chars =>
      if c =? BACKSLASH then
        match chars with
        | [] => None
        | d :: chars => scan_group chars depth_brace depth_paren parts (cur ++ [c; d]) had_comma
        end
      else if c =? LBRACE then
        scan_group chars (depth_brace + 1) depth_paren parts
          (if 1 <? depth_brace + 1 then cur ++ [c] else cur) had_comma
      else if c =? RBRACE then
        if depth_brace - 1 =? 0 then Some (chars, parts ++ [cur], had_comma)
        else scan_group chars (depth_brace - 1) depth_paren parts (cur ++ [c]) had_comma
      else if c =? LPAREN then
        scan_group chars depth_brace (depth_paren + 1) parts (cur ++ [c]) had_comma
      else if c =? RPAREN then
        scan_group chars depth_brace (if 0 <? depth_paren then depth_paren - 1 else depth_paren)
          parts (cur ++ [c]) had_comma
      else if (c =? COMMA) && (depth_brace =? 1) && (depth_paren =? 0) then
        scan_group chars depth_brace depth_paren (parts ++ [cur]) [] true
      else scan_group chars depth_brace depth_paren parts (cur ++ [c]) had_comma
  end.

(** The search of [expand_braces] for the first group with a comma: what is
    before it, its parts, and what is after it. *)
Fixpoint find_group (prefix chars : text) : option (text * list text * text) :=
  match chars with
  | [] => None
  | c :: rest =>
      if c =? BACKSLASH then
        match rest with
        | [] => None
        | d :: rest => find_group (prefix ++ [c; d]) rest
        end
      else
        match (if c =? LBRACE then scan_group chars 0 0 [] [] false else None) with
        | Some (suffix, parts, true) => Some (prefix, parts, suffix)
        | _ => find_group (prefix ++ [c]) rest
        end
  end.

(** [expand_braces]; an alternative followed by the suffix is shorter than the
    pattern, so that its length is fuel enough ([expand_fuel]). *)
Fixpoint expand_loop (fuel : nat) (pat : text) : list text :=
  match fuel with
  | O => [pat]
  | S fuel =>
      match find_group [] pat with
      | Some (prefix, parts, suffix) =>
          parts ≫= λ p, (λ tail, prefix ++ tail) <$> expand_loop fuel (p ++ suffix)
      | None => [pat]
      end
  end.
Definition expand_braces (pat : text) : list text := expand_loop (length pat) pat.

(** ** Groups and classes *)

(** The loop of [parse_extglob] *)
Fixpoint scan_alts (p : text) (depth : Z) (alts : list text) (cur : text) :
    option (list text * text) :=
  match p with
  | [] => None
  | c :: p =>
      if c =? BACKSLASH then
        match p with
        | [] => None
        | d :: p => scan_alts p depth alts (cur ++ [c; d])
        end
      else if c =? LPAREN then
        scan_alts p (depth + 1) alts (if 1 <? depth + 1 then cur ++ [c] else cur)
      else if c =? RPAREN then
        if depth - 1 =? 0 then Some (alts ++ [cur], p)
        else scan_alts p (depth - 1) alts (cur ++ [c])
      else if (c =? PIPE) && (depth =? 1) then scan_alts p depth (alts ++ [cur]) []
      else scan_alts p depth alts (cur ++ [c])
  end.

(** [parse_extglob], given the pattern from the group's operator: the
    alternatives, and the pattern after the group. *)
Definition parse_extglob (p : text) : option (list text * text) := scan_alts (drop 1 p) 0 [] [].

(** The operators of the source, and a group that starts here. *)
Definition ext_op (c : char) : bool :=
  (c =? AT) || (c =? BANG) || (c =? PLUS) || (c =? STAR) || (c =? QUERY).
Definition ext_group (p : text) : option (list text * text) :=
  match p with
  | c :: d :: _ => if ext_op c && (d =? LPAREN) then parse_extglob p else None
  | _ => None
  end.

(** The closing bracket: the class's body and the pattern after it.  A bracket
    right after the (negated) opening is a member. *)
Fixpoint until_bracket (p : text) : option (text * text) :=
  match p with
  | [] => None
  | c :: p =>
      if c =? RBRACK then Some ([], p)
      else match until_bracket p with Some (body, rest) => Some (c :: body, rest) | None => None end
  end.
Definition class_body (p : text) : option (text * text) :=
  match p with
  | c :: p' =>
      if c =? RBRACK then
        match until_bracket p' with Some (body, rest) => Some (c :: body, rest) | None => None end
      else until_bracket p
  | [] => None
  end.

(** The first half of [match_class]: negation, body and the rest. *)
Definition parse_class (p : text) : option (bool * text * text) :=
  let negate := match p with c :: _ => (c =? BANG) || (c =? CARET) | [] => false end in
  match class_body (if negate then drop 1 p else p) with
  | Some (body, rest) => Some (negate, body, rest)
  | None => None
  end.

(** The member loop of [match_class], with its ranges. *)
Fixpoint in_body (body : text) (ch : char) : bool :=
  match body with
  | [] => false
  | lo :: body' =>
      match body' with
      | d :: hi :: rest =>
          if d =? DASH then ((lo <=? ch) && (ch <=? hi)) || in_body rest ch
          else (lo =? ch) || in_body body' ch
      | _ => (lo =? ch) || in_body body' ch
      end
  end.

(** [match_class] on the first character of the text *)
Definition match_class (negate : bool) (body t : text) : bool :=
  match t with
  | [] => false
  | ch :: _ => if ch =? SLASH then false else xorb negate (in_body body ch)
  end.

(** [is_segment_globstar] at a [**]: whether a slash follows, and the rest. *)
Definition globstar (before : bool) (p : text) : option (bool * text) :=
  match p with
  | c :: d :: rest =>
      if (c =? STAR) && (d =? STAR) && before then
        match rest with
        | [] => Some (false, [])
        | e :: rest => if e =? SLASH then Some (true, rest) else None
        end
      else None
  | _ => None
  end.

(** ** The matcher *)

Section loops.
Context (f : text → bool).

(** [*]: every position up to the next slash *)
Fixpoint star_loop (t : text) : bool :=
  f t || match t with [] => false | c :: t => if c =? SLASH then false else star_loop t end.

(** [**/]: every position after a slash *)
Fixpoint slash_loop (t : text) : bool :=
  match t with [] => false | c :: t => (if c =? SLASH then f t else false) || slash_loop t end.

(** [**]: every position *)
Fixpoint every_loop (t : text) : bool :=
  f t || match t with [] => false | _ :: t => every_loop t end.
End loops.

(** The length of the current segment *)
Fixpoint seg_end (t : text) : nat :=
  match t with [] => O | c :: t => if c =? SLASH then O else S (seg_end t) end.

(** [&t[start..e]] *)
Definition slice (t : text) (start e : nat) : text := take (e - start) (drop start t).

Section extglob.
Context (alt : text → text → bool) (cont : text → bool).

(** [alt_ends] *)
Definition alt_ends (alts : list text) (t : text) (start : nat) : list nat :=
  List.filter (λ e, existsb (λ a, alt a (slice t start e)) alts)
    (seq start (S (seg_end t) - start)).

(** One position of the search of [+(..)] and [*(..)]: every end but itself. *)
Definition visit (ends : list nat) (pos : nat) (state : list nat * gset nat * gset nat) :
    list nat * gset nat * gset nat :=
  fold_left (λ '(frontier, seen, positions) e,
    if (e =? pos)%nat then (frontier, seen, positions)
    else
      (if decide (e ∈ seen) then frontier else e :: frontier,
       {[e]} ∪ seen, {[e]} ∪ positions))
    ends state.

(** The search; a position is pushed once, so that it ends ([bfs_spec]). *)
Fixpoint bfs (fuel : nat) (alts : list text) (t : text) (state : list nat * gset nat * gset nat) :
    gset nat :=
  match fuel, state with
  | S fuel, (pos :: frontier, seen, positions) =>
      bfs fuel alts t (visit (alt_ends alts t pos) pos (frontier, seen, positions))
  | _, (_, _, positions) => positions
  end.

(** [match_extglob] *)
Definition match_extglob (op : char) (alts : list text) (t : text) : bool :=
  let here e := cont (drop e t) in
  if op =? AT then existsb here (alt_ends alts t 0)
  else if op =? QUERY then cont t || existsb here (alt_ends alts t 0)
  else if (op =? PLUS) || (op =? STAR) then
    let start : gset nat := if op =? STAR then {[O]} else ∅ in
    existsb here (elements (bfs (S (S (seg_end t))) alts t ([O], {[O]}, start)))
  else if op =? BANG then
    existsb (λ e, negb (existsb (λ a, alt a (slice t 0 e)) alts) && here e) (seq 0 (S (seg_end t)))
  else false.
End extglob.

(** [m]: does the pattern match the whole text?  Every call takes something off
    the pattern, or goes into an alternative, which is shorter. *)
Fixpoint m (fuel : nat) (before : bool) (p t : text) : bool :=
  match fuel with
  | O => false
  | S fuel =>
      match p with
      | [] => match t with [] => true | _ => false end
      | c :: p1 =>
          match globstar before p with
          | Some (ate_slash, rest) =>
              m fuel ate_slash rest t
              || slash_loop (m fuel ate_slash rest) t
              || (negb ate_slash && every_loop (m fuel ate_slash rest) t)
          | None =>
          match ext_group p with
          | Some (alts, after) => match_extglob (m fuel true) (m fuel false after) c alts t
          | None =>
              if c =? STAR then star_loop (m fuel false p1) t
              else if c =? QUERY then
                match t with
                | [] => false
                | x :: t => if x =? SLASH then false else m fuel false p1 t
                end
              else if c =? LBRACK then
                match parse_class p1 with
                | Some (negate, body, rest) =>
                    if match_class negate body t then m fuel false rest (drop 1 t) else false
                | None =>
                    match t with
                    | x :: t => if x =? LBRACK then m fuel false p1 t else false
                    | [] => false
                    end
                end
              else if c =? BACKSLASH then
                let lit := match p1 with d :: _ => d | [] => BACKSLASH end in
                match t with
                | x :: t => if x =? lit then m fuel (lit =? SLASH) (drop 1 p1) t else false
                | [] => false
                end
              else
                match t with
                | x :: t => if x =? c then m fuel (c =? SLASH) p1 t else false
                | [] => false
                end
          end
          end
      end
  end.

(** [match_pattern] *)
Definition match_pattern (pat s : text) : bool := m (S (length pat)) true pat s.

(** [globmatch] *)
Definition globmatch (pat s : text) : bool := existsb (λ alt, match_pattern alt s) (expand_braces pat).

(** [textmatch] *)
Definition SENTINEL : char := 31.
Definition replace_slash (s : text) : text := (λ c, if c =? SLASH then SENTINEL else c) <$> s.
Definition textmatch (pat s : text) : bool := globmatch (replace_slash pat) (replace_slash s).
