(* ===== verification/GlobSpec.v ===== *)
(** * What a glob means.

    A pattern is a list of tokens; a token is a language, and a pattern matches
    the concatenations of its tokens' languages.  [m_lang] shows that the
    backtracking matcher of [Glob] decides exactly that, search of repeated
    groups included.  Module [Syntax] states the documented language on its own,
    over a syntax of patterns and the way they are written, and shows that the
    matcher decides it. *)

From stdpp Require Import strings gmap.
From S2P Require Import Prelude.
From S2P Require Import Glob.
Open Scope Z_scope.

(** ** Tokens *)
Inductive Tok : Type :=
| Lit (c : char)
| Any
| Run
| Class (negate : bool) (body : text)
| Deep (slash : bool)
| Ext (op : char) (alts : list (list Tok)).

(** The tokens of a pattern *)
Fixpoint tokens (fuel : nat) (before : bool) (p : text) : list Tok :=
  match fuel with
  | O => []
  | S fuel =>
      match p with
      | [] => []
      | c :: p1 =>
          match globstar before p with
          | Some (slash, rest) => Deep slash :: tokens fuel slash rest
          | None =>
          match ext_group p with
          | Some (alts, after) => Ext c (tokens fuel true <$> alts) :: tokens fuel false after
          | None =>
              if c =? STAR then Run :: tokens fuel false p1
              else if c =? QUERY then Any :: tokens fuel false p1
              else if c =? LBRACK then
                match parse_class p1 with
                | Some (negate, body, rest) => Class negate body :: tokens fuel false rest
                | None => Lit LBRACK :: tokens fuel false p1
                end
              else if c =? BACKSLASH then
                let lit := match p1 with d :: _ => d | [] => BACKSLASH end in
                Lit lit :: tokens fuel (lit =? SLASH) (drop 1 p1)
              else Lit c :: tokens fuel (c =? SLASH) p1
          end
          end
      end
  end.
Definition pattern_tokens (p : text) : list Tok := tokens (S (length p)) true p.

(** ** Languages *)
Definition lang : Type := text → Prop.

Definition then_lang (k l : lang) : lang := λ t, ∃ u v, t = u ++ v ∧ k u ∧ l v.

(** Within a segment, what the code makes of the alternatives' language: a
    repetition is one of pieces that are not empty.  [Syntax.group_lang] is what
    the header says. *)
Definition op_lang (op : char) (alt : lang) : lang := λ u,
  (SLASH ∉ u) ∧
  (if op =? AT then alt u
  else if op =? QUERY then u = [] ∨ alt u
  else if op =? PLUS then ∃ us, us ≠ [] ∧ u = concat us ∧ Forall (λ w, w ≠ [] ∧ alt w) us
  else if op =? STAR then ∃ us, u = concat us ∧ Forall (λ w, w ≠ [] ∧ alt w) us
  else if op =? BANG then ~ alt u
  else False).

Fixpoint tok_lang (k : Tok) : lang :=
  match k with
  | Lit c => λ u, u = [c]
  | Any => λ u, ∃ c, u = [c] ∧ c ≠ SLASH
  | Run => λ u, SLASH ∉ u
  | Class negate body => λ u, ∃ c, u = [c] ∧ c ≠ SLASH ∧ xorb negate (in_body body c) = true
  | Deep true => λ u, u = [] ∨ last u = Some SLASH
  | Deep false => λ _, True
  | Ext op alts =>
      let seq := fix seq ks := match ks with [] => λ u, u = [] | k :: ks => then_lang (tok_lang k) (seq ks) end in
      let any := fix any alts := match alts with [] => λ _, False | a :: alts => λ u, seq a u ∨ any alts u end in
      op_lang op (any alts)
  end.

Fixpoint toks_lang (ks : list Tok) : lang :=
  match ks with [] => λ u, u = [] | k :: ks => then_lang (tok_lang k) (toks_lang ks) end.
Fixpoint alts_lang (alts : list (list Tok)) : lang :=
  match alts with [] => λ _, False | a :: alts => λ u, toks_lang a u ∨ alts_lang alts u end.

(** ** Helper facts *)

Lemma ext_lang op alts u : tok_lang (Ext op alts) u ↔ op_lang op (alts_lang alts) u.
Proof. reflexivity. Qed.

Lemma alts_lang_exists alts u : alts_lang alts u ↔ ∃ a, a ∈ alts ∧ toks_lang a u.
Proof. induction alts as [|a alts IH]; simpl; [set_solver|]. rewrite IH. set_solver. Qed.

Section loops.
Context (f : text → bool) (l : lang).
Hypothesis f_lang : ∀ t, f t = true ↔ l t.

Lemma star_loop_lang t : star_loop f t = true ↔ then_lang (λ u, SLASH ∉ u) l t.
Proof.
  unfold then_lang. induction t as [|c t IH]; simpl; rewrite orb_true_iff, f_lang.
  - split; [intros [?|?]; [by exists [], []; set_solver|done]|].
    intros (u&v&E&_&Hv). symmetry in E. apply app_eq_nil in E as [-> ->]. by left.
  - destruct (Z.eqb_spec c SLASH) as [->|Hc].
    + split; [intros [?|?]; [by exists [], (SLASH :: t); set_solver|done]|].
      intros (u&v&E&Hu&Hv). left. destruct u as [|x u]; [by simplify_eq/=|].
      simplify_eq/=. set_solver.
    + rewrite IH. split.
      * intros [?|(u&v&->&Hu&Hv)]; [by exists [], (c :: t); set_solver|].
        exists (c :: u), v. split_and!; [done|set_solver|done].
      * intros (u&v&E&Hu&Hv). destruct u as [|x u]; simplify_eq/=; [by left|right].
        exists u, v. set_solver.
Qed.

Lemma slash_loop_lang t : slash_loop f t = true ↔ ∃ u v, t = u ++ SLASH :: v ∧ l v.
Proof.
  induction t as [|c t IH]; simpl.
  - split; [done|]. intros (u&v&E&_). by destruct u.
  - rewrite orb_true_iff, IH. split.
    + intros [Hf|(u&v&->&Hv)].
      * destruct (Z.eqb_spec c SLASH) as [->|]; [|done]. apply f_lang in Hf. by exists [], t.
      * by exists (c :: u), v.
    + intros (u&v&E&Hv). destruct u as [|x u]; simplify_eq/=; [left|right; by eauto].
      by apply f_lang.
Qed.

Lemma every_loop_lang t : every_loop f t = true ↔ ∃ u v, t = u ++ v ∧ l v.
Proof.
  induction t as [|c t IH]; simpl; rewrite orb_true_iff, f_lang.
  - split; [intros [?|?]; [by exists [], []|done]|].
    intros (u&v&E&Hv). symmetry in E. apply app_eq_nil in E as [-> ->]. by left.
  - rewrite IH. split.
    + intros [?|(u&v&->&?)]; [by exists [], (c :: t)|by exists (c :: u), v].
    + intros (u&v&E&Hv). destruct u as [|x u]; simplify_eq/=; [by left|right; eauto].
Qed.
End loops.

Lemma seg_end_length t : (seg_end t ≤ length t)%nat.
Proof. induction t as [|c t IH]; simpl; [lia|]. case_match; simpl; lia. Qed.

(** The prefixes without a slash are the ones that end in the segment. *)
Lemma seg_end_spec t e : (e ≤ length t)%nat → SLASH ∉ take e t ↔ (e ≤ seg_end t)%nat.
Proof.
  revert e. induction t as [|c t IH]; intros e He; simpl in *.
  - destruct e; [|lia]. simpl. split; [lia|set_solver].
  - destruct e as [|e]; simpl; [split; [lia|set_solver]|].
    rewrite not_elem_of_cons, IH by lia. destruct (Z.eqb_spec c SLASH) as [->|Hc].
    + split; [naive_solver|lia].
    + split; [lia|]. intros. split; [congruence|lia].
Qed.

Lemma existsb_seq (g : nat → bool) start n :
  existsb g (seq start n) = true ↔ ∃ e, (start ≤ e < start + n)%nat ∧ g e = true.
Proof. rewrite existsb_exists. setoid_rewrite in_seq. naive_solver. Qed.

(** A split of the text within the segment, as a position. *)
Lemma split_segment (P Q : lang) t :
  (∃ e, (e ≤ seg_end t)%nat ∧ P (take e t) ∧ Q (drop e t)) ↔
  then_lang (λ u, (SLASH ∉ u) ∧ P u) Q t.
Proof.
  split.
  - intros (e&He&HP&HQ). pose proof (seg_end_length t). exists (take e t), (drop e t).
    rewrite take_drop. split_and!; [done| |done|done]. apply seg_end_spec; lia.
  - intros (u&v&->&[Hu HP]&HQ). exists (length u). rewrite take_app_length, drop_app_length.
    split_and!; [|done..]. apply seg_end_spec; [rewrite length_app; lia|]. by rewrite take_app_length.
Qed.

(** ** Repeated groups *)

Section search.
Context (alt : text → text → bool) (alts : list text) (t : text) (A : lang).
Hypothesis alt_lang : ∀ w, existsb (λ a, alt a w) alts = true ↔ A w.

Lemma alt_ends_spec start e :
  e ∈ alt_ends alt alts t start ↔ (start ≤ e ≤ seg_end t)%nat ∧ A (slice t start e).
Proof.
  unfold alt_ends. rewrite list_elem_of_In, filter_In, in_seq, alt_lang. split; intros [? ?]; split; lia || done.
Qed.

(** One repetition that takes something. *)
Definition hop (pos e : nat) : Prop := e ≠ pos ∧ e ∈ alt_ends alt alts t pos.

Lemma visit_spec ends pos frontier seen positions :
  ∃ new, let E : gset nat := list_to_set (List.filter (λ e, negb (e =? pos)%nat) ends) in
    visit ends pos (frontier, seen, positions) = (new ++ frontier, E ∪ seen, E ∪ positions) ∧
    (∀ x, x ∈ new → x ∈ E) ∧ (∀ x, x ∈ E → x ∈ seen ∨ x ∈ new) ∧
    (size (E ∪ seen) = length new + size seen)%nat.
Proof.
  revert frontier seen positions. induction ends as [|e ends IH]; intros frontier seen positions.
  { exists []. simpl. rewrite !(left_id_L ∅ (∪)). set_solver. }
  unfold visit in *. cbn [fold_left List.filter]. destruct (Nat.eqb_spec e pos) as [->|Hne]; simpl negb; cbv iota.
  { apply IH. }
  destruct (IH (if decide (e ∈ seen) then frontier else e :: frontier) ({[e]} ∪ seen) ({[e]} ∪ positions))
    as (new&Hv&H1&H2&H3).
  set (E := list_to_set (List.filter _ ends)) in *.
  assert (Hs : (E ∪ ({[e]} ∪ seen) : gset nat) = {[e]} ∪ E ∪ seen) by set_solver.
  assert (Hp : (E ∪ ({[e]} ∪ positions) : gset nat) = {[e]} ∪ E ∪ positions) by set_solver.
  cbn [list_to_set]. fold E. destruct (decide (e ∈ seen)) as [Hin|Hnin].
  - exists new. cbv zeta. rewrite Hv, Hs, Hp. split_and!; [done|set_solver..|].
    rewrite <- Hs, H3. do 2 f_equal. set_solver.
  - exists (new ++ [e]). cbv zeta. rewrite Hv, Hs, Hp. split_and!.
    + by rewrite <- app_assoc.
    + set_solver.
    + set_solver.
    + rewrite <- Hs, H3, size_union, size_singleton, length_app by set_solver. simpl. lia.
Qed.

(** The search finds the positions that repetitions reach. *)
Lemma bfs_spec fuel frontier seen positions start :
  (∀ x, x ∈ frontier → x ∈ seen) →
  (∀ x, x ∈ seen → (x ≤ seg_end t)%nat ∧ rtc hop 0%nat x) →
  (∀ x y, x ∈ seen → hop x y → x ∈ frontier ∨ (y ∈ seen ∧ y ∈ positions)) →
  (∀ x, x ∈ positions → x ∈ start ∨ tc hop 0%nat x) →
  0%nat ∈ seen → start ⊆ positions →
  (length frontier + (S (seg_end t) - size seen) < fuel)%nat →
  ∀ x, x ∈ bfs alt fuel alts t (frontier, seen, positions) ↔ x ∈ start ∨ tc hop 0%nat x.
Proof.
  revert frontier seen positions. induction fuel as [|fuel IH];
    intros frontier seen positions Hfs Hseen Hclosed Hpos H0 Hstart Hfuel x; [lia|].
  destruct frontier as [|pos frontier]; cbn [bfs].
  - split; [apply Hpos|]. intros [Hx|Hx]; [by apply Hstart|].
    assert (Hcl : ∀ y, y ∈ seen → ∀ z, tc hop y z → z ∈ seen ∧ z ∈ positions).
    { intros y Hy z Hyz. induction Hyz as [y z Hh|y y' z Hh _ IHz].
      - by destruct (Hclosed y z Hy Hh) as [?%not_elem_of_nil|?].
      - destruct (Hclosed y y' Hy Hh) as [?%not_elem_of_nil|[Hy' _]]; [done|]. by apply IHz. }
    by apply (Hcl 0%nat H0).
  - destruct (visit_spec (alt_ends alt alts t pos) pos frontier seen positions) as (new&Hv&H1&H2&H3).
    rewrite Hv. set (E := list_to_set (List.filter _ _)) in *.
    assert (HE : ∀ y, y ∈ E ↔ hop pos y).
    { intros y. unfold E, hop. rewrite elem_of_list_to_set, list_elem_of_In, filter_In, <- list_elem_of_In.
      destruct (Nat.eqb_spec y pos); naive_solver. }
    assert (Hpr : rtc hop 0%nat pos) by (apply Hseen, Hfs; set_solver).
    assert (Hsz : (size (E ∪ seen) ≤ S (seg_end t))%nat).
    { rewrite <- (size_set_seq (C := gset nat) 0 (S (seg_end t))). apply subseteq_size.
      intros y [Hy|Hy]%elem_of_union; apply elem_of_set_seq; [|apply Hseen in Hy; lia].
      apply HE in Hy as [_ Hy%alt_ends_spec]. lia. }
    apply IH.
    + intros y [Hy|Hy]%elem_of_app; [set_solver|]. apply elem_of_union. right. apply Hfs. set_solver.
    + intros y [Hy|Hy]%elem_of_union; [|by apply Hseen].
      apply HE in Hy. split; [|by eapply rtc_r]. destruct Hy as [_ Hy]. apply alt_ends_spec in Hy. lia.
    + intros y z [Hy|Hy]%elem_of_union Hh.
      * destruct (H2 y Hy) as [Hs|Hn]; [|left; set_solver].
        destruct (Hclosed y z Hs Hh) as [[->|?]%elem_of_cons|?]; [|left; set_solver|right; set_solver].
        right. apply HE in Hh. set_solver.
      * destruct (Hclosed y z Hy Hh) as [[->|?]%elem_of_cons|?]; [|left; set_solver|right; set_solver].
        right. apply HE in Hh. set_solver.
    + intros y [Hy|Hy]%elem_of_union; [|by apply Hpos].
      right. apply HE in Hy. by eapply tc_rtc_l; [|apply tc_once].
    + set_solver.
    + set_solver.
    + rewrite H3 in *. rewrite length_app. simpl in Hfuel. lia.
Qed.

Lemma slice_app a b c : (a ≤ b)%nat → (b ≤ c)%nat → (c ≤ length t)%nat →
  slice t a b ++ slice t b c = slice t a c.
Proof.
  intros. unfold slice. replace (drop b t) with (drop (b - a) (drop a t)) by (rewrite drop_drop; f_equal; lia).
  rewrite <- (take_drop (b - a) (take (c - a) (drop a t))). f_equal.
  - rewrite take_take. f_equal. lia.
  - rewrite skipn_firstn_comm. f_equal. lia.
Qed.

Definition pieces (u : text) : Prop :=
  ∃ us, us ≠ [] ∧ u = concat us ∧ Forall (λ w, w ≠ [] ∧ A w) us.

Lemma hop_spec a e : hop a e ↔ (a < e ≤ seg_end t)%nat ∧ A (slice t a e).
Proof. unfold hop. rewrite alt_ends_spec. split; [intros (?&?&?)|intros [? ?]]; split_and!; done || lia. Qed.

Lemma slice_nonempty a e : (a < e ≤ length t)%nat → slice t a e ≠ [].
Proof.
  intros He E%(f_equal length). unfold slice in E. rewrite length_take, length_drop in E. simpl in E. lia.
Qed.

Lemma hops_pieces a e : tc hop a e ↔ (a < e ≤ seg_end t)%nat ∧ pieces (slice t a e).
Proof.
  pose proof (seg_end_length t) as Hlen. split.
  - induction 1 as [a e Hh%hop_spec|a b e Hh%hop_spec _ [He (us&Hne&Eu&Hus)]].
    + destruct Hh as [He HA]. split; [done|]. exists [slice t a e]. split_and!; [done|simpl; by rewrite app_nil_r|].
      constructor; [|done]. split; [apply slice_nonempty; lia|done].
    + destruct Hh as [Hb HA]. split; [lia|]. exists (slice t a b :: us). split_and!; [done| |].
      * simpl. rewrite <- Eu. symmetry. apply slice_app; lia.
      * constructor; [|done]. split; [apply slice_nonempty; lia|done].
  - intros [He (us&Hne&Eu&Hus)]. revert a He Hne Eu. induction Hus as [|w us [Hw HA] Hus IH];
      intros a He Hne Eu; [done|]. clear Hne.
    assert (Hsl : length (slice t a e) = (e - a)%nat)
      by (unfold slice; rewrite length_take, length_drop; lia).
    rewrite Eu in Hsl. simpl in Hsl, Eu. rewrite length_app in Hsl.
    assert (Hwl : (0 < length w)%nat) by (destruct w; [done|simpl; lia]).
    assert (Hb : slice t a (a + length w) = w ∧ slice t (a + length w) e = concat us).
    { assert (E2 : slice t a (a + length w) ++ slice t (a + length w) e = w ++ concat us)
        by (rewrite <- Eu; apply slice_app; lia).
      apply app_inj_1 in E2; [done|]. unfold slice. rewrite length_take, length_drop. lia. }
    destruct Hb as [Hb1 Hb2]. destruct us as [|w' us].
    + apply tc_once, hop_spec. simpl in Hsl. replace e with (a + length w)%nat by lia. rewrite Hb1.
      split; [lia|done].
    + apply tc_l with (a + length w)%nat.
      * apply hop_spec. rewrite Hb1. split; [lia|done].
      * apply IH; [|done|done].
        apply Forall_cons in Hus as [[Hw' _] _]. destruct w'; [done|]. simpl in Hsl. lia.
Qed.
End search.


(** A group of alternatives, and what comes after it. *)
Lemma match_extglob_lang alt cont op alts t (A C : lang) :
  (∀ w, existsb (λ a, alt a w) alts = true ↔ A w) → (∀ w, cont w = true ↔ C w) →
  match_extglob alt cont op alts t = true ↔ then_lang (op_lang op A) C t.
Proof.
  intros HA HC. pose proof (seg_end_length t) as Hlen. unfold match_extglob, op_lang.
  assert (Hends : existsb (λ e, cont (drop e t)) (alt_ends alt alts t 0) = true
    ↔ then_lang (λ u, (SLASH ∉ u) ∧ A u) C t).
  { rewrite <- split_segment, existsb_exists. setoid_rewrite <- list_elem_of_In.
    setoid_rewrite (alt_ends_spec alt alts t A HA). setoid_rewrite HC.
    unfold slice. setoid_rewrite drop_0. setoid_rewrite Nat.sub_0_r.
    split; [intros (e&[He HAe]&HCe)|intros (e&He&HAe&HCe)]; exists e; split_and!; done || lia. }
  destruct (op =? AT); [done|]. destruct (op =? QUERY).
  { rewrite orb_true_iff, Hends, HC. unfold then_lang. split.
    - intros [Ht|(u&v&->&[Hs Hu]&Hv)]; [exists [], t; set_solver|exists u, v; naive_solver].
    - intros (u&v&->&[Hs [->|Hu]]&Hv); [by left|right; exists u, v; naive_solver]. }
  destruct (Z.eqb_spec op PLUS) as [->|Hp]; [|destruct (Z.eqb_spec op STAR) as [->|Hs]; [|]]; simpl orb; cbv iota.
  - rewrite <- split_segment, existsb_exists. setoid_rewrite <- list_elem_of_In.
    setoid_rewrite elem_of_elements.
    assert (Hb := bfs_spec alt alts t A HA (S (S (seg_end t))) [0%nat] {[0%nat]} ∅ ∅).
    change (PLUS =? STAR) with false. cbv iota.
    assert (Hb' : ∀ x, x ∈ bfs alt (S (S (seg_end t))) alts t ([0%nat], {[0%nat]}, ∅) ↔
      tc (hop alt alts t) 0%nat x).
    { intros x. rewrite Hb; [set_solver|..].
      - set_solver.
      - intros y ->%elem_of_singleton. split; [lia|constructor].
      - intros y z ->%elem_of_singleton _. left. set_solver.
      - set_solver.
      - set_solver.
      - set_solver.
      - rewrite size_singleton. simpl. lia. }
    setoid_rewrite Hb'. setoid_rewrite (hops_pieces alt alts t A HA). setoid_rewrite HC.
    unfold slice. setoid_rewrite drop_0. setoid_rewrite Nat.sub_0_r. split.
    + intros (e&[He Hu]&Hv). exists e. split_and!; [lia|done|done].
    + intros (e&He&Hu&Hv). exists e. split_and!; try done; try lia.
      destruct e; [|lia]. destruct Hu as (us&Hne&E&Hus). destruct Hus as [|w us [Hw _]]; [done|].
      simpl in E. symmetry in E. by apply app_eq_nil in E as [? _].
  - rewrite <- split_segment, existsb_exists. setoid_rewrite <- list_elem_of_In.
    setoid_rewrite elem_of_elements. change (STAR =? STAR) with true. cbv iota.
    assert (Hb := bfs_spec alt alts t A HA (S (S (seg_end t))) [0%nat] {[0%nat]} {[0%nat]} {[0%nat]}).
    assert (Hb' : ∀ x, x ∈ bfs alt (S (S (seg_end t))) alts t ([0%nat], {[0%nat]}, {[0%nat]}) ↔
      x = 0%nat ∨ tc (hop alt alts t) 0%nat x).
    { intros x. rewrite Hb; [set_solver|..].
      - set_solver.
      - intros y ->%elem_of_singleton. split; [lia|constructor].
      - intros y z ->%elem_of_singleton _. left. set_solver.
      - set_solver.
      - set_solver.
      - set_solver.
      - rewrite size_singleton. simpl. lia. }
    setoid_rewrite Hb'. setoid_rewrite (hops_pieces alt alts t A HA). setoid_rewrite HC.
    unfold slice. setoid_rewrite drop_0. setoid_rewrite Nat.sub_0_r. split.
    + intros (e&[->|[He (us&_&E&Hus)]]&Hv).
      * exists 0%nat. split_and!; [lia| |done]. exists []. by destruct t.
      * exists e. split_and!; [lia|eauto|done].
    + intros (e&He&(us&E&Hus)&Hv). exists e. split; [|done]. destruct e as [|e]; [by left|right].
      split; [lia|]. exists us. split_and!; [|done|done]. intros ->.
      destruct t; [simpl in He; lia|done].
  - destruct (op =? BANG).
    + rewrite <- split_segment, existsb_seq. setoid_rewrite andb_true_iff. setoid_rewrite negb_true_iff.
      setoid_rewrite <- not_true_iff_false. setoid_rewrite HA. setoid_rewrite HC.
      unfold slice. setoid_rewrite drop_0. setoid_rewrite Nat.sub_0_r.
      split; [intros (e&He&HAe&HCe)|intros (e&He&HAe&HCe)]; exists e; split_and!; done || lia.
    + split; [done|]. by intros (u&v&_&[_ []]&_).
Qed.

(** ** Everything gets shorter *)

Lemma scan_alts_shorter p depth alts cur alts' after :
  scan_alts p depth alts cur = Some (alts', after) →
  (length after < length p)%nat ∧
  ∀ a, a ∈ alts' → a ∈ alts ∨ (length a < length cur + length p)%nat.
Proof.
  remember (length p) as n eqn:Hn. assert (Hle : (length p ≤ n)%nat) by lia. clear Hn.
  assert (Hgen : ∀ p depth alts cur, (length p ≤ n)%nat → scan_alts p depth alts cur = Some (alts', after) →
    (length after < length p)%nat ∧ ∀ a, a ∈ alts' → a ∈ alts ∨ (length a < length cur + length p)%nat).
  2:{ intros Hs. destruct (Hgen _ _ _ _ Hle Hs) as [H1 H2]. split; [lia|].
      intros a Ha. destruct (H2 a Ha); [by left|right; lia]. }
  clear. induction n as [|n IH]; intros p depth alts cur Hle; destruct p as [|c p]; try done; simpl in Hle; [lia|].
  cbn [scan_alts].
  assert (Hstep : ∀ p' depth' cur', (length p' ≤ length p)%nat → (length cur' + length p' ≤ length cur + S (length p))%nat →
    scan_alts p' depth' alts cur' = Some (alts', after) →
    (length after < length (c :: p))%nat ∧
    ∀ a, a ∈ alts' → a ∈ alts ∨ (length a < length cur + length (c :: p))%nat).
  { intros p' depth' cur' Hp' Hc' Hs. destruct (IH p' depth' alts cur' ltac:(lia) Hs) as [H1 H2].
    simpl. split; [lia|]. intros a Ha. destruct (H2 a Ha); [by left|right; lia]. }
  destruct (c =? BACKSLASH).
  { destruct p as [|d p]; [done|]. apply Hstep; simpl; [lia|]. rewrite length_app. simpl. lia. }
  destruct (c =? LPAREN).
  { apply Hstep; [done|]. case_match; rewrite ?length_app; simpl; lia. }
  destruct (c =? RPAREN).
  { destruct (depth - 1 =? 0).
    - intros [= <- <-]. simpl. split; [lia|]. intros a [?|Ha%list_elem_of_singleton]%elem_of_app; [by left|].
      right. subst. lia.
    - apply Hstep; [done|]. rewrite length_app. simpl. lia. }
  destruct ((c =? PIPE) && (depth =? 1)).
  - intros Hs. destruct (IH p depth (alts ++ [cur]) [] ltac:(lia) Hs) as [H1 H2]. simpl.
    split; [lia|]. intros a Ha. destruct (H2 a Ha) as [[?|Hc%list_elem_of_singleton]%elem_of_app|?];
      [by left|right; subst; lia|right; simpl in *; lia].
  - apply Hstep; [done|]. rewrite length_app. simpl. lia.
Qed.

Lemma ext_group_shorter p alts after :
  ext_group p = Some (alts, after) →
  (length after < length p)%nat ∧ ∀ a, a ∈ alts → (length a < length p)%nat.
Proof.
  unfold ext_group. destruct p as [|c [|d p]]; try done. destruct (ext_op c && (d =? LPAREN)); [|done].
  intros Hs. unfold parse_extglob in Hs. simpl drop in Hs. apply scan_alts_shorter in Hs as [H1 H2].
  simpl in *. split; [lia|]. intros a Ha. destruct (H2 a Ha) as [?%not_elem_of_nil|?]; [done|lia].
Qed.

Lemma globstar_shorter before p s rest : globstar before p = Some (s, rest) → (length rest < length p)%nat.
Proof.
  unfold globstar. destruct p as [|c [|d p]]; try done. destruct (_ && before); [|done].
  destruct p as [|e p]; [by intros [= _ <-]; simpl; lia|]. destruct (e =? SLASH); [|done].
  intros [= _ <-]. simpl. lia.
Qed.

Lemma until_bracket_shorter p body rest : until_bracket p = Some (body, rest) → (length rest < length p)%nat.
Proof.
  revert body. induction p as [|c p IH]; intros body; simpl; [done|]. destruct (c =? RBRACK).
  - intros [= _ <-]. lia.
  - destruct (until_bracket p) as [[b r]|]; [|done]. intros [= _ <-]. specialize (IH b eq_refl). lia.
Qed.

Lemma parse_class_shorter p n body rest : parse_class p = Some (n, body, rest) → (length rest < length p)%nat.
Proof.
  unfold parse_class. assert (Hc : ∀ q b r, class_body q = Some (b, r) → (length r < length q)%nat).
  { intros q b r. destruct q as [|c q]; simpl; [done|]. destruct (c =? RBRACK).
    - destruct (until_bracket q) as [[b' r']|] eqn:Hu; [|done]. intros [= _ <-].
      apply until_bracket_shorter in Hu. lia.
    - destruct (until_bracket q) as [[b' r']|] eqn:Hu; [|done]. intros [= _ <-].
      apply until_bracket_shorter in Hu. lia. }
  destruct (class_body _) as [[b r]|] eqn:Hb; [|done]. intros [= _ _ <-]. apply Hc in Hb.
  case_match; [|done]. rewrite length_drop in Hb. lia.
Qed.

(** ** The matcher decides the language *)

Lemma then_lit c l t : then_lang (tok_lang (Lit c)) l t ↔ ∃ t', t = c :: t' ∧ l t'.
Proof.
  split; [intros (u&v&->&->&?); by exists v|]. intros (t'&->&?). by exists [c], t'.
Qed.

Lemma then_one (P : char → Prop) l t :
  then_lang (λ u, ∃ c, u = [c] ∧ P c) l t ↔ ∃ c t', t = c :: t' ∧ P c ∧ l t'.
Proof.
  split; [intros (u&v&->&(c&->&?)&?); by exists c, v|]. intros (c&t'&->&?&?). exists [c], t'. eauto.
Qed.

Lemma m_lang fuel before p t :
  (length p < fuel)%nat → m fuel before p t = true ↔ toks_lang (tokens fuel before p) t.
Proof.
  revert before p t. induction fuel as [|fuel IH]; intros before p t Hf; [lia|].
  destruct p as [|c p]; [by destruct t|]. cbn [m tokens].
  destruct (globstar before (c :: p)) as [[slash rest]|] eqn:Hg.
  { apply globstar_shorter in Hg. assert (Hr : ∀ u, m fuel slash rest u = true ↔ toks_lang (tokens fuel slash rest) u)
      by (intros u; apply IH; lia).
    rewrite !orb_true_iff, andb_true_iff, Hr, (slash_loop_lang _ _ Hr), (every_loop_lang _ _ Hr).
    cbn [toks_lang]. unfold then_lang. destruct slash; simpl; split.
    - intros [[?|(u&v&->&?)]|[? _]]; [exists [], t; naive_solver| |done].
      exists (u ++ [SLASH]), v. rewrite <- app_assoc. split_and!; [done| |done].
      right. by rewrite last_snoc.
    - intros (u&v&->&[->|Hl]&Hv); left; [by left|right]. apply last_Some in Hl as [u' ->].
      exists u', v. by rewrite <- app_assoc.
    - intros [[?|(u&v&->&?)]|[_ (u&v&->&?)]]; [by exists [], t| |by exists u, v].
      exists (u ++ [SLASH]), v. by rewrite <- app_assoc.
    - intros (u&v&->&_&Hv). right. split; [done|]. by exists u, v. }
  destruct (ext_group (c :: p)) as [[alts after]|] eqn:He.
  { apply ext_group_shorter in He as [Ha Halts].
    cbn [toks_lang]. rewrite (match_extglob_lang _ _ _ _ _ (alts_lang (tokens fuel true <$> alts))
      (toks_lang (tokens fuel false after))); [reflexivity| |].
    - intros w. rewrite existsb_exists, alts_lang_exists. setoid_rewrite <- list_elem_of_In. split.
      + intros (a&Hin&Hm). exists (tokens fuel true a). split; [by apply list_elem_of_fmap_2|].
        apply IH; [|done]. specialize (Halts a Hin). lia.
      + intros (ks&Hin&Hw). apply list_elem_of_fmap in Hin as (a&->&Hin). exists a. split; [done|].
        apply IH; [|done]. specialize (Halts a Hin). lia.
    - intros w. apply IH. lia. }
  simpl in Hf. destruct (c =? STAR).
  { cbn [toks_lang tok_lang]. apply star_loop_lang. intros w. apply IH. lia. }
  destruct (c =? QUERY).
  { cbn [toks_lang tok_lang]. rewrite then_one. destruct t as [|x t].
    - split; [done|]. by intros (?&?&?&_).
    - destruct (Z.eqb_spec x SLASH) as [->|Hx].
      + split; [done|]. intros (?&?&[= <- <-]&?&_). done.
      + rewrite IH by lia. split; [by exists x, t|]. by intros (?&?&[= <- <-]&_&?). }
  assert (Hlit : ∀ lit b q, (length q < fuel)%nat →
    match t with x :: t => if x =? lit then m fuel b q t else false | [] => false end = true ↔
    toks_lang (Lit lit :: tokens fuel b q) t).
  { intros lit b q Hq. cbn [toks_lang]. rewrite then_lit. destruct t as [|x t].
    - split; [done|]. by intros (?&?&_).
    - destruct (Z.eqb_spec x lit) as [->|Hx].
      + rewrite IH by lia. split; [by exists t|]. by intros (?&[= <-]&?).
      + split; [done|]. by intros (?&[= -> _]&_). }
  destruct (c =? LBRACK).
  { destruct (parse_class p) as [[[negate body] rest]|] eqn:Hc; [|apply Hlit; lia].
    apply parse_class_shorter in Hc. cbn [toks_lang tok_lang]. rewrite (then_one (λ c, c ≠ SLASH ∧ _)).
    unfold match_class. destruct t as [|x t].
    - split; [done|]. by intros (?&?&?&_).
    - destruct (Z.eqb_spec x SLASH) as [->|Hx].
      + split; [done|]. by intros (?&?&[= <- <-]&[? _]&_).
      + destruct (xorb negate (in_body body x)) eqn:Hb.
        * simpl drop. rewrite drop_0, IH by lia. split; [by exists x, t|]. by intros (?&?&[= <- <-]&_&?).
        * split; [done|]. intros (?&?&[= <- <-]&[_ ?]&_). congruence. }
  destruct (c =? BACKSLASH); [apply Hlit; rewrite length_drop; lia|apply Hlit; lia].
Qed.

(** Fuel beyond the pattern's length changes nothing. *)
Lemma tokens_fuel f1 f2 before p :
  (length p < f1)%nat → (length p < f2)%nat → tokens f1 before p = tokens f2 before p.
Proof.
  revert f2 before p. induction f1 as [|f1 IH]; intros f2 before p H1 H2; [lia|].
  destruct f2 as [|f2]; [lia|]. destruct p as [|c p]; [done|]. cbn [tokens].
  destruct (globstar before (c :: p)) as [[slash rest]|] eqn:Hg.
  { apply globstar_shorter in Hg. f_equal. apply IH; lia. }
  destruct (ext_group (c :: p)) as [[alts after]|] eqn:He.
  { apply ext_group_shorter in He as [Ha Halts]. f_equal; [|apply IH; lia]. f_equal.
    apply list_fmap_ext. intros i a Hi%list_elem_of_lookup_2. specialize (Halts a Hi). apply IH; lia. }
  simpl in H1, H2.
  assert (Hgo : ∀ b q, (length q ≤ length p)%nat → tokens f1 b q = tokens f2 b q)
    by (intros; apply IH; lia).
  destruct (c =? STAR); [f_equal; by apply Hgo|]. destruct (c =? QUERY); [f_equal; by apply Hgo|].
  destruct (c =? LBRACK).
  { destruct (parse_class p) as [[[n body] rest]|] eqn:Hc; f_equal; apply Hgo; [|done].
    apply parse_class_shorter in Hc. lia. }
  destruct (c =? BACKSLASH); f_equal; apply Hgo; [rewrite length_drop; lia|done].
Qed.

Lemma match_pattern_lang p t : match_pattern p t = true ↔ toks_lang (pattern_tokens p) t.
Proof. apply m_lang. lia. Qed.

Lemma tokens_pattern fuel p : (length p < fuel)%nat → tokens fuel true p = pattern_tokens p.
Proof. intros. apply tokens_fuel; lia. Qed.

(** ** Braces *)

Lemma scan_group_shorter chars db dp parts cur hc suffix parts' hc' :
  scan_group chars db dp parts cur hc = Some (suffix, parts', hc') →
  ∀ p, p ∈ parts' → p ∈ parts ∨ (length p + length suffix < length cur + length chars)%nat.
Proof.
  assert (Hgen : ∀ n chars db dp parts cur hc, (length chars ≤ n)%nat →
    scan_group chars db dp parts cur hc = Some (suffix, parts', hc') →
    (length suffix < length chars)%nat ∧
    ∀ p, p ∈ parts' → p ∈ parts ∨ (length p + length suffix < length cur + length chars)%nat).
  2:{ intros Hs. by destruct (Hgen (length chars) chars db dp parts cur hc (le_n _) Hs). }
  clear. intros n. induction n as [|n IH]; intros chars db dp parts cur hc Hle;
    destruct chars as [|c chars]; try done; simpl in Hle; [lia|]. cbn [scan_group].
  assert (Hstep : ∀ chars2 db2 dp2 cur2 hc2, (length chars2 ≤ length chars)%nat →
    (length cur2 + length chars2 ≤ length cur + S (length chars))%nat →
    scan_group chars2 db2 dp2 parts cur2 hc2 = Some (suffix, parts', hc') →
    (length suffix < length (c :: chars))%nat ∧
    ∀ p, p ∈ parts' → p ∈ parts ∨ (length p + length suffix < length cur + length (c :: chars))%nat).
  { intros chars2 db2 dp2 cur2 hc2 Hp' Hc' Hs. destruct (IH chars2 db2 dp2 parts cur2 hc2 ltac:(lia) Hs) as [H1 H2].
    simpl. split; [lia|]. intros p Hp. destruct (H2 p Hp); [by left|right; lia]. }
  destruct (c =? BACKSLASH).
  { destruct chars as [|d chars]; [done|]. apply Hstep; simpl; [lia|]. rewrite length_app. simpl. lia. }
  destruct (c =? LBRACE).
  { apply Hstep; [done|]. case_match; rewrite ?length_app; simpl; lia. }
  destruct (c =? RBRACE).
  { destruct (db - 1 =? 0).
    - intros [= <- <- _]. simpl. split; [lia|].
      intros p [?|Hp%list_elem_of_singleton]%elem_of_app; [by left|]. right. subst. lia.
    - apply Hstep; [done|]. rewrite length_app. simpl. lia. }
  destruct (c =? LPAREN); [apply Hstep; [done|]; rewrite length_app; simpl; lia|].
  destruct (c =? RPAREN); [apply Hstep; [done|]; rewrite length_app; simpl; lia|].
  destruct ((c =? COMMA) && (db =? 1) && (dp =? 0)).
  - intros Hs. destruct (IH chars db dp (parts ++ [cur]) [] true ltac:(lia) Hs) as [H1 H2]. simpl. split; [lia|].
    intros p Hp. destruct (H2 p Hp) as [[?|Hc%list_elem_of_singleton]%elem_of_app|?];
      [by left|right; subst; lia|right; simpl in *; lia].
  - apply Hstep; [done|]. rewrite length_app. simpl. lia.
Qed.

(** An alternative with what follows the group is shorter than the pattern. *)
Lemma find_group_shorter prefix chars prefix' parts suffix :
  find_group prefix chars = Some (prefix', parts, suffix) →
  ∀ p, p ∈ parts → (length p + length suffix < length chars)%nat.
Proof.
  assert (Hgen : ∀ n prefix chars, (length chars ≤ n)%nat →
    find_group prefix chars = Some (prefix', parts, suffix) →
    ∀ p, p ∈ parts → (length p + length suffix < length chars)%nat).
  2:{ intros. by eapply Hgen. }
  clear. intros n. induction n as [|n IH]; intros prefix chars Hle;
    destruct chars as [|c chars]; try done; simpl in Hle; [lia|]. cbn [find_group].
  destruct (c =? BACKSLASH).
  { destruct chars as [|d chars]; [done|]. intros Hs p Hp. simpl in Hle.
    specialize (IH (prefix ++ [c; d]) chars ltac:(lia) Hs p Hp). simpl. lia. }
  assert (Hrec : find_group (prefix ++ [c]) chars = Some (prefix', parts, suffix) →
    ∀ p, p ∈ parts → (length p + length suffix < length (c :: chars))%nat).
  { intros Hs p Hp. specialize (IH (prefix ++ [c]) chars ltac:(lia) Hs p Hp). simpl. lia. }
  destruct (c =? LBRACE); [|apply Hrec].
  destruct (scan_group (c :: chars) 0 0 [] [] false) as [[[s ps] [|]]|] eqn:Hs; [|apply Hrec..].
  intros [= <- <- <-] p Hp. by destruct (scan_group_shorter _ _ _ _ _ _ _ _ _ Hs p Hp) as [?%not_elem_of_nil|?].
Qed.

Lemma expand_fuel f1 f2 pat :
  (length pat ≤ f1)%nat → (length pat ≤ f2)%nat → expand_loop f1 pat = expand_loop f2 pat.
Proof.
  revert f2 pat. induction f1 as [|f1 IH]; intros f2 pat H1 H2.
  - destruct pat; [|simpl in H1; lia]. by destruct f2.
  - destruct f2 as [|f2]; [by destruct pat; [|simpl in H2; lia]|]. cbn [expand_loop].
    destruct (find_group [] pat) as [[[prefix parts] suffix]|] eqn:Hg; [|done].
    pose proof (find_group_shorter _ _ _ _ _ Hg) as Hlt. clear Hg.
    induction parts as [|p parts IHp]; [done|]. cbn. f_equal.
    + f_equal. apply IH; rewrite length_app; specialize (Hlt p ltac:(set_solver)); lia.
    + apply IHp. intros q Hq. apply Hlt. set_solver.
Qed.

(** The equation of the source. *)
Lemma expand_braces_unfold pat :
  expand_braces pat =
  match find_group [] pat with
  | Some (prefix, parts, suffix) => parts ≫= λ p, (λ tail, prefix ++ tail) <$> expand_braces (p ++ suffix)
  | None => [pat]
  end.
Proof.
  unfold expand_braces. destruct pat as [|c pat]; [done|]. cbn [length expand_loop].
  destruct (find_group [] (c :: pat)) as [[[prefix parts] suffix]|] eqn:Hg; [|done].
  pose proof (find_group_shorter _ _ _ _ _ Hg) as Hlt. clear Hg.
  induction parts as [|p parts IHp]; [done|]. cbn. f_equal.
  - f_equal. apply expand_fuel; [|lia]. rewrite length_app. specialize (Hlt p ltac:(set_solver)). simpl in Hlt. lia.
  - apply IHp. intros q Hq. apply Hlt. set_solver.
Qed.

(** Text that brace expansion copies. *)
Definition brace_plain (c : char) : Prop :=
  c ∉ [BACKSLASH; LBRACE; RBRACE; LPAREN; RPAREN; COMMA].

Lemma brace_plain_tests c :
  brace_plain c → (c =? BACKSLASH) = false ∧ (c =? LBRACE) = false ∧ (c =? RBRACE) = false ∧
    (c =? LPAREN) = false ∧ (c =? RPAREN) = false ∧ (c =? COMMA) = false.
Proof. unfold brace_plain. rewrite !not_elem_of_cons. intros H. split_and!; apply Z.eqb_neq; tauto. Qed.

Lemma find_group_prefix pre chars :
  find_group pre chars
  = match find_group [] chars with Some (pr, parts, suf) => Some (pre ++ pr, parts, suf) | None => None end.
Proof.
  assert (Hgen : ∀ n pre pre' chars, (length chars ≤ n)%nat → find_group (pre ++ pre') chars
    = match find_group pre' chars with Some (pr, parts, suf) => Some (pre ++ pr, parts, suf) | None => None end).
  2:{ rewrite <- (Hgen (length chars) pre [] chars) by done. by rewrite app_nil_r. }
  clear. intros n. induction n as [|n IH]; intros pre pre' chars Hl;
    destruct chars as [|c chars]; try done; simpl in Hl; [lia|]. cbn [find_group].
  destruct (c =? BACKSLASH).
  { destruct chars as [|d chars]; [done|]. rewrite <- app_assoc. simpl in Hl. apply IH. lia. }
  destruct (if c =? LBRACE then scan_group (c :: chars) 0 0 [] [] false else None) as [[[s ps] [|]]|];
    [done|rewrite <- app_assoc; apply IH; lia..].
Qed.

Lemma find_group_plain q chars :
  Forall brace_plain q →
  find_group [] (q ++ chars)
  = match find_group [] chars with Some (pr, parts, suf) => Some (q ++ pr, parts, suf) | None => None end.
Proof.
  intros Hq. induction Hq as [|c q Hc _ IH]; simpl; [by destruct (find_group [] chars) as [[[??]?]|]|].
  destruct (brace_plain_tests c Hc) as (->&->&_). rewrite find_group_prefix, IH.
  by destruct (find_group [] chars) as [[[??]?]|].
Qed.

Lemma expand_braces_plain q p :
  Forall brace_plain q → expand_braces (q ++ p) = (λ tail, q ++ tail) <$> expand_braces p.
Proof.
  intros Hq. rewrite (expand_braces_unfold (q ++ p)), (expand_braces_unfold p), find_group_plain by done.
  destruct (find_group [] p) as [[[prefix parts] suffix]|]; [|done].
  induction parts as [|x parts IH]; [done|]. cbn. rewrite fmap_app. f_equal; [|apply IH].
  rewrite <- list_fmap_compose. apply list_fmap_ext. intros. simpl. by rewrite <- app_assoc.
Qed.

Fixpoint join (sep : text) (parts : list text) : text :=
  match parts with [] => [] | [p] => p | p :: parts => p ++ sep ++ join sep parts end.

Lemma scan_group_part q chars parts cur hc :
  Forall brace_plain q →
  scan_group (q ++ chars) 1 0 parts cur hc = scan_group chars 1 0 parts (cur ++ q) hc.
Proof.
  intros Hq. revert cur. induction Hq as [|c q Hc _ IH]; intros cur; simpl; [by rewrite app_nil_r|].
  destruct (brace_plain_tests c Hc) as (->&->&->&->&->&->). simpl. by rewrite IH, <- app_assoc.
Qed.

Lemma scan_group_parts p ps chars parts hc :
  Forall (Forall brace_plain) (p :: ps) →
  scan_group (join [COMMA] (p :: ps) ++ [RBRACE] ++ chars) 1 0 parts [] hc
  = Some (chars, parts ++ p :: ps, hc || negb (match ps with [] => true | _ => false end)).
Proof.
  revert p parts hc. induction ps as [|p' ps IH]; intros p parts hc Hall.
  - apply Forall_cons in Hall as [Hp _]. cbn [join]. rewrite scan_group_part by done. simpl.
    by rewrite orb_false_r.
  - apply Forall_cons in Hall as [Hp Hall]. change (join [COMMA] (p :: p' :: ps))
      with (p ++ [COMMA] ++ join [COMMA] (p' :: ps)). rewrite <- !app_assoc, scan_group_part by done.
    cbn [app scan_group]. change (COMMA =? BACKSLASH) with false. change (COMMA =? LBRACE) with false.
    change (COMMA =? RBRACE) with false. change (COMMA =? LPAREN) with false.
    change (COMMA =? RPAREN) with false. change ((COMMA =? COMMA) && (1 =? 1) && (0 =? 0)) with true.
    cbv iota. rewrite IH by done. rewrite <- app_assoc. simpl. by rewrite orb_true_r.
Qed.

(** ** Written patterns

    The language of the header of [glob.rs], stated on its own: the syntax of a
    pattern, how it is written, and which strings it stands for.  Characters that
    the notation uses are written with a backslash where they stand for
    themselves. *)
Module Syntax.

Inductive Negation : Type := Plain | Bang | Caret.

Inductive Item : Type :=
| ILit (escaped : bool) (c : char)
| IAny
| IRun
| IClass (neg : Negation) (members : list (char * option char))
| IDeep (slash : bool)
| IExt (op : char) (alts : list (list Item)).

(** Braces around alternatives, nested as one likes *)
Inductive Piece : Type :=
| PItem (k : Item)
| PBrace (alts : list (list Piece)).

(** *** How it is written *)

Definition neg_text (n : Negation) : text := match n with Plain => [] | Bang => [BANG] | Caret => [CARET] end.
Definition member_text (x : char * option char) : text :=
  match x.2 with None => [x.1] | Some hi => [x.1; DASH; hi] end.
Definition body_text (ms : list (char * option char)) : text := ms ≫= member_text.

Fixpoint print (k : Item) : text :=
  match k with
  | ILit escaped c => if escaped then [BACKSLASH; c] else [c]
  | IAny => [QUERY]
  | IRun => [STAR]
  | IClass n ms => LBRACK :: neg_text n ++ body_text ms ++ [RBRACK]
  | IDeep slash => if slash then [STAR; STAR; SLASH] else [STAR; STAR]
  | IExt op alts => op :: LPAREN :: join [PIPE] ((λ a, concat (print <$> a)) <$> alts) ++ [RPAREN]
  end.
Definition print_seq (ks : list Item) : text := concat (print <$> ks).

Fixpoint print_piece (p : Piece) : text :=
  match p with
  | PItem k => print k
  | PBrace alts => LBRACE :: join [COMMA] ((λ a, concat (print_piece <$> a)) <$> alts) ++ [RBRACE]
  end.
Definition print_pieces (ps : list Piece) : text := concat (print_piece <$> ps).

(** *** What it stands for *)

(** [{a,b}]: every choice of alternatives, nested groups included *)
Fixpoint expand_piece (p : Piece) : list (list Item) :=
  match p with
  | PItem k => [[k]]
  | PBrace alts =>
      concat ((λ a, foldr (λ q (rest : list (list Item)), x ← expand_piece q; (λ y, x ++ y) <$> rest) [[]] a) <$> alts)
  end.
Definition expand (ps : list Piece) : list (list Item) :=
  foldr (λ q (rest : list (list Item)), x ← expand_piece q; (λ y, x ++ y) <$> rest) [[]] ps.

Definition member (x : char * option char) (c : char) : Prop :=
  match x.2 with None => c = x.1 | Some hi => x.1 ≤ c ≤ hi end.

(** Within a segment: one of the alternatives, at most one, one or more, any
    number, anything else *)
Definition group_lang (op : char) (alt : lang) : lang := λ u,
  (SLASH ∉ u) ∧
  (if op =? AT then alt u
   else if op =? QUERY then u = [] ∨ alt u
   else if op =? PLUS then ∃ us, us ≠ [] ∧ u = concat us ∧ Forall alt us
   else if op =? STAR then ∃ us, u = concat us ∧ Forall alt us
   else if op =? BANG then ¬ alt u
   else False).

Fixpoint item_lang (k : Item) : lang :=
  match k with
  | ILit _ c => λ u, u = [c]
  | IAny => λ u, ∃ c, u = [c] ∧ c ≠ SLASH
  | IRun => λ u, SLASH ∉ u
  | IClass n ms => λ u, ∃ c, u = [c] ∧ c ≠ SLASH ∧
      (if n is Plain then Exists (λ x, member x c) ms else ¬ Exists (λ x, member x c) ms)
  | IDeep true => λ u, ∃ segs, u = concat ((λ s, s ++ [SLASH]) <$> segs) ∧ Forall (λ s, SLASH ∉ s) segs
  | IDeep false => λ _, True
  | IExt op alts =>
      let seq := fix seq ks := match ks with [] => λ u, u = [] | k :: ks => then_lang (item_lang k) (seq ks) end in
      let any := fix any alts := match alts with [] => λ _, False | a :: alts => λ u, seq a u ∨ any alts u end in
      group_lang op (any alts)
  end.
Fixpoint seq_lang (ks : list Item) : lang :=
  match ks with [] => λ u, u = [] | k :: ks => then_lang (item_lang k) (seq_lang ks) end.
Fixpoint any_lang (alts : list (list Item)) : lang :=
  match alts with [] => λ _, False | a :: alts => λ u, seq_lang a u ∨ any_lang alts u end.

(** *** Patterns that are written so *)

(** Does it stand for the empty string? *)
Fixpoint nullable (k : Item) : bool :=
  match k with
  | ILit _ _ | IAny | IClass _ _ => false
  | IRun | IDeep _ => true
  | IExt op alts =>
      if (op =? QUERY) || (op =? STAR) then true
      else if op =? BANG then negb (existsb (forallb nullable) alts)
      else existsb (forallb nullable) alts
  end.

Definition plain_char (c : char) : bool :=
  bool_decide (c ∉ [BACKSLASH; STAR; QUERY; LBRACK; LBRACE; RBRACE; LPAREN; RPAREN; COMMA; PIPE]).
Definition class_char (c : char) : bool :=
  bool_decide (c ∉ [BACKSLASH; LBRACE; RBRACE; LPAREN; RPAREN; COMMA; PIPE; RBRACK; DASH; BANG; CARET]).
Definition member_ok (x : char * option char) : bool :=
  class_char x.1 && match x.2 with None => true | Some hi => class_char hi end.

(** A globstar is a whole segment: it is at the start of one and is followed by
    a slash or the end; two runs do not meet. *)
Section placed.
Context (item_ok : Item → bool).
Fixpoint placed (before : bool) (ks : list Item) : bool :=
  match ks with
  | [] => true
  | k :: ks =>
      item_ok k &&
      match k with
      | ILit _ c => placed (c =? SLASH) ks
      | IRun => negb (match ks with IRun :: _ => true | _ => false end) && placed false ks
      | IDeep true => before && placed true ks
      | IDeep false => before && match ks with [] => true | _ => false end
      | _ => placed false ks
      end
  end.
End placed.

(** What is used is written with a backslash or is none of the notation's
    characters; no alternative of [+(..)] stands for the empty string. *)
Fixpoint item_ok (k : Item) : bool :=
  match k with
  | ILit escaped c => escaped || plain_char c
  | IClass _ ms => negb (match ms with [] => true | _ => false end) && forallb member_ok ms
  | IExt op alts =>
      ext_op op && negb (match alts with [] => true | _ => false end) &&
      forallb (placed item_ok true) alts &&
      negb ((op =? PLUS) && existsb (forallb nullable) alts)
  | _ => true
  end.
Definition seq_ok : bool → list Item → bool := placed item_ok.

Fixpoint piece_ok (p : Piece) : bool :=
  match p with
  | PItem k => item_ok k
  | PBrace alts => (1 <? length alts)%nat && forallb (forallb piece_ok) alts
  end.

(** *** Items and pieces *)

Lemma item_ind' (P : Item → Prop) :
  (∀ e c, P (ILit e c)) → P IAny → P IRun → (∀ n ms, P (IClass n ms)) → (∀ s, P (IDeep s)) →
  (∀ op alts, Forall (Forall P) alts → P (IExt op alts)) → ∀ k, P k.
Proof.
  intros H1 H2 H3 H4 H5 H6. fix IH 1. intros [e c| | |n ms|s|op alts]; [apply H1|apply H2|apply H3|apply H4|apply H5|].
  apply H6. induction alts as [|a alts IHa]; constructor; [|exact IHa].
  induction a as [|k a IHk]; constructor; [apply IH|exact IHk].
Qed.

Lemma piece_ind' (P : Piece → Prop) :
  (∀ k, P (PItem k)) → (∀ alts, Forall (Forall P) alts → P (PBrace alts)) → ∀ p, P p.
Proof.
  intros H1 H2. fix IH 1. intros [k|alts]; [apply H1|].
  apply H2. induction alts as [|a alts IHa]; constructor; [|exact IHa].
  induction a as [|k a IHk]; constructor; [apply IH|exact IHk].
Qed.

Lemma print_ext op alts : print (IExt op alts) = op :: LPAREN :: join [PIPE] (print_seq <$> alts) ++ [RPAREN].
Proof. done. Qed.
Lemma print_brace alts : print_piece (PBrace alts) = LBRACE :: join [COMMA] (print_pieces <$> alts) ++ [RBRACE].
Proof. done. Qed.
Lemma print_seq_cons k ks : print_seq (k :: ks) = print k ++ print_seq ks.
Proof. done. Qed.
Lemma print_seq_app ks ks' : print_seq (ks ++ ks') = print_seq ks ++ print_seq ks'.
Proof. unfold print_seq. by rewrite fmap_app, concat_app. Qed.
Lemma print_pieces_app ps ps' : print_pieces (ps ++ ps') = print_pieces ps ++ print_pieces ps'.
Proof. unfold print_pieces. by rewrite fmap_app, concat_app. Qed.
Lemma ext_item_lang op alts u : item_lang (IExt op alts) u ↔ group_lang op (any_lang alts) u.
Proof. reflexivity. Qed.
Lemma any_lang_exists alts u : any_lang alts u ↔ ∃ a, a ∈ alts ∧ seq_lang a u.
Proof. induction alts as [|a alts IH]; simpl; [set_solver|]. rewrite IH. set_solver. Qed.

(** Characters that the scans for groups pass over *)
Definition quiet (c : char) : Prop := c ∉ [BACKSLASH; LBRACE; RBRACE; LPAREN; RPAREN; COMMA; PIPE].

Lemma quiet_plain c : plain_char c = true → quiet c.
Proof. unfold plain_char, quiet. rewrite bool_decide_eq_true, !not_elem_of_cons. tauto. Qed.
Lemma quiet_class c : class_char c = true → quiet c.
Proof. unfold class_char, quiet. rewrite bool_decide_eq_true, !not_elem_of_cons. tauto. Qed.
Lemma quiet_tests c : quiet c →
  (c =? BACKSLASH) = false ∧ (c =? LBRACE) = false ∧ (c =? RBRACE) = false ∧ (c =? LPAREN) = false ∧
  (c =? RPAREN) = false ∧ (c =? COMMA) = false ∧ (c =? PIPE) = false.
Proof. unfold quiet. rewrite !not_elem_of_cons. intros H. split_and!; apply Z.eqb_neq; tauto. Qed.

Lemma quiet_op op : ext_op op = true → quiet op.
Proof.
  unfold ext_op. rewrite !orb_true_iff, !Z.eqb_eq. intros H.
  repeat (destruct H as [H|H]); subst; by apply (bool_decide_unpack _); vm_compute.
Qed.

Lemma class_quiet n ms : forallb member_ok ms = true → Forall quiet (LBRACK :: neg_text n ++ body_text ms ++ [RBRACK]).
Proof.
  intros Hms. assert (quiet LBRACK ∧ quiet RBRACK ∧ quiet BANG ∧ quiet CARET ∧ quiet DASH) as (Q1&Q2&Q3&Q4&Q5)
    by (split_and!; by apply (bool_decide_unpack _); vm_compute).
  constructor; [done|]. apply Forall_app. split; [destruct n; by repeat constructor|]. apply Forall_app. split; [|by repeat constructor].
  unfold body_text. induction ms as [|[lo hi] ms IH]; [constructor|]. simpl in Hms. apply andb_true_iff in Hms as [Hm Hms].
  cbn [mbind list_bind]. apply Forall_app. split; [|by apply IH]. unfold member_ok in Hm. simpl in Hm.
  apply andb_true_iff in Hm as [H1 H2]. unfold member_text. simpl.
  destruct hi; repeat constructor; auto using quiet_class.
Qed.

(** A text that a scan copies: quiet characters, escapes, and balanced groups of
    copied texts *)
Inductive copied : text → Prop :=
| copied_nil : copied []
| copied_quiet c p : quiet c → copied p → copied (c :: p)
| copied_escape c p : copied p → copied (BACKSLASH :: c :: p)
| copied_group q p : copied_alts q → copied p → copied (LPAREN :: q ++ RPAREN :: p)
with copied_alts : text → Prop :=
| copied_one q : copied q → copied_alts q
| copied_more q r : copied q → copied_alts r → copied_alts (q ++ PIPE :: r).

Scheme copied_mind := Minimality for copied Sort Prop
with copied_alts_mind := Minimality for copied_alts Sort Prop.
Combined Scheme copied_both from copied_mind, copied_alts_mind.

Lemma copied_app p q : copied p → copied q → copied (p ++ q).
Proof.
  intros Hp Hq. induction Hp as [|c p Hc _ IH|c p _ IH|r p Hr _ IH]; simpl; [done|by constructor..|].
  rewrite <- app_assoc. simpl. by constructor.
Qed.
Lemma copied_quiets q : Forall quiet q → copied q.
Proof. induction 1; by constructor. Qed.
Lemma copied_concat l : Forall copied l → copied (concat l).
Proof. induction 1; simpl; [constructor|by apply copied_app]. Qed.
Lemma copied_join p l : Forall copied (p :: l) → copied_alts (join [PIPE] (p :: l)).
Proof.
  revert p. induction l as [|p' l IH]; intros p Hall; apply Forall_cons in Hall as [Hp Hl]; [by constructor|].
  change (join [PIPE] (p :: p' :: l)) with (p ++ PIPE :: join [PIPE] (p' :: l)). constructor; [done|]. by apply IH.
Qed.

Lemma placed_items f before ks : placed f before ks = true → Forall (λ k, f k = true) ks.
Proof.
  revert before. induction ks as [|k ks IH]; intros before; [done|]. simpl. rewrite andb_true_iff. intros [Hk Hks].
  constructor; [done|]. destruct k as [e c| | |n ms|[]|op alts]; try by eapply IH.
  - apply andb_true_iff in Hks as [_ ?]. by eapply IH.
  - apply andb_true_iff in Hks as [_ ?]. by eapply IH.
  - apply andb_true_iff in Hks as [_ ?]. by destruct ks.
Qed.

Lemma item_copied k : item_ok k = true → copied (print k).
Proof.
  induction k as [e c| | |n ms|s|op alts IH] using item_ind'; intros Hk.
  - destruct e; [by repeat constructor|]. apply copied_quiets. constructor; [|constructor]. by apply quiet_plain.
  - by apply copied_quiets, (bool_decide_unpack _); vm_compute.
  - by apply copied_quiets, (bool_decide_unpack _); vm_compute.
  - apply copied_quiets, class_quiet. simpl in Hk. by apply andb_true_iff in Hk as [_ ?].
  - destruct s; by apply copied_quiets, (bool_decide_unpack _); vm_compute.
  - rewrite print_ext. simpl in Hk. rewrite !andb_true_iff in Hk. destruct Hk as [[[Hop Hne] Hall] _].
    constructor; [by apply quiet_op|]. rewrite forallb_forall in Hall.
    assert (Forall copied (print_seq <$> alts)) as Hc.
    { apply Forall_forall. intros q (a & -> & Ha)%list_elem_of_fmap. apply copied_concat, Forall_forall.
      intros p (k & -> & Hin)%list_elem_of_fmap. rewrite Forall_forall in IH. specialize (IH a Ha). rewrite Forall_forall in IH.
      apply (IH k Hin). pose proof (placed_items _ _ _ (Hall a (proj1 (list_elem_of_In _ _) Ha))) as Hok.
      rewrite Forall_forall in Hok. by apply Hok. }
    destruct alts as [|a alts]; [done|]. apply (copied_group _ []); [|constructor]. by apply copied_join.
Qed.
Lemma items_copied ks : Forall (λ k, item_ok k = true) ks → copied (print_seq ks).
Proof.
  intros Hks. apply copied_concat, Forall_forall. intros p (k & -> & Hin)%list_elem_of_fmap.
  rewrite Forall_forall in Hks. by apply item_copied, Hks.
Qed.

(** *** The scans *)

Lemma scan_alts_copied :
  (∀ q, copied q → ∀ p depth alts cur, 1 ≤ depth → scan_alts (q ++ p) depth alts cur = scan_alts p depth alts (cur ++ q)) ∧
  (∀ q, copied_alts q → ∀ p depth alts cur, 2 ≤ depth → scan_alts (q ++ p) depth alts cur = scan_alts p depth alts (cur ++ q)).
Proof.
  apply copied_both.
  - intros p depth alts cur _. by rewrite app_nil_r.
  - intros c q Hc _ IH p depth alts cur Hd. cbn [app scan_alts]. destruct (quiet_tests c Hc) as (->&_&_&->&->&_&->). cbn [andb].
    rewrite IH by done. by rewrite <- app_assoc.
  - intros c q _ IH p depth alts cur Hd. cbn [app scan_alts]. change (BACKSLASH =? BACKSLASH) with true. cbv iota.
    rewrite IH by done. by rewrite <- app_assoc.
  - intros q q' _ IH _ IH' p depth alts cur Hd. cbn [app scan_alts]. change (LPAREN =? BACKSLASH) with false.
    change (LPAREN =? LPAREN) with true. cbv iota. rewrite (proj2 (Z.ltb_lt _ _)) by lia.
    rewrite <- app_assoc, IH by lia. cbn [app scan_alts]. change (RPAREN =? BACKSLASH) with false.
    change (RPAREN =? LPAREN) with false. change (RPAREN =? RPAREN) with true. cbv iota.
    rewrite (proj2 (Z.eqb_neq _ _)) by lia. replace (depth + 1 - 1) with depth by lia. rewrite IH' by done.
    f_equal. by rewrite <- !app_assoc.
  - intros q _ IH p depth alts cur Hd. apply IH. lia.
  - intros q r _ IH _ IH' p depth alts cur Hd. rewrite <- app_assoc. rewrite IH by lia. cbn [app scan_alts].
    change (PIPE =? BACKSLASH) with false. change (PIPE =? LPAREN) with false. change (PIPE =? RPAREN) with false.
    rewrite (proj2 (Z.eqb_neq depth 1)) by lia. rewrite andb_false_r. rewrite IH' by done. f_equal. by rewrite <- !app_assoc.
Qed.

Lemma scan_alts_join q qs acc p :
  Forall copied (q :: qs) →
  scan_alts (join [PIPE] (q :: qs) ++ RPAREN :: p) 1 acc [] = Some (acc ++ q :: qs, p).
Proof.
  revert q acc. induction qs as [|q' qs IH]; intros q acc Hall; apply Forall_cons in Hall as [Hq Hqs].
  - cbn [join]. rewrite (proj1 scan_alts_copied) by (done || lia). done.
  - change (join [PIPE] (q :: q' :: qs)) with (q ++ PIPE :: join [PIPE] (q' :: qs)). rewrite <- app_assoc.
    rewrite (proj1 scan_alts_copied) by (done || lia). cbn [app scan_alts].
    change (PIPE =? BACKSLASH) with false. change (PIPE =? LPAREN) with false. change (PIPE =? RPAREN) with false.
    change ((PIPE =? PIPE) && (1 =? 1)) with true. cbv iota. rewrite IH by done. by rewrite <- app_assoc.
Qed.

Lemma scan_group_copied :
  (∀ q, copied q → ∀ p db dp parts cur hc, 1 ≤ db → 0 ≤ dp →
    scan_group (q ++ p) db dp parts cur hc = scan_group p db dp parts (cur ++ q) hc) ∧
  (∀ q, copied_alts q → ∀ p db dp parts cur hc, 1 ≤ db → 0 ≤ dp →
    scan_group (q ++ p) db dp parts cur hc = scan_group p db dp parts (cur ++ q) hc).
Proof.
  apply copied_both.
  - intros. by rewrite app_nil_r.
  - intros c q Hc _ IH p db dp parts cur hc Hd Hp. cbn [app scan_group]. destruct (quiet_tests c Hc) as (->&->&->&->&->&->&_).
    cbn [andb]. rewrite IH by done. by rewrite <- app_assoc.
  - intros c q _ IH p db dp parts cur hc Hd Hp. cbn [app scan_group]. change (BACKSLASH =? BACKSLASH) with true. cbv iota.
    rewrite IH by done. by rewrite <- app_assoc.
  - intros q q' _ IH _ IH' p db dp parts cur hc Hd Hp. cbn [app scan_group]. change (LPAREN =? BACKSLASH) with false.
    change (LPAREN =? LBRACE) with false. change (LPAREN =? RBRACE) with false.
    change (LPAREN =? LPAREN) with true. cbv iota. rewrite <- app_assoc, IH by lia. cbn [app scan_group].
    change (RPAREN =? BACKSLASH) with false. change (RPAREN =? LBRACE) with false. change (RPAREN =? RBRACE) with false.
    change (RPAREN =? LPAREN) with false. change (RPAREN =? RPAREN) with true. cbv iota.
    rewrite (proj2 (Z.ltb_lt _ _)) by lia. replace (dp + 1 - 1) with dp by lia. rewrite IH' by done.
    f_equal. by rewrite <- !app_assoc.
  - intros q _ IH p db dp parts cur hc Hd Hp. by apply IH.
  - intros q r _ IH _ IH' p db dp parts cur hc Hd Hp. rewrite <- app_assoc. rewrite IH by lia. cbn [app scan_group].
    change (PIPE =? BACKSLASH) with false. change (PIPE =? LBRACE) with false. change (PIPE =? RBRACE) with false.
    change (PIPE =? LPAREN) with false. change (PIPE =? RPAREN) with false. change (PIPE =? COMMA) with false. cbn [andb].
    rewrite IH' by done. f_equal. by rewrite <- !app_assoc.
Qed.

Lemma find_group_copied :
  (∀ q, copied q → ∀ pre p, find_group pre (q ++ p) = find_group (pre ++ q) p) ∧
  (∀ q, copied_alts q → ∀ pre p, find_group pre (q ++ p) = find_group (pre ++ q) p).
Proof.
  apply copied_both.
  - intros. by rewrite app_nil_r.
  - intros c q Hc _ IH pre p. cbn [app find_group]. destruct (quiet_tests c Hc) as (->&->&_). rewrite IH. by rewrite <- app_assoc.
  - intros c q _ IH pre p. cbn [app find_group]. change (BACKSLASH =? BACKSLASH) with true. cbv iota. rewrite IH. by rewrite <- app_assoc.
  - intros q q' _ IH _ IH' pre p. cbn [app find_group]. change (LPAREN =? BACKSLASH) with false. change (LPAREN =? LBRACE) with false.
    cbv iota. rewrite <- app_assoc, IH. cbn [app find_group]. change (RPAREN =? BACKSLASH) with false.
    change (RPAREN =? LBRACE) with false. cbv iota. rewrite IH'. f_equal. by rewrite <- !app_assoc.
  - auto.
  - intros q r _ IH _ IH' pre p. rewrite <- app_assoc, IH. cbn [app find_group]. change (PIPE =? BACKSLASH) with false.
    change (PIPE =? LBRACE) with false. cbv iota. rewrite IH'. f_equal. by rewrite <- !app_assoc.
Qed.

(** *** Braces *)

Lemma expand_cons p ps : expand (p :: ps) = x ← expand_piece p; (λ y, x ++ y) <$> expand ps.
Proof. done. Qed.
Lemma expand_piece_brace alts : expand_piece (PBrace alts) = alts ≫= expand.
Proof. simpl. induction alts as [|a alts IH]; [done|]. cbn. f_equal. exact IH. Qed.

Lemma bind_fmap {A B C} (f : A → list B) (g : B → C) l : g <$> (l ≫= f) = l ≫= λ x, g <$> f x.
Proof. induction l as [|x l IH]; [done|]. cbn. rewrite fmap_app. f_equal. exact IH. Qed.
Lemma bind_bind {A B C} (f : A → list B) (g : B → list C) l : (l ≫= f) ≫= g = l ≫= λ x, f x ≫= g.
Proof. induction l as [|x l IH]; [done|]. cbn. rewrite bind_app. f_equal. exact IH. Qed.
Lemma fmap_bind {A B C} (f : A → B) (g : B → list C) l : (f <$> l) ≫= g = l ≫= λ x, g (f x).
Proof. induction l as [|x l IH]; [done|]. cbn. f_equal. exact IH. Qed.
Lemma bind_same {A B} (f g : A → list B) l : (∀ x, x ∈ l → f x = g x) → l ≫= f = l ≫= g.
Proof.
  induction l as [|x l IH]; intros H; [done|]. cbn. f_equal; [apply H; by left|]. apply IH. intros y Hy. apply H. by right.
Qed.

Lemma expand_app ps qs : expand (ps ++ qs) = x ← expand ps; (λ y, x ++ y) <$> expand qs.
Proof.
  induction ps as [|p ps IH]; [cbn; rewrite app_nil_r; by rewrite list_fmap_id|]. cbn [app].
  rewrite !expand_cons, IH, bind_bind. apply bind_same. intros x _. rewrite bind_fmap, fmap_bind. apply bind_same. intros y _.
  rewrite <- list_fmap_compose. apply list_fmap_ext. intros. simpl. by rewrite app_assoc.
Qed.

Lemma expand_items ks : expand (PItem <$> ks) = [ks].
Proof. induction ks as [|k ks IH]; [done|]. cbn [fmap list_fmap]. rewrite expand_cons. cbn. by rewrite IH. Qed.
Lemma print_items ks : print_pieces (PItem <$> ks) = print_seq ks.
Proof. unfold print_pieces, print_seq. by rewrite <- list_fmap_compose. Qed.

(** A piece is copied by a scan that is inside a group. *)
Lemma scan_group_pieces_in ps :
  Forall (λ q, ∀ chars db dp parts cur hc, 1 ≤ db → 0 ≤ dp →
    scan_group (print_piece q ++ chars) db dp parts cur hc = scan_group chars db dp parts (cur ++ print_piece q) hc) ps →
  ∀ chars db dp parts cur hc, 1 ≤ db → 0 ≤ dp →
  scan_group (print_pieces ps ++ chars) db dp parts cur hc = scan_group chars db dp parts (cur ++ print_pieces ps) hc.
Proof.
  induction 1 as [|q ps Hq _ IH]; intros chars db dp parts cur hc Hd Hp; [by rewrite app_nil_r|].
  change (print_pieces (q :: ps)) with (print_piece q ++ print_pieces ps). rewrite <- app_assoc, Hq, IH by done.
  by rewrite <- app_assoc.
Qed.

Lemma scan_group_piece p :
  piece_ok p = true → ∀ chars db dp parts cur hc, 1 ≤ db → 0 ≤ dp →
  scan_group (print_piece p ++ chars) db dp parts cur hc = scan_group chars db dp parts (cur ++ print_piece p) hc.
Proof.
  induction p as [k|alts IH] using piece_ind'; intros Hok chars db dp parts cur hc Hd Hp.
  - apply (proj1 scan_group_copied); [by apply item_copied|done..].
  - simpl in Hok. apply andb_true_iff in Hok as [Hlen Hok]. rewrite forallb_forall in Hok.
    assert (∀ a, a ∈ alts → ∀ chars db dp parts cur hc, 1 ≤ db → 0 ≤ dp →
      scan_group (print_pieces a ++ chars) db dp parts cur hc = scan_group chars db dp parts (cur ++ print_pieces a) hc) as Ha.
    { intros a Ha. apply scan_group_pieces_in. rewrite Forall_forall in IH. specialize (IH a Ha). rewrite Forall_forall in IH.
      specialize (Hok a (proj1 (list_elem_of_In _ _) Ha)). rewrite forallb_forall in Hok.
      apply Forall_forall. intros q Hq. apply (IH q Hq), Hok. by apply list_elem_of_In. }
    rewrite print_brace. cbn [app scan_group]. change (LBRACE =? BACKSLASH) with false. change (LBRACE =? LBRACE) with true.
    cbv iota. rewrite (proj2 (Z.ltb_lt _ _)) by lia. rewrite <- app_assoc.
    assert (∀ l cur, (∀ a, a ∈ l → a ∈ alts) → l ≠ [] →
      scan_group (join [COMMA] (print_pieces <$> l) ++ [RBRACE] ++ chars) (db + 1) dp parts cur hc
      = scan_group chars db dp parts (cur ++ join [COMMA] (print_pieces <$> l) ++ [RBRACE]) hc) as Hjoin.
    { clear cur Hlen. induction l as [|a [|a' l] IHl]; intros cur Hl Hne; [done| |].
      - cbn [fmap list_fmap join]. rewrite (Ha a) by (lia || (apply Hl; by left)). cbn [app scan_group].
        change (RBRACE =? BACKSLASH) with false. change (RBRACE =? LBRACE) with false. change (RBRACE =? RBRACE) with true. cbv iota.
        rewrite (proj2 (Z.eqb_neq _ _)) by lia. replace (db + 1 - 1) with db by lia. by rewrite <- app_assoc.
      - change (join [COMMA] (print_pieces <$> a :: a' :: l)) with (print_pieces a ++ COMMA :: join [COMMA] (print_pieces <$> a' :: l)).
        rewrite <- !app_assoc, (Ha a) by (lia || (apply Hl; by left)). cbn [app scan_group].
        change (COMMA =? BACKSLASH) with false. change (COMMA =? LBRACE) with false. change (COMMA =? RBRACE) with false.
        change (COMMA =? LPAREN) with false. change (COMMA =? RPAREN) with false.
        rewrite (proj2 (Z.eqb_neq (db + 1) 1)) by lia. rewrite andb_false_r. cbn [andb].
        rewrite IHl; [|intros x Hx; apply Hl; by right|done]. f_equal. by rewrite <- !app_assoc. }
    rewrite Hjoin; [|done|by intros ->]. f_equal. by rewrite <- app_assoc.
Qed.

Lemma scan_group_all a alts chars parts hc :
  forallb (forallb piece_ok) (a :: alts) = true →
  scan_group (join [COMMA] (print_pieces <$> a :: alts) ++ RBRACE :: chars) 1 0 parts [] hc
  = Some (chars, parts ++ (print_pieces <$> a :: alts), hc || negb (match alts with [] => true | _ => false end)).
Proof.
  revert a parts hc. induction alts as [|a' alts IH]; intros a parts hc Hok; simpl in Hok; apply andb_true_iff in Hok as [Ha Hok].
  all: assert (∀ chars db dp parts cur hc, 1 ≤ db → 0 ≤ dp →
      scan_group (print_pieces a ++ chars) db dp parts cur hc = scan_group chars db dp parts (cur ++ print_pieces a) hc) as Hcopy
    by (apply scan_group_pieces_in, Forall_forall; intros q Hq; apply scan_group_piece; rewrite forallb_forall in Ha; by apply Ha, list_elem_of_In).
  - cbn [fmap list_fmap join]. rewrite Hcopy by lia. simpl. by rewrite orb_false_r.
  - change (join [COMMA] (print_pieces <$> a :: a' :: alts)) with (print_pieces a ++ COMMA :: join [COMMA] (print_pieces <$> a' :: alts)).
    rewrite <- app_assoc, Hcopy by lia. cbn [app scan_group].
    change (COMMA =? BACKSLASH) with false. change (COMMA =? LBRACE) with false. change (COMMA =? RBRACE) with false.
    change (COMMA =? LPAREN) with false. change (COMMA =? RPAREN) with false. change ((COMMA =? COMMA) && (1 =? 1) && (0 =? 0)) with true.
    cbv iota. rewrite IH by done. rewrite <- app_assoc. simpl. by rewrite orb_true_r.
Qed.

Lemma find_group_brace ks alts rest :
  Forall (λ k, item_ok k = true) ks → piece_ok (PBrace alts) = true →
  find_group [] (print_pieces ((PItem <$> ks) ++ PBrace alts :: rest))
  = Some (print_seq ks, print_pieces <$> alts, print_pieces rest).
Proof.
  intros Hks Hok. rewrite print_pieces_app, print_items, (proj1 find_group_copied) by by apply items_copied.
  simpl in Hok. apply andb_true_iff in Hok as [Hlen Hok].
  destruct alts as [|a [|a' alts]]; [done|done|].
  change (print_pieces (PBrace (a :: a' :: alts) :: rest))
    with (LBRACE :: (join [COMMA] (print_pieces <$> a :: a' :: alts) ++ [RBRACE]) ++ print_pieces rest).
  rewrite <- app_assoc. cbn [find_group]. change (LBRACE =? BACKSLASH) with false. change (LBRACE =? LBRACE) with true. cbv iota.
  cbn [scan_group]. change (LBRACE =? BACKSLASH) with false. change (LBRACE =? LBRACE) with true.
  change (1 <? 0 + 1) with false. cbv iota. change (0 + 1) with 1.
  pose proof (scan_group_all a (a' :: alts) (print_pieces rest) [] false Hok) as Hs. cbn [app] in Hs |- *. by rewrite Hs.
Qed.

Lemma find_group_items ks : Forall (λ k, item_ok k = true) ks → find_group [] (print_seq ks) = None.
Proof.
  intros Hks. rewrite <- (app_nil_r (print_seq ks)), (proj1 find_group_copied) by by apply items_copied. done.
Qed.

Lemma first_brace ps :
  (∃ ks, ps = PItem <$> ks) ∨ ∃ ks alts rest, ps = (PItem <$> ks) ++ PBrace alts :: rest.
Proof.
  induction ps as [|[k|alts] ps [(ks & ->)|(ks & alts' & rest & ->)]].
  - left. by exists [].
  - left. by exists (k :: ks).
  - right. by exists (k :: ks), alts', rest.
  - right. by exists [], alts, (PItem <$> ks).
  - right. by exists [], alts, ((PItem <$> ks) ++ PBrace alts' :: rest).
Qed.

(** Brace expansion of a written pattern: every choice, written *)
Lemma expand_braces_pieces ps : forallb piece_ok ps = true → expand_braces (print_pieces ps) = print_seq <$> expand ps.
Proof.
  remember (length (print_pieces ps)) as n eqn:En. revert ps En.
  induction n as [n IH] using (well_founded_induction Nat.lt_wf_0). intros ps -> Hok.
  rewrite expand_braces_unfold. destruct (first_brace ps) as [(ks & ->)|(ks & alts & rest & ->)].
  - assert (Forall (λ k, item_ok k = true) ks) as Hks.
    { rewrite forallb_forall in Hok. apply Forall_forall. intros k Hk. apply (Hok (PItem k)), list_elem_of_In, list_elem_of_fmap_2, Hk. }
    rewrite print_items, find_group_items, expand_items by done. done.
  - rewrite forallb_app in Hok. apply andb_true_iff in Hok as [Hks Hok]. simpl in Hok. apply andb_true_iff in Hok as [Hb Hrest].
    change (piece_ok (PBrace alts) = true) in Hb.
    assert (Forall (λ k, item_ok k = true) ks) as Hks'.
    { rewrite forallb_forall in Hks. apply Forall_forall. intros k Hk. apply (Hks (PItem k)), list_elem_of_In, list_elem_of_fmap_2, Hk. }
    pose proof (find_group_brace ks alts rest Hks' Hb) as Hf. rewrite Hf.
    pose proof (find_group_shorter _ _ _ _ _ Hf) as Hlt.
    rewrite expand_app, expand_items, expand_cons, expand_piece_brace, bind_bind. cbn [mbind list_bind]. rewrite app_nil_r.
    rewrite fmap_bind, !bind_fmap. apply bind_same. intros a Ha. cbn [compose].
    rewrite <- print_pieces_app. simpl in Hb. apply andb_true_iff in Hb as [_ Hb]. rewrite forallb_forall in Hb.
    rewrite (IH (length (print_pieces (a ++ rest)))); [|rewrite print_pieces_app, length_app; apply Hlt, list_elem_of_fmap_2, Ha|done|].
    2:{ rewrite forallb_app, Hrest. rewrite (Hb a) by by apply list_elem_of_In. done. }
    rewrite <- !list_fmap_compose, expand_app. apply list_fmap_ext. intros. simpl. by rewrite print_seq_app.
Qed.

(** *** Tokens *)

Fixpoint tok_of (k : Item) : Tok :=
  match k with
  | ILit _ c => Lit c
  | IAny => Any
  | IRun => Run
  | IClass n ms => Class (match n with Plain => false | _ => true end) (body_text ms)
  | IDeep slash => Deep slash
  | IExt op alts => Ext op (fmap (M := list) (fmap (M := list) tok_of) alts)
  end.

(** No item is written with an opening parenthesis first. *)
Lemma no_paren ks : Forall (λ k, item_ok k = true) ks → head (print_seq ks) ≠ Some LPAREN.
Proof.
  intros Hks. destruct Hks as [|k ks Hk _]; [done|]. rewrite print_seq_cons.
  destruct k as [[] c| | |n ms|[]|op alts]; try done.
  - simpl. intros [= ->]. vm_compute in Hk. done.
  - rewrite print_ext. simpl. intros [= ->]. simpl in Hk. vm_compute in Hk. done.
Qed.

Lemma no_group c ks : Forall (λ k, item_ok k = true) ks → ext_group (c :: print_seq ks) = None.
Proof.
  intros Hks. pose proof (no_paren ks Hks) as Hp. unfold ext_group. destruct (print_seq ks) as [|d p]; [done|].
  rewrite (proj2 (Z.eqb_neq d LPAREN)); [by rewrite andb_false_r|]. intros ->. done.
Qed.

Lemma body_no_bracket ms : forallb member_ok ms = true → RBRACK ∉ body_text ms.
Proof.
  assert (∀ c, class_char c = true → RBRACK ≠ c) as Hc
    by (unfold class_char; intros c; rewrite bool_decide_eq_true, !not_elem_of_cons; intros H ?; by intuition).
  induction ms as [|[lo hi] ms IH]; [set_solver|]. simpl. unfold member_ok at 1. simpl. rewrite !andb_true_iff. intros [[H1 H2] Hms].
  change (body_text ((lo, hi) :: ms)) with (member_text (lo, hi) ++ body_text ms).
  rewrite not_elem_of_app. split; [|by apply IH]. unfold member_text. simpl.
  destruct hi as [hi|]; rewrite !not_elem_of_cons; split_and!; auto using not_elem_of_nil; done.
Qed.

Lemma until_bracket_body body rest : RBRACK ∉ body → until_bracket (body ++ RBRACK :: rest) = Some (body, rest).
Proof.
  induction body as [|c body IH]; intros Hb; [done|]. apply not_elem_of_cons in Hb as [Hc Hb]. simpl.
  rewrite (proj2 (Z.eqb_neq c RBRACK)) by done. by rewrite IH.
Qed.

Lemma parse_class_print n ms rest :
  item_ok (IClass n ms) = true →
  parse_class (neg_text n ++ body_text ms ++ RBRACK :: rest) = Some (match n with Plain => false | _ => true end, body_text ms, rest).
Proof.
  simpl. rewrite andb_true_iff. intros [Hne Hms]. pose proof (body_no_bracket ms Hms) as Hb.
  destruct ms as [|[lo hi] ms]; [done|]. simpl in Hms. unfold member_ok in Hms. simpl in Hms. rewrite !andb_true_iff in Hms.
  destruct Hms as [[Hlo _] _]. unfold class_char in Hlo. rewrite bool_decide_eq_true, !not_elem_of_cons in Hlo.
  assert (∃ t, body_text ((lo, hi) :: ms) = lo :: t) as [t Et] by (cbn; destruct hi; simpl; by eexists).
  assert (class_body (body_text ((lo, hi) :: ms) ++ RBRACK :: rest) = Some (body_text ((lo, hi) :: ms), rest)) as Hbody.
  { pose proof (until_bracket_body _ rest Hb) as Hu. rewrite Et in Hu |- *. simpl in Hu |- *.
    rewrite (proj2 (Z.eqb_neq lo RBRACK)) in Hu |- * by tauto. exact Hu. }
  unfold parse_class. destruct n; cbn [neg_text app].
  - assert (match body_text ((lo, hi) :: ms) ++ RBRACK :: rest with c :: _ => (c =? BANG) || (c =? CARET) | [] => false end = false) as ->
      by (rewrite Et; cbn [app]; by rewrite (proj2 (Z.eqb_neq lo BANG)), (proj2 (Z.eqb_neq lo CARET)) by tauto).
    by rewrite Hbody.
  - change ((BANG =? BANG) || (BANG =? CARET)) with true. cbv iota. by rewrite skipn_cons, drop_0, Hbody.
  - change ((CARET =? BANG) || (CARET =? CARET)) with true. cbv iota. by rewrite skipn_cons, drop_0, Hbody.
Qed.

Lemma plain_char_tests c : plain_char c = true →
  (c =? STAR) = false ∧ (c =? QUERY) = false ∧ (c =? LBRACK) = false ∧ (c =? BACKSLASH) = false.
Proof. unfold plain_char. rewrite bool_decide_eq_true, !not_elem_of_cons. intros H. split_and!; apply Z.eqb_neq; tauto. Qed.

(** A run that no other run follows is not a globstar. *)
Lemma run_not_deep before ks :
  placed item_ok false ks = true → match ks with IRun :: _ => true | _ => false end = false →
  globstar before (STAR :: print_seq ks) = None.
Proof.
  intros Hks Hr. destruct ks as [|k ks]; [done|]. rewrite print_seq_cons. simpl in Hks. apply andb_true_iff in Hks as [Hk Hks].
  assert (∀ d p, (d =? STAR) = false → globstar before (STAR :: d :: p) = None) as Hd
    by (intros d p Hd; unfold globstar; by rewrite Hd, andb_false_r).
  destruct k as [[] c| | |n ms|[]|op alts]; try done.
  - cbn [print app]. apply Hd. simpl in Hk. by destruct (plain_char_tests c Hk).
  - rewrite print_ext. cbn [app]. unfold globstar. destruct ((STAR =? STAR) && (op =? STAR) && before); [|done].
    by change (LPAREN =? SLASH) with false.
Qed.

Lemma ext_group_print op alts ks :
  item_ok (IExt op alts) = true → ext_group (print_seq (IExt op alts :: ks)) = Some (print_seq <$> alts, print_seq ks).
Proof.
  intros Hok. pose proof Hok as Hok'. simpl in Hok. rewrite !andb_true_iff in Hok. destruct Hok as [[[Hop Hne] Hall] _].
  rewrite print_seq_cons, print_ext. cbn [app]. unfold ext_group. rewrite Hop. change (LPAREN =? LPAREN) with true. cbn [andb].
  unfold parse_extglob. cbn [drop scan_alts]. change (LPAREN =? BACKSLASH) with false. change (LPAREN =? LPAREN) with true.
  change (1 <? 0 + 1) with false. cbv iota. change (0 + 1) with 1.
  assert (Forall copied (print_seq <$> alts)) as Hc.
  { apply Forall_forall. intros q (a & -> & Ha)%list_elem_of_fmap. rewrite forallb_forall in Hall.
    apply items_copied. eapply placed_items. by apply Hall, list_elem_of_In. }
  destruct alts as [|a alts]; [done|]. rewrite <- app_assoc. cbn [app fmap list_fmap] in *.
  by rewrite scan_alts_join.
Qed.

(** The tokens of a written pattern are its items. *)
Lemma tokens_print fuel before ks :
  seq_ok before ks = true → (length (print_seq ks) < fuel)%nat → tokens fuel before (print_seq ks) = tok_of <$> ks.
Proof.
  revert before ks. induction fuel as [|fuel IH]; intros before ks Hok Hlen; [lia|].
  destruct ks as [|k ks]; [done|]. pose proof (placed_items _ _ _ Hok) as Hall. apply Forall_cons in Hall as [_ Hall].
  unfold seq_ok in Hok. simpl in Hok. apply andb_true_iff in Hok as [Hk Hks]. rewrite print_seq_cons, length_app in Hlen.
  destruct k as [e c| | |n ms|s|op alts]; rewrite print_seq_cons.
  - destruct e.
    + cbn [print app] in *. simpl in Hlen. cbn [tokens]. change (globstar before (BACKSLASH :: c :: print_seq ks)) with (@None (bool * text)).
      change (ext_group (BACKSLASH :: c :: print_seq ks)) with (@None (list text * text)).
      change (BACKSLASH =? STAR) with false. change (BACKSLASH =? QUERY) with false. change (BACKSLASH =? LBRACK) with false.
      change (BACKSLASH =? BACKSLASH) with true. cbv iota. cbn [drop fmap list_fmap tok_of]. rewrite drop_0. f_equal. apply IH; [done|lia].
    + cbn [print app] in *. simpl in Hlen. simpl in Hk. destruct (plain_char_tests c Hk) as (T1&T2&T3&T4). cbn [tokens].
      assert (globstar before (c :: print_seq ks) = None) as -> by (unfold globstar; destruct (print_seq ks); [done|by rewrite T1]).
      rewrite no_group by done. rewrite T1, T2, T3, T4. cbn [fmap list_fmap tok_of]. f_equal. apply IH; [done|lia].
  - cbn [print app] in *. simpl in Hlen. cbn [tokens].
    assert (globstar before (QUERY :: print_seq ks) = None) as -> by (unfold globstar; by destruct (print_seq ks)).
    rewrite no_group by done. change (QUERY =? STAR) with false. change (QUERY =? QUERY) with true. cbv iota.
    cbn [fmap list_fmap tok_of]. f_equal. apply IH; [done|lia].
  - apply andb_true_iff in Hks as [Hr Hks]. apply negb_true_iff in Hr. cbn [print app] in *. simpl in Hlen. cbn [tokens].
    rewrite run_not_deep, no_group by done. change (STAR =? STAR) with true. cbv iota. cbn [fmap list_fmap tok_of]. f_equal.
    apply IH; [done|lia].
  - cbn [print app] in *. rewrite <- !app_assoc. cbn [app]. cbn [tokens].
    assert (∀ p, globstar before (LBRACK :: p) = None) as -> by (intros [|]; done).
    assert (∀ p, ext_group (LBRACK :: p) = None) as -> by (intros [|]; done).
    change (LBRACK =? STAR) with false. change (LBRACK =? QUERY) with false. change (LBRACK =? LBRACK) with true. cbv iota.
    rewrite parse_class_print by done. cbn [fmap list_fmap tok_of]. f_equal. apply IH; [done|].
    simpl in Hlen. rewrite !length_app in Hlen. simpl in Hlen. lia.
  - destruct s; apply andb_true_iff in Hks as [-> Hks].
    + cbn [print app] in *. cbn [tokens]. change (globstar true (STAR :: STAR :: SLASH :: print_seq ks)) with (Some (true, print_seq ks)).
      cbv iota beta. cbn [fmap list_fmap tok_of]. f_equal. apply IH; [done|]. simpl in Hlen. lia.
    + destruct ks; [|done]. by destruct fuel.
  - pose proof (ext_group_print op alts ks Hk) as He. rewrite print_seq_cons in He.
    assert (globstar before (print (IExt op alts) ++ print_seq ks) = None) as Hg
      by (rewrite print_ext; cbn [app globstar]; change (LPAREN =? STAR) with false; by rewrite andb_false_r).
    pose proof (ext_group_shorter _ _ _ He) as [Ha Halts]. rewrite length_app in Ha, Halts.
    rewrite print_ext in *. cbn [app] in *. cbn [tokens]. rewrite Hg, He. cbn [fmap list_fmap tok_of]. f_equal.
    + f_equal. rewrite <- list_fmap_compose. apply list_fmap_ext. intros i a Hi%list_elem_of_lookup_2. simpl.
      apply IH; [|specialize (Halts (print_seq a) (list_elem_of_fmap_2 _ _ _ Hi)); simpl in *; lia].
      simpl in Hk. rewrite !andb_true_iff in Hk. destruct Hk as [[_ Hk] _]. rewrite forallb_forall in Hk. by apply Hk, list_elem_of_In.
    + apply IH; [done|]. simpl in *. lia.
Qed.

(** *** Languages *)

Lemma then_nil k l : then_lang k l [] ↔ k [] ∧ l [].
Proof.
  split; [|intros [? ?]; by exists [], []]. intros (u&v&E&Hk&Hl). symmetry in E. by apply app_eq_nil in E as [-> ->].
Qed.

Lemma seq_nil ks :
  Forall (λ k, nullable k = true ↔ item_lang k []) ks → forallb nullable ks = true ↔ seq_lang ks [].
Proof.
  induction 1 as [|k ks Hk _ IH]; [done|]. cbn [forallb seq_lang]. by rewrite andb_true_iff, then_nil, Hk, IH.
Qed.

Lemma concat_nil (us : list text) : [] = concat us ↔ Forall (λ w, w = []) us.
Proof.
  induction us as [|w us IH]; simpl; [done|]. rewrite Forall_cons, <- IH.
  split; [intros E; symmetry in E; by apply app_eq_nil in E as [-> ->]|by intros [-> <-]].
Qed.

Lemma group_nil op A :
  ext_op op = true →
  group_lang op A [] ↔ if (op =? QUERY) || (op =? STAR) then True else if op =? BANG then ¬ A [] else A [].
Proof.
  intros Hop. unfold group_lang. assert (SLASH ∉ []) as Hs by set_solver.
  assert ((∃ us, us ≠ [] ∧ [] = concat us ∧ Forall A us) ↔ A []) as Hplus.
  { split; [|intros HA; exists [[]]; by repeat constructor]. intros (us&Hne&E&Hus). apply concat_nil in E.
    destruct us as [|w us]; [done|]. apply Forall_cons in E as [-> _]. by apply Forall_cons in Hus as [? _]. }
  unfold ext_op in Hop. rewrite !orb_true_iff, !Z.eqb_eq in Hop.
  destruct Hop as [[[[-> | ->]| ->]| ->]| ->]; simpl; [tauto|tauto|rewrite Hplus; tauto| |tauto].
  split; [done|]. intros _. split; [done|]. by exists [].
Qed.

Lemma nullable_lang k : item_ok k = true → nullable k = true ↔ item_lang k [].
Proof.
  induction k as [e c| | |n ms|s|op alts IH] using item_ind'; intros Hk.
  - done.
  - split; [done|]. by intros (?&?&_).
  - split; [intros _; cbn; set_solver|done].
  - split; [done|]. by intros (?&?&_).
  - split; [intros _|done]. destruct s; [by exists []|done].
  - pose proof Hk as Hk'. simpl in Hk'. rewrite !andb_true_iff in Hk'. destruct Hk' as [[[Hop _] Hall] _].
    assert (existsb (forallb nullable) alts = true ↔ any_lang alts []) as Hany.
    { rewrite existsb_exists, any_lang_exists. setoid_rewrite <- list_elem_of_In. rewrite forallb_forall in Hall.
      rewrite Forall_forall in IH.
      assert (∀ a, a ∈ alts → forallb nullable a = true ↔ seq_lang a []) as Ha; [|naive_solver].
      intros a Ha. apply seq_nil. specialize (IH a Ha). pose proof (placed_items _ _ _ (Hall a (proj1 (list_elem_of_In _ _) Ha))) as Hok.
      rewrite Forall_forall in IH, Hok |- *. auto. }
    rewrite ext_item_lang, group_nil by done. cbn [nullable].
    destruct ((op =? QUERY) || (op =? STAR)); [done|]. destruct (op =? BANG); [|done].
    rewrite <- Hany. destruct (existsb (forallb nullable) alts); naive_solver.
Qed.

(** Dropping empty pieces *)
Lemma concat_nonempty (us : list text) : concat (filter (λ w, w ≠ []) us) = concat us.
Proof. induction us as [|w us IH]; [done|]. rewrite filter_cons. case_decide as Hw; simpl; rewrite IH; [done|]. by rewrite Hw. Qed.

(** The code counts repetitions that take something; where no piece can be empty
    this is one or more, and it always is any number. *)
Lemma op_group op (A : lang) u : (op = PLUS → ¬ A []) → op_lang op A u ↔ group_lang op A u.
Proof.
  intros Hp. unfold op_lang, group_lang. destruct (op =? AT); [done|]. destruct (op =? QUERY); [done|].
  destruct (Z.eqb_spec op PLUS) as [->|_].
  - specialize (Hp eq_refl). split; intros (Hs&us&Hne&E&Hus); (split; [done|]); exists us; (split_and!; [done|done|]).
    + eapply Forall_impl; [exact Hus|]. by intros w [_ ?].
    + eapply Forall_impl; [exact Hus|]. intros w Hw. split; [|done]. by intros ->.
  - destruct (op =? STAR); [|done]. split; intros (Hs&us&E&Hus); (split; [done|]).
    + exists us. split; [done|]. eapply Forall_impl; [exact Hus|]. by intros w [_ ?].
    + exists (filter (λ w, w ≠ []) us). split; [by rewrite concat_nonempty|]. apply Forall_forall. intros w Hw.
      apply list_elem_of_filter in Hw as [Hne Hin]. rewrite Forall_forall in Hus. auto.
Qed.

Lemma op_lang_ext op (A B : lang) u : (∀ w, A w ↔ B w) → op_lang op A u ↔ op_lang op B u.
Proof.
  intros HAB. unfold op_lang. assert (∀ us, Forall (λ w, w ≠ [] ∧ A w) us ↔ Forall (λ w, w ≠ [] ∧ B w) us) as HF
    by (intros us; apply Forall_iff; intros w; by rewrite HAB).
  repeat case_match; rewrite ?HAB; try setoid_rewrite HF; done.
Qed.

(** A member of a class, written *)
Lemma in_body_members ms c : forallb member_ok ms = true → in_body (body_text ms) c = true ↔ Exists (λ x, member x c) ms.
Proof.
  assert (∀ x, class_char x = true → (x =? DASH) = false) as Hdash
    by (unfold class_char; intros x; rewrite bool_decide_eq_true, !not_elem_of_cons; intros H; apply Z.eqb_neq; tauto).
  induction ms as [|[lo hi] ms IH]; intros Hok; [split; [done|by intros ?%Exists_nil]|].
  simpl in Hok. unfold member_ok at 1 in Hok. simpl in Hok. rewrite !andb_true_iff in Hok. destruct Hok as [[Hlo Hhi] Hms].
  specialize (IH Hms). change (body_text ((lo, hi) :: ms)) with (member_text (lo, hi) ++ body_text ms). rewrite Exists_cons, <- IH.
  unfold member_text, member. simpl. destruct hi as [hi|]; cbn [app].
  - change (in_body (lo :: DASH :: hi :: body_text ms) c) with ((lo <=? c) && (c <=? hi) || in_body (body_text ms) c).
    rewrite orb_true_iff, andb_true_iff, !Z.leb_le. done.
  - assert (in_body (lo :: body_text ms) c = (lo =? c) || in_body (body_text ms) c) as ->.
    { destruct ms as [|[lo' hi'] ms]; [done|]. simpl in Hms. unfold member_ok at 1 in Hms. simpl in Hms. rewrite !andb_true_iff in Hms.
      destruct Hms as [[Hlo' _] _]. change (body_text ((lo', hi') :: ms)) with (member_text (lo', hi') ++ body_text ms).
      assert (∃ t, member_text (lo', hi') ++ body_text ms = lo' :: t) as [t ->] by (unfold member_text; destruct hi'; by eexists).
      cbn [in_body]. destruct t as [|? t]; [done|]. by rewrite Hdash. }
    rewrite orb_true_iff, Z.eqb_eq. naive_solver.
Qed.

(** Directories in a row are what is empty or ends in a slash. *)
Lemma deep_segments u :
  (u = [] ∨ last u = Some SLASH) ↔ ∃ segs, u = concat ((λ s, s ++ [SLASH]) <$> segs) ∧ Forall (λ s, SLASH ∉ s) segs.
Proof.
  split.
  - intros Hu. assert (∀ t, ∃ segs r, t = concat ((λ s, s ++ [SLASH]) <$> segs) ++ r ∧ Forall (λ s, SLASH ∉ s) segs ∧ SLASH ∉ r) as Hsplit.
    { induction t as [|c t (segs&r&->&Hs&Hr)]; [exists [], []; split_and!; [done..|set_solver]|].
      destruct (decide (c = SLASH)) as [->|Hc].
      - exists ([] :: segs), r. split_and!; [done|constructor; [set_solver|done]|done].
      - destruct segs as [|s segs]; [exists [], (c :: r); split_and!; [done..|set_solver]|]. apply Forall_cons in Hs as [Hs Hs'].
        exists ((c :: s) :: segs), r. split_and!; [done|constructor; [set_solver|done]|done]. }
    destruct (Hsplit u) as (segs&r&->&Hs&Hr). exists segs. split; [|done]. destruct r as [|x r _] using rev_ind; [by rewrite app_nil_r|].
    exfalso. destruct Hu as [Hu|Hu]; [by apply app_eq_nil in Hu as [_ [_ ?]%app_eq_nil]|]. rewrite app_assoc, last_snoc in Hu.
    injection Hu as ->. set_solver.
  - intros (segs&->&_). destruct segs as [|s segs _] using rev_ind; [by left|right].
    rewrite fmap_app, concat_app. simpl. by rewrite app_nil_r, app_assoc, last_snoc.
Qed.

Lemma toks_seq ks :
  Forall (λ k, ∀ u, tok_lang (tok_of k) u ↔ item_lang k u) ks → ∀ u, toks_lang (tok_of <$> ks) u ↔ seq_lang ks u.
Proof.
  induction 1 as [|k ks Hk _ IH]; intros u; [done|]. cbn [fmap list_fmap toks_lang seq_lang]. unfold then_lang.
  setoid_rewrite Hk. setoid_rewrite IH. done.
Qed.

(** The tokens mean what the items do. *)
Lemma tok_item k : item_ok k = true → ∀ u, tok_lang (tok_of k) u ↔ item_lang k u.
Proof.
  induction k as [e c| | |n ms|s|op alts IH] using item_ind'; intros Hk u; [done|done|done| | |].
  - simpl in Hk. apply andb_true_iff in Hk as [_ Hms]. cbn [tok_of tok_lang item_lang].
    pose proof (λ c, in_body_members ms c Hms) as Hin.
    assert (∀ c, xorb (match n with Plain => false | _ => true end) (in_body (body_text ms) c) = true ↔
      (if n is Plain then Exists (λ x, member x c) ms else ¬ Exists (λ x, member x c) ms)) as Hx.
    { intros c. specialize (Hin c). destruct n, (in_body (body_text ms) c); simpl; naive_solver. }
    by setoid_rewrite Hx.
  - destruct s; [apply deep_segments|done].
  - pose proof Hk as Hk'. simpl in Hk'. rewrite !andb_true_iff in Hk'. destruct Hk' as [[[Hop _] Hall] Hplus].
    rewrite forallb_forall in Hall. rewrite ext_item_lang. change (tok_of (IExt op alts)) with (Ext op (fmap (M := list) (fmap (M := list) tok_of) alts)).
    assert (∀ a, a ∈ alts → Forall (λ k, item_ok k = true) a) as Hok
      by (intros a Ha; eapply placed_items; by apply Hall, list_elem_of_In).
    assert (∀ w, alts_lang (fmap (M := list) (fmap (M := list) tok_of) alts) w ↔ any_lang alts w) as Hw.
    { intros w. rewrite alts_lang_exists, any_lang_exists. setoid_rewrite list_elem_of_fmap. rewrite Forall_forall in IH.
      assert (∀ a, a ∈ alts → toks_lang (tok_of <$> a) w ↔ seq_lang a w) as Ha; [|naive_solver].
      intros a Ha. apply toks_seq. specialize (IH a Ha). specialize (Hok a Ha). rewrite Forall_forall in IH, Hok |- *. auto. }
    rewrite ext_lang, (op_lang_ext _ _ _ _ Hw). apply op_group. intros -> Hnil. apply negb_true_iff in Hplus.
    change (PLUS =? PLUS) with true in Hplus. simpl in Hplus. apply not_true_iff_false in Hplus. apply Hplus.
    apply any_lang_exists in Hnil as (a & Ha & Hnil). apply existsb_exists. exists a. split; [by apply list_elem_of_In|].
    apply seq_nil; [|done]. specialize (Hok a Ha). rewrite Forall_forall in Hok |- *. intros k Hin. by apply nullable_lang, Hok.
Qed.

Lemma match_written ks s : seq_ok true ks = true → match_pattern (print_seq ks) s = true ↔ seq_lang ks s.
Proof.
  intros Hok. rewrite match_pattern_lang. unfold pattern_tokens. rewrite tokens_print by (done || lia). apply toks_seq.
  eapply Forall_impl; [by eapply placed_items|]. intros k Hk. by apply tok_item.
Qed.

(** C4. The matcher against the language its header describes, stated apart from
    the code: a pattern of literals, [?], [*], character classes, globstar
    segments, extended groups with nested alternatives, and nested brace groups
    around them, written down, matches exactly the strings of one of its brace
    choices: concatenations of what its items stand for, with [+(..)] one or more
    and [*(..)] any number of pieces.  The conditions are those of the notation:
    characters it uses are escaped where they are meant ([item_ok]), a class has
    members, braces have at least two alternatives and are not inside extended
    groups, in every brace choice a globstar is a whole segment and two runs do
    not meet; and no alternative of [+(..)] stands for the empty string, where the
    code departs from one or more ([plus_of_empty_alternative]).  For all other
    patterns see [globmatch_tokens]. *)
Theorem globmatch_lang (ps : list Piece) (s : text) :
  forallb piece_ok ps = true → forallb (seq_ok true) (expand ps) = true →
  globmatch (print_pieces ps) s = true ↔ ∃ ks, ks ∈ expand ps ∧ seq_lang ks s.
Proof.
  intros Hps Hall. unfold globmatch. rewrite existsb_exists, expand_braces_pieces by done. rewrite forallb_forall in Hall.
  setoid_rewrite <- list_elem_of_In. setoid_rewrite list_elem_of_fmap.
  assert (∀ ks, ks ∈ expand ps → match_pattern (print_seq ks) s = true ↔ seq_lang ks s) as Hks; [|naive_solver].
  intros ks Hin. by apply match_written, Hall, list_elem_of_In.
Qed.

(** A pattern with every construct *)
Definition lits (s : string) : list Item := ILit false <$> str s.
Definition sample : list Piece :=
  (PItem <$> lits "src/") ++
  [PBrace [PItem <$> (IDeep true :: IRun :: lits ".rs");
           [PItem (IClass Bang [(chr "a", Some (chr "c")); (chr "x", None)]);
            PBrace [[PItem IAny]; PItem <$> lits "0/" ++ [IDeep false]]];
           [PItem (IExt PLUS [lits "x"; [ILit false (chr "y"); ILit true PIPE]])]]].

Lemma globmatch_lang_witness :
  print_pieces sample = str "src/{**/*.rs,[!a-cx]{?,0/**},+(x|y\|)}" ∧
  (globmatch (str "src/{**/*.rs,[!a-cx]{?,0/**},+(x|y\|)}") (str "src/a/b.rs") = true ↔
    ∃ ks, ks ∈ expand sample ∧ seq_lang ks (str "src/a/b.rs")) ∧
  (∃ ks, ks ∈ expand sample ∧ seq_lang ks (str "src/xy|x")) ∧
  ¬ (∃ ks, ks ∈ expand sample ∧ seq_lang ks (str "src/b0/k")).
Proof.
  assert (Hp : print_pieces sample = str "src/{**/*.rs,[!a-cx]{?,0/**},+(x|y\|)}") by by vm_compute.
  split_and!.
  - exact Hp.
  - rewrite <- Hp. apply (globmatch_lang sample); by vm_compute.
  - apply (globmatch_lang sample); by vm_compute.
  - intros Hl. apply (globmatch_lang sample) in Hl; [|by vm_compute..]. rewrite Hp in Hl. by vm_compute in Hl.
Defined.
End Syntax.

(** ** Claims *)

(** Any pattern at all, as the code cuts it: one of its brace alternatives, cut
    into tokens, has a concatenation of its tokens' languages equal to the
    string. *)
Theorem globmatch_tokens (pat s : text) :
  globmatch pat s = true ↔ ∃ alt, alt ∈ expand_braces pat ∧ toks_lang (pattern_tokens alt) s.
Proof.
  unfold globmatch. rewrite existsb_exists. setoid_rewrite <- list_elem_of_In.
  by setoid_rewrite match_pattern_lang.
Qed.

(** A brace group stands for its alternatives in order, each with the text
    around it, and the text after the group is expanded for each. *)
Theorem expand_braces_group (prefix p p' : text) (ps : list text) (suffix : text) :
  Forall brace_plain prefix → Forall (Forall brace_plain) (p :: p' :: ps) →
  expand_braces (prefix ++ [LBRACE] ++ join [COMMA] (p :: p' :: ps) ++ [RBRACE] ++ suffix)
  = (p :: p' :: ps) ≫= λ q, (λ tail, prefix ++ tail) <$> expand_braces (q ++ suffix).
Proof.
  intros Hpre Hall. rewrite expand_braces_unfold, find_group_plain by done.
  assert (Hf : find_group [] ([LBRACE] ++ join [COMMA] (p :: p' :: ps) ++ [RBRACE] ++ suffix)
    = Some ([], p :: p' :: ps, suffix)).
  { cbn [app find_group]. change (LBRACE =? BACKSLASH) with false. change (LBRACE =? LBRACE) with true.
    cbv iota. cbn [scan_group]. change (LBRACE =? BACKSLASH) with false.
    change (LBRACE =? LBRACE) with true. change (1 <? 0 + 1) with false. cbv iota. change (0 + 1) with 1.
    pose proof (scan_group_parts p (p' :: ps) suffix [] false Hall) as Hs. cbn [app] in Hs.
    by rewrite Hs. }
  rewrite Hf. by rewrite app_nil_r.
Qed.

Lemma expand_braces_group_witness :
  expand_braces (str "src/" ++ [LBRACE] ++ join [COMMA] [str "a"; str "bc"] ++ [RBRACE] ++ str ".{rs,v}")
  = [str "src/a.rs"; str "src/a.v"; str "src/bc.rs"; str "src/bc.v"].
Proof.
  rewrite (expand_braces_group (str "src/") (str "a") (str "bc") []).
  - reflexivity.
  - by apply (bool_decide_unpack _); vm_compute.
  - by apply (bool_decide_unpack _); vm_compute.
Defined.

(** A repeated group does not count an empty alternative as a repetition. *)
Lemma plus_of_empty_alternative :
  globmatch (str "+(|a)") (str "") = false ∧ globmatch (str "@(|a)") (str "") = true.
Proof. by vm_compute. Qed.
