(* ===== verification/Rules.v ===== *)
(** * File and network rules.

    Models [engine/src/rules.rs]: the rule grammar ([FileRule::parse] and
    [to_line]), clause evaluation over targets, [Rules::decide] and the
    path-only gate for read passthrough.  Of [std::str] it models what the
    source uses: trimming, splitting, lower case, lines and [i64::from_str]. *)

From stdpp Require Import strings gmap.
From S2P Require Import Prelude.
From S2P Require Import Glob.
From S2P Require Import GlobSpec.
Open Scope Z_scope.

(** ** [std::str] *)

(** [char::is_whitespace] *)
Definition is_whitespace (c : char) : bool :=
  ((9 <=? c) && (c <=? 13)) || (c =? 32) || (c =? 133) || (c =? 160) || (c =? 5760)
  || ((8192 <=? c) && (c <=? 8202)) || (c =? 8232) || (c =? 8233) || (c =? 8239) || (c =? 8287)
  || (c =? 12288).

Fixpoint trim_start (s : text) : text :=
  match s with c :: s' => if is_whitespace c then trim_start s' else s | [] => [] end.
Definition trim (s : text) : text := rev (trim_start (rev (trim_start s))).

(** [split_whitespace] *)
Fixpoint words_loop (cur s : text) : list text :=
  match s with
  | [] => match cur with [] => [] | _ => [cur] end
  | c :: s =>
      if is_whitespace c then match cur with [] => words_loop [] s | _ => cur :: words_loop [] s end
      else words_loop (cur ++ [c]) s
  end.
Definition split_whitespace (s : text) : list text := words_loop [] s.

(** [split_once] at a character *)
Fixpoint split_once (sep : char) (s : text) : option (text * text) :=
  match s with
  | [] => None
  | c :: s =>
      if c =? sep then Some ([], s)
      else match split_once sep s with Some (a, b) => Some (c :: a, b) | None => None end
  end.

(** [to_ascii_lowercase] *)
Definition lower (s : text) : text :=
  (λ c, if (65 <=? c) && (c <=? 90) then c + 32 else c) <$> s.

(** [lines] *)
Definition strip_cr (l : text) : text :=
  match last l with Some 13 => take (length l - 1) l | _ => l end.
Fixpoint lines_loop (cur s : text) : list text :=
  match s with
  | [] => match cur with [] => [] | _ => [cur] end
  | c :: s => if c =? 10 then strip_cr cur :: lines_loop [] s else lines_loop (cur ++ [c]) s
  end.
Definition lines (s : text) : list text := lines_loop [] s.

Definition starts_with (c : char) (s : text) : bool :=
  match s with d :: _ => d =? c | [] => false end.
Definition contains (c : char) (s : text) : bool := existsb (Z.eqb c) s.
Definition is_empty (s : text) : bool := match s with [] => true | _ => false end.
Fixpoint trim_slashes (s : text) : text :=
  match s with c :: s' => if c =? SLASH then trim_slashes s' else s | [] => [] end.
Definition text_eqb (a b : text) : bool := bool_decide (a = b).

(** [i64::from_str] *)
Fixpoint digits (acc : Z) (s : text) : option Z :=
  match s with
  | [] => Some acc
  | c :: s => if (48 <=? c) && (c <=? 57) then digits (acc * 10 + (c - 48)) s else None
  end.
Definition parse_i64 (s : text) : option Z :=
  let value (sign : Z) (ds : text) :=
    match ds with
    | [] => None
    | _ =>
        match digits 0 ds with
        | Some v => if (- 2 ^ 63 <=? sign * v) && (sign * v <? 2 ^ 63) then Some (sign * v) else None
        | None => None
        end
    end in
  match s with
  | 45 :: ds => value (-1) ds
  | 43 :: ds => value 1 ds
  | ds => value 1 ds
  end.

(** ** Data *)

Definition FILE_KINDS : list text := [str "path"; str "box"; str "exe"; str "cwd"; str "arg"].
Definition NET_KINDS : list text :=
  [str "host"; str "port"; str "scheme"; str "sni"; str "http_path"; str "http_method";
   str "http_status"; str "proto"; str "box"; str "exe"; str "cwd"; str "arg"].
Definition known_kind (k : text) : bool :=
  existsb (text_eqb k) FILE_KINDS || existsb (text_eqb k) NET_KINDS.

Inductive Action : Type := Apply | Discard | Passthrough | Ask.
#[export] Instance Action_eq_dec : EqDecision Action.
Proof. solve_decision. Defined.

(** [Action::parse] and [Action::as_str] *)
Definition action_parse (s : text) : option Action :=
  if text_eqb s (str "apply") then Some Apply
  else if text_eqb s (str "discard") then Some Discard
  else if text_eqb s (str "passthrough") then Some Passthrough
  else if text_eqb s (str "ask") then Some Ask
  else None.
Definition action_str (a : Action) : text :=
  match a with
  | Apply => str "apply" | Discard => str "discard" | Passthrough => str "passthrough" | Ask => str "ask"
  end.

Record Match : Type := MkMatch { m_kind : text; m_pattern : text }.
Inductive Join : Type := And | Or.
Record Clause : Type := MkClause { c_m : Match; c_join : Join; c_negate : bool; c_enabled : bool }.
Record FileRule : Type := MkRule { r_action : Action; r_clauses : list Clause }.

(** ** Matching *)

(** [glob_match] *)
Definition glob_match (pat s : text) : bool :=
  let pat := trim pat in if is_empty pat then false else globmatch pat s.

(** [has_glob_meta] and [wrap_bare_as_substring] *)
Definition has_glob_meta (pat : text) : bool :=
  contains STAR pat || contains QUERY pat || contains LBRACK pat || contains LBRACE pat.
Definition wrap_bare_as_substring (pat : text) : text :=
  let pat := trim pat in
  if is_empty pat || has_glob_meta pat then pat else [STAR] ++ pat ++ [STAR].

(** [cmd_match] *)
Definition cmd_match (pat s : text) : bool :=
  let pat := trim pat in
  if is_empty pat then false else textmatch (wrap_bare_as_substring pat) s.

(** [path_match] *)
Definition path_match (pat rel : text) : bool :=
  let pat := trim pat in
  if is_empty pat then false
  else
    let s := SLASH :: trim_slashes rel in
    let p := if negb (contains SLASH pat) || negb (starts_with SLASH pat)
             then str "**/" ++ pat else pat in
    globmatch p s.

(** [Subject] and [subject_match] *)
Record Subject : Type := MkSubject { box_name : text; exe : text; cwd : text; argv : list text }.
Definition subject_default : Subject := MkSubject [] [] [] [].
Definition kind_is (m : Match) (k : string) : bool := text_eqb (m_kind m) (str k).
Definition subject_match (s : Subject) (m : Match) : bool :=
  if kind_is m "box" then glob_match (m_pattern m) (box_name s)
  else if kind_is m "exe" then path_match (m_pattern m) (exe s)
  else if kind_is m "cwd" then path_match (m_pattern m) (cwd s)
  else if kind_is m "arg" then existsb (glob_match (m_pattern m)) (argv s)
  else false.

(** [ids_of]: the ids of the list, as membership *)
Fixpoint split_char (sep : char) (cur s : text) : list text :=
  match s with
  | [] => [cur]
  | c :: s => if c =? sep then cur :: split_char sep [] s else split_char sep (cur ++ [c]) s
  end.
Definition ids_of (pattern : text) : list Z :=
  omap (λ t, parse_i64 (trim t)) (split_char COMMA [] pattern).
Definition has_id (pattern : text) (id : Z) : bool := existsb (Z.eqb id) (ids_of pattern).

(** [trait Target] and its implementations *)
Class Target (T : Type) : Type := match_one : T → Match → bool.

Record PathTarget : Type := MkPathTarget { pt_rel : text; pt_subject : Subject; pt_ids : list Z }.
#[export] Instance path_target : Target PathTarget := λ t m,
  if kind_is m "path" then path_match (m_pattern m) (pt_rel t)
  else if kind_is m "ids" then existsb (has_id (m_pattern m)) (pt_ids t)
  else subject_match (pt_subject t) m.

Record ProcFilterTarget : Type := MkProcTarget { pr_row_id : Z; pr_subject : Subject; pr_err : bool }.
#[export] Instance proc_target : Target ProcFilterTarget := λ t m,
  if kind_is m "ids" then has_id (m_pattern m) (pr_row_id t)
  else if kind_is m "err" then pr_err t
  else subject_match (pr_subject t) m.

Record PipelineFilterTarget : Type := MkPipelineTarget { pl_row_id : Z; pl_cmd : text; pl_err : bool }.
#[export] Instance pipeline_target : Target PipelineFilterTarget := λ t m,
  if kind_is m "ids" then has_id (m_pattern m) (pl_row_id t)
  else if kind_is m "cmd" then cmd_match (m_pattern m) (pl_cmd t)
  else if kind_is m "err" then pl_err t
  else false.

Record EdgeFilterTarget : Type := MkEdgeTarget {
  ed_row_id : Z; ed_targets : list text; ed_cmd : text; ed_err : bool }.
#[export] Instance edge_target : Target EdgeFilterTarget := λ t m,
  if kind_is m "ids" then has_id (m_pattern m) (ed_row_id t)
  else if kind_is m "target" then existsb (path_match (m_pattern m)) (ed_targets t)
  else if kind_is m "cmd" then cmd_match (m_pattern m) (ed_cmd t)
  else if kind_is m "err" then ed_err t
  else false.

(** [eval_clauses] *)
Fixpoint eval_loop {T} `{Target T} (target : T) (acc : option bool) (clauses : list Clause) : bool :=
  match clauses with
  | [] => default false acc
  | c :: clauses =>
      if negb (c_enabled c) then eval_loop target acc clauses
      else
        let v := match_one target (c_m c) in
        let v := if c_negate c then negb v else v in
        eval_loop target
          (Some (match acc with
                 | None => v
                 | Some a => match c_join c with Or => a || v | And => a && v end
                 end)) clauses
  end.
Definition eval_clauses {T} `{Target T} (target : T) (clauses : list Clause) : bool :=
  eval_loop target None clauses.

(** [FileRule::matches] *)
Definition rule_matches {T} `{Target T} (r : FileRule) (target : T) : bool :=
  eval_clauses target (r_clauses r).

(** ** Printing and parsing *)

(** [FileRule::to_line] *)
Definition clause_words (n : nat) (c : Clause) : list text :=
  (match n with O => [] | S _ => [match c_join c with Or => str "or" | And => str "and" end] end)
  ++ (if negb (c_enabled c) then [str "off"] else [])
  ++ (if c_negate c then [str "not"] else [])
  ++ [if kind_is (c_m c) "path" then m_pattern (c_m c)
      else m_kind (c_m c) ++ str ":" ++ m_pattern (c_m c)].
Definition to_line (r : FileRule) : text :=
  join (str " ") (action_str (r_action r) ::
    imap (λ n c, join (str " ") (clause_words n c)) (r_clauses r)).

(** The [off] and [not] flags in front of a predicate *)
Fixpoint take_flags (toks : list text) (off neg : bool) : list text * bool * bool :=
  match toks with
  | [] => ([], off, neg)
  | w :: rest =>
      if text_eqb (lower w) (str "off") then take_flags rest true neg
      else if text_eqb (lower w) (str "not") then take_flags rest off true
      else (toks, off, neg)
  end.

(** A connective, unless this is the first clause *)
Definition take_join (first : bool) (toks : list text) (join : Join) : list text * Join :=
  match toks with
  | w :: rest =>
      if first then (toks, join)
      else if text_eqb (lower w) (str "or") then (rest, Or)
      else if text_eqb (lower w) (str "and") then (rest, And)
      else (toks, join)
  | [] => (toks, join)
  end.

(** A predicate: [kind:pattern] for a known kind, a path otherwise *)
Definition parse_pred (pred : text) : Match :=
  match split_once (chr ":") pred with
  | Some (k, p) => if known_kind (lower k) then MkMatch (lower k) p else MkMatch (str "path") pred
  | None => MkMatch (str "path") pred
  end.

(** [FileRule::parse_clauses]; every round takes a word. *)
Fixpoint clauses_loop (fuel : nat) (toks : list text) (clauses : list Clause) (join : Join) :
    list Clause :=
  match fuel, toks with
  | O, _ | _, [] => clauses
  | S fuel, _ =>
      let first := match clauses with [] => true | _ => false end in
      let '(toks, join) := take_join first toks join in
      let '(toks, off, neg) := take_flags toks false false in
      match toks with
      | [] => clauses
      | pred :: toks =>
          let m := parse_pred pred in
          if is_empty (m_pattern m) then clauses_loop fuel toks clauses join
          else
            clauses_loop fuel toks
              (clauses ++ [MkClause m (if first then And else join) neg (negb off)]) And
      end
  end.
Definition parse_clauses (s : text) : list Clause :=
  let toks := split_whitespace s in clauses_loop (length toks) toks [] And.

(** [FileRule::parse] *)
Definition rule_parse (line : text) : option FileRule :=
  let s := trim line in
  if is_empty s || starts_with (chr "#") s then None
  else
    let '(verb, rest) := match split_once (chr " ") s with Some p => p | None => (s, []) end in
    match action_parse (lower verb) with
    | None => None
    | Some action =>
        match parse_clauses (trim rest) with
        | [] => None
        | clauses => Some (MkRule action clauses)
        end
    end.

(** [FileRule::path_only] *)
Definition path_only (r : FileRule) : bool := forallb (λ c, kind_is (c_m c) "path") (r_clauses r).

(** ** [Rules] *)

Definition rules_parse (s : text) : list FileRule := omap rule_parse (lines s).

(** [Rules::decide] *)
Definition decide_rule (rules : list FileRule) (rel : text) (subject : Subject) : option Action :=
  let target := MkPathTarget rel subject [] in
  r_action <$> List.find (λ r, rule_matches r target) rules.

(** [Rules::passthrough_path_only] *)
Fixpoint passthrough_loop (rules : list FileRule) (target : PathTarget) : bool :=
  match rules with
  | [] => false
  | r :: rules =>
      if negb (path_only r) then passthrough_loop rules target
      else if rule_matches r target then bool_decide (r_action r = Passthrough)
      else passthrough_loop rules target
  end.
Definition passthrough_path_only (rules : list FileRule) (rel : text) : bool :=
  passthrough_loop rules (MkPathTarget rel subject_default []).

(** [Rules::needs_proc] and [Rules::needs_box] *)
Definition needs_proc (rules : list FileRule) : bool :=
  existsb (λ r, existsb (λ c, kind_is (c_m c) "exe" || kind_is (c_m c) "cwd" || kind_is (c_m c) "arg")
    (r_clauses r)) rules.
Definition needs_box (rules : list FileRule) : bool :=
  existsb (λ r, existsb (λ c, kind_is (c_m c) "box") (r_clauses r)) rules.
