(* ===== verification/RulesLaws.v ===== *)
(** * The rule grammar's laws.

    What [Rules] reads is what it prints; the path-only gate and the skipped
    provenance lookups decide as the full grammar does; and what a bare pattern
    means for paths and for commands. *)

From stdpp Require Import strings gmap.
From S2P Require Import Prelude.
From S2P Require Import Glob.
From S2P Require Import GlobSpec.
From S2P Require Import Rules.
Open Scope Z_scope.

(** ** Words *)

(** Text without white space, and a word *)
Definition solid (s : text) : Prop := Forall (λ c, is_whitespace c = false) s.
Definition word (s : text) : Prop := s ≠ [] ∧ solid s.
#[export] Instance solid_dec s : Decision (solid s) := _.
#[export] Instance word_dec s : Decision (word s) := _.

Lemma words_loop_solid w cur s : solid w → words_loop cur (w ++ s) = words_loop (cur ++ w) s.
Proof.
  intros Hw. revert cur. induction Hw as [|c w Hc _ IH]; intros cur; simpl; [by rewrite app_nil_r|].
  by rewrite Hc, IH, <- app_assoc.
Qed.

Lemma words_loop_space cur s : cur ≠ [] → words_loop cur (str " " ++ s) = cur :: words_loop [] s.
Proof. by destruct cur. Qed.

Lemma split_join ws : Forall word ws → split_whitespace (join (str " ") ws) = ws.
Proof.
  unfold split_whitespace. intros Hws. induction Hws as [|w ws [Hne Hw] Hws IH]; [done|].
  destruct ws as [|w' ws].
  - simpl. rewrite <- (app_nil_r w) at 1. rewrite words_loop_solid by done. by destruct w.
  - change (join (str " ") (w :: w' :: ws)) with (w ++ str " " ++ join (str " ") (w' :: ws)).
    rewrite words_loop_solid, words_loop_space by done. by rewrite IH.
Qed.

Lemma words_loop_words cur s : solid cur → Forall word (words_loop cur s).
Proof.
  revert cur. induction s as [|c s IH]; intros cur Hcur; cbn [words_loop].
  - destruct cur; repeat constructor; [done|by inversion Hcur..].
  - destruct (is_whitespace c) eqn:Hc; [destruct cur; [by apply IH|constructor; [done|by apply IH; constructor]]|].
    apply IH. apply Forall_app. split; [done|by repeat constructor].
Qed.
Lemma split_words s : Forall word (split_whitespace s).
Proof. apply words_loop_words. constructor. Qed.

Lemma join_concat sep (ls : list (list text)) :
  Forall (λ l, l ≠ []) ls → join sep (join sep <$> ls) = join sep (concat ls).
Proof.
  intros Hls. induction Hls as [|l ls Hl Hls IH]; [done|]. destruct ls as [|l' ls].
  - simpl. by rewrite app_nil_r.
  - change (join sep l ++ sep ++ join sep (join sep <$> (l' :: ls)) = join sep (l ++ concat (l' :: ls))).
    rewrite IH. assert (Hne : concat (l' :: ls) ≠ []).
    { apply Forall_cons in Hls as [? _]. by destruct l'. }
    clear IH Hls. destruct l as [|w l]; [done|]. clear Hl. revert w.
    induction l as [|w' l IH]; intros w; cbn [app].
    + by destruct (concat (l' :: ls)).
    + change (join sep (w :: w' :: l)) with (w ++ sep ++ join sep (w' :: l)).
      change (join sep (w :: w' :: l ++ concat (l' :: ls))) with (w ++ sep ++ join sep (w' :: l ++ concat (l' :: ls))).
      rewrite <- !app_assoc. do 2 f_equal. apply IH.
Qed.

Lemma last_nonempty_app {A} (l k : list A) : k ≠ [] → last (l ++ k) = last k.
Proof. intros Hk. destruct k using rev_ind; [done|]. by rewrite app_assoc, !last_snoc. Qed.

(** Text with no white space at its ends *)
Definition tight (s : text) : Prop :=
  (∀ c, head s = Some c → is_whitespace c = false) ∧ (∀ c, last s = Some c → is_whitespace c = false).

Lemma trim_start_id s : (∀ c, head s = Some c → is_whitespace c = false) → trim_start s = s.
Proof. destruct s as [|c s]; [done|]. simpl. intros Hc. by rewrite Hc. Qed.

Lemma tight_trim s : tight s → trim s = s.
Proof.
  intros [Hh Hl]. unfold trim. rewrite (trim_start_id s) by done.
  rewrite trim_start_id, rev_involutive; [done|].
  rewrite rev_alt. change (rev_append s []) with (reverse s). by rewrite head_reverse.
Qed.

Lemma word_tight w : word w → tight w.
Proof.
  intros [Hne Hw]. unfold solid in Hw. rewrite Forall_forall in Hw. split; intros c Hc; apply Hw.
  - destruct w; [done|]. injection Hc as ->. set_solver.
  - apply last_Some in Hc as [w' ->]. set_solver.
Qed.

Lemma tight_app u v : u ≠ [] → v ≠ [] → tight u → tight v → ∀ s, tight (u ++ s ++ v).
Proof.
  intros Hu Hv [Hh _] [_ Hl] s. split; [by destruct u|].
  by rewrite app_assoc, last_nonempty_app.
Qed.

Lemma join_nonempty sep w ws : w ≠ [] → join sep (w :: ws) ≠ [].
Proof. intros Hw. destruct ws; [done|]. by destruct w. Qed.

Lemma join_tight ws : Forall word ws → tight (join (str " ") ws).
Proof.
  intros Hws. induction Hws as [|w ws Hw Hws IH]; [done|]. destruct ws as [|w' ws].
  - by apply word_tight.
  - apply tight_app; [apply Hw|by apply join_nonempty, (Forall_inv Hws)|by apply word_tight|done].
Qed.

(** ** Rules that print to what they were read from *)

(** A pattern read as a predicate, of a kind the grammar knows *)
Definition clause_wf (c : Clause) : Prop :=
  word (m_pattern (c_m c)) ∧ known_kind (m_kind (c_m c)) = true.
Definition rule_wf (r : FileRule) : Prop :=
  Forall clause_wf (r_clauses r) ∧ c_join <$> head (r_clauses r) = Some And.

(** A path pattern that still reads as one without its [path:] *)
Definition flag_word (w : text) : bool :=
  text_eqb (lower w) (str "off") || text_eqb (lower w) (str "not").
Definition clause_bare (c : Clause) : bool :=
  negb (kind_is (c_m c) "path") ||
  negb (flag_word (m_pattern (c_m c))) &&
  match split_once (chr ":") (m_pattern (c_m c)) with
  | Some (k, _) => negb (known_kind (lower k))
  | None => true
  end.
Definition rule_bare (r : FileRule) : bool := forallb clause_bare (r_clauses r).

(** The word of a clause's predicate *)
Definition pred_word (m : Match) : text :=
  if kind_is m "path" then m_pattern m else m_kind m ++ str ":" ++ m_pattern m.

Lemma text_eqb_true a b : text_eqb a b = true ↔ a = b.
Proof. apply bool_decide_eq_true. Qed.

(** Every kind of the grammar is lower case, has no colon and is solid. *)
Lemma known_kind_cases (P : text → Prop) k :
  known_kind k = true → Forall P (FILE_KINDS ++ NET_KINDS) → P k.
Proof.
  unfold known_kind. rewrite <- existsb_app, existsb_exists. intros (k'&Hk%list_elem_of_In&Heq%text_eqb_true).
  subst k'. rewrite Forall_forall. auto.
Qed.

Lemma pred_word_read c :
  clause_wf c → clause_bare c = true →
  word (pred_word (c_m c)) ∧ flag_word (pred_word (c_m c)) = false ∧ parse_pred (pred_word (c_m c)) = c_m c.
Proof.
  destruct c as [[k p] j n e]. intros [Hp Hk]. unfold clause_bare, pred_word, kind_is; simpl in *.
  destruct (text_eqb k (str "path")) eqn:Hpath.
  - intros [Hf Hs]%andb_true_iff. apply text_eqb_true in Hpath as ->.
    split; [done|]. split; [by destruct (flag_word p)|]. unfold parse_pred.
    destruct (split_once (chr ":") p) as [[k' p']|]; [|done]. by destruct (known_kind (lower k')).
  - intros _. clear Hpath. revert p Hp. apply (known_kind_cases (λ k, ∀ p, word p →
      word (k ++ str ":" ++ p) ∧ flag_word (k ++ str ":" ++ p) = false ∧
      parse_pred (k ++ str ":" ++ p) = MkMatch k p) k Hk). clear.
    repeat constructor; by destruct select (word _).
Qed.

Lemma clause_words_pred n c :
  clause_words n c
  = (match n with O => [] | S _ => [match c_join c with Or => str "or" | And => str "and" end] end)
    ++ (if negb (c_enabled c) then [str "off"] else []) ++ (if c_negate c then [str "not"] else [])
    ++ [pred_word (c_m c)].
Proof. done. Qed.

Lemma take_flags_words (off neg : bool) w rest :
  flag_word w = false →
  take_flags ((if off then [str "off"] else []) ++ (if neg then [str "not"] else []) ++ w :: rest) false false
  = (w :: rest, off, neg).
Proof.
  unfold flag_word. intros [H1 H2]%orb_false_iff. destruct off, neg; cbn [app take_flags];
    repeat first [progress change (text_eqb (lower (str "off")) (str "off")) with true
      |progress change (text_eqb (lower (str "not")) (str "off")) with false
      |progress change (text_eqb (lower (str "not")) (str "not")) with true|progress cbv iota];
    by rewrite H1, H2.
Qed.

Lemma take_join_words n j toks :
  (n = O → j = And) →
  take_join (match n with O => true | S _ => false end)
    ((match n with O => [] | S _ => [match j with Or => str "or" | And => str "and" end] end) ++ toks) And
  = (toks, j).
Proof. intros Hj. destruct n; [rewrite Hj by done; by destruct toks|]. by destruct j. Qed.

(** Reading the words of clauses gives the clauses. *)
Lemma clauses_loop_words fuel acc cs :
  let toks := concat (imap (λ i, clause_words (length acc + i)) cs) in
  (length toks ≤ fuel)%nat → Forall clause_wf cs → forallb clause_bare cs = true →
  (acc = [] → c_join <$> head cs = Some And) →
  clauses_loop fuel toks acc And = acc ++ cs.
Proof.
  revert fuel acc. induction cs as [|c cs IH]; intros fuel acc toks Hf Hwf Hb Hj.
  - subst toks. simpl. rewrite app_nil_r. by destruct fuel.
  - apply Forall_cons in Hwf as [Hc Hwf]. simpl in Hb. apply andb_true_iff in Hb as [Hcb Hb].
    destruct (pred_word_read c Hc Hcb) as (Hw&Hflag&Hread).
    set (rest := concat (imap (λ i, clause_words (length (acc ++ [c]) + i)) cs)).
    assert (Htoks : toks = clause_words (length acc) c ++ rest).
    { subst toks rest. simpl. rewrite Nat.add_0_r. f_equal. f_equal. apply imap_ext.
      intros i x _. simpl. f_equal. rewrite length_app. simpl. lia. }
    clearbody toks. subst toks. rewrite clause_words_pred in *. rewrite !length_app in Hf. simpl in Hf.
    destruct fuel as [|fuel]; [lia|]. rewrite <- !app_assoc.
    change ([pred_word (c_m c)] ++ rest) with (pred_word (c_m c) :: rest).
    set (flags := (if negb (c_enabled c) then [str "off"] else []) ++ (if c_negate c then [str "not"] else [])
      ++ pred_word (c_m c) :: rest).
    set (toks := _ ++ flags).
    assert (Hcons : ∃ x l, toks = x :: l).
    { subst toks flags. destruct (length acc), (c_enabled c), (c_negate c); simpl; eauto. }
    destruct Hcons as (x&l&Hx). cbn [clauses_loop]. rewrite Hx, <- Hx. subst toks.
    assert (Hfirst : (match acc with [] => true | _ => false end)
      = (match length acc with O => true | S _ => false end)) by by destruct acc.
    rewrite Hfirst, take_join_words.
    2:{ intros ->%nil_length_inv. by specialize (Hj eq_refl) as [= ->]. }
    subst flags. rewrite take_flags_words by done. rewrite Hread.
    destruct (m_pattern (c_m c)) as [|y p] eqn:Hp; [by destruct Hc as [[? _] _]|]. cbn [is_empty].
    rewrite negb_involutive.
    assert (Heq : MkClause (c_m c) (if match length acc with O => true | S _ => false end then And else c_join c)
      (c_negate c) (c_enabled c) = c).
    { destruct acc; [specialize (Hj eq_refl) as [= Hj]|]; destruct c; simpl in *; by subst. }
    rewrite Heq. unfold rest. rewrite IH; [by rewrite <- app_assoc| |done..|by destruct acc].
    fold rest. lia.
Qed.

(** ** A rule and its line *)

(** The words of a rule's line *)
Definition line_words (r : FileRule) : list text := concat (imap clause_words (r_clauses r)).

Lemma clause_words_word n c : clause_wf c → clause_bare c = true → Forall word (clause_words n c).
Proof.
  intros Hc Hb. destruct (pred_word_read c Hc Hb) as [Hw _]. rewrite clause_words_pred.
  repeat (apply Forall_app; split); [destruct n, (c_join c)|destruct (c_enabled c)|destruct (c_negate c)|];
    repeat constructor; try done; apply Hw.
Qed.

Lemma line_words_word r :
  Forall clause_wf (r_clauses r) → rule_bare r = true → Forall word (line_words r).
Proof.
  unfold rule_bare, line_words. intros Hwf Hb%Is_true_eq_left%forallb_True. apply Forall_concat, Forall_lookup.
  intros i ws. rewrite list_lookup_imap. intros (c&Hc&->)%fmap_Some. apply clause_words_word.
  - by eapply Forall_lookup_1 in Hwf.
  - eapply Forall_lookup_1 in Hb; [|done]. by apply Is_true_eq_true.
Qed.

Lemma clause_words_nonempty n c : clause_words n c ≠ [].
Proof.
  rewrite clause_words_pred. intros Hn%(f_equal length). rewrite !length_app in Hn. simpl in Hn. lia.
Qed.

Lemma line_words_nonempty r : r_clauses r ≠ [] → line_words r ≠ [].
Proof.
  unfold line_words. destruct (r_clauses r) as [|c cs]; [done|]. cbn [imap concat]. intros _ Hn.
  apply app_eq_nil in Hn as [Hn _]. by apply clause_words_nonempty in Hn.
Qed.

Lemma to_line_words r :
  r_clauses r ≠ [] → to_line r = action_str (r_action r) ++ str " " ++ join (str " ") (line_words r).
Proof.
  intros Hne. unfold to_line, line_words. rewrite <- join_concat.
  - assert (Himap : imap (λ n c, join (str " ") (clause_words n c)) (r_clauses r)
      = join (str " ") <$> imap clause_words (r_clauses r)) by by rewrite fmap_imap.
    rewrite Himap. by destruct (r_clauses r).
  - apply Forall_lookup. intros i ws. rewrite list_lookup_imap. intros (c&_&->)%fmap_Some.
    apply clause_words_nonempty.
Qed.

Lemma rule_parse_verb a rest :
  rest ≠ [] → tight rest →
  rule_parse (action_str a ++ str " " ++ rest)
  = match parse_clauses rest with [] => None | clauses => Some (MkRule a clauses) end.
Proof.
  intros Hne Ht. unfold rule_parse. rewrite tight_trim.
  2:{ apply tight_app; [by destruct a|done| |done]. apply word_tight. by destruct a; apply (bool_decide_unpack _). }
  assert (Hs : split_once (chr " ") (action_str a ++ str " " ++ rest) = Some (action_str a, rest))
    by by destruct a.
  assert (Ha : action_parse (lower (action_str a)) = Some a) by by destruct a.
  rewrite Hs, Ha, tight_trim by done. by destruct a.
Qed.

(** Reading a printed rule *)
Lemma rule_roundtrip_line r :
  rule_wf r → rule_bare r = true → rule_parse (to_line r) = Some r.
Proof.
  intros [Hwf Hj] Hb. assert (Hne : r_clauses r ≠ []) by (by intros Hn; rewrite Hn in Hj).
  pose proof (line_words_word r Hwf Hb) as Hws. rewrite to_line_words by done.
  pose proof (line_words_nonempty r Hne) as Hlw.
  rewrite rule_parse_verb.
  - unfold parse_clauses. rewrite split_join by done.
    assert (Hloop : clauses_loop (length (line_words r)) (line_words r) [] And = r_clauses r)
      by by apply (clauses_loop_words _ []).
    rewrite Hloop. destruct r as [a cs]. simpl in *. by destruct cs.
  - destruct (line_words r) as [|w ws]; [done|]. apply join_nonempty. by apply Forall_inv in Hws as [? _].
  - by apply join_tight.
Qed.

(** ** What reading produces *)

Lemma split_once_app sep s a b : split_once sep s = Some (a, b) → s = a ++ sep :: b.
Proof.
  revert a. induction s as [|c s IH]; intros a; [done|]. cbn [split_once].
  destruct (Z.eqb_spec c sep) as [->|_]; [by intros [= <- <-]|].
  destruct (split_once sep s) as [[a' b']|]; [|done]. intros [= <- ->]. simpl. f_equal. by apply IH.
Qed.

Lemma parse_pred_wf w : word w → m_pattern (parse_pred w) ≠ [] →
  word (m_pattern (parse_pred w)) ∧ known_kind (m_kind (parse_pred w)) = true.
Proof.
  unfold parse_pred. intros [Hne Hw] Hp. destruct (split_once (chr ":") w) as [[k p]|] eqn:Hs; [|done].
  destruct (known_kind (lower k)) eqn:Hk; [|done]. simpl in *. split; [|done]. split; [done|].
  apply split_once_app in Hs as ->. apply Forall_app in Hw as [_ Hw]. by apply Forall_inv_tail in Hw.
Qed.

Lemma take_flags_suffix toks off neg :
  Forall word toks → Forall word (take_flags toks off neg).1.1.
Proof.
  intros Hw. revert off neg. induction Hw as [|w toks Hw Hws IH]; intros off neg; [constructor|].
  cbn [take_flags]. repeat case_match; [apply IH..|]. by constructor.
Qed.

Lemma take_join_suffix first toks j : Forall word toks → Forall word (take_join first toks j).1.
Proof. intros Hw. destruct Hw; simpl; repeat case_match; simpl; auto. Qed.

Lemma clauses_loop_wf fuel toks acc j :
  Forall word toks → Forall clause_wf acc → (acc ≠ [] → c_join <$> head acc = Some And) →
  let cs := clauses_loop fuel toks acc j in
  Forall clause_wf cs ∧ (cs ≠ [] → c_join <$> head cs = Some And).
Proof.
  revert toks acc j. induction fuel as [|fuel IH]; intros toks acc j Ht Ha Hj; [done|].
  cbn [clauses_loop]. destruct toks as [|w0 toks0]; [done|]. set (toks := w0 :: toks0) in *. clearbody toks.
  set (first := match acc with [] => true | _ => false end).
  pose proof (take_join_suffix first toks j Ht) as Ht1. destruct (take_join first toks j) as [toks1 j1]. simpl in Ht1.
  pose proof (take_flags_suffix toks1 false false Ht1) as Ht2.
  destruct (take_flags toks1 false false) as [[toks2 off] neg]. simpl in Ht2.
  destruct toks2 as [|w toks2]; [done|]. apply Forall_cons in Ht2 as [Hw Ht2].
  destruct (is_empty (m_pattern (parse_pred w))) eqn:He; [by apply IH|].
  destruct (parse_pred_wf w Hw) as [Hp Hk]; [by intros Hn; rewrite Hn in He|].
  apply IH; [done| |].
  - apply Forall_app. split; [done|]. repeat constructor; [apply Hp..|done].
  - intros _. subst first. destruct acc; [done|]. by apply Hj.
Qed.

Lemma rule_parse_wf line r : rule_parse line = Some r → rule_wf r.
Proof.
  unfold rule_parse. destruct (_ || _); [done|].
  destruct (match split_once (chr " ") (trim line) with Some p => p | None => _ end) as [verb rest].
  destruct (action_parse (lower verb)) as [a|]; [|done].
  pose proof (clauses_loop_wf (length (split_whitespace (trim rest))) (split_whitespace (trim rest)) [] And
    (split_words _) (Forall_nil_2 _) ltac:(done)) as [Hwf Hj]. fold (parse_clauses (trim rest)) in Hwf, Hj.
  destruct (parse_clauses (trim rest)) as [|c cs]; [done|]. intros [= <-]. split; [done|]. by apply Hj.
Qed.

(** ** Rule files *)

Definition NEWLINE : text := [10].

Lemma lines_loop_cons l cur s :
  10 ∉ l → lines_loop cur (l ++ NEWLINE ++ s) = strip_cr (cur ++ l) :: lines s.
Proof.
  revert cur. induction l as [|c l IH]; intros cur Hl; simpl; [by rewrite app_nil_r|].
  apply not_elem_of_cons in Hl as [Hc Hl]. destruct (Z.eqb_spec c 10); [by subst|].
  change (10 :: s) with (NEWLINE ++ s). by rewrite IH, <- app_assoc.
Qed.

Lemma lines_cons l s : 10 ∉ l → last l ≠ Some 13 → lines (l ++ NEWLINE ++ s) = l :: lines s.
Proof.
  intros Hl Hcr. unfold lines. rewrite lines_loop_cons by done. f_equal. simpl. unfold strip_cr.
  repeat case_match; congruence.
Qed.

Lemma solid_no_newline s : solid s → 10 ∉ s.
Proof. unfold solid. rewrite Forall_forall. intros Hs Hc. by specialize (Hs _ Hc). Qed.

Lemma join_words_no_newline ws : Forall word ws → 10 ∉ join (str " ") ws.
Proof.
  intros Hws. induction Hws as [|w ws [_ Hw] Hws IH]; [simpl; set_solver|]. destruct ws as [|w' ws].
  - by apply solid_no_newline.
  - change (10 ∉ w ++ str " " ++ join (str " ") (w' :: ws)). rewrite !elem_of_app.
    intros [?|[Hsp|?]]; [by eapply solid_no_newline| |done]. revert Hsp. vm_compute. set_solver.
Qed.

Lemma tight_no_cr s : tight s → last s ≠ Some 13.
Proof. intros [_ Hl] Hs. by specialize (Hl _ Hs). Qed.

(** A printed rule in front of a rule file *)
Lemma rules_parse_prepend r prev :
  rule_wf r → rule_bare r = true →
  rules_parse (to_line r ++ NEWLINE ++ prev) = r :: rules_parse prev.
Proof.
  intros Hwf Hb. pose proof (rule_roundtrip_line r Hwf Hb) as Hr. destruct Hwf as [Hwf Hj].
  assert (Hne : r_clauses r ≠ []) by (by intros Hn; rewrite Hn in Hj).
  pose proof (line_words_word r Hwf Hb) as Hws.
  assert (Hall : Forall word (action_str (r_action r) :: line_words r)).
  { constructor; [|done]. by destruct (r_action r); apply (bool_decide_unpack _). }
  assert (Hjoin : to_line r = join (str " ") (action_str (r_action r) :: line_words r)).
  { rewrite to_line_words by done. apply line_words_nonempty in Hne. by destruct (line_words r). }
  unfold rules_parse. rewrite lines_cons; [unfold omap; cbn [list_omap]; by rewrite Hr| |]; rewrite Hjoin;
    [by apply join_words_no_newline|by apply tight_no_cr, join_tight].
Qed.

(** What a rule file with one printed rule per line holds *)
Definition rules_text (rules : list FileRule) : text := concat ((λ r, to_line r ++ NEWLINE) <$> rules).

Lemma rules_text_parse rules :
  Forall rule_wf rules → forallb rule_bare rules = true → rules_parse (rules_text rules) = rules.
Proof.
  intros Hwf. induction Hwf as [|r rules Hr Hrs IH]; [done|].
  intros [Hb Hbs]%andb_true_iff. unfold rules_text. cbn [fmap list_fmap concat]. rewrite <- app_assoc.
  rewrite rules_parse_prepend by done. f_equal. by apply IH.
Qed.

Lemma rules_parse_wf s : Forall rule_wf (rules_parse s).
Proof.
  unfold rules_parse. induction (lines s) as [|l ls IH]; [constructor|]. cbn.
  destruct (rule_parse l) eqn:Hr; [|done]. constructor; [by eapply rule_parse_wf|done].
Qed.

(** ** Which facts a decision uses *)

Lemma eval_loop_ext {S T} `{Target S, Target T} (s : S) (t : T) acc cs :
  Forall (λ c, match_one s (c_m c) = match_one t (c_m c)) cs → eval_loop s acc cs = eval_loop t acc cs.
Proof.
  intros Hcs. revert acc. induction Hcs as [|c cs Hc _ IH]; intros acc; [done|].
  cbn [eval_loop]. destruct (negb (c_enabled c)); [done|]. by rewrite Hc, IH.
Qed.

Lemma find_ext {A} (f g : A → bool) l : Forall (λ x, f x = g x) l → List.find f l = List.find g l.
Proof. intros Hl. induction Hl as [|x l Hx _ IH]; [done|]. simpl. by rewrite Hx, IH. Qed.

Lemma path_only_matches r rel s s' ids :
  path_only r = true → rule_matches r (MkPathTarget rel s ids) = rule_matches r (MkPathTarget rel s' ids).
Proof.
  unfold path_only, rule_matches, eval_clauses. intros Hp%Is_true_eq_left%forallb_True.
  apply eval_loop_ext. eapply Forall_impl; [exact Hp|]. intros c Hc%Is_true_eq_true.
  unfold match_one, path_target. by rewrite Hc.
Qed.

(** Two subjects that agree on what the rules test *)
Definition agree (rules : list FileRule) (s s' : Subject) : Prop :=
  (needs_box rules = true → box_name s = box_name s') ∧
  (needs_proc rules = true → exe s = exe s' ∧ cwd s = cwd s' ∧ argv s = argv s').

Lemma agree_clause rules s s' r c :
  agree rules s s' → r ∈ rules → c ∈ r_clauses r → subject_match s (c_m c) = subject_match s' (c_m c).
Proof.
  intros [Hbox Hproc] Hr Hc.
  assert (Hb : kind_is (c_m c) "box" = true → needs_box rules = true).
  { intros Hk. apply existsb_exists. exists r. rewrite <- list_elem_of_In. split; [done|].
    apply existsb_exists. exists c. by rewrite <- list_elem_of_In. }
  assert (Hp : kind_is (c_m c) "exe" || kind_is (c_m c) "cwd" || kind_is (c_m c) "arg" = true →
    needs_proc rules = true).
  { intros Hk. apply existsb_exists. exists r. rewrite <- list_elem_of_In. split; [done|].
    apply existsb_exists. exists c. by rewrite <- list_elem_of_In. }
  unfold subject_match. destruct (kind_is (c_m c) "box"); [by rewrite Hbox by auto|].
  destruct (kind_is (c_m c) "exe"); [by destruct Hproc as (->&_); [auto|]|].
  destruct (kind_is (c_m c) "cwd"); [by destruct Hproc as (_&->&_); [auto|]|].
  destruct (kind_is (c_m c) "arg"); [by destruct Hproc as (_&_&->); [auto|]|done].
Qed.

Lemma decide_agree rules rel s s' : agree rules s s' → decide_rule rules rel s = decide_rule rules rel s'.
Proof.
  intros Ha. unfold decide_rule. f_equal. apply find_ext, Forall_forall. intros r Hr.
  apply eval_loop_ext, Forall_forall. intros c Hc. unfold match_one, path_target. simpl.
  by rewrite (agree_clause rules s s' r c).
Qed.

(** ** Bare patterns *)

(** A path pattern without a leading slash, at any depth *)
Lemma deep_tokens alt : pattern_tokens (str "**/" ++ alt) = Deep true :: pattern_tokens alt.
Proof.
  change (Deep true :: tokens (length (str "**/" ++ alt)) true alt = Deep true :: pattern_tokens alt).
  f_equal. apply tokens_pattern. rewrite length_app. simpl. lia.
Qed.

Lemma deep_lang l t :
  then_lang (tok_lang (Deep true)) l t ↔ l t ∨ ∃ u v, t = u ++ SLASH :: v ∧ l v.
Proof.
  split.
  - intros (u&v&->&[->|Hu]&Hv); [by left|]. apply last_Some in Hu as [u' ->]. right.
    exists u', v. by rewrite <- app_assoc.
  - intros [Ht|(u&v&->&Hv)]; [exists [], t; split; [done|]; split; [by left|done]|].
    exists (u ++ [SLASH]), v. rewrite <- app_assoc. split; [done|]. split; [|done]. right. apply last_snoc.
Qed.

Lemma globmatch_deep p t :
  globmatch (str "**/" ++ p) t = true ↔
  globmatch p t = true ∨ ∃ u v, t = u ++ SLASH :: v ∧ globmatch p v = true.
Proof.
  assert (Hlang : ∀ p t, globmatch p t = true ↔ ∃ alt, alt ∈ expand_braces p ∧ toks_lang (pattern_tokens alt) t).
  { clear. intros p t. unfold globmatch. rewrite existsb_exists. setoid_rewrite <- list_elem_of_In.
    by setoid_rewrite match_pattern_lang. }
  rewrite !Hlang. setoid_rewrite Hlang. rewrite expand_braces_plain by (by apply (bool_decide_unpack _); vm_compute).
  split.
  - intros (?&(alt&->&Halt)%list_elem_of_fmap&Ht). rewrite deep_tokens in Ht. apply deep_lang in Ht as [?|(u&v&?&?)]; eauto 10.
  - intros [(alt&Halt&Ht)|(u&v&Hu&alt&Halt&Ht)]; exists (str "**/" ++ alt);
      (split; [apply list_elem_of_fmap; eauto|]); rewrite deep_tokens; apply deep_lang; eauto.
Qed.

(** Characters that stand for themselves in a command pattern *)
Definition plain_char (c : char) : Prop :=
  c ∉ [STAR; QUERY; LBRACK; LBRACE; BACKSLASH; LPAREN].

Lemma plain_tests c :
  plain_char c → (c =? STAR) = false ∧ (c =? QUERY) = false ∧ (c =? LBRACK) = false ∧
    (c =? LBRACE) = false ∧ (c =? BACKSLASH) = false ∧ (c =? LPAREN) = false.
Proof. unfold plain_char. rewrite !not_elem_of_cons. intros H. split_and!; apply Z.eqb_neq; tauto. Qed.

Lemma expand_braces_none q : BACKSLASH ∉ q → LBRACE ∉ q → expand_braces q = [q].
Proof.
  intros Hb Hl. rewrite expand_braces_unfold. assert (Hf : ∀ pre, find_group pre q = None); [|by rewrite Hf].
  induction q as [|c q IH]; intros pre; [done|]. apply not_elem_of_cons in Hb as [Hb ?], Hl as [Hl ?].
  cbn [find_group]. rewrite (proj2 (Z.eqb_neq c BACKSLASH)), (proj2 (Z.eqb_neq c LBRACE)) by congruence.
  by apply IH.
Qed.

Lemma ext_group_plain c p : Forall (λ d, (d =? LPAREN) = false) (take 1 p) → ext_group (c :: p) = None.
Proof.
  destruct p as [|d p]; [done|]. intros Hd. apply Forall_inv in Hd. cbn in Hd. simpl. by rewrite Hd, andb_false_r.
Qed.

Lemma globstar_plain before c p : (c =? STAR) = false → globstar before (c :: p) = None.
Proof. intros Hc. destruct p; simpl; [done|]. by rewrite Hc. Qed.

(** The tokens of plain text, and of what follows it *)
Lemma plain_tokens fuel before q rest :
  Forall plain_char q → Forall (λ d, (d =? LPAREN) = false) (take 1 rest) →
  (length q + length rest < fuel)%nat →
  ∃ before', tokens fuel before (q ++ rest) = (Lit <$> q) ++ tokens (fuel - length q) before' rest.
Proof.
  intros Hq Hrest. revert fuel before. induction Hq as [|c q Hc Hq IH]; intros fuel before Hf; simpl in Hf.
  - exists before. simpl. by rewrite Nat.sub_0_r.
  - destruct fuel as [|fuel]; [lia|].
    destruct (plain_tests c Hc) as (Hs&Hqu&Hb&_&Hbs&_). destruct (IH fuel (c =? SLASH)) as [before' Ht]; [lia|].
    exists before'. cbn [app tokens]. rewrite globstar_plain, ext_group_plain, Hs, Hqu, Hb, Hbs by
      first [done|destruct Hq as [|d q Hd]; [done|]; repeat constructor; by apply plain_tests].
    simpl. by rewrite Ht.
Qed.

Lemma tokens_nil fuel before : tokens fuel before [] = [].
Proof. by destruct fuel. Qed.

Lemma literal_tokens q : Forall plain_char q → pattern_tokens q = Lit <$> q.
Proof.
  intros Hq. destruct (plain_tokens (S (length q)) true q [] Hq) as [b Ht]; [constructor|simpl; lia|].
  rewrite app_nil_r, tokens_nil, app_nil_r in Ht. done.
Qed.

Lemma bare_tokens q : q ≠ [] → Forall plain_char q →
  pattern_tokens ([STAR] ++ q ++ [STAR]) = Run :: (Lit <$> q) ++ [Run].
Proof.
  intros Hne Hq. unfold pattern_tokens. cbn [app tokens].
  assert (Hd : ∃ d q', q = d :: q' ∧ (d =? STAR) = false ∧ (d =? LPAREN) = false).
  { destruct Hq as [|d q Hd]; [done|]. exists d, q. split; [done|]. by split; apply plain_tests. }
  assert (Hg : globstar true (STAR :: q ++ [STAR]) = None).
  { destruct Hd as (d&q'&->&Hd&_). simpl. by rewrite Hd. }
  rewrite Hg, ext_group_plain.
  - change (STAR =? STAR) with true. cbv iota. f_equal. cbn [length]. rewrite length_app. cbn [length].
    destruct (plain_tokens (S (length q + 1)) false q [STAR] Hq) as [b Ht]; [by repeat constructor|simpl; lia|].
    cbn [length Nat.add] in *. rewrite Ht. f_equal.
    replace (S (length q + 1) - length q)%nat with 2%nat by lia. by destruct b.
  - destruct Hd as (d&q'&->&_&Hd). by repeat constructor.
Qed.

Lemma lits_lang q l t : toks_lang ((Lit <$> q) ++ l) t ↔ ∃ v, t = q ++ v ∧ toks_lang l v.
Proof.
  revert t. induction q as [|c q IH]; intros t; cbn [fmap list_fmap app toks_lang]; [naive_solver|].
  rewrite then_lit. setoid_rewrite IH. naive_solver.
Qed.

Lemma plain_no_braces q : Forall plain_char q → (BACKSLASH ∉ q) ∧ LBRACE ∉ q.
Proof.
  unfold plain_char. rewrite Forall_forall. intros Hq. split; intros ?%Hq; set_solver.
Qed.

Lemma literal_lang q t : Forall plain_char q → (globmatch q t = true ↔ t = q).
Proof.
  intros Hq. destruct (plain_no_braces q Hq). unfold globmatch. rewrite expand_braces_none by done.
  cbn [existsb]. rewrite orb_false_r, match_pattern_lang, literal_tokens by done.
  rewrite <- (app_nil_r (Lit <$> q)), lits_lang. simpl. split; [intros (v&->&->)|intros ->; exists []];
    by rewrite app_nil_r.
Qed.

Lemma bare_lang q t : q ≠ [] → Forall plain_char q → SLASH ∉ t →
  globmatch ([STAR] ++ q ++ [STAR]) t = true ↔ ∃ u v, t = u ++ q ++ v.
Proof.
  intros Hne Hq Ht. unfold globmatch. rewrite expand_braces_none.
  - cbn [existsb]. rewrite orb_false_r, match_pattern_lang, bare_tokens by done. cbn [toks_lang]. split.
    + intros (u&w&->&_&(v&->&_)%lits_lang). by exists u, v.
    + intros (u&v&->). rewrite !not_elem_of_app in Ht. destruct Ht as (?&?&?). exists u, (q ++ v).
      split; [done|]. split; [done|]. apply lits_lang. exists v. split; [done|]. exists v, [].
      by rewrite app_nil_r.
  - rewrite !not_elem_of_app, !not_elem_of_cons. destruct (plain_no_braces q Hq).
    split_and!; by try apply not_elem_of_nil.
  - rewrite !not_elem_of_app, !not_elem_of_cons. destruct (plain_no_braces q Hq).
    split_and!; by try apply not_elem_of_nil.
Qed.

Lemma replace_slash_inj l k :
  SENTINEL ∉ l → SENTINEL ∉ k → replace_slash l = replace_slash k → l = k.
Proof.
  revert k. induction l as [|c l IH]; intros [|d k] Hl Hk; try done. cbn. intros [= Hcd Heq].
  apply not_elem_of_cons in Hl as [Hc ?], Hk as [Hd ?]. f_equal; [|by apply IH].
  destruct (Z.eqb_spec c SLASH), (Z.eqb_spec d SLASH); congruence.
Qed.

Lemma replace_slash_no_slash l : SLASH ∉ replace_slash l.
Proof. intros (c&Hc&_)%list_elem_of_fmap. by destruct (Z.eqb_spec c SLASH). Qed.

Lemma contains_spec c s : contains c s = true ↔ c ∈ s.
Proof.
  unfold contains. rewrite existsb_exists. setoid_rewrite <- list_elem_of_In. setoid_rewrite Z.eqb_eq.
  split; [by intros (x&?&->)|eauto].
Qed.

Lemma plain_wrap p : p ≠ [] → Forall plain_char p → tight p →
  wrap_bare_as_substring p = [STAR] ++ p ++ [STAR].
Proof.
  intros Hne Hp Ht. unfold wrap_bare_as_substring. rewrite tight_trim by done.
  assert (Hm : has_glob_meta p = false); [|by rewrite Hm; destruct p].
  unfold plain_char in Hp. rewrite Forall_forall in Hp. unfold has_glob_meta.
  apply not_true_iff_false. rewrite !orb_true_iff, !contains_spec.
  intros [[[?|?]|?]|?]; by (eapply Hp; [done|]; set_solver).
Qed.

(** ** Claims *)

(** C19. Printing the rules read from a file and reading them again gives the
    same rules, whatever the file's spelling was, as long as every path pattern
    reads as a path when it stands without its [path:]. *)
Theorem rules_reparse (s : text) :
  forallb rule_bare (rules_parse s) = true →
  rules_parse (rules_text (rules_parse s)) = rules_parse s.
Proof. intros Hb. apply rules_text_parse; [apply rules_parse_wf|done]. Qed.

Lemma rules_reparse_witness :
  let s := str "# comment
  Discard  *.log AND off not path:/tmp/** or BOX:ci-*
nonsense
apply host:a.example" in
  length (rules_parse s) = 2%nat ∧
  rules_parse (rules_text (rules_parse s)) = rules_parse s.
Proof. intros s. split; [by vm_compute|]. apply (rules_reparse s). by vm_compute. Defined.

(** The printed line drops [path:], and the pattern may then read as another
    predicate. *)
Lemma path_prefix_lost :
  ∃ r, rule_parse (str "discard path:box:x") = Some r ∧ to_line r = str "discard box:x" ∧
    (m_kind ∘ c_m <$> r_clauses r) = [str "path"] ∧
    (λ r', m_kind ∘ c_m <$> r_clauses r') <$> rule_parse (to_line r) = Some [str "box"].
Proof. eexists. split; [by vm_compute|]. by vm_compute. Qed.

(** The gate of read passthrough is the decision of the rules that test
    paths only, for every box and every process: a rule that tests anything
    else neither opens the gate nor shadows one that does. *)
Theorem passthrough_gate (rules : list FileRule) (rel : text) (subject : Subject) :
  passthrough_path_only rules rel
  = bool_decide (decide_rule (List.filter path_only rules) rel subject = Some Passthrough).
Proof.
  unfold passthrough_path_only, decide_rule. induction rules as [|r rules IH]; [done|].
  cbn [passthrough_loop List.filter]. destruct (path_only r) eqn:Hp; [|done].
  cbn [List.find negb]. rewrite (path_only_matches r rel subject_default subject []) by done.
  destruct (rule_matches r _); [|done]. cbn. by destruct (r_action r).
Qed.

(** A path pattern without a leading slash matches at any depth: the path,
    or what follows one of its slashes, matches the pattern. *)
Theorem path_match_relative (pat rel : text) :
  tight pat → pat ≠ [] → starts_with SLASH pat = false →
  path_match pat rel = true ↔
  let path := SLASH :: trim_slashes rel in
  globmatch pat path = true ∨ ∃ u v, path = u ++ SLASH :: v ∧ globmatch pat v = true.
Proof.
  intros Ht Hne Hs. unfold path_match. rewrite tight_trim by done. destruct pat as [|c pat]; [done|].
  cbn [is_empty]. rewrite Hs, orb_true_r. apply globmatch_deep.
Qed.

Lemma path_match_relative_witness : path_match (str "src/*.rs") (str "/a/b/src/x.rs") = true.
Proof.
  apply (path_match_relative (str "src/*.rs") (str "/a/b/src/x.rs")).
  - split; intros c; vm_compute; by intros [= <-].
  - done.
  - done.
  - right. exists (str "/a/b"), (str "src/x.rs"). split; by vm_compute.
Defined.

(** A command pattern without special characters is a substring search,
    across slashes and anything else. *)
Theorem cmd_match_bare (pat s : text) :
  tight pat → pat ≠ [] → Forall plain_char pat → SENTINEL ∉ pat → SENTINEL ∉ s →
  cmd_match pat s = true ↔ ∃ u v, s = u ++ pat ++ v.
Proof.
  intros Ht Hne Hp Hns Hs. unfold cmd_match. rewrite tight_trim by done.
  assert (He : is_empty pat = false) by by destruct pat. rewrite He, plain_wrap by done.
  unfold textmatch. assert (Hr : replace_slash ([STAR] ++ pat ++ [STAR]) = [STAR] ++ replace_slash pat ++ [STAR]).
  { unfold replace_slash. by rewrite !fmap_app. }
  rewrite Hr, bare_lang; [| | |apply replace_slash_no_slash].
  - split.
    + intros (u&v&Heq). unfold replace_slash in Heq.
      apply fmap_app_inv in Heq as (u'&w&->&Hw&->). symmetry in Hw.
      apply fmap_app_inv in Hw as (p'&v'&Hp'&_&->). rewrite !not_elem_of_app in Hs.
      exists u', v'. do 2 f_equal. symmetry. by apply replace_slash_inj; [|tauto|].
    + intros (u&v&->). exists (replace_slash u), (replace_slash v). unfold replace_slash.
      by rewrite !fmap_app.
  - by destruct pat.
  - apply Forall_fmap. eapply Forall_impl; [exact Hp|]. intros c Hc. simpl.
    destruct (Z.eqb_spec c SLASH); [|done]. by apply (bool_decide_unpack _).
Qed.

Lemma cmd_match_bare_witness : cmd_match (str "/usr/bin") (str "export PATH=/usr/bin:x") = true.
Proof.
  apply (cmd_match_bare (str "/usr/bin") (str "export PATH=/usr/bin:x")).
  - split; intros c; vm_compute; by intros [= <-].
  - done.
  - by apply (bool_decide_unpack _); vm_compute.
  - by apply (bool_decide_unpack _); vm_compute.
  - by apply (bool_decide_unpack _); vm_compute.
  - by exists (str "export PATH="), (str ":x").
Defined.

(** Bare text that starts with a parenthesis becomes a repeated group: the
    search finds every command. *)
Lemma cmd_match_parenthesis :
  has_glob_meta (str "(cd /tmp)") = false ∧ cmd_match (str "(cd /tmp)") (str "ls") = true.
Proof. by vm_compute. Qed.
