(* ===== verification/RuleGates.v ===== *)
(** * Where rules decide.

    The overlay's routing of writes ([engine/src/overlay.rs]: [is_passthrough],
    [is_passthrough_read], [writer_subject]), the gate of a box's connections
    ([engine/src/net/policy.rs]) and the part of [handle_conn] and
    [prepend_rule_line] ([engine/src/net/dispatch.rs]) that asks, decides and
    saves an answer as a rule. *)

From stdpp Require Import strings gmap pretty.
From S2P Require Import Prelude.
From S2P Require Import Glob.
From S2P Require Import GlobSpec.
From S2P Require Import Rules.
From S2P Require Import RulesLaws.
Open Scope Z_scope.

(** ** Writes *)
Module Routing.
Section routing.
(** [discover::display_path] of a box, and [proc_facets]: what [/proc] says of
    a process. *)
Context (display_path : Z → text) (proc_facets : Z → text * text * list text).

Definition writer_subject (bid pid : Z) (want_box want_proc : bool) : Subject :=
  let s := subject_default in
  let s := if want_box then MkSubject (display_path bid) (exe s) (cwd s) (argv s) else s in
  if want_proc then
    let '(e, c, a) := proc_facets pid in MkSubject (box_name s) e c a
  else s.

Definition is_passthrough (rules : list FileRule) (rel : text) (bid pid : Z) : bool :=
  if negb (needs_box rules) && negb (needs_proc rules)
  then bool_decide (decide_rule rules rel subject_default = Some Passthrough)
  else
    let subject := writer_subject bid pid (needs_box rules) (needs_proc rules) in
    bool_decide (decide_rule rules rel subject = Some Passthrough).

Definition is_passthrough_read (rules : list FileRule) (rel : text) : bool :=
  passthrough_path_only rules rel.

Lemma writer_subject_agree rules bid pid :
  agree rules (writer_subject bid pid (needs_box rules) (needs_proc rules))
    (writer_subject bid pid true true).
Proof.
  unfold agree, writer_subject. destruct (needs_box rules), (needs_proc rules), (proc_facets pid) as [[??]?];
    by split.
Qed.
End routing.

(** A write is routed by the decision of the whole grammar on the writer's
    box and process, although facts that no rule tests are not looked up. *)
Theorem is_passthrough_full (display_path : Z → text) (proc_facets : Z → text * text * list text)
    (rules : list FileRule) (rel : text) (bid pid : Z) :
  is_passthrough display_path proc_facets rules rel bid pid
  = bool_decide (decide_rule rules rel (writer_subject display_path proc_facets bid pid true true)
                 = Some Passthrough).
Proof.
  unfold is_passthrough. rewrite (decide_agree rules rel _ _ (writer_subject_agree _ _ rules bid pid)).
  destruct (negb (needs_box rules) && negb (needs_proc rules)) eqn:Hn; [|done].
  apply andb_true_iff in Hn as [Hb Hp]. f_equal. apply bool_decide_ext.
  rewrite (decide_agree rules rel _ (writer_subject display_path proc_facets bid pid true true)); [done|].
  split; [by destruct (needs_box rules)|by destruct (needs_proc rules)].
Qed.
End Routing.

(** ** Connections *)
Module Net.

Record NetSubject : Type := MkNet {
  host : text; port : Z; scheme : text; sni : text; http_path : text; http_method : text;
  http_status : text; proto : text; n_box : text; n_exe : text; n_cwd : text; n_arg : text }.

(** [u16::to_string] *)
Definition port_string (p : Z) : text := str (pretty (Z.to_N p)).

Definition field (kind : text) (s : NetSubject) (port_str : text) : text :=
  if text_eqb kind (str "host") then host s
  else if text_eqb kind (str "port") then port_str
  else if text_eqb kind (str "scheme") then scheme s
  else if text_eqb kind (str "sni") then sni s
  else if text_eqb kind (str "http_path") then http_path s
  else if text_eqb kind (str "http_method") then http_method s
  else if text_eqb kind (str "http_status") then http_status s
  else if text_eqb kind (str "proto") then proto s
  else if text_eqb kind (str "box") then n_box s
  else if text_eqb kind (str "exe") then n_exe s
  else if text_eqb kind (str "cwd") then n_cwd s
  else if text_eqb kind (str "arg") then n_arg s
  else [].

(** [matches]: the loop with [acc] and [started] *)
Fixpoint matches_loop (subj : NetSubject) (port_str : text) (acc started : bool) (cs : list Clause) : bool :=
  match cs with
  | [] => started && acc
  | c :: cs =>
      if negb (c_enabled c) then matches_loop subj port_str acc started cs
      else
        let v := glob_match (m_pattern (c_m c)) (field (m_kind (c_m c)) subj port_str) in
        let v := if c_negate c then negb v else v in
        let acc := if negb started then v
                   else match c_join c with And => acc && v | Or => acc || v end in
        matches_loop subj port_str acc true cs
  end.
Definition matches (rule : FileRule) (subj : NetSubject) : bool :=
  matches_loop subj (port_string (port subj)) true false (r_clauses rule).

(** [policy::decide] *)
Fixpoint decide_net (rules : list FileRule) (subj : NetSubject) : Action :=
  match rules with
  | [] => Apply
  | r :: rules =>
      if matches r subj then
        match r_action r with Apply => Apply | Discard => Discard | Passthrough => Apply | Ask => Ask end
      else decide_net rules subj
  end.

(** [Verdict] *)
Inductive Verdict : Type := YesOnce | NoOnce | AllowSave | DenySave.
#[export] Instance Verdict_eq_dec : EqDecision Verdict.
Proof. solve_decision. Defined.
Definition is_allow (v : Verdict) : bool := match v with YesOnce | AllowSave => true | _ => false end.
Definition is_persistent (v : Verdict) : bool := match v with AllowSave | DenySave => true | _ => false end.

(** The rule file: absent, not text, or text.  [read_to_string] with
    [unwrap_or_default]. *)
Inductive RuleFile : Type := Missing | Unreadable (bytes : list Z) | Contents (t : text).
Definition read_or_default (f : RuleFile) : text :=
  match f with Contents t => t | Missing | Unreadable _ => [] end.

(** [prepend_rule_line]; [written] is whether every call up to the rename
    succeeded. *)
Definition prepend_rule_line (written : bool) (f : RuleFile) (line : text) : RuleFile :=
  if written then Contents (line ++ read_or_default f) else f.

(** [Rules::load] *)
Definition rules_load (f : RuleFile) : list FileRule := rules_parse (read_or_default f).

(** The gate of [handle_conn]: whether the connection may go on, and the rule
    file after it.  [ask] is what the prompt answers. *)
Definition scheme_of (port : Z) : text :=
  if port =? 443 then str "https" else if port =? 80 then str "http" else str "tcp".
Definition conn_subject (box h : text) (port : Z) : NetSubject :=
  MkNet h port (scheme_of port) [] [] [] [] (str "tcp") box [] [] [].
Definition conn_gate (ask : text → text → Z → text → Verdict) (written : bool) (f : RuleFile)
    (box h : text) (port : Z) : bool * RuleFile :=
  match decide_net (rules_load f) (conn_subject box h port) with
  | Apply => (true, f)
  | Discard => (false, f)
  | Passthrough => (true, f)
  | Ask =>
      let v := ask box h port (scheme_of port) in
      let f :=
        if is_persistent v then
          let act := if bool_decide (v = AllowSave) then str "apply" else str "discard" in
          prepend_rule_line written f (act ++ str " host:" ++ h ++ NEWLINE)
        else f in
      (is_allow v, f)
  end.

(** ** Helper facts *)

(** A connection as a target of the clause evaluator *)
#[export] Instance net_target : Target NetSubject := λ subj m,
  glob_match (m_pattern m) (field (m_kind m) subj (port_string (port subj))).

Lemma matches_loop_started subj cs acc :
  matches_loop subj (port_string (port subj)) acc true cs = eval_loop subj (Some acc) cs.
Proof.
  revert acc. induction cs as [|c cs IH]; intros acc; [done|]. cbn [matches_loop eval_loop].
  destruct (negb (c_enabled c)); [done|]. by rewrite IH.
Qed.

Lemma matches_loop_fresh subj cs acc :
  matches_loop subj (port_string (port subj)) acc false cs = eval_loop subj None cs.
Proof.
  revert acc. induction cs as [|c cs IH]; intros acc; [done|]. cbn [matches_loop eval_loop].
  destruct (negb (c_enabled c)); [done|]. by rewrite matches_loop_started.
Qed.

(** The rule a saved answer stands for *)
Definition host_rule (a : Action) (h : text) : FileRule :=
  MkRule a [MkClause (MkMatch (str "host") h) And false true].

Lemma host_rule_wf a h : word h → rule_wf (host_rule a h).
Proof. intros [? ?]. by repeat constructor. Qed.

Lemma host_rule_line a h : to_line (host_rule a h) = action_str a ++ str " host:" ++ h.
Proof. by destruct a. Qed.

Lemma host_rule_matches a h box p : word h → Forall plain_char h →
  matches (host_rule a h) (conn_subject box h p) = true.
Proof.
  intros Hw Hp. unfold matches. cbn [host_rule r_clauses matches_loop c_enabled negb c_negate c_m andb].
  change (field _ _ _) with h. unfold glob_match. cbn [m_pattern]. rewrite tight_trim by by apply word_tight.
  assert (He : is_empty h = false) by (by destruct Hw, h). rewrite He. by apply literal_lang.
Qed.

(** ** Claims *)

(** The connection gate evaluates clauses as the file rules do: its own loop
    is [eval_clauses] over the connection's fields, and the first rule that
    matches decides, everything being allowed without one. *)
Theorem decide_net_first (rules : list FileRule) (subj : NetSubject) :
  decide_net rules subj
  = match List.find (λ r, rule_matches r subj) rules with
    | Some r => match r_action r with Passthrough => Apply | a => a end
    | None => Apply
    end.
Proof.
  induction rules as [|r rules IH]; [done|]. cbn [decide_net List.find].
  assert (Hm : matches r subj = rule_matches r subj) by apply matches_loop_fresh.
  rewrite <- Hm. destruct (matches r subj); [by destruct (r_action r)|done].
Qed.

(** An answer that was saved decides the next connection to the host by
    itself, as it was answered: whatever the other rules, the box, the port and
    what a further prompt would say, and the file is left alone. *)
Theorem saved_answer_decides (ask ask' : text → text → Z → text → Verdict) (written' : bool) (f f' : RuleFile)
    (box box' h : text) (p p' : Z) (allowed : bool) :
  word h → Forall plain_char h →
  decide_net (rules_load f) (conn_subject box h p) = Ask →
  is_persistent (ask box h p (scheme_of p)) = true →
  conn_gate ask true f box h p = (allowed, f') →
  rules_load f' = host_rule (if allowed then Apply else Discard) h :: rules_load f ∧
  conn_gate ask' written' f' box' h p' = (allowed, f').
Proof.
  intros Hw Hp Hask Hper. unfold conn_gate at 1. rewrite Hask. cbv zeta. rewrite Hper.
  set (v := ask box h p (scheme_of p)) in *. intros Hg.
  assert (allowed = is_allow v) as -> by congruence. set (act := if is_allow v then Apply else Discard).
  assert (Hact : (if bool_decide (v = AllowSave) then str "apply" else str "discard") = action_str act)
    by by subst act; destruct v.
  rewrite Hact in Hg. apply (f_equal snd) in Hg. cbn [snd prepend_rule_line] in Hg. subst f'.
  assert (Hload : rules_load (Contents ((action_str act ++ str " host:" ++ h ++ NEWLINE) ++ read_or_default f))
    = host_rule act h :: rules_load f).
  { unfold rules_load. cbn [read_or_default]. rewrite <- rules_parse_prepend by first [by apply host_rule_wf|done].
    f_equal. rewrite host_rule_line. by rewrite <- !app_assoc. }
  split; [done|]. unfold conn_gate.
  rewrite Hload. cbn [decide_net]. rewrite host_rule_matches by done.
  subst act. by destruct v.
Qed.

Lemma saved_answer_decides_witness :
  let f := Contents (str "ask host:*") in
  let ask := λ _ _ _ _, DenySave in
  let f' := Contents (str "discard host:a.example" ++ NEWLINE ++ str "ask host:*") in
  conn_gate ask true f (str "box") (str "a.example") 443 = (false, f') ∧
  conn_gate (λ _ _ _ _, YesOnce) true f' (str "other") (str "a.example") 80 = (false, f').
Proof.
  intros f ask f'. split; [by vm_compute|].
  apply (saved_answer_decides ask (λ _ _ _ _, YesOnce) true f f' (str "box") (str "other") (str "a.example") 443 80 false).
  - by apply (bool_decide_unpack _); vm_compute.
  - by apply (bool_decide_unpack _); vm_compute.
  - by vm_compute.
  - done.
  - by vm_compute.
Defined.

(** A rule file that is not UTF-8 is read as empty, and saving an answer
    replaces it. *)
Lemma unreadable_rules_replaced bytes line :
  prepend_rule_line true (Unreadable bytes) line = Contents line.
Proof. simpl. by rewrite app_nil_r. Qed.


(** A rule about paths is not inert for connections: its empty field matches a
    star, and any negated pattern. *)
Lemma path_rules_decide_connections :
  (λ line, (λ r, decide_net [r] (conn_subject [] (str "a.example") 443)) <$> rule_parse (str line)) <$>
    ["discard **"%string; "discard not *.log"%string; "discard *.log"%string]
  = [Some Discard; Some Discard; Some Apply].
Proof. by vm_compute. Qed.
End Net.
