(* ===== verification/NetPrompt.v ===== *)
(** * The approval queue.

    Models [engine/src/net/prompt.rs]: connections that must be asked about
    queue up, the user interface answers the one at the head.  Connection tasks,
    the interface and the clock interleave: an operation of the source is cut
    at its atomics and locks, one label per piece. *)

From stdpp Require Import gmap.
From S2P Require Import Prelude.
From S2P Require Import Glob.
From S2P Require Import RuleGates.
Import Net.
Open Scope Z_scope.

(** ** State *)

Record AskReq : Type := MkAsk { ask_id : Z; a_box : text; a_host : text; a_port : Z; a_scheme : text }.

(** A pending prompt; its [oneshot::Sender] is the asking task's. *)
Record Pending : Type := MkPending { p_ask : AskReq; p_tx : nat; p_deadline : Z }.

(** A oneshot channel: nothing sent yet, a value, or its sender dropped *)
Inductive Chan : Type := Sent (v : Verdict) | Dropped.

(** Where a task is in [ask] *)
Inductive Task : Type :=
| Passed (box host : text) (port : Z) (scheme : text)
| Numbered (k : AskReq)
| Queued (id : Z)
| Waiting (id : Z) (timer : Z)
| Returned (id : option Z) (v : Verdict).

(** The queue with its tasks.  [drains] counts the calls of [mark_ui_active]
    that have cleared the flag and not taken the lock yet; [answered] records
    what [answer] delivered. *)
Record State : Type := MkState {
  ui_active : bool; next_id : Z; queue : list Pending; drains : nat;
  channels : gmap nat Chan; tasks : gmap nat Task; now : Z; answered : list (Z * Verdict) }.

Definition TIMEOUT : Z := 60.
Definition u64 (z : Z) : Z := z mod 2 ^ 64.
Definition PromptQueue_new : State := MkState false 0 [] 0 ∅ ∅ 0 [].

Definition set_task (a : nat) (t : Task) (s : State) : State :=
  MkState (ui_active s) (next_id s) (queue s) (drains s) (channels s) (<[a := t]> (tasks s)) (now s) (answered s).
Definition set_queue (q : list Pending) (s : State) : State :=
  MkState (ui_active s) (next_id s) q (drains s) (channels s) (tasks s) (now s) (answered s).

(** [oneshot::Sender::send], without effect once the receiver is gone *)
Definition receiver_gone (s : State) (a : nat) : bool :=
  match tasks s !! a with Some (Returned _ _) => true | _ => false end.
Definition put_chan (c : Chan) (a : nat) (s : State) : State :=
  if receiver_gone s a then s
  else MkState (ui_active s) (next_id s) (queue s) (drains s) (<[a := c]> (channels s)) (tasks s) (now s) (answered s).
Definition send (v : Verdict) (a : nat) (s : State) : State := put_chan (Sent v) a s.

(** ** [ask] *)

(** The flag is loaded. *)
Definition ask_check (a : nat) (box host : text) (port : Z) (scheme : text) (s : State) : State :=
  match tasks s !! a with
  | Some _ => s
  | None => set_task a (if negb (ui_active s) then Returned None NoOnce else Passed box host port scheme) s
  end.

(** [fetch_add] gives the prompt its number. *)
Definition ask_number (a : nat) (box host : text) (port : Z) (scheme : text) (s : State) : State :=
  let id := u64 (next_id s + 1) in
  set_task a (Numbered (MkAsk id box host port scheme))
    (MkState (ui_active s) (u64 (next_id s + 1)) (queue s) (drains s) (channels s) (tasks s) (now s) (answered s)).

(** The prompt is queued under the lock. *)
Definition ask_push (a : nat) (k : AskReq) (s : State) : State :=
  set_task a (Queued (ask_id k)) (set_queue (queue s ++ [MkPending k a (now s + TIMEOUT)]) s).

(** [tokio::time::timeout] starts. *)
Definition ask_arm (a : nat) (id : Z) (s : State) : State := set_task a (Waiting id (now s + TIMEOUT)) s.

(** The receiver is polled, then the timer. *)
Definition ask_poll (a : nat) (id timer : Z) (s : State) : State :=
  match channels s !! a with
  | Some (Sent v) => set_task a (Returned (Some id) v) s
  | Some Dropped => set_task a (Returned (Some id) NoOnce) s
  | None => if timer <=? now s then set_task a (Returned (Some id) NoOnce) s else s
  end.

(** A task runs its next piece. *)
Definition ask_run (a : nat) (s : State) : State :=
  match tasks s !! a with
  | Some (Passed box host port scheme) => ask_number a box host port scheme s
  | Some (Numbered k) => ask_push a k s
  | Some (Queued id) => ask_arm a id s
  | Some (Waiting id timer) => ask_poll a id timer s
  | Some (Returned _ _) | None => s
  end.

(** ** The interface *)

(** [mark_ui_active]: the store, then the drain *)
Definition mark_store (on : bool) (s : State) : State :=
  MkState on (next_id s) (queue s) (if on then drains s else S (drains s)) (channels s) (tasks s) (now s) (answered s).
Definition mark_drain (s : State) : State :=
  match drains s with
  | O => s
  | S n =>
      let s := MkState (ui_active s) (next_id s) (queue s) n (channels s) (tasks s) (now s) (answered s) in
      set_queue [] (foldl (λ s p, send NoOnce (p_tx p) s) s (queue s))
  end.

(** [peek]: prompts past their deadline go, their senders dropped. *)
Fixpoint expire (t : Z) (q : list Pending) : list Pending * list nat :=
  match q with
  | p :: q' => if p_deadline p <? t then let '(q', gone) := expire t q' in (q', p_tx p :: gone) else (q, [])
  | [] => ([], [])
  end.
Definition peek (s : State) : State * option AskReq :=
  let '(q, gone) := expire (now s) (queue s) in
  (set_queue q (foldl (λ s a, put_chan Dropped a s) s gone), p_ask <$> head q).

(** [answer] *)
Definition answer (id : Z) (v : Verdict) (s : State) : State * bool :=
  match queue s with
  | p :: q =>
      if ask_id (p_ask p) =? id then
        let s := send v (p_tx p) (set_queue q s) in
        (MkState (ui_active s) (next_id s) (queue s) (drains s) (channels s) (tasks s) (now s)
           ((id, v) :: answered s), true)
      else (s, false)
  | [] => (s, false)
  end.

(** ** Executions *)
Inductive Label : Type :=
| Start (a : nat) (box host : text) (port : Z) (scheme : text)
| Run (a : nat)
| Store (on : bool)
| Drain
| Peek
| Answer (id : Z) (v : Verdict)
| Tick (d : nat).
Definition apply_label (l : Label) (s : State) : State :=
  match l with
  | Start a box host port scheme => ask_check a box host port scheme s
  | Run a => ask_run a s
  | Store on => mark_store on s
  | Drain => mark_drain s
  | Peek => (peek s).1
  | Answer id v => (answer id v s).1
  | Tick d =>
      MkState (ui_active s) (next_id s) (queue s) (drains s) (channels s) (tasks s) (now s + Z.of_nat d) (answered s)
  end.
Definition run (ls : list Label) (s : State) : State := foldl (λ s l, apply_label l s) s ls.

(** How often a task ran *)
Definition is_run (a : nat) (l : Label) : bool := match l with Run b => bool_decide (a = b) | _ => false end.
Definition runs_of (a : nat) (ls : list Label) : nat := length (List.filter (is_run a) ls).

(** ** Tasks over an execution *)

Lemma put_chan_tasks c a s : tasks (put_chan c a s) = tasks s.
Proof. unfold put_chan. by case_match. Qed.
Lemma put_chan_now c a s : now (put_chan c a s) = now s.
Proof. unfold put_chan. by case_match. Qed.

Lemma fold_put_tasks {A} (f : State → A → State) l s :
  (∀ s x, tasks (f s x) = tasks s ∧ now (f s x) = now s) →
  tasks (foldl f s l) = tasks s ∧ now (foldl f s l) = now s.
Proof.
  intros Hf. revert s. induction l as [|x l IH]; intros s; [done|]. simpl.
  destruct (IH (f s x)) as [-> ->]. apply Hf.
Qed.

Lemma drain_tasks s : tasks (mark_drain s) = tasks s ∧ now (mark_drain s) = now s.
Proof.
  unfold mark_drain. destruct (drains s) as [|n]; [done|]. simpl.
  match goal with |- tasks (foldl ?f ?s0 ?l) = _ ∧ _ => destruct (fold_put_tasks f l s0) as [-> ->] end; [|done].
  intros. unfold send. by rewrite put_chan_tasks, put_chan_now.
Qed.
Lemma peek_tasks s : tasks (peek s).1 = tasks s ∧ now (peek s).1 = now s.
Proof.
  unfold peek. destruct (expire (now s) (queue s)) as [q gone]. simpl.
  apply fold_put_tasks. intros. by rewrite put_chan_tasks, put_chan_now.
Qed.
Lemma answer_tasks id v s : tasks (answer id v s).1 = tasks s ∧ now (answer id v s).1 = now s.
Proof.
  unfold answer. repeat case_match; simpl; unfold send; by rewrite ?put_chan_tasks, ?put_chan_now.
Qed.

Lemma ask_run_other a b s : a ≠ b → tasks (ask_run b s) !! a = tasks s !! a.
Proof.
  intros Hab. unfold ask_run, ask_number, ask_push, ask_arm, ask_poll.
  repeat case_match; simpl; by rewrite ?lookup_insert_ne by done.
Qed.

Lemma label_other a l s t :
  is_run a l = false → tasks s !! a = Some t → tasks (apply_label l s) !! a = Some t.
Proof.
  destruct l; simpl; intros Hr Ht; try done.
  - unfold ask_check. destruct (tasks s !! a0) eqn:Ha; [done|]. simpl.
    rewrite lookup_insert_ne; [done|]. congruence.
  - apply bool_decide_eq_false in Hr. by rewrite ask_run_other.
  - by rewrite (proj1 (drain_tasks s)).
  - by rewrite (proj1 (peek_tasks s)).
  - by rewrite (proj1 (answer_tasks id v s)).
Qed.

Lemma label_now l s : now s ≤ now (apply_label l s).
Proof.
  destruct l; simpl; try lia.
  - unfold ask_check. by repeat case_match; simpl.
  - unfold ask_run, ask_number, ask_push, ask_arm, ask_poll. by repeat case_match; simpl.
  - by rewrite (proj2 (drain_tasks s)).
  - by rewrite (proj2 (peek_tasks s)).
  - by rewrite (proj2 (answer_tasks id v s)).
Qed.
Lemma run_now ls s : now s ≤ now (run ls s).
Proof.
  revert s. induction ls as [|l ls IH]; intros s; [done|]. simpl.
  etrans; [apply label_now|apply IH].
Qed.

(** How far a task is *)
Definition stage (t : Task) : nat :=
  match t with Passed _ _ _ _ => 0 | Numbered _ => 1 | Queued _ => 2 | Waiting _ _ => 3 | Returned _ _ => 4 end.

Lemma ask_run_stage a s t :
  tasks s !! a = Some t →
  ∃ t', tasks (ask_run a s) !! a = Some t' ∧ (stage t ≤ stage t')%nat ∧ (stage t < 3 → stage t < stage t')%nat.
Proof.
  intros Ht. unfold ask_run, ask_number, ask_push, ask_arm, ask_poll. rewrite Ht.
  destruct t; simpl; repeat case_match; simpl;
    rewrite ?lookup_insert_eq, ?Ht; eexists; (split; [done|]); simpl; lia.
Qed.

Lemma run_stage a ls s t :
  tasks s !! a = Some t →
  ∃ t', tasks (run ls s) !! a = Some t' ∧ (Nat.min 3 (stage t + runs_of a ls) ≤ stage t')%nat.
Proof.
  revert s t. induction ls as [|l ls IH]; intros s t Ht; [exists t; split; [done|]; change (runs_of a []) with 0%nat; lia|].
  unfold runs_of. cbn [run foldl List.filter]. destruct (is_run a l) eqn:Hr.
  - destruct l as [| b | | | | |]; try done. apply bool_decide_eq_true in Hr as <-.
    destruct (ask_run_stage a s t Ht) as (t'&Ht'&Hle&Hlt). destruct (IH _ _ Ht') as (u&Hu&Hs).
    exists u. split; [done|]. cbn [length].
    change (length (List.filter (is_run a) ls)) with (runs_of a ls).
    destruct (decide (stage t < 3)%nat) as [H3|]; [specialize (Hlt H3)|]; lia.
  - destruct (IH _ _ (label_other a l s t Hr Ht)) as (u&Hu&Hs). by exists u.
Qed.

(** A timer is at most the timeout away, and is kept while its task waits. *)
Definition timers_ok (s : State) : Prop :=
  ∀ a id timer, tasks s !! a = Some (Waiting id timer) → timer ≤ now s + TIMEOUT.

Lemma timers_label l s : timers_ok s → timers_ok (apply_label l s).
Proof.
  intros Hok a id timer. destruct (is_run a l) eqn:Hr.
  - destruct l as [| b | | | | |]; try done. apply bool_decide_eq_true in Hr as <-. cbn [apply_label].
    unfold ask_run, ask_number, ask_push, ask_arm, ask_poll.
    repeat case_match; simpl; rewrite ?lookup_insert_eq; intros Ht; simplify_eq; try lia; by eapply Hok.
  - destruct (tasks s !! a) as [t|] eqn:Ht.
    + rewrite (label_other a l s t) by done. intros [= ->]. specialize (Hok _ _ _ Ht).
      pose proof (label_now l s). lia.
    + destruct l; simpl in *; rewrite ?(proj1 (drain_tasks s)), ?(proj1 (peek_tasks s)),
        ?(proj1 (answer_tasks _ _ s)), ?Ht; try done.
      * unfold ask_check. repeat case_match; simpl; try congruence;
          (destruct (decide (a0 = a)) as [->|]; [rewrite lookup_insert_eq|rewrite lookup_insert_ne by done]); congruence.
      * apply bool_decide_eq_false in Hr. rewrite ask_run_other by done. by rewrite Ht.
Qed.

Lemma timers_run ls s : timers_ok s → timers_ok (run ls s).
Proof. revert s. induction ls as [|l ls IH]; intros s Hs; [done|]. simpl. by apply IH, timers_label. Qed.

Lemma returned_run a ls s o v :
  tasks s !! a = Some (Returned o v) → tasks (run ls s) !! a = Some (Returned o v).
Proof.
  revert s. induction ls as [|l ls IH]; intros s Ht; [done|]. simpl. apply IH.
  destruct (is_run a l) eqn:Hr; [|by apply label_other].
  destruct l; try done. apply bool_decide_eq_true in Hr as <-. simpl. unfold ask_run. by rewrite Ht.
Qed.

Lemma waiting_run a ls s id timer :
  tasks s !! a = Some (Waiting id timer) →
  tasks (run ls s) !! a = Some (Waiting id timer) ∨ ∃ v, tasks (run ls s) !! a = Some (Returned (Some id) v).
Proof.
  revert s. induction ls as [|l ls IH]; intros s Ht; [by left|]. simpl.
  destruct (is_run a l) eqn:Hr; [|by apply IH, label_other].
  destruct l as [| b | | | | |]; try done. apply bool_decide_eq_true in Hr as <-. simpl.
  assert (Hp : ask_run a s = ask_poll a id timer s) by (unfold ask_run; by rewrite Ht).
  rewrite Hp. unfold ask_poll. repeat case_match; try (by apply IH);
    right; eexists; apply returned_run; simpl; by rewrite lookup_insert_eq.
Qed.

(** ** Who gets which answer *)

(** The number of a task, and of one whose prompt was queued *)
Definition number (t : Task) : option Z :=
  match t with
  | Passed _ _ _ _ => None
  | Numbered k => Some (ask_id k)
  | Queued id | Waiting id _ => Some id
  | Returned o _ => o
  end.
Definition queued_number (t : Task) : option Z := match t with Numbered _ => None | t => number t end.

Definition has_number (s : State) (a : nat) (id : Z) : Prop := (tasks s !! a) ≫= number = Some id.
Definition has_queued (s : State) (a : nat) (id : Z) : Prop := (tasks s !! a) ≫= queued_number = Some id.

Lemma queued_has_number s a id : has_queued s a id → has_number s a id.
Proof. unfold has_queued, has_number. by destruct (tasks s !! a) as [[]|]. Qed.

Definition granted (s : State) (id : Z) (v : Verdict) : Prop := v = NoOnce ∨ (id, v) ∈ answered s.
Definition returned_ok (s : State) (o : option Z) (v : Verdict) : Prop :=
  match o with Some id => granted s id v | None => v = NoOnce end.
Definition senders (s : State) : list nat := p_tx <$> queue s.

Record Inv (n : Z) (s : State) : Prop := {
  inv_next : 0 ≤ next_id s ≤ n;
  inv_bound : ∀ a id, has_number s a id → id ≤ next_id s;
  inv_unique : ∀ a b id, has_number s a id → has_number s b id → a = b;
  inv_queue : ∀ p, p ∈ queue s → has_queued s (p_tx p) (ask_id (p_ask p));
  inv_senders : NoDup (senders s);
  inv_channel : ∀ a c, channels s !! a = Some c →
    (a ∉ senders s) ∧ ∃ id, has_queued s a id ∧ ∀ v, c = Sent v → granted s id v;
  inv_returned : ∀ a o v, tasks s !! a = Some (Returned o v) → returned_ok s o v;
  inv_answered : ∀ id, id ∈ (answered s).*1 → ∃ a, has_queued s a id ∧ a ∉ senders s;
  inv_once : NoDup (answered s).*1 }.

(** A task that keeps its numbers *)
Lemma set_task_inv n s a t' :
  Inv n s → (tasks s !! a) ≫= number = number t' → (tasks s !! a) ≫= queued_number = queued_number t' →
  (∀ o v, t' = Returned o v → returned_ok s o v) → Inv n (set_task a t' s).
Proof.
  intros [Hn Hb Hu Hq Hs Hc Hr Ha Ho] Hnum Hqn Hret.
  assert (Hnum' : ∀ b id, has_number (set_task a t' s) b id ↔ has_number s b id).
  { intros b id. unfold has_number. simpl. destruct (decide (a = b)) as [<-|];
      [rewrite lookup_insert_eq; simpl; by rewrite Hnum|by rewrite lookup_insert_ne]. }
  assert (Hqn' : ∀ b id, has_queued (set_task a t' s) b id ↔ has_queued s b id).
  { intros b id. unfold has_queued. simpl. destruct (decide (a = b)) as [<-|];
      [rewrite lookup_insert_eq; simpl; by rewrite Hqn|by rewrite lookup_insert_ne]. }
  split; simpl; auto.
  - intros b id. rewrite Hnum'. apply Hb.
  - intros b b' id. rewrite !Hnum'. apply Hu.
  - intros p. rewrite Hqn'. apply Hq.
  - intros b c Hbc. setoid_rewrite Hqn'. apply (Hc b c Hbc).
  - intros b id v. destruct (decide (a = b)) as [<-|].
    + rewrite lookup_insert_eq. intros [= Hx]. by apply Hret.
    + rewrite lookup_insert_ne by done. apply Hr.
  - intros id. setoid_rewrite Hqn'. apply Ha.
Qed.

(** The head of the queue leaves with its channel written. *)
Lemma pop_inv n s p q c ans :
  Inv n s → queue s = p :: q →
  (ans = answered s ∧ (c = Dropped ∨ c = Sent NoOnce)) ∨
    (∃ v, ans = (ask_id (p_ask p), v) :: answered s ∧ c = Sent v) →
  let s1 := put_chan c (p_tx p) (set_queue q s) in
  Inv n (MkState (ui_active s1) (next_id s1) (queue s1) (drains s1) (channels s1) (tasks s1) (now s1) ans).
Proof.
  intros [Hn Hb Hu Hq Hs Hc Hr Ha Ho] Hqs Hans s1.
  pose proof (Hq p ltac:(rewrite Hqs; set_solver)) as Hp.
  unfold senders in Hs, Hc, Ha. setoid_rewrite Hqs in Hc. setoid_rewrite Hqs in Ha.
  rewrite Hqs in Hq, Hs. simpl in Hs. apply NoDup_cons in Hs as [Hp_q Hs].
  assert (Hsub : answered s ⊆ ans) by (destruct Hans as [[-> _]|(v&->&_)]; set_solver).
  assert (Hkeep : ∀ id v, granted s id v → (v = NoOnce ∨ (id, v) ∈ ans)) by (unfold granted; set_solver).
  assert (Hfields : tasks s1 = tasks s ∧ next_id s1 = next_id s ∧ queue s1 = q)
    by (subst s1; unfold put_chan; by case_match).
  destruct Hfields as (Htasks&Hnext&Hqueue). unfold has_number, has_queued in *.
  split; simpl; unfold has_number, has_queued, granted, senders; simpl; rewrite ?Htasks, ?Hnext, ?Hqueue; auto.
  - intros p' Hp'. apply Hq. set_solver.
  - intros b c' Hbc. subst s1. unfold put_chan in Hbc.
    assert (Hcase : channels s !! b = Some c' ∨ (b = p_tx p ∧ c' = c)).
    { destruct (receiver_gone _ _); simpl in Hbc; [by left|].
      destruct (decide (p_tx p = b)) as [<-|]; [rewrite lookup_insert_eq in Hbc|rewrite lookup_insert_ne in Hbc by done];
        naive_solver. }
    destruct Hcase as [Hold|[-> ->]].
    + destruct (Hc b c' Hold) as [Hnot (id&Hid&Hv)]. split; [set_solver|]. exists id. split; [done|].
      intros v Hcv. by apply Hkeep, Hv.
    + split; [done|]. exists (ask_id (p_ask p)). split; [done|]. intros v ->.
      destruct Hans as [[_ [?|[= ->]]]|(v'&->&[= <-])]; [done|by left|right; set_solver].
  - intros b o v Hbv. specialize (Hr b o v Hbv). destruct o; [by apply Hkeep|done].
  - intros id Hid. assert (Hid' : id ∈ (answered s).*1 ∨ id = ask_id (p_ask p)).
    { destruct Hans as [[-> _]|(v&->&_)]; [by left|]. simpl in Hid. set_solver. }
    destruct Hid' as [Hold| ->]; [|by exists (p_tx p)]. destruct (Ha id Hold) as (b&?&?). exists b. set_solver.
  - destruct Hans as [[-> _]|(v&->&_)]; [done|]. simpl. apply NoDup_cons. split; [|done]. intros Hin.
    destruct (Ha _ Hin) as (b&Hbq&Hbs). apply Hbs. rewrite (Hu b (p_tx p) (ask_id (p_ask p))); [set_solver| |];
      by apply queued_has_number.
Qed.

Lemma inv_weaken n n' s : n ≤ n' → Inv n s → Inv n' s.
Proof. intros Hle []. split; auto. lia. Qed.

Lemma check_inv n s a box host port scheme : Inv n s → Inv n (ask_check a box host port scheme s).
Proof.
  intros Hs. unfold ask_check. destruct (tasks s !! a) eqn:Ha; [done|].
  apply set_task_inv; rewrite ?Ha; [done|by destruct (ui_active s)..|].
  intros o v. destruct (ui_active s); simpl; [done|]. by intros [= <- <-].
Qed.

Lemma number_inv n s a box host port scheme :
  n + 1 < 2 ^ 64 → Inv n s → tasks s !! a = Some (Passed box host port scheme) →
  Inv (n + 1) (ask_number a box host port scheme s).
Proof.
  intros Hlt [Hn Hb Hu Hq Hs Hc Hr Ha Ho] Ht. unfold ask_number.
  assert (Hid : u64 (next_id s + 1) = next_id s + 1) by (apply Z.mod_small; lia). rewrite Hid.
  set (s' := set_task _ _ _).
  assert (Hnum : ∀ b id, has_number s' b id ↔ (b = a ∧ id = next_id s + 1) ∨ (b ≠ a ∧ has_number s b id)).
  { intros b id. unfold has_number, s'. simpl. destruct (decide (a = b)) as [<-|];
      [rewrite lookup_insert_eq|rewrite lookup_insert_ne by done]; naive_solver. }
  assert (Hqn : ∀ b id, has_queued s' b id ↔ has_queued s b id).
  { intros b id. unfold has_queued, s'. simpl. destruct (decide (a = b)) as [<-|];
      [by rewrite lookup_insert_eq, Ht|by rewrite lookup_insert_ne]. }
  split; simpl; auto.
  - lia.
  - intros b id [[-> ->]|[_ Hold]]%Hnum; [lia|]. specialize (Hb _ _ Hold). lia.
  - intros b b' id [[-> ->]|[? Hold]]%Hnum [[-> Heq]|[? Hold']]%Hnum; [done|apply Hb in Hold'; lia| |by eapply Hu].
    apply Hb in Hold. lia.
  - intros p. rewrite Hqn. apply Hq.
  - intros b c Hbc. setoid_rewrite Hqn. apply (Hc b c Hbc).
  - intros b id v. destruct (decide (a = b)) as [<-|];
      [by rewrite lookup_insert_eq|rewrite lookup_insert_ne by done; apply Hr].
  - intros id. setoid_rewrite Hqn. apply Ha.
Qed.

Lemma push_inv n s a k :
  Inv n s → tasks s !! a = Some (Numbered k) → Inv n (ask_push a k s).
Proof.
  intros [Hn Hb Hu Hq Hs Hc Hr Ha Ho] Ht. unfold ask_push. set (s' := set_task _ _ _).
  assert (Hnum : ∀ b id, has_number s' b id ↔ has_number s b id).
  { intros b id. unfold has_number, s'. simpl. destruct (decide (a = b)) as [<-|];
      [by rewrite lookup_insert_eq, Ht|by rewrite lookup_insert_ne]. }
  assert (Hnone : ∀ id, ~ has_queued s a id) by (intros id; unfold has_queued; by rewrite Ht).
  assert (Hqn : ∀ b id, has_queued s' b id ↔ (b = a ∧ id = ask_id k) ∨ has_queued s b id).
  { intros b id. unfold has_queued, s'. simpl. destruct (decide (a = b)) as [<-|].
    - rewrite lookup_insert_eq, Ht. naive_solver.
    - rewrite lookup_insert_ne by done. naive_solver. }
  assert (Hold : ∀ b id, has_queued s b id → b ∉ senders s → b ∉ senders s').
  { intros b id Hbq Hbs. unfold senders, s'. simpl. rewrite fmap_app. intros [?|Hx%list_elem_of_singleton]%elem_of_app; [done|].
    simpl in Hx. subst b. by apply Hnone in Hbq. }
  split; simpl; auto.
  - intros b id. rewrite Hnum. apply Hb.
  - intros b b' id. rewrite !Hnum. apply Hu.
  - intros p [?|Hx%list_elem_of_singleton]%elem_of_app; rewrite Hqn; [right; by apply Hq|left; by subst p].
  - unfold senders. simpl. rewrite fmap_app. apply NoDup_app. split; [done|]. split; [|apply NoDup_singleton].
    intros b (p&->&Hp)%list_elem_of_fmap Hx%list_elem_of_singleton. simpl in Hx.
    apply (Hnone (ask_id (p_ask p))). rewrite <- Hx. by apply Hq.
  - intros b c Hbc. destruct (Hc b c Hbc) as [Hbs (id&Hbq&Hv)]. split; [by eapply Hold|].
    exists id. rewrite Hqn. auto.
  - intros b id v. destruct (decide (a = b)) as [<-|];
      [by rewrite lookup_insert_eq|rewrite lookup_insert_ne by done; apply Hr].
  - intros id Hid. destruct (Ha id Hid) as (b&Hbq&Hbs). exists b. split; [rewrite Hqn; auto|by eapply Hold].
Qed.

Lemma poll_inv n s a id timer :
  Inv n s → tasks s !! a = Some (Waiting id timer) → Inv n (ask_poll a id timer s).
Proof.
  intros Hs Ht. unfold ask_poll. destruct (channels s !! a) as [[v|]|] eqn:Hch.
  - destruct (inv_channel n s Hs a _ Hch) as [_ (id'&Hid&Hv)].
    assert (id' = id) as -> by (unfold has_queued in Hid; rewrite Ht in Hid; simpl in Hid; congruence).
    apply set_task_inv; rewrite ?Ht; [done..|]. intros ?? [= <- <-]. by apply Hv.
  - apply set_task_inv; rewrite ?Ht; [done..|]. intros ?? [= <- <-]. by left.
  - repeat case_match; try done; (apply set_task_inv; rewrite ?Ht; [done..|]; intros ?? [= <- <-]; by left).
Qed.

Lemma ask_run_inv n s a : n + 1 < 2 ^ 64 → Inv n s → Inv (n + 1) (ask_run a s).
Proof.
  intros Hlt Hs. unfold ask_run. destruct (tasks s !! a) as [[]|] eqn:Ht; [by apply number_inv|..];
    (apply (inv_weaken n); [lia|]); [by apply push_inv| |by apply poll_inv|done..].
  apply set_task_inv; by rewrite ?Ht.
Qed.

Lemma put_chan_queue c a q s : put_chan c a (set_queue q s) = set_queue q (put_chan c a s).
Proof. unfold put_chan, receiver_gone. simpl. by repeat case_match. Qed.
Lemma put_chans_queue c l q s :
  foldl (λ s a, put_chan c a s) (set_queue q s) l = set_queue q (foldl (λ s a, put_chan c a s) s l).
Proof. revert s. induction l as [|a l IH]; intros s; [done|]. simpl. by rewrite put_chan_queue, IH. Qed.

Lemma put_chan_answered c a s : answered (put_chan c a s) = answered s.
Proof. unfold put_chan. by case_match. Qed.

(** Prompts leave the front of the queue. *)
Lemma pops_inv n c ps q s :
  c = Dropped ∨ c = Sent NoOnce → Inv n s → queue s = ps ++ q →
  Inv n (set_queue q (foldl (λ s a, put_chan c a s) s (p_tx <$> ps))).
Proof.
  intros Hc. revert s. induction ps as [|p ps IH]; intros s Hs Hq.
  - simpl in *. subst q. by destruct s.
  - set (s1 := put_chan c (p_tx p) (set_queue (ps ++ q) s)).
    assert (Hs1 : Inv n s1).
    { pose proof (pop_inv n s p (ps ++ q) c (answered s) Hs Hq (or_introl (conj eq_refl Hc))) as Hpop.
      fold s1 in Hpop. assert (Ha : answered s = answered s1) by (subst s1; by rewrite put_chan_answered).
      rewrite Ha in Hpop. by destruct s1. }
    specialize (IH s1 Hs1). cbn [fmap list_fmap foldl]. subst s1. rewrite put_chan_queue, put_chans_queue in IH.
    by apply IH.
Qed.

Lemma expire_split t q : let '(q', gone) := expire t q in ∃ ps, q = ps ++ q' ∧ gone = p_tx <$> ps.
Proof.
  induction q as [|p q IH]; simpl; [by exists []|]. destruct (p_deadline p <? t); [|by exists []].
  destruct (expire t q) as [q' gone]. destruct IH as (ps&->&->). by exists (p :: ps).
Qed.

Lemma label_inv n l s : n + 1 < 2 ^ 64 → Inv n s → Inv (n + 1) (apply_label l s).
Proof.
  intros Hlt Hs. destruct l; cbn [apply_label].
  2:{ by apply ask_run_inv. }
  all: apply (inv_weaken n); [lia|].
  - by apply check_inv.
  - by destruct Hs.
  - unfold mark_drain. destruct (drains s) as [|m]; [done|]. cbv zeta.
    set (s0 := MkState _ _ _ m _ _ _ _). assert (Hs0 : Inv n s0) by by destruct Hs.
    pose proof (pops_inv n (Sent NoOnce) (queue s0) [] s0 (or_intror eq_refl) Hs0) as Hp.
    rewrite app_nil_r, foldl_fmap in Hp. by apply Hp.
  - unfold peek. pose proof (expire_split (now s) (queue s)) as He.
    destruct (expire (now s) (queue s)) as [q gone]. destruct He as (ps&Hq&->). simpl.
    apply pops_inv; auto.
  - unfold answer. destruct (queue s) as [|p q] eqn:Hq; [done|].
    destruct (Z.eqb_spec (ask_id (p_ask p)) id) as [<-|]; [|done].
    assert (Ha : answered (send v (p_tx p) (set_queue q s)) = answered s)
      by apply (put_chan_answered (Sent v) (p_tx p) (set_queue q s)).
    cbv zeta. cbn [fst]. rewrite Ha. apply (pop_inv n s p q (Sent v)); [done..|]. right. eauto.
  - by destruct Hs.
Qed.

Lemma new_inv : Inv 0 PromptQueue_new.
Proof. split; simpl; try done; try constructor; set_solver. Qed.

Lemma run_inv ls : Z.of_nat (length ls) < 2 ^ 64 → Inv (Z.of_nat (length ls)) (run ls PromptQueue_new).
Proof.
  induction ls as [|l ls IH] using rev_ind; intros Hl; [apply new_inv|].
  rewrite length_app in *. simpl in *. unfold run. rewrite foldl_app.
  replace (Z.of_nat (length ls + 1)) with (Z.of_nat (length ls) + 1) in * by lia.
  apply label_inv; [done|]. apply IH. lia.
Qed.

(** ** Claims *)

(** C12. A connection is let through only by an answer the user gave to its own
    prompt: in every interleaving, what [ask] returns is a refusal or the
    verdict delivered for its number, no other connection has that number, and
    a number is answered at most once. *)
Theorem verdict_from_user (ls : list Label) (a : nat) (id : option Z) (v : Verdict) :
  Z.of_nat (length ls) < 2 ^ 64 →
  let s := run ls PromptQueue_new in
  tasks s !! a = Some (Returned id v) → v ≠ NoOnce →
  ∃ i, id = Some i ∧ (i, v) ∈ answered s ∧ NoDup (answered s).*1 ∧
    ∀ b, has_number s b i → b = a.
Proof.
  intros Hl s Ht Hv. pose proof (run_inv ls Hl) as Hs. fold s in Hs.
  pose proof (inv_returned _ _ Hs a id v Ht) as Hret. destruct id as [i|]; [|done].
  destruct Hret as [?|Hin]; [done|]. exists i. split; [done|]. split; [done|]. split; [apply (inv_once _ _ Hs)|].
  intros b Hb. apply (inv_unique _ _ Hs b a i Hb). unfold has_number. by rewrite Ht.
Qed.

Lemma verdict_from_user_witness :
  let ls := [Store true; Start 1 [] [] 80 []; Start 2 [] [] 443 []; Run 1; Run 2; Run 2; Run 1; Run 1; Run 2;
             Answer 2 AllowSave; Answer 1 NoOnce; Run 1; Run 2] in
  let s := run ls PromptQueue_new in
  tasks s !! 2%nat = Some (Returned (Some 2) AllowSave) ∧
  ∃ i, Some 2 = Some i ∧ (i, AllowSave) ∈ answered s ∧ NoDup (answered s).*1 ∧ ∀ b, has_number s b i → b = 2%nat.
Proof.
  intros ls s. split; [by vm_compute|].
  apply (verdict_from_user ls 2 (Some 2) AllowSave); [by vm_compute|by vm_compute|done].
Defined.

(** C13. Every connection that asks is decided: once its task ran three times
    more and the timeout passed since, its next turn returns, whatever the user
    interface and the other connections do meanwhile. *)
Theorem ask_resolves (ls0 ls1 ls2 : list Label) (a : nat) :
  let s0 := run ls0 PromptQueue_new in
  let s1 := run ls1 s0 in
  let s2 := run ls2 s1 in
  is_Some (tasks s0 !! a) → (3 ≤ runs_of a ls1)%nat → now s1 + TIMEOUT ≤ now s2 →
  ∃ id v, tasks (ask_run a s2) !! a = Some (Returned id v).
Proof.
  intros s0 s1 s2 [t0 Ht0] Hruns Hnow.
  assert (Hok : timers_ok s1).
  { apply timers_run, timers_run. intros b id timer. unfold PromptQueue_new. simpl. by rewrite lookup_empty. }
  destruct (run_stage a ls1 s0 t0 Ht0) as (t1&Ht1&Hstage). fold s1 in Ht1.
  assert (H3 : (3 ≤ stage t1)%nat) by lia. clear Hstage.
  destruct t1 as [| | |id timer|id v]; simpl in H3; try lia.
  - specialize (Hok a id timer Ht1). destruct (waiting_run a ls2 s1 id timer Ht1) as [Ht2|[v Ht2]]; fold s2 in Ht2.
    + unfold ask_run. rewrite Ht2. unfold ask_poll. rewrite (proj2 (Z.leb_le timer (now s2))) by lia.
      repeat case_match; simpl; rewrite lookup_insert_eq; eauto.
    + unfold ask_run. rewrite Ht2. eauto.
  - assert (Ht2 : tasks s2 !! a = Some (Returned id v)) by by apply returned_run.
    unfold ask_run. rewrite Ht2. eauto.
Qed.

Lemma ask_resolves_witness :
  let ls0 := [Store true; Start 1 [] [] 80 []] in
  let s1 := run [Run 1; Store false; Run 1; Drain; Run 1] (run ls0 PromptQueue_new) in
  ∃ id v, tasks (ask_run 1 (run [Tick 60] s1)) !! 1%nat = Some (Returned id v).
Proof.
  intros ls0 s1. apply (ask_resolves ls0 [Run 1; Store false; Run 1; Drain; Run 1] [Tick 60] 1).
  - by eexists; vm_compute.
  - by apply (bool_decide_unpack _); vm_compute.
  - by vm_compute.
Defined.

(** A connection that saw the flag set can queue its prompt after the interface
    went away and the queue was drained: nobody answers it. *)
Lemma late_prompt_waits :
  let s := run [Store true; Start 1 [] [] 80 []; Store false; Drain; Run 1; Run 1; Run 1; Tick 59; Run 1] PromptQueue_new in
  ui_active s = false ∧ drains s = O ∧ tasks s !! 1%nat = Some (Waiting 1 60) ∧ length (queue s) = 1%nat.
Proof. by vm_compute. Qed.

(** [answer] reports success for a prompt whose connection has already been
    refused. *)
Lemma answer_after_timeout :
  let s := run [Store true; Start 1 [] [] 80 []; Run 1; Run 1; Run 1; Tick 60; Run 1] PromptQueue_new in
  tasks s !! 1%nat = Some (Returned (Some 1) NoOnce) ∧ (answer 1 AllowSave s).2 = true ∧
  tasks (answer 1 AllowSave s).1 !! 1%nat = Some (Returned (Some 1) NoOnce).
Proof. by vm_compute. Qed.
