(* ===== verification/StrPool.v ===== *)
(** * The string pool: shards.

    Models [chupa/strpool/src/footer.rs] and [shard.rs]: one shard file of zstd
    frames, a plain tail and a footer, with its appends, seals and walks.  zstd
    is a parameter ([Zstd]); what is relied on of it is [ZstdLaws]. *)

From S2P Require Import Prelude.
Open Scope Z_scope.

(** ** Errors *)
Inductive IoKind : Type := InvalidData | InvalidInput | UnexpectedEof | NotFound | Os (e : Z).
Inductive StrpoolError : Type := Io (k : IoKind) | ZstdError | MissingDict (id : Z).

(** ** Footer *)
Definition FOOTER_SIZE : Z := 8.
Record Footer : Type := MkFooter { f_tail_len : Z; f_entry_count : Z }.

Definition parse_footer (b : bytes) : option Footer :=
  if negb (zlen b =? FOOTER_SIZE) then None
  else Some (MkFooter (le_decode (take 4 b)) (le_decode (take 4 (drop 4 b)))).
Definition write_footer_bytes (f : Footer) : bytes :=
  le_encode 4 (f_tail_len f) ++ le_encode 4 (f_entry_count f).

(** ** Files *)

(** The shard file and its [.tmp], when they exist *)
Record Disk : Type := MkDisk { d_file : option bytes; d_tmp : option bytes }.

(** [read_exact_at] and what [write_all_at] leaves *)
Definition read_exact_at (b : bytes) (n off : Z) : Result bytes StrpoolError :=
  if off + n <=? zlen b then Ok (take (Z.to_nat n) (drop (Z.to_nat off) b)) else Err (Io UnexpectedEof).
Definition write_at (b data : bytes) (off : Z) : bytes :=
  take (Z.to_nat off) b ++ replicate (Z.to_nat off - length b) 0 ++ data
  ++ drop (Z.to_nat off + length data) b.

(** How a write ends: as asked, with an error after some bytes, or without a
    file to write to *)
Inductive Outcome : Type := Done | Short (n : nat) (e : Z) | NoOpen (e : Z).

(** [open_for_write], then [write_all_at] *)
Definition write_all_at (o : Outcome) (d : Disk) (data : bytes) (off : Z) : Disk * Result unit StrpoolError :=
  let b := default [] (d_file d) in
  match o with
  | Done => (MkDisk (Some (write_at b data off)) (d_tmp d), Ok tt)
  | Short n e => (MkDisk (Some (write_at b (take n data) off)) (d_tmp d), Err (Io (Os e)))
  | NoOpen e => (d, Err (Io (Os e)))
  end.

(** ** zstd *)
Class Zstd : Type := {
  z_compress : option bytes → bytes → Result bytes Z;
  z_decompress : option bytes → bytes → Result bytes Z;
  find_frame_compressed_size : bytes → option nat;
  get_dict_id_from_frame : bytes → option Z;
  get_frame_content_size : bytes → option (option Z);
  dict_id_of : bytes → option Z }.

(** What zstd documents: a frame is found by its size when all of it is there
    and not before; it decodes to what it was made from with the same
    dictionary; and it names its dictionary's id. *)
Class ZstdLaws `{Zstd} : Prop := {
  z_nonempty : ∀ d p f, z_compress d p = Ok f → f ≠ [];
  z_size : ∀ d p f rest, z_compress d p = Ok f → find_frame_compressed_size (f ++ rest) = Some (length f);
  z_prefix : ∀ d p f n, z_compress d p = Ok f → (n < length f)%nat → find_frame_compressed_size (take n f) = None;
  z_roundtrip : ∀ d p f, z_compress d p = Ok f → z_decompress d f = Ok p;
  z_content_size : ∀ d p f, z_compress d p = Ok f → get_frame_content_size f ≠ None;
  z_dict_id : ∀ d p f, z_compress d p = Ok f → get_dict_id_from_frame f = d ≫= dict_id_of }.

(** [DictProvider] *)
Definition DictProvider : Type := Z → Result (option bytes) StrpoolError.

Definition dict_bytes (provider : option DictProvider) (id : Z) : Result bytes StrpoolError :=
  match provider with
  | None => Err (MissingDict id)
  | Some p =>
      match p id with
      | Err e => Err e
      | Ok None => Err (MissingDict id)
      | Ok (Some b) => Ok b
      end
  end.

Section shard.
Context `{Zstd} (provider : option DictProvider).

Definition map_zstd_err (r : Result bytes Z) : Result bytes StrpoolError :=
  match r with Ok b => Ok b | Err _ => Err ZstdError end.

Definition compress_one_frame (payload : bytes) (dict_id : option Z) : Result bytes StrpoolError :=
  match dict_id with
  | None => map_zstd_err (z_compress None payload)
  | Some id =>
      match dict_bytes provider id with
      | Err e => Err e
      | Ok b => map_zstd_err (z_compress (Some b) payload)
      end
  end.

Definition decompress_one_frame (frame : bytes) : Result bytes StrpoolError :=
  let dict_id := get_dict_id_from_frame frame in
  match get_frame_content_size frame with
  | None => Err ZstdError
  | Some _ =>
      match dict_id with
      | None => map_zstd_err (z_decompress None frame)
      | Some id =>
          match dict_bytes provider id with
          | Err e => Err e
          | Ok b => map_zstd_err (z_decompress (Some b) frame)
          end
      end
  end.

(** ** Shards *)
Record Shard : Type := MkShard {
  file_size : Z; tail_len : Z; entry_count : Z; next_dict_id : option Z }.

Definition tail_start (sh : Shard) : Z :=
  if file_size sh =? 0 then 0 else file_size sh - FOOTER_SIZE - tail_len sh.
Definition write_offset (sh : Shard) : Z :=
  if file_size sh =? 0 then 0 else file_size sh - FOOTER_SIZE.

(** [Shard::open] *)
Definition shard_open (d : Disk) : Disk * Result Shard StrpoolError :=
  let d := MkDisk (d_file d) None in
  match d_file d with
  | None => (d, Ok (MkShard 0 0 0 None))
  | Some b =>
      let file_size := zlen b in
      if file_size =? 0 then (d, Ok (MkShard 0 0 0 None))
      else if file_size <? FOOTER_SIZE then (d, Err (Io InvalidData))
      else
        match read_exact_at b FOOTER_SIZE (file_size - FOOTER_SIZE) with
        | Err e => (d, Err e)
        | Ok buf =>
            (* of eight bytes, so it parses *)
            match parse_footer buf with
            | None => (d, Err (Io InvalidData))
            | Some footer =>
                if file_size - FOOTER_SIZE <? f_tail_len footer then (d, Err (Io InvalidData))
                else (d, Ok (MkShard file_size (f_tail_len footer) (f_entry_count footer) None))
            end
        end
  end.

(** [checked_add_tail] *)
Definition checked_add_tail (tail_len n : Z) : Result Z StrpoolError :=
  if u32_limit <=? n then Err (Io InvalidInput)
  else if u32_limit <=? tail_len + n then Err (Io InvalidInput)
  else Ok (tail_len + n).

(** [Shard::append] *)
Definition append (o : Outcome) (sh : Shard) (d : Disk) (s : bytes) : Shard * Disk * Result Z StrpoolError :=
  let local_id := entry_count sh in
  match checked_add_tail (tail_len sh) (zlen s + 1) with
  | Err e => (sh, d, Err e)
  | Ok new_tail_len =>
      if u32_limit <=? entry_count sh + 1 then (sh, d, Err (Io InvalidInput))
      else
        let new_entry_count := entry_count sh + 1 in
        let payload := s ++ [0] ++ write_footer_bytes (MkFooter new_tail_len new_entry_count) in
        match write_all_at o d payload (write_offset sh) with
        | (d, Err e) => (sh, d, Err e)
        | (d, Ok _) =>
            (MkShard (write_offset sh + zlen payload) new_tail_len new_entry_count (next_dict_id sh),
             d, Ok local_id)
        end
  end.

(** [Shard::append_many] *)
Fixpoint add_tails (tail_len : Z) (strings : list bytes) : Result Z StrpoolError :=
  match strings with
  | [] => Ok tail_len
  | s :: strings =>
      match checked_add_tail tail_len (zlen s + 1) with
      | Err e => Err e
      | Ok t => add_tails t strings
      end
  end.
Definition terminated (strings : list bytes) : bytes := concat ((λ s, s ++ [0]) <$> strings).
Definition append_many (o : Outcome) (sh : Shard) (d : Disk) (strings : list bytes) :
    Shard * Disk * Result (list Z) StrpoolError :=
  match strings with
  | [] => (sh, d, Ok [])
  | _ =>
      match add_tails (tail_len sh) strings with
      | Err e => (sh, d, Err e)
      | Ok new_tail_len =>
          if u32_limit <=? entry_count sh + zlen strings then (sh, d, Err (Io InvalidInput))
          else
            let new_entry_count := entry_count sh + zlen strings in
            let ids := imap (λ i _, entry_count sh + Z.of_nat i) strings in
            let payload := terminated strings ++ write_footer_bytes (MkFooter new_tail_len new_entry_count) in
            match write_all_at o d payload (write_offset sh) with
            | (d, Err e) => (sh, d, Err e)
            | (d, Ok _) =>
                (MkShard (write_offset sh + zlen payload) new_tail_len new_entry_count (next_dict_id sh),
                 d, Ok ids)
            end
      end
  end.

(** [Shard::flush]; [opened] is the error of opening or syncing the file, if
    any. *)
Definition flush (opened : option Z) (sh : Shard) : Result unit StrpoolError :=
  if file_size sh =? 0 then Ok tt
  else match opened with Some e => Err (Io (Os e)) | None => Ok tt end.

Definition set_next_dict (id : Z) (sh : Shard) : Shard :=
  MkShard (file_size sh) (tail_len sh) (entry_count sh) (Some id).

(** [Shard::seal]; an error, or a crash, can come after any byte of the [.tmp]
    and before the rename. *)
Definition seal (o : Outcome) (sh : Shard) (d : Disk) : Shard * Disk * Result bool StrpoolError :=
  if tail_len sh =? 0 then (sh, d, Ok false)
  else
    let tail_start := tail_start sh in
    match d_file d with
    | None => (sh, d, Err (Io NotFound))
    | Some b =>
        match (if tail_start =? 0 then Ok [] else read_exact_at b tail_start 0) with
        | Err e => (sh, d, Err e)
        | Ok frame_region =>
            match read_exact_at b (tail_len sh) tail_start with
            | Err e => (sh, d, Err e)
            | Ok tail =>
                match compress_one_frame tail (next_dict_id sh) with
                | Err e => (sh, d, Err e)
                | Ok frame =>
                    let footer := write_footer_bytes (MkFooter 0 (entry_count sh)) in
                    let payload := frame_region ++ frame ++ footer in
                    match o with
                    | NoOpen e => (sh, d, Err (Io (Os e)))
                    | Short n e => (sh, MkDisk (d_file d) (Some (take n payload)), Err (Io (Os e)))
                    | Done =>
                        (MkShard (zlen frame_region + zlen frame + FOOTER_SIZE) 0 (entry_count sh) (next_dict_id sh),
                         MkDisk (Some payload) None, Ok true)
                    end
                end
            end
        end
    end.
Definition maybe_seal (o : Outcome) (threshold : Z) (sh : Shard) (d : Disk) :
    Shard * Disk * Result bool StrpoolError :=
  if tail_len sh <=? threshold then (sh, d, Ok false) else seal o sh d.

(** ** Walking a shard *)
Section walk.
Context {A : Type} (f : A → Z → bytes → A * Result unit StrpoolError).

(** The loop over the strings of a buffer; one without its terminator ends it. *)
Fixpoint entries_loop (cur buf : bytes) (acc : A) (local_id : Z) : A * Result Z StrpoolError :=
  match buf with
  | [] => (acc, Ok local_id)
  | c :: buf =>
      if c =? 0 then
        match f acc local_id cur with
        | (acc, Err e) => (acc, Err e)
        | (acc, Ok _) => entries_loop [] buf acc ((local_id + 1) mod u32_limit)
        end
      else entries_loop (cur ++ [c]) buf acc local_id
  end.

Definition PROBE : Z := 64 * 1024.

(** The loop over frames; each takes a byte at least. *)
Fixpoint frames_loop (fuel : nat) (b : bytes) (tail_start cursor : Z) (acc : A) (local_id : Z) :
    A * Result Z StrpoolError :=
  if tail_start <=? cursor then (acc, Ok local_id)
  else
    match fuel with
    | O => (acc, Ok local_id)
    | S fuel =>
        let remaining := tail_start - cursor in
        let probe_len := Z.min remaining PROBE in
        match read_exact_at b probe_len cursor with
        | Err e => (acc, Err e)
        | Ok probe =>
            match find_frame_compressed_size probe with
            | None => (acc, Err ZstdError)
            | Some n =>
                let frame_len := Z.of_nat n in
                if (frame_len =? 0) || (remaining <? frame_len) then (acc, Err ZstdError)
                else
                  match (if frame_len <=? zlen probe then Ok (take n probe)
                         else read_exact_at b frame_len cursor) with
                  | Err e => (acc, Err e)
                  | Ok frame =>
                      match decompress_one_frame frame with
                      | Err e => (acc, Err e)
                      | Ok decoded =>
                          match entries_loop [] decoded acc local_id with
                          | (acc, Err e) => (acc, Err e)
                          | (acc, Ok local_id) => frames_loop fuel b tail_start (cursor + frame_len) acc local_id
                          end
                      end
                  end
            end
        end
    end.

(** [Shard::for_each] *)
Definition for_each (sh : Shard) (d : Disk) (acc : A) : A * Result unit StrpoolError :=
  if file_size sh =? 0 then (acc, Ok tt)
  else
    match d_file d with
    | None => (acc, Err (Io NotFound))
    | Some b =>
        match frames_loop (Z.to_nat (tail_start sh)) b (tail_start sh) 0 acc 0 with
        | (acc, Err e) => (acc, Err e)
        | (acc, Ok local_id) =>
            if 0 <? tail_len sh then
              match read_exact_at b (tail_len sh) (tail_start sh) with
              | Err e => (acc, Err e)
              | Ok tail =>
                  match entries_loop [] tail acc local_id with
                  | (acc, Err e) => (acc, Err e)
                  | (acc, Ok _) => (acc, Ok tt)
                  end
              end
            else (acc, Ok tt)
        end
    end.
End walk.
End shard.
