(* ===== verification/StrPoolLaws.v ===== *)
(** * The string pool: what a shard holds.

    A shard stands for the list of its strings.  Appends add to it, a seal and
    an error or a crash at any point of one keep it, and opening finds it. *)

From S2P Require Import Prelude.
From S2P Require Import StrPool.
Open Scope Z_scope.

(** ** Bytes *)

Arguments write_footer_bytes : simpl never.
Arguments FOOTER_SIZE : simpl never.

Definition nul_free (s : bytes) : Prop := 0 ∉ s.

Lemma footer_length f : length (write_footer_bytes f) = 8%nat.
Proof. unfold write_footer_bytes. by rewrite length_app, !le_encode_length. Qed.
Lemma footer_zlen f : zlen (write_footer_bytes f) = FOOTER_SIZE.
Proof. unfold zlen. by rewrite footer_length. Qed.

Lemma parse_write_footer t e :
  0 ≤ t < u32_limit → 0 ≤ e < u32_limit →
  parse_footer (write_footer_bytes (MkFooter t e)) = Some (MkFooter t e).
Proof.
  intros Ht He. unfold parse_footer. rewrite footer_zlen. change (negb (FOOTER_SIZE =? FOOTER_SIZE)) with false.
  cbv iota. unfold write_footer_bytes. cbn [f_tail_len f_entry_count].
  rewrite take_app_length', drop_app_length' by by rewrite le_encode_length.
  rewrite take_ge by by rewrite le_encode_length. by rewrite !le_roundtrip.
Qed.

Lemma read_middle a b c n off :
  n = zlen b → off = zlen a → read_exact_at (a ++ b ++ c) n off = Ok b.
Proof.
  intros -> ->. unfold read_exact_at. rewrite (proj2 (Z.leb_le _ _)) by (rewrite !zlen_app; pose proof (zlen_nonneg c); lia).
  unfold zlen. rewrite !Nat2Z.id, drop_app_length, take_app_length. done.
Qed.

Lemma write_end a b data off :
  off = zlen a → write_at (a ++ b) data off = a ++ data ++ drop (length data) b.
Proof.
  intros ->. unfold write_at, zlen. rewrite Nat2Z.id, take_app_length, length_app.
  replace (length a - (length a + length b))%nat with 0%nat by lia. simpl.
  by rewrite drop_app_add.
Qed.

Lemma terminated_app ss ss' : terminated (ss ++ ss') = terminated ss ++ terminated ss'.
Proof. unfold terminated. by rewrite fmap_app, concat_app. Qed.
Lemma terminated_one s : terminated [s] = s ++ [0].
Proof. unfold terminated. simpl. by rewrite app_nil_r. Qed.

(** ** Walking *)
Section walking.
Context `{Zstd} (provider : option DictProvider).
Context {A : Type} (f : A → Z → bytes → A * Result unit StrpoolError).

(** The callback on strings numbered from [id] *)
Fixpoint walk (acc : A) (id : Z) (ss : list bytes) : A * Result Z StrpoolError :=
  match ss with
  | [] => (acc, Ok id)
  | s :: ss =>
      match f acc id s with
      | (acc, Err e) => (acc, Err e)
      | (acc, Ok _) => walk acc ((id + 1) mod u32_limit) ss
      end
  end.

Lemma walk_app acc id ss ss' :
  walk acc id (ss ++ ss')
  = match walk acc id ss with (acc, Err e) => (acc, Err e) | (acc, Ok id) => walk acc id ss' end.
Proof.
  revert acc id. induction ss as [|s ss IH]; intros acc id; [done|]. simpl.
  destruct (f acc id s) as [acc' [|]]; [apply IH|done].
Qed.

Lemma entries_loop_word cur s buf acc id :
  nul_free s → entries_loop f cur (s ++ buf) acc id = entries_loop f (cur ++ s) buf acc id.
Proof.
  revert cur. induction s as [|c s IH]; intros cur Hs; simpl; [by rewrite app_nil_r|].
  apply not_elem_of_cons in Hs as [Hc Hs]. rewrite (proj2 (Z.eqb_neq c 0)) by done.
  by rewrite IH, <- app_assoc.
Qed.

Lemma entries_loop_terminated ss acc id :
  Forall nul_free ss → entries_loop f [] (terminated ss) acc id = walk acc id ss.
Proof.
  intros Hss. revert acc id. induction Hss as [|s ss Hs _ IH]; intros acc id; [done|].
  change (terminated (s :: ss)) with ((s ++ [0]) ++ terminated ss). rewrite <- app_assoc, entries_loop_word by done.
  simpl. destruct (f acc id s) as [acc' [|]]; [apply IH|done].
Qed.

(** A frame the walk can read: its size is found in the probe. *)
Definition readable (fr payload : bytes) : Prop :=
  fr ≠ [] ∧ zlen fr ≤ PROBE ∧ (∀ rest, find_frame_compressed_size (fr ++ rest) = Some (length fr)) ∧
  decompress_one_frame provider fr = Ok payload.

(** Frames with the strings they hold *)
Definition region (frames : list (bytes * list bytes)) : bytes := concat frames.*1.
Definition entries (frames : list (bytes * list bytes)) : list bytes := concat frames.*2.
Definition frames_ok (frames : list (bytes * list bytes)) : Prop :=
  Forall (λ p, readable p.1 (terminated p.2) ∧ Forall nul_free p.2) frames.

Lemma frames_loop_ok frames fuel pre post acc id :
  frames_ok frames → (length frames ≤ fuel)%nat →
  frames_loop provider f fuel (pre ++ region frames ++ post) (zlen pre + zlen (region frames)) (zlen pre) acc id
  = walk acc id (entries frames).
Proof.
  intros Hfr. revert fuel pre acc id.
  induction Hfr as [|[fr ss] frames [Hread Hnul] _ IH]; intros fuel pre acc id Hf; simpl in Hf.
  - destruct fuel; simpl; by rewrite (proj2 (Z.leb_le _ _)) by (unfold region, zlen; simpl; lia).
  - destruct fuel as [|fuel]; [lia|]. cbn [fst snd] in Hread, Hnul. destruct Hread as (Hne&Hlen&Hsize&Hdec).
    assert (Hpos : 0 < zlen fr) by (destruct fr; [done|unfold zlen; simpl; lia]).
    change (region ((fr, ss) :: frames)) with (fr ++ region frames).
    change (entries ((fr, ss) :: frames)) with (ss ++ entries frames).
    rewrite zlen_app. pose proof (zlen_nonneg (region frames)) as Hr.
    cbn [frames_loop]. rewrite (proj2 (Z.leb_gt _ _)) by lia. cbv zeta.
    replace (zlen pre + (zlen fr + zlen (region frames)) - zlen pre) with (zlen fr + zlen (region frames)) by lia.
    set (m := Z.min (zlen fr + zlen (region frames)) PROBE).
    assert (Hm : zlen fr ≤ m ≤ zlen fr + zlen (region frames)) by (unfold m; lia).
    assert (Hprobe : read_exact_at (pre ++ (fr ++ region frames) ++ post) m (zlen pre)
      = Ok (fr ++ take (Z.to_nat (m - zlen fr)) (region frames))).
    { rewrite <- (take_drop (Z.to_nat (m - zlen fr)) (region frames)) at 1.
      rewrite (app_assoc fr), <- (app_assoc (fr ++ _)). apply read_middle; [|done].
      rewrite zlen_app. unfold zlen at 2. rewrite length_take. unfold zlen in *. lia. }
    rewrite Hprobe, Hsize. fold (zlen fr). rewrite (proj2 (Z.eqb_neq _ _)), (proj2 (Z.ltb_ge _ _)) by lia. simpl orb.
    rewrite (proj2 (Z.leb_le _ _)) by (rewrite zlen_app; pose proof (zlen_nonneg (take (Z.to_nat (m - zlen fr)) (region frames))); lia).
    rewrite take_app_length, Hdec. rewrite entries_loop_terminated, walk_app by done.
    destruct (walk acc id ss) as [acc' [id'|e]]; [|done].
    specialize (IH fuel (pre ++ fr) acc' id' ltac:(lia)). rewrite zlen_app, <- !app_assoc, <- Z.add_assoc in IH.
    rewrite <- app_assoc. exact IH.
Qed.
End walking.

(** ** What a shard stands for *)
Section shard.
Context `{Zstd} `{!ZstdLaws} (provider : option DictProvider).

(** The shard's strings, in memory and on disk; what follows the tail in the
    file may be anything. *)
Record Holds (sh : Shard) (d : Disk) (frames : list (bytes * list bytes)) (tail : list bytes) (rest : bytes) :
    Prop := {
  h_frames : frames_ok provider frames;
  h_tail : Forall nul_free tail;
  h_count : entry_count sh = zlen (entries frames ++ tail);
  h_tail_len : tail_len sh = zlen (terminated tail);
  h_bounds : entry_count sh < u32_limit ∧ tail_len sh < u32_limit;
  h_file : (file_size sh = 0 ∧ frames = [] ∧ tail = [] ∧ rest = default [] (d_file d)) ∨
    (d_file d = Some (region frames ++ terminated tail ++ rest) ∧
     file_size sh = zlen (region frames ++ terminated tail) + FOOTER_SIZE) }.

(** A file that ends with its footer, or that is empty *)
Definition clean (sh : Shard) (rest : bytes) : Prop :=
  if file_size sh =? 0 then rest = [] else rest = write_footer_bytes (MkFooter (tail_len sh) (entry_count sh)).

Definition Rep (sh : Shard) (d : Disk) (ss : list bytes) : Prop :=
  ∃ frames tail rest, Holds sh d frames tail rest ∧ ss = entries frames ++ tail.
Definition CleanRep (sh : Shard) (d : Disk) (ss : list bytes) : Prop :=
  ∃ frames tail rest, Holds sh d frames tail rest ∧ ss = entries frames ++ tail ∧ clean sh rest.

Lemma clean_rep sh d ss : CleanRep sh d ss → Rep sh d ss.
Proof. intros (fr&tl&rest&?&?&_). by exists fr, tl, rest. Qed.

Lemma offsets sh d frames tail rest :
  Holds sh d frames tail rest →
  write_offset sh = zlen (region frames ++ terminated tail) ∧ tail_start sh = zlen (region frames) ∧
  default [] (d_file d) = (region frames ++ terminated tail) ++ rest.
Proof.
  intros []. unfold write_offset, tail_start. destruct h_file0 as [(Hz&->&->&->)|[-> Hfs]].
  - by rewrite Hz.
  - pose proof (zlen_nonneg (region frames ++ terminated tail)) as Hn. unfold FOOTER_SIZE in *.
    rewrite (proj2 (Z.eqb_neq _ _)) by lia. simpl. rewrite zlen_app, app_assoc in *. split_and!; [lia..|done].
Qed.

Lemma frames_count frames : frames_ok provider frames → (length frames ≤ Z.to_nat (zlen (region frames)))%nat.
Proof.
  intros Hf. induction Hf as [|[fr ss] frames [(Hne&_) _] _ IH]; [simpl; lia|].
  change (region ((fr, ss) :: frames)) with (fr ++ region frames). rewrite zlen_app.
  pose proof (zlen_nonneg (region frames)). assert (0 < zlen fr) by (destruct fr; [done|unfold zlen; simpl; lia]).
  simpl. lia.
Qed.

(** A walk calls the callback on the strings in order. *)
Lemma for_each_walk {A} (f : A → Z → bytes → A * Result unit StrpoolError) sh d ss acc :
  Rep sh d ss →
  for_each provider f sh d acc
  = match walk f acc 0 ss with (acc, Ok _) => (acc, Ok tt) | (acc, Err e) => (acc, Err e) end.
Proof.
  intros (frames&tail&rest&Hh&->). destruct (offsets _ _ _ _ _ Hh) as (_&Hts&_).
  pose proof (frames_count frames (h_frames _ _ _ _ _ Hh)) as Hfuel.
  unfold for_each. destruct (h_file _ _ _ _ _ Hh) as [(Hz&->&->&_)|[Hd Hfs]]; [by rewrite Hz|].
  pose proof (zlen_nonneg (region frames ++ terminated tail)) as Hn. unfold FOOTER_SIZE in *.
  rewrite (proj2 (Z.eqb_neq _ _)) by lia. rewrite Hd, Hts, walk_app.
  pose proof (frames_loop_ok provider f frames (Z.to_nat (zlen (region frames))) [] (terminated tail ++ rest) acc 0
    (h_frames _ _ _ _ _ Hh) Hfuel) as Hloop.
  simpl in Hloop. change (zlen []) with 0 in Hloop. rewrite Z.add_0_l in Hloop. rewrite Hloop.
  destruct (walk f acc 0 (entries frames)) as [acc' [id|e]]; [|done].
  rewrite (h_tail_len _ _ _ _ _ Hh). destruct (Z.ltb_spec 0 (zlen (terminated tail))) as [Hpos|Hz].
  - rewrite read_middle by done. rewrite entries_loop_terminated by apply (h_tail _ _ _ _ _ Hh).
    by destruct (walk f acc' id tail) as [? [|]].
  - destruct tail as [|s tail]; [done|]. exfalso. change (terminated (s :: tail)) with ((s ++ [0]) ++ terminated tail) in Hz.
    rewrite !zlen_app in Hz. pose proof (zlen_nonneg s). pose proof (zlen_nonneg (terminated tail)).
    change (zlen [0]) with 1 in Hz. lia.
Qed.

(** ** Appending *)

(** What a successful write at the end of the tail leaves *)
Lemma extend_holds sh d frames tail rest ss :
  let payload := terminated ss ++ write_footer_bytes (MkFooter (zlen (terminated (tail ++ ss))) (zlen (entries frames ++ tail ++ ss))) in
  Holds sh d frames tail rest → Forall nul_free ss →
  zlen (terminated (tail ++ ss)) < u32_limit → zlen (entries frames ++ tail ++ ss) < u32_limit →
  let sh' := MkShard (write_offset sh + zlen payload) (zlen (terminated (tail ++ ss)))
    (zlen (entries frames ++ tail ++ ss)) (next_dict_id sh) in
  let d' := MkDisk (Some (write_at (default [] (d_file d)) payload (write_offset sh))) (d_tmp d) in
  ∃ rest', Holds sh' d' frames (tail ++ ss) rest' ∧ (clean sh rest → ss ≠ [] → clean sh' rest').
Proof.
  intros payload Hh Hss Ht Hc sh' d'. destruct (offsets _ _ _ _ _ Hh) as (Hwo&_&Hd).
  set (footer := write_footer_bytes _) in payload.
  exists (footer ++ drop (length payload) rest). split.
  - split; [apply (h_frames _ _ _ _ _ Hh)|by apply Forall_app; split; [apply (h_tail _ _ _ _ _ Hh)|]|done..|].
    right. unfold sh', d', payload. cbn [file_size d_file]. split.
    + rewrite Hd, write_end by done. rewrite terminated_app, <- !app_assoc. done.
    + rewrite Hwo, terminated_app, !zlen_app. unfold footer. rewrite footer_zlen. lia.
  - intros Hclean Hne. unfold clean, sh'. cbn [file_size tail_len entry_count].
    pose proof (zlen_nonneg (region frames ++ terminated tail)). assert (zlen payload ≠ 0).
    { unfold payload, footer. rewrite zlen_app, footer_zlen. pose proof (zlen_nonneg (terminated ss)). unfold FOOTER_SIZE. lia. }
    pose proof (zlen_nonneg payload). rewrite (proj2 (Z.eqb_neq _ _)) by lia.
    rewrite drop_ge; [by rewrite app_nil_r|]. unfold clean in Hclean.
    destruct (file_size sh =? 0); subst rest; [simpl; lia|]. rewrite footer_length. unfold payload, footer.
    rewrite length_app, footer_length. lia.
Qed.

(** The sums [append_many] makes, with their checks *)
Lemma add_tails_ok t ss t' : 0 ≤ t → add_tails t ss = Ok t' → t' = t + zlen (terminated ss) ∧ (ss ≠ [] → t' < u32_limit).
Proof.
  revert t. induction ss as [|s ss IH]; intros t Ht; simpl.
  - intros [= <-]. change (terminated []) with (@nil Z). change (zlen []) with 0. split; [lia|done].
  - unfold checked_add_tail. destruct (u32_limit <=? zlen s + 1); [done|].
    destruct (Z.leb_spec u32_limit (t + (zlen s + 1))) as [|Hlt]; [done|]. intros Ha.
    pose proof (zlen_nonneg s). destruct (IH (t + (zlen s + 1)) ltac:(lia) Ha) as [-> Hb].
    change (terminated (s :: ss)) with ((s ++ [0]) ++ terminated ss). rewrite !zlen_app. change (zlen [0]) with 1.
    split; [lia|]. intros _. destruct ss as [|s' ss]; [simpl in *|specialize (Hb ltac:(done)); lia].
    change (zlen (terminated [])) with 0. lia.
Qed.

Lemma append_as_many o sh d s :
  (∀ id, entry_count sh = id → (append o sh d s).2 = match (append_many o sh d [s]).2 with
    | Ok _ => Ok id | Err e => Err e end) ∧ (append o sh d s).1 = (append_many o sh d [s]).1.
Proof.
  unfold append, append_many, add_tails. destruct (checked_add_tail (tail_len sh) (zlen s + 1)) as [t|e]; [|done].
  change (zlen [s]) with 1. destruct (u32_limit <=? entry_count sh + 1); [done|].
  rewrite terminated_one, <- app_assoc. cbv zeta. destruct (write_all_at _ _ _ _) as [d' [|]]; [|done].
  split; [|done]. by intros id ->.
Qed.

(** Whatever is written after the tail, the shard's strings stay. *)
Lemma overwrite_holds sh d frames tail rest data tmp :
  Holds sh d frames tail rest →
  Holds sh (MkDisk (Some (write_at (default [] (d_file d)) data (write_offset sh))) tmp) frames tail
    (data ++ drop (length data) rest).
Proof.
  intros Hh. destruct (offsets _ _ _ _ _ Hh) as (Hwo&_&Hd). destruct Hh as [Hf Ht Hc Htl Hb Hfile].
  split; [done..|]. cbn [d_file]. rewrite Hd, write_end by done.
  destruct Hfile as [(Hz&->&->&->)|[_ Hfs]]; [by left|right]. by rewrite <- app_assoc.
Qed.

(** An append of several strings that succeeds adds them; one that fails leaves
    the shard in memory as it was, and its strings on disk. *)
Lemma append_many_holds o sh d frames tail rest new sh' d' r :
  Forall nul_free new → Holds sh d frames tail rest → append_many o sh d new = (sh', d', r) →
  match r with
  | Ok ids =>
      ids = imap (λ i _, zlen (entries frames ++ tail) + Z.of_nat i) new ∧
      ∃ rest', Holds sh' d' frames (tail ++ new) rest' ∧ (clean sh rest → clean sh' rest')
  | Err _ => sh' = sh ∧ ∃ rest', Holds sh d' frames tail rest' ∧ (clean sh rest → o = Done → clean sh rest')
  end.
Proof.
  intros Hnew Hh. unfold append_many.
  destruct new as [|s0 new0]; [intros [= <- <- <-]; rewrite app_nil_r; split; [done|by exists rest]|].
  set (new := s0 :: new0) in *. assert (Hne : new ≠ []) by done. clearbody new. clear s0 new0.
  destruct (add_tails (tail_len sh) new) as [t|e] eqn:Hadd; [|intros [= <- <- <-]; split; [done|by exists rest]].
  apply add_tails_ok in Hadd as [Ht Htb]; [|rewrite (h_tail_len _ _ _ _ _ Hh); apply zlen_nonneg]. specialize (Htb Hne).
  rewrite (h_tail_len _ _ _ _ _ Hh), <- zlen_app, <- terminated_app in Ht.
  rewrite (h_count _ _ _ _ _ Hh), <- (zlen_app (_ ++ _)), <- app_assoc. subst t.
  destruct (Z.leb_spec u32_limit (zlen (entries frames ++ tail ++ new))) as [|Hcount];
    [intros [= <- <- <-]; split; [done|by exists rest]|].
  cbv zeta. unfold write_all_at. destruct o as [|n e|e].
  - intros Heq.
    destruct (extend_holds sh d frames tail rest new Hh Hnew Htb Hcount) as (rest'&Hh'&Hcl).
    simplify_eq. split; [done|]. exists rest'. auto.
  - intros Heq. pose proof (overwrite_holds sh d frames tail rest (take n (terminated new ++ write_footer_bytes
      (MkFooter (zlen (terminated (tail ++ new))) (zlen (entries frames ++ tail ++ new))))) (d_tmp d) Hh) as Hov.
    simplify_eq. split; [done|]. by eexists.
  - intros [= <- <- <-]. split; [done|by exists rest].
Qed.

(** ** Sealing *)

(** Dictionaries carry the ids they are asked for by. *)
Definition provider_ok : Prop := ∀ id b, dict_bytes provider id = Ok b → dict_id_of b = Some id.

Lemma compress_dict payload dict_id fr :
  provider_ok → compress_one_frame provider payload dict_id = Ok fr →
  ∃ d, z_compress d payload = Ok fr ∧ match d ≫= dict_id_of with
    | None => d = None | Some id => ∃ b, d = Some b ∧ dict_bytes provider id = Ok b end.
Proof.
  intros Hp Hc. unfold compress_one_frame in Hc. destruct dict_id as [id|].
  - destruct (dict_bytes provider id) as [b|] eqn:Hd; [|done]. exists (Some b). simpl. rewrite (Hp _ _ Hd).
    destruct (z_compress (Some b) payload); simpl in Hc; [|done]. simplify_eq. eauto.
  - exists None. destruct (z_compress None payload); simpl in Hc; [|done]. by simplify_eq.
Qed.

(** A frame decompresses to what was compressed, with the dictionary its own id
    names. *)
Lemma decompress_compress payload dict_id fr :
  provider_ok → compress_one_frame provider payload dict_id = Ok fr → decompress_one_frame provider fr = Ok payload.
Proof.
  intros Hp Hc. destruct (compress_dict _ _ _ Hp Hc) as (d&Hz&Hd). unfold decompress_one_frame. rewrite (z_dict_id _ _ _ Hz).
  destruct (get_frame_content_size fr) eqn:Hs; [|by apply z_content_size in Hz].
  pose proof (z_roundtrip _ _ _ Hz) as Hr. destruct (d ≫= dict_id_of) as [id|].
  - destruct Hd as (b&->&->). by rewrite Hr.
  - subst d. by rewrite Hr.
Qed.

Lemma compress_readable payload dict_id fr :
  provider_ok → compress_one_frame provider payload dict_id = Ok fr → zlen fr ≤ PROBE → readable provider fr payload.
Proof.
  intros Hp Hc Hlen. destruct (compress_dict _ _ _ Hp Hc) as (d&Hz&Hd). split; [by eapply z_nonempty|]. split; [done|].
  split; [intros rest; by eapply z_size|by eapply decompress_compress].
Qed.

(** The frame a seal would write is one a walk finds. *)
Definition frame_fits (sh : Shard) (tail : list bytes) : Prop :=
  ∀ fr, compress_one_frame provider (terminated tail) (next_dict_id sh) = Ok fr → zlen fr ≤ PROBE.

Lemma tmp_holds sh d frames tail rest tmp :
  Holds sh d frames tail rest → Holds sh (MkDisk (d_file d) tmp) frames tail rest.
Proof. intros []. by split. Qed.

Lemma region_app fr fr' : region (fr ++ fr') = region fr ++ region fr'.
Proof. unfold region. by rewrite fmap_app, concat_app. Qed.
Lemma entries_app fr fr' : entries (fr ++ fr') = entries fr ++ entries fr'.
Proof. unfold entries. by rewrite fmap_app, concat_app. Qed.

(** A seal that is not done leaves the file; one that is done replaces the tail
    by its frame. *)
Lemma seal_file o sh d frames tail rest sh' d' r :
  Holds sh d frames tail rest → seal provider o sh d = (sh', d', r) →
  (r = Ok true ∧ ∃ fr, compress_one_frame provider (terminated tail) (next_dict_id sh) = Ok fr ∧
    d_file d' = Some (region frames ++ fr ++ write_footer_bytes (MkFooter 0 (entry_count sh))) ∧
    sh' = MkShard (zlen (region frames) + zlen fr + FOOTER_SIZE) 0 (entry_count sh) (next_dict_id sh))
  ∨ (r ≠ Ok true ∧ sh' = sh ∧ d_file d' = d_file d ∧ Holds sh d' frames tail rest).
Proof.
  intros Hh. destruct (offsets _ _ _ _ _ Hh) as (_&Hts&_). unfold seal.
  destruct (tail_len sh =? 0) eqn:Htz; [intros [= <- <- <-]; by right|]. apply Z.eqb_neq in Htz.
  destruct (h_file _ _ _ _ _ Hh) as [(_&_&->&_)|[Hd Hfs]]; [by rewrite (h_tail_len _ _ _ _ _ Hh) in Htz|].
  rewrite Hd, Hts.
  assert (Hreg : (if zlen (region frames) =? 0 then Ok [] else read_exact_at (region frames ++ terminated tail ++ rest) (zlen (region frames)) 0)
    = Ok (region frames)).
  { destruct (Z.eqb_spec (zlen (region frames)) 0) as [Hz|_]; [|by apply (read_middle [])].
    by destruct (region frames). }
  rewrite Hreg, (h_tail_len _ _ _ _ _ Hh), read_middle by done.
  destruct (compress_one_frame provider (terminated tail) (next_dict_id sh)) as [fr|e] eqn:Hcomp;
    [|intros [= <- <- <-]; by right].
  destruct o as [|n e|e]; [|intros [= <- <- <-]; right; split_and!; [done..|rewrite <- Hd; by apply tmp_holds]
    |intros [= <- <- <-]; by right].
  intros [= <- <- <-]. left. split; [done|]. by exists fr.
Qed.

(** The shard after a seal whose frame a walk finds *)
Lemma sealed_holds sh d frames tail rest fr d' :
  provider_ok → Holds sh d frames tail rest →
  compress_one_frame provider (terminated tail) (next_dict_id sh) = Ok fr → zlen fr ≤ PROBE →
  d_file d' = Some (region frames ++ fr ++ write_footer_bytes (MkFooter 0 (entry_count sh))) →
  Holds (MkShard (zlen (region frames) + zlen fr + FOOTER_SIZE) 0 (entry_count sh) (next_dict_id sh)) d'
    (frames ++ [(fr, tail)]) [] (write_footer_bytes (MkFooter 0 (entry_count sh))).
Proof.
  intros Hp Hh Hcomp Hlen Hd. pose proof (compress_readable _ _ _ Hp Hcomp Hlen) as Hread.
  split; cbn [entry_count tail_len file_size]; rewrite ?region_app, ?entries_app.
  - apply Forall_app. split; [apply (h_frames _ _ _ _ _ Hh)|]. repeat constructor; [apply Hread..|].
    apply (h_tail _ _ _ _ _ Hh).
  - constructor.
  - rewrite app_nil_r. unfold entries at 2. simpl. rewrite app_nil_r. apply (h_count _ _ _ _ _ Hh).
  - done.
  - split; [apply (h_bounds _ _ _ _ _ Hh)|done].
  - right. change (region [(fr, tail)]) with (fr ++ []). change (terminated []) with (@nil Z).
    cbn [app]. by rewrite !app_nil_r, <- app_assoc, zlen_app.
Qed.

Lemma sealed_clean sh frames (fr : bytes) :
  clean (MkShard (zlen (region frames) + zlen fr + FOOTER_SIZE) 0 (entry_count sh) (next_dict_id sh))
    (write_footer_bytes (MkFooter 0 (entry_count sh))).
Proof.
  unfold clean. cbn [file_size entry_count tail_len].
  pose proof (zlen_nonneg (region frames)). pose proof (zlen_nonneg fr). unfold FOOTER_SIZE.
  by rewrite (proj2 (Z.eqb_neq _ _)) by lia.
Qed.

(** ** Opening *)

(** A file with a footer opens with what the footer says. *)
Lemma open_footer d body t e :
  d_file d = Some (body ++ write_footer_bytes (MkFooter t e)) → 0 ≤ t ≤ zlen body → t < u32_limit → 0 ≤ e < u32_limit →
  shard_open d = (MkDisk (d_file d) None, Ok (MkShard (zlen body + FOOTER_SIZE) t e None)).
Proof.
  intros Hd Ht Htb He. unfold shard_open. cbn [d_file]. rewrite Hd. cbv beta iota zeta.
  rewrite zlen_app, footer_zlen. pose proof (zlen_nonneg body) as Hn.
  rewrite (proj2 (Z.eqb_neq _ _)), (proj2 (Z.ltb_ge _ _)) by (unfold FOOTER_SIZE; lia).
  rewrite <- (app_nil_r (write_footer_bytes _)), (read_middle body (write_footer_bytes _) []) by (rewrite ?footer_zlen; unfold FOOTER_SIZE; lia).
  rewrite parse_write_footer by lia. cbn [f_tail_len f_entry_count].
  by rewrite (proj2 (Z.ltb_ge _ _)), app_nil_r by (unfold FOOTER_SIZE; lia).
Qed.

Lemma open_holds sh d frames tail rest :
  Holds sh d frames tail rest → clean sh rest →
  ∃ sh', shard_open d = (MkDisk (d_file d) None, Ok sh') ∧ Holds sh' (MkDisk (d_file d) None) frames tail rest ∧
    clean sh' rest ∧ entry_count sh' = entry_count sh.
Proof.
  intros Hh Hclean. unfold shard_open, clean in *. cbn [d_file].
  destruct (h_file _ _ _ _ _ Hh) as [(Hz&->&->&Hrest)|[Hd Hfs]].
  - rewrite Hz in Hclean. change (0 =? 0) with true in Hclean. cbv iota in Hclean. subst rest.
    exists (MkShard 0 0 0 None).
    assert (Hopen : match d_file d with None => True | Some b => b = [] end)
      by (destruct (d_file d); [by simpl in Hrest|done]).
    split; [destruct (d_file d); [by subst|done]|]. split; [|by rewrite (h_count _ _ _ _ _ Hh)].
    split; simpl; [constructor|constructor|done..|]. left. split_and!; [done..|]. by destruct (d_file d).
  - pose proof (zlen_nonneg (region frames ++ terminated tail)) as Hn.
    assert (Hf0 : (file_size sh =? 0) = false) by (apply Z.eqb_neq; unfold FOOTER_SIZE in *; lia).
    rewrite Hf0 in Hclean. subst rest. set (footer := write_footer_bytes _) in *.
    exists (MkShard (file_size sh) (tail_len sh) (entry_count sh) None). rewrite Hd. cbv beta iota zeta.
    assert (Hlen : zlen (region frames ++ terminated tail ++ footer) = file_size sh)
      by (rewrite Hfs, app_assoc, zlen_app; unfold footer; by rewrite footer_zlen).
    rewrite Hlen, Hf0, (proj2 (Z.ltb_ge _ _)) by (unfold FOOTER_SIZE in *; lia).
    rewrite app_assoc, <- (app_nil_r footer), (read_middle _ footer []) by (unfold footer; rewrite ?footer_zlen; unfold FOOTER_SIZE in *; lia).
    rewrite app_nil_r, <- app_assoc. unfold footer at 1. rewrite parse_write_footer.
    2:{ rewrite (h_tail_len _ _ _ _ _ Hh). split; [apply zlen_nonneg|]. rewrite <- (h_tail_len _ _ _ _ _ Hh).
        apply (h_bounds _ _ _ _ _ Hh). }
    2:{ rewrite (h_count _ _ _ _ _ Hh). split; [apply zlen_nonneg|]. rewrite <- (h_count _ _ _ _ _ Hh).
        apply (h_bounds _ _ _ _ _ Hh). }
    cbn [f_tail_len f_entry_count]. rewrite (proj2 (Z.ltb_ge _ _)).
    2:{ rewrite (h_tail_len _ _ _ _ _ Hh), Hfs, zlen_app. pose proof (zlen_nonneg (region frames)). lia. }
    split; [done|]. split; [|by cbn [file_size tail_len entry_count]; rewrite Hf0].
    destruct Hh. split; [done..|]. cbn [d_file file_size]. by right.
Qed.
End shard.
