(* ===== verification/StrPools.v ===== *)
(** * The string pool.

    Models [chupa/strpool/src/pool.rs]: shards behind one interface, with ids
    that name their shard in the low bits. *)

From S2P Require Import Prelude.
From S2P Require Import StrPool.
From S2P Require Import StrPoolLaws.
Open Scope sarun_scope.
Open Scope Z_scope.

(** ** [u32::next_power_of_two] and [trailing_zeros] *)
Definition next_power_of_two (n : Z) : Z := (2 ^ Z.log2_up n) mod u32_limit.
Fixpoint zeros_loop (fuel : nat) (n : Z) : Z :=
  match fuel with
  | O => 0
  | S fuel => if Z.even n then 1 + zeros_loop fuel (n / 2) else 0
  end.
Definition trailing_zeros (n : Z) : Z := zeros_loop 32 n.

(** [memmem::find(..).is_some()] *)
Fixpoint starts (needle s : bytes) : bool :=
  match needle, s with
  | [], _ => true
  | x :: needle, y :: s => (x =? y) && starts needle s
  | _ :: _, [] => false
  end.
Fixpoint found_in (needle s : bytes) : bool :=
  starts needle s || match s with [] => false | _ :: s => found_in needle s end.

(** ** The pool *)
Section pool.
Context `{Zstd} (provider : option DictProvider).

(** Each shard with its files *)
Record Pool : Type := MkPool {
  shard_count : Z; seal_threshold_bytes : Z; shard_bits : Z;
  shards : list (Shard * Disk); scans : list Z }.

Fixpoint open_shards (ds : list Disk) : list Disk * Result (list (Shard * Disk)) StrpoolError :=
  match ds with
  | [] => ([], Ok [])
  | d :: ds =>
      match shard_open d with
      | (d, Err e) => (d :: ds, Err e)
      | (d, Ok sh) =>
          match open_shards ds with
          | (ds, Err e) => (d :: ds, Err e)
          | (ds, Ok shs) => (d :: ds, Ok ((sh, d) :: shs))
          end
      end
  end.

(** [Pool::open] on the files of the shards; [None] is the assertion. *)
Definition pool_open (threshold : Z) (ds : list Disk) : option (list Disk * Result Pool StrpoolError) :=
  let count := zlen ds in
  if count <? 1 then None
  else
    let bits := if count <=? 1 then 0 else trailing_zeros (next_power_of_two count) in
    match open_shards ds with
    | (ds, Err e) => Some (ds, Err e)
    | (ds, Ok shs) => Some (ds, Ok (MkPool count threshold bits shs (replicate (length ds) 0)))
    end.

Definition set_shards (shs : list (Shard * Disk)) (p : Pool) : Pool :=
  MkPool (shard_count p) (seal_threshold_bytes p) (shard_bits p) shs (scans p).

(** [Pool::shard] *)
Definition shard_at (p : Pool) (sid : Z) : Result (Shard * Disk) StrpoolError :=
  if shard_count p <=? sid then Err (Io InvalidInput)
  else match shards p !! Z.to_nat sid with Some x => Ok x | None => Err (Io InvalidInput) end.

Definition global_id (p : Pool) (local sid : Z) : Z := Z.lor (Z.shiftl local (shard_bits p)) sid.

Definition shard_entry_count (p : Pool) (sid : Z) : Result Z StrpoolError :=
  let? x := shard_at p sid in Ok (entry_count x.1).
Definition shard_file_size (p : Pool) (sid : Z) : Result Z StrpoolError :=
  let? x := shard_at p sid in Ok (file_size x.1).

(** [Pool::append] and [Pool::append_many] *)
Definition pool_append (o : Outcome) (p : Pool) (sid : Z) (s : bytes) : Pool * Result Z StrpoolError :=
  match shard_at p sid with
  | Err e => (p, Err e)
  | Ok (sh, d) =>
      let '(sh, d, r) := append o sh d s in
      (set_shards (<[Z.to_nat sid := (sh, d)]> (shards p)) p, let? local := r in Ok (global_id p local sid))
  end.
Definition pool_append_many (o : Outcome) (p : Pool) (sid : Z) (strings : list bytes) :
    Pool * Result (list Z) StrpoolError :=
  match shard_at p sid with
  | Err e => (p, Err e)
  | Ok (sh, d) =>
      let '(sh, d, r) := append_many o sh d strings in
      (set_shards (<[Z.to_nat sid := (sh, d)]> (shards p)) p,
       let? locals := r in Ok ((λ l, global_id p l sid) <$> locals))
  end.

Definition pool_flush (opened : option Z) (p : Pool) (sid : Z) : Result unit StrpoolError :=
  let? x := shard_at p sid in flush opened x.1.

(** [Pool::maybe_seal] *)
Definition pool_maybe_seal (o : Outcome) (p : Pool) (sid : Z) : Pool * Result bool StrpoolError :=
  match shard_at p sid with
  | Err e => (p, Err e)
  | Ok (sh, d) =>
      let '(sh, d, r) := maybe_seal provider o (seal_threshold_bytes p) sh d in
      (set_shards (<[Z.to_nat sid := (sh, d)]> (shards p)) p, r)
  end.

Definition set_dict (dict_id : Z) (p : Pool) : Pool :=
  set_shards ((λ x, (set_next_dict dict_id x.1, x.2)) <$> shards p) p.

(** [Pool::for_each_in_shard] *)
Definition for_each_in_shard {A} (f : A → Z → bytes → A * Result unit StrpoolError) (p : Pool) (sid : Z) (acc : A) :
    Pool * A * Result unit StrpoolError :=
  match shard_at p sid with
  | Err e => (p, acc, Err e)
  | Ok (sh, d) =>
      let p := MkPool (shard_count p) (seal_threshold_bytes p) (shard_bits p) (shards p)
        (alter (λ n, (n + 1) mod u64_limit) (Z.to_nat sid) (scans p)) in
      let '(acc, r) := for_each provider
        (λ acc local s, f acc (Z.lor (Z.shiftl local (shard_bits p)) sid) s) sh d acc in
      (p, acc, r)
  end.

(** [Pool::get] *)
Definition get (p : Pool) (id : Z) : Pool * Result (option bytes) StrpoolError :=
  let shard_mask := if shard_bits p =? 0 then 0 else Z.shiftl 1 (shard_bits p) - 1 in
  let sid := Z.land id shard_mask mod u32_limit in
  let local := Z.shiftr id (shard_bits p) in
  if u32_limit <=? local then (p, Err (Io InvalidInput))
  else
    let '(p, found, r) := for_each_in_shard
      (λ found gid s, (if Z.shiftr gid (shard_bits p) mod u32_limit =? local then Some s else found, Ok tt))
      p sid None in
    (p, let? _ := r in Ok found).

(** [Pool::scan_substring]: the hits of each shard; how the shards' hits are
    interleaved is not specified. *)
Definition scan_leg (needle : bytes) (p : Pool) (sid : Z) : Pool * list (Result (Z * bytes) StrpoolError) :=
  let '(p, hits, r) := for_each_in_shard
    (λ hits id s, (if found_in needle s then hits ++ [Ok (id, s)] else hits, Ok tt)) p sid [] in
  (p, match r with Err e => hits ++ [Err e] | Ok _ => hits end).
Fixpoint scan_loop (needle : bytes) (sids : list Z) (p : Pool) : Pool * list (list (Result (Z * bytes) StrpoolError)) :=
  match sids with
  | [] => (p, [])
  | sid :: sids =>
      let '(p, leg) := scan_leg needle p sid in
      let '(p, legs) := scan_loop needle sids p in
      (p, leg :: legs)
  end.
Definition scan_substring (needle : bytes) (p : Pool) : Pool * list (list (Result (Z * bytes) StrpoolError)) :=
  scan_loop needle (Z.of_nat <$> seq 0 (Z.to_nat (shard_count p))) p.
End pool.

(** ** Ids *)

Lemma zeros_pow k n : zeros_loop (k + S n) (2 ^ Z.of_nat k) = Z.of_nat k.
Proof.
  induction k as [|k IH]; [done|]. rewrite Nat2Z.inj_succ, Z.pow_succ_r by lia. cbn [Nat.add zeros_loop].
  rewrite Z.even_mul. simpl orb. cbv iota.
  replace (2 * 2 ^ Z.of_nat k / 2) with (2 ^ Z.of_nat k) by (rewrite Z.mul_comm, Z.div_mul; lia).
  rewrite IH. lia.
Qed.

(** The shard's number fits the low bits. *)
Lemma shard_bits_ok count :
  1 ≤ count ≤ 2 ^ 31 →
  let bits := if count <=? 1 then 0 else trailing_zeros (next_power_of_two count) in
  0 ≤ bits ≤ 31 ∧ count ≤ 2 ^ bits.
Proof.
  intros Hc bits. subst bits. destruct (Z.leb_spec count 1); [simpl; lia|].
  assert (Hl : 0 < Z.log2_up count ≤ 31).
  { split; [apply Z.log2_up_pos; lia|]. replace 31 with (Z.log2_up (2 ^ 31)) by done. apply Z.log2_up_le_mono; lia. }
  assert (Hp : trailing_zeros (next_power_of_two count) = Z.log2_up count).
  { unfold trailing_zeros, next_power_of_two. rewrite Z.mod_small.
    - rewrite <- (Z2Nat.id (Z.log2_up count)) at 1 by lia.
      replace 32%nat with (Z.to_nat (Z.log2_up count) + S (31 - Z.to_nat (Z.log2_up count)))%nat by lia.
      rewrite zeros_pow. lia.
    - split; [apply Z.pow_nonneg; lia|]. apply Z.pow_lt_mono_r; lia. }
  rewrite Hp. split; [lia|]. apply Z.log2_up_spec. lia.
Qed.

Lemma id_parts bits local sid :
  0 ≤ bits → 0 ≤ sid < 2 ^ bits →
  let id := Z.lor (Z.shiftl local bits) sid in
  Z.shiftr id bits = local ∧ Z.land id (if bits =? 0 then 0 else Z.shiftl 1 bits - 1) = sid.
Proof.
  intros Hb Hs id. assert (Hid : id = local * 2 ^ bits + sid).
  { unfold id. rewrite Z.shiftl_mul_pow2 by done. by apply lor_shift_add. }
  split.
  - rewrite Hid, Z.shiftr_div_pow2, Z.div_add_l, Z.div_small by lia. lia.
  - destruct (Z.eqb_spec bits 0) as [->|Hne].
    + rewrite Z.land_0_r. simpl in Hs. lia.
    + rewrite Z.shiftl_1_l. replace (2 ^ bits - 1) with (Z.ones bits) by (rewrite Z.ones_equiv; lia).
      rewrite Z.land_ones, Hid, Z.add_comm, Z.mod_add, Z.mod_small by lia. done.
Qed.

(** ** What a pool stands for *)
Section pool_laws.
Context `{Zstd} `{!ZstdLaws} (provider : option DictProvider).

Record PoolRep (p : Pool) (a : list (list bytes)) : Prop := {
  pr_shards : Forall2 (λ x ss, Rep provider x.1 x.2 ss) (shards p) a;
  pr_count : shard_count p = zlen a ∧ 1 ≤ shard_count p;
  pr_bits : 0 ≤ shard_bits p ≤ 31 ∧ shard_count p ≤ 2 ^ shard_bits p }.

Lemma shard_at_rep p a sid ss :
  PoolRep p a → a !! sid = Some ss →
  ∃ sh d, shard_at p (Z.of_nat sid) = Ok (sh, d) ∧ shards p !! sid = Some (sh, d) ∧ Rep provider sh d ss.
Proof.
  intros [Hsh [Hc _] _] Ha. destruct (Forall2_lookup_r _ _ _ _ _ Hsh Ha) as ([sh d]&Hx&Hrep).
  exists sh, d. unfold shard_at. apply lookup_lt_Some in Ha. unfold zlen in Hc.
  rewrite (proj2 (Z.leb_gt _ _)) by lia. by rewrite Nat2Z.id, Hx.
Qed.

Lemma shard_at_out p a sid : PoolRep p a → zlen a ≤ sid → shard_at p sid = Err (Io InvalidInput).
Proof. intros [_ [Hc _] _] Hs. unfold shard_at. by rewrite (proj2 (Z.leb_le _ _)) by lia. Qed.

(** A walk that cannot fail, over strings numbered without wrapping *)
Lemma walk_total {A} (g : A → Z → bytes → A) acc id ss :
  0 ≤ id → id + zlen ss < u32_limit →
  walk (λ acc id s, (g acc id s, Ok tt)) acc id ss
  = (foldl (λ acc x, g acc x.1 x.2) acc (imap (λ i s, (id + Z.of_nat i, s)) ss), Ok (id + zlen ss)).
Proof.
  revert acc id. induction ss as [|s ss IH]; intros acc id Hid Hb.
  - simpl. unfold zlen. simpl. by rewrite Z.add_0_r.
  - cbn [walk]. unfold zlen in *. simpl length in *. rewrite Z.mod_small by lia. rewrite IH by lia.
    simpl. rewrite Z.add_0_r. f_equal; [|f_equal; lia]. f_equal. apply imap_ext. intros i s' _. simpl. f_equal. lia.
Qed.

Lemma rep_bound sh d ss : Rep provider sh d ss → zlen ss < u32_limit ∧ entry_count sh = zlen ss.
Proof.
  intros (fr&tl&rest&[_ _ Hc _ [Hb _] _]&->). by rewrite <- Hc.
Qed.

(** The last string with a number is the one at its place. *)
Lemma fold_find bits sid target (ss : list bytes) (found : option bytes) :
  0 ≤ bits → 0 ≤ sid < 2 ^ bits → 0 ≤ target → zlen ss < u32_limit →
  foldl (λ (found : option bytes) (x : Z * bytes), if Z.shiftr (Z.lor (Z.shiftl x.1 bits) sid) bits mod u32_limit =? target then Some x.2 else found)
    found (imap (λ i s, (0 + Z.of_nat i, s)) ss)
  = match ss !! Z.to_nat target with Some s => Some s | None => found end.
Proof.
  intros Hb Hs Ht. induction ss as [|s ss IH] using rev_ind; intros Hlen; [done|].
  rewrite zlen_app in Hlen. change (zlen [s]) with 1 in Hlen.
  rewrite imap_app, foldl_app. cbn [imap foldl fst snd]. rewrite IH by lia.
  destruct (id_parts bits (0 + Z.of_nat (length ss + 0)) sid Hb Hs) as [-> _].
  rewrite Nat.add_0_r, Z.add_0_l, Z.mod_small by (unfold zlen in *; lia).
  destruct (Z.eqb_spec (Z.of_nat (length ss)) target) as [<-|Hne].
  - rewrite Nat2Z.id. by rewrite lookup_app_r, Nat.sub_diag.
  - destruct (decide (Z.to_nat target < length ss)%nat) as [Hlt|Hge].
    + by rewrite lookup_app_l.
    + rewrite lookup_app_r, (lookup_ge_None_2 ss), (lookup_ge_None_2 [s]) by (simpl; lia). done.
Qed.

(** [get] reads the abstract pool. *)
Lemma get_rep p a id :
  PoolRep p a → 0 ≤ id →
  (get provider p id).2 =
    let local := Z.shiftr id (shard_bits p) in
    if u32_limit <=? local then Err (Io InvalidInput)
    else match a !! Z.to_nat (id mod 2 ^ shard_bits p) with
         | Some ss => Ok (ss !! Z.to_nat local)
         | None => Err (Io InvalidInput)
         end.
Proof.
  intros Hrep Hid. destruct (pr_bits _ _ Hrep) as [[Hb0 Hb1] Hcount].
  assert (Hpow : 0 < 2 ^ shard_bits p) by (apply Z.pow_pos_nonneg; lia).
  assert (Hpow' : 2 ^ shard_bits p ≤ 2 ^ 31) by (apply Z.pow_le_mono_r; lia).
  unfold get. cbv zeta. destruct (Z.leb_spec u32_limit (Z.shiftr id (shard_bits p))) as [|Hlocal]; [done|].
  assert (Hl0 : 0 ≤ Z.shiftr id (shard_bits p)) by by apply Z.shiftr_nonneg.
  assert (Hmask : Z.land id (if shard_bits p =? 0 then 0 else Z.shiftl 1 (shard_bits p) - 1) mod u32_limit
    = id mod 2 ^ shard_bits p).
  { pose proof (Z.mod_pos_bound id (2 ^ shard_bits p) Hpow) as Hm.
    destruct (Z.eqb_spec (shard_bits p) 0) as [Hz|Hne].
    - rewrite Z.land_0_r, Hz. simpl. by rewrite Z.mod_1_r.
    - rewrite Z.shiftl_1_l. replace (2 ^ shard_bits p - 1) with (Z.ones (shard_bits p)) by (rewrite Z.ones_equiv; lia).
      rewrite Z.land_ones, Z.mod_small by (unfold u32_limit; lia). done. }
  rewrite Hmask. pose proof (Z.mod_pos_bound id (2 ^ shard_bits p) Hpow) as Hsid.
  set (sid := id mod 2 ^ shard_bits p) in *. unfold for_each_in_shard.
  destruct (a !! Z.to_nat sid) as [ss|] eqn:Ha.
  - destruct (shard_at_rep p a _ ss Hrep Ha) as (sh&d&Hat&_&Hr). rewrite Z2Nat.id in Hat by lia. rewrite Hat.
    rewrite (for_each_walk provider _ sh d ss None Hr).
    destruct (rep_bound sh d ss Hr) as [Hlen _].
    rewrite (walk_total (λ found x s, if Z.shiftr (Z.lor (Z.shiftl x (shard_bits p)) sid) (shard_bits p) mod u32_limit
      =? Z.shiftr id (shard_bits p) then Some s else found)) by lia.
    rewrite fold_find by done. cbn [snd rbind]. by destruct (ss !! _).
  - apply lookup_ge_None in Ha. rewrite (shard_at_out p a sid Hrep) by (unfold zlen; lia). done.
Qed.

(** Changing one shard *)
Lemma set_shard_rep p a sid sh d ss :
  PoolRep p a → (sid < length a)%nat → Rep provider sh d ss →
  PoolRep (set_shards (<[sid := (sh, d)]> (shards p)) p) (<[sid := ss]> a).
Proof.
  intros [Hsh Hc Hb] Hlt Hr. split; simpl; [by apply Forall2_insert|unfold zlen in *; by rewrite length_insert|done].
Qed.

Lemma append_rep o sh d ss s sh' d' r :
  nul_free s → Rep provider sh d ss → append o sh d s = (sh', d', r) →
  match r with
  | Ok id => Rep provider sh' d' (ss ++ [s]) ∧ id = zlen ss
  | Err _ => sh' = sh ∧ Rep provider sh d' ss
  end.
Proof.
  intros Hs Hr Ha. destruct (rep_bound _ _ _ Hr) as [_ Hcount]. destruct Hr as (fr&tl&rest&Hh&->).
  destruct (append_as_many o sh d s) as [H2 H1]. specialize (H2 (zlen (entries fr ++ tl)) Hcount).
  rewrite Ha in H1, H2. destruct (append_many o sh d [s]) as [[sh1 d1] r1] eqn:Hm.
  simpl in H1, H2. simplify_eq.
  pose proof (append_many_holds provider o sh d fr tl rest [s] sh1 d1 r1 ltac:(by repeat constructor) Hh Hm) as Hres.
  destruct r1 as [ids|e]; cbv iota beta.
  - destruct Hres as [_ (rest'&Hh'&_)].
    split; [|done]. exists fr, (tl ++ [s]), rest'. by rewrite app_assoc.
  - destruct Hres as [-> (rest'&Hh'&_)]. split; [done|]. by exists fr, tl, rest'.
Qed.

(** An append to a pool: the abstract pool grows at the shard, or nothing
    changes. *)
Lemma pool_append_rep o p a sid s p' r :
  nul_free s → PoolRep p a → 0 ≤ sid → pool_append o p sid s = (p', r) →
  match r with
  | Ok id => ∃ ss, a !! Z.to_nat sid = Some ss ∧ id = global_id p (zlen ss) sid ∧
      PoolRep p' (<[Z.to_nat sid := ss ++ [s]]> a)
  | Err _ => PoolRep p' a
  end ∧ shard_bits p' = shard_bits p.
Proof.
  intros Hs Hp Hsid. unfold pool_append. destruct (a !! Z.to_nat sid) as [ss|] eqn:Ha.
  - destruct (shard_at_rep p a _ ss Hp Ha) as (sh&d&Hat&Hx&Hr). rewrite Z2Nat.id in Hat by done. rewrite Hat.
    destruct (append o sh d s) as [[sh1 d1] r1] eqn:Happ.
    pose proof (append_rep o sh d ss s sh1 d1 r1 Hs Hr Happ) as Hres. intros [= <- <-].
    split; [|done]. apply lookup_lt_Some in Ha as Hlt. destruct r1 as [id|e]; simpl.
    + destruct Hres as [Hr' ->]. exists ss. split; [done|]. split; [done|]. by apply set_shard_rep.
    + destruct Hres as [-> Hr']. rewrite <- (list_insert_id a (Z.to_nat sid) ss Ha). by apply set_shard_rep.
  - apply lookup_ge_None in Ha. rewrite (shard_at_out p a sid Hp) by (unfold zlen; lia). by intros [= <- <-].
Qed.

(** Two ids that differ name different places. *)
Lemma place_inj p id id' :
  0 ≤ shard_bits p → Z.shiftr id (shard_bits p) = Z.shiftr id' (shard_bits p) →
  id mod 2 ^ shard_bits p = id' mod 2 ^ shard_bits p → id = id'.
Proof.
  intros Hb. rewrite !Z.shiftr_div_pow2 by done. intros Hd Hm.
  assert (Hpow : 2 ^ shard_bits p ≠ 0) by (pose proof (Z.pow_pos_nonneg 2 (shard_bits p)); lia).
  rewrite (Z.div_mod id _ Hpow), (Z.div_mod id' _ Hpow). congruence.
Qed.

Lemma global_id_place p a local sid :
  PoolRep p a → 0 ≤ sid < zlen a → 0 ≤ local →
  0 ≤ global_id p local sid ∧ Z.shiftr (global_id p local sid) (shard_bits p) = local ∧
  global_id p local sid mod 2 ^ shard_bits p = sid.
Proof.
  intros [_ [Hc _] [[Hb _] Hle]] Hsid Hl. assert (Hs : 0 ≤ sid < 2 ^ shard_bits p) by lia.
  assert (Hid : global_id p local sid = local * 2 ^ shard_bits p + sid).
  { unfold global_id. rewrite Z.shiftl_mul_pow2 by done. by apply lor_shift_add. }
  destruct (id_parts (shard_bits p) local sid Hb Hs) as [H1 _]. split; [rewrite Hid; nia|].
  split; [exact H1|]. rewrite Hid, Z.add_comm, Z.mod_add, Z.mod_small by lia. done.
Qed.

(** ** Opening *)

Lemma open_shards_rep ds a :
  Forall2 (λ d ss, ∃ sh, CleanRep provider sh d ss) ds a →
  ∃ shs, open_shards ds = ((λ d, MkDisk (d_file d) None) <$> ds, Ok shs) ∧
    Forall2 (λ x ss, CleanRep provider x.1 x.2 ss) shs a.
Proof.
  intros Hds. induction Hds as [|d ss ds a (sh&fr&tl&rest&Hh&->&Hcl) _ IH]; [exists []; by split|].
  destruct IH as (shs&Hopen&Hall). destruct (open_holds provider sh d fr tl rest Hh Hcl) as (sh'&Ho&Hh'&Hcl'&_).
  exists ((sh', MkDisk (d_file d) None) :: shs). split.
  - cbn [open_shards]. rewrite Ho, Hopen. done.
  - constructor; [|done]. by exists fr, tl, rest.
Qed.

Lemma pool_open_rep threshold ds a :
  1 ≤ zlen ds ≤ 2 ^ 31 → Forall2 (λ d ss, ∃ sh, CleanRep provider sh d ss) ds a →
  ∃ p, pool_open threshold ds = Some ((λ d, MkDisk (d_file d) None) <$> ds, Ok p) ∧ PoolRep p a.
Proof.
  intros Hlen Hds. destruct (open_shards_rep ds a Hds) as (shs&Hopen&Hall). unfold pool_open.
  rewrite (proj2 (Z.ltb_ge _ _)) by lia. rewrite Hopen. eexists. split; [done|].
  apply Forall2_length in Hds as Hl. split; cbn [shards shard_count shard_bits].
  - eapply Forall2_impl; [exact Hall|]. intros. by apply clean_rep.
  - unfold zlen in *. lia.
  - pose proof (shard_bits_ok (zlen ds) Hlen) as Hb. exact Hb.
Qed.

Lemma missing_clean : ∃ sh, CleanRep provider sh (MkDisk None None) [].
Proof.
  exists (MkShard 0 0 0 None), [], [], []. split; [|done]. split; try done; [constructor..|]. by left.
Qed.
End pool_laws.

(** ** Scanning *)

Lemma starts_spec needle s : starts needle s = true ↔ ∃ v, s = needle ++ v.
Proof.
  revert s. induction needle as [|x needle IH]; intros s; simpl; [naive_solver|].
  destruct s as [|y s]; [naive_solver|]. rewrite andb_true_iff, Z.eqb_eq, IH. naive_solver.
Qed.
Lemma found_in_spec needle s : found_in needle s = true ↔ ∃ u v, s = u ++ needle ++ v.
Proof.
  induction s as [|y s IH]; cbn [found_in]; rewrite orb_true_iff, starts_spec.
  - split; [intros [[v Hv]|?]; [by exists [], v|done]|]. intros (u&v&Hv). left. exists v.
    symmetry in Hv. by apply app_nil in Hv as [_ ->].
  - rewrite IH. split.
    + intros [[v Hv]|(u&v&->)]; [by exists [], v|by exists (y :: u), v].
    + intros ([|z u]&v&Hv); [left; by exists v|]. right. exists u, v. by injection Hv.
Qed.

(** The strings of a shard that have the needle, with their ids *)
Definition hits_of (p : Pool) (needle : bytes) (sid : nat) (ss : list bytes) : list (Result (Z * bytes) StrpoolError) :=
  omap (λ x : Z * bytes, if found_in needle x.2 then Some (Ok (global_id p x.1 (Z.of_nat sid), x.2)) else None)
    (imap (λ i s, (Z.of_nat i, s)) ss).

Section scan_laws.
Context `{Zstd} `{!ZstdLaws} (provider : option DictProvider).

Lemma fold_hits {X Y} (f : list Y → X → list Y) (g : X → option Y) l hits :
  (∀ hits x, f hits x = match g x with Some h => hits ++ [h] | None => hits end) →
  foldl f hits l = hits ++ omap g l.
Proof.
  intros Hf. revert hits. induction l as [|x l IH]; intros hits; simpl; [by rewrite app_nil_r|].
  rewrite IH, Hf. destruct (g x); [by rewrite <- app_assoc|done].
Qed.

Lemma scan_leg_rep needle p a sid ss :
  PoolRep provider p a → a !! sid = Some ss →
  ∃ scans', scan_leg provider needle p (Z.of_nat sid)
    = (MkPool (shard_count p) (seal_threshold_bytes p) (shard_bits p) (shards p) scans', hits_of p needle sid ss).
Proof.
  intros Hp Ha. destruct (shard_at_rep provider p a sid ss Hp Ha) as (sh&d&Hat&_&Hr).
  destruct (rep_bound provider sh d ss Hr) as [Hlen _].
  unfold scan_leg, for_each_in_shard. rewrite Hat. cbv zeta. rewrite (for_each_walk provider _ sh d ss [] Hr).
  rewrite (walk_total (λ hits x s, if found_in needle s
    then hits ++ [Ok (Z.lor (Z.shiftl x (shard_bits p)) (Z.of_nat sid), s)] else hits)) by lia.
  eexists. f_equal. rewrite (fold_hits _ (λ x : Z * bytes, if found_in needle x.2
    then Some (Ok (global_id p x.1 (Z.of_nat sid), x.2)) else None)); [done|].
  intros hits [i s]. simpl. by destruct (found_in needle s).
Qed.
End scan_laws.

(** ** Claims *)
Section claims.
Context `{Zstd} `{!ZstdLaws} (provider : option DictProvider).

(** C11. In a pool whose shards hold strings without a zero byte, in sealed
    frames of at most 64 KiB and a tail ([PoolRep]): the id an append of a string
    without a zero byte returns gets the string back, and every other id gets
    what it got before, errors included.  A zero byte ends a string for every
    reader ([nul_shifts_ids]), and a frame beyond 64 KiB is not found
    ([large_frame_unreadable]). *)
Theorem append_then_get (o : Outcome) (p p' : Pool) (a : list (list bytes)) (sid id : Z) (s : bytes) :
  PoolRep provider p a → nul_free s → 0 ≤ sid → pool_append o p sid s = (p', Ok id) →
  (get provider p' id).2 = Ok (Some s) ∧
  ∀ id', 0 ≤ id' → id' ≠ id → (get provider p' id').2 = (get provider p id').2.
Proof.
  intros Hp Hs Hsid Ha. destruct (pool_append_rep provider o p a sid s p' (Ok id) Hs Hp Hsid Ha) as [Hres Hbits].
  destruct Hres as (ss&Hss&->&Hp'). apply lookup_lt_Some in Hss as Hlt.
  destruct (global_id_place provider p a (zlen ss) sid Hp) as (Hge&Hloc&Hmod);
    [unfold zlen; lia|apply zlen_nonneg|].
  assert (Hlen : zlen ss < u32_limit).
  { destruct (shard_at_rep provider p a _ ss Hp Hss) as (sh&d&_&_&Hr). by apply rep_bound in Hr as [? _]. }
  split.
  - rewrite (get_rep provider p' _ _ Hp' Hge), Hbits. cbv zeta. rewrite Hloc, Hmod.
    rewrite (proj2 (Z.leb_gt _ _)) by lia. rewrite list_lookup_insert_eq by done. unfold zlen. rewrite Nat2Z.id.
    by rewrite lookup_app_r, Nat.sub_diag.
  - intros id' Hid' Hne. rewrite (get_rep provider p' _ _ Hp' Hid'), (get_rep provider p _ _ Hp Hid'), Hbits.
    cbv zeta. destruct (u32_limit <=? _); [done|].
    destruct (pr_bits _ _ _ Hp) as [[Hb _] _].
    assert (Hpow : 0 < 2 ^ shard_bits p) by (apply Z.pow_pos_nonneg; lia).
    destruct (decide (id' mod 2 ^ shard_bits p = sid)) as [Hsame|Hother].
    + rewrite Hsame, list_lookup_insert_eq, Hss by done. f_equal.
      assert (Hl : Z.shiftr id' (shard_bits p) ≠ zlen ss).
      { intros Heq. apply Hne, (place_inj p); [done|congruence..]. }
      assert (0 ≤ Z.shiftr id' (shard_bits p)) by by apply Z.shiftr_nonneg.
      destruct (decide (Z.to_nat (Z.shiftr id' (shard_bits p)) < length ss)%nat).
      * by rewrite lookup_app_l.
      * rewrite lookup_ge_None_2; [rewrite lookup_ge_None_2; [done|]|rewrite length_app; simpl]; unfold zlen in *; lia.
    + rewrite list_lookup_insert_ne; [done|].
      pose proof (Z.mod_pos_bound id' (2 ^ shard_bits p) Hpow). lia.
Qed.

Lemma sealed_entries fr f tl : entries (fr ++ [(f, tl)]) ++ [] = entries fr ++ tl.
Proof. rewrite entries_app, app_nil_r. unfold entries. simpl. by rewrite app_nil_r. Qed.

(** A seal, finished or failed at any point, leaves every walk over the
    shard as it was: the same strings with the same ids in the same order, for
    any callback, one that stops early included; the frame of the tail is within
    the window in which a walk looks for its size. *)
Theorem seal_same_walk {A} (f : A → Z → bytes → A * Result unit StrpoolError) (o : Outcome) (threshold : Z)
    (sh sh' : Shard) (d d' : Disk) (fr : list (bytes * list bytes)) (tl : list bytes) (rest : bytes)
    (r : Result bool StrpoolError) (acc : A) :
  provider_ok provider → frame_fits provider sh tl → Holds provider sh d fr tl rest →
  maybe_seal provider o threshold sh d = (sh', d', r) →
  for_each provider f sh' d' acc = for_each provider f sh d acc.
Proof.
  intros Hp Hfit Hh Hseal. assert (Hr : Rep provider sh d (entries fr ++ tl)) by by exists fr, tl, rest.
  assert (Hr' : Rep provider sh' d' (entries fr ++ tl)).
  { unfold maybe_seal in Hseal. destruct (tail_len sh <=? threshold); [by simplify_eq|].
    destruct (seal_file provider o sh d fr tl rest sh' d' r Hh Hseal)
      as [[-> (f'&Hc&Hd&->)]|(_&->&_&Hh')]; [|by exists fr, tl, rest].
    exists (fr ++ [(f', tl)]), []. eexists. split; [by eapply sealed_holds; eauto|]. by rewrite sealed_entries. }
  by rewrite (for_each_walk provider f sh' d' _ acc Hr'), (for_each_walk provider f sh d _ acc Hr).
Qed.

(** C18. Wherever a seal stops, the next open removes the left-over [.tmp] and
    succeeds with the same number of strings.  A seal that did not finish has
    left the file and all its strings.  One that finished has put in the place
    of the tail one frame that decompresses to the tail, whatever its size; and
    when that frame is at most 64 KiB, the window in which a walk looks for a
    frame's size, the shard has the strings it had ([large_frame_unreadable]
    otherwise).  Dictionaries carry the ids they are asked for by. *)
Theorem seal_crash_safe (o : Outcome) (sh sh' : Shard) (d d' : Disk) (fr : list (bytes * list bytes))
    (tl : list bytes) (rest : bytes) (r : Result bool StrpoolError) :
  provider_ok provider → Holds provider sh d fr tl rest → clean sh rest →
  seal provider o sh d = (sh', d', r) →
  let d2 := MkDisk (d_file d') None in
  ∃ sh2, shard_open d' = (d2, Ok sh2) ∧ entry_count sh2 = entry_count sh ∧
    (r ≠ Ok true → d_file d' = d_file d ∧ CleanRep provider sh2 d2 (entries fr ++ tl)) ∧
    (r = Ok true → ∃ frame,
      d_file d' = Some (region fr ++ frame ++ write_footer_bytes (MkFooter 0 (entry_count sh))) ∧
      decompress_one_frame provider frame = Ok (terminated tl) ∧
      (zlen frame ≤ PROBE → CleanRep provider sh2 d2 (entries fr ++ tl))).
Proof.
  intros Hp Hh Hcl Hseal d2.
  destruct (seal_file provider o sh d fr tl rest sh' d' r Hh Hseal) as [[-> (f'&Hc&Hd&_)]|(Hr&_&Hd&Hh')].
  - assert (Hcount : 0 ≤ entry_count sh < u32_limit).
    { rewrite (h_count _ _ _ _ _ _ Hh). split; [apply zlen_nonneg|]. rewrite <- (h_count _ _ _ _ _ _ Hh).
      apply (h_bounds _ _ _ _ _ _ Hh). }
    pose proof Hd as Hd'. rewrite app_assoc in Hd'.
    eexists. split; [apply (open_footer d' (region fr ++ f') 0 (entry_count sh) Hd'); pose proof (zlen_nonneg (region fr ++ f')); lia|].
    split; [done|]. split; [done|]. intros _. exists f'. split; [done|]. split; [by eapply decompress_compress|].
    intros Hlen. exists (fr ++ [(f', tl)]), [], (write_footer_bytes (MkFooter 0 (entry_count sh))). rewrite zlen_app.
    split; [|split; [by rewrite sealed_entries|exact (sealed_clean (MkShard 0 0 (entry_count sh) None) fr f')]].
    pose proof (sealed_holds provider sh d fr tl rest f' d2 Hp Hh Hc Hlen Hd) as Hs. destruct Hs. by split.
  - destruct (open_holds provider _ _ _ _ _ Hh' Hcl) as (sh2&Ho&Hh2&Hcl2&Hn). exists sh2. split; [done|].
    split; [done|]. split; [|done]. intros _. split; [done|]. by exists fr, tl, rest.
Qed.

Lemma read_prefix (b rest : bytes) n : 0 ≤ n ≤ zlen b → read_exact_at (b ++ rest) n 0 = Ok (take (Z.to_nat n) b).
Proof.
  intros Hn. rewrite <- (take_drop (Z.to_nat n) b) at 1. rewrite <- app_assoc. apply (read_middle []); [|done].
  unfold zlen in *. rewrite length_take. lia.
Qed.

Lemma cut_frame dict payload fr n :
  z_compress dict payload = Ok fr → 0 ≤ n < zlen fr → find_frame_compressed_size (take (Z.to_nat n) fr) = None.
Proof. intros Hc Hn. eapply z_prefix; [exact Hc|]. unfold zlen in *. lia. Qed.

(** A substring scan finds, in each shard, exactly the strings that contain
    the needle, in insertion order and with the ids they were given. *)
Theorem scan_substring_finds (needle : bytes) (p : Pool) (a : list (list bytes)) :
  PoolRep provider p a →
  (scan_substring provider needle p).2 = imap (hits_of p needle) a ∧
  ∀ s, found_in needle s = true ↔ ∃ u v, s = u ++ needle ++ v.
Proof.
  intros Hp. split; [|apply found_in_spec]. unfold scan_substring.
  destruct (pr_count _ _ _ Hp) as [Hc _]. rewrite Hc. unfold zlen. rewrite Nat2Z.id.
  assert (Hgen : ∀ l off scans', l = drop off a →
    (scan_loop provider needle (Z.of_nat <$> seq off (length l))
      (MkPool (shard_count p) (seal_threshold_bytes p) (shard_bits p) (shards p) scans')).2
    = imap (λ i, hits_of p needle (off + i)) l).
  { induction l as [|ss l IH]; intros off scans' Hl; [done|].
    set (q := MkPool _ _ _ _ scans'). assert (Hq : PoolRep provider q a) by by destruct Hp.
    assert (Ha : a !! off = Some ss) by (by rewrite <- (Nat.add_0_r off), <- lookup_drop, <- Hl).
    cbn [length seq fmap list_fmap scan_loop].
    destruct (scan_leg_rep provider needle q a off ss Hq Ha) as [scans2 Hleg]. rewrite Hleg.
    specialize (IH (S off) scans2). cbn [shard_count seal_threshold_bytes shard_bits shards] in *.
    destruct (scan_loop _ _ _ _) as [p2 legs] eqn:Hloop. cbn [snd] in *. rewrite IH.
    - rewrite imap_cons, Nat.add_0_r. f_equal. apply imap_ext. intros i x _. simpl. f_equal. lia.
    - apply (f_equal (drop 1)) in Hl. rewrite drop_drop in Hl. simpl in Hl. rewrite drop_0 in Hl.
      by rewrite Nat.add_1_r in Hl. }
  specialize (Hgen a 0%nat (scans p)). rewrite drop_0 in Hgen. destruct p. by apply Hgen.
Qed.

(** A sealed frame beyond the window cannot be walked. *)
Lemma large_frame_unreadable {A} (f : A → Z → bytes → A * Result unit StrpoolError) payload fr tail entries acc :
  z_compress None payload = Ok fr → PROBE < zlen fr →
  for_each provider f (MkShard (zlen fr + FOOTER_SIZE) 0 entries None) (MkDisk (Some (fr ++ tail)) None) acc
  = (acc, Err ZstdError).
Proof.
  intros Hc Hlen. pose proof (zlen_nonneg fr) as Hn. assert (HP : 0 ≤ PROBE) by done.
  assert (Hts : tail_start (MkShard (zlen fr + FOOTER_SIZE) 0 entries None) = zlen fr).
  { unfold tail_start, FOOTER_SIZE. simpl. rewrite (proj2 (Z.eqb_neq _ _)) by lia. lia. }
  unfold for_each. rewrite Hts. cbn [file_size d_file]. rewrite (proj2 (Z.eqb_neq _ _)) by (unfold FOOTER_SIZE; lia).
  destruct (Z.to_nat (zlen fr)) as [|fuel] eqn:Hf; [lia|]. cbn [frames_loop].
  rewrite (proj2 (Z.leb_gt _ _)) by lia. cbv zeta. rewrite Z.sub_0_r, Z.min_r by lia.
  by rewrite read_prefix, (cut_frame None payload) by (done || lia).
Qed.
End claims.

(** ** A codec that stores *)
Module Stored.

(** A frame: the payload's length, the dictionary's id and the payload. *)
Definition id_byte (dict : option bytes) : Z := default 0 (dict ≫= head).
Definition id_of (b : Z) : option Z := if b =? 0 then None else Some b.
Definition header (dict : option bytes) (p : bytes) : bytes := le_encode 8 (zlen p) ++ [id_byte dict].
#[export] Instance stored : Zstd := {
  z_compress dict p := if zlen p <? 256 ^ 8 then Ok (header dict p ++ p) else Err 0;
  z_decompress _ f := Ok (drop 9 f);
  find_frame_compressed_size b :=
    let n := 9 + le_decode (take 8 b) in
    if (9 <=? zlen b) && (n <=? zlen b) then Some (Z.to_nat n) else None;
  get_dict_id_from_frame f := id_of (default 0 (f !! 8%nat));
  get_frame_content_size f := Some None;
  dict_id_of b := id_of (default 0 (head b)) }.

Lemma header_length dict p : length (header dict p) = 9%nat.
Proof. unfold header. by rewrite length_app, le_encode_length. Qed.

Lemma stored_inv dict p f : z_compress dict p = Ok f → f = header dict p ++ p ∧ zlen p < 256 ^ 8.
Proof. simpl. destruct (Z.ltb_spec (zlen p) (256 ^ 8)) as [Hlt|]; [|done]. intros [= <-]. done. Qed.

Lemma header_decode dict p rest : zlen p < 256 ^ 8 → le_decode (take 8 ((header dict p ++ p) ++ rest)) = zlen p.
Proof.
  intros Hp. unfold header. rewrite <- !app_assoc, take_app_length' by by rewrite le_encode_length.
  apply le_roundtrip. pose proof (zlen_nonneg p). split; [done|]. exact Hp.
Qed.

#[export] Instance stored_laws : ZstdLaws.
Proof.
  split; intros d p f.
  - intros [-> _]%stored_inv Hn. apply (f_equal length) in Hn. by rewrite length_app, header_length in Hn.
  - intros rest [-> Hp]%stored_inv. cbn [find_frame_compressed_size stored]. rewrite header_decode by done.
    assert (Hl : zlen ((header d p ++ p) ++ rest) = 9 + zlen p + zlen rest)
      by (unfold zlen; rewrite !length_app, header_length; lia).
    rewrite Hl. pose proof (zlen_nonneg p). pose proof (zlen_nonneg rest).
    rewrite !(proj2 (Z.leb_le _ _)) by lia. cbn [andb]. f_equal. rewrite length_app, header_length. unfold zlen. lia.
  - intros n [-> Hp]%stored_inv Hn. cbn [find_frame_compressed_size stored].
    destruct (Z.leb_spec 9 (zlen (take n (header d p ++ p)))) as [H9|]; [|done].
    assert (Hn9 : (9 ≤ n)%nat) by (unfold zlen in H9; rewrite length_take in H9; lia).
    rewrite take_take, Nat.min_l by lia.
    pose proof (header_decode d p [] Hp) as Hd. rewrite app_nil_r in Hd. rewrite Hd.
    rewrite (proj2 (Z.leb_gt _ _)); [done|]. unfold zlen. rewrite length_take, length_app, header_length in *. lia.
  - intros [-> _]%stored_inv. cbn [z_decompress stored]. by rewrite drop_app_length' by by rewrite header_length.
  - done.
  - intros [-> _]%stored_inv. cbn [get_dict_id_from_frame stored]. unfold header.
    rewrite <- app_assoc, lookup_app_r by by rewrite le_encode_length. rewrite le_encode_length. simpl.
    destruct d as [[|x d]|]; done.
Qed.

(** Two empty shards, and one string in the first *)
Definition two : Pool := MkPool 2 1 1 [(MkShard 0 0 0 None, MkDisk None None); (MkShard 0 0 0 None, MkDisk None None)] [0; 0].
Lemma two_rep : PoolRep None two [[]; []].
Proof.
  split; [|by split|by split]. assert (Hr : Rep None (MkShard 0 0 0 None) (MkDisk None None) []).
  { exists [], [], []. split; [|done]. split; try done; [constructor..|]. by left. }
  by repeat constructor.
Qed.
Lemma append_then_get_witness :
  let p' := (pool_append Done two 1 [104; 105]).1 in
  (get None p' 1).2 = Ok (Some [104; 105]) ∧ ∀ id', 0 ≤ id' → id' ≠ 1 → (get None p' id').2 = (get None two id').2.
Proof.
  intros p'. apply (append_then_get None Done two p' [[]; []] 1 1 [104; 105]).
  - exact two_rep.
  - by apply (bool_decide_unpack _); vm_compute.
  - done.
  - by vm_compute.
Defined.

Lemma scan_substring_finds_witness :
  (scan_substring None [105] two).2 = [[]; []] ∧ ∀ s, found_in [105] s = true ↔ ∃ u v, s = u ++ [105] ++ v.
Proof. apply (scan_substring_finds None [105] two [[]; []]). exact two_rep. Defined.

(** A shard with two strings in its tail *)
Definition tailed : Shard * Disk :=
  (MkShard 13 5 2 None, MkDisk (Some ([104; 105; 0; 33; 0] ++ write_footer_bytes (MkFooter 5 2))) None).
Lemma tailed_holds :
  Holds None tailed.1 tailed.2 [] [[104; 105]; [33]] (write_footer_bytes (MkFooter 5 2)).
Proof.
  split; [constructor| |done|done|done|by right].
  by apply (bool_decide_unpack _); vm_compute.
Qed.
Lemma tailed_fits : frame_fits None tailed.1 [[104; 105]; [33]].
Proof. intros fr. vm_compute. by intros [= <-]. Qed.
Lemma no_provider_ok : provider_ok None.
Proof. done. Qed.

Lemma seal_same_walk_witness :
  let '(sh', d', r) := maybe_seal None Done 1 tailed.1 tailed.2 in
  r = Ok true ∧
  for_each None (λ acc _ s, (acc ++ [s], Ok tt)) sh' d' [] = for_each None (λ acc _ s, (acc ++ [s], Ok tt)) tailed.1 tailed.2 [].
Proof.
  destruct (maybe_seal None Done 1 tailed.1 tailed.2) as [[sh' d'] r] eqn:Hs. split; [by vm_compute in Hs; simplify_eq|].
  apply (seal_same_walk None (λ acc _ s, (acc ++ [s], Ok tt)) Done 1 tailed.1 sh' tailed.2 d' []
    [[104; 105]; [33]] (write_footer_bytes (MkFooter 5 2)) r []).
  - exact no_provider_ok.
  - exact tailed_fits.
  - exact tailed_holds.
  - exact Hs.
Defined.

(** A seal cut short in its temporary file, and one that finishes *)
Lemma seal_crash_safe_witness :
  (let '(_, d', r) := seal None (Short 7 5) tailed.1 tailed.2 in
   r ≠ Ok true ∧ d_tmp d' ≠ None ∧
   ∃ sh2, shard_open d' = (MkDisk (d_file d') None, Ok sh2) ∧
     CleanRep None sh2 (MkDisk (d_file d') None) [[104; 105]; [33]]) ∧
  (let '(_, d', r) := seal None Done tailed.1 tailed.2 in
   r = Ok true ∧
   ∃ sh2, shard_open d' = (MkDisk (d_file d') None, Ok sh2) ∧
     CleanRep None sh2 (MkDisk (d_file d') None) [[104; 105]; [33]]).
Proof.
  split.
  - destruct (seal None (Short 7 5) tailed.1 tailed.2) as [[sh' d'] r] eqn:Hs.
    destruct (seal_crash_safe None (Short 7 5) tailed.1 sh' tailed.2 d' [] _ _ r no_provider_ok tailed_holds eq_refl Hs)
      as (sh2&Ho&_&Hno&_).
    assert (Hr : r ≠ Ok true ∧ d_tmp d' ≠ None) by (vm_compute in Hs; by simplify_eq).
    split; [apply Hr|]. split; [apply Hr|]. exists sh2. split; [exact Ho|]. apply Hno, Hr.
  - destruct (seal None Done tailed.1 tailed.2) as [[sh' d'] r] eqn:Hs.
    destruct (seal_crash_safe None Done tailed.1 sh' tailed.2 d' [] _ _ r no_provider_ok tailed_holds eq_refl Hs)
      as (sh2&Ho&_&_&Hyes).
    assert (Hr : r = Ok true) by (vm_compute in Hs; by simplify_eq).
    split; [exact Hr|]. exists sh2. split; [exact Ho|]. destruct (Hyes Hr) as (frame&Hf&_&Hrep). apply Hrep.
    vm_compute in Hs. simplify_eq. cbn [d_file] in Hf. unfold PROBE, zlen.
    apply (f_equal (λ o, length (default [] o))) in Hf. cbn [default from_option id] in Hf.
    rewrite !length_app in Hf. vm_compute (length (_ :: _)) in Hf. lia.
Defined.

(** A string with a zero byte is two strings to every reader, and the ids after
    it are off by one. *)
Lemma nul_shifts_ids :
  let p1 := (pool_append Done two 0 [1; 0; 2]).1 in
  let '(p2, r) := pool_append Done p1 0 [3] in
  r = Ok 2 ∧ (get None p2 0).2 = Ok (Some [1]) ∧ (get None p2 2).2 = Ok (Some [2]).
Proof. by vm_compute. Qed.

(** An append cut short, then a shorter one that succeeds: the file is longer
    than the shard, and reopening reads a footer out of the left-over bytes. *)
Lemma short_append_breaks_reopen :
  let '(sh1, d1, r1) := append (Short 20 28) (MkShard 0 0 0 None) (MkDisk None None) (replicate 19 7) in
  let '(sh2, d2, r2) := append Done sh1 d1 [1] in
  r1 = Err (Io (Os 28)) ∧ r2 = Ok 0 ∧ (shard_open d2).2 = Err (Io InvalidData).
Proof. by vm_compute. Qed.
End Stored.
