(* ===== verification/GitLanes.v ===== *)
(** The branch lanes of the git mirror's union store
    ([chupa/gitdepot/src/lanes.rs]) and the lane plan of its encoder
    ([plan_from_parents] and [boundary_tip_revs] of
    [chupa/gitdepot/src/lanestore.rs]).

    Commits are numbered in processing order; [parents !! i] lists the parents
    of commit [i], first parent first.  A [Vec] indexed out of range is a panic,
    which the definitions return as [None].  A lane id is a [u32]: the casts
    [as LaneId] and the increments wrap at [2^32]. *)
From S2P Require Import Prelude.

Module Lanes.

(** [n as u32] *)
Definition as_u32 (n : nat) : nat := Z.to_nat (Z.of_nat n mod u32_limit).

(** [struct LaneAssignment] *)
Record LaneAssignment : Type := MkAssignment {
  lane_of : list nat;
  span : list (nat * nat)
}.

(** The local variables of [assign_lanes]'s loop. *)
Record AssignState : Type := MkAssign {
  a_lane_of : list nat;
  a_extended : list bool;
  a_span : list (nat * nat)
}.

(** The [match parents[i].first()]: the lane of commit [i], with the flags and
    the spans after it. *)
Definition choose_lane (i : nat) (ps : list nat) (s : AssignState)
    : option (nat * list bool * list (nat * nat)) :=
  let fresh := Some (as_u32 (length (a_span s)), a_extended s, a_span s ++ [(i, i)]) in
  match head ps with
  | Some p =>
      e ← a_extended s !! p;
      if (e : bool) then fresh
      else l ← a_lane_of s !! p; Some (l, <[p := true]> (a_extended s), a_span s)
  | None => fresh
  end.

(** One iteration: the lane is recorded and its death is extended to [i]. *)
Definition assign_step (i : nat) (ps : list nat) (s : AssignState) : option AssignState :=
  '(lane, ext, spn) ← choose_lane i ps s;
  '(b, _) ← spn !! lane;
  Some (MkAssign (<[i := lane]> (a_lane_of s)) ext (<[lane := (b, i)]> spn)).

Fixpoint assign_loop (i : nat) (rest : list (list nat)) (s : AssignState) : option AssignState :=
  match rest with
  | [] => Some s
  | ps :: rest => s' ← assign_step i ps s; assign_loop (S i) rest s'
  end.

Definition assign_init (n : nat) : AssignState :=
  MkAssign (replicate n 0) (replicate n false) [].

Definition assign_lanes (parents : list (list nat)) : option LaneAssignment :=
  s ← assign_loop 0 parents (assign_init (length parents));
  Some (MkAssignment (a_lane_of s) (a_span s)).

(** *** Compaction *)

(** [v[i].push(x)] *)
Definition push_at (v : list (list nat)) (i x : nat) : option (list (list nat)) :=
  old ← v !! i; Some (<[i := old ++ [x]]> v).

(** The first loop of [compact_lanes], from lane [l] on: the lanes born and the
    lanes dying at each revision. *)
Fixpoint index_windows (n_rev : nat) (birth death : list nat) (l count : nat)
    (born_at die_at : list (list nat)) : option (list (list nat) * list (list nat)) :=
  match count with
  | O => Some (born_at, die_at)
  | S count =>
      b ← birth !! l;
      born_at ← push_at born_at b l;
      d ← death !! l;
      die_at ← (if d <? n_rev then push_at die_at d l else Some die_at);
      index_windows n_rev birth death (S l) count born_at die_at
  end.

(** The local variables of the second loop.  [c_free] is the
    [BinaryHeap<Reverse<u32>>]: the multiset of freed indices, lowest first. *)
Record CompactState : Type := MkCompact {
  c_compact : list nat;
  c_free : list nat;
  c_next : nat
}.

Fixpoint heap_push (c : nat) (h : list nat) : list nat :=
  match h with
  | [] => [c]
  | d :: h' => if c <=? d then c :: h else d :: heap_push c h'
  end.

(** [free.push(Reverse(compact[l]))] *)
Definition lane_dies (l : nat) (s : CompactState) : option CompactState :=
  c ← c_compact s !! l; Some (MkCompact (c_compact s) (heap_push c (c_free s)) (c_next s)).

(** [compact[l] = match free.pop() { .. }] *)
Definition lane_born (l : nat) (s : CompactState) : option CompactState :=
  _ ← c_compact s !! l;
  match c_free s with
  | c :: h => Some (MkCompact (<[l := c]> (c_compact s)) h (c_next s))
  | [] => Some (MkCompact (<[l := c_next s]> (c_compact s)) [] (as_u32 (S (c_next s))))
  end.

Fixpoint each_lane (f : nat → CompactState → option CompactState) (ls : list nat)
    (s : CompactState) : option CompactState :=
  match ls with
  | [] => Some s
  | l :: ls => s' ← f l s; each_lane f ls s'
  end.

(** One revision: the deaths free their indices before the births take theirs. *)
Definition compact_rev (die_at born_at : list (list nat)) (rev : nat) (s : CompactState)
    : option CompactState :=
  dies ← die_at !! rev;
  s1 ← each_lane lane_dies dies s;
  borns ← born_at !! rev;
  each_lane lane_born borns s1.

Fixpoint compact_loop (die_at born_at : list (list nat)) (rev count : nat) (s : CompactState)
    : option CompactState :=
  match count with
  | O => Some s
  | S count => s' ← compact_rev die_at born_at rev s;
               compact_loop die_at born_at (S rev) count s'
  end.

Definition compact_lanes (birth death : list nat) (n_rev : nat) : option (list nat * nat) :=
  let n := length birth in
  '(born_at, die_at) ← index_windows n_rev birth death 0 n
                         (replicate (S n_rev) []) (replicate (S n_rev) []);
  s ← compact_loop die_at born_at 0 (S n_rev) (MkCompact (replicate n 0) [] 0);
  Some (c_compact s, c_next s).

(** *** The lane plan *)

(** [struct LanePlan] *)
Record LanePlan : Type := MkPlan {
  n_rev : nat;
  plan_lane_of : list nat;
  width : nat;
  dying_at : list (list nat)
}.

(** The body of the loop over [parents[i].iter().skip(1)]: the lane of a merged
    parent dies at the first merge that takes it. *)
Fixpoint death_parents (mono : list nat) (i : nat) (ps : list nat) (death : list nat)
    : option (list nat) :=
  match ps with
  | [] => Some death
  | p :: ps =>
      l ← mono !! p;
      d ← death !! l;
      death_parents mono i ps (if i <? d then <[l := i]> death else death)
  end.

Fixpoint death_loop (mono : list nat) (i : nat) (rest : list (list nat)) (death : list nat)
    : option (list nat) :=
  match rest with
  | [] => Some death
  | ps :: rest => death' ← death_parents mono i (tail ps) death;
                  death_loop mono (S i) rest death'
  end.

(** The last loop: [dying_at[death[l]].push(compact_of[l])]. *)
Fixpoint dying_loop (n_rev : nat) (death compact_of : list nat) (l count : nat)
    (dying : list (list nat)) : option (list (list nat)) :=
  match count with
  | O => Some dying
  | S count =>
      d ← death !! l;
      dying ← (if d <? n_rev then c ← compact_of !! l; push_at dying d c else Some dying);
      dying_loop n_rev death compact_of (S l) count dying
  end.

Definition plan_from_parents (parents : list (list nat)) : option LanePlan :=
  let n_rev := length parents in
  a ← assign_lanes parents;
  let mono := lane_of a in
  let birth := fst <$> span a in
  death ← death_loop mono 0 parents (replicate (length (span a)) n_rev);
  '(compact_of, width) ← compact_lanes birth death n_rev;
  lanes ← mapM (λ l, compact_of !! l) mono;
  dying ← dying_loop n_rev death compact_of 0 (length death) (replicate (S n_rev) []);
  Some (MkPlan n_rev lanes width dying).


End Lanes.
