(* ===== verification/GitLanesLaws.v ===== *)
(** What the lane assignment of [GitLanes] guarantees: lanes are first-parent
    chains, spans are their first and last commits, and an assignment is never
    changed by the commits that come after it. *)
From S2P Require Import Prelude.
From S2P Require Import GitLanes.
Import Lanes.

Module LanesLaws.

(** Parents come before their children, as [assign_lanes] requires. *)
Definition topological (parents : list (list nat)) : Prop :=
  ∀ i ps, parents !! i = Some ps → Forall (λ p, p < i) ps.

Lemma topological_check parents :
  forallb (λ '(i, ps), bool_decide (Forall (λ p, p < i) ps)) (imap pair parents) = true →
  topological parents.
Proof.
  intros H i ps Hi. rewrite forallb_forall in H.
  specialize (H (i, ps)). apply (bool_decide_eq_true_1 _), H, list_elem_of_In.
  apply list_elem_of_lookup. exists i. by rewrite list_lookup_imap, Hi.
Qed.

(** Fewer commits than lane ids. *)
Definition fits_u32 (parents : list (list nat)) : Prop :=
  (Z.of_nat (length parents) < u32_limit)%Z.

Definition first_parent (parents : list (list nat)) (i : nat) : option nat :=
  parents !! i ≫= head.

Lemma as_u32_small n : (Z.of_nat n < u32_limit)%Z → as_u32 n = n.
Proof. intros H. unfold as_u32. rewrite Z.mod_small by lia. lia. Qed.

Lemma topological_app ps qs : topological (ps ++ qs) → topological ps.
Proof. intros H i l Hi. apply (H i). by apply lookup_app_l_Some. Qed.

Lemma first_parent_lt parents i p :
  topological parents → first_parent parents i = Some p → p < i.
Proof.
  unfold first_parent. intros Ht H. destruct (parents !! i) as [ps|] eqn:E; [|done].
  specialize (Ht i ps E). destruct ps; simplify_eq/=. by inversion Ht.
Qed.

(** Commit [j] of lane [l], born at [b], is where it should be: it opened the
    lane, having no first parent or one that an earlier commit continued, or it
    is the first child of its first parent and follows it in the lane. *)
Definition placed (parents : list (list nat)) (lanes : list nat) (j l b : nat) : Prop :=
  (j = b ∧ ∀ p, first_parent parents j = Some p → ∃ k, k < j ∧ first_parent parents k = Some p) ∨
  (∃ p, first_parent parents j = Some p ∧ lanes !! p = Some l ∧
        (∀ k, k < j → first_parent parents k ≠ Some p) ∧
        (∀ k, p < k < j → lanes !! k ≠ Some l)).

Lemma insert_old {A} (xs : list A) i j x : j < i → <[i := x]> xs !! j = xs !! j.
Proof. intros Hj. rewrite list_lookup_insert_ne; [done|lia]. Qed.

Lemma insert_new_cases {A} (xs : list A) i j x y :
  i < length xs → j < S i → <[i := x]> xs !! j = Some y →
  (j = i ∧ y = x) ∨ (j < i ∧ xs !! j = Some y).
Proof.
  intros Hi Hj. destruct (decide (j = i)) as [->|Hne].
  - rewrite list_lookup_insert_eq by done. intros [= ->]. by left.
  - rewrite list_lookup_insert_ne by done. right. split; [lia|done].
Qed.

Lemma snoc_cases {A} (xs : list A) l x y :
  (xs ++ [x]) !! l = Some y → (l = length xs ∧ y = x) ∨ (l < length xs ∧ xs !! l = Some y).
Proof.
  intros [H|[H1 H2]]%lookup_app_Some.
  - right. split; [by apply lookup_lt_Some in H|done].
  - apply list_lookup_singleton_Some in H2 as [? ?]. left. split; [lia|done].
Qed.

Lemma insert_at_cases {A} (xs : list A) l l' x y :
  l < length xs → <[l := x]> xs !! l' = Some y →
  (l' = l ∧ y = x) ∨ (l' ≠ l ∧ xs !! l' = Some y).
Proof.
  intros Hl. destruct (decide (l' = l)) as [->|Hne].
  - rewrite list_lookup_insert_eq by done. intros [= ->]. by left.
  - rewrite list_lookup_insert_ne by done. by right.
Qed.

Lemma placed_insert parents lanes i j x l b :
  topological parents → j < i → placed parents lanes j l b →
  placed parents (<[i := x]> lanes) j l b.
Proof.
  intros Ht Hj [?|(q & Hq & Hlq & Hsib & Hbet)]; [by left|right].
  pose proof (first_parent_lt _ _ _ Ht Hq). exists q. rewrite insert_old by lia.
  split_and!; [done..|]. intros k Hk. rewrite insert_old by lia. auto.
Qed.

(** *** The invariant of the assignment loop

    After [i] commits: every processed commit has a lane, a lane's span brackets
    its commits, its last commit is the only one whose lane can still be
    continued, and every commit but the first of its lane follows, in the lane,
    its first parent. *)
Record assigned (parents : list (list nat)) (i : nat) (s : AssignState) : Prop := {
  as_len : length (a_lane_of s) = length parents;
  as_ext_len : length (a_extended s) = length parents;
  as_span_len : length (a_span s) ≤ i;
  as_lane : ∀ j, j < i → ∃ l b d, a_lane_of s !! j = Some l ∧ a_span s !! l = Some (b, d) ∧ b ≤ j ≤ d;
  as_span : ∀ l b d, a_span s !! l = Some (b, d) →
    d < i ∧ a_lane_of s !! b = Some l ∧ a_lane_of s !! d = Some l;
  as_tip : ∀ j l b d, j < i → a_lane_of s !! j = Some l → a_span s !! l = Some (b, d) →
    a_extended s !! j = Some (negb (bool_decide (j = d)));
  as_ext_child : ∀ j, a_extended s !! j = Some true ↔ ∃ k, k < i ∧ first_parent parents k = Some j;
  as_chain : ∀ j l b d, j < i → a_lane_of s !! j = Some l → a_span s !! l = Some (b, d) →
    placed parents (a_lane_of s) j l b
}.

Lemma assigned_init parents : assigned parents 0 (assign_init (length parents)).
Proof.
  split; simpl; rewrite ?length_replicate; try done; try lia.
  intros j. split; [|intros (k & ? & _); lia].
  intros H%lookup_replicate. naive_solver.
Qed.

Section steps.
Context (parents : list (list nat)) (i : nat) (s : AssignState).
Hypothesis (Hs : assigned parents i s).

Lemma assigned_lane_lt j l : j < i → a_lane_of s !! j = Some l → l < length (a_span s).
Proof.
  intros Hj Hl. destruct (as_lane _ _ _ Hs j Hj) as (l' & b & d & ? & Hsp & _).
  simplify_eq. by apply lookup_lt_Some in Hsp.
Qed.

Lemma assigned_bracket l b d : a_span s !! l = Some (b, d) → b ≤ d < i.
Proof.
  intros Hsp. destruct (as_span _ _ _ Hs l b d Hsp) as (Hd & _ & Hdl).
  destruct (as_lane _ _ _ Hs d Hd) as (? & ? & ? & ? & ? & ?). simplify_eq. lia.
Qed.

Hypothesis (Ht : topological parents) (Hi : i < length parents).

(** No processed commit has an unprocessed first parent. *)
Lemma assigned_unextended : a_extended s !! i = Some false.
Proof.
  destruct (lookup_lt_is_Some_2 (a_extended s) i) as [[] He]; [|  |done].
  - by rewrite (as_ext_len _ _ _ Hs).
  - apply (as_ext_child _ _ _ Hs) in He as (k & Hk & Hp%first_parent_lt); [lia|done].
Qed.

(** A commit with no parent to continue opens the next lane. *)
Lemma assigned_fresh :
  (∀ p, first_parent parents i = Some p → a_extended s !! p = Some true) →
  assigned parents (S i)
    (MkAssign (<[i := length (a_span s)]> (a_lane_of s)) (a_extended s) (a_span s ++ [(i, i)])).
Proof.
  intros Hfork. pose proof (as_len _ _ _ Hs) as Hlen. pose proof assigned_unextended as Hun.
  split; simpl; rewrite ?length_insert, ?length_app; simpl; try by apply Hs.
  - pose proof (as_span_len _ _ _ Hs). lia.
  - intros j Hj. destruct (decide (j = i)) as [->|Hne].
    + exists (length (a_span s)), i, i.
      rewrite list_lookup_insert_eq, lookup_app_r, Nat.sub_diag by lia. simpl. split_and!; [done..|lia|lia].
    + destruct (as_lane _ _ _ Hs j) as (l & b & d & Hl & Hsp & Hb); [lia|]. exists l, b, d.
      rewrite insert_old by lia. split_and!; [done| |lia..]. by apply lookup_app_l_Some.
  - intros l b d [[-> [= -> ->]]|[Hl Hsp]]%snoc_cases.
    + rewrite list_lookup_insert_eq by lia. split_and!; [lia|done..].
    + pose proof (assigned_bracket _ _ _ Hsp). destruct (as_span _ _ _ Hs l b d Hsp) as (? & ? & ?).
      rewrite !insert_old by lia. split_and!; [lia|done..].
  - intros j l b d Hj [[-> ->]|[Hj' Hl]]%insert_new_cases [[? [= -> ->]]|[Hl' Hsp]]%snoc_cases;
      try lia.
    + by rewrite bool_decide_eq_true_2.
    + apply assigned_lane_lt in Hl; lia.
    + eapply as_tip; eauto.
  - intros j. rewrite (as_ext_child _ _ _ Hs). split; intros (k & Hk & Hp); [by eauto|].
    destruct (decide (k = i)) as [->|]; [|exists k; split; [lia|done]].
    by apply (as_ext_child _ _ _ Hs), Hfork.
  - intros j l b d Hj [[-> ->]|[Hj' Hl]]%insert_new_cases [[? [= -> ->]]|[Hl' Hsp]]%snoc_cases;
      try lia.
    + left. split; [done|]. intros p Hp%Hfork. by apply (as_ext_child _ _ _ Hs).
    + apply assigned_lane_lt in Hl; lia.
    + apply placed_insert; [done..|]. eapply as_chain; eauto.
Qed.

(** A commit whose first parent no earlier commit continued takes over its lane. *)
Lemma assigned_continue p l b d :
  first_parent parents i = Some p → a_extended s !! p = Some false →
  a_lane_of s !! p = Some l → a_span s !! l = Some (b, d) →
  assigned parents (S i)
    (MkAssign (<[i := l]> (a_lane_of s)) (<[p := true]> (a_extended s)) (<[l := (b, i)]> (a_span s))).
Proof.
  intros Hp Hfree Hlp Hsp. pose proof (first_parent_lt _ _ _ Ht Hp) as Hpi.
  pose proof (lookup_lt_Some _ _ _ Hsp) as Hll. pose proof assigned_unextended as Hun.
  pose proof (as_len _ _ _ Hs) as Hlen. pose proof (as_ext_len _ _ _ Hs) as Helen.
  pose proof (assigned_bracket _ _ _ Hsp) as Hbp.
  assert (p = d) as <-.
  { pose proof (as_tip _ _ _ Hs p l b d Hpi Hlp Hsp) as E. rewrite Hfree in E.
    case_bool_decide; [done|by inversion E]. }
  split; simpl; rewrite ?length_insert; try by apply Hs.
  - pose proof (as_span_len _ _ _ Hs). lia.
  - intros j Hj. destruct (decide (j = i)) as [->|Hne].
    + exists l, b, i. rewrite !list_lookup_insert_eq by lia. split_and!; [done..|lia|lia].
    + destruct (as_lane _ _ _ Hs j) as (l' & b' & d' & Hl & Hsp' & Hb); [lia|].
      rewrite insert_old by lia. destruct (decide (l' = l)) as [->|Hnl].
      * simplify_eq. exists l, b, i. rewrite list_lookup_insert_eq by done. split_and!; [done..|lia|lia].
      * exists l', b', d'. rewrite list_lookup_insert_ne by done. split_and!; [done..|lia|lia].
  - intros l' b' d' [[-> [= -> ->]]|[Hne Hsp']]%insert_at_cases; [| |done].
    + destruct (as_span _ _ _ Hs l b p Hsp) as (_ & Hb & _).
      rewrite list_lookup_insert_eq, insert_old by lia. split_and!; [lia|done..].
    + pose proof (assigned_bracket _ _ _ Hsp'). destruct (as_span _ _ _ Hs _ _ _ Hsp') as (? & ? & ?).
      rewrite !insert_old by lia. split_and!; [lia|done..].
  - intros j l' b' d' Hj [[-> ->]|[Hj' Hl]]%insert_new_cases [[? [= -> ->]]|[Hl' Hsp']]%insert_at_cases;
      subst; try done; try lia.
    + by rewrite bool_decide_eq_true_2, list_lookup_insert_ne by lia.
    + rewrite bool_decide_eq_false_2 by lia.
      destruct (decide (j = p)) as [->|Hne]; [by rewrite list_lookup_insert_eq by lia|].
      rewrite list_lookup_insert_ne, (as_tip _ _ _ Hs j l b p Hj' Hl Hsp) by done.
      by rewrite bool_decide_eq_false_2.
    + rewrite list_lookup_insert_ne; [eapply as_tip; eauto|]. intros ->. congruence.
  - intros j. destruct (decide (j = p)) as [->|Hne].
    + rewrite list_lookup_insert_eq by lia. split; [|done]. exists i. split; [lia|done].
    + rewrite list_lookup_insert_ne, (as_ext_child _ _ _ Hs) by done.
      split; intros (k & Hk & Hkp); exists k; (split; [|done]); [lia|].
      destruct (decide (k = i)) as [->|]; [congruence|lia].
  - intros j l' b' d' Hj [[-> ->]|[Hj' Hl]]%insert_new_cases [[? [= -> ->]]|[Hl' Hsp']]%insert_at_cases;
      subst; try done; try lia.
    + right. exists p. rewrite insert_old by lia. split_and!; [done..| |].
      * intros k Hk Hkp. assert (a_extended s !! p = Some true); [|congruence].
        apply (as_ext_child _ _ _ Hs). eauto.
      * intros k Hk. rewrite insert_old by lia. intros Hkl.
        destruct (as_lane _ _ _ Hs k) as (? & ? & ? & ? & ? & ?); [lia|]. simplify_eq. lia.
    + apply placed_insert; [done..|]. eapply as_chain; eauto.
    + apply placed_insert; [done..|]. eapply as_chain; eauto.
Qed.
End steps.

Lemma assigned_step parents i ps s :
  topological parents → fits_u32 parents → parents !! i = Some ps → assigned parents i s →
  ∃ s', assign_step i ps s = Some s' ∧ assigned parents (S i) s'.
Proof.
  intros Ht Hf Hps Hs. pose proof (lookup_lt_Some _ _ _ Hps) as Hi.
  assert (Hfp : first_parent parents i = head ps) by (unfold first_parent; by rewrite Hps).
  assert (Hfresh : as_u32 (length (a_span s)) = length (a_span s)).
  { apply as_u32_small. pose proof (as_span_len _ _ _ Hs). unfold fits_u32 in Hf. lia. }
  assert (Hnew : (∀ p, first_parent parents i = Some p → a_extended s !! p = Some true) →
    ∃ s', (('(b, _) ← (a_span s ++ [(i, i)]) !! length (a_span s);
            Some (MkAssign (<[i := length (a_span s)]> (a_lane_of s)) (a_extended s)
                    (<[length (a_span s) := (b, i)]> (a_span s ++ [(i, i)])))) = Some s') ∧
          assigned parents (S i) s').
  { intros Hfork. eexists. rewrite lookup_app_r, Nat.sub_diag by lia. simpl. split; [done|].
    rewrite insert_app_r_alt, Nat.sub_diag by lia. simpl. by apply assigned_fresh. }
  unfold assign_step, choose_lane. rewrite <- Hfp, Hfresh.
  destruct (first_parent parents i) as [p|] eqn:Ep; [|by apply Hnew].
  pose proof (first_parent_lt _ _ _ Ht Ep) as Hpi.
  destruct (as_lane _ _ _ Hs p Hpi) as (l & b & d & Hl & Hsp & _).
  destruct (a_extended s !! p) as [[]|] eqn:Ee; simpl.
  - apply Hnew. by intros ? [= <-].
  - rewrite Hl. simpl. rewrite Hsp. simpl. eexists. split; [done|]. by eapply assigned_continue.
  - apply lookup_ge_None in Ee. rewrite (as_ext_len _ _ _ Hs) in Ee. lia.
Qed.

Lemma assign_loop_spec parents i rest s :
  topological parents → fits_u32 parents → drop i parents = rest → assigned parents i s →
  i ≤ length parents →
  ∃ s', assign_loop i rest s = Some s' ∧ assigned parents (length parents) s'.
Proof.
  intros Ht Hf. revert i s. induction rest as [|ps rest IH]; intros i s Hd Hs Hi; simpl.
  - exists s. split; [done|]. apply (f_equal length) in Hd. rewrite length_drop in Hd. simpl in Hd.
    by replace (length parents) with i by lia.
  - assert (Hps : parents !! i = Some ps).
    { rewrite <- (Nat.add_0_r i), <- lookup_drop, Hd. done. }
    destruct (assigned_step parents i ps s) as (s' & -> & Hs'); [done..|]. simpl.
    apply IH; [|done|by apply lookup_lt_Some in Hps].
    replace (S i) with (i + 1) by lia. by rewrite <- drop_drop, Hd.
Qed.

Lemma assign_total parents :
  topological parents → fits_u32 parents →
  ∃ s, assign_loop 0 parents (assign_init (length parents)) = Some s ∧
       assigned parents (length parents) s.
Proof. intros Ht Hf. apply assign_loop_spec; [done..|apply assigned_init|lia]. Qed.

(** *** Later commits never change an assignment *)

(** The state of a longer run: the arrays have room for [k] more commits. *)
Definition pad (k : nat) (s : AssignState) : AssignState :=
  MkAssign (a_lane_of s ++ replicate k 0) (a_extended s ++ replicate k false) (a_span s).

Lemma assign_step_pad parents i ps s s' k :
  topological parents → assigned parents i s → parents !! i = Some ps →
  assign_step i ps s = Some s' → assign_step i ps (pad k s) = Some (pad k s').
Proof.
  intros Ht Hs Hps. pose proof (lookup_lt_Some _ _ _ Hps) as Hi.
  pose proof (as_len _ _ _ Hs) as Hlen. pose proof (as_ext_len _ _ _ Hs) as Helen.
  assert (Hfp : first_parent parents i = head ps) by (unfold first_parent; by rewrite Hps).
  unfold assign_step, choose_lane, pad. simpl.
  destruct (head ps) as [p|]; simpl.
  - apply (first_parent_lt _ _ _ Ht) in Hfp. rewrite !lookup_app_l by lia.
    destruct (a_extended s !! p) as [[]|]; simpl; [|destruct (a_lane_of s !! p); simpl|done];
      [| |done];
      match goal with |- context [?x !! ?y] => destruct (x !! y) as [[b d]|] end;
      intros; simplify_eq/=; by rewrite ?insert_app_l by lia.
  - match goal with |- context [?x !! ?y] => destruct (x !! y) as [[b d]|] end;
      intros; simplify_eq/=. by rewrite insert_app_l by lia.
Qed.

Lemma assign_loop_pad parents i rest s s' k :
  topological parents → fits_u32 parents → drop i parents = rest → assigned parents i s →
  assign_loop i rest s = Some s' → assign_loop i rest (pad k s) = Some (pad k s').
Proof.
  intros Ht Hf. revert i s. induction rest as [|ps rest IH]; intros i s Hd Hs; simpl.
  - by intros [= ->].
  - assert (Hps : parents !! i = Some ps).
    { rewrite <- (Nat.add_0_r i), <- lookup_drop, Hd. done. }
    destruct (assigned_step parents i ps s) as (s1 & E & Hs1); [done..|].
    rewrite (assign_step_pad parents i ps s s1 k) by done. rewrite E. simpl.
    apply IH; [|done]. replace (S i) with (i + 1) by lia. by rewrite <- drop_drop, Hd.
Qed.

Lemma assign_loop_app i ps qs s :
  assign_loop i (ps ++ qs) s = assign_loop i ps s ≫= assign_loop (i + length ps) qs.
Proof.
  revert i s. induction ps as [|p ps IH]; intros i s; simpl.
  - by rewrite Nat.add_0_r.
  - destruct (assign_step i p s); simpl; [|done]. by rewrite IH, Nat.add_succ_r.
Qed.

Lemma assign_init_pad n k : assign_init (n + k) = pad k (assign_init n).
Proof. unfold assign_init, pad. simpl. by rewrite !replicate_add. Qed.

Lemma choose_lane_span i ps s lane ext spn :
  choose_lane i ps s = Some (lane, ext, spn) → spn = a_span s ∨ spn = a_span s ++ [(i, i)].
Proof.
  unfold choose_lane. destruct (head ps) as [p|]; [|intros [= <- <- <-]; by right].
  destruct (a_extended s !! p) as [[]|]; simpl; [intros [= <- <- <-]; by right| |done].
  destruct (a_lane_of s !! p); simpl; [|done]. intros [= <- <- <-]. by left.
Qed.

(** A later step leaves the lanes and the births of the commits before it alone. *)
Lemma assign_step_old i ps s s' :
  assign_step i ps s = Some s' →
  (∀ j, j < i → a_lane_of s' !! j = a_lane_of s !! j) ∧
  (∀ l, l < length (a_span s) → fst <$> a_span s' !! l = fst <$> a_span s !! l) ∧
  length (a_span s) ≤ length (a_span s').
Proof.
  unfold assign_step. destruct (choose_lane i ps s) as [[[lane ext] spn]|] eqn:E; [|done]. simpl.
  apply choose_lane_span in E.
  assert (Hp : ∀ l, l < length (a_span s) → spn !! l = a_span s !! l).
  { intros l Hl. destruct E as [->| ->]; [done|by rewrite lookup_app_l]. }
  assert (Hle : length (a_span s) ≤ length spn).
  { destruct E as [->| ->]; rewrite ?length_app; lia. }
  destruct (spn !! lane) as [[b d]|] eqn:El; [|done]. intros [= <-]. simpl. split_and!.
  - intros j Hj. by apply insert_old.
  - intros l Hl. destruct (decide (l = lane)) as [->|Hne].
    + rewrite list_lookup_insert_eq by (by apply lookup_lt_Some in El).
      by rewrite <- Hp, El by done.
    + rewrite list_lookup_insert_ne by done. by rewrite Hp.
  - by rewrite length_insert.
Qed.

Lemma assign_loop_old i rest s s' :
  assign_loop i rest s = Some s' →
  (∀ j, j < i → a_lane_of s' !! j = a_lane_of s !! j) ∧
  (∀ l, l < length (a_span s) → fst <$> a_span s' !! l = fst <$> a_span s !! l) ∧
  length (a_span s) ≤ length (a_span s').
Proof.
  revert i s. induction rest as [|ps rest IH]; intros i s; simpl; [by intros [= ->]|].
  destruct (assign_step i ps s) as [s1|] eqn:E; [|done]. simpl. intros H.
  apply assign_step_old in E as (L1 & B1 & N1). apply IH in H as (L2 & B2 & N2).
  split_and!; [| |lia].
  - intros j Hj. rewrite L2 by lia. auto.
  - intros l Hl. rewrite B2 by lia. auto.
Qed.

(** The assignment of a prefix of the history, inside the assignment of the whole. *)
Lemma assign_prefix ps qs :
  topological (ps ++ qs) → fits_u32 (ps ++ qs) →
  ∃ s sf, assign_loop 0 ps (assign_init (length ps)) = Some s ∧
    assign_loop 0 (ps ++ qs) (assign_init (length (ps ++ qs))) = Some sf ∧
    assigned ps (length ps) s ∧ assigned (ps ++ qs) (length (ps ++ qs)) sf ∧
    (∀ j, j < length ps → a_lane_of sf !! j = a_lane_of s !! j) ∧
    (∀ l, l < length (a_span s) → fst <$> a_span sf !! l = fst <$> a_span s !! l) ∧
    (∀ l b d, length (a_span s) ≤ l → a_span sf !! l = Some (b, d) → length ps ≤ b).
Proof.
  intros Ht Hf. pose proof (topological_app _ _ Ht) as Ht1.
  assert (Hf1 : fits_u32 ps) by (unfold fits_u32 in *; rewrite length_app in Hf; lia).
  destruct (assign_total ps Ht1 Hf1) as (s & Es & Hs).
  destruct (assign_total (ps ++ qs) Ht Hf) as (sf & Ef & Hsf).
  exists s, sf. split_and!; [done..| | |];
    rewrite assign_loop_app, length_app, assign_init_pad in Ef;
    rewrite (assign_loop_pad ps 0 ps _ s) in Ef by (done || apply assigned_init);
    simpl in Ef; apply assign_loop_old in Ef as (L & B & N); simpl in *.
  - intros j Hj. rewrite L, lookup_app_l by (rewrite ?(as_len _ _ _ Hs); lia). done.
  - done.
  - intros l b d Hl Hsp. destruct (as_span _ _ _ Hsf _ _ _ Hsp) as (_ & Hb & _).
    destruct (decide (length ps ≤ b)) as [?|Hlt]; [done|].
    rewrite L, lookup_app_l in Hb by (rewrite ?(as_len _ _ _ Hs); lia).
    apply (assigned_lane_lt ps (length ps) s Hs) in Hb; lia.
Qed.

(** [assign_lanes] never panics on a history in topological order, and
    partitions its commits into first-parent chains: the span of a lane holds
    its first and its last commit; a commit that did not open its lane is the
    first child of its first parent, which is the commit before it in the lane;
    and a commit opens a lane only when it has no parent, or when an earlier
    commit had already continued its first parent. *)
Theorem assign_lanes_chains parents :
  topological parents → fits_u32 parents →
  ∃ a, assign_lanes parents = Some a ∧ length (lane_of a) = length parents ∧
    (∀ l b d, span a !! l = Some (b, d) →
       lane_of a !! b = Some l ∧ lane_of a !! d = Some l) ∧
    (∀ j, j < length parents → ∃ l b d,
       lane_of a !! j = Some l ∧ span a !! l = Some (b, d) ∧ b ≤ j ≤ d ∧
       placed parents (lane_of a) j l b).
Proof.
  intros Ht Hf. destruct (assign_total parents Ht Hf) as (s & E & Hs).
  exists (MkAssignment (a_lane_of s) (a_span s)). unfold assign_lanes. rewrite E.
  split_and!; [done|apply Hs| |]; simpl.
  - intros l b d Hsp. by apply (as_span _ _ _ Hs) in Hsp as (_ & ? & ?).
  - intros j Hj. destruct (as_lane _ _ _ Hs j Hj) as (l & b & d & Hl & Hsp & Hb).
    exists l, b, d. split_and!; [done..|lia|lia|]. eapply as_chain; eauto.
Qed.

Lemma assign_lanes_chains_witness :
  ∃ a, assign_lanes [[]; [0]; [0]; [1; 2]] = Some a ∧ lane_of a = [0; 0; 1; 0] ∧
       placed [[]; [0]; [0]; [1; 2]] (lane_of a) 3 0 0.
Proof.
  destruct (assign_lanes_chains [[]; [0]; [0]; [1; 2]]) as (a & E & _ & _ & H).
  - by apply topological_check.
  - done.
  - exists a. vm_compute in E. injection E as <-. split_and!; [done..|].
    destruct (H 3) as (l & b & d & Hl & Hsp & _ & Hp); [simpl; lia|].
    vm_compute in Hl. injection Hl as <-. vm_compute in Hsp. injection Hsp as <- <-. exact Hp.
Defined.

End LanesLaws.
