(* ===== verification/GitCompactLaws.v ===== *)
(** What compaction and the lane plan of [GitLanes] guarantee: lanes alive at
    the same revision never share an index, the width is the peak number of
    lanes alive at once, and extending a history changes no lane of the commits
    already stored. *)
From S2P Require Import Prelude.
From S2P Require Import GitLanes.
From S2P Require Import GitLanesLaws.
Import Lanes.
Import LanesLaws.

Module CompactLaws.

(** *** The buckets of births and deaths *)

Lemma push_at_ok v i x : i < length v →
  ∃ v', push_at v i x = Some v' ∧ length v' = length v ∧
        v' !! i = ((.++ [x]) <$> v !! i) ∧ ∀ j, j ≠ i → v' !! j = v !! j.
Proof.
  intros Hi. unfold push_at. destruct (lookup_lt_is_Some_2 v i Hi) as [o Ho]. rewrite Ho. simpl.
  eexists. split; [done|]. rewrite length_insert, list_lookup_insert_eq by done.
  split; [done|]. split; [done|]. intros j Hj. by rewrite list_lookup_insert_ne.
Qed.

(** The lanes before [l] whose key is [r]. *)
Definition keyed (key : nat → option nat) (l r : nat) : list nat :=
  filter (λ x, key x = Some r) (seq 0 l).

Definition buckets (key : nat → option nat) (l m : nat) (v : list (list nat)) : Prop :=
  length v = m ∧ ∀ r, r < m → v !! r = Some (keyed key l r).

Lemma keyed_S key l r : keyed key (S l) r = keyed key l r ++ (if decide (key l = Some r) then [l] else []).
Proof.
  unfold keyed. by rewrite seq_S, filter_app.
Qed.

Lemma buckets_init key m : buckets key 0 m (replicate m []).
Proof. split; [apply length_replicate|]. intros r Hr. by rewrite lookup_replicate_2. Qed.

Lemma buckets_push key l m v i :
  buckets key l m v → key l = Some i → i < m →
  ∃ v', push_at v i l = Some v' ∧ buckets key (S l) m v'.
Proof.
  intros [Hlen Hv] Hk Hi. destruct (push_at_ok v i l) as (v' & E & Hl' & Hi' & Hj); [lia|].
  exists v'. split; [done|]. split; [lia|]. intros r Hr. rewrite keyed_S, Hk.
  destruct (decide (Some i = Some r)) as [[= <-]|Hne].
  - by rewrite Hi', Hv.
  - rewrite app_nil_r, Hj by congruence. auto.
Qed.

Lemma buckets_skip key l m v : buckets key l m v → key l = None → buckets key (S l) m v.
Proof.
  intros [Hlen Hv] Hk. split; [done|]. intros r Hr. rewrite keyed_S, Hk.
  destruct (decide (None = Some r)); [done|]. rewrite app_nil_r. auto.
Qed.

(** The revision at which a lane dies, if it does. *)
Definition dies (n_rev : nat) (death : list nat) (l : nat) : option nat :=
  d ← death !! l; if d <? n_rev then Some d else None.

Lemma index_windows_spec n_rev birth death l count B D :
  l + count = length birth → length death = length birth → Forall (λ b, b ≤ n_rev) birth →
  buckets (λ l, birth !! l) l (S n_rev) B → buckets (dies n_rev death) l (S n_rev) D →
  ∃ B' D', index_windows n_rev birth death l count B D = Some (B', D') ∧
    buckets (λ l, birth !! l) (length birth) (S n_rev) B' ∧
    buckets (dies n_rev death) (length birth) (S n_rev) D'.
Proof.
  intros Hc Hd Hb. revert l B D Hc. induction count as [|count IH]; intros l B D Hc HB HD; simpl.
  - replace (length birth) with l by lia. eauto.
  - destruct (lookup_lt_is_Some_2 birth l) as [b Eb]; [lia|]. rewrite Eb. simpl.
    destruct (lookup_lt_is_Some_2 death l) as [d Ed]; [lia|].
    assert (b ≤ n_rev) by (rewrite Forall_lookup in Hb; by eapply Hb).
    destruct (buckets_push (λ l, birth !! l) l (S n_rev) B b) as (B' & -> & HB'); [done..|lia|]. simpl.
    rewrite Ed. simpl. destruct (d <? n_rev) eqn:E.
    + destruct (buckets_push (dies n_rev death) l (S n_rev) D d) as (D' & -> & HD'); [done| |apply Nat.ltb_lt in E; lia|].
      { unfold dies. rewrite Ed. simpl. by rewrite E. }
      simpl. apply IH; [lia|done..].
    + apply IH; [lia|done|]. apply buckets_skip; [done|]. unfold dies. rewrite Ed. simpl. by rewrite E.
Qed.

(** *** The invariant of the compaction loop

    The indices handed out are the freed ones and those of the lanes alive,
    each exactly once. *)
Record compacted (n : nat) (alive : list nat) (s : CompactState) : Prop := {
  co_len : length (c_compact s) = n;
  co_alive : Forall (λ l, l < n) alive;
  co_nodup : NoDup alive;
  co_perm : c_free s ++ ((λ l, c_compact s !!! l) <$> alive) ≡ₚ seq 0 (c_next s)
}.

Lemma compacted_perm n alive alive' s :
  alive ≡ₚ alive' → compacted n alive s → compacted n alive' s.
Proof. intros E [H1 H2 H3 H4]. split; [done|by rewrite <- E..]. Qed.

Lemma compacted_length n alive s :
  compacted n alive s → length (c_free s) + length alive = c_next s.
Proof.
  intros [_ _ _ H]. apply Permutation_length in H. by rewrite length_app, length_fmap, length_seq in H.
Qed.

(** Lanes alive have different indices. *)
Lemma compacted_distinct n alive s l1 l2 :
  compacted n alive s → l1 ∈ alive → l2 ∈ alive → l1 ≠ l2 → c_compact s !!! l1 ≠ c_compact s !!! l2.
Proof.
  intros [_ _ Hn H] H1 H2 Hne E. assert (Hd : NoDup (c_free s ++ ((λ l, c_compact s !!! l) <$> alive))).
  { rewrite H. apply NoDup_seq. }
  apply NoDup_app in Hd as (_ & _ & Hd).
  apply elem_of_Permutation in H1 as [k1 E1]. rewrite E1 in Hd, H2.
  apply elem_of_cons in H2 as [->|H2]; [done|]. apply NoDup_cons in Hd as [Hd _].
  apply Hd. apply list_elem_of_fmap. eauto.
Qed.

Lemma heap_push_perm c h : heap_push c h ≡ₚ c :: h.
Proof.
  induction h as [|d h IH]; simpl; [done|]. destruct (c <=? d); [done|]. rewrite IH. apply Permutation_swap.
Qed.

Lemma lane_dies_ok n l alive s :
  compacted n (l :: alive) s →
  ∃ s', lane_dies l s = Some s' ∧ compacted n alive s' ∧
        c_compact s' = c_compact s ∧ c_next s' = c_next s.
Proof.
  intros [H1 H2 H3 H4]. apply Forall_cons in H2 as [Hl H2]. apply NoDup_cons in H3 as [_ H3].
  unfold lane_dies. destruct (lookup_lt_is_Some_2 (c_compact s) l) as [c Hc]; [lia|].
  rewrite Hc. simpl. eexists. split; [done|]. split; [|done]. split; simpl; [done..|].
  rewrite heap_push_perm, <- H4. simpl. rewrite (list_lookup_total_correct _ _ _ Hc).
  by rewrite Permutation_middle.
Qed.

Lemma lane_born_ok n l alive s :
  compacted n alive s → l < n → l ∉ alive → (Z.of_nat n < u32_limit)%Z →
  ∃ s', lane_born l s = Some s' ∧ compacted n (l :: alive) s' ∧
        (∀ j, j ≠ l → c_compact s' !! j = c_compact s !! j) ∧
        c_next s' = c_next s `max` length (l :: alive).
Proof.
  intros Hs Hl Hn Hf. pose proof (compacted_length _ _ _ Hs) as Hlen.
  destruct Hs as [H1 H2 H3 H4]. assert (Hal : length alive < n).
  { assert (Hsub : length (l :: alive) ≤ length (seq 0 n)); [|rewrite length_seq in Hsub; simpl in Hsub; lia].
    apply submseteq_length, NoDup_submseteq; [by apply NoDup_cons|].
    intros x [->|Hx]%elem_of_cons; apply elem_of_seq; [lia|].
    rewrite Forall_forall in H2. specialize (H2 x Hx). lia. }
  assert (Hmap : ∀ c, (λ j, <[l:=c]> (c_compact s) !!! j) <$> alive = (λ j, c_compact s !!! j) <$> alive).
  { intros c. apply list_fmap_ext. intros i x Hx%list_elem_of_lookup_2.
    rewrite list_lookup_total_insert_ne; [done|]. by intros ->. }
  unfold lane_born. destruct (lookup_lt_is_Some_2 (c_compact s) l) as [c0 ->]; [lia|]. simpl.
  destruct (c_free s) as [|c h]; (eexists; split; [done|]); split_and!; simpl in *;
    try (by intros j Hj; rewrite list_lookup_insert_ne); try lia.
  - split; simpl; rewrite ?length_insert; [done|by constructor|by constructor|].
    rewrite list_lookup_total_insert_eq, Hmap, as_u32_small by lia.
    by rewrite seq_S, <- H4, Permutation_app_comm.
  - rewrite as_u32_small by lia. lia.
  - split; simpl; rewrite ?length_insert; [done|by constructor|by constructor|].
    rewrite list_lookup_total_insert_eq, Hmap, <- H4 by lia. by rewrite Permutation_middle.
Qed.

Lemma lanes_die_ok n ds alive s :
  compacted n (ds ++ alive) s →
  ∃ s', each_lane lane_dies ds s = Some s' ∧ compacted n alive s' ∧
        c_compact s' = c_compact s ∧ c_next s' = c_next s.
Proof.
  revert s. induction ds as [|d ds IH]; intros s Hs; simpl in *; [by eauto|].
  apply lane_dies_ok in Hs as (s1 & -> & Hs & E1 & E2). simpl.
  destruct (IH s1 Hs) as (s2 & -> & Hs2 & E3 & E4). exists s2. split_and!; congruence || done.
Qed.

Lemma lanes_born_ok n bs alive s :
  compacted n alive s → Forall (λ l, l < n) bs → NoDup (bs ++ alive) → (Z.of_nat n < u32_limit)%Z →
  c_next s ≥ length alive →
  ∃ s', each_lane lane_born bs s = Some s' ∧ compacted n (bs ++ alive) s' ∧
        (∀ j, j ∉ bs → c_compact s' !! j = c_compact s !! j) ∧
        c_next s' = c_next s `max` length (bs ++ alive).
Proof.
  revert alive s. induction bs as [|b bs IH]; intros alive s Hs Hb Hn Hf Hge; simpl.
  - exists s. split_and!; [done..|lia].
  - apply Forall_cons in Hb as [Hbn Hb]. simpl in Hn. apply NoDup_cons in Hn as [Hni Hn].
    assert (b ∉ alive) by (intros ?; apply Hni, elem_of_app; by right).
    destruct (lane_born_ok n b alive s) as (s1 & -> & Hs1 & Hc1 & Hn1); [done..|]. simpl.
    destruct (IH (b :: alive) s1) as (s2 & -> & Hs2 & Hc2 & Hn2); [done|done| |done| |].
    + rewrite <- Permutation_middle. by apply NoDup_cons.
    + rewrite Hn1. simpl. lia.
    + exists s2. split_and!; [done| | |].
      * eapply compacted_perm; [|done]. by rewrite Permutation_middle.
      * intros j [Hj1 Hj2]%not_elem_of_cons. rewrite Hc2 by done. auto.
      * rewrite Hn2, Hn1. rewrite !length_app. simpl. lia.
Qed.

(** *** Lanes alive

    Lane [l] occupies an index from its birth to its death; a death at [n_rev]
    or later is no death. *)
Section windows.
Context (birth death : list nat) (n_rev : nat).

(** Alive once revision [r] is processed. *)
Definition alive_at (r l : nat) : bool :=
  (birth !!! l <=? r) && ((r <? death !!! l) || (n_rev <=? death !!! l)).

Definition lanes_alive (r : nat) : list nat :=
  filter (λ l, alive_at r l) (seq 0 (length birth)).

(** The largest number of lanes alive at once. *)
Definition peak : nat := max_list ((λ r, length (lanes_alive r)) <$> seq 0 (S n_rev)).

(** The windows [[birth, death)] of the two lanes meet. *)
Definition overlap (l1 l2 : nat) : Prop :=
  (birth !!! l1 < death !!! l2 ∨ n_rev ≤ death !!! l2) ∧
  (birth !!! l2 < death !!! l1 ∨ n_rev ≤ death !!! l1).

(** Every lane is born during the history and before it dies. *)
Definition windows_ok : Prop :=
  length death = length birth ∧ (Z.of_nat (length birth) < u32_limit)%Z ∧
  ∀ l, l < length birth → birth !!! l ≤ n_rev ∧ birth !!! l < death !!! l.

(** Alive just before revision [r]. *)
Definition alive_before (r : nat) : list nat :=
  match r with O => [] | S r => lanes_alive r end.

Lemma elem_of_alive r l : l ∈ lanes_alive r ↔
  l < length birth ∧ birth !!! l ≤ r ∧ (r < death !!! l ∨ n_rev ≤ death !!! l).
Proof.
  unfold lanes_alive, alive_at. rewrite list_elem_of_filter, elem_of_seq, Is_true_true.
  rewrite andb_true_iff, orb_true_iff, Nat.leb_le, Nat.ltb_lt, Nat.leb_le. lia.
Qed.

Lemma elem_of_alive_before r l : l ∈ alive_before r ↔
  l < length birth ∧ birth !!! l < r ∧ (r ≤ death !!! l ∨ n_rev ≤ death !!! l).
Proof.
  destruct r as [|r]; simpl; [|rewrite elem_of_alive; lia].
  rewrite elem_of_nil. lia.
Qed.

Lemma lanes_alive_nodup r : NoDup (lanes_alive r).
Proof. apply NoDup_filter, NoDup_seq. Qed.

Lemma alive_before_nodup r : NoDup (alive_before r).
Proof. destruct r; [constructor|apply lanes_alive_nodup]. Qed.

(** The lanes alive before [r] that survive it. *)
Definition survivors (r : nat) : list nat :=
  filter (λ l, (r <? death !!! l) || (n_rev <=? death !!! l)) (alive_before r).

Lemma elem_of_survivors r l : l ∈ survivors r ↔
  l < length birth ∧ birth !!! l < r ∧ (r < death !!! l ∨ n_rev ≤ death !!! l).
Proof.
  unfold survivors. rewrite list_elem_of_filter, elem_of_alive_before, Is_true_true.
  rewrite orb_true_iff, Nat.ltb_lt, Nat.leb_le. lia.
Qed.

Lemma survivors_nodup r : NoDup (survivors r).
Proof. apply NoDup_filter, alive_before_nodup. Qed.

Hypothesis Hok : windows_ok.

Lemma elem_of_dying r l : l ∈ keyed (dies n_rev death) (length birth) r ↔
  l < length birth ∧ death !!! l = r ∧ r < n_rev.
Proof.
  unfold keyed. rewrite list_elem_of_filter, elem_of_seq. destruct Hok as (Hd & _ & _).
  unfold dies. split.
  - intros [H Hl]. destruct (lookup_lt_is_Some_2 death l) as [d Ed]; [lia|].
    rewrite Ed in H. simpl in H. rewrite (list_lookup_total_correct _ _ _ Ed).
    destruct (d <? n_rev) eqn:E; [|done]. apply Nat.ltb_lt in E. injection H as ->. lia.
  - intros (Hl & E & Hr). destruct (lookup_lt_is_Some_2 death l) as [d Ed]; [lia|].
    rewrite (list_lookup_total_correct _ _ _ Ed) in E. subst. rewrite Ed. simpl.
    apply Nat.ltb_lt in Hr. rewrite Hr. split; [done|lia].
Qed.

Lemma elem_of_born r l : l ∈ keyed (λ l, birth !! l) (length birth) r ↔
  l < length birth ∧ birth !!! l = r.
Proof.
  unfold keyed. rewrite list_elem_of_filter, elem_of_seq. split.
  - intros [H Hl]. rewrite (list_lookup_total_correct _ _ _ H). lia.
  - intros [Hl <-]. split; [|lia]. by apply list_lookup_lookup_total_lt.
Qed.

Lemma keyed_nodup key l r : NoDup (keyed key l r).
Proof. apply NoDup_filter, NoDup_seq. Qed.

Lemma alive_before_split r :
  alive_before r ≡ₚ keyed (dies n_rev death) (length birth) r ++ survivors r.
Proof.
  apply NoDup_Permutation; [apply alive_before_nodup| |].
  - apply NoDup_app. split_and!; [apply keyed_nodup| |apply survivors_nodup].
    intros l. rewrite elem_of_dying, elem_of_survivors. lia.
  - intros l. rewrite elem_of_app, elem_of_dying, elem_of_survivors, elem_of_alive_before.
    destruct Hok as (_ & _ & Hw). split; [|].
    + intros H. destruct (decide (death !!! l = r ∧ r < n_rev)); [left|right]; lia.
    + intros [H|H]; [specialize (Hw l)|]; lia.
Qed.

Lemma lanes_alive_split r :
  lanes_alive r ≡ₚ keyed (λ l, birth !! l) (length birth) r ++ survivors r.
Proof.
  apply NoDup_Permutation; [apply lanes_alive_nodup| |].
  - apply NoDup_app. split_and!; [apply keyed_nodup| |apply survivors_nodup].
    intros l. rewrite elem_of_born, elem_of_survivors. lia.
  - intros l. rewrite elem_of_app, elem_of_born, elem_of_survivors, elem_of_alive.
    destruct Hok as (_ & _ & Hw). split.
    + intros H. destruct (decide (birth !!! l = r)); [left|right]; lia.
    + intros [H|H]; [specialize (Hw l)|]; lia.
Qed.

(** Before revision [r]: the lanes born so far whose windows meet are apart. *)
Record compacting (r : nat) (s : CompactState) : Prop := {
  cp_state : compacted (length birth) (alive_before r) s;
  cp_apart : ∀ l1 l2, l1 < length birth → l2 < length birth → l1 ≠ l2 →
    birth !!! l1 < r → birth !!! l2 < r → overlap l1 l2 →
    c_compact s !!! l1 ≠ c_compact s !!! l2;
  cp_below : ∀ l, l < length birth → birth !!! l < r → c_compact s !!! l < c_next s;
  cp_next : c_next s = max_list ((λ r, length (lanes_alive r)) <$> seq 0 r)
}.

Lemma compacted_below n alive s l : compacted n alive s → l ∈ alive → c_compact s !!! l < c_next s.
Proof.
  intros [_ _ _ H] Hl. assert (Hin : c_compact s !!! l ∈ seq 0 (c_next s)).
  { rewrite <- H. apply elem_of_app. right. apply list_elem_of_fmap. eauto. }
  apply elem_of_seq in Hin. lia.
Qed.

Lemma compacting_init : compacting 0 (MkCompact (replicate (length birth) 0) [] 0).
Proof. split; simpl; [split; simpl; [apply length_replicate|constructor|constructor|done]|lia..|done]. Qed.

Lemma max_list_snoc ns n : max_list (ns ++ [n]) = max_list ns `max` n.
Proof. induction ns as [|m ns IH]; simpl; lia. Qed.

Lemma compact_rev_step B D r s :
  buckets (λ l, birth !! l) (length birth) (S n_rev) B →
  buckets (dies n_rev death) (length birth) (S n_rev) D →
  r ≤ n_rev → compacting r s →
  ∃ s', compact_rev D B r s = Some s' ∧ compacting (S r) s' ∧
    ∀ l, l < length birth → birth !!! l ≠ r → c_compact s' !! l = c_compact s !! l.
Proof.
  intros [_ HB] [_ HD] Hr [Hs Hap Hbe Hnx]. unfold compact_rev. rewrite HD, HB by lia. simpl.
  apply (compacted_perm _ _ _ _ (alive_before_split r)) in Hs.
  destruct (lanes_die_ok _ _ _ _ Hs) as (s1 & -> & Hs1 & Ec1 & En1). simpl.
  pose proof (compacted_length _ _ _ Hs1) as Hlen1.
  destruct (lanes_born_ok (length birth) (keyed (λ l, birth !! l) (length birth) r) (survivors r) s1)
    as (s2 & E2 & Hs2 & Hc2 & Hn2); [done| | |apply Hok|lia|].
  { apply Forall_forall. by intros l [? _]%elem_of_born. }
  { rewrite <- lanes_alive_split. apply lanes_alive_nodup. }
  apply (compacted_perm _ _ _ _ (symmetry (lanes_alive_split r))) in Hs2.
  rewrite <- (Permutation_length (lanes_alive_split r)) in Hn2.
  assert (Hold : ∀ l, l < length birth → birth !!! l ≠ r → c_compact s2 !! l = c_compact s !! l).
  { intros l Hl Hb. rewrite Hc2, Ec1; [done|]. by intros [_ ?]%elem_of_born. }
  assert (Holdt : ∀ l, l < length birth → birth !!! l ≠ r → c_compact s2 !!! l = c_compact s !!! l).
  { intros l Hl Hb. by rewrite !list_lookup_total_alt, Hold. }
  exists s2. split_and!; [done| |done]. split; [done| | |].
  - intros l1 l2 H1 H2 Hne Hb1 Hb2 [Ho1 Ho2].
    destruct (decide (birth !!! l1 = r ∨ birth !!! l2 = r)) as [Hnew|Hold2].
    + destruct Hok as (_ & _ & Hw). pose proof (Hw l1 H1). pose proof (Hw l2 H2).
      apply (compacted_distinct _ _ _ _ _ Hs2); [| |done]; apply elem_of_alive; lia.
    + rewrite !Holdt by lia. apply Hap; [done..|lia|lia|]. done.
  - intros l Hl Hb. destruct (decide (birth !!! l = r)) as [Hnew|Hne].
    + apply (compacted_below _ _ _ _ Hs2), elem_of_alive. destruct Hok as (_ & _ & Hw).
      specialize (Hw l Hl). lia.
    + rewrite Holdt by done. specialize (Hbe l Hl ltac:(lia)). lia.
  - rewrite Hn2, En1, Hnx, seq_S, fmap_app. simpl. by rewrite max_list_snoc.
Qed.

Lemma compact_loop_spec B D r count s :
  buckets (λ l, birth !! l) (length birth) (S n_rev) B →
  buckets (dies n_rev death) (length birth) (S n_rev) D →
  r + count ≤ S n_rev → compacting r s →
  ∃ s', compact_loop D B r count s = Some s' ∧ compacting (r + count) s' ∧
    ∀ l, l < length birth → birth !!! l < r → c_compact s' !! l = c_compact s !! l.
Proof.
  intros HB HD. revert r s. induction count as [|count IH]; intros r s Hr Hs; simpl.
  - rewrite Nat.add_0_r. eauto.
  - destruct (compact_rev_step B D r s) as (s1 & -> & Hs1 & Ho1); [done..|lia|done|]. simpl.
    destruct (IH (S r) s1) as (s2 & -> & Hs2 & Ho2); [lia|done|]. exists s2.
    rewrite Nat.add_succ_r. split_and!; [done..|].
    intros l Hl Hb. rewrite Ho2, Ho1; [done|done|lia|done|lia].
Qed.

Lemma windows_births : Forall (λ b, b ≤ n_rev) birth.
Proof.
  apply Forall_lookup. intros l b Hl. destruct Hok as (_ & _ & Hw).
  rewrite <- (list_lookup_total_correct _ _ _ Hl). apply Hw. by apply lookup_lt_Some in Hl.
Qed.

Lemma compact_loop_app B D r c1 c2 s :
  compact_loop D B r (c1 + c2) s = compact_loop D B r c1 s ≫= compact_loop D B (r + c1) c2.
Proof.
  revert r s. induction c1 as [|c1 IH]; intros r s; simpl; [by rewrite Nat.add_0_r|].
  destruct (compact_rev D B r s); simpl; [|done]. by rewrite IH, Nat.add_succ_r.
Qed.

(** The compaction stopped before revision [k]: the indices of the lanes born
    before [k] are already final. *)
Lemma compact_until k :
  k ≤ S n_rev →
  ∃ B D sk s, compact_lanes birth death n_rev = Some (c_compact s, c_next s) ∧
    compacting (S n_rev) s ∧
    buckets (λ l, birth !! l) (length birth) (S n_rev) B ∧
    buckets (dies n_rev death) (length birth) (S n_rev) D ∧
    compact_loop D B 0 k (MkCompact (replicate (length birth) 0) [] 0) = Some sk ∧
    length (c_compact sk) = length birth ∧
    ∀ l, l < length birth → birth !!! l < k → c_compact s !! l = c_compact sk !! l.
Proof.
  intros Hk. unfold compact_lanes.
  destruct (index_windows_spec n_rev birth death 0 (length birth)
    (replicate (S n_rev) []) (replicate (S n_rev) [])) as (B & D & -> & HB & HD);
    [done|apply Hok|apply windows_births|apply buckets_init..|].
  destruct (compact_loop_spec B D 0 k (MkCompact (replicate (length birth) 0) [] 0))
    as (sk & Ek & Hsk & _); [done..|apply compacting_init|].
  destruct (compact_loop_spec B D k (S n_rev - k) sk) as (s & E & Hs & Hold); [done..|lia|done|].
  assert (Eall : compact_loop D B 0 (S n_rev) (MkCompact (replicate (length birth) 0) [] 0) = Some s).
  { replace (S n_rev) with (k + (S n_rev - k)) by lia. rewrite compact_loop_app, Ek. exact E. }
  exists B, D, sk, s. cbn [mbind option_bind]. rewrite Eall.
  replace (k + (S n_rev - k)) with (S n_rev) in Hs by lia. split_and!; try done. apply Hsk.
Qed.

Lemma compact_total :
  ∃ s, compact_lanes birth death n_rev = Some (c_compact s, c_next s) ∧ compacting (S n_rev) s.
Proof.
  destruct (compact_until 0) as (B & D & sk & s & E & Hs & _); [lia|]. eauto.
Qed.
End windows.

Lemma compact_lanes_total birth death n_rev :
  windows_ok birth death n_rev →
  ∃ compact width, compact_lanes birth death n_rev = Some (compact, width) ∧
    length compact = length birth.
Proof.
  intros Hok. destruct (compact_total birth death n_rev Hok) as (s & -> & Hs).
  exists (c_compact s), (c_next s). split; [done|apply Hs].
Qed.

(** C8. [compact_lanes] gives every lane an index below the width it returns,
    two lanes whose windows [[birth, death)] meet never get the same index, and
    the width is exactly the largest number of lanes alive at one revision. *)
Theorem compact_lanes_apart birth death n_rev :
  windows_ok birth death n_rev →
  ∃ compact width, compact_lanes birth death n_rev = Some (compact, width) ∧
    length compact = length birth ∧ width = peak birth death n_rev ∧
    (∀ l, l < length birth → compact !!! l < width) ∧
    (∀ l1 l2, l1 < length birth → l2 < length birth → l1 ≠ l2 →
       overlap birth death n_rev l1 l2 → compact !!! l1 ≠ compact !!! l2).
Proof.
  intros Hok. destruct (compact_total birth death n_rev Hok) as (s & -> & Hs).
  assert (Hb : ∀ l, l < length birth → birth !!! l < S n_rev).
  { intros l Hl. destruct Hok as (_ & _ & Hw). specialize (Hw l Hl). lia. }
  exists (c_compact s), (c_next s). split_and!; [done|apply Hs|apply Hs| |].
  - intros l Hl. apply (cp_below _ _ _ _ _ Hs); auto.
  - intros l1 l2 H1 H2 Hne. apply (cp_apart _ _ _ _ _ Hs); auto.
Qed.

Lemma compact_lanes_apart_witness :
  ∃ compact, compact_lanes [0; 0; 10] [30; 10; 30] 30 = Some (compact, 2) ∧
    compact !!! 0 ≠ compact !!! 2 ∧ peak [0; 0; 10] [30; 10; 30] 30 = 2.
Proof.
  destruct (compact_lanes_apart [0; 0; 10] [30; 10; 30] 30) as (c & w & E & _ & Ew & _ & H).
  - split_and!; [done..|]. intros [|[|[|]]]; simpl; lia.
  - exists c. assert (peak [0; 0; 10] [30; 10; 30] 30 = 2) as Hp by reflexivity.
    rewrite Ew, Hp in E. split_and!; [done| |done].
    apply H; [simpl; lia..|]. split; simpl; lia.
Defined.

End CompactLaws.
