(* ===== verification/GitPlanLaws.v ===== *)
(** The lane plan of [GitLanes]: it exists for every history in topological
    order, its lanes are those of the assignment through the compaction, and
    extending the history leaves the lanes and the deaths of the stored
    revisions as they were, which is what an incremental update relies on. *)
From S2P Require Import Prelude.
From S2P Require Import GitLanes.
From S2P Require Import GitLanesLaws.
From S2P Require Import GitCompactLaws.
Import Lanes.
Import LanesLaws.
Import CompactLaws.

Module PlanLaws.

(** *** Deaths *)

(** Commit [i] merges lane [l]: one of its parents but the first is on it. *)
Definition merges (parents : list (list nat)) (mono : list nat) (l i : nat) : bool :=
  existsb (λ p, bool_decide (mono !! p = Some l)) (tail (default [] (parents !! i))).

(** The first commit below [i] that merges [l]. *)
Definition first_merge (parents : list (list nat)) (mono : list nat) (l i : nat) : option nat :=
  head (filter (λ j, merges parents mono l j) (seq 0 i)).

(** The death of lane [l]: its first merge, or the end of the history. *)
Definition death_of (parents : list (list nat)) (mono : list nat) (l : nat) : nat :=
  default (length parents) (first_merge parents mono l (length parents)).

Lemma death_parents_spec mono i ps death :
  Forall (λ p, ∃ l, mono !! p = Some l ∧ l < length death) ps →
  ∃ death', death_parents mono i ps death = Some death' ∧ length death' = length death ∧
    ∀ l d, death !! l = Some d →
      death' !! l = Some (if (i <? d) && existsb (λ p, bool_decide (mono !! p = Some l)) ps
                          then i else d).
Proof.
  revert death. induction ps as [|p ps IH]; intros death Hps; simpl.
  - exists death. split_and!; [done..|]. intros l d Hd. by rewrite andb_false_r.
  - apply Forall_cons in Hps as [(lp & Hp & Hlp) Hps]. rewrite Hp. simpl.
    destruct (lookup_lt_is_Some_2 death lp Hlp) as [dp Hdp]. rewrite Hdp. simpl.
    set (death1 := if i <? dp then <[lp := i]> death else death).
    assert (Hlen1 : length death1 = length death).
    { unfold death1. destruct (i <? dp); [apply length_insert|done]. }
    destruct (IH death1) as (death2 & -> & Hlen2 & H2).
    { eapply Forall_impl; [done|]. simpl. by rewrite Hlen1. }
    exists death2. split_and!; [done|lia|]. intros l d Hd.
    assert (Hd1 : death1 !! l = Some (if (i <? d) && bool_decide (Some lp = Some l) then i else d)).
    { unfold death1. case_bool_decide as E.
      - injection E as ->. assert (d = dp) as -> by congruence. rewrite andb_true_r.
        destruct (i <? dp); [by apply list_lookup_insert_eq|done].
      - rewrite andb_false_r. destruct (i <? dp); [|done].
        rewrite list_lookup_insert_ne; [done|congruence]. }
    rewrite (H2 _ _ Hd1). f_equal. destruct (i <? d) eqn:E; simpl; [|by rewrite E].
    case_bool_decide; simpl; [by rewrite Nat.ltb_irrefl|by rewrite E].
Qed.

Lemma first_merge_S parents mono l i :
  first_merge parents mono l (S i) =
    match first_merge parents mono l i with
    | Some j => Some j
    | None => if merges parents mono l i then Some i else None
    end.
Proof.
  unfold first_merge. rewrite seq_S, filter_app. simpl.
  destruct (filter _ (seq 0 i)); simpl; [|done].
  destruct (merges parents mono l i) eqn:E; [rewrite filter_cons_True|rewrite filter_cons_False];
    rewrite ?E; simpl; tauto.
Qed.

Lemma first_merge_lt parents mono l i j :
  first_merge parents mono l i = Some j → j < i ∧ merges parents mono l j = true.
Proof.
  unfold first_merge. intros H. apply head_Some_elem_of in H.
  apply list_elem_of_filter in H as [Hm Hj%elem_of_seq]. split; [lia|]. by apply Is_true_true.
Qed.

Lemma death_loop_spec parents mono i rest n_lanes death :
  (∀ j ps, parents !! j = Some ps → Forall (λ p, ∃ l, mono !! p = Some l ∧ l < n_lanes) ps) →
  drop i parents = rest → i ≤ length parents → length death = n_lanes →
  (∀ l, l < n_lanes → death !! l = Some (default (length parents) (first_merge parents mono l i))) →
  ∃ death', death_loop mono i rest death = Some death' ∧ length death' = n_lanes ∧
    ∀ l, l < n_lanes → death' !! l = Some (death_of parents mono l).
Proof.
  intros Hps. revert i death. induction rest as [|ps rest IH]; intros i death Hd Hi Hlen H; simpl.
  - exists death. split_and!; [done..|]. intros l Hl. rewrite H by done.
    apply (f_equal length) in Hd. rewrite length_drop in Hd. simpl in Hd.
    unfold death_of. by replace (length parents) with i by lia.
  - assert (Ei : parents !! i = Some ps).
    { rewrite <- (Nat.add_0_r i), <- lookup_drop, Hd. done. }
    pose proof (lookup_lt_Some _ _ _ Ei) as Hlt.
    destruct (death_parents_spec mono i (tail ps) death) as (d1 & -> & Hlen1 & H1).
    { rewrite Hlen. specialize (Hps i ps Ei). destruct ps; simpl; [constructor|].
      by apply Forall_cons in Hps as [_ ?]. }
    simpl. apply (IH (S i)); [|lia|lia|].
    + replace (S i) with (i + 1) by lia. by rewrite <- drop_drop, Hd.
    + intros l Hl. rewrite (H1 l _ (H l Hl)), first_merge_S. f_equal.
      destruct (first_merge parents mono l i) as [j|] eqn:Ej; simpl.
      * apply first_merge_lt in Ej as [Hj _].
        assert (E : (i <? j) = false) by (apply Nat.ltb_ge; lia). by rewrite E.
      * apply Nat.ltb_lt in Hlt. rewrite Hlt. unfold merges. rewrite Ei. simpl.
        by destruct (existsb _ (tail ps)).
Qed.

(** *** The plan of an assigned history *)

Section plan.
Context (parents : list (list nat)) (s : AssignState).
Hypothesis (Ht : topological parents) (Hf : fits_u32 parents)
           (Hs : assigned parents (length parents) s).

Definition births : list nat := fst <$> a_span s.
Definition deaths : list nat := death_of parents (a_lane_of s) <$> seq 0 (length (a_span s)).

Lemma lookup_births l : births !! l = fst <$> a_span s !! l.
Proof. unfold births. by rewrite list_lookup_fmap. Qed.

Lemma lookup_deaths l :
  l < length (a_span s) → deaths !! l = Some (death_of parents (a_lane_of s) l).
Proof. intros Hl. unfold deaths. by rewrite list_lookup_fmap, lookup_seq_lt. Qed.

Lemma births_lt l b d : a_span s !! l = Some (b, d) → b < length parents.
Proof. intros H. apply (assigned_bracket parents (length parents) s Hs) in H. lia. Qed.

Lemma mono_lane p : p < length parents → ∃ l, a_lane_of s !! p = Some l ∧ l < length (a_span s).
Proof.
  intros Hp. destruct (as_lane _ _ _ Hs p Hp) as (l & b & d & Hl & Hsp & _).
  exists l. split; [done|]. by apply lookup_lt_Some in Hsp.
Qed.

Lemma death_loop_total :
  death_loop (a_lane_of s) 0 parents (replicate (length (a_span s)) (length parents)) = Some deaths.
Proof.
  destruct (death_loop_spec parents (a_lane_of s) 0 parents (length (a_span s))
    (replicate (length (a_span s)) (length parents))) as (d & -> & Hlen & Hd);
    [|done|lia|apply length_replicate| |].
  - intros j ps Hj. pose proof (lookup_lt_Some _ _ _ Hj). specialize (Ht j ps Hj).
    eapply Forall_impl; [done|]. intros p Hp. simpl in Hp. apply mono_lane. lia.
  - intros l Hl. by rewrite lookup_replicate_2.
  - f_equal. apply list_eq. intros l. destruct (decide (l < length (a_span s))) as [Hl|Hl].
    + by rewrite Hd, lookup_deaths.
    + rewrite !lookup_ge_None_2; [done| |lia]. unfold deaths. rewrite length_fmap, length_seq. lia.
Qed.

(** A lane is born before the merge that ends it. *)
Lemma birth_before_death l b d :
  a_span s !! l = Some (b, d) → b < death_of parents (a_lane_of s) l.
Proof.
  intros Hsp. unfold death_of. destruct (first_merge _ _ _ _) as [i|] eqn:E; simpl.
  - apply first_merge_lt in E as [Hi Hm]. unfold merges in Hm.
    destruct (parents !! i) as [ps|] eqn:Ei; [|done]. simpl in Hm.
    apply existsb_exists in Hm as (p & Hp & Hl%bool_decide_eq_true).
    assert (Hpi : p < i).
    { specialize (Ht i ps Ei). rewrite Forall_forall in Ht. apply Ht, list_elem_of_In.
      destruct ps; [done|by right]. }
    destruct (as_lane _ _ _ Hs p) as (l' & b' & d' & Hl' & Hsp' & Hb); [lia|]. simplify_eq. lia.
  - by eapply births_lt.
Qed.

Lemma plan_windows : windows_ok births deaths (length parents).
Proof.
  assert (Hlen : length births = length (a_span s)) by (unfold births; by rewrite length_fmap).
  unfold windows_ok. rewrite Hlen. split_and!.
  - unfold deaths. by rewrite length_fmap, length_seq.
  - pose proof (as_span_len _ _ _ Hs). unfold fits_u32 in Hf. lia.
  - intros l Hl. destruct (lookup_lt_is_Some_2 (a_span s) l Hl) as [[b d] Hsp].
    rewrite (list_lookup_total_correct births l b) by (by rewrite lookup_births, Hsp).
    rewrite (list_lookup_total_correct deaths l _ (lookup_deaths l Hl)).
    pose proof (births_lt _ _ _ Hsp). pose proof (birth_before_death _ _ _ Hsp). lia.
Qed.

Lemma dying_loop_spec (compact : list nat) l count dying :
  length compact = length deaths → l + count = length deaths →
  length dying = S (length parents) →
  (∀ r, r ≤ length parents → dying !! r =
     Some ((λ x, compact !!! x) <$> keyed (dies (length parents) deaths) l r)) →
  ∃ dying', dying_loop (length parents) deaths compact l count dying = Some dying' ∧
    ∀ r, r ≤ length parents → dying' !! r =
     Some ((λ x, compact !!! x) <$> keyed (dies (length parents) deaths) (length deaths) r).
Proof.
  intros Hc. revert l dying. induction count as [|count IH]; intros l dying Hl Hd H; simpl.
  - rewrite Nat.add_0_r in Hl. rewrite <- Hl. eauto.
  - destruct (lookup_lt_is_Some_2 deaths l) as [d Ed]; [lia|]. rewrite Ed. simpl.
    destruct (lookup_lt_is_Some_2 compact l) as [c Ec]; [lia|].
    assert (Edies : dies (length parents) deaths l = if d <? length parents then Some d else None).
    { unfold dies. by rewrite Ed. }
    destruct (d <? length parents) eqn:Edn.
    + rewrite Ec. simpl. apply Nat.ltb_lt in Edn.
      destruct (push_at_ok dying d c) as (dy & -> & Hlen & Hat & Hother); [lia|]. simpl.
      apply IH; [lia..|]. intros r Hr. rewrite keyed_S, fmap_app, Edies.
      destruct (decide (Some d = Some r)) as [[= <-]|Hne].
      * rewrite Hat, H by done. simpl. by rewrite (list_lookup_total_correct _ _ _ Ec).
      * simpl. rewrite app_nil_r, Hother by congruence. auto.
    + apply IH; [lia..|]. intros r Hr. rewrite keyed_S, fmap_app, Edies. simpl.
      rewrite app_nil_r. auto.
Qed.

Hypothesis (Hloop : assign_loop 0 parents (assign_init (length parents)) = Some s).

Lemma plan_total :
  ∃ compact width dying,
    compact_lanes births deaths (length parents) = Some (compact, width) ∧
    length compact = length (a_span s) ∧
    plan_from_parents parents =
      Some (MkPlan (length parents) ((λ l, compact !!! l) <$> a_lane_of s) width dying) ∧
    ∀ r, r ≤ length parents → dying !! r =
      Some ((λ x, compact !!! x) <$> keyed (dies (length parents) deaths) (length (a_span s)) r).
Proof.
  destruct (compact_lanes_total births deaths (length parents) plan_windows) as (c & w & Ec & Hlen).
  assert (Hb : length births = length (a_span s)) by (unfold births; by rewrite length_fmap).
  assert (Hd : length deaths = length (a_span s)) by (unfold deaths; by rewrite length_fmap, length_seq).
  destruct (dying_loop_spec c 0 (length deaths) (replicate (S (length parents)) []))
    as (dy & Edy & Hdy); [lia|done|apply length_replicate| |].
  { intros r Hr. rewrite lookup_replicate_2 by lia. done. }
  exists c, w, dy. split_and!; [done|lia| |by rewrite <- Hd].
  unfold plan_from_parents, assign_lanes. rewrite Hloop. simpl. rewrite death_loop_total. simpl.
  fold births. rewrite Ec. simpl.
  assert (Hm : mapM (λ l, c !! l) (a_lane_of s) = Some ((λ l, c !!! l) <$> a_lane_of s)).
  { apply mapM_Some, Forall2_fmap_r, Forall_Forall2_diag, Forall_forall.
    intros l [p Hp]%list_elem_of_lookup.
    destruct (mono_lane p) as (l' & Hl' & ?); [apply lookup_lt_Some in Hp; by rewrite (as_len _ _ _ Hs) in Hp|].
    simplify_eq. apply list_lookup_lookup_total_lt. lia. }
  rewrite Hm. simpl in *. by rewrite Edy.
Qed.
End plan.

(** *** Extending the history *)

Lemma keyed_ext key key' l r :
  (∀ x, x < l → key x = Some r ↔ key' x = Some r) → keyed key l r = keyed key' l r.
Proof.
  induction l as [|l IH]; intros H; [done|]. rewrite !keyed_S, IH by auto with lia. f_equal.
  specialize (H l ltac:(lia)). destruct (decide (key l = Some r)), (decide (key' l = Some r)); tauto.
Qed.

Lemma keyed_more key l k r :
  (∀ x, l ≤ x → key x ≠ Some r) → keyed key (l + k) r = keyed key l r.
Proof.
  intros H. induction k as [|k IH]; [by rewrite Nat.add_0_r|].
  rewrite Nat.add_succ_r, keyed_S, IH, decide_False by (apply H; lia). by rewrite app_nil_r.
Qed.

(** The state of a longer compaction: room for [k] more lanes. *)
Definition padc (k : nat) (s : CompactState) : CompactState :=
  MkCompact (c_compact s ++ replicate k 0) (c_free s) (c_next s).

Lemma lane_dies_pad k l s s' :
  lane_dies l s = Some s' → lane_dies l (padc k s) = Some (padc k s').
Proof.
  unfold lane_dies, padc. simpl. destruct (c_compact s !! l) as [c|] eqn:E; [|done]. simpl.
  rewrite (lookup_app_l_Some _ _ _ _ E). simpl. by intros [= <-].
Qed.

Lemma lane_born_pad k l s s' :
  lane_born l s = Some s' → lane_born l (padc k s) = Some (padc k s').
Proof.
  unfold lane_born, padc. simpl. destruct (c_compact s !! l) as [c|] eqn:E; [|done]. simpl.
  rewrite (lookup_app_l_Some _ _ _ _ E). simpl. apply lookup_lt_Some in E.
  destruct (c_free s); intros [= <-]; simpl; by rewrite insert_app_l.
Qed.

Lemma each_lane_pad k f ls s s' :
  (∀ l s s', f l s = Some s' → f l (padc k s) = Some (padc k s')) →
  each_lane f ls s = Some s' → each_lane f ls (padc k s) = Some (padc k s').
Proof.
  intros Hf. revert s. induction ls as [|l ls IH]; intros s; simpl; [by intros [= <-]|].
  destruct (f l s) as [s1|] eqn:E; [|done]. simpl. rewrite (Hf _ _ _ E). apply IH.
Qed.

Lemma compact_loop_pad k D B D' B' r count s s' :
  (∀ i, r ≤ i < r + count → D' !! i = D !! i ∧ B' !! i = B !! i) →
  compact_loop D B r count s = Some s' → compact_loop D' B' r count (padc k s) = Some (padc k s').
Proof.
  revert r s. induction count as [|count IH]; intros r s Hsame; simpl; [by intros [= <-]|].
  unfold compact_rev. destruct (Hsame r) as [-> ->]; [lia|].
  destruct (D !! r) as [ds|]; [|done]. simpl.
  destruct (each_lane lane_dies ds s) as [s1|] eqn:E1; [|done]. simpl.
  rewrite (each_lane_pad k _ _ _ _ (lane_dies_pad k) E1). simpl.
  destruct (B !! r) as [bs|]; [|done]. simpl.
  destruct (each_lane lane_born bs s1) as [s2|] eqn:E2; [|done]. simpl.
  rewrite (each_lane_pad k _ _ _ _ (lane_born_pad k) E2). simpl.
  apply IH. intros i Hi. apply Hsame. lia.
Qed.

(** Two histories, the second extending the first by revisions after [n]: the
    same lanes are born before [n], and the same ones die before [n]. *)
Record extends (n n' : nat) (birth death birth' death' : list nat) : Prop := {
  ex_ok : windows_ok birth death n;
  ex_ok' : windows_ok birth' death' n';
  ex_rev : n ≤ n';
  ex_len : length birth ≤ length birth';
  ex_birth : ∀ l, l < length birth → birth' !! l = birth !! l ∧ birth !!! l < n;
  ex_death : ∀ l, l < length birth → death' !!! l = death !!! l ∨ n ≤ death !!! l ∧ n ≤ death' !!! l;
  ex_new : ∀ l, length birth ≤ l → l < length birth' → n ≤ birth' !!! l
}.

Section extension.
Context (n n' : nat) (birth death birth' death' : list nat).
Hypothesis Hex : extends n n' birth death birth' death'.

Lemma dies_some m death0 l r :
  l < length death0 → dies m death0 l = Some r ↔ death0 !!! l = r ∧ r < m.
Proof.
  intros Hl. unfold dies. destruct (lookup_lt_is_Some_2 death0 l Hl) as [d Ed].
  rewrite Ed, (list_lookup_total_correct _ _ _ Ed). simpl. destruct (d <? m) eqn:E.
  - apply Nat.ltb_lt in E. split; [intros [= ->]; lia|intros [-> _]; done].
  - apply Nat.ltb_ge in E. split; [done|lia].
Qed.

Lemma extends_dying r : r < n →
  keyed (dies n' death') (length birth') r = keyed (dies n death) (length birth) r.
Proof.
  intros Hr. destruct Hex as [Hok Hok' Hn Hlen Hb Hd Hnew].
  replace (length birth') with (length birth + (length birth' - length birth)) by lia.
  destruct Hok as (Hdl & _ & _), Hok' as (Hdl' & _ & Hw').
  rewrite keyed_more; [apply keyed_ext|].
  - intros l Hl. rewrite !dies_some by lia. specialize (Hd l Hl). lia.
  - intros l Hl E. destruct (decide (l < length birth')) as [Hl'|Hl'].
    + apply dies_some in E; [|lia]. specialize (Hnew l Hl Hl'). specialize (Hw' l Hl'). lia.
    + unfold dies in E. by rewrite lookup_ge_None_2 in E by lia.
Qed.

Lemma extends_born r : r < n →
  keyed (λ l, birth' !! l) (length birth') r = keyed (λ l, birth !! l) (length birth) r.
Proof.
  intros Hr. destruct Hex as [Hok Hok' Hn Hlen Hb Hd Hnew].
  replace (length birth') with (length birth + (length birth' - length birth)) by lia.
  rewrite keyed_more; [apply keyed_ext|].
  - intros l Hl. by destruct (Hb l Hl) as [-> _].
  - intros l Hl E. pose proof (lookup_lt_Some _ _ _ E) as Hl'. specialize (Hnew l Hl Hl').
    rewrite (list_lookup_total_correct _ _ _ E) in Hnew. lia.
Qed.

(** The lanes of the shorter history keep their indices. *)
Lemma extends_compact compact w compact' w' :
  compact_lanes birth death n = Some (compact, w) →
  compact_lanes birth' death' n' = Some (compact', w') →
  ∀ l, l < length birth → compact' !! l = compact !! l.
Proof.
  intros E E' l Hl. pose proof (ex_ok _ _ _ _ _ _ Hex) as Hok. pose proof (ex_ok' _ _ _ _ _ _ Hex) as Hok'.
  pose proof (ex_rev _ _ _ _ _ _ Hex) as Hn. pose proof (ex_len _ _ _ _ _ _ Hex) as Hlen.
  destruct (ex_birth _ _ _ _ _ _ Hex l Hl) as [Hb Hbn].
  destruct (compact_until birth death n Hok n) as (B & D & sk & s & Es & _ & [_ HB] & [_ HD] & Ek & Hk & Hold); [lia|].
  destruct (compact_until birth' death' n' Hok' n) as (B' & D' & sk' & s' & Es' & Hs' & [_ HB'] & [_ HD'] & Ek' & _ & Hold'); [lia|].
  rewrite E in Es. injection Es as -> _. rewrite E' in Es'. injection Es' as -> _.
  rewrite Hold', Hold by (try lia; by rewrite list_lookup_total_alt, Hb, <- list_lookup_total_alt).
  apply (compact_loop_pad (length birth' - length birth) D B D' B') in Ek.
  - unfold padc in Ek at 1. simpl in Ek. rewrite <- replicate_add in Ek.
    replace (length birth + (length birth' - length birth)) with (length birth') in Ek by lia.
    rewrite Ek' in Ek. injection Ek as ->. simpl. apply lookup_app_l.
    by rewrite Hk.
  - intros r Hr. rewrite HD', HD, HB', HB, extends_dying, extends_born by lia. done.
Qed.
End extension.

Section append.
Context (ps qs : list (list nat)) (mono mono' : list nat).
Hypothesis (Ht : topological (ps ++ qs))
           (Hmono : ∀ j, j < length ps → mono' !! j = mono !! j).

Lemma merges_append l j : j < length ps → merges (ps ++ qs) mono' l j = merges ps mono l j.
Proof.
  intros Hj. unfold merges. rewrite lookup_app_l by done.
  destruct (ps !! j) as [pp|] eqn:E; [|done]. simpl.
  assert (Hp : Forall (λ p, p < j) (tail pp)).
  { specialize (Ht j pp (lookup_app_l_Some _ _ _ _ E)). destruct pp; [constructor|].
    by apply Forall_cons in Ht as [_ ?]. }
  induction Hp as [|p pp' Hp _ IH]; simpl; [done|]. by rewrite Hmono, IH by lia.
Qed.

Lemma first_merge_append l i : i ≤ length ps →
  first_merge (ps ++ qs) mono' l i = first_merge ps mono l i.
Proof.
  induction i as [|i IH]; intros Hi; [done|].
  rewrite !first_merge_S, IH, merges_append by lia. done.
Qed.

Lemma first_merge_later l i k j :
  first_merge (ps ++ qs) mono' l i = None → first_merge (ps ++ qs) mono' l (i + k) = Some j → i ≤ j.
Proof.
  intros Hi. revert j. induction k as [|k IH]; intros j.
  - rewrite Nat.add_0_r, Hi. done.
  - rewrite Nat.add_succ_r, first_merge_S. destruct (first_merge _ _ _ (i + k)) as [j'|]; [naive_solver|].
    destruct (merges _ _ _ _); [|done]. intros [= <-]. lia.
Qed.

Lemma first_merge_stable l i k j :
  first_merge (ps ++ qs) mono' l i = Some j → first_merge (ps ++ qs) mono' l (i + k) = Some j.
Proof.
  intros Hi. induction k as [|k IH]; [by rewrite Nat.add_0_r|].
  by rewrite Nat.add_succ_r, first_merge_S, IH.
Qed.

Lemma death_append l :
  death_of (ps ++ qs) mono' l = death_of ps mono l ∨
  length ps ≤ death_of ps mono l ∧ length ps ≤ death_of (ps ++ qs) mono' l.
Proof.
  unfold death_of. rewrite <- (first_merge_append l (length ps)) by done. rewrite length_app.
  destruct (first_merge (ps ++ qs) mono' l (length ps)) as [j|] eqn:E; simpl.
  - left. by rewrite (first_merge_stable _ _ _ _ E).
  - right. split; [done|]. destruct (first_merge _ _ _ (_ + _)) as [j|] eqn:E2; simpl; [|lia].
    by eapply first_merge_later.
Qed.
End append.

Lemma histories_extend ps qs s s' :
  topological (ps ++ qs) → fits_u32 (ps ++ qs) →
  assigned ps (length ps) s → assigned (ps ++ qs) (length (ps ++ qs)) s' →
  (∀ j, j < length ps → a_lane_of s' !! j = a_lane_of s !! j) →
  (∀ l, l < length (a_span s) → fst <$> a_span s' !! l = fst <$> a_span s !! l) →
  (∀ l b d, length (a_span s) ≤ l → a_span s' !! l = Some (b, d) → length ps ≤ b) →
  extends (length ps) (length (ps ++ qs)) (births s) (deaths ps s) (births s') (deaths (ps ++ qs) s').
Proof.
  intros Ht Hf Hs Hs' HL HB HN.
  assert (Hf1 : fits_u32 ps) by (unfold fits_u32 in *; rewrite length_app in Hf; lia).
  assert (Hb : length (births s) = length (a_span s)) by (unfold births; by rewrite length_fmap).
  assert (Hb' : length (births s') = length (a_span s')) by (unfold births; by rewrite length_fmap).
  assert (Hle : length (a_span s) ≤ length (a_span s')).
  { destruct (decide (length (a_span s') < length (a_span s))) as [Hlt|]; [|lia].
    specialize (HB _ Hlt). rewrite lookup_ge_None_2 in HB by lia.
    destruct (lookup_lt_is_Some_2 _ _ Hlt) as [x Hx]. by rewrite Hx in HB. }
  split; rewrite ?Hb, ?Hb'.
  - apply plan_windows; [by eapply topological_app|done..].
  - by apply plan_windows.
  - rewrite length_app. lia.
  - done.
  - intros l Hl. rewrite !lookup_births, HB by done. split; [done|].
    destruct (lookup_lt_is_Some_2 (a_span s) l Hl) as [[b d] Hsp].
    rewrite (list_lookup_total_correct (births s) l b) by (by rewrite lookup_births, Hsp).
    by eapply births_lt.
  - intros l Hl. rewrite !list_lookup_total_alt, !lookup_deaths by lia. simpl. by apply death_append.
  - intros l Hl Hl'. destruct (lookup_lt_is_Some_2 (a_span s') l Hl') as [[b d] Hsp].
    rewrite (list_lookup_total_correct (births s') l b) by (by rewrite lookup_births, Hsp). eauto.
Qed.

(** C7. Extending a history never renumbers what is stored: the plan of the
    extended history exists, gives every revision of the old one the compact
    lane it had, and has the same lanes dying at it.  So the check of
    [LaneStore::update_stats] that no stored lane is renumbered only fires when
    the stored parents and lanes were not produced by this plan. *)
Theorem plan_prefix_stable ps qs :
  topological (ps ++ qs) → fits_u32 (ps ++ qs) →
  ∃ plan plan', plan_from_parents ps = Some plan ∧ plan_from_parents (ps ++ qs) = Some plan' ∧
    length (plan_lane_of plan) = length ps ∧
    take (length ps) (plan_lane_of plan') = plan_lane_of plan ∧
    ∀ r, r < length ps → dying_at plan' !! r = dying_at plan !! r.
Proof.
  intros Ht Hf. pose proof (topological_app _ _ Ht) as Ht1.
  assert (Hf1 : fits_u32 ps) by (unfold fits_u32 in *; rewrite length_app in Hf; lia).
  destruct (assign_prefix ps qs Ht Hf) as (s & s' & Es & Es' & Hs & Hs' & HL & HB & HN).
  pose proof (histories_extend ps qs s s' Ht Hf Hs Hs' HL HB HN) as Hex.
  destruct (plan_total ps s Ht1 Hf1 Hs Es) as (c & w & dy & Ec & Hc & -> & Hdy).
  destruct (plan_total (ps ++ qs) s' Ht Hf Hs' Es') as (c' & w' & dy' & Ec' & Hc' & -> & Hdy').
  pose proof (extends_compact _ _ _ _ _ _ Hex _ _ _ _ Ec Ec') as Hcc.
  assert (Hb : length (births s) = length (a_span s)) by (unfold births; by rewrite length_fmap).
  assert (Hb' : length (births s') = length (a_span s')) by (unfold births; by rewrite length_fmap).
  assert (Hct : ∀ l, l < length (a_span s) → c' !!! l = c !!! l).
  { intros l Hl. rewrite !list_lookup_total_alt. by rewrite Hcc by lia. }
  eexists _, _. split_and!; [done..| | |]; simpl.
  - rewrite length_fmap. apply Hs.
  - apply list_eq. intros j. destruct (decide (j < length ps)) as [Hj|Hj].
    + rewrite lookup_take_lt, !list_lookup_fmap, HL by done.
      destruct (mono_lane ps s Hs j Hj) as (l & -> & Hl). simpl. f_equal. auto.
    + rewrite lookup_take_ge by lia. symmetry. apply lookup_ge_None_2.
      rewrite length_fmap, (as_len _ _ _ Hs). lia.
  - intros r Hr. rewrite Hdy, Hdy' by (rewrite ?length_app; lia). f_equal.
    rewrite <- Hb, <- Hb', (extends_dying _ _ _ _ _ _ Hex) by done.
    apply list_fmap_ext. intros i l Hl%list_elem_of_lookup_2. apply Hct. rewrite <- Hb.
    unfold keyed in Hl. apply list_elem_of_filter in Hl as [_ Hl%elem_of_seq]. lia.
Qed.

Lemma plan_prefix_stable_witness :
  ∃ plan plan', plan_from_parents [[]; [0]; [0]; [1; 2]] = Some plan ∧
    plan_from_parents ([[]; [0]; [0]; [1; 2]] ++ [[0]; [2]; [4; 5]]) = Some plan' ∧
    take 4 (plan_lane_of plan') = plan_lane_of plan ∧ plan_lane_of plan = [0; 0; 1; 0].
Proof.
  destruct (plan_prefix_stable [[]; [0]; [0]; [1; 2]] [[0]; [2]; [4; 5]])
    as (p & p' & E & E' & _ & H & _); [by apply topological_check|done|].
  exists p, p'. split_and!; [done..|]. vm_compute in E. by injection E as <-.
Defined.

(** A lane merged by a later commit can still be continued: here lane 1 dies at
    revision 3, its index is reused by the lane born at 4, and commit 5, whose
    first parent is on lane 1, advances the index while that lane is alive. *)
Example merged_lane_continues :
  ∃ a plan, assign_lanes [[]; [0]; [0]; [1; 2]; [0]; [2]] = Some a ∧
    plan_from_parents [[]; [0]; [0]; [1; 2]; [0]; [2]] = Some plan ∧
    lane_of a !! 4 = Some 2 ∧ lane_of a !! 5 = Some 1 ∧
    plan_lane_of plan !! 4 = Some 1 ∧ plan_lane_of plan !! 5 = Some 1.
Proof. eexists _, _. split_and!; vm_compute; reflexivity. Qed.

End PlanLaws.
