(* ===== verification/GitSlots.v ===== *)
(** Variant slots of the git mirror's union state: the slot assignment of one
    path ([chupa/gitdepot/src/reslot.rs]) and the variant set that the lane
    transitions of a revision give it ([new_variant_set] of
    [chupa/gitdepot/src/oidenc.rs]).

    A lane bitmap is a [Vec<u8>], bit [l % 8] of byte [l / 8] for lane [l].  A
    panic (an index out of range, a missing map key) is [None]. *)
From S2P Require Import Prelude.
From S2P Require Import BTreeMap.

Module Slots.

(** *** Lane bitmaps *)

(** [b |= 1 << k] and [b &= !(1 << k)] on a [u8], for [k < 8] *)
Definition byte_set (b : Z) (k : nat) : Z := Z.lor b (Z.shiftl 1 (Z.of_nat k)).
Definition byte_clear (b : Z) (k : nat) : Z :=
  Z.land b (Z.lxor 255 (Z.shiftl 1 (Z.of_nat k))).

(** [if bm.len() <= byte { bm.resize(byte + 1, 0); }] *)
Definition grow (bm : bytes) (byte : nat) : bytes :=
  if length bm <=? byte then bm ++ replicate (byte + 1 - length bm) 0%Z else bm.

Definition set_bit (bm : bytes) (i : nat) : bytes :=
  let byte := i / 8 in alter (λ b, byte_set b (i mod 8)) byte (grow bm byte).

Definition clear_bit (bm : bytes) (i : nat) : bytes :=
  let byte := i / 8 in
  if byte <? length bm then alter (λ b, byte_clear b (i mod 8)) byte bm else bm.

(** [u8::count_ones] *)
Definition count_ones (b : Z) : nat :=
  length (filter (λ k, Z.testbit b (Z.of_nat k) = true) (seq 0 8)).

Definition common_lanes (a b : bytes) : nat :=
  sum_list (zip_with (λ x y, count_ones (Z.land x y)) a b).

(** *** Slots *)

Record Occupant (V : Type) : Type := MkOcc { id : V; bitmap : bytes }.
Arguments MkOcc {V} id bitmap.
Arguments id {V} o.
Arguments bitmap {V} o.

Record SlotChange (V : Type) : Type := MkChange {
  slot : nat;
  before : option (Occupant V);
  after : option (Occupant V)
}.
Arguments MkChange {V} slot before after.
Arguments slot {V} s.
Arguments before {V} s.
Arguments after {V} s.

(** [struct Slots]: the map [by_slot], from slot keys to occupants. *)
Definition slots (V : Type) : Type := btmap nat (Occupant V).

Section reslot.
Context {V : Type} `{EqDecision V}.

(** [Slots::set] *)
Definition slots_set (k : nat) (o : Occupant V) (s : slots V) : slots V := bt_insert k o s.

(** [Slots::free_slot]: the search stops after one more key than there are slots. *)
Fixpoint free_slot_from (fuel k : nat) (s : slots V) : nat :=
  match fuel with
  | O => k
  | S fuel => if bt_contains k s then free_slot_from fuel (k + 1) s else k
  end.
Definition free_slot (s : slots V) : nat := free_slot_from (length s) 0 s.

(** [by_slot.iter().find(|(_, occ)| &occ.id == id)], the slot of it *)
Fixpoint find_id (v : V) (s : slots V) : option nat :=
  match s with
  | [] => None
  | (k, o) :: s => if decide (id o = v) then Some k else find_id v s
  end.

(** The variables of [reslot]: the slots, the old slots not claimed yet (a
    [BTreeSet]) and the changes. *)
Record ReslotState : Type := MkReslot {
  r_slots : slots V;
  r_free : list nat;
  r_changes : list (SlotChange V)
}.

(** [free_old.remove(&slot)] *)
Definition unfree (k : nat) (free : list nat) : list nat := filter (λ j, j ≠ k) free.

(** [let before = ..; self.by_slot.insert(slot, after.clone()); changes.push(..)] *)
Definition place (k : nat) (v : V) (bm : bytes) (bef : option (Occupant V)) (st : ReslotState)
    : ReslotState :=
  let o := MkOcc v bm in
  MkReslot (bt_insert k o (r_slots st)) (r_free st) (r_changes st ++ [MkChange k bef (Some o)]).

(** Pass 1: an id that already occupies a slot keeps it; the others are pending. *)
Fixpoint pass_id (vars : btmap V bytes) (st : ReslotState) (pending : list (V * bytes))
    : ReslotState * list (V * bytes) :=
  match vars with
  | [] => (st, pending)
  | (v, bm) :: vars =>
      match find_id v (r_slots st) with
      | Some k =>
          let st1 := MkReslot (r_slots st) (unfree k (r_free st)) (r_changes st) in
          let bef := bt_get k (r_slots st) in
          pass_id vars (if decide (bitmap <$> bef = Some bm) then st1 else place k v bm bef st1) pending
      | None => pass_id vars st (pending ++ [(v, bm)])
      end
  end.

(** The candidate pairs of pass 2: (shared lanes, pending index, slot). *)
Definition cand : Type := nat * nat * nat.

Fixpoint cands_of (bm : bytes) (pi : nat) (free : list nat) (s : slots V) : option (list cand) :=
  match free with
  | [] => Some []
  | k :: free =>
      o ← bt_get k s;
      rest ← cands_of bm pi free s;
      let c := common_lanes bm (bitmap o) in
      Some (if 0 <? c then (c, pi, k) :: rest else rest)
  end.

Fixpoint candidates (pi : nat) (pending : list (V * bytes)) (free : list nat) (s : slots V)
    : option (list cand) :=
  match pending with
  | [] => Some []
  | (_, bm) :: pending =>
      here ← cands_of bm pi free s;
      rest ← candidates (S pi) pending free s;
      Some (here ++ rest)
  end.

(** [cand.sort_by(|a, b| b.0.cmp(&a.0))]: a stable sort, most shared lanes first. *)
Fixpoint insert_cand (x : cand) (l : list cand) : list cand :=
  match l with
  | [] => [x]
  | y :: l' => if y.1.1 <=? x.1.1 then x :: l else y :: insert_cand x l'
  end.
Definition sort_cands (l : list cand) : list cand := foldr insert_cand [] l.

(** Pass 2: greedy pairing along the sorted candidates. *)
Fixpoint pass_similar (cs : list cand) (pending : list (V * bytes)) (taken : list bool)
    (st : ReslotState) : option (ReslotState * list bool) :=
  match cs with
  | [] => Some (st, taken)
  | (_, pi, k) :: cs =>
      t ← taken !! pi;
      if (t : bool) || negb (bool_decide (k ∈ r_free st))
      then pass_similar cs pending taken st
      else
        '(v, bm) ← pending !! pi;
        let st1 := MkReslot (r_slots st) (unfree k (r_free st)) (r_changes st) in
        pass_similar cs pending (<[pi := true]> taken) (place k v bm (bt_get k (r_slots st)) st1)
  end.

(** Pass 3: the lowest free key for each variant that matched nothing. *)
Fixpoint pass_new (pending : list (V * bytes)) (taken : list bool) (st : ReslotState)
    : option ReslotState :=
  match pending with
  | [] => Some st
  | (v, bm) :: pending =>
      t ← head taken;
      pass_new pending (tail taken)
        (if (t : bool) then st else place (free_slot (r_slots st)) v bm None st)
  end.

(** Pass 4: the old slots nothing claimed are emptied. *)
Fixpoint pass_delete (free : list nat) (st : ReslotState) : ReslotState :=
  match free with
  | [] => st
  | k :: free =>
      let bef := bt_get k (r_slots st) in
      pass_delete free (MkReslot (bt_remove k (r_slots st)) (r_free st)
                          (r_changes st ++ [MkChange k bef None]))
  end.

(** [changes.sort_by_key(|c| c.slot)] *)
Fixpoint insert_change (x : SlotChange V) (l : list (SlotChange V)) : list (SlotChange V) :=
  match l with
  | [] => [x]
  | y :: l' => if slot x <=? slot y then x :: l else y :: insert_change x l'
  end.
Definition sort_changes (l : list (SlotChange V)) : list (SlotChange V) := foldr insert_change [] l.

(** [Slots::reslot]: the new slots and the changes. *)
Definition reslot (new_variants : btmap V bytes) (s : slots V)
    : option (slots V * list (SlotChange V)) :=
  let '(st1, pending) := pass_id new_variants (MkReslot s s.*1 []) [] in
  cs ← candidates 0 pending (r_free st1) (r_slots st1);
  '(st2, taken) ← pass_similar (sort_cands cs) pending (replicate (length pending) false) st1;
  st3 ← pass_new pending taken st2;
  let st4 := pass_delete (r_free st3) st3 in
  Some (r_slots st4, sort_changes (r_changes st4)).

End reslot.

(** *** The variant set of a path after a revision's transitions *)

(** [struct Ent] *)
Record Ent : Type := MkEnt { mode : bytes; oid : bytes; is_dir : bool }.

(** [type VarKey = (Vec<u8>, String)]: the mode and the object id *)
Definition VarKey : Type := bytes * bytes.

(** [type Trans]: a lane, its old and its new entry *)
Definition Trans : Type := nat * option Ent * option Ent.

#[export] Instance pair_ord {A B} `{Ord A, Ord B} : Ord (A * B) := λ x y,
  match cmp x.1 y.1 with Eq => cmp x.2 y.2 | c => c end.

Definition update_bits (f : bytes → bytes) (m : btmap VarKey bytes) : btmap VarKey bytes :=
  (λ '(k, bm), (k, f bm)) <$> m.

(** [set_bit(set.entry((mode, oid)).or_default(), lane)] *)
Definition add_lane (k : VarKey) (lane : nat) (m : btmap VarKey bytes) : btmap VarKey bytes :=
  bt_insert k (set_bit (default [] (bt_get k m)) lane) m.

(** [set.insert(occ.id.clone(), occ.bitmap.clone())] *)
Definition add_occupant (m : btmap VarKey bytes) (x : nat * Occupant VarKey) : btmap VarKey bytes :=
  bt_insert (id x.2) (bitmap x.2) m.

(** The lane of the transition leaves every variant. *)
Definition clear_lane (m : btmap VarKey bytes) (t : Trans) : btmap VarKey bytes :=
  update_bits (λ bm, clear_bit bm t.1.1) m.

(** The lane joins the file it now has here, if it has one. *)
Definition set_lane (m : btmap VarKey bytes) (t : Trans) : btmap VarKey bytes :=
  match t.2 with
  | Some e => if is_dir e then m else add_lane (mode e, oid e) t.1.1 m
  | None => m
  end.

Definition new_variant_set (s : slots VarKey) (trans : list Trans) : btmap VarKey bytes :=
  let set0 := foldl add_occupant [] s in
  let set1 := foldl clear_lane set0 trans in
  let set2 := foldl set_lane set1 trans in
  filter (λ kb, existsb (λ b, negb (b =? 0)%Z) kb.2 = true) set2.

End Slots.
