(* ===== verification/GitSlotsLaws.v ===== *)
(** The laws of [reslot]: whatever the slots were, they end up holding exactly
    the new variants, each once; an id that had a slot keeps it; and the changes
    reported are exactly the slots that differ, with both their sides. *)
From Stdlib Require Import Sorting.Sorted.
From S2P Require Import Prelude.
From S2P Require Import BTreeMap.
From S2P Require Import GitSlots.
Import Slots.

Module SlotsLaws.

Section reslot.
Context {V : Type} `{OrdLaws V} `{EqDecision V}.
Context (old : slots V) (new : btmap V bytes).
Hypothesis (Hold : bt_ok old = true) (Hnew : bt_ok new = true).

(** *** Free slots *)

Lemma free_slot_from_spec fuel k (s : slots V) :
  bt_get (free_slot_from fuel k s) s = None ∨
  free_slot_from fuel k s = k + fuel ∧ ∀ j, k ≤ j < k + fuel → is_Some (bt_get j s).
Proof.
  revert k. induction fuel as [|fuel IH]; intros k; simpl.
  - right. split; [lia|]. intros; lia.
  - unfold bt_contains. destruct (bt_get k s) as [o|] eqn:E; [|by left].
    destruct (IH (k + 1)) as [?|[-> Hall]]; [by left|right]. split; [lia|].
    intros j Hj. destruct (decide (j = k)) as [->|]; [by eexists|]. apply Hall. lia.
Qed.

Lemma bt_get_key {K A} `{OrdLaws K} (k : K) (m : btmap K A) : is_Some (bt_get k m) → k ∈ m.*1.
Proof. intros [v Hv%bt_get_elem]. apply list_elem_of_fmap. by exists (k, v). Qed.

Lemma bt_keys_nodup {K A} `{OrdLaws K} (m : btmap K A) : bt_ok m = true → NoDup m.*1.
Proof.
  induction m as [|[k v] m IH]; simpl; [constructor|].
  rewrite andb_true_iff, forallb_forall. intros [Hk Hm]. apply NoDup_cons. split; [|auto].
  intros [[k' v'] [E Hin%list_elem_of_In]]%list_elem_of_fmap. simpl in E. subst k'.
  specialize (Hk _ Hin). simpl in Hk. by rewrite cmp_refl in Hk.
Qed.

Lemma free_slot_absent (s : slots V) : bt_get (free_slot s) s = None.
Proof.
  unfold free_slot. destruct (free_slot_from_spec (length s) 0 s) as [?|[-> Hall]]; [done|].
  destruct (bt_get (0 + length s) s) as [o|] eqn:E; [|done]. exfalso.
  assert (Hle : length (seq 0 (S (length s))) ≤ length (s.*1)).
  { apply submseteq_length, NoDup_submseteq; [apply NoDup_seq|].
    intros j Hj%elem_of_seq. apply bt_get_key. destruct (decide (j = length s)) as [->|].
    - by eexists.
    - apply Hall. lia. }
  rewrite length_seq, length_fmap in Hle. lia.
Qed.

(** *** Ids *)

(** The slots with the ids of their occupants. *)
Definition ids (s : slots V) : list (nat * V) := (λ '(k, o), (k, id o)) <$> s.

Lemma find_id_ids v (s1 s2 : slots V) : ids s1 = ids s2 → find_id v s1 = find_id v s2.
Proof.
  revert s2. induction s1 as [|[k o] s1 IH]; intros [|[k2 o2] s2]; simpl; try done.
  intros [= -> -> E]. destruct (decide _); [done|auto].
Qed.

Lemma find_id_some v (s : slots V) k :
  bt_ok s = true → find_id v s = Some k → ∃ bm, bt_get k s = Some (MkOcc v bm).
Proof.
  intros Hs H1. assert (Hin : ∃ bm, (k, MkOcc v bm) ∈ s).
  { clear Hs. induction s as [|[k' [v' bm']] s IH]; simpl in *; [done|].
    destruct (decide (v' = v)) as [->|].
    - injection H1 as ->. exists bm'. by left.
    - destruct (IH H1) as [bm ?]. exists bm. by right. }
  destruct Hin as [bm Hin]. exists bm. by apply bt_elem_get.
Qed.

Lemma find_id_none v (s : slots V) k o : find_id v s = None → bt_get k s = Some o → id o ≠ v.
Proof.
  intros H1 Hg%bt_get_elem. induction s as [|[k' o'] s IH]; simpl in *; [by inversion Hg|].
  destruct (decide (id o' = v)); [done|]. apply elem_of_cons in Hg as [[= -> ->]|?]; auto.
Qed.

Lemma ids_insert k v bm bm' (s : slots V) :
  bt_ok s = true → bt_get k s = Some (MkOcc v bm') → ids (bt_insert k (MkOcc v bm) s) = ids s.
Proof.
  induction s as [|[k' o'] s IH]; simpl; [done|]. rewrite andb_true_iff, forallb_forall.
  intros [Hk Hs] E. destruct (cmp k k') eqn:Ec; simpl.
  - apply cmp_eq in Ec as ->. by injection E as ->.
  - apply bt_get_elem, list_elem_of_In, Hk in E. simpl in E.
    apply cmp_lt_asym in Ec. by rewrite Ec in E.
  - f_equal. auto.
Qed.

(** *** The invariant of the passes

    [done] are the new variants that have found a slot.  The slots not yet
    claimed are as they were; the others hold the variants done, each once. *)
Record reslotting (done : list V) (st : ReslotState) : Prop := {
  rs_ok : bt_ok (r_slots st) = true;
  rs_nodup : NoDup (r_free st);
  rs_free : ∀ k, k ∈ r_free st → bt_get k (r_slots st) = bt_get k old ∧ is_Some (bt_get k old);
  rs_held : ∀ k o, k ∉ r_free st → bt_get k (r_slots st) = Some o →
    id o ∈ done ∧ bt_get (id o) new = Some (bitmap o);
  rs_done : ∀ v, v ∈ done → ∃ k bm, (k ∉ r_free st) ∧ bt_get k (r_slots st) = Some (MkOcc v bm);
  rs_inj : ∀ k1 k2 o1 o2, k1 ∉ r_free st → k2 ∉ r_free st →
    bt_get k1 (r_slots st) = Some o1 → bt_get k2 (r_slots st) = Some o2 → id o1 = id o2 → k1 = k2;
  rs_keep : ∀ k, is_Some (bt_get k old) → is_Some (bt_get k (r_slots st));
  rs_stay : ∀ v k, v ∈ done → find_id v old = Some k →
    (k ∉ r_free st) ∧ ∃ bm, bt_get k (r_slots st) = Some (MkOcc v bm);
  rs_once : NoDup (slot <$> r_changes st);
  rs_changed : ∀ k, k ∈ (slot <$> r_changes st) ↔ bt_get k (r_slots st) ≠ bt_get k old;
  rs_change : ∀ c, c ∈ r_changes st →
    before c = bt_get (slot c) old ∧ after c = bt_get (slot c) (r_slots st)
}.

Lemma elem_of_unfree j k free : j ∈ unfree k free ↔ j ∈ free ∧ j ≠ k.
Proof. unfold unfree. rewrite list_elem_of_filter. tauto. Qed.

Lemma unfree_absent k free : k ∉ free → unfree k free = free.
Proof.
  intros Hk. unfold unfree. induction free as [|j free IH]; [done|].
  apply not_elem_of_cons in Hk as [Hne Hk]. rewrite filter_cons_True by congruence. by rewrite IH.
Qed.

(** A slot that can be claimed is as it was. *)
Lemma reslotting_before done st k :
  reslotting done st → k ∈ r_free st ∨ bt_get k (r_slots st) = None →
  bt_get k (r_slots st) = bt_get k old ∧ k ∉ (slot <$> r_changes st).
Proof.
  intros Hs Hk. assert (E : bt_get k (r_slots st) = bt_get k old).
  { destruct Hk as [Hk|Hk]; [by apply (rs_free _ _ Hs)|].
    rewrite Hk. destruct (bt_get k old) as [o|] eqn:E; [|done].
    destruct (rs_keep _ _ Hs k) as [o' Ho']; [by eexists|congruence]. }
  split; [done|]. intros Hc. by apply (rs_changed _ _ Hs) in Hc.
Qed.

(** A variant is put in an unclaimed slot, or in an empty one. *)
Lemma reslotting_place done st k v bm :
  reslotting done st → v ∉ done → bt_get v new = Some bm →
  k ∈ r_free st ∨ bt_get k (r_slots st) = None →
  bt_get k (r_slots st) ≠ Some (MkOcc v bm) →
  (∀ k', find_id v old = Some k' → k = k') →
  reslotting (v :: done) (place k v bm (bt_get k (r_slots st))
                            (MkReslot (r_slots st) (unfree k (r_free st)) (r_changes st))).
Proof.
  intros Hs Hv Hbm Hk Hdiff Hfind. destruct (reslotting_before _ _ _ Hs Hk) as [Hbef Hnc].
  assert (Hfr : ∀ j, j ∉ unfree k (r_free st) → j ≠ k → j ∉ r_free st).
  { intros j Hj Hne Hin. by apply Hj, elem_of_unfree. }
  split; simpl.
  - by apply bt_ok_insert, Hs.
  - apply NoDup_filter, Hs.
  - intros j [Hj Hne]%elem_of_unfree. rewrite bt_get_insert_ne by done. by apply (rs_free _ _ Hs).
  - intros j o Hj. rewrite bt_get_insert. case_decide as E; [intros [= <-]|].
    + split; [by left|done].
    + intros Ho. destruct (rs_held _ _ Hs j o) as [? ?]; [auto|done|]. split; [by right|done].
  - intros w [->|Hw]%elem_of_cons.
    + exists k, bm. rewrite elem_of_unfree, bt_get_insert_eq. split; [tauto|done].
    + destruct (rs_done _ _ Hs w Hw) as (j & b & Hj & Eg). exists j, b.
      assert (j ≠ k) by (intros ->; destruct Hk; [done|congruence]).
      rewrite elem_of_unfree, bt_get_insert_ne by done. split; [tauto|done].
  - intros k1 k2 o1 o2 H1 H2. rewrite !bt_get_insert.
    case_decide as E1; case_decide as E2; subst; try done; intros Ho1 Ho2 Eid.
    + injection Ho1 as <-. destruct (rs_held _ _ Hs k2 o2) as [Hin _]; [auto|done|].
      simpl in Eid. by subst v.
    + injection Ho2 as <-. destruct (rs_held _ _ Hs k1 o1) as [Hin _]; [auto|done|].
      simpl in Eid. by subst v.
    + by apply (rs_inj _ _ Hs k1 k2 o1 o2); auto.
  - intros j Hj. rewrite bt_get_insert. case_decide; [done|]. by apply (rs_keep _ _ Hs).
  - intros w j [->|Hw]%elem_of_cons Hj.
    + apply Hfind in Hj as <-. rewrite elem_of_unfree, bt_get_insert_eq. split; [tauto|]. eauto.
    + destruct (rs_stay _ _ Hs w j Hw Hj) as (Hnf & b & Hb).
      assert (j ≠ k) by (intros ->; destruct Hk; [done|congruence]).
      rewrite elem_of_unfree, bt_get_insert_ne by done. split; [tauto|]. eauto.
  - rewrite fmap_app. apply NoDup_app. split_and!; [apply Hs| |apply NoDup_singleton].
    intros j Hj ->%list_elem_of_singleton. done.
  - intros j. rewrite fmap_app, elem_of_app, (rs_changed _ _ Hs j), bt_get_insert. simpl.
    rewrite list_elem_of_singleton. case_decide as E; [|tauto]. subst. split; [|tauto].
    intros _. rewrite <- Hbef. congruence.
  - intros c [Hc| ->%list_elem_of_singleton]%elem_of_app; simpl.
    + destruct (rs_change _ _ Hs c Hc) as [? Ha]. rewrite bt_get_insert_ne; [done|].
      intros Ec. apply Hnc, list_elem_of_fmap. eauto.
    + by rewrite bt_get_insert_eq.
Qed.

(** A variant whose slot holds it as it is claims the slot without a change. *)
Lemma reslotting_same done st k v bm :
  reslotting done st → v ∉ done → bt_get v new = Some bm → k ∈ r_free st →
  bt_get k (r_slots st) = Some (MkOcc v bm) →
  (∀ k', find_id v old = Some k' → k = k') →
  reslotting (v :: done) (MkReslot (r_slots st) (unfree k (r_free st)) (r_changes st)).
Proof.
  intros Hs Hv Hbm Hk Hg Hfind.
  assert (Hfr : ∀ j, j ∉ unfree k (r_free st) → j ≠ k → j ∉ r_free st).
  { intros j Hj Hne Hin. by apply Hj, elem_of_unfree. }
  split; simpl; try apply Hs.
  - apply NoDup_filter, Hs.
  - intros j [Hj Hne]%elem_of_unfree. by apply (rs_free _ _ Hs).
  - intros j o Hj Ho. destruct (decide (j = k)) as [->|Hne].
    + rewrite Hg in Ho. injection Ho as <-. split; [by left|done].
    + destruct (rs_held _ _ Hs j o) as [? ?]; [auto|done|]. split; [by right|done].
  - intros w [->|Hw]%elem_of_cons.
    + exists k, bm. rewrite elem_of_unfree. split; [tauto|done].
    + destruct (rs_done _ _ Hs w Hw) as (j & b & Hj & Eg). exists j, b.
      rewrite elem_of_unfree. split; [tauto|done].
  - intros k1 k2 o1 o2 H1 H2 Ho1 Ho2 Eid.
    destruct (decide (k1 = k)) as [->|E1], (decide (k2 = k)) as [->|E2]; try done.
    + rewrite Hg in Ho1. injection Ho1 as <-. simpl in Eid. subst v.
      by destruct (rs_held _ _ Hs k2 o2) as [Hin _]; auto.
    + rewrite Hg in Ho2. injection Ho2 as <-. simpl in Eid. subst v.
      by destruct (rs_held _ _ Hs k1 o1) as [Hin _]; auto.
    + by apply (rs_inj _ _ Hs k1 k2 o1 o2); auto.
  - intros w j [->|Hw]%elem_of_cons Hj.
    + apply Hfind in Hj as <-. rewrite elem_of_unfree. split; [tauto|]. eauto.
    + destruct (rs_stay _ _ Hs w j Hw Hj) as (Hnf & b & Hb). rewrite elem_of_unfree. split; [tauto|]. eauto.
Qed.

(** *** The passes *)

(** The pending variants: each is new, has no slot yet and had none before. *)
Definition pending_ok (done : list V) (pending : list (V * bytes)) : Prop :=
  NoDup pending.*1 ∧
  ∀ v bm, (v, bm) ∈ pending → bt_get v new = Some bm ∧ find_id v old = None.

Lemma pass_id_ok vars done st pending :
  reslotting done st → ids (r_slots st) = ids old →
  pending_ok done pending → (∀ v, v ∈ pending.*1 → v ∉ done) →
  NoDup vars.*1 → (∀ v bm, (v, bm) ∈ vars → bt_get v new = Some bm ∧ (v ∉ done) ∧ v ∉ pending.*1) →
  ∃ done' st' pending', pass_id vars st pending = (st', pending') ∧
    reslotting done' st' ∧ pending_ok done' pending' ∧ (∀ v, v ∈ pending'.*1 → v ∉ done') ∧
    (∀ v, v ∈ done' ∨ v ∈ pending'.*1 ↔ v ∈ done ∨ v ∈ pending.*1 ∨ v ∈ vars.*1).
Proof.
  revert done st pending. induction vars as [|[v bm] vars IH]; intros done st pending Hs Hids Hp Hpd Hnd Hvars.
  - exists done, st, pending. split_and!; [done..|]. intros v. simpl. rewrite elem_of_nil. tauto.
  - simpl in *. apply NoDup_cons in Hnd as [Hv Hnd].
    destruct (Hvars v bm) as (Hg & Hvd & Hvp); [by left|].
    assert (Hrest : ∀ w b, (w, b) ∈ vars → bt_get w new = Some b ∧ (w ∉ done) ∧ (w ∉ pending.*1) ∧ w ≠ v).
    { intros w b Hw. destruct (Hvars w b) as (? & ? & ?); [by right|]. split_and!; [done..|].
      intros ->. apply Hv, list_elem_of_fmap. by exists (v, b). }
    destruct (find_id v (r_slots st)) as [k|] eqn:Ef.
    + pose proof Ef as Efo. rewrite (find_id_ids v _ _ Hids) in Efo.
      destruct (find_id_some _ _ _ (rs_ok _ _ Hs) Ef) as [b Eb].
      assert (Hk : k ∈ r_free st).
      { destruct (decide (k ∈ r_free st)) as [?|Hn]; [done|].
        by destruct (rs_held _ _ Hs k _ Hn Eb). }
      rewrite Eb. simpl. set (st1 := MkReslot _ (unfree k _) _).
      destruct (IH (v :: done) (if decide (Some b = Some bm) then st1
                  else place k v bm (Some (MkOcc v b)) st1) pending)
        as (done' & st' & pending' & E & Hs' & Hp' & Hpd' & Hall).
      * case_decide as Eq.
        -- injection Eq as ->. eapply reslotting_same; [done..|]. congruence.
        -- rewrite <- Eb. apply reslotting_place; [done..|by left| |congruence]. congruence.
      * case_decide; simpl; [done|]. by erewrite ids_insert; [|apply Hs|].
      * done.
      * intros w Hw [->|?]%elem_of_cons; [done|]. by eapply Hpd.
      * done.
      * intros w b' Hw. destruct (Hrest w b' Hw) as (? & ? & ? & ?).
        rewrite not_elem_of_cons. split_and!; done.
      * exists done', st', pending'. split_and!; [done..|]. intros w. rewrite Hall, !elem_of_cons. tauto.
    + rewrite (find_id_ids v _ _ Hids) in Ef.
      destruct (IH done st (pending ++ [(v, bm)])) as (done' & st' & pending' & E & Hs' & Hp' & Hpd' & Hall).
      * done.
      * done.
      * split.
        -- rewrite fmap_app. apply NoDup_app. split_and!; [apply Hp| |apply NoDup_singleton].
           intros w Hw ->%list_elem_of_singleton. done.
        -- intros w b [Hw|[= -> ->]%list_elem_of_singleton]%elem_of_app; [by apply Hp|done].
      * intros w. rewrite fmap_app, elem_of_app. intros [Hw| ->%list_elem_of_singleton]; [auto|done].
      * done.
      * intros w b Hw. destruct (Hrest w b Hw) as (? & ? & ? & ?). split_and!; [done..|].
        rewrite fmap_app, elem_of_app. intros [?| ->%list_elem_of_singleton]; done.
      * exists done', st', pending'. split_and!; [done..|]. intros w.
        rewrite Hall, fmap_app, elem_of_app, elem_of_cons. simpl. rewrite list_elem_of_singleton. tauto.
Qed.

(** The flags of pass 2 tell which pending variants are done. *)
Definition taken_ok (done : list V) (pending : list (V * bytes)) (taken : list bool) : Prop :=
  length taken = length pending ∧
  ∀ pi v bm t, pending !! pi = Some (v, bm) → taken !! pi = Some t → (t = true ↔ v ∈ done).

Lemma cands_of_ok bm pi free (s : slots V) :
  (∀ k, k ∈ free → is_Some (bt_get k s)) →
  ∃ cs, cands_of bm pi free s = Some cs ∧ Forall (λ c, c.1.2 = pi) cs.
Proof.
  induction free as [|k free IH]; intros Hf; simpl; [by exists []|].
  destruct (Hf k) as [o ->]; [by left|]. simpl.
  destruct IH as (cs & -> & Hcs); [intros j Hj; apply Hf; by right|]. simpl.
  eexists. split; [done|]. destruct (0 <? _); [by constructor|done].
Qed.

Lemma candidates_ok pi pending free (s : slots V) :
  (∀ k, k ∈ free → is_Some (bt_get k s)) →
  ∃ cs, candidates pi pending free s = Some cs ∧
        Forall (λ c, c.1.2 < pi + length pending) cs.
Proof.
  intros Hf. revert pi. induction pending as [|[v bm] pending IH]; intros pi; simpl; [by exists []|].
  destruct (cands_of_ok bm pi free s Hf) as (cs1 & -> & H1). simpl.
  destruct (IH (S pi)) as (cs2 & -> & H2). simpl. eexists. split; [done|].
  apply Forall_app. split; eapply Forall_impl; try done; simpl; lia.
Qed.

Lemma sort_cands_perm cs : sort_cands cs ≡ₚ cs.
Proof.
  assert (Hi : ∀ x l, insert_cand x l ≡ₚ x :: l).
  { intros x l. induction l as [|y l IH]; simpl; [done|]. destruct (_ <=? _); [done|].
    rewrite IH. apply Permutation_swap. }
  induction cs as [|c cs IH]; simpl; [done|]. by rewrite Hi, IH.
Qed.

Lemma pass_similar_ok cs pending taken done st :
  reslotting done st → pending_ok done pending → taken_ok done pending taken →
  Forall (λ c, c.1.2 < length pending) cs →
  ∃ done' st' taken', pass_similar cs pending taken st = Some (st', taken') ∧
    reslotting done' st' ∧ taken_ok done' pending taken' ∧
    (∀ v, v ∈ done → v ∈ done') ∧ (∀ v, v ∈ done' → v ∈ done ∨ v ∈ pending.*1).
Proof.
  intros Hs Hp Ht Hcs. revert done st taken Hs Hp Ht.
  induction cs as [|[[c pi] k] cs IH]; intros done st taken Hs Hp Ht; simpl.
  - exists done, st, taken. split_and!; auto.
  - apply Forall_cons in Hcs as [Hpi Hcs]. simpl in Hpi. specialize (IH Hcs).
    destruct Ht as [Hlen Ht].
    destruct (lookup_lt_is_Some_2 taken pi) as [t Et]; [lia|]. rewrite Et. simpl.
    destruct (lookup_lt_is_Some_2 pending pi Hpi) as [[v bm] Ep].
    destruct (t || negb (bool_decide (k ∈ r_free st))) eqn:Eskip; [apply IH; [done..|by split]|].
    apply orb_false_iff in Eskip as [-> Hk%negb_false_iff%bool_decide_eq_true].
    rewrite Ep. simpl.
    assert (Hvin : (v, bm) ∈ pending) by (by eapply list_elem_of_lookup_2).
    destruct (proj2 Hp v bm Hvin) as [Hg Hfi].
    assert (Hvd : v ∉ done) by (intros Hin; by apply (Ht _ _ _ _ Ep Et) in Hin).
    destruct (IH (v :: done) (place k v bm (bt_get k (r_slots st))
                 (MkReslot (r_slots st) (unfree k (r_free st)) (r_changes st))) (<[pi:=true]> taken))
      as (done' & st' & taken' & E & Hs' & Ht' & Hin1 & Hin2).
    + apply reslotting_place; [done..|by left| |congruence].
      destruct (rs_free _ _ Hs k Hk) as [-> _]. intros E. by apply (find_id_none v) in E.
    + done.
    + split; [by rewrite length_insert|]. intros j w b t' Ew. rewrite elem_of_cons.
      destruct (decide (j = pi)) as [->|Hne].
      * rewrite list_lookup_insert_eq by lia. intros [= <-]. rewrite Ep in Ew. injection Ew as <- <-. tauto.
      * rewrite list_lookup_insert_ne by done. intros Et'. rewrite (Ht _ _ _ _ Ew Et'). split; [tauto|].
        intros [->|?]; [|done]. exfalso. apply Hne.
        destruct Hp as [Hnd _]. eapply NoDup_lookup; [apply Hnd| |].
        -- by rewrite list_lookup_fmap, Ew.
        -- by rewrite list_lookup_fmap, Ep.
    + exists done', st', taken'. split_and!; [done..| |].
      * intros w Hw. apply Hin1. by right.
      * intros w [[->|?]%elem_of_cons|?]%Hin2; [right|by left|by right].
        apply list_elem_of_fmap. by exists (v, bm).
Qed.

Lemma pass_new_ok pending taken done st :
  reslotting done st → pending_ok done pending → taken_ok done pending taken →
  ∃ done' st', pass_new pending taken st = Some st' ∧ reslotting done' st' ∧
    (∀ v, v ∈ done' ↔ v ∈ done ∨ v ∈ pending.*1).
Proof.
  revert taken done st. induction pending as [|[v bm] pending IH]; intros taken done st Hs Hp Ht; simpl.
  - exists done, st. split_and!; [done..|]. intros v. rewrite elem_of_nil. tauto.
  - destruct Ht as [Hlen Ht], Hp as [Hnd Hp]. simpl in *.
    destruct taken as [|t taken]; [done|]. simpl in *. apply NoDup_cons in Hnd as [Hv Hnd].
    destruct (Hp v bm) as [Hg Hfi]; [by left|].
    assert (Hp' : ∀ done, pending_ok done pending).
    { split; [done|]. intros w b Hw. apply Hp. by right. }
    pose proof (Ht 0 v bm t eq_refl eq_refl) as Hv0. destruct t.
    + destruct (IH taken done st) as (done' & st' & -> & Hs' & Hall); [done|by apply Hp'| |].
      { split; [lia|]. intros pi w b t' Hw Ht'. by apply (Ht (S pi) w b t'). }
      exists done', st'. split_and!; [done..|]. intros w. rewrite Hall, elem_of_cons.
      split; [tauto|]. intros [?|[->|?]]; [tauto| |tauto]. left. by apply Hv0.
    + assert (Hvd : v ∉ done) by (intros Hin; by apply Hv0 in Hin).
      pose proof (free_slot_absent (r_slots st)) as Hfree.
      assert (Hnf : free_slot (r_slots st) ∉ r_free st).
      { intros Hin. destruct (rs_free _ _ Hs _ Hin) as [E [o Ho]]. congruence. }
      pose proof (reslotting_place done st (free_slot (r_slots st)) v bm Hs Hvd Hg (or_intror Hfree)) as Hs'.
      rewrite unfree_absent, Hfree in Hs' by done.
      destruct (IH taken (v :: done) (place (free_slot (r_slots st)) v bm None st))
        as (done' & st' & -> & Hs2 & Hall).
      * apply Hs'; congruence.
      * apply Hp'.
      * split; [lia|]. intros pi w b t' Hw Ht'. rewrite (Ht (S pi) w b t' Hw Ht'), elem_of_cons.
        split; [tauto|]. intros [->|?]; [|done]. exfalso. apply Hv, list_elem_of_fmap.
        exists (v, b). split; [done|]. by eapply list_elem_of_lookup_2.
      * exists done', st'. split_and!; [done..|]. intros w. rewrite Hall, !elem_of_cons. tauto.
Qed.

Lemma pass_delete_ok free (st : ReslotState (V:=V)) :
  bt_ok (r_slots st) = true → NoDup free →
  bt_ok (r_slots (pass_delete free st)) = true ∧
  (∀ j, bt_get j (r_slots (pass_delete free st)) =
        if decide (j ∈ free) then None else bt_get j (r_slots st)) ∧
  r_changes (pass_delete free st) =
    r_changes st ++ ((λ k, MkChange k (bt_get k (r_slots st)) None) <$> free).
Proof.
  revert st. induction free as [|k free IH]; intros st Hok Hnd; simpl.
  - split_and!; [done| |by rewrite app_nil_r]. intros j. done.
  - apply NoDup_cons in Hnd as [Hk Hnd].
    destruct (IH (MkReslot (bt_remove k (r_slots st)) (r_free st)
                    (r_changes st ++ [MkChange k (bt_get k (r_slots st)) None]))) as (H1 & H2 & H3);
      simpl in *; [by apply bt_ok_remove|done|].
    split_and!; [done| |].
    + intros j. rewrite H2, bt_get_remove by done.
      destruct (decide (j ∈ free)), (decide (j = k)), (decide (j ∈ k :: free)) as [Hj|Hj];
        rewrite elem_of_cons in Hj; try done; exfalso; tauto.
    + rewrite H3, <- app_assoc. simpl. do 2 f_equal. apply list_fmap_ext. intros i j Hj%list_elem_of_lookup_2.
      rewrite bt_get_remove by done. rewrite decide_False; [done|]. by intros ->.
Qed.

Lemma sort_changes_spec (l : list (SlotChange V)) :
  sort_changes l ≡ₚ l ∧ (NoDup (slot <$> l) → StronglySorted lt (slot <$> sort_changes l)).
Proof.
  assert (Hi : ∀ (x : SlotChange V) l', insert_change x l' ≡ₚ x :: l').
  { intros x l'. induction l' as [|y l' IH]; simpl; [done|]. destruct (_ <=? _); [done|].
    rewrite IH. apply Permutation_swap. }
  induction l as [|c l [IHp IHs]]; simpl; [split; [done|constructor]|].
  split; [by rewrite Hi, IHp|]. intros [Hc Hnd]%NoDup_cons. specialize (IHs Hnd).
  assert (Hc' : slot c ∉ (slot <$> sort_changes l)) by (by rewrite IHp). clear IHp Hc Hnd.
  change (foldr insert_change [] l) with (sort_changes l).
  induction (sort_changes l) as [|y l' IH]; simpl; [repeat constructor|].
  simpl in *. apply not_elem_of_cons in Hc' as [Hne Hc']. inversion IHs as [|? ? Hs Hall]; subst.
  destruct (slot c <=? slot y) eqn:E; simpl.
  - apply Nat.leb_le in E. constructor; [done|]. constructor; [lia|].
    eapply Forall_impl; [done|]. simpl. lia.
  - apply Nat.leb_gt in E. constructor; [auto|].
    rewrite Hi. simpl. by constructor.
Qed.

Lemma reslotting_init : reslotting [] (MkReslot old old.*1 []).
Proof.
  assert (Hget : ∀ k, k ∈ old.*1 ↔ is_Some (bt_get k old)).
  { intros k. split; [|apply bt_get_key].
    intros [[k' o] [-> Hin]]%list_elem_of_fmap. exists o. by apply bt_elem_get. }
  split; simpl; try done.
  - by apply bt_keys_nodup.
  - intros k Hk. split; [done|]. by apply Hget.
  - intros k o Hk Ho. exfalso. apply Hk, Hget. eauto.
  - by intros v ?%elem_of_nil.
  - intros k1 k2 o1 o2 H1 _ Ho1. exfalso. apply H1, Hget. eauto.
  - by intros v k ?%elem_of_nil.
  - constructor.
  - intros k. rewrite elem_of_nil. tauto.
  - by intros c ?%elem_of_nil.
Qed.

(** The state before the deletions: every new variant has its slot. *)
Lemma reslot_passes :
  ∃ done st, reslotting done st ∧ (∀ v, v ∈ done ↔ is_Some (bt_get v new)) ∧
    reslot new old = Some (r_slots (pass_delete (r_free st) st),
                           sort_changes (r_changes (pass_delete (r_free st) st))).
Proof.
  unfold reslot.
  destruct (pass_id_ok new [] (MkReslot old old.*1 []) []) as (d1 & st1 & pending & -> & Hs1 & Hp1 & Hpd1 & Hall1);
    [apply reslotting_init|done|split; [constructor|by intros v bm ?%elem_of_nil]
    |by intros v ?%elem_of_nil|by apply bt_keys_nodup| |].
  { intros v bm Hv. split_and!; [by apply bt_elem_get|by apply not_elem_of_nil..]. }
  destruct (candidates_ok 0 pending (r_free st1) (r_slots st1)) as (cs & -> & Hcs).
  { intros k Hk. by destruct (rs_free _ _ Hs1 k Hk) as [-> ?]. }
  simpl in *. rewrite <- sort_cands_perm in Hcs.
  destruct (pass_similar_ok (sort_cands cs) pending (replicate (length pending) false) d1 st1)
    as (d2 & st2 & taken & -> & Hs2 & Ht2 & Hin1 & Hin2); [done..| |done|].
  { split; [apply length_replicate|]. intros pi v bm t Ep [-> _]%lookup_replicate. split; [done|].
    intros Hin. exfalso. eapply Hpd1; [|done]. apply list_elem_of_fmap. exists (v, bm).
    split; [done|]. by eapply list_elem_of_lookup_2. }
  simpl. destruct (pass_new_ok pending taken d2 st2) as (d3 & st3 & -> & Hs3 & Hall3);
    [done|done|done|].
  exists d3, st3. split_and!; [done| |done]. intros v. rewrite Hall3.
  assert (Hk : is_Some (bt_get v new) ↔ v ∈ new.*1).
  { split; [apply bt_get_key|]. intros [[v' bm] [-> Hin]]%list_elem_of_fmap. exists bm. by apply bt_elem_get. }
  rewrite Hk. specialize (Hall1 v). rewrite !elem_of_nil in Hall1. specialize (Hin1 v). specialize (Hin2 v). tauto.
Qed.

Lemma reslot_laws :
  ∃ s changes, reslot new old = Some (s, changes) ∧ bt_ok s = true ∧
    (∀ v bm, bt_get v new = Some bm ↔ ∃ k, bt_get k s = Some (MkOcc v bm)) ∧
    (∀ k1 k2 o1 o2, bt_get k1 s = Some o1 → bt_get k2 s = Some o2 → id o1 = id o2 → k1 = k2) ∧
    (∀ v k, find_id v old = Some k → is_Some (bt_get v new) → id <$> bt_get k s = Some v) ∧
    StronglySorted lt (slot <$> changes) ∧
    (∀ k, k ∈ (slot <$> changes) ↔ bt_get k s ≠ bt_get k old) ∧
    (∀ c, c ∈ changes → before c = bt_get (slot c) old ∧ after c = bt_get (slot c) s).
Proof.
  destruct reslot_passes as (done & st & Hs & Hdone & ->).
  destruct (pass_delete_ok (r_free st) st) as (Hok & Hget & Hch); [apply Hs..|].
  destruct (sort_changes_spec (r_changes (pass_delete (r_free st) st))) as [Hperm Hsorted].
  eexists _, _. split; [done|]. split; [done|].
  assert (Hheld : ∀ k o, bt_get k (r_slots (pass_delete (r_free st) st)) = Some o →
                    (k ∉ r_free st) ∧ bt_get k (r_slots st) = Some o).
  { intros k o. rewrite Hget. case_decide; [done|]. done. }
  split_and!.
  - intros v bm. split.
    + intros Hv. destruct (rs_done _ _ Hs v) as (k & b & Hk & Eb); [apply Hdone; eauto|].
      exists k. rewrite Hget, decide_False, Eb by done.
      destruct (rs_held _ _ Hs k _ Hk Eb) as [_ E]. simpl in E. congruence.
    + intros (k & [Hk Ek]%Hheld). by destruct (rs_held _ _ Hs k _ Hk Ek) as [_ ?].
  - intros k1 k2 o1 o2 [Hf1 H1]%Hheld [Hf2 H2]%Hheld. by apply (rs_inj _ _ Hs).
  - intros v k Hf Hv. destruct (rs_stay _ _ Hs v k) as (Hk & bm & Eb); [by apply Hdone|done|].
    by rewrite Hget, decide_False, Eb.
  - apply Hsorted. rewrite Hch, fmap_app, <- list_fmap_compose. simpl.
    apply NoDup_app. split_and!; [apply Hs| |].
    + intros k Hk%(rs_changed _ _ Hs) Hf. rewrite list_fmap_id in Hf. by apply (rs_free _ _ Hs) in Hf as [? _].
    + rewrite list_fmap_id. apply Hs.
  - intros k. rewrite Hperm, Hch, fmap_app, elem_of_app, <- list_fmap_compose, list_fmap_id, Hget.
    rewrite (rs_changed _ _ Hs k). case_decide as Hk; [|tauto].
    destruct (rs_free _ _ Hs k Hk) as [_ [o Ho]]. rewrite Ho. split; [done|tauto].
  - intros c. rewrite Hperm, Hch, elem_of_app, Hget.
    intros [Hc|[k [-> Hk]]%list_elem_of_fmap]; simpl.
    + destruct (rs_change _ _ Hs c Hc) as [-> Ha]. rewrite decide_False; [done|]. intros Hf.
      assert (Hin : slot c ∈ (slot <$> r_changes st)) by (apply list_elem_of_fmap; eauto).
      apply (rs_changed _ _ Hs) in Hin. by apply (rs_free _ _ Hs) in Hf as [? _].
    + rewrite decide_True by done. by destruct (rs_free _ _ Hs k Hk) as [-> _].
Qed.

End reslot.

(** C9. [reslot] leaves exactly the new variants in the slots, each in one
    slot; a variant whose id already had a slot stays in it; and the changes
    it reports are, in slot order and once each, precisely the slots whose
    occupant differs, with the occupants before and after. *)
Theorem reslot_exact {V : Type} `{OrdLaws V} `{EqDecision V} (old : slots V) (new : btmap V bytes) :
  bt_ok old = true → bt_ok new = true →
  ∃ s changes, reslot new old = Some (s, changes) ∧ bt_ok s = true ∧
    (∀ v bm, bt_get v new = Some bm ↔ ∃ k, bt_get k s = Some (MkOcc v bm)) ∧
    (∀ k1 k2 o1 o2, bt_get k1 s = Some o1 → bt_get k2 s = Some o2 → id o1 = id o2 → k1 = k2) ∧
    (∀ v k, find_id v old = Some k → is_Some (bt_get v new) → id <$> bt_get k s = Some v) ∧
    StronglySorted lt (slot <$> changes) ∧
    (∀ k, k ∈ (slot <$> changes) ↔ bt_get k s ≠ bt_get k old) ∧
    (∀ c, c ∈ changes → before c = bt_get (slot c) old ∧ after c = bt_get (slot c) s).
Proof. apply reslot_laws. Qed.

Lemma reslot_exact_witness :
  ∃ s changes,
    reslot [([98%Z], [8%Z]); ([99%Z], [35%Z])] [(0, MkOcc [97%Z] [7%Z]); (1, MkOcc [98%Z] [8%Z])]
      = Some (s, changes) ∧
    id <$> bt_get 1 s = Some [98%Z] ∧ (∃ k, bt_get k s = Some (MkOcc [99%Z] [35%Z])) ∧
    (slot <$> changes) = [0].
Proof.
  destruct (reslot_exact [(0, MkOcc [97%Z] [7%Z]); (1, MkOcc [98%Z] [8%Z])]
    [([98%Z], [8%Z]); ([99%Z], [35%Z])]) as (s & ch & E & _ & Hv & _ & Hstay & _); [done..|].
  exists s, ch. split_and!; [done| | |].
  - by apply Hstay.
  - by apply Hv.
  - vm_compute in E. by injection E as _ <-.
Defined.

End SlotsLaws.
