(* ===== verification/GitVariants.v ===== *)
(** What the variant sets and the slots mean for the lanes: after a revision's
    transitions at a path, each lane of the slots holds the file its transition
    gave it, and every other lane holds what it held. *)
From Stdlib Require Import Sorting.Sorted.
From S2P Require Import Prelude.
From S2P Require Import BTreeMap.
From S2P Require Import GitSlots.
From S2P Require Import GitSlotsLaws.
Import Slots.
Import SlotsLaws.

Lemma pair_cmp {A B} `{Ord A, Ord B} (x1 x2 : A) (y1 y2 : B) :
  cmp (x1, y1) (x2, y2) = match cmp x1 x2 with Eq => cmp y1 y2 | c => c end.
Proof. done. Qed.

#[export] Instance pair_ord_laws {A B} `{OrdLaws A, OrdLaws B} : OrdLaws (A * B).
Proof.
  constructor.
  - intros [x1 y1] [x2 y2]. rewrite pair_cmp. destruct (cmp x1 x2) eqn:E.
    + apply cmp_eq in E as ->. rewrite cmp_eq_iff. naive_solver.
    + apply cmp_lt_ne in E. naive_solver.
    + apply cmp_gt_ne in E. naive_solver.
  - intros [x1 y1] [x2 y2]. rewrite !pair_cmp, (cmp_opp x1 x2).
    destruct (cmp x1 x2); simpl; [apply cmp_opp|done..].
  - intros [x1 y1] [x2 y2] [x3 y3]. rewrite !pair_cmp.
    destruct (cmp x1 x2) eqn:E1, (cmp x2 x3) eqn:E2; try done; intros Y1 Y2.
    + apply cmp_eq in E1 as ->. rewrite E2. by eapply cmp_lt_trans.
    + apply cmp_eq in E1 as ->. by rewrite E2.
    + apply cmp_eq in E2 as ->. by rewrite E1.
    + by rewrite (cmp_lt_trans _ _ _ E1 E2).
Qed.

Module Variants.

(** *** Bitmaps *)

(** [(b.get(l / 8).unwrap_or(0) & (1 << (l % 8))) != 0], as [extract_lane_entries]
    reads a bitmap *)
Definition has_lane (bm : bytes) (l : nat) : bool :=
  Z.testbit (default 0%Z (bm !! (l / 8))) (Z.of_nat (l mod 8)).

Lemma testbit_shift1 k j : Z.testbit (Z.shiftl 1 (Z.of_nat k)) (Z.of_nat j) = bool_decide (j = k).
Proof.
  rewrite Z.shiftl_spec by lia. case_bool_decide as E; [subst; by rewrite Z.sub_diag|].
  destruct (Z.lt_ge_cases (Z.of_nat j - Z.of_nat k) 0) as [?|?]; [by rewrite Z.testbit_neg_r|].
  rewrite <- (Z.pow_0_r 2). rewrite Z.pow2_bits_false; [done|lia].
Qed.

Lemma testbit_255 j : j < 8 → Z.testbit 255 (Z.of_nat j) = true.
Proof. intros H. do 8 (destruct j as [|j]; [done|]). lia. Qed.

Lemma byte_set_bit b k j : Z.testbit (byte_set b k) (Z.of_nat j) = bool_decide (j = k) || Z.testbit b (Z.of_nat j).
Proof. unfold byte_set. by rewrite Z.lor_spec, testbit_shift1, orb_comm. Qed.

Lemma byte_clear_bit b k j : j < 8 →
  Z.testbit (byte_clear b k) (Z.of_nat j) = negb (bool_decide (j = k)) && Z.testbit b (Z.of_nat j).
Proof.
  intros Hj. unfold byte_clear. rewrite Z.land_spec, Z.lxor_spec, testbit_shift1, testbit_255 by done.
  rewrite andb_comm. by destruct (bool_decide (j = k)).
Qed.

Lemma lookup_grow bm byte j : default 0%Z (grow bm byte !! j) = default 0%Z (bm !! j).
Proof.
  unfold grow. destruct (length bm <=? byte); [|done].
  destruct (decide (j < length bm)) as [Hj|Hj]; [by rewrite lookup_app_l|].
  rewrite (lookup_ge_None_2 bm) by lia. rewrite lookup_app_r by lia. simpl.
  destruct (replicate _ _ !! _) as [b|] eqn:E; [|done]. by apply lookup_replicate in E as [-> _].
Qed.

Lemma grow_length bm byte : byte < length (grow bm byte).
Proof.
  unfold grow. destruct (length bm <=? byte) eqn:E.
  - apply Nat.leb_le in E. rewrite length_app, length_replicate. lia.
  - apply Nat.leb_gt in E. lia.
Qed.

Lemma same_bit i l : l / 8 = i / 8 → l mod 8 = i mod 8 → l = i.
Proof. intros H1 H2. rewrite (Nat.div_mod l 8), (Nat.div_mod i 8) by lia. by rewrite H1, H2. Qed.

Lemma mod8_lt i : i mod 8 < 8.
Proof. apply Nat.mod_upper_bound. lia. Qed.

Lemma has_lane_set bm i l : has_lane (set_bit bm i) l = bool_decide (l = i) || has_lane bm l.
Proof.
  unfold has_lane, set_bit. destruct (decide (l / 8 = i / 8)) as [E|E].
  - rewrite E, list_lookup_alter_eq.
    destruct (lookup_lt_is_Some_2 _ _ (grow_length bm (i / 8))) as [b Hb].
    pose proof (lookup_grow bm (i / 8) (i / 8)) as Hg. rewrite Hb in *.
    rewrite <- Hg. change (default 0%Z (_ <$> Some b)) with (byte_set b (i mod 8)).
    change (default 0%Z (Some b)) with b. rewrite byte_set_bit. f_equal.
    apply bool_decide_ext. split; [by apply same_bit|by intros ->].
  - rewrite list_lookup_alter_ne, lookup_grow by done.
    rewrite (bool_decide_eq_false_2 (l = i)); [done|]. by intros ->.
Qed.

Lemma has_lane_clear bm i l : has_lane (clear_bit bm i) l = negb (bool_decide (l = i)) && has_lane bm l.
Proof.
  unfold has_lane, clear_bit. destruct (i / 8 <? length bm) eqn:Elt.
  - apply Nat.ltb_lt in Elt. destruct (decide (l / 8 = i / 8)) as [E|E].
    + rewrite E, list_lookup_alter_eq. destruct (lookup_lt_is_Some_2 _ _ Elt) as [b ->].
      change (default 0%Z (_ <$> Some b)) with (byte_clear b (i mod 8)).
      change (default 0%Z (Some b)) with b. rewrite byte_clear_bit by apply mod8_lt.
      do 2 f_equal. apply bool_decide_ext. split; [by apply same_bit|by intros ->].
    + rewrite list_lookup_alter_ne by done. rewrite (bool_decide_eq_false_2 (l = i)); [done|]. by intros ->.
  - apply Nat.ltb_ge in Elt. case_bool_decide as E; [|done]. subst.
    rewrite lookup_ge_None_2 by done. by rewrite Z.bits_0.
Qed.

(** Bytes are in range. *)
Definition byte_ok (b : Z) : Prop := Z.land b 255 = b.
Definition bytes_ok (bm : bytes) : Prop := Forall byte_ok bm.

Lemma byte_ok_iff b : byte_ok b ↔ (0 ≤ b < 256)%Z.
Proof.
  unfold byte_ok. change 255%Z with (Z.ones 8). rewrite Z.land_ones by lia. change (2 ^ 8)%Z with 256%Z.
  split; [intros <-; by apply Z.mod_pos_bound|by apply Z.mod_small].
Qed.

Lemma bytes_ok_set bm i : bytes_ok bm → bytes_ok (set_bit bm i).
Proof.
  intros Hb. unfold set_bit. apply Forall_alter.
  - unfold grow. destruct (_ <=? _); [|done]. apply Forall_app. split; [done|]. by apply Forall_replicate.
  - intros b _ Hr. unfold byte_ok, byte_set. rewrite Z.land_lor_distr_l, Hr. f_equal.
    pose proof (mod8_lt i) as Hm. remember (i mod 8) as k. clear -Hm.
    do 8 (destruct k as [|k]; [done|]). lia.
Qed.

Lemma bytes_ok_clear bm i : bytes_ok bm → bytes_ok (clear_bit bm i).
Proof.
  intros Hb. unfold clear_bit. destruct (_ <? _); [|done]. apply Forall_alter; [done|].
  intros b _ Hr. unfold byte_ok, byte_clear.
  by rewrite <- Z.land_assoc, (Z.land_comm _ 255), Z.land_assoc, Hr.
Qed.

(** A bitmap has a nonzero byte exactly when it has a lane. *)
Lemma has_lane_nonzero bm l : has_lane bm l = true → existsb (λ b, negb (b =? 0)%Z) bm = true.
Proof.
  unfold has_lane. destruct (bm !! (l / 8)) as [b|] eqn:E; [change (default 0%Z (Some b)) with b|by rewrite Z.bits_0].
  intros Hb. apply existsb_exists. exists b. split; [by eapply list_elem_of_In, list_elem_of_lookup_2|].
  destruct (b =? 0)%Z eqn:E0; [|done]. apply Z.eqb_eq in E0. subst. by rewrite Z.bits_0 in Hb.
Qed.

Lemma byte_lane b : byte_ok b → b ≠ 0%Z → ∃ j, j < 8 ∧ Z.testbit b (Z.of_nat j) = true.
Proof.
  intros Hb%byte_ok_iff Hne. exists (Z.to_nat (Z.log2 b)).
  assert (Hl : (Z.log2 b < 8)%Z) by (apply Z.log2_lt_pow2; lia).
  pose proof (Z.log2_nonneg b). split; [lia|]. rewrite Z2Nat.id by lia. apply Z.bit_log2. lia.
Qed.

Lemma nonzero_has_lane bm :
  bytes_ok bm → existsb (λ b, negb (b =? 0)%Z) bm = true → ∃ l, has_lane bm l = true.
Proof.
  intros Hok (b & Hin%list_elem_of_In & Hb)%existsb_exists. apply list_elem_of_lookup in Hin as [i Hi].
  unfold bytes_ok in Hok. rewrite Forall_lookup in Hok. destruct (byte_lane b) as (j & Hj & Ht); [by eapply Hok| |].
  { intros ->. by rewrite Z.eqb_refl in Hb. }
  exists (i * 8 + j). unfold has_lane. rewrite Nat.div_add_l, Nat.div_small, Nat.add_0_r, Hi by lia.
  rewrite Nat.add_comm, Nat.Div0.mod_add, Nat.mod_small by lia. done.
Qed.

(** *** Variant sets *)

Definition in_set (m : btmap VarKey bytes) (v : VarKey) (l : nat) : Prop :=
  ∃ bm, bt_get v m = Some bm ∧ has_lane bm l = true.

Definition set_ok (m : btmap VarKey bytes) : Prop :=
  bt_ok m = true ∧ ∀ v bm, bt_get v m = Some bm → bytes_ok bm.

Lemma update_bits_get f v m : bt_get v (update_bits f m) = f <$> bt_get v m.
Proof.
  unfold update_bits. induction m as [|[k bm] m IH]; simpl; [done|]. by destruct (cmp v k).
Qed.

Lemma update_bits_ok f m :
  (∀ bm, bytes_ok bm → bytes_ok (f bm)) → set_ok m → set_ok (update_bits f m).
Proof.
  intros Hf [Hok Hb]. split.
  - clear Hb. unfold update_bits. induction m as [|[k bm] m IH]; simpl; [done|]. simpl in Hok.
    apply andb_true_iff in Hok as [Hk Hm]. apply andb_true_iff. split; [|by apply IH].
    rewrite forallb_forall in *. intros [k' bm'] Hin. apply list_elem_of_In in Hin.
    apply list_elem_of_fmap in Hin as [[k2 b2] [[= -> ->] Hin]]. apply list_elem_of_In in Hin.
    by specialize (Hk _ Hin).
  - intros v bm. rewrite update_bits_get. intros (b & Hg & ->)%fmap_Some. eauto.
Qed.

Lemma clears_spec (trans : list Trans) m :
  set_ok m →
  let m' := foldl clear_lane m trans in
  set_ok m' ∧ ∀ v l, in_set m' v l ↔ in_set m v l ∧ l ∉ trans.*1.*1.
Proof.
  revert m. induction trans as [|[[lane o] n] trans IH]; intros m Hm; simpl.
  - split; [done|]. intros v l. pose proof (not_elem_of_nil l). tauto.
  - destruct (IH (update_bits (λ bm, clear_bit bm lane) m)) as [Hok Hin].
    { apply update_bits_ok; [|done]. intros bm. apply bytes_ok_clear. }
    split; [done|]. intros v l. rewrite Hin, not_elem_of_cons. unfold in_set at 1.
    rewrite update_bits_get. split.
    + intros [(bm & (b & Hg & ->)%fmap_Some & Hl) Hn]. rewrite has_lane_clear in Hl.
      apply andb_true_iff in Hl as [Hne Hl]. apply negb_true_iff, bool_decide_eq_false in Hne.
      split_and!; [exists b|..]; done.
    + intros [(bm & Hg & Hl) [Hne Hn]]. split; [|done]. rewrite Hg. exists (clear_bit bm lane).
      split; [done|]. rewrite has_lane_clear, Hl. by rewrite bool_decide_eq_false_2.
Qed.

(** The file a transition leaves at the path. *)
Definition new_file (t : Trans) : option VarKey :=
  match t.2 with
  | Some e => if is_dir e then None else Some (mode e, oid e)
  | None => None
  end.

Lemma add_lane_spec k lane m :
  set_ok m → set_ok (add_lane k lane m) ∧
  ∀ v l, in_set (add_lane k lane m) v l ↔ in_set m v l ∨ (v = k ∧ l = lane).
Proof.
  intros [Hok Hb]. unfold add_lane. split; [split|].
  - by apply bt_ok_insert.
  - intros v bm. rewrite bt_get_insert. case_decide; [|apply Hb]. intros [= <-]. apply bytes_ok_set.
    destruct (bt_get k m) eqn:E; simpl; [eauto|constructor].
  - intros v l. unfold in_set. rewrite bt_get_insert. case_decide as E; [|naive_solver].
    subst. split.
    + intros (bm & [= <-] & Hl). rewrite has_lane_set in Hl.
      apply orb_true_iff in Hl as [Hl%bool_decide_eq_true|Hl]; [by right|left].
      destruct (bt_get k m) as [b|] eqn:E; simpl in Hl; [eauto|].
      unfold has_lane in Hl. by rewrite lookup_nil, Z.bits_0 in Hl.
    + intros [(bm & Hg & Hl)|[_ ->]]; (eexists; split; [done|]); rewrite has_lane_set.
      * rewrite Hg. simpl. by rewrite Hl, orb_true_r.
      * by rewrite bool_decide_eq_true_2.
Qed.

Lemma adds_spec (trans : list Trans) m :
  set_ok m →
  let m' := foldl set_lane m trans in
  set_ok m' ∧ ∀ v l, in_set m' v l ↔
    in_set m v l ∨ ∃ t, t ∈ trans ∧ t.1.1 = l ∧ new_file t = Some v.
Proof.
  revert m. induction trans as [|[[lane o] n] trans IH]; intros m Hm; simpl.
  - split; [done|]. intros v l. split; [by left|]. intros [?|(t & []%elem_of_nil & _)]. done.
  - assert (Hstep : set_ok (set_lane m (lane, o, n)) ∧ ∀ v l, in_set (set_lane m (lane, o, n)) v l ↔
        in_set m v l ∨ (lane = l ∧ new_file (lane, o, n) = Some v)).
    { unfold set_lane, new_file. simpl. destruct n as [e|]; [destruct (is_dir e)|].
      - split; [done|]. naive_solver.
      - destruct (add_lane_spec (mode e, oid e) lane m Hm) as [? Hin]. split; [done|].
        intros v l. rewrite Hin. naive_solver.
      - split; [done|]. naive_solver. }
    destruct Hstep as [Hok Hin]. destruct (IH _ Hok) as [Hok' Hin']. split; [done|].
    intros v l. rewrite Hin', Hin. setoid_rewrite elem_of_cons. naive_solver.
Qed.

Lemma retain_spec m :
  set_ok m →
  let m' := filter (λ kb, existsb (λ b, negb (b =? 0)%Z) kb.2 = true) m in
  set_ok m' ∧ (∀ v l, in_set m' v l ↔ in_set m v l) ∧
  ∀ v bm, bt_get v m' = Some bm → ∃ l, has_lane bm l = true.
Proof.
  intros [Hok Hb]. set (P := λ kb : VarKey * bytes, existsb (λ b, negb (b =? 0)%Z) kb.2 = true).
  assert (Hok' : bt_ok (filter P m) = true).
  { clear Hb. induction m as [|[k bm] m IH]; [done|]. apply bt_ok_cons in Hok as [Hk Hm].
    destruct (decide (P (k, bm))); [rewrite filter_cons_True by done|rewrite filter_cons_False by done; auto].
    apply bt_ok_cons. split; [|auto]. intros k' v' [_ Hin]%list_elem_of_filter. eauto. }
  assert (Hget : ∀ v bm, bt_get v (filter P m) = Some bm ↔ bt_get v m = Some bm ∧ P (v, bm)).
  { intros v bm. split.
    - intros [HP Hin]%bt_get_elem%list_elem_of_filter. split; [by apply bt_elem_get|done].
    - intros [Hg%bt_get_elem HP]. apply bt_elem_get; [done|]. by apply list_elem_of_filter. }
  split_and!.
  - split; [done|]. intros v bm [Hg _]%Hget. eauto.
  - intros v l. unfold in_set. setoid_rewrite Hget. split.
    + intros (bm & [Hg _] & Hl). eauto.
    + intros (bm & Hg & Hl). exists bm. split_and!; [done| |done]. by eapply has_lane_nonzero.
  - intros v bm [Hg HP]%Hget. apply nonzero_has_lane; [by eapply Hb|done].
Qed.

(** *** Slots and lanes *)

(** Lane [l] holds the file [v] at the path. *)
Definition holds (s : slots VarKey) (l : nat) (v : VarKey) : Prop :=
  ∃ k bm, bt_get k s = Some (MkOcc v bm) ∧ has_lane bm l = true.

(** Slots as the encoder keeps them: every id in one slot, bitmaps of bytes. *)
Record slots_ok (s : slots VarKey) : Prop := {
  so_ok : bt_ok s = true;
  so_inj : ∀ k1 k2 o1 o2, bt_get k1 s = Some o1 → bt_get k2 s = Some o2 → id o1 = id o2 → k1 = k2;
  so_bytes : ∀ k o, bt_get k s = Some o → bytes_ok (bitmap o)
}.

Lemma occupants_spec (s : slots VarKey) m :
  set_ok m → Forall (λ x : nat * Occupant VarKey, bytes_ok (bitmap x.2)) s → NoDup ((λ x, id x.2) <$> s) →
  (∀ x, x ∈ s → bt_get (id x.2) m = None) →
  set_ok (foldl add_occupant m s) ∧
  ∀ v bm, bt_get v (foldl add_occupant m s) = Some bm ↔
    bt_get v m = Some bm ∨ ∃ k, (k, MkOcc v bm) ∈ s.
Proof.
  revert m. induction s as [|[k [w b]] s IH]; intros m [Hok Hb] Hs Hnd Hfresh; simpl in *.
  - split; [done|]. intros v bm. setoid_rewrite elem_of_nil. naive_solver.
  - apply Forall_cons in Hs as [Hb0 Hs]. apply NoDup_cons in Hnd as [Hw Hnd]. simpl in *.
    pose proof (Hfresh (k, MkOcc w b) ltac:(left)) as Hw0. simpl in Hw0.
    destruct (IH (add_occupant m (k, MkOcc w b))) as [Hok' Hget].
    + unfold add_occupant. simpl. split; [by apply bt_ok_insert|].
      intros v bm. rewrite bt_get_insert. case_decide; [by intros [= <-]|eauto].
    + done.
    + done.
    + intros x Hx. unfold add_occupant. simpl. rewrite bt_get_insert_ne; [apply Hfresh; by right|].
      intros E. apply Hw, list_elem_of_fmap. eauto.
    + split; [done|]. intros v bm. rewrite Hget. unfold add_occupant. simpl. rewrite bt_get_insert.
      setoid_rewrite elem_of_cons. case_decide as E; [subst|].
      * split; [naive_solver|]. intros [Hg|(k' & [[= -> ->]|Hin])]; [congruence|by left|].
        right. eauto.
      * split; [naive_solver|]. intros [Hg|(k' & [[= -> ->]|Hin])]; [by left|done|]. right. eauto.
Qed.

Lemma slots_ids_nodup s : slots_ok s → NoDup ((λ x : nat * Occupant VarKey, id x.2) <$> s).
Proof.
  intros [Hok Hinj _]. apply NoDup_fmap_2_strong.
  - intros [k1 o1] [k2 o2] H1 H2 E. simpl in E.
    apply bt_elem_get in H1, H2; [|done..]. pose proof (Hinj _ _ _ _ H1 H2 E) as ->. congruence.
  - apply (NoDup_fmap_1 fst). by apply bt_keys_nodup.
Qed.

Lemma new_variant_set_spec s trans :
  slots_ok s →
  set_ok (new_variant_set s trans) ∧
  (∀ v l, in_set (new_variant_set s trans) v l ↔
     (holds s l v ∧ l ∉ trans.*1.*1) ∨ ∃ t, t ∈ trans ∧ t.1.1 = l ∧ new_file t = Some v) ∧
  ∀ v bm, bt_get v (new_variant_set s trans) = Some bm → ∃ l, has_lane bm l = true.
Proof.
  intros Hs. pose proof Hs as [Hok Hinj Hbs]. unfold new_variant_set.
  destruct (occupants_spec s []) as [H0 Hg0].
  - split; [done|]. done.
  - apply Forall_forall. intros [k o] Hin%bt_elem_get; [|done]. by eapply Hbs.
  - by apply slots_ids_nodup.
  - done.
  - destruct (clears_spec trans _ H0) as [H1 Hin1].
    destruct (adds_spec trans _ H1) as [H2 Hin2].
    destruct (retain_spec _ H2) as (H3 & Hin3 & Hne). split_and!; [done| |done].
    intros v l. rewrite Hin3, Hin2, Hin1.
    assert (Hh : in_set (foldl add_occupant [] s) v l ↔ holds s l v); [|by rewrite Hh].
    unfold in_set, holds. setoid_rewrite Hg0. split.
    + intros (bm & [[=]|[k Hk]] & Hl). exists k, bm. split; [by apply bt_elem_get|done].
    + intros (k & bm & Hg%bt_get_elem & Hl). exists bm. split; [right; eauto|done].
Qed.

(** One path, one revision: the variant set computed from the slots and
    the lane transitions, reconciled into the slots, leaves every lane that
    made a transition with exactly the file its transitions gave it there, and
    every other lane with the file it had; the slots stay well formed, and no
    slot is kept for a variant that no lane carries. *)
Theorem path_transition s trans :
  slots_ok s →
  ∃ s' changes, reslot (new_variant_set s trans) s = Some (s', changes) ∧ slots_ok s' ∧
    (∀ l v, holds s' l v ↔
       if decide (l ∈ trans.*1.*1)
       then ∃ t, t ∈ trans ∧ t.1.1 = l ∧ new_file t = Some v
       else holds s l v) ∧
    (∀ k o, bt_get k s' = Some o → ∃ l, holds s' l (id o)).
Proof.
  intros Hs. destruct (new_variant_set_spec s trans Hs) as ([Hok Hbytes] & Hin & Hne).
  destruct (reslot_laws s (new_variant_set s trans) (so_ok _ Hs) Hok)
    as (s' & ch & -> & Hok' & Hvars & Hinj & _).
  assert (Hheld : ∀ l v, holds s' l v ↔ in_set (new_variant_set s trans) v l).
  { intros l v. unfold holds, in_set. setoid_rewrite Hvars. naive_solver. }
  assert (Hget : ∀ k o, bt_get k s' = Some o → bt_get (id o) (new_variant_set s trans) = Some (bitmap o)).
  { intros k [v bm] Hk. apply Hvars. eauto. }
  exists s', ch. split_and!; [done| | |].
  - split; [done..|]. intros k o Hk%Hget. eauto.
  - intros l v. rewrite Hheld, Hin. case_decide as Hl; [tauto|]. split; [|tauto].
    intros [[? _]|(t & Ht & <- & _)]; [done|]. exfalso. apply Hl. rewrite <- list_fmap_compose.
    apply list_elem_of_fmap. eauto.
  - intros k o Hk. destruct (Hne _ _ (Hget _ _ Hk)) as [l Hl]. exists l. apply Hheld. exists (bitmap o). eauto.
Qed.

Lemma path_transition_witness :
  ∃ s' changes,
    reslot (new_variant_set [(0, MkOcc ([49%Z], [97%Z]) [3%Z])]
              [(1, None, Some (MkEnt [49%Z] [98%Z] false))]) [(0, MkOcc ([49%Z], [97%Z]) [3%Z])]
      = Some (s', changes) ∧ holds s' 0 ([49%Z], [97%Z]) ∧ holds s' 1 ([49%Z], [98%Z]).
Proof.
  destruct (path_transition [(0, MkOcc ([49%Z], [97%Z]) [3%Z])]
              [(1, None, Some (MkEnt [49%Z] [98%Z] false))]) as (s' & ch & E & _ & H & _).
  - split; [done| |]; simpl.
    + intros [|[|]] [|[|]] o1 o2; simpl; done.
    + intros [|[|]] o; simpl; try done. intros [= <-]. by repeat constructor.
  - exists s', ch. split_and!; [done| |]; apply H.
    + rewrite decide_False by (by intros ?%list_elem_of_singleton).
      exists 0, [3%Z]. done.
    + rewrite decide_True by (by left). eexists. split; [by left|]. done.
Defined.

End Variants.
