(* ===== verification/GeoStack.v ===== *)
(** The geometric delta stack ([chupa/gitdepot/src/geostack.rs]): the stacking
    policy over any layer type, with the size and the merge of two layers as
    parameters, as the source has them.  A merge may panic ([None]). *)
From S2P Require Import Prelude.

Module GeoStack.

Section stack.
Context {L : Type} (size : L → Z) (merge : L → L → option L).

(** The loop of [push] on the entries newest first: while the top is at least
    70% of the entry below it, the two are merged. *)
Fixpoint settle (top : L) (below : list L) : option (list L) :=
  match below with
  | [] => Some [top]
  | next :: rest =>
      if (10 * size top <? 7 * size next)%Z then Some (top :: below)
      else m ← merge next top; settle m rest
  end.

(** [GeoStack::push]; entries are oldest first. *)
Definition push (layer : L) (entries : list L) : option (list L) :=
  reverse <$> settle layer (reverse entries).

(** [GeoStack::collapse] *)
Fixpoint collapse_from (cur : L) (rest : list L) : option L :=
  match rest with
  | [] => Some cur
  | next :: rest => m ← merge cur next; collapse_from m rest
  end.
Definition collapse (entries : list L) : option (option L) :=
  match entries with
  | [] => Some None
  | cur :: rest => Some <$> collapse_from cur rest
  end.

(** The pushes of a whole run. *)
Fixpoint push_all (layers entries : list L) : option (list L) :=
  match layers with
  | [] => Some entries
  | l :: layers => e ← push l entries; push_all layers e
  end.

(** *** The shape of the stack *)

(** Newest first: every entry is below 70% of the one under it. *)
Fixpoint geometric (entries : list L) : Prop :=
  match entries with
  | top :: (next :: _) as below => (10 * size top < 7 * size next)%Z ∧ geometric below
  | _ => True
  end.

Lemma settle_geometric top below out :
  geometric below → settle top below = Some out → geometric out.
Proof.
  revert top. induction below as [|next rest IH]; intros top Hg; simpl; [by intros [= <-]|].
  destruct (_ <? _)%Z eqn:E.
  - intros [= <-]. apply Z.ltb_lt in E. by split.
  - destruct (merge next top) as [m|]; [|done]. simpl. apply IH. by destruct rest; [|apply Hg].
Qed.

(** A geometric stack of [n + 1] entries spans a factor of [(10/7)^n]. *)
Lemma geometric_growth top below bottom :
  geometric (top :: below) → last (top :: below) = Some bottom →
  (10 ^ Z.of_nat (length below) * size top ≤ 7 ^ Z.of_nat (length below) * size bottom)%Z.
Proof.
  revert top. induction below as [|next rest IH]; intros top Hg Hl.
  - injection Hl as ->. simpl. lia.
  - destruct Hg as [Hlt Hg]. rewrite last_cons_cons in Hl. specialize (IH next Hg Hl).
    simpl length. rewrite Nat2Z.inj_succ, !Z.pow_succ_r by lia.
    pose proof (Z.pow_pos_nonneg 10 (Z.of_nat (length rest))). nia.
Qed.

(** *** What the stack stands for

    The layers stand for elements of an associative operation, which the merge
    carries out on them, never growing the bytes. *)
Context {D : Type} (op : D → D → D) (rep : L → D → Prop) (ok : D → Prop).

Record MergeLaws (bound : Z) : Prop := {
  ml_assoc : ∀ x y z, ok x → ok y → ok z → op x (op y z) = op (op x y) z;
  ml_ok : ∀ x y, ok x → ok y → ok (op x y);
  ml_size : ∀ a, (0 ≤ size a)%Z;
  ml_merge : ∀ a b x y, rep a x → rep b y → ok x → ok y → (size a + size b < bound)%Z →
    ∃ c, merge a b = Some c ∧ rep c (op x y) ∧ (size c ≤ size a + size b)%Z
}.

(** The meaning of a nonempty run of layers, oldest first. *)
Definition total (x : D) (xs : list D) : D := foldl op x xs.

Definition bytes_of (entries : list L) : Z := foldr (λ a n, (size a + n)%Z) 0%Z entries.

Context (bound : Z) (Hlaws : MergeLaws bound).

Lemma total_op x y ys : ok x → ok y → Forall ok ys → total (op x y) ys = op x (total y ys).
Proof.
  unfold total. revert y. induction ys as [|z ys IH]; intros y Hx Hy Hys; simpl; [done|].
  apply Forall_cons in Hys as [Hz Hys].
  rewrite <- (ml_assoc _ Hlaws) by done. apply IH; [done| |done]. by apply (ml_ok _ Hlaws).
Qed.

Lemma total_ok x xs : ok x → Forall ok xs → ok (total x xs).
Proof.
  unfold total. revert x. induction xs as [|y xs IH]; intros x Hx Hxs; simpl; [done|].
  apply Forall_cons in Hxs as [Hy Hxs]. apply IH; [|done]. by apply (ml_ok _ Hlaws).
Qed.

Lemma bytes_of_app e1 e2 : bytes_of (e1 ++ e2) = (bytes_of e1 + bytes_of e2)%Z.
Proof. unfold bytes_of. induction e1 as [|a e1 IH]; simpl; [done|]. lia. Qed.

Lemma bytes_of_nonneg e : (0 ≤ bytes_of e)%Z.
Proof.
  unfold bytes_of. induction e as [|a e IH]; simpl; [done|]. pose proof (ml_size _ Hlaws a). lia.
Qed.

Lemma bytes_of_reverse e : bytes_of (reverse e) = bytes_of e.
Proof. induction e as [|a e IH]; [done|]. rewrite reverse_cons, bytes_of_app, IH. unfold bytes_of. simpl. lia. Qed.

(** What stack entries (newest first) stand for: one element, and their bytes. *)
Inductive stands : list L → D → Prop :=
| stands_one a x : rep a x → ok x → stands [a] x
| stands_more a x below y : rep a x → ok x → stands below y → stands (a :: below) (op y x).

Lemma stands_ok e x : stands e x → ok x.
Proof. induction 1; [done|]. by apply (ml_ok _ Hlaws). Qed.

Lemma settle_stands top x below y :
  rep top x → ok x → stands below y → (size top + bytes_of below < bound)%Z →
  ∃ out, settle top below = Some out ∧ stands out (op y x) ∧
         (bytes_of out ≤ size top + bytes_of below)%Z.
Proof.
  intros Hr Hx Hb. revert top x Hr Hx.
  induction Hb as [a y Ha Hy|a y below z Ha Hy Hb IH]; intros top x Hr Hx Hsz; simpl.
  - unfold bytes_of in Hsz. simpl in Hsz. destruct (_ <? _)%Z.
    + eexists. split; [done|]. split; [by repeat constructor|]. unfold bytes_of. simpl. lia.
    + destruct (ml_merge _ Hlaws a top y x) as (c & -> & Hc & Hs); [done..|lia|]. simpl.
      eexists. split; [done|]. split; [constructor; [done|by apply (ml_ok _ Hlaws)]|].
      unfold bytes_of. simpl. lia.
  - assert (Hsum : bytes_of (a :: below) = (size a + bytes_of below)%Z) by done.
    pose proof (bytes_of_nonneg below) as Hnn. destruct (_ <? _)%Z.
    + eexists. split; [done|]. split; [|unfold bytes_of; simpl; lia].
      constructor; [done..|]. by constructor.
    + destruct (ml_merge _ Hlaws a top y x) as (c & -> & Hc & Hs); [done..|lia|]. simpl.
      destruct (IH c (op y x)) as (out & -> & Hout & Hso); [done|by apply (ml_ok _ Hlaws)|lia|].
      exists out. split; [done|]. split; [|lia].
      by rewrite <- (ml_assoc _ Hlaws) by (done || by eapply stands_ok).
Qed.

Lemma push_stands layer x entries y :
  rep layer x → ok x → stands (reverse entries) y → (size layer + bytes_of entries < bound)%Z →
  ∃ out, push layer entries = Some out ∧ stands (reverse out) (op y x) ∧
         (bytes_of out ≤ size layer + bytes_of entries)%Z.
Proof.
  intros Hr Hx Hs Hb. unfold push. rewrite <- (bytes_of_reverse entries) in *.
  destruct (settle_stands layer x (reverse entries) y) as (out & -> & Hout & Hso); [done..|].
  exists (reverse out). rewrite reverse_involutive, bytes_of_reverse. done.
Qed.

Lemma push_first layer x : rep layer x → ok x → push layer [] = Some [layer] ∧ stands [layer] x.
Proof. intros Hr Hx. split; [done|by constructor]. Qed.

Lemma stands_total e y :
  stands e y → ∃ a rest x xs, reverse e = a :: rest ∧ rep a x ∧ ok x ∧
    Forall2 (λ b z, rep b z ∧ ok z) rest xs ∧ y = total x xs.
Proof.
  induction 1 as [a x Ha Hx|a x below y Ha Hx _ (b & rest & z & zs & E & Hb & Hz & Hrest & ->)].
  - exists a, [], x, []. by repeat split.
  - exists b, (rest ++ [a]), z, (zs ++ [x]). rewrite reverse_cons, E. split; [done|].
    split_and!; [done..| |].
    + apply Forall2_app; [done|]. by repeat constructor.
    + unfold total. by rewrite foldl_app.
Qed.

Lemma collapse_from_total cur x rest xs :
  rep cur x → ok x → Forall2 (λ b z, rep b z ∧ ok z) rest xs → (size cur + bytes_of rest < bound)%Z →
  ∃ c, collapse_from cur rest = Some c ∧ rep c (total x xs) ∧ (size c ≤ size cur + bytes_of rest)%Z.
Proof.
  intros Hc Hx Hr. revert cur x Hc Hx. induction Hr as [|b z rest zs [Hb Hz] Hr IH]; intros cur x Hc Hx Hs; simpl in *.
  - exists cur. split_and!; [done..|lia].
  - pose proof (bytes_of_nonneg rest).
    destruct (ml_merge _ Hlaws cur b x z) as (m & -> & Hm & Hms); [done..|lia|]. simpl.
    destruct (IH m (op x z)) as (c & -> & Hcc & Hcs); [done|by apply (ml_ok _ Hlaws)|lia|].
    exists c. split_and!; [done..|lia].
Qed.

(** Collapsing the stack gives the layer of the element it stands for. *)
Lemma collapse_stands entries y :
  stands (reverse entries) y → (bytes_of entries < bound)%Z →
  ∃ c, collapse entries = Some (Some c) ∧ rep c y ∧ (size c ≤ bytes_of entries)%Z.
Proof.
  intros (a & rest & x & xs & E & Ha & Hx & Hr & ->)%stands_total Hb.
  rewrite reverse_involutive in E. subst. simpl in *.
  destruct (collapse_from_total a x rest xs) as (c & -> & Hc & Hs); [done..|]. eauto.
Qed.

Lemma push_all_stands layers xs entries y :
  Forall2 (λ b z, rep b z ∧ ok z) layers xs → stands (reverse entries) y →
  (bytes_of layers + bytes_of entries < bound)%Z →
  ∃ out, push_all layers entries = Some out ∧ stands (reverse out) (total y xs) ∧
         (bytes_of out ≤ bytes_of layers + bytes_of entries)%Z.
Proof.
  intros Hl. revert entries y. induction Hl as [|b z layers zs [Hb Hz] Hl IH]; intros entries y Hs Hsz; simpl in *.
  - exists entries. split_and!; [done..|lia].
  - pose proof (bytes_of_nonneg layers).
    destruct (push_stands b z entries y) as (e & -> & He & Hes); [done..|lia|]. simpl.
    destruct (IH e (op y z)) as (out & -> & Ho & Hos); [done|lia|]. exists out. split_and!; [done..|lia].
Qed.

Lemma push_all_geometric layers entries out :
  geometric (reverse entries) → push_all layers entries = Some out → geometric (reverse out).
Proof.
  revert entries. induction layers as [|l layers IH]; intros entries Hg; simpl; [by intros [= <-]|].
  unfold push. destruct (settle l (reverse entries)) as [e|] eqn:E; [|done]. simpl. apply IH.
  rewrite reverse_involutive. by eapply settle_geometric.
Qed.

(** A run of layers pushed on the empty stack: the stack is geometric, and its
    collapse stands for the whole run. *)
Lemma push_run l layers x xs :
  rep l x → ok x → Forall2 (λ b z, rep b z ∧ ok z) layers xs → (bytes_of (l :: layers) < bound)%Z →
  ∃ out c, push_all (l :: layers) [] = Some out ∧ geometric (reverse out) ∧
    collapse out = Some (Some c) ∧ rep c (total x xs) ∧ (size c ≤ bytes_of (l :: layers))%Z.
Proof.
  intros Hl Hx Hls Hb. simpl in Hb.
  destruct (push_all_stands layers xs [l] x) as (out & E & Hs & Ho); [done|by constructor|simpl; lia|].
  simpl in Ho. destruct (collapse_stands out (total x xs)) as (c & Ec & Hc & Hcs); [done|lia|].
  exists out, c. split_and!; [done| |done|done|simpl; lia]. by eapply (push_all_geometric layers [l]).
Qed.
End stack.

End GeoStack.
