(* ===== verification/GitDelta.v ===== *)
(** The deltas of the git mirror's union chain, as elements of the layer
    algebra: nodes that are never tombstones, never opaque and carry no
    attributes, where every node below the root records something.  On them
    composition is associative, never shrinks to nothing and never grows the
    bytes, and overlaying a state with two deltas in turn is overlaying it with
    their composition, holes included. *)
From S2P Require Import Prelude.
From S2P Require Import BTreeMap.
From S2P Require Import DepotModel.
From S2P Require Import DepotCompose.
From S2P Require Import DepotDiff.
From S2P Require Import DepotCodec.
From S2P Require Import DepotStream.
From S2P Require Import DepotStreamParse.
From S2P Require Import DepotMerge.
From S2P Require Import DepotStreamCompose.
From S2P Require Import DepotStreamDiff.

Module GitDelta.

Fixpoint gitn (n : Node) : bool :=
  negb (is_tombstone n) && negb (opaque n) && negb (is_some (attrs n)) &&
  match blob n with Remove => false | _ => true end &&
  forallb (λ '(_, c), gitn c && negb (is_identity c)) (children n).

(** A delta node: maps in order, and of the shape above. *)
Definition delta (n : Node) : Prop := wf_node n = true ∧ gitn n = true.

#[global] Arguments gitn : simpl never.

Lemma gitn_unfold n :
  gitn n = true ↔ is_tombstone n = false ∧ opaque n = false ∧ attrs n = None ∧ blob n ≠ Remove ∧
    ∀ k c, (k, c) ∈ children n → gitn c = true ∧ is_identity c = false.
Proof.
  destruct n as [p b o a an cs]. unfold gitn at 1. fold gitn. cbn [opaque attrs blob children].
  rewrite !andb_true_iff, !negb_true_iff, forallb_forall. setoid_rewrite <- list_elem_of_In. split.
  - intros [[[[Ht Ho] Ha] Hb] Hc]. split_and!; [done..|by destruct a|by destruct b|].
    intros k c Hin. specialize (Hc (k, c) Hin). simpl in Hc.
    by rewrite andb_true_iff, negb_true_iff in Hc.
  - intros (Ht & Ho & -> & Hb & Hc). split_and!; [done..|by destruct b|].
    intros [k c] Hin. destruct (Hc k c Hin) as [-> ->]. done.
Qed.

Section facts.
Context (n : Node) (Hn : delta n).
Lemma delta_live : is_tombstone n = false.
Proof. by destruct Hn as [_ (? & _)%gitn_unfold]. Qed.
Lemma delta_opaque : opaque n = false.
Proof. by destruct Hn as [_ (_ & ? & _)%gitn_unfold]. Qed.
Lemma delta_attrs : attrs n = None.
Proof. by destruct Hn as [_ (_ & _ & ? & _)%gitn_unfold]. Qed.
Lemma delta_blob : blob n ≠ Remove.
Proof. by destruct Hn as [_ (_ & _ & _ & ? & _)%gitn_unfold]. Qed.
Lemma delta_ok : bt_ok (children n) = true.
Proof. destruct Hn. by apply wf_node_children. Qed.
Lemma delta_elem k c : (k, c) ∈ children n → delta c ∧ is_identity c = false.
Proof.
  intros Hin. destruct Hn as [Hw (_ & _ & _ & _ & Hc)%gitn_unfold]. destruct (Hc k c Hin) as [Hg Hi].
  split; [|done]. split; [|done]. apply wf_node_unfold in Hw as (_ & _ & Hw). eauto.
Qed.
Lemma delta_kid k c : bt_get k (children n) = Some c → delta c ∧ is_identity c = false.
Proof. intros Hg%bt_get_elem. by eapply delta_elem. Qed.
End facts.

(** Two nodes with the same facets and the same children are equal. *)
Lemma node_ext n1 n2 :
  presence n1 = presence n2 → blob n1 = blob n2 → opaque n1 = opaque n2 → attrs n1 = attrs n2 →
  anchor n1 = anchor n2 → bt_ok (children n1) = true → bt_ok (children n2) = true →
  (∀ k, bt_get k (children n1) = bt_get k (children n2)) → n1 = n2.
Proof.
  destruct n1 as [p1 b1 o1 a1 an1 cs1], n2 as [p2 b2 o2 a2 an2 cs2]. cbn.
  intros -> -> -> -> -> H1 H2 Hk. f_equal. by apply bt_ext.
Qed.

(** *** Composition *)

(** A composition of two deltas records something as soon as one of them does. *)
Lemma compose_delta a b :
  delta a → delta b →
  delta (compose_node a b) ∧
  (is_identity (compose_node a b) = true → is_identity a = true ∧ is_identity b = true).
Proof.
  revert b. induction a as [a IH] using node_ind'; intros b Ha Hb.
  pose proof (delta_live _ Ha) as Ta. pose proof (delta_live _ Hb) as Tb.
  destruct (is_backdrop (anchor b)) eqn:Ab.
  { rewrite compose_b_backdrop by done. split; [done|]. unfold is_identity. by rewrite Ab, !andb_false_r. }
  pose proof (compose_shape a b Tb Ab Ta) as (Hp & Hbl & Hop & Hat & Han).
  pose proof (delta_ok _ Ha) as Oa. pose proof (delta_ok _ Hb) as Ob.
  assert (Hkid : ∀ k c, bt_get k (children (compose_node a b)) = Some c → delta c ∧ is_identity c = false).
  { intros k c. rewrite compose_kid by done. unfold composed_kid.
    rewrite (delta_opaque _ Hb), (delta_opaque _ Ha). unfold drop_identity.
    destruct (bt_get k (children a)) as [ac|] eqn:Ea, (bt_get k (children b)) as [bc|] eqn:Eb; try done.
    - destruct (is_identity (compose_node ac bc)) eqn:E; [done|]. intros [= <-]. split; [|done].
      destruct (delta_kid _ Ha _ _ Ea) as [Hac _]. destruct (delta_kid _ Hb _ _ Eb) as [Hbc _].
      apply (IH k ac); [by apply bt_get_elem|done..].
    - intros [= <-]. by eapply (delta_kid a).
    - destruct (delta_kid _ Hb _ _ Eb) as [Hbc ->]. intros [= <-]. by eapply (delta_kid b). }
  split; [split|].
  - apply compose_wf; [apply Ha|apply Hb].
  - apply gitn_unfold. rewrite Hop, Hat, Hbl, (delta_opaque _ Ha), (delta_opaque _ Hb), (delta_attrs _ Ha), (delta_attrs _ Hb).
    split_and!; [by apply compose_live|done..| |].
    + pose proof (delta_blob _ Ha). pose proof (delta_blob _ Hb). by destruct (blob b).
    + intros k c Hin%bt_elem_get; [|by apply compose_children_ok]. destruct (Hkid k c Hin) as [[_ ?] ?]. done.
  - intros Hid%is_identity_keep.
    assert (Hnone : ∀ k, composed_kid a b k = None).
    { intros k. rewrite <- compose_kid by done. by rewrite Hid. }
    assert (Hna : children a = []).
    { apply bt_nil_get. intros k. specialize (Hnone k). unfold composed_kid in Hnone.
      rewrite (delta_opaque _ Hb), (delta_opaque _ Ha) in Hnone. unfold drop_identity in Hnone.
      destruct (bt_get k (children a)) as [ac|] eqn:Ea; [|done].
      destruct (bt_get k (children b)) as [bc|] eqn:Eb; [|done].
      destruct (is_identity (compose_node ac bc)) eqn:E; [|done].
      destruct (delta_kid _ Ha _ _ Ea) as [Hac Hia]. destruct (delta_kid _ Hb _ _ Eb) as [Hbc _].
      destruct (IH k ac ltac:(by apply bt_get_elem) bc Hac Hbc) as [_ H]. destruct (H E). congruence. }
    assert (Hnb : children b = []).
    { apply bt_nil_get. intros k. specialize (Hnone k). unfold composed_kid in Hnone.
      rewrite (delta_opaque _ Hb), (delta_opaque _ Ha), Hna in Hnone. unfold drop_identity in Hnone. simpl in Hnone.
      destruct (bt_get k (children b)) as [bc|] eqn:Eb; [|done].
      destruct (delta_kid _ Hb _ _ Eb) as [_ Hib]. by rewrite Hib in Hnone. }
    rewrite Hid in Hbl, Han. cbn in Hbl, Han. unfold is_identity.
    rewrite Ta, Tb, Hna, Hnb, (delta_opaque _ Ha), (delta_opaque _ Hb), (delta_attrs _ Ha), (delta_attrs _ Hb), <- Han, Ab.
    by destruct (blob b), (blob a).
Qed.

(** The child [k] of a composition of deltas: nothing is dropped. *)
Definition both_kid (x y : option Node) : option Node :=
  match x, y with
  | Some a, Some b => Some (compose_node a b)
  | Some a, None => Some a
  | None, y => y
  end.

Lemma delta_compose_kid a b k :
  delta a → delta b → is_backdrop (anchor b) = false →
  bt_get k (children (compose_node a b)) = both_kid (bt_get k (children a)) (bt_get k (children b)).
Proof.
  intros Ha Hb Ab. rewrite compose_kid by (by apply delta_live || by apply delta_ok || done).
  unfold composed_kid. rewrite (delta_opaque _ Hb), (delta_opaque _ Ha). unfold drop_identity.
  destruct (bt_get k (children a)) as [ac|] eqn:Ea, (bt_get k (children b)) as [bc|] eqn:Eb; try done; simpl.
  - destruct (delta_kid _ Ha _ _ Ea) as [Hac Hia]. destruct (delta_kid _ Hb _ _ Eb) as [Hbc _].
    destruct (compose_delta ac bc Hac Hbc) as [_ H].
    destruct (is_identity (compose_node ac bc)); [|done]. destruct (H eq_refl). congruence.
  - by destruct (delta_kid _ Hb _ _ Eb) as [_ ->].
Qed.

Lemma delta_shape a b :
  delta a → delta b → is_backdrop (anchor b) = false →
  blob (compose_node a b) = match blob b with Keep => blob a | other => other end ∧
  anchor (compose_node a b) = anchor a.
Proof.
  intros Ha Hb Ab. by destruct (compose_shape a b (delta_live _ Hb) Ab (delta_live _ Ha)) as (_ & ? & _ & _ & ?).
Qed.

Lemma delta_ext n1 n2 :
  delta n1 → delta n2 → blob n1 = blob n2 → anchor n1 = anchor n2 →
  (∀ k, bt_get k (children n1) = bt_get k (children n2)) → n1 = n2.
Proof.
  intros H1 H2 Hb Ha Hk. pose proof (delta_live _ H1) as T1. pose proof (delta_live _ H2) as T2.
  apply node_ext; [|done| | |done|by apply delta_ok..|done].
  - unfold is_tombstone in *. by destruct (presence n1), (presence n2).
  - by rewrite (delta_opaque _ H1), (delta_opaque _ H2).
  - by rewrite (delta_attrs _ H1), (delta_attrs _ H2).
Qed.

Lemma compose_assoc a b c :
  delta a → delta b → delta c →
  compose_node a (compose_node b c) = compose_node (compose_node a b) c.
Proof.
  revert b c. induction a as [a IH] using node_ind'; intros b c Ha Hb Hc.
  pose proof (delta_live _ Hb) as Tb. pose proof (delta_live _ Hc) as Tc.
  destruct (is_backdrop (anchor c)) eqn:Ac.
  { by rewrite !(compose_b_backdrop _ c) by done. }
  destruct (is_backdrop (anchor b)) eqn:Ab.
  { rewrite (compose_b_backdrop a b) by done. apply compose_b_backdrop.
    - by apply delta_live, compose_delta.
    - by rewrite (proj2 (delta_shape b c Hb Hc Ac)). }
  destruct (compose_delta b c Hb Hc) as [Hbc _]. destruct (compose_delta a b Ha Hb) as [Hab _].
  assert (Abc : is_backdrop (anchor (compose_node b c)) = false) by (by rewrite (proj2 (delta_shape b c Hb Hc Ac))).
  destruct (delta_shape a _ Ha Hbc Abc) as [E1 F1]. destruct (delta_shape b c Hb Hc Ac) as [E2 F2].
  destruct (delta_shape _ c Hab Hc Ac) as [E3 F3]. destruct (delta_shape a b Ha Hb Ab) as [E4 F4].
  apply delta_ext; [by apply compose_delta..| |by rewrite F1, F3, F4|].
  - rewrite E1, E2, E3, E4. by destruct (blob c), (blob b).
  - intros k. rewrite !delta_compose_kid by done.
    destruct (bt_get k (children a)) as [ac|] eqn:Ea, (bt_get k (children b)) as [bc|] eqn:Eb,
      (bt_get k (children c)) as [cc|] eqn:Ec; simpl; try done. f_equal.
    destruct (delta_kid _ Ha _ _ Ea), (delta_kid _ Hb _ _ Eb), (delta_kid _ Hc _ _ Ec).
    by eapply IH; [apply bt_get_elem|..].
Qed.

(** *** States *)

(** What a delta shows over nothing has no attributes and no empty node. *)
Fixpoint gitv (v : View) : bool :=
  is_nil (v_attrs v) && negb (is_empty_view v) && forallb (λ '(_, c), gitv c) (v_children v).

Definition state (v : View) : Prop := wf_view v = true ∧ gitv v = true.

#[global] Arguments gitv : simpl never.

Lemma gitv_unfold v :
  gitv v = true ↔ v_attrs v = [] ∧ is_empty_view v = false ∧
    ∀ k c, (k, c) ∈ v_children v → gitv c = true.
Proof.
  destruct v as [b a cs]. unfold gitv at 1. fold gitv. cbn [v_attrs v_children].
  rewrite !andb_true_iff, negb_true_iff, forallb_forall. setoid_rewrite <- list_elem_of_In. split.
  - intros [[Ha He] Hc]. split_and!; [by destruct a|done|]. intros k c Hin. apply (Hc (k, c) Hin).
  - intros (-> & He & Hc). split_and!; [done..|]. intros [k c]. apply Hc.
Qed.

Section state_facts.
Context (v : View) (Hv : state v).
Lemma state_attrs : v_attrs v = [].
Proof. by destruct Hv as [_ (? & _)%gitv_unfold]. Qed.
Lemma state_nonempty : is_empty_view v = false.
Proof. by destruct Hv as [_ (_ & ? & _)%gitv_unfold]. Qed.
Lemma state_kid k c : bt_get k (v_children v) = Some c → state c.
Proof.
  intros Hin%bt_get_elem. destruct Hv as [Hw (_ & _ & Hc)%gitv_unfold].
  apply wf_view_unfold in Hw as (_ & _ & Hw). split; eauto.
Qed.

Lemma full_blob : blob (full_state v) = fs_blob v.
Proof. rewrite full_state_shape; [done|apply Hv]. Qed.
Lemma full_lower : is_backdrop (anchor (full_state v)) = false.
Proof. rewrite full_state_shape; [done|apply Hv]. Qed.
Lemma full_kid k : bt_get k (children (full_state v)) = full_state <$> bt_get k (v_children v).
Proof. rewrite full_state_shape by apply Hv. apply map_vals_get. Qed.
End state_facts.

Lemma full_delta v : state v → delta (full_state v).
Proof.
  induction v as [v IH] using view_ind'; intros Hv. destruct Hv as [Hw Hg].
  split; [by apply full_state_wf|]. rewrite full_state_shape by done. apply gitn_unfold. cbn.
  unfold fs_attrs. rewrite (state_attrs v) by done. cbn [is_nil].
  rewrite (state_nonempty v) by done. split_and!; [done..| |].
  - unfold fs_blob. by destruct (v_blob v).
  - intros k c (w & -> & Hin)%map_vals_elem.
    assert (Hs : state w).
    { pose proof Hw as (_ & Hok & _)%wf_view_unfold. eapply (state_kid v (conj Hw Hg)), bt_elem_get; [done|exact Hin]. }
    split; [by apply (IH k w Hin)|]. apply full_state_not_identity, Hs.
Qed.

Lemma apply_kid_none n k :
  delta n → okid k (apply_node None n) = bt_get k (children n) ≫= apply_node None.
Proof.
  intros Hn. rewrite apply_okid by (by apply delta_live || by apply delta_ok || done).
  unfold kid_after, lower_kid. rewrite (delta_opaque _ Hn). by destruct (bt_get k (children n)).
Qed.

Lemma apply_blob_none n :
  delta n → oblob (apply_node None n) = match blob n with SetBlob b => Some b | _ => None end.
Proof. intros Hn. rewrite apply_oblob by (by apply delta_live). by destruct (blob n). Qed.

Lemma apply_exists_none n :
  delta n → is_some (apply_node None n) = has_content (apply_node None n).
Proof.
  intros Hn. rewrite apply_exists by (by apply delta_live). unfold asserts_self, empty_present.
  rewrite (delta_attrs _ Hn), (delta_opaque _ Hn), !orb_false_r. unfold has_content.
  rewrite apply_blob_none by done. pose proof (delta_blob _ Hn).
  by destruct (blob n); simpl; rewrite ?orb_false_r.
Qed.

Lemma apply_none_state n v : delta n → apply_node None n = Some v → state v.
Proof.
  revert v. induction n as [n IH] using node_ind'; intros v Hn E.
  assert (Hw : wf_oview (apply_node None n) = true) by (apply wf_apply_node; [apply Hn|done]).
  rewrite E in Hw. split; [done|]. apply gitv_unfold.
  assert (Ha : v_attrs v = []).
  { pose proof (apply_oattrs None n (delta_live _ Hn)) as Ha. rewrite E, (delta_attrs _ Hn) in Ha. done. }
  split_and!; [done| |].
  - pose proof (apply_exists_none n Hn) as He. rewrite E in He. simpl in He.
    unfold has_content in He. cbn in He. unfold is_empty_view. rewrite Ha in *. cbn in *.
    destruct (v_blob v), (v_children v); done.
  - intros k c Hin. apply bt_elem_get in Hin; [|by apply wf_view_unfold in Hw as (_ & ? & _)].
    pose proof (apply_kid_none n k Hn) as Hk. rewrite E in Hk. unfold okid in Hk. simpl in Hk.
    rewrite Hin in Hk. destruct (bt_get k (children n)) as [cn|] eqn:Ek; [|done]. simpl in Hk.
    destruct (delta_kid _ Hn _ _ Ek) as [Hcn _].
    by apply (IH k cn (bt_get_elem _ _ _ Ek) c Hcn).
Qed.

(** A state, or nothing, overlaid with a delta. *)
Definition over (o : option View) (d : Node) : option View :=
  match o with
  | Some v => apply_node None (compose_node (full_state v) d)
  | None => apply_node None d
  end.

(** Showing a composition is overlaying what its lower part shows. *)
Lemma apply_compose_over x b :
  delta x → delta b → apply_node None (compose_node x b) = over (apply_node None x) b.
Proof.
  revert b. induction x as [x IH] using node_ind'; intros b Hx Hb.
  destruct (is_backdrop (anchor b)) eqn:Ab.
  { unfold over. destruct (apply_node None x);
      by rewrite ?compose_b_backdrop by (by apply delta_live || done). }
  destruct (compose_delta x b Hx Hb) as [Hxb _].
  assert (Hov : ∃ n, over (apply_node None x) b = apply_node None n ∧ delta n ∧
    (match blob n with SetBlob y => Some y | _ => None end =
     match blob b with SetBlob y => Some y | _ => oblob (apply_node None x) end) ∧
    ∀ k, bt_get k (children n) ≫= apply_node None =
         match bt_get k (children b) with
         | Some bc => over (okid k (apply_node None x)) bc
         | None => okid k (apply_node None x)
         end).
  { unfold over at 1. destruct (apply_node None x) as [v|] eqn:Ev; simpl.
    - pose proof (apply_none_state x v Hx Ev) as Hv. pose proof (full_delta v Hv) as Hf.
      exists (compose_node (full_state v) b). split_and!; [done|by apply compose_delta| |].
      + rewrite (proj1 (delta_shape _ b Hf Hb Ab)), full_blob by done. unfold fs_blob.
        pose proof (delta_blob _ Hb). by destruct (blob b), (v_blob v).
      + intros k. rewrite delta_compose_kid, full_kid by done. unfold okid. simpl.
        destruct (bt_get k (v_children v)) as [u|] eqn:Eu, (bt_get k (children b)) as [bc|]; simpl; try done.
        apply full_state_apply. by destruct (state_kid v Hv k u Eu).
    - exists b. split_and!; [done..| |].
      + pose proof (delta_blob _ Hb). by destruct (blob b).
      + intros k. by destruct (bt_get k (children b)). }
  destruct Hov as (n & -> & Hn & Hbl & Hk).
  assert (Hkid : ∀ k, okid k (apply_node None (compose_node x b)) = okid k (apply_node None n)).
  { intros k. rewrite !apply_kid_none, Hk, delta_compose_kid, apply_kid_none by done.
    destruct (bt_get k (children x)) as [xc|] eqn:Ex, (bt_get k (children b)) as [bc|] eqn:Eb; simpl; try done.
    destruct (delta_kid _ Hx _ _ Ex) as [Hxc _], (delta_kid _ Hb _ _ Eb) as [Hbc _].
    by apply (IH k xc (bt_get_elem _ _ _ Ex)). }
  assert (Hblob : oblob (apply_node None (compose_node x b)) = oblob (apply_node None n)).
  { rewrite !apply_blob_none, Hbl, (proj1 (delta_shape x b Hx Hb Ab)), apply_blob_none by done.
    pose proof (delta_blob _ Hb). by destruct (blob b). }
  assert (Hattrs : oattrs (apply_node None (compose_node x b)) = oattrs (apply_node None n)).
  { rewrite !apply_oattrs by (by apply delta_live). by rewrite (delta_attrs _ Hxb), (delta_attrs _ Hn). }
  apply oview_ext; [apply apply_children_ok|apply apply_children_ok| |done|done|done].
  rewrite !apply_exists_none by done. apply has_content_ext; [done..|]. intros k. by rewrite Hkid.
Qed.

(** Overlaying with two deltas in turn is overlaying with their composition. *)
Lemma over_compose o a b :
  (∀ v, o = Some v → state v) → delta a → delta b →
  over (over o a) b = over o (compose_node a b).
Proof.
  intros Ho Ha Hb. destruct o as [v|]; simpl.
  - pose proof (full_delta v (Ho v eq_refl)) as Hf. rewrite compose_assoc by done.
    symmetry. apply apply_compose_over; [by apply compose_delta|done].
  - symmetry. by apply apply_compose_over.
Qed.

Lemma over_state o d v :
  (∀ v, o = Some v → state v) → delta d → over o d = Some v → state v.
Proof.
  intros Ho Hd. destruct o as [u|]; simpl; [|by apply apply_none_state].
  apply apply_none_state, compose_delta; [|done]. by apply full_delta, Ho.
Qed.

(** *** Sizes *)

Local Open Scope nat_scope.

(** The bytes of a varint written in at most [rounds] bytes. *)
Definition vlen (rounds : nat) (v : Z) : nat := length (put_varint_loop rounds [] v).

Lemma vlen_S r v :
  vlen (S r) v = if (Z.shiftr v 7 =? 0)%Z then 1 else S (vlen r (Z.shiftr v 7)).
Proof.
  unfold vlen. simpl. destruct (_ =? _)%Z; [done|]. by rewrite put_varint_loop_app, length_app.
Qed.

Lemma vlen_mono r v w : (0 ≤ v ≤ w)%Z → vlen r v ≤ vlen r w.
Proof.
  revert v w. induction r as [|r IH]; intros v w Hvw; [done|]. rewrite !vlen_S.
  assert (Hs : (0 ≤ Z.shiftr v 7 ≤ Z.shiftr w 7)%Z).
  { rewrite !Z.shiftr_div_pow2 by lia. split; [apply Z.div_pos; lia|apply Z.div_le_mono; lia]. }
  specialize (IH _ _ Hs).
  destruct (Z.eqb_spec (Z.shiftr v 7) 0), (Z.eqb_spec (Z.shiftr w 7) 0); lia.
Qed.

Lemma vlen_one r : vlen r 1 ≤ 1.
Proof. destruct r; unfold vlen; simpl; lia. Qed.

Lemma vlen_add r v w : (0 ≤ v)%Z → (0 ≤ w)%Z → vlen r (v + w) ≤ vlen r v + vlen r w.
Proof.
  revert v w. induction r as [|r IH]; intros v w Hv Hw; [done|]. rewrite !vlen_S.
  rewrite !Z.shiftr_div_pow2 by lia. change (2 ^ 7)%Z with 128%Z.
  pose proof (Z.div_mod v 128) as Dv. pose proof (Z.div_mod w 128) as Dw.
  pose proof (Z.mod_pos_bound v 128) as Mv. pose proof (Z.mod_pos_bound w 128) as Mw.
  pose proof (Z.div_pos v 128) as Pv. pose proof (Z.div_pos w 128) as Pw.
  assert (Hsum : (0 ≤ (v + w) / 128 ≤ v / 128 + w / 128 + 1)%Z).
  { split; [apply Z.div_pos; lia|]. apply Z.lt_succ_r, Z.div_lt_upper_bound; lia. }
  pose proof (vlen_mono r _ _ Hsum) as Hm. pose proof (vlen_one r) as H1.
  pose proof (IH (v / 128 + w / 128)%Z 1%Z ltac:(lia) ltac:(lia)) as H2.
  pose proof (IH (v / 128)%Z (w / 128)%Z ltac:(lia) ltac:(lia)) as H3.
  destruct (Z.eqb_spec ((v + w) / 128) 0), (Z.eqb_spec (v / 128) 0) as [Ev|], (Z.eqb_spec (w / 128) 0) as [Ew|];
    try lia.
  - rewrite Ev, Ew, Z.add_0_l in *. lia.
  - rewrite Ev, Z.add_0_l in *. lia.
  - rewrite Ew, Z.add_0_r in *. lia.
Qed.

(** The bytes of the children of a node. *)
Definition ksize (cs : btmap Name Node) : nat := length (concat (enc_child <$> cs)).

Lemma ksize_cons k c cs : ksize ((k, c) :: cs) = length (put_bytes [] k) + esize c + ksize cs.
Proof. unfold ksize. simpl. rewrite length_app. unfold enc_child at 1. by rewrite length_app. Qed.

Lemma ksize_nil : ksize [] = 0.
Proof. done. Qed.

Lemma ksize_app c1 c2 : ksize (c1 ++ c2) = ksize c1 + ksize c2.
Proof. unfold ksize. by rewrite fmap_app, concat_app, length_app. Qed.

Lemma esize_live n : delta n →
  esize n = 1 + length (enc_blob (blob n)) + vlen 10 (zlen (children n)) + ksize (children n).
Proof.
  intros Hn. rewrite encode_live by (by apply delta_live). rewrite (delta_attrs _ Hn).
  rewrite !length_app. unfold ksize, vlen, put_varint. cbn [length]. lia.
Qed.

(** Merging children never grows their number or their bytes. *)
Lemma merge_sizes (B : Node → Node → Node) ma mb :
  (∀ k a b, (k, a) ∈ ma → (k, b) ∈ mb → esize (B a b) ≤ esize a + esize b) →
  let m := merge_maps (λ _ a, Some a) (λ _ b, Some b) (λ _ a b, Some (B a b)) ma mb in
  length m ≤ length ma + length mb ∧ ksize m ≤ ksize ma + ksize mb.
Proof.
  revert ma mb.
  refine (merge_ind (V:=Node) (W:=Node) (λ ma mb, (∀ k a b, (k, a) ∈ ma → (k, b) ∈ mb → _) → _) _ _ _ _ _ _);
    cbv beta zeta.
  - intros _. rewrite merge_nil_nil, ksize_nil. cbn [length]. lia.
  - intros ka va ma IH H. rewrite merge_a_nil, ksize_app, length_app. cbn [push].
    destruct IH as [I1 I2]; [by intros ? ? ? ? ?%elem_of_nil|]. rewrite !ksize_cons, !ksize_nil in *. cbn [length] in *. lia.
  - intros kb vb mb IH H. rewrite merge_nil_b, ksize_app, length_app. cbn [push].
    destruct IH as [I1 I2]; [by intros ? ? ? ?%elem_of_nil|]. rewrite !ksize_cons, !ksize_nil in *. cbn [length] in *. lia.
  - intros ka va ma kb vb mb E IH H. rewrite merge_lt, ksize_app, length_app by done. cbn [push].
    destruct IH as [I1 I2]; [intros k a b Ha; apply (H k); by right|]. rewrite !ksize_cons, !ksize_nil in *. cbn [length] in *. lia.
  - intros ka va ma kb vb mb E IH H. rewrite merge_gt, ksize_app, length_app by done. cbn [push].
    destruct IH as [I1 I2]; [intros k a b Ha Hb; apply (H k); [done|by right]|].
    rewrite !ksize_cons, !ksize_nil in *. cbn [length] in *. lia.
  - intros k va ma vb mb IH H. rewrite merge_eq, ksize_app, length_app. cbn [push].
    destruct IH as [I1 I2]; [intros j a b Ha Hb; apply (H j); by right|].
    assert (H0 : esize (B va vb) ≤ esize va + esize vb) by (apply (H k); by left).
    rewrite !ksize_cons, !ksize_nil in *. cbn [length] in *. lia.
Qed.

Lemma delta_children_merge a b :
  delta a → delta b → is_backdrop (anchor b) = false →
  children (compose_node a b) =
  merge_maps (λ _ a, Some a) (λ _ b, Some b) (λ _ a b, Some (compose_node a b)) (children a) (children b).
Proof.
  intros Ha Hb Ab. pose proof (delta_ok _ Ha) as Oa. pose proof (delta_ok _ Hb) as Ob.
  apply bt_ext; [apply delta_ok; by apply compose_delta|by apply merge_ok|].
  intros k. rewrite delta_compose_kid, merge_get by done. unfold merged_at, both_kid.
  by destruct (bt_get k (children a)), (bt_get k (children b)).
Qed.

(** A composition of deltas is never longer than the two together. *)
Lemma compose_size a b : delta a → delta b → esize (compose_node a b) ≤ esize a + esize b.
Proof.
  revert b. induction a as [a IH] using node_ind'; intros b Ha Hb.
  destruct (is_backdrop (anchor b)) eqn:Ab.
  { rewrite compose_b_backdrop by (by apply delta_live || done). lia. }
  destruct (compose_delta a b Ha Hb) as [Hab _].
  rewrite !esize_live, (proj1 (delta_shape a b Ha Hb Ab)), delta_children_merge by done.
  destruct (merge_sizes compose_node (children a) (children b)) as [Hl Hk].
  { intros k ac bc Hac Hbc. apply (IH k ac Hac);
      [by destruct (delta_elem a Ha k ac Hac)|by destruct (delta_elem b Hb k bc Hbc)]. }
  assert (Hv : vlen 10 (zlen (merge_maps (λ _ a, Some a) (λ _ b, Some b)
      (λ _ a b, Some (compose_node a b)) (children a) (children b)))
    ≤ vlen 10 (zlen (children a)) + vlen 10 (zlen (children b))).
  { etransitivity; [|apply vlen_add; apply zlen_nonneg]. apply vlen_mono. unfold zlen. lia. }
  destruct (blob b); cbn [enc_blob]; lia.
Qed.

End GitDelta.
