(* ===== verification/GitFold.v ===== *)
(** The states of the git mirror's union chain at the byte level: composing
    records on the geometric stack and folding them onto a base
    ([compose_bytes] and [fold_state] of [chupa/gitdepot/src/lanestore.rs]) and
    the encoder's twin of it ([compose2], [empty_state] and [seal_state] of
    [chupa/gitdepot/src/oidenc.rs]).  An [expect] that fails is [None]. *)
From S2P Require Import Prelude.
From S2P Require Import BTreeMap.
From S2P Require Import DepotModel.
From S2P Require Import DepotCompose.
From S2P Require Import DepotDiff.
From S2P Require Import DepotCodec.
From S2P Require Import DepotStream.
From S2P Require Import DepotStreamParse.
From S2P Require Import DepotStreamDiff.
From S2P Require Import DepotStreamCompose.
From S2P Require Import DepotStreamOverlay.
From S2P Require Import DepotStreamLaws.
From S2P Require Import GeoStack.
From S2P Require Import GitDelta.
Import GeoStack.
Import GitDelta.

Module GitFold.

(** [.expect(..)] on the result of a stream operation *)
Definition expect {A} (r : Run A) : option A :=
  match r with Some (Ok a) => Some a | _ => None end.

(** [compose_bytes], and [compose2] of the encoder *)
Definition compose_bytes (lower upper : bytes) : option bytes :=
  expect (compose_stream lower upper []).

(** [fold_state] *)
Definition fold_state (base : bytes) (stack : list bytes) : option bytes :=
  collapsed ← collapse compose_bytes stack;
  match collapsed with
  | None => Some base
  | Some combined =>
      out ← expect (overlay_full base combined []);
      Some (if is_nil out then encode (diff no_sharing no_sharing None (Some view_default)) else out)
  end.

(** [empty_state] of the encoder *)
Definition empty_state : bytes := encode (MkLayer keep).

(** [struct Encoder] *)
Record Encoder : Type := MkEncoder { refprefix : bytes; stack : list bytes }.

(** [Encoder::new] *)
Definition encoder_new : Encoder := MkEncoder empty_state [].

(** [Encoder::seal_state] *)
Definition seal_state (e : Encoder) : option Encoder :=
  collapsed ← collapse compose_bytes (stack e);
  match collapsed with
  | None => Some (MkEncoder (refprefix e) [])
  | Some combined =>
      out ← expect (overlay_full (refprefix e) combined []);
      Some (MkEncoder (if is_nil out then empty_state else out) [])
  end.

(** Pushing records on a stack, as [walk_records_state] does for each record
    of a frame and the encoder for each delta. *)
Definition push_records (records stack : list bytes) : option (list bytes) :=
  push_all zlen compose_bytes records stack.

(** *** The records of the chain *)

(** A record: a delta whose root is carried by what is below it. *)
Definition record (n : Node) : Prop := delta n ∧ is_backdrop (anchor n) = false.

Definition record_bytes (n : Node) : bytes := encode (MkLayer n).

(** The bytes of a state; nothing at all is the empty root. *)
Definition state_bytes (o : option View) : bytes :=
  encode (MkLayer (full_state (default view_default o))).

Lemma record_laws :
  MergeLaws zlen compose_bytes compose_node (λ b n, b = record_bytes n) record u64_limit.
Proof.
  split.
  - intros x y z [Hx _] [Hy _] [Hz _]. by apply compose_assoc.
  - intros x y [Hx Ax] [Hy Ay]. split; [by apply compose_delta|].
    by rewrite (proj2 (delta_shape x y Hx Hy Ay)).
  - intros a. apply zlen_nonneg.
  - intros a b x y -> -> [Hx Ax] [Hy Ay] Hs. unfold compose_bytes, record_bytes in *.
    pose proof (zlen_nonneg (encode (MkLayer x))). pose proof (zlen_nonneg (encode (MkLayer y))).
    exists (encode (MkLayer (compose_node x y))).
    assert (Hfx : fits x) by (split; [apply Hx|unfold encode in *; simpl in *; lia]).
    assert (Hfy : fits y) by (split; [apply Hy|unfold encode in *; simpl in *; lia]).
    unfold encode. cbn [root]. rewrite (compose_stream_app x y []) by done.
    split_and!; [done..|]. unfold zlen. pose proof (compose_size x y Hx Hy). lia.
Qed.

(** Overlaying the empty root. *)
Lemma over_empty_root d :
  record d →
  apply_node None (compose_node (full_state view_default) d) = Some (default view_default (apply_node None d)).
Proof.
  intros [Hd Ad]. change (full_state view_default) with (MkNode Live Keep false (Some []) Lower []).
  set (e := MkNode Live Keep false (Some []) Lower []).
  pose proof (delta_live _ Hd) as Td. pose proof (delta_ok _ Hd) as Od.
  destruct (compose_shape e d Td Ad eq_refl) as (Hp & Hb & Ho & Ha & Hn).
  assert (E : compose_node e d = MkNode Live (blob d) false (Some []) Lower (children d)).
  { apply node_ext.
    - exact Hp.
    - rewrite Hb. cbn [e blob]. by destruct (blob d).
    - by rewrite Ho, (delta_opaque _ Hd).
    - by rewrite Ha, (delta_attrs _ Hd).
    - by rewrite Hn.
    - by apply compose_children_ok.
    - done.
    - intros k. rewrite compose_kid by done. unfold composed_kid. rewrite (delta_opaque _ Hd). cbn.
      destruct (bt_get k (children d)) as [c|] eqn:Ec; [|done]. unfold drop_identity.
      by destruct (delta_kid _ Hd _ _ Ec) as [_ ->]. }
  rewrite E. set (n := MkNode Live (blob d) false (Some []) Lower (children d)).
  assert (Hk : ∀ k, okid k (apply_node None n) = okid k (apply_node None d)).
  { intros k. rewrite (apply_kid_none d), (apply_okid None n) by done.
    unfold kid_after, lower_kid. cbn. by destruct (bt_get k (children d)). }
  assert (Hbl : oblob (apply_node None n) = oblob (apply_node None d)).
  { rewrite (apply_blob_none d), (apply_oblob None n) by done. cbn. by destruct (blob d). }
  assert (Hat : oattrs (apply_node None n) = oattrs (apply_node None d)).
  { rewrite !apply_oattrs by done. by rewrite (delta_attrs _ Hd). }
  apply oview_ext; [apply apply_children_ok| | | | |].
  - pose proof (apply_children_ok None d). by destruct (apply_node None d).
  - rewrite apply_exists by done. unfold asserts_self. cbn. by rewrite ?orb_true_r.
  - rewrite Hbl. by destruct (apply_node None d).
  - rewrite Hat. by destruct (apply_node None d).
  - intros k. rewrite Hk. by destruct (apply_node None d).
Qed.

Lemma encode_full_nonempty v : is_nil (encode (MkLayer (full_state v))) = false.
Proof.
  unfold encode. cbn [root]. destruct (is_tombstone (full_state v)) eqn:E.
  - by rewrite encode_tombstone.
  - by rewrite encode_live.
Qed.

(** A state is absent or well shaped, and its record fits. *)
Definition stored (o : option View) : Prop :=
  (∀ v, o = Some v → state v) ∧ (zlen (state_bytes o) < u64_limit)%Z.

Lemma stored_recordable o : stored o → recordableb (default view_default o) = true.
Proof.
  intros [Ho Hz]. unfold recordableb. apply andb_true_iff. split.
  - destruct o as [v|]; [apply (Ho v eq_refl)|done].
  - apply Z.ltb_lt. exact Hz.
Qed.

(** One overlay of a record on a stored state. *)
Lemma overlay_record o d :
  stored o → record d → (zlen (record_bytes d) < u64_limit)%Z →
  ∃ out, expect (overlay_full (state_bytes o) (record_bytes d) []) = Some out ∧
    (if is_nil out then encode (diff no_sharing no_sharing None (Some view_default)) else out)
    = state_bytes (over o d).
Proof.
  intros Ho [Hd Ad] Hz. unfold state_bytes at 1, record_bytes. unfold encode at 1 2. cbn [root].
  rewrite overlay_full_enc.
  - unfold overlaid. simpl app. eexists. split; [done|]. destruct o as [v|].
    + change (default view_default (Some v)) with v. change (over (Some v) d) with (apply_node None (compose_node (full_state v) d)).
      destruct (apply_node None (compose_node (full_state v) d)) as [u|]; [|done].
      pose proof (encode_full_nonempty u) as Hne. unfold encode in Hne. simpl in Hne. by rewrite Hne.
    + change (default view_default None) with view_default. rewrite over_empty_root by done. unfold over, state_bytes.
      pose proof (encode_full_nonempty (default view_default (apply_node None d))) as Hne.
      unfold encode in Hne. simpl in Hne. by rewrite Hne.
  - by apply recordableb_spec, stored_recordable.
  - by split; [apply Hd|].
  - by apply delta_live.
Qed.

Lemma over_total o d ds :
  (∀ v, o = Some v → state v) → delta d → Forall delta ds →
  over o (foldl compose_node d ds) = foldl over o (d :: ds).
Proof.
  intros Ho Hd Hds. revert d Hd. induction Hds as [|e ds He Hds IH]; intros d Hd; simpl; [done|].
  rewrite IH by (by apply compose_delta). simpl. by rewrite over_compose.
Qed.

Definition total_bytes (ds : list Node) : Z := bytes_of zlen (record_bytes <$> ds).

(** C5. Reading a run of records: pushed on the geometric stack, composed two
    by two as the 70% rule says, and folded onto the base in one overlay, they
    give exactly the bytes of the state reached by overlaying the records one
    after the other; and the stack stays geometric, so its depth is logarithmic
    in the bytes it holds. *)
Theorem fold_state_sequential o ds :
  stored o → Forall record ds → (total_bytes ds < u64_limit)%Z →
  ∃ stk, push_records (record_bytes <$> ds) [] = Some stk ∧ geometric zlen (reverse stk) ∧
    fold_state (state_bytes o) stk = Some (state_bytes (foldl over o ds)).
Proof.
  intros Ho Hds Hz. destruct Hds as [|d ds Hd Hds].
  - exists []. split_and!; [done..|]. unfold fold_state. done.
  - destruct (push_run zlen compose_bytes compose_node (λ b n, b = record_bytes n) record u64_limit
      record_laws (record_bytes d) (record_bytes <$> ds) d ds) as (stk & c & E & Hg & Ec & -> & Hc);
      [done|done| |exact Hz|].
    { apply Forall2_fmap_l, Forall_Forall2_diag. eapply Forall_impl; [done|]. done. }
    exists stk. split_and!; [done..|]. unfold fold_state. rewrite Ec. cbn [mbind option_bind].
    assert (Hrec : record (total compose_node d ds)).
    { eapply total_ok; [apply record_laws|done..]. }
    destruct (overlay_record o (total compose_node d ds)) as (out & -> & Hout); [done..| |].
    { eapply Z.le_lt_trans; [exact Hc|exact Hz]. }
    cbn [mbind option_bind]. rewrite Hout. unfold total. rewrite over_total; [done|apply Ho|apply Hd|].
    eapply Forall_impl; [done|]. by intros n [? _].
Qed.

(** A union of one file, and the record that removes it. *)
Definition one_path : Node := MkNode Live Keep false None Lower [([102; 0; 0]%Z, MkNode Live (SetBlob [49%Z]) false None Lower [])].
Definition punch : Node := MkNode Live Keep false None Lower [([102; 0; 0]%Z, hole)].

Lemma fold_state_sequential_witness :
  ∃ stk, push_records (record_bytes <$> [one_path; punch; one_path]) [] = Some stk ∧
    geometric zlen (reverse stk) ∧
    fold_state (state_bytes None) stk = Some (state_bytes (foldl over None [one_path; punch; one_path])).
Proof.
  apply (fold_state_sequential None [one_path; punch; one_path]).
  - split; [done|vm_compute; done].
  - repeat constructor; vm_compute; done.
  - vm_compute. done.
Defined.

(** A union that its records empty: the reader folds it to the record of an
    explicitly present empty root, the encoder seals the same base and stack to
    the bare root, so the two do not agree on the bytes of an empty union. *)
Example empty_states_differ :
  ∃ base, expect (overlay_full (state_bytes None) (record_bytes one_path) []) = Some base ∧
    fold_state base [record_bytes punch] = Some [16; 0; 0]%Z ∧
    refprefix <$> seal_state (MkEncoder base [record_bytes punch]) = Some [0; 0]%Z.
Proof. eexists. split; [vm_compute; reflexivity|]. split; vm_compute; reflexivity. Qed.

End GitFold.
