(* ===== verification/GitTree.v ===== *)
(** The git side of the union encoder ([chupa/gitdepot/src/oidenc.rs]): tree
    objects, the difference of two of them, and the distribution of the lanes'
    root transitions into file transitions per path, routed to shards.

    The object store is the trait [Objects]; a client is written against the
    class below.  Recursion over directories takes fuel; [None] is fuel that
    ran out. *)
From S2P Require Import Prelude.
From S2P Require Import BTreeMap.
From S2P Require Import GitSlots.
Import Slots.

Local Open Scope Z_scope.

Module GitTree.

(** The errors of the crate that arise here. *)
Inductive Error : Type :=
| Malformed          (* [bad()] *)
| Missing (oid : bytes).   (* what an object store reports *)

(** *** Tree objects *)

(** [slice.iter().position(|&b| b == x)] *)
Fixpoint position (x : Z) (l : bytes) : option nat :=
  match l with
  | [] => None
  | y :: l => if y =? x then Some O else S <$> position x l
  end.

(** [format!("{b:02x}")] *)
Definition hex_digit (d : Z) : Z := if d <? 10 then 48 + d else 87 + d.
Definition hex (b : bytes) : bytes := concat ((λ x, [hex_digit (x / 16); hex_digit (x mod 16)]) <$> b).

(** [b"40000"] *)
Definition DIR_MODE : bytes := [52; 48; 48; 48; 48].

(** One entry of a tree object, and what follows it. *)
Definition parse_entry (raw : bytes) (olen : nat) : Result ((bytes * Ent) * bytes) Error :=
  match position 32 raw with
  | None => Err Malformed
  | Some sp =>
      let mode := take sp raw in
      let raw := drop (S sp) raw in
      match position 0 raw with
      | None => Err Malformed
      | Some nul =>
          let name := take nul raw in
          let raw := drop (S nul) raw in
          if (length raw <? olen)%nat then Err Malformed
          else Ok ((name, MkEnt mode (hex (take olen raw)) (bytes_eqb mode DIR_MODE)), drop olen raw)
      end
  end.

(** The loop of [parse_tree_oids]; each round consumes a byte at least. *)
Fixpoint parse_entries (fuel : nat) (raw : bytes) (olen : nat) : Result (list (bytes * Ent)) Error :=
  match raw, fuel with
  | [], _ => Ok []
  | _, O => Err Malformed
  | _, S fuel =>
      match parse_entry raw olen with
      | Err e => Err e
      | Ok (x, rest) => match parse_entries fuel rest olen with Err e => Err e | Ok xs => Ok (x :: xs) end
      end
  end.

(** [parse_tree_oids] and [parse_tree] *)
Definition parse_tree_oids (raw : bytes) (olen : nat) : Result (list (bytes * Ent)) Error :=
  parse_entries (length raw) raw olen.
Definition parse_tree (raw : bytes) : Result (list (bytes * Ent)) Error := parse_tree_oids raw 20.

(** *** The difference of two trees *)

(** [git_entry_cmp]: the order tree objects are stored in *)
Definition next_char (name : bytes) (i : nat) (dir : bool) : Z :=
  default (if dir then 47 else 0) (name !! i).
Definition git_entry_cmp (an : bytes) (ad : bool) (bn : bytes) (bd : bool) : comparison :=
  let min := (length an `min` length bn)%nat in
  match cmp (take min an) (take min bn) with
  | Eq => next_char an min ad ?= next_char bn min bd
  | o => o
  end.

(** What [diff_sorted] emits: a name, the old and the new entry. *)
Definition Emit : Type := bytes * option Ent * option Ent.

Definition ent_differs (a b : Ent) : bool :=
  negb (bytes_eqb (oid a) (oid b)) || xorb (is_dir a) (is_dir b) || negb (bytes_eqb (mode a) (mode b)).

(** [diff_sorted] *)
Fixpoint diff_sorted (old : list (bytes * Ent)) : list (bytes * Ent) → list Emit :=
  fix go new :=
    match old, new with
    | [], [] => []
    | [], (bn, b) :: new' => (bn, None, Some b) :: go new'
    | (an, a) :: old', [] => (an, Some a, None) :: diff_sorted old' []
    | (an, a) :: old', (bn, b) :: new' =>
        match git_entry_cmp an (is_dir a) bn (is_dir b) with
        | Lt => (an, Some a, None) :: diff_sorted old' new
        | Gt => (bn, None, Some b) :: go new'
        | Eq => if ent_differs a b then (an, Some a, Some b) :: diff_sorted old' new'
                else diff_sorted old' new'
        end
    end.

(** *** Distribution *)

(** The trait [Objects]. *)
Class Objects : Type := {
  tree : bytes → Result (list (bytes * Ent)) Error;
  blob : bytes → Result bytes Error
}.

(** [struct PathTrans]: paths and the transitions there *)
Abbreviation PathTrans := (btmap bytes (list Trans)).

Section collect.
Context `{Objects}.

(** [o.filter(|e| e.is_dir)] *)
Definition dir_side (o : option Ent) : option Ent :=
  match o with Some e => if is_dir e then Some e else None | None => None end.

(** [Some(e) => Some(obj.tree(&e.oid)?), None => None], then the slice or the
    empty one. *)
Definition side_tree (d : option Ent) : Result (list (bytes * Ent)) Error :=
  match d with Some e => tree (oid e) | None => Ok [] end.

(** Pass 1: the directory sides of the transitions, pruned by oid. *)
Fixpoint resolve_sides (trans : list Trans)
    : Result (list (nat * list (bytes * Ent) * list (bytes * Ent))) Error :=
  match trans with
  | [] => Ok []
  | (lane, o, n) :: trans =>
      match dir_side o, dir_side n with
      | None, None => resolve_sides trans
      | od, nd =>
          if match od, nd with Some a, Some b => bytes_eqb (oid a) (oid b) | _, _ => false end
          then resolve_sides trans
          else
            match side_tree od with
            | Err e => Err e
            | Ok oa =>
                match side_tree nd with
                | Err e => Err e
                | Ok na =>
                    match resolve_sides trans with
                    | Err e => Err e
                    | Ok rest => Ok ((lane, oa, na) :: rest)
                    end
                end
            end
      end
  end.

(** [changed.entry(name).or_default().push((lane, oc, nc))] *)
Definition push_changed (lane : nat) (m : btmap bytes (list Trans)) (x : Emit) : btmap bytes (list Trans) :=
  let '(name, oc, nc) := x in
  bt_insert name (default [] (bt_get name m) ++ [(lane, oc, nc)]) m.

(** Pass 2: the changed names with their transitions. *)
Definition changed_names (sides : list (nat * list (bytes * Ent) * list (bytes * Ent)))
    : btmap bytes (list Trans) :=
  foldl (λ m '(lane, oa, na), foldl (push_changed lane) m (diff_sorted oa na)) [] sides.

Definition is_file (o : option Ent) : bool :=
  match o with Some e => negb (is_dir e) | None => false end.

(** [path.push(b'/')] unless it is empty, then the name *)
Definition push_name (path name : bytes) : bytes :=
  (if path is [] then [] else path ++ [47]) ++ name.

(** The result of a recursion with fuel. *)
Definition Out (A : Type) : Type := option (Result A Error).

(** The loop over the changed names, over the recursive call. *)
Fixpoint each_changed (rec : list Trans → bytes → PathTrans → Out PathTrans) (path : bytes)
    (changed : btmap bytes (list Trans)) (out : PathTrans) : Out PathTrans :=
  match changed with
  | [] => Some (Ok out)
  | (name, sub) :: changed =>
      let path' := push_name path name in
      let out1 := if existsb (λ t : Trans, is_file t.1.2 || is_file t.2) sub
                  then bt_insert path' sub out else out in
      match rec sub path' out1 with
      | Some (Ok out2) => each_changed rec path changed out2
      | r => r
      end
  end.

(** [collect_trans] *)
Fixpoint collect_trans (fuel : nat) (trans : list Trans) (path : bytes) (out : PathTrans) : Out PathTrans :=
  match fuel with
  | O => None
  | S fuel =>
      match resolve_sides trans with
      | Err e => Some (Err e)
      | Ok sides => each_changed (collect_trans fuel) path (changed_names sides) out
      end
  end.

(** [shard_of]: the top bits of a 64-bit FNV-1a *)
Definition fnv_step (h b : Z) : Z := (Z.lxor h b * 1099511628211) mod u64_limit.
Definition shard_of (path : bytes) (bits : nat) : nat :=
  if (bits =? 0)%nat then O
  else Z.to_nat (Z.shiftr (foldl fnv_step 14695981039346656037 path) (64 - Z.of_nat bits)).

(** [per[s].insert(path, t)]; an index out of range panics *)
Fixpoint split_shards (bits : nat) (all : PathTrans) (per : list PathTrans) : option (list PathTrans) :=
  match all with
  | [] => Some per
  | (path, t) :: all =>
      old ← per !! shard_of path bits;
      split_shards bits all (<[shard_of path bits := bt_insert path t old]> per)
  end.

(** [route_trans] *)
Definition route_trans (fuel : nat) (trans : list Trans) (bits : nat) : Out (list PathTrans) :=
  match collect_trans fuel trans [] [] with
  | Some (Ok all) =>
      match split_shards bits all (replicate (2 ^ bits)%nat []) with
      | Some per => Some (Ok per)
      | None => None
      end
  | Some (Err e) => Some (Err e)
  | None => None
  end.

End collect.

End GitTree.
