(* ===== verification/GitTreeLaws.v ===== *)
(** The git side of the union encoder is right: the two-way merge of sorted
    trees finds exactly the names that changed, and the distribution of the
    lanes' root transitions records, for every path, exactly the lanes whose
    file there changed. *)
From Stdlib Require Import Sorting.Sorted.
From S2P Require Import Prelude.
From S2P Require Import BTreeMap.
From S2P Require Import DepotModel.
From S2P Require Import DepotMerge.
From S2P Require Import GitSlots.
From S2P Require Import GitSlotsLaws.
From S2P Require Import GitVariants.
From S2P Require Import GitTree.
Import Slots.
Import SlotsLaws.
Import Variants.
Import GitTree.

Local Open Scope Z_scope.

Module TreeLaws.

(** *** Git's order *)

(** A name a git tree can have. *)
Definition name_okb (n : bytes) : bool :=
  negb (is_nil n) && bool_decide (47 ∉ n) && bool_decide (0 ∉ n).
Definition name_ok (n : bytes) : Prop := name_okb n = true.

Lemma name_ok_spec n : name_ok n ↔ n ≠ [] ∧ (47 ∉ n) ∧ (0 ∉ n).
Proof.
  unfold name_ok, name_okb. rewrite !andb_true_iff, !bool_decide_eq_true, negb_true_iff.
  destruct n; simpl; naive_solver.
Qed.

(** The name with its terminator: what git compares. *)
Definition tkey (n : bytes) (dir : bool) : bytes := n ++ [if dir then 47 else 0].

Lemma git_entry_cmp_cons x an ad y bn bd :
  git_entry_cmp (x :: an) ad (y :: bn) bd
  = match x ?= y with Eq => git_entry_cmp an ad bn bd | o => o end.
Proof.
  unfold git_entry_cmp. cbn [length Nat.min take]. unfold cmp at 1, list_ord. cbn [list_cmp].
  unfold cmp at 1, Z_ord. by destruct (x ?= y).
Qed.

Lemma git_entry_cmp_key an ad bn bd :
  47 ∉ an → 0 ∉ an → 47 ∉ bn → 0 ∉ bn → git_entry_cmp an ad bn bd = cmp (tkey an ad) (tkey bn bd).
Proof.
  revert bn. induction an as [|x an IH]; intros [|y bn].
  - intros _ _ _ _. unfold tkey, cmp, list_ord. simpl. unfold cmp, Z_ord, git_entry_cmp. simpl. by destruct ad, bd.
  - intros _ _ H1 H2. apply not_elem_of_cons in H1 as [H1 _], H2 as [H2 _].
    unfold git_entry_cmp, tkey, cmp, list_ord. simpl. unfold cmp, Z_ord, next_char. simpl.
    destruct (_ ?= _) eqn:E; [|done..]. apply Z.compare_eq in E. destruct ad; congruence.
  - intros H1 H2 _ _. apply not_elem_of_cons in H1 as [H1 _], H2 as [H2 _].
    unfold git_entry_cmp, tkey, cmp, list_ord. simpl. unfold cmp, Z_ord, next_char. simpl.
    destruct (_ ?= _) eqn:E; [|done..]. apply Z.compare_eq in E. destruct bd; congruence.
  - intros [_ H1]%not_elem_of_cons [_ H2]%not_elem_of_cons [_ H3]%not_elem_of_cons [_ H4]%not_elem_of_cons.
    rewrite git_entry_cmp_cons, IH by done. done.
Qed.

Lemma tkey_inj n1 d1 n2 d2 : tkey n1 d1 = tkey n2 d2 → n1 = n2 ∧ d1 = d2.
Proof. intros [-> [= E]]%app_inj_tail. split; [done|]. by destruct d1, d2. Qed.

(** *** Trees *)

Definition ekey (x : bytes * Ent) : bytes := tkey x.1 (is_dir x.2).
Definition before_git (x y : bytes * Ent) : Prop := git_entry_cmp x.1 (is_dir x.2) y.1 (is_dir y.2) = Lt.

(** A tree as git stores it: valid names, each once, in git's order. *)
Record tree_ok (l : list (bytes * Ent)) : Prop := {
  to_names : Forall name_ok l.*1;
  to_nodup : NoDup l.*1;
  to_sorted : StronglySorted before_git l
}.

#[export] Instance ent_eq_dec : EqDecision Ent.
Proof. solve_decision. Defined.

Lemma ent_differs_spec a b : ent_differs a b = false ↔ a = b.
Proof.
  unfold ent_differs. destruct a as [m1 o1 d1], b as [m2 o2 d2]. simpl.
  rewrite !orb_false_iff, !negb_false_iff, !bytes_eqb_eq. destruct d1, d2; simpl; naive_solver.
Qed.

Definition keyed (l : list (bytes * Ent)) : btmap bytes (bytes * Ent) := (λ x, (ekey x, x)) <$> l.

Lemma names_no_sep n : name_ok n → (47 ∉ n) ∧ (0 ∉ n).
Proof. by intros (_ & ? & ?)%name_ok_spec. Qed.

Lemma keyed_ok l : Forall name_ok l.*1 → StronglySorted before_git l → bt_ok (keyed l) = true.
Proof.
  intros Hn Hs. induction Hs as [|x l Hs IH Hx]; [done|].
  apply Forall_cons in Hn as [Hnx Hn]. change (keyed (x :: l)) with ((ekey x, x) :: keyed l).
  apply bt_ok_cons. split; [|by apply IH]. intros k y (z & [= -> ->] & Hin)%list_elem_of_fmap.
  rewrite Forall_forall in Hx. rewrite Forall_forall in Hn. pose proof (Hx z Hin) as Hlt. unfold before_git in Hlt.
  assert (name_ok z.1) by (apply Hn, list_elem_of_fmap; eauto).
  rewrite git_entry_cmp_key in Hlt by (by apply names_no_sep). exact Hlt.
Qed.

Lemma diff_sorted_merge old new :
  Forall name_ok old.*1 → Forall name_ok new.*1 →
  diff_sorted old new =
  (merge_maps (λ _ x, Some (x.1, Some x.2, None)) (λ _ y, Some (y.1, None, Some y.2))
    (λ _ x y, if ent_differs x.2 y.2 then Some (x.1, Some x.2, Some y.2) else None)
    (keyed old) (keyed new)).*2.
Proof.
  revert new. induction old as [|[an a] old IHo]; intros new.
  - induction new as [|[bn b] new IHn]; [done|]. intros Ho [_ Hn]%Forall_cons.
    change (diff_sorted [] ((bn, b) :: new)) with ((bn, None, Some b) :: diff_sorted [] new : list Emit).
    change (keyed ((bn, b) :: new)) with ((ekey (bn, b), (bn, b)) :: keyed new).
    change (keyed []) with ([] : btmap bytes (bytes * Ent)) in *. rewrite merge_nil_b. cbn.
    f_equal. by apply IHn.
  - induction new as [|[bn b] new IHn]; intros Ho Hn.
    + apply Forall_cons in Ho as [_ Ho].
      change (diff_sorted ((an, a) :: old) []) with ((an, Some a, None) :: diff_sorted old [] : list Emit).
      change (keyed ((an, a) :: old)) with ((ekey (an, a), (an, a)) :: keyed old).
      change (keyed []) with ([] : btmap bytes (bytes * Ent)) in *. rewrite merge_a_nil. cbn.
      f_equal. by apply IHo.
    + pose proof Ho as [Hna Ho']%Forall_cons. pose proof Hn as [Hnb Hn']%Forall_cons. simpl in Hna, Hnb.
      change (keyed ((an, a) :: old)) with ((ekey (an, a), (an, a)) :: keyed old) in *.
      change (keyed ((bn, b) :: new)) with ((ekey (bn, b), (bn, b)) :: keyed new) in *.
      pose proof (git_entry_cmp_key an (is_dir a) bn (is_dir b)) as Hc.
      destruct (names_no_sep an Hna) as [N1 N2], (names_no_sep bn Hnb) as [N3 N4].
      specialize (Hc N1 N2 N3 N4). cbn [diff_sorted].
      destruct (git_entry_cmp an (is_dir a) bn (is_dir b)) eqn:E.
      * symmetry in Hc. apply cmp_eq in Hc. change (tkey an (is_dir a)) with (ekey (an, a)) in Hc.
        change (tkey bn (is_dir b)) with (ekey (bn, b)) in Hc. rewrite <- Hc, merge_eq. cbn.
        destruct (ent_differs a b); cbn; [f_equal|]; by apply IHo.
      * rewrite merge_lt by (by symmetry). cbn. f_equal. by apply IHo.
      * rewrite merge_gt by (by symmetry). cbn. f_equal. by apply IHn.
Qed.

(** The entry of a name. *)
Fixpoint entry (name : bytes) (l : list (bytes * Ent)) : option Ent :=
  match l with
  | [] => None
  | (n, e) :: l => if decide (n = name) then Some e else entry name l
  end.

Lemma entry_elem name l e : NoDup l.*1 → entry name l = Some e ↔ (name, e) ∈ l.
Proof.
  induction l as [|[n x] l IH]; intros Hnd; simpl.
  - split; [done|]. by intros ?%elem_of_nil.
  - apply NoDup_cons in Hnd as [Hn Hnd]. rewrite elem_of_cons. case_decide as E; [subst|].
    + split; [intros [= ->]; by left|]. intros [[= ->]|Hin]; [done|]. exfalso. apply Hn, list_elem_of_fmap. by exists (name, e).
    + rewrite (IH Hnd). naive_solver.
Qed.

(** What the transitions say of a lane whose entry goes from [o] to [n]: one
    event, or two when a file and a directory trade places. *)
Definition flips (o n : option Ent) : bool :=
  match o, n with Some a, Some b => xorb (is_dir a) (is_dir b) | _, _ => false end.
Definition part (o n a b : option Ent) : Prop :=
  if flips o n then (a = o ∧ b = None) ∨ (a = None ∧ b = n) else a = o ∧ b = n.
Definition event (o n a b : option Ent) : Prop := o ≠ n ∧ part o n a b.

(** The tree holds [x] under the key [k]. *)
Lemma keyed_get k l x :
  Forall name_ok l.*1 → StronglySorted before_git l → bt_get k (keyed l) = Some x ↔ x ∈ l ∧ k = ekey x.
Proof.
  intros Hn Hs. split.
  - intros (y & [= -> ->] & Hin)%bt_get_elem%list_elem_of_fmap. done.
  - intros [Hin ->]. apply bt_elem_get; [by apply keyed_ok|]. apply list_elem_of_fmap. eauto.
Qed.

(** The entry of the name at a key, if it is of the kind of the key. *)
Definition entry_as (name : bytes) (dir : bool) (l : list (bytes * Ent)) : option Ent :=
  match entry name l with Some e => if eqb (is_dir e) dir then Some e else None | None => None end.

Lemma keyed_entry l name dir :
  tree_ok l → bt_get (tkey name dir) (keyed l) = (λ e, (name, e)) <$> entry_as name dir l.
Proof.
  intros [Hn Hd Hs]. apply option_eq. intros [n e]. rewrite keyed_get by done. unfold entry_as. split.
  - intros [Hin [E1 E2]%tkey_inj]. simpl in E1, E2. subst n dir.
    apply (entry_elem name l e Hd) in Hin as ->. by rewrite eqb_reflx.
  - destruct (entry name l) as [e'|] eqn:E; [|done]. destruct (eqb _ _) eqn:Ed; [|done].
    intros [= <- <-]. apply eqb_prop in Ed as <-. by apply (entry_elem name l) in E.
Qed.

Lemma diff_sorted_keyed old new x :
  tree_ok old → tree_ok new →
  x ∈ diff_sorted old new ↔ ∃ k, merged_at (λ _ x, Some (x.1, Some x.2, None)) (λ _ y, Some (y.1, None, Some y.2))
    (λ _ x y, if ent_differs x.2 y.2 then Some (x.1, Some x.2, Some y.2) else None) k (keyed old) (keyed new) = Some x.
Proof.
  intros Ho Hn. pose proof (keyed_ok old (to_names _ Ho) (to_sorted _ Ho)) as Ko.
  pose proof (keyed_ok new (to_names _ Hn) (to_sorted _ Hn)) as Kn.
  rewrite diff_sorted_merge by (by apply to_names). rewrite list_elem_of_fmap. split.
  - intros ([k y] & -> & Hin). exists k. rewrite <- merge_get by done. apply bt_elem_get; [by apply merge_ok|done].
  - intros [k Hk]. exists (k, x). split; [done|]. apply bt_get_elem. by rewrite merge_get.
Qed.

(** The keys of entries end in a terminator. *)
Lemma keyed_key l k x : bt_get k (keyed l) = Some x → k = tkey x.1 (is_dir x.2).
Proof. by intros (y & [= -> ->] & _)%bt_get_elem%list_elem_of_fmap. Qed.

(** The difference of two trees: the events of the names. *)
Lemma diff_sorted_spec old new name a b :
  tree_ok old → tree_ok new →
  (name, a, b) ∈ diff_sorted old new ↔ event (entry name old) (entry name new) a b.
Proof.
  intros Ho Hn. rewrite diff_sorted_keyed by done.
  assert (Hat : ∀ dir, merged_at (λ _ x, Some (x.1, Some x.2, None)) (λ _ y, Some (y.1, None, Some y.2))
      (λ _ x y, if ent_differs x.2 y.2 then Some (x.1, Some x.2, Some y.2) else None)
      (tkey name dir) (keyed old) (keyed new) =
    match entry_as name dir old, entry_as name dir new with
    | Some x, Some y => if ent_differs x y then Some (name, Some x, Some y) else None
    | Some x, None => Some (name, Some x, None)
    | None, Some y => Some (name, None, Some y)
    | None, None => None
    end).
  { intros dir. unfold merged_at. rewrite !keyed_entry by done.
    by destruct (entry_as name dir old), (entry_as name dir new). }
  transitivity (∃ dir, match entry_as name dir old, entry_as name dir new with
    | Some x, Some y => if ent_differs x y then Some (name, Some x, Some y) else None
    | Some x, None => Some (name, Some x, None)
    | None, Some y => Some (name, None, Some y)
    | None, None => None
    end = Some (name, a, b)).
  - split.
    + intros [k Hk]. enough (∃ dir, k = tkey name dir) as [dir ->] by (exists dir; by rewrite <- Hat).
      unfold merged_at in Hk. destruct (bt_get k (keyed old)) as [[n x]|] eqn:E1, (bt_get k (keyed new)) as [[m y]|] eqn:E2; simpl in Hk.
      * destruct (ent_differs x y); [|done]. injection Hk as <- _ _. exists (is_dir x). apply (keyed_key _ _ _ E1).
      * injection Hk as <- _ _. exists (is_dir x). apply (keyed_key _ _ _ E1).
      * injection Hk as <- _ _. exists (is_dir y). apply (keyed_key _ _ _ E2).
      * done.
    + intros [dir Hd]. exists (tkey name dir). by rewrite Hat.
  - unfold entry_as, event, part, flips.
    destruct (entry name old) as [x|], (entry name new) as [y|].
    + destruct (decide (x = y)) as [->|Hne].
      * rewrite xorb_nilpotent. split; [|by intros [[] _]].
        intros [dir H]. destruct (eqb (is_dir y) dir); [|done].
        assert (ent_differs y y = false) as E by (by apply ent_differs_spec). by rewrite E in H.
      * assert (ent_differs x y = true) as E.
        { destruct (ent_differs x y) eqn:E; [done|]. by apply ent_differs_spec in E. }
        split.
        -- intros [dir H]. split; [congruence|]. destruct (is_dir x), (is_dir y), dir; simpl in *; rewrite ?E in H; naive_solver.
        -- intros [_ H]. destruct (is_dir x), (is_dir y); simpl in *.
           ++ exists true. rewrite E. naive_solver.
           ++ destruct H as [[-> ->]|[-> ->]]; [by exists true|by exists false].
           ++ destruct H as [[-> ->]|[-> ->]]; [by exists false|by exists true].
           ++ exists false. rewrite E. naive_solver.
    + split; [intros [dir H]; destruct (eqb (is_dir x) dir); naive_solver|].
      intros [_ [-> ->]]. exists (is_dir x). by rewrite eqb_reflx.
    + split; [intros [dir H]; destruct (eqb (is_dir y) dir); naive_solver|].
      intros [_ [-> ->]]. exists (is_dir y). by rewrite eqb_reflx.
    + split; [by intros [dir H]|by intros [[] _]].
Qed.

(** *** Paths *)

Definition join (path : bytes) (names : list bytes) : bytes := foldl push_name path names.
Definition tail_of (names : list bytes) : bytes := concat ((λ n, 47 :: n) <$> names).
Definition base_of (path : bytes) : bytes := if path is [] then [] else path ++ [47].

Lemma join_tail path names : path ≠ [] → join path names = path ++ tail_of names.
Proof.
  revert path. induction names as [|n names IH]; intros path Hp; simpl; [by rewrite app_nil_r|].
  unfold join in *. simpl. rewrite IH.
  - unfold push_name. destruct path; [done|]. unfold tail_of. simpl. by rewrite <- !app_assoc.
  - unfold push_name. by destruct path.
Qed.

Lemma push_name_base path n : push_name path n = base_of path ++ n.
Proof. done. Qed.

Lemma push_name_nonempty path n : name_ok n → push_name path n ≠ [].
Proof. intros (H & _)%name_ok_spec. rewrite push_name_base. by intros [_ ?]%app_nil. Qed.

Lemma join_cons path n names :
  name_ok n → join path (n :: names) = base_of path ++ n ++ tail_of names.
Proof.
  intros Hn. change (join path (n :: names)) with (join (push_name path n) names).
  rewrite join_tail by (by apply push_name_nonempty). by rewrite push_name_base, <- app_assoc.
Qed.

(** What follows a name in a path is nothing or starts with a slash. *)
Definition at_sep (t : bytes) : Prop := t = [] ∨ ∃ t', t = 47 :: t'.

Lemma tail_sep names : at_sep (tail_of names).
Proof. destruct names; [by left|]. right. unfold tail_of. simpl. eauto. Qed.

Lemma name_split n m t1 t2 :
  (47 ∉ n) → (47 ∉ m) → at_sep t1 → at_sep t2 → n ++ t1 = m ++ t2 → n = m ∧ t1 = t2.
Proof.
  revert m. induction n as [|x n IH]; intros [|y m] Hn Hm H1 H2; simpl.
  - done.
  - intros ->. destruct H1 as [?|[t [= -> _]]]; [done|]. exfalso. apply Hm. by left.
  - intros <-. destruct H2 as [?|[t [= -> _]]]; [done|]. exfalso. apply Hn. by left.
  - intros [= -> E]. apply not_elem_of_cons in Hn as [_ Hn], Hm as [_ Hm].
    by destruct (IH m Hn Hm H1 H2 E) as [-> ->].
Qed.

Lemma tail_of_inj ns ms : Forall name_ok ns → Forall name_ok ms → tail_of ns = tail_of ms → ns = ms.
Proof.
  intros Hn. revert ms. induction Hn as [|n ns (_ & Hn & _)%name_ok_spec _ IH]; intros [|m ms] Hm; [done..|].
  apply Forall_cons in Hm as [(_ & Hm & _)%name_ok_spec Hms]. unfold tail_of. simpl. intros [= E].
  apply name_split in E as [-> E]; [|done..|apply tail_sep|apply tail_sep]. f_equal. by apply IH.
Qed.

Lemma join_inj path n ns m ms :
  Forall name_ok (n :: ns) → Forall name_ok (m :: ms) → join path (n :: ns) = join path (m :: ms) →
  n = m ∧ ns = ms.
Proof.
  intros [Hn Hns]%Forall_cons [Hm Hms]%Forall_cons. rewrite !join_cons by done. intros E%app_inv_head.
  pose proof Hn as (_ & Sn & _)%name_ok_spec. pose proof Hm as (_ & Sm & _)%name_ok_spec.
  apply name_split in E as [-> E]; [|done..|apply tail_sep|apply tail_sep].
  split; [done|]. by apply tail_of_inj.
Qed.

(** *** Distribution *)

Section collect.
Context `{Objects}.

(** Everything below the entry is there and well formed, [k] levels deep. *)
Fixpoint deep (k : nat) (o : option Ent) : Prop :=
  match dir_side o, k with
  | None, _ => True
  | Some _, O => False
  | Some d, S k => ∃ l, tree (oid d) = Ok l ∧ tree_ok l ∧ Forall (λ x, deep k (Some x.2)) l
  end.

Definition entries (o : option Ent) : list (bytes * Ent) :=
  match dir_side o with
  | Some d => match tree (oid d) with Ok l => l | Err _ => [] end
  | None => []
  end.

Definition child (name : bytes) (o : option Ent) : option Ent := entry name (entries o).

Fixpoint at_path (o : option Ent) (names : list bytes) : option Ent :=
  match names with [] => o | n :: names => at_path (child n o) names end.

(** The file an entry is. *)
Definition file_of (o : option Ent) : option VarKey :=
  match o with Some e => if is_dir e then None else Some (mode e, oid e) | None => None end.

(** The transitions tell how each lane's entry goes from [o l] to [n l]. *)
Definition tells (trans : list Trans) (o n : nat → option Ent) : Prop :=
  (∀ l a b, (l, a, b) ∈ trans → part (o l) (n l) a b) ∧
  (∀ l a b, event (o l) (n l) a b → (l, a, b) ∈ trans).

Definition deep_all (k : nat) (trans : list Trans) : Prop :=
  ∀ l a b, (l, a, b) ∈ trans → deep k a ∧ deep k b.

Lemma tree_ok_nil : tree_ok [].
Proof. split; constructor. Qed.

Lemma deep_entries k o :
  deep k o → side_tree (dir_side o) = Ok (entries o) ∧ tree_ok (entries o) ∧ ∀ name, deep (pred k) (child name o).
Proof.
  unfold child, entries. destruct k as [|k]; simpl; destruct (dir_side o) as [d|]; simpl; try done.
  - intros _. split_and!; [done|apply tree_ok_nil|done].
  - intros (l & -> & Hl & Hk). split_and!; [done..|]. intros name.
    destruct (entry name l) as [e|] eqn:E; [|by destruct k].
    apply (entry_elem name l e (to_nodup _ Hl)) in E. rewrite Forall_forall in Hk. apply (Hk _ E).
  - intros _. split_and!; [done|apply tree_ok_nil|]. intros name. by destruct k.
Qed.

Lemma deep_file k o : dir_side o = None → deep k o.
Proof. intros E. destruct k; simpl; by rewrite E. Qed.

Lemma deep_child k name o : deep k o → deep (pred k) (child name o).
Proof. intros Ho. by apply (deep_entries k o Ho). Qed.

(** The pruning: what it lets through, and that it loses nothing. *)
Definition live (a b : option Ent) : Prop :=
  match dir_side a, dir_side b with
  | None, None => False
  | Some x, Some y => oid x ≠ oid y
  | _, _ => True
  end.

Lemma pruned_same a b : ¬ live a b → entries a = entries b.
Proof.
  unfold live, entries. destruct (dir_side a) as [x|], (dir_side b) as [y|]; [|tauto..|done].
  intros E. destruct (decide (oid x = oid y)) as [->|]; [done|]. tauto.
Qed.

Lemma dir_side_some o d : dir_side o = Some d ↔ o = Some d ∧ is_dir d = true.
Proof.
  unfold dir_side. destruct o as [e|]; [destruct (is_dir e) eqn:E|]; split.
  - by intros [= <-].
  - by intros [[= <-] _].
  - done.
  - intros [[= <-] ?]. congruence.
  - done.
  - by intros [? _].
Qed.

#[local] Instance live_dec a b : Decision (live a b).
Proof. unfold live. destruct (dir_side a), (dir_side b); apply _. Defined.

Lemma resolve_spec k trans :
  deep_all k trans →
  ∃ sides, resolve_sides trans = Ok sides ∧
    ∀ l x y, (l, x, y) ∈ sides ↔ ∃ a b, (l, a, b) ∈ trans ∧ live a b ∧ x = entries a ∧ y = entries b.
Proof.
  induction trans as [|[[lane a] b] trans IH]; intros Hd.
  { exists []. split; [done|]. intros l x y. setoid_rewrite elem_of_nil. naive_solver. }
  destruct IH as (sides & E & Hs); [intros l x y Hin; apply (Hd l); by right|].
  destruct (Hd lane a b) as [Da Db]; [by left|].
  destruct (deep_entries k a Da) as (Ea & _ & _), (deep_entries k b Db) as (Eb & _ & _).
  destruct (decide (live a b)) as [Hl|Hl].
  - exists ((lane, entries a, entries b) :: sides). split.
    + cbn [resolve_sides]. unfold live in Hl. rewrite E. revert Hl Ea Eb.
      destruct (dir_side a) as [x|], (dir_side b) as [y|]; intros Hl Ea Eb; try done;
        rewrite ?bytes_eqb_ne by done; by rewrite Ea, Eb.
    + intros l x y. setoid_rewrite elem_of_cons. rewrite Hs. naive_solver.
  - exists sides. split.
    + cbn [resolve_sides]. unfold live in Hl. rewrite E.
      destruct (dir_side a) as [x|], (dir_side b) as [y|]; try done; try tauto.
      destruct (decide (oid x = oid y)) as [->|]; [|tauto]. by rewrite bytes_eqb_refl.
    + intros l x y. setoid_rewrite elem_of_cons. rewrite Hs. naive_solver.
Qed.

Lemma push_changed_spec lane l m :
  bt_ok m = true →
  let m' := foldl (push_changed lane) m l in
  bt_ok m' = true ∧ ∀ name t, t ∈ default [] (bt_get name m') ↔
    t ∈ default [] (bt_get name m) ∨ ∃ a b, (name, a, b) ∈ l ∧ t = (lane, a, b).
Proof.
  revert m. induction l as [|[[nm oc] nc] l IH]; intros m Hm; simpl.
  - split; [done|]. intros name t. setoid_rewrite elem_of_nil. naive_solver.
  - destruct (IH (bt_insert nm (default [] (bt_get nm m) ++ [(lane, oc, nc)]) m)) as [Hok Hin];
      [by apply bt_ok_insert|]. split; [done|].
    intros name t. rewrite Hin, bt_get_insert. setoid_rewrite elem_of_cons. case_decide as E; simpl.
    + subst. rewrite elem_of_app, list_elem_of_singleton. naive_solver.
    + naive_solver.
Qed.

Lemma changed_spec sides m :
  bt_ok m = true →
  let m' := foldl (λ m '(lane, oa, na), foldl (push_changed lane) m (diff_sorted oa na)) m sides in
  bt_ok m' = true ∧ ∀ name t, t ∈ default [] (bt_get name m') ↔
    t ∈ default [] (bt_get name m) ∨
    ∃ lane x y a b, (lane, x, y) ∈ sides ∧ (name, a, b) ∈ diff_sorted x y ∧ t = (lane, a, b).
Proof.
  revert m. induction sides as [|[[lane x] y] sides IH]; intros m Hm; simpl.
  - split; [done|]. intros name t. setoid_rewrite elem_of_nil. naive_solver.
  - destruct (push_changed_spec lane (diff_sorted x y) m Hm) as [Hok1 Hin1].
    destruct (IH _ Hok1) as [Hok Hin]. split; [done|]. intros name t. rewrite Hin, Hin1.
    setoid_rewrite elem_of_cons. split.
    + intros [[?|(a & b & ? & ->)]|(l & p & q & a & b & ? & ? & ->)]; [by left|right; eauto 10..].
    + intros [?|(l & p & q & a & b & [[= -> -> ->]|?] & ? & ->)]; [by left; left|left; right; eauto|right; eauto 10].
Qed.

Lemma changed_nonempty sides m name sub :
  (∀ name sub, bt_get name m = Some sub → sub ≠ []) →
  bt_get name (foldl (λ m '(lane, oa, na), foldl (push_changed lane) m (diff_sorted oa na)) m sides) = Some sub → sub ≠ [].
Proof.
  revert m. induction sides as [|[[lane x] y] sides IH]; intros m Hm; [apply Hm|]. simpl. apply IH.
  clear IH. revert m Hm. induction (diff_sorted x y) as [|[[nm oc] nc] l IH]; intros m Hm; [done|].
  apply IH. intros nm' sub'. unfold push_changed. rewrite bt_get_insert. case_decide; [|apply Hm].
  intros [= <-]. by destruct (default [] (bt_get nm m)).
Qed.

(** An event that is let through shows the children of its lane's entries. *)
Lemma part_children name o n a b :
  part o n a b → live a b → child name a = child name o ∧ child name b = child name n.
Proof.
  unfold part, flips. destruct o as [x|], n as [y|]; try (by intros [-> ->]).
  destruct (is_dir x) eqn:Dx, (is_dir y) eqn:Dy; simpl; try (by intros [-> ->]);
    intros [[-> ->]|[-> ->]]; unfold live, child, entries, dir_side; rewrite ?Dx, ?Dy; by intros.
Qed.

(** Children that differ come from an event that is let through. *)
Lemma children_event name o n :
  child name o ≠ child name n →
  ∃ a b, event o n a b ∧ live a b ∧ child name a = child name o ∧ child name b = child name n.
Proof.
  intros Hne. assert (Hon : o ≠ n) by (by intros ->).
  assert (Hlive : live o n).
  { destruct (decide (live o n)) as [?|Hp%pruned_same]; [done|]. unfold child in Hne. congruence. }
  destruct (flips o n) eqn:F.
  - destruct o as [x|], n as [y|]; try done. simpl in F.
    destruct (is_dir x) eqn:Dx, (is_dir y) eqn:Dy; try done; clear Hlive.
    + exists (Some x), None. split_and!; [split; [done|]; unfold part; simpl; rewrite Dx, Dy; by left| | |];
        unfold live, child, entries, dir_side; by rewrite ?Dx, ?Dy.
    + exists None, (Some y). split_and!; [split; [done|]; unfold part; simpl; rewrite Dx, Dy; by right| | |];
        unfold live, child, entries, dir_side; by rewrite ?Dx, ?Dy.
  - exists o, n. split_and!; [|done..]. split; [done|]. unfold part. by rewrite F.
Qed.

(** The changed names tell of the children. *)
Lemma changed_tells k trans o n :
  tells trans o n → deep_all k trans →
  ∃ sides, resolve_sides trans = Ok sides ∧ bt_ok (changed_names sides) = true ∧
    (∀ name, tells (default [] (bt_get name (changed_names sides))) (child name ∘ o) (child name ∘ n)) ∧
    (∀ name, deep_all (pred k) (default [] (bt_get name (changed_names sides)))) ∧
    (∀ name sub, bt_get name (changed_names sides) = Some sub → name_ok name) ∧
    (k = O → sides = []).
Proof.
  intros [Hp He] Hd. destruct (resolve_spec k trans Hd) as (sides & E & Hs).
  destruct (changed_spec sides [] eq_refl) as [Hok Hin]. fold (changed_names sides) in Hok, Hin.
  assert (Hmem : ∀ name l a b, (l, a, b) ∈ default [] (bt_get name (changed_names sides)) ↔
    ∃ x y, (l, x, y) ∈ trans ∧ live x y ∧ event (child name x) (child name y) a b).
  { intros name l a b. rewrite Hin. split.
    - intros [?%elem_of_nil|(lane & p & q & a' & b' & (x & y & Hxy & Hl & -> & ->)%Hs & Hdiff & [= <- <- <-])]; [done|].
      exists x, y. split_and!; [done..|]. destruct (Hd _ _ _ Hxy) as [Dx Dy].
      apply diff_sorted_spec in Hdiff; [done|by apply (deep_entries k)..].
    - intros (x & y & Hxy & Hl & Hev). right. exists l, (entries x), (entries y), a, b.
      destruct (Hd _ _ _ Hxy) as [Dx Dy]. split_and!; [|apply diff_sorted_spec; [by apply (deep_entries k)..|done]|done].
      apply Hs. eauto 10. }
  exists sides. split_and!; [done..| | | |].
  - intros name. split.
    + intros l a b (x & y & Hxy & Hl & [_ Hev])%Hmem. destruct (part_children name _ _ _ _ (Hp _ _ _ Hxy) Hl) as [E1 E2].
      rewrite E1, E2 in Hev. exact Hev.
    + intros l a b [Hne Hpt]. simpl in Hne, Hpt. destruct (children_event name _ _ Hne) as (x & y & Hev & Hl & E1 & E2).
      apply Hmem. exists x, y. split_and!; [by apply He|done|]. rewrite E1, E2. by split.
  - intros name l a b (x & y & Hxy & Hl & [_ Hev])%Hmem. destruct (Hd _ _ _ Hxy) as [Dx Dy].
    apply (deep_child _ name) in Dx, Dy. unfold part in Hev.
    destruct (flips _ _); [destruct Hev as [[-> ->]|[-> ->]]|destruct Hev as [-> ->]]; split; try done;
      by apply deep_file.
  - intros name sub Hsub. pose proof (changed_nonempty sides [] name sub ltac:(done) Hsub) as Hne.
    destruct sub as [|[[l a] b] sub]; [done|].
    assert (Hm : (l, a, b) ∈ default [] (bt_get name (changed_names sides))) by (rewrite Hsub; by left).
    apply Hmem in Hm as (x & y & Hxy & Hl & Hev & _). destruct (Hd _ _ _ Hxy) as [Dx Dy].
    assert (Hnm : ∀ o e, deep k o → child name o = Some e → name_ok name).
    { intros o' e Do Ee. destruct (deep_entries k o' Do) as (_ & [Hn Hnd _] & _).
      apply entry_elem in Ee; [|done]. rewrite Forall_forall in Hn. apply Hn, list_elem_of_fmap. by exists (name, e). }
    destruct (child name x) as [e|] eqn:Ex; [by apply (Hnm x e)|].
    destruct (child name y) as [e|] eqn:Ey; [by apply (Hnm y e)|]. done.
  - intros ->. destruct sides as [|[[l x] y] sides]; [done|]. exfalso.
    destruct (proj1 (Hs l x y) ltac:(by left)) as (a & b & Hab & Hl & _).
    destruct (Hd _ _ _ Hab) as [Da Db]. unfold live in Hl. simpl in Da, Db.
    by destruct (dir_side a), (dir_side b).
Qed.

(** What the record of a path says, when there is one and when there is none. *)
Definition told (sub : option (list Trans)) (o n : nat → option Ent) : Prop :=
  match sub with
  | Some sub => tells sub o n
  | None => ∀ l, file_of (o l) = file_of (n l)
  end.

Definition below (path : bytes) (p : bytes) : Prop :=
  ∃ names, names ≠ [] ∧ Forall name_ok names ∧ p = join path names.

(** What a run of the distribution below [path] does to the records. *)
Definition distributes (path : bytes) (o n : nat → option Ent) (out out' : PathTrans) : Prop :=
  bt_ok out' = true ∧
  (∀ names, names ≠ [] → Forall name_ok names →
     told (bt_get (join path names) out') (λ l, at_path (o l) names) (λ l, at_path (n l) names)) ∧
  (∀ p, ¬ below path p → bt_get p out' = bt_get p out).

Definition rec_ok (k : nat) (rec : list Trans → bytes → PathTrans → Out PathTrans) : Prop :=
  ∀ trans path out o n,
    tells trans o n → deep_all k trans → bt_ok out = true → (∀ p, below path p → bt_get p out = None) →
    ∃ out', rec trans path out = Some (Ok out') ∧ distributes path o n out out'.

(** Lanes without a file event keep their file. *)
Lemma no_file_told sub o n :
  tells sub o n → existsb (λ t : Trans, is_file t.1.2 || is_file t.2) sub = false →
  ∀ l, file_of (o l) = file_of (n l).
Proof.
  intros [_ He] Hf l. destruct (decide (o l = n l)) as [->|Hne]; [done|].
  assert (Hno : ∀ a b, event (o l) (n l) a b → is_file a = false ∧ is_file b = false).
  { intros a b Hev%He. apply orb_false_iff. destruct (is_file a || is_file b) eqn:E; [|done].
    rewrite <- Hf. symmetry. apply existsb_exists. exists (l, a, b). split; [by apply list_elem_of_In|done]. }
  assert (Hfo : ∀ x, is_file x = false → file_of x = None).
  { intros [e|]; simpl; [|done]. by destruct (is_dir e). }
  destruct (flips (o l) (n l)) eqn:F.
  - destruct (Hno (o l) None) as [H1 _]; [split; [done|]; unfold part; rewrite F; by left|].
    destruct (Hno None (n l)) as [_ H2]; [split; [done|]; unfold part; rewrite F; by right|].
    by rewrite !Hfo.
  - destruct (Hno (o l) (n l)) as [H1 H2]; [split; [done|]; unfold part; by rewrite F|]. by rewrite !Hfo.
Qed.

Lemma tells_nil o n : tells [] o n → ∀ l, o l = n l.
Proof.
  intros [_ He] l. destruct (decide (o l = n l)) as [|Hne]; [done|]. exfalso.
  destruct (flips (o l) (n l)) eqn:F.
  - apply (not_elem_of_nil ((l, o l, None) : Trans)), He. split; [done|]. unfold part. rewrite F. by left.
  - apply (not_elem_of_nil ((l, o l, n l) : Trans)), He. split; [done|]. unfold part. by rewrite F.
Qed.

Lemma below_head path p n ns : below (push_name path n) p → name_ok n → p = join path (n :: ns) → ns ≠ [].
Proof.
  intros (ms & Hms & Hok & ->) Hn E ->. change (join path [n]) with (join (push_name path n) []) in E.
  rewrite !join_tail in E by (by apply push_name_nonempty).
  destruct ms as [|m ms]; [done|]. apply app_inv_head in E. unfold tail_of in E. done.
Qed.

Lemma below_not_self path n : name_ok n → ¬ below (push_name path n) (push_name path n).
Proof. intros Hn Hb. by eapply (below_head path _ n []). Qed.

Lemma below_push path n p : name_ok n → below (push_name path n) p → below path p.
Proof. intros Hn (ms & Hne & Hok & ->). exists (n :: ms). split_and!; [done|by constructor|done]. Qed.

(** The paths below two names are apart. *)
Lemma below_apart path n m ms :
  name_ok n → Forall name_ok (m :: ms) → n ≠ m →
  ¬ below (push_name path n) (join path (m :: ms)) ∧ push_name path n ≠ join path (m :: ms).
Proof.
  intros Hn Hm Hne. split.
  - intros (ns & _ & Hns & E). change (join (push_name path n) ns) with (join path (n :: ns)) in E.
    apply join_inj in E as [-> _]; [done|done|by constructor].
  - intros E. change (push_name path n) with (join path [n]) in E.
    apply join_inj in E as [-> _]; [done| |done]. by repeat constructor.
Qed.

(** The loop over the changed names. *)
Lemma each_changed_spec k rec path changed out o n :
  rec_ok k rec → bt_ok changed = true →
  (∀ name sub, (name, sub) ∈ changed → name_ok name ∧ tells sub (child name ∘ o) (child name ∘ n) ∧ deep_all k sub) →
  bt_ok out = true →
  (∀ name ns, name ∈ changed.*1 → Forall name_ok ns → bt_get (join path (name :: ns)) out = None) →
  ∃ out', each_changed rec path changed out = Some (Ok out') ∧ bt_ok out' = true ∧
    (∀ name ns, name ∈ changed.*1 → Forall name_ok ns →
       told (bt_get (join path (name :: ns)) out') (λ l, at_path (o l) (name :: ns)) (λ l, at_path (n l) (name :: ns))) ∧
    (∀ p, (∀ name ns, name ∈ changed.*1 → Forall name_ok ns → p ≠ join path (name :: ns)) → bt_get p out' = bt_get p out).
Proof.
  intros Hrec. revert out. induction changed as [|[name sub] changed IH]; intros out Hok Hch Hout Hfree.
  { exists out. split_and!; [done..| |done]. by intros ? ? ?%elem_of_nil. }
  apply bt_ok_cons in Hok as [Hlt Hok]. destruct (Hch name sub) as (Hn & Ht & Hdp); [by left|].
  assert (Hother : ∀ m, m ∈ changed.*1 → name_ok m ∧ name ≠ m).
  { intros m ([m' s] & -> & Hin)%list_elem_of_fmap. split; [by apply (Hch m' s); right|].
    intros Em. simpl in Em. subst m'. specialize (Hlt _ _ Hin). by rewrite cmp_refl in Hlt. }
  set (path' := push_name path name).
  set (out1 := if existsb (λ t : Trans, is_file t.1.2 || is_file t.2) sub then bt_insert path' sub out else out).
  assert (Hok1 : bt_ok out1 = true) by (unfold out1; destruct (existsb _ _); [by apply bt_ok_insert|done]).
  assert (Hne1 : ∀ p, p ≠ path' → bt_get p out1 = bt_get p out).
  { intros p Hp. unfold out1. destruct (existsb _ _); [by rewrite bt_get_insert_ne|done]. }
  assert (Hself : told (bt_get path' out1) (child name ∘ o) (child name ∘ n)).
  { unfold out1. destruct (existsb _ sub) eqn:Ef; [by rewrite bt_get_insert_eq|].
    change path' with (join path [name]). rewrite (Hfree name []) by (by left || constructor). simpl. by eapply no_file_told. }
  destruct (Hrec sub path' out1 _ _ Ht Hdp Hok1) as (out2 & E2 & Hok2 & Hrec2 & Huntouched2).
  { intros p Hb. rewrite Hne1.
    - destruct Hb as (ns & _ & Hns & ->). apply (Hfree name ns); [by left|done].
    - intros ->. by apply (below_not_self path name). }
  destruct (IH out2) as (out' & E' & Hok' & Htold & Huntouched); [done| |done| |].
  { intros m s Hin. apply Hch. by right. }
  { intros m ns Hm Hns. destruct (Hother m Hm) as [Hmo Hnm].
    destruct (below_apart path name m ns) as [Hb Hp]; [done|by constructor|done|].
    rewrite Huntouched2, Hne1 by done. apply Hfree; [by right|done]. }
  exists out'. split_and!.
  - cbn [each_changed]. fold path'. fold out1. by rewrite E2.
  - done.
  - intros m ns Hm Hns. apply elem_of_cons in Hm as [->|Hm]; [|by apply Htold]. cbn [fst].
    assert (Hkeep : bt_get (join path (name :: ns)) out' = bt_get (join path (name :: ns)) out2).
    { apply Huntouched. intros m ms Hm Hms E. destruct (Hother m Hm) as [Hmo Hnm].
      apply join_inj in E as [-> _]; [done|by constructor..]. }
    rewrite Hkeep. destruct ns as [|m ns].
    + change (join path [name]) with path'. rewrite Huntouched2 by (by apply below_not_self). exact Hself.
    + change (join path (name :: m :: ns)) with (join path' (m :: ns)). by apply Hrec2.
  - intros p Hp. rewrite Huntouched.
    + rewrite Huntouched2, Hne1; [done| |].
      * change path' with (join path [name]). apply Hp; [by left|done].
      * intros (ns & _ & Hns & ->). by apply (Hp name ns); [left|done|].
    + intros m ms Hm Hms. apply Hp; [by right|done].
Qed.

(** The distribution below a path. *)
Lemma collect_trans_spec k : rec_ok k (collect_trans (S k)).
Proof.
  induction k as [|k IH]; intros trans path out o n Ht Hd Hok Hfree;
    destruct (changed_tells _ trans o n Ht Hd) as (sides & E & Hcok & Hct & Hcd & Hnm & Hzero).
  - specialize (Hzero eq_refl). subst sides. exists out. cbn [collect_trans]. rewrite E. split; [done|].
    split_and!; [done| |done]. intros [|name ns] Hne Hns; [done|].
    rewrite Hfree by (exists (name :: ns); done). intros l. simpl.
    pose proof (tells_nil _ _ (Hct name) l) as El. simpl in El. by rewrite El.
  - destruct (each_changed_spec k (collect_trans (S k)) path (changed_names sides) out o n)
      as (out' & E' & Hok' & Htold & Huntouched); [done..| |done| |].
    + intros name sub Hin%bt_elem_get; [|done]. split_and!; [by eapply Hnm| |].
      * specialize (Hct name). by rewrite Hin in Hct.
      * specialize (Hcd name). by rewrite Hin in Hcd.
    + intros name ns ([name' sub] & -> & Hin)%list_elem_of_fmap Hns. apply bt_elem_get in Hin; [|done].
      apply Hfree. exists (name' :: ns). split_and!; [done|constructor; [by eapply Hnm|done]|done].
    + exists out'. cbn [collect_trans]. rewrite E. split; [exact E'|].
      assert (Hkeys : ∀ name, name ∈ (changed_names sides).*1 → name_ok name).
      { intros name ([name' sub] & -> & Hin)%list_elem_of_fmap. apply bt_elem_get in Hin; [|done]. by eapply Hnm. }
      split_and!; [done| |].
      * intros [|name ns] Hne Hns; [done|]. pose proof Hns as [Hn Hns']%Forall_cons.
        destruct (decide (name ∈ (changed_names sides).*1)) as [Hin|Hin]; [by apply Htold|].
        rewrite Huntouched, Hfree.
        -- intros l. simpl. destruct (bt_get name (changed_names sides)) as [sub|] eqn:Eg.
           { exfalso. apply Hin, list_elem_of_fmap. apply bt_get_elem in Eg. by exists (name, sub). }
           specialize (Hct name). rewrite Eg in Hct.
           pose proof (tells_nil _ _ Hct l) as El. simpl in El. by rewrite El.
        -- by exists (name :: ns).
        -- intros m ms Hm Hms Ej. apply join_inj in Ej as [-> _]; [done|done|].
           constructor; [by apply Hkeys|done].
      * intros p Hp. apply Huntouched. intros m ms Hm Hms ->. apply Hp. exists (m :: ms).
        split_and!; [done|constructor; [by apply Hkeys|done]|done].
Qed.

(** *** A revision *)

(** The transition of a lane. *)
Fixpoint trans_of (lane : nat) (trans : list Trans) : option (option Ent * option Ent) :=
  match trans with
  | [] => None
  | (l, o, n) :: trans => if decide (l = lane) then Some (o, n) else trans_of lane trans
  end.

(** The lanes' roots before and after a revision, [cur] for the lanes it does
    not name. *)
Definition old_root (cur : nat → option Ent) (trans : list Trans) (l : nat) : option Ent :=
  match trans_of l trans with Some (o, _) => o | None => cur l end.
Definition new_root (cur : nat → option Ent) (trans : list Trans) (l : nat) : option Ent :=
  match trans_of l trans with Some (_, n) => n | None => cur l end.

Lemma trans_of_elem l trans o n :
  NoDup (trans.*1.*1) → trans_of l trans = Some (o, n) ↔ (l, o, n) ∈ trans.
Proof.
  induction trans as [|[[l' o'] n'] trans IH]; intros Hnd; simpl.
  - split; [done|]. by intros ?%elem_of_nil.
  - apply NoDup_cons in Hnd as [Hn Hnd]. rewrite elem_of_cons, <- (IH Hnd). case_decide as E; [subst|].
    + split; [intros [= -> ->]; by left|]. intros [[= -> ->]|Hin]; [done|]. apply (IH Hnd) in Hin.
      exfalso. apply Hn, list_elem_of_fmap. exists (l, o). split; [done|]. apply list_elem_of_fmap. by exists (l, o, n).
    + split; [by right|]. intros [[= ? _ _]|?]; [congruence|done].
Qed.

(** Transitions of whole trees: one per lane, a tree or nothing on each side. *)
Definition whole (o : option Ent) : Prop := ∀ e, o = Some e → is_dir e = true.
Record roots_ok (k : nat) (trans : list Trans) : Prop := {
  ro_lanes : NoDup (trans.*1.*1);
  ro_whole : ∀ l o n, (l, o, n) ∈ trans → whole o ∧ whole n;
  ro_deep : deep_all k trans
}.

Lemma whole_flips o n : whole o → whole n → flips o n = false.
Proof.
  intros Ho Hn. destruct o as [a|], n as [b|]; try done. simpl. by rewrite (Ho a), (Hn b).
Qed.

Lemma roots_tell k cur trans : roots_ok k trans → tells trans (old_root cur trans) (new_root cur trans).
Proof.
  intros [Hnd Hw _]. split.
  - intros l a b Hin. destruct (Hw _ _ _ Hin) as [Ha Hb].
    assert (E : trans_of l trans = Some (a, b)) by (by apply trans_of_elem).
    unfold part, old_root, new_root. rewrite E. by rewrite whole_flips.
  - intros l a b [Hne Hp]. unfold old_root, new_root, part in *.
    destruct (trans_of l trans) as [[o n]|] eqn:E; [|done]. apply (trans_of_elem _ _ _ _ Hnd) in E.
    destruct (Hw _ _ _ E). rewrite whole_flips in Hp by done. destruct Hp as [-> ->]. done.
Qed.

(** What the records of a path make of its slots. *)
Lemma told_slots sub o n s :
  slots_ok s → (∀ l v, holds s l v ↔ file_of (o l) = Some v) → told sub o n →
  match sub with
  | Some sub => ∃ s' changes, reslot (new_variant_set s sub) s = Some (s', changes) ∧ slots_ok s' ∧
                  ∀ l v, holds s' l v ↔ file_of (n l) = Some v
  | None => ∀ l v, holds s l v ↔ file_of (n l) = Some v
  end.
Proof.
  intros Hs Hold Htold. destruct sub as [sub|]; [|intros l v; by rewrite Hold, Htold].
  destruct (path_transition s sub Hs) as (s' & ch & E & Hs' & Hh & _). exists s', ch. split_and!; [done..|].
  destruct Htold as [Hp He]. intros l v. rewrite Hh.
  assert (Hlane : l ∈ sub.*1.*1 ↔ ∃ a b, (l, a, b) ∈ sub).
  { rewrite <- list_fmap_compose, list_elem_of_fmap. split.
    - intros ([[l' a] b] & -> & Hin). eauto.
    - intros (a & b & Hin). by exists (l, a, b). }
  case_decide as Hl.
  - apply Hlane in Hl as (a & b & Hin). split.
    + intros ([[l' x] y] & Hin' & El & Hf). simpl in El. subst l'. pose proof (Hp _ _ _ Hin') as Hpt.
      unfold part in Hpt. unfold new_file in Hf. simpl in Hf. unfold file_of.
      destruct (flips (o l) (n l)); [destruct Hpt as [[-> ->]|[-> ->]]|destruct Hpt as [-> ->]]; done.
    + intros Hf. pose proof (Hp _ _ _ Hin) as Hpt. unfold part in Hpt. destruct (flips (o l) (n l)) eqn:F.
      * exists (l, None, n l). split_and!; [|done|done]. apply He. split; [|unfold part; rewrite F; by right].
        intros Eq. rewrite Eq in F. destruct (n l); simpl in F; [by rewrite xorb_nilpotent in F|done].
      * destruct Hpt as [-> ->]. by exists (l, o l, n l).
  - rewrite Hold. destruct (decide (o l = n l)) as [->|Hne]; [done|]. exfalso. apply Hl, Hlane.
    destruct (flips (o l) (n l)) eqn:F.
    + exists (o l), None. apply He. split; [done|]. unfold part. rewrite F. by left.
    + exists (o l), (n l). apply He. split; [done|]. unfold part. by rewrite F.
Qed.

End collect.

(** *** Shards *)

Lemma fnv_bound path h : 0 ≤ h < u64_limit → 0 ≤ foldl fnv_step h path < u64_limit.
Proof.
  revert h. induction path as [|b path IH]; intros h Hh; [done|]. simpl. apply IH.
  unfold fnv_step. by apply Z.mod_pos_bound.
Qed.

Lemma shard_of_bound path bits : (bits < 64)%nat → (shard_of path bits < 2 ^ bits)%nat.
Proof.
  intros Hb. unfold shard_of. destruct (bits =? 0)%nat eqn:E0.
  - apply Nat.eqb_eq in E0 as ->. simpl. lia.
  - apply Nat.eqb_neq in E0. pose proof (fnv_bound path 14695981039346656037 ltac:(done)) as Hh.
    set (h := foldl _ _ _) in *. rewrite Z.shiftr_div_pow2 by lia.
    apply Nat2Z.inj_lt. rewrite Z2Nat.id by (apply Z.div_pos; lia). rewrite Nat2Z.inj_pow.
    apply Z.div_lt_upper_bound; [lia|]. rewrite <- Z.pow_add_r by lia.
    replace (64 - Z.of_nat bits + Z.of_nat bits) with 64 by lia. apply Hh.
Qed.

(** Each record is in the shard of its path and in no other. *)
Definition shard_get (per : list PathTrans) (i : nat) (p : bytes) : option (list Trans) := per !! i ≫= bt_get p.

Lemma split_shards_spec bits all per :
  (bits < 64)%nat → bt_ok all = true → length per = (2 ^ bits)%nat →
  (∀ i p, is_Some (shard_get per i p) → bt_get p all = None) →
  ∃ per', split_shards bits all per = Some per' ∧ length per' = (2 ^ bits)%nat ∧
    ∀ i p, shard_get per' i p =
      if decide (i = shard_of p bits ∧ is_Some (bt_get p all)) then bt_get p all else shard_get per i p.
Proof.
  intros Hb. revert per. induction all as [|[q t] all IH]; intros per Hok Hlen Hfree.
  { exists per. split_and!; [done..|]. intros i p. rewrite decide_False; [done|]. by intros [_ [? [=]]]. }
  pose proof (shard_of_bound q bits Hb) as Hq.
  destruct (lookup_lt_is_Some_2 per (shard_of q bits)) as [old Hold]; [lia|].
  assert (Hstep : split_shards bits ((q, t) :: all) per = split_shards bits all (<[shard_of q bits := bt_insert q t old]> per)).
  { cbn [split_shards]. by rewrite Hold. }
  rewrite Hstep. clear Hstep.
  pose proof Hok as [Hlt Hok']%bt_ok_cons.
  assert (Hget : ∀ p, bt_get p ((q, t) :: all) = if decide (p = q) then Some t else bt_get p all).
  { intros p. case_decide as E; [subst; by rewrite bt_get_cons_eq|by rewrite bt_get_cons_ne]. }
  assert (Hnone : bt_get q all = None) by (by apply bt_get_below).
  assert (Hnew : ∀ i p, shard_get (<[shard_of q bits := bt_insert q t old]> per) i p =
    if decide (i = shard_of q bits ∧ p = q) then Some t else shard_get per i p).
  { intros i p. unfold shard_get. destruct (decide (i = shard_of q bits)) as [->|Hne].
    - rewrite Hold, list_lookup_insert_eq by lia. cbn [mbind option_bind]. rewrite bt_get_insert.
      destruct (decide (p = q)) as [->|]; [by rewrite !decide_True|]. by rewrite (decide_False (P := _ ∧ _)) by tauto.
    - rewrite list_lookup_insert_ne by done. by rewrite decide_False by tauto. }
  destruct (IH (<[shard_of q bits := bt_insert q t old]> per)) as (per' & E & Hlen' & Hall).
  - done.
  - by rewrite length_insert.
  - intros i p. rewrite Hnew. case_decide as Ec; [by destruct Ec as [_ ->]|]. intros Hs%Hfree.
    rewrite Hget in Hs. by destruct (decide (p = q)).
  - exists per'. split_and!; [done..|]. intros i p. rewrite Hall, Hnew, Hget.
    destruct (decide (p = q)) as [->|Hpq].
    + rewrite Hnone. rewrite (decide_False (P := _ ∧ is_Some None)) by (by intros [_ [? [=]]]).
      destruct (decide (i = shard_of q bits)) as [->|Hi]; [by rewrite !decide_True|by rewrite !decide_False by tauto].
    + rewrite (decide_False (P := _ ∧ p = q)) by tauto. done.
Qed.

Lemma shard_get_replicate n i p : shard_get (replicate n []) i p = None.
Proof.
  unfold shard_get. destruct (replicate n [] !! i) as [m|] eqn:E; [|done].
  by apply lookup_replicate in E as [-> _].
Qed.

(** C6. One revision of the union, git's side: the transitions of the lanes'
    root trees, distributed down the changed directories and routed to the
    shards, leave the slots of every path right.  For every path of valid
    names, slots that held exactly the lanes' files there before the revision
    hold exactly the lanes' files after it, once the records the shard of the
    path got for it are applied; where it got none, no lane's file changed.  No
    other shard has a record of the path, and a depth of directories as fuel is
    enough. *)
Theorem revision_reaches_lanes `{Objects} k bits cur trans :
  (bits < 64)%nat → roots_ok k trans →
  ∃ per, route_trans (S k) trans bits = Some (Ok per) ∧ length per = (2 ^ bits)%nat ∧
    ∀ names, names ≠ [] → Forall name_ok names →
      let p := join [] names in
      (∀ i, i ≠ shard_of p bits → shard_get per i p = None) ∧
      ∀ s, slots_ok s → (∀ l v, holds s l v ↔ file_of (at_path (old_root cur trans l) names) = Some v) →
        match shard_get per (shard_of p bits) p with
        | Some sub => ∃ s' changes, reslot (new_variant_set s sub) s = Some (s', changes) ∧ slots_ok s' ∧
                        ∀ l v, holds s' l v ↔ file_of (at_path (new_root cur trans l) names) = Some v
        | None => ∀ l v, holds s l v ↔ file_of (at_path (new_root cur trans l) names) = Some v
        end.
Proof.
  intros Hb Hr. destruct (collect_trans_spec k trans [] [] _ _ (roots_tell k cur trans Hr) (ro_deep _ _ Hr) eq_refl)
    as (all & E & Hok & Htold & _); [done|].
  destruct (split_shards_spec bits all (replicate (2 ^ bits)%nat []) Hb Hok) as (per & E' & Hlen & Hget).
  { by rewrite length_replicate. }
  { intros i p [? Hs]. by rewrite shard_get_replicate in Hs. }
  exists per. unfold route_trans. rewrite E, E'. split; [done|]. split; [done|]. intros names Hne Hnames. cbv zeta. set (p := join [] names). split.
  - intros i Hi. rewrite Hget, decide_False by tauto. apply shard_get_replicate.
  - intros s Hs Hold. assert (Hp : shard_get per (shard_of p bits) p = bt_get p all).
    { rewrite Hget. case_decide as Ed; [done|]. rewrite shard_get_replicate.
      destruct (bt_get p all) eqn:Ep; [|done]. exfalso. apply Ed. eauto. }
    rewrite Hp. eapply told_slots; [done|exact Hold|]. by apply Htold.
Qed.

(** A store of two trees: lane 0 edits a file of a subdirectory that lane 1
    keeps. *)
Definition demo_file (c : Z) : Ent := MkEnt [49; 48; 48; 54; 52; 52] [c] false.
Definition demo_dir (c : Z) : Ent := MkEnt DIR_MODE [c] true.
Definition demo_tree (o : bytes) : Result (list (bytes * Ent)) Error :=
  if bytes_eqb o [65] then Ok [([102], demo_file 1); ([115], demo_dir 66)]
  else if bytes_eqb o [66] then Ok [([103], demo_file 2)]
  else if bytes_eqb o [67] then Ok [([102], demo_file 1); ([115], demo_dir 68)]
  else if bytes_eqb o [68] then Ok [([103], demo_file 3)]
  else Err (Missing o).
Definition demo_objects : Objects := {| tree := demo_tree; blob := λ o, Err (Missing o) |}.

Lemma demo_tree_ok o l : demo_tree o = Ok l → tree_ok l.
Proof.
  unfold demo_tree.
  repeat (destruct (bytes_eqb o _); [intros [= <-]; split;
    [by repeat constructor|by apply (bool_decide_eq_true_1 _)|by repeat constructor]|]). intros [=].
Qed.

Lemma demo_roots_ok : @roots_ok demo_objects 2 [(O, Some (demo_dir 65), Some (demo_dir 67))].
Proof.
  split.
  - apply NoDup_singleton.
  - intros l o n [= -> -> ->]%list_elem_of_singleton. split; by intros e [= <-].
  - intros l o n [= -> -> ->]%list_elem_of_singleton. split; eexists; (split; [reflexivity|]).
    + split; [by apply (demo_tree_ok [65])|]. constructor; [done|]. constructor; [|done].
      eexists. split; [reflexivity|]. split; [by apply (demo_tree_ok [66])|by repeat constructor].
    + split; [by apply (demo_tree_ok [67])|]. constructor; [done|]. constructor; [|done].
      eexists. split; [reflexivity|]. split; [by apply (demo_tree_ok [68])|by repeat constructor].
Qed.

Lemma revision_reaches_lanes_witness :
  @roots_ok demo_objects 2 [(O, Some (demo_dir 65), Some (demo_dir 67))] ∧
  ∃ per, @route_trans demo_objects 3 [(O, Some (demo_dir 65), Some (demo_dir 67))] 0 = Some (Ok per) ∧
    shard_get per 0 [115; 47; 103] = Some [(O, Some (demo_file 2), Some (demo_file 3))].
Proof.
  split; [exact demo_roots_ok|].
  destruct (@revision_reaches_lanes demo_objects 2 0 (λ _, Some (demo_dir 65))
    [(O, Some (demo_dir 65), Some (demo_dir 67))]) as (per & E & _); [lia|exact demo_roots_ok|].
  exists per. split; [exact E|]. vm_compute in E. injection E as <-. reflexivity.
Defined.

End TreeLaws.
