(* ===== verification/GitLayer.v ===== *)
(** The variant tree of the git mirror ([chupa/gitdepot/src/layer.rs]): how
    modes, file slots and directories are names and nodes of a layer, and the
    two orders on them.

    The walkers over encoded unions are in [GitEntries.v] and [GitStacked.v]. *)
From S2P Require Import Prelude.
From S2P Require Import BTreeMap.
From S2P Require Import DepotModel.
From S2P Require Import DepotCodec.
From S2P Require Import GitTree.
Import GitTree.

Local Open Scope Z_scope.

Module GitLayer.

(** [const LANES] and the mode tags *)
Definition LANES : bytes := [108; 97; 110; 101; 115].
Definition TAG_EXEC : bytes := [120].
Definition TAG_SYMLINK : bytes := [108].
Definition TAG_GITLINK : bytes := [109].
Definition TAG_OTHER : bytes := [111].

(** *** Modes *)

(** [enum Mode] *)
Inductive Mode : Type :=
| File
| Exec
| Symlink
| Gitlink
| Other (m : Z).

#[export] Instance mode_eq_dec : EqDecision Mode.
Proof. solve_decision. Defined.

(** [u32::from_str_radix(s, 8)]: a sign [+], then digits *)
Fixpoint octal_digits (acc : Z) (s : bytes) : option Z :=
  match s with
  | [] => Some acc
  | c :: s =>
      if (48 <=? c) && (c <=? 55) then
        let acc := acc * 8 + (c - 48) in
        if acc <? u32_limit then octal_digits acc s else None
      else None
  end.
Definition from_str_radix_8 (s : bytes) : option Z :=
  match s with
  | [] => None
  | [c] => octal_digits 0 [c]
  | c :: rest => if c =? 43 then octal_digits 0 rest else octal_digits 0 s
  end.

(** [mode_num]; bytes that are not UTF-8 are not digits either *)
Definition mode_num (b : bytes) : Z := default 0 (from_str_radix_8 b).

(** [format!("{m:o}")] of a [u32]: eleven digits at most *)
Fixpoint format_octal (fuel : nat) (m : Z) : bytes :=
  match fuel with
  | O => []
  | S f => if m <? 8 then [48 + m] else format_octal f (m / 8) ++ [48 + m mod 8]
  end.

Definition OCT_FILE : bytes := [49; 48; 48; 54; 52; 52].
Definition OCT_EXEC : bytes := [49; 48; 48; 55; 53; 53].
Definition OCT_SYMLINK : bytes := [49; 50; 48; 48; 48; 48].
Definition OCT_GITLINK : bytes := [49; 54; 48; 48; 48; 48].

(** [Mode::octal] *)
Definition octal (m : Mode) : bytes :=
  match m with
  | File => OCT_FILE
  | Exec => OCT_EXEC
  | Symlink => OCT_SYMLINK
  | Gitlink => OCT_GITLINK
  | Other m => format_octal 11 m
  end.

(** [Mode::from_octal]; [0o170000] and [0o040000] *)
Definition from_octal (mode : bytes) : option Mode :=
  if bytes_eqb mode OCT_FILE then Some File
  else if bytes_eqb mode OCT_EXEC then Some Exec
  else if bytes_eqb mode OCT_SYMLINK then Some Symlink
  else if bytes_eqb mode OCT_GITLINK then Some Gitlink
  else
    let n := mode_num mode in
    if (n =? 0) || (Z.land n 61440 =? 16384) then None else Some (Other n).

(** [Mode::tag] *)
Definition tag (m : Mode) : option bytes :=
  match m with
  | File => None
  | Exec => Some TAG_EXEC
  | Symlink => Some TAG_SYMLINK
  | Gitlink => Some TAG_GITLINK
  | Other _ => Some TAG_OTHER
  end.

(** [tag_mode] *)
Definition tag_mode (name : bytes) (blob : option bytes) : option Mode :=
  if bytes_eqb name TAG_EXEC then Some Exec
  else if bytes_eqb name TAG_SYMLINK then Some Symlink
  else if bytes_eqb name TAG_GITLINK then Some Gitlink
  else if bytes_eqb name TAG_OTHER then Some (Other (mode_num (default [] blob)))
  else None.

(** *** Names *)

(** [get_varint]; a shift past the word wraps, as in a release build *)
Fixpoint get_varint_from (i v : Z) (bs : bytes) : option Z :=
  match bs with
  | [] => None
  | b :: bs =>
      let v := Z.lor v (Z.shiftl (Z.land b 127) ((7 * i) mod 64) mod u64_limit) in
      if Z.land b 128 =? 0 then (if bs is [] then Some v else None)
      else get_varint_from (i + 1) v bs
  end.
Definition get_varint (bs : bytes) : option Z := get_varint_from 0 0 bs.

(** [file_key] and [dir_key] *)
Definition file_key (name : bytes) (slot : Z) : bytes := put_varint (name ++ [0]) slot.
Definition dir_key (name : bytes) : bytes := name.

(** [enum Kind] *)
Inductive Kind : Type :=
| KDir (name : bytes)
| KFile (name : bytes) (slot : Z).

(** [classify] *)
Definition classify (name : bytes) : option Kind :=
  match position 0 name with
  | Some nul =>
      match get_varint (drop (S nul) name) with
      | Some slot => if slot <? u32_limit then Some (KFile (take nul name) slot) else None
      | None => None
      end
  | None => Some (KDir name)
  end.

(** [Option<u8>] as ordered by Rust: [None] first *)
Definition opt_cmp (a b : option Z) : comparison :=
  match a, b with
  | None, None => Eq
  | None, Some _ => Lt
  | Some _, None => Gt
  | Some x, Some y => x ?= y
  end.

(** The next byte of a container key past a prefix. *)
Definition key_char (name : bytes) (i : nat) (dir : bool) : option Z :=
  match name !! i with Some c => Some c | None => if dir then None else Some 0 end.

(** [container_cmp] *)
Definition container_cmp (a : bytes) (a_dir : bool) (b : bytes) (b_dir : bool) : comparison :=
  let m := (length a `min` length b)%nat in
  match cmp (take m a) (take m b) with
  | Eq => opt_cmp (key_char a m a_dir) (key_char b m b_dir)
  | other => other
  end.

(** The git name and kind of a container name, as [entry_cmp] reads it. *)
Definition git_name (a : bytes) : bytes * bool :=
  match classify a with
  | Some (KDir n) => (n, true)
  | Some (KFile n _) => (n, false)
  | None => (a, false)
  end.

(** [entry_cmp] *)
Definition entry_cmp (a b : bytes) : comparison :=
  let '(an, ad) := git_name a in
  let '(bn, bd) := git_name b in
  let m := (length an `min` length bn)%nat in
  match cmp (take m an) (take m bn) with
  | Eq => next_char an m ad ?= next_char bn m bd
  | other => other
  end.

(** [container_path_cmp]: segment by segment; the fuel bounds the segments *)
Fixpoint container_path_cmp_from (fuel : nat) (a : bytes) (aslot : Z) (b : bytes) (bslot : Z) : option comparison :=
  match fuel with
  | O => None
  | S f =>
      match position 47 a, position 47 b with
      | Some i, Some j =>
          match cmp (take i a) (take j b) with
          | Eq => container_path_cmp_from f (drop (S i) a) aslot (drop (S j) b) bslot
          | o => Some o
          end
      | None, None => Some (cmp (file_key a aslot) (file_key b bslot))
      | Some i, None => Some (cmp (dir_key (take i a)) (file_key b bslot))
      | None, Some j => Some (cmp (file_key a aslot) (dir_key (take j b)))
      end
  end.
Definition container_path_cmp (a : bytes) (aslot : Z) (b : bytes) (bslot : Z) : option comparison :=
  container_path_cmp_from (S (length a)) a aslot b bslot.

(** *** Variant nodes *)

Definition tagged (b : bytes) : Node := MkNode Live (SetBlob b) false None Lower [].

(** The blob of a mode's tag: the digits of an uncommon mode. *)
Definition tag_blob (mode : Mode) : bytes := match mode with Other m => format_octal 11 m | _ => [] end.

(** [variant_node] *)
Definition variant_node (content : bytes) (mode : Mode) (bitmap : option bytes) : Node :=
  let cs := match tag mode with Some t => bt_insert t (tagged (tag_blob mode)) [] | None => [] end in
  let cs := match bitmap with Some bm => bt_insert LANES (tagged bm) cs | None => cs end in
  MkNode Live (SetBlob content) false None Lower cs.

(** [push_seg]: the path with the segment; the caller truncates back *)
Definition push_seg (path seg : bytes) : bytes := push_name path seg.

(** *** [String::from_utf8_lossy] *)

(** The ranges of the bytes after a leading byte; [None] for a byte that leads
    nothing. *)
Definition utf8_tail (x : Z) : option (list (Z * Z)) :=
  if (194 <=? x) && (x <=? 223) then Some [(128, 191)]
  else if x =? 224 then Some [(160, 191); (128, 191)]
  else if x =? 237 then Some [(128, 159); (128, 191)]
  else if (225 <=? x) && (x <=? 239) then Some [(128, 191); (128, 191)]
  else if x =? 240 then Some [(144, 191); (128, 191); (128, 191)]
  else if (241 <=? x) && (x <=? 243) then Some [(128, 191); (128, 191); (128, 191)]
  else if x =? 244 then Some [(128, 143); (128, 191); (128, 191)]
  else None.

(** As many bytes as fit the ranges: those, the rest, and whether all did. *)
Fixpoint take_ranges (rs : list (Z * Z)) (b : bytes) : bytes * bytes * bool :=
  match rs, b with
  | [], _ => ([], b, true)
  | (lo, hi) :: rs, y :: b' =>
      if (lo <=? y) && (y <=? hi) then let '(g, r, ok) := take_ranges rs b' in (y :: g, r, ok)
      else ([], b, false)
  | _ :: _, [] => ([], [], false)
  end.

(** U+FFFD *)
Definition REPLACEMENT : bytes := [239; 191; 189].

Fixpoint utf8_lossy (fuel : nat) (b : bytes) : bytes :=
  match fuel, b with
  | O, _ | _, [] => []
  | S f, x :: b =>
      if x <? 128 then x :: utf8_lossy f b
      else match utf8_tail x with
           | None => REPLACEMENT ++ utf8_lossy f b
           | Some rs =>
               let '(g, r, ok) := take_ranges rs b in
               (if ok : bool then x :: g else REPLACEMENT) ++ utf8_lossy f r
           end
  end.
Definition from_utf8_lossy (b : bytes) : bytes := utf8_lossy (length b) b.

(** *** Rebuilding a lane's tree for its object id *)

(** [enum TNode] *)
Inductive TNode : Type :=
| TFile (mode : Mode) (content : bytes)
| TDir (dir : list (bytes * TNode)).

(** [tnode_insert]; a segment that is already a file swallows what is below it *)
Fixpoint tnode_insert (fuel : nat) (dir : btmap bytes TNode) (path : bytes) (mode : Mode) (content : bytes)
    : option (btmap bytes TNode) :=
  match fuel with
  | O => None
  | S f =>
      match position 47 path with
      | Some sl =>
          let seg := take sl path in
          match default (TDir []) (bt_get seg dir) with
          | TDir m =>
              m' ← tnode_insert f m (drop (S sl) path) mode content;
              Some (bt_insert seg (TDir m') dir)
          | TFile _ _ => Some dir
          end
      | None => Some (bt_insert path (TFile mode content) dir)
      end
  end.

(** [enum HashKind] *)
Inductive HashKind : Type := Sha1 | Sha256.
Definition oid_len (k : HashKind) : nat := match k with Sha1 => 20 | Sha256 => 32 end.

(** The crates [sha1], [sha2] and [hex]. *)
Class HashCrates : Type := {
  digest : HashKind → bytes → bytes;
  hex_encode : bytes → bytes;
  hex_decode : bytes → option bytes
}.

(** The decimal digits of a length: twenty at most for a [usize] *)
Fixpoint format_decimal (fuel : nat) (n : Z) : bytes :=
  match fuel with
  | O => []
  | S f => if n <? 10 then [48 + n] else format_decimal f (n / 10) ++ [48 + n mod 10]
  end.

Section hashing.
Context `{HashCrates}.

(** [HashKind::obj_digest] and [HashKind::obj_oid] *)
Definition obj_digest (k : HashKind) (typ body : bytes) : bytes :=
  digest k (typ ++ [32] ++ format_decimal 20 (zlen body) ++ [0] ++ body).
Definition obj_oid (k : HashKind) (typ body : bytes) : bytes :=
  hex_encode (take (oid_len k) (obj_digest k typ body)).

Definition BLOB : bytes := [98; 108; 111; 98].
Definition TREE : bytes := [116; 114; 101; 101].

(** [entries.sort_by(|a, b| a.0.cmp(&b.0))]: a stable sort by key *)
Fixpoint insert_raw (x : bytes * bytes) (l : list (bytes * bytes)) : list (bytes * bytes) :=
  match l with
  | [] => [x]
  | y :: l' => match cmp x.1 y.1 with Gt => y :: insert_raw x l' | _ => x :: l end
  end.
Definition sort_raw (l : list (bytes * bytes)) : list (bytes * bytes) := foldr insert_raw [] l.

(** The raw entry of a tree object: mode, space, name, NUL, binary id. *)
Definition raw_entry (mode name : bytes) (oid : bytes) : option bytes :=
  raw ← hex_decode oid; Some (mode ++ [32] ++ name ++ [0] ++ raw).

(** [tree_oid] *)
Fixpoint tree_oid (kind : HashKind) (t : TNode) : option (bytes * bytes * bool) :=
  match t with
  | TFile mode content =>
      Some (octal mode,
            if decide (mode = Gitlink) then from_utf8_lossy content else obj_oid kind BLOB content, false)
  | TDir dir =>
      entries ← (fix go (dir : list (bytes * TNode)) : option (list (bytes * bytes)) :=
        match dir with
        | [] => Some []
        | (name, node) :: dir =>
            '(mode_bytes, oid, is_dir) ← tree_oid kind node;
            raw ← raw_entry mode_bytes name oid;
            rest ← go dir;
            Some ((name ++ (if is_dir : bool then [47] else []), raw) :: rest)
        end) dir;
      Some (DIR_MODE, obj_oid kind TREE (concat (sort_raw entries).*2), true)
  end.

(** The loop of [tree_oid_of_entries] *)
Fixpoint insert_entries (dir : btmap bytes TNode) (entries : list (bytes * Mode * bytes)) : option (btmap bytes TNode) :=
  match entries with
  | [] => Some dir
  | (path, mode, content) :: entries =>
      dir ← tnode_insert (S (length path)) dir path mode content;
      insert_entries dir entries
  end.

(** [tree_oid_of_entries] *)
Definition tree_oid_of_entries (kind : HashKind) (entries : list (bytes * Mode * bytes)) : option bytes :=
  dir ← insert_entries [] entries;
  '(_, oid, _) ← tree_oid kind (TDir dir);
  Some oid.

End hashing.

End GitLayer.
