(* ===== verification/GitLayerLaws.v ===== *)
(** The names and modes of the variant tree are faithful: a key classifies back
    to the file slot or the directory it was made from, a mode to itself, and
    the two orders are the byte order of the keys and git's order of trees. *)
From S2P Require Import Prelude.
From S2P Require Import BTreeMap.
From S2P Require Import DepotModel.
From S2P Require Import DepotCodec.
From S2P Require Import GitSlots.
From S2P Require Import GitTree.
From S2P Require Import GitTreeLaws.
From S2P Require Import GitLayer.
Import GitTree.
Import TreeLaws.
Import GitLayer.

Local Open Scope Z_scope.

Module LayerLaws.

(** *** Names *)

Lemma position_app_fresh x l m : x ∉ l → position x (l ++ x :: m) = Some (length l).
Proof.
  induction l as [|y l IH]; intros Hx; simpl; [by rewrite Z.eqb_refl|].
  apply not_elem_of_cons in Hx as [Hne Hx]. rewrite (proj2 (Z.eqb_neq y x)) by congruence. by rewrite IH.
Qed.

Lemma position_none x l : position x l = None ↔ x ∉ l.
Proof.
  induction l as [|y l IH]; simpl; [split; [intros _; apply not_elem_of_nil|done]|].
  rewrite not_elem_of_cons. destruct (Z.eqb_spec y x) as [->|Hne]; [split; [done|naive_solver]|].
  rewrite fmap_None, IH. naive_solver.
Qed.

Lemma get_varint_from_put rounds i acc v :
  0 ≤ i → (1 ≤ rounds)%nat → 0 ≤ v → v < 2 ^ (7 * Z.of_nat rounds) → v * 2 ^ (7 * i) < u64_limit → 7 * i < 64 →
  get_varint_from i acc (put_varint_loop rounds [] v) = Some (Z.lor acc (Z.shiftl v (7 * i))).
Proof.
  revert i acc v. induction rounds as [|r IH]; intros i acc v Hi Hr Hv Hb Hw H7; [lia|].
  assert (Hlow : Z.shiftl (Z.land v 127) ((7 * i) mod 64) mod u64_limit = Z.shiftl (Z.land v 127) (7 * i)).
  { rewrite (Z.mod_small (7 * i)) by lia. apply Z.mod_small. rewrite Z.shiftl_mul_pow2 by lia.
    pose proof (Z.land_nonneg v 127). assert (Z.land v 127 ≤ v) by (change 127 with (Z.ones 7); rewrite Z.land_ones by lia; apply Z.mod_le; lia).
    split; [apply Z.mul_nonneg_nonneg; lia|]. eapply Z.le_lt_trans; [|exact Hw]. apply Z.mul_le_mono_nonneg_r; lia. }
  cbn [put_varint_loop]. destruct (Z.eqb_spec (Z.shiftr v 7) 0) as [E|E].
  - cbn [app get_varint_from]. rewrite low_idem, Hlow, last_bit. cbn.
    by rewrite shiftr7_zero.
  - rewrite put_varint_loop_app. cbn [app get_varint_from]. rewrite low_bits, more_bit, Hlow. cbn.
    assert (Hdiv : Z.shiftr v 7 = v / 128) by (by rewrite Z.shiftr_div_pow2 by lia).
    assert (128 ≤ v) by (rewrite Hdiv in E; destruct (Z.lt_ge_cases v 128); [|lia]; exfalso; apply E, Z.div_small; lia).
    assert (Hpow : 2 ^ (7 * (i + 1)) = 128 * 2 ^ (7 * i)).
    { replace (7 * (i + 1)) with (7 + 7 * i) by lia. by rewrite Z.pow_add_r by lia. }
    assert (Hvd : v / 128 * 128 ≤ v) by (pose proof (Z.mul_div_le v 128); lia).
    assert (0 < 2 ^ (7 * i)) by (apply Z.pow_pos_nonneg; lia).
    assert (Hr1 : (1 ≤ r)%nat).
    { destruct r; [|lia]. exfalso. change (2 ^ (7 * Z.of_nat 1)) with 128 in Hb. lia. }
    rewrite IH.
    + f_equal. rewrite <- Z.lor_assoc. f_equal.
      replace (7 * (i + 1)) with (7 * i + 7) by lia. apply shift_split. lia.
    + lia.
    + lia.
    + rewrite Hdiv. apply Z.div_pos; lia.
    + rewrite Hdiv. apply Z.div_lt_upper_bound; [lia|].
      replace 128 with (2 ^ 7) by done. rewrite <- Z.pow_add_r by lia.
      replace (7 + 7 * Z.of_nat r) with (7 * Z.of_nat (S r)) by lia. exact Hb.
    + rewrite Hdiv, Hpow. nia.
    + assert (2 ^ (7 * (i + 1)) < 2 ^ 64).
      { rewrite Hpow. change (2 ^ 64) with u64_limit. nia. }
      apply (Z.pow_lt_mono_r_iff 2) in H1; lia.
Qed.

Lemma get_varint_put v : 0 ≤ v < u64_limit → get_varint (put_varint [] v) = Some v.
Proof.
  intros Hv. unfold get_varint, put_varint. rewrite get_varint_from_put.
  - by rewrite Z.lor_0_l, Z.shiftl_0_r.
  - lia.
  - lia.
  - lia.
  - eapply Z.lt_trans; [apply Hv|done].
  - change (2 ^ (7 * 0)) with 1. lia.
  - lia.
Qed.

Lemma file_key_app name slot : file_key name slot = name ++ 0 :: put_varint [] slot.
Proof. unfold file_key. rewrite put_varint_app. by rewrite <- app_assoc. Qed.

Lemma classify_file name slot :
  (0 ∉ name) → 0 ≤ slot < u32_limit → classify (file_key name slot) = Some (KFile name slot).
Proof.
  intros Hn Hs. unfold classify. rewrite file_key_app, position_app_fresh by done.
  rewrite take_app_length.
  replace (drop (S (length name)) (name ++ 0 :: put_varint [] slot)) with (put_varint [] slot).
  - rewrite get_varint_put by (unfold u32_limit, u64_limit in *; lia). by rewrite (proj2 (Z.ltb_lt _ _)) by lia.
  - rewrite drop_app_ge by lia. replace (S (length name) - length name)%nat with 1%nat by lia. done.
Qed.

Lemma classify_dir name : (0 ∉ name) → classify (dir_key name) = Some (KDir name).
Proof. intros Hn. unfold classify, dir_key. by rewrite (proj2 (position_none 0 name)). Qed.

(** *** The orders *)

(** The container key of an entry. *)
Definition ckey (name : bytes) (dir : bool) (slot : Z) : bytes :=
  if dir then dir_key name else file_key name slot.

Lemma container_cmp_cons x a ad y b bd :
  container_cmp (x :: a) ad (y :: b) bd = match x ?= y with Eq => container_cmp a ad b bd | o => o end.
Proof.
  unfold container_cmp. cbn [length Nat.min take]. unfold cmp at 1, list_ord. cbn [list_cmp].
  unfold cmp at 1, Z_ord. by destruct (x ?= y).
Qed.

Lemma ckey_cons x a ad slot : ckey (x :: a) ad slot = x :: ckey a ad slot.
Proof. unfold ckey. destruct ad; [done|]. by rewrite !file_key_app. Qed.

Lemma list_cmp_cons {A} `{Ord A} (x y : A) (a b : list A) :
  cmp (x :: a) (y :: b) = match cmp x y with Eq => cmp a b | o => o end.
Proof. done. Qed.

(** Names that are free of NUL, of entries that differ. *)
Lemma container_cmp_bytewise a ad aslot b bd bslot :
  (0 ∉ a) → (0 ∉ b) → Forall (Z.le 0) a → Forall (Z.le 0) b → (a, ad) ≠ (b, bd) →
  container_cmp a ad b bd = cmp (ckey a ad aslot) (ckey b bd bslot).
Proof.
  revert b. induction a as [|x a IH]; intros [|y b] Ha Hb Pa Pb Hne.
  - unfold ckey, container_cmp, dir_key. simpl. rewrite !file_key_app. destruct ad, bd; try done.
  - apply not_elem_of_cons in Hb as [Hy _]. apply Forall_cons in Pb as [Py _].
    rewrite ckey_cons. destruct ad; [done|]. change (ckey [] false aslot) with (file_key [] aslot).
    rewrite file_key_app. cbn [app]. rewrite list_cmp_cons. change (cmp 0 y) with (0 ?= y).
    change (container_cmp [] false (y :: b) bd) with (0 ?= y). destruct (0 ?= y) eqn:E; [|done..].
    apply Z.compare_eq in E. congruence.
  - apply not_elem_of_cons in Ha as [Hx _]. apply Forall_cons in Pa as [Px _].
    rewrite ckey_cons. destruct bd; [done|]. change (ckey [] false bslot) with (file_key [] bslot).
    rewrite file_key_app. cbn [app]. rewrite list_cmp_cons. change (cmp x 0) with (x ?= 0).
    change (container_cmp (x :: a) ad [] false) with (x ?= 0). destruct (x ?= 0) eqn:E; [|done..].
    apply Z.compare_eq in E. congruence.
  - apply not_elem_of_cons in Ha as [_ Ha], Hb as [_ Hb]. apply Forall_cons in Pa as [_ Pa], Pb as [_ Pb].
    rewrite container_cmp_cons, !ckey_cons, list_cmp_cons. change (cmp x y) with (x ?= y). destruct (x ?= y) eqn:E; [|done..].
    apply Z.compare_eq in E. subst. apply IH; [done..|]. intros [= -> ->]. done.
Qed.

(** [entry_cmp] on keys is git's order of the entries. *)
Lemma git_name_ckey name dir slot : (0 ∉ name) → 0 ≤ slot < u32_limit → git_name (ckey name dir slot) = (name, dir).
Proof.
  intros Hn Hs. unfold git_name, ckey. destruct dir; [by rewrite classify_dir|by rewrite classify_file].
Qed.

Lemma entry_cmp_git a ad aslot b bd bslot :
  (0 ∉ a) → (0 ∉ b) → 0 ≤ aslot < u32_limit → 0 ≤ bslot < u32_limit →
  entry_cmp (ckey a ad aslot) (ckey b bd bslot) = git_entry_cmp a ad b bd.
Proof. intros Ha Hb Sa Sb. unfold entry_cmp. by rewrite !git_name_ckey. Qed.

(** The keys along a path: directories, then the file. *)
Fixpoint path_keys (names : list bytes) (slot : Z) : list bytes :=
  match names with
  | [] => []
  | [leaf] => [file_key leaf slot]
  | d :: names => dir_key d :: path_keys names slot
  end.

Lemma take_name n t : take (length n) (n ++ t : bytes) = n.
Proof. apply take_app_length. Qed.
Lemma drop_name (n t : bytes) x : drop (S (length n)) (n ++ x :: t) = t.
Proof. rewrite drop_app_ge by lia. by replace (S (length n) - length n)%nat with 1%nat by lia. Qed.

(** A path as [join] writes it: the first name, then the rest after slashes. *)
Lemma join_first n m ms : name_ok n → name_ok m → join [] (n :: m :: ms) = n ++ 47 :: join [] (m :: ms).
Proof. intros Hn Hm. rewrite !join_cons by done. simpl. done. Qed.

Lemma join_one n : join [] [n] = n.
Proof. done. Qed.

Lemma join_length n m ms : name_ok n → name_ok m → (length (join [] (m :: ms)) < length (join [] (n :: m :: ms)))%nat.
Proof. intros Hn Hm. rewrite join_first by done. rewrite length_app. simpl. lia. Qed.

(** The key of a directory is never the key of a file. *)
Lemma dir_file_ne n m slot : name_ok n → dir_key n ≠ file_key m slot.
Proof.
  intros (_ & _ & H0)%name_ok_spec E. unfold dir_key in E. rewrite file_key_app in E. apply H0. rewrite E.
  apply elem_of_app. right. by left.
Qed.

Lemma cmp_first {A} `{OrdLaws A} (x y : A) (xs ys : list A) :
  cmp x y ≠ Eq → cmp x y = cmp (x :: xs) (y :: ys).
Proof. intros Hne. unfold cmp at 2, list_ord. cbn [list_cmp]. by destruct (cmp x y). Qed.

(** Two paths compare as their lists of keys: the order of one container. *)
Lemma container_path_cmp_keys as_ aslot bs bslot :
  as_ ≠ [] → bs ≠ [] → Forall name_ok as_ → Forall name_ok bs →
  container_path_cmp (join [] as_) aslot (join [] bs) bslot = Some (cmp (path_keys as_ aslot) (path_keys bs bslot)).
Proof.
  unfold container_path_cmp. intros Ha Hb Oa Ob.
  assert (Hf : (length (join [] as_) < S (length (join [] as_)))%nat) by lia. revert Hf.
  generalize (S (length (join [] as_))) as fuel. intros fuel. revert fuel bs Hb Ob.
  induction as_ as [|a as_ IH]; [done|]. intros fuel bs Hb Ob Hf.
  destruct fuel as [|fuel]; [lia|]. destruct bs as [|b bs]; [done|]. clear Ha Hb.
  apply Forall_cons in Oa as [Oa Oas], Ob as [Ob Obs].
  pose proof Oa as (_ & Sa & _)%name_ok_spec. pose proof Ob as (_ & Sb & _)%name_ok_spec.
  cbn [container_path_cmp_from].
  destruct as_ as [|a2 as_], bs as [|b2 bs].
  - rewrite !join_one, !(proj2 (position_none 47 _)) by done. cbn [path_keys]. f_equal.
    unfold cmp at 2, list_ord. cbn [list_cmp]. by destruct (cmp (file_key a aslot) _).
  - apply Forall_cons in Obs as [Ob2 Obs]. rewrite join_one, join_first by done.
    rewrite (proj2 (position_none 47 _)), position_app_fresh by done. rewrite take_name. f_equal. cbn [path_keys].
    apply cmp_first. rewrite cmp_eq_iff. intros E. symmetry in E. exact (dir_file_ne b a aslot Ob E).
  - apply Forall_cons in Oas as [Oa2 Oas]. rewrite join_one, join_first by done.
    rewrite position_app_fresh, (proj2 (position_none 47 b)) by done. rewrite take_name. f_equal. cbn [path_keys].
    apply cmp_first. rewrite cmp_eq_iff. intros E. exact (dir_file_ne a b bslot Oa E).
  - apply Forall_cons in Obs as [Ob2 Obs], Oas as [Oa2 Oas]. pose proof (join_length a a2 as_ Oa Oa2) as Hl.
    rewrite !join_first, !position_app_fresh by done. rewrite !take_name, !drop_name.
    rewrite IH; [|done|by constructor|done|by constructor|lia].
    change (path_keys (a :: a2 :: as_) aslot) with (dir_key a :: path_keys (a2 :: as_) aslot).
    change (path_keys (b :: b2 :: bs) bslot) with (dir_key b :: path_keys (b2 :: bs) bslot).
    rewrite list_cmp_cons. unfold dir_key. by destruct (cmp a b).
Qed.

(** *** Modes *)

(** The modes a union stores. *)
Definition mode_okb (m : Mode) : bool :=
  match m with
  | Other n => (0 <? n) && (n <? u32_limit) && negb (Z.land n 61440 =? 16384) &&
               negb (n =? 33188) && negb (n =? 33261) && negb (n =? 40960) && negb (n =? 57344)
  | _ => true
  end.

Lemma octal_digits_app acc s c :
  octal_digits acc (s ++ [c]) = (v ← octal_digits acc s; octal_digits v [c]).
Proof.
  revert acc. induction s as [|d s IH]; intros acc; simpl; [done|].
  destruct (_ && _); [|done]. destruct (_ <? _); [apply IH|done].
Qed.

Lemma octal_digit acc d : 0 ≤ acc → 0 ≤ d < 8 → acc * 8 + d < u32_limit → octal_digits acc [48 + d] = Some (acc * 8 + d).
Proof.
  intros Ha Hd Hl. cbn [octal_digits]. rewrite !(proj2 (Z.leb_le _ _)) by lia. cbn [andb].
  replace (48 + d - 48) with d by lia. by rewrite (proj2 (Z.ltb_lt _ _)) by lia.
Qed.

Lemma octal_digits_format fuel m :
  0 ≤ m < u32_limit → m < 8 ^ Z.of_nat fuel → (1 ≤ fuel)%nat → octal_digits 0 (format_octal fuel m) = Some m.
Proof.
  revert m. induction fuel as [|f IH]; intros m Hm Hb Hf; [lia|]. cbn [format_octal].
  destruct (Z.ltb_spec m 8) as [Hs|Hs].
  - by rewrite octal_digit by lia.
  - pose proof (Z.mod_pos_bound m 8). pose proof (Z.div_mod m 8).
    assert (0 ≤ m / 8) by (apply Z.div_pos; lia). rewrite octal_digits_app, IH.
    + cbn [mbind option_bind]. rewrite octal_digit by lia. f_equal. lia.
    + lia.
    + apply Z.div_lt_upper_bound; [lia|]. replace (8 * 8 ^ Z.of_nat f) with (8 ^ Z.of_nat (S f)); [done|].
      rewrite Nat2Z.inj_succ, Z.pow_succ_r; lia.
    + destruct f; [|lia]. change (8 ^ Z.of_nat 1) with 8 in Hb. lia.
Qed.

(** The digits are digits: no sign, never empty. *)
Lemma format_octal_digits fuel m : 0 ≤ m → Forall (λ c, 48 ≤ c ≤ 55) (format_octal fuel m).
Proof.
  revert m. induction fuel as [|f IH]; intros m Hm; cbn [format_octal]; [done|].
  destruct (Z.ltb_spec m 8); [repeat constructor; lia|]. apply Forall_app.
  pose proof (Z.mod_pos_bound m 8). split; [apply IH, Z.div_pos; lia|repeat constructor; lia].
Qed.

Lemma radix_digits s : Forall (λ c, 48 ≤ c ≤ 55) s → s ≠ [] → from_str_radix_8 s = octal_digits 0 s.
Proof.
  intros Hs Hne. destruct s as [|c [|d s]]; [done..|]. apply Forall_cons in Hs as [Hc _]. simpl.
  by rewrite (proj2 (Z.eqb_neq c 43)) by lia.
Qed.

Lemma mode_num_format m : 0 ≤ m < u32_limit → mode_num (format_octal 11 m) = m.
Proof.
  intros Hm. unfold mode_num. rewrite radix_digits.
  - rewrite octal_digits_format; [done|done| |lia]. eapply Z.lt_trans; [apply Hm|done].
  - apply format_octal_digits. lia.
  - cbn [format_octal]. destruct (m <? 8); [done|]. by intros [_ ?]%app_nil.
Qed.

Lemma format_other m k b : 0 ≤ m < u32_limit → mode_num b = k → m ≠ k → bytes_eqb (format_octal 11 m) b = false.
Proof. intros Hm <- Hne. apply bytes_eqb_ne. intros E. apply Hne. by rewrite <- E, mode_num_format. Qed.

Lemma from_octal_octal m : mode_okb m = true → from_octal (octal m) = Some m.
Proof.
  destruct m as [| | | |n]; [done..|]. cbn [mode_okb octal]. rewrite !andb_true_iff, !negb_true_iff, !Z.ltb_lt, !Z.eqb_neq.
  intros ((((((Hp & Hl) & Hd) & H1) & H2) & H3) & H4). unfold from_octal.
  rewrite (format_other n 33188), (format_other n 33261), (format_other n 40960), (format_other n 57344) by (done || lia).
  rewrite mode_num_format by lia. rewrite (proj2 (Z.eqb_neq n 0)), (proj2 (Z.eqb_neq _ 16384)) by (done || lia). done.
Qed.

Lemma tag_mode_tag m t : mode_okb m = true → tag m = Some t → tag_mode t (Some (tag_blob m)) = Some m.
Proof.
  destruct m as [| | | |n]; intros Hm [= <-]; try done. 
  change (tag_mode TAG_OTHER (Some (tag_blob (Other n)))) with (Some (Other (mode_num (format_octal 11 n)))).
  unfold mode_okb in Hm. rewrite !andb_true_iff, !Z.ltb_lt in Hm. by rewrite mode_num_format by lia.
Qed.

(** A zero-padded mode, as old tools wrote it, is a mode of its own when it is
    read and loses its zero when it is written back, so the tree it came from is
    not rebuilt; a zero-padded directory mode is not a directory and has no
    mode. *)
Example zero_padded_mode_lost :
  from_octal (48 :: OCT_FILE) = Some (Other 33188) ∧ octal (Other 33188) = OCT_FILE ∧
  from_octal (48 :: DIR_MODE) = None ∧
  parse_tree ([48; 52; 48; 48; 48; 48; 32; 100; 0] ++ replicate 20 17)
    = Ok [([100], Slots.MkEnt (48 :: DIR_MODE) (hex (replicate 20 17)) false)].
Proof. vm_compute. done. Qed.

(** *** Strings of ASCII *)

Lemma utf8_lossy_ascii b : Forall (λ x, x < 128) b → from_utf8_lossy b = b.
Proof.
  unfold from_utf8_lossy. induction 1 as [|x b Hx _ IH]; [done|]. cbn [length utf8_lossy].
  rewrite (proj2 (Z.ltb_lt x 128)) by lia. by rewrite IH.
Qed.

End LayerLaws.
