(* ===== verification/GitEntries.v ===== *)
(** The entries of an encoded union ([chupa/gitdepot/src/layer.rs]): the walk
    that visits them ([visit_entries]), the cursor that yields them one by one
    ([EntryCursor]) and a lane's share of them ([extract_lane_entries]); both
    walks yield exactly the file variants of the tree, in its order.

    A visit is the list of what it is called with.  Loops over counts and
    recursion over directories take fuel; the length of the bytes is enough. *)
From S2P Require Import Prelude.
From S2P Require Import BTreeMap.
From S2P Require Import DepotModel.
From S2P Require Import DepotCompose.
From S2P Require Import DepotLaws.
From S2P Require Import DepotCodec.
From S2P Require Import DepotStream.
From S2P Require Import DepotStreamParse.
From S2P Require Import DepotMerge.
From S2P Require Import DepotWalk.
From S2P Require Import GitTree.
From S2P Require Import GitLayer.
Import GitLayer.

Local Open Scope Z_scope.
Local Open Scope sarun_scope.

Module GitEntries.

(** [struct Entry], and [OwnedEntry] *)
Record Entry : Type := MkEntry {
  e_path : bytes;
  e_mode : Mode;
  e_slot : Z;
  e_bitmap : option bytes;
  e_content : bytes
}.

(** What one meta child does to the mode and the bitmap read so far. *)
Definition read_meta (st : Mode * option bytes) (mname : bytes) (mblob : option bytes) : Mode * option bytes :=
  if bytes_eqb mname LANES then (st.1, Some (default [] mblob))
  else match tag_mode mname mblob with Some tm => (tm, st.2) | None => st end.

(** The loop over the meta children of a variant node. *)
Fixpoint meta_loop (fuel : nat) (count : Z) (st : Mode * option bytes) : Parser (Mode * option bytes) :=
  if count <=? 0 then mret st else
  match fuel with
  | O => out_of_fuel
  | S f =>
      mname ← cursor_name;
      mnode ← cursor_node f;
      _ ← cursor_skip_children (cursor_skip f) f (w_child_count mnode);
      meta_loop f (count - 1) (read_meta st mname (w_blob mnode))
  end.

(** A variant node, under the path it has. *)
Definition read_variant (fuel : nat) (path : bytes) (slot : Z) : Parser Entry :=
  vnode ← cursor_node fuel;
  st ← meta_loop fuel (w_child_count vnode) (File, None);
  mret (MkEntry path st.1 slot st.2 (default [] (w_blob vnode))).

(** The child loop of [visit_level]; a name that does not classify is passed
    over, its node is not. *)
Fixpoint visit_children (visit : bytes → Parser (list Entry)) (fuel : nat) (path : bytes) (count : Z)
    (acc : list Entry) : Parser (list Entry) :=
  if count <=? 0 then mret acc else
  match fuel with
  | O => out_of_fuel
  | S f =>
      name ← cursor_name;
      match classify name with
      | Some (KDir gitname) =>
          sub ← visit (push_seg path gitname);
          visit_children visit f path (count - 1) (acc ++ sub)
      | Some (KFile gitname slot) =>
          e ← read_variant f (push_seg path gitname) slot;
          visit_children visit f path (count - 1) (acc ++ [e])
      | None => visit_children visit f path (count - 1) acc
      end
  end.

(** [visit_level] *)
Fixpoint visit_level (fuel : nat) (path : bytes) : Parser (list Entry) :=
  match fuel with
  | O => out_of_fuel
  | S f => node ← cursor_node f; visit_children (visit_level f) f path (w_child_count node) []
  end.

(** [visit_entries] *)
Definition visit_entries (b : bytes) : Run (list Entry) :=
  match visit_level (S (length b)) [] (cursor_new b) with
  | Some (Ok (es, _)) => Some (Ok es)
  | Some (Err e) => Some (Err e)
  | None => None
  end.

(** [b.get(lane / 8).unwrap_or(0) & (1 << (lane % 8)) != 0], for a [u32] lane *)
Definition in_lane (bitmap : option bytes) (lane : nat) : bool :=
  match bitmap with
  | Some b => negb (Z.land (default 0 (b !! (lane / 8)%nat)) (Z.shiftl 1 (Z.of_nat (lane mod 8))) =? 0)
  | None => true
  end.

(** [extract_lane_entries] *)
Definition extract_lane_entries (union : bytes) (lane : nat) : Run (list (bytes * Mode * bytes)) :=
  let! es := visit_entries union in
  run_ok ((λ e, (e_path e, e_mode e, e_content e)) <$> filter (λ e, in_lane (e_bitmap e) lane = true) es).

(** *** The pulling cursor *)

(** [struct EntryCursor]; the innermost level comes first in the lists *)
Record EntryCursor : Type := MkCursor {
  ec_cur : Reader;
  ec_levels : list Z;
  ec_keeps : list nat;
  ec_path : bytes
}.

(** [EntryCursor::new] *)
Definition entry_cursor_new (b : bytes) : Run EntryCursor :=
  let! p := cursor_node (S (length b)) (cursor_new b) in
  run_ok (MkCursor p.2 [w_child_count p.1] [] []).

(** [EntryCursor::next] *)
Fixpoint entry_cursor_next (fuel : nat) (ec : EntryCursor) : Run (option Entry * EntryCursor) :=
  match fuel with
  | O => None
  | S f =>
      match ec_levels ec with
      | [] => run_ok (None, ec)
      | rem :: levels =>
          if rem =? 0 then
            entry_cursor_next f
              (match ec_keeps ec with
               | k :: keeps => MkCursor (ec_cur ec) levels keeps (take k (ec_path ec))
               | [] => MkCursor (ec_cur ec) levels [] (ec_path ec)
               end)
          else
            let! (name, r) := cursor_name (ec_cur ec) in
            match classify name with
            | Some (KDir gitname) =>
                let! (node, r) := cursor_node f r in
                entry_cursor_next f
                  (MkCursor r (w_child_count node :: rem - 1 :: levels)
                     (length (ec_path ec) :: ec_keeps ec) (push_seg (ec_path ec) gitname))
            | Some (KFile gitname slot) =>
                let! (e, r) := read_variant f (push_seg (ec_path ec) gitname) slot r in
                run_ok (Some e, MkCursor r (rem - 1 :: levels) (ec_keeps ec) (ec_path ec))
            | None =>
                let! (_, r) := cursor_skip f r in
                entry_cursor_next f (MkCursor r (rem - 1 :: levels) (ec_keeps ec) (ec_path ec))
            end
      end
  end.

(** Pulling until the end, as a merge over shards does with each cursor. *)
Fixpoint drain (fuel n : nat) (ec : EntryCursor) : Run (list Entry) :=
  match n with
  | O => None
  | S n =>
      let! (o, ec) := entry_cursor_next fuel ec in
      match o with
      | None => run_ok []
      | Some e => let! es := drain fuel n ec in run_ok (e :: es)
      end
  end.

(** *** The entries of a tree *)

Definition payload (n : Node) : option bytes := if is_tombstone n then None else set_payload (blob n).

Definition variant_entry (path : bytes) (slot : Z) (c : Node) : Entry :=
  let st := foldl (λ st '(k, m), read_meta st k (payload m)) (File, None) (kids c) in
  MkEntry path st.1 slot st.2 (default [] (payload c)).

Fixpoint entries_of (path : bytes) (n : Node) : list Entry :=
  if is_tombstone n then [] else
  concat ((λ '(name, c),
    match classify name with
    | Some (KDir g) => entries_of (push_seg path g) c
    | Some (KFile g slot) => [variant_entry (push_seg path g) slot c]
    | None => []
    end) <$> children n).

(** Every name of a directory level is a file slot or a directory. *)
Fixpoint named (n : Node) : bool :=
  is_tombstone n ||
  forallb (λ '(name, c),
    match classify name with
    | Some (KDir _) => named c
    | Some (KFile _ _) => true
    | None => false
    end) (children n).

Lemma entries_unfold path n :
  entries_of path n = concat ((λ '(name, c),
    match classify name with
    | Some (KDir g) => entries_of (push_seg path g) c
    | Some (KFile g slot) => [variant_entry (push_seg path g) slot c]
    | None => []
    end) <$> kids n).
Proof. unfold kids. destruct n; cbn [entries_of]. by destruct (is_tombstone _). Qed.

Lemma named_kid n name c :
  named n = true → (name, c) ∈ kids n →
  match classify name with Some (KDir _) => named c = true | Some (KFile _ _) => True | None => False end.
Proof.
  unfold kids. intros Hn Hin. destruct n as [p b o a an cs]. cbn [named] in Hn.
  destruct (is_tombstone _); [by apply elem_of_nil in Hin|]. cbn [orb children] in *.
  rewrite forallb_forall in Hn. specialize (Hn (name, c)). rewrite <- list_elem_of_In in Hn.
  specialize (Hn Hin). cbn beta iota in Hn. by destruct (classify name) as [[|]|].
Qed.

Lemma walk_blob n : w_blob (walk_node n) = payload n.
Proof. unfold walk_node, payload. by destruct (is_tombstone n). Qed.

(** The children of a node are read whole. *)
Lemma parses_skipped fuel n :
  fits n → (esize n ≤ S fuel)%nat →
  parses (cursor_skip_children (cursor_skip fuel) fuel (w_child_count (walk_node n))) (concat (enc_child <$> kids n)) tt.
Proof.
  intros Hn Hf. pose proof (kids_count n). pose proof (enc_head_pos n). rewrite walk_count.
  apply (parses_skip_children (cursor_skip fuel)); [lia|]. intros k c Hin.
  pose proof (enc_kid_size _ _ _ Hin). pose proof (put_bytes_size k).
  destruct (fits_kid _ _ _ Hn Hin). split; [done|]. apply parses_cursor_skip; [done|lia].
Qed.

Lemma parses_meta_loop fuel (cs : btmap Name Node) st :
  (∀ k c, (k, c) ∈ cs → zlen k < u64_limit ∧ fits c ∧ (length (enc_child (k, c)) + length cs ≤ S fuel)%nat) →
  (length cs ≤ fuel)%nat →
  parses (meta_loop fuel (zlen cs) st) (concat (enc_child <$> cs))
    (foldl (λ st '(k, m), read_meta st k (payload m)) st cs).
Proof.
  revert fuel st. induction cs as [|[k c] cs IH]; intros fuel st Hc Hf.
  { destruct fuel; apply parses_ret. }
  destruct fuel as [|fuel]; simpl in Hf; [lia|].
  destruct (Hc k c ltac:(by left)) as (Hk & Hcf & Hs). unfold enc_child in Hs. cbn [fst snd] in Hs.
  rewrite length_app in Hs. pose proof (put_bytes_size k). cbn [length] in Hs.
  cbn [meta_loop]. rewrite zlen_cons. csimpl.
  destruct (Z.leb_spec (zlen cs + 1) 0); [unfold zlen in *; lia|].
  unfold enc_child at 1. cbn [fst snd]. rewrite <- app_assoc.
  eapply parses_bind; [by apply parses_slice_field|]. cbv beta. rewrite (encode_split c), <- app_assoc.
  pose proof (f_equal length (encode_split c)) as Hl. rewrite length_app in Hl.
  eapply parses_bind; [apply parses_cursor_node; [done|lia]|]. cbv beta.
  eapply parses_bind; [apply parses_skipped; [done|lia]|]. cbv beta.
  replace (zlen cs + 1 - 1) with (zlen cs) by lia. rewrite walk_blob. apply IH; [|lia].
  intros k' c' Hin. destruct (Hc k' c') as (? & ? & ?); [by right|]. split_and!; [done..|]. cbn [length] in *. lia.
Qed.

(** One child next to the others fits in the encoding. *)
Lemma concat_room (cs : btmap Name Node) k c :
  (k, c) ∈ cs → (length (enc_child (k, c)) + length cs ≤ S (length (concat (enc_child <$> cs))))%nat.
Proof.
  induction cs as [|[k' c'] cs IH]; [by intros ?%elem_of_nil|]. intros Hin. csimpl. rewrite length_app.
  assert (Hpos : ∀ x, (1 ≤ length (enc_child x))%nat).
  { intros [x y]. unfold enc_child. rewrite length_app. pose proof (esize_pos y). cbn [snd]. lia. }
  pose proof (Hpos (k', c')). apply elem_of_cons in Hin as [[= -> ->]|Hin].
  - pose proof (concat_length_bound enc_child cs (λ x _, Hpos x)). lia.
  - specialize (IH Hin). lia.
Qed.

Lemma kid_room n k c :
  fits n → (k, c) ∈ kids n → zlen k < u64_limit ∧ fits c ∧ (length (enc_child (k, c)) + length (kids n) ≤ esize n)%nat.
Proof.
  intros Hn Hin. destruct (fits_kid _ _ _ Hn Hin). split_and!; [done..|].
  pose proof (f_equal length (encode_split n)) as Hl. rewrite length_app in Hl.
  pose proof (enc_head_pos n). pose proof (concat_room (kids n) k c Hin). lia.
Qed.

Lemma parses_variant fuel path slot c :
  fits c → (esize c ≤ fuel)%nat →
  parses (read_variant fuel path slot) (encode_node [] c) (variant_entry path slot c).
Proof.
  intros Hc Hf. unfold read_variant, variant_entry. rewrite encode_split.
  pose proof (kids_count c). pose proof (enc_head_pos c).
  eapply parses_bind; [apply parses_cursor_node; [done|lia]|]. cbv beta. rewrite walk_count.
  rewrite <- (app_nil_r (concat _)).
  eapply parses_bind; [apply parses_meta_loop; [|lia]|].
  - intros k m Hin. destruct (kid_room c k m Hc Hin) as (? & ? & ?). split_and!; [done..|lia].
  - cbv beta. rewrite walk_blob. apply parses_ret.
Qed.

Lemma parses_visit_children visit fuel path (cs : btmap Name Node) acc :
  (length cs ≤ fuel)%nat →
  (∀ k c, (k, c) ∈ cs → zlen k < u64_limit ∧ fits c ∧ (length (enc_child (k, c)) + length cs ≤ S fuel)%nat ∧
     match classify k with
     | Some (KDir g) => parses (visit (push_seg path g)) (encode_node [] c) (entries_of (push_seg path g) c)
     | Some (KFile _ _) => True
     | None => False
     end) →
  parses (visit_children visit fuel path (zlen cs) acc) (concat (enc_child <$> cs))
    (acc ++ concat ((λ '(name, c),
      match classify name with
      | Some (KDir g) => entries_of (push_seg path g) c
      | Some (KFile g slot) => [variant_entry (push_seg path g) slot c]
      | None => []
      end) <$> cs)).
Proof.
  revert fuel acc. induction cs as [|[k c] cs IH]; intros fuel acc Hf Hc.
  { rewrite app_nil_r. destruct fuel; apply parses_ret. }
  destruct fuel as [|fuel]; simpl in Hf; [lia|].
  destruct (Hc k c ltac:(by left)) as (Hk & Hcf & Hs & Hv). unfold enc_child in Hs. cbn [fst snd] in Hs.
  rewrite length_app in Hs. pose proof (put_bytes_size k). cbn [length] in Hs.
  cbn [visit_children]. rewrite zlen_cons. csimpl.
  destruct (Z.leb_spec (zlen cs + 1) 0); [unfold zlen in *; lia|].
  unfold enc_child at 1. cbn [fst snd]. rewrite <- app_assoc.
  eapply parses_bind; [by apply parses_slice_field|]. cbv beta.
  assert (Hrest : ∀ acc, parses (visit_children visit fuel path (zlen cs + 1 - 1) acc) (concat (enc_child <$> cs))
    (acc ++ concat ((λ '(name, c),
      match classify name with
      | Some (KDir g) => entries_of (push_seg path g) c
      | Some (KFile g slot) => [variant_entry (push_seg path g) slot c]
      | None => []
      end) <$> cs))).
  { intros acc'. replace (zlen cs + 1 - 1) with (zlen cs) by lia. apply IH; [lia|].
    intros k' c' Hin. destruct (Hc k' c') as (? & ? & ? & ?); [by right|]. cbn [length] in *. split_and!; [done..|lia|done]. }
  destruct (classify k) as [[g|g slot]|]; [..|done].
  - eapply parses_bind; [exact Hv|]. cbv beta. rewrite app_assoc. apply Hrest.
  - eapply parses_bind; [apply parses_variant; [done|lia]|]. cbv beta. rewrite app_assoc. apply Hrest.
Qed.

Lemma parses_visit_level fuel path n :
  fits n → named n = true → (esize n ≤ fuel)%nat →
  parses (visit_level fuel path) (encode_node [] n) (entries_of path n).
Proof.
  revert fuel path. induction n as [n IH] using node_ind'; intros fuel path Hn Hnm Hf.
  pose proof (kids_count n). pose proof (enc_head_pos n).
  destruct fuel as [|fuel]; [lia|]. cbn [visit_level]. rewrite encode_split, entries_unfold.
  eapply parses_bind; [apply parses_cursor_node; [done|lia]|]. cbv beta. rewrite walk_count.
  apply (parses_visit_children (visit_level fuel) fuel path (kids n) []); [lia|].
  intros k c Hin. pose proof (enc_kid_size _ _ _ Hin). pose proof (put_bytes_size k).
  destruct (kid_room n k c Hn Hin) as (? & ? & ?). split_and!; [done..|lia|].
  pose proof (named_kid n k c Hnm Hin) as Hk. destruct (classify k) as [[g|g slot]|]; [|done..].
  eapply IH; [by apply kids_elem|done|done|lia].
Qed.

(** The walk over the bytes of a union visits exactly its file variants. *)
Lemma visit_entries_encode n :
  fits n → named n = true → visit_entries (encode_node [] n) = Some (Ok (entries_of [] n)).
Proof.
  intros Hn Hnm. unfold visit_entries.
  rewrite (parses_visit_level (S (esize n)) [] n Hn Hnm ltac:(lia) (cursor_new _) []); [done|].
  unfold unread. simpl. by rewrite app_nil_r.
Qed.

(** *** Pulling *)

(** The directories that are open, the innermost first: its path and the
    children that are left. *)
Abbreviation frame := (bytes * btmap Name Node)%type.

Definition child_entries (path : bytes) (kc : Name * Node) : list Entry :=
  match classify kc.1 with
  | Some (KDir g) => entries_of (push_seg path g) kc.2
  | Some (KFile g slot) => [variant_entry (push_seg path g) slot kc.2]
  | None => []
  end.

Lemma entries_children path n : entries_of path n = concat (child_entries path <$> kids n).
Proof. rewrite entries_unfold. f_equal. apply list_fmap_ext. by intros _ [k c] _. Qed.

Definition pending (fs : list frame) : list Entry := concat ((λ f, concat (child_entries f.1 <$> f.2)) <$> fs).
Definition left_bytes (fs : list frame) : bytes := concat ((λ f, concat (enc_child <$> f.2)) <$> fs).

(** The kept lengths cut each path to that of the directory above. *)
Fixpoint cuts (p : bytes) (fs : list frame) (keeps : list nat) : Prop :=
  match fs, keeps with
  | [], [] => True
  | (q, _) :: fs, k :: keeps => take k p = q ∧ cuts q fs keeps
  | _, _ => False
  end.

Record opened (ec : EntryCursor) (fs : list frame) : Prop := {
  op_levels : ec_levels ec = (λ f, zlen f.2) <$> fs;
  op_bytes : ∃ s, unread (ec_cur ec) = left_bytes fs ++ s;
  op_cuts : match fs with [] => True | (p, _) :: fs => ec_path ec = p ∧ cuts p fs (ec_keeps ec) end;
  op_fits : ∀ p cs k c, (p, cs) ∈ fs → (k, c) ∈ cs → zlen k < u64_limit ∧ fits c
}.

Definition work (fs : list frame) : nat := length (left_bytes fs) + length fs.

Lemma take_push path g : take (length path) (push_seg path g) = path.
Proof.
  unfold push_seg, GitTree.push_name. destruct path as [|x path]; [done|]. cbn [length].
  rewrite <- app_assoc. change (S (length path)) with (length (x :: path)). apply take_app_length.
Qed.

Lemma run_parses {A} (p : Parser A) bs x r s :
  parses p bs x → unread r = bs ++ s → p r = Some (Ok (x, advance r (length bs))) ∧ unread (advance r (length bs)) = s.
Proof.
  intros Hp Hr. split; [by eapply Hp|]. unfold unread, advance in *. cbn [buf pos].
  by rewrite <- drop_drop, Hr, drop_app_length.
Qed.

Lemma left_bytes_cons p k c cs fs :
  left_bytes ((p, (k, c) :: cs) :: fs) = put_bytes [] k ++ encode_node [] c ++ left_bytes ((p, cs) :: fs).
Proof. unfold left_bytes. csimpl. unfold enc_child at 1. cbn [fst snd]. by rewrite <- !app_assoc. Qed.

Lemma cursor_next_spec fuel ec fs :
  opened ec fs → (work fs < fuel)%nat →
  ∃ o ec' fs', entry_cursor_next fuel ec = Some (Ok (o, ec')) ∧
    match o with
    | None => pending fs = []
    | Some e => pending fs = e :: pending fs' ∧ opened ec' fs' ∧ (work fs' < work fs)%nat
    end.
Proof.
  revert ec fs. induction fuel as [|fuel IH]; intros ec fs Ho Hf; [lia|].
  destruct Ho as [Hl [s Hb] Hc Hfit]. cbn [entry_cursor_next]. rewrite Hl.
  destruct fs as [|[p cs] fs]; [exists None, ec, []; done|]. cbn [fmap list_fmap snd].
  destruct Hc as [Hp Hc]. destruct cs as [|[k c] cs].
  - cbn. set (ec1 := match ec_keeps ec with [] => _ | _ => _ end).
    assert (Ho1 : opened ec1 fs).
    { assert (Hcur : ec_cur ec1 = ec_cur ec) by (unfold ec1; by destruct (ec_keeps ec)).
      split.
      - unfold ec1. by destruct (ec_keeps ec).
      - rewrite Hcur. exists s. exact Hb.
      - unfold ec1. destruct fs as [|[q ds] fs]; [done|]. destruct (ec_keeps ec) as [|k ks]; [done|].
        simpl in Hc. cbn [ec_path ec_keeps]. rewrite Hp. exact Hc.
      - intros q ds k c Hin. apply (Hfit q). by right. }
    destruct (IH ec1 fs Ho1) as (o & ec' & fs' & E & Hres).
    { unfold work in *. unfold left_bytes in *. csimpl in Hf. lia. }
    exists o, ec', fs'. split; [exact E|]. unfold pending in *. csimpl.
    destruct o as [e|]; [|done]. destruct Hres as (Hpe & Ho' & Hw). split_and!; [done..|].
    unfold work, left_bytes in *. csimpl. lia.
  - rewrite zlen_cons. pose proof (zlen_nonneg cs).
    rewrite (proj2 (Z.eqb_neq (zlen cs + 1) 0)) by lia. replace (zlen cs + 1 - 1) with (zlen cs) by lia.
    destruct (Hfit p ((k, c) :: cs) k c) as [Hk Hcf]; [by left|by left|].
    rewrite left_bytes_cons, <- app_assoc in Hb.
    destruct (run_parses _ _ _ _ _ (parses_slice_field k Hk) Hb) as [E1 Hb1].
    change (cursor_name (ec_cur ec)) with (slice (ec_cur ec)). rewrite E1. cbn [run_bind].
    set (r1 := advance (ec_cur ec) _) in *. rewrite <- app_assoc in Hb1.
    pose proof (put_bytes_size k) as Hpk. pose proof (esize_pos c) as Hec.
    assert (Hwork : (work ((p, (k, c) :: cs) :: fs) = length (put_bytes [] k) + esize c + work ((p, cs) :: fs))%nat).
    { unfold work. rewrite left_bytes_cons, !length_app. cbn [length]. lia. }
    assert (Hrest : ∀ r, unread r = left_bytes ((p, cs) :: fs) ++ s →
      opened (MkCursor r (zlen cs :: ((λ f : frame, zlen f.2) <$> fs)) (ec_keeps ec) (ec_path ec)) ((p, cs) :: fs)).
    { intros r Hr. split; [done|eauto|done|]. intros q ds k' c' Hin Hin'. apply elem_of_cons in Hin as [[= -> ->]|Hin].
      - apply (Hfit p ((k, c) :: cs)); [by left|by right].
      - apply (Hfit q ds); [by right|done]. }
    assert (Hpend : pending ((p, (k, c) :: cs) :: fs) = child_entries p (k, c) ++ pending ((p, cs) :: fs)).
    { unfold pending. csimpl. by rewrite <- app_assoc. }
    unfold child_entries at 1 in Hpend. cbn [fst snd] in Hpend.
    destruct (classify k) as [[g|g slot]|] eqn:Ek; rewrite Hpend.
    + rewrite encode_split, <- app_assoc in Hb1. pose proof (kids_count c) as Hkc.
      destruct (run_parses _ _ _ _ _ (parses_cursor_node fuel c Hcf ltac:(lia)) Hb1) as [E2 Hb2].
      rewrite E2. cbn [run_bind]. rewrite walk_count.
      set (fs1 := (push_seg p g, kids c) :: (p, cs) :: fs).
      assert (Hw1 : (work fs1 < work ((p, (k, c) :: cs) :: fs))%nat).
      { rewrite Hwork. unfold work, fs1, left_bytes. csimpl. rewrite length_app.
        pose proof (f_equal length (encode_split c)) as Hlc. rewrite length_app in Hlc. pose proof (enc_head_pos c). lia. }
      destruct (IH (MkCursor (advance r1 (length (enc_head c)))
        (zlen (kids c) :: zlen cs :: ((λ f : frame, zlen f.2) <$> fs)) (length (ec_path ec) :: ec_keeps ec)
        (push_seg (ec_path ec) g)) fs1) as (o & ec' & fs' & E & Hres).
      { split; [done| | |].
        - exists s. cbn [ec_cur]. rewrite Hb2. unfold fs1, left_bytes. csimpl. by rewrite <- !app_assoc.
        - unfold fs1. cbn [ec_path ec_keeps]. rewrite Hp. split; [done|]. simpl. split; [apply take_push|done].
        - intros q ds k' c' Hin Hin'. apply elem_of_cons in Hin as [[= -> ->]|Hin]; [destruct (fits_kid _ _ _ Hcf Hin'); done|].
          by eapply (op_fits _ _ (Hrest (MkReader (left_bytes ((p, cs) :: fs) ++ s) 0) eq_refl)). }
      { lia. }
      exists o, ec', fs'. split; [exact E|].
      assert (Hpe : pending fs1 = entries_of (push_seg p g) c ++ pending ((p, cs) :: fs)).
      { unfold fs1, pending. csimpl. by rewrite entries_children. }
      rewrite <- Hpe. destruct o as [e|]; [|exact Hres]. destruct Hres as (? & ? & ?). split_and!; [done..|lia].
    + destruct (run_parses _ _ _ _ _ (parses_variant fuel (push_seg (ec_path ec) g) slot c Hcf ltac:(lia)) Hb1) as [E2 Hb2].
      rewrite E2. cbn [run_bind]. eexists _, _, ((p, cs) :: fs). split; [done|]. rewrite Hp in Hrest |- *.
      split_and!; [done|by apply Hrest|lia].
    + destruct (run_parses _ _ _ _ _ (parses_cursor_skip fuel c Hcf ltac:(lia)) Hb1) as [E2 Hb2].
      rewrite E2. cbn [run_bind]. destruct (IH _ _ (Hrest _ Hb2)) as (o & ec' & fs' & E & Hres); [lia|].
      exists o, ec', fs'. split; [exact E|]. destruct o as [e|]; [|exact Hres].
      destruct Hres as (? & ? & ?). split_and!; [done..|lia].
Qed.

Lemma drain_spec fuel n ec fs :
  opened ec fs → (work fs < fuel)%nat → (work fs < n)%nat → drain fuel n ec = Some (Ok (pending fs)).
Proof.
  revert ec fs. induction n as [|n IH]; intros ec fs Ho Hf Hn; [lia|]. cbn [drain].
  destruct (cursor_next_spec fuel ec fs Ho Hf) as (o & ec' & fs' & -> & Hres). cbn [run_bind].
  destruct o as [e|]; [|by rewrite Hres]. destruct Hres as (-> & Ho' & Hw).
  rewrite (IH ec' fs') by (done || lia). done.
Qed.

Lemma drain_new n :
  fits n →
  ∃ ec, entry_cursor_new (encode_node [] n) = Some (Ok ec) ∧
    ∀ fuel m, (S (esize n) < fuel)%nat → (S (esize n) < m)%nat → drain fuel m ec = Some (Ok (entries_of [] n)).
Proof.
  intros Hn. unfold entry_cursor_new. pose proof (kids_count n).
  assert (Hu : unread (cursor_new (encode_node [] n)) = enc_head n ++ concat (enc_child <$> kids n)) by (rewrite <- encode_split; done).
  destruct (run_parses _ _ _ _ _ (parses_cursor_node (S (esize n)) n Hn ltac:(lia)) Hu) as [-> Hr].
  cbn [run_bind]. eexists. split; [done|]. intros fuel m Hf Hm. cbn [fst snd]. rewrite walk_count.
  assert (Hw : (work [([], kids n)] ≤ S (esize n))%nat).
  { unfold work, left_bytes. csimpl. rewrite app_nil_r.
    pose proof (f_equal length (encode_split n)) as Hl. rewrite length_app in Hl. lia. }
  rewrite (drain_spec fuel m _ [([], kids n)]); [|split|lia|lia].
  - unfold pending. csimpl. by rewrite app_nil_r, entries_children.
  - done.
  - exists []. cbn [ec_cur]. rewrite Hr. unfold left_bytes. csimpl. by rewrite !app_nil_r.
  - done.
  - intros p cs k c [= -> ->]%list_elem_of_singleton Hin. destruct (fits_kid _ _ _ Hn Hin). done.
Qed.

(** The two readers of an encoded union agree with the tree it encodes:
    the single-pass walk visits, and the pulling cursor yields one by one until
    it ends, exactly the file variants of the tree in its order, each with its
    path, mode, slot, bitmap and content.  The lengths of the bytes bound every
    loop. *)
Theorem readers_agree l :
  encodable l = true → named (root l) = true →
  visit_entries (encode l) = Some (Ok (entries_of [] (root l))) ∧
  ∃ ec, entry_cursor_new (encode l) = Some (Ok ec) ∧
    drain (length (encode l) + 2) (length (encode l) + 2) ec = Some (Ok (entries_of [] (root l))).
Proof.
  intros (Hwf & _ & Hz)%encodable_spec Hnm. split; [by apply visit_entries_encode|].
  destruct (drain_new (root l)) as (ec & E & Hd); [by split|]. exists ec. split; [exact E|].
  apply Hd; unfold encode; lia.
Qed.

(** A union: a file with two variants, and a file in a directory. *)
Definition demo_union : Layer := MkLayer (MkNode Live Keep false None Lower
  [([115], MkNode Live Keep false None Lower [(file_key [114] 0, variant_node [35; 33] Exec (Some [3]))]);
   (file_key [122] 0, variant_node [48] File (Some [1]));
   (file_key [122] 1, variant_node [49] Symlink (Some [2]))]).

Lemma readers_agree_witness :
  visit_entries (encode demo_union) = Some (Ok (entries_of [] (root demo_union))) ∧
  entries_of [] (root demo_union) =
    [MkEntry [115; 47; 114] Exec 0 (Some [3]) [35; 33]; MkEntry [122] File 0 (Some [1]) [48];
     MkEntry [122] Symlink 1 (Some [2]) [49]].
Proof.
  split; [|reflexivity]. apply (readers_agree demo_union); vm_compute; reflexivity.
Defined.

(** A name that is neither a directory nor a file slot: the cursor skips its
    node, as the stacked reader and the record writer do; the walk does not, and
    reads the node's bytes as the next name. *)
Example walk_misreads_unclassified :
  let l := MkLayer (MkNode Live Keep false None Lower
    [([97; 0; 128], MkNode Live (SetBlob [1]) false None Lower []); (file_key [98] 0, variant_node [7] File None)]) in
  classify [97; 0; 128] = None ∧
  entries_of [] (root l) = [MkEntry [98] File 0 None [7]] ∧
  (let! ec := entry_cursor_new (encode l) in drain 40 40 ec) = Some (Ok [MkEntry [98] File 0 None [7]]) ∧
  visit_entries (encode l) ≠ Some (Ok [MkEntry [98] File 0 None [7]]).
Proof.
  split; [reflexivity|]. split; [reflexivity|]. split; [vm_compute; reflexivity|].
  vm_compute. discriminate.
Qed.

End GitEntries.
