(* ===== verification/GitStacked.v ===== *)
(** The current state read from a base and the live deltas above it
    ([visit_stacked] of [chupa/gitdepot/src/layer.rs]): one lockstep walk over
    the encoded base and every encoded delta, with no composed intermediate.

    The cursors are a list of readers; an index out of range is [None], as fuel
    that ran out.  A visit is the list of what it is called with. *)
From S2P Require Import Prelude.
From S2P Require Import BTreeMap.
From S2P Require Import DepotModel.
From S2P Require Import DepotCodec.
From S2P Require Import DepotWalk.
From S2P Require Import GitLayer.
From S2P Require Import GitEntries.
Import GitLayer.
Import GitEntries.

Local Open Scope Z_scope.
Local Open Scope sarun_scope.

Module GitStacked.

(** *** One file node *)

(** [struct NodeKeys] *)
Record NodeKeys : Type := MkKeys {
  nk_blob : option bytes;
  nk_kids : list (bytes * option bytes)
}.

(** [NodeKeys::clear], and [NodeKeys::default] *)
Definition keys_clear : NodeKeys := MkKeys None [].

(** [skip_children] *)
Definition skip_children (fuel : nat) (count : Z) : Parser unit := cursor_skip_children (cursor_skip fuel) fuel count.

(** [acc.kids.iter_mut().find(|(k, _)| *k == name)], then the write *)
Fixpoint set_kid (name : bytes) (val : option bytes) (kids : list (bytes * option bytes)) : list (bytes * option bytes) :=
  match kids with
  | [] => [(name, val)]
  | (k, v) :: kids => if bytes_eqb k name then (k, val) :: kids else (k, v) :: set_kid name val kids
  end.

(** The value a meta child records: a hole removes. *)
Definition kid_val (cn : WalkNode) : option bytes :=
  if w_backdrop cn && negb (is_some (w_blob cn)) && (w_child_count cn =? 0) then None
  else Some (default [] (w_blob cn)).

(** The child loop of [fold_node_keys] *)
Fixpoint fold_kids (fuel : nat) (count : Z) (acc : NodeKeys) : Parser NodeKeys :=
  if count <=? 0 then mret acc else
  match fuel with
  | O => out_of_fuel
  | S f =>
      name ← cursor_name;
      cn ← cursor_node f;
      _ ← skip_children f (w_child_count cn);
      fold_kids f (count - 1) (MkKeys (nk_blob acc) (set_kid name (kid_val cn) (nk_kids acc)))
  end.

(** [fold_node_keys] *)
Definition fold_node_keys (fuel : nat) (acc : NodeKeys) : Parser NodeKeys :=
  n ← cursor_node fuel;
  let acc := if w_backdrop n then keys_clear else acc in
  let acc := match w_blob n with Some b => MkKeys (Some b) (nk_kids acc) | None => acc end in
  fold_kids fuel (w_child_count n) acc.

(** What one resolved key does to the mode and the bitmap. *)
Definition read_key (st : Mode * option bytes) (kv : bytes * option bytes) : Mode * option bytes :=
  if bytes_eqb kv.1 LANES then (st.1, kv.2)
  else match kv.2 with
       | Some _ => match tag_mode kv.1 kv.2 with Some tm => (tm, st.2) | None => st end
       | None => st
       end.

(** [assemble], under the path and the slot it is visited with *)
Definition assemble (path : bytes) (slot : Z) (keys : NodeKeys) : option Entry :=
  match nk_blob keys with
  | None => None
  | Some content =>
      let st := foldl read_key (File, None) (nk_kids keys) in
      Some (MkEntry path st.1 slot st.2 content)
  end.

Definition opt_list {A} (o : option A) : list A := match o with Some x => [x] | None => [] end.

(** *** The base alone *)

Fixpoint base_children (child : bytes → Parser (list Entry)) (fuel : nat) (count : Z) (acc : list Entry)
    : Parser (list Entry) :=
  if count <=? 0 then mret acc else
  match fuel with
  | O => out_of_fuel
  | S f => name ← cursor_name; sub ← child name; base_children child f (count - 1) (acc ++ sub)
  end.

(** [base_only_child] *)
Fixpoint base_only_child (fuel : nat) (name path : bytes) : Parser (list Entry) :=
  match fuel with
  | O => out_of_fuel
  | S f =>
      match classify name with
      | Some (KFile gitname slot) =>
          keys ← fold_node_keys f keys_clear;
          mret (opt_list (assemble (push_seg path gitname) slot keys))
      | Some (KDir gitname) =>
          n ← cursor_node f;
          base_children (λ child, base_only_child f child (push_seg path gitname)) f (w_child_count n) []
      | None => _ ← cursor_skip f; mret []
      end
  end.

(** *** The lockstep *)

(** A step that reads from some of the sources. *)
Definition Srcs (A : Type) : Type := list Reader → Run (A * list Reader).
#[export] Instance srcs_ret : MRet Srcs := λ A a srcs, Some (Ok (a, srcs)).
#[export] Instance srcs_bind : MBind Srcs := λ A B k p srcs,
  match p srcs with
  | Some (Ok (a, srcs')) => k a srcs'
  | Some (Err e) => Some (Err e)
  | None => None
  end.

(** [srcs[i].step()?] *)
Definition on {A} (i : nat) (p : Parser A) : Srcs A := λ srcs,
  match srcs !! i with
  | None => None
  | Some r =>
      match p r with
      | Some (Ok (a, r')) => Some (Ok (a, <[i := r']> srcs))
      | Some (Err e) => Some (Err e)
      | None => None
      end
  end.

Definition stuck {A} : Srcs A := λ _, None.

(** One active source at a level: its index, the children not read yet and the
    name read ahead ([rem] and [heads] of [klevel], with [active]). *)
Record Front : Type := MkFront {
  f_src : nat;
  f_rem : Z;
  f_head : option bytes
}.

(** [if rem[k] > 0 { rem[k] -= 1; Some(srcs[si].name()?) } else { None }] *)
Definition next_head (f : Front) : Srcs Front :=
  if 0 <? f_rem f then
    name ← on (f_src f) cursor_name;
    mret (MkFront (f_src f) (f_rem f - 1) (Some name))
  else mret (MkFront (f_src f) (f_rem f) None).

(** The heads at the start of a level. *)
Fixpoint first_heads (active : list (nat * Z)) : Srcs (list Front) :=
  match active with
  | [] => mret []
  | (si, n) :: active =>
      f ← next_head (MkFront si n None);
      fs ← first_heads active;
      mret (f :: fs)
  end.

(** [active.iter().position(|&(si, _)| si == 0)] *)
Fixpoint base_position (active : list Front) : option nat :=
  match active with
  | [] => None
  | f :: active => if (f_src f =? 0)%nat then Some O else S <$> base_position active
  end.

(** The smaller of two names, the first on a tie ([Iterator::min]). *)
Definition min_name (a : option bytes) (b : bytes) : option bytes :=
  match a with None => Some b | Some a => Some (if is_lt (cmp b a) then b else a) end.

(** [dmin]: the least head of the sources other than the base *)
Fixpoint delta_min (kb : option nat) (k : nat) (fs : list Front) (acc : option bytes) : option bytes :=
  match fs with
  | [] => acc
  | f :: fs =>
      delta_min kb (S k) fs
        (match f_head f with
         | Some h => if decide (Some k = kb) then acc else min_name acc h
         | None => acc
         end)
  end.

(** The scan: the least head and the positions that have it. *)
Fixpoint scan (k : nat) (fs : list Front) (min : option bytes) (group : list nat) : option bytes * list nat :=
  match fs with
  | [] => (min, group)
  | f :: fs =>
      match f_head f with
      | None => scan (S k) fs min group
      | Some h =>
          match min with
          | None => scan (S k) fs (Some h) (group ++ [k])
          | Some m =>
              match cmp h m with
              | Lt => scan (S k) fs (Some h) [k]
              | Eq => scan (S k) fs min (group ++ [k])
              | Gt => scan (S k) fs min group
              end
          end
      end
  end.

(** [for (sj, cnt) in sub.drain(..) { skip_children(&mut srcs[sj], cnt)?; }] *)
Fixpoint drop_all (fuel : nat) (sub : list (nat * Z)) : Srcs unit :=
  match sub with
  | [] => mret tt
  | (sj, cnt) :: sub => _ ← on sj (skip_children fuel cnt); drop_all fuel sub
  end.

(** The participants of a directory, bottom up. *)
Fixpoint dir_group (fuel : nat) (fs : list Front) (group : list nat) (sub : list (nat * Z)) : Srcs (list (nat * Z)) :=
  match group with
  | [] => mret sub
  | k :: group =>
      match fs !! k with
      | None => stuck
      | Some f =>
          n ← on (f_src f) (cursor_node fuel);
          sub' ← (if w_backdrop n then _ ← drop_all fuel sub; mret [] else mret sub);
          dir_group fuel fs group (sub' ++ [(f_src f, w_child_count n)])
      end
  end.

(** The participants of a file, bottom up. *)
Fixpoint file_group (fuel : nat) (fs : list Front) (group : list nat) (keys : NodeKeys) : Srcs NodeKeys :=
  match group with
  | [] => mret keys
  | k :: group =>
      match fs !! k with
      | None => stuck
      | Some f => keys ← on (f_src f) (fold_node_keys fuel keys); file_group fuel fs group keys
      end
  end.

(** The participants of a name that does not classify. *)
Fixpoint skip_group (fuel : nat) (fs : list Front) (group : list nat) : Srcs unit :=
  match group with
  | [] => mret tt
  | k :: group =>
      match fs !! k with
      | None => stuck
      | Some f => _ ← on (f_src f) (cursor_skip fuel); skip_group fuel fs group
      end
  end.

(** [heads[k] = ..] for the participants *)
Fixpoint advance_group (fs : list Front) (group : list nat) : Srcs (list Front) :=
  match group with
  | [] => mret fs
  | k :: group =>
      match fs !! k with
      | None => stuck
      | Some f => f' ← next_head f; advance_group (<[k := f']> fs) group
      end
  end.

(** The base's head, where it is strictly below every delta's. *)
Definition base_first (kb : option nat) (fs : list Front) : option (nat * Front * bytes) :=
  match kb with
  | None => None
  | Some k =>
      match fs !! k with
      | Some f =>
          match f_head f with
          | Some bh =>
              if match delta_min kb 0 fs None with Some d => is_lt (cmp bh d) | None => true end
              then Some (k, f, bh) else None
          | None => None
          end
      | None => None
      end
  end.

(** The loop of [klevel], over the recursive call. *)
Fixpoint kloop (rec : list (nat * Z) → bytes → Srcs (list Entry)) (fuel : nat) (kb : option nat)
    (fs : list Front) (path : bytes) (acc : list Entry) : Srcs (list Entry) :=
  match fuel with
  | O => stuck
  | S f =>
      match base_first kb fs with
      | Some (k, b, bh) =>
          es ← on (f_src b) (base_only_child f bh path);
          b' ← next_head b;
          kloop rec f kb (<[k := b']> fs) path (acc ++ es)
      | None =>
          let '(min, group) := scan 0 fs None [] in
          match min with
          | None => mret acc
          | Some min =>
              es ← (match classify min with
                    | Some (KDir gitname) =>
                        sub ← dir_group f fs group [];
                        rec sub (push_seg path gitname)
                    | Some (KFile gitname slot) =>
                        keys ← file_group f fs group keys_clear;
                        mret (opt_list (assemble (push_seg path gitname) slot keys))
                    | None => _ ← skip_group f fs group; mret []
                    end);
              fs' ← advance_group fs group;
              kloop rec f kb fs' path (acc ++ es)
          end
      end
  end.

(** [klevel] *)
Fixpoint klevel (fuel : nat) (active : list (nat * Z)) (path : bytes) : Srcs (list Entry) :=
  match fuel with
  | O => stuck
  | S f => fs ← first_heads active; kloop (klevel f) f (base_position fs) fs path []
  end.

(** The headers of the roots. *)
Fixpoint read_roots (fuel : nat) (i : nat) (n : nat) : Srcs (list (nat * Z)) :=
  match n with
  | O => mret []
  | S n => node ← on i (cursor_node fuel); rest ← read_roots fuel (S i) n; mret ((i, w_child_count node) :: rest)
  end.

Definition total_length (bs : list bytes) : nat := sum_list (length <$> bs).

(** [visit_stacked] *)
Definition visit_stacked (base : bytes) (stack : list bytes) : Run (list Entry) :=
  let srcs := base :: stack in
  let fuel := S (S (total_length srcs)) in
  match (active ← read_roots fuel 0 (length srcs); klevel fuel active []) (cursor_new <$> srcs) with
  | Some (Ok (es, _)) => Some (Ok es)
  | Some (Err e) => Some (Err e)
  | None => None
  end.

End GitStacked.
