(* ===== verification/GitKway.v ===== *)
(** Merging the children of several deltas at once: the least name among the
    heads of the lists, with the nodes every list has there composed bottom up,
    is the head of the composition, and what is left of the lists is the rest
    of it. *)
From S2P Require Import Prelude.
From S2P Require Import BTreeMap.
From S2P Require Import DepotModel.
From S2P Require Import DepotCompose.
From S2P Require Import DepotMerge.
From S2P Require Import GitDelta.
Import GitDelta.

Local Open Scope nat_scope.

Module Kway.

Abbreviation kidmap := (btmap Name Node).

(** The children of a composition of two deltas. *)
Definition merge2 : kidmap → kidmap → kidmap :=
  merge_maps (λ _ a, Some a) (λ _ b, Some b) (λ _ a b, Some (compose_node a b)).

(** The children of the composition of a list of them, bottom up. *)
Definition kmerge (ls : list kidmap) : kidmap := foldl merge2 [] ls.

Definition total (n : Node) (ns : list Node) : Node := foldl compose_node n ns.
Definition total_of (ns : list Node) : Node := match ns with [] => keep | n :: ns => total n ns end.

Lemma merge2_nil_l b : merge2 [] b = b.
Proof. induction b as [|[k v] b IH]; [done|]. unfold merge2 in *. rewrite merge_nil_b, IH. done. Qed.
Lemma merge2_nil_r a : merge2 a [] = a.
Proof. induction a as [|[k v] a IH]; [done|]. unfold merge2 in *. rewrite merge_a_nil, IH. done. Qed.

Lemma kmerge_cons l ls : kmerge (l :: ls) = foldl merge2 l ls.
Proof. unfold kmerge. simpl. by rewrite merge2_nil_l. Qed.

Lemma kmerge_snoc ls l : kmerge (ls ++ [l]) = merge2 (kmerge ls) l.
Proof. unfold kmerge. by rewrite foldl_app. Qed.

Lemma kmerge_ok ls : Forall (λ l : kidmap, bt_ok l = true) ls → bt_ok (kmerge ls) = true.
Proof.
  induction ls as [|l ls IH] using rev_ind; intros H; [done|].
  apply Forall_app in H as [H1 H2]. apply Forall_cons in H2 as [H2 _]. rewrite kmerge_snoc.
  unfold merge2. apply merge_ok; [by apply IH|exact H2].
Qed.

(** *** Heads *)

Definition head_name (l : kidmap) : option Name := match l with [] => None | (k, _) :: _ => Some k end.

(** The least of the names, starting from one. *)
Definition lower (a : option Name) (b : option Name) : option Name :=
  match a, b with
  | None, b => b
  | a, None => a
  | Some x, Some y => Some (if is_lt (cmp y x) then y else x)
  end.
Definition least_from (a : option Name) (hs : list (option Name)) : option Name := foldl lower a hs.
Definition least (hs : list (option Name)) : option Name := least_from None hs.

Lemma least_snoc hs h : least (hs ++ [h]) = lower (least hs) h.
Proof. unfold least, least_from. by rewrite foldl_app. Qed.

(** The least name is at most each of the others. *)
Lemma least_from_le a hs :
  (∀ x, a = Some x → ∃ m, least_from a hs = Some m ∧ cmp x m ≠ Lt) ∧
  (∀ x, Some x ∈ hs → ∃ m, least_from a hs = Some m ∧ cmp x m ≠ Lt).
Proof.
  revert a. induction hs as [|h hs IH]; intros a; simpl.
  - split; [|by intros x ?%elem_of_nil]. intros x ->. exists x. by rewrite cmp_refl.
  - destruct (IH (lower a h)) as [Ha Hin]. split.
    + intros x ->. destruct h as [y|]; simpl in *.
      * destruct (cmp y x) eqn:E; simpl in *.
        -- destruct (Ha _ eq_refl) as (m & Em & Hm). exists m. split; [exact Em|exact Hm].
        -- destruct (Ha _ eq_refl) as (m & Em & Hm). exists m. split; [exact Em|].
           intros Hlt. apply Hm. by eapply cmp_lt_trans.
        -- destruct (Ha _ eq_refl) as (m & Em & Hm). exists m. split; [exact Em|exact Hm].
      * destruct (Ha _ eq_refl) as (m & Em & Hm). exists m. split; [exact Em|exact Hm].
    + intros x [<-|Hx]%elem_of_cons; [|by apply Hin]. destruct a as [y|]; simpl in *.
      * destruct (cmp x y) eqn:E; simpl in *; destruct (Ha _ eq_refl) as (m & Em & Hm); exists m; (split; [exact Em|]).
        -- apply cmp_eq in E as ->. exact Hm.
        -- exact Hm.
        -- intros Hlt. apply Hm. eapply cmp_lt_trans; [|exact Hlt]. by rewrite cmp_opp, E.
      * destruct (Ha _ eq_refl) as (m & Em & Hm). exists m. split; [exact Em|exact Hm].
Qed.

Lemma least_le hs x : Some x ∈ hs → ∃ m, least hs = Some m ∧ cmp x m ≠ Lt.
Proof. apply least_from_le. Qed.

Lemma least_from_in a hs m : least_from a hs = Some m → a = Some m ∨ Some m ∈ hs.
Proof.
  revert a. induction hs as [|h hs IH]; intros a; simpl; [by left|].
  intros [E|E]%IH; [|right; by right]. destruct a as [x|], h as [y|]; simpl in E.
  - destruct (is_lt (cmp y x)); [|by left]. right. rewrite E. by left.
  - by left.
  - right. rewrite E. by left.
  - done.
Qed.

Lemma least_in hs m : least hs = Some m → Some m ∈ hs.
Proof. intros [?|?]%least_from_in; done. Qed.

(** The names of the heads that are not at the least are above it. *)
Lemma least_lt hs m x : least hs = Some m → Some x ∈ hs → x ≠ m → cmp m x = Lt.
Proof.
  intros Hm Hx Hne. destruct (least_le hs x Hx) as (m' & Hm' & Hle). assert (m' = m) as -> by congruence.
  destruct (cmp x m) eqn:E; [by apply cmp_eq in E|done|]. by rewrite cmp_opp, E.
Qed.

(** The positions of a name. *)
Fixpoint positions (m : Name) (k : nat) (hs : list (option Name)) : list nat :=
  match hs with
  | [] => []
  | h :: hs => (if decide (h = Some m) then [k] else []) ++ positions m (S k) hs
  end.

Lemma positions_elem m k hs j : j ∈ positions m k hs ↔ k ≤ j ∧ hs !! (j - k) = Some (Some m).
Proof.
  revert k. induction hs as [|h hs IH]; intros k; simpl.
  - rewrite elem_of_nil. split; [done|]. by intros [_ ?].
  - rewrite elem_of_app, IH. case_decide as E.
    + rewrite list_elem_of_singleton. split.
      * intros [->|[Hle Hl]]; [by rewrite Nat.sub_diag; subst|]. split; [lia|].
        replace (j - k) with (S (j - S k)) by lia. done.
      * intros [Hle Hl]. destruct (decide (j = k)) as [|Hne]; [by left|right]. split; [lia|].
        replace (j - k) with (S (j - S k)) in Hl by lia. done.
    + rewrite elem_of_nil. split.
      * intros [[]|[Hle Hl]]. split; [lia|]. replace (j - k) with (S (j - S k)) by lia. done.
      * intros [Hle Hl]. right. destruct (decide (j = k)) as [->|Hne].
        -- rewrite Nat.sub_diag in Hl. simpl in Hl. congruence.
        -- split; [lia|]. replace (j - k) with (S (j - S k)) in Hl by lia. done.
Qed.

Lemma positions_nodup m k hs : NoDup (positions m k hs).
Proof.
  revert k. induction hs as [|h hs IH]; intros k; simpl; [constructor|]. case_decide; simpl; [|apply IH].
  constructor; [|apply IH]. rewrite positions_elem. lia.
Qed.

(** *** The step of the merge *)

(** The node a list has at a name, and what is left of it. *)
Definition node_at (m : Name) (l : kidmap) : option Node :=
  match l with (k, c) :: _ => if decide (k = m) then Some c else None | [] => None end.
Definition past (m : Name) (l : kidmap) : kidmap :=
  match l with (k, _) :: l' => if decide (k = m) then l' else l | [] => [] end.

Lemma past_other m l : head_name l ≠ Some m → past m l = l ∧ node_at m l = None.
Proof.
  destruct l as [|[k c] l]; [done|]. simpl. intros H. rewrite !decide_False by congruence. done.
Qed.

Lemma total_of_snoc ns c : ns ≠ [] → total_of (ns ++ [c]) = compose_node (total_of ns) c.
Proof. destruct ns as [|n ns]; [done|]. intros _. simpl. unfold total. by rewrite foldl_app. Qed.

Lemma nodes_at_none m ls : Some m ∉ (head_name <$> ls) → omap (node_at m) ls = [] ∧ past m <$> ls = ls.
Proof.
  induction ls as [|l ls IH]; [done|]. csimpl. rewrite not_elem_of_cons. intros [Hl Hls].
  destruct (past_other m l) as [-> ->]; [congruence|]. destruct (IH Hls) as [-> ->]. done.
Qed.

Lemma nodes_at_some m ls : Some m ∈ (head_name <$> ls) → omap (node_at m) ls ≠ [].
Proof.
  induction ls as [|l ls IH]; [by intros ?%elem_of_nil|]. csimpl. intros [E|Hin]%elem_of_cons.
  - destruct l as [|[k c] l]; [done|]. simpl in E. injection E as <-. simpl. by rewrite decide_True.
  - destruct (node_at m l); [done|]. by apply IH.
Qed.

Lemma omap_snoc {A B} (f : A → option B) l x : omap f (l ++ [x]) = omap f l ++ match f x with Some y => [y] | None => [] end.
Proof. rewrite omap_app. simpl. by destruct (f x). Qed.

Lemma kmerge_step ls :
  kmerge ls = match least (head_name <$> ls) with
              | None => []
              | Some m => (m, total_of (omap (node_at m) ls)) :: kmerge (past m <$> ls)
              end.
Proof.
  induction ls as [|l ls IH] using rev_ind; [done|].
  rewrite kmerge_snoc, fmap_app. csimpl. rewrite least_snoc.
  destruct (least (head_name <$> ls)) as [m|] eqn:El.
  - destruct l as [|[k c] l].
    + simpl. rewrite merge2_nil_r, IH, omap_snoc, fmap_app. csimpl. rewrite app_nil_r, kmerge_snoc, merge2_nil_r. done.
    + simpl head_name. cbn [lower]. rewrite IH. destruct (cmp k m) eqn:E; cbn [is_lt].
      * apply cmp_eq in E as ->. unfold merge2. rewrite merge_eq. cbn [push app].
        rewrite omap_snoc, fmap_app. csimpl. rewrite !decide_True by done.
        rewrite total_of_snoc by (by apply nodes_at_some, least_in). by rewrite kmerge_snoc.
      * unfold merge2. rewrite merge_gt by (by rewrite cmp_opp, E). cbn [push app].
        assert (Hno : Some k ∉ (head_name <$> ls)).
        { intros Hin. destruct (least_le _ _ Hin) as (m' & Em & Hm). congruence. }
        destruct (nodes_at_none k ls Hno) as [En Ep].
        rewrite omap_snoc, fmap_app, En, Ep. csimpl. rewrite !decide_True by done. cbn [app total_of total foldl].
        rewrite kmerge_snoc, IH. done.
      * assert (Hlt : cmp m k = Lt) by (by rewrite cmp_opp, E). unfold merge2. rewrite merge_lt by done. cbn [push app].
        destruct (past_other m ((k, c) :: l)) as [Ep En].
        { simpl. intros [= ->]. by rewrite cmp_refl in Hlt. }
        rewrite omap_snoc, fmap_app, En, app_nil_r.
        change (past m <$> [(k, c) :: l]) with [past m ((k, c) :: l)]. by rewrite Ep, kmerge_snoc.
  - simpl. rewrite IH, merge2_nil_l. assert (Hall : ∀ x, Some x ∉ (head_name <$> ls)).
    { intros x Hin. destruct (least_le _ _ Hin) as (m & Em & _). congruence. }
    destruct l as [|[k c] l]; [done|]. simpl.
    destruct (nodes_at_none k ls (Hall k)) as [En Ep]. rewrite omap_snoc, fmap_app, En, Ep. csimpl.
    rewrite !decide_True by done. cbn [app total_of total foldl]. by rewrite kmerge_snoc, IH, merge2_nil_l.
Qed.

(** *** Compositions of deltas *)

Lemma total_delta n ns : delta n → Forall delta ns → delta (total n ns).
Proof.
  intros Hn Hns. revert n Hn. induction Hns as [|m ns Hm Hns IH]; intros n Hn; [done|]. simpl.
  apply IH. by apply compose_delta.
Qed.

Lemma total_children n ns :
  delta n → Forall delta ns → Forall (λ m, is_backdrop (anchor m) = false) ns →
  children (total n ns) = kmerge (children <$> (n :: ns)).
Proof.
  intros Hn Hns Hb. csimpl. rewrite kmerge_cons. revert n Hn.
  induction Hns as [|m ns Hm Hns IH]; intros n Hn; [done|]. apply Forall_cons in Hb as [Hbm Hb]. csimpl.
  rewrite IH; [|done|by apply compose_delta]. by rewrite delta_children_merge.
Qed.

(** What is left of the nodes once a backdrop erases those below it. *)
Definition keep_above (acc : list Node) (n : Node) : list Node :=
  if is_backdrop (anchor n) then [n] else acc ++ [n].

Lemma total_keep ns :
  Forall delta ns → ns ≠ [] → total_of (foldl keep_above [] ns) = total_of ns ∧
    ∃ k ks, foldl keep_above [] ns = k :: ks ∧ Forall (λ m, is_backdrop (anchor m) = false) ks ∧ Forall delta (k :: ks).
Proof.
  induction ns as [|n ns IH] using rev_ind; [done|]. intros Hd _. apply Forall_app in Hd as [Hd Hn].
  apply Forall_cons in Hn as [Hn _]. rewrite foldl_app. simpl. unfold keep_above at 1 3.
  destruct ns as [|n0 ns].
  { simpl. assert (E : (if is_backdrop (anchor n) then [n] else [n]) = [n]) by (by destruct (is_backdrop (anchor n))).
    rewrite E. split; [done|]. exists n, []. split; [done|]. split; [apply Forall_nil_2|]. apply Forall_cons_2; [done|apply Forall_nil_2]. }
  destruct IH as [E (k & ks & Ek & Hb & Hks)]; [done..|].
  assert (Hne : n0 :: ns ≠ []) by done. destruct (is_backdrop (anchor n)) eqn:En.
  - split.
    + rewrite total_of_snoc by done. rewrite compose_b_backdrop; [done|by apply delta_live|done].
    + exists n, []. split; [done|]. split; [apply Forall_nil_2|]. apply Forall_cons_2; [done|apply Forall_nil_2].
  - rewrite Ek. split.
    + rewrite !total_of_snoc by done. rewrite <- E, Ek. done.
    + exists k, (ks ++ [n]). split_and!; [done| |].
      * apply Forall_app. split; [done|]. apply Forall_cons_2; [done|apply Forall_nil_2].
      * apply Forall_cons in Hks as [? ?]. apply Forall_cons_2; [done|].
        apply Forall_app. split; [done|]. apply Forall_cons_2; [done|apply Forall_nil_2].
Qed.

End Kway.
