(* ===== verification/GitStackedLaws.v ===== *)
(** The stacked reader reads the composition: over an encoded base and encoded
    deltas, the lockstep walk visits exactly the file variants of the layer the
    deltas compose to. *)
From S2P Require Import Prelude.
From S2P Require Import BTreeMap.
From S2P Require Import DepotModel.
From S2P Require Import DepotCompose.
From S2P Require Import DepotLaws.
From S2P Require Import DepotCodec.
From S2P Require Import DepotStream.
From S2P Require Import DepotStreamParse.
From S2P Require Import DepotMerge.
From S2P Require Import DepotWalk.
From S2P Require Import GitDelta.
From S2P Require Import GitLayer.
From S2P Require Import GitEntries.
From S2P Require Import GitStacked.
From S2P Require Import GitKway.
Import GitDelta.
Import GitLayer.
Import GitEntries.
Import GitStacked.
Import Kway.

Local Open Scope Z_scope.
Local Open Scope sarun_scope.

Module StackedLaws.

(** *** One file node *)

Definition node_val (m : Node) : option bytes := kid_val (walk_node m).
Definition put_kid (acc : list (bytes * option bytes)) (kc : Name * Node) : list (bytes * option bytes) :=
  set_kid kc.1 (node_val kc.2) acc.

(** [fold_node_keys] on the node. *)
Definition fold_node (acc : NodeKeys) (n : Node) : NodeKeys :=
  let acc := if w_backdrop (walk_node n) then keys_clear else acc in
  let acc := match payload n with Some b => MkKeys (Some b) (nk_kids acc) | None => acc end in
  MkKeys (nk_blob acc) (foldl put_kid (nk_kids acc) (kids n)).

Lemma parses_fold_kids fuel (cs : btmap Name Node) acc :
  (∀ k c, (k, c) ∈ cs → zlen k < u64_limit ∧ fits c ∧ (length (enc_child (k, c)) + length cs ≤ S fuel)%nat) →
  (length cs ≤ fuel)%nat →
  parses (fold_kids fuel (zlen cs) acc) (concat (enc_child <$> cs))
    (MkKeys (nk_blob acc) (foldl put_kid (nk_kids acc) cs)).
Proof.
  revert fuel acc. induction cs as [|[k c] cs IH]; intros fuel acc Hc Hf.
  { destruct acc. destruct fuel; apply parses_ret. }
  destruct fuel as [|fuel]; simpl in Hf; [lia|].
  destruct (Hc k c ltac:(by left)) as (Hk & Hcf & Hs). unfold enc_child in Hs. cbn [fst snd] in Hs.
  rewrite length_app in Hs. pose proof (put_bytes_size k). cbn [length] in Hs.
  cbn [fold_kids]. rewrite zlen_cons. csimpl.
  destruct (Z.leb_spec (zlen cs + 1) 0); [unfold zlen in *; lia|].
  unfold enc_child at 1. cbn [fst snd]. rewrite <- app_assoc.
  eapply parses_bind; [by apply parses_slice_field|]. cbv beta. rewrite (encode_split c), <- app_assoc.
  pose proof (f_equal length (encode_split c)) as Hl. rewrite length_app in Hl.
  eapply parses_bind; [apply parses_cursor_node; [done|lia]|]. cbv beta.
  eapply parses_bind; [apply parses_skipped; [done|lia]|]. cbv beta.
  replace (zlen cs + 1 - 1) with (zlen cs) by lia.
  apply (IH fuel (MkKeys (nk_blob acc) (set_kid k (kid_val (walk_node c)) (nk_kids acc)))); [|lia].
  intros k' c' Hin. destruct (Hc k' c') as (? & ? & ?); [by right|]. split_and!; [done..|]. cbn [length] in *. lia.
Qed.

Lemma parses_fold_node fuel acc n :
  fits n → (esize n ≤ fuel)%nat → parses (fold_node_keys fuel acc) (encode_node [] n) (fold_node acc n).
Proof.
  intros Hn Hf. unfold fold_node_keys, fold_node. rewrite encode_split.
  pose proof (kids_count n). pose proof (enc_head_pos n).
  eapply parses_bind; [apply parses_cursor_node; [done|lia]|]. cbv beta zeta. rewrite walk_count, walk_blob.
  apply parses_fold_kids; [|lia].
  intros k m Hin. destruct (kid_room n k m Hn Hin) as (? & ? & ?). split_and!; [done..|lia].
Qed.

(** *** The entries of a composed layer *)

Definition live_entry (path : bytes) (slot : Z) (n : Node) : option Entry := assemble path slot (fold_node keys_clear n).

Fixpoint state_entries (path : bytes) (n : Node) : list Entry :=
  if is_tombstone n then [] else
  concat ((λ '(name, c),
    match classify name with
    | Some (KDir g) => state_entries (push_seg path g) c
    | Some (KFile g slot) => opt_list (live_entry (push_seg path g) slot c)
    | None => []
    end) <$> children n).

Definition child_state (path : bytes) (kc : Name * Node) : list Entry :=
  match classify kc.1 with
  | Some (KDir g) => state_entries (push_seg path g) kc.2
  | Some (KFile g slot) => opt_list (live_entry (push_seg path g) slot kc.2)
  | None => []
  end.

Lemma state_children path n : state_entries path n = concat (child_state path <$> kids n).
Proof.
  unfold kids. destruct n as [p b o a an cs]. cbn [state_entries]. destruct (is_tombstone _); [done|].
  f_equal. apply list_fmap_ext. by intros _ [k c] _.
Qed.

(** *** The base alone *)

Lemma parses_base_children child fuel (cs : btmap Name Node) path acc :
  (length cs ≤ fuel)%nat →
  (∀ k c, (k, c) ∈ cs → zlen k < u64_limit ∧ parses (child k) (encode_node [] c) (child_state path (k, c))) →
  parses (base_children child fuel (zlen cs) acc) (concat (enc_child <$> cs)) (acc ++ concat (child_state path <$> cs)).
Proof.
  revert fuel acc. induction cs as [|[k c] cs IH]; intros fuel acc Hf Hc.
  { rewrite app_nil_r. destruct fuel; apply parses_ret. }
  destruct fuel as [|fuel]; simpl in Hf; [lia|].
  cbn [base_children]. rewrite zlen_cons. csimpl.
  destruct (Z.leb_spec (zlen cs + 1) 0); [unfold zlen in *; lia|].
  destruct (Hc k c ltac:(by left)) as [Hk Hs].
  unfold enc_child at 1. cbn [fst snd]. rewrite <- app_assoc.
  eapply parses_bind; [by apply parses_slice_field|]. cbv beta.
  eapply parses_bind; [done|]. cbv beta.
  replace (zlen cs + 1 - 1) with (zlen cs) by lia. rewrite app_assoc.
  apply IH; [lia|]. intros k' c' ?. apply Hc. by right.
Qed.

Lemma parses_base_only fuel name path c :
  fits c → (esize c < fuel)%nat →
  parses (base_only_child fuel name path) (encode_node [] c) (child_state path (name, c)).
Proof.
  revert fuel name path. induction c as [c IH] using node_ind'; intros fuel name path Hc Hf.
  pose proof (kids_count c). pose proof (enc_head_pos c).
  destruct fuel as [|fuel]; [lia|]. cbn [base_only_child]. unfold child_state. cbn [fst snd].
  destruct (classify name) as [[g|g slot]|].
  - rewrite encode_split, state_children.
    eapply parses_bind; [apply parses_cursor_node; [done|lia]|]. cbv beta. rewrite walk_count.
    apply (parses_base_children (λ child, base_only_child fuel child (push_seg path g)) fuel (kids c) _ []); [lia|].
    intros k d Hin. pose proof (enc_kid_size _ _ _ Hin). pose proof (put_bytes_size k).
    destruct (fits_kid _ _ _ Hc Hin). split; [done|]. eapply IH; [by apply kids_elem|done|lia].
  - apply (parses_map _ (λ keys, opt_list (assemble (push_seg path g) slot keys))).
    apply parses_fold_node; [done|lia].
  - apply (parses_map _ (λ _, []) _ tt). apply parses_cursor_skip; [done|lia].
Qed.

(** *** The keys of a composition *)

Fixpoint kid_get (name : bytes) (kids : list (bytes * option bytes)) : option (option bytes) :=
  match kids with
  | [] => None
  | (k, v) :: kids => if decide (k = name) then Some v else kid_get name kids
  end.

Lemma kid_get_set name val kids j :
  kid_get j (set_kid name val kids) = if decide (j = name) then Some val else kid_get j kids.
Proof.
  induction kids as [|[k v] kids IH]; simpl.
  - destruct (decide (name = j)), (decide (j = name)); congruence.
  - unfold bytes_eqb. case_bool_decide as E; simpl.
    + subst. repeat case_decide; congruence.
    + rewrite IH. repeat case_decide; congruence.
Qed.

Lemma set_kid_names name val kids j : j ∈ (set_kid name val kids).*1 ↔ j = name ∨ j ∈ kids.*1.
Proof.
  induction kids as [|[k v] kids IH]; csimpl.
  - rewrite elem_of_cons. pose proof (not_elem_of_nil j). tauto.
  - unfold bytes_eqb. case_bool_decide as E; csimpl; rewrite !elem_of_cons; [subst; tauto|]. rewrite IH. tauto.
Qed.

Lemma set_kid_nodup name val kids : NoDup kids.*1 → NoDup (set_kid name val kids).*1.
Proof.
  induction kids as [|[k v] kids IH]; csimpl; intros Hnd.
  - by apply NoDup_singleton.
  - apply NoDup_cons in Hnd as [Hk Hnd]. unfold bytes_eqb. case_bool_decide as E; csimpl.
    + by constructor.
    + constructor; [|by apply IH]. rewrite set_kid_names. naive_solver.
Qed.

(** The keys say what the node records. *)
Record rep (acc : NodeKeys) (n : Node) : Prop := {
  rep_blob : nk_blob acc = payload n;
  rep_nodup : NoDup (nk_kids acc).*1;
  rep_kids : ∀ k, kid_get k (nk_kids acc) = node_val <$> bt_get k (children n)
}.

Lemma foldl_put_kid (cs : btmap Name Node) acc :
  bt_ok cs = true → NoDup acc.*1 →
  NoDup (foldl put_kid acc cs).*1 ∧
  ∀ k, kid_get k (foldl put_kid acc cs) = match bt_get k cs with Some c => Some (node_val c) | None => kid_get k acc end.
Proof.
  revert acc. induction cs as [|[k c] cs IH]; intros acc Hok Hnd; [done|].
  apply bt_ok_cons in Hok as [Hlt Hok]. cbn [foldl]. destruct (IH (put_kid acc (k, c)) Hok) as [Hn Hg].
  { unfold put_kid. by apply set_kid_nodup. }
  split; [done|]. intros j. rewrite Hg. unfold put_kid. cbn [fst snd]. rewrite kid_get_set.
  destruct (decide (j = k)) as [->|Hne].
  - rewrite bt_get_cons_eq. by rewrite (bt_get_below k cs).
  - by rewrite bt_get_cons_ne.
Qed.

Lemma delta_kids n : delta n → kids n = children n.
Proof. intros Hn. unfold kids. by rewrite (delta_live n Hn). Qed.

Lemma walk_backdrop n : delta n → w_backdrop (walk_node n) = is_backdrop (anchor n).
Proof. intros Hn. unfold walk_node. by rewrite (delta_live n Hn). Qed.

Lemma delta_payload n : delta n → payload n = match blob n with SetBlob b => Some b | _ => None end.
Proof. intros Hn. unfold payload. rewrite (delta_live n Hn). by destruct (blob n). Qed.

Lemma rep_clear n : delta n → rep (fold_node keys_clear n) n.
Proof.
  intros Hn. destruct (foldl_put_kid (children n) [] (delta_ok n Hn)) as [Hnd Hg]; [constructor|].
  unfold fold_node. rewrite (delta_kids n Hn).
  replace (if w_backdrop (walk_node n) then keys_clear else keys_clear) with keys_clear by (by destruct (w_backdrop _)).
  split; cbn [nk_blob nk_kids].
  - by destruct (payload n).
  - by destruct (payload n).
  - intros k. destruct (payload n); cbn [nk_kids keys_clear]; rewrite Hg; by destruct (bt_get k (children n)).
Qed.

(** A file node: its meta children are leaves. *)
Definition flat (n : Node) : Prop := ∀ k m, bt_get k (children n) = Some m → children m = [].

Lemma leaf_val m : delta m → children m = [] → node_val m = match blob m with SetBlob b => Some b | _ => None end ∨
  (is_backdrop (anchor m) = false ∧ blob m = Keep).
Proof.
  intros Hm Hc. unfold node_val, kid_val. rewrite walk_backdrop, walk_blob, delta_payload, walk_count, delta_kids, Hc by done.
  pose proof (delta_blob m Hm). destruct (blob m) eqn:Eb; [|left|done].
  - destruct (is_backdrop (anchor m)); [by left|by right].
  - by rewrite andb_false_r.
Qed.

Lemma leaf_val_kid m : delta m → is_identity m = false → children m = [] →
  node_val m = match blob m with SetBlob b => Some b | _ => None end.
Proof.
  intros Hm Hi Hc. destruct (leaf_val m Hm Hc) as [?|[Hb Hk]]; [done|]. exfalso.
  unfold is_identity in Hi. rewrite (delta_live m Hm), Hk, (delta_opaque m Hm), (delta_attrs m Hm), Hb, Hc in Hi. done.
Qed.

Lemma compose_leaf a b : delta a → delta b → children a = [] → children b = [] → children (compose_node a b) = [].
Proof.
  intros Ha Hb Ca Cb. destruct (is_backdrop (anchor b)) eqn:Ab.
  - by rewrite compose_b_backdrop by (by apply delta_live || done).
  - by rewrite delta_children_merge, Ca, Cb.
Qed.

Lemma compose_leaf_val a b :
  delta a → delta b → is_identity a = false → is_identity b = false → children a = [] → children b = [] →
  node_val (compose_node a b) = node_val b.
Proof.
  intros Ha Hb Ia Ib Ca Cb. destruct (is_backdrop (anchor b)) eqn:Ab.
  { by rewrite compose_b_backdrop by (by apply delta_live || done). }
  destruct (compose_delta a b Ha Hb) as [Hab Hid].
  assert (Iab : is_identity (compose_node a b) = false).
  { destruct (is_identity (compose_node a b)); [|done]. destruct (Hid eq_refl). congruence. }
  rewrite (leaf_val_kid _ Hab Iab (compose_leaf a b Ha Hb Ca Cb)), (leaf_val_kid b Hb Ib Cb).
  destruct (delta_shape a b Ha Hb Ab) as [-> _]. destruct (blob b) eqn:Eb; [|done..].
  unfold is_identity in Ib. by rewrite (delta_live b Hb), Eb, (delta_opaque b Hb), (delta_attrs b Hb), Ab, Cb in Ib.
Qed.

Lemma flat_compose a b : delta a → delta b → flat a → flat b → flat (compose_node a b).
Proof.
  intros Ha Hb Fa Fb k m. destruct (is_backdrop (anchor b)) eqn:Ab.
  { rewrite compose_b_backdrop by (by apply delta_live || done). apply Fb. }
  rewrite delta_compose_kid by done. unfold both_kid.
  destruct (bt_get k (children a)) as [x|] eqn:Ex, (bt_get k (children b)) as [y|] eqn:Ey; try done; intros [= <-].
  - destruct (delta_kid a Ha _ _ Ex), (delta_kid b Hb _ _ Ey). apply compose_leaf; eauto.
  - eauto.
  - eauto.
Qed.

Lemma rep_compose acc a b : delta a → delta b → flat a → flat b → rep acc a → rep (fold_node acc b) (compose_node a b).
Proof.
  intros Ha Hb Fa Fb [Rb Rn Rk]. destruct (is_backdrop (anchor b)) eqn:Ab.
  { rewrite compose_b_backdrop by (by apply delta_live || done).
    destruct (rep_clear b Hb) as [Cb Cn Ck]. unfold fold_node in *. rewrite walk_backdrop, Ab in * by done.
    split; [exact Cb|exact Cn|exact Ck]. }
  destruct (compose_delta a b Ha Hb) as [Hab _]. destruct (delta_shape a b Ha Hb Ab) as [Eb _].
  unfold fold_node. rewrite walk_backdrop, Ab, (delta_kids b Hb) by done. cbv zeta.
  set (acc1 := match payload b with Some x => MkKeys (Some x) (nk_kids acc) | None => acc end).
  assert (Hk1 : nk_kids acc1 = nk_kids acc) by (unfold acc1; by destruct (payload b)).
  destruct (foldl_put_kid (children b) (nk_kids acc) (delta_ok b Hb) Rn) as [Hn Hg].
  split; cbn [nk_blob nk_kids].
  - rewrite (delta_payload _ Hab), Eb. rewrite (delta_payload a Ha) in Rb. unfold acc1. rewrite (delta_payload b Hb).
    pose proof (delta_blob b Hb). by destruct (blob b).
  - by rewrite Hk1.
  - intros k. rewrite Hk1, Hg, delta_compose_kid, Rk by done. unfold both_kid.
    destruct (bt_get k (children a)) as [x|] eqn:Ex, (bt_get k (children b)) as [y|] eqn:Ey; simpl; try done.
    f_equal. destruct (delta_kid a Ha _ _ Ex), (delta_kid b Hb _ _ Ey). symmetry. apply compose_leaf_val; eauto.
Qed.

Lemma rep_total ns n :
  delta n → flat n → Forall delta ns → Forall flat ns →
  rep (foldl fold_node (fold_node keys_clear n) ns) (total n ns) ∧ flat (total n ns).
Proof.
  intros Hn Fn Hns. assert (Hr : rep (fold_node keys_clear n) n) by (by apply rep_clear). revert Hr.
  generalize (fold_node keys_clear n) as acc. intros acc Hr. revert n acc Hn Fn Hr.
  induction Hns as [|m ns Hm Hns IH]; intros n acc Hn Fn Hr Hf; [done|]. apply Forall_cons in Hf as [Fm Hf].
  simpl. apply IH; [by apply compose_delta|by apply flat_compose|by apply rep_compose|done].
Qed.

(** *** Assembling *)

Definition is_tag (k : bytes) : bool := is_some (tag_mode k None).

(** At most one mode tag has a value. *)
Definition one_tag (n : Node) : Prop :=
  ∀ k1 m1 k2 m2, bt_get k1 (children n) = Some m1 → bt_get k2 (children n) = Some m2 →
    is_tag k1 = true → is_tag k2 = true → node_val m1 ≠ None → node_val m2 ≠ None → k1 = k2.

Lemma tag_mode_some k b : is_some (tag_mode k b) = is_tag k.
Proof. unfold is_tag, tag_mode. by repeat destruct (bytes_eqb _ _). Qed.

Lemma tag_not_lanes k : is_tag k = true → bytes_eqb k LANES = false.
Proof.
  unfold is_tag, tag_mode. intros H. apply bytes_eqb_ne. intros ->. vm_compute in H. done.
Qed.

Lemma kid_get_elem k v l : NoDup l.*1 → kid_get k l = Some v ↔ (k, v) ∈ l.
Proof.
  induction l as [|[j w] l IH]; csimpl; intros Hnd; [split; [done|by intros ?%elem_of_nil]|].
  apply NoDup_cons in Hnd as [Hj Hnd]. rewrite elem_of_cons. simpl. case_decide as E.
  - subst. split; [intros [= ->]; by left|]. intros [[= ->]|Hin]; [done|].
    exfalso. apply Hj, list_elem_of_fmap. by exists (k, v).
  - rewrite (IH Hnd). naive_solver.
Qed.

(** Two keys that are not both valued tags are read in any order. *)
Lemma read_key_comm st x y :
  x.1 ≠ y.1 → ¬ (is_tag x.1 = true ∧ is_tag y.1 = true ∧ x.2 ≠ None ∧ y.2 ≠ None) →
  read_key (read_key st x) y = read_key (read_key st y) x.
Proof.
  destruct x as [k v], y as [j w]. cbn [fst snd]. intros Hne Hnt. unfold read_key. cbn [fst snd].
  destruct (bytes_eqb k LANES) eqn:Ek, (bytes_eqb j LANES) eqn:Ej.
  - apply bytes_eqb_eq in Ek, Ej. congruence.
  - destruct w as [w|]; [|done]. by destruct (tag_mode j (Some w)).
  - destruct v as [v|]; [|done]. by destruct (tag_mode k (Some v)).
  - destruct v as [v|], w as [w|]; try done.
    pose proof (tag_mode_some k (Some v)) as Hk. pose proof (tag_mode_some j (Some w)) as Hj.
    destruct (tag_mode k (Some v)), (tag_mode j (Some w)); try done. exfalso. apply Hnt. done.
Qed.

Lemma foldl_read_key_perm l1 l2 st :
  l1 ≡ₚ l2 → NoDup l1.*1 →
  (∀ x y, x ∈ l1 → y ∈ l1 → is_tag x.1 = true → is_tag y.1 = true → x.2 ≠ None → y.2 ≠ None → x.1 = y.1) →
  foldl read_key st l1 = foldl read_key st l2.
Proof.
  intros Hp. revert st. induction Hp as [|x l1 l2 Hp IH|x y l|l1 l2 l3 H1 IH1 H2 IH2]; intros st Hnd Htag; csimpl.
  - done.
  - csimpl in Hnd. apply NoDup_cons in Hnd as [_ Hnd]. apply IH; [done|]. intros a b Ha Hb. apply Htag; by right.
  - f_equal. csimpl in Hnd. apply NoDup_cons in Hnd as [Hx _]. apply not_elem_of_cons in Hx as [Hx _].
    apply read_key_comm; [done|]. intros (T1 & T2 & V1 & V2). apply Hx.
    apply (Htag y x); try done; [by left|by right; left].
  - rewrite IH1 by done. apply IH2.
    + by rewrite <- H1.
    + intros a b Ha Hb. apply Htag; by rewrite H1.
Qed.

Lemma assemble_rep acc1 acc2 n path slot :
  rep acc1 n → rep acc2 n → one_tag n → assemble path slot acc1 = assemble path slot acc2.
Proof.
  intros [B1 N1 K1] [B2 N2 K2] Ht. unfold assemble. rewrite B1, B2. destruct (payload n); [|done].
  assert (Hp : nk_kids acc1 ≡ₚ nk_kids acc2).
  { apply NoDup_Permutation; [by eapply NoDup_fmap_1..|]. intros [k v].
    by rewrite <- !kid_get_elem, K1, K2. }
  rewrite (foldl_read_key_perm _ _ _ Hp); [done|done|].
  intros [k v] [j w] Hx Hy Tx Ty Vx Vy. cbn [fst snd] in *.
  apply kid_get_elem in Hx, Hy; [|done..]. rewrite K1 in Hx, Hy.
  apply fmap_Some in Hx as (m1 & G1 & ->), Hy as (m2 & G2 & ->). by apply (Ht k m1 j m2).
Qed.

(** A file of the composition, read through all its participants. *)
Lemma assemble_total path slot n ns :
  delta n → flat n → Forall delta ns → Forall flat ns → one_tag (total n ns) →
  assemble path slot (foldl fold_node keys_clear (n :: ns)) = live_entry path slot (total n ns).
Proof.
  intros Hn Fn Hns Fns Ht. destruct (rep_total ns n Hn Fn Hns Fns) as [Hr _]. simpl.
  eapply assemble_rep; [exact Hr| |done]. apply rep_clear. by apply total_delta.
Qed.

End StackedLaws.
