(* ===== verification/GitLockstep.v ===== *)
(** The lockstep walk over several encoded deltas visits the variants of their
    composition: the levels, the groups of sources at a name, and the whole
    walk. *)
From S2P Require Import Prelude.
From S2P Require Import BTreeMap.
From S2P Require Import DepotModel.
From S2P Require Import DepotCompose.
From S2P Require Import DepotLaws.
From S2P Require Import DepotCodec.
From S2P Require Import DepotStream.
From S2P Require Import DepotStreamParse.
From S2P Require Import DepotMerge.
From S2P Require Import DepotWalk.
From S2P Require Import GitDelta.
From S2P Require Import GitLayer.
From S2P Require Import GitEntries.
From S2P Require Import GitStacked.
From S2P Require Import GitKway.
From S2P Require Import GitStackedLaws.
Import GitDelta.
Import GitLayer.
Import GitEntries.
Import GitStacked.
Import Kway.
Import StackedLaws.

Local Open Scope Z_scope.
Local Open Scope sarun_scope.

Module Lockstep.

(** *** Sources *)

(** Source [i] has [u] left to read. *)
Definition at_src (srcs : list Reader) (i : nat) (u : bytes) : Prop :=
  ∃ r, srcs !! i = Some r ∧ unread r = u.

(** Only the sources [ids] have moved. *)
Definition only (ids : list nat) (srcs srcs' : list Reader) : Prop := ∀ j, j ∉ ids → srcs' !! j = srcs !! j.

Lemma only_refl ids srcs : only ids srcs srcs.
Proof. by intros j _. Qed.
Lemma only_trans ids1 ids2 ids s1 s2 s3 :
  only ids1 s1 s2 → only ids2 s2 s3 → ids1 ⊆ ids → ids2 ⊆ ids → only ids s1 s3.
Proof. intros H1 H2 S1 S2 j Hj. rewrite H2, H1; set_solver. Qed.
Lemma at_only ids srcs srcs' i u : at_src srcs i u → only ids srcs srcs' → i ∉ ids → at_src srcs' i u.
Proof. intros (r & Hr & Hu) Ho Hi. exists r. by rewrite Ho. Qed.

(** A step on one source. *)
Lemma on_parses {A} (p : Parser A) bs x i u srcs :
  parses p bs x → at_src srcs i (bs ++ u) →
  ∃ srcs', on i p srcs = Some (Ok (x, srcs')) ∧ at_src srcs' i u ∧ only [i] srcs srcs'.
Proof.
  intros Hp (r & Hr & Hu). destruct (run_parses p bs x r u Hp Hu) as [E Hu'].
  exists (<[i := advance r (length bs)]> srcs). unfold on. rewrite Hr, E. split_and!; [done| |].
  - exists (advance r (length bs)). split; [|done]. apply list_lookup_insert_eq. by eapply lookup_lt_Some.
  - intros j Hj. apply list_lookup_insert_ne. set_solver.
Qed.

Lemma srcs_bind_ok {A B} (p : Srcs A) (k : A → Srcs B) srcs a srcs' :
  p srcs = Some (Ok (a, srcs')) → (p ≫= k) srcs = k a srcs'.
Proof. intros E. unfold mbind, srcs_bind. by rewrite E. Qed.

(** *** Levels *)

(** An open source at a level: its index, the children left (the name of the
    first is read already) and what follows them. *)
Abbreviation item := (nat * kidmap * bytes)%type.

Definition kids_bytes (cs : kidmap) : bytes := concat (enc_child <$> cs).
Definition left_of (cs : kidmap) : bytes :=
  match cs with [] => [] | (_, c) :: cs => encode_node [] c ++ kids_bytes cs end.

Definition i_src (x : item) : nat := x.1.1.
Definition i_kids (x : item) : kidmap := x.1.2.
Definition i_rest (x : item) : bytes := x.2.

Definition front_of (x : item) : Front := MkFront (i_src x) (zlen (tail (i_kids x))) (head_name (i_kids x)).

(** A union tree: the children of directories are directories and files. *)
Fixpoint utree (n : Node) : Prop :=
  foldr (λ kc P, (match classify kc.1 with
                  | Some (KDir _) => utree kc.2
                  | Some (KFile _ _) => flat kc.2
                  | None => True
                  end) ∧ P) True (children n).

Lemma utree_kid n k c :
  utree n → (k, c) ∈ children n →
  match classify k with Some (KDir _) => utree c | Some (KFile _ _) => flat c | None => True end.
Proof.
  destruct n as [p b o a an cs]. cbn [utree children]. intros Hu Hin. induction cs as [|[k' c'] cs IH]; [by apply elem_of_nil in Hin|].
  destruct Hu as [Hk Hu]. apply elem_of_cons in Hin as [[= -> ->]|Hin]; [exact Hk|by apply IH].
Qed.

(** The composition has at most one mode tag per file. *)
Fixpoint tidy (n : Node) : Prop :=
  foldr (λ kc P, (match classify kc.1 with
                  | Some (KDir _) => tidy kc.2
                  | Some (KFile _ _) => one_tag kc.2
                  | None => True
                  end) ∧ P) True (children n).
Definition tidy_kid (kc : Name * Node) : Prop :=
  match classify kc.1 with
  | Some (KDir _) => tidy kc.2
  | Some (KFile _ _) => one_tag kc.2
  | None => True
  end.

Lemma tidy_kids n : tidy n ↔ Forall tidy_kid (children n).
Proof.
  destruct n as [p b o a an cs]. cbn [tidy children]. induction cs as [|kc cs IH]; simpl.
  - split; [constructor|done].
  - rewrite Forall_cons, <- IH. done.
Qed.

Record item_ok (x : item) : Prop := {
  io_ok : bt_ok (i_kids x) = true;
  io_kids : ∀ k c, (k, c) ∈ i_kids x → zlen k < u64_limit ∧ fits c ∧ delta c ∧
    match classify k with Some (KDir _) => utree c | Some (KFile _ _) => flat c | None => True end
}.

Record level (srcs : list Reader) (items : list item) : Prop := {
  lv_nodup : NoDup (i_src <$> items);
  lv_items : Forall item_ok items;
  lv_at : ∀ x, x ∈ items → at_src srcs (i_src x) (left_of (i_kids x) ++ i_rest x)
}.

(** Reading ahead. *)
Lemma next_head_spec i cs s srcs h :
  (∀ k c, (k, c) ∈ cs → zlen k < u64_limit) → at_src srcs i (kids_bytes cs ++ s) →
  ∃ srcs', next_head (MkFront i (zlen cs) h) srcs = Some (Ok (front_of (i, cs, s), srcs')) ∧
    at_src srcs' i (left_of cs ++ s) ∧ only [i] srcs srcs'.
Proof.
  intros Hk Hat. unfold next_head. cbn [f_rem f_src]. destruct cs as [|[k c] cs].
  - exists srcs. split_and!; [done|exact Hat|apply only_refl].
  - rewrite zlen_cons. pose proof (zlen_nonneg cs). rewrite (proj2 (Z.ltb_lt 0 _)) by lia.
    unfold kids_bytes in Hat. csimpl in Hat. unfold enc_child at 1 in Hat. cbn [fst snd] in Hat.
    rewrite <- !app_assoc in Hat.
    destruct (on_parses _ _ _ _ _ _ (parses_slice_field k (Hk k c ltac:(by left))) Hat) as (srcs' & E & Hat' & Ho).
    exists srcs'. split_and!.
    + rewrite (srcs_bind_ok _ _ _ _ _ E). unfold mret, srcs_ret, front_of, i_src, i_kids. cbn [fst snd tail head_name].
      by replace (zlen cs + 1 - 1) with (zlen cs) by lia.
    + unfold left_of, kids_bytes. by rewrite <- app_assoc.
    + done.
Qed.

Lemma first_heads_spec items srcs :
  NoDup (i_src <$> items) → Forall item_ok items →
  (∀ x, x ∈ items → at_src srcs (i_src x) (kids_bytes (i_kids x) ++ i_rest x)) →
  ∃ srcs', first_heads ((λ x, (i_src x, zlen (i_kids x))) <$> items) srcs = Some (Ok (front_of <$> items, srcs')) ∧
    level srcs' items ∧ only (i_src <$> items) srcs srcs'.
Proof.
  revert srcs. induction items as [|[[i cs] s] items IH]; intros srcs Hnd Hok Hat.
  { exists srcs. split_and!; [done| |apply only_refl]. split; [done|done|]. by intros x ?%elem_of_nil. }
  apply Forall_cons in Hok as [Hx Hok]. csimpl in Hnd. apply NoDup_cons in Hnd as [Hi Hnd].
  unfold i_src at 1 in Hi. cbn [fst] in Hi.
  destruct (next_head_spec i cs s srcs None) as (srcs1 & E1 & Hat1 & Ho1).
  { intros k c Hin. by destruct (io_kids _ Hx k c Hin). }
  { apply (Hat (i, cs, s)). by left. }
  assert (Hne : ∀ x, x ∈ items → i_src x ≠ i).
  { intros x Hin <-. apply Hi, list_elem_of_fmap. eauto. }
  destruct (IH srcs1 Hnd Hok) as (srcs' & E & Hlv & Ho).
  { intros x Hin. eapply at_only; [apply Hat; by right|exact Ho1|]. rewrite list_elem_of_singleton. by apply Hne. }
  exists srcs'. csimpl. unfold i_src at 1, i_kids at 1. cbn [fst snd]. split_and!.
  - rewrite (srcs_bind_ok _ _ _ _ _ E1), (srcs_bind_ok _ _ _ _ _ E). done.
  - split.
    + csimpl. by constructor.
    + by constructor.
    + intros x [->|Hin]%elem_of_cons; [|by apply (lv_at _ _ Hlv)]. eapply at_only; [exact Hat1|exact Ho|exact Hi].
  - eapply only_trans; [exact Ho1|exact Ho|set_solver|set_solver].
Qed.

(** *** The group at a name *)

(** A participant: its position, its source, its node, and the children and
    bytes after it. *)
Record part : Type := MkPart { p_pos : nat; p_src : nat; p_node : Node; p_kids : kidmap; p_rest : bytes }.

Fixpoint parts (m : Name) (k : nat) (items : list item) : list part :=
  match items with
  | [] => []
  | x :: items =>
      (match i_kids x with
       | (k', c) :: cs => if decide (k' = m) then [MkPart k (i_src x) c cs (i_rest x)] else []
       | [] => []
       end) ++ parts m (S k) items
  end.

Lemma parts_positions m k items : p_pos <$> parts m k items = positions m k (head_name ∘ i_kids <$> items).
Proof.
  revert k. induction items as [|x items IH]; intros k; [done|]. csimpl. rewrite fmap_app, IH. f_equal.
  unfold compose. destruct (i_kids x) as [|[k' c] cs]; simpl; [done|].
  destruct (decide (k' = m)), (decide (Some k' = Some m)); congruence || done.
Qed.

Lemma parts_nodes m k items : p_node <$> parts m k items = omap (node_at m) (i_kids <$> items).
Proof.
  revert k. induction items as [|x items IH]; intros k; [done|]. csimpl. rewrite fmap_app, IH.
  destruct (i_kids x) as [|[k' c] cs]; simpl; [done|]. by destruct (decide (k' = m)).
Qed.

Lemma parts_elem m k items p :
  p ∈ parts m k items ↔ (k ≤ p_pos p)%nat ∧ items !! (p_pos p - k)%nat = Some (p_src p, (m, p_node p) :: p_kids p, p_rest p).
Proof.
  revert k. induction items as [|x items IH]; intros k; simpl.
  - rewrite elem_of_nil. split; [done|]. by intros [_ ?].
  - rewrite elem_of_app, IH. split.
    + intros [Hin|[Hle Hl]].
      * destruct x as [[i cs] s]. unfold i_kids, i_src, i_rest in Hin. cbn [fst snd] in Hin.
        destruct cs as [|[k' c] cs]; [by apply elem_of_nil in Hin|].
        case_decide; [|by apply elem_of_nil in Hin]. apply list_elem_of_singleton in Hin as ->. subst k'. simpl.
        by rewrite Nat.sub_diag.
      * split; [lia|]. replace (p_pos p - k)%nat with (S (p_pos p - S k)) by lia. done.
    + intros [Hle Hl]. destruct (decide (p_pos p = k)) as [<-|Hne].
      * left. rewrite Nat.sub_diag in Hl. injection Hl as ->. unfold i_kids, i_src, i_rest. cbn [fst snd].
        rewrite decide_True by done. apply list_elem_of_singleton. by destruct p.
      * right. split; [lia|]. replace (p_pos p - k)%nat with (S (p_pos p - S k)) in Hl by lia. done.
Qed.

Lemma parts_srcs m k items : NoDup (i_src <$> items) → NoDup (p_src <$> parts m k items).
Proof.
  revert k. induction items as [|x items IH]; intros k Hnd; [constructor|]. csimpl in Hnd.
  apply NoDup_cons in Hnd as [Hx Hnd]. simpl. rewrite fmap_app.
  destruct (i_kids x) as [|[k' c] cs]; [by apply IH|]. case_decide; [|by apply IH]. csimpl.
  constructor; [|by apply IH]. intros (p & E & Hin)%list_elem_of_fmap. apply Hx.
  apply parts_elem in Hin as [_ Hl]. apply list_elem_of_fmap. eexists. split; [|by eapply list_elem_of_lookup_2].
  by unfold i_src.
Qed.

(** The scan finds the least name and its positions. *)
Lemma scan_spec fs k min group :
  (min = None → group = []) →
  scan k fs min group =
    let m' := least_from min (f_head <$> fs) in
    (m', (if decide (m' = min) then group else []) ++
         match m' with Some m => positions m k (f_head <$> fs) | None => [] end).
Proof.
  revert k min group. induction fs as [|f fs IH]; intros k min group Hg.
  { simpl. rewrite decide_True by done. destruct min; by rewrite app_nil_r. }
  cbn [scan]. csimpl. change (least_from min (f_head f :: (f_head <$> fs)))
    with (least_from (lower min (f_head f)) (f_head <$> fs)). destruct (f_head f) as [h|].
  - destruct min as [m|].
    + cbn [lower]. destruct (cmp h m) eqn:E; cbn [is_lt]; rewrite IH by done; cbv zeta.
      * apply cmp_eq in E as ->.
        destruct (least_from_le (Some m) (f_head <$> fs)) as [Hle _]. destruct (Hle m eq_refl) as (m' & Em & Hm).
        rewrite Em. simpl. f_equal. destruct (decide (m = m')) as [->|Hne].
        -- rewrite !decide_True by done. by rewrite <- app_assoc.
        -- rewrite !decide_False by congruence. done.
      * destruct (least_from_le (Some h) (f_head <$> fs)) as [Hle _]. destruct (Hle h eq_refl) as (m' & Em & Hm).
        rewrite Em. simpl. f_equal. rewrite (decide_False (P := Some m' = Some m)).
        -- destruct (decide (h = m')) as [->|Hne]; [by rewrite !decide_True|by rewrite !decide_False by congruence].
        -- intros [= ->]. done.
      * destruct (least_from_le (Some m) (f_head <$> fs)) as [Hle _]. destruct (Hle m eq_refl) as (m' & Em & Hm).
        rewrite Em. simpl. f_equal. rewrite (decide_False (P := Some h = Some m')); [done|].
        intros [= ->]. apply Hm. by rewrite cmp_opp, E.
    + cbn [lower]. rewrite IH by done. cbv zeta. rewrite (Hg eq_refl).
      destruct (least_from_le (Some h) (f_head <$> fs)) as [Hle _]. destruct (Hle h eq_refl) as (m' & Em & Hm).
      rewrite Em. simpl. f_equal. destruct (decide (h = m')) as [->|Hne]; [by rewrite !decide_True|].
      by rewrite !decide_False by congruence.
  - assert (El : lower min None = min) by (by destruct min). rewrite El, IH by done. cbv zeta.
    by f_equal.
Qed.

Lemma front_heads (items : list item) : f_head <$> (front_of <$> items) = (head_name ∘ i_kids <$> items).
Proof. by rewrite <- list_fmap_compose. Qed.

Lemma scan_items items :
  scan 0 (front_of <$> items) None [] =
    match least (head_name ∘ i_kids <$> items) with
    | Some m => (Some m, p_pos <$> parts m 0 items)
    | None => (None, [])
    end.
Proof.
  rewrite scan_spec by done. cbv zeta. rewrite front_heads. fold (least (head_name ∘ i_kids <$> items)).
  destruct (least _) as [m|]; [|by rewrite decide_True]. by rewrite decide_False, parts_positions.
Qed.

(** What the group still has to read. *)
Definition p_left (p : part) : bytes := kids_bytes (p_kids p) ++ p_rest p.

Definition at_parts (srcs : list Reader) (u : part → bytes) (ps : list part) : Prop :=
  ∀ p, p ∈ ps → at_src srcs (p_src p) (u p).

Definition fronted (fs : list Front) (ps : list part) : Prop :=
  ∀ p, p ∈ ps → ∃ f, fs !! p_pos p = Some f ∧ f_src f = p_src p.

Definition parts_fit (fuel : nat) (ps : list part) : Prop :=
  ∀ p, p ∈ ps → fits (p_node p) ∧ (esize (p_node p) ≤ fuel)%nat.

(** A step of the first participant leaves the others where they are. *)
Lemma at_parts_tail srcs srcs' u p ps :
  NoDup (p_src <$> p :: ps) → at_parts srcs u ps → only [p_src p] srcs srcs' → at_parts srcs' u ps.
Proof.
  csimpl. intros [Hp _]%NoDup_cons Hat Ho q Hq. eapply at_only; [by apply Hat|exact Ho|].
  rewrite list_elem_of_singleton. intros E. apply Hp. rewrite <- E. apply list_elem_of_fmap. eauto.
Qed.

Section groups.
Context (fuel : nat) (fs : list Front).

(** One participant after the other, each by the same step. *)
Lemma file_group_spec ps acc srcs :
  NoDup (p_src <$> ps) → fronted fs ps → parts_fit fuel ps →
  at_parts srcs (λ p, encode_node [] (p_node p) ++ p_left p) ps →
  ∃ srcs', file_group fuel fs (p_pos <$> ps) acc srcs = Some (Ok (foldl fold_node acc (p_node <$> ps), srcs')) ∧
    at_parts srcs' p_left ps ∧ only (p_src <$> ps) srcs srcs'.
Proof.
  revert acc srcs. induction ps as [|p ps IH]; intros acc srcs Hnd Hfr Hfit Hat.
  { exists srcs. split_and!; [done| |apply only_refl]. by intros p ?%elem_of_nil. }
  destruct (Hfr p) as (f & Hf & Hs); [by left|]. destruct (Hfit p) as [Hn Hz]; [by left|].
  destruct (on_parses _ _ _ _ _ srcs (parses_fold_node fuel acc (p_node p) Hn Hz) (Hat p ltac:(by left)))
    as (srcs1 & E1 & Hat1 & Ho1).
  pose proof Hnd as [Hp Hnd']%NoDup_cons.
  destruct (IH (fold_node acc (p_node p)) srcs1) as (srcs' & E & Hat' & Ho).
  - done.
  - intros q Hq. apply Hfr. by right.
  - intros q Hq. apply Hfit. by right.
  - eapply at_parts_tail; [exact Hnd| |exact Ho1]. intros q Hq. apply Hat. by right.
  - exists srcs'. csimpl. rewrite Hf, Hs. split_and!.
    + rewrite (srcs_bind_ok _ _ _ _ _ E1). exact E.
    + intros q [->|Hq]%elem_of_cons; [|by apply Hat']. by eapply at_only.
    + eapply only_trans; [exact Ho1|exact Ho|set_solver|set_solver].
Qed.

Lemma skip_group_spec ps srcs :
  NoDup (p_src <$> ps) → fronted fs ps → parts_fit fuel ps →
  at_parts srcs (λ p, encode_node [] (p_node p) ++ p_left p) ps →
  ∃ srcs', skip_group fuel fs (p_pos <$> ps) srcs = Some (Ok (tt, srcs')) ∧
    at_parts srcs' p_left ps ∧ only (p_src <$> ps) srcs srcs'.
Proof.
  revert srcs. induction ps as [|p ps IH]; intros srcs Hnd Hfr Hfit Hat.
  { exists srcs. split_and!; [done| |apply only_refl]. by intros p ?%elem_of_nil. }
  destruct (Hfr p) as (f & Hf & Hs); [by left|]. destruct (Hfit p) as [Hn Hz]; [by left|].
  destruct (on_parses _ _ _ _ _ srcs (parses_cursor_skip fuel (p_node p) Hn Hz) (Hat p ltac:(by left)))
    as (srcs1 & E1 & Hat1 & Ho1).
  pose proof Hnd as [Hp Hnd']%NoDup_cons.
  destruct (IH srcs1) as (srcs' & E & Hat' & Ho).
  - done.
  - intros q Hq. apply Hfr. by right.
  - intros q Hq. apply Hfit. by right.
  - eapply at_parts_tail; [exact Hnd| |exact Ho1]. intros q Hq. apply Hat. by right.
  - exists srcs'. csimpl. rewrite Hf, Hs. split_and!.
    + rewrite (srcs_bind_ok _ _ _ _ _ E1). exact E.
    + intros q [->|Hq]%elem_of_cons; [|by apply Hat']. by eapply at_only.
    + eapply only_trans; [exact Ho1|exact Ho|set_solver|set_solver].
Qed.

(** The participants that stay once a backdrop erases those below it. *)
Definition keep_part (acc : list part) (p : part) : list part :=
  if is_backdrop (anchor (p_node p)) then [p] else acc ++ [p].

Lemma keep_parts_nodes ps acc :
  p_node <$> foldl keep_part acc ps = foldl keep_above (p_node <$> acc) (p_node <$> ps).
Proof.
  revert acc. induction ps as [|p ps IH]; intros acc; [done|]. csimpl. rewrite IH. f_equal.
  unfold keep_part, keep_above. destruct (is_backdrop _); [done|]. by rewrite fmap_app.
Qed.

Lemma keep_parts_sub ps acc p : p ∈ foldl keep_part acc ps → p ∈ acc ∨ p ∈ ps.
Proof.
  revert acc. induction ps as [|q ps IH]; intros acc; [by left|]. simpl. intros [Hin|Hin]%IH.
  - unfold keep_part in Hin. destruct (is_backdrop _).
    + apply list_elem_of_singleton in Hin as ->. right. by left.
    + apply elem_of_app in Hin as [?|E%list_elem_of_singleton]; [by left|]. subst. right. by left.
  - right. by right.
Qed.

(** The children of a participant whose header is read. *)
Definition p_open (p : part) : bytes := kids_bytes (kids (p_node p)) ++ p_left p.

Lemma drop_all_spec ps srcs :
  NoDup (p_src <$> ps) → parts_fit fuel ps → at_parts srcs p_open ps →
  ∃ srcs', drop_all fuel ((λ p, (p_src p, zlen (kids (p_node p)))) <$> ps) srcs = Some (Ok (tt, srcs')) ∧
    at_parts srcs' p_left ps ∧ only (p_src <$> ps) srcs srcs'.
Proof.
  revert srcs. induction ps as [|p ps IH]; intros srcs Hnd Hfit Hat.
  { exists srcs. split_and!; [done| |apply only_refl]. by intros p ?%elem_of_nil. }
  destruct (Hfit p) as [Hn Hz]; [by left|].
  assert (Hsk : parses (skip_children fuel (zlen (kids (p_node p)))) (kids_bytes (kids (p_node p))) tt).
  { rewrite <- walk_count. apply parses_skipped; [done|lia]. }
  destruct (on_parses _ _ _ _ _ srcs Hsk (Hat p ltac:(by left))) as (srcs1 & E1 & Hat1 & Ho1).
  pose proof Hnd as [Hp Hnd']%NoDup_cons.
  destruct (IH srcs1) as (srcs' & E & Hat' & Ho).
  - done.
  - intros q Hq. apply Hfit. by right.
  - eapply at_parts_tail; [exact Hnd| |exact Ho1]. intros q Hq. apply Hat. by right.
  - exists srcs'. csimpl. split_and!.
    + rewrite (srcs_bind_ok _ _ _ _ _ E1). exact E.
    + intros q [->|Hq]%elem_of_cons; [|by apply Hat']. by eapply at_only.
    + eapply only_trans; [exact Ho1|exact Ho|set_solver|set_solver].
Qed.

(** A participant that is done, or still open where it stays. *)
Definition settled (srcs : list Reader) (kept ps : list part) : Prop :=
  at_parts srcs p_open kept ∧ ∀ p, p ∈ ps → p ∉ kept → at_src srcs (p_src p) (p_left p).

Lemma nodup_src_inj (ps : list part) p q : NoDup (p_src <$> ps) → p ∈ ps → q ∈ ps → p_src p = p_src q → p = q.
Proof.
  induction ps as [|x ps IH]; [by intros _ ?%elem_of_nil|]. csimpl. intros [Hx Hnd]%NoDup_cons Hp Hq E.
  assert (Hno : ∀ y, y ∈ ps → p_src y ≠ p_src x) by (intros y Hy Ey; apply Hx; rewrite <- Ey; apply list_elem_of_fmap; eauto).
  apply elem_of_cons in Hp as [->|Hp], Hq as [->|Hq]; [done| | |by apply IH].
  - exfalso. by apply (Hno q).
  - exfalso. by apply (Hno p).
Qed.

Lemma dir_group_spec ps kept srcs :
  NoDup (p_src <$> kept ++ ps) → Forall (λ p, delta (p_node p)) ps → fronted fs ps → parts_fit fuel (kept ++ ps) →
  at_parts srcs p_open kept → at_parts srcs (λ p, encode_node [] (p_node p) ++ p_left p) ps →
  ∃ srcs', dir_group fuel fs (p_pos <$> ps) ((λ p, (p_src p, zlen (kids (p_node p)))) <$> kept) srcs
      = Some (Ok ((λ p, (p_src p, zlen (kids (p_node p)))) <$> foldl keep_part kept ps, srcs')) ∧
    settled srcs' (foldl keep_part kept ps) (kept ++ ps) ∧ only (p_src <$> kept ++ ps) srcs srcs'.
Proof.
  revert kept srcs. induction ps as [|p ps IH]; intros kept srcs Hnd Hd Hfr Hfit Hk Hat.
  { exists srcs. split_and!; [done| |apply only_refl]. split; [done|]. rewrite app_nil_r. done. }
  destruct (Hfr p) as (f & Hf & Hs); [by left|]. apply Forall_cons in Hd as [Hdp Hd].
  destruct (Hfit p) as [Hn Hz]; [set_solver|]. pose proof (kids_count (p_node p)). pose proof (Hat p ltac:(by left)) as Hp.
  cbv beta in Hp. rewrite encode_split, <- app_assoc in Hp.
  destruct (on_parses _ _ _ _ _ srcs (parses_cursor_node fuel (p_node p) Hn ltac:(lia)) Hp) as (srcs1 & E1 & Hat1 & Ho1).
  assert (Hpk : p_src p ∉ p_src <$> kept).
  { rewrite fmap_app in Hnd. apply NoDup_app in Hnd as (_ & Hdis & _). intros Hin. apply (Hdis _ Hin). csimpl. by left. }
  assert (Hndp : NoDup (p_src <$> p :: ps)) by (rewrite fmap_app in Hnd; by apply NoDup_app in Hnd as (_ & _ & ?)).
  assert (Hk1 : at_parts srcs1 p_open kept).
  { intros q Hq. eapply at_only; [by apply Hk|exact Ho1|]. rewrite list_elem_of_singleton. intros Eq.
    apply Hpk. rewrite <- Eq. apply list_elem_of_fmap. eauto. }
  assert (Hps1 : at_parts srcs1 (λ p, encode_node [] (p_node p) ++ p_left p) ps).
  { eapply at_parts_tail; [exact Hndp| |exact Ho1]. intros q Hq. apply Hat. by right. }
  csimpl. rewrite Hf, Hs. rewrite (srcs_bind_ok _ _ _ _ _ E1).
  rewrite walk_backdrop, walk_count by done. unfold keep_part at 2 4.
  destruct (is_backdrop (anchor (p_node p))) eqn:Eb.
  - destruct (drop_all_spec kept srcs1) as (srcs2 & E2 & Hat2 & Ho2).
    { rewrite fmap_app in Hnd. by apply NoDup_app in Hnd as (? & _ & _). }
    { intros q Hq. apply Hfit. set_solver. }
    { done. }
    destruct (IH [p] srcs2) as (srcs' & E & [Hop Hcl] & Ho).
    + exact Hndp.
    + done.
    + intros q Hq. apply Hfr. by right.
    + intros q Hq. apply Hfit. set_solver.
    + intros q Eq%list_elem_of_singleton. subst q. eapply at_only; [exact Hat1|exact Ho2|exact Hpk].
    + intros q Hq. eapply at_only; [by apply Hps1|exact Ho2|]. intros Hin.
      rewrite fmap_app in Hnd. apply NoDup_app in Hnd as (_ & Hdis & _). apply (Hdis _ Hin). csimpl. right.
      apply list_elem_of_fmap. eauto.
    + exists srcs'. split_and!.
      * rewrite (srcs_bind_ok (_ ← drop_all _ _; mret []) _ srcs1 [] srcs2); [exact E|].
        by rewrite (srcs_bind_ok _ _ _ _ _ E2).
      * split; [exact Hop|]. intros q Hq Hnk. apply elem_of_app in Hq as [Hq|Hq].
        -- eapply at_only; [by apply Hat2|exact Ho|]. intros Hin. rewrite fmap_app in Hnd.
           apply NoDup_app in Hnd as (_ & Hdis & _). apply (Hdis (p_src q)); [apply list_elem_of_fmap; eauto|exact Hin].
        -- apply Hcl; [|done]. set_solver.
      * eapply only_trans; [exact Ho1| |set_solver|reflexivity].
        eapply only_trans; [exact Ho2|exact Ho| |]; rewrite fmap_app; set_solver.
  - destruct (IH (kept ++ [p]) srcs1) as (srcs' & E & [Hop Hcl] & Ho).
    + by rewrite <- app_assoc.
    + done.
    + intros q Hq. apply Hfr. by right.
    + rewrite <- app_assoc. done.
    + intros q [Hq|Eq%list_elem_of_singleton]%elem_of_app; [by apply Hk1|]. subst q. exact Hat1.
    + done.
    + exists srcs'. rewrite <- app_assoc in *. split_and!.
      * rewrite (srcs_bind_ok (mret _) _ srcs1 _ srcs1 eq_refl). rewrite fmap_app in E. exact E.
      * split; [exact Hop|exact Hcl].
      * eapply only_trans; [exact Ho1|exact Ho| |reflexivity]. rewrite fmap_app. set_solver.
Qed.

End groups.

(** *** Advancing *)

Definition p_item (p : part) : item := (p_src p, p_kids p, p_rest p).

Lemma advance_group_spec ps fs srcs :
  NoDup (p_pos <$> ps) → NoDup (p_src <$> ps) →
  (∀ p, p ∈ ps → ∃ h, fs !! p_pos p = Some (MkFront (p_src p) (zlen (p_kids p)) h)) →
  (∀ p k c, p ∈ ps → (k, c) ∈ p_kids p → zlen k < u64_limit) → at_parts srcs p_left ps →
  ∃ fs' srcs', advance_group fs (p_pos <$> ps) srcs = Some (Ok (fs', srcs')) ∧
    (∀ p, p ∈ ps → fs' !! p_pos p = Some (front_of (p_item p))) ∧
    (∀ k, k ∉ p_pos <$> ps → fs' !! k = fs !! k) ∧
    at_parts srcs' (λ p, left_of (p_kids p) ++ p_rest p) ps ∧ only (p_src <$> ps) srcs srcs'.
Proof.
  revert fs srcs. induction ps as [|p ps IH]; intros fs srcs Hpos Hnd Hfr Hk Hat.
  { exists fs, srcs. split_and!; [done| |done| |apply only_refl]; by intros p ?%elem_of_nil. }
  destruct (Hfr p) as (h & Hf); [by left|].
  destruct (next_head_spec (p_src p) (p_kids p) (p_rest p) srcs h) as (srcs1 & E1 & Hat1 & Ho1).
  { intros k c. apply Hk. by left. }
  { apply Hat. by left. }
  pose proof Hnd as [Hs Hnd']%NoDup_cons. pose proof Hpos as [Hp Hpos']%NoDup_cons.
  assert (Hne : ∀ q, q ∈ ps → p_pos q ≠ p_pos p) by (intros q Hq Eq; apply Hp; rewrite <- Eq; apply list_elem_of_fmap; eauto).
  destruct (IH (<[p_pos p := front_of (p_item p)]> fs) srcs1) as (fs' & srcs' & E & Hin & Hout & Hat' & Ho).
  - done.
  - done.
  - intros q Hq. rewrite list_lookup_insert_ne by (apply not_eq_sym; by apply Hne). apply Hfr. by right.
  - intros q k c Hq. apply Hk. by right.
  - eapply at_parts_tail; [exact Hnd| |exact Ho1]. intros q Hq. apply Hat. by right.
  - exists fs', srcs'. csimpl. rewrite Hf. split_and!.
    + rewrite (srcs_bind_ok _ _ _ _ _ E1). exact E.
    + intros q [->|Hq]%elem_of_cons; [|by apply Hin]. rewrite Hout by exact Hp.
      apply list_lookup_insert_eq. by eapply lookup_lt_Some.
    + intros k [Hkp Hkps]%not_elem_of_cons. rewrite Hout by done. by apply list_lookup_insert_ne.
    + intros q [->|Hq]%elem_of_cons; [|by apply Hat']. by eapply at_only.
    + eapply only_trans; [exact Ho1|exact Ho|set_solver|set_solver].
Qed.

Definition past_item (m : Name) (x : item) : item := (i_src x, past m (i_kids x), i_rest x).

Lemma past_fronts m items fs' :
  (∀ p, p ∈ parts m 0 items → fs' !! p_pos p = Some (front_of (p_item p))) →
  (∀ k, k ∉ p_pos <$> parts m 0 items → fs' !! k = (front_of <$> items) !! k) →
  fs' = front_of <$> (past_item m <$> items).
Proof.
  intros Hin Hout. apply list_eq. intros k. rewrite !list_lookup_fmap.
  destruct (decide (k ∈ p_pos <$> parts m 0 items)) as [Hk|Hk].
  - apply list_elem_of_fmap in Hk as (p & -> & Hp). rewrite (Hin p Hp).
    apply parts_elem in Hp as [_ Hl]. rewrite Nat.sub_0_r in Hl. rewrite Hl. simpl.
    unfold past_item, i_src, i_kids, i_rest. simpl. by rewrite decide_True.
  - rewrite (Hout k Hk), list_lookup_fmap. destruct (items !! k) as [x|] eqn:El; [|done]. simpl. f_equal.
    unfold past_item, front_of, i_src, i_kids, i_rest. cbn [fst snd]. destruct x as [[i cs] s]. cbn [fst snd].
    destruct (past_other m cs) as [-> _]; [|done]. intros Eh. apply Hk. destruct cs as [|[k' c] cs]; [done|].
    injection Eh as ->. apply list_elem_of_fmap. exists (MkPart k i c cs s). split; [done|].
    apply parts_elem. cbn [p_pos]. rewrite Nat.sub_0_r. split; [lia|done].
Qed.

Lemma past_src m (items : list item) : i_src <$> (past_item m <$> items) = i_src <$> items.
Proof. rewrite <- list_fmap_compose. by apply list_fmap_ext. Qed.

Lemma past_lists m (items : list item) : i_kids <$> (past_item m <$> items) = past m <$> (i_kids <$> items).
Proof. rewrite <- !list_fmap_compose. by apply list_fmap_ext. Qed.

Lemma past_ok m x : item_ok x → item_ok (past_item m x).
Proof.
  intros [Hok Hk]. destruct x as [[i cs] s]. unfold past_item, i_src, i_kids, i_rest in *. cbn [fst snd] in *.
  split; unfold i_kids; cbn [fst snd]; destruct cs as [|[k c] cs]; simpl; try done.
  - case_decide; [|done]. by apply bt_ok_cons in Hok as [_ ?].
  - case_decide; [|done]. intros k' c' Hin. apply Hk. by right.
Qed.

(** A level after its least name. *)
Lemma level_past m srcs srcs' items :
  level srcs items → at_parts srcs' (λ p, left_of (p_kids p) ++ p_rest p) (parts m 0 items) →
  only (p_src <$> parts m 0 items) srcs srcs' → level srcs' (past_item m <$> items).
Proof.
  intros [Hnd Hok Hat] Hps Ho. split.
  - by rewrite past_src.
  - apply Forall_fmap. eapply Forall_impl; [exact Hok|]. intros x. apply past_ok.
  - intros x (y & -> & Hin)%list_elem_of_fmap. pose proof Hin as [k Hl]%list_elem_of_lookup.
    destruct y as [[i cs] s]. unfold past_item, i_src, i_kids, i_rest. cbn [fst snd].
    destruct (decide (head_name cs = Some m)) as [Eh|Eh].
    + destruct cs as [|[k' c] cs]; [done|]. injection Eh as ->. simpl. rewrite decide_True by done.
      apply (Hps (MkPart k i c cs s)). apply parts_elem. cbn [p_pos]. rewrite Nat.sub_0_r. split; [lia|done].
    + destruct (past_other m cs Eh) as [-> _]. eapply at_only; [apply (Hat _ Hin)|exact Ho|].
      intros (p & Ep & Hp)%list_elem_of_fmap. apply parts_elem in Hp as [_ Hlp]. rewrite Nat.sub_0_r in Hlp.
      assert (k = p_pos p) as ->.
      { eapply NoDup_lookup; [exact Hnd| |]; rewrite list_lookup_fmap; [by rewrite Hl|].
        rewrite Hlp. simpl. by unfold i_src in *; cbn [fst snd] in *; rewrite Ep. }
      rewrite Hlp in Hl. injection Hl as <- <- <-. done.
Qed.

(** *** The base's turn *)

Lemma delta_min_spec k fs kb acc :
  (∀ x, acc = Some x → ∃ d, delta_min (Some kb) k fs acc = Some d ∧ cmp x d ≠ Lt) ∧
  (∀ j f h, fs !! j = Some f → f_head f = Some h → (k + j)%nat ≠ kb →
     ∃ d, delta_min (Some kb) k fs acc = Some d ∧ cmp h d ≠ Lt).
Proof.
  revert k acc. induction fs as [|f fs IH]; intros k acc.
  { split; [intros x ->; exists x; by rewrite cmp_refl|]. by intros j f h ?. }
  cbn [delta_min]. set (acc1 := match f_head f with Some h => _ | None => _ end).
  destruct (IH (S k) acc1) as [Ha Hin]. split.
  - intros x ->. assert (Hx : ∃ y, acc1 = Some y ∧ cmp x y ≠ Lt).
    { unfold acc1. destruct (f_head f) as [h|]; [|exists x; by rewrite cmp_refl].
      case_decide; [exists x; by rewrite cmp_refl|]. cbn [min_name]. destruct (cmp h x) eqn:E; cbn [is_lt].
      - exists x. by rewrite cmp_refl.
      - exists h. by rewrite cmp_opp, E.
      - exists x. by rewrite cmp_refl. }
    destruct Hx as (y & Ey & Hxy). destruct (Ha y Ey) as (d & Ed & Hyd). exists d. split; [done|].
    intros Hlt. apply Hxy. destruct (cmp y d) eqn:Eyd; [apply cmp_eq in Eyd; by subst|done|].
    eapply cmp_lt_trans; [exact Hlt|]. by rewrite cmp_opp, Eyd.
  - intros [|j] g h Hg Hh Hne.
    + injection Hg as ->. assert (Hx : ∃ y, acc1 = Some y ∧ cmp h y ≠ Lt).
      { unfold acc1. rewrite Hh. rewrite decide_False by (intros [= Ek]; lia). destruct acc as [x|]; cbn [min_name].
        - destruct (cmp h x) eqn:E; cbn [is_lt]; [exists x; by rewrite E|exists h; by rewrite cmp_refl|exists x; by rewrite E].
        - exists h. by rewrite cmp_refl. }
      destruct Hx as (y & Ey & Hhy). destruct (Ha y Ey) as (d & Ed & Hyd). exists d. split; [done|].
      intros Hlt. apply Hhy. destruct (cmp y d) eqn:Eyd; [apply cmp_eq in Eyd; by subst|done|].
      eapply cmp_lt_trans; [exact Hlt|]. by rewrite cmp_opp, Eyd.
    + eapply (Hin j); [done|done|lia].
Qed.

Lemma nodup_single (l : list nat) k : NoDup l → (∀ j, j ∈ l ↔ j = k) → l = [k].
Proof.
  intros Hnd Hl. destruct l as [|x [|y l]].
  - exfalso. by apply (not_elem_of_nil k), Hl.
  - f_equal. apply Hl. by left.
  - exfalso. apply NoDup_cons in Hnd as [Hx _]. apply Hx.
    assert (x = k) as -> by (apply Hl; by left). assert (y = k) as -> by (apply Hl; right; by left). by left.
Qed.

(** The base is read alone exactly where it alone has the least name. *)
Lemma base_first_spec kb items k b bh :
  base_first kb (front_of <$> items) = Some (k, b, bh) →
  least (head_name ∘ i_kids <$> items) = Some bh ∧ (front_of <$> items) !! k = Some b ∧
  ∃ p, parts bh 0 items = [p] ∧ p_pos p = k.
Proof.
  unfold base_first. destruct kb as [kb|]; [|done]. destruct ((front_of <$> items) !! kb) as [f|] eqn:Ef; [|done].
  destruct (f_head f) as [h|] eqn:Eh; [|done]. destruct (match delta_min _ _ _ _ with Some d => _ | None => _ end) eqn:Ec; [|done].
  intros [= <- <- <-].
  assert (Hlt : ∀ j g x, (front_of <$> items) !! j = Some g → f_head g = Some x → j ≠ kb → cmp h x = Lt).
  { intros j g x Hg Hx Hj. destruct (delta_min_spec 0 (front_of <$> items) kb None) as [_ Hd].
    destruct (Hd j g x Hg Hx ltac:(lia)) as (d & Ed & Hxd). rewrite Ed in Ec. destruct (cmp h d) eqn:Ehd; [done| |done].
    destruct (cmp x d) eqn:Exd; [apply cmp_eq in Exd; by subst|done|]. eapply cmp_lt_trans; [exact Ehd|]. by rewrite cmp_opp, Exd. }
  assert (Hheads : ∀ j x, (head_name ∘ i_kids <$> items) !! j = Some (Some x) → j ≠ kb → cmp h x = Lt).
  { intros j x Hj Hne. rewrite <- front_heads, list_lookup_fmap in Hj.
    apply fmap_Some in Hj as (g & Hg & Hx). by eapply (Hlt j g x). }
  assert (Hk : (head_name ∘ i_kids <$> items) !! kb = Some (Some h)).
  { rewrite <- front_heads, list_lookup_fmap, Ef. simpl. by rewrite Eh. }
  split_and!; [|done|].
  - destruct (least_le _ h (list_elem_of_lookup_2 _ _ _ Hk)) as (m & Em & Hm). rewrite Em. f_equal.
    pose proof (least_in _ _ Em) as [j Hj]%list_elem_of_lookup. destruct (decide (j = kb)) as [->|Hne]; [congruence|].
    exfalso. apply Hm. by eapply Hheads.
  - assert (Hpos : p_pos <$> parts h 0 items = [kb]).
    { rewrite parts_positions. apply nodup_single; [apply positions_nodup|]. intros j.
      rewrite positions_elem, Nat.sub_0_r. split; [|intros ->; split; [lia|done]].
      intros [_ Hj]. destruct (decide (j = kb)) as [|Hne]; [done|]. specialize (Hheads j h Hj Hne). by rewrite cmp_refl in Hheads. }
    destruct (parts h 0 items) as [|p [|q ps]]; try done. injection Hpos as <-. by exists p.
Qed.

(** *** The loop *)

Definition lweight (items : list item) : nat := sum_list_with (λ x, length (left_of (i_kids x))) items.
Definition kweight (items : list item) : nat := sum_list_with (λ x, length (kids_bytes (i_kids x))) items.
Definition psize (ps : list part) : nat := sum_list_with (λ p, esize (p_node p)) ps.

Definition level_entries (path : bytes) (items : list item) : list Entry :=
  concat (child_state path <$> kmerge (i_kids <$> items)).

Lemma left_of_le cs : (length (left_of cs) ≤ length (kids_bytes cs))%nat.
Proof.
  destruct cs as [|[k c] cs]; [done|]. unfold left_of, kids_bytes. csimpl. unfold enc_child at 2. cbn [fst snd].
  rewrite !length_app. lia.
Qed.

Lemma lweight_past m k items :
  (lweight (past_item m <$> items) + psize (parts m k items) ≤ lweight items)%nat.
Proof.
  revert k. induction items as [|[[i cs] s] items IH]; intros k; [done|]. specialize (IH (S k)).
  unfold lweight, psize in *. csimpl. rewrite sum_list_with_app.
  unfold i_kids, i_src, i_rest in *. cbn [fst snd]. destruct cs as [|[k' c] cs]; [simpl in *; lia|].
  change ((past_item m (i, (k', c) :: cs, s)).1.2) with (past m ((k', c) :: cs)). cbn [past].
  case_decide as E; simpl in *; [|lia]. pose proof (left_of_le cs). rewrite length_app. lia.
Qed.

Lemma psize_elem ps p : p ∈ ps → (esize (p_node p) ≤ psize ps)%nat.
Proof.
  unfold psize. induction ps as [|q ps IH]; [by intros ?%elem_of_nil|]. csimpl. intros [->|Hin]%elem_of_cons; simpl; [lia|].
  specialize (IH Hin). lia.
Qed.

Lemma psize_keep ps acc : (psize (foldl keep_part acc ps) ≤ psize acc + psize ps)%nat.
Proof.
  revert acc. induction ps as [|p ps IH]; intros acc; simpl; [lia|]. etransitivity; [apply IH|].
  unfold psize in *. csimpl. unfold keep_part. destruct (is_backdrop _); simpl; [lia|].
  rewrite sum_list_with_app. simpl. lia.
Qed.

(** What a walk of a level does. *)
Definition walks (rec : list (nat * Z) → bytes → Srcs (list Entry)) (w : nat) : Prop :=
  ∀ items path srcs,
    NoDup (i_src <$> items) → Forall item_ok items → Forall tidy_kid (kmerge (i_kids <$> items)) →
    (∀ x, x ∈ items → at_src srcs (i_src x) (kids_bytes (i_kids x) ++ i_rest x)) → (kweight items < w)%nat →
    ∃ srcs', rec ((λ x, (i_src x, zlen (i_kids x))) <$> items) path srcs = Some (Ok (level_entries path items, srcs')) ∧
      (∀ x, x ∈ items → at_src srcs' (i_src x) (i_rest x)) ∧ only (i_src <$> items) srcs srcs'.

(** The participants of a level, as its sources show them. *)
Lemma parts_at m srcs items :
  level srcs items → at_parts srcs (λ p, encode_node [] (p_node p) ++ p_left p) (parts m 0 items).
Proof.
  intros [_ _ Hat] p Hp. apply parts_elem in Hp as [_ Hl]. apply list_elem_of_lookup_2 in Hl.
  specialize (Hat _ Hl). unfold i_src, i_kids, i_rest in Hat. cbn [fst snd left_of] in Hat.
  unfold p_left. by rewrite app_assoc.
Qed.

Lemma parts_kid m srcs items p :
  level srcs items → p ∈ parts m 0 items →
  (fits (p_node p) ∧ delta (p_node p) ∧
   match classify m with Some (KDir _) => utree (p_node p) | Some (KFile _ _) => flat (p_node p) | None => True end) ∧
  ∀ k c, (k, c) ∈ p_kids p → zlen k < u64_limit.
Proof.
  intros [_ Hok _] Hp. apply parts_elem in Hp as [_ Hl]. apply list_elem_of_lookup_2 in Hl.
  rewrite Forall_forall in Hok. pose proof (io_kids _ (Hok _ Hl)) as Hk. unfold i_kids in Hk. cbn [fst snd] in Hk. split.
  - destruct (Hk m (p_node p)) as (_ & ? & ? & ?); [by left|]. done.
  - intros k c Hin. destruct (Hk k c) as [? _]; [by right|]. done.
Qed.

Lemma parts_front m items p :
  p ∈ parts m 0 items → (front_of <$> items) !! p_pos p = Some (MkFront (p_src p) (zlen (p_kids p)) (Some m)).
Proof.
  intros Hp. apply parts_elem in Hp as [_ Hl]. rewrite Nat.sub_0_r in Hl. by rewrite list_lookup_fmap, Hl.
Qed.

(** The directory of a group: its kept participants make a level. *)
Definition sub_item (p : part) : item := (p_src p, kids (p_node p), p_left p).

Lemma sub_kweight ps : (kweight (sub_item <$> ps) + length ps ≤ psize ps)%nat.
Proof.
  unfold kweight, psize. induction ps as [|p ps IH]; [done|]. csimpl. unfold i_kids at 1, sub_item at 1. cbn [fst snd].
  pose proof (f_equal length (encode_split (p_node p))) as Hl. rewrite length_app in Hl. fold (kids_bytes (kids (p_node p))) in Hl.
  pose proof (enc_head_pos (p_node p)). lia.
Qed.

Lemma keep_sublist ps acc : foldl keep_part acc ps `sublist_of` acc ++ ps.
Proof.
  revert acc. induction ps as [|p ps IH]; intros acc; simpl; [by rewrite app_nil_r|]. etransitivity; [apply IH|].
  unfold keep_part. destruct (is_backdrop _); [|by rewrite <- app_assoc].
  by apply sublist_inserts_l.
Qed.

Lemma sub_items_ok m g srcs items p :
  level srcs items → classify m = Some (KDir g) → p ∈ parts m 0 items → item_ok (sub_item p).
Proof.
  intros Hlv Ec Hp. destruct (parts_kid m srcs items p Hlv Hp) as [(Hf & Hd & Hu) _]. rewrite Ec in Hu.
  unfold sub_item. split; unfold i_kids; cbn [fst snd]; rewrite (delta_kids _ Hd); [by apply delta_ok|].
  intros k c Hin. assert (Hin' : (k, c) ∈ kids (p_node p)) by (by rewrite delta_kids).
  destruct (fits_kid _ _ _ Hf Hin'), (delta_elem _ Hd k c Hin). split_and!; [done..|]. by eapply utree_kid.
Qed.

Lemma dir_entries ps path :
  ps ≠ [] → Forall (λ p, delta (p_node p)) ps →
  kmerge (i_kids <$> (sub_item <$> foldl keep_part [] ps)) = children (total_of (p_node <$> ps)) ∧
  level_entries path (sub_item <$> foldl keep_part [] ps) = state_entries path (total_of (p_node <$> ps)).
Proof.
  intros Hne Hd. destruct (total_keep (p_node <$> ps)) as (Et & k & ks & Ek & Hb & Hks).
  { by apply Forall_fmap. }
  { by destruct ps. }
  assert (Hm : kmerge (i_kids <$> (sub_item <$> foldl keep_part [] ps)) = children (total_of (p_node <$> ps))).
  { rewrite <- Et. rewrite <- (list_fmap_compose sub_item i_kids).
    rewrite (list_fmap_ext (i_kids ∘ sub_item) (kids ∘ p_node) _) by done. rewrite list_fmap_compose.
    rewrite keep_parts_nodes. change (p_node <$> []) with (@nil Node). rewrite Ek. pose proof Hks as [Hk Hks']%Forall_cons. simpl total_of.
    rewrite total_children by done. f_equal. apply list_fmap_ext. intros j n Hj. apply delta_kids.
    rewrite Forall_forall in Hks. apply Hks. by eapply list_elem_of_lookup_2. }
  split; [exact Hm|]. unfold level_entries. rewrite Hm, state_children. unfold kids.
  rewrite <- Et, Ek. pose proof Hks as [Hk Hks']%Forall_cons. simpl total_of.
  by rewrite (delta_live _ (total_delta k ks Hk Hks')).
Qed.

(** The entries of one name of a level, by all its participants. *)
Definition visit_group (rec : list (nat * Z) → bytes → Srcs (list Entry)) (fuel : nat) (fs : list Front)
    (path : bytes) (min : Name) (group : list nat) : Srcs (list Entry) :=
  match classify min with
  | Some (KDir gitname) => sub ← dir_group fuel fs group []; rec sub (push_seg path gitname)
  | Some (KFile gitname slot) =>
      keys ← file_group fuel fs group keys_clear;
      mret (opt_list (assemble (push_seg path gitname) slot keys))
  | None => _ ← skip_group fuel fs group; mret []
  end.

(** A directory: what its group shows together. *)
Lemma visit_dir_spec rec w fuel fs ps path srcs :
  walks rec w → NoDup (p_src <$> ps) → fronted fs ps → parts_fit fuel ps → Forall (λ p, delta (p_node p)) ps →
  (∀ p, p ∈ ps → item_ok (sub_item p)) → ps ≠ [] → (psize ps ≤ w)%nat →
  at_parts srcs (λ p, encode_node [] (p_node p) ++ p_left p) ps → tidy (total_of (p_node <$> ps)) →
  ∃ srcs', (sub ← dir_group fuel fs (p_pos <$> ps) []; rec sub path) srcs
      = Some (Ok (state_entries path (total_of (p_node <$> ps)), srcs')) ∧
    at_parts srcs' p_left ps ∧ only (p_src <$> ps) srcs srcs'.
Proof.
  intros Hrec Hnd Hfr Hfit Hd Hok Hne Hw Hat Ht.
  destruct (dir_group_spec fuel fs ps [] srcs) as (srcs1 & E1 & [Hop Hcl] & Ho1); [done|done|done|done|by intros ? ?%elem_of_nil|done|].
  rewrite (srcs_bind_ok _ _ _ _ _ E1). set (kept := foldl keep_part [] ps) in *.
  destruct (dir_entries ps path Hne Hd) as [Hkm Hent]. fold kept in Hkm, Hent.
  assert (Hsub : kept `sublist_of` ps) by apply (keep_sublist ps []).
  assert (Hin : ∀ p, p ∈ kept → p ∈ ps) by (intros p Hp; by eapply elem_of_sublist).
  assert (Hsrc : i_src <$> (sub_item <$> kept) = p_src <$> kept) by (by rewrite <- list_fmap_compose).
  destruct (Hrec (sub_item <$> kept) path srcs1) as (srcs' & E & Hat' & Ho).
  - rewrite Hsrc. eapply sublist_NoDup; [exact Hnd|by apply fmap_sublist].
  - apply Forall_fmap, Forall_forall. intros p Hp. by apply Hok, Hin.
  - rewrite Hkm. by apply tidy_kids.
  - intros x (p & -> & Hp)%list_elem_of_fmap. apply Hop. exact Hp.
  - pose proof (sub_kweight kept). pose proof (psize_keep ps []) as Hpk. fold kept in Hpk. unfold psize at 2 in Hpk. cbn in Hpk.
    assert (1 ≤ length kept)%nat; [|lia]. destruct kept as [|x kept'] eqn:Ek; [|simpl; lia]. exfalso.
    destruct (total_keep (p_node <$> ps)) as (_ & k & ks & Ekk & _); [by apply Forall_fmap|by destruct ps|].
    pose proof (keep_parts_nodes ps []) as Hkp. change (p_node <$> []) with (@nil Node) in Hkp.
    rewrite Ekk in Hkp. unfold kept in *. by rewrite Ek in Hkp.
  - rewrite Hsrc in Ho. exists srcs'. split_and!.
    + rewrite <- (list_fmap_compose sub_item) in E. rewrite Hent in E. exact E.
    + intros p Hp. destruct (decide (p_src p ∈ p_src <$> kept)) as [Hk|Hk].
      * apply list_elem_of_fmap in Hk as (q & Eq & Hq). rewrite Eq.
        assert (p = q) as -> by (eapply nodup_src_inj; [exact Hnd|done|by apply Hin|done]).
        apply (Hat' (sub_item q)). apply list_elem_of_fmap. eauto.
      * eapply at_only; [apply Hcl; [done|]|exact Ho|exact Hk].
        intros Hpk. apply Hk, list_elem_of_fmap. eauto.
    + eapply only_trans; [exact Ho1|exact Ho|done|]. by apply sublist_subseteq, fmap_sublist.
Qed.

Lemma visit_group_spec rec w fuel items path m srcs :
  walks rec w → level srcs items → Forall tidy_kid (kmerge (i_kids <$> items)) →
  least (head_name <$> (i_kids <$> items)) = Some m → (lweight items ≤ fuel)%nat → (lweight items ≤ w)%nat →
  ∃ srcs', visit_group rec fuel (front_of <$> items) path m (p_pos <$> parts m 0 items) srcs
      = Some (Ok (child_state path (m, total_of (omap (node_at m) (i_kids <$> items))), srcs')) ∧
    at_parts srcs' p_left (parts m 0 items) ∧ only (p_src <$> parts m 0 items) srcs srcs'.
Proof.
  intros Hrec Hlv Htidy Hm Hf Hw. set (ps := parts m 0 items).
  pose proof (parts_at m srcs items Hlv) as Hat. fold ps in Hat.
  pose proof (parts_srcs m 0 items (lv_nodup _ _ Hlv)) as Hnd. fold ps in Hnd.
  pose proof (lweight_past m 0 items) as Hwt. fold ps in Hwt.
  assert (Hnodes : omap (node_at m) (i_kids <$> items) = p_node <$> ps) by (unfold ps; by rewrite parts_nodes).
  rewrite Hnodes. assert (Hne : ps ≠ []).
  { intros E. apply (nodes_at_some m (i_kids <$> items)); [by apply least_in|]. by rewrite Hnodes, E. }
  assert (Hfr : fronted (front_of <$> items) ps).
  { intros p Hp. rewrite (parts_front m items p Hp). by eexists. }
  assert (Hkid : ∀ p, p ∈ ps → fits (p_node p) ∧ delta (p_node p) ∧
    match classify m with Some (KDir _) => utree (p_node p) | Some (KFile _ _) => flat (p_node p) | None => True end).
  { intros p Hp. by destruct (parts_kid m srcs items p Hlv Hp). }
  assert (Hfit : parts_fit fuel ps).
  { intros p Hp. destruct (Hkid p Hp) as (? & _). pose proof (psize_elem ps p Hp). split; [done|lia]. }
  assert (Hd : Forall (λ p, delta (p_node p)) ps) by (apply Forall_forall; intros p Hp; by apply (Hkid p Hp)).
  assert (Htm : tidy_kid (m, total_of (p_node <$> ps))).
  { rewrite kmerge_step, Hm, Hnodes in Htidy. by apply Forall_cons in Htidy as [? _]. }
  unfold visit_group, child_state. cbn [fst snd]. unfold tidy_kid in Htm. cbn [fst snd] in Htm.
  destruct (classify m) as [[g|g slot]|] eqn:Ec.
  - destruct (visit_dir_spec rec w fuel (front_of <$> items) ps (push_seg path g) srcs) as (srcs' & E & ?);
      [done..| |done|lia|done|done|by exists srcs'].
    intros p Hp. by eapply (sub_items_ok m g srcs items p Hlv Ec).
  - destruct (file_group_spec fuel (front_of <$> items) ps keys_clear srcs) as (srcs' & E & Hat' & Ho); [done..|].
    exists srcs'. split_and!; [|done|done]. rewrite (srcs_bind_ok _ _ _ _ _ E). unfold mret, srcs_ret. do 4 f_equal.
    destruct ps as [|p ps']; [done|]. csimpl. apply assemble_total.
    + by apply (Hkid p); left.
    + apply (Hkid p). by left.
    + apply Forall_fmap, Forall_forall. intros q Hq. apply (Hkid q). by right.
    + apply Forall_fmap, Forall_forall. intros q Hq. apply (Hkid q). by right.
    + exact Htm.
  - destruct (skip_group_spec fuel (front_of <$> items) ps srcs) as (srcs' & E & Hat' & Ho); [done..|].
    exists srcs'. split_and!; [|done|done]. by rewrite (srcs_bind_ok _ _ _ _ _ E).
Qed.

Lemma least_compose (items : list item) :
  least (head_name ∘ i_kids <$> items) = least (head_name <$> (i_kids <$> items)).
Proof. by rewrite <- list_fmap_compose. Qed.

(** A level whose lists are all read. *)
Lemma level_done srcs items :
  level srcs items → least (head_name <$> (i_kids <$> items)) = None →
  ∀ x, x ∈ items → at_src srcs (i_src x) (i_rest x).
Proof.
  intros [_ _ Hat] Hl x Hx. specialize (Hat x Hx). destruct (i_kids x) as [|[k c] cs] eqn:E; [exact Hat|]. exfalso.
  destruct (least_le (head_name <$> (i_kids <$> items)) k) as (m & Em & _); [|congruence].
  apply list_elem_of_fmap. exists (i_kids x). split; [by rewrite E|]. apply list_elem_of_fmap. eauto.
Qed.

(** What is left after the least name, once its group has been visited. *)
Lemma group_advanced m srcs srcs1 items :
  level srcs items → at_parts srcs1 p_left (parts m 0 items) → only (p_src <$> parts m 0 items) srcs srcs1 →
  ∃ srcs2, advance_group (front_of <$> items) (p_pos <$> parts m 0 items) srcs1
      = Some (Ok (front_of <$> (past_item m <$> items), srcs2)) ∧
    level srcs2 (past_item m <$> items) ∧ only (i_src <$> items) srcs srcs2.
Proof.
  intros Hlv Hat Ho. destruct (advance_group_spec (parts m 0 items) (front_of <$> items) srcs1)
    as (fs' & srcs2 & E & Hin & Hout & Hat2 & Ho2).
  - rewrite parts_positions. apply positions_nodup.
  - apply parts_srcs, (lv_nodup _ _ Hlv).
  - intros p Hp. rewrite (parts_front m items p Hp). eauto.
  - intros p k c Hp. by apply (parts_kid m srcs items p Hlv Hp).
  - done.
  - rewrite <- (past_fronts m items fs' Hin Hout). exists srcs2. split; [exact E|].
    assert (Ho12 : only (p_src <$> parts m 0 items) srcs srcs2) by (by eapply only_trans).
    split; [by eapply level_past|]. eapply only_trans; [exact Ho12|apply only_refl| |reflexivity].
    intros j (p & -> & Hp)%list_elem_of_fmap. apply parts_elem in Hp as [_ Hl]. apply list_elem_of_fmap.
    eexists. split; [|by eapply list_elem_of_lookup_2]. done.
Qed.

Lemma kloop_unfold rec fuel kb fs path acc :
  kloop rec (S fuel) kb fs path acc =
  match base_first kb fs with
  | Some (k, b, bh) =>
      es ← on (f_src b) (base_only_child fuel bh path);
      b' ← next_head b;
      kloop rec fuel kb (<[k := b']> fs) path (acc ++ es)
  | None =>
      let '(min, group) := scan 0 fs None [] in
      match min with
      | None => mret acc
      | Some min =>
          es ← visit_group rec fuel fs path min group;
          fs' ← advance_group fs group;
          kloop rec fuel kb fs' path (acc ++ es)
      end
  end.
Proof. done. Qed.

(** The base alone at the least name: the same entries, the same advance. *)
Lemma base_turn fuel kb items path k b bh srcs :
  level srcs items → base_first kb (front_of <$> items) = Some (k, b, bh) → (lweight items < fuel)%nat →
  least (head_name <$> (i_kids <$> items)) = Some bh ∧
  ∃ srcs1 srcs2 b', on (f_src b) (base_only_child fuel bh path) srcs
      = Some (Ok (child_state path (bh, total_of (omap (node_at bh) (i_kids <$> items))), srcs1)) ∧
    next_head b srcs1 = Some (Ok (b', srcs2)) ∧ <[k := b']> (front_of <$> items) = front_of <$> (past_item bh <$> items) ∧
    level srcs2 (past_item bh <$> items) ∧ only (i_src <$> items) srcs srcs2.
Proof.
  intros Hlv Hb Hf. destruct (base_first_spec kb items k b bh Hb) as (Hl & Hk & p & Hps & Hpos).
  rewrite least_compose in Hl. split; [done|].
  assert (Hp : p ∈ parts bh 0 items) by (rewrite Hps; by left).
  pose proof (parts_front bh items p Hp) as Hfp. rewrite Hpos, Hk in Hfp. injection Hfp as ->.
  destruct (parts_kid bh srcs items p Hlv Hp) as [(Hfit & _ & _) Hnames].
  pose proof (lweight_past bh 0 items) as Hwt. pose proof (psize_elem _ p Hp).
  rewrite <- (parts_nodes bh 0 items), Hps. cbn [fmap list_fmap total_of total foldl].
  destruct (on_parses _ _ _ _ _ srcs (parses_base_only fuel bh path (p_node p) Hfit ltac:(lia))
    (parts_at bh srcs items Hlv p Hp)) as (srcs1 & E1 & Hat1 & Ho1).
  destruct (group_advanced bh srcs srcs1 items Hlv) as (srcs2 & E2 & Hlv2 & Ho2).
  - rewrite Hps. intros q Hq. apply list_elem_of_singleton in Hq. by subst q.
  - rewrite Hps. exact Ho1.
  - rewrite Hps in E2. cbn [fmap list_fmap advance_group] in E2. rewrite Hpos, Hk in E2.
    destruct (next_head_spec (p_src p) (p_kids p) (p_rest p) srcs1 (Some bh)) as (srcs3 & E3 & _ & _); [done|exact Hat1|].
    rewrite (srcs_bind_ok _ _ _ _ _ E3) in E2. injection E2 as Efs <-.
    exists srcs1, srcs3, (front_of (p_src p, p_kids p, p_rest p)). done.
Qed.

Lemma kloop_spec rec w fuel kb items path acc srcs :
  walks rec w → level srcs items → Forall tidy_kid (kmerge (i_kids <$> items)) →
  (lweight items + 1 < fuel)%nat → (lweight items ≤ w)%nat →
  ∃ srcs', kloop rec fuel kb (front_of <$> items) path acc srcs = Some (Ok (acc ++ level_entries path items, srcs')) ∧
    (∀ x, x ∈ items → at_src srcs' (i_src x) (i_rest x)) ∧ only (i_src <$> items) srcs srcs'.
Proof.
  intros Hrec. revert items acc srcs. induction fuel as [|fuel IH]; intros items acc srcs Hlv Ht Hf Hw; [lia|].
  rewrite kloop_unfold.
  assert (Hnext : ∀ m es srcs1, least (head_name <$> (i_kids <$> items)) = Some m →
    es = child_state path (m, total_of (omap (node_at m) (i_kids <$> items))) →
    level srcs1 (past_item m <$> items) → only (i_src <$> items) srcs srcs1 →
    ∃ srcs', kloop rec fuel kb (front_of <$> (past_item m <$> items)) path (acc ++ es) srcs1
        = Some (Ok (acc ++ level_entries path items, srcs')) ∧
      (∀ x, x ∈ items → at_src srcs' (i_src x) (i_rest x)) ∧ only (i_src <$> items) srcs srcs').
  { intros m es srcs1 Hm -> Hlv1 Ho1. pose proof (lweight_past m 0 items) as Hwt.
    assert (Hps : (1 ≤ psize (parts m 0 items))%nat).
    { pose proof (nodes_at_some m (i_kids <$> items) (least_in _ _ Hm)) as Hne. rewrite <- (parts_nodes m 0) in Hne.
      destruct (parts m 0 items) as [|p ps]; [done|]. unfold psize. simpl. pose proof (esize_pos (p_node p)). lia. }
    rewrite kmerge_step, Hm in Ht. apply Forall_cons in Ht as [_ Ht]. rewrite <- past_lists in Ht.
    destruct (IH _ (acc ++ child_state path (m, total_of (omap (node_at m) (i_kids <$> items)))) srcs1 Hlv1 Ht)
      as (srcs' & E & Hat & Ho); [lia|lia|].
    exists srcs'. rewrite past_src in Ho. split_and!.
    - rewrite E. unfold level_entries. rewrite (kmerge_step (i_kids <$> items)), Hm, past_lists. csimpl.
      by rewrite <- app_assoc.
    - intros x Hx. apply (Hat (past_item m x)). apply list_elem_of_fmap. eauto.
    - by eapply only_trans. }
  destruct (base_first kb (front_of <$> items)) as [[[k b] bh]|] eqn:Eb.
  - destruct (base_turn fuel kb items path k b bh srcs Hlv Eb ltac:(lia))
      as (Hm & srcs1 & srcs2 & b' & E1 & E2 & Efs & Hlv2 & Ho2).
    rewrite (srcs_bind_ok _ _ _ _ _ E1), (srcs_bind_ok _ _ _ _ _ E2), Efs. by apply Hnext.
  - rewrite scan_items, least_compose. destruct (least _) as [m|] eqn:Hm.
    + destruct (visit_group_spec rec w fuel items path m srcs Hrec Hlv Ht Hm) as (srcs1 & E1 & Hat1 & Ho1); [lia|lia|].
      destruct (group_advanced m srcs srcs1 items Hlv Hat1 Ho1) as (srcs2 & E2 & Hlv2 & Ho2).
      rewrite (srcs_bind_ok _ _ _ _ _ E1), (srcs_bind_ok _ _ _ _ _ E2). by apply (Hnext m).
    + exists srcs. split_and!; [|by apply level_done|apply only_refl].
      unfold level_entries. rewrite kmerge_step, Hm. simpl. by rewrite app_nil_r.
Qed.

Lemma lweight_le items : (lweight items ≤ pred (kweight items))%nat.
Proof.
  unfold lweight, kweight. induction items as [|[[i cs] s] items IH]; [done|]. simpl. unfold i_kids at 1 3. cbn [fst snd].
  enough (length (left_of cs) ≤ pred (length (kids_bytes cs)))%nat by lia.
  destruct cs as [|[k c] cs]; [done|]. unfold left_of, kids_bytes. csimpl. unfold enc_child at 2. cbn [fst snd].
  rewrite !length_app. pose proof (put_bytes_size k). lia.
Qed.

Lemma klevel_walks fuel : walks (klevel fuel) (fuel - 2).
Proof.
  induction fuel as [|fuel IH]; intros items path srcs Hnd Hok Ht Hat Hw; [lia|]. cbn [klevel].
  destruct (first_heads_spec items srcs Hnd Hok Hat) as (srcs1 & E1 & Hlv & Ho1).
  rewrite (srcs_bind_ok _ _ _ _ _ E1). pose proof (lweight_le items).
  destruct (kloop_spec (klevel fuel) (fuel - 2) fuel (base_position (front_of <$> items)) items path [] srcs1 IH Hlv Ht)
    as (srcs' & E & Hat' & Ho); [lia|lia|].
  exists srcs'. split_and!; [exact E|exact Hat'|by eapply only_trans].
Qed.

(** *** The whole walk *)

(** The sources of the walk: the nodes in order. *)
Fixpoint roots (i : nat) (ns : list Node) : list item :=
  match ns with [] => [] | n :: ns => (i, kids n, []) :: roots (S i) ns end.

Lemma roots_src i ns : i_src <$> roots i ns = seq i (length ns).
Proof. revert i. induction ns as [|n ns IH]; intros i; [done|]. csimpl. by rewrite IH. Qed.

Lemma roots_kids i ns : i_kids <$> roots i ns = kids <$> ns.
Proof. revert i. induction ns as [|n ns IH]; intros i; [done|]. csimpl. by rewrite IH. Qed.

Lemma roots_elem i ns x : x ∈ roots i ns → ∃ j n, ns !! j = Some n ∧ x = ((i + j)%nat, kids n, []).
Proof.
  revert i. induction ns as [|n ns IH]; intros i; [by intros ?%elem_of_nil|]. simpl. intros [->|Hin]%elem_of_cons.
  - exists 0%nat, n. by rewrite Nat.add_0_r.
  - destruct (IH _ Hin) as (j & m & Hj & ->). exists (S j), m. split; [done|]. do 2 f_equal. lia.
Qed.

Lemma roots_weight i ns : (kweight (roots i ns) + length ns ≤ total_length (encode_node [] <$> ns))%nat.
Proof.
  unfold kweight, total_length. revert i. induction ns as [|n ns IH]; intros i; [done|]. specialize (IH (S i)). csimpl.
  unfold i_kids at 1. cbn [fst snd]. pose proof (f_equal length (encode_split n)) as Hl. rewrite length_app in Hl.
  fold (kids_bytes (kids n)) in Hl. pose proof (enc_head_pos n). simpl in *. lia.
Qed.

Lemma read_roots_spec fuel ns i srcs :
  Forall (λ n, fits n ∧ (esize n ≤ fuel)%nat) ns →
  (∀ j n, ns !! j = Some n → at_src srcs (i + j) (encode_node [] n)) →
  ∃ srcs', read_roots fuel i (length ns) srcs
      = Some (Ok ((λ x, (i_src x, zlen (i_kids x))) <$> roots i ns, srcs')) ∧
    (∀ j n, ns !! j = Some n → at_src srcs' (i + j) (kids_bytes (kids n))) ∧ only (seq i (length ns)) srcs srcs'.
Proof.
  revert i srcs. induction ns as [|n ns IH]; intros i srcs Hfit Hat.
  { exists srcs. split_and!; [done|done|apply only_refl]. }
  apply Forall_cons in Hfit as [[Hn Hz] Hfit]. pose proof (kids_count n).
  pose proof (Hat 0%nat n eq_refl) as H0. rewrite Nat.add_0_r, encode_split in H0.
  destruct (on_parses _ _ _ _ _ srcs (parses_cursor_node fuel n Hn ltac:(lia)) H0) as (srcs1 & E1 & Hat1 & Ho1).
  destruct (IH (S i) srcs1 Hfit) as (srcs' & E & Hat' & Ho).
  { intros j m Hj. eapply at_only; [|exact Ho1|rewrite list_elem_of_singleton; lia].
    replace (S i + j)%nat with (i + S j)%nat by lia. by apply Hat. }
  exists srcs'. cbn [length read_roots]. split_and!.
  - rewrite (srcs_bind_ok _ _ _ _ _ E1), (srcs_bind_ok _ _ _ _ _ E). by rewrite walk_count.
  - intros [|j] m Hj.
    + injection Hj as <-. rewrite Nat.add_0_r. eapply at_only; [exact Hat1|exact Ho|]. rewrite elem_of_seq. lia.
    + replace (i + S j)%nat with (S i + j)%nat by lia. by apply Hat'.
  - eapply only_trans; [exact Ho1|exact Ho|set_solver|set_solver].
Qed.

Lemma total_length_elem (bs : list bytes) b : b ∈ bs → (length b ≤ total_length bs)%nat.
Proof.
  unfold total_length. induction bs as [|c bs IH]; [by intros ?%elem_of_nil|]. csimpl.
  intros [->|Hin]%elem_of_cons; [lia|]. specialize (IH Hin). lia.
Qed.

(** A layer of the chain the stacked reader is given. *)
Record layered (n : Node) : Prop := {
  ly_delta : delta n;
  ly_fits : fits n;
  ly_tree : utree n
}.

Lemma layered_item i n : layered n → item_ok (i, kids n, []).
Proof.
  intros [Hd Hf Hu]. split; unfold i_kids; cbn [fst snd]; rewrite (delta_kids _ Hd); [by apply delta_ok|].
  intros k c Hin. assert (Hin' : (k, c) ∈ kids n) by (by rewrite delta_kids).
  destruct (fits_kid _ _ _ Hf Hin'), (delta_elem _ Hd k c Hin). split_and!; [done..|]. by eapply utree_kid.
Qed.

(** The walk over a base and deltas that do not occlude it at the root. *)
Lemma visit_stacked_spec base ds :
  layered base → Forall layered ds → Forall (λ d, is_backdrop (anchor d) = false) ds → tidy (total base ds) →
  visit_stacked (encode_node [] base) (encode_node [] <$> ds) = Some (Ok (state_entries [] (total base ds))).
Proof.
  intros Hb Hds Hanc Ht. set (ns := base :: ds). assert (Hns : Forall layered ns) by (by constructor).
  unfold visit_stacked. change (encode_node [] base :: (encode_node [] <$> ds)) with (encode_node [] <$> ns).
  set (fuel := S (S (total_length (encode_node [] <$> ns)))). rewrite length_fmap.
  pose proof (roots_weight 0 ns) as Hw.
  destruct (read_roots_spec fuel ns 0 (cursor_new <$> (encode_node [] <$> ns))) as (srcs1 & E1 & Hat1 & _).
  { apply Forall_forall. intros n Hn. rewrite Forall_forall in Hns. split; [by apply Hns|].
    pose proof (total_length_elem (encode_node [] <$> ns) (encode_node [] n)) as Hl.
    assert (Hin : encode_node [] n ∈ encode_node [] <$> ns) by (apply list_elem_of_fmap; eauto).
    specialize (Hl Hin). unfold fuel. lia. }
  { intros j n Hj. exists (cursor_new (encode_node [] n)). split; [|done]. change (0 + j)%nat with j. by rewrite !list_lookup_fmap, Hj. }
  assert (Hd : Forall delta ns) by (eapply Forall_impl; [exact Hns|]; by intros n [? _ _]).
  pose proof Hd as [Hdb Hdds]%Forall_cons.
  assert (Hkm : kmerge (i_kids <$> roots 0 ns) = children (total base ds)).
  { rewrite roots_kids, total_children by done. f_equal. apply list_fmap_ext. intros j n Hj. apply delta_kids.
    rewrite Forall_forall in Hd. apply Hd. by eapply list_elem_of_lookup_2. }
  destruct (klevel_walks fuel (roots 0 ns) [] srcs1) as (srcs2 & E2 & _).
  - rewrite roots_src. apply NoDup_seq.
  - apply Forall_forall. intros x (j & n & Hj & ->)%roots_elem. apply layered_item.
    rewrite Forall_forall in Hns. apply Hns. by eapply list_elem_of_lookup_2.
  - rewrite Hkm. by apply tidy_kids.
  - intros x (j & n & Hj & ->)%roots_elem. unfold i_src, i_kids, i_rest. cbn [fst snd]. rewrite app_nil_r. by apply Hat1.
  - unfold fuel. assert (1 ≤ length ns)%nat by (simpl; lia). lia.
  - rewrite (srcs_bind_ok _ _ _ _ _ E1), E2. unfold level_entries. rewrite Hkm, state_children. unfold kids.
    by rewrite (delta_live _ (total_delta base ds Hdb Hdds)).
Qed.

(** *** Checking the shapes *)

Definition flatb (n : Node) : bool := forallb (λ kc, is_nil (children kc.2)) (children n).
Definition valued_tags (n : Node) : list (Name * Node) :=
  filter (λ kc, is_tag kc.1 = true ∧ node_val kc.2 ≠ None) (children n).

Fixpoint utreeb (n : Node) : bool :=
  forallb (λ kc, match classify kc.1 with
                 | Some (KDir _) => utreeb kc.2
                 | Some (KFile _ _) => flatb kc.2
                 | None => true
                 end) (children n).
Fixpoint tidyb (n : Node) : bool :=
  forallb (λ kc, match classify kc.1 with
                 | Some (KDir _) => tidyb kc.2
                 | Some (KFile _ _) => (length (valued_tags kc.2) <=? 1)%nat
                 | None => true
                 end) (children n).

Lemma flatb_flat n : flatb n = true → flat n.
Proof.
  unfold flatb. rewrite forallb_forall. intros Hf k m Hg%bt_get_elem%list_elem_of_In. specialize (Hf (k, m) Hg).
  cbn [snd] in Hf. by destruct (children m).
Qed.

Lemma valued_one n : (length (valued_tags n) ≤ 1)%nat → one_tag n.
Proof.
  intros Hl k1 m1 k2 m2 H1%bt_get_elem H2%bt_get_elem T1 T2 V1 V2. unfold valued_tags in Hl.
  assert (I1 : (k1, m1) ∈ valued_tags n) by (by apply list_elem_of_filter).
  assert (I2 : (k2, m2) ∈ valued_tags n) by (by apply list_elem_of_filter).
  unfold valued_tags in I1, I2. destruct (filter _ _) as [|x [|y l]]; [by apply elem_of_nil in I1| |simpl in Hl; lia].
  apply list_elem_of_singleton in I1, I2. congruence.
Qed.

Lemma utreeb_utree n : utreeb n = true → utree n.
Proof.
  induction n as [n IH] using node_ind'. destruct n as [p b o a an cs]. cbn [utreeb utree children] in *.
  induction cs as [|[k c] cs IHcs]; [done|]. simpl. rewrite andb_true_iff. intros [Hk Hcs]. split.
  - destruct (classify k) as [[|]|]; [|by apply flatb_flat|done]. by apply (IH k c); [left|].
  - apply IHcs; [|done]. intros k' c' Hin. apply (IH k' c'). by right.
Qed.

Lemma tidyb_tidy n : tidyb n = true → tidy n.
Proof.
  induction n as [n IH] using node_ind'. destruct n as [p b o a an cs]. cbn [tidyb tidy children] in *.
  induction cs as [|[k c] cs IHcs]; [done|]. simpl. rewrite andb_true_iff. intros [Hk Hcs]. split.
  - destruct (classify k) as [[|]|]; [| |done]; [by apply (IH k c); [left|]|]. by apply valued_one, Nat.leb_le.
  - apply IHcs; [|done]. intros k' c' Hin. apply (IH k' c'). by right.
Qed.

(** C10. The state is read without composing it: over an encoded base and any
    number of encoded deltas above it, the lockstep walk ends and visits, in
    order, exactly the file variants of the one layer the base and the deltas
    compose to, each with the mode, bitmap and content the newest records give
    it; a variant that a hole removed is not visited.  The bytes of the sources
    bound every loop. *)
Theorem stacked_reads_composition base ds :
  layered base → Forall layered ds → Forall (λ d, is_backdrop (anchor d) = false) ds →
  tidy (foldl compose_node base ds) →
  visit_stacked (encode_node [] base) (encode_node [] <$> ds)
  = Some (Ok (state_entries [] (foldl compose_node base ds))).
Proof. apply visit_stacked_spec. Qed.

(** A delta that empties a directory's file, adds another and rewrites a link. *)
Definition demo_delta : Node := MkNode Live Keep false None Lower
  [([115], MkNode Live Keep false None Lower [(file_key [114] 0, hole); (file_key [116] 0, variant_node [9] File (Some [1]))]);
   (file_key [122] 1, MkNode Live (SetBlob [77]) false None Lower [(TAG_SYMLINK, hole); (LANES, tagged [3])])].

Lemma stacked_reads_composition_witness :
  visit_stacked (encode_node [] (root demo_union)) (encode_node [] <$> [demo_delta])
  = Some (Ok [MkEntry [115; 47; 116] File 0 (Some [1]) [9]; MkEntry [122] File 0 (Some [1]) [48];
              MkEntry [122] File 1 (Some [3]) [77]]).
Proof.
  assert (Hl : ∀ n, wf_node n = true → gitn n = true → zlen (encode_node [] n) < u64_limit → utreeb n = true → layered n).
  { intros n Hw Hg Hz Hu. split; [by split|by split|by apply utreeb_utree]. }
  rewrite (stacked_reads_composition (root demo_union) [demo_delta]).
  - vm_compute. reflexivity.
  - apply Hl; vm_compute; reflexivity.
  - apply Forall_cons_2; [|apply Forall_nil_2]. apply Hl; vm_compute; reflexivity.
  - apply Forall_cons_2; [reflexivity|apply Forall_nil_2].
  - apply tidyb_tidy. vm_compute. reflexivity.
Defined.

End Lockstep.
