(* ===== verification/SlipPool.v ===== *)
(** * The slip pool.

    Models [engine/src/slippool.rs]: the jobserver tokens ("slips") of the
    whole machine, the ledger of who holds how many, the queue of blocked
    acquirers, and the reaper that returns the slips of processes that exit.
    A reply channel is an element of [R]; calling it is an element of the list
    of replies an operation returns.  Counts are kept at their width: [u32] in
    the ledger, [usize] in the pool. *)

From stdpp Require Import gmap.
From S2P Require Import Prelude.
From S2P Require Import Glob.
From S2P Require Import Rules.
Open Scope Z_scope.

(** ** Capacity *)

(** [usize::from_str] *)
Definition parse_usize (s : text) : option Z :=
  let ds := match s with 43 :: ds => ds | _ => s end in
  match ds with
  | [] => None
  | _ =>
      match digits 0 ds with
      | Some v => if v <? 2 ^ 64 then Some v else None
      | None => None
      end
  end.

(** [slots]: the variable [SARUN_JOBS] and the CPU count, where they are known *)
Definition slots (sarun_jobs : option text) (parallelism : option Z) : Z :=
  match sarun_jobs ≫= parse_usize with
  | Some n => if 0 <? n then n else default 1 parallelism
  | None => default 1 parallelism
  end.

(** ** The pool *)

Inductive SlipReply (R : Type) : Type :=
| Grant (r : R)
| DenyAgain (r : R).
Arguments Grant {R} r.
Arguments DenyAgain {R} r.
#[export] Instance SlipReply_eq_dec {R} `{EqDecision R} : EqDecision (SlipReply R).
Proof. solve_decision. Defined.

Inductive Watch : Type :=
| WatchPid (pid : Z)
| WatchNone.

Record Pool (R : Type) : Type := MkPool {
  total : Z; available : Z; ledger : gmap Z Z; waiters : list (Z * R) }.
Arguments MkPool {R} total available ledger waiters.
Arguments total {R} p.
Arguments available {R} p.
Arguments ledger {R} p.
Arguments waiters {R} p.

Section pool.
  Context {R : Type}.
  Implicit Types (p : Pool R) (r : R).

(** [Pool::new] *)
Definition pool_new (n : Z) : Pool R :=
  let total := Z.max n 1 in MkPool total total ∅ [].

Definition held_by p (pid : Z) : Z := default 0 (ledger p !! pid).

(** [*ledger.entry(pid).or_insert(0) += 1] *)
Definition ledger_add (m : gmap Z Z) (pid : Z) : gmap Z Z :=
  <[pid := (default 0 (m !! pid) + 1) mod 2 ^ 32]> m.

Definition acquire p (pid : Z) r (nonblocking : bool) : Pool R * Watch * list (SlipReply R) :=
  if 0 <? available p then
    (MkPool (total p) (available p - 1) (ledger_add (ledger p) pid) (waiters p), WatchPid pid, [Grant r])
  else if nonblocking then (p, WatchNone, [DenyAgain r])
  else (MkPool (total p) (available p) (ledger p) (waiters p ++ [(pid, r)]), WatchPid pid, []).

Definition hand_off_one p : Pool R * option Z * list (SlipReply R) :=
  match waiters p with
  | (wpid, r) :: ws =>
      (MkPool (total p) (available p) (ledger_add (ledger p) wpid) ws, Some wpid, [Grant r])
  | [] => (MkPool (total p) ((available p + 1) mod 2 ^ 64) (ledger p) [], None, [])
  end.

Definition release p (pid : Z) : Pool R * option Z * list (SlipReply R) :=
  match ledger p !! pid with
  | Some c =>
      if 0 <? c then
        let m := if c - 1 =? 0 then delete pid (ledger p) else <[pid := c - 1]> (ledger p) in
        hand_off_one (MkPool (total p) (available p) m (waiters p))
      else (p, None, [])
  | None => (p, None, [])
  end.

(** The waiters of a dead process are denied, the others keep their order. *)
Fixpoint drop_waiters (pid : Z) (ws : list (Z * R)) : list (Z * R) * list (SlipReply R) :=
  match ws with
  | [] => ([], [])
  | (wpid, r) :: ws =>
      let '(kept, out) := drop_waiters pid ws in
      if wpid =? pid then (kept, DenyAgain r :: out) else ((wpid, r) :: kept, out)
  end.

(** [for _ in 0..held] *)
Fixpoint hand_off (n : nat) p : Pool R * list Z * list (SlipReply R) :=
  match n with
  | O => (p, [], [])
  | S n =>
      let '(p, got, out) := hand_off_one p in
      let '(p, granted, out') := hand_off n p in
      (p, match got with Some q => q :: granted | None => granted end, out ++ out')
  end.

Definition reap_pid p (pid : Z) : Pool R * list Z * list (SlipReply R) :=
  let '(kept, denied) := drop_waiters pid (waiters p) in
  let held := held_by p pid in
  let '(p, granted, out) :=
    hand_off (Z.to_nat held) (MkPool (total p) (available p) (delete pid (ledger p)) kept) in
  (p, granted, denied ++ out).

Fixpoint reap_box p (pids : list Z) : Pool R * list Z * list (SlipReply R) :=
  match pids with
  | [] => (p, [], [])
  | pid :: pids =>
      let '(p, granted, out) := reap_pid p pid in
      let '(p, granted', out') := reap_box p pids in
      (p, granted ++ granted', out ++ out')
  end.

End pool.

(** ** The ledger's sum *)

Definition slips (m : gmap Z Z) : Z := map_fold (λ _ c n, c + n) 0 m.

Lemma slips_insert (m : gmap Z Z) k c : m !! k = None → slips (<[k := c]> m) = c + slips m.
Proof. intros Hk. unfold slips. rewrite map_fold_insert_L; [done | intros; lia | done]. Qed.

Lemma slips_delete (m : gmap Z Z) k : slips m = default 0 (m !! k) + slips (delete k m).
Proof.
  destruct (m !! k) as [c|] eqn:Hk; simpl.
  - rewrite <- (insert_delete_id m k c Hk) at 1. apply slips_insert, lookup_delete_eq.
  - rewrite delete_id by done. lia.
Qed.

Lemma slips_set (m : gmap Z Z) k c : slips (<[k := c]> m) = slips m - default 0 (m !! k) + c.
Proof.
  rewrite (slips_delete m k), <- insert_delete_eq, slips_insert by apply lookup_delete_eq. lia.
Qed.

(** Every entry of the ledger counts at least one slip. *)
Definition counted (m : gmap Z Z) : Prop := map_Forall (λ _ c, 0 < c) m.

Lemma slips_nonneg m : counted m → 0 ≤ slips m.
Proof.
  induction m as [|k c m Hk IH] using map_ind; [done|].
  intros Hm. rewrite slips_insert by done.
  apply map_Forall_insert in Hm as [Hc Hm]; [|done]. specialize (IH Hm). lia.
Qed.

Lemma held_le_slips m k : counted m → 0 ≤ default 0 (m !! k) ≤ slips m.
Proof.
  intros Hm. pose proof (slips_delete m k) as Hs.
  pose proof (slips_nonneg _ (map_Forall_delete _ _ k Hm)) as Hd.
  destruct (m !! k) as [c|] eqn:Hk; simpl in *; [|lia].
  specialize (Hm _ _ Hk). simpl in Hm. lia.
Qed.

(** ** The pool's invariant *)

Section pool_laws.
  Context {R : Type}.
  Implicit Types (p : Pool R) (r : R).

(** [k] slips are in the hands of the operation that is running, every other
    one is available or in the ledger; nobody waits while one is available. *)
Record pool_short (k : Z) p : Prop := {
  ps_total : 1 ≤ total p < 2 ^ 32;
  ps_available : 0 ≤ available p;
  ps_sum : slips (ledger p) + available p + k = total p;
  ps_counted : counted (ledger p);
  ps_waiting : waiters p ≠ [] → available p = 0 }.

Abbreviation pool_ok := (pool_short 0).

Lemma pool_new_ok n : n < 2 ^ 32 → pool_ok (pool_new (R := R) n).
Proof.
  intros Hn. split; simpl; [lia | lia | | apply map_Forall_empty | done].
  unfold slips. rewrite map_fold_empty. lia.
Qed.

Lemma ledger_add_spec m pid :
  counted m → slips m < 2 ^ 32 - 1 →
  ledger_add m pid = <[pid := default 0 (m !! pid) + 1]> m ∧
  counted (ledger_add m pid) ∧ slips (ledger_add m pid) = slips m + 1.
Proof.
  intros Hm Hs. pose proof (held_le_slips m pid Hm) as Hh. unfold ledger_add.
  rewrite Z.mod_small by lia. split_and!; [done | | rewrite slips_set; lia].
  apply map_Forall_insert_2; [simpl; lia | done].
Qed.

Lemma ledger_add_lookup m pid q :
  counted m → slips m < 2 ^ 32 - 1 →
  default 0 (ledger_add m pid !! q) = default 0 (m !! q) + (if decide (q = pid) then 1 else 0).
Proof.
  intros Hm Hs. destruct (ledger_add_spec m pid Hm Hs) as (-> & _ & _).
  case_decide as Hq; [subst; by rewrite lookup_insert_eq|].
  rewrite lookup_insert_ne by done. lia.
Qed.

Lemma acquire_ok p pid r nb : pool_ok p → pool_ok (acquire p pid r nb).1.1.
Proof.
  intros [Ht Ha Hsum Hc Hw]. unfold acquire.
  destruct (Z.ltb_spec 0 (available p)) as [Hlt|Hge]; [|destruct nb; simpl; split; simpl; auto; lia].
  destruct (ledger_add_spec (ledger p) pid Hc ltac:(lia)) as (_ & Hc' & Hs').
  split; simpl; [done | lia | lia | done |]. intros Hne. specialize (Hw Hne). lia.
Qed.

Lemma hand_off_one_ok k p : 0 ≤ k → pool_short (k + 1) p → pool_short k (hand_off_one p).1.1.
Proof.
  intros Hk [Ht Ha Hsum Hc Hw]. unfold hand_off_one.
  destruct (waiters p) as [|[wpid r] ws] eqn:Hws; simpl.
  - pose proof (slips_nonneg _ Hc).
    rewrite Z.mod_small by lia. split; simpl; [done | lia | lia | done | done].
  - destruct (ledger_add_spec (ledger p) wpid Hc ltac:(specialize (Hw ltac:(done)); lia)) as (_ & Hc' & Hs').
    split; simpl; [done | lia | lia | done | intros; auto].
Qed.

Lemma hand_off_ok n k p :
  0 ≤ k → pool_short (k + Z.of_nat n) p → pool_short k (hand_off n p).1.1.
Proof.
  revert p. induction n as [|n IH]; intros p Hk Hp; simpl; [by replace k with (k + Z.of_nat 0) by lia|].
  pose proof (hand_off_one_ok (k + Z.of_nat n) p ltac:(lia)) as H1.
  destruct (hand_off_one p) as [[p1 got] out]. simpl in H1.
  specialize (IH p1 Hk (H1 ltac:(by replace (k + Z.of_nat n + 1) with (k + Z.of_nat (S n)) by lia))).
  destruct (hand_off n p1) as [[p2 granted] out']. done.
Qed.

Lemma release_ok p pid : pool_ok p → pool_ok (release p pid).1.1.
Proof.
  intros Hp. pose proof Hp as [Ht Ha Hsum Hc Hw]. unfold release.
  destruct (ledger p !! pid) as [c|] eqn:Hpid; [|done].
  destruct (Z.ltb_spec 0 c) as [Hlt|]; [|done].
  apply hand_off_one_ok; [lia|]. split; simpl; [done | done | | | done].
  - case_match; [pose proof (slips_delete (ledger p) pid) as E | pose proof (slips_set (ledger p) pid (c - 1)) as E];
      rewrite Hpid in E; simpl in E; lia.
  - case_match; [by apply map_Forall_delete | apply map_Forall_insert_2; [simpl; lia | done]].
Qed.

Lemma drop_waiters_spec pid (ws : list (Z * R)) :
  (drop_waiters pid ws).1 = filter (λ w, w.1 ≠ pid) ws ∧
  (drop_waiters pid ws).2 = (λ w, DenyAgain w.2) <$> filter (λ w, w.1 = pid) ws.
Proof.
  induction ws as [|[w r] ws [IH1 IH2]]; [done|]. cbn [drop_waiters].
  destruct (drop_waiters pid ws) as [kept out]. simpl in IH1, IH2. subst.
  rewrite !filter_cons. destruct (Z.eqb_spec w pid); repeat case_decide; simpl in *; done || congruence.
Qed.

Lemma reap_pid_ok p pid : pool_ok p → pool_ok (reap_pid p pid).1.1.
Proof.
  intros [Ht Ha Hsum Hc Hw]. unfold reap_pid.
  pose proof (drop_waiters_spec pid (waiters p)) as [Hk _].
  destruct (drop_waiters pid (waiters p)) as [kept denied]. simpl in Hk. subst kept.
  pose proof (held_le_slips (ledger p) pid Hc) as Hh.
  pose proof (slips_delete (ledger p) pid) as Hd.
  assert (pool_ok (hand_off (Z.to_nat (held_by p pid))
    (MkPool (total p) (available p) (delete pid (ledger p)) (filter (λ w, w.1 ≠ pid) (waiters p)))).1.1) as H.
  { apply hand_off_ok; [lia|]. split; simpl; [done | done | | by apply map_Forall_delete |].
    - unfold held_by. rewrite Z2Nat.id by lia. lia.
    - intros Hne. apply Hw. intros E. rewrite E in Hne. done. }
  destruct (hand_off _ _) as [[p' granted] out]. done.
Qed.

Lemma reap_box_ok pids p : pool_ok p → pool_ok (reap_box p pids).1.1.
Proof.
  revert p. induction pids as [|pid pids IH]; intros p Hp; [done|]. simpl.
  pose proof (reap_pid_ok p pid Hp) as H1. destruct (reap_pid p pid) as [[p1 g] out]. simpl in H1.
  specialize (IH p1 H1). by destruct (reap_box p1 pids) as [[p2 g'] out'].
Qed.

(** ** Who gets what *)

Lemma hand_off_one_spec p :
  waiters (hand_off_one p).1.1 = drop 1 (waiters p) ∧
  (hand_off_one p).1.2 = fst <$> head (waiters p) ∧
  (hand_off_one p).2 = Grant <$> (take 1 (waiters p)).*2.
Proof. unfold hand_off_one. by destruct (waiters p) as [|[w r] ws]. Qed.

Lemma hand_off_spec n p :
  waiters (hand_off n p).1.1 = drop n (waiters p) ∧
  (hand_off n p).1.2 = (take n (waiters p)).*1 ∧
  (hand_off n p).2 = Grant <$> (take n (waiters p)).*2.
Proof.
  revert p. induction n as [|n IH]; intros p; simpl; [done|].
  pose proof (hand_off_one_spec p) as (H1 & H2 & H3).
  destruct (hand_off_one p) as [[p1 got] out]. simpl in *. subst got out.
  destruct (IH p1) as (IH1 & IH2 & IH3). rewrite H1 in IH1, IH2, IH3.
  destruct (hand_off n p1) as [[p2 granted] out']. simpl in *. subst granted out'.
  destruct (waiters p) as [|[w r] ws]; simpl in *; rewrite ?drop_nil, ?take_nil, ?drop_0 in *; done.
Qed.

Definition times (q : Z) (l : list Z) : Z := zlen (filter (λ x, x = q) l).

Lemma times_cons q x l : times q (x :: l) = (if decide (q = x) then 1 else 0) + times q l.
Proof. unfold times, zlen. rewrite filter_cons. repeat case_decide; subst; simpl; try done; lia. Qed.

Lemma times_notin q l : q ∉ l → times q l = 0.
Proof.
  induction l as [|x l IH]; [done|]. rewrite not_elem_of_cons, times_cons. intros [Hx Hl].
  rewrite decide_False, IH by done. done.
Qed.

Lemma hand_off_counts n k p :
  0 ≤ k → pool_short (k + Z.of_nat n) p →
  available (hand_off n p).1.1 = available p + Z.of_nat (n - length (waiters p)) ∧
  ∀ q, held_by (hand_off n p).1.1 q = held_by p q + times q (take n (waiters p)).*1.
Proof.
  revert p. induction n as [|n IH]; intros p Hk Hp; simpl.
  { split; [lia|]. intros q. unfold times, zlen. simpl. lia. }
  assert (pool_short (k + Z.of_nat n + 1) p) as Hp1 by (by replace (k + Z.of_nat n + 1) with (k + Z.of_nat (S n)) by lia).
  pose proof (hand_off_one_ok (k + Z.of_nat n) p ltac:(lia) Hp1) as H1.
  unfold hand_off_one in *. destruct Hp1 as [Ht Ha Hsum Hc Hw].
  destruct (waiters p) as [|[w r] ws] eqn:Hws; cbn [fst snd] in *.
  - pose proof (slips_nonneg _ Hc). rewrite Z.mod_small in * by lia.
    destruct (IH _ Hk H1) as [IH1 IH2]. cbn in IH1, IH2.
    destruct (hand_off n _) as [[p2 granted] out']. cbn in *. split; [lia|].
    intros q. rewrite IH2. rewrite take_nil. done.
  - destruct (IH _ Hk H1) as [IH1 IH2]. cbn in IH1, IH2.
    destruct (hand_off n _) as [[p2 granted] out']. cbn in *. split; [lia|].
    intros q. rewrite IH2. unfold held_by. cbn. rewrite times_cons.
    rewrite ledger_add_lookup; [lia | done | specialize (Hw ltac:(done)); lia].
Qed.

(** ** Who is engaged with the pool: holds a slip or waits for one *)

Definition engaged p (q : Z) : Prop := is_Some (ledger p !! q) ∨ q ∈ (waiters p).*1.

Lemma acquire_engaged p pid r nb q :
  engaged (acquire p pid r nb).1.1 q →
  engaged p q ∨ (q = pid ∧ (acquire p pid r nb).1.2 = WatchPid pid).
Proof.
  unfold acquire, engaged. destruct (0 <? available p); [|destruct nb]; cbn.
  - unfold ledger_add. rewrite lookup_insert_is_Some. naive_solver.
  - naive_solver.
  - rewrite fmap_app, elem_of_app. cbn. rewrite list_elem_of_singleton. naive_solver.
Qed.

Lemma hand_off_one_engaged p q : engaged (hand_off_one p).1.1 q → engaged p q.
Proof.
  unfold hand_off_one, engaged. destruct (waiters p) as [|[w r] ws]; cbn; [done|].
  unfold ledger_add. rewrite lookup_insert_is_Some, elem_of_cons. naive_solver.
Qed.

Lemma hand_off_engaged n p q : engaged (hand_off n p).1.1 q → engaged p q.
Proof.
  revert p. induction n as [|n IH]; intros p; simpl; [done|].
  pose proof (hand_off_one_engaged p q) as H1. destruct (hand_off_one p) as [[p1 got] out].
  specialize (IH p1). destruct (hand_off n p1) as [[p2 granted] out']. auto.
Qed.

Lemma release_engaged p pid q : engaged (release p pid).1.1 q → engaged p q.
Proof.
  unfold release. destruct (ledger p !! pid) as [c|] eqn:Hpid; [|done].
  destruct (0 <? c); [|done]. intros H%hand_off_one_engaged. destruct H as [H|H]; [left|right; done].
  cbn in H. case_match.
  - apply lookup_delete_is_Some in H. naive_solver.
  - apply lookup_insert_is_Some in H. naive_solver.
Qed.

Lemma reap_pid_engaged p pid q : engaged (reap_pid p pid).1.1 q → engaged p q ∧ q ≠ pid.
Proof.
  unfold reap_pid. pose proof (drop_waiters_spec pid (waiters p)) as [Hk _].
  destruct (drop_waiters pid (waiters p)) as [kept denied]. simpl in Hk. subst kept.
  pose proof (hand_off_engaged (Z.to_nat (held_by p pid))
    (MkPool (total p) (available p) (delete pid (ledger p)) (filter (λ w, w.1 ≠ pid) (waiters p))) q) as H.
  destruct (hand_off _ _) as [[p' granted] out]. cbn in *. intros [He|He]%H; cbn in He.
  - apply lookup_delete_is_Some in He. split; [left; naive_solver | naive_solver].
  - apply list_elem_of_fmap in He as (w & -> & [? ?]%list_elem_of_filter).
    split; [right; apply list_elem_of_fmap; eauto | done].
Qed.

Lemma reap_box_engaged pids p q : engaged (reap_box p pids).1.1 q → engaged p q ∧ q ∉ pids.
Proof.
  revert p. induction pids as [|pid pids IH]; intros p; simpl; [set_solver|].
  pose proof (reap_pid_engaged p pid q) as H1. destruct (reap_pid p pid) as [[p1 g] out].
  specialize (IH p1). destruct (reap_box p1 pids) as [[p2 g'] out']. cbn in *.
  intros H. apply IH in H as [H ?]. apply H1 in H as [? ?]. set_solver.
Qed.

(** Reaping a process that exited is exact: its queued requests are denied,
    every slip it held goes to the first of the other waiters in the order they
    queued, the slips nobody waits for become available, and nobody else's
    holding changes otherwise. *)
Theorem reap_exact p pid :
  pool_ok p →
  let ws := filter (λ w, w.1 ≠ pid) (waiters p) in
  let n := Z.to_nat (held_by p pid) in
  let '(p', granted, out) := reap_pid p pid in
  waiters p' = drop n ws ∧ granted = (take n ws).*1 ∧
  out = (DenyAgain <$> (filter (λ w, w.1 = pid) (waiters p)).*2) ++ (Grant <$> (take n ws).*2) ∧
  available p' = available p + Z.of_nat (n - length ws) ∧
  held_by p' pid = 0 ∧
  (∀ q, q ≠ pid → held_by p' q = held_by p q + times q granted) ∧
  pool_ok p'.
Proof.
  intros Hp. cbn zeta. pose proof (reap_pid_ok p pid Hp) as Hok. unfold reap_pid in *.
  pose proof (drop_waiters_spec pid (waiters p)) as [Hk Hd].
  destruct (drop_waiters pid (waiters p)) as [kept denied]. simpl in Hk, Hd. subst kept denied.
  set (ws := filter (λ w, w.1 ≠ pid) (waiters p)) in *.
  set (p0 := MkPool (total p) (available p) (delete pid (ledger p)) ws) in *.
  destruct Hp as [Ht Ha Hsum Hc Hw].
  pose proof (held_le_slips (ledger p) pid Hc) as Hh. fold (held_by p pid) in Hh.
  pose proof (slips_delete (ledger p) pid) as Hs. fold (held_by p pid) in Hs.
  assert (pool_short (0 + Z.of_nat (Z.to_nat (held_by p pid))) p0) as H0.
  { split; cbn; [done | done | lia | by apply map_Forall_delete |].
    intros Hne. apply Hw. intros E. apply Hne. unfold ws. by rewrite E. }
  pose proof (hand_off_spec (Z.to_nat (held_by p pid)) p0) as (E1 & E2 & E3).
  pose proof (hand_off_counts _ 0 p0 ltac:(lia) H0) as [C1 C2].
  destruct (hand_off _ _) as [[p' granted] out]. cbn in *. subst granted out.
  split_and!; [done | done | by rewrite <- !list_fmap_compose | done | | | done].
  - rewrite C2. unfold held_by at 1. cbn. rewrite lookup_delete_eq. cbn.
    apply times_notin. intros (w & -> & Hw')%list_elem_of_fmap.
    apply elem_of_take in Hw' as (i & Hi%list_elem_of_lookup_2 & _).
    by apply list_elem_of_filter in Hi as [? _].
  - intros q Hq. rewrite C2. unfold held_by at 1. cbn. by rewrite lookup_delete_ne by done.
Qed.

End pool_laws.

(** Process 7 holds both slips and waits for a third between two others. *)
Definition sample_pool : Pool nat := MkPool 2 0 {[ 7 := 2 ]} [(8, 0%nat); (7, 1%nat); (9, 2%nat)].

Lemma reap_exact_witness :
  let '(p', granted, out) := reap_pid sample_pool 7 in
  granted = [8; 9] ∧ out = [DenyAgain 1%nat; Grant 0%nat; Grant 2%nat] ∧ held_by p' 7 = 0.
Proof.
  assert (pool_short 0 sample_pool) as Hok.
  { split; [by vm_compute | by vm_compute | by vm_compute | by apply map_Forall_singleton | done]. }
  pose proof (reap_exact sample_pool 7 Hok) as H. cbn zeta in H.
  destruct (reap_pid sample_pool 7) as [[p' granted] out].
  destruct H as (_ & H1 & H2 & _ & H3 & _). split_and!; [by rewrite H1 | by rewrite H2 | done].
Defined.
