(* ===== verification/Jobserver.v ===== *)
(** * The jobserver: the slip pool among its clients.

    Models the jobserver half of [engine/src/sarunfs/synthetic.rs] and the
    reaper of [engine/src/slippool.rs]: host processes and guest processes
    acquire and release slips of the one pool, a process exit reaps, a box that
    goes away reaps its guests.  The threads interleave: an operation is cut at
    its locks, and what a thread still has to do is kept in the state.  A
    request is numbered by the reply channel it makes. *)

From stdpp Require Import gmap relations sorting.
From S2P Require Import Prelude.
From S2P Require Import SlipPool.
Open Scope Z_scope.

(** What a guest call does once it has its actor *)
Inductive GuestCall : Type :=
| GuestAcquire (nonblocking : bool)
| GuestRelease.

(** [pool] is the engine's [POOL], [watched] the [Reaper]'s map from pids to
    pidfds, [next_actor] and [actors] the [GuestJobserver].  [asked] counts the
    reply channels made, [replies] are the replies sent on them in order, and
    [allocated] counts the actors made.  The rest is what threads have yet to
    do: [registering] and [opening] the calls of [watch] before their check and
    before their registration, [reaping] the pids to reap, [guests] the guest
    calls that have looked up their actor, [teardown] the actors of removed
    boxes to reap. *)
Record Jobs : Type := MkJobs {
  pool : Pool nat; asked : nat; replies : list (SlipReply nat);
  watched : gmap Z Z;
  next_actor : Z; actors : gmap (Z * Z) Z; allocated : nat;
  registering : list Z; opening : list Z; reaping : list Z;
  guests : list (Z * GuestCall); teardown : list (list Z) }.

Definition jobs_new (n : Z) : Jobs :=
  MkJobs (pool_new n) 0 [] ∅ (-1) ∅ 0 [] [] [] [] [].

Definition with_pool (s : Jobs) (p : Pool nat) (out : list (SlipReply nat)) : Jobs :=
  MkJobs p (asked s) (replies s ++ out) (watched s) (next_actor s) (actors s) (allocated s)
    (registering s) (opening s) (reaping s) (guests s) (teardown s).
Definition with_watch (s : Jobs) (w : gmap Z Z) (reg op rp : list Z) : Jobs :=
  MkJobs (pool s) (asked s) (replies s) w (next_actor s) (actors s) (allocated s)
    reg op rp (guests s) (teardown s).
Definition with_actors (s : Jobs) (next : Z) (m : gmap (Z * Z) Z) (n : nat) (g : list (Z * GuestCall))
    (t : list (list Z)) : Jobs :=
  MkJobs (pool s) (asked s) (replies s) (watched s) next m n
    (registering s) (opening s) (reaping s) g t.

(** [acquire_jobserver], up to the unlock of the pool; [watch_pid] follows. *)
Definition acquire_jobserver (s : Jobs) (actor : Z) (nonblocking watch_host_pid : bool) : Jobs :=
  let '(p, watch, out) := acquire (pool s) actor (asked s) nonblocking in
  let s := MkJobs p (S (asked s)) (replies s ++ out) (watched s) (next_actor s) (actors s) (allocated s)
    (registering s) (opening s) (reaping s) (guests s) (teardown s) in
  match watch with
  | WatchPid pid =>
      if watch_host_pid then with_watch s (watched s) (pid :: registering s) (opening s) (reaping s) else s
  | WatchNone => s
  end.

Definition jobserver_release (s : Jobs) (actor : Z) : Jobs :=
  let '(p, _, out) := release (pool s) actor in with_pool s p out.

(** What a blocked request returns once its channel has a reply *)
Definition SLIP : Z := 43.
Definition EAGAIN : Z := 11.
Definition jobserver_reply (s : Jobs) (r : nat) : option (Result Z Z) :=
  list_find (λ x, x = Grant r ∨ x = DenyAgain r) (replies s) ≫= λ '(_, x),
    match x with Grant _ => Some (Ok SLIP) | DenyAgain _ => Some (Err EAGAIN) end.

(** [guest_actor] *)
Definition checked_sub_one (n : Z) : option Z := if - 2 ^ 31 <=? n - 1 then Some (n - 1) else None.
Definition guest_actor (s : Jobs) (box_id guest_pid : Z) : Jobs * Z :=
  match actors s !! (box_id, guest_pid) with
  | Some actor => (s, actor)
  | None =>
      let actor := next_actor s in
      (with_actors s (default (-1) (checked_sub_one actor))
         (<[(box_id, guest_pid) := actor]> (actors s)) (S (allocated s)) (guests s) (teardown s), actor)
  end.

(** The thread goes on to its call. *)
Definition guest_queue (sa : Jobs * Z) (c : GuestCall) : Jobs :=
  let '(s, actor) := sa in
  with_actors s (next_actor s) (actors s) (allocated s) ((actor, c) :: guests s) (teardown s).

(** The call that follows *)
Definition guest_call (s : Jobs) (actor : Z) (c : GuestCall) : Jobs :=
  match c with
  | GuestAcquire nonblocking => acquire_jobserver s actor nonblocking false
  | GuestRelease => jobserver_release s actor
  end.

(** [Reaper::watch]: the first look at the map (true: already watched) *)
Definition watch_check (s : Jobs) (pid : Z) : bool := bool_decide (is_Some (watched s !! pid)).

(** ... and the rest, with the results of [pidfd_open] and [epoll_ctl]: the new
    map, and whether the pid is reaped at once *)
Definition watch_register (w : gmap Z Z) (pid pidfd rc : Z) : gmap Z Z * bool :=
  if pidfd <? 0 then (w, true)
  else if bool_decide (is_Some (w !! pid)) then (w, false)
  else if rc <? 0 then (w, true)
  else (<[pid := pidfd]> w, false).

Definition jobserver_reap (s : Jobs) (pid : Z) : Jobs :=
  let '(p, _, out) := reap_pid (pool s) pid in with_pool s p out.

(** [remove_box]: the actors of the box, and the map without them *)
Definition box_actors (m : gmap (Z * Z) Z) (box_id : Z) : list Z :=
  (map_to_list (filter (λ kv, kv.1.1 = box_id) m)).*2.
Definition actors_retain (m : gmap (Z * Z) Z) (box_id : Z) : gmap (Z * Z) Z :=
  filter (λ kv, kv.1.1 ≠ box_id) m.
Definition teardown_reap (s : Jobs) (pids : list Z) : Jobs :=
  match pids with
  | [] => s
  | _ => let '(p, _, out) := reap_box (pool s) pids in with_pool s p out
  end.

(** ** Interleavings

    One step is one critical section of one thread.  The kernel answers
    [pidfd_open] and [epoll_ctl] as it likes and reports any exit; a hash map is
    iterated in any order.  With [quiet], no box is removed while a call of one
    of its guests is between its two locks. *)
Inductive step (quiet : bool) (s : Jobs) : Jobs → Prop :=
| StepHostAcquire tgid nb : 0 < tgid → step quiet s (acquire_jobserver s tgid nb true)
| StepHostRelease tgid : 0 < tgid → step quiet s (jobserver_release s tgid)
| StepGuestLookup box pid c :
    step quiet s (guest_queue (guest_actor s box pid) c)
| StepGuestCall l1 a c l2 :
    guests s = l1 ++ (a, c) :: l2 →
    step quiet s (guest_call (with_actors s (next_actor s) (actors s) (allocated s) (l1 ++ l2) (teardown s)) a c)
| StepWatchCheck l1 pid l2 :
    registering s = l1 ++ pid :: l2 →
    step quiet s (with_watch s (watched s) (l1 ++ l2)
      (if watch_check s pid then opening s else pid :: opening s) (reaping s))
| StepWatchRegister l1 pid l2 pidfd rc :
    opening s = l1 ++ pid :: l2 →
    step quiet s (with_watch s (watch_register (watched s) pid pidfd rc).1 (registering s) (l1 ++ l2)
      (if (watch_register (watched s) pid pidfd rc).2 then pid :: reaping s else reaping s))
| StepExit pid : step quiet s (with_watch s (delete pid (watched s)) (registering s) (opening s) (pid :: reaping s))
| StepReap l1 pid l2 :
    reaping s = l1 ++ pid :: l2 →
    step quiet s (jobserver_reap (with_watch s (watched s) (registering s) (opening s) (l1 ++ l2)) pid)
| StepBoxRemoved box order :
    order ≡ₚ box_actors (actors s) box →
    (quiet = true → ∀ g, g ∈ guests s → g.1 ∉ order) →
    step quiet s (with_actors s (next_actor s) (actors_retain (actors s) box) (allocated s) (guests s) (order :: teardown s))
| StepBoxReap l1 pids l2 :
    teardown s = l1 ++ pids :: l2 →
    step quiet s (teardown_reap (with_actors s (next_actor s) (actors s) (allocated s) (guests s) (l1 ++ l2)) pids).

Definition reachable (quiet : bool) (n : Z) (s : Jobs) : Prop := rtc (step quiet) (jobs_new n) s.

(** ** The requests *)

(** The requests granted, in order, and the requests answered *)
Definition granted (log : list (SlipReply nat)) : list nat :=
  omap (λ x, match x with Grant r => Some r | DenyAgain _ => None end) log.
Definition answered (log : list (SlipReply nat)) : list nat :=
  (λ x, match x with Grant r | DenyAgain r => r end) <$> log.
Definition waiting (p : Pool nat) : list nat := (waiters p).*2.

(** The books: those granted and then those waiting are in the order of their
    requests, and each request is answered once or waits. *)
Record books (p : Pool nat) (n : nat) (log : list (SlipReply nat)) : Prop := {
  bk_order : StronglySorted lt (granted log ++ waiting p);
  bk_once : answered log ++ waiting p ≡ₚ seq 0 n }.

Lemma sorted_sublist (l l' : list nat) : l `sublist_of` l' → StronglySorted lt l' → StronglySorted lt l.
Proof.
  induction 1 as [|x l l' Hs IH|x l l' Hs IH]; [done| |]; rewrite StronglySorted_cons; intros [Hf Hl]; [|auto].
  rewrite StronglySorted_cons. split; [|auto].
  apply Forall_forall. intros y Hy. rewrite Forall_forall in Hf. apply Hf.
  eapply elem_of_submseteq; [done | by apply sublist_submseteq].
Qed.

Lemma granted_app log out : granted (log ++ out) = granted log ++ granted out.
Proof. apply omap_app. Qed.
Lemma granted_grants l : granted (Grant <$> l) = l.
Proof. induction l as [|x l IH]; [done|]. by rewrite <- IH at 2. Qed.
Lemma granted_denies l : granted (DenyAgain <$> l) = [].
Proof. by induction l as [|x l IH]. Qed.

(** Some of the queue is denied, the head of the rest is granted. *)
Lemma books_serve p p' n log denied ws k out :
  books p n log →
  ws `sublist_of` waiting p → denied ++ ws ≡ₚ waiting p →
  out = (DenyAgain <$> denied) ++ (Grant <$> take k ws) → waiting p' = drop k ws →
  books p' n (log ++ out).
Proof.
  intros [Ho H1] Hsub Hperm -> Hw. split.
  - rewrite granted_app, granted_app, granted_denies, granted_grants, Hw. simpl.
    rewrite <- app_assoc, take_drop. eapply sorted_sublist; [|exact Ho]. by apply sublist_app.
  - rewrite <- H1, <- Hperm, Hw. unfold answered. rewrite !fmap_app, <- !list_fmap_compose.
    rewrite <- !app_assoc. apply Permutation_app_head.
    assert (∀ l : list nat, ((λ x, match x with Grant r | DenyAgain r => r end) ∘ DenyAgain) <$> l = l) as ->
      by (intros l; apply list_fmap_id).
    assert (∀ l : list nat, ((λ x, match x with Grant r | DenyAgain r => r end) ∘ Grant) <$> l = l) as ->
      by (intros l; apply list_fmap_id).
    by rewrite take_drop.
Qed.

Lemma books_acquire p n log pid nb :
  pool_short 0 p → books p n log →
  books (acquire p pid n nb).1.1 (S n) (log ++ (acquire p pid n nb).2).
Proof.
  intros Hp [Ho H1].
  assert (∀ x, x ∈ granted log ++ waiting p → (x < n)%nat) as Hlt.
  { intros x Hx. assert (x ∈ answered log ++ waiting p) as Hx'.
    { rewrite elem_of_app in *. destruct Hx as [Hx|]; [left|by right].
      apply list_elem_of_omap in Hx as (y & Hy & Hx). apply list_elem_of_fmap. exists y. destruct y; naive_solver. }
    rewrite H1 in Hx'. apply elem_of_seq in Hx'. lia. }
  assert (∀ l : list nat, l ≡ₚ seq 0 n → l ++ [n] ≡ₚ seq 0 (S n)) as Hseq
    by (intros l ->; by rewrite seq_S).
  assert (StronglySorted lt ((granted log ++ waiting p) ++ [n])) as Hsort.
  { apply StronglySorted_app_2; [|done | repeat constructor].
    intros x1 x2 Hx1 ->%list_elem_of_singleton. auto. }
  unfold acquire. destruct (Z.ltb_spec 0 (available p)) as [Hav|Hav].
  - assert (waiters p = []) as Hnil.
    { destruct (waiters p) eqn:E; [done|]. pose proof (ps_waiting _ _ Hp). rewrite E in *. specialize (H ltac:(done)). lia. }
    unfold waiting in *. rewrite Hnil in *. cbn [fmap list_fmap] in *. rewrite !app_nil_r in *.
    split; cbn [fst snd]; unfold waiting; cbn [waiters]; cbn [fmap list_fmap]; rewrite app_nil_r.
    + by rewrite granted_app.
    + unfold answered. rewrite fmap_app. apply Hseq. exact H1.
  - destruct nb; split; cbn [fst snd]; unfold waiting in *; cbn [waiters].
    + rewrite granted_app. cbn. by rewrite app_nil_r.
    + unfold answered. rewrite fmap_app. cbn. rewrite <- app_assoc, <- (Hseq _ H1).
      unfold answered. rewrite <- app_assoc. apply Permutation_app_head. apply Permutation_app_comm.
    + rewrite app_nil_r, fmap_app. cbn. by rewrite app_assoc.
    + rewrite app_nil_r, fmap_app. cbn. rewrite app_assoc. by apply Hseq.
Qed.

Lemma books_release p n log pid :
  books p n log → books (release p pid).1.1 n (log ++ (release p pid).2).
Proof.
  intros Hb. unfold release.
  assert (books p n (log ++ [])) as Hb' by (by rewrite app_nil_r).
  destruct (ledger p !! pid) as [c|]; [|done]. destruct (0 <? c); [|done].
  set (m := if c - 1 =? 0 then _ else _). set (p0 := MkPool _ _ m _).
  pose proof (hand_off_one_spec p0) as (E1 & _ & E3).
  apply (books_serve p _ n log [] (waiting p) 1); [done | done | done | | ].
  - rewrite E3. unfold waiting. cbn. by rewrite <- fmap_take.
  - unfold waiting. by rewrite E1, fmap_drop.
Qed.

Lemma filter_split {A} (P : A → Prop) `{∀ x, Decision (P x)} (l : list A) :
  filter P l ++ filter (λ x, ¬ P x) l ≡ₚ l.
Proof.
  induction l as [|x l IH]; [done|]. rewrite !filter_cons. repeat case_decide; try done.
  - simpl. by f_equiv.
  - rewrite <- Permutation_middle. by f_equiv.
Qed.

Lemma books_reap p n log pid :
  pool_short 0 p → books p n log → books (reap_pid p pid).1.1 n (log ++ (reap_pid p pid).2).
Proof.
  intros Hp Hb. unfold reap_pid. pose proof (drop_waiters_spec pid (waiters p)) as [Hk Hd].
  destruct (drop_waiters pid (waiters p)) as [kept denied]. simpl in Hk, Hd. subst kept denied.
  set (p0 := MkPool _ _ _ _). pose proof (hand_off_spec (Z.to_nat (held_by p pid)) p0) as (E1 & _ & E3).
  destruct (hand_off _ _) as [[p' g] out]. cbn in E1, E3 |- *.
  eapply (books_serve p p' n log (filter (λ w, w.1 = pid) (waiters p)).*2
    (filter (λ w, w.1 ≠ pid) (waiters p)).*2 (Z.to_nat (held_by p pid))); [done | | | | ].
  - unfold waiting. apply fmap_sublist, sublist_filter.
  - unfold waiting. rewrite <- fmap_app. by rewrite filter_split.
  - rewrite E3, <- fmap_take. f_equal. by rewrite <- list_fmap_compose.
  - unfold waiting. by rewrite E1, fmap_drop.
Qed.

Lemma books_reap_box pids p n log :
  pool_short 0 p → books p n log → books (reap_box p pids).1.1 n (log ++ (reap_box p pids).2).
Proof.
  revert p log. induction pids as [|pid pids IH]; intros p log Hp Hb; simpl; [by rewrite app_nil_r|].
  pose proof (reap_pid_ok p pid Hp) as H1. pose proof (books_reap p n log pid Hp Hb) as H2.
  destruct (reap_pid p pid) as [[p1 g] out]. cbn in H1, H2. specialize (IH p1 _ H1 H2).
  destruct (reap_box p1 pids) as [[p2 g'] out']. cbn in *. by rewrite app_assoc.
Qed.

(** ** What every interleaving keeps *)

Definition sound (s : Jobs) : Prop := pool_short 0 (pool s) ∧ books (pool s) (asked s) (replies s).

Lemma acquire_sound s a nb w : sound s → sound (acquire_jobserver s a nb w).
Proof.
  intros [Hp Hb]. unfold acquire_jobserver.
  pose proof (acquire_ok (pool s) a (asked s) nb Hp) as H1.
  pose proof (books_acquire _ _ _ a nb Hp Hb) as H2.
  destruct (acquire (pool s) a (asked s) nb) as [[p wt] out]. cbn in H1, H2.
  destruct wt; [destruct w|]; done.
Qed.

Lemma release_sound s a : sound s → sound (jobserver_release s a).
Proof.
  intros [Hp Hb]. unfold jobserver_release.
  pose proof (release_ok (pool s) a Hp) as H1. pose proof (books_release _ _ _ a Hb) as H2.
  by destruct (release (pool s) a) as [[p got] out].
Qed.

Lemma reap_sound s a : sound s → sound (jobserver_reap s a).
Proof.
  intros [Hp Hb]. unfold jobserver_reap.
  pose proof (reap_pid_ok (pool s) a Hp) as H1. pose proof (books_reap _ _ _ a Hp Hb) as H2.
  by destruct (reap_pid (pool s) a) as [[p got] out].
Qed.

Lemma teardown_sound s l : sound s → sound (teardown_reap s l).
Proof.
  intros [Hp Hb]. unfold teardown_reap. destruct l as [|pid l]; [done|].
  pose proof (reap_box_ok (pid :: l) (pool s) Hp) as H1. pose proof (books_reap_box (pid :: l) _ _ _ Hp Hb) as H2.
  by destruct (reap_box (pool s) (pid :: l)) as [[p got] out].
Qed.

Lemma step_sound quiet s s' : step quiet s s' → sound s → sound s'.
Proof.
  destruct 1; intros Hs; auto using acquire_sound, release_sound, reap_sound, teardown_sound.
  - unfold guest_actor. by destruct (actors s !! (box, pid)).
  - unfold guest_call. destruct c; auto using acquire_sound, release_sound.
Qed.

Lemma sound_new n : n < 2 ^ 32 → sound (jobs_new n).
Proof. intros Hn. split; [by apply pool_new_ok | split; [constructor | done]]. Qed.

Lemma reachable_inv (P : Jobs → Prop) quiet n s :
  P (jobs_new n) → (∀ s s', step quiet s s' → P s → P s') → reachable quiet n s → P s.
Proof. unfold reachable. intros H0 Hs Hr. revert H0. induction Hr; eauto. Qed.

Lemma reachable_sound quiet n s : n < 2 ^ 32 → reachable quiet n s → sound s.
Proof. intros Hn. apply reachable_inv; [by apply sound_new | apply step_sound]. Qed.

(** Host actors are pids, guest actors are negative. *)
Record negative_guests (s : Jobs) : Prop := {
  ng_next : next_actor s < 0;
  ng_actors : map_Forall (λ _ a, a < 0) (actors s);
  ng_guests : Forall (λ g, g.1 < 0) (guests s) }.

(** A host process that holds a slip or waits for one is watched, or a thread
    is about to watch or to reap it. *)
Definition attended (s : Jobs) (q : Z) : Prop :=
  is_Some (watched s !! q) ∨ q ∈ registering s ∨ q ∈ opening s ∨ q ∈ reaping s.
Definition hosts_attended (s : Jobs) : Prop := ∀ q, 0 < q → engaged (pool s) q → attended s q.

(** A guest that holds a slip or waits for one has an actor of its box, or its
    box is about to be reaped. *)
Definition owned (s : Jobs) (q : Z) : Prop := ∃ k, actors s !! k = Some q.
Definition guests_owned (s : Jobs) : Prop :=
  (∀ g, g ∈ guests s → owned s g.1) ∧
  ∀ q, q < 0 → engaged (pool s) q → owned s q ∨ ∃ t, t ∈ teardown s ∧ q ∈ t.

Lemma acquire_jobserver_spec s a nb w :
  let s' := acquire_jobserver s a nb w in
  (watched s', next_actor s', actors s', allocated s', opening s', reaping s', guests s', teardown s') =
  (watched s, next_actor s, actors s, allocated s, opening s, reaping s, guests s, teardown s) ∧
  (∀ q, q ∈ registering s → q ∈ registering s') ∧
  ∀ q, engaged (pool s') q → engaged (pool s) q ∨ (q = a ∧ (w = true → a ∈ registering s')).
Proof.
  unfold acquire_jobserver. pose proof (λ q, acquire_engaged (pool s) a (asked s) nb q) as He.
  destruct (acquire (pool s) a (asked s) nb) as [[p wt] out]. cbn in He.
  destruct wt as [pid|]; [destruct w|]; cbn; (split; [done|]); split; intros q; try set_solver;
    intros [?|[-> [=]]]%He; subst; set_solver.
Qed.

Lemma release_spec s a :
  let s' := jobserver_release s a in
  (watched s', next_actor s', actors s', allocated s', registering s', opening s', reaping s', guests s', teardown s') =
  (watched s, next_actor s, actors s, allocated s, registering s, opening s, reaping s, guests s, teardown s) ∧
  ∀ q, engaged (pool s') q → engaged (pool s) q.
Proof.
  unfold jobserver_release. pose proof (λ q, release_engaged (pool s) a q) as He.
  by destruct (release (pool s) a) as [[p wt] out].
Qed.

Lemma reap_spec s a :
  let s' := jobserver_reap s a in
  (watched s', next_actor s', actors s', allocated s', registering s', opening s', reaping s', guests s', teardown s') =
  (watched s, next_actor s, actors s, allocated s, registering s, opening s, reaping s, guests s, teardown s) ∧
  ∀ q, engaged (pool s') q → engaged (pool s) q ∧ q ≠ a.
Proof.
  unfold jobserver_reap. pose proof (λ q, reap_pid_engaged (pool s) a q) as He.
  by destruct (reap_pid (pool s) a) as [[p wt] out].
Qed.

Lemma teardown_spec s l :
  let s' := teardown_reap s l in
  (watched s', next_actor s', actors s', allocated s', registering s', opening s', reaping s', guests s', teardown s') =
  (watched s, next_actor s, actors s, allocated s, registering s, opening s, reaping s, guests s, teardown s) ∧
  ∀ q, engaged (pool s') q → engaged (pool s) q ∧ q ∉ l.
Proof.
  unfold teardown_reap. destruct l as [|pid l]; [set_solver|].
  pose proof (λ q, reap_box_engaged (pid :: l) (pool s) q) as He.
  by destruct (reap_box (pool s) (pid :: l)) as [[p wt] out].
Qed.

Lemma guest_actor_spec s box pid :
  let '(s', a) := guest_actor s box pid in
  (pool s', asked s', replies s', watched s', registering s', opening s', reaping s', guests s', teardown s') =
  (pool s, asked s, replies s, watched s, registering s, opening s, reaping s, guests s, teardown s) ∧
  actors s' !! (box, pid) = Some a ∧
  ((actors s', next_actor s', allocated s') = (actors s, next_actor s, allocated s) ∨
   (actors s !! (box, pid) = None ∧ a = next_actor s ∧ actors s' = <[(box, pid) := a]> (actors s) ∧
    next_actor s' = default (-1) (checked_sub_one a) ∧ allocated s' = S (allocated s))).
Proof.
  unfold guest_actor. destruct (actors s !! (box, pid)) as [a|] eqn:E; cbn; [by auto 10|].
  split_and!; [done | by rewrite lookup_insert_eq | by auto 10].
Qed.

Lemma checked_sub_neg a : a < 0 → default (-1) (checked_sub_one a) < 0.
Proof. unfold checked_sub_one. case_match; cbn; lia. Qed.

Lemma step_negative quiet s s' : step quiet s s' → negative_guests s → negative_guests s'.
Proof.
  destruct 1 as [tgid nb|tgid|box pid c|l1 a c l2 Hg|l1 pid l2 Hr|l1 pid l2 fd rc Ho|pid|l1 pid l2 Hr|box order Ho Hq|l1 pids l2 Ht];
    intros [Hn Ha Hg']; try (by split).
  - pose proof (acquire_jobserver_spec s tgid nb true) as [[= E1 E2 E3 E4 E5 E6 E7 E8] _].
    split; by rewrite ?E2, ?E3, ?E7.
  - pose proof (release_spec s tgid) as [[= E1 E2 E3 E4 E5 E6 E7 E8 E9] _]. split; by rewrite ?E2, ?E3, ?E8.
  - pose proof (guest_actor_spec s box pid) as Hs. destruct (guest_actor s box pid) as [s1 a].
    destruct Hs as ([= E1 E2 E3 E4 E5 E6 E7 E8 E9] & Hl & [[= A1 A2 A3]|(A0 & A1 & A2 & A3 & A4)]); split; cbn;
      rewrite ?A1, ?A2, ?A3, ?E8; try done.
    + constructor; [|done]. cbn. rewrite A1 in Hl. by specialize (Ha _ _ Hl).
    + apply checked_sub_neg. lia.
    + apply map_Forall_insert_2; [lia | done].
    + constructor; [cbn; lia | done].
  - rewrite Hg in Hg'. apply Forall_app in Hg' as [G1 [G2 G3]%Forall_cons].
    unfold guest_call. set (s1 := with_actors _ _ _ _ _ _). destruct c as [nb|].
    + pose proof (acquire_jobserver_spec s1 a nb false) as [[= E1 E2 E3 E4 E5 E6 E7 E8] _].
      split; rewrite ?E2, ?E3, ?E7; cbn; [done | done | by apply Forall_app].
    + pose proof (release_spec s1 a) as [[= E1 E2 E3 E4 E5 E6 E7 E8 E9] _].
      split; rewrite ?E2, ?E3, ?E8; cbn; [done | done | by apply Forall_app].
  - pose proof (reap_spec (with_watch s (watched s) (registering s) (opening s) (l1 ++ l2)) pid)
      as [[= E1 E2 E3 E4 E5 E6 E7 E8 E9] _]. split; by rewrite ?E2, ?E3, ?E8.
  - split; cbn; [done | | done]. intros k a [Hk _]%map_lookup_filter_Some. by apply (Ha k).
  - pose proof (teardown_spec (with_actors s (next_actor s) (actors s) (allocated s) (guests s) (l1 ++ l2)) pids)
      as [[= E1 E2 E3 E4 E5 E6 E7 E8 E9] _]. split; by rewrite ?E2, ?E3, ?E8.
Qed.

Lemma step_hosts quiet s s' : step quiet s s' → negative_guests s → hosts_attended s → hosts_attended s'.
Proof.
  destruct 1 as [tgid nb Hpos|tgid Hpos|box pid c|l1 a c l2 Hg|l1 pid l2 Hr|l1 pid l2 fd rc Ho|pid|l1 pid l2 Hr|box order Ho Hq|l1 pids l2 Ht];
    intros [Hn Ha Hg'] Hh q Hq0 He; try (by apply (Hh q Hq0)).
  - pose proof (acquire_jobserver_spec s tgid nb true) as [[= E1 E2 E3 E4 E5 E6 E7 E8] [Hreg Hnew]].
    unfold attended. rewrite E1, E5, E6. apply Hnew in He as [He|[-> Hin]]; [|by auto].
    specialize (Hh q Hq0 He). unfold attended in Hh. naive_solver.
  - pose proof (release_spec s tgid) as [[= E1 E2 E3 E4 E5 E6 E7 E8 E9] Hold].
    unfold attended. rewrite E1, E5, E6, E7. apply (Hh q Hq0). by apply Hold.
  - pose proof (guest_actor_spec s box pid) as Hs. destruct (guest_actor s box pid) as [s1 a].
    destruct Hs as ([= E1 E2 E3 E4 E5 E6 E7 E8 E9] & _). unfold attended. cbn in *. rewrite E1 in He.
    rewrite E4, E5, E6, E7. by apply (Hh q Hq0).
  - rewrite Hg in Hg'. apply Forall_app in Hg' as [G1 [G2 G3]%Forall_cons]. cbn in G2.
    unfold guest_call in *. set (s1 := with_actors _ _ _ _ _ _) in *. destruct c as [nb|].
    + pose proof (acquire_jobserver_spec s1 a nb false) as [[= E1 E2 E3 E4 E5 E6 E7 E8] [Hreg Hnew]].
      unfold attended. rewrite E1, E5, E6. apply Hnew in He as [He|[-> Hin]]; [|lia].
      specialize (Hh q Hq0 He). unfold attended in Hh. naive_solver.
    + pose proof (release_spec s1 a) as [[= E1 E2 E3 E4 E5 E6 E7 E8 E9] Hold].
      unfold attended. rewrite E1, E5, E6, E7. apply (Hh q Hq0). by apply Hold.
  - specialize (Hh q Hq0 He). unfold attended, watch_check in *. cbn. rewrite Hr in Hh.
    case_bool_decide as Hw; [|set_solver]. destruct (decide (q = pid)) as [->|]; set_solver.
  - specialize (Hh q Hq0 He). unfold attended, watch_register in *. cbn. rewrite Ho in Hh.
    destruct (fd <? 0); [|case_bool_decide as Hw; [|destruct (rc <? 0)]]; cbn.
    + set_solver.
    + destruct (decide (q = pid)) as [->|]; set_solver.
    + set_solver.
    + rewrite lookup_insert_is_Some. destruct (decide (q = pid)) as [->|]; set_solver.
  - specialize (Hh q Hq0 He). unfold attended in *. cbn. rewrite lookup_delete_is_Some.
    destruct (decide (q = pid)) as [->|]; set_solver.
  - pose proof (reap_spec (with_watch s (watched s) (registering s) (opening s) (l1 ++ l2)) pid)
      as [[= E1 E2 E3 E4 E5 E6 E7 E8 E9] Hold]. apply Hold in He as [He Hne]. specialize (Hh q Hq0 He).
    unfold attended in *. rewrite E1, E5, E6, E7. cbn. rewrite Hr in Hh. set_solver.
  - pose proof (teardown_spec (with_actors s (next_actor s) (actors s) (allocated s) (guests s) (l1 ++ l2)) pids)
      as [[= E1 E2 E3 E4 E5 E6 E7 E8 E9] Hold]. apply Hold in He as [He _].
    unfold attended. rewrite E1, E5, E6, E7. by apply (Hh q Hq0).
Qed.

Lemma owned_eq s s' q : actors s' = actors s → owned s q → owned s' q.
Proof. unfold owned. by intros ->. Qed.

Lemma step_guests s s' : step true s s' → guests_owned s → guests_owned s'.
Proof.
  destruct 1 as [tgid nb Hpos|tgid Hpos|box pid c|l1 a c l2 Hg|l1 pid l2 Hr|l1 pid l2 fd rc Ho|pid|l1 pid l2 Hr|box order Ho Hq|l1 pids l2 Ht];
    intros [Hg' Hown]; try (by split).
  - pose proof (acquire_jobserver_spec s tgid nb true) as [[= E1 E2 E3 E4 E5 E6 E7 E8] [Hreg Hnew]].
    split; rewrite ?E7, ?E8; unfold owned; rewrite E3; [done|].
    intros q Hq0 He. apply Hnew in He as [He|[-> _]]; [by apply (Hown q Hq0) | lia].
  - pose proof (release_spec s tgid) as [[= E1 E2 E3 E4 E5 E6 E7 E8 E9] Hold].
    split; rewrite ?E8, ?E9; unfold owned; rewrite E3; [done|]. intros q Hq0 He%Hold. by apply (Hown q Hq0).
  - pose proof (guest_actor_spec s box pid) as Hs. destruct (guest_actor s box pid) as [s1 a].
    destruct Hs as ([= E1 E2 E3 E4 E5 E6 E7 E8 E9] & Hl & Hcase).
    assert (∀ q, owned s q → owned s1 q) as Hmono.
    { intros q [k Hk]. destruct Hcase as [[= A1 A2 A3]|(A0 & A1 & A2 & A3 & A4)]; [exists k; by rewrite A1|].
      exists k. rewrite A2, lookup_insert_ne; [done | intros <-; congruence]. }
    split; cbn; rewrite ?E1, ?E8, ?E9.
    + intros g [->|Hin]%elem_of_cons; [by exists (box, pid)|]. apply Hmono. auto.
    + intros q Hq0 He. destruct (Hown q Hq0 He) as [?|?]; [left; by apply Hmono | by right].
  - rewrite Hg in Hg'. unfold guest_call. set (s1 := with_actors _ _ _ _ _ _). destruct c as [nb|].
    + pose proof (acquire_jobserver_spec s1 a nb false) as [[= E1 E2 E3 E4 E5 E6 E7 E8] [Hreg Hnew]].
      split; rewrite ?E7, ?E8; unfold owned; rewrite E3; cbn.
      * intros g Hin. apply Hg'. set_solver.
      * intros q Hq0 He. apply Hnew in He as [He|[-> _]]; [by apply (Hown q Hq0)|].
        left. apply (Hg' (a, GuestAcquire nb)). set_solver.
    + pose proof (release_spec s1 a) as [[= E1 E2 E3 E4 E5 E6 E7 E8 E9] Hold].
      split; rewrite ?E8, ?E9; unfold owned; rewrite E3; cbn.
      * intros g Hin. apply Hg'. set_solver.
      * intros q Hq0 He%Hold. by apply (Hown q Hq0).
  - pose proof (reap_spec (with_watch s (watched s) (registering s) (opening s) (l1 ++ l2)) pid)
      as [[= E1 E2 E3 E4 E5 E6 E7 E8 E9] Hold].
    split; rewrite ?E8, ?E9; unfold owned; rewrite E3; [done|]. intros q Hq0 [He _]%Hold. by apply (Hown q Hq0).
  - assert (∀ q, owned s q → q ∈ order ∨ ∃ k, actors_retain (actors s) box !! k = Some q) as Hsplit.
    { intros q [k Hk]. destruct (decide (k.1 = box)) as [E|E].
      - left. rewrite Ho. apply list_elem_of_fmap. exists (k, q). split; [done|].
        apply elem_of_map_to_list, map_lookup_filter_Some. done.
      - right. exists k. apply map_lookup_filter_Some. done. }
    split; cbn.
    + intros g Hin. destruct (Hsplit _ (Hg' g Hin)) as [H|H]; [|done]. by destruct (Hq eq_refl g Hin).
    + intros q Hq0 He. destruct (Hown q Hq0 He) as [H|(t & Ht & Hqt)]; [|right; exists t; set_solver].
      destruct (Hsplit _ H) as [H'|H']; [right; exists order; set_solver | by left].
  - pose proof (teardown_spec (with_actors s (next_actor s) (actors s) (allocated s) (guests s) (l1 ++ l2)) pids)
      as [[= E1 E2 E3 E4 E5 E6 E7 E8 E9] Hold].
    split; rewrite ?E8, ?E9; unfold owned; rewrite E3; cbn; [done|]. intros q Hq0 [He Hnot]%Hold.
    destruct (Hown q Hq0 He) as [H|(t & Hin & Hqt)]; [by left|]. right. exists t. rewrite Ht in Hin. set_solver.
Qed.

(** ** Guest actors are apart until [i32] runs out *)

Definition actors_apart (s : Jobs) : Prop :=
  (Z.of_nat (allocated s) < 2 ^ 31) →
  next_actor s = -1 - Z.of_nat (allocated s) ∧
  map_Forall (λ _ a, next_actor s < a < 0) (actors s) ∧
  ∀ k k' a, actors s !! k = Some a → actors s !! k' = Some a → k = k'.

Lemma apart_eq s s' :
  (next_actor s', actors s', allocated s') = (next_actor s, actors s, allocated s) → actors_apart s → actors_apart s'.
Proof. unfold actors_apart. by intros [= -> -> ->]. Qed.

Lemma guest_actor_apart s box pid : actors_apart s → actors_apart (guest_actor s box pid).1.
Proof.
  intros Ha. pose proof (guest_actor_spec s box pid) as Hs. destruct (guest_actor s box pid) as [s1 a]. cbn.
  destruct Hs as (_ & Hl & [[= A1 A2 A3]|(A0 & A1 & A2 & A3 & A4)]); [eapply apart_eq; [|done]; congruence|].
  unfold actors_apart in *. rewrite A2, A3, A4. intros Hlt. destruct Ha as (H1 & H2 & H3); [lia|].
  assert (next_actor s1 = a - 1) as Hn.
  { rewrite A3. unfold checked_sub_one. rewrite (proj2 (Z.leb_le _ _)); [done | lia]. }
  rewrite <- A3, Hn. split_and!; [lia | |].
  - apply map_Forall_insert_2; [lia|]. intros k b Hk. specialize (H2 k b Hk). cbn in H2. lia.
  - intros k k' b. rewrite !lookup_insert_Some.
    assert (∀ k, actors s !! k ≠ Some a) as Hfresh by (intros j Hj; specialize (H2 j a Hj); cbn in H2; lia).
    intros [[<- <-]|[? Hk]] [[<- ?]|[? Hk']]; subst; try done; [by destruct (Hfresh k') | by destruct (Hfresh k) | eauto].
Qed.

Lemma step_apart quiet s s' : step quiet s s' → actors_apart s → actors_apart s'.
Proof.
  destruct 1 as [tgid nb Hpos|tgid Hpos|box pid c|l1 a c l2 Hg|l1 pid l2 Hr|l1 pid l2 fd rc Ho|pid|l1 pid l2 Hr|box order Ho Hq|l1 pids l2 Ht];
    intros Ha; try (by apply (apart_eq s)).
  - pose proof (acquire_jobserver_spec s tgid nb true) as [[= E1 E2 E3 E4 E5 E6 E7 E8] _].
    apply (apart_eq s); [congruence | done].
  - pose proof (release_spec s tgid) as [[= E1 E2 E3 E4 E5 E6 E7 E8 E9] _]. apply (apart_eq s); [congruence | done].
  - apply (guest_actor_apart s box pid) in Ha. by destruct (guest_actor s box pid) as [s1 a].
  - unfold guest_call. set (s1 := with_actors _ _ _ _ _ _). destruct c as [nb|].
    + pose proof (acquire_jobserver_spec s1 a nb false) as [[= E1 E2 E3 E4 E5 E6 E7 E8] _].
      apply (apart_eq s); [by rewrite E2, E3, E4 | done].
    + pose proof (release_spec s1 a) as [[= E1 E2 E3 E4 E5 E6 E7 E8 E9] _]. apply (apart_eq s); [by rewrite E2, E3, E4 | done].
  - pose proof (reap_spec (with_watch s (watched s) (registering s) (opening s) (l1 ++ l2)) pid)
      as [[= E1 E2 E3 E4 E5 E6 E7 E8 E9] _]. apply (apart_eq s); [by rewrite E2, E3, E4 | done].
  - unfold actors_apart, actors_retain in *. cbn. intros Hlt. destruct (Ha Hlt) as (H1 & H2 & H3). split_and!; [done | |].
    + intros k a [Hk _]%map_lookup_filter_Some. by apply (H2 k).
    + intros k k' a [Hk _]%map_lookup_filter_Some [Hk' _]%map_lookup_filter_Some. eauto.
  - pose proof (teardown_spec (with_actors s (next_actor s) (actors s) (allocated s) (guests s) (l1 ++ l2)) pids)
      as [[= E1 E2 E3 E4 E5 E6 E7 E8 E9] _]. apply (apart_eq s); [by rewrite E2, E3, E4 | done].
Qed.

(** * What the jobserver promises, over every interleaving of its clients *)

(** ** The capacity is fixed *)

Lemma hand_off_total n (p : Pool nat) : total (hand_off n p).1.1 = total p.
Proof.
  revert p. induction n as [|n IH]; intros p; simpl; [done|].
  assert (total (hand_off_one p).1.1 = total p) as H1 by (unfold hand_off_one; by destruct (waiters p) as [|[] ?]).
  destruct (hand_off_one p) as [[p1 got] out]. specialize (IH p1).
  destruct (hand_off n p1) as [[p2 gs] out']. cbn in *. congruence.
Qed.

Lemma release_total (p : Pool nat) pid : total (release p pid).1.1 = total p.
Proof.
  unfold release, hand_off_one. destruct (ledger p !! pid) as [c|]; [|done].
  destruct (0 <? c); [|done]. cbn. by destruct (waiters p) as [|[] ?].
Qed.

Lemma reap_pid_total (p : Pool nat) pid : total (reap_pid p pid).1.1 = total p.
Proof.
  unfold reap_pid. destruct (drop_waiters pid (waiters p)) as [kept denied].
  set (p0 := MkPool _ _ _ _). pose proof (hand_off_total (Z.to_nat (held_by p pid)) p0) as H.
  by destruct (hand_off _ p0) as [[p' g] out].
Qed.

Lemma reap_box_total pids (p : Pool nat) : total (reap_box p pids).1.1 = total p.
Proof.
  revert p. induction pids as [|pid pids IH]; intros p; simpl; [done|].
  pose proof (reap_pid_total p pid) as H1. destruct (reap_pid p pid) as [[p1 g] out]. specialize (IH p1).
  destruct (reap_box p1 pids) as [[p2 g'] out']. cbn in *. congruence.
Qed.

Lemma acquire_jobserver_total s a nb w : total (pool (acquire_jobserver s a nb w)) = total (pool s).
Proof.
  unfold acquire_jobserver, acquire. destruct (0 <? available (pool s)); [|destruct nb]; destruct w; done.
Qed.
Lemma jobserver_release_total s a : total (pool (jobserver_release s a)) = total (pool s).
Proof.
  unfold jobserver_release. pose proof (release_total (pool s) a) as H. by destruct (release (pool s) a) as [[p g] out].
Qed.

Lemma step_total quiet s s' : step quiet s s' → total (pool s') = total (pool s).
Proof.
  destruct 1; try done.
  - apply acquire_jobserver_total.
  - apply jobserver_release_total.
  - unfold guest_actor. by destruct (actors s !! (box, pid)).
  - unfold guest_call. destruct c; [by rewrite acquire_jobserver_total | by rewrite jobserver_release_total].
  - unfold jobserver_reap. set (s1 := with_watch _ _ _ _ _). pose proof (reap_pid_total (pool s1) pid) as H1.
    by destruct (reap_pid (pool s1) pid) as [[p g] out].
  - unfold teardown_reap. destruct pids as [|x pids]; [done|]. set (s1 := with_actors _ _ _ _ _ _).
    pose proof (reap_box_total (x :: pids) (pool s1)) as H1.
    by destruct (reap_box (pool s1) (x :: pids)) as [[p g] out].
Qed.

Lemma reachable_total quiet n s : reachable quiet n s → total (pool s) = Z.max n 1.
Proof.
  apply (reachable_inv (λ s, total (pool s) = Z.max n 1)); [done|]. intros s1 s2 Hs <-. by eapply step_total.
Qed.

(** ** The claims *)

(** C33. Slips are neither lost nor made: in every interleaving of acquires,
    releases, exits, watches and teardowns, the slips available and the slips in
    the ledger add up to the capacity, no actor holds more than the capacity or
    an empty entry, and nobody waits while a slip is available. *)
Theorem slips_conserved quiet n s :
  n < 2 ^ 32 → reachable quiet n s →
  slips (ledger (pool s)) + available (pool s) = Z.max n 1 ∧
  (∀ a c, ledger (pool s) !! a = Some c → 0 < c ≤ Z.max n 1) ∧
  (waiters (pool s) ≠ [] → available (pool s) = 0).
Proof.
  intros Hn Hr. destruct (reachable_sound _ _ _ Hn Hr) as [[Ht Ha Hs Hc Hw] _].
  rewrite (reachable_total _ _ _ Hr) in *. split_and!; [lia | | done].
  intros a c Hac. pose proof (held_le_slips _ a Hc) as H. rewrite Hac in H. cbn in H.
  specialize (Hc _ _ Hac). cbn in Hc. lia.
Qed.

(** A run on one slip: process 10 gets it, 11 queues, 12 is denied, 10 gives it
    back. *)
Definition run_one : Jobs :=
  jobserver_release
    (acquire_jobserver (acquire_jobserver (acquire_jobserver (jobs_new 1) 10 false true) 11 false true) 12 true true) 10.

Lemma run_one_reachable : reachable true 1 run_one.
Proof.
  eapply rtc_l; [by apply (StepHostAcquire _ _ 10 false)|].
  eapply rtc_l; [by apply (StepHostAcquire _ _ 11 false)|].
  eapply rtc_l; [by apply (StepHostAcquire _ _ 12 true)|].
  eapply rtc_l; [by apply (StepHostRelease _ _ 10)|]. apply rtc_refl.
Qed.

Lemma slips_conserved_witness :
  ledger (pool run_one) = {[11 := 1]} ∧ slips (ledger (pool run_one)) + available (pool run_one) = 1.
Proof.
  split; [by vm_compute|].
  apply (slips_conserved true 1 run_one); [lia | apply run_one_reachable].
Defined.

(** C34. Slips are granted in the order they were asked for, and each request
    is answered once: in every interleaving the requests granted come in the
    order of the requests, every granted request was made before every request
    still waiting, and each request made has one answer or one place in the
    queue. *)
Theorem grants_in_order quiet n s :
  n < 2 ^ 32 → reachable quiet n s →
  StronglySorted lt (granted (replies s)) ∧
  (∀ g w, g ∈ granted (replies s) → w ∈ waiting (pool s) → (g < w)%nat) ∧
  answered (replies s) ++ waiting (pool s) ≡ₚ seq 0 (asked s).
Proof.
  intros Hn Hr. destruct (reachable_sound _ _ _ Hn Hr) as [_ [Ho H1]].
  apply StronglySorted_app in Ho as (Hgw & Hg & _). done.
Qed.

Lemma grants_in_order_witness :
  replies run_one = [Grant 0%nat; DenyAgain 2%nat; Grant 1%nat] ∧ StronglySorted lt (granted (replies run_one)).
Proof.
  split; [by vm_compute|].
  apply (grants_in_order true 1 run_one); [lia | apply run_one_reachable].
Defined.

(** Nobody keeps a slip unseen: in every interleaving a host process that
    holds a slip or waits for one is watched for its exit, or a thread is about
    to watch it or to reap it; and where no box is removed between the two locks
    of a call of its guests, a guest that holds or waits has an actor of a box
    or is about to be reaped with its box.  Guest actors never collide with
    each other or with a pid while fewer than 2^31 have been made. *)
Theorem holders_attended quiet n s :
  reachable quiet n s →
  (∀ q, 0 < q → engaged (pool s) q → attended s q) ∧
  (quiet = true → ∀ q, q < 0 → engaged (pool s) q → owned s q ∨ ∃ t, t ∈ teardown s ∧ q ∈ t) ∧
  (Z.of_nat (allocated s) < 2 ^ 31 →
   ∀ k k' a, actors s !! k = Some a → a < 0 ∧ (actors s !! k' = Some a → k = k')).
Proof.
  intros Hr. split_and!.
  - assert (negative_guests s ∧ hosts_attended s) as [_ H]; [|done].
    revert Hr. apply (reachable_inv (λ s, negative_guests s ∧ hosts_attended s)); [by split; [split; [| apply map_Forall_empty | ] | intros q _ [[]%is_Some_None|?%not_elem_of_nil]]|].
    intros s1 s2 Hs [Hn Hh]. split; [by eapply step_negative | by eapply step_hosts].
  - intros ->. apply (reachable_inv guests_owned true n s); [| apply step_guests | done].
    split; [by intros g ?%not_elem_of_nil | by intros q _ [[]%is_Some_None|?%not_elem_of_nil]].
  - intros Hlt k k' a Hk.
    destruct (reachable_inv actors_apart quiet n s) as (_ & H2 & H3);
      [by intros _; split_and!; [| apply map_Forall_empty |] | apply step_apart | done | done |].
    specialize (H2 k a Hk). cbn in H2. split; [lia|]. eauto.
Qed.

Lemma holders_attended_witness : engaged (pool run_one) 11 ∧ attended run_one 11.
Proof.
  assert (engaged (pool run_one) 11) as He by (left; exists 1; by vm_compute).
  split; [exact He|]. apply (holders_attended true 1 run_one); [apply run_one_reachable | lia | exact He].
Defined.

(** Without that condition a guest's slip can be lost: the guest's call has its
    actor, its box is removed and reaped, and then the call takes the only
    slip.  No thread has anything left to do and no box owns the actor, so no
    teardown returns the slip. *)
Theorem teardown_race :
  ∃ s, reachable false 1 s ∧ ledger (pool s) !! (-1) = Some 1 ∧ available (pool s) = 0 ∧
    ¬ owned s (-1) ∧ guests s = [] ∧ teardown s = [] ∧ reaping s = [].
Proof.
  eexists. split.
  { eapply rtc_l; [by apply (StepGuestLookup _ _ 7 3 (GuestAcquire false))|].
    eapply rtc_l; [apply (StepBoxRemoved _ _ 7 [-1]); [by vm_compute | done]|].
    eapply rtc_l; [by apply (StepBoxReap _ _ [] [-1] [])|].
    eapply rtc_l; [by apply (StepGuestCall _ _ [] (-1) (GuestAcquire false) [])|]. apply rtc_refl. }
  split_and!; try by vm_compute. intros [k Hk]. revert Hk. vm_compute. by destruct k.
Qed.
