(* ===== verification/LayerMirror.v ===== *)
(** * The in-memory index of a captured layer.

    Models [Entry] and [LayerMirror] of [engine/src/capture.rs]: the entries of
    a box by path, and beside them an index from a directory to its immediate
    children.  Paths are [/]-separated, relative and without a leading slash. *)

From stdpp Require Import gmap.
From S2P Require Import Prelude.
From S2P Require Import Glob.
From S2P Require Import Rules.
Open Scope Z_scope.

Inductive Entry : Type :=
| EFile (rowid mode : Z)
| EDir (mode mtime_ns : Z) (opaque rebased : bool)
| ESymlink (target : text)
| ESpecial (mode rdev : Z)
| EWhiteout
| EHole.
#[export] Instance Entry_eq_dec : EqDecision Entry.
Proof. solve_decision. Defined.

Inductive ChildState : Type := ChildPresent | ChildWhiteout | ChildHole.
#[export] Instance ChildState_eq_dec : EqDecision ChildState.
Proof. solve_decision. Defined.

Record LayerMirror : Type := MkMirror {
  entries : gmap (list Z) Entry;
  children : gmap (list Z) (list (list Z * ChildState)) }.

Definition mirror_new : LayerMirror := MkMirror ∅ ∅.

(** [str::rsplit_once] *)
Fixpoint rsplit_once (sep : char) (s : text) : option (text * text) :=
  match s with
  | [] => None
  | c :: s' =>
      match rsplit_once sep s' with
      | Some (a, b) => Some (c :: a, b)
      | None => if c =? sep then Some ([], s') else None
      end
  end.

Definition parent_name (path : text) : option (text * text) :=
  match path with
  | [] => None
  | _ => Some (default ([], path) (rsplit_once SLASH path))
  end.

Definition child_state (e : Entry) : ChildState :=
  match e with EWhiteout => ChildWhiteout | EHole => ChildHole | _ => ChildPresent end.

(** The first sibling of the name takes the state, or a new one is pushed. *)
Fixpoint set_sibling (name : text) (st : ChildState) (l : list (list Z * ChildState)) : list (list Z * ChildState) :=
  match l with
  | [] => [(name, st)]
  | (n, old) :: l => if text_eqb n name then (n, st) :: l else (n, old) :: set_sibling name st l
  end.

Definition mirror_insert (m : LayerMirror) (path : text) (e : Entry) : LayerMirror * option Entry :=
  let kids :=
    match parent_name path with
    | Some (parent, name) =>
        <[parent := set_sibling name (child_state e) (default [] (children m !! parent))]> (children m)
    | None => children m
    end in
  (MkMirror (<[path := e]> (entries m)) kids, entries m !! path).

Definition mirror_remove (m : LayerMirror) (path : text) : LayerMirror * option Entry :=
  let kids :=
    match parent_name path with
    | Some (parent, name) =>
        match children m !! parent with
        | Some l =>
            match filter (λ x, x.1 ≠ name) l with
            | [] => delete parent (children m)
            | l => <[parent := l]> (children m)
            end
        | None => children m
        end
    | None => children m
    end in
  (MkMirror (delete path (entries m)) kids, entries m !! path).

Definition mirror_clear (m : LayerMirror) : LayerMirror := mirror_new.

Definition mirror_get (m : LayerMirror) (path : text) : option Entry := entries m !! path.

(** What is written through [get_mut] *)
Definition mirror_alter (f : Entry → Entry) (m : LayerMirror) (path : text) : LayerMirror :=
  MkMirror (alter f path (entries m)) (children m).

Definition regular_file_paths (m : LayerMirror) : list (list Z) :=
  omap (λ '(path, e), match e with EFile _ _ => Some path | _ => None end) (map_to_list (entries m)).

(** [children_of]: whiteouts, present names and holes *)
Definition children_of (m : LayerMirror) (parent : text) : list (list Z) * list (list Z) * list (list Z) :=
  match children m !! parent with
  | None => ([], [], [])
  | Some l =>
      let with_state st := (filter (λ x, x.2 = st) l).*1 in
      (with_state ChildWhiteout, with_state ChildPresent, with_state ChildHole)
  end.

(** ** Paths *)

(** [format!("{parent}/{name}")], or the name at the root *)
Definition path_join (parent name : text) : text :=
  match parent with [] => name | _ => parent ++ SLASH :: name end.

(** A path of the store: no leading slash *)
Definition rel_path (p : text) : Prop := head p ≠ Some SLASH.
#[export] Instance rel_path_dec p : Decision (rel_path p).
Proof. unfold rel_path. apply _. Defined.

Lemma rsplit_once_spec s :
  match rsplit_once SLASH s with
  | Some (a, b) => s = a ++ SLASH :: b ∧ SLASH ∉ b
  | None => SLASH ∉ s
  end.
Proof.
  induction s as [|c s IH]; simpl; [apply not_elem_of_nil|].
  destruct (rsplit_once SLASH s) as [[a b]|].
  - destruct IH as [-> Hb]. done.
  - destruct (Z.eqb_spec c SLASH) as [->|Hc]; [done|]. by apply not_elem_of_cons.
Qed.

Lemma parent_name_spec path parent name :
  rel_path path → parent_name path = Some (parent, name) →
  path = path_join parent name ∧ path ≠ [] ∧ (SLASH ∉ name) ∧ rel_path parent.
Proof.
  unfold parent_name, rel_path. intros Hr Hp. destruct path as [|c path]; [done|].
  pose proof (rsplit_once_spec (c :: path)) as Hs.
  destruct (rsplit_once SLASH (c :: path)) as [[a b]|]; cbn in Hp; simplify_eq; [|done].
  destruct Hs as [E Hb]. rewrite E in *. destruct parent as [|d parent]; [by destruct Hr|done].
Qed.

Lemma rsplit_once_none s : SLASH ∉ s → rsplit_once SLASH s = None.
Proof.
  induction s as [|c s IH]; [done|]. rewrite not_elem_of_cons. intros [Hc Hs]. simpl.
  rewrite IH by done. by rewrite (proj2 (Z.eqb_neq _ _)) by done.
Qed.

Lemma rsplit_once_app a b : SLASH ∉ b → rsplit_once SLASH (a ++ SLASH :: b) = Some (a, b).
Proof.
  intros Hb. induction a as [|c a IH]; simpl; [by rewrite rsplit_once_none|]. by rewrite IH.
Qed.

Lemma parent_name_join parent name :
  path_join parent name ≠ [] → SLASH ∉ name → parent_name (path_join parent name) = Some (parent, name).
Proof.
  intros Hne Hn. unfold parent_name. destruct (path_join parent name) as [|c p] eqn:E; [done|].
  rewrite <- E. destruct parent as [|d parent]; cbn [path_join] in *.
  - by rewrite rsplit_once_none.
  - by rewrite (rsplit_once_app (d :: parent)).
Qed.

Lemma path_join_inj parent name parent' name' :
  path_join parent name ≠ [] → SLASH ∉ name → SLASH ∉ name' →
  path_join parent name = path_join parent' name' → parent = parent' ∧ name = name'.
Proof.
  intros Hne Hn Hn' E. pose proof (parent_name_join parent name Hne Hn) as H1.
  rewrite E in H1, Hne. rewrite (parent_name_join parent' name' Hne Hn') in H1. by simplify_eq.
Qed.

Lemma rel_path_join parent name : rel_path parent → SLASH ∉ name → rel_path (path_join parent name).
Proof.
  unfold rel_path. destruct parent as [|c parent]; [|done]. intros _ Hn.
  destruct name as [|c name]; [done|]. cbn. intros [= ->]. apply Hn. by left.
Qed.

(** ** The index is the entries, by parent *)

Definition indexed (m : gmap (list Z) Entry) (parent name : text) (st : ChildState) : Prop :=
  path_join parent name ≠ [] ∧ (SLASH ∉ name) ∧ rel_path parent ∧
  ∃ e, m !! path_join parent name = Some e ∧ child_state e = st.

Record mirror_ok (m : LayerMirror) : Prop := {
  mo_rel : ∀ p, is_Some (entries m !! p) → rel_path p;
  mo_lists : ∀ parent l, children m !! parent = Some l → NoDup l.*1 ∧ l ≠ [];
  mo_index : ∀ parent name st,
    (name, st) ∈ default [] (children m !! parent) ↔ indexed (entries m) parent name st }.

Lemma set_sibling_names name st l :
  (set_sibling name st l).*1 = if decide (name ∈ l.*1) then l.*1 else l.*1 ++ [name].
Proof.
  induction l as [|[n old] l IH]; [done|]. cbn [set_sibling fmap list_fmap fst]. unfold text_eqb.
  case_bool_decide as E; cbn [fmap list_fmap fst].
  - subst. rewrite decide_True by (by left). done.
  - rewrite IH. repeat case_decide; try done; set_solver.
Qed.

Lemma elem_set_sibling name st l n s :
  NoDup l.*1 →
  (n, s) ∈ set_sibling name st l ↔ (n = name ∧ s = st) ∨ (n ≠ name ∧ (n, s) ∈ l).
Proof.
  induction l as [|[n' old] l IH]; cbn [set_sibling]; intros Hnd; [set_solver|].
  apply NoDup_cons in Hnd as [Hnot Hnd]. cbn in Hnot. unfold text_eqb. case_bool_decide as E.
  - subst n'. rewrite elem_of_cons. rewrite elem_of_cons.
    assert (∀ s', (name, s') ∉ l) as Hl.
    { intros s' H. apply Hnot. apply list_elem_of_fmap. by exists (name, s'). }
    split; [|naive_solver]. intros [[= -> ->]|H]; [by left|]. right. split; [|by right]. intros ->. by apply (Hl s).
  - rewrite elem_of_cons, (IH Hnd), elem_of_cons. naive_solver.
Qed.

Lemma indexed_insert m path e parent name st par nm :
  rel_path path → parent_name path = Some (par, nm) →
  indexed (<[path := e]> m) parent name st ↔
  (parent = par ∧ name = nm ∧ st = child_state e) ∨ ((parent, name) ≠ (par, nm) ∧ indexed m parent name st).
Proof.
  intros Hr Hp. destruct (parent_name_spec _ _ _ Hr Hp) as (E & Hne & Hs & Hrp). unfold indexed.
  destruct (decide ((parent, name) = (par, nm))) as [[= -> ->]|Hd].
  - rewrite <- E, lookup_insert_eq. naive_solver.
  - split.
    + intros (H1 & H2 & H3 & e' & H4 & H5). right. split; [done|]. split_and!; try done.
      rewrite lookup_insert_ne in H4; [by eauto|]. intros E'. apply Hd. rewrite E in E'.
      destruct (path_join_inj par nm parent name) as [-> ->]; congruence.
    + intros [(-> & -> & _)|[_ (H1 & H2 & H3 & e' & H4 & H5)]]; [done|]. split_and!; try done. exists e'.
      rewrite lookup_insert_ne; [done|]. intros E'. apply Hd. rewrite E in E'.
      destruct (path_join_inj par nm parent name) as [-> ->]; congruence.
Qed.

Lemma indexed_delete m path parent name st par nm :
  rel_path path → parent_name path = Some (par, nm) →
  indexed (delete path m) parent name st ↔ (parent, name) ≠ (par, nm) ∧ indexed m parent name st.
Proof.
  intros Hr Hp. destruct (parent_name_spec _ _ _ Hr Hp) as (E & Hne & Hs & Hrp). unfold indexed. split.
  - intros (H1 & H2 & H3 & e' & H4 & H5). apply lookup_delete_Some in H4 as [H4 H6].
    split; [intros [= -> ->]; congruence | eauto 10].
  - intros [Hd (H1 & H2 & H3 & e' & H4 & H5)]. split_and!; try done. exists e'.
    rewrite lookup_delete_ne; [done|]. intros E'. apply Hd. rewrite E in E'.
    destruct (path_join_inj par nm parent name) as [-> ->]; congruence.
Qed.

Lemma parent_name_none path : parent_name path = None → path = [].
Proof. by destruct path. Qed.

Lemma indexed_root m m' parent name st :
  (∀ p, p ≠ [] → m' !! p = m !! p) → indexed m' parent name st ↔ indexed m parent name st.
Proof. unfold indexed. intros H. split; intros (H1 & ?); rewrite (H _ H1) in *; done. Qed.

Lemma mirror_insert_ok m path e : rel_path path → mirror_ok m → mirror_ok (mirror_insert m path e).1.
Proof.
  intros Hr [Hrel Hl Hi]. split; cbn.
  - intros p [<-|[_ Hp]]%lookup_insert_is_Some; [done | by apply Hrel].
  - destruct (parent_name path) as [[par nm]|]; [|done]. intros q l [[<- <-]|[_ H]]%lookup_insert_Some; [|by apply (Hl q)].
    split; [|by destruct (default [] (children m !! par)) as [|[n o] ?]; cbn; [|case_match]].
    rewrite set_sibling_names. destruct (children m !! par) as [l|] eqn:El; cbn; [|by apply NoDup_singleton].
    destruct (Hl _ _ El) as [Hnd _]. case_decide as Hd; [done|].
    apply NoDup_app. split_and!; [done | | by apply NoDup_singleton]. by intros x Hx ->%list_elem_of_singleton.
  - intros parent name st. destruct (parent_name path) as [[par nm]|] eqn:Hp.
    + rewrite (indexed_insert _ _ _ _ _ _ _ _ Hr Hp). rewrite lookup_insert. case_decide as E.
      * subst. cbn. rewrite elem_set_sibling, Hi; [naive_solver|].
        destruct (children m !! parent) as [l|] eqn:El; [by apply (Hl _ _ El) | constructor].
      * rewrite Hi. naive_solver.
    + apply parent_name_none in Hp as ->. rewrite Hi. symmetry. apply indexed_root.
      intros p Hp. by rewrite lookup_insert_ne.
Qed.

Lemma mirror_remove_ok m path : rel_path path → mirror_ok m → mirror_ok (mirror_remove m path).1.
Proof.
  intros Hr [Hrel Hl Hi]. split; cbn.
  - intros p [_ Hp]%lookup_delete_is_Some. by apply Hrel.
  - destruct (parent_name path) as [[par nm]|]; [|done]. destruct (children m !! par) as [l|] eqn:El; [|done].
    intros q k. case_match eqn:Ef; [intros [_ H]%lookup_delete_Some; by apply (Hl q)|].
    intros [[<- <-]|[_ H]]%lookup_insert_Some; [|by apply (Hl q)]. split; [|done]. rewrite <- Ef.
    eapply sublist_NoDup; [apply (Hl _ _ El) | apply fmap_sublist, sublist_filter].
  - intros parent name st. destruct (parent_name path) as [[par nm]|] eqn:Hp.
    + rewrite (indexed_delete _ _ _ _ _ _ _ Hr Hp), <- Hi.
      destruct (children m !! par) as [l|] eqn:El.
      * assert (default [] (match filter (λ x, x.1 ≠ nm) l with [] => delete par (children m)
          | l0 => <[par := l0]> (children m) end !! parent) =
          if decide (parent = par) then filter (λ x, x.1 ≠ nm) l else default [] (children m !! parent)) as ->.
        { case_match eqn:Ef; case_decide; subst; rewrite ?lookup_delete_eq, ?lookup_insert_eq,
            ?lookup_delete_ne, ?lookup_insert_ne by done; done. }
        case_decide as E; [subst; rewrite El; cbn; rewrite list_elem_of_filter|]; cbn; naive_solver.
      * split; [|naive_solver]. intros H. split; [|done]. intros [= -> ->]. rewrite El in H. by apply not_elem_of_nil in H.
    + apply parent_name_none in Hp as ->. rewrite Hi. symmetry. apply indexed_root.
      intros p Hp. by rewrite lookup_delete_ne.
Qed.

Lemma mirror_alter_ok f m path :
  (∀ e, child_state (f e) = child_state e) → mirror_ok m → mirror_ok (mirror_alter f m path).
Proof.
  intros Hf [Hrel Hl Hi]. split; cbn; [|done|].
  - intros p. rewrite lookup_alter_is_Some. apply Hrel.
  - intros parent name st. rewrite Hi. unfold indexed.
    destruct (decide (path = path_join parent name)) as [->|Hne];
      [rewrite lookup_alter_eq | rewrite lookup_alter_ne by done; done].
    destruct (entries m !! path_join parent name) as [e|]; cbn; [|naive_solver].
    split; intros (H1 & H2 & H3 & e' & [= <-] & H5); split_and!; try done; eexists; split; [done| |done|];
      by rewrite ?Hf in *.
Qed.

Lemma mirror_new_ok : mirror_ok mirror_new.
Proof.
  split; cbn.
  - by intros p [? ?].
  - done.
  - intros parent name st. rewrite lookup_empty. unfold indexed. cbn. rewrite elem_of_nil. setoid_rewrite lookup_empty. naive_solver.
Qed.
