(* ===== verification/SandboxLayers.v ===== *)
(** * What a sandbox sees at a path.

    Models [engine/src/sarunfs/layers.rs] (the merged resolution of a path),
    the prefix handling of [engine/src/attach.rs], and from
    [engine/src/overlay.rs] the chain of layers of a box ([attachment_links],
    [chain_of]) and the name merge of a directory listing ([scan_dir]).  A
    string is its UTF-8 bytes; relative paths are [/]-separated, normalised and
    without a leading slash.  The host below is given by two probes: whether a
    path exists, and the names in a directory. *)

From stdpp Require Import strings gmap.
From S2P Require Import Prelude.
From S2P Require Import BTreeMap.
From S2P Require Import DepotModel.
From S2P Require Import DepotVariant.
From S2P Require Import Glob.
From S2P Require Import Rules.
From S2P Require Import GitLayer.
From S2P Require Import LayerMirror.
Open Scope Z_scope.

(** ** External attachments *)

(** [str::split] *)
Fixpoint split_on (sep : char) (s : text) : list (list Z) :=
  match s with
  | [] => [[]]
  | c :: s =>
      if c =? sep then [] :: split_on sep s
      else match split_on sep s with p :: ps => (c :: p) :: ps | [] => [[c]] end
  end.

(** [split('/')] without the empty components *)
Definition components (rel : text) : list (list Z) := filter (λ c, c ≠ []) (split_on SLASH rel).

Record ExtEntry : Type := MkExtEntry { ee_dir : bool; ee_size : Z; ee_mode : Z }.

Section attachments.
  Context {R : Type} `{!Readout R}.

(** An attachment: where it is mounted, and its store if it could be opened *)
Record ExtAttachment : Type := MkExt { prefix : list (list Z); readout : option R }.

Definition ext_new (prefix_text : text) (readout : option R) : ExtAttachment :=
  MkExt (components prefix_text) readout.

(** [zip(..).all(==)] *)
Fixpoint zip_eq (p c : list (list Z)) : bool :=
  match p, c with
  | x :: p, y :: c => text_eqb x y && zip_eq p c
  | _, _ => true
  end.

Definition strip (a : ExtAttachment) (rel : text) : option (list (list Z)) :=
  let comps := components rel in
  let n := length (prefix a) in
  if (length comps <? n)%nat then
    (if zip_eq (take (length comps) (prefix a)) comps then Some [] else None)
  else if zip_eq (prefix a) (take n comps) then Some (drop n comps) else None.

Definition on_prefix_chain (a : ExtAttachment) (rel : text) : bool :=
  let comps := components rel in
  (length comps <? length (prefix a))%nat && zip_eq (take (length comps) (prefix a)) comps.

(** [entry]; the memo in front of it is not kept *)
Definition ext_entry (a : ExtAttachment) (rel : text) : option ExtEntry :=
  if on_prefix_chain a rel then Some (MkExtEntry true 0 16877)
  else
    strip a rel ≫= λ at_, readout a ≫= λ ro, entry ro at_ ≫= λ e,
      let dir := match kind e with Branch => true | Leaf => false end in
      let mode := default (if dir then 16877 else 33188)
                    (bt_get [109; 111; 100; 101] (entry_attrs e) ≫= GitLayer.from_str_radix_8) in
      Some (MkExtEntry dir (default 0 (blob_len e)) mode).

Definition ext_children (a : ExtAttachment) (rel : text) : list (list Z) :=
  if on_prefix_chain a rel then
    match prefix a !! length (components rel) with Some c => [GitLayer.from_utf8_lossy c] | None => [] end
  else
    match strip a rel, readout a with
    | Some at_, Some ro => GitLayer.from_utf8_lossy <$> readout_children ro at_
    | _, _ => []
    end.

(** ** Boxes and chains *)

Inductive RoAttachment : Type :=
| RoBox (id : Z)
| RoExt.

(** What the merge needs of a [BoxState]: its id, the mirror of its layer, its
    flags, its parent and its read-only attachments *)
Record BoxState : Type := MkBox {
  box_id : Z; kinds : LayerMirror; no_host_fallback : bool; is_api : bool;
  box_parent : option Z; ro_attachments : list RoAttachment }.

Definition box_entry (b : BoxState) (rel : text) : option Entry := mirror_get (kinds b) rel.
Definition is_opaque (b : BoxState) (rel : text) : bool :=
  match box_entry b rel with Some (EDir _ _ true _) => true | _ => false end.
Definition is_rebased (b : BoxState) (rel : text) : bool :=
  match box_entry b rel with Some (EDir _ _ _ true) => true | _ => false end.

Inductive ChainLink : Type :=
| LinkBox (b : BoxState)
| LinkExt (a : ExtAttachment).

(** The boxes of the overlay, and the opened external attachments of each *)
Record Overlay : Type := MkOverlay {
  boxes : gmap Z BoxState; ext_attachments : gmap Z (list ExtAttachment) }.

Definition attach_links_loop (o : Overlay) (exts : list ExtAttachment) :=
  fix go (ei : nat) (rows : list RoAttachment) : list ChainLink :=
    match rows with
    | [] => []
    | RoBox ro :: rows =>
        match boxes o !! ro with Some rb => LinkBox rb :: go ei rows | None => go ei rows end
    | RoExt :: rows =>
        match exts !! ei with Some a => LinkExt a :: go (S ei) rows | None => go (S ei) rows end
    end.

Definition attachment_links (o : Overlay) (b : BoxState) : list ChainLink :=
  match default [] (ext_attachments o !! box_id b) with
  | [] =>
      omap (λ row, match row with RoBox ro => LinkBox <$> boxes o !! ro | RoExt => None end) (ro_attachments b)
  | exts => attach_links_loop o exts 0 (ro_attachments b)
  end.

(** [chain_of]; every round adds a link, so 65 rounds are enough *)
Fixpoint chain_loop (fuel : nat) (o : Overlay) (cur : option Z) (out : list ChainLink) : option (list ChainLink) :=
  match fuel with
  | O => None
  | S fuel =>
      match cur with
      | None => Some out
      | Some id =>
          if (64 <=? length out)%nat then Some out
          else match boxes o !! id with
               | None => Some out
               | Some b => chain_loop fuel o (box_parent b) (take 64 (out ++ LinkBox b :: attachment_links o b))
               end
      end
  end.
Definition chain_of (o : Overlay) (bid : Z) : option (list ChainLink) := chain_loop 66 o (Some bid) [].

(** ** [layers.rs] *)

Inductive Layer : Type :=
| Absent
| UpperFile (owner rowid mode : Z)
| UpperDir (mode mtime_ns : Z)
| UpperSymlink (target : text)
| UpperSpecial (mode rdev : Z)
| ExtFile (att : ExtAttachment) (rel : text) (size mode : Z)
| Lower.

(** [Path::parent] of a normalised relative path *)
Definition path_parent (p : text) : option (list Z) :=
  match p with
  | [] => None
  | _ => Some (match rsplit_once SLASH p with Some (a, _) => a | None => [] end)
  end.

(** The ancestors of a path, nearest first, up to and with the root *)
Fixpoint ancestors (fuel : nat) (p : text) : list (list Z) :=
  match fuel with
  | O => []
  | S fuel => match path_parent p with Some q => q :: ancestors fuel q | None => [] end
  end.

Definition has_rebased_ancestor (b : BoxState) (rel : text) : bool :=
  existsb (is_rebased b) (ancestors (length rel) rel).
Definition has_opaque_ancestor (b : BoxState) (rel : text) : bool :=
  existsb (is_opaque b) (ancestors (length rel) rel).

Definition own_layer (b : BoxState) (rel : text) (lower_exists : bool) : Layer :=
  match box_entry b rel with
  | Some EWhiteout => Absent
  | Some (EFile rowid mode) => UpperFile (box_id b) rowid mode
  | Some (EDir mode mtime_ns _ _) => UpperDir mode mtime_ns
  | Some (ESymlink target) => UpperSymlink target
  | Some (ESpecial mode rdev) => UpperSpecial mode rdev
  | Some EHole | None => if lower_exists then Lower else Absent
  end.

Definition chain_has_children (chain : list ChainLink) (rel : text) : bool :=
  existsb (λ link,
    match link with
    | LinkBox b => match (children_of (kinds b) rel).1.2 with [] => false | _ => true end
    | LinkExt a => match ext_children a rel with [] => false | _ => true end
    end) chain.

Definition synthetic_landing (rel : text) : bool :=
  existsb (text_eqb rel) [str "proc"; str "dev"; str "sys"; str "tmp"].

(** The loop over the chain: the layer it returns, or [no_host] after it *)
Fixpoint resolve_chain (rel : text) (chain : list ChainLink) (no_host : bool) : Layer + bool :=
  match chain with
  | [] => inr no_host
  | LinkExt a :: chain =>
      match ext_entry a rel with
      | Some e => inl (if ee_dir e then UpperDir (ee_mode e) 0 else ExtFile a rel (ee_size e) (ee_mode e))
      | None => resolve_chain rel chain no_host
      end
  | LinkBox b :: chain =>
      let no_host := no_host || no_host_fallback b in
      match box_entry b rel with
      | Some EWhiteout => inl Absent
      | Some (EFile rowid mode) => inl (UpperFile (box_id b) rowid mode)
      | Some (EDir mode mtime_ns _ _) => inl (UpperDir mode mtime_ns)
      | Some (ESymlink target) => inl (UpperSymlink target)
      | Some (ESpecial mode rdev) => inl (UpperSpecial mode rdev)
      | Some EHole => inr no_host
      | None =>
          if has_opaque_ancestor b rel then inl Absent
          else if has_rebased_ancestor b rel then inr no_host
          else resolve_chain rel chain no_host
      end
  end.

(** [resolve]; [api_tmp] is the private directory an API box has as [tmp]. *)
Definition resolve (api_tmp : text) (rel : text) (origin_is_api : bool) (chain : list ChainLink)
    (lower_exists : bool) : Layer :=
  if text_eqb rel (str "tmp") && origin_is_api then UpperSymlink api_tmp
  else match resolve_chain rel chain false with
       | inl layer => layer
       | inr no_host =>
           let landing := synthetic_landing rel && negb (chain_has_children chain rel) in
           if no_host then (if landing then UpperDir 365 0 else Absent)
           else if lower_exists then Lower
           else if landing then UpperDir 365 0
           else Absent
       end.

(** ** [scan_dir]: the names of a directory

    What [scan_dir] gathers before it adds the projected names and drops those
    without attributes.  [read_dir] lists a host directory, [exists_] probes a
    host path. *)
Section scan.
  Context (read_dir : text → option (list (list Z))) (exists_ : text → bool).

Definition backing_names (no_host : bool) (rel : text) : gset (list Z) :=
  if no_host then ∅ else list_to_set (default [] (read_dir rel)).

Definition link_names (no_host : bool) (rel : text) (names : gset (list Z)) (link : ChainLink) : gset (list Z) :=
  match link with
  | LinkExt a => names ∪ list_to_set (ext_children a rel)
  | LinkBox b =>
      let names := if is_opaque b rel || has_opaque_ancestor b rel then ∅ else names in
      let names := if is_rebased b rel || has_rebased_ancestor b rel then backing_names no_host rel else names in
      let '(white, present, holes) := children_of (kinds b) rel in
      let names := foldl (λ names w, names ∖ {[w]}) names white in
      let names := foldl (λ names h,
        if negb no_host && exists_ (path_join rel h) then {[h]} ∪ names ∖ {[h]} else names ∖ {[h]}) names holes in
      foldl (λ names p, {[p]} ∪ names) names present
  end.

Definition scan_names (chain : list ChainLink) (rel : text) : gset (list Z) :=
  let no_host := existsb (λ l, match l with LinkBox b => no_host_fallback b | LinkExt _ => false end) chain in
  foldl (link_names no_host rel) (backing_names no_host rel) (rev chain).

End scan.

End attachments.
Arguments ExtAttachment R : clear implicits.
Arguments ChainLink R : clear implicits.
Arguments Overlay R : clear implicits.
Arguments Layer R : clear implicits.
