(* ===== verification/SandboxLayersLaws.v ===== *)
(** * Listing and lookup agree on what a sandbox sees *)

From stdpp Require Import strings gmap.
From S2P Require Import Prelude.
From S2P Require Import BTreeMap.
From S2P Require Import DepotModel.
From S2P Require Import DepotVariant.
From S2P Require Import Glob.
From S2P Require Import Rules.
From S2P Require Import GitLayer.
From S2P Require Import LayerMirror.
From S2P Require Import SandboxLayers.
Open Scope Z_scope.

(** A name of a directory entry *)
Definition name_ok (name : text) : Prop := name ≠ [] ∧ SLASH ∉ name.
#[export] Instance name_ok_dec name : Decision (name_ok name).
Proof. unfold name_ok. apply _. Defined.

(** A name that the host lists: UTF-8, and not one of the two dots, which the
    host resolves and does not list *)
Definition entry_name (name : text) : Prop :=
  name_ok name ∧ name ≠ str "." ∧ name ≠ str ".." ∧ GitLayer.from_utf8_lossy name = name.
#[export] Instance entry_name_dec name : Decision (entry_name name).
Proof. unfold entry_name. apply _. Defined.

Lemma join_ne rel name : name_ok name → path_join rel name ≠ [].
Proof. intros [Hn _]. destruct rel; [done|]. cbn. done. Qed.

(** ** Components *)

Lemma split_on_app sep a b : split_on sep (a ++ sep :: b) = split_on sep a ++ split_on sep b.
Proof.
  induction a as [|c a IH]; cbn; [by rewrite Z.eqb_refl|].
  destruct (c =? sep); [by rewrite IH|]. rewrite IH.
  destruct (split_on sep a) as [|p ps] eqn:E; [|done]. destruct a; cbn in E; repeat case_match; done.
Qed.

Lemma split_on_name sep s : sep ∉ s → split_on sep s = [s].
Proof.
  induction s as [|c s IH]; [done|]. rewrite not_elem_of_cons. intros [Hc Hs]. cbn.
  rewrite (proj2 (Z.eqb_neq c sep)) by done. by rewrite IH.
Qed.

Lemma components_join rel name : name_ok name → components (path_join rel name) = components rel ++ [name].
Proof.
  intros [Hn Hs]. unfold components.
  assert (filter (λ c, c ≠ []) [name] = [name]) as Hname.
  { rewrite filter_cons. by rewrite decide_True. }
  destruct rel as [|c rel]; cbn [path_join].
  - rewrite split_on_name by done. done.
  - rewrite (split_on_app SLASH (c :: rel)), (split_on_name SLASH name) by done. by rewrite filter_app, Hname.
Qed.

(** ** Ancestors *)

Lemma path_parent_join rel name : name_ok name → path_parent (path_join rel name) = Some rel.
Proof.
  intros Hn. pose proof (join_ne rel name Hn) as Hne. pose proof (parent_name_join rel name Hne (proj2 Hn)) as Hp.
  unfold path_parent, parent_name in *. destruct (path_join rel name) as [|c p]; [done|].
  destruct (rsplit_once SLASH (c :: p)) as [[a b]|]; cbn in Hp; by simplify_eq.
Qed.

Lemma path_parent_shorter p q : path_parent p = Some q → (length q < length p)%nat.
Proof.
  unfold path_parent. destruct p as [|c p]; [done|]. pose proof (rsplit_once_spec (c :: p)) as Hs.
  destruct (rsplit_once SLASH (c :: p)) as [[a b]|]; intros [= <-]; [|cbn; lia].
  destruct Hs as [-> _]. rewrite length_app. cbn. lia.
Qed.

Lemma ancestors_enough fuel p : (length p ≤ fuel)%nat → ancestors fuel p = ancestors (length p) p.
Proof.
  revert p. induction fuel as [fuel IH] using (well_founded_induction Nat.lt_wf_0). intros p Hl.
  destruct fuel as [|fuel]; [by destruct p; cbn in Hl; [|lia]|].
  destruct p as [|c p]; [done|]. cbn [ancestors length].
  destruct (path_parent (c :: p)) as [q|] eqn:E; [|done]. f_equal.
  apply path_parent_shorter in E. cbn in E, Hl.
  transitivity (ancestors (length q) q); [|symmetry]; apply IH; lia.
Qed.

Lemma ancestors_join rel name :
  name_ok name → ancestors (length (path_join rel name)) (path_join rel name) = rel :: ancestors (length rel) rel.
Proof.
  intros Hn. pose proof (path_parent_join rel name Hn) as Hp. pose proof (path_parent_shorter _ _ Hp) as Hl.
  destruct (length (path_join rel name)) as [|n] eqn:E; [lia|]. cbn. rewrite Hp. f_equal.
  apply ancestors_enough. lia.
Qed.

(** ** The three lists of a directory *)

Lemma elem_with_state (l : list (list Z * ChildState)) n st : n ∈ (filter (λ x, x.2 = st) l).*1 ↔ (n, st) ∈ l.
Proof.
  rewrite list_elem_of_fmap. split.
  - intros ([n' st'] & -> & [Hst Hin]%list_elem_of_filter). cbn in Hst. by subst.
  - intros Hin. exists (n, st). by rewrite list_elem_of_filter.
Qed.

Lemma elem_children m rel name st :
  mirror_ok m → rel_path rel → name_ok name →
  name ∈ (match st with ChildWhiteout => (children_of m rel).1.1 | ChildPresent => (children_of m rel).1.2
    | ChildHole => (children_of m rel).2 end) ↔
  ∃ e, entries m !! path_join rel name = Some e ∧ child_state e = st.
Proof.
  intros Hm Hr Hn. pose proof (join_ne rel name Hn) as Hne.
  assert ((name, st) ∈ default [] (children m !! rel) ↔
    ∃ e, entries m !! path_join rel name = Some e ∧ child_state e = st) as <-.
  { rewrite (mo_index _ Hm). unfold indexed. destruct Hn as [_ Hs]. split; [by intros (_ & _ & _ & H) | done]. }
  unfold children_of. destruct (children m !! rel) as [l|]; cbn.
  - destruct st; cbn; apply elem_with_state.
  - destruct st; cbn; by rewrite !elem_of_nil.
Qed.

Lemma foldl_removed (l : list (list Z)) (N : gset (list Z)) x :
  x ∈ foldl (λ N w, N ∖ {[w]}) N l ↔ x ∈ N ∧ x ∉ l.
Proof. revert N. induction l as [|w l IH]; intros N; cbn; [set_solver|]. rewrite IH. set_solver. Qed.

Lemma foldl_added (l : list (list Z)) (N : gset (list Z)) x :
  x ∈ foldl (λ N p, {[p]} ∪ N) N l ↔ x ∈ N ∨ x ∈ l.
Proof. revert N. induction l as [|w l IH]; intros N; cbn; [set_solver|]. rewrite IH. set_solver. Qed.

Lemma foldl_holes (q : text → bool) (l : list (list Z)) (N : gset (list Z)) x :
  x ∈ foldl (λ N h, if q h then {[h]} ∪ N ∖ {[h]} else N ∖ {[h]}) N l ↔
  if decide (x ∈ l) then q x = true else x ∈ N.
Proof.
  revert N. induction l as [|h l IH]; intros N; cbn; [by rewrite decide_False by set_solver|].
  rewrite IH. destruct (decide (x ∈ l)) as [Hin|Hout].
  - by rewrite decide_True by (by right).
  - destruct (decide (x = h)) as [->|Hne].
    + rewrite decide_True by (by left). destruct (q h); set_solver.
    + rewrite decide_False by set_solver. destruct (q h); set_solver.
Qed.

(** ** Attachments list what they have *)

Section attachments_laws.
  Context {R : Type} `{!Readout R}.

(** What the trait promises of a store: its listings and its lookups agree, and
    it has a root; and names in UTF-8 *)
Record readout_ok (ro : R) : Prop := {
  ro_root : is_Some (entry ro []);
  ro_children : ∀ at_ n, name_ok n → n ∈ readout_children ro at_ ↔ is_Some (entry ro (at_ ++ [n]));
  ro_utf8 : ∀ at_ n, n ∈ readout_children ro at_ → GitLayer.from_utf8_lossy n = n }.

Lemma zip_eq_true p c : length p = length c → zip_eq p c = true ↔ p = c.
Proof.
  revert c. induction p as [|x p IH]; intros [|y c]; cbn; try done.
  intros [= Hl]. rewrite andb_true_iff, (IH c Hl). unfold text_eqb. rewrite bool_decide_eq_true. naive_solver.
Qed.

Lemma on_chain_spec (a : ExtAttachment R) rel :
  on_prefix_chain a rel = true ↔
  (length (components rel) < length (prefix a))%nat ∧ take (length (components rel)) (prefix a) = components rel.
Proof.
  unfold on_prefix_chain. rewrite andb_true_iff, Nat.ltb_lt. split; intros [Hl Hz]; split; try done;
    apply zip_eq_true in Hz || apply zip_eq_true; rewrite ?length_take; try lia; done.
Qed.

Lemma strip_spec (a : ExtAttachment R) rel at_ :
  on_prefix_chain a rel = false → strip a rel = Some at_ ↔ components rel = prefix a ++ at_.
Proof.
  intros Hc. unfold strip, on_prefix_chain in *. destruct (Nat.ltb_spec (length (components rel)) (length (prefix a))) as [Hl|Hl].
  - cbn in Hc. rewrite Hc. split; [done|]. intros E. rewrite E, length_app in Hl. lia.
  - destruct (zip_eq (prefix a) (take (length (prefix a)) (components rel))) eqn:Ez.
    + apply zip_eq_true in Ez; [|rewrite length_take; lia]. split; intros H.
      * injection H as <-. rewrite Ez at 1. by rewrite take_drop.
      * by rewrite H, drop_app_length.
    + split; [done|]. intros E. exfalso. apply not_true_iff_false in Ez. apply Ez. rewrite E, take_app_length.
      by apply zip_eq_true.
Qed.

Lemma ext_agrees_ok (a : ExtAttachment R) ro :
  readout a = Some ro → readout_ok ro → Forall (λ c, GitLayer.from_utf8_lossy c = c) (prefix a) →
  ∀ rel name, name_ok name → name ∈ ext_children a rel ↔ is_Some (ext_entry a (path_join rel name)).
Proof.
  intros Hro [Hroot Hch Hutf] Hpre rel name Hn.
  unfold ext_children, ext_entry. pose proof (components_join rel name Hn) as Hc.
  assert (∀ at_, is_Some (Some at_ ≫= λ at0, readout a ≫= λ ro0, entry ro0 at0 ≫= λ e,
    Some (MkExtEntry (match kind e with Branch => true | Leaf => false end) (default 0 (blob_len e))
      (default (if match kind e with Branch => true | Leaf => false end then 16877 else 33188)
        (bt_get [109; 111; 100; 101] (entry_attrs e) ≫= GitLayer.from_str_radix_8)))) ↔ is_Some (entry ro at_)) as Hent.
  { intros at_. rewrite Hro. cbn. destruct (entry ro at_); cbn; by rewrite ?is_Some_alt. }
  destruct (on_prefix_chain a rel) eqn:E1.
  - apply on_chain_spec in E1 as [Hl Ht].
    destruct (lookup_lt_is_Some_2 _ _ Hl) as [c Hcl]. rewrite Hcl.
    rewrite Forall_lookup in Hpre. rewrite (Hpre _ _ Hcl), list_elem_of_singleton.
    assert (take (length (components rel ++ [name])) (prefix a) = components rel ++ [c]) as Htc.
    { rewrite length_app. cbn. rewrite Nat.add_1_r, (take_S_r _ _ c) by done. by rewrite Ht. }
    destruct (on_prefix_chain a (path_join rel name)) eqn:E2.
    + apply on_chain_spec in E2 as [_ Ht2]. rewrite Hc, Htc in Ht2. apply app_inj_tail in Ht2 as [_ ->]. by rewrite is_Some_alt.
    + destruct (strip a (path_join rel name)) as [at_|] eqn:Es.
      * rewrite Hent. apply strip_spec in Es; [|done]. rewrite Hc in Es.
        assert (prefix a = components rel ++ [c] ∧ at_ = [] ∧ name = c) as (_ & -> & ->); [|naive_solver].
        pose proof (f_equal length Es) as Hlen. rewrite !length_app in Hlen. cbn in Hlen.
        assert (length (prefix a) = length (components rel ++ [name])) as Hlp by (rewrite length_app; cbn; lia).
        rewrite <- Hlp, take_ge in Htc by lia. destruct at_; [|cbn in Hlen; lia].
        rewrite app_nil_r, Htc in Es. apply app_inj_tail in Es as [_ ->]. done.
      * cbn. split; [|by intros []]. intros ->. exfalso.
        destruct (decide (length (components rel ++ [c]) < length (prefix a))%nat) as [Hlt|Hge].
        -- apply not_true_iff_false in E2. apply E2. apply on_chain_spec. by rewrite Hc.
        -- assert (strip a (path_join rel c) = Some []) as E3; [|congruence].
           apply strip_spec; [done|]. rewrite Hc, app_nil_r. rewrite <- Htc, take_ge by lia. done.
  - assert (on_prefix_chain a (path_join rel name) = false) as E2.
    { apply not_true_iff_false. intros [Hl Ht]%on_chain_spec. rewrite Hc, length_app in Hl, Ht. cbn in Hl, Ht.
      apply not_true_iff_false in E1. apply E1. apply on_chain_spec. split; [lia|].
      apply (f_equal (take (length (components rel)))) in Ht. rewrite take_take, take_app_length in Ht.
      by rewrite Nat.min_l in Ht by lia. }
    rewrite E2. destruct (strip a rel) as [at_|] eqn:Es.
    + apply strip_spec in Es; [|done].
      assert (strip a (path_join rel name) = Some (at_ ++ [name])) as ->
        by (apply strip_spec; [done|]; by rewrite Hc, Es, app_assoc).
      rewrite Hent, Hro, <- Hch by done. rewrite list_elem_of_fmap. split.
      * intros (n & -> & Hin). by rewrite (Hutf _ _ Hin).
      * intros Hin. exists name. by rewrite (Hutf _ _ Hin).
    + destruct (strip a (path_join rel name)) as [at_|] eqn:Es2; cbn; [|split; [set_solver | by intros []]].
      exfalso. apply strip_spec in Es2; [|done]. rewrite Hc in Es2. destruct at_ as [|x at_] using rev_ind.
      * rewrite app_nil_r in Es2. apply not_true_iff_false in E1. apply E1. apply on_chain_spec.
        rewrite <- Es2, length_app, take_app_length. cbn. split; [lia | done].
      * rewrite app_assoc in Es2. apply app_inj_tail in Es2 as [Es2 _].
        apply (strip_spec a rel at_) in Es2; [congruence | done].
Qed.

(** An attachment whose store does not open still has the directories above
    its place. *)
Lemma ext_listed_closed (a : ExtAttachment R) rel name :
  readout a = None → Forall (λ c, GitLayer.from_utf8_lossy c = c) (prefix a) → name_ok name →
  is_Some (ext_entry a (path_join rel name)) → name ∈ ext_children a rel.
Proof.
  intros Hro Hpre Hn. unfold ext_entry. rewrite Hro. destruct (on_prefix_chain a (path_join rel name)) eqn:E.
  2:{ destruct (strip a (path_join rel name)); cbn; by intros []. }
  intros _. apply on_chain_spec in E as [Hl Ht]. rewrite (components_join rel name Hn) in Hl, Ht.
  rewrite length_app in Hl, Ht. cbn in Hl, Ht. rewrite Nat.add_1_r in Hl, Ht.
  destruct (lookup_lt_is_Some_2 (prefix a) (length (components rel)) ltac:(lia)) as [c Hc].
  rewrite (take_S_r _ _ c Hc) in Ht. apply app_inj_tail in Ht as [Ht ->]. unfold ext_children.
  rewrite (proj2 (on_chain_spec a rel)), Hc by (split; [lia|done]).
  rewrite Forall_lookup in Hpre. rewrite (Hpre _ _ Hc). by left.
Qed.
End attachments_laws.

(** A view keeps the promises. *)
Lemma view_readout_ok view :
  wf_view view = true → (∀ at_ n, n ∈ readout_children (MkViewReadout view) at_ → GitLayer.from_utf8_lossy n = n) →
  readout_ok (MkViewReadout view).
Proof.
  intros Hw Hu. split; [by eexists| |done]. intros at_ n _. by apply children_are_entries.
Qed.

(** ** Listings *)
Section listing.
  Context {R : Type} `{!Readout R}.
  Context (read_dir : text → option (list (list Z))) (exists_ : text → bool).
  Implicit Types (b : BoxState) (chain : list (ChainLink R)).

(** The host's listing and its probe agree, as they do where directories can be
    read and searched. *)
Definition host_agrees : Prop :=
  ∀ rel name, entry_name name → name ∈ default [] (read_dir rel) ↔ exists_ (path_join rel name) = true.

(** A box whose mirror is sound; an attachment at a place in UTF-8 whose store,
    if it opens, keeps the promises of its trait *)
Definition link_ok (l : ChainLink R) : Prop :=
  match l with
  | LinkBox b => mirror_ok (kinds b)
  | LinkExt a =>
      Forall (λ c, GitLayer.from_utf8_lossy c = c) (prefix a) ∧ ∀ ro, readout a = Some ro → readout_ok ro
  end.

(** No directory at or above [rel] is opaque while one is rebased, and an
    attachment's store opens. *)
Definition settled (rel : text) (l : ChainLink R) : Prop :=
  match l with
  | LinkBox b => (is_opaque b rel || has_opaque_ancestor b rel) && (is_rebased b rel || has_rebased_ancestor b rel) = false
  | LinkExt a => readout a ≠ None
  end.

Definition link_no_host (l : ChainLink R) : bool :=
  match l with LinkBox b => no_host_fallback b | LinkExt _ => false end.

Lemma box_names b no_host rel name N :
  mirror_ok (kinds b) → rel_path rel → name_ok name →
  name ∈ link_names (R := R) read_dir exists_ no_host rel N (LinkBox b) ↔
  match box_entry b (path_join rel name) with
  | Some EWhiteout => False
  | Some EHole => no_host = false ∧ exists_ (path_join rel name) = true
  | Some _ => True
  | None =>
      if is_rebased b rel || has_rebased_ancestor b rel then name ∈ backing_names read_dir no_host rel
      else if is_opaque b rel || has_opaque_ancestor b rel then False else name ∈ N
  end.
Proof.
  intros Hm Hr Hn. unfold link_names.
  pose proof (elem_children _ rel name ChildWhiteout Hm Hr Hn) as Hw.
  pose proof (elem_children _ rel name ChildPresent Hm Hr Hn) as Hp.
  pose proof (elem_children _ rel name ChildHole Hm Hr Hn) as Hh.
  destruct (children_of (kinds b) rel) as [[white present] holes]. cbn in Hw, Hp, Hh.
  cbv zeta. rewrite foldl_added.
  match goal with |- context [foldl _ ?N1 holes] =>
    pose proof (foldl_holes (λ h, negb no_host && exists_ (path_join rel h)) holes N1 name) as Hx end.
  cbv beta in Hx. rewrite Hx. clear Hx. unfold box_entry, mirror_get.
  destruct (entries (kinds b) !! path_join rel name) as [e|].
  - assert (∀ st, (∃ e0, Some e = Some e0 ∧ child_state e0 = st) ↔ child_state e = st) as Hs by naive_solver.
    rewrite Hs in Hw, Hp, Hh. destruct e; cbn in *.
    1-4: split; [done|]; intros _; right; by apply Hp.
    + rewrite decide_False by (rewrite Hh; done). rewrite foldl_removed. naive_solver.
    + rewrite decide_True by (by apply Hh). rewrite andb_true_iff, negb_true_iff. naive_solver.
  - rewrite decide_False by naive_solver. rewrite foldl_removed.
    assert (name ∉ white) by naive_solver. assert (name ∉ present) by naive_solver.
    destruct (is_rebased b rel || has_rebased_ancestor b rel); [naive_solver|].
    destruct (is_opaque b rel || has_opaque_ancestor b rel); set_solver.
Qed.

Lemma opaque_join b rel name :
  name_ok name → has_opaque_ancestor b (path_join rel name) = is_opaque b rel || has_opaque_ancestor b rel.
Proof. intros Hn. unfold has_opaque_ancestor at 1. by rewrite ancestors_join. Qed.
Lemma rebased_join b rel name :
  name_ok name → has_rebased_ancestor b (path_join rel name) = is_rebased b rel || has_rebased_ancestor b rel.
Proof. intros Hn. unfold has_rebased_ancestor at 1. by rewrite ancestors_join. Qed.

(** A name the attachment has is listed, and where its store opens only such. *)
Lemma ext_names (a : ExtAttachment R) rel name :
  link_ok (LinkExt a) → name_ok name →
  (is_Some (ext_entry a (path_join rel name)) → name ∈ ext_children a rel) ∧
  (readout a ≠ None → name ∈ ext_children a rel → is_Some (ext_entry a (path_join rel name))).
Proof.
  intros [Hp Hro] Hn. destruct (readout a) as [ro|] eqn:E.
  - pose proof (ext_agrees_ok a ro E (Hro ro eq_refl) Hp rel name Hn). naive_solver.
  - split; [by apply ext_listed_closed|done].
Qed.

(** The names gathered over a chain against the outcome of its resolution *)
Lemma names_resolve chain no_host rel name :
  Forall link_ok chain → (∀ l, l ∈ chain → link_no_host l = true → no_host = true) →
  rel_path rel → entry_name name →
  let names := foldr (λ l N, link_names read_dir exists_ no_host rel N l) (backing_names read_dir no_host rel) chain in
  match resolve_chain (path_join rel name) chain no_host with
  | inl Absent => Forall (settled rel) chain → name ∉ names
  | inl _ => name ∈ names
  | inr nh => nh = no_host ∧ (host_agrees →
      (name ∈ backing_names read_dir no_host rel → name ∈ names) ∧
      (Forall (settled rel) chain → name ∈ names → name ∈ backing_names read_dir no_host rel))
  end.
Proof.
  intros Hok Hnh Hr He. pose proof (proj1 He) as Hn. cbn zeta.
  induction chain as [|[b|a] chain IH]; cbn [resolve_chain foldr]; [done| |].
  - apply Forall_cons in Hok as [Hb Hok]. specialize (IH Hok (λ l Hl, Hnh l (proj2 (elem_of_cons chain l (LinkBox b)) (or_intror Hl)))).
    assert (no_host || no_host_fallback b = no_host) as ->.
    { destruct no_host; [done|]. destruct (no_host_fallback b) eqn:E; [|done]. by specialize (Hnh (LinkBox b) ltac:(by left) E). }
    set (N := foldr _ _ chain) in *. pose proof (box_names b no_host rel name N Hb Hr Hn) as Hnames.
    rewrite opaque_join, rebased_join by done.
    destruct (box_entry b (path_join rel name)) as [[]|].
    1-4: by apply Hnames.
    + by intros _ ?%Hnames.
    + split; [done|]. intros Hha. rewrite Hnames. unfold backing_names. destruct no_host; [set_solver|].
      rewrite elem_of_list_to_set, (Hha rel name He). split; [by intros|]. by intros _ [_ ?].
    + destruct (is_opaque b rel || has_opaque_ancestor b rel) eqn:Eo.
      { intros [Hnb _]%Forall_cons. cbn in Hnb. rewrite Eo in Hnb. cbn in Hnb. rewrite Hnb in Hnames. by intros ?%Hnames. }
      destruct (is_rebased b rel || has_rebased_ancestor b rel) eqn:Er; [split; [done|]; intros _; by rewrite Hnames|].
      destruct (resolve_chain (path_join rel name) chain no_host) as [[]|nh]; rewrite ?Hnames; try done.
      * intros [_ Hs]%Forall_cons. auto.
      * destruct IH as [-> IH]. split; [done|]. intros Hh. destruct (IH Hh) as [IH1 IH2]. split; [done|].
        intros [_ Hs]%Forall_cons. auto.
  - apply Forall_cons in Hok as [Ha Hok]. specialize (IH Hok (λ l Hl, Hnh l (proj2 (elem_of_cons chain l (LinkExt a)) (or_intror Hl)))).
    set (N := foldr _ _ chain) in *. cbn [link_names].
    destruct (ext_names a rel name Ha Hn) as [Hin Hout].
    assert (name ∈ N ∪ list_to_set (ext_children a rel) ↔ name ∈ N ∨ name ∈ ext_children a rel) as Hnames
      by by rewrite elem_of_union, elem_of_list_to_set.
    destruct (ext_entry a (path_join rel name)) as [e|]; [destruct (ee_dir e); rewrite Hnames; right; apply Hin; by eexists|].
    destruct (resolve_chain (path_join rel name) chain no_host) as [[]|nh]; rewrite ?Hnames; try (by left).
    + intros [Hopen Hs]%Forall_cons [HN|Hc]; [by apply IH|]. by destruct (Hout Hopen Hc).
    + destruct IH as [-> IH]. split; [done|]. intros Hh. destruct (IH Hh) as [IH1 IH2]. split; [auto|].
      intros [Hopen Hs]%Forall_cons [HN|Hc]; [auto|]. by destruct (Hout Hopen Hc).
Qed.
End listing.

(** ** The claims *)

Lemma foldl_rev {A B} (f : B → A → B) (l : list A) (z : B) : foldl f z (rev l) = foldr (λ x acc, f acc x) z l.
Proof. induction l as [|x l IH]; [done|]. cbn [rev foldr]. by rewrite foldl_app, IH. Qed.

(** C32. Listing a directory and looking names up in it agree: over a box, its
    attachments and its ancestors, whatever whiteouts, holes, opaque and rebased
    directories they record, every name that resolves is among the names
    [scan_dir] gathers, an attachment whose store does not open included; and
    where no layer marks directories above both opaque and rebased and every
    attachment's store opens, every name it gathers resolves.  The conditions:
    names in UTF-8 other than the two dots; a host whose directories can be read
    and searched; attachments at UTF-8 places whose stores, where they open, list
    what they have and have UTF-8 names ([view_readout_ok] for a view); mirrors
    that are sound; the box itself carries the no-host-fallback flag if any layer
    below does; and the name is not a synthesized landing directory. *)
Theorem listing_agrees {R} `{!Readout R} read_dir exists_ api_tmp origin_is_api rel name b0 (chain : list (ChainLink R)) :
  host_agrees read_dir exists_ → Forall link_ok (LinkBox b0 :: chain) → rel_path rel → entry_name name →
  (∀ l, l ∈ chain → link_no_host l = true → no_host_fallback b0 = true) →
  synthetic_landing (path_join rel name) = false →
  let c := path_join rel name in
  let layer := resolve api_tmp c origin_is_api (LinkBox b0 :: chain) (exists_ c) in
  let names := scan_names read_dir exists_ (LinkBox b0 :: chain) rel in
  (layer ≠ Absent → name ∈ names) ∧
  (Forall (settled rel) (LinkBox b0 :: chain) → name ∈ names → layer ≠ Absent).
Proof.
  intros Hh Hok Hr Hn Hflag Hland. cbn zeta.
  assert (existsb (λ l, match l with LinkBox b => no_host_fallback b | LinkExt _ => false end) (LinkBox b0 :: chain)
    = no_host_fallback b0) as Hany.
  { cbn [existsb]. destruct (no_host_fallback b0); [done|]. cbn. apply not_true_iff_false.
    intros (l & Hin & Hl)%existsb_exists. by specialize (Hflag l ltac:(by apply list_elem_of_In) Hl). }
  assert (text_eqb (path_join rel name) (str "tmp") = false) as Htmp.
  { unfold synthetic_landing in Hland. cbn in Hland. apply orb_false_iff in Hland as [_ H].
    apply orb_false_iff in H as [_ H]. apply orb_false_iff in H as [_ H]. by apply orb_false_iff in H as [H _]. }
  assert (resolve_chain (path_join rel name) (LinkBox b0 :: chain) false =
    resolve_chain (path_join rel name) (LinkBox b0 :: chain) (no_host_fallback b0)) as Hrun
    by (cbn; by rewrite orb_diag).
  pose proof (names_resolve read_dir exists_ (LinkBox b0 :: chain) (no_host_fallback b0) rel name Hok) as H.
  unfold scan_names, resolve. rewrite Hany, foldl_rev, Htmp, Hrun, Hland. cbn [andb].
  specialize (H ltac:(intros l [->|Hl]%elem_of_cons; eauto) Hr Hn). cbn zeta in H.
  destruct (resolve_chain (path_join rel name) (LinkBox b0 :: chain) (no_host_fallback b0)) as [layer|nh].
  - destruct layer; try (by split; intros); split; [done|]. intros Hnb Hin. by destruct (H Hnb).
  - destruct H as [-> H]. destruct (H Hh) as [H1 H2]. revert H1 H2. unfold backing_names.
    destruct (no_host_fallback b0); [set_solver|].
    rewrite elem_of_list_to_set, (Hh rel name Hn). destruct (exists_ (path_join rel name)); [naive_solver|].
    intros _ H2. split; [done|]. intros Hs Hin. by specialize (H2 Hs Hin).
Qed.

(** A box over a host that has [f] and [g]: the box has removed [f] and made
    [h]; at [opt/x] a store with [t] is attached. *)
Module Sample.
Definition f : text := str "f".
Definition h : text := str "h".
Definition opt : text := str "opt".
Definition host_dir (rel : text) : option (list (list Z)) :=
  match rel with [] => Some [str "f"; str "g"] | _ => None end.
Definition host_exists (p : text) : bool := existsb (text_eqb p) [str "f"; str "g"].
Definition mirror : LayerMirror :=
  (mirror_insert (mirror_insert mirror_new (str "f") EWhiteout).1 (str "h") (EFile 1 33188)).1.
Definition box1 : BoxState := MkBox 1 mirror false false None [].
Definition store : View := MkView None [] [(str "t", MkView (Some [7]) [] [])].
Definition att : ExtAttachment ViewReadout := ext_new (str "opt/x") (Some (MkViewReadout store)).
Definition chain : list (ChainLink ViewReadout) := [LinkBox box1; LinkExt att].

Lemma store_ok : readout_ok (MkViewReadout store).
Proof.
  apply view_readout_ok; [done|]. intros [|k at_] n; cbn.
  - intros ->%list_elem_of_singleton. done.
  - destruct (cmp k _); cbn; [destruct at_| |]; cbn; by intros ?%elem_of_nil.
Qed.
Lemma mirror_is_ok : mirror_ok mirror.
Proof. repeat apply mirror_insert_ok; try (by compute_done). apply mirror_new_ok. Qed.
Lemma host_is_ok : host_agrees host_dir host_exists.
Proof.
  intros rel name Hn. unfold host_dir, host_exists, text_eqb. cbn [existsb].
  rewrite orb_false_r, orb_true_iff, !bool_decide_eq_true. destruct rel as [|c rel]; cbn [path_join].
  - cbn [from_option id]. rewrite !elem_of_cons, elem_of_nil. naive_solver.
  - cbn [from_option id]. rewrite elem_of_nil. split; [done|].
    assert (SLASH ∈ (c :: rel) ++ SLASH :: name) as Hin by (apply elem_of_app; right; by left).
    assert ((SLASH ∉ str "f") ∧ (SLASH ∉ str "g")) as [H1 H2] by compute_done.
    intros [E|E]; rewrite E in Hin; done.
Qed.
End Sample.

Lemma listing_agrees_witness :
  let names := scan_names Sample.host_dir Sample.host_exists Sample.chain in
  Sample.h ∈ names [] ∧ Sample.opt ∈ names [] ∧ (Sample.f ∉ names []) ∧ str "t" ∈ names (str "opt/x").
Proof.
  assert (Forall (link_ok (R := ViewReadout)) Sample.chain) as Hok.
  { constructor; [apply Sample.mirror_is_ok|]. constructor; [|constructor]. split; [by compute_done|].
    intros ro [= <-]. exact Sample.store_ok. }
  assert (∀ l, l ∈ [LinkExt Sample.att] → link_no_host l = true → no_host_fallback Sample.box1 = true) as Hl
    by by intros l ->%list_elem_of_singleton.
  pose proof (λ rel n Hr Hn, listing_agrees Sample.host_dir Sample.host_exists [] false rel n Sample.box1 [LinkExt Sample.att]
    Sample.host_is_ok Hok Hr Hn Hl) as H.
  cbv zeta. split_and!.
  - apply (H [] Sample.h); [by compute_done..|by vm_compute|by vm_compute].
  - apply (H [] Sample.opt); [by compute_done..|by vm_compute|by vm_compute].
  - intros Hin. apply (H [] Sample.f) in Hin; [|by compute_done..|by vm_compute|by repeat constructor].
    apply Hin. by vm_compute.
  - apply (H (str "opt/x") (str "t")); [by compute_done..|by vm_compute|by vm_compute].
Defined.

(** The chain of a box is found for every table of boxes, cyclic parents
    included, and has at most 64 links; a known box is its first link. *)
Theorem chain_of_total {R} `{!Readout R} (o : Overlay R) bid :
  ∃ chain, chain_of o bid = Some chain ∧ (length chain ≤ 64)%nat ∧
    head chain = (LinkBox <$> boxes o !! bid).
Proof.
  assert (∀ fuel cur out, (length out ≤ 64)%nat → (64 - length out < fuel)%nat →
    ∃ rest, chain_loop fuel o cur out = Some (out ++ rest) ∧ (length (out ++ rest) ≤ 64)%nat) as Hloop.
  { induction fuel as [|fuel IH]; intros cur out Hl Hf; [lia|]. cbn [chain_loop].
    destruct cur as [id|]; [|exists []; by rewrite app_nil_r].
    destruct (Nat.leb_spec 64 (length out)) as [Hge|Hlt]; [exists []; by rewrite app_nil_r|].
    destruct (boxes o !! id) as [b|]; [|exists []; by rewrite app_nil_r].
    set (more := LinkBox b :: attachment_links o b).
    rewrite take_app_ge by lia.
    destruct (IH (box_parent b) (out ++ take (64 - length out) more)) as (rest & Hr & Hlr).
    - rewrite length_app, length_take. lia.
    - rewrite length_app, length_take. unfold more. cbn [length]. lia.
    - exists (take (64 - length out) more ++ rest). by rewrite app_assoc. }
  unfold chain_of. change 66%nat with (S 65). cbn [chain_loop length Nat.leb].
  destruct (boxes o !! bid) as [b|]; [|exists []; cbn; split_and!; [done | lia | done]].
  destruct (Hloop 65%nat (box_parent b) (take 64 ([] ++ LinkBox b :: attachment_links o b))) as (rest & Hr & Hlr).
  - rewrite length_take. lia.
  - rewrite length_take. cbn. lia.
  - eexists. by split_and!.
Qed.

(** A hole above a box that closes the stack: the lookup reaches the host, which
    the closed stack hides and the listing leaves out. *)
Theorem hole_escapes_closed_stack :
  let top := MkBox 2 (mirror_insert mirror_new (str "f") EHole).1 false false (Some 1) [] in
  let closed := MkBox 1 mirror_new true false None [] in
  let chain : list (ChainLink ViewReadout) := [LinkBox top; LinkBox closed] in
  resolve [] (str "f") false chain true = Lower ∧
  (str "f" ∉ scan_names Sample.host_dir Sample.host_exists chain []) ∧
  resolve [] (str "g") false chain true = Absent.
Proof. cbn zeta. split_and!; [by vm_compute | by compute_done | by vm_compute]. Qed.
