(* ===== verification/BoxStore.v ===== *)
(** * The store of a box.

    Models [engine/src/depot.rs] up to the export of layers, with
    [entry_from_row] and the mirror part of [load_mirror] of
    [engine/src/capture.rs]: the rows of a box's captured layer in its database,
    the side tables, the pool of content files, and the mirror of them in
    memory.  A table is a map from its primary key; each SQL statement of the
    source is the map operation it denotes.  A string is its UTF-8 bytes.  The
    clock is an argument.  Locks, and errors of the database and of the file
    system, are not modelled. *)

From stdpp Require Import strings gmap.
From S2P Require Import Prelude.
From S2P Require Import Glob.
From S2P Require Import Rules.
From S2P Require Import GitLayer.
From S2P Require Import LayerMirror.
Open Scope Z_scope.

Definition S_IFCHR : Z := 8192.
Definition S_IFMT : Z := 61440.
Definition file_type (mode : Z) : Z := Z.land mode S_IFMT.
Definition FT_FIFO : Z := 4096.
Definition FT_CHR : Z := 8192.
Definition FT_DIR : Z := 16384.
Definition FT_BLK : Z := 24576.
Definition FT_REG : Z := 32768.
Definition FT_LNK : Z := 40960.

(** A row of [sqlar]; the primary key [name] is the key of the table. *)
Record Row : Type := MkRow {
  rowid : Z; mode : Z; mtime : Z; sz : Z; data : option (list Z); opaque : Z; writer : Z; last_writer : Z }.

(** [pool] holds the content files under [live/blob], by rowid. *)
Record Store : Type := MkStore {
  sqlar : gmap (list Z) Row; ownership : gmap (list Z) (Z * Z); rdevs : gmap (list Z) Z;
  xattrs : gmap (list Z * list Z) (list Z); atime_rows : gmap (list Z) Z; pool : gmap Z (list Z);
  mirror : LayerMirror; atimes : gmap (list Z) Z; owners : gmap (list Z) (Z * Z) }.

Definition store_new : Store := MkStore ∅ ∅ ∅ ∅ ∅ ∅ mirror_new ∅ ∅.

Definition set_sqlar (s : Store) (t : gmap (list Z) Row) : Store :=
  MkStore t (ownership s) (rdevs s) (xattrs s) (atime_rows s) (pool s) (mirror s) (atimes s) (owners s).
Definition set_mirror (s : Store) (m : LayerMirror) : Store :=
  MkStore (sqlar s) (ownership s) (rdevs s) (xattrs s) (atime_rows s) (pool s) m (atimes s) (owners s).
Definition set_pool (s : Store) (p : gmap Z (list Z)) : Store :=
  MkStore (sqlar s) (ownership s) (rdevs s) (xattrs s) (atime_rows s) p (mirror s) (atimes s) (owners s).

(** The rowid of a new row: one more than the largest in use *)
Definition fresh_rowid (t : gmap (list Z) Row) : Z := 1 + map_fold (λ _ r n, Z.max (rowid r) n) 0 t.

(** [INSERT ... ON CONFLICT(name) DO UPDATE SET ...] *)
Definition upsert (t : gmap (list Z) Row) (name : text) (new : Z → Row) (update : Row → Row) : gmap (list Z) Row :=
  match t !! name with
  | Some r => <[name := update r]> t
  | None => <[name := new (fresh_rowid t)]> t
  end.

Definition row_mode (m : Z) (r : Row) : Row := MkRow (rowid r) m (mtime r) (sz r) (data r) (opaque r) (writer r) (last_writer r).
Definition row_mtime (t : Z) (r : Row) : Row := MkRow (rowid r) (mode r) t (sz r) (data r) (opaque r) (writer r) (last_writer r).
Definition row_opaque (o : Z) (r : Row) : Row := MkRow (rowid r) (mode r) (mtime r) (sz r) (data r) o (writer r) (last_writer r).

(** ** At-rest statements *)

Record ArchiveNode : Type := MkArchiveNode {
  an_rowid : Z; an_mode : Z; an_mtime : Z; an_sz : Z; an_data : option (list Z); an_opaque : bool }.

Definition archive_node (s : Store) (rel : text) : option ArchiveNode :=
  (λ r, MkArchiveNode (rowid r) (mode r) (mtime r) (sz r) (data r) (negb (opaque r =? 0))) <$> sqlar s !! rel.

Definition archive_delete (s : Store) (rel : text) : Store := set_sqlar s (delete rel (sqlar s)).

Definition archive_write_inline (s : Store) (rel : text) (bytes : list Z) : Store * option Z :=
  let s := set_sqlar s (alter (λ r,
    MkRow (rowid r) (mode r) (mtime r) (zlen bytes) (Some bytes) (opaque r) (writer r) (last_writer r)) rel (sqlar s)) in
  (s, an_rowid <$> archive_node s rel).

Definition archive_clear_inline (s : Store) (rel : text) : Store :=
  set_sqlar s (alter (λ r, MkRow (rowid r) (mode r) (mtime r) (sz r) None (opaque r) (writer r) (last_writer r)) rel (sqlar s)).

(** [INSERT OR REPLACE]: the old row goes, the new one has a new rowid; the
    columns it does not name are null, read as 0 here. *)
Definition archive_upsert (s : Store) (rel : text) (m t z : Z) (d : option (list Z)) (o : Z) : Store * Z :=
  let table := delete rel (sqlar s) in
  let id := fresh_rowid table in
  (set_sqlar s (<[rel := MkRow id m t z d o 0 0]> table), id).

Definition archive_clear (s : Store) : Store :=
  let stale := omap (λ '(_, r),
    if (file_type (mode r) =? FT_REG) && bool_decide (data r = None) then Some (rowid r) else None)
    (map_to_list (sqlar s)) in
  MkStore ∅ ∅ ∅ ∅ ∅ (foldr delete (pool s) stale) (mirror s) (atimes s) (owners s).

(** ** [entry_from_row] *)

Definition entry_from_row (r : Row) : Entry :=
  let ft := file_type (mode r) in
  if mode r =? S_IFCHR then (if Z.testbit (opaque r) 1 then EHole else EWhiteout)
  else if ft =? FT_LNK then ESymlink (GitLayer.from_utf8_lossy (default [] (data r)))
  else if ft =? FT_DIR then EDir (mode r) 0 (Z.testbit (opaque r) 0) (Z.testbit (opaque r) 1)
  else if (ft =? FT_FIFO) || (ft =? FT_BLK) then ESpecial (mode r) 0
  else EFile (rowid r) (mode r).

(** The mirror part of [load_mirror] *)
Definition load_mirror (s : Store) : Store :=
  MkStore (sqlar s) (ownership s) (rdevs s) (xattrs s) (atime_rows s) (pool s)
    (foldl (λ m '(name, r), (mirror_insert m name (entry_from_row r)).1) mirror_new (map_to_list (sqlar s)))
    (atime_rows s) (ownership s).

(** ** [impl BoxDepot for BoxState] *)

Definition box_entry (s : Store) (rel : text) : option Entry := mirror_get (mirror s) rel.
Definition is_opaque (s : Store) (rel : text) : bool :=
  match box_entry s rel with Some (EDir _ _ true _) => true | _ => false end.

Definition clear_node_metadata (s : Store) (rel : text) : Store :=
  MkStore (sqlar s) (delete rel (ownership s)) (delete rel (rdevs s))
    (filter (λ kv, kv.1.1 ≠ rel) (xattrs s)) (delete rel (atime_rows s)) (pool s) (mirror s) (atimes s) (owners s).

Definition clear_metadata_mirrors (s : Store) (rel : text) : Store :=
  MkStore (sqlar s) (ownership s) (rdevs s) (xattrs s) (atime_rows s) (pool s) (mirror s)
    (delete rel (atimes s)) (delete rel (owners s)).

(** [UPDATE t SET name=new WHERE name=old], once the new name is clear *)
Definition move_key {A} (old new : text) (t : gmap (list Z) A) : gmap (list Z) A :=
  match t !! old with Some v => <[new := v]> (delete old t) | None => t end.

Definition move_node_metadata (s : Store) (old new : text) : Store :=
  let s := clear_node_metadata s new in
  MkStore (sqlar s) (move_key old new (ownership s)) (move_key old new (rdevs s))
    (kmap (λ k, if text_eqb k.1 old then (new, k.2) else k) (xattrs s))
    (move_key old new (atime_rows s)) (pool s) (mirror s) (atimes s) (owners s).

Definition move_metadata_mirrors (s : Store) (old new : text) : Store :=
  MkStore (sqlar s) (ownership s) (rdevs s) (xattrs s) (atime_rows s) (pool s) (mirror s)
    (move_key old new (delete new (atimes s))) (move_key old new (delete new (owners s))).

(** The content file of the file the mirror has at [rel] *)
Definition stale_rowid (s : Store) (rel : text) : option Z :=
  match box_entry s rel with Some (EFile id _) => Some id | _ => None end.
Definition remove_blob (s : Store) (id : option Z) : Store :=
  match id with Some id => set_pool s (delete id (pool s)) | None => s end.

Definition ensure_file_row (s : Store) (now : Z) (rel : text) (m w : Z) : Store * Z :=
  match box_entry s rel with
  | Some (EFile id _) => (s, id)
  | _ =>
      let s := clear_node_metadata s rel in
      let s := set_sqlar s (upsert (sqlar s) rel (λ id, MkRow id m now 0 None 0 w w)
        (λ r, MkRow (rowid r) m (mtime r) (sz r) (data r) (opaque r) (writer r) w)) in
      let id := default 0 (rowid <$> sqlar s !! rel) in
      let s := clear_metadata_mirrors s rel in
      (set_mirror s (mirror_insert (mirror s) rel (EFile id m)).1, id)
  end.

Definition finalize_file (s : Store) (rel : text) (size t w : Z) : Store :=
  set_sqlar s (alter (λ r, MkRow (rowid r) (mode r) t size (data r) (opaque r) (writer r) w) rel (sqlar s)).

Definition reload_entry (s : Store) (rel : text) : Store :=
  let m := match sqlar s !! rel with
           | Some r => (mirror_insert (mirror s) rel (entry_from_row r)).1
           | None => (mirror_remove (mirror s) rel).1
           end in
  MkStore (sqlar s) (ownership s) (rdevs s) (xattrs s) (atime_rows s) (pool s) m
    (match atime_rows s !! rel with Some v => <[rel := v]> (atimes s) | None => delete rel (atimes s) end)
    (match ownership s !! rel with Some v => <[rel := v]> (owners s) | None => delete rel (owners s) end).

Definition outline_inline_row (s : Store) (rel : text) : Store * bool :=
  match archive_node s rel with
  | None => (s, false)
  | Some n =>
      if negb (file_type (an_mode n) =? FT_REG) then (s, false)
      else match an_data n with
           | None => (s, false)
           | Some d =>
               let s := set_pool s (<[an_rowid n := d]> (pool s)) in
               (reload_entry (archive_clear_inline s rel) rel, true)
           end
  end.

Definition set_mode (s : Store) (rel : text) (full_mode : Z) : Store :=
  let s := set_sqlar s (alter (row_mode full_mode) rel (sqlar s)) in
  set_mirror s (mirror_alter (λ e,
    match e with
    | EFile id _ => EFile id full_mode
    | EDir _ t o b => EDir full_mode t o b
    | e => e
    end) (mirror s) rel).

Definition set_mtime (s : Store) (rel : text) (t : Z) : Store :=
  let s := set_sqlar s (alter (row_mtime t) rel (sqlar s)) in
  set_mirror s (mirror_alter (λ e, match e with EDir m _ o b => EDir m t o b | e => e end) (mirror s) rel).

Definition set_atime (s : Store) (rel : text) (t : Z) : Store :=
  MkStore (sqlar s) (ownership s) (rdevs s) (xattrs s) (<[rel := t]> (atime_rows s)) (pool s) (mirror s)
    (<[rel := t]> (atimes s)) (owners s).
Definition set_owner (s : Store) (rel : text) (uid gid : Z) : Store :=
  MkStore (sqlar s) (<[rel := (uid, gid)]> (ownership s)) (rdevs s) (xattrs s) (atime_rows s) (pool s) (mirror s)
    (atimes s) (<[rel := (uid, gid)]> (owners s)).
Definition set_xattr (s : Store) (rel key : text) (value : list Z) : Store :=
  MkStore (sqlar s) (ownership s) (rdevs s) (<[(rel, key) := value]> (xattrs s)) (atime_rows s) (pool s) (mirror s)
    (atimes s) (owners s).
Definition get_xattr (s : Store) (rel key : text) : option (list Z) := xattrs s !! (rel, key).
Definition list_xattr (s : Store) (rel : text) : list (list Z) :=
  omap (λ '(k, _), if text_eqb k.1 rel then Some k.2 else None) (map_to_list (xattrs s)).
Definition remove_xattr (s : Store) (rel key : text) : Store * bool :=
  (MkStore (sqlar s) (ownership s) (rdevs s) (delete (rel, key) (xattrs s)) (atime_rows s) (pool s) (mirror s)
    (atimes s) (owners s), bool_decide (is_Some (xattrs s !! (rel, key)))).

Definition set_special (s : Store) (now : Z) (rel : text) (m rdev w : Z) : Store :=
  let s := set_sqlar s (upsert (sqlar s) rel (λ id, MkRow id m now 0 None 0 w w) (row_mode m)) in
  let s := if rdev =? 0 then s
           else MkStore (sqlar s) (ownership s) (<[rel := rdev]> (rdevs s)) (xattrs s) (atime_rows s) (pool s)
                  (mirror s) (atimes s) (owners s) in
  set_mirror s (mirror_insert (mirror s) rel (ESpecial m rdev)).1.

Definition set_dir (s : Store) (now : Z) (rel : text) (m w : Z) : Store :=
  let m := Z.lor m FT_DIR in
  let s := set_sqlar s (upsert (sqlar s) rel (λ id, MkRow id m now 0 None 0 w w) (row_mode m)) in
  let '(was_opaque, was_rebased) :=
    match box_entry s rel with Some (EDir _ _ o b) => (o, b) | _ => (false, false) end in
  set_mirror s (mirror_insert (mirror s) rel (EDir m now was_opaque was_rebased)).1.

Definition set_opaque (s : Store) (now : Z) (rel : text) (w : Z) : Store :=
  let s := set_sqlar s (upsert (sqlar s) rel (λ id, MkRow id 16877 now 0 None 1 w w) (row_opaque 1)) in
  let e := match box_entry s rel with
           | Some (EDir m t _ b) => EDir m t true b
           | _ => EDir 16877 now true false
           end in
  set_mirror s (mirror_insert (mirror s) rel e).1.

Definition set_symlink (s : Store) (now : Z) (rel target : text) (w : Z) : Store :=
  let stale := stale_rowid s rel in
  let s := clear_node_metadata s rel in
  let s := set_sqlar s (upsert (sqlar s) rel (λ id, MkRow id 41471 now (zlen target) (Some target) 0 w w)
    (λ r, MkRow (rowid r) 41471 now (zlen target) (Some target) 0 (writer r) w)) in
  let s := remove_blob (clear_metadata_mirrors s rel) stale in
  set_mirror s (mirror_insert (mirror s) rel (ESymlink target)).1.

Definition set_whiteout (s : Store) (rel : text) (w : Z) : Store :=
  let stale := stale_rowid s rel in
  let s := clear_node_metadata s rel in
  let s := set_sqlar s (upsert (sqlar s) rel (λ id, MkRow id S_IFCHR 0 0 None 0 w w)
    (λ r, MkRow (rowid r) S_IFCHR (mtime r) 0 None (opaque r) (writer r) (last_writer r))) in
  let s := remove_blob (clear_metadata_mirrors s rel) stale in
  set_mirror s (mirror_insert (mirror s) rel EWhiteout).1.

Definition rename_row (s : Store) (old new : text) : Store :=
  match box_entry s old with
  | None => s
  | Some e =>
      let stale := stale_rowid s new in
      let s := archive_delete s new in
      let s := move_node_metadata s old new in
      let s := set_sqlar s (move_key old new (sqlar s)) in
      let s := remove_blob (move_metadata_mirrors s old new) stale in
      set_mirror s (mirror_insert (mirror_remove (mirror s) old).1 new e).1
  end.

Definition drop_row (s : Store) (rel : text) : Store :=
  let stale := stale_rowid s rel in
  let s := set_mirror s (mirror_remove (mirror s) rel).1 in
  let s := archive_delete (clear_node_metadata s rel) rel in
  remove_blob (clear_metadata_mirrors s rel) stale.

(** [CaptureWriter::delete] of [sarunfs/mutation.rs] *)
Definition capture_delete (s : Store) (rel : text) (w : Z) : Store := set_whiteout (drop_row s rel) rel w.

(** ** [reparent] *)

(** SQLite's [LIKE] without an escape character: [%] stands for any characters,
    [_] for one, and letters of ASCII match in either case. *)
Definition ascii_lower (c : Z) : Z := if (65 <=? c) && (c <=? 90) then c + 32 else c.
Definition is_continuation (c : Z) : bool := (128 <=? c) && (c <? 192).
Fixpoint skip_continuation (s : list Z) : list Z :=
  match s with c :: s' => if is_continuation c then skip_continuation s' else s | [] => [] end.
Definition PERCENT : Z := 37.
Definition UNDERSCORE : Z := 95.

Fixpoint like (p s : list Z) {struct p} : bool :=
  match p with
  | [] => match s with [] => true | _ => false end
  | c :: p =>
      if c =? PERCENT then
        (fix any (s : list Z) : bool :=
           (match s with x :: _ => negb (is_continuation x) | [] => true end && like p s)
           || match s with [] => false | _ :: s => any s end) s
      else match s with
           | [] => false
           | x :: s =>
               if c =? UNDERSCORE then like p (skip_continuation s)
               else (ascii_lower c =? ascii_lower x) && like p s
           end
  end.

(** [&s[n..]], a panic when [n] is no boundary of characters *)
Definition slice_from (n : nat) (s : list Z) : option (list Z) :=
  match drop n s with
  | [] => if (length s =? n)%nat then Some [] else None
  | c :: r => if is_continuation c then None else Some (c :: r)
  end.

(** [SELECT name FROM sqlar WHERE name=old OR name LIKE 'old/%'] *)
Definition reparent_matches (old name : text) : bool :=
  text_eqb name old || like (old ++ [SLASH; PERCENT]) name.

Definition reparent_name (old new name : text) : option (list Z) :=
  if text_eqb name old then Some new
  else (λ tail, new ++ SLASH :: tail) <$> slice_from (S (length old)) name.

Definition reparent_row (s : Store) (name nn : text) : Store :=
  let s := remove_blob s (stale_rowid s nn) in
  let s := archive_delete s nn in
  let s := move_node_metadata s name nn in
  set_sqlar s (move_key name nn (sqlar s)).

Definition reparent_mirror (m : LayerMirror) (name nn : text) : LayerMirror :=
  match mirror_get m name with
  | Some e => (mirror_insert (mirror_remove m name).1 nn e).1
  | None => m
  end.

(** [reparent], with the names in the order the statement returns them: the
    rows, then the metadata mirrors, then the mirror *)
Definition reparent_with (names : list (list Z)) (s : Store) (old new : text) : option Store :=
  moves ← mapM (λ name, pair name <$> reparent_name old new name) names;
  let s := foldl (λ s '(name, nn), reparent_row s name nn) s moves in
  let s := foldl (λ s '(name, nn), move_metadata_mirrors s name nn) s moves in
  Some (set_mirror s (foldl (λ m '(name, nn), reparent_mirror m name nn) (mirror s) moves)).

Definition reparent (s : Store) (old new : text) : option Store :=
  reparent_with (filter (λ name, reparent_matches old name = true) (map_to_list (sqlar s)).*1) s old new.
