(* ===== verification/BoxStoreLaws.v ===== *)
(** * The mirror of a box is what a reload of its rows gives *)

From stdpp Require Import strings gmap.
From S2P Require Import Prelude.
From S2P Require Import Glob.
From S2P Require Import Rules.
From S2P Require Import GitLayer.
From S2P Require Import LayerMirror.
From S2P Require Import BoxStore.
Open Scope Z_scope.

(** What of an entry the rows keep: not the time of a directory, and not the
    device number *)
Definition norm (e : Entry) : Entry :=
  match e with
  | EDir m _ o b => EDir m 0 o b
  | ESpecial m _ => ESpecial m 0
  | e => e
  end.

Record coherent (s : Store) : Prop := {
  co_entries : ∀ rel, norm <$> box_entry s rel = entry_from_row <$> sqlar s !! rel;
  co_atimes : atimes s = atime_rows s;
  co_owners : owners s = ownership s;
  co_mirror : mirror_ok (mirror s) }.

(** The entries and rows of two stores *)
Definition same_maps (s : Store) (t : gmap (list Z) Row) (m : gmap (list Z) Entry) : Prop :=
  ∀ rel, norm <$> m !! rel = entry_from_row <$> t !! rel.

Lemma norm_row r : norm (entry_from_row r) = entry_from_row r.
Proof. unfold entry_from_row. repeat case_match; done. Qed.

Lemma coherent_new : coherent store_new.
Proof. split; [done | done | done | apply mirror_new_ok]. Qed.

Lemma coherent_insert s t m rel r e :
  coherent s → rel_path rel → norm e = entry_from_row r →
  t = <[rel := r]> (sqlar s) → m = (mirror_insert (mirror s) rel e).1 →
  (∀ q, norm <$> entries m !! q = entry_from_row <$> t !! q) ∧ mirror_ok m.
Proof.
  intros [He _ _ Hm] Hr Hn -> ->. split; [|by apply mirror_insert_ok]. intros q. cbn.
  rewrite !lookup_insert. case_decide; [cbn; by rewrite Hn | apply He].
Qed.

Lemma upsert_spec t rel new update :
  ∃ r, upsert t rel new update = <[rel := r]> t ∧
    (match t !! rel with Some r0 => r = update r0 | None => ∃ id, r = new id end).
Proof. unfold upsert. destruct (t !! rel) as [r0|]; eexists; split; [done | done | done | eauto]. Qed.

(** ** Operations of one name *)

(** Replacing the row and the entry of [rel], and clearing or keeping its
    metadata in both places *)
Lemma coherent_replace s s' rel r e :
  coherent s → rel_path rel → norm e = entry_from_row r →
  sqlar s' = <[rel := r]> (sqlar s) → mirror s' = (mirror_insert (mirror s) rel e).1 →
  atimes s' = atime_rows s' → owners s' = ownership s' → coherent s'.
Proof.
  intros Hc Hr Hn Hs Hm Ha Ho.
  destruct (coherent_insert s _ _ rel r e Hc Hr Hn Hs Hm) as [H1 H2]. by split.
Qed.

(** The entry of a row, by the type in its mode *)
Lemma entry_of_type r :
  mode r ≠ S_IFCHR →
  entry_from_row r =
    if file_type (mode r) =? FT_LNK then ESymlink (GitLayer.from_utf8_lossy (default [] (data r)))
    else if file_type (mode r) =? FT_DIR then EDir (mode r) 0 (Z.testbit (opaque r) 0) (Z.testbit (opaque r) 1)
    else if (file_type (mode r) =? FT_FIFO) || (file_type (mode r) =? FT_BLK) then ESpecial (mode r) 0
    else EFile (rowid r) (mode r).
Proof. intros Hm. unfold entry_from_row. by rewrite (proj2 (Z.eqb_neq _ _) Hm). Qed.

Lemma not_chr m t : file_type m = t → t ≠ FT_CHR → m ≠ S_IFCHR.
Proof. intros <- Ht ->. by apply Ht. Qed.

Lemma entry_reg r : file_type (mode r) = FT_REG → entry_from_row r = EFile (rowid r) (mode r).
Proof. intros H. rewrite entry_of_type by (by apply (not_chr _ _ H)). by rewrite H. Qed.
Lemma entry_dir r :
  file_type (mode r) = FT_DIR → entry_from_row r = EDir (mode r) 0 (Z.testbit (opaque r) 0) (Z.testbit (opaque r) 1).
Proof. intros H. rewrite entry_of_type by (by apply (not_chr _ _ H)). by rewrite H. Qed.
Lemma entry_special r :
  file_type (mode r) = FT_FIFO ∨ file_type (mode r) = FT_BLK → entry_from_row r = ESpecial (mode r) 0.
Proof.
  intros [H|H]; rewrite entry_of_type by (by apply (not_chr _ _ H)); by rewrite H.
Qed.

Lemma ensure_coherent s now rel m w :
  coherent s → rel_path rel → file_type m = FT_REG → coherent (ensure_file_row s now rel m w).1.
Proof.
  intros Hc Hr Hm. unfold ensure_file_row. destruct (box_entry s rel) as [[ri mo|mo ti op rb|ta|mo rd| |]|] eqn:Ee; try done.
  all: cbn zeta.
  all: match goal with |- context [upsert ?t ?n ?new ?upd] =>
    destruct (upsert_spec t n new upd) as (r & -> & Hrow) end.
  all: assert (mode r = m) as Hmode by (destruct (_ !! rel); [by subst | by destruct Hrow as [? ->]]).
  all: eapply (coherent_replace s _ rel r (EFile (rowid r) m)); [done | done | | reflexivity | | | ].
  all: try (by rewrite entry_reg; rewrite Hmode).
  all: cbn; rewrite ?lookup_insert_eq; cbn; try done.
  all: by rewrite ?(co_atimes s Hc), ?(co_owners s Hc).
Qed.

(** Metadata mirrors that are their tables *)
Ltac mirrors Hc := cbn; by rewrite ?(co_atimes _ Hc), ?(co_owners _ Hc).

(** The row an upsert leaves *)
Ltac upserted r Hrow :=
  match goal with |- context [upsert ?t ?n ?new ?upd] =>
    destruct (upsert_spec t n new upd) as (r & -> & Hrow) end; cbn in Hrow.

Lemma symlink_coherent s now rel target w :
  coherent s → rel_path rel → GitLayer.from_utf8_lossy target = target → coherent (set_symlink s now rel target w).
Proof.
  intros Hc Hr Ht. unfold set_symlink. cbn zeta. upserted r Hrow.
  assert (mode r = 41471 ∧ data r = Some target) as [Hm Hd] by (destruct (_ !! rel); [by subst | by destruct Hrow as [? ->]]).
  assert (norm (ESymlink target) = entry_from_row r) as Hn.
  { rewrite entry_of_type by (by rewrite Hm). rewrite Hm, Hd. replace (file_type 41471 =? FT_LNK) with true by done. cbn [norm from_option id]. by rewrite Ht. }
  unfold remove_blob. destruct (stale_rowid s rel);
    (eapply (coherent_replace s _ rel r (ESymlink target)); [done | done | done | reflexivity | reflexivity | mirrors Hc | mirrors Hc]).
Qed.

Lemma whiteout_coherent s rel w :
  coherent s → rel_path rel → (∀ r, sqlar s !! rel = Some r → Z.testbit (opaque r) 1 = false) →
  coherent (set_whiteout s rel w).
Proof.
  intros Hc Hr Ho. unfold set_whiteout. cbn zeta. upserted r Hrow.
  assert (mode r = S_IFCHR ∧ Z.testbit (opaque r) 1 = false) as [Hm Hb].
  { destruct (sqlar s !! rel) as [r0|] eqn:E0; [subst r; split; [done | by apply (Ho r0)] | by destruct Hrow as [? ->]]. }
  assert (norm EWhiteout = entry_from_row r) as Hn by (unfold entry_from_row; by rewrite Hm, Hb).
  unfold remove_blob. destruct (stale_rowid s rel);
    (eapply (coherent_replace s _ rel r EWhiteout); [done | done | done | reflexivity | reflexivity | mirrors Hc | mirrors Hc]).
Qed.

Lemma special_coherent s now rel m rdev w :
  coherent s → rel_path rel → file_type m = FT_FIFO ∨ file_type m = FT_BLK → coherent (set_special s now rel m rdev w).
Proof.
  intros Hc Hr Hm. unfold set_special. cbn zeta. upserted r Hrow.
  assert (mode r = m) as Hmode by (destruct (_ !! rel); [by subst | by destruct Hrow as [? ->]]).
  assert (norm (ESpecial m rdev) = entry_from_row r) as Hn by (rewrite entry_special; by rewrite Hmode).
  destruct (rdev =? 0); (eapply (coherent_replace s _ rel r (ESpecial m rdev)); [done | done | done | reflexivity | reflexivity | mirrors Hc | mirrors Hc]).
Qed.

(** The flags a directory's row has, when the mirror has a directory *)
Lemma dir_row s rel m t o b :
  coherent s → box_entry s rel = Some (EDir m t o b) →
  ∃ r, sqlar s !! rel = Some r ∧ file_type (mode r) = FT_DIR ∧ mode r = m ∧
    Z.testbit (opaque r) 0 = o ∧ Z.testbit (opaque r) 1 = b.
Proof.
  intros Hc He. pose proof (co_entries s Hc rel) as H. rewrite He in H. cbn in H.
  destruct (sqlar s !! rel) as [r|]; cbn in H; [|done]. injection H as H. exists r. split; [done|].
  unfold entry_from_row in H. destruct (mode r =? S_IFCHR); [by case_match|].
  destruct (file_type (mode r) =? FT_LNK); [done|].
  destruct (Z.eqb_spec (file_type (mode r)) FT_DIR) as [Ed|]; [by simplify_eq|]. by case_match.
Qed.

Lemma box_entry_sqlar s t rel : box_entry (set_sqlar s t) rel = box_entry s rel.
Proof. done. Qed.

Lemma dir_coherent s now rel m w :
  coherent s → rel_path rel → file_type (Z.lor m FT_DIR) = FT_DIR →
  ((∃ m' t o b, box_entry s rel = Some (EDir m' t o b)) ∨ (∀ r, sqlar s !! rel = Some r → opaque r = 0)) →
  coherent (set_dir s now rel m w).
Proof.
  intros Hc Hr Hm Hcase. unfold set_dir. cbn zeta. upserted r Hrow. rewrite box_entry_sqlar.
  assert (mode r = Z.lor m FT_DIR) as Hmode by (destruct (_ !! rel); [by subst | by destruct Hrow as [? ->]]).
  assert (∀ o b, Z.testbit (opaque r) 0 = o → Z.testbit (opaque r) 1 = b →
    coherent (set_mirror (set_sqlar s (<[rel := r]> (sqlar s)))
      (mirror_insert (mirror s) rel (EDir (Z.lor m FT_DIR) now o b)).1)) as Hgo.
  { intros o b H0 H1. eapply (coherent_replace s _ rel r (EDir (Z.lor m FT_DIR) now o b));
      [done | done | | reflexivity | reflexivity | mirrors Hc | mirrors Hc].
    rewrite entry_dir by (by rewrite Hmode). by rewrite Hmode, H0, H1. }
  destruct (box_entry s rel) as [[ri mo|mo ti op rb|ta|mo rd| |]|] eqn:Ee.
  2: { destruct (dir_row _ _ _ _ _ _ Hc Ee) as (r0 & E0 & _ & _ & B0 & B1). rewrite E0 in Hrow. subst r. by apply Hgo. }
  all: destruct Hcase as [(? & ? & ? & ? & ?)|Hop]; [done|].
  all: assert (opaque r = 0) as Hz by (destruct (sqlar s !! rel) as [r0|] eqn:E0; [subst; by apply (Hop r0) | by destruct Hrow as [? ->]]).
  all: apply Hgo; by rewrite Hz.
Qed.

Lemma opaque_coherent s now rel w :
  coherent s → rel_path rel →
  (box_entry s rel = None ∨ ∃ m t o, box_entry s rel = Some (EDir m t o false)) →
  coherent (set_opaque s now rel w).
Proof.
  intros Hc Hr Hcase. unfold set_opaque. cbn zeta. upserted r Hrow. rewrite box_entry_sqlar.
  destruct Hcase as [He|(m & t & o & He)]; rewrite He.
  - assert (sqlar s !! rel = None) as E0.
    { pose proof (co_entries s Hc rel) as H. rewrite He in H. by destruct (sqlar s !! rel). }
    rewrite E0 in Hrow. destruct Hrow as [id ->].
    eapply (coherent_replace s _ rel _ (EDir 16877 now true false)); [done | done | | reflexivity | reflexivity | mirrors Hc | mirrors Hc].
    by rewrite entry_dir.
  - destruct (dir_row _ _ _ _ _ _ Hc He) as (r0 & E0 & Hft & <- & B0 & B1). rewrite E0 in Hrow. subst r.
    eapply (coherent_replace s _ rel _ (EDir (mode r0) t true false)); [done | done | | reflexivity | reflexivity | mirrors Hc | mirrors Hc].
    by rewrite entry_dir.
Qed.

(** Changing columns the entry does not come from *)
Lemma coherent_columns s f g rel :
  coherent s →
  (∀ r e, sqlar s !! rel = Some r → box_entry s rel = Some e → norm e = entry_from_row r →
     norm (g e) = entry_from_row (f r)) →
  (∀ e, child_state (g e) = child_state e) →
  coherent (set_mirror (set_sqlar s (alter f rel (sqlar s))) (mirror_alter g (mirror s) rel)).
Proof.
  intros Hc Hfg Hg. destruct Hc as [He Ha Ho Hm]. split; [|done|done|by apply mirror_alter_ok].
  intros q. unfold box_entry, mirror_get. cbn. destruct (decide (rel = q)) as [<-|Hne].
  - rewrite !lookup_alter_eq. pose proof (He rel) as Hq. unfold box_entry, mirror_get in Hq.
    destruct (entries (mirror s) !! rel) as [e|] eqn:Ee, (sqlar s !! rel) as [r|] eqn:Er; cbn in *; try done.
    f_equal. apply (Hfg r e); [done | done | by injection Hq].
  - rewrite !lookup_alter_ne by done. apply He.
Qed.

Lemma mirror_alter_id m rel : mirror_alter id m rel = m.
Proof. unfold mirror_alter. destruct m as [e c]. cbn. f_equal. by rewrite alter_id. Qed.

Lemma rows_coherent s f rel :
  coherent s → (∀ r, sqlar s !! rel = Some r → entry_from_row (f r) = entry_from_row r) →
  coherent (set_sqlar s (alter f rel (sqlar s))).
Proof.
  intros Hc Hf. pose proof (coherent_columns s f id rel Hc) as H. rewrite mirror_alter_id in H.
  apply H; [|done]. intros r e Hr He Hn. cbn. by rewrite (Hf r Hr).
Qed.

(** [chmod] of a file or a directory that keeps its type *)
Definition mode_fits (e : option Entry) (m : Z) : Prop :=
  match e with
  | Some (EFile _ _) => file_type m = FT_REG
  | Some (EDir _ _ _ _) => file_type m = FT_DIR
  | Some _ => False
  | None => True
  end.

Lemma entry_file_type r id m : entry_from_row r = EFile id m → rowid r = id ∧ mode r = m.
Proof. unfold entry_from_row. repeat case_match; intros; simplify_eq; done. Qed.

Lemma mode_coherent s rel m : coherent s → mode_fits (box_entry s rel) m → coherent (set_mode s rel m).
Proof.
  intros Hc Hfit. unfold set_mode. cbn zeta. apply (coherent_columns s); [done | | by intros []].
  intros r e Hr He Hn. rewrite He in Hfit. destruct e as [ri mo|mo ti op rb|ta|mo rd| |]; cbn in *; try done.
  - symmetry in Hn. apply entry_file_type in Hn as [<- _]. by rewrite entry_reg.
  - destruct (dir_row _ _ _ _ _ _ Hc He) as (r0 & E0 & _ & _ & <- & <-). rewrite Hr in E0. injection E0 as <-.
    by rewrite entry_dir.
Qed.

Lemma mtime_coherent s rel t : coherent s → coherent (set_mtime s rel t).
Proof.
  intros Hc. unfold set_mtime. cbn zeta. apply (coherent_columns s); [done | | by intros []].
  intros r e Hr He Hn. change (entry_from_row (row_mtime t r)) with (entry_from_row r). rewrite <- Hn. by destruct e.
Qed.

Lemma finalize_coherent s rel z t w : coherent s → coherent (finalize_file s rel z t w).
Proof. intros Hc. unfold finalize_file. by apply rows_coherent. Qed.

Lemma reload_coherent s rel :
  rel_path rel → mirror_ok (mirror s) →
  (∀ q, q ≠ rel → norm <$> box_entry s q = entry_from_row <$> sqlar s !! q) →
  delete rel (atimes s) = delete rel (atime_rows s) → delete rel (owners s) = delete rel (ownership s) →
  coherent (reload_entry s rel).
Proof.
  intros Hr Hm He Ha Ho.
  assert (∀ {A} (t u : gmap (list Z) A), delete rel t = delete rel u →
    match u !! rel with Some v => <[rel := v]> t | None => delete rel t end = u) as Hmap.
  { intros A t u Htu. apply map_eq. intros q. apply (f_equal (lookup q)) in Htu.
    destruct (u !! rel) as [v|] eqn:E; destruct (decide (q = rel)) as [->|Hne];
      rewrite ?lookup_insert_eq, ?lookup_delete_eq, ?lookup_insert_ne, ?lookup_delete_ne in * by done; done. }
  split; cbn; [| by apply Hmap | by apply Hmap |].
  - intros q. unfold box_entry, mirror_get. cbn. destruct (decide (rel = q)) as [<-|Hne].
    + destruct (sqlar s !! rel) as [r|]; cbn; [rewrite lookup_insert_eq; cbn; by rewrite norm_row | by rewrite lookup_delete_eq].
    + destruct (sqlar s !! rel) as [r|]; cbn; rewrite ?lookup_insert_ne, ?lookup_delete_ne by done; by apply He.
  - destruct (sqlar s !! rel); [by apply mirror_insert_ok | by apply mirror_remove_ok].
Qed.

Lemma outline_coherent s rel : coherent s → rel_path rel → coherent (outline_inline_row s rel).1.
Proof.
  intros Hc Hr. unfold outline_inline_row, archive_node. destruct (sqlar s !! rel) as [n|] eqn:En; [|done].
  cbn [fmap option_fmap option_map an_mode an_data an_rowid]. destruct (negb (file_type (mode n) =? FT_REG)); [done|]. destruct (data n) as [d|]; [|done]. cbn zeta.
  apply reload_coherent; [done | apply Hc | | cbn; by rewrite (co_atimes s Hc) | cbn; by rewrite (co_owners s Hc)].
  intros q Hq. cbn. rewrite lookup_alter_ne by done. apply (co_entries s Hc).
Qed.

Lemma drop_coherent s rel : coherent s → rel_path rel → coherent (drop_row s rel).
Proof.
  intros Hc Hr. unfold drop_row. cbn zeta. unfold remove_blob.
  assert (coherent (clear_metadata_mirrors (archive_delete (clear_node_metadata
    (set_mirror s (mirror_remove (mirror s) rel).1) rel) rel) rel)) as H.
  { split; [| mirrors Hc | mirrors Hc | by apply mirror_remove_ok; [|apply Hc]].
    intros q. unfold box_entry, mirror_get. cbn. destruct (decide (rel = q)) as [<-|Hne].
    - by rewrite !lookup_delete_eq.
    - rewrite !lookup_delete_ne by done. apply (co_entries s Hc). }
  destruct (stale_rowid s rel); [|done]. by destruct H.
Qed.

Lemma delete_coherent s rel w : coherent s → rel_path rel → coherent (capture_delete s rel w).
Proof.
  intros Hc Hr. unfold capture_delete. apply whiteout_coherent; [by apply drop_coherent | done|].
  intros r. unfold drop_row. cbn zeta. unfold remove_blob.
  destruct (stale_rowid s rel); cbn; by rewrite lookup_delete_eq.
Qed.

Lemma rename_coherent s old new :
  coherent s → rel_path old → rel_path new → old ≠ new → coherent (rename_row s old new).
Proof.
  intros Hc Ho Hn Hne. unfold rename_row. destruct (box_entry s old) as [e|] eqn:Ee; [|done]. cbn zeta.
  pose proof (co_entries s Hc old) as Hold. rewrite Ee in Hold.
  destruct (sqlar s !! old) as [r|] eqn:Er; [|done]. cbn in Hold. injection Hold as Hold.
  assert (move_key old new (delete new (sqlar s)) = <[new := r]> (delete old (delete new (sqlar s)))) as Hmv
    by (unfold move_key; by rewrite lookup_delete_ne, Er by done).
  assert (∀ p, coherent (set_mirror
    (MkStore (<[new := r]> (delete old (delete new (sqlar s))))
      (move_key old new (delete new (ownership s))) (move_key old new (delete new (rdevs s)))
      (kmap (λ k, if text_eqb k.1 old then (new, k.2) else k) (filter (λ kv, kv.1.1 ≠ new) (xattrs s)))
      (move_key old new (delete new (atime_rows s))) p (mirror s)
      (move_key old new (delete new (atimes s))) (move_key old new (delete new (owners s))))
    (mirror_insert (mirror_remove (mirror s) old).1 new e).1)) as H.
  { intros p. split; [| mirrors Hc | mirrors Hc | by apply mirror_insert_ok; [|apply mirror_remove_ok; [|apply Hc]]].
    intros q. unfold box_entry, mirror_get. cbn. rewrite !lookup_insert. case_decide; [cbn; by rewrite Hold|].
    rewrite !lookup_delete. case_decide; [done|]. rewrite decide_False by done. apply (co_entries s Hc). }
  cbn [sqlar move_node_metadata archive_delete set_sqlar clear_node_metadata]. rewrite Hmv.
  destruct (stale_rowid s new); apply H.
Qed.

(** ** [reparent] *)

(** One row of the loop: the destination goes, the source takes its name. *)
Definition move_over {A} (t : gmap (list Z) A) (mv : list Z * list Z) : gmap (list Z) A :=
  move_key mv.1 mv.2 (delete mv.2 t).

Lemma move_over_some {A} (t : gmap (list Z) A) n nn v :
  n ≠ nn → t !! n = Some v → move_over t (n, nn) = <[nn := v]> (delete n t).
Proof.
  intros Hne Hn. unfold move_over, move_key. cbn. rewrite lookup_delete_ne, Hn by done.
  rewrite delete_delete. apply map_eq. intros q.
  rewrite !lookup_insert. case_decide; [done|]. rewrite !lookup_delete. by repeat case_decide.
Qed.

Lemma remove_blob_rest s id :
  ∃ p, remove_blob s id = set_pool s p.
Proof. destruct id; [by eexists | exists (pool s); by destruct s]. Qed.

Lemma reparent_rows_fields moves s :
  let s' := foldl (λ s '(name, nn), reparent_row s name nn) s moves in
  sqlar s' = foldl move_over (sqlar s) moves ∧ ownership s' = foldl move_over (ownership s) moves ∧
  atime_rows s' = foldl move_over (atime_rows s) moves ∧
  mirror s' = mirror s ∧ atimes s' = atimes s ∧ owners s' = owners s.
Proof.
  cbn zeta. revert s. induction moves as [|[n nn] moves IH]; intros s; [done|]. cbn [foldl].
  destruct (IH (reparent_row s n nn)) as (-> & -> & -> & -> & -> & ->). unfold reparent_row.
  destruct (remove_blob_rest s (stale_rowid s nn)) as [p ->]. done.
Qed.

Lemma reparent_metadata_fields moves s :
  let s' := foldl (λ s '(name, nn), move_metadata_mirrors s name nn) s moves in
  sqlar s' = sqlar s ∧ ownership s' = ownership s ∧ atime_rows s' = atime_rows s ∧ mirror s' = mirror s ∧
  atimes s' = foldl move_over (atimes s) moves ∧ owners s' = foldl move_over (owners s) moves.
Proof.
  cbn zeta. revert s. induction moves as [|[n nn] moves IH]; intros s; [done|]. cbn [foldl].
  destruct (IH (move_metadata_mirrors s n nn)) as (-> & -> & -> & -> & -> & ->). done.
Qed.

(** The moves of a list of names with the mirror doing the same *)
Lemma moves_agree (moves : list (list Z * list Z)) (t : gmap (list Z) Row) (m : LayerMirror) :
  NoDup moves.*1 → Forall (λ mv, mv.1 ≠ mv.2 ∧ rel_path mv.1 ∧ rel_path mv.2) moves →
  (∀ n, n ∈ moves.*1 → is_Some (t !! n)) → mirror_ok m →
  (∀ q, norm <$> entries m !! q = entry_from_row <$> t !! q) →
  let m' := foldl (λ m '(name, nn), reparent_mirror m name nn) m moves in
  mirror_ok m' ∧ ∀ q, norm <$> entries m' !! q = entry_from_row <$> foldl move_over t moves !! q.
Proof.
  cbn zeta. revert t m. induction moves as [|[n nn] moves IH]; intros t m Hnd Hall Hdom Hm He; [done|].
  cbn [fmap list_fmap fst] in *. apply NoDup_cons in Hnd as [Hnot Hnd]. apply Forall_cons in Hall as [(Hne & Hrn & Hrnn) Hall].
  cbn [fst snd] in Hne, Hrn, Hrnn. destruct (Hdom n ltac:(by left)) as [r Hr]. cbn [foldl].
  rewrite (move_over_some t n nn r) by done. pose proof (He n) as Hen. rewrite Hr in Hen. unfold reparent_mirror at 2 4.
  unfold mirror_get. destruct (entries m !! n) as [e|] eqn:Ee; [|done]. cbn in Hen. injection Hen as Hen.
  apply IH; [done | done | | by apply mirror_insert_ok; [|apply mirror_remove_ok] |].
  - intros n' Hn'. apply lookup_insert_is_Some. destruct (decide (nn = n')) as [|Hd]; [by left|]. right. split; [done|].
    apply lookup_delete_is_Some. split; [by intros -> | apply Hdom; by right].
  - intros q. cbn. rewrite !lookup_insert. case_decide; [cbn; by rewrite Hen|]. rewrite !lookup_delete. case_decide; [done | apply He].
Qed.

(** Whatever order the names come in *)
Definition matched (s : Store) (old : text) (names : list (list Z)) : Prop :=
  NoDup names ∧ ∀ n, n ∈ names ↔ is_Some (sqlar s !! n) ∧ reparent_matches old n = true.

Lemma mapM_moves old new names (moves : list (list Z * list Z)) :
  mapM (λ name, pair name <$> reparent_name old new name) names = Some moves →
  moves.*1 = names ∧ Forall (λ mv, reparent_name old new mv.1 = Some mv.2) moves.
Proof.
  rewrite mapM_Some. induction 1 as [|n [n' nn] names moves H _ [IH1 IH2]]; [done|].
  destruct (reparent_name old new n) as [x|] eqn:E; cbn in H; [|done]. injection H as <- <-.
  split; [cbn; by rewrite IH1 | by constructor].
Qed.

Lemma reparent_coherent names s s' old new :
  coherent s → matched s old names → reparent_with names s old new = Some s' →
  (∀ n nn, n ∈ names → reparent_name old new n = Some nn → n ≠ nn ∧ rel_path nn) →
  coherent s'.
Proof.
  intros Hc [Hnd Hmat] Hrun Hdiff. unfold reparent_with in Hrun.
  apply bind_Some in Hrun as (moves & Hmv & [= <-]). apply mapM_moves in Hmv as [Hnames Hall]. subst names.
  pose proof (reparent_rows_fields moves s) as (A1 & A2 & A3 & A4 & A5 & A6). cbn zeta in *.
  pose proof (reparent_metadata_fields moves (foldl (λ s '(name, nn), reparent_row s name nn) s moves))
    as (B1 & B2 & B3 & B4 & B5 & B6). cbn zeta in *.
  destruct (moves_agree moves (sqlar s) (mirror s)) as [M1 M2].
  - done.
  - apply Forall_forall. intros [n nn] Hin. rewrite Forall_forall in Hall. specialize (Hall _ Hin). cbn in *.
    assert (n ∈ moves.*1) as Hn by (apply list_elem_of_fmap; by exists (n, nn)).
    destruct (Hdiff n nn Hn Hall) as [? ?]. split_and!; [done | | done].
    apply Hmat in Hn as [[r Hr] _]. pose proof (co_entries s Hc n) as He. rewrite Hr in He.
    destruct (box_entry s n) eqn:Ee; [|done]. apply (mo_rel _ (co_mirror s Hc)). by eexists.
  - intros n Hn. by apply Hmat.
  - apply Hc.
  - apply (co_entries s Hc).
  - split; cbn.
    + intros q. unfold box_entry, mirror_get. cbn. rewrite B1, A1, B4, A4. apply M2.
    + by rewrite B5, A5, B3, A3, (co_atimes s Hc).
    + by rewrite B6, A6, B2, A2, (co_owners s Hc).
    + by rewrite B4, A4.
Qed.

(** ** What the row moves do when only the subtree is matched *)

Definition under (d q : text) (tail : text) : Prop := q = d ++ tail ∧ (tail = [] ∨ head tail = Some SLASH).

Lemma reparent_name_under old new n tail :
  under old n tail → (∀ c, tail !! 1%nat = Some c → is_continuation c = false) → reparent_name old new n = Some (new ++ tail).
Proof.
  intros [-> Ht] Hb. unfold reparent_name, text_eqb. destruct Ht as [->|Ht].
  - rewrite !app_nil_r. by rewrite bool_decide_eq_true_2.
  - destruct tail as [|c tail]; [done|]. cbn in Ht. injection Ht as ->.
    rewrite bool_decide_eq_false_2 by (intros E; apply (f_equal length) in E; rewrite length_app in E; cbn in E; lia).
    unfold slice_from. replace (drop (S (length old)) (old ++ SLASH :: tail)) with tail.
    + destruct tail as [|x tail]; cbn.
      * rewrite length_app. cbn. rewrite Nat.add_1_r, Nat.eqb_refl. done.
      * rewrite (Hb x) by done. done.
    + rewrite drop_app_ge by lia. by replace (S (length old) - length old)%nat with 1%nat by lia.
Qed.

Lemma moves_exact {A} (moves : list (list Z * list Z)) (t : gmap (list Z) A) :
  NoDup moves.*1 → NoDup moves.*2 → (∀ x, x ∈ moves.*1 → x ∉ moves.*2) →
  (∀ n, n ∈ moves.*1 → is_Some (t !! n)) → (∀ n, n ∈ moves.*2 → t !! n = None) →
  (∀ mv, mv ∈ moves → foldl move_over t moves !! mv.2 = t !! mv.1) ∧
  (∀ q, q ∈ moves.*1 → foldl move_over t moves !! q = None) ∧
  (∀ q, q ∉ moves.*1 → q ∉ moves.*2 → foldl move_over t moves !! q = t !! q).
Proof.
  revert t. induction moves as [|[n nn] moves IH]; intros t Hs Ht Hd Hin Hout; [set_solver|].
  cbn [fmap list_fmap fst snd] in *. apply NoDup_cons in Hs as [Hs1 Hs2], Ht as [Ht1 Ht2].
  assert (n ≠ nn) as Hne by (intros ->; apply (Hd nn); by left).
  destruct (Hin n ltac:(by left)) as [v Hv]. cbn [foldl]. rewrite (move_over_some t n nn v) by done.
  set (t' := <[nn := v]> (delete n t)).
  assert (∀ q, q ≠ n → q ≠ nn → t' !! q = t !! q) as Hsame.
  { intros q ? ?. unfold t'. by rewrite lookup_insert_ne, lookup_delete_ne. }
  destruct (IH t') as (I1 & I2 & I3); [done | done | intros x Hx Hx2; apply (Hd x); by right | | |].
  - intros x Hx. unfold t'. apply lookup_insert_is_Some. right. split; [intros ->; apply (Hd x); [by right | by left]|].
    rewrite lookup_delete_ne by (by intros ->). apply Hin. by right.
  - intros x Hx. rewrite Hsame; [apply Hout; by right | intros ->; apply (Hd n); [by left | by right] | by intros ->].
  - split_and!.
    + intros mv [->|Hmv]%elem_of_cons; cbn.
      * rewrite I3; [unfold t'; by rewrite lookup_insert_eq | intros H; apply (Hd nn); [by right | by left] | done].
      * assert (mv.1 ∈ moves.*1 ∧ mv.2 ∈ moves.*2) as [H1 H2] by (split; apply list_elem_of_fmap; by exists mv).
        rewrite I1 by done. apply Hsame; [by intros E; rewrite E in H1 | intros E; rewrite E in H1; apply (Hd nn); [by right | by left]].
    + intros q [->|Hq]%elem_of_cons; [|by apply I2].
      rewrite I3; [unfold t'; by rewrite lookup_insert_ne, lookup_delete_eq | done | intros H; apply (Hd n); [by left | by right]].
    + intros q [? ?]%not_elem_of_cons [? ?]%not_elem_of_cons. rewrite I3 by done. by apply Hsame.
Qed.

Lemma mapM_total {A B} (f : A → option B) l : (∀ x, x ∈ l → is_Some (f x)) → ∃ k, mapM f l = Some k.
Proof.
  intros H. apply mapM_is_Some. apply Forall_forall. exact H.
Qed.

(** Renaming a directory moves exactly its subtree, where the pattern of the
    statement matches nothing else: every row at or below the old name is at the
    same place below the new name, none is left below the old one, and every
    other row stays.  The destination is free and neither name is above the
    other. *)
Theorem reparent_moves_subtree (names : list (list Z)) (s : Store) (old new : list Z) :
  matched s old names →
  (∀ n, is_Some (sqlar s !! n) → reparent_matches old n = true ↔ ∃ tail, under old n tail) →
  (∀ tail c, is_Some (sqlar s !! (old ++ tail)) → tail !! 1%nat = Some c → is_continuation c = false) →
  (∀ tail, tail = [] ∨ head tail = Some SLASH → sqlar s !! (new ++ tail) = None) →
  (∀ t1 t2, t1 = [] ∨ head t1 = Some SLASH → old ++ t1 ≠ new ++ t2) →
  ∃ s', reparent_with names s old new = Some s' ∧
    (∀ tail, tail = [] ∨ head tail = Some SLASH → sqlar s' !! (new ++ tail) = sqlar s !! (old ++ tail)) ∧
    (∀ tail, tail = [] ∨ head tail = Some SLASH → sqlar s' !! (old ++ tail) = None) ∧
    (∀ q, (∀ tail, ¬ under old q tail) → (∀ tail, ¬ under new q tail) → sqlar s' !! q = sqlar s !! q).
Proof.
  intros [Hnd Hmat] Hplain Hbound Hfree Hapart.
  assert (∀ n, n ∈ names → ∃ tail, under old n tail ∧ reparent_name old new n = Some (new ++ tail)) as Hname.
  { intros n [Hr Hm]%Hmat. apply (Hplain n Hr) in Hm as [tail Hu]. exists tail. split; [done|].
    apply (reparent_name_under old new n tail Hu). intros c Hc. apply (Hbound tail c); [|done]. by destruct Hu as [<- _]. }
  unfold reparent_with. destruct (mapM_total (λ name, pair name <$> reparent_name old new name) names) as [moves Hmv].
  { intros n Hn. destruct (Hname n Hn) as (tail & _ & ->). by eexists. }
  rewrite Hmv. cbn [mbind option_bind]. eexists. split; [done|]. apply mapM_moves in Hmv as [Hn1 Hall]. subst names.
  rewrite Forall_forall in Hall.
  assert (∀ mv, mv ∈ moves → ∃ tail, under old mv.1 tail ∧ mv.2 = new ++ tail) as Hmoves.
  { intros mv Hin. destruct (Hname mv.1) as (tail & Hu & Hn); [apply list_elem_of_fmap; by exists mv|].
    exists tail. split; [done|]. specialize (Hall mv Hin). congruence. }
  pose proof (reparent_rows_fields moves s) as (A1 & _). cbn zeta in A1.
  pose proof (reparent_metadata_fields moves (foldl (λ s '(name, nn), reparent_row s name nn) s moves)) as (B1 & _). cbn zeta in B1.
  cbn [sqlar set_mirror]. rewrite B1, A1.
  assert (∀ x, x ∈ moves.*2 → ∃ tail, under new x tail) as Htgt.
  { intros x (mv & -> & Hin)%list_elem_of_fmap. destruct (Hmoves mv Hin) as (tail & [_ Ht] & ->). by exists tail. }
  destruct (moves_exact moves (sqlar s)) as (M1 & M2 & M3).
  - done.
  - apply (NoDup_fmap_2_strong snd); [|by eapply NoDup_fmap_1].
    intros mv mv' Hi Hi' E. destruct (Hmoves mv Hi) as (t1 & [E1 _] & F1), (Hmoves mv' Hi') as (t2 & [E2 _] & F2).
    rewrite F1, F2 in E. apply app_inv_head in E as ->. destruct mv, mv'; cbn in *; congruence.
  - intros x (mv & -> & Hi)%list_elem_of_fmap [tail [E Ht]]%Htgt. destruct (Hmoves mv Hi) as (t1 & [E1 Ht1] & _).
    rewrite E1 in E. by apply (Hapart t1 tail).
  - intros n Hn. by apply Hmat.
  - intros n [tail [-> Ht]]%Htgt. by apply Hfree.
  - split_and!.
    + intros tail Ht. destruct (sqlar s !! (old ++ tail)) as [r|] eqn:Er.
      * assert (old ++ tail ∈ moves.*1) as Hin.
        { apply Hmat. split; [by eexists|]. apply Hplain; [by eexists|]. by exists tail. }
        apply list_elem_of_fmap in Hin as (mv & E & Hi). destruct (Hmoves mv Hi) as (t1 & [E1 _] & F1).
        rewrite <- E in E1. apply app_inv_head in E1 as <-. rewrite <- F1, (M1 mv Hi), <- E. done.
      * destruct (decide (new ++ tail ∈ moves.*2)) as [(mv & E & Hi)%list_elem_of_fmap|Hno].
        -- destruct (Hmoves mv Hi) as (t1 & [E1 _] & F1). rewrite F1 in E. apply app_inv_head in E as <-.
           rewrite <- F1, (M1 mv Hi), E1. done.
        -- rewrite M3; [by apply Hfree | | done]. intros Hin%Hmat. destruct Hin as [[r Hr] _]. by rewrite (Hfree tail Ht) in Hr.
    + intros tail Ht. destruct (decide (old ++ tail ∈ moves.*1)) as [Hin|Hno]; [by apply M2|].
      rewrite M3; [| done | intros [t2 [E _]]%Htgt; by apply (Hapart tail t2)].
      destruct (sqlar s !! (old ++ tail)) as [r|] eqn:Er; [|done]. exfalso. apply Hno. apply Hmat.
      split; [by eexists|]. apply Hplain; [by eexists|]. by exists tail.
    + intros q Ho Hn. apply M3.
      * intros (mv & -> & Hi)%list_elem_of_fmap. destruct (Hmoves mv Hi) as (t1 & Hu & _). by apply (Ho t1).
      * intros [tail Hu]%Htgt. by apply (Hn tail).
Qed.

Lemma reparent_moves_subtree_witness :
  let row := MkRow 1 16877 0 0 None 0 0 0 in
  let s := set_sqlar store_new (<[str "a" := row]> (<[str "a/f" := row]> ∅)) in
  ∃ s', reparent_with [str "a/f"; str "a"] s (str "a") (str "b") = Some s' ∧ sqlar s' !! str "b/f" = Some row.
Proof.
  cbn zeta. set (row := MkRow 1 16877 0 0 None 0 0 0). set (s := set_sqlar store_new _).
  assert (∀ n, is_Some (sqlar s !! n) → n = str "a" ∨ n = str "a/f") as Hdom.
  { intros n. cbn. rewrite !lookup_insert_is_Some, lookup_empty. intros [<-|[_ [<-|[_ []]]]]; [by left | by right | done]. }
  destruct (reparent_moves_subtree [str "a/f"; str "a"] s (str "a") (str "b")) as (s' & Hs & Hb & _).
  - split; [by compute_done|]. intros n. split.
    + rewrite !elem_of_cons, elem_of_nil. intros [->|[->|[]]]; (split; [by eexists; vm_compute | by vm_compute]).
    + intros [[->| ->]%Hdom _]; set_solver.
  - intros n [->| ->]%Hdom; (split; [intros _ | by vm_compute]).
    + exists []. by split; [|left].
    + exists (str "/f"). by split; [|right].
  - intros tail c [E|E]%Hdom Hc.
    + destruct tail; [done|]. by apply (f_equal length) in E.
    + change (str "a/f") with (str "a" ++ str "/f") in E. apply app_inv_head in E as ->. cbn in Hc. by injection Hc as <-.
  - intros tail _. destruct (sqlar s !! (str "b" ++ tail)) eqn:E; [|done].
    assert (is_Some (sqlar s !! (str "b" ++ tail))) as [H|H]%Hdom by (by eexists); done.
  - intros t1 t2 _ E. done.
  - exists s'. split; [done|]. change (str "b/f") with (str "b" ++ str "/f"). by rewrite (Hb (str "/f")) by (by right).
Defined.

(** ** Histories of a store *)

Inductive Op : Type :=
| OEnsure (now : Z) (rel : list Z) (m w : Z)
| OFinalize (rel : list Z) (z t w : Z)
| OOutline (rel : list Z)
| OMode (rel : list Z) (m : Z)
| OMtime (rel : list Z) (t : Z)
| OAtime (rel : list Z) (t : Z)
| OOwner (rel : list Z) (uid gid : Z)
| OXattr (rel key value : list Z)
| ORemoveXattr (rel key : list Z)
| OSpecial (now : Z) (rel : list Z) (m rdev w : Z)
| ODir (now : Z) (rel : list Z) (m w : Z)
| OOpaque (now : Z) (rel : list Z) (w : Z)
| OSymlink (now : Z) (rel target : list Z) (w : Z)
| OWhiteout (rel : list Z) (w : Z)
| ODelete (rel : list Z) (w : Z)
| ODrop (rel : list Z)
| ORename (old new : list Z)
| OReparent (names : list (list Z)) (old new : list Z).

Definition apply_op (s : Store) (op : Op) : option Store :=
  match op with
  | OEnsure now rel m w => Some (ensure_file_row s now rel m w).1
  | OFinalize rel z t w => Some (finalize_file s rel z t w)
  | OOutline rel => Some (outline_inline_row s rel).1
  | OMode rel m => Some (set_mode s rel m)
  | OMtime rel t => Some (set_mtime s rel t)
  | OAtime rel t => Some (set_atime s rel t)
  | OOwner rel uid gid => Some (set_owner s rel uid gid)
  | OXattr rel key value => Some (set_xattr s rel key value)
  | ORemoveXattr rel key => Some (remove_xattr s rel key).1
  | OSpecial now rel m rdev w => Some (set_special s now rel m rdev w)
  | ODir now rel m w => Some (set_dir s now rel m w)
  | OOpaque now rel w => Some (set_opaque s now rel w)
  | OSymlink now rel target w => Some (set_symlink s now rel target w)
  | OWhiteout rel w => Some (set_whiteout s rel w)
  | ODelete rel w => Some (capture_delete s rel w)
  | ODrop rel => Some (drop_row s rel)
  | ORename old new => Some (rename_row s old new)
  | OReparent names old new => reparent_with names s old new
  end.

(** The use each operation has: files get regular modes, special nodes are
    fifos and block devices, directories are made where no flags of another
    kind are left, and renames move. *)
Definition op_ok (s : Store) (op : Op) : Prop :=
  match op with
  | OEnsure _ rel m _ => rel_path rel ∧ file_type m = FT_REG
  | OMode rel m => mode_fits (box_entry s rel) m
  | OSpecial _ rel m _ _ => rel_path rel ∧ (file_type m = FT_FIFO ∨ file_type m = FT_BLK)
  | ODir _ rel m _ =>
      rel_path rel ∧ file_type (Z.lor m FT_DIR) = FT_DIR ∧
      ((∃ m' t o b, box_entry s rel = Some (EDir m' t o b)) ∨ (∀ r, sqlar s !! rel = Some r → opaque r = 0))
  | OOpaque _ rel _ =>
      rel_path rel ∧ (box_entry s rel = None ∨ ∃ m t o, box_entry s rel = Some (EDir m t o false))
  | OSymlink _ rel target _ => rel_path rel ∧ GitLayer.from_utf8_lossy target = target
  | OWhiteout rel _ => rel_path rel ∧ (∀ r, sqlar s !! rel = Some r → Z.testbit (opaque r) 1 = false)
  | OOutline rel | ODelete rel _ | ODrop rel => rel_path rel
  | ORename old new => rel_path old ∧ rel_path new ∧ old ≠ new
  | OReparent names old new =>
      matched s old names ∧ (∀ n nn, n ∈ names → reparent_name old new n = Some nn → n ≠ nn ∧ rel_path nn)
  | OFinalize _ _ _ _ | OMtime _ _ | OAtime _ _ | OOwner _ _ _ | OXattr _ _ _ | ORemoveXattr _ _ => True
  end.

Inductive history : Store → Prop :=
| history_new : history store_new
| history_op s op s' : history s → op_ok s op → apply_op s op = Some s' → history s'.

Lemma op_coherent s op s' : coherent s → op_ok s op → apply_op s op = Some s' → coherent s'.
Proof.
  intros Hc Hok Ha. destruct op; cbn in Hok, Ha; try injection Ha as <-.
  - destruct Hok. by apply ensure_coherent.
  - by apply finalize_coherent.
  - by apply outline_coherent.
  - by apply mode_coherent.
  - by apply mtime_coherent.
  - destruct Hc. split; cbn; congruence || done.
  - destruct Hc. split; cbn; congruence || done.
  - by destruct Hc.
  - by destruct Hc.
  - destruct Hok. by apply special_coherent.
  - destruct Hok as (? & ? & ?). by apply dir_coherent.
  - destruct Hok. by apply opaque_coherent.
  - destruct Hok. by apply symlink_coherent.
  - destruct Hok. by apply whiteout_coherent.
  - by apply delete_coherent.
  - by apply drop_coherent.
  - destruct Hok as (? & ? & ?). by apply rename_coherent.
  - destruct Hok. by eapply reparent_coherent.
Qed.

Lemma history_coherent s : history s → coherent s.
Proof. induction 1; [apply coherent_new | by eapply op_coherent]. Qed.

(** ** Reloading *)

Lemma load_entries (l : list (list Z * Row)) m q :
  NoDup l.*1 →
  entries (foldl (λ m '(name, r), (mirror_insert m name (entry_from_row r)).1) m l) !! q =
    match (list_to_map l : gmap (list Z) Row) !! q with Some r => Some (entry_from_row r) | None => entries m !! q end.
Proof.
  revert m. induction l as [|[n r] l IH]; intros m Hnd; [done|]. apply NoDup_cons in Hnd as [Hn Hnd].
  cbn [foldl list_to_map foldr fst snd uncurry]. rewrite (IH _ Hnd). cbn. rewrite lookup_insert.
  case_decide as E; [subst; by rewrite not_elem_of_list_to_map_1, lookup_insert_eq|].
  by rewrite lookup_insert_ne by done.
Qed.

Lemma load_mirror_ok (l : list (list Z * Row)) m :
  Forall (λ x, rel_path x.1) l → mirror_ok m →
  mirror_ok (foldl (λ m '(name, r), (mirror_insert m name (entry_from_row r)).1) m l).
Proof. intros Hl. revert m. induction Hl as [|[n r] l Hr Hl IH]; intros m Hm; [done|]. by apply IH, mirror_insert_ok. Qed.

(** C27. A restart loses nothing the rows keep: after any sequence of file,
    directory, link, deletion and rename operations within [op_ok], the mirror
    rebuilt from the rows has exactly the entries of the running one, with the
    same owners and access times (and the same directory index); only the times
    of directories and device numbers are not restored.  Within [op_ok]: files
    have the modes of regular files and [chmod] keeps the type of a file or a
    directory; special nodes are fifos and block devices and are not [chmod]ed;
    directories and deletions are not put over a hole, nor directories over any
    row with flags that is no directory; only a missing name or a directory that
    is not rebased is made opaque; targets of links are UTF-8; renames move to
    another name.  Outside it the mirror and the rows part: see
    [device_reloads_as_file], [chmod_of_fifo_unseen] and [hole_flag_survives]. *)
Theorem reload_gives_mirror s :
  history s →
  (∀ rel, box_entry (load_mirror s) rel = norm <$> box_entry s rel) ∧
  atimes (load_mirror s) = atimes s ∧ owners (load_mirror s) = owners s ∧
  ∀ rel st name, name ≠ [] → (name, st) ∈ default [] (children (mirror (load_mirror s)) !! rel) ↔
    (name, st) ∈ default [] (children (mirror s) !! rel).
Proof.
  intros Hh. pose proof (history_coherent s Hh) as [He Ha Ho Hm].
  assert (∀ rel, box_entry (load_mirror s) rel = norm <$> box_entry s rel) as Hent.
  { intros rel. unfold box_entry at 1, mirror_get. cbn. rewrite load_entries by apply NoDup_fst_map_to_list.
    rewrite list_to_map_to_list, (He rel). cbn. by destruct (sqlar s !! rel). }
  split_and!; [done | by cbn | by cbn |].
  assert (mirror_ok (mirror (load_mirror s))) as Hm'.
  { apply load_mirror_ok; [|apply mirror_new_ok]. apply Forall_forall. intros [n r] Hn%elem_of_map_to_list. cbn.
    pose proof (He n) as Hn'. rewrite Hn in Hn'. destruct (box_entry s n) eqn:E; [|done]. apply (mo_rel _ Hm). by eexists. }
  intros rel st name Hne. rewrite (mo_index _ Hm), (mo_index _ Hm'). unfold indexed.
  specialize (Hent (path_join rel name)). unfold box_entry, mirror_get in Hent. rewrite Hent.
  destruct (entries (mirror s) !! path_join rel name) as [e|]; cbn; [|naive_solver].
  assert (child_state (norm e) = child_state e) as Hst by by destruct e. naive_solver.
Qed.

(** A directory is made, a file in it, then the directory is renamed. *)
Definition sample_history : Store :=
  default store_new (
    s ← apply_op store_new (ODir 5 (str "d") 493 0);
    s ← apply_op s (OEnsure 6 (str "d/f") 33188 0);
    apply_op s (OReparent [str "d"; str "d/f"] (str "d") (str "e"))).

Lemma sample_is_history : history sample_history.
Proof.
  eapply (history_op _ (OReparent [str "d"; str "d/f"] (str "d") (str "e"))); [|split|reflexivity].
  - eapply (history_op _ (OEnsure 6 (str "d/f") 33188 0)); [|split; by compute_done|reflexivity].
    eapply (history_op _ (ODir 5 (str "d") 493 0)); [constructor | | reflexivity].
    split; [by compute_done|]. split; [by compute_done|]. right. by intros r.
  - split; [by compute_done|]. intros n. split.
    + rewrite !elem_of_cons, elem_of_nil. intros [->|[->|[]]]; (split; [by eexists; vm_compute | by vm_compute]).
    + match goal with |- context [sqlar ?st] =>
        assert (map_Forall (λ n _, n ∈ [str "d"; str "d/f"]) (sqlar st)) as Hall by compute_done end.
      intros [[r Hr] _]. by apply (Hall n r).
  - intros n nn. rewrite !elem_of_cons, elem_of_nil. intros [->|[->|[]]] [= <-]; by compute_done.
Qed.

Lemma reload_gives_mirror_witness :
  box_entry sample_history (str "e/f") = Some (EFile 2 33188) ∧
  box_entry (load_mirror sample_history) (str "e/f") = norm <$> box_entry sample_history (str "e/f").
Proof.
  split; [by vm_compute|]. apply (reload_gives_mirror sample_history). apply sample_is_history.
Defined.

(** ** Where the mirror and the rows part *)

(** A character device or a socket is a special node while the box runs and a
    regular file after a reload. *)
Theorem device_reloads_as_file :
  Forall (λ m,
    box_entry (set_special store_new 5 (str "n") m 259 0) (str "n") = Some (ESpecial m 259) ∧
    box_entry (load_mirror (set_special store_new 5 (str "n") m 259 0)) (str "n") = Some (EFile 1 m))
    [8630 (* 0o020666 *); 49645 (* 0o140755 *)].
Proof. repeat constructor. Qed.

(** The mode of a fifo is changed in its row and not in the mirror. *)
Theorem chmod_of_fifo_unseen :
  let s := set_mode (set_special store_new 5 (str "p") 4534 (* 0o010666 *) 0 0) (str "p") 4480 (* 0o010600 *) in
  box_entry s (str "p") = Some (ESpecial 4534 0) ∧
  box_entry (load_mirror s) (str "p") = Some (ESpecial 4480 0).
Proof. done. Qed.

(** A store with a hole at [d], as an import of a rotated layer leaves it *)
Definition hole_store : Store := load_mirror (archive_upsert store_new (str "d") S_IFCHR 0 0 None 2).1.

(** A directory made over a hole is a plain one while the box runs, and is
    rebased after a reload; a deletion recorded over a hole is a hole again. *)
Theorem hole_flag_survives :
  box_entry hole_store (str "d") = Some EHole ∧
  box_entry (set_dir hole_store 5 (str "d") 493 0) (str "d") = Some (EDir 16877 5 false false) ∧
  box_entry (load_mirror (set_dir hole_store 5 (str "d") 493 0)) (str "d") = Some (EDir 16877 0 false true) ∧
  box_entry (set_whiteout hole_store (str "d") 0) (str "d") = Some EWhiteout ∧
  box_entry (load_mirror (set_whiteout hole_store (str "d") 0)) (str "d") = Some EHole.
Proof. split_and!; by vm_compute. Qed.

(** Renaming the directory [a_b] takes the files of [axb] along: in the pattern
    of the statement an underscore stands for any character. *)
Theorem rename_takes_sibling :
  let s := (ensure_file_row (set_dir (set_dir store_new 5 (str "a_b") 493 0) 5 (str "axb") 493 0) 6 (str "axb/f") 33188 0).1 in
  ∃ s', reparent s (str "a_b") (str "n") = Some s' ∧
    box_entry s (str "axb/f") = Some (EFile 3 33188) ∧
    box_entry s' (str "axb/f") = None ∧ box_entry s' (str "n/f") = Some (EFile 3 33188).
Proof. cbn zeta. eexists. split; [by vm_compute|]. split_and!; by vm_compute. Qed.
