(* ===== verification/BoxTransfer.v ===== *)
(** * Boxes as canonical layers.

    Models [export_layer] and [import_layer] of [engine/src/depot.rs]: the rows
    of a box's store as a delta of the layer algebra, and back.  Strings are
    UTF-8 bytes; an error is the name it is reported for.  Errors of the
    database and of the file system are not modelled. *)

From stdpp Require Import strings gmap.
From S2P Require Import Prelude.
From S2P Require Import BTreeMap.
From S2P Require Import Glob.
From S2P Require Import Rules.
From S2P Require Import GitLayer.
From S2P Require Import LayerMirror.
From S2P Require Import SandboxLayers.
From S2P Require Import SandboxLayersLaws.
From S2P Require Import BoxStore.
From S2P Require Import DepotModel.
Open Scope Z_scope.

(** ** Numbers as attribute values *)

(** [ToString] of an integer *)
Definition show_int (z : Z) : list Z :=
  if z <? 0 then 45 :: GitLayer.format_decimal 20 (- z) else GitLayer.format_decimal 20 z.

(** [u32::from_str] *)
Definition parse_u32 (s : text) : option Z :=
  let ds := match s with 43 :: ds => ds | _ => s end in
  match ds with
  | [] => None
  | _ => match digits 0 ds with Some v => if v <? u32_limit then Some v else None | None => None end
  end.

(** [parse_a]; the digits are ASCII, so bytes that are not UTF-8 do not parse *)
Definition parse_a {T} (parse : text → option T) (a : Attrs) (key : text) : option T := bt_get key a ≫= parse.

(** ** [export_layer] *)

(** The side tables, as attributes of a name *)
Definition xattr_key (k : text) : text := str "x:" ++ k.
Definition side_attrs (s : Store) (name : text) : Attrs :=
  let a := match ownership s !! name with
           | Some (uid, gid) => bt_insert (str "gid") (show_int gid) (bt_insert (str "uid") (show_int uid) [])
           | None => []
           end in
  let a := match rdevs s !! name with Some dev => bt_insert (str "rdev") (show_int dev) a | None => a end in
  foldr (λ '(k, v) a, if text_eqb k.1 name then bt_insert (xattr_key k.2) v a else a) a (map_to_list (xattrs s)).

(** The blob of a row that has no inline bytes is its content file. *)
Definition row_blob (s : Store) (r : Row) : BlobOp :=
  let ft := file_type (mode r) in
  if ft =? FT_DIR then Keep
  else if ft =? FT_LNK then SetBlob (default [] (data r))
  else if (ft =? FT_FIFO) || (ft =? FT_BLK) || (ft =? FT_CHR) then Keep
  else match data r with
       | Some d => SetBlob d
       | None => SetBlob (default [] (pool s !! rowid r))
       end.

Definition export_node (s : Store) (name : text) (r : Row) : Node :=
  if mode r =? S_IFCHR then (if Z.testbit (BoxStore.opaque r) 1 then hole else tombstone)
  else
    let a := bt_insert (str "mtime") (show_int (mtime r)) (bt_insert (str "mode") (show_int (mode r)) (side_attrs s name)) in
    MkNode Live (row_blob s r) ((file_type (mode r) =? FT_DIR) && Z.testbit (BoxStore.opaque r) 0) (Some a)
      (if Z.testbit (BoxStore.opaque r) 1 then Backdrop else DepotModel.Lower) [].

(** [entry.children.entry(k).or_insert(v)] for the children there were *)
Definition keep_children (node : Node) (kids : btmap (list Z) Node) : Node :=
  MkNode (presence node) (blob node) (DepotModel.opaque node) (attrs node) (anchor node)
    (foldl (λ m '(k, v), if bt_contains k m then m else bt_insert k v m) (DepotModel.children node) kids).

Definition set_child (cur : Node) (seg : text) (child : Node) : Node :=
  MkNode (presence cur) (blob cur) (DepotModel.opaque cur) (attrs cur) (anchor cur)
    (bt_insert seg child (DepotModel.children cur)).

(** [tree_insert], along the segments of the name *)
Fixpoint tree_insert (cur : Node) (segs : list (list Z)) (node : Node) : Node :=
  match segs with
  | [] => cur
  | [seg] =>
      let entry := default keep (bt_get seg (DepotModel.children cur)) in
      set_child cur seg (keep_children node (DepotModel.children entry))
  | seg :: segs =>
      set_child cur seg (tree_insert (default keep (bt_get seg (DepotModel.children cur))) segs node)
  end.

(** The rows in the order of their names *)
Definition rows_by_name (s : Store) : btmap (list Z) Row :=
  foldr (λ '(name, r) m, bt_insert name r m) [] (map_to_list (sqlar s)).

Definition export_row (s : Store) (root : Node) (row : list Z * Row) : Node :=
  let '(name, r) := row in
  match name with
  | [] =>
      MkNode (presence root) (blob root) (negb (BoxStore.opaque r =? 0)) (Some []) (anchor root) (DepotModel.children root)
  | _ => tree_insert root (split_on SLASH name) (export_node s name r)
  end.

Definition export_layer (s : Store) : Layer := MkLayer (foldl (export_row s) keep (rows_by_name s)).

(** ** [import_layer] *)

Definition set_ownership (s : Store) (t : gmap (list Z) (Z * Z)) : Store :=
  MkStore (sqlar s) t (rdevs s) (xattrs s) (atime_rows s) (pool s) (mirror s) (atimes s) (owners s).
Definition set_rdevs (s : Store) (t : gmap (list Z) Z) : Store :=
  MkStore (sqlar s) (ownership s) t (xattrs s) (atime_rows s) (pool s) (mirror s) (atimes s) (owners s).

(** [strip_prefix(b"x:")] *)
Definition strip_x (k : text) : option (list Z) :=
  match k with 120 :: 58 :: k => Some k | _ => None end.

(** The rows of the side tables a node's attributes give *)
Definition import_owner (s : Store) (name : text) (a : Attrs) : Store :=
  match parse_a parse_i64 a (str "uid"), parse_a parse_i64 a (str "gid") with
  | Some uid, Some gid => set_ownership s (<[name := (uid, gid)]> (ownership s))
  | _, _ => s
  end.
Definition import_rdev (s : Store) (name : text) (a : Attrs) : Store :=
  match parse_a parse_i64 a (str "rdev") with
  | Some dev => set_rdevs s (<[name := dev]> (rdevs s))
  | None => s
  end.
Definition import_side (s : Store) (name : text) (a : Attrs) : Store :=
  foldl (λ s '(k, v),
    match strip_x k with Some xk => set_xattr s name (GitLayer.from_utf8_lossy xk) v | None => s end)
    (import_rdev (import_owner s name a) name a) a.

(** What a node without its children writes *)
Definition import_facets (s : Store) (name : text) (n : Node) : Result Store (list Z) :=
  let anchor_bit := if is_backdrop (anchor n) then 2 else 0 in
  match attrs n with
  | None =>
      if is_backdrop (anchor n) && is_keep (blob n) then Ok (archive_upsert s name S_IFCHR 0 0 None anchor_bit).1
      else Ok s
  | Some a =>
      match parse_a parse_u32 a (str "mode") with
      | None => Err name
      | Some m =>
          let t := default 0 (parse_a parse_i64 a (str "mtime")) in
          if file_type m =? FT_DIR then
            Ok (import_side (archive_upsert s name m t 0 None (Z.lor (if DepotModel.opaque n then 1 else 0) anchor_bit)).1 name a)
          else match blob n with
               | SetBlob b =>
                   if file_type m =? FT_LNK then
                     Ok (import_side (archive_upsert s name m t (zlen b) (Some b) anchor_bit).1 name a)
                   else
                     let '(s, rid) := archive_upsert s name m t (zlen b) None anchor_bit in
                     Ok (import_side (set_pool s (<[rid := b]> (pool s))) name a)
               | Keep => Ok (import_side (archive_upsert s name m t 0 None anchor_bit).1 name a)
               | Remove => Err name
               end
      end
  end.

Fixpoint import_node (name : text) (n : Node) (s : Store) {struct n} : Result Store (list Z) :=
  if is_tombstone n then Ok (archive_upsert s name S_IFCHR 0 0 None 0).1
  else match import_facets s name n with
       | Err e => Err e
       | Ok s =>
           (fix go (kids : list (list Z * Node)) (s : Store) : Result Store (list Z) :=
              match kids with
              | [] => Ok s
              | (seg, child) :: kids =>
                  match import_node (path_join name (GitLayer.from_utf8_lossy seg)) child s with
                  | Ok s => go kids s
                  | Err e => Err e
                  end
              end) (DepotModel.children n) s
       end.

Definition import_layer (s : Store) (l : Layer) : Result Store (list Z) :=
  let s := if DepotModel.opaque (root l) then
             set_sqlar s (upsert (sqlar s) [] (λ id, MkRow id 16877 0 0 None 1 0 0) (row_opaque 1))
           else s in
  import_node [] (root l) s.

(** * Exported layers import back to the same box *)

(** ** Numbers *)

Lemma digits_app acc a b : digits acc (a ++ b) = digits acc a ≫= λ v, digits v b.
Proof. revert acc. induction a as [|c a IH]; intros acc; [done|]. cbn. case_match; [apply IH | done]. Qed.

Lemma digits_one acc d : 0 ≤ d < 10 → digits acc [48 + d] = Some (acc * 10 + d).
Proof.
  intros Hd. cbn. rewrite (proj2 (Z.leb_le _ _)), (proj2 (Z.leb_le _ _)) by lia. cbn. f_equal. lia.
Qed.

Lemma digits_format f n : (0 < f)%nat → 0 ≤ n < 10 ^ Z.of_nat f → digits 0 (GitLayer.format_decimal f n) = Some n.
Proof.
  revert n. induction f as [|f IH]; intros n Hf Hn; [lia|]. cbn [GitLayer.format_decimal].
  destruct (Z.ltb_spec n 10) as [Hlt|Hge]; [by rewrite digits_one by lia|].
  rewrite Nat2Z.inj_succ, Z.pow_succ_r in Hn by lia.
  rewrite digits_app, IH; [|destruct f; [cbn in Hn; lia | lia] | split; [apply Z.div_pos; lia | apply Z.div_lt_upper_bound; lia]].
  cbn [mbind option_bind]. rewrite digits_one by (apply Z.mod_pos_bound; lia). f_equal. pose proof (Z.div_mod n 10). lia.
Qed.

Lemma format_head f n : (0 < f)%nat → 0 ≤ n → ∃ c r, GitLayer.format_decimal f n = c :: r ∧ 48 ≤ c ≤ 57.
Proof.
  revert n. induction f as [|f IH]; intros n Hf Hn; [lia|]. cbn [GitLayer.format_decimal].
  destruct (Z.ltb_spec n 10) as [Hlt|Hge]; [exists (48 + n), []; split; [done | lia]|].
  destruct f as [|f]; [exists (48 + n mod 10), []; split; [done | pose proof (Z.mod_pos_bound n 10); lia]|].
  destruct (IH (n / 10)) as (c & r & -> & Hc); [lia | apply Z.div_pos; lia|]. by exists c, (r ++ [48 + n mod 10]).
Qed.

(** A text that starts with a digit has no sign. *)
Lemma no_sign c (r : text) : 48 ≤ c ≤ 57 →
  parse_i64 (c :: r) =
    match digits 0 (c :: r) with
    | Some v => if (- 2 ^ 63 <=? 1 * v) && (1 * v <? 2 ^ 63) then Some (1 * v) else None
    | None => None
    end ∧
  parse_u32 (c :: r) = match digits 0 (c :: r) with Some v => if v <? u32_limit then Some v else None | None => None end.
Proof.
  intros Hc.
  assert (c = 48 ∨ c = 49 ∨ c = 50 ∨ c = 51 ∨ c = 52 ∨ c = 53 ∨ c = 54 ∨ c = 55 ∨ c = 56 ∨ c = 57) as H by lia.
  repeat (destruct H as [->|H]; [done|]). by subst.
Qed.

(** A number in the range of a column *)
Definition i64_ok (z : Z) : Prop := - 2 ^ 63 ≤ z < 2 ^ 63.

Lemma parse_show_i64 z : i64_ok z → parse_i64 (show_int z) = Some z.
Proof.
  intros Hz. unfold i64_ok in Hz. assert (2 ^ 63 < 10 ^ Z.of_nat 20) as Hbig by done.
  unfold show_int. destruct (Z.ltb_spec z 0) as [Hneg|Hpos].
  - pose proof (digits_format 20 (- z) ltac:(lia) ltac:(lia)) as Hd.
    destruct (format_head 20 (- z)) as (c & r & E & _); [lia | lia|]. rewrite E in *. cbn [parse_i64].
    rewrite Hd. rewrite (proj2 (Z.leb_le _ _)), (proj2 (Z.ltb_lt _ _)) by lia. cbn. f_equal. lia.
  - pose proof (digits_format 20 z ltac:(lia) ltac:(lia)) as Hd.
    destruct (format_head 20 z) as (c & r & E & Hc); [lia | lia|]. rewrite E in *.
    destruct (no_sign c r Hc) as [-> _]. rewrite Hd, Z.mul_1_l.
    by rewrite (proj2 (Z.leb_le _ _)), (proj2 (Z.ltb_lt _ _)) by lia.
Qed.

Lemma parse_show_u32 z : 0 ≤ z < u32_limit → parse_u32 (show_int z) = Some z.
Proof.
  intros Hz. assert (u32_limit < 10 ^ Z.of_nat 20) as Hbig by done.
  unfold show_int. rewrite (proj2 (Z.ltb_ge _ _)) by lia.
  pose proof (digits_format 20 z ltac:(lia) ltac:(lia)) as Hd.
  destruct (format_head 20 z) as (c & r & E & Hc); [lia | lia|]. rewrite E in *.
  destruct (no_sign c r Hc) as [_ ->]. rewrite Hd. by rewrite (proj2 (Z.ltb_lt _ _)) by lia.
Qed.

(** ** Attributes *)

Lemma strip_xattr_key k : strip_x (xattr_key k) = Some k.
Proof. done. Qed.
Lemma strip_x_some j k : strip_x j = Some k → j = xattr_key k.
Proof. unfold strip_x. intros H. repeat case_match; simplify_eq; done. Qed.

Lemma side_get s name j :
  bt_get j (side_attrs s name) =
    match strip_x j with
    | Some k => xattrs s !! (name, k)
    | None =>
        if decide (j = str "rdev") then show_int <$> rdevs s !! name
        else if decide (j = str "gid") then (λ og, show_int og.2) <$> ownership s !! name
        else if decide (j = str "uid") then (λ og, show_int og.1) <$> ownership s !! name
        else None
    end.
Proof.
  unfold side_attrs. cbv zeta. match goal with |- context [foldr _ ?b _] => set (base := b) end.
  assert (bt_get j base = if decide (j = str "rdev") then show_int <$> rdevs s !! name
        else if decide (j = str "gid") then (λ og, show_int og.2) <$> ownership s !! name
        else if decide (j = str "uid") then (λ og, show_int og.1) <$> ownership s !! name else None) as Hbase.
  { unfold base. destruct (rdevs s !! name), (ownership s !! name) as [[u g]|]; rewrite ?bt_get_insert; cbn [bt_get fmap option_fmap option_map];
      repeat case_decide; subst; done. }
  assert (∀ l : list (list Z * list Z * list Z), NoDup l.*1 →
    bt_get j (foldr (λ '(k, v) a, if text_eqb k.1 name then bt_insert (xattr_key k.2) v a else a) base l) =
    match strip_x j with Some k => match (list_to_map l : gmap _ _) !! (name, k) with Some v => Some v | None => bt_get j base end
    | None => bt_get j base end) as Hfold.
  { induction l as [|[[n k] v] l IH]; intros Hnd; [by destruct (strip_x j)|].
    apply NoDup_cons in Hnd as [_ Hnd]. specialize (IH Hnd). cbn [foldr list_to_map fst snd uncurry].
    change (text_eqb n name) with (bool_decide (n = name)). case_bool_decide as E.
    - subst n. rewrite bt_get_insert. destruct (decide (j = xattr_key k)) as [Ej|Ej].
      + rewrite Ej. by rewrite strip_xattr_key, lookup_insert_eq.
      + rewrite IH. destruct (strip_x j) as [k'|] eqn:Es; [|done]. rewrite lookup_insert_ne; [done|].
        intros [= ->]. apply Ej. by apply strip_x_some.
    - rewrite IH. destruct (strip_x j) as [k'|]; [|done]. rewrite lookup_insert_ne; [done | by intros [= -> _]]. }
  rewrite Hfold by apply NoDup_fst_map_to_list. rewrite list_to_map_to_list, Hbase.
  destruct (strip_x j) as [k|] eqn:Es; [|done]. destruct (xattrs s !! (name, k)); [done|].
  apply strip_x_some in Es as ->. done.
Qed.

Lemma side_ok s name : bt_ok (side_attrs s name) = true.
Proof.
  unfold side_attrs. induction (map_to_list (xattrs s)) as [|[k v] l IH]; cbn [foldr].
  - destruct (rdevs s !! name), (ownership s !! name) as [[]|]; repeat apply bt_ok_insert; done.
  - destruct (text_eqb k.1 name); [by apply bt_ok_insert | done].
Qed.

(** The attributes of an exported node *)
Definition row_attrs (s : Store) (name : text) (m t : Z) : Attrs :=
  bt_insert (str "mtime") (show_int t) (bt_insert (str "mode") (show_int m) (side_attrs s name)).

Lemma row_attrs_get s name m t j :
  bt_get j (row_attrs s name m t) =
    if decide (j = str "mtime") then Some (show_int t)
    else if decide (j = str "mode") then Some (show_int m)
    else bt_get j (side_attrs s name).
Proof. unfold row_attrs. rewrite !bt_get_insert. by repeat case_decide. Qed.

Lemma row_attrs_known s name m t :
  bt_get (str "mode") (row_attrs s name m t) = Some (show_int m) ∧
  bt_get (str "mtime") (row_attrs s name m t) = Some (show_int t) ∧
  bt_get (str "uid") (row_attrs s name m t) = (λ og, show_int og.1) <$> ownership s !! name ∧
  bt_get (str "gid") (row_attrs s name m t) = (λ og, show_int og.2) <$> ownership s !! name ∧
  bt_get (str "rdev") (row_attrs s name m t) = show_int <$> rdevs s !! name ∧
  ∀ k, bt_get (xattr_key k) (row_attrs s name m t) = xattrs s !! (name, k).
Proof.
  split_and!; [| | | | | intros k]; rewrite row_attrs_get; try (rewrite side_get); repeat (case_decide as E; [done|]);
    try done.
Qed.

Lemma row_attrs_ok s name m t : bt_ok (row_attrs s name m t) = true.
Proof. unfold row_attrs. repeat apply bt_ok_insert. apply side_ok. Qed.

(** A name whose rows of the side tables are in range, with UTF-8 keys *)
Record side_fits (s : Store) (name : text) : Prop := {
  sf_owner : ∀ u g, ownership s !! name = Some (u, g) → i64_ok u ∧ i64_ok g;
  sf_rdev : ∀ d, rdevs s !! name = Some d → i64_ok d;
  sf_keys : ∀ k v, xattrs s !! (name, k) = Some v → GitLayer.from_utf8_lossy k = k }.

(** The side tables of a name are equal in two stores. *)
Definition same_side (s s' : Store) (name : text) : Prop :=
  ownership s !! name = ownership s' !! name ∧ rdevs s !! name = rdevs s' !! name ∧
  ∀ k, xattrs s !! (name, k) = xattrs s' !! (name, k).

Lemma same_side_attrs s s' name : same_side s s' name → side_attrs s name = side_attrs s' name.
Proof.
  intros (H1 & H2 & H3). apply bt_ext; [apply side_ok | apply side_ok|].
  intros k. rewrite !side_get, H1, H2. destruct (strip_x k) as [x|]; [apply H3 | done].
Qed.

Lemma xattr_fold (l : Attrs) s name :
  (∀ j v k, (j, v) ∈ l → strip_x j = Some k → GitLayer.from_utf8_lossy k = k) →
  let s' := foldl (λ s '(k, v), match strip_x k with
    Some xk => set_xattr s name (GitLayer.from_utf8_lossy xk) v | None => s end) s l in
  (sqlar s', ownership s', rdevs s', pool s') = (sqlar s, ownership s, rdevs s, pool s) ∧
  (∀ n k, n ≠ name → xattrs s' !! (n, k) = xattrs s !! (n, k)) ∧
  (bt_ok l = true → ∀ k, xattrs s' !! (name, k) = match bt_get (xattr_key k) l with Some v => Some v | None => xattrs s !! (name, k) end).
Proof.
  cbn zeta. revert s. induction l as [|[j v] l IH]; intros s Hutf; [done|]. cbn [foldl].
  destruct (strip_x j) as [x|] eqn:Es.
  - rewrite (Hutf j v x) by (done || by left).
    destruct (IH (set_xattr s name x v)) as (I1 & I2 & I3); [intros; eapply Hutf; [by right | done]|].
    split_and!; [done | |].
    + intros n k Hn. rewrite I2 by done. cbn. by rewrite lookup_insert_ne by congruence.
    + intros Hok k. pose proof Hok as [_ Hok']%bt_ok_cons. rewrite I3 by done. cbn [bt_get].
      apply strip_x_some in Es as ->. destruct (decide (k = x)) as [->|Hk].
      * rewrite cmp_refl, (bt_get_None_lt _ _ _ Hok). cbn. by rewrite lookup_insert_eq.
      * destruct (cmp (xattr_key k) (xattr_key x)) eqn:Ec; [apply cmp_eq in Ec; by apply app_inv_head in Ec as -> | |];
          cbn; by rewrite lookup_insert_ne by congruence.
  - destruct (IH s) as (I1 & I2 & I3); [intros; eapply Hutf; [by right | done]|]. split_and!; [done | done|].
    intros Hok k. pose proof Hok as [_ Hok']%bt_ok_cons. rewrite I3 by done. cbn [bt_get].
    destruct (cmp (xattr_key k) j) eqn:Ec; [|done|done]. apply cmp_eq in Ec as <-. by rewrite strip_xattr_key in Es.
Qed.

(** A store whose side tables have rows only for names of [sqlar] *)
Definition no_side (s : Store) (name : text) : Prop :=
  ownership s !! name = None ∧ rdevs s !! name = None ∧ ∀ k, xattrs s !! (name, k) = None.
Definition clean (s : Store) : Prop := ∀ n, sqlar s !! n = None → no_side s n.

Lemma import_side_spec s s0 name m t :
  no_side s name → side_fits s0 name →
  let s' := import_side s name (row_attrs s0 name m t) in
  sqlar s' = sqlar s ∧ pool s' = pool s ∧ same_side s0 s' name ∧ ∀ n, n ≠ name → same_side s s' n.
Proof.
  intros (N1 & N2 & N3) [Fo Fr Fk]. cbn zeta. unfold import_side.
  destruct (row_attrs_known s0 name m t) as (_ & _ & Au & Ag & Ad & Ax).
  set (s1 := import_owner s name (row_attrs s0 name m t)). set (s2 := import_rdev s1 name (row_attrs s0 name m t)).
  assert (ownership s1 = match ownership s0 !! name with Some og => <[name := og]> (ownership s) | None => ownership s end ∧
    (sqlar s1, pool s1, rdevs s1, xattrs s1) = (sqlar s, pool s, rdevs s, xattrs s)) as [E1 E2].
  { unfold s1, import_owner, parse_a. rewrite Au, Ag.
    destruct (ownership s0 !! name) as [[u g]|] eqn:Eo; [|done].
    destruct (Fo u g eq_refl) as [Hu Hg]. cbn [fmap option_fmap option_map mbind option_bind fst snd]. by rewrite !parse_show_i64. }
  assert (rdevs s2 = match rdevs s0 !! name with Some d => <[name := d]> (rdevs s) | None => rdevs s end ∧
    (sqlar s2, pool s2, ownership s2, xattrs s2) = (sqlar s, pool s, ownership s1, xattrs s)) as [E3 E4].
  { unfold s2, import_rdev, parse_a. rewrite Ad. injection E2 as F1 F2 F3 F4.
    destruct (rdevs s0 !! name) as [d|] eqn:Ed; [|cbn; by rewrite F1, F2, F3, F4].
    cbn [fmap option_fmap option_map mbind option_bind]. rewrite parse_show_i64 by (by apply Fr). cbn. by rewrite F1, F2, F3, F4. }
  destruct (xattr_fold (row_attrs s0 name m t) s2 name) as (X1 & X2 & X3).
  { intros j v k Hj Hk. apply bt_elem_get in Hj; [|apply row_attrs_ok]. apply strip_x_some in Hk as ->.
    rewrite Ax in Hj. by apply Fk in Hj. }
  specialize (X3 (row_attrs_ok _ _ _ _)). injection X1 as G1 G2 G3 G4. injection E4 as H1 H2 H3 H4.
  split_and!; [congruence | congruence | |].
  - split_and!.
    + rewrite G2, H3, E1. destruct (ownership s0 !! name); [by rewrite lookup_insert_eq | done].
    + rewrite G3, E3. destruct (rdevs s0 !! name); [by rewrite lookup_insert_eq | done].
    + intros k. rewrite X3, Ax, H4, N3. by destruct (xattrs s0 !! (name, k)).
  - intros n Hn. split_and!.
    + rewrite G2, H3, E1. destruct (ownership s0 !! name); [by rewrite lookup_insert_ne | done].
    + rewrite G3, E3. destruct (rdevs s0 !! name); [by rewrite lookup_insert_ne | done].
    + intros k. by rewrite X2, H4.
Qed.

(** ** One node *)

Definition row_fits (r : Row) : Prop := 0 ≤ mode r < u32_limit ∧ i64_ok (mtime r).

(** A store that can be imported into: side rows only where there are rows, and
    numbers in range *)
Definition fitting (s : Store) : Prop :=
  clean s ∧ ∀ n r, sqlar s !! n = Some r → row_fits r ∧ side_fits s n.

Lemma side_fits_same s s' name : same_side s s' name → side_fits s name → side_fits s' name.
Proof.
  intros (S1 & S2 & S3) [F1 F2 F3]. split; [rewrite <- S1; exact F1|rewrite <- S2; exact F2|].
  intros k v. rewrite <- S3. apply F3.
Qed.

(** What the store has at a name, as the node it exports *)
Definition content (s : Store) (name : text) : option Node := export_node s name <$> sqlar s !! name.

Lemma fresh_above (t : gmap (list Z) Row) n r : t !! n = Some r → rowid r < fresh_rowid t.
Proof.
  unfold fresh_rowid. intros Hn. assert (rowid r ≤ map_fold (λ _ r n, Z.max (rowid r) n) 0 t); [|lia].
  revert Hn. induction t as [|k x t Hk Hfold IH] using map_first_key_ind; [done|].
  rewrite map_fold_insert_first_key by done. intros [[-> ->]|[_ H]]%lookup_insert_Some; [lia|]. specialize (IH H). lia.
Qed.

Lemma export_node_eq s s' name r :
  same_side s s' name → pool s !! rowid r = pool s' !! rowid r → export_node s name r = export_node s' name r.
Proof. intros Hs Hp. unfold export_node, row_blob. by rewrite (same_side_attrs _ _ _ Hs), Hp. Qed.

Definition import_one (s : Store) (name : text) (n : Node) : Result Store (list Z) :=
  if is_tombstone n then Ok (archive_upsert s name S_IFCHR 0 0 None 0).1 else import_facets s name n.

(** A new row [r] of a new name, with its content and its side rows, changes the
    content of that name only. *)
Lemma content_insert s s' name r :
  sqlar s !! name = None → fitting s → row_fits r → side_fits s' name →
  sqlar s' = <[name := r]> (sqlar s) → (∀ n, n ≠ name → same_side s s' n) →
  (∀ i, i ≠ fresh_rowid (sqlar s) → pool s' !! i = pool s !! i) →
  (∀ q, content s' q = if decide (q = name) then Some (export_node s' name r) else content s q) ∧ fitting s'.
Proof.
  intros Hn [Hc Hfit] Hr Hsf Hs Hside Hpool. split; [|split].
  - intros q. unfold content. rewrite Hs, lookup_insert. case_decide as E; [subst; by rewrite decide_True|].
    rewrite decide_False by done. destruct (sqlar s !! q) as [rq|] eqn:Eq; [|done]. cbn. f_equal. symmetry.
    apply export_node_eq; [by apply Hside|]. symmetry. apply Hpool. apply fresh_above in Eq. lia.
  - intros n H. rewrite Hs in H. apply lookup_insert_None in H as [Hq Hne]. destruct (Hc n Hq) as (N1 & N2 & N3).
    destruct (Hside n ltac:(done)) as (S1 & S2 & S3). split_and!; [by rewrite <- S1 | by rewrite <- S2 | intros k; by rewrite <- S3].
  - intros n r'. rewrite Hs, lookup_insert_Some. intros [[<- <-]|[Hne Hr']]; [done|].
    destruct (Hfit n r' Hr') as [? ?]. split; [done|]. eapply side_fits_same; [|done]. by apply Hside.
Qed.

Lemma upsert_fields s name m t z d o :
  sqlar s !! name = None →
  archive_upsert s name m t z d o =
    (set_sqlar s (<[name := MkRow (fresh_rowid (sqlar s)) m t z d o 0 0]> (sqlar s)), fresh_rowid (sqlar s)).
Proof. intros Hn. unfold archive_upsert. by rewrite delete_id. Qed.

(** An exported row with attributes, imported at a fresh name *)
Lemma import_row s s0 name r0 d z o p :
  sqlar s !! name = None → fitting s → side_fits s0 name → row_fits r0 → mode r0 ≠ S_IFCHR →
  let r := MkRow (fresh_rowid (sqlar s)) (mode r0) (mtime r0) z d o 0 0 in
  let s1 := set_pool (set_sqlar s (<[name := r]> (sqlar s))) p in
  (∀ i, i ≠ fresh_rowid (sqlar s) → p !! i = pool s !! i) →
  row_blob s1 r = row_blob s0 r0 →
  (file_type (mode r0) =? FT_DIR) && Z.testbit o 0 = (file_type (mode r0) =? FT_DIR) && Z.testbit (BoxStore.opaque r0) 0 →
  Z.testbit o 1 = Z.testbit (BoxStore.opaque r0) 1 →
  let s' := import_side s1 name (row_attrs s0 name (mode r0) (mtime r0)) in
  (∀ q, content s' q = if decide (q = name) then Some (export_node s0 name r0) else content s q) ∧ fitting s'.
Proof.
  intros Hn Hc Hf Hr Hm r s1 Hp Hb Ho0 Ho1 s'.
  destruct (import_side_spec s1 s0 name (mode r0) (mtime r0) (proj1 Hc name Hn) Hf) as (I1 & I2 & I3 & I4). fold s' in I1, I2, I3, I4.
  destruct (content_insert s s' name r) as [C1 C2];
    [done | done | done | by eapply side_fits_same | by rewrite I1 | exact I4 | by rewrite I2 |].
  split; [|done]. intros q. rewrite C1. case_decide; [|done]. f_equal. unfold export_node. cbn [mode r].
  rewrite (proj2 (Z.eqb_neq _ _) Hm). cbn [mtime r BoxStore.opaque]. fold (row_attrs s' name (mode r0) (mtime r0)).
  unfold row_attrs. rewrite <- (same_side_attrs _ _ _ I3). rewrite Ho0, Ho1.
  f_equal. rewrite <- Hb. unfold row_blob. by rewrite I2.
Qed.

Lemma import_one_spec s s0 name r0 :
  sqlar s !! name = None → fitting s → side_fits s0 name → row_fits r0 →
  ∃ s', import_one s name (export_node s0 name r0) = Ok s' ∧
    (∀ q, content s' q = if decide (q = name) then Some (export_node s0 name r0) else content s q) ∧ fitting s'.
Proof.
  intros Hn Hc Hf [Hm Ht]. unfold import_one. destruct (decide (mode r0 = S_IFCHR)) as [Em|Em].
  - assert (∀ o, (o = 0 ∨ o = 2) → let s' := (archive_upsert s name S_IFCHR 0 0 None o).1 in
      (∀ q, content s' q = if decide (q = name) then Some (if Z.testbit o 1 then hole else tombstone) else content s q) ∧ fitting s') as H.
    { intros o Ho s'. unfold s'. rewrite upsert_fields by done. cbn [fst].
      destruct (content_insert s (set_sqlar s (<[name := MkRow (fresh_rowid (sqlar s)) S_IFCHR 0 0 None o 0 0]> (sqlar s))) name
        (MkRow (fresh_rowid (sqlar s)) S_IFCHR 0 0 None o 0 0)) as [C1 C2]; [done | done | by split | | done | by intros; split_and! | done|].
      { destruct (proj1 Hc name Hn) as (N1 & N2 & N3). split; cbn; [by rewrite N1 | by rewrite N2 |]. intros k v. by rewrite N3. }
      split; [|done]. intros q. rewrite C1. by destruct Ho as [->| ->]. }
    unfold export_node. rewrite Em. cbn [Z.eqb S_IFCHR Pos.eqb]. destruct (Z.testbit (BoxStore.opaque r0) 1).
    + eexists. split; [reflexivity|]. apply (H 2). by right.
    + eexists. split; [reflexivity|]. apply (H 0). by left.
  - unfold export_node. rewrite (proj2 (Z.eqb_neq _ _) Em). fold (row_attrs s0 name (mode r0) (mtime r0)).
    cbn [is_tombstone presence]. unfold import_facets. cbn [attrs anchor blob DepotModel.opaque].
    destruct (row_attrs_known s0 name (mode r0) (mtime r0)) as (Am & At & _). unfold parse_a. rewrite Am, At.
    cbn [mbind option_bind]. rewrite parse_show_u32, parse_show_i64 by done. cbn [from_option id].
    assert (is_backdrop (if Z.testbit (BoxStore.opaque r0) 1 then Backdrop else DepotModel.Lower) = Z.testbit (BoxStore.opaque r0) 1) as ->
      by (by destruct (Z.testbit (BoxStore.opaque r0) 1)).
    set (b1 := Z.testbit (BoxStore.opaque r0) 1). rewrite !upsert_fields by done. cbn [fst].
    assert (∀ d z o p, let r := MkRow (fresh_rowid (sqlar s)) (mode r0) (mtime r0) z d o 0 0 in
      let s1 := set_pool (set_sqlar s (<[name := r]> (sqlar s))) p in
      (∀ i, i ≠ fresh_rowid (sqlar s) → p !! i = pool s !! i) → row_blob s1 r = row_blob s0 r0 →
      (file_type (mode r0) =? FT_DIR) && Z.testbit o 0 = (file_type (mode r0) =? FT_DIR) && Z.testbit (BoxStore.opaque r0) 0 →
      Z.testbit o 1 = b1 → ∃ s', Ok (import_side s1 name (row_attrs s0 name (mode r0) (mtime r0))) = Ok (E := list Z) s' ∧
      (∀ q, content s' q = if decide (q = name) then Some (export_node s0 name r0) else content s q) ∧ fitting s') as Hgo.
    { intros d z o p. cbn zeta. intros H1 H2 H3 H4. eexists. split; [reflexivity|]. by apply (import_row s s0 name r0 d z o p). }
    assert (set_sqlar s = λ t, set_pool (set_sqlar s t) (pool s)) as Hpool by done.
    unfold export_node in Hgo. rewrite (proj2 (Z.eqb_neq _ _) Em) in Hgo. fold (row_attrs s0 name (mode r0) (mtime r0)) in Hgo. fold b1 in Hgo.
    destruct (file_type (mode r0) =? FT_DIR) eqn:Ed.
    + apply (Hgo None 0 _ (pool s)); [done | unfold row_blob; cbn [mode]; by rewrite Ed | |];
        by destruct b1; destruct (Z.testbit (BoxStore.opaque r0) 0).
    + assert (∀ (b : bool), false && Z.testbit (if b then 2 else 0) 0 = false && Z.testbit (BoxStore.opaque r0) 0 ∧
        Z.testbit (if b then 2 else 0) 1 = b) as Hbits by (by intros []).
      destruct (Hbits b1) as [B0 B1].
      destruct (file_type (mode r0) =? FT_LNK) eqn:El.
      * assert (row_blob s0 r0 = SetBlob (default [] (data r0))) as E by (unfold row_blob; by rewrite Ed, El). rewrite E in *.
        rewrite upsert_fields by done. apply (Hgo _ _ _ (pool s)); [done | unfold row_blob; cbn [mode data]; by rewrite Ed, El | done | done].
      * destruct ((file_type (mode r0) =? FT_FIFO) || (file_type (mode r0) =? FT_BLK) || (file_type (mode r0) =? FT_CHR)) eqn:Es.
        -- assert (row_blob s0 r0 = Keep) as E by (unfold row_blob; by rewrite Ed, El, Es). rewrite E in *.
           apply (Hgo _ _ _ (pool s)); [done | unfold row_blob; cbn [mode]; by rewrite Ed, El, Es | done | done].
        -- assert (∃ b, row_blob s0 r0 = SetBlob b) as [b E] by (unfold row_blob; rewrite Ed, El, Es; destruct (data r0); eauto).
           rewrite E in *. rewrite upsert_fields by done. apply (Hgo _ _ _ (<[fresh_rowid (sqlar s) := b]> (pool s))); [| | done | done].
           ++ intros i Hi. by rewrite lookup_insert_ne.
           ++ unfold row_blob at 1. cbn [mode data rowid pool set_pool]. by rewrite Ed, El, Es, lookup_insert_eq.
Qed.
