(* ===== verification/BoxTransferTree.v ===== *)
(** * The tree an export builds, and what an import walks *)

From stdpp Require Import strings gmap.
From S2P Require Import Prelude.
From S2P Require Import BTreeMap.
From S2P Require Import Glob.
From S2P Require Import Rules.
From S2P Require Import GitLayer.
From S2P Require Import LayerMirror.
From S2P Require Import SandboxLayers.
From S2P Require Import SandboxLayersLaws.
From S2P Require Import BoxStore.
From S2P Require Import DepotModel.
From S2P Require Import BoxTransfer.
Open Scope Z_scope.

(** ** Names as segments *)

Definition seg_ok (k : text) : Prop := name_ok k ∧ GitLayer.from_utf8_lossy k = k.
Definition joined (base : text) (segs : list (list Z)) : text := foldl path_join base segs.

Lemma split_joined base segs :
  base ≠ [] → Forall seg_ok segs → split_on SLASH (joined base segs) = split_on SLASH base ++ segs.
Proof.
  intros Hb Hs. revert base Hb. induction Hs as [|x segs [Hx _] Hs IH]; intros base Hb; [by rewrite app_nil_r|].
  cbn [joined foldl]. fold (joined (path_join base x) segs). rewrite IH by (by apply join_ne).
  destruct base as [|c base]; [done|]. cbn [path_join]. rewrite (split_on_app SLASH (c :: base)).
  rewrite (split_on_name SLASH x) by apply Hx. by rewrite <- app_assoc.
Qed.

Lemma split_joined_root segs : segs ≠ [] → Forall seg_ok segs → split_on SLASH (joined [] segs) = segs.
Proof.
  destruct segs as [|x segs]; [done|]. intros _ [[Hx _] Hs]%Forall_cons. cbn [joined foldl path_join].
  fold (joined x segs). rewrite split_joined by (done || apply Hx). by rewrite split_on_name by apply Hx.
Qed.

Lemma joined_ne segs : segs ≠ [] → Forall seg_ok segs → joined [] segs ≠ [].
Proof.
  intros Hne Hs E. pose proof (split_joined_root segs Hne Hs) as H. rewrite E in H. cbn in H. subst segs.
  by apply Forall_cons in Hs as [[[? _] _] _].
Qed.

Lemma joined_split name : name ≠ [] → Forall seg_ok (split_on SLASH name) → joined [] (split_on SLASH name) = name.
Proof.
  intros _ Hs.
  assert (∀ n, ∃ p ps, split_on SLASH n = p :: ps ∧ p ++ concat ((λ q, SLASH :: q) <$> ps) = n) as Hcat.
  { induction n as [|c n (p & ps & E1 & E2)]; [by exists [], []|]. cbn. destruct (Z.eqb_spec c SLASH) as [->|Hc].
    - exists [], (split_on SLASH n). split; [done|]. rewrite E1. cbn. by rewrite E2.
    - rewrite E1. exists (c :: p), ps. split; [done|]. cbn. by rewrite E2. }
  destruct (Hcat name) as (p & ps & E1 & E2). rewrite E1 in *. apply Forall_cons in Hs as [[[Hp _] _] _].
  assert (∀ b, b ≠ [] → joined b ps = b ++ concat ((λ q, SLASH :: q) <$> ps)) as Hj.
  { clear. induction ps as [|q ps IH]; intros b Hb; [cbn; by rewrite app_nil_r|].
    cbn [joined foldl]. fold (joined (path_join b q) ps). rewrite IH by (by destruct b).
    destruct b as [|c b]; [done|]. cbn. f_equal. rewrite <- app_assoc. done. }
  cbn [joined foldl path_join]. fold (joined p ps). by rewrite Hj.
Qed.

(** ** Nodes that have rows *)

Definition bare (n : Node) : Node := MkNode (presence n) (blob n) (DepotModel.opaque n) (attrs n) (anchor n) [].
Definition bears (n : Node) : bool := is_tombstone n || is_some (attrs n) || (is_backdrop (anchor n) && is_keep (blob n)).
Definition facets (n : Node) : option Node := if bears n then Some (bare n) else None.

Lemma export_bears s name r : facets (export_node s name r) = Some (export_node s name r).
Proof.
  unfold export_node, facets. destruct (mode r =? S_IFCHR); [by destruct (Z.testbit (BoxStore.opaque r) 1)|]. done.
Qed.
Lemma export_childless s name r : DepotModel.children (export_node s name r) = [].
Proof. unfold export_node. repeat case_match; done. Qed.

(** The paths an import writes, with their nodes, in its order *)
Fixpoint flat (n : Node) : list (list (list Z) * Node) :=
  if is_tombstone n then [([], bare n)]
  else option_list (pair [] <$> facets n) ++
    flat_map (λ '(seg, c), (λ '(segs, nd), (seg :: segs, nd)) <$> flat c) (DepotModel.children n).

Fixpoint import_list (l : list (list Z * Node)) (s : Store) : Result Store (list Z) :=
  match l with
  | [] => Ok s
  | (name, n) :: l => match import_one s name n with Ok s => import_list l s | Err e => Err e end
  end.

Lemma import_list_app l l' s :
  import_list (l ++ l') s = match import_list l s with Ok s => import_list l' s | Err e => Err e end.
Proof. revert s. induction l as [|[name n] l IH]; intros s; [done|]. cbn. destruct (import_one s name n); [apply IH | done]. Qed.

(** Ordered children with good names, all the way down *)
Inductive tree_ok : Node → Prop :=
| TreeOk n : bt_ok (DepotModel.children n) = true →
    (∀ seg c, (seg, c) ∈ DepotModel.children n → seg_ok seg ∧ tree_ok c) → tree_ok n.

Definition at_base (base : text) (x : list (list Z) * Node) : list Z * Node := (joined base x.1, x.2).

Lemma import_facets_bare s name n : import_facets s name (bare n) = import_facets s name n.
Proof. done. Qed.
Lemma import_facets_none s name n : is_tombstone n = false → bears n = false → import_facets s name n = Ok s.
Proof.
  unfold bears, import_facets. intros -> H. cbn in H. apply orb_false_iff in H as [H1 H2].
  destruct (attrs n); [done|]. by rewrite H2.
Qed.

Lemma import_flat n : ∀ base s, tree_ok n → import_node base n s = import_list (at_base base <$> flat n) s.
Proof.
  induction n as [n IH] using node_ind'. intros base s Hok. inversion Hok as [? _ Hkids]; subst.
  assert (∀ s, (fix go (kids : list (list Z * Node)) (s : Store) : Result Store (list Z) :=
              match kids with
              | [] => Ok s
              | (seg, child) :: kids =>
                  match import_node (path_join base (GitLayer.from_utf8_lossy seg)) child s with
                  | Ok s => go kids s
                  | Err e => Err e
                  end
              end) (DepotModel.children n) s =
    import_list (at_base base <$> flat_map (λ '(seg, c), (λ '(segs, nd), (seg :: segs, nd)) <$> flat c) (DepotModel.children n)) s) as Hgo.
  { clear s. induction (DepotModel.children n) as [|[seg c] kids IHk]; intros s; [done|]. cbn [flat_map].
    rewrite fmap_app, import_list_app. destruct (Hkids seg c) as [[_ Hu] Hc]; [by left|].
    rewrite Hu, (IH seg c ltac:(by left) (path_join base seg) s Hc).
    assert (at_base base <$> ((λ '(segs, nd), (seg :: segs, nd)) <$> flat c) = at_base (path_join base seg) <$> flat c) as ->
      by (rewrite <- list_fmap_compose; apply list_fmap_ext; by intros i [segs nd] _).
    destruct (import_list _ s); [|done].
    apply IHk; [intros k c' H; apply (IH k c'); by right | intros seg' c' H; apply Hkids; by right]. }
  destruct n as [pr bl op at_ an ch]. cbn [import_node flat]. cbn [DepotModel.children] in *.
  unfold is_tombstone at 1 2. cbn [presence]. destruct pr; cbn.
  - rewrite fmap_app, import_list_app. set (n0 := MkNode Live bl op at_ an ch). destruct (facets n0) as [b|] eqn:Ef; unfold facets in Ef.
    + destruct (bears n0); [|done]. injection Ef as <-. cbn. rewrite import_facets_bare.
      destruct (import_facets s base n0); [apply Hgo | done].
    + destruct (bears n0) eqn:Eb; [done|]. rewrite import_facets_none by done. cbn. apply Hgo.
  - done.
Qed.

(** ** Looking a path up *)

Fixpoint found (n : Node) (segs : list (list Z)) : option Node :=
  match segs with
  | [] => facets n
  | seg :: segs => bt_get seg (DepotModel.children n) ≫= λ c, found c segs
  end.

(** The walk does not go below a tombstone. *)
Fixpoint walked (n : Node) (segs : list (list Z)) : option Node :=
  match segs with
  | [] => facets n
  | seg :: segs => if is_tombstone n then None else bt_get seg (DepotModel.children n) ≫= λ c, walked c segs
  end.

Lemma elem_flat n segs nd : tree_ok n → (segs, nd) ∈ flat n ↔ walked n segs = Some nd.
Proof.
  revert segs nd. induction n as [n IH] using node_ind'. intros segs nd Hok. inversion Hok as [? Hbt Hkids]; subst.
  assert (flat n = if is_tombstone n then [([], bare n)] else option_list (pair [] <$> facets n) ++
    flat_map (λ '(seg, c), (λ '(segs, nd), (seg :: segs, nd)) <$> flat c) (DepotModel.children n)) as -> by (by destruct n).
  destruct (is_tombstone n) eqn:Et.
  - rewrite list_elem_of_singleton. destruct segs as [|seg segs]; cbn [walked].
    + unfold facets, bears. rewrite Et. cbn. naive_solver.
    + rewrite Et. naive_solver.
  - rewrite elem_of_app. setoid_rewrite list_elem_of_In at 2. rewrite in_flat_map. destruct segs as [|seg segs]; cbn [walked].
    + split.
      * intros [H|([seg c] & _ & H)]; [destruct (facets n); cbn in H; set_solver|].
        apply list_elem_of_In, list_elem_of_fmap in H as ([? ?] & [=] & _).
      * intros H. left. rewrite H. cbn. by apply list_elem_of_singleton.
    + rewrite Et. split.
      * intros [H|([seg' c] & Hin & H)]; [destruct (facets n); cbn in H; set_solver|].
        apply list_elem_of_In, list_elem_of_fmap in H as ([segs' nd'] & [= -> -> ->] & H). apply list_elem_of_In in Hin.
        rewrite (bt_elem_get _ _ _ Hbt Hin). cbn. apply (IH seg' c Hin); [by apply (Hkids seg' c) | done].
      * intros H. right. destruct (bt_get seg (DepotModel.children n)) as [c|] eqn:Eg; [|done]. cbn in H.
        apply bt_get_elem in Eg. exists (seg, c). split; [by apply list_elem_of_In|].
        apply list_elem_of_In, list_elem_of_fmap. exists (segs, nd). split; [done|]. apply (IH seg c Eg); [by apply (Hkids seg c) | done].
Qed.

Lemma flat_segs n segs nd : tree_ok n → (segs, nd) ∈ flat n → Forall seg_ok segs.
Proof.
  intros Hok Hin. apply elem_flat in Hin; [|done]. revert n Hok Hin. induction segs as [|seg segs IH]; intros n Hok; [done|].
  cbn [walked]. inversion Hok as [? Hbt Hkids]; subst. destruct (is_tombstone n); [done|].
  destruct (bt_get seg (DepotModel.children n)) as [c|] eqn:Eg; [|done]. cbn. intros H.
  apply bt_get_elem in Eg. destruct (Hkids seg c Eg). constructor; [done|]. by apply (IH c).
Qed.

Lemma flat_NoDup n : tree_ok n → NoDup (flat n).*1.
Proof.
  induction n as [n IH] using node_ind'. intros Hok. inversion Hok as [? Hbt Hkids]; subst.
  assert (flat n = if is_tombstone n then [([], bare n)] else option_list (pair [] <$> facets n) ++
    flat_map (λ '(seg, c), (λ '(segs, nd), (seg :: segs, nd)) <$> flat c) (DepotModel.children n)) as -> by (by destruct n).
  destruct (is_tombstone n); [by apply NoDup_singleton|]. rewrite fmap_app.
  set (kids := DepotModel.children n) in *.
  assert (∀ segs, segs ∈ (flat_map (λ '(seg, c), (λ '(segs, nd), (seg :: segs, nd)) <$> flat c) kids).*1 →
    ∃ seg c rest, segs = seg :: rest ∧ (seg, c) ∈ kids) as Hhead.
  { intros segs (x & -> & Hx)%list_elem_of_fmap. apply list_elem_of_In, in_flat_map in Hx as ([seg c] & Hin & Hx).
    apply list_elem_of_In, list_elem_of_fmap in Hx as ([rest nd] & -> & _). apply list_elem_of_In in Hin. by exists seg, c, rest. }
  apply NoDup_app. split_and!.
  - destruct (facets n); [by apply NoDup_singleton | constructor].
  - intros segs H (seg & c & rest & -> & _)%Hhead. destruct (facets n); cbn in H; set_solver.
  - clear Hhead. clearbody kids. induction kids as [|[seg c] kids IHk]; [constructor|]. cbn [flat_map]. rewrite fmap_app.
    pose proof Hbt as [Hlt Hbt']%bt_ok_cons. apply NoDup_app. split_and!.
    + rewrite <- list_fmap_compose.
      assert (fst ∘ (λ '(segs, nd), (seg :: segs, nd)) <$> flat c = cons seg <$> (flat c).*1) as ->
        by (rewrite <- list_fmap_compose; apply list_fmap_ext; by intros i [? ?] _).
      apply NoDup_fmap_2; [by intros ? ? [=]|]. apply (IH seg c); [by left | by apply (Hkids seg c); left].
    + intros segs (x & -> & Hx)%list_elem_of_fmap (y & E & Hy)%list_elem_of_fmap.
      apply list_elem_of_fmap in Hx as ([r1 n1] & -> & _).
      apply list_elem_of_In, in_flat_map in Hy as ([seg' c'] & Hin & Hy).
      apply list_elem_of_In, list_elem_of_fmap in Hy as ([r2 n2] & -> & _). apply list_elem_of_In in Hin.
      injection E as <- _. specialize (Hlt _ _ Hin). by rewrite cmp_refl in Hlt.
    + apply IHk; [intros k c' H; apply (IH k c'); by right | done | intros seg' c' H; apply Hkids; by right].
Qed.

(** ** What an insertion does *)

Lemma keep_children_all node kids :
  DepotModel.children node = [] → bt_ok kids = true →
  keep_children node kids = MkNode (presence node) (blob node) (DepotModel.opaque node) (attrs node) (anchor node) kids.
Proof.
  intros Hn Hok. unfold keep_children. rewrite Hn. f_equal.
  assert (∀ l acc : list (list Z * Node), bt_ok (acc ++ l) = true →
    foldl (λ m '(k, v), if bt_contains k m then m else bt_insert k v m) acc l = acc ++ l) as H; [|by apply (H kids [])].
  induction l as [|[k v] l IH]; intros acc Ha; [by rewrite app_nil_r|]. cbn [foldl].
  assert (bt_ok (acc ++ [(k, v)]) = true) as Hs by (apply bt_ok_prefix in Ha; done).
  unfold bt_contains. rewrite (bt_get_snoc _ _ _ Hs), (bt_insert_snoc _ _ _ Hs).
  rewrite IH; rewrite <- app_assoc; done.
Qed.

Lemma tree_insert_ok cur segs node :
  tree_ok cur → DepotModel.children node = [] → Forall seg_ok segs → tree_ok (tree_insert cur segs node).
Proof.
  assert (tree_ok keep) as Hkeep by (constructor; [done | intros ? ? []%not_elem_of_nil]).
  assert (∀ cur seg c, tree_ok cur → seg_ok seg → tree_ok c → tree_ok (set_child cur seg c)) as Hset.
  { intros cur' seg c [? Hbt Hk] Hs Hc. constructor; [by apply bt_ok_insert|].
    intros seg' c' Hin. cbn in Hin. apply bt_insert_elem in Hin as [[-> ->]|Hin]; [done | by apply (Hk seg' c')]. }
  assert (∀ cur seg, tree_ok cur → tree_ok (default keep (bt_get seg (DepotModel.children cur)))) as Hget.
  { intros cur' seg [? Hbt Hk]. destruct (bt_get seg _) as [c|] eqn:E; [|done]. apply bt_get_elem in E. by apply (Hk seg c). }
  intros Hcur Hn Hs. revert cur Hcur. induction Hs as [|seg segs Hseg Hs IH]; intros cur Hcur; [done|].
  destruct segs as [|seg' segs].
  - cbn. apply Hset; [done | done|]. specialize (Hget cur seg Hcur). inversion Hget as [e Hbt Hk]; subst.
    rewrite keep_children_all by done. constructor; [done | exact Hk].
  - cbn [tree_insert]. apply Hset; [done | done|]. apply IH. by apply Hget.
Qed.

Lemma found_keep segs : found keep segs = None.
Proof. by destruct segs. Qed.

Lemma found_insert cur segs node segs' :
  tree_ok cur → DepotModel.children node = [] → segs ≠ [] →
  found (tree_insert cur segs node) segs' = if decide (segs' = segs) then facets node else found cur segs'.
Proof.
  intros Hcur Hn Hne. revert cur segs' Hcur. induction segs as [|seg segs IH]; intros cur segs' Hcur; [done|].
  assert (∀ s rest, (bt_get s (DepotModel.children cur) ≫= λ c, found c rest) =
    found (default keep (bt_get s (DepotModel.children cur))) rest) as Hdef.
  { intros s rest. destruct (bt_get s (DepotModel.children cur)); [done|]. cbn. by rewrite found_keep. }
  assert (tree_ok (default keep (bt_get seg (DepotModel.children cur)))) as Hchild.
  { inversion Hcur as [? Hbt Hk]; subst. destruct (bt_get seg (DepotModel.children cur)) as [c|] eqn:E;
      [apply bt_get_elem in E; by apply (Hk seg c) | by constructor; [|intros ? ? []%not_elem_of_nil]]. }
  destruct segs as [|seg2 segs].
  - cbn [tree_insert]. destruct segs' as [|s rest]; [done|]. cbn [found set_child DepotModel.children].
    rewrite bt_get_insert. destruct (decide (s = seg)) as [->|Hs]; [|by rewrite decide_False by congruence].
    cbn [mbind option_bind]. inversion Hchild as [? Hbt Hk]; subst. rewrite keep_children_all by done.
    destruct rest as [|s2 rest]; [by rewrite decide_True|]. rewrite decide_False by congruence.
    rewrite Hdef. done.
  - change (tree_insert cur (seg :: seg2 :: segs) node) with
      (set_child cur seg (tree_insert (default keep (bt_get seg (DepotModel.children cur))) (seg2 :: segs) node)).
    destruct segs' as [|s rest]; [done|]. cbn [found set_child DepotModel.children]. rewrite bt_get_insert.
    destruct (decide (s = seg)) as [->|Hs]; [|by rewrite decide_False by congruence]. cbn [mbind option_bind].
    rewrite IH by done. rewrite Hdef. destruct (decide (rest = seg2 :: segs)) as [->|Hr]; [by rewrite decide_True|].
    by rewrite decide_False by congruence.
Qed.

(** ** The exported tree *)

Definition row_name_ok (name : text) : Prop := name ≠ [] ∧ Forall seg_ok (split_on SLASH name).

(** A store an export represents: no row for the root, names that are paths,
    numbers in range *)
Definition exportable (s : Store) : Prop :=
  ∀ name r, sqlar s !! name = Some r → row_name_ok name ∧ row_fits r ∧ side_fits s name.

(** A name below a deletion: its row is not visible. *)
Definition deleted (s : Store) (name : text) : Prop :=
  ∃ r, sqlar s !! name = Some r ∧ mode r = S_IFCHR ∧ Z.testbit (BoxStore.opaque r) 1 = false.
Definition buried (s : Store) (name : text) : Prop :=
  ∃ anc tail, name = anc ++ SLASH :: tail ∧ deleted s anc.

Lemma deleted_content s name : deleted s name ↔ content s name = Some tombstone.
Proof.
  unfold deleted, content. destruct (sqlar s !! name) as [r|]; cbn; [|naive_solver].
  transitivity (mode r = S_IFCHR ∧ Z.testbit (BoxStore.opaque r) 1 = false); [naive_solver|]. unfold export_node.
  destruct (Z.eqb_spec (mode r) S_IFCHR) as [E|E]; [|split; [by intros [? _]|done]].
  destruct (Z.testbit (BoxStore.opaque r) 1); naive_solver.
Qed.

(** ** Rows that say the same *)

(** The bytes of a file or a link *)
Definition row_bytes (s : Store) (r : Row) : list Z :=
  match data r with
  | Some d => d
  | None => if file_type (mode r) =? FT_LNK then [] else default [] (pool s !! rowid r)
  end.
Definition has_bytes (m : Z) : Prop := file_type m ∉ [FT_DIR; FT_FIFO; FT_BLK; FT_CHR].

(** Two rows of a name, row numbers aside: the same deletion or hole, or the same
    mode, time, bytes, marks, owner, device and extended attributes *)
Definition same_row (s s' : Store) (name : text) (r r' : Row) : Prop :=
  mode r' = mode r ∧ Z.testbit (BoxStore.opaque r') 1 = Z.testbit (BoxStore.opaque r) 1 ∧
  (mode r ≠ S_IFCHR →
    mtime r' = mtime r ∧ same_side s s' name ∧
    (file_type (mode r) = FT_DIR → Z.testbit (BoxStore.opaque r') 0 = Z.testbit (BoxStore.opaque r) 0) ∧
    (has_bytes (mode r) → row_bytes s' r' = row_bytes s r)).

Lemma show_inj z z' : i64_ok z → i64_ok z' → show_int z = show_int z' → z = z'.
Proof. intros H H' E. pose proof (parse_show_i64 z H) as P. rewrite E, parse_show_i64 in P by done. by injection P. Qed.

Lemma row_blob_bytes s r : has_bytes (mode r) → row_blob s r = SetBlob (row_bytes s r).
Proof.
  unfold has_bytes, row_blob, row_bytes. rewrite !not_elem_of_cons. intros (H1 & H2 & H3 & H4 & _).
  rewrite (proj2 (Z.eqb_neq _ _) H1), (proj2 (Z.eqb_neq _ _) H2), (proj2 (Z.eqb_neq _ _) H3), (proj2 (Z.eqb_neq _ _) H4). cbn.
  destruct (file_type (mode r) =? FT_LNK), (data r); done.
Qed.

Lemma row_attrs_inj s s' name m t m' t' :
  side_fits s name → side_fits s' name → 0 ≤ m < u32_limit → 0 ≤ m' < u32_limit → i64_ok t → i64_ok t' →
  row_attrs s name m t = row_attrs s' name m' t' → m' = m ∧ t' = t ∧ same_side s s' name.
Proof.
  intros [Fo Fr _] [Fo' Fr' _] Hm Hm' Ht Ht' E.
  destruct (row_attrs_known s name m t) as (Am & At & Au & Ag & Ad & Ax).
  destruct (row_attrs_known s' name m' t') as (Am' & At' & Au' & Ag' & Ad' & Ax').
  rewrite E in Am, At, Au, Ag, Ad, Ax. rewrite Am in Am'. rewrite At in At'. rewrite Au in Au'. rewrite Ag in Ag'.
  rewrite Ad in Ad'. split_and!; [| |split_and!].
  - pose proof (parse_show_u32 m Hm) as P. injection Am' as Am'. rewrite Am' in P. rewrite parse_show_u32 in P by done. congruence.
  - injection At' as At'. by apply show_inj.
  - destruct (ownership s !! name) as [[u g]|], (ownership s' !! name) as [[u' g']|]; simplify_eq/=; [|done].
    destruct (Fo u g eq_refl), (Fo' u' g' eq_refl). by rewrite (show_inj u u'), (show_inj g g').
  - destruct (rdevs s !! name) as [d|], (rdevs s' !! name) as [d'|]; simplify_eq/=; [|done].
    by rewrite (show_inj d d') by auto.
  - intros k. by rewrite <- Ax, Ax'.
Qed.

(** Rows that export the same node say the same. *)
Lemma export_node_inj s s' name r r' :
  row_fits r → row_fits r' → side_fits s name → side_fits s' name →
  export_node s name r = export_node s' name r' → same_row s s' name r r'.
Proof.
  intros [Hm Ht] [Hm' Ht'] Hs Hs'. unfold export_node, same_row.
  fold (row_attrs s name (mode r) (mtime r)) (row_attrs s' name (mode r') (mtime r')).
  destruct (Z.eqb_spec (mode r) S_IFCHR) as [E|E], (Z.eqb_spec (mode r') S_IFCHR) as [E'|E'].
  - rewrite E, E'. destruct (Z.testbit (BoxStore.opaque r) 1), (Z.testbit (BoxStore.opaque r') 1); naive_solver.
  - destruct (Z.testbit (BoxStore.opaque r) 1); naive_solver.
  - destruct (Z.testbit (BoxStore.opaque r') 1); naive_solver.
  - intros Heq.
    assert (row_blob s r = row_blob s' r' ∧
      (file_type (mode r) =? FT_DIR) && Z.testbit (BoxStore.opaque r) 0 = (file_type (mode r') =? FT_DIR) && Z.testbit (BoxStore.opaque r') 0 ∧
      row_attrs s name (mode r) (mtime r) = row_attrs s' name (mode r') (mtime r') ∧
      Z.testbit (BoxStore.opaque r') 1 = Z.testbit (BoxStore.opaque r) 1) as (Hb & Ho & Ha & Hk).
    { pose proof (f_equal blob Heq) as Hb. pose proof (f_equal DepotModel.opaque Heq) as Ho. pose proof (f_equal attrs Heq) as Ha.
      pose proof (f_equal anchor Heq) as Hk. cbn [blob DepotModel.opaque attrs anchor] in Hb, Ho, Ha, Hk.
      split_and!; [done|done|by injection Ha|]. revert Hk.
      by destruct (Z.testbit (BoxStore.opaque r) 1), (Z.testbit (BoxStore.opaque r') 1). }
    apply row_attrs_inj in Ha as (Em & Et & Hside); [|done..]. split_and!; [done|done|]. intros _. split_and!; [done|done| |].
    + intros Hd. rewrite Em, Hd in Ho. done.
    + intros Hh. rewrite !row_blob_bytes in Hb by (by rewrite ?Em). by injection Hb.
Qed.

Lemma rows_by_name_spec s :
  bt_ok (rows_by_name s) = true ∧ ∀ name, bt_get name (rows_by_name s) = sqlar s !! name.
Proof.
  assert (∀ l : list (list Z * Row), NoDup l.*1 →
    bt_ok (foldr (λ '(name, r) m, bt_insert name r m) [] l) = true ∧
    ∀ name, bt_get name (foldr (λ '(name, r) m, bt_insert name r m) [] l) = (list_to_map l : gmap _ _) !! name) as H.
  { induction l as [|[n r] l IH]; intros Hnd; [done|]. apply NoDup_cons in Hnd as [_ Hnd]. destruct (IH Hnd) as [I1 I2].
    cbn [foldr list_to_map fst snd uncurry]. split; [by apply bt_ok_insert|]. intros name.
    rewrite bt_get_insert, lookup_insert. repeat case_decide; congruence || apply I2. }
  unfold rows_by_name. destruct (H (map_to_list (sqlar s)) (NoDup_fst_map_to_list _)) as [H1 H2].
  split; [done|]. intros name. by rewrite H2, list_to_map_to_list.
Qed.

(** The rows inserted one after the other *)
Lemma found_rows s (l : list (list Z * Row)) root0 :
  bt_ok l = true → (∀ name r, (name, r) ∈ l → row_name_ok name) → tree_ok root0 →
  let root1 := foldl (export_row s) root0 l in
  tree_ok root1 ∧ DepotModel.opaque root1 = DepotModel.opaque root0 ∧
  found root1 [] = found root0 [] ∧
  ∀ segs, segs ≠ [] → Forall seg_ok segs →
    found root1 segs = match bt_get (joined [] segs) l with
      Some r => Some (export_node s (joined [] segs) r) | None => found root0 segs end.
Proof.
  cbn zeta. revert root0. induction l as [|[name r] l IH]; intros root0 Hbt Hnames Hok; [done|]. cbn [foldl].
  destruct (Hnames name r ltac:(by left)) as [Hne Hsegs]. pose proof Hbt as [_ Hbt']%bt_ok_cons.
  assert (export_row s root0 (name, r) = tree_insert root0 (split_on SLASH name) (export_node s name r)) as E by (by destruct name).
  assert (split_on SLASH name ≠ []) as Hsp by (intros H; destruct name; cbn in H; repeat case_match; done).
  destruct (IH (export_row s root0 (name, r))) as (I1 & I2 & I3 & I4); [done | intros n' r' H; apply (Hnames n' r'); by right | |].
  { rewrite E. apply tree_insert_ok; [done | apply export_childless | done]. }
  split_and!; [done | | |].
  - rewrite I2, E. destruct (split_on SLASH name) as [|x [|y ?]]; done.
  - rewrite I3, E, found_insert by (done || apply export_childless). by rewrite decide_False by done.
  - intros segs Hs Hsok. rewrite I4 by done. cbn [bt_get]. rewrite E, found_insert by (done || apply export_childless).
    destruct (decide (segs = split_on SLASH name)) as [->|Hd].
    + rewrite joined_split by done. rewrite cmp_refl, (bt_get_None_lt _ _ _ Hbt). apply export_bears.
    + destruct (cmp (joined [] segs) name) eqn:Ec; [|done|done]. apply cmp_eq in Ec. exfalso. apply Hd.
      rewrite <- Ec. by rewrite split_joined_root.
Qed.

Lemma export_found s :
  exportable s →
  let r := root (export_layer s) in
  tree_ok r ∧ DepotModel.opaque r = false ∧ found r [] = None ∧
  ∀ segs, segs ≠ [] → Forall seg_ok segs → found r segs = content s (joined [] segs).
Proof.
  intros Hrows. destruct (rows_by_name_spec s) as [Hbt Hget].
  destruct (found_rows s (rows_by_name s) keep Hbt) as (F1 & F2 & F3 & F4).
  - intros name r Hin. apply bt_elem_get in Hin; [|done]. rewrite Hget in Hin. by apply (Hrows name r).
  - constructor; [done | intros ? ? []%not_elem_of_nil].
  - cbn zeta. split_and!; [done | done | done|]. intros segs Hne Hs. cbn [root export_layer].
    rewrite F4, Hget by done. unfold content. destruct (sqlar s !! joined [] segs); [done|]. apply found_keep.
Qed.

(** The walk finds what is not below a tombstone. *)
Lemma walked_found n segs :
  (∀ pre post nd, segs = pre ++ post → post ≠ [] → found n pre = Some nd → is_tombstone nd = false) →
  walked n segs = found n segs.
Proof.
  revert n. induction segs as [|seg segs IH]; intros n H; [done|]. cbn [walked]. destruct (is_tombstone n) eqn:Et.
  - exfalso. specialize (H [] (seg :: segs) (bare n) eq_refl ltac:(done)).
    cbn in H. unfold facets, bears in H. rewrite Et in H. cbn in H. specialize (H eq_refl). unfold is_tombstone in *. cbn in H. congruence.
  - cbn [found] in *. destruct (bt_get seg (DepotModel.children n)) as [c|] eqn:Eg; [|done]. cbn [mbind option_bind].
    apply IH. intros pre post nd -> Hp Hf. apply (H (seg :: pre) post nd); [done | done |]. cbn. by rewrite Eg.
Qed.

Lemma walked_sub n segs nd : walked n segs = Some nd → found n segs = Some nd.
Proof.
  revert n. induction segs as [|seg segs IH]; intros n; [done|]. cbn. destruct (is_tombstone n); [done|].
  destruct (bt_get seg (DepotModel.children n)) as [c|]; [apply IH | done].
Qed.

Lemma walked_below n pre post nd :
  found n pre = Some nd → is_tombstone nd = true → post ≠ [] → walked n (pre ++ post) = None.
Proof.
  revert n. induction pre as [|seg pre IH]; intros n Hf Ht Hp.
  - cbn in Hf. unfold facets in Hf. destruct (bears n); [|done]. injection Hf as <-.
    destruct post as [|x post]; [done|]. cbn. by replace (is_tombstone n) with true.
  - cbn in *. destruct (is_tombstone n); [done|]. destruct (bt_get seg (DepotModel.children n)); [by apply IH | done].
Qed.

Lemma joined_app pre post :
  pre ≠ [] → Forall seg_ok pre → post ≠ [] → ∃ tail, joined [] (pre ++ post) = joined [] pre ++ SLASH :: tail.
Proof.
  intros Hne Hs Hp. unfold joined. rewrite foldl_app. fold (joined [] pre). destruct post as [|x post]; [done|]. cbn [foldl].
  pose proof (joined_ne pre Hne Hs) as Hj. destruct (joined [] pre) as [|c b]; [done|]. cbn [path_join].
  assert (∀ b (l : list (list Z)), b ≠ [] → ∃ t, foldl path_join b l = b ++ t) as Hf.
  { clear. intros b l. revert b. induction l as [|y l IH]; intros b Hb; [exists []; by rewrite app_nil_r|]. cbn.
    destruct (IH (path_join b y)) as [t ->]; [by destruct b|]. destruct b as [|c b]; [done|]. cbn.
    exists (SLASH :: y ++ t). by rewrite <- app_assoc. }
  destruct (Hf ((c :: b) ++ SLASH :: x) post) as [t ->]; [done|]. exists (x ++ t). by rewrite <- app_assoc.
Qed.

Lemma tombstone_content s name nd : content s name = Some nd → is_tombstone nd = true → nd = tombstone.
Proof.
  unfold content. destruct (sqlar s !! name) as [r|]; [|done]. intros [= <-]. unfold export_node.
  destruct (mode r =? S_IFCHR); [|done]. by destruct (Z.testbit (BoxStore.opaque r) 1).
Qed.

Lemma export_walked s name nd :
  exportable s → row_name_ok name →
  walked (root (export_layer s)) (split_on SLASH name) = Some nd ↔ content s name = Some nd ∧ ¬ buried s name.
Proof.
  intros Hex [Hne Hs]. destruct (export_found s Hex) as (_ & _ & F3 & F4). cbn zeta in *.
  assert (split_on SLASH name ≠ []) as Hsp by (intros E; destruct name as [|c n]; [done|]; cbn in E; repeat case_match; done).
  assert (found (root (export_layer s)) (split_on SLASH name) = content s name) as Hf by (rewrite F4, joined_split by done; done).
  split.
  - intros Hw. split; [rewrite <- Hf; by apply walked_sub|]. intros (anc & tail & -> & Ht%deleted_content).
    rewrite (split_on_app SLASH anc) in Hw, Hs. apply Forall_app in Hs as [Ha _].
    assert (anc ≠ []) as Hanc by (intros ->; by apply Forall_cons in Ha as [[[? _] _] _]).
    assert (split_on SLASH anc ≠ []) as Hasp by (intros E; destruct anc as [|c n]; [done|]; cbn in E; repeat case_match; done).
    rewrite (walked_below _ _ _ tombstone) in Hw; [done | by rewrite F4, joined_split by done | done|].
    intros E. destruct tail as [|c n]; [done|]; cbn in E; repeat case_match; done.
  - intros [Hc Hb]. rewrite walked_found; [congruence|]. intros pre post t E Hp Ht. destruct (is_tombstone t) eqn:Et; [|done].
    exfalso. apply Hb. pose proof Hs as Hs'. rewrite E in Hs'. apply Forall_app in Hs' as [Hpre Hpost].
    destruct pre as [|x pre]; [congruence|]. rewrite F4 in Ht by done.
    destruct (joined_app (x :: pre) post) as [tail Ej]; [done | done | done|].
    exists (joined [] (x :: pre)), tail. split; [rewrite <- Ej, <- E; by rewrite joined_split|].
    apply deleted_content. by rewrite Ht, (tombstone_content _ _ _ Ht Et).
Qed.

(** ** The walk of the import *)

Lemma content_none s name : content s name = None ↔ sqlar s !! name = None.
Proof. unfold content. by rewrite fmap_None. Qed.

(** Nodes exported by [s0], imported one after the other at names that have no row *)
Lemma import_list_spec s0 (l : list (list Z * Node)) s :
  (∀ name r, sqlar s0 !! name = Some r → row_fits r ∧ side_fits s0 name) →
  fitting s → NoDup l.*1 → (∀ name nd, (name, nd) ∈ l → content s name = None ∧ content s0 name = Some nd) →
  ∃ s', import_list l s = Ok s' ∧ fitting s' ∧
    ∀ q, content s' q = match (list_to_map l : gmap (list Z) Node) !! q with Some nd => Some nd | None => content s q end.
Proof.
  intros Hfit. revert s. induction l as [|[name nd] l IH]; intros s Hc Hnd Hl; [by exists s|].
  apply NoDup_cons in Hnd as [Hnew Hnd]. destruct (Hl name nd ltac:(by left)) as [Hfree Hfrom].
  unfold content in Hfrom. destruct (sqlar s0 !! name) as [r0|] eqn:Er; [|done]. injection Hfrom as <-.
  destruct (Hfit name r0 Er) as [Hr Hs]. apply content_none in Hfree.
  destruct (import_one_spec s s0 name r0 Hfree Hc Hs Hr) as (s1 & E1 & C1 & Hc1).
  destruct (IH s1 Hc1 Hnd) as (s' & E & Hfs & C).
  { intros q nd Hq. destruct (Hl q nd ltac:(by right)) as [H1 H2]. split; [|done]. rewrite C1, decide_False; [done|].
    intros ->. apply Hnew. apply list_elem_of_fmap. by exists (name, nd). }
  exists s'. cbn [import_list]. rewrite E1. split; [done|]. split; [done|]. intros q. rewrite C, C1. cbn [list_to_map foldr fst snd uncurry].
  rewrite lookup_insert. destruct (decide (name = q)) as [<-|Hq].
  - rewrite (not_elem_of_list_to_map_1 l) by done. by rewrite decide_True.
  - by rewrite decide_False by done.
Qed.

Lemma joined_inj a b :
  Forall seg_ok a → Forall seg_ok b → joined [] a = joined [] b → a = b.
Proof.
  intros Ha Hb E. destruct a as [|x a], b as [|y b]; [done | | |].
  - by destruct (joined_ne (y :: b)).
  - by destruct (joined_ne (x :: a)).
  - rewrite <- (split_joined_root (x :: a)), <- (split_joined_root (y :: b)) by done. by rewrite E.
Qed.

(** The names an import of an export writes are the names of the visible rows, once each. *)
Lemma export_names s :
  exportable s →
  let l := at_base [] <$> flat (root (export_layer s)) in
  NoDup l.*1 ∧ ∀ name nd, (name, nd) ∈ l ↔ content s name = Some nd ∧ ¬ buried s name.
Proof.
  intros Hex. destruct (export_found s Hex) as (F1 & _ & F3 & _). cbn zeta in *. set (r := root (export_layer s)) in *. split.
  - rewrite <- list_fmap_compose. assert ((fst ∘ at_base []) <$> flat r = joined [] <$> (flat r).*1) as ->
      by (rewrite <- list_fmap_compose; by apply list_fmap_ext).
    apply NoDup_fmap_2_strong; [|by apply flat_NoDup].
    intros a b ([a' nda] & -> & Ha)%list_elem_of_fmap ([b' ndb] & -> & Hb)%list_elem_of_fmap E.
    apply flat_segs in Ha; [|done]. apply flat_segs in Hb; [|done]. by apply joined_inj.
  - intros name nd. split.
    + intros ([segs nd'] & [= -> ->] & Hin)%list_elem_of_fmap. pose proof (flat_segs r segs nd' F1 Hin) as Hs.
      apply elem_flat in Hin; [|done]. destruct segs as [|x segs]; [cbn in F3, Hin; congruence|].
      cbn [fst snd]. rewrite <- (split_joined_root (x :: segs)) in Hin by done.
      apply export_walked in Hin; [done | done|]. split; [by apply joined_ne | by rewrite split_joined_root].
    + intros [Hc Hb]. assert (row_name_ok name) as Hn.
      { unfold content in Hc. destruct (sqlar s !! name) as [row|] eqn:Er; [|done]. by apply (Hex name row). }
      apply list_elem_of_fmap. exists (split_on SLASH name, nd). unfold at_base. cbn [fst snd].
      rewrite joined_split by apply Hn. split; [done|]. apply elem_flat; [done|]. by apply export_walked.
Qed.

(** Stores with the same content export the same layer. *)
Lemma export_ext s s' :
  (∀ name, content s name = content s' name) → content s [] = None → export_layer s = export_layer s'.
Proof.
  intros Hc Hroot. unfold export_layer. f_equal.
  set (put := λ (root : Node) (x : list Z * Node), tree_insert root (split_on SLASH x.1) x.2).
  set (nodes := λ s, (λ '(name, r), (name, export_node s name r)) <$> rows_by_name s).
  assert (∀ s, content s [] = None → ∀ n, foldl (export_row s) n (rows_by_name s) = foldl put n (nodes s)) as H.
  { intros s0 H0. destruct (rows_by_name_spec s0) as [Hbt Hget]. apply content_none in H0. rewrite <- Hget in H0.
    unfold nodes. assert (∀ r, ([], r) ∉ rows_by_name s0) as Hno
      by (intros r Hin; apply bt_elem_get in Hin; [congruence | done]).
    clear -Hno. induction (rows_by_name s0) as [|[name r] l IH]; intros n; [done|]. cbn [foldl fmap list_fmap].
    rewrite <- IH by (intros r' H; apply (Hno r'); by right). f_equal.
    destruct name as [|c name]; [destruct (Hno r); by left | done]. }
  rewrite (H s Hroot), (H s' ltac:(by rewrite <- Hc)). f_equal.
  assert (∀ s, bt_ok (nodes s) = true ∧ ∀ name, bt_get name (nodes s) = content s name) as Hn.
  { intros s0. destruct (rows_by_name_spec s0) as [Hbt Hget]. unfold content, nodes.
    split; [|intros name; rewrite <- Hget].
    - clear -Hbt. induction (rows_by_name s0) as [|[k r] l IH]; [done|]. apply bt_ok_cons in Hbt as [Hlt Hbt].
      apply bt_ok_cons. split; [|by apply IH]. intros k' v ([k2 r2] & [= -> ->] & Hin)%list_elem_of_fmap. by apply (Hlt k2 r2).
    - clear. induction (rows_by_name s0) as [|[k r] l IH]; [done|]. cbn. destruct (cmp name k) eqn:E; [by apply cmp_eq in E as -> | done | done]. }
  destruct (Hn s) as [A1 A2], (Hn s') as [B1 B2]. apply bt_ext; [done | done|]. intros k. by rewrite A2, B2.
Qed.

(** C24. A box with no row for its root, whose rows have names of non-empty UTF-8
    segments and numbers in the range of their columns ([exportable]), exported
    as a layer and imported into an emptied box: the import succeeds, and the new
    box has exactly the rows that do not lie below a deletion, each with the mode,
    time, bytes or target, opaque and backdrop marks, owner, device and extended
    attributes it had.  When nothing lies below a deletion, the new box exports
    the same layer.  (A box whose root is opaque has a row for its root and is not
    imported: [opaque_root_not_imported].) *)
Theorem export_import_roundtrip s s1 :
  exportable s → sqlar s1 = ∅ → clean s1 →
  ∃ s', import_layer s1 (export_layer s) = Ok s' ∧
    (∀ name r, sqlar s !! name = Some r → ¬ buried s name → ∃ r', sqlar s' !! name = Some r' ∧ same_row s s' name r r') ∧
    (∀ name, is_Some (sqlar s' !! name) → is_Some (sqlar s !! name) ∧ ¬ buried s name) ∧
    ((∀ name, ¬ buried s name) → export_layer s' = export_layer s).
Proof.
  intros Hex H1 Hc. destruct (export_found s Hex) as (F1 & F2 & _). destruct (export_names s Hex) as [Hnd Hin]. cbn zeta in *.
  assert (∀ q, content s1 q = None) as Hempty by (intros q; apply content_none; by rewrite H1).
  assert (fitting s1) as Hfit1 by (split; [done|]; by rewrite H1).
  set (l := at_base [] <$> flat (root (export_layer s))) in *.
  destruct (import_list_spec s l s1) as (s' & E & [_ Hfit] & C); [by intros n r Hr; apply (Hex n r) | done | done | |].
  { intros name nd H. apply Hin in H as [H _]. done. }
  assert (∀ name, ¬ buried s name → content s' name = content s name) as Hsame.
  { intros name Hb. rewrite C, Hempty. destruct (list_to_map l !! name) as [nd|] eqn:El.
    - apply elem_of_list_to_map_2, Hin in El as [El _]. done.
    - destruct (content s name) as [nd|] eqn:Es; [|done]. apply not_elem_of_list_to_map_2 in El. destruct El.
      apply list_elem_of_fmap. exists (name, nd). split; [done|]. by apply Hin. }
  exists s'. split_and!; [|intros name r Hr Hb|intros name [r' Hr']|].
  - unfold import_layer. rewrite F2. by rewrite import_flat.
  - pose proof (Hsame name Hb) as Hcont. unfold content in Hcont. rewrite Hr in Hcont.
    destruct (sqlar s' !! name) as [r'|] eqn:Er'; [|done]. injection Hcont as Hcont. exists r'. split; [done|].
    destruct (Hex name r Hr) as (_ & ? & ?), (Hfit name r' Er'). by apply export_node_inj.
  - assert (content s' name ≠ None) as Hn by (rewrite content_none; congruence). rewrite C, Hempty in Hn.
    destruct (list_to_map l !! name) as [nd|] eqn:El; [|done]. apply elem_of_list_to_map_2, Hin in El as [El ?].
    split; [|done]. unfold content in El. by destruct (sqlar s !! name).
  - intros Hnb. apply export_ext; [intros name; by apply Hsame|]. rewrite Hsame by done.
    unfold content. destruct (sqlar s !! []) as [r|] eqn:Er; [|done]. by destruct (Hex [] r Er) as [[? _] _].
Qed.

(** A box with a directory, a file in it, a deletion with a stale row below it, a
    link and a fifo *)
Definition sample_store : Store :=
  MkStore (list_to_map [(str "d", MkRow 1 16877 7 0 None 3 0 0); (str "d/f", MkRow 2 33188 (-8) 3 None 0 4 5);
      (str "gone", MkRow 3 S_IFCHR 0 0 None 0 0 0); (str "gone/x", MkRow 4 33188 1 1 (Some [9]) 0 0 0);
      (str "l", MkRow 5 41471 2 1 (Some (str "d")) 0 0 0); (str "p", MkRow 6 4534 3 0 None 2 0 0)])
    {[ str "d/f" := (1000, 100) ]} {[ str "p" := 259 ]} {[ (str "d", str "user.k") := [255] ]} ∅ {[ 2 := [1; 2; 3] ]} mirror_new ∅ ∅.

Lemma sample_exportable : exportable sample_store.
Proof.
  assert (map_Forall (λ name r, row_name_ok name ∧ row_fits r ∧ side_fits sample_store name) (sqlar sample_store)) as H; [|exact H].
  assert (∀ k v n, xattrs sample_store !! (n, k) = Some v → GitLayer.from_utf8_lossy k = k) as Hk.
  { cbn. intros k v n [[= <- <-] _]%lookup_singleton_Some. by vm_compute. }
  assert (∀ n, side_fits sample_store n) as Hside.
  { intros n. constructor; [| |by intros k v; apply Hk].
    - cbn. intros u g [_ [= <- <-]]%lookup_singleton_Some. by vm_compute.
    - cbn. intros d [_ <-]%lookup_singleton_Some. by vm_compute. }
  intros name r H%elem_of_list_to_map_2. revert H. rewrite !elem_of_cons, elem_of_nil.
  intros [E|[E|[E|[E|[E|[E|[]]]]]]]; injection E as -> ->;
    (split_and!; [split; [done|] | by vm_compute | apply Hside]);
    vm_compute split_on; repeat apply Forall_cons_2; try apply Forall_nil_2; (split; [by compute_done | by vm_compute]).
Qed.

Lemma export_import_roundtrip_witness :
  ∃ s', import_layer store_new (export_layer sample_store) = Ok s' ∧
    sqlar s' !! str "gone/x" = None ∧
    ∃ r', sqlar s' !! str "d/f" = Some r' ∧ same_row sample_store s' (str "d/f") (MkRow 2 33188 (-8) 3 None 0 4 5) r'.
Proof.
  destruct (export_import_roundtrip sample_store store_new sample_exportable) as (s' & E & Hn & Hb & _);
    [done | by intros n _; split_and!|].
  exists s'. split; [exact E|]. split; [|apply Hn; [by vm_compute|]].
  - destruct (sqlar s' !! str "gone/x") as [r'|] eqn:Er; [|done]. destruct (Hb (str "gone/x")) as [_ Hnb]; [by eexists|].
    destruct Hnb. exists (str "gone"), (str "x"). split; [by vm_compute|].
    exists (MkRow 3 S_IFCHR 0 0 None 0 0 0). split_and!; by vm_compute.
  - intros (anc & tail & E1 & r & E2 & E3 & _). change (str "d/f") with [100; 47; 102] in E1.
    destruct anc as [|a [|b [|c anc]]]; cbn [app] in E1; [discriminate E1 | | discriminate E1 |].
    + injection E1 as <- _. vm_compute in E2. injection E2 as <-. vm_compute in E3. discriminate E3.
    + injection E1 as _ _ _ E1. by destruct anc.
Defined.

(** ** The root *)

(** A box whose root is marked opaque has a row for the root; its export gives
    the root attributes without a mode, which an import refuses. *)
Theorem opaque_root_not_imported :
  let l := export_layer (set_opaque store_new 5 [] 0) in
  DepotModel.opaque (root l) = true ∧ import_layer store_new l = Err [].
Proof. by vm_compute. Qed.
