(* ===== verification/SudRing.v ===== *)
(** * The shared-memory ring of filesystem requests.

    Models [engine/src/sud_ring.rs]: slots in memory that client processes and
    the workers of the engine share, each with a state word that passes from
    hand to hand.  A thread is a program counter, and a function makes its next
    access to shared memory: every access to an atomic word is a step of its
    own, and so is every run of plain accesses between two of them.  Memory is
    sequentially consistent.  [futex_wait] may return at any time, and waking
    is not modelled.  The number of slots and the bytes of a slot are
    parameters of the steps; the code has [SLOT_COUNT] and [SLOT_DATA]. *)

From stdpp Require Import gmap functions.
From stdpp Require Import gmap functions relations.
From S2P Require Import Prelude.
Open Scope Z_scope.

Definition SLOT_COUNT : nat := 32.
Definition SLOT_DATA : Z := 32768.

Definition SLOT_FREE : Z := 0.
Definition SLOT_WRITING : Z := 1.
Definition SLOT_REQUEST : Z := 2.
Definition SLOT_PROCESSING : Z := 3.
Definition SLOT_RESPONSE : Z := 4.
Definition SLOT_CANCELLED : Z := 5.

Record Slot : Type := MkSlot {
  sl_state : Z; sl_request_len : Z; sl_response_len : Z; sl_request_id : Z;
  sl_owner_tgid : Z; sl_owner_tid : Z; sl_request : list Z; sl_response : list Z }.

(** The array of slots, by index, and the words of the header *)
Record Ring : Type := MkRing {
  rg_slots : nat → Slot; rg_shutdown : bool; rg_wake : Z; rg_next_id : Z }.

Inductive RingError : Type := InvalidInput | InvalidData | Interrupted | BrokenPipe.

(** ** Memory *)

Definition with_state (s : Slot) (v : Z) : Slot :=
  MkSlot v (sl_request_len s) (sl_response_len s) (sl_request_id s)
    (sl_owner_tgid s) (sl_owner_tid s) (sl_request s) (sl_response s).
Definition put_slot (r : Ring) (i : nat) (s : Slot) : Ring :=
  MkRing (<[i := s]> (rg_slots r)) (rg_shutdown r) (rg_wake r) (rg_next_id r).

(** An atomic load, store and [compare_exchange] of a slot's state *)
Definition load_state (r : Ring) (i : nat) : Z := sl_state (rg_slots r i).
Definition store_state (r : Ring) (i : nat) (v : Z) : Ring := put_slot r i (with_state (rg_slots r i) v).
Definition cas_state (r : Ring) (i : nat) (expected new : Z) : Ring * bool :=
  if load_state r i =? expected then (store_state r i new, true) else (r, false).

(** [wake.fetch_add(1)] *)
Definition bump_wake (r : Ring) : Ring :=
  MkRing (rg_slots r) (rg_shutdown r) ((rg_wake r + 1) mod 2 ^ 32) (rg_next_id r).
(** [next_id.fetch_add(1).wrapping_add(1)] *)
Definition take_id (r : Ring) : Ring * Z :=
  let id := (rg_next_id r + 1) mod 2 ^ 32 in (MkRing (rg_slots r) (rg_shutdown r) (rg_wake r) id, id).

(** [copy_nonoverlapping] to the start of an array *)
Definition copy_into (src dst : list Z) : list Z := src ++ drop (length src) dst.

(** ** A client: one call of [request] *)

Inductive Cpc : Type :=
| CBegin
| CEnter                                     (** the head of [claim_slot]'s loop *)
| CObserve                                   (** load [wake], advance the cursor *)
| CScan (observed : Z) (start off : nat)     (** the attempt at [start + off] *)
| CPark (observed : Z)                       (** [futex_wait(wake, observed)] *)
| CClaimed (i : nat)
| CNumbered (i : nat) (id : Z)
| CFilled (i : nat)
| CPublished (i : nat)
| CPoll (i : nat)
| CCurrent (i : nat) (current : Z)           (** neither answered nor cancelled *)
| CWait (i : nat) (current : Z)              (** [futex_wait(state, current)] *)
| CStop (i : nat) (current : Z)              (** shutdown seen *)
| CReply (i : nat)
| CRelease (i : nat) (res : Result (list Z) RingError) (notify : bool)
| CNotify (res : Result (list Z) RingError)
| CDone (res : Result (list Z) RingError).

Record Call : Type := MkCall { c_tgid : Z; c_tid : Z; c_req : list Z; c_pc : Cpc }.
Definition with_pc (c : Call) (pc : Cpc) : Call := MkCall (c_tgid c) (c_tid c) (c_req c) pc.

(** The fields a client writes before it publishes its request *)
Definition fill_slot (s : Slot) (c : Call) (id : Z) : Slot :=
  MkSlot (sl_state s) (zlen (c_req c)) 0 id (c_tgid c) (c_tid c) (copy_into (c_req c) (sl_request s)) (sl_response s).

(** [start] is what the cursor gives. *)
Definition client_step (count : nat) (data : Z) (start : nat) (r : Ring) (c : Call) : Ring * Cpc :=
  match c_pc c with
  | CBegin => (r, if data <? zlen (c_req c) then CDone (Err InvalidInput) else CEnter)
  | CEnter => (r, if rg_shutdown r then CDone (Err BrokenPipe) else CObserve)
  | CObserve => (r, CScan (rg_wake r) start 0)
  | CScan observed start off =>
      if (off <? count)%nat then
        let i := ((start + off) mod count)%nat in
        let '(r, ok) := cas_state r i SLOT_FREE SLOT_WRITING in
        (r, if ok then CClaimed i else CScan observed start (S off))
      else (r, CPark observed)
  | CPark _ => (r, CEnter)
  | CClaimed i => let '(r, id) := take_id r in (r, CNumbered i id)
  | CNumbered i id => (put_slot r i (fill_slot (rg_slots r i) c id), CFilled i)
  | CFilled i => (store_state r i SLOT_REQUEST, CPublished i)
  | CPublished i => (bump_wake r, CPoll i)
  | CPoll i =>
      let v := load_state r i in
      (r, if v =? SLOT_RESPONSE then CReply i
          else if v =? SLOT_CANCELLED then CRelease i (Err Interrupted) true
          else CCurrent i v)
  | CCurrent i v => (r, if rg_shutdown r then CStop i v else CWait i v)
  | CWait i _ => (r, CPoll i)
  | CStop i v => ((cas_state r i v SLOT_CANCELLED).1, CDone (Err BrokenPipe))
  | CReply i =>
      let n := sl_response_len (rg_slots r i) in
      (r, if data <? n then CRelease i (Err InvalidData) false
          else CRelease i (Ok (take (Z.to_nat n) (sl_response (rg_slots r i)))) true)
  | CRelease i res notify => (store_state r i SLOT_FREE, if notify then CNotify res else CDone res)
  | CNotify res => (bump_wake r, CDone res)
  | CDone res => (r, CDone res)
  end.

(** ** A worker of the engine: [wait], the decoder, and [complete] or [cancel] *)

Inductive Wpc : Type :=
| WIdle                                      (** the head of [wait]'s loop *)
| WNext                                      (** [next] *)
| WScan (start off : nat)
| WTaken (i : nat)
| WHandle (i : nat) (bytes : list Z)
| WComplete (i : nat) (response : list Z)
| WWrite (i : nat) (response : list Z)
| WPublish (i : nat)
| WCancel (i : nat) (stop : bool)
| WEmpty                                     (** nothing found: is it a shutdown? *)
| WPark
| WStopped.

(** [answer] is what the decoder makes of the request: a response, or nothing
    that can be answered.  After a request longer than a slot, which no client
    writes, the worker starts a new scan here and goes on with its scan in the
    code. *)
Definition worker_step (count : nat) (data : Z) (start : nat) (answer : option (list Z)) (r : Ring) (pc : Wpc)
    : Ring * Wpc :=
  match pc with
  | WIdle => (r, WNext)
  | WNext => (r, if rg_shutdown r then WEmpty else WScan start 0)
  | WScan start off =>
      if (off <? count)%nat then
        let i := ((start + off) mod count)%nat in
        let '(r, ok) := cas_state r i SLOT_REQUEST SLOT_PROCESSING in
        (r, if ok then WTaken i else WScan start (S off))
      else (r, WEmpty)
  | WTaken i =>
      let n := sl_request_len (rg_slots r i) in
      if data <? n then (store_state r i SLOT_CANCELLED, WIdle)
      else (r, WHandle i (take (Z.to_nat n) (sl_request (rg_slots r i))))
  | WHandle i _ => (r, match answer with Some response => WComplete i response | None => WCancel i false end)
  | WComplete i response =>
      (r, if data <? zlen response then WCancel i true
          else if load_state r i =? SLOT_PROCESSING then WWrite i response else WIdle)
  | WWrite i response =>
      let s := rg_slots r i in
      (put_slot r i (MkSlot (sl_state s) (sl_request_len s) (zlen response) (sl_request_id s)
        (sl_owner_tgid s) (sl_owner_tid s) (sl_request s) (copy_into response (sl_response s))), WPublish i)
  | WPublish i => ((cas_state r i SLOT_PROCESSING SLOT_RESPONSE).1, WIdle)
  | WCancel i stop => ((cas_state r i SLOT_PROCESSING SLOT_CANCELLED).1, if stop then WStopped else WIdle)
  | WEmpty => (r, if rg_shutdown r then WStopped else WPark)
  | WPark => (r, WIdle)
  | WStopped => (r, WStopped)
  end.

(** ** The reaper: [reap_dead_owners] and [reap_tgid] *)

Inductive Rpc : Type :=
| RIdle
| RCollect (i : nat) (owners : list Z)
| ROwner (i : nat) (owners : list Z)
| RTest (owners : list Z)
| RScan (tgid : Z) (i : nat) (reaped : Z) (owners : list Z)
| RLoad (tgid : Z) (i : nat) (reaped : Z) (owners : list Z)
| RCas (tgid : Z) (i : nat) (reaped : Z) (owners : list Z) (current : Z)
| RStopped.

Definition reapable (v : Z) : bool :=
  (v =? SLOT_WRITING) || (v =? SLOT_REQUEST) || (v =? SLOT_RESPONSE) || (v =? SLOT_CANCELLED).

(** [BTreeSet::insert] *)
Fixpoint insert_owner (o : Z) (l : list Z) : list Z :=
  match l with
  | [] => [o]
  | x :: l => if o <? x then o :: x :: l else if o =? x then x :: l else x :: insert_owner o l
  end.

(** [dead] is what [kill(owner, 0)] finds out. *)
Definition reaper_step (count : nat) (dead : Z → bool) (r : Ring) (pc : Rpc) : Ring * Rpc :=
  match pc with
  | RIdle => (r, if rg_shutdown r then RStopped else RCollect 0 [])
  | RCollect i owners =>
      if (i <? count)%nat then (r, if reapable (load_state r i) then ROwner i owners else RCollect (S i) owners)
      else (r, RTest owners)
  | ROwner i owners =>
      let o := sl_owner_tgid (rg_slots r i) in
      (r, RCollect (S i) (if 0 <? o then insert_owner o owners else owners))
  | RTest [] => (r, RIdle)
  | RTest (o :: owners) => (r, if dead o then RScan o 0 0 owners else RTest owners)
  | RScan tgid i reaped owners =>
      if (i <? count)%nat then
        (r, if sl_owner_tgid (rg_slots r i) =? tgid then RLoad tgid i reaped owners else RScan tgid (S i) reaped owners)
      else (if reaped =? 0 then r else bump_wake r, RTest owners)
  | RLoad tgid i reaped owners =>
      let v := load_state r i in
      (r, if reapable v then RCas tgid i reaped owners v else RScan tgid (S i) reaped owners)
  | RCas tgid i reaped owners v =>
      let '(r, ok) := cas_state r i v SLOT_FREE in
      (r, RScan tgid (S i) (if ok then reaped + 1 else reaped) owners)
  | RStopped => (r, RStopped)
  end.

(** ** The session

    [holders] and [handled] are not in the memory: the call that claimed a slot
    last, and the requests the decoder was given, with what it made of them. *)

Record Session : Type := MkSession {
  ring : Ring; calls : gmap nat Call; servers : gmap nat Wpc; cleaner : Rpc;
  holders : gmap nat nat; serving : gmap nat nat; handled : list (nat * (list Z * option (list Z))) }.

(** The memory of a new file is zero. *)
Definition slot_new (data : Z) : Slot :=
  let zeros := replicate (Z.to_nat data) 0 in MkSlot SLOT_FREE 0 0 0 0 0 zeros zeros.
Definition ring_new (data : Z) : Ring := MkRing (λ _, slot_new data) false 0 0.
Definition session_new (data : Z) (n : nat) : Session :=
  MkSession (ring_new data) ∅ (list_to_map ((λ k, (k, WIdle)) <$> seq 0 n)) RIdle ∅ ∅ [].

Definition claims (c : nat) (pc : Cpc) (m : gmap nat nat) : gmap nat nat :=
  match pc with CClaimed i => <[i := c]> m | _ => m end.
Definition takes (k : nat) (pc : Wpc) (m : gmap nat nat) : gmap nat nat :=
  match pc with WTaken i => <[i := k]> m | _ => m end.
Definition hands (m : gmap nat nat) (answer : option (list Z)) (pc : Wpc) : list (nat * (list Z * option (list Z))) :=
  match pc with
  | WHandle i bytes => match m !! i with Some c => [(c, (bytes, answer))] | None => [] end
  | _ => []
  end.

Definition run_call (count : nat) (data : Z) (w : Session) (c : nat) (start : nat) (call : Call) : Session :=
  let '(r, pc) := client_step count data start (ring w) call in
  MkSession r (<[c := with_pc call pc]> (calls w)) (servers w) (cleaner w) (claims c pc (holders w)) (serving w) (handled w).
Definition run_worker (count : nat) (data : Z) (w : Session) (k : nat) (start : nat) (answer : option (list Z)) (pc : Wpc)
    : Session :=
  let '(r, pc') := worker_step count data start answer (ring w) pc in
  MkSession r (calls w) (<[k := pc']> (servers w)) (cleaner w) (holders w) (takes k pc' (serving w))
    (handled w ++ hands (holders w) answer pc).
Definition run_reaper (count : nat) (w : Session) (dead : Z → bool) : Session :=
  let '(r, pc) := reaper_step count dead (ring w) (cleaner w) in
  MkSession r (calls w) (servers w) pc (holders w) (serving w) (handled w).
(** [shutdown]: the flag and the wake-up count, as one step *)
Definition run_shutdown (w : Session) : Session :=
  let r := ring w in
  MkSession (bump_wake (MkRing (rg_slots r) true (rg_wake r) (rg_next_id r)))
    (calls w) (servers w) (cleaner w) (holders w) (serving w) (handled w).
Definition run_enter (w : Session) (c : nat) (tgid tid : Z) (req : list Z) : Session :=
  MkSession (ring w) (<[c := MkCall tgid tid req CBegin]> (calls w)) (servers w) (cleaner w)
    (holders w) (serving w) (handled w).

(** One step of one thread.  The reaper runs only [with_reaper]: a session of
    one trusted caller has none. *)
Inductive ring_step (count : nat) (data : Z) (with_reaper : bool) (w : Session) : Session → Prop :=
| RingEnter c tgid tid req : calls w !! c = None → ring_step count data with_reaper w (run_enter w c tgid tid req)
| RingCall c start call : calls w !! c = Some call → ring_step count data with_reaper w (run_call count data w c start call)
| RingWorker k start answer pc :
    servers w !! k = Some pc → ring_step count data with_reaper w (run_worker count data w k start answer pc)
| RingReaper dead : with_reaper = true → ring_step count data with_reaper w (run_reaper count w dead)
| RingShutdown : ring_step count data with_reaper w (run_shutdown w).

Definition ring_reachable (count : nat) (data : Z) (with_reaper : bool) (n : nat) (w : Session) : Prop :=
  rtc (ring_step count data with_reaper) (session_new data n) w.

(** * Replies of the ring are neither crossed nor given twice *)

(** ** The invariant *)

Definition slot (w : Session) (i : nat) : Slot := rg_slots (ring w) i.
Definition state (w : Session) (i : nat) : Z := sl_state (slot w i).

(** The slot holds the request [req], the response [resp]. *)
Definition filled (s : Slot) (req : list Z) : Prop :=
  sl_request_len s = zlen req ∧ take (length req) (sl_request s) = req.
Definition answered (s : Slot) (resp : list Z) : Prop :=
  sl_response_len s = zlen resp ∧ take (length resp) (sl_response s) = resp.

Definition unhandled (w : Session) (c : nat) : Prop := c ∉ (handled w).*1.
Definition given (w : Session) (c : nat) (req resp : list Z) : Prop := (c, (req, Some resp)) ∈ handled w.

(** Where a call holds a slot *)
Definition at_slot (pc : Cpc) : option nat :=
  match pc with
  | CClaimed i | CNumbered i _ | CFilled i | CPublished i | CPoll i | CCurrent i _ | CWait i _ | CStop i _
  | CReply i | CRelease i _ _ => Some i
  | _ => None
  end.
Definition before_claim (pc : Cpc) : bool :=
  match pc with CBegin | CEnter | CObserve | CScan _ _ _ | CPark _ => true | _ => false end.

Definition writing (pc : Cpc) : bool := match pc with CClaimed _ | CNumbered _ _ | CFilled _ => true | _ => false end.

Definition inflight (w : Session) (c i : nat) (req : list Z) : Prop :=
  (state w i = SLOT_REQUEST ∨ state w i = SLOT_PROCESSING ∨ state w i = SLOT_RESPONSE ∨ state w i = SLOT_CANCELLED) ∧
  (state w i = SLOT_RESPONSE → ∃ resp, answered (slot w i) resp ∧ given w c req resp).

Definition result_ok (w : Session) (c : nat) (req : list Z) (res : Result (list Z) RingError) : Prop :=
  match res with Ok resp => given w c req resp | Err _ => True end.

Definition call_at (w : Session) (c : nat) (call : Call) : Prop :=
  match c_pc call with
  | CBegin | CEnter | CObserve | CScan _ _ _ | CPark _ => unhandled w c
  | CClaimed i | CNumbered i _ => state w i = SLOT_WRITING ∧ unhandled w c
  | CFilled i => state w i = SLOT_WRITING ∧ unhandled w c ∧ filled (slot w i) (c_req call)
  | CPublished i | CPoll i | CWait i _ => inflight w c i (c_req call)
  | CCurrent i v | CStop i v => inflight w c i (c_req call) ∧ (v = SLOT_REQUEST ∨ v = SLOT_PROCESSING)
  | CReply i => state w i = SLOT_RESPONSE ∧ ∃ resp, answered (slot w i) resp ∧ given w c (c_req call) resp
  | CRelease i res _ => (state w i = SLOT_RESPONSE ∨ state w i = SLOT_CANCELLED) ∧ result_ok w c (c_req call) res
  | CNotify res | CDone res => result_ok w c (c_req call) res
  end.
Definition call_ok (w : Session) (c : nat) (call : Call) : Prop :=
  (∀ i, at_slot (c_pc call) = Some i → holders w !! i = Some c) ∧ call_at w c call.

(** Where a worker has a slot *)
Definition works_at (pc : Wpc) : option nat :=
  match pc with
  | WTaken i | WHandle i _ | WComplete i _ | WWrite i _ | WPublish i | WCancel i _ => Some i
  | _ => None
  end.

Definition held (w : Session) (i c : nat) (req : list Z) : Prop :=
  holders w !! i = Some c ∧ c_req <$> calls w !! c = Some req.
Definition abandoned (w : Session) (i : nat) : Prop :=
  ∀ c call, calls w !! c = Some call → at_slot (c_pc call) ≠ Some i.

Definition worker_at (w : Session) (pc : Wpc) : Prop :=
  match pc with
  | WTaken i => ∃ c req, held w i c req ∧ filled (slot w i) req ∧ unhandled w c
  | WHandle i bytes => ∃ c, held w i c bytes ∧ unhandled w c
  | WComplete i resp | WWrite i resp => ∃ c req, held w i c req ∧ given w c req resp
  | WPublish i => ∃ c req resp, held w i c req ∧ given w c req resp ∧ answered (slot w i) resp
  | _ => True
  end.
Definition worker_ok (w : Session) (k : nat) (pc : Wpc) : Prop :=
  (∀ i, works_at pc = Some i → serving w !! i = Some k ∧
     (state w i = SLOT_PROCESSING ∨ state w i = SLOT_CANCELLED ∧ abandoned w i)) ∧
  worker_at w pc.

Record session_ok (w : Session) : Prop := {
  so_calls : ∀ c call, calls w !! c = Some call → call_ok w c call;
  so_workers : ∀ k pc, servers w !! k = Some pc → worker_ok w k pc;
  so_requests : ∀ i, state w i = SLOT_REQUEST → ∃ c req, held w i c req ∧ filled (slot w i) req ∧ unhandled w c;
  so_holders : ∀ i c, holders w !! i = Some c → ∃ call, calls w !! c = Some call ∧ before_claim (c_pc call) = false;
  so_apart : ∀ i j c, holders w !! i = Some c → holders w !! j = Some c → i = j;
  so_once : NoDup (handled w).*1;
  so_handled : ∀ c req a, (c, (req, a)) ∈ handled w → c_req <$> calls w !! c = Some req }.

(** ** What a step leaves alone *)

(** Everything that concerns the slot [j] is as before. *)
Definition same_at (w w' : Session) (j : nat) : Prop :=
  slot w' j = slot w j ∧ holders w' !! j = holders w !! j.

Lemma call_frame w w' c call :
  (∀ i, at_slot (c_pc call) = Some i → same_at w w' i) →
  handled w ⊆ handled w' → (before_claim (c_pc call) || writing (c_pc call) = true → unhandled w c → unhandled w' c) →
  call_ok w c call → call_ok w' c call.
Proof.
  intros Hs Hh Hu [Ho Ha]. split.
  - intros i Hi. destruct (Hs i Hi) as [_ E]. rewrite E. by apply Ho.
  - assert (∀ req resp, given w c req resp → given w' c req resp) as Hg by (intros req resp; apply Hh).
    unfold call_at, state, inflight, result_ok in *. unfold state in *.
    destruct (c_pc call); cbn [at_slot before_claim writing orb] in Hs, Hu; try (destruct (Hs _ eq_refl) as [E _]; rewrite ?E); repeat case_match; naive_solver.
Qed.

(** No call forgets its request. *)
Definition keeps (w w' : Session) : Prop :=
  ∀ c req, c_req <$> calls w !! c = Some req → c_req <$> calls w' !! c = Some req.

Lemma held_frame w w' i c req : same_at w w' i → keeps w w' → held w i c req → held w' i c req.
Proof. intros [_ E] Hk [H1 H2]. split; [by rewrite E | by apply Hk]. Qed.

Lemma worker_frame w w' k pc :
  (∀ i, works_at pc = Some i → same_at w w' i ∧ serving w' !! i = serving w !! i ∧ (abandoned w i → abandoned w' i)) →
  keeps w w' → handled w ⊆ handled w' → (∀ i c, works_at pc = Some i → holders w !! i = Some c → unhandled w c → unhandled w' c) →
  worker_ok w k pc → worker_ok w' k pc.
Proof.
  intros Hs Hk Hh Hu [Ho Ha]. split.
  - intros i Hi. destruct (Hs i Hi) as ([E1 _] & E2 & Hab). unfold state. rewrite E1, E2. destruct (Ho i Hi) as [H1 [H2|[H2 H3]]]; auto.
  - assert (∀ c req resp, given w c req resp → given w' c req resp) as Hg by (intros c req resp; apply Hh).
    unfold worker_at in *. destruct pc; cbn [works_at] in Hs, Hu; try done; destruct (Hs _ eq_refl) as ([E1 E2] & _ & _); rewrite ?E1.
    + destruct Ha as (c & req & Hd & Hf & Hn). exists c, req. split_and!; [by apply (held_frame w) | done | apply (Hu i c); [done | apply Hd | done]].
    + destruct Ha as (c & Hd & Hn). exists c. split; [by apply (held_frame w) | apply (Hu i c); [done | apply Hd | done]].
    + destruct Ha as (c & req & Hd & Hn). exists c, req. split; [by apply (held_frame w) | auto].
    + destruct Ha as (c & req & Hd & Hn). exists c, req. split; [by apply (held_frame w) | auto].
    + destruct Ha as (c & req & resp & Hd & Hn & Hr). exists c, req, resp. split_and!; [by apply (held_frame w) | auto | done].
Qed.

(** ** Steps of a call *)

Definition after_call (w : Session) (c : nat) (call : Call) (r : Ring) (pc : Cpc) : Session :=
  MkSession r (<[c := with_pc call pc]> (calls w)) (servers w) (cleaner w) (claims c pc (holders w)) (serving w) (handled w).

Lemma after_keeps w c call r pc : calls w !! c = Some call → keeps w (after_call w c call r pc).
Proof.
  intros Hc q req. cbn. destruct (decide (c = q)) as [<-|Hq]; [by rewrite Hc, lookup_insert_eq | by rewrite lookup_insert_ne].
Qed.

(** A step that changes at most the slot [i], which no other call has and no
    worker but those accounted for *)
Lemma call_step_ok w c call r pc i :
  session_ok w → calls w !! c = Some call →
  let w' := after_call w c call r pc in
  (∀ j, j ≠ i → rg_slots r j = slot w j) →
  (∀ j, at_slot pc = Some j → j = i) → (before_claim pc = true → before_claim (c_pc call) = true) →
  (∀ j, pc = CClaimed j → before_claim (c_pc call) = true) →
  (∀ q call', q ≠ c → calls w !! q = Some call' → at_slot (c_pc call') ≠ Some i) →
  (∀ k wpc, servers w !! k = Some wpc → works_at wpc = Some i → worker_ok w' k wpc) →
  (state w' i = SLOT_REQUEST → ∃ q req, held w' i q req ∧ filled (slot w' i) req ∧ unhandled w' q) →
  call_ok w' c (with_pc call pc) → session_ok w'.
Proof.
  intros Hok Hc w' Hslots Hat Hbefore Hclaim Hsole Hwork Hreq Hme. pose proof (after_keeps w c call r pc Hc) as Hkeep. fold w' in Hkeep.
  assert (∀ j, j ≠ i → same_at w w' j) as Hsame.
  { intros j Hj. split; [by apply Hslots|]. cbn. unfold claims. destruct pc; try done. rewrite lookup_insert_ne; [done|].
    intros ->. apply Hj. by apply Hat. }
  split.
  - intros q call' Hq. cbn in Hq. destruct (decide (c = q)) as [<-|Hne].
    + rewrite lookup_insert_eq in Hq. by injection Hq as <-.
    + rewrite lookup_insert_ne in Hq by done. apply (call_frame w); [|done|done|by apply (so_calls w Hok)].
      intros j Hj. apply Hsame. intros ->. by apply (Hsole q call').
  - intros k wpc Hk. cbn in Hk. destruct (decide (works_at wpc = Some i)) as [Hi|Hi]; [by apply (Hwork k)|].
    apply (worker_frame w); [|done|done|done|by apply (so_workers w Hok)].
    intros j Hj. split_and!; [apply Hsame; congruence | done|]. intros Hab q call' Hq Haq. cbn in Hq.
    destruct (decide (c = q)) as [<-|Hne].
    + rewrite lookup_insert_eq in Hq. injection Hq as <-. apply Hat in Haq. congruence.
    + rewrite lookup_insert_ne in Hq by done. by apply (Hab q call').
  - intros j Hj. destruct (decide (j = i)) as [->|Hne]; [by apply Hreq|].
    destruct (Hsame j Hne) as [E1 E2]. unfold state in Hj. rewrite E1 in *.
    destruct (so_requests w Hok j Hj) as (q & req & Hd & Hf & Hu). exists q, req. split_and!; [by apply (held_frame w); [split|..] | done | done].
  - intros j q Hj. cbn in Hj. assert (∃ call', calls w !! q = Some call' ∧ (q ≠ c → before_claim (c_pc call') = false) ∧
      (q = c → before_claim pc = false)) as (call' & Hq & H1 & H2).
    { assert (holders w !! j = Some q ∨ (q = c ∧ before_claim pc = false)) as [H|[-> H]].
      { unfold claims in Hj. destruct pc; try (by left). destruct (decide (i0 = j)) as [->|Hn];
          [rewrite lookup_insert_eq in Hj; injection Hj as <-; by right | rewrite lookup_insert_ne in Hj by done; by left]. }
      - destruct (so_holders w Hok j q H) as (call' & Hq & Hb). exists call'. split_and!; [done | done|]. intros ->.
        rewrite Hc in Hq. injection Hq as <-. destruct (before_claim pc); [|done]. by rewrite Hbefore in Hb.
      - by exists call. }
    destruct (decide (c = q)) as [<-|Hne].
    + exists (with_pc call pc). cbn. rewrite lookup_insert_eq. split; [done | by apply H2].
    + exists call'. cbn. rewrite lookup_insert_ne by done. split; [done | by apply H1].
  - intros j1 j2 q H1 H2. cbn in H1, H2. unfold claims in H1, H2. destruct pc; try by apply (so_apart w Hok j1 j2 q).
    assert (∀ j, holders w !! j ≠ Some c) as Hno.
    { intros j Hj. destruct (so_holders w Hok j c Hj) as (call' & Hq & Hb). rewrite Hc in Hq. injection Hq as <-. by erewrite Hclaim in Hb. }
    rewrite lookup_insert_Some in H1, H2. destruct H1 as [[<- <-]|[_ H1]], H2 as [[<- E]|[_ H2]];
      [done | by destruct (Hno j2) | subst q; by destruct (Hno j1) | by apply (so_apart w Hok j1 j2 q)].
  - apply (so_once w Hok).
  - intros q req a Hq. apply Hkeep. by apply (so_handled w Hok q req a).
Qed.

(** A step that changes no slot *)
Lemma call_step_pure w c call r pc :
  session_ok w → calls w !! c = Some call → rg_slots r = rg_slots (ring w) →
  (∀ j, at_slot pc = Some j → at_slot (c_pc call) = Some j) → (before_claim pc = true → before_claim (c_pc call) = true) →
  (∀ j, pc ≠ CClaimed j) →
  call_at w c (with_pc call pc) → session_ok (after_call w c call r pc).
Proof.
  intros Hok Hc Hr Hat Hbefore Hclaim Hme. pose proof (after_keeps w c call r pc Hc) as Hkeep. set (w' := after_call w c call r pc) in *.
  assert (∀ j, same_at w w' j) as Hsame.
  { intros j. split; [unfold slot; cbn; by rewrite Hr|]. cbn. unfold claims. destruct pc; try done. by destruct (Hclaim i). }
  assert (∀ j, abandoned w j → abandoned w' j) as Hab.
  { intros j Hab q call' Hq Haq. cbn in Hq. destruct (decide (c = q)) as [<-|Hne].
    - rewrite lookup_insert_eq in Hq. injection Hq as <-. apply (Hab c call Hc). by apply Hat.
    - rewrite lookup_insert_ne in Hq by done. by apply (Hab q call'). }
  split.
  - intros q call' Hq. cbn in Hq. apply (call_frame w); [done | done | done|]. destruct (decide (c = q)) as [<-|Hne].
    + rewrite lookup_insert_eq in Hq. injection Hq as <-. split; [|done]. intros i Hi.
      apply (so_calls w Hok c call Hc). by apply Hat.
    + rewrite lookup_insert_ne in Hq by done. by apply (so_calls w Hok).
  - intros k wpc Hk. apply (worker_frame w); [intros j _; split_and!; [done | done | apply Hab] | done | done | done | by apply (so_workers w Hok)].
  - intros j Hj. destruct (Hsame j) as [E1 E2]. unfold state in Hj. rewrite E1 in *.
    destruct (so_requests w Hok j Hj) as (q & req & Hd & Hf & Hu). exists q, req. split_and!; [by apply (held_frame w) | done | done].
  - intros j q Hj. destruct (Hsame j) as [_ E2]. rewrite E2 in Hj.
    destruct (so_holders w Hok j q Hj) as (call' & Hq & Hb). cbn. destruct (decide (c = q)) as [<-|Hne].
    + exists (with_pc call pc). rewrite lookup_insert_eq. split; [done|]. rewrite Hc in Hq. injection Hq as <-. cbn.
      destruct (before_claim pc); [|done]. by rewrite Hbefore in Hb.
    + exists call'. by rewrite lookup_insert_ne.
  - intros j1 j2 q H1 H2. destruct (Hsame j1) as [_ E1], (Hsame j2) as [_ E2]. rewrite E1 in H1. rewrite E2 in H2.
    by apply (so_apart w Hok j1 j2 q).
  - apply (so_once w Hok).
  - intros q req a Hq. apply Hkeep. by apply (so_handled w Hok q req a).
Qed.

(** Facts read off the invariant *)
Lemma free_no_call w i : session_ok w → state w i = SLOT_FREE → abandoned w i.
Proof.
  intros Hok Hs c call Hc Hat. destruct (so_calls w Hok c call Hc) as [_ H]. unfold call_at, inflight in H.
  destruct (c_pc call); cbn in Hat; simplify_eq; rewrite Hs in H; unfold SLOT_FREE, SLOT_WRITING, SLOT_REQUEST, SLOT_PROCESSING, SLOT_RESPONSE, SLOT_CANCELLED in *; intuition lia.
Qed.

Lemma no_worker w i :
  session_ok w → state w i ≠ SLOT_PROCESSING → (state w i = SLOT_CANCELLED → ¬ abandoned w i) →
  ∀ k wpc, servers w !! k = Some wpc → works_at wpc ≠ Some i.
Proof.
  intros Hok H1 H2 k wpc Hk Hw. destruct (so_workers w Hok k wpc Hk) as [H _]. destruct (H i Hw) as [_ [?|[? ?]]]; naive_solver.
Qed.

Lemma sole_holder w i c call :
  session_ok w → calls w !! c = Some call → at_slot (c_pc call) = Some i →
  ∀ q call', q ≠ c → calls w !! q = Some call' → at_slot (c_pc call') ≠ Some i.
Proof.
  intros Hok Hc Hi q call' Hne Hq Hqi. apply Hne.
  pose proof (proj1 (so_calls w Hok c call Hc) i Hi). pose proof (proj1 (so_calls w Hok q call' Hq) i Hqi). congruence.
Qed.

Lemma claim_ok w c call r pc i :
  session_ok w → calls w !! c = Some call → before_claim (c_pc call) = true → unhandled w c → state w i = SLOT_FREE →
  r = store_state (ring w) i SLOT_WRITING → pc = CClaimed i →
  session_ok (after_call w c call r pc).
Proof.
  intros Hok Hc Hb Hu Hs -> ->. assert (∀ r' pc', slot (after_call w c call r' pc') i = rg_slots r' i) as Hsl by done.
  apply (call_step_ok w c call _ _ i Hok Hc).
  - intros j Hj. cbn. by rewrite fn_lookup_insert_ne.
  - cbn. congruence.
  - done.
  - done.
  - intros q call' _ Hq. by apply (free_no_call w i Hok Hs q call').
  - intros k wpc Hk Hw. exfalso. apply (no_worker w i Hok) with k wpc in Hk; [done | by rewrite Hs | by rewrite Hs].
  - unfold state. rewrite Hsl. cbn. by rewrite fn_lookup_insert.
  - split; [intros j [= <-]; cbn; by rewrite lookup_insert_eq|]. cbn. split; [|done]. unfold state. rewrite Hsl. cbn. by rewrite fn_lookup_insert.
Qed.

(** A call writes the slot it has, which no worker has. *)
Lemma own_step_ok w c call r pc i s :
  session_ok w → calls w !! c = Some call → at_slot (c_pc call) = Some i →
  rg_slots r = <[i := s]> (rg_slots (ring w)) → (∀ j, at_slot pc = Some j → j = i) → (∀ j, pc ≠ CClaimed j) → before_claim pc = false →
  (∀ k wpc, servers w !! k = Some wpc → works_at wpc ≠ Some i) →
  (sl_state s = SLOT_REQUEST → filled s (c_req call) ∧ unhandled w c) →
  (∀ w', slot w' i = s → handled w' = handled w → call_at w' c (with_pc call pc)) →
  session_ok (after_call w c call r pc).
Proof.
  intros Hok Hc Hi Hr Hat Hnc Hb Hw Hreq Hme. pose proof (proj1 (so_calls w Hok c call Hc) i Hi) as Hown.
  assert (slot (after_call w c call r pc) i = s) as Es by (unfold slot; cbn; by rewrite Hr, fn_lookup_insert).
  assert (holders (after_call w c call r pc) = holders w) as Eh by (cbn; unfold claims; destruct pc; try done; by destruct (Hnc i0)).
  apply (call_step_ok w c call _ _ i Hok Hc).
  - intros j Hj. by rewrite Hr, fn_lookup_insert_ne.
  - done.
  - by rewrite Hb.
  - intros j ->. by destruct (Hnc j).
  - by apply (sole_holder w i c call).
  - intros k wpc Hk Hwi. by destruct (Hw k wpc Hk).
  - unfold state. rewrite Es. intros H. destruct (Hreq H) as [Hf Hu]. exists c, (c_req call). split_and!; [|done|done].
    split; [by rewrite Eh|]. cbn. by rewrite lookup_insert_eq.
  - split; [|by apply Hme]. intros j Hj. rewrite Eh. by rewrite (Hat j Hj).
Qed.

(** Leaving at a shutdown *)
Lemma stop_ok w c call i v :
  session_ok w → calls w !! c = Some call → c_pc call = CStop i v →
  session_ok (after_call w c call (cas_state (ring w) i v SLOT_CANCELLED).1 (CDone (Err BrokenPipe))).
Proof.
  intros Hok Hc Hpc. pose proof (so_calls w Hok c call Hc) as [Hown Hat]. unfold call_at in Hat. rewrite Hpc in Hown, Hat.
  destruct Hat as [_ Hv]. unfold cas_state. destruct (load_state (ring w) i =? v) eqn:El.
  - apply Z.eqb_eq in El. cbn [fst]. set (w' := after_call _ _ _ _ _).
    assert (slot w' i = with_state (slot w i) SLOT_CANCELLED) as Es by (unfold slot; cbn; by rewrite fn_lookup_insert).
    assert (state w i = v) as Hs by done. assert (at_slot (c_pc call) = Some i) as Hi by (by rewrite Hpc).
    pose proof (sole_holder w i c call Hok Hc Hi) as Hsole.
    apply (call_step_ok w c call _ _ i Hok Hc).
    + intros j Hj. cbn. by rewrite fn_lookup_insert_ne.
    + done.
    + done.
    + done.
    + exact Hsole.
    + intros k wpc Hk Hw. destruct (so_workers w Hok k wpc Hk) as [H1 H2]. split.
      * intros j Hj. assert (j = i) as -> by congruence. destruct (H1 i Hw) as [H3 _]. split; [done|]. right.
        split; [unfold state; fold w'; by rewrite Es|]. intros q call' Hq Haq. cbn in Hq. destruct (decide (c = q)) as [<-|Hne].
        -- rewrite lookup_insert_eq in Hq. by injection Hq as <-.
        -- rewrite lookup_insert_ne in Hq by done. by apply (Hsole q call').
      * assert (keeps w w') as Hkeep by (by apply after_keeps). fold w'.
        assert (∀ q req, held w i q req → held w' i q req) as Hheld by (intros q req [? ?]; split; [done | by apply Hkeep]).
        unfold worker_at in *. destruct wpc; cbn in Hw; simplify_eq; try done; rewrite ?Es; naive_solver.
    + fold w'. unfold state. by rewrite Es.
    + by split.
  - by apply call_step_pure.
Qed.

Lemma take_copy src dst : take (length src) (copy_into src dst) = src.
Proof. unfold copy_into. by rewrite take_app_length. Qed.

Ltac as_after w c call :=
  match goal with |- session_ok (MkSession ?r (<[_ := with_pc _ ?p]> _) _ _ _ _ _) => change (session_ok (after_call w c call r p)) end.

Lemma client_ok count data w c start call :
  session_ok w → calls w !! c = Some call → session_ok (run_call count data w c start call).
Proof.
  intros Hok Hc. pose proof (so_calls w Hok c call Hc) as [Hown Hat]. unfold call_at in Hat. unfold run_call, client_step.
  destruct (c_pc call) as [| | |observed st off|?|i|i id|i|i|i|i v|i v|i v|i|i res notify|res|res] eqn:Hpc; cbn [fst snd].
  - as_after w c call. apply call_step_pure; rewrite ?Hpc; try done; by destruct (data <? _).
  - as_after w c call. apply call_step_pure; rewrite ?Hpc; try done; by destruct (rg_shutdown (ring w)).
  - by apply (call_step_pure w c call); rewrite ?Hpc.
  - destruct (off <? count)%nat; [|by apply (call_step_pure w c call); rewrite ?Hpc].
    unfold cas_state. destruct (load_state (ring w) _ =? SLOT_FREE) eqn:El.
    + apply Z.eqb_eq in El. eapply (claim_ok w c call); [done | done | by rewrite Hpc | done | exact El | done | done].
    + by apply (call_step_pure w c call); rewrite ?Hpc.
  - by apply (call_step_pure w c call); rewrite ?Hpc.
  - by apply (call_step_pure w c call); rewrite ?Hpc.
  - destruct Hat as [Hs Hu]. eapply (own_step_ok w c call _ _ i); [done | done | by rewrite Hpc | reflexivity | by intros j [= <-] | done | done | | |].
    + apply (no_worker w i Hok); rewrite Hs; done.
    + cbn. unfold state, slot in Hs. by rewrite Hs.
    + intros w' Es Eh. unfold call_at. cbn. unfold state, slot in *. rewrite Es. cbn. split_and!; [done | unfold unhandled; by rewrite Eh|].
      split; [done|]. apply take_copy.
  - destruct Hat as (Hs & Hu & Hf). eapply (own_step_ok w c call _ _ i); [done | done | by rewrite Hpc | reflexivity | by intros j [= <-] | done | done | | |].
    + apply (no_worker w i Hok); rewrite Hs; done.
    + by intros _.
    + intros w' Es Eh. unfold call_at. cbn. unfold inflight, state. rewrite Es. by split; [left|].
  - by apply (call_step_pure w c call); rewrite ?Hpc.
  - unfold inflight in Hat. as_after w c call. unfold load_state. fold (slot w i). fold (state w i).
    destruct Hat as [Hst Hresp]. destruct (Z.eqb_spec (state w i) SLOT_RESPONSE) as [E1|E1].
    { apply call_step_pure; rewrite ?Hpc; try done. unfold call_at. cbn. split; [done | by apply Hresp]. }
    destruct (Z.eqb_spec (state w i) SLOT_CANCELLED) as [E2|E2].
    { apply call_step_pure; rewrite ?Hpc; try done. unfold call_at. cbn. split; [by right | done]. }
    apply call_step_pure; rewrite ?Hpc; try done. unfold call_at, inflight. cbn. naive_solver.
  - destruct Hat as [Hin Hv]. as_after w c call. destruct (rg_shutdown (ring w)); by apply call_step_pure; rewrite ?Hpc.
  - by apply (call_step_pure w c call); rewrite ?Hpc.
  - by apply stop_ok.
  - destruct Hat as (Hs & resp & [Hl Ht] & Hg). as_after w c call. fold (slot w i). rewrite Hl. destruct (data <? zlen resp); apply call_step_pure; rewrite ?Hpc; try done; unfold call_at; cbn.
    + split; [by left | done].
    + split; [by left|]. unfold zlen. rewrite Nat2Z.id, Ht. done.
  - destruct Hat as [Hs Hres].
    eapply (own_step_ok w c call _ (if notify then CNotify res else CDone res) i); [done | done | by rewrite Hpc | reflexivity | by destruct notify | by destruct notify | by destruct notify | | |].
    + apply (no_worker w i Hok); [by destruct Hs as [->| ->]|]. intros _ Hab. apply (Hab c call Hc). by rewrite Hpc.
    + done.
    + intros w' Es Eh. unfold call_at, result_ok, given in *. destruct notify; cbn; rewrite Eh; done.
  - by apply (call_step_pure w c call); rewrite ?Hpc.
  - by apply (call_step_pure w c call); rewrite ?Hpc.
Qed.

(** ** Steps of a worker *)

Definition after_worker (w : Session) (k : nat) (r : Ring) (pc : Wpc) (sv : gmap nat nat) (h : list (nat * (list Z * option (list Z)))) : Session :=
  MkSession r (calls w) (<[k := pc]> (servers w)) (cleaner w) (holders w) sv (handled w ++ h).

Lemma worker_keeps w k r pc sv h : keeps w (after_worker w k r pc sv h).
Proof. intros c req H. exact H. Qed.

(** A step that changes at most the slot [i], which no other worker has *)
Lemma worker_step_ok w k r pc sv i :
  session_ok w →
  let w' := after_worker w k r pc sv [] in
  (∀ j, j ≠ i → rg_slots r j = slot w j ∧ sv !! j = serving w !! j) →
  (∀ q wpc, q ≠ k → servers w !! q = Some wpc → works_at wpc ≠ Some i) →
  (∀ c call, calls w !! c = Some call → at_slot (c_pc call) = Some i → call_ok w' c call) →
  (state w' i = SLOT_REQUEST → ∃ q req, held w' i q req ∧ filled (slot w' i) req ∧ unhandled w' q) →
  worker_ok w' k pc → session_ok w'.
Proof.
  intros Hok w' Hslots Hsole Hcalls Hreq Hme.
  assert (∀ j, j ≠ i → same_at w w' j ∧ serving w' !! j = serving w !! j) as Hsame by (intros j Hj; by destruct (Hslots j Hj)).
  assert (handled w' = handled w) as Eh by (cbn; by rewrite app_nil_r).
  assert (∀ q, unhandled w q → unhandled w' q) as Hu by (intros q; unfold unhandled; by rewrite Eh).
  split.
  - intros q call' Hq. destruct (decide (at_slot (c_pc call') = Some i)) as [Hi|Hi]; [by apply Hcalls|].
    apply (call_frame w); [|by rewrite Eh | intros _; apply Hu | by apply (so_calls w Hok)]. intros j Hj. apply Hsame. congruence.
  - intros q wpc Hq. cbn in Hq. destruct (decide (k = q)) as [<-|Hne]; [rewrite lookup_insert_eq in Hq; by injection Hq as <-|].
    rewrite lookup_insert_ne in Hq by done. apply (worker_frame w); [|apply worker_keeps | by rewrite Eh | intros ? ? _ _; apply Hu | by apply (so_workers w Hok)].
    intros j Hj. assert (j ≠ i) as Hji by (intros ->; by apply (Hsole q wpc)). destruct (Hsame j Hji). by split_and!.
  - intros j Hj. destruct (decide (j = i)) as [->|Hne]; [by apply Hreq|].
    destruct (Hsame j Hne) as [[E1 E2] _]. unfold state in Hj. rewrite E1 in *.
    destruct (so_requests w Hok j Hj) as (q & req & Hd & Hf & Hq). exists q, req. split_and!; [done | done | by apply Hu].
  - apply (so_holders w Hok).
  - apply (so_apart w Hok).
  - rewrite Eh. apply (so_once w Hok).
  - rewrite Eh. apply (so_handled w Hok).
Qed.

(** A step that changes no slot *)
Lemma worker_step_pure w k r pc :
  session_ok w → rg_slots r = rg_slots (ring w) → worker_ok w k pc → session_ok (after_worker w k r pc (serving w) []).
Proof.
  intros Hok Hr Hme. set (w' := after_worker _ _ _ _ _ _).
  assert (∀ j, same_at w w' j) as Hsame by (intros j; split; [unfold slot; cbn; by rewrite Hr | done]).
  assert (handled w' = handled w) as Eh by (cbn; by rewrite app_nil_r).
  assert (∀ q, unhandled w q → unhandled w' q) as Hu by (intros q; unfold unhandled; by rewrite Eh).
  split.
  - intros q call' Hq. apply (call_frame w); [done | by rewrite Eh | intros _; apply Hu | by apply (so_calls w Hok)].
  - intros q wpc Hq. cbn in Hq. apply (worker_frame w); [done | apply worker_keeps | by rewrite Eh | intros ? ? _ _; apply Hu|].
    destruct (decide (k = q)) as [<-|Hne]; [rewrite lookup_insert_eq in Hq; by injection Hq as <-|].
    rewrite lookup_insert_ne in Hq by done. by apply (so_workers w Hok).
  - intros j Hj. destruct (Hsame j) as [E1 E2]. unfold state in Hj. rewrite E1 in *.
    destruct (so_requests w Hok j Hj) as (q & req & Hd & Hf & Hq). exists q, req. split_and!; [done | done | by apply Hu].
  - apply (so_holders w Hok).
  - apply (so_apart w Hok).
  - rewrite Eh. apply (so_once w Hok).
  - rewrite Eh. apply (so_handled w Hok).
Qed.

(** The decoder is given the request in the slot [i]. *)
Lemma handle_ok w k i bytes answer pc :
  session_ok w → servers w !! k = Some (WHandle i bytes) →
  pc = match answer with Some response => WComplete i response | None => WCancel i false end →
  session_ok (after_worker w k (ring w) pc (serving w) (hands (holders w) answer (WHandle i bytes))).
Proof.
  intros Hok Hk Hpc. destruct (so_workers w Hok k _ Hk) as [Hw (c & [Hh Hreq] & Hu)]. destruct (Hw i eq_refl) as [Hsv Hst].
  cbn [hands]. rewrite Hh. set (w' := after_worker _ _ _ _ _ _).
  assert (∀ q, q ≠ c → unhandled w q → unhandled w' q) as Hun.
  { intros q Hq. unfold unhandled. cbn. rewrite fmap_app, elem_of_app. cbn. rewrite list_elem_of_singleton. naive_solver. }
  assert (handled w ⊆ handled w') as Hsub by (intros x Hx; cbn; apply elem_of_app; by left).
  assert (∀ j, holders w !! j = Some c → j = i) as Hone by (intros j Hj; by apply (so_apart w Hok j i c)).
  split.
  - intros q call' Hq. apply (call_frame w); [done | done | | by apply (so_calls w Hok)].
    destruct (decide (q = c)) as [->|Hne]; [|intros _; by apply Hun]. intros Hf _. exfalso. change (calls w !! c = Some call') in Hq.
    destruct (so_holders w Hok i c Hh) as (call2 & Hq2 & Hb). rewrite Hq in Hq2. injection Hq2 as <-.
    destruct (so_calls w Hok c call' Hq) as [Hown Hat]. unfold call_at in Hat.
    destruct (c_pc call') as [| | | | |j|j ?|j| | | | | | | | |]; cbn in Hb, Hf, Hown; try done;
      rewrite <- (Hone j (Hown j eq_refl)) in Hst; destruct Hat as [Hat _]; rewrite Hat in Hst; unfold SLOT_WRITING, SLOT_PROCESSING, SLOT_CANCELLED in Hst; lia.
  - intros q wpc Hq. cbn in Hq. destruct (decide (k = q)) as [<-|Hne].
    + rewrite lookup_insert_eq in Hq. injection Hq as <-. subst pc. destruct answer as [resp|]; (split; [by intros j [= <-]|]); [|done].
      exists c, bytes. split; [done|]. unfold given. cbn. apply elem_of_app. right. by left.
    + rewrite lookup_insert_ne in Hq by done. apply (worker_frame w); [done | apply worker_keeps | done | | by apply (so_workers w Hok)].
      intros j c' Hj Hc'. apply Hun. intros ->. rewrite (Hone j Hc') in Hj.
      destruct (so_workers w Hok q wpc Hq) as [H _]. destruct (H i Hj) as [H' _]. congruence.
  - intros j Hj. change (state w j = SLOT_REQUEST) in Hj. destruct (so_requests w Hok j Hj) as (q & req & Hd & Hf & Hq).
    exists q, req. split_and!; [done | done|]. apply Hun; [|done]. intros ->. rewrite <- (Hone j (proj1 Hd)) in Hst.
    rewrite Hj in Hst. unfold SLOT_REQUEST, SLOT_PROCESSING, SLOT_CANCELLED in Hst. lia.
  - apply (so_holders w Hok).
  - apply (so_apart w Hok).
  - cbn. rewrite fmap_app. apply NoDup_app. split_and!; [apply (so_once w Hok) | | apply NoDup_singleton].
    intros q Hq. cbn. rewrite list_elem_of_singleton. intros ->. by apply Hu.
  - intros q req a [H|H]%elem_of_app; [by apply (so_handled w Hok q req a)|]. apply list_elem_of_singleton in H as [= -> -> ->]. done.
Qed.

(** A worker passes a slot it has on to the call, or back. *)
Lemma pass_ok w k pc r pc' i s :
  session_ok w → servers w !! k = Some pc → works_at pc = Some i → rg_slots r = <[i := s]> (rg_slots (ring w)) →
  works_at pc' = None →
  (state w i = SLOT_PROCESSING ∨ sl_state s = SLOT_CANCELLED) →
  (sl_state s = SLOT_CANCELLED ∨ sl_state s = SLOT_RESPONSE ∧
    ∃ c req resp, held w i c req ∧ given w c req resp ∧ answered s resp) →
  session_ok (after_worker w k r pc' (serving w) []).
Proof.
  intros Hok Hk Hi Hr Hi' Hst Hs. destruct (so_workers w Hok k pc Hk) as [Hw _]. destruct (Hw i Hi) as [Hsv Hst'].
  set (w' := after_worker _ _ _ _ _ _).
  assert (slot w' i = s) as Es by (unfold slot; cbn; by rewrite Hr, fn_lookup_insert).
  assert (∀ q req resp, given w q req resp → given w' q req resp) as Hg by (intros; unfold given; cbn; by rewrite app_nil_r).
  apply (worker_step_ok w k r pc' _ i Hok).
  - intros j Hj. split; [by rewrite Hr, fn_lookup_insert_ne | done].
  - intros q wpc Hq Hqw Hqi. destruct (so_workers w Hok q wpc Hqw) as [H _]. destruct (H i Hqi). congruence.
  - intros c call Hc Hci. destruct (so_calls w Hok c call Hc) as [Hown Hat]. split; [done|].
    destruct Hst' as [Hp|[_ Hab]]; [|by destruct (Hab c call Hc)].
    assert (inflight w' c i (c_req call)) as Hin.
    { unfold inflight, state. rewrite Es. split; [destruct Hs as [->|[-> _]]; auto|]. intros E.
      destruct Hs as [Hs|[_ (c2 & req & resp & [H1 H2] & H3 & H4)]]; [by rewrite Hs in E|]. exists resp. split; [done|]. apply Hg.
      rewrite (Hown i Hci) in H1. injection H1 as <-. rewrite Hc in H2. by injection H2 as ->. }
    unfold call_at in *. destruct (c_pc call) as [| | | | |j|j ?|j|j|j|j v|j v|j v|j|j res ?|res|res]; cbn in Hci; simplify_eq; try done;
      try (rewrite Hp in Hat; destruct Hat as [Hat _]; unfold SLOT_WRITING, SLOT_PROCESSING, SLOT_RESPONSE, SLOT_CANCELLED in Hat; lia); by destruct Hat.
  - fold w'. unfold state. rewrite Es. intros E. destruct Hs as [Hs|[Hs _]]; rewrite Hs in E; done.
  - split; [by rewrite Hi' | by destruct pc'].
Qed.

(** A worker takes a published request. *)
Lemma take_ok w k i :
  session_ok w → state w i = SLOT_REQUEST →
  session_ok (after_worker w k (store_state (ring w) i SLOT_PROCESSING) (WTaken i) (<[i := k]> (serving w)) []).
Proof.
  intros Hok Hs. destruct (so_requests w Hok i Hs) as (c & req & Hd & Hf & Hu). set (w' := after_worker _ _ _ _ _ _).
  assert (slot w' i = with_state (slot w i) SLOT_PROCESSING) as Es by (unfold slot; cbn; by rewrite fn_lookup_insert).
  apply (worker_step_ok w k _ _ _ i Hok); fold w'.
  - intros j Hj. cbn. by rewrite fn_lookup_insert_ne, lookup_insert_ne.
  - intros q wpc _ Hq. apply (no_worker w i Hok) with q; [by rewrite Hs | by rewrite Hs | done].
  - intros q call Hq Hqi. destruct (so_calls w Hok q call Hq) as [Hown Hat]. split; [done|].
    assert (inflight w' q i (c_req call)) as Hin by (unfold inflight, state; rewrite Es; cbn; split; [by right; left | done]).
    unfold call_at in *. destruct (c_pc call) as [| | | | |j|j ?|j|j|j|j v|j v|j v|j|j res ?|res|res]; cbn in Hqi; simplify_eq; try done;
      try (rewrite Hs in Hat; destruct Hat as [Hat _]; unfold SLOT_WRITING, SLOT_REQUEST, SLOT_RESPONSE, SLOT_CANCELLED in Hat; lia); by destruct Hat.
  - unfold state. by rewrite Es.
  - split.
    + intros j [= <-]. cbn. rewrite lookup_insert_eq. split; [done|]. left. unfold state. by rewrite Es.
    + exists c, req. rewrite Es. split_and!; [done | done|]. unfold unhandled. cbn. by rewrite app_nil_r.
Qed.

(** A worker writes the response. *)
Lemma write_ok w k i resp s :
  session_ok w → servers w !! k = Some (WWrite i resp) →
  sl_state s = state w i → answered s resp → (∀ req, filled (slot w i) req → filled s req) →
  session_ok (after_worker w k (put_slot (ring w) i s) (WPublish i) (serving w) []).
Proof.
  intros Hok Hk Hst Hans Hfill. destruct (so_workers w Hok k _ Hk) as [Hw (c & req & Hd & Hg)]. destruct (Hw i eq_refl) as [Hsv Hst'].
  set (w' := after_worker _ _ _ _ _ _).
  assert (slot w' i = s) as Es by (unfold slot; cbn; by rewrite fn_lookup_insert).
  assert (state w' i = state w i) as Est by (unfold state at 1; by rewrite Es).
  assert (handled w' = handled w) as Eh by (cbn; by rewrite app_nil_r).
  apply (worker_step_ok w k _ _ _ i Hok); fold w'.
  - intros j Hj. cbn. by rewrite fn_lookup_insert_ne.
  - intros q wpc Hq Hqw Hqi. destruct (so_workers w Hok q wpc Hqw) as [H _]. destruct (H i Hqi). congruence.
  - intros q call Hq Hqi. destruct (so_calls w Hok q call Hq) as [Hown Hat]. split; [done|].
    destruct Hst' as [Hp|[_ Hab]]; [|by destruct (Hab q call Hq)].
    assert (inflight w' q i (c_req call)) as Hin by (unfold inflight; rewrite Est, Hp; split; [by right; left | done]).
    unfold call_at in *. destruct (c_pc call) as [| | | | |j|j ?|j|j|j|j v|j v|j v|j|j res ?|res|res]; cbn in Hqi; simplify_eq; try done;
      try (rewrite Hp in Hat; destruct Hat as [Hat _]; unfold SLOT_WRITING, SLOT_PROCESSING, SLOT_RESPONSE, SLOT_CANCELLED in Hat; lia); by destruct Hat.
  - rewrite Est. intros E. destruct Hst' as [Hp|[Hp _]]; rewrite Hp in E; done.
  - split; [intros j [= <-]; by rewrite Est|]. exists c, req, resp. rewrite Es. split_and!; [done | unfold given; by rewrite Eh | done].
Qed.

Ltac as_worker w k :=
  cbn [takes];
  match goal with |- session_ok (MkSession ?r _ (<[_ := ?p]> _) _ _ ?sv _) => change (session_ok (after_worker w k r p sv [])) end.

Lemma worker_ok_step count data w k start answer pc :
  session_ok w → servers w !! k = Some pc → session_ok (run_worker count data w k start answer pc).
Proof.
  intros Hok Hk. destruct (so_workers w Hok k pc Hk) as [Hw Hat]. unfold run_worker, worker_step.
  destruct pc as [| |st off|i|i bytes|i resp|i resp|i|i stop| | |]; cbn [takes].
  - as_worker w k. by apply worker_step_pure.
  - destruct (rg_shutdown (ring w)); as_worker w k; by apply worker_step_pure.
  - destruct (off <? count)%nat; [unfold cas_state; destruct (load_state _ _ =? SLOT_REQUEST) eqn:El|]; as_worker w k.
    + apply Z.eqb_eq in El. by apply take_ok.
    + by apply worker_step_pure.
    + by apply worker_step_pure.
  - destruct Hat as (c & req & Hd & [Hl Ht] & Hu). unfold slot in Hl, Ht. destruct (data <? sl_request_len (rg_slots (ring w) i)); as_worker w k.
    + by eapply (pass_ok w k (WTaken i) _ _ i); [done | done | done | reflexivity | done | right | left].
    + apply worker_step_pure; [done | done|]. split; [by intros j [= <-]; apply Hw|]. exists c.
      rewrite Hl. unfold zlen. rewrite Nat2Z.id, Ht. done.
  - match goal with |- context [takes k ?p] => assert (takes k p (serving w) = serving w) as -> by (by destruct answer) end.
    by apply handle_ok.
  - destruct Hat as (c & req & Hd & Hg). destruct (data <? zlen resp); [|destruct (load_state (ring w) i =? SLOT_PROCESSING)]; as_worker w k; apply worker_step_pure; try done.
    split; [by intros j [= <-]; apply Hw | by exists c, req].
  - as_worker w k. apply (write_ok w k i resp); try done. split; [done | apply take_copy].
  - destruct Hat as (c & req & resp & Hd & Hg & Ha). unfold cas_state. destruct (load_state (ring w) i =? SLOT_PROCESSING) eqn:El; cbn [fst];
      as_worker w k.
    + apply Z.eqb_eq in El. eapply (pass_ok w k (WPublish i) _ _ i); [done | done | done | reflexivity | done | by left|]. right.
      split; [done|]. by exists c, req, resp.
    + by apply worker_step_pure.
  - match goal with |- context [takes k ?p] => assert (takes k p (serving w) = serving w) as -> by (by destruct stop) end.
    unfold cas_state. destruct (load_state (ring w) i =? SLOT_PROCESSING) eqn:El; cbn [fst]; as_worker w k.
    + apply Z.eqb_eq in El. eapply (pass_ok w k (WCancel i stop) _ _ i); [done | done | done | reflexivity | by destruct stop | by left | by left].
    + by destruct stop; apply worker_step_pure.
  - destruct (rg_shutdown (ring w)); as_worker w k; by apply worker_step_pure.
  - as_worker w k. by apply worker_step_pure.
  - as_worker w k. by apply worker_step_pure.
Qed.

(** ** The claim *)

Lemma session_new_ok data n : session_ok (session_new data n).
Proof.
  split; try done.
  - intros k pc Hk. cbn in Hk. apply elem_of_list_to_map_2, list_elem_of_fmap in Hk as (j & [= -> ->] & _). by split.
  - apply NoDup_nil_2.
  - intros c req a H. by apply not_elem_of_nil in H.
Qed.

Lemma enter_ok w c tgid tid req : session_ok w → calls w !! c = None → session_ok (run_enter w c tgid tid req).
Proof.
  intros Hok Hc. set (w' := run_enter w c tgid tid req).
  assert (keeps w w') as Hkeep.
  { intros q r. cbn. destruct (decide (c = q)) as [<-|Hne]; [by rewrite Hc | by rewrite lookup_insert_ne]. }
  assert (∀ j, same_at w w' j) as Hsame by done.
  split; try done.
  - intros q call Hq. cbn in Hq. destruct (decide (c = q)) as [<-|Hne].
    + rewrite lookup_insert_eq in Hq. injection Hq as <-. split; [done|]. cbn. intros (x & E & Hx)%list_elem_of_fmap.
      destruct x as [q [r a]]. cbn in E. subst q. apply (so_handled w Hok) in Hx. by rewrite Hc in Hx.
    + rewrite lookup_insert_ne in Hq by done. by apply (call_frame w); [..|apply (so_calls w Hok)].
  - intros k pc Hk. apply (worker_frame w); [|done | done | done | by apply (so_workers w Hok)].
    intros i _. split_and!; [done | done|]. intros Hab q call Hq. cbn in Hq. destruct (decide (c = q)) as [<-|Hne].
    + rewrite lookup_insert_eq in Hq. by injection Hq as <-.
    + rewrite lookup_insert_ne in Hq by done. by apply (Hab q).
  - intros i Hi. destruct (so_requests w Hok i Hi) as (q & r & Hd & Hf & Hu). exists q, r. split_and!; [by apply (held_frame w) | done | done].
  - intros i q Hq. destruct (so_holders w Hok i q Hq) as (call & Hc' & Hb). exists call. cbn. rewrite lookup_insert_ne by congruence. done.
  - apply (so_apart w Hok).
  - apply (so_once w Hok).
  - intros q r a Hq. apply Hkeep. by apply (so_handled w Hok q r a).
Qed.

Lemma shutdown_ok w : session_ok w → session_ok (run_shutdown w).
Proof. by intros []. Qed.

Lemma ring_invariant count data n w : ring_reachable count data false n w → session_ok w.
Proof.
  unfold ring_reachable. intros H. remember (session_new data n) as w0 eqn:E. assert (session_ok w0) as H0 by (subst; apply session_new_ok).
  clear E. induction H as [|w1 w2 w3 H12 _ IH]; [done|]. apply IH. destruct H12 as [c tgid tid req Hc|c start call Hc|k start answer pc Hk|dead Hr|].
  - by apply enter_ok.
  - by apply client_ok.
  - by apply worker_ok_step.
  - done.
  - by apply shutdown_ok.
Qed.

(** C35. Replies of the ring are never crossed: in every interleaving of clients,
    workers and a shutdown, at the grain of single accesses to the shared
    memory, a call that returns a response returns what the decoder answered to
    that call's own request; no request is decoded twice, the decoder is given
    the bytes of a call unchanged, and no two calls ever use a slot at once.
    The reaper of dead processes is not running. *)
Theorem replies_not_crossed count data n w :
  ring_reachable count data false n w →
  (∀ c call resp, calls w !! c = Some call → c_pc call = CDone (Ok resp) → (c, (c_req call, Some resp)) ∈ handled w) ∧
  NoDup (handled w).*1 ∧
  (∀ c req a, (c, (req, a)) ∈ handled w → ∃ call, calls w !! c = Some call ∧ c_req call = req) ∧
  (∀ c1 c2 call1 call2 i, calls w !! c1 = Some call1 → calls w !! c2 = Some call2 →
    at_slot (c_pc call1) = Some i → at_slot (c_pc call2) = Some i → c1 = c2).
Proof.
  intros Hok%ring_invariant. split_and!.
  - intros c call resp Hc Hpc. destruct (so_calls w Hok c call Hc) as [_ H]. unfold call_at in H. by rewrite Hpc in H.
  - apply (so_once w Hok).
  - intros c req a H. apply (so_handled w Hok) in H. destruct (calls w !! c) as [call|]; [|done]. exists call. by injection H.
  - intros c1 c2 call1 call2 i H1 H2 Hi1 Hi2. destruct (decide (c1 = c2)) as [|Hne]; [done|].
    by destruct (sole_holder w i c2 call2 Hok H2 Hi2 c1 call1).
Qed.

(** ** Schedules *)

Inductive Act : Type :=
| ActEnter (c : nat) (tgid tid : Z) (req : list Z)
| ActCall (c : nat) (times : nat)
| ActWorker (k : nat) (answer : list Z) (times : nat)
| ActReaper (dead : list Z) (times : nat).

(** Cursors start at 0. *)
Definition act (count : nat) (data : Z) (with_reaper : bool) (w : option Session) (a : Act) : option Session :=
  match a with
  | ActEnter c tgid tid req =>
      w ← w; if decide (calls w !! c = None) then Some (run_enter w c tgid tid req) else None
  | ActCall c n => Nat.iter n (λ w, w ← w; call ← calls w !! c; Some (run_call count data w c 0 call)) w
  | ActWorker k answer n => Nat.iter n (λ w, w ← w; pc ← servers w !! k; Some (run_worker count data w k 0 (Some answer) pc)) w
  | ActReaper dead n =>
      Nat.iter n (λ w, w ← w; if with_reaper then Some (run_reaper count w (λ o, bool_decide (o ∈ dead))) else None) w
  end.

Lemma iter_reachable count data b n m (f : option Session → option Session) w w' :
  (∀ w w', f w = Some w' → ∃ w0, w = Some w0 ∧ (ring_reachable count data b n w0 → ring_reachable count data b n w')) →
  Nat.iter m f w = Some w' → (∀ w0, w = Some w0 → ring_reachable count data b n w0) → ring_reachable count data b n w'.
Proof.
  intros Hf. revert w'. induction m as [|m IH]; intros w' H Hw; [by apply Hw|]. cbn in H.
  apply Hf in H as (w1 & H1 & H2). apply H2. by apply IH.
Qed.

Lemma iter_none m (f : option Session → option Session) : f None = None → Nat.iter m f None = None.
Proof. intros Hf. induction m as [|m IH]; [done|]. change (f (Nat.iter m f None) = None). by rewrite IH. Qed.

Lemma act_reachable count data b n acts w :
  foldl (act count data b) (Some (session_new data n)) acts = Some w → ring_reachable count data b n w.
Proof.
  revert w. induction acts as [|a acts IH] using rev_ind; intros w; [intros [= <-]; apply rtc_refl|].
  rewrite foldl_app. cbn [foldl]. destruct (foldl _ _ acts) as [w0|] eqn:E.
  - specialize (IH w0 eq_refl). assert (∀ w1 w2, ring_reachable count data b n w1 → ring_step count data b w1 w2 → ring_reachable count data b n w2) as Hr
      by (intros w1 w2 H1 H2; eapply rtc_r; done).
    destruct a as [c tgid tid req|c m|k answer m|dead m]; cbn [act].
    + cbn. destruct (decide _); [|done]. intros [= <-]. eapply Hr; [done | by constructor].
    + intros H. eapply iter_reachable; [|exact H | by intros ? [= <-]]. intros [w1|] w2 H2; [|done]. cbn in H2.
      destruct (calls w1 !! c) as [call|] eqn:Ec; [|done]. injection H2 as <-. exists w1. split; [done|]. intros H1. eapply Hr; [done | by constructor].
    + intros H. eapply iter_reachable; [|exact H | by intros ? [= <-]]. intros [w1|] w2 H2; [|done]. cbn in H2.
      destruct (servers w1 !! k) as [pc|] eqn:Ec; [|done]. injection H2 as <-. exists w1. split; [done|]. intros H1. eapply Hr; [done | by constructor].
    + intros H. eapply iter_reachable; [|exact H | by intros ? [= <-]]. intros [w1|] w2 H2; [|done]. cbn in H2.
      destruct b; [|done]. injection H2 as <-. exists w1. split; [done|]. intros H1. eapply Hr; [done | by constructor].
  - destruct a as [| c m | k answer m | dead m]; cbn [act]; [done | | |]; rewrite iter_none; done.
Qed.

(** Two processes, one worker *)
Definition two_calls : list Act :=
  [ActEnter 1 10 10 [1]; ActEnter 2 20 20 [2; 2]; ActCall 1 8; ActCall 2 9; ActWorker 0 [11] 8; ActWorker 0 [12] 9;
   ActCall 2 4; ActCall 1 4].

Lemma replies_not_crossed_witness :
  ∃ w, ring_reachable 4 8 false 1 w ∧ c_pc <$> calls w !! 1%nat = Some (CDone (Ok [11])) ∧ (1%nat, ([1], Some [11])) ∈ handled w.
Proof.
  assert (∃ w, foldl (act 4 8 false) (Some (session_new 8 1)) two_calls = Some w ∧
    calls w !! 1%nat = Some (MkCall 10 10 [1] (CDone (Ok [11])))) as (w & Hw & Hc) by (eexists; split; vm_compute; reflexivity).
  apply act_reachable in Hw. exists w. split; [done|]. split; [by rewrite Hc|].
  by apply (proj1 (replies_not_crossed 4 8 1 w Hw) 1%nat _ [11] Hc).
Defined.

(** ** With the reaper *)

(** A process that used a slot has exited; another has claimed the slot and not
    yet written who it is. *)
Definition stolen_slot : list Act :=
  [ActEnter 1 10 10 [1]; ActCall 1 8; ActWorker 0 [11] 8; ActCall 1 4;
   ActEnter 2 20 20 [2]; ActCall 2 4; ActReaper [10] 39;
   ActEnter 3 30 30 [3]; ActCall 3 4; ActCall 2 3; ActCall 3 2;
   ActWorker 0 [13] 8; ActCall 2 5].

(** The reaper takes the slot for the dead process's, a third call claims it, and
    the second returns the answer to the third call's request. *)
Theorem reaper_crosses_replies :
  ∃ w, ring_reachable SLOT_COUNT SLOT_DATA true 1 w ∧
    calls w !! 2%nat = Some (MkCall 20 20 [2] (CDone (Ok [13]))) ∧
    handled w = [(1%nat, ([1], Some [11])); (3%nat, ([3], Some [13]))].
Proof.
  assert ((λ w, (calls w !! 2%nat, handled w)) <$> foldl (act SLOT_COUNT SLOT_DATA true) (Some (session_new SLOT_DATA 1)) stolen_slot =
    Some (Some (MkCall 20 20 [2] (CDone (Ok [13]))), [(1%nat, ([1], Some [11])); (3%nat, ([3], Some [13]))])) as H
    by (vm_compute; reflexivity).
  apply fmap_Some in H as (w & Hw & E). injection E as E1 E2. exists w.
  split; [exact (act_reachable _ _ _ _ _ _ Hw) | by split].
Qed.
