(* ===== verification/WebFilter.v ===== *)
(** * The web filter.

    Models [engine/src/net/filter.rs]: the rules of a [webfilter] file and the
    decision on a request, with the matcher of patterns that have no wildcard
    but the star.  A text is the list of its characters.  Removing headers from a response is
    a call into the header map of [hyper] and not modelled. *)

From stdpp Require Import strings list.
From S2P Require Import Prelude.
From S2P Require Import Glob.
From S2P Require Import Rules.
From S2P Require Import SandboxLayers.
Open Scope Z_scope.

(** ** Patterns *)

Record StarGlob : Type := MkStarGlob { segs : list (list Z); anchor_start : bool; anchor_end : bool }.

Definition ends_with (c : char) (s : text) : bool := match last s with Some x => x =? c | None => false end.

Definition star_new (pat : text) : StarGlob :=
  let low := lower pat in
  MkStarGlob (filter (λ s, s ≠ []) (split_on STAR low)) (negb (starts_with STAR low)) (negb (ends_with STAR low)).

(** [str::find]: the first place of [needle] *)
Fixpoint is_prefix (needle hay : text) : bool :=
  match needle, hay with
  | [], _ => true
  | c :: needle, x :: hay => (c =? x) && is_prefix needle hay
  | _, [] => false
  end.
Fixpoint find_sub (needle hay : text) : option nat :=
  if is_prefix needle hay then Some O
  else match hay with [] => None | _ :: hay => S <$> find_sub needle hay end.

Definition is_suffix (needle hay : text) : bool := is_prefix (rev needle) (rev hay).

(** The loop of [matches] over the segments; [first] is [i == 0]. *)
Fixpoint walk_segs (anchored first : bool) (l : list (list Z)) (from : text) : bool :=
  match l with
  | [] => true
  | seg :: l =>
      match find_sub seg from with
      | None => false
      | Some idx =>
          if first && anchored && negb (idx =? 0)%nat then false
          else walk_segs anchored false l (drop (idx + length seg) from)
      end
  end.

Definition star_matches (g : StarGlob) (hay : text) : bool :=
  let hay := lower hay in
  match segs g with
  | [] => true
  | _ =>
      if walk_segs (anchor_start g) true (segs g) hay then
        if anchor_end g then match last (segs g) with Some l => is_suffix l hay | None => true end else true
      else false
  end.

(** ** Rules *)

Inductive WebRule : Type :=
| BlockUrl (g : StarGlob)
| BlockHost (g : StarGlob)
| StripHeader (name : text).

(** [split_once(char::is_whitespace)] *)
Fixpoint split_space (s : text) : option (text * text) :=
  match s with
  | [] => None
  | c :: s => if is_whitespace c then Some ([], s) else '(a, b) ← split_space s; Some (c :: a, b)
  end.

Definition web_rule (line : text) : option WebRule :=
  let line := trim line in
  if is_empty line || starts_with (chr "#") line then None
  else match split_space line with
       | None => None
       | Some (kind, arg) =>
           let arg := trim arg in
           if is_empty arg then None
           else if text_eqb kind (str "block") then Some (BlockUrl (star_new arg))
           else if text_eqb kind (str "block-host") then Some (BlockHost (star_new arg))
           else if text_eqb kind (str "strip-header") then Some (StripHeader (lower arg))
           else None
       end.

(** [Filter::parse], and [Filter::load] with the file where it can be read *)
Definition filter_parse (s : text) : list WebRule := omap web_rule (lines s).
Definition filter_load (file : option text) : list WebRule :=
  match file with Some s => filter_parse s | None => [] end.

Inductive Decision : Type := Pass | Block.

Fixpoint filter_decide (rules : list WebRule) (url host : text) : Decision :=
  match rules with
  | [] => Pass
  | BlockUrl g :: rules => if star_matches g url then Block else filter_decide rules url host
  | BlockHost g :: rules => if star_matches g host then Block else filter_decide rules url host
  | StripHeader _ :: rules => filter_decide rules url host
  end.

(** ** What a pattern stands for *)

(** Case aside: a star is any text, every other character itself. *)
Inductive star_lang : text → text → Prop :=
| star_nil : star_lang [] []
| star_char c p s : c ≠ STAR → star_lang p s → star_lang (c :: p) (c :: s)
| star_stop p s : star_lang p s → star_lang (STAR :: p) s
| star_more p c s : star_lang (STAR :: p) s → star_lang (STAR :: p) (c :: s).

(** ** Texts and places *)

Lemma is_prefix_spec needle hay : is_prefix needle hay = true ↔ ∃ t, hay = needle ++ t.
Proof.
  revert hay. induction needle as [|c needle IH]; intros hay; cbn; [split; [by exists hay | done]|].
  destruct hay as [|x hay]; [split; [done | by intros [t [=]]]|]. rewrite andb_true_iff, IH, Z.eqb_eq. split.
  - intros [-> [t ->]]. by exists t.
  - intros [t [= -> ->]]. split; [done | by exists t].
Qed.

Lemma is_suffix_spec needle hay : is_suffix needle hay = true ↔ needle `suffix_of` hay.
Proof.
  unfold is_suffix. rewrite is_prefix_spec. split.
  - intros [t H]. exists (rev t). rewrite <- (rev_involutive hay), H, rev_app_distr. by rewrite rev_involutive.
  - intros [t ->]. exists (rev t). by rewrite rev_app_distr.
Qed.

Lemma find_sub_some needle hay n :
  find_sub needle hay = Some n → ∃ g t, hay = g ++ needle ++ t ∧ length g = n.
Proof.
  revert n. induction hay as [|x hay IH]; intros n; cbn [find_sub].
  - destruct (is_prefix needle []) eqn:E; [|done]. intros [= <-]. apply is_prefix_spec in E as [t Ht]. by exists [], t.
  - destruct (is_prefix needle (x :: hay)) eqn:E.
    + intros [= <-]. apply is_prefix_spec in E as [t Ht]. by exists [], t.
    + intros (m & Hm & ->)%fmap_Some. destruct (IH m Hm) as (g & t & -> & <-). by exists (x :: g), t.
Qed.

Lemma suffix_shorter (l1 l2 l3 : list Z) :
  l1 `suffix_of` l3 → l2 `suffix_of` l3 → (length l1 ≤ length l2)%nat → l1 `suffix_of` l2.
Proof.
  intros H1 H2 Hl. destruct (suffix_weak_total l1 l2 l3 H1 H2) as [H|H]; [done|]. by rewrite (suffix_length_eq l2 l1).
Qed.

(** The first place comes before every other. *)
Lemma find_sub_first needle g t :
  ∃ g' t', find_sub needle (g ++ needle ++ t) = Some (length g') ∧ g ++ needle ++ t = g' ++ needle ++ t' ∧ t `suffix_of` t'.
Proof.
  induction g as [|x g IH].
  - exists [], t. cbn. assert (is_prefix needle (needle ++ t) = true) as E by (apply is_prefix_spec; by exists t).
    destruct (needle ++ t) eqn:En; cbn [find_sub]; rewrite E; by rewrite ?En.
  - destruct IH as (g' & t' & H1 & H2 & H3). cbn [app]. cbn [find_sub].
    destruct (is_prefix needle (x :: g ++ needle ++ t)) eqn:E.
    + apply is_prefix_spec in E as [t2 E]. exists [], t2. split_and!; [done | done|].
      assert (suffix t (needle ++ t2)) as Hs by (rewrite <- E; exists (x :: g ++ needle); cbn; by rewrite <- app_assoc).
      assert (suffix t2 (needle ++ t2)) as Hs2 by (by exists needle).
      assert (length t ≤ length t2)%nat as Hl by (apply (f_equal length) in E; cbn in E; rewrite !length_app in E; lia).
      by apply (suffix_shorter t t2 (needle ++ t2)).
    + exists (x :: g'), t'. rewrite H1, H2. done.
Qed.

(** ** The language by segments *)

(** The segments after a star: each somewhere after the one before, the last at
    the end *)
Fixpoint after_star (l : list (list Z)) (s : text) : Prop :=
  match l with
  | [] => False
  | [x] => x `suffix_of` s
  | x :: l => ∃ g t, s = g ++ x ++ t ∧ after_star l t
  end.

Lemma split_on_ne sep s : split_on sep s ≠ [].
Proof. destruct s; cbn; repeat case_match; done. Qed.

Lemma star_lang_char c p s : c ≠ STAR → star_lang (c :: p) s ↔ ∃ t, s = c :: t ∧ star_lang p t.
Proof. intros Hc. split; [inversion 1; subst; naive_solver | intros (t & -> & H); by constructor]. Qed.
Lemma star_lang_star p s : star_lang (STAR :: p) s ↔ ∃ g t, s = g ++ t ∧ star_lang p t.
Proof.
  split.
  - remember (STAR :: p) as q eqn:E. induction 1 as [| |q s H _|q c s H IH]; simplify_eq; [by exists [], s|].
    destruct (IH eq_refl) as (g & t & -> & Ht). by exists (c :: g), t.
  - intros (g & t & -> & H). induction g as [|c g IH]; [by constructor | by constructor].
Qed.

Lemma lang_split p s :
  star_lang p s ↔
  match split_on STAR p with
  | [] => False
  | x :: l => ∃ t, s = x ++ t ∧ match l with [] => t = [] | _ => after_star l t end
  end.
Proof.
  revert s. induction p as [|c p IH]; intros s; cbn [split_on].
  - split; [inversion 1; by exists [] | intros (t & -> & ->); constructor].
  - destruct (Z.eqb_spec c STAR) as [->|Hc].
    + rewrite star_lang_star. setoid_rewrite IH. pose proof (split_on_ne STAR p) as Hne.
      destruct (split_on STAR p) as [|x l]; [done|]. split.
      * intros (g & t & -> & t' & -> & H). exists (g ++ x ++ t'). split; [done|]. destruct l as [|y l].
        -- subst t'. rewrite app_nil_r. by exists g.
        -- by exists g, t'.
      * intros (t & -> & H). cbn [app]. destruct l as [|y l].
        -- destruct H as [g ->]. exists g, x. split; [done|]. exists []. by rewrite app_nil_r.
        -- destruct H as (g & t' & -> & H). exists g, (x ++ t'). split; [done|]. by exists t'.
    + rewrite star_lang_char by done. setoid_rewrite IH. pose proof (split_on_ne STAR p) as Hne.
      destruct (split_on STAR p) as [|x l]; [done|]. split.
      * intros (t & -> & t' & -> & H). by exists t'.
      * intros (t & -> & H). cbn. exists (x ++ t). split; [done|]. by exists t.
Qed.

(** The segments that are not empty; [fixed] says that the last is at the end. *)
Fixpoint wild (fixed : bool) (l : list (list Z)) (s : text) : Prop :=
  match l with
  | [] => True
  | [x] => if fixed then x `suffix_of` s else ∃ g t, s = g ++ x ++ t
  | x :: l => ∃ g t, s = g ++ x ++ t ∧ wild fixed l t
  end.

Lemma wild_mono fixed l s g : wild fixed l s → wild fixed l (g ++ s).
Proof.
  destruct l as [|x [|y l]]; cbn; [done | destruct fixed |].
  - intros [k ->]. exists (g ++ k). by rewrite app_assoc.
  - intros (k & t & ->). exists (g ++ k), t. by rewrite <- app_assoc.
  - intros (k & t & -> & H). exists (g ++ k), t. by rewrite <- app_assoc.
Qed.

Lemma after_star_mono l s g : after_star l s → after_star l (g ++ s).
Proof.
  destruct l as [|x [|y l]]; cbn; [done | |].
  - intros [k ->]. exists (g ++ k). by rewrite app_assoc.
  - intros (k & t & -> & H). exists (g ++ k), t. by rewrite <- app_assoc.
Qed.

Lemma after_star_wild l s :
  l ≠ [] → after_star l s ↔ wild (bool_decide (last l ≠ Some [])) (filter (λ x, x ≠ []) l) s.
Proof.
  revert s. induction l as [|x l IH]; intros s Hne; [done|]. destruct l as [|y l].
  - destruct x as [|c x].
    + rewrite bool_decide_eq_false_2 by (intros H; by apply H). cbn. split; [done|]. intros _. apply suffix_nil.
    + by rewrite bool_decide_eq_true_2.
  - pose proof (IH s) as IHs. change (last (x :: y :: l)) with (last (y :: l)).
    set (fixed := bool_decide (last (y :: l) ≠ Some [])) in *.
    assert (after_star (x :: y :: l) s ↔ ∃ g t, s = g ++ x ++ t ∧ after_star (y :: l) t) as -> by done.
    rewrite filter_cons. destruct (decide (x ≠ [])) as [Hx|Hx].
    + assert (∀ t, after_star (y :: l) t ↔ wild fixed (filter (λ x, x ≠ []) (y :: l)) t) as IH' by (intros t; by apply IH).
      setoid_rewrite IH'. destruct (filter (λ x, x ≠ []) (y :: l)) as [|z k] eqn:Ek; [|done].
      assert (fixed = false) as ->.
      { unfold fixed. apply bool_decide_eq_false_2. intros Hl. destruct (last (y :: l)) as [z|] eqn:Ez; [|by apply last_None in Ez].
        assert (z ∈ filter (λ x, x ≠ []) (y :: l)) as Hz; [|rewrite Ek in Hz; by apply not_elem_of_nil in Hz].
        apply list_elem_of_filter. split; [congruence|]. apply last_Some in Ez as [l' ->]. apply elem_of_app. right. by left. }
      cbn. naive_solver.
    + assert (x = []) as -> by (by destruct x; [|exfalso; apply Hx]). rewrite <- IHs by done. cbn [app]. split.
      * intros (g & t & -> & H). by apply after_star_mono.
      * intros H. by exists [], s.
Qed.

(** ** The walk over the segments *)

Lemma walk_false a first l s : a && first = false → walk_segs a first l s = walk_segs a false l s.
Proof. destruct l as [|x l]; [done|]. cbn. intros H. rewrite andb_comm, H. done. Qed.

Lemma walk_fits a l s : walk_segs a false l s = true → ∀ x, last l = Some x → (length x ≤ length s)%nat.
Proof.
  revert s. induction l as [|y l IH]; intros s; [done|]. cbn [walk_segs]. destruct (find_sub y s) as [n|] eqn:Ef; [|done]. cbn [andb].
  apply find_sub_some in Ef as (g & t & -> & <-). rewrite drop_app_add, drop_app_length. intros H x Hx.
  destruct l as [|z l]; [injection Hx as <-; rewrite !length_app; lia|]. specialize (IH t H x Hx). rewrite !length_app. lia.
Qed.

Lemma walk_wild a fixed l s :
  wild fixed l s ↔ walk_segs a false l s = true ∧ (fixed = true → ∀ x, last l = Some x → x `suffix_of` s).
Proof.
  revert s. induction l as [|x l IH]; intros s; [by cbn|]. cbn [walk_segs]. split.
  - intros H. assert (∃ g t, s = g ++ x ++ t ∧ (l ≠ [] → wild fixed l t)) as (g & t & Es & Ht).
    { destruct l as [|y l]; cbn in H; [|destruct H as (g & t & -> & H); by exists g, t].
      destruct fixed; [destruct H as [g ->]; exists g, []; by rewrite app_nil_r | destruct H as (g & t & ->); by exists g, t]. }
    destruct (find_sub_first x g t) as (g' & t' & Hf & E & [k Hk]). rewrite Es, Hf. cbn [andb].
    rewrite E, drop_app_add, drop_app_length. destruct l as [|y l].
    + split; [done|]. intros -> z [= <-]. rewrite <- E, <- Es. exact H.
    + specialize (Ht ltac:(done)). apply (wild_mono _ _ _ k) in Ht. rewrite <- Hk in Ht. apply IH in Ht as [H1 H2].
      split; [done|]. intros Hfx z Hz. specialize (H2 Hfx z Hz). rewrite app_assoc. by apply suffix_app_r.
  - destruct (find_sub x s) as [n|] eqn:Ef; [|by intros [? _]]. cbn [andb].
    apply find_sub_some in Ef as (g & t & -> & <-). rewrite drop_app_add, drop_app_length. intros [Hw Hs]. destruct l as [|y l].
    + cbn. destruct fixed; [by apply Hs | by exists g, t].
    + cbn. exists g, t. split; [done|]. apply IH. split; [done|]. intros Hfx z Hz.
      apply (suffix_shorter z t (g ++ x ++ t)); [by apply Hs | rewrite app_assoc; by exists (g ++ x) | by apply (walk_fits a (y :: l) t)].
Qed.

Lemma contains_cons d c s : contains d (c :: s) = (d =? c) || contains d s.
Proof. done. Qed.

Lemma split_starts s : contains STAR s = true → ∃ x l, split_on STAR s = x :: l ∧ l ≠ [] ∧ starts_with STAR s = bool_decide (x = []).
Proof.
  destruct s as [|c s]; [done|]. cbn [split_on starts_with]. intros Hc. destruct (Z.eqb_spec c STAR) as [->|Hne].
  - exists [], (split_on STAR s). split_and!; [done | apply split_on_ne | by rewrite bool_decide_eq_true_2].
  - assert (contains STAR s = true) as Hs.
    { rewrite contains_cons in Hc. apply orb_true_iff in Hc as [H|H]; [|done]. apply Z.eqb_eq in H. congruence. }
    clear Hc. assert (∃ x l, split_on STAR s = x :: l ∧ l ≠ []) as (x & l & -> & Hl).
    { induction s as [|d s IH]; [done|]. cbn [split_on]. destruct (Z.eqb_spec d STAR) as [->|Hd]; [exists [], (split_on STAR s); split; [done | apply split_on_ne]|].
      rewrite contains_cons in Hs. apply orb_true_iff in Hs as [H|H]; [apply Z.eqb_eq in H; congruence|]. destruct (IH H) as (x & l & -> & Hl). by exists (d :: x), l. }
    exists (c :: x), l. done.
Qed.

Lemma split_ends s : s ≠ [] → ends_with STAR s = bool_decide (last (split_on STAR s) = Some []).
Proof.
  induction s as [|c s IH]; [done|]. intros _. cbn [split_on]. pose proof (split_on_ne STAR s) as Hne. destruct s as [|d s].
  - cbn. unfold ends_with. cbn. destruct (Z.eqb_spec c STAR); [by rewrite bool_decide_eq_true_2 | by rewrite bool_decide_eq_false_2].
  - unfold ends_with in *. change (last (c :: d :: s)) with (last (d :: s)). rewrite IH by done.
    destruct (split_on STAR (d :: s)) as [|x l] eqn:E; [done|]. destruct (c =? STAR); [by destruct l|].
    destruct l as [|y l]; [|done]. cbn. destruct x as [|e x]; [|by rewrite !bool_decide_eq_false_2].
    exfalso. cbn in E. destruct (d =? STAR); [by destruct (split_on_ne STAR s); simplify_eq | repeat case_match; simplify_eq].
Qed.

Lemma lower_star s : contains STAR (lower s) = contains STAR s.
Proof.
  induction s as [|c s IH]; [done|]. cbn [lower fmap list_fmap contains existsb]. unfold contains, lower in IH. rewrite IH. f_equal.
  destruct ((65 <=? c) && (c <=? 90)) eqn:E; [|done]. apply andb_true_iff in E as [E1%Z.leb_le E2%Z.leb_le].
  unfold STAR. destruct (Z.eqb_spec 42 c), (Z.eqb_spec 42 (c + 32)); lia.
Qed.

(** A match is kept: the walk's answer with the test of the end. *)
Definition walk_end (a fixed : bool) (l : list (list Z)) (s : text) : bool :=
  if walk_segs a true l s then
    if fixed then match last l with Some x => is_suffix x s | None => true end else true
  else false.

Lemma walk_end_free fixed l s : walk_end false fixed l s = true ↔ wild fixed l s.
Proof.
  rewrite (walk_wild false). unfold walk_end. rewrite walk_false by done. destruct (walk_segs false false l s); [|split; [done | by intros [? _]]].
  destruct fixed; [|by split]. destruct (last l) as [z|]; [|by split]. rewrite is_suffix_spec. split.
  - intros H. split; [done|]. by intros _ ? [= <-].
  - intros [_ H]. by apply H.
Qed.

Lemma find_sub_here needle t : find_sub needle (needle ++ t) = Some O.
Proof.
  assert (is_prefix needle (needle ++ t) = true) as E by (apply is_prefix_spec; by exists t).
  destruct (needle ++ t); cbn [find_sub]; by rewrite E.
Qed.

(** The first segment is at the start. *)
Lemma walk_end_anchored fixed x l s :
  (fixed = true → l ≠ []) → walk_end true fixed (x :: l) s = true ↔ ∃ t, s = x ++ t ∧ wild fixed l t.
Proof.
  intros Hl. setoid_rewrite (walk_wild true). unfold walk_end. cbn [walk_segs andb]. destruct (find_sub x s) as [n|] eqn:Ef.
  2:{ split; [done|]. intros (t & -> & _). by rewrite find_sub_here in Ef. }
  destruct n as [|n]; cbn [Nat.eqb negb].
  2:{ split; [done|]. intros (t & -> & _). by rewrite find_sub_here in Ef. }
  apply find_sub_some in Ef as ([|] & t & -> & ?); [|done]. cbn [app plus]. rewrite drop_app_length.
  transitivity (walk_segs true false l t = true ∧ (fixed = true → ∀ z, last l = Some z → z `suffix_of` t)).
  2:{ split; [by exists t|]. by intros (t0 & <-%app_inv_head & ?). }
  destruct (walk_segs true false l t) eqn:Ew; [|split; [done | by intros [? _]]]. destruct fixed; [|by split].
  specialize (Hl eq_refl). rewrite last_cons. destruct (last l) as [z|] eqn:Ez; [|by apply last_None in Ez].
  rewrite is_suffix_spec. split.
  - intros Hs. split; [done|]. intros _ z' [= <-].
    apply (suffix_shorter z t (x ++ t)); [done | by exists x | by apply (walk_fits true l t)].
  - intros [_ Hs]. apply suffix_app_r. by apply Hs.
Qed.

Lemma last_filled l :
  last l ≠ Some [] → l ≠ [] → filter (λ x : text, x ≠ []) l ≠ [].
Proof.
  intros Hlast Hl Hf. destruct (last l) as [z|] eqn:El; [|by apply last_None in El].
  apply last_Some in El as [l' ->]. rewrite filter_app, (filter_cons_True _ z), filter_nil in Hf by congruence. by destruct (filter _ l').
Qed.

(** A pattern with a star stands for its language. *)
Lemma star_exact pat hay :
  contains STAR pat = true → star_matches (star_new pat) hay = true ↔ star_lang (lower pat) (lower hay).
Proof.
  intros Hc. rewrite <- lower_star in Hc. rewrite lang_split. destruct (split_starts _ Hc) as (x & l & E & Hl & Hst).
  assert (lower pat ≠ []) as Hne by (intros H; by rewrite H in Hc).
  assert (star_matches (star_new pat) hay = walk_end (negb (bool_decide (x = []))) (bool_decide (last l ≠ Some []))
            (filter (λ x, x ≠ []) (x :: l)) (lower hay)) as ->.
  { unfold star_matches, star_new, walk_end. cbn [segs anchor_start anchor_end]. rewrite Hst, (split_ends _ Hne), E.
    replace (last (x :: l)) with (last l) by (by destruct l). rewrite bool_decide_not.
    destruct (filter (λ x, x ≠ []) (x :: l)) as [|y k] eqn:Ek; [|done]. cbn [walk_segs last]. by destruct (negb _). }
  assert (∀ t, match l with [] => t = [] | _ => after_star l t end ↔ wild (bool_decide (last l ≠ Some [])) (filter (λ x, x ≠ []) l) t) as Hw.
  { intros t. rewrite <- after_star_wild by done. by destruct l. }
  rewrite E. setoid_rewrite Hw. destruct x as [|c x].
  - rewrite filter_cons_False by (by intros H). rewrite bool_decide_eq_true_2 by done. cbn [negb]. rewrite walk_end_free. split.
    + intros H. by exists (lower hay).
    + by intros (t & -> & H).
  - rewrite filter_cons_True by done. rewrite bool_decide_eq_false_2 by done. cbn [negb]. apply walk_end_anchored.
    intros H%bool_decide_eq_true. by apply last_filled.
Qed.

Lemma split_plain s : contains STAR s = false → split_on STAR s = [s].
Proof.
  induction s as [|c s IH]; [done|]. rewrite contains_cons. intros [Hc Hs]%orb_false_iff. cbn [split_on].
  rewrite Z.eqb_sym, Hc. by rewrite (IH Hs).
Qed.

(** A pattern without one asks for a text that starts and ends with it. *)
Lemma plain_matches pat hay :
  contains STAR pat = false → pat ≠ [] →
  star_matches (star_new pat) hay = true ↔ lower pat `prefix_of` lower hay ∧ lower pat `suffix_of` lower hay.
Proof.
  intros Hc Hp. rewrite <- lower_star in Hc. assert (lower pat ≠ []) as Hl by (by destruct pat).
  assert (starts_with STAR (lower pat) = false) as Hst.
  { destruct (lower pat) as [|c s]; [done|]. rewrite contains_cons in Hc. apply orb_false_iff in Hc as [Hc _]. cbn. by rewrite Z.eqb_sym. }
  unfold star_matches, star_new. cbn [segs anchor_start anchor_end].
  rewrite Hst, (split_ends _ Hl), (split_plain _ Hc), filter_cons_True, filter_nil by done.
  rewrite bool_decide_eq_false_2 by (cbn; congruence). cbn [negb last walk_segs andb]. rewrite <- (is_suffix_spec (lower pat)).
  destruct (find_sub (lower pat) (lower hay)) as [n|] eqn:Ef.
  - destruct n as [|n]; cbn [Nat.eqb negb].
    + apply find_sub_some in Ef as ([|] & t & -> & ?); [|done]. cbn [app]. split; [|by intros [_ ?]]. intros Hs. split; [by exists t | done].
    + split; [done|]. intros [[t Ht] _]. by rewrite Ht, find_sub_here in Ef.
  - split; [done|]. intros [[t Ht] _]. by rewrite Ht, find_sub_here in Ef.
Qed.

(** ** Decisions *)

(** What a pattern asks of a text: to be of its language, case aside *)
Definition pattern_means (pat hay : text) : Prop := star_lang (lower pat) (lower hay).

(** Without a star the language is the pattern itself. *)
Lemma plain_lang p s : contains STAR p = false → star_lang p s ↔ s = p.
Proof.
  revert s. induction p as [|c p IH]; intros s.
  - intros _. split; [by inversion 1 | intros ->; constructor].
  - rewrite contains_cons. intros [Hc Hp]%orb_false_iff. apply Z.eqb_neq in Hc. rewrite star_lang_char by congruence.
    setoid_rewrite (IH _ Hp). naive_solver.
Qed.

(** What a pattern asks for is matched, and nothing else where it has a star. *)
Lemma means_matches pat hay : pat ≠ [] → pattern_means pat hay → star_matches (star_new pat) hay = true.
Proof.
  intros Hp. unfold pattern_means. destruct (contains STAR pat) eqn:E; [by apply star_exact|].
  rewrite plain_lang, plain_matches by (done || by rewrite lower_star). by intros ->.
Qed.
Lemma matches_means pat hay : contains STAR pat = true → star_matches (star_new pat) hay = true → pattern_means pat hay.
Proof. intros Hc. by apply star_exact. Qed.

Definition rule_blocks (url host : text) (r : WebRule) : Prop :=
  match r with
  | BlockUrl g => star_matches g url = true
  | BlockHost g => star_matches g host = true
  | StripHeader _ => False
  end.

Lemma decide_blocks rules url host :
  filter_decide rules url host = Block ↔ ∃ r, r ∈ rules ∧ rule_blocks url host r.
Proof.
  induction rules as [|r rules IH]; [split; [done | by intros (r & ?%not_elem_of_nil & _)]|].
  assert ((∃ r', r' ∈ r :: rules ∧ rule_blocks url host r') ↔ rule_blocks url host r ∨ ∃ r', r' ∈ rules ∧ rule_blocks url host r') as ->.
  { setoid_rewrite elem_of_cons. naive_solver. }
  rewrite <- IH. destruct r as [g|g|n]; cbn; [destruct (star_matches g url) | destruct (star_matches g host) |]; naive_solver.
Qed.

(** The line of a rule, as a directive and its argument *)
Definition line_parts (line kind arg : text) : Prop :=
  ∃ rest, split_space (trim line) = Some (kind, rest) ∧ starts_with (chr "#") (trim line) = false ∧ arg = trim rest ∧ arg ≠ [].

Lemma blocking_rule line r url host :
  web_rule line = Some r → rule_blocks url host r →
  ∃ kind arg, line_parts line kind arg ∧
    (kind = str "block" ∧ star_matches (star_new arg) url = true ∨
     kind = str "block-host" ∧ star_matches (star_new arg) host = true).
Proof.
  unfold web_rule, line_parts. destruct (is_empty (trim line) || starts_with (chr "#") (trim line)) eqn:E; [done|].
  apply orb_false_iff in E as [_ Hh]. destruct (split_space (trim line)) as [[k a]|]; [|done].
  destruct (trim a) as [|d t] eqn:Et; [done|]. cbn [is_empty]. rewrite <- Et. intros Hr Hb. exists k, (trim a).
  split; [exists a; split_and!; [done|done|done|by rewrite Et]|]. unfold text_eqb in Hr.
  repeat case_bool_decide; simplify_eq; cbn in Hb; [by left | by right].
Qed.

Lemma rule_of_parts line kind arg :
  line_parts line kind arg →
  (kind = str "block" → web_rule line = Some (BlockUrl (star_new arg))) ∧
  (kind = str "block-host" → web_rule line = Some (BlockHost (star_new arg))).
Proof.
  intros (rest & Hs & Hh & -> & Hne). unfold web_rule. rewrite Hs, Hh.
  assert (is_empty (trim line) = false) as -> by (by destruct (trim line)).
  assert (is_empty (trim rest) = false) as Hr by (by destruct (trim rest)). cbn [orb]. rewrite Hr.
  by split; intros ->.
Qed.

(** A request a line of the file asks to block *)
Definition line_blocks (url host line : text) : Prop :=
  ∃ kind arg, line_parts line kind arg ∧
    (kind = str "block" ∧ pattern_means arg url ∨ kind = str "block-host" ∧ pattern_means arg host).

(** Every pattern of the file has a star. *)
Definition starred (file : text) : Prop :=
  ∀ line kind arg, line ∈ lines file → line_parts line kind arg → kind ∈ [str "block"; str "block-host"] →
    contains STAR arg = true.

(** C15. The web filter blocks every request that a line of the file asks to
    block: a line whose first word is [block] with a pattern whose language, case
    aside, has the URL, or [block-host] with one that has the host.  Where every
    pattern of the file has a star it blocks no other request: the matcher, which
    takes the first place of each segment and never goes back, is then exact.
    (A pattern without a star also matches what only starts and ends with it,
    [plain_pattern_overmatches].) *)
Theorem filter_blocks file url host :
  ((∃ line, line ∈ lines file ∧ line_blocks url host line) → filter_decide (filter_load (Some file)) url host = Block) ∧
  (starred file → filter_decide (filter_load (Some file)) url host = Block → ∃ line, line ∈ lines file ∧ line_blocks url host line).
Proof.
  cbn [filter_load]. unfold filter_parse. rewrite decide_blocks. setoid_rewrite list_elem_of_omap. split.
  - intros (line & Hin & kind & arg & Hp & Hm). pose proof (rule_of_parts _ _ _ Hp) as [Hu Ho].
    pose proof Hp as (_ & _ & _ & _ & Hne).
    destruct Hm as [[Hk Hm]|[Hk Hm]]; (eexists; split; [exists line; split; [done|]|]); [by apply Hu| |by apply Ho|]; by apply means_matches.
  - intros Hst (r & (line & Hin & Hr) & Hb). exists line. split; [done|].
    destruct (blocking_rule _ _ _ _ Hr Hb) as (kind & arg & Hp & Hm). exists kind, arg. split; [done|].
    assert (kind ∈ [str "block"; str "block-host"] → contains STAR arg = true) as Hc by (by eapply Hst).
    destruct Hm as [[-> Hm]|[-> Hm]]; [left|right]; (split; [done|]; apply matches_means; [|done]; apply Hc; set_solver).
Qed.

(** A pattern without a star is not its own language: [track.gif] blocks a URL
    that only starts and ends with it. *)
Theorem plain_pattern_overmatches :
  filter_decide (filter_parse (str "block track.gif")) (str "track.gif/other/track.gif") [] = Block
  ∧ ~ star_lang (lower (str "track.gif")) (lower (str "track.gif/other/track.gif")).
Proof.
  split; [by vm_compute|]. intros H. vm_compute in H. repeat match goal with H : star_lang (_ :: _) _ |- _ => inversion H; clear H; subst end.
  match goal with H : star_lang [] _ |- _ => inversion H end.
Qed.

Lemma filter_blocks_witness :
  filter_decide (filter_load (Some (str "block *ads*gif"))) (str "x.ads/1.gif") [] = Block ∧
  starred (str "block *ads*gif").
Proof.
  assert (∀ line kind arg, line ∈ lines (str "block *ads*gif") → line_parts line kind arg → kind = str "block" ∧ arg = str "*ads*gif") as Hl.
  { intros line kind arg Hin (rest & Hs & _ & -> & _). vm_compute in Hin. apply list_elem_of_singleton in Hin as ->.
    vm_compute in Hs. injection Hs as <- <-. by vm_compute. }
  split.
  - apply (filter_blocks (str "block *ads*gif") (str "x.ads/1.gif") []). exists (str "block *ads*gif"). split; [vm_compute; left|].
    exists (str "block"), (str "*ads*gif"). split; [by exists (str "*ads*gif")|]. left. split; [done|].
    apply matches_means; [reflexivity|]. vm_compute. reflexivity.
  - intros line kind arg Hin Hp _. by destruct (Hl line kind arg Hin Hp) as [_ ->].
Defined.
