(* ===== verification/NetNames.v ===== *)
(** * Addresses and names of a box.

    Models [engine/src/net/subnet.rs] (the addresses of a box's network), the
    name server of [engine/src/net/dns.rs], the lease decision of
    [engine/src/net/dhcp.rs] and the host a connection is judged by
    ([handle_conn] of [engine/src/net/dispatch.rs]), composed with the
    connection gate.  The [domain] and [dhcproto] crates, which read and write
    packets, are parameters. *)

From stdpp Require Import gmap strings list pretty.
From S2P Require Import Prelude.
From S2P Require Import Glob.
From S2P Require Import Rules.
From S2P Require Import RuleGates.
Import Net.
Open Scope Z_scope.

(** ** Addresses *)

Definition addr : Type := Z * Z * Z * Z.
Definition as_u8 (z : Z) : Z := z mod 256.
Definition CLASS_E_PREFIX : Z := 240.

(** [BoxSubnet]; [new] panics on an id of more than 12 bits *)
Record BoxSubnet : Type := MkSubnet { sub_id : Z }.
Definition subnet_new (id : Z) : option BoxSubnet := if id <? 4096 then Some (MkSubnet id) else None.

Definition octets_prefix (s : BoxSubnet) : Z * Z :=
  let hi := Z.land (as_u8 (Z.shiftr (sub_id s) 8)) 15 in
  let lo := as_u8 (Z.land (sub_id s) 255) in
  (Z.lor CLASS_E_PREFIX hi, lo).
Definition gateway_ip (s : BoxSubnet) : addr := let '(a, b) := octets_prefix s in (a, b, 0, 1).
Definition box_ip (s : BoxSubnet) : addr := let '(a, b) := octets_prefix s in (a, b, 0, 2).
Definition netmask : addr := (255, 255, 0, 0).

(** [off] is below [2 ^ 32]: [idx] is below 65279. *)
Definition synth_ip (s : BoxSubnet) (idx : Z) : option addr :=
  if 65279 <=? idx then None
  else
    let off := idx + 256 in
    let '(a, b) := octets_prefix s in
    Some (a, b, as_u8 (Z.shiftr off 8), as_u8 (Z.land off 255)).

(** The fixed network of every box: [box_subnet] *)
Definition BOX_SUBNET_ID : Z := 1.

(** ** The name server *)

Record Dns : Type := MkDns { by_domain : gmap text addr; by_ip : gmap addr text; dns_next : Z }.
Definition dns_new : Dns := MkDns ∅ ∅ 0.

(** [trim_end_matches] of a dot, then lower case *)
Definition DOT : char := 46.
Fixpoint trim_dots (s : text) : text := match s with c :: s' => if c =? DOT then trim_dots s' else s | [] => [] end.
Definition domain_key (host : text) : text := lower (rev (trim_dots (rev host))).

Definition alloc_for (sub : BoxSubnet) (host : text) (g : Dns) : Dns * option addr :=
  let host := domain_key host in
  match by_domain g !! host with
  | Some ip => (g, Some ip)
  | None =>
      match synth_ip sub (dns_next g) with
      | None => (g, None)
      | Some ip => (MkDns (<[host := ip]> (by_domain g)) (<[ip := host]> (by_ip g)) (dns_next g + 1), Some ip)
      end
  end.

Definition host_for_ip (ip : addr) (g : Dns) : option text := by_ip g !! ip.

(** [handle]: a message of the [domain] crate, its first question, and the
    builder of an answer *)
Inductive Rtype : Type := RA | RAAAA | ROther (n : Z).
Inductive Rcode : Type := NOERROR | SERVFAIL.

Section Handle.
Context {Msg Builder : Type}.
Variable from_slice : list Z → option Msg.
Variable first_question : Msg → option (text * Rtype).
Variable start_answer : Msg → Rcode → option Builder.
Variable push_a : Builder → text → Z → addr → option Builder.
Variable finish : Builder → list Z.

Definition dns_handle (sub : BoxSubnet) (raw : list Z) (g : Dns) : Dns * option (list Z) :=
  match from_slice raw with
  | None => (g, None)
  | Some msg =>
      match first_question msg with
      | None => (g, None)
      | Some (qname, qtype) =>
          match start_answer msg NOERROR with
          | None => (g, None)
          | Some builder =>
              match qtype with
              | RA =>
                  match alloc_for sub qname g with
                  | (g, Some ip) =>
                      match push_a builder qname 30 ip with
                      | None => (g, None)
                      | Some builder => (g, Some (finish builder))
                      end
                  | (g, None) => (g, Some (finish builder))
                  end
              | RAAAA => (g, Some (finish builder))
              | ROther _ =>
                  match start_answer msg SERVFAIL with
                  | None => (g, None)
                  | Some b => (g, Some (finish b))
                  end
              end
          end
      end
  end.

(** The packets a box sends to its name server, one after the other *)
Definition dns_run (sub : BoxSubnet) (raws : list (list Z)) (g : Dns) : Dns :=
  foldl (λ g raw, fst (dns_handle sub raw g)) g raws.

(** What the answers have told the box so far *)
Inductive told (sub : BoxSubnet) : list (list Z) → text → addr → Prop :=
| told_here raws raw qname builder builder' msg ip :
    from_slice raw = Some msg → first_question msg = Some (qname, RA) →
    start_answer msg NOERROR = Some builder →
    snd (alloc_for sub qname (dns_run sub raws dns_new)) = Some ip →
    push_a builder qname 30 ip = Some builder' →
    told sub (raws ++ [raw]) qname ip
| told_later raws raw qname ip : told sub raws qname ip → told sub (raws ++ [raw]) qname ip.
End Handle.

(** ** The lease *)

Inductive MessageType : Type := Discover | Offer | Request | Ack | Release | Decline | MtOther (n : Z).
Inductive Opcode : Type := BootRequest | BootReply | OpOther (n : Z).

(** The fields of a message the server reads or sets *)
Record DhcpMsg : Type := MkDhcp {
  opcode : Opcode; htype : Z; xid : Z; flags : Z; chaddr : list Z; yiaddr : addr; siaddr : addr;
  msg_type : option MessageType; server_id : option addr; lease_time : option Z; subnet_mask : option addr;
  router : option (list addr); dns_servers : option (list addr) }.

(** [reply], before it is encoded *)
Definition dhcp_reply (sub : BoxSubnet) (req : DhcpMsg) (mt : MessageType) : DhcpMsg :=
  MkDhcp BootReply (htype req) (xid req) (flags req) (chaddr req) (box_ip sub) (gateway_ip sub)
    (Some mt) (Some (gateway_ip sub)) (Some 86400) (Some netmask) (Some [gateway_ip sub]) (Some [gateway_ip sub]).

Section Lease.
Variable decode : list Z → option DhcpMsg.
Variable encode : DhcpMsg → option (list Z).

(** [None] is a packet that cannot be read or written. *)
Definition dhcp_handle (sub : BoxSubnet) (raw : list Z) : option (option (list Z)) :=
  req ← decode raw;
  match opcode req with
  | BootRequest =>
      match from_option id Discover (msg_type req) with
      | Discover => out ← encode (dhcp_reply sub req Offer); Some (Some out)
      | Request => out ← encode (dhcp_reply sub req Ack); Some (Some out)
      | _ => Some None
      end
  | _ => Some None
  end.

(** Every answer leases the box's one address, from the gateway, to the client
    and the exchange that asked. *)
Lemma lease_answer sub raw out :
  dhcp_handle sub raw = Some (Some out) →
  ∃ req mt, decode raw = Some req ∧ opcode req = BootRequest ∧ encode (dhcp_reply sub req mt) = Some out
    ∧ mt = match msg_type req with Some Request => Ack | _ => Offer end.
Proof.
  unfold dhcp_handle. destruct (decode raw) as [req|]; [cbn|done]. destruct (opcode req) eqn:Eo; [|done..].
  destruct (msg_type req) as [[]|] eqn:Em; cbn; try done; intros (o & He & [= <-])%bind_Some; eexists req, _; (split_and!; [done | done | exact He | by rewrite Em]).
Qed.
End Lease.

(** ** Connections *)

(** [ipv4] *)
Definition ipv4 (ip : addr) : text :=
  let '(a, b, c, d) := ip in
  str (pretty (Z.to_N a)) ++ [DOT] ++ str (pretty (Z.to_N b)) ++ [DOT] ++ str (pretty (Z.to_N c)) ++ [DOT]
  ++ str (pretty (Z.to_N d)).

(** The host of [handle_conn], and the gate with it *)
Definition conn_host (g : Dns) (dst_ip : addr) : text := from_option id (ipv4 dst_ip) (host_for_ip dst_ip g).
Definition conn_admit (ask : text → text → Z → text → Verdict) (written : bool) (f : RuleFile) (g : Dns)
    (box : text) (dst_ip : addr) (dst_port : Z) : bool * RuleFile :=
  conn_gate ask written f box (conn_host g dst_ip) dst_port.

(** ** Addresses are apart *)

Lemma octets_inj s s' :
  0 ≤ sub_id s < 4096 → 0 ≤ sub_id s' < 4096 → octets_prefix s = octets_prefix s' → s = s'.
Proof.
  destruct s as [i], s' as [j]. cbn [sub_id]. intros Hi Hj. unfold octets_prefix. cbn [sub_id]. intros [= H1 H2]. f_equal.
  apply (f_equal (λ z, Z.land z 15)) in H1. rewrite !Z.land_lor_distr_l in H1. change (Z.land CLASS_E_PREFIX 15) with 0 in H1.
  rewrite !Z.lor_0_l, <- !Z.land_assoc in H1. change (Z.land 15 15) with (Z.ones 4) in H1. change 255 with (Z.ones 8) in H2.
  unfold as_u8 in *. rewrite !Z.land_ones in H1, H2 by lia. rewrite !Z.shiftr_div_pow2 in H1 by lia.
  change (2 ^ 8) with 256 in *. change (2 ^ 4) with 16 in *.
  rewrite !Z.mod_mod in H2 by lia. rewrite !(Z.mod_small (_ / 256) 256) in H1 by (split; [apply Z.div_pos | apply Z.div_lt_upper_bound]; lia).
  rewrite !(Z.mod_small (_ / 256) 16) in H1 by (split; [apply Z.div_pos | apply Z.div_lt_upper_bound]; lia).
  rewrite (Z.div_mod i 256), (Z.div_mod j 256) by lia. lia.
Qed.

Lemma synth_ip_spec s idx ip :
  0 ≤ idx → synth_ip s idx = Some ip →
  idx < 65279 ∧ ip = (fst (octets_prefix s), snd (octets_prefix s), 1 + idx / 256, idx mod 256).
Proof.
  intros H0. unfold synth_ip. destruct (Z.leb_spec 65279 idx) as [|Hlt]; [done|]. destruct (octets_prefix s) as [a b]. intros [= <-].
  split; [done|]. cbn [fst snd]. unfold as_u8. rewrite Z.shiftr_div_pow2 by lia. change 255 with (Z.ones 8). rewrite Z.land_ones by lia.
  change (2 ^ 8) with 256. rewrite Z.mod_mod by lia. replace (idx + 256) with (idx + 1 * 256) by lia.
  rewrite Z_div_plus, Z_mod_plus by lia. rewrite (Z.mod_small (idx / 256 + 1)).
  - by rewrite Z.add_comm.
  - assert (0 ≤ idx / 256) by (apply Z.div_pos; lia). assert (idx / 256 < 255) by (apply Z.div_lt_upper_bound; lia). lia.
Qed.

Lemma synth_ip_inj s i j ip :
  0 ≤ i → 0 ≤ j → synth_ip s i = Some ip → synth_ip s j = Some ip → i = j.
Proof.
  intros Hi Hj H1 H2. apply synth_ip_spec in H1 as [_ ->], H2 as [_ [= H1 H2]]; [|done..].
  rewrite (Z.div_mod i 256), (Z.div_mod j 256) by lia. lia.
Qed.

Lemma synth_ip_some s i : 0 ≤ i < 65279 → is_Some (synth_ip s i).
Proof. intros Hi. unfold synth_ip. destruct (Z.leb_spec 65279 i); [lia|]. by destruct (octets_prefix s). Qed.

(** Networks with different ids share no address. *)
Theorem subnets_apart s s' i ip :
  0 ≤ sub_id s < 4096 → 0 ≤ sub_id s' < 4096 → 0 ≤ i → s ≠ s' →
  synth_ip s i = Some ip → ip ≠ gateway_ip s' ∧ ip ≠ box_ip s' ∧ ∀ j, 0 ≤ j → synth_ip s' j ≠ Some ip.
Proof.
  intros Hs Hs' Hi Hne H. apply synth_ip_spec in H as [Hlt ->]; [|done].
  assert (octets_prefix s ≠ octets_prefix s') as Ho by (intros E; apply Hne; by apply octets_inj).
  unfold gateway_ip, box_ip. destruct (octets_prefix s) as [a b] eqn:E, (octets_prefix s') as [a' b'] eqn:E'. cbn [fst snd].
  split_and!; [congruence | congruence|]. intros j Hj H. apply synth_ip_spec in H as [_ H]; [|done]. rewrite E' in H. cbn in H. congruence.
Qed.

(** ** The two maps of the name server *)

Record dns_inv (sub : BoxSubnet) (g : Dns) : Prop := {
  inv_next : 0 ≤ dns_next g ≤ 65279;
  inv_back d ip : by_domain g !! d = Some ip ↔ by_ip g !! ip = Some d;
  inv_pool d ip : by_domain g !! d = Some ip → ∃ i, 0 ≤ i < dns_next g ∧ synth_ip sub i = Some ip;
  inv_size : Z.of_nat (size (by_domain g)) = dns_next g }.

Lemma dns_new_inv sub : dns_inv sub dns_new.
Proof. split; cbn; [lia | | |]; intros; by rewrite ?lookup_empty in *. Qed.

Lemma alloc_inv sub host g : dns_inv sub g → dns_inv sub (fst (alloc_for sub host g)).
Proof.
  intros [Hn Hb Hp Hs]. unfold alloc_for. destruct (by_domain g !! domain_key host) eqn:Ed; [done|].
  destruct (synth_ip sub (dns_next g)) as [ip|] eqn:Ei; [|done]. cbn [fst].
  assert (by_ip g !! ip = None) as Hfresh.
  { destruct (by_ip g !! ip) as [d|] eqn:E; [|done]. apply Hb, Hp in E as (i & Hi & E). assert (i = dns_next g); [|lia].
    by apply (synth_ip_inj sub i (dns_next g) ip); try lia. }
  split; cbn [by_domain by_ip dns_next].
  - apply synth_ip_spec in Ei as [? _]; lia.
  - intros d ip'. rewrite !lookup_insert_Some, Hb. split.
    + intros [[<- <-]|[Hd E]]; [by left|]. right. split; [congruence | done].
    + intros [[<- <-]|[Hd E]]; [by left|]. right. split; [|done]. intros <-. apply Hb in E. congruence.
  - intros d ip' [[<- <-]|[Hd E]]%lookup_insert_Some; [exists (dns_next g); split; [lia | done]|].
    destruct (Hp d ip' E) as (i & Hi & H). exists i. split; [lia | done].
  - rewrite map_size_insert_None by done. lia.
Qed.

Lemma alloc_mono sub host g d ip :
  by_domain g !! d = Some ip → by_domain (fst (alloc_for sub host g)) !! d = Some ip.
Proof.
  intros E. unfold alloc_for. destruct (by_domain g !! domain_key host) eqn:Ed; [done|].
  destruct (synth_ip sub (dns_next g)); [|done]. cbn. rewrite lookup_insert_ne; [done | congruence].
Qed.

Lemma alloc_known sub host g ip :
  snd (alloc_for sub host g) = Some ip → by_domain (fst (alloc_for sub host g)) !! domain_key host = Some ip.
Proof.
  unfold alloc_for. destruct (by_domain g !! domain_key host) eqn:Ed; [cbn; congruence|].
  destruct (synth_ip sub (dns_next g)); [|done]. cbn. intros [= ->]. apply lookup_insert_eq.
Qed.

Section Names.
Context {Msg Builder : Type}.
Variable from_slice : list Z → option Msg.
Variable first_question : Msg → option (text * Rtype).
Variable start_answer : Msg → Rcode → option Builder.
Variable push_a : Builder → text → Z → addr → option Builder.
Variable finish : Builder → list Z.
#[local] Abbreviation handle := (dns_handle from_slice first_question start_answer push_a finish).
#[local] Abbreviation run := (dns_run from_slice first_question start_answer push_a finish).
#[local] Abbreviation told := (told from_slice first_question start_answer push_a finish).

(** A packet leaves the server alone or gives out one name. *)
Lemma handle_cases sub raw g :
  fst (handle sub raw g) = g ∨ ∃ qname, fst (handle sub raw g) = fst (alloc_for sub qname g).
Proof.
  unfold dns_handle. destruct (from_slice raw); [|by left]. destruct (first_question m) as [[qname []]|]; [| | |by left];
    (destruct (start_answer m NOERROR); [|by left]); [|by left | by destruct (start_answer m SERVFAIL); left].
  right. exists qname. destruct (alloc_for sub qname g) as [g' [ip|]]; [by destruct (push_a _ _ _ _) | done].
Qed.

Lemma run_snoc sub raws raw : run sub (raws ++ [raw]) dns_new = fst (handle sub raw (run sub raws dns_new)).
Proof. unfold dns_run. by rewrite foldl_app. Qed.

Lemma dns_run_inv sub raws : dns_inv sub (run sub raws dns_new).
Proof.
  induction raws as [|raw raws IH] using rev_ind; [apply dns_new_inv|]. rewrite run_snoc.
  destruct (handle_cases sub raw (run sub raws dns_new)) as [->|[qname ->]]; [done | by apply alloc_inv].
Qed.

Lemma told_known sub raws name ip :
  told sub raws name ip → by_domain (run sub raws dns_new) !! domain_key name = Some ip.
Proof.
  induction 1 as [raws raw qname b b' msg ip H1 H2 H3 H4 H5|raws raw qname ip H IH]; rewrite run_snoc.
  - unfold dns_handle. rewrite H1, H2, H3. apply alloc_known in H4.
    destruct (alloc_for sub qname (run sub raws dns_new)) as [g' [ip'|]] eqn:E; [|done].
    cbn [fst] in H4. by destruct (push_a b qname 30 ip').
  - destruct (handle_cases sub raw (run sub raws dns_new)) as [->|[q ->]]; [done | by apply alloc_mono].
Qed.

(** C14. A connection is judged by the name the box asked for.  Once the server
    has answered a question for [name] with an address, a connection to that
    address passes the gate as a connection to [name] (without its final dots,
    in lower case), whatever was asked before and since; two answers gave the
    same address exactly when they were for the same name; and no answer is the
    box's own address or its gateway's. *)
Theorem connections_judged_by_name sub raws name name' ip ip' ask written f box port :
  told sub raws name ip → told sub raws name' ip' →
  conn_admit ask written f (run sub raws dns_new) box ip port = conn_gate ask written f box (domain_key name) port
  ∧ (ip = ip' ↔ domain_key name = domain_key name')
  ∧ ip ≠ gateway_ip sub ∧ ip ≠ box_ip sub.
Proof.
  intros H%told_known H'%told_known. pose proof (dns_run_inv sub raws) as [_ Hb Hp _].
  pose proof (proj1 (Hb _ _) H) as E. pose proof (proj1 (Hb _ _) H') as E'. split_and!.
  - unfold conn_admit, conn_host, host_for_ip. by rewrite E.
  - split; [intros -> | intros Hd; rewrite Hd in H]; congruence.
  - apply Hp in H as (i & Hi & Hs). apply synth_ip_spec in Hs as [_ ->]; [|lia]. unfold gateway_ip. destruct (octets_prefix sub).
    intros [= ?]. assert (0 ≤ i / 256) by (apply Z.div_pos; lia). lia.
  - apply Hp in H as (i & Hi & Hs). apply synth_ip_spec in Hs as [_ ->]; [|lia]. unfold box_ip. destruct (octets_prefix sub).
    intros [= ?]. assert (0 ≤ i / 256) by (apply Z.div_pos; lia). lia.
Qed.

(** A name goes without an address only when 65279 other names have one. *)
Theorem names_run_out sub raws name :
  snd (alloc_for sub name (run sub raws dns_new)) = None ↔
  by_domain (run sub raws dns_new) !! domain_key name = None ∧ Z.of_nat (size (by_domain (run sub raws dns_new))) = 65279.
Proof.
  pose proof (dns_run_inv sub raws) as [Hn _ _ ->]. set (g := run sub raws dns_new) in *. unfold alloc_for.
  destruct (by_domain g !! domain_key name); [by split; [|intros []]|]. destruct (synth_ip sub (dns_next g)) as [ip|] eqn:E; cbn.
  - apply synth_ip_spec in E as [? _]; [|lia]. split; [done | lia].
  - split; [|done]. intros _. split; [done|]. destruct (decide (dns_next g < 65279)); [|lia].
    destruct (synth_ip_some sub (dns_next g)) as [? ?]; [lia | congruence].
Qed.
End Names.

(** A packet is its question's name here. *)
Lemma connections_judged_by_name_witness :
  let read := λ raw : list Z, Some raw in
  let question := λ m : list Z, Some (m, RA) in
  let start := λ (m : list Z) (_ : Rcode), Some m in
  let push := λ (b : list Z) (_ : text) (_ : Z) (_ : addr), Some b in
  let g := dns_run read question start push id (MkSubnet 1) [str "a.example."; str "B.example"] dns_new in
  conn_admit (λ _ _ _ _, NoOnce) true (Contents (str "discard host:b.example")) g (str "box") (240, 1, 1, 1) 443
  = (false, Contents (str "discard host:b.example")).
Proof.
  cbv zeta.
  destruct (connections_judged_by_name (λ raw : list Z, Some raw) (λ m : list Z, Some (m, RA)) (λ (m : list Z) (_ : Rcode), Some m)
    (λ (b : list Z) (_ : text) (_ : Z) (_ : addr), Some b) id (MkSubnet 1) [str "a.example."; str "B.example"] (str "B.example") (str "a.example.")
    (240, 1, 1, 1) (240, 1, 1, 0) (λ _ _ _ _, NoOnce) true (Contents (str "discard host:b.example")) (str "box") 443) as (-> & _).
  - apply (told_here _ _ _ _ _ _ [str "a.example."] (str "B.example") (str "B.example") (str "B.example") (str "B.example") (str "B.example")); by vm_compute.
  - apply (told_later _ _ _ _ _ _ [str "a.example."]).
    apply (told_here _ _ _ _ _ _ [] (str "a.example.") (str "a.example.") (str "a.example.") (str "a.example.") (str "a.example.")); by vm_compute.
  - by vm_compute.
Defined.

(** A box may ask for the name [*]; saving the answer for it writes a rule that
    decides for every host. *)
Theorem saved_star_decides_all :
  let f := Contents (str "ask host:*") in
  let g := fst (alloc_for (MkSubnet 1) (str "*.") dns_new) in
  let '(allowed, f') := conn_admit (λ _ _ _ _, AllowSave) true f g (str "box") (240, 1, 1, 0) 443 in
  allowed = true ∧
  ∀ ask, fst (conn_gate ask true f' (str "box") (str "other.example") 443) = true ∧
         fst (conn_gate (λ _ _ _ _, NoOnce) true f (str "box") (str "other.example") 443) = false.
Proof. vm_compute. split; [done|]. by intros ask. Qed.
