(* ===== verification/RecordLocks.v ===== *)
(** * Record locks.

    Models [LockTable] of [engine/src/overlay.rs]: the byte-range locks of the
    open files of a box, with the callers that wait for one.  A call holds the
    table's mutex except while it waits on the condition variable, so one step is
    a call up to its return or its wait, or a waiting call that goes round its
    loop once more.  The notification that follows the release of the mutex is in
    the step. *)

From stdpp Require Import gmap.
From S2P Require Import Prelude.
Open Scope Z_scope.

(** ** The table *)

Inductive LockIdentity : Type :=
| LockNative (device inode : Z)
| LockLower (node : Z)
| LockSynthetic (node : Z).
Record LockKey : Type := MkLockKey { lk_file : LockIdentity; lk_flock : bool }.

#[export] Instance LockIdentity_eq_dec : EqDecision LockIdentity.
Proof. solve_decision. Defined.
#[export] Instance LockKey_eq_dec : EqDecision LockKey.
Proof. solve_decision. Defined.
#[export] Instance LockIdentity_countable : Countable LockIdentity.
Proof.
  apply (inj_countable'
    (λ i, match i with LockNative d n => inl (d, n) | LockLower n => inr (inl n) | LockSynthetic n => inr (inr n) end)
    (λ s, match s with inl (d, n) => LockNative d n | inr (inl n) => LockLower n | inr (inr n) => LockSynthetic n end)).
  by intros [].
Defined.
#[export] Instance LockKey_countable : Countable LockKey.
Proof. apply (inj_countable' (λ k, (lk_file k, lk_flock k)) (λ p, MkLockKey p.1 p.2)). by intros []. Defined.

Definition F_RDLCK : Z := 0.
Definition F_WRLCK : Z := 1.
Definition F_UNLCK : Z := 2.

(** [virtiofsd::fuse::FileLock] *)
Record FileLock : Type := MkFileLock { l_start : Z; l_end : Z; l_type : Z; l_pid : Z }.
Record RecordLock : Type := MkRecordLock { k_owner : Z; k_start : Z; k_end : Z; k_type : Z; k_pid : Z }.

Abbreviation Locks := (gmap LockKey (list RecordLock)).
Definition records_of (st : Locks) (key : LockKey) : list RecordLock := default [] (st !! key).

Definition conflict (records : list RecordLock) (owner : Z) (requested : FileLock) : option RecordLock :=
  List.find (λ r,
    negb (k_owner r =? owner) && (k_start r <=? l_end requested) && (l_start requested <=? k_end r)
    && ((k_type r =? F_WRLCK) || (l_type requested =? F_WRLCK))) records.

Definition lock_get (st : Locks) (key : LockKey) (owner : Z) (requested : FileLock) : FileLock :=
  match conflict (records_of st key) owner requested with
  | Some r => MkFileLock (k_start r) (k_end r) (k_type r) (k_pid r)
  | None => MkFileLock (l_start requested) (l_end requested) F_UNLCK (l_pid requested)
  end.

(** The body of the loop over the old records *)
Definition cut (owner : Z) (requested : FileLock) (r : RecordLock) : list RecordLock :=
  if negb (k_owner r =? owner) || (k_end r <? l_start requested) || (l_end requested <? k_start r) then [r]
  else
    (if k_start r <? l_start requested then [MkRecordLock (k_owner r) (k_start r) (l_start requested - 1) (k_type r) (k_pid r)] else [])
    ++ (if l_end requested <? k_end r then [MkRecordLock (k_owner r) (l_end requested + 1) (k_end r) (k_type r) (k_pid r)] else []).

Definition put_records (st : Locks) (key : LockKey) (records : list RecordLock) : Locks :=
  match records with [] => delete key st | _ => <[key := records]> st end.

(** The part of [set] after its wait *)
Definition lock_commit (st : Locks) (key : LockKey) (owner : Z) (requested : FileLock) : Locks :=
  put_records st key
    (mbind (cut owner requested) (records_of st key)
     ++ (if l_type requested =? F_UNLCK then []
         else [MkRecordLock owner (l_start requested) (l_end requested) (l_type requested) (l_pid requested)])).

Definition lock_valid (requested : FileLock) : bool :=
  (l_start requested <=? l_end requested)
  && ((l_type requested =? F_RDLCK) || (l_type requested =? F_WRLCK) || (l_type requested =? F_UNLCK)).

(** The test of the loop of [set] *)
Definition lock_blocked (st : Locks) (key : LockKey) (owner : Z) (requested : FileLock) : bool :=
  negb (l_type requested =? F_UNLCK) && bool_decide (is_Some (conflict (records_of st key) owner requested)).

Definition lock_release (st : Locks) (key : LockKey) (owner : Z) : Locks :=
  match st !! key with
  | Some records => put_records st key (filter (λ r, k_owner r ≠ owner) records)
  | None => st
  end.

(** ** Callers *)

Inductive LockResult : Type := LkOk | LkInvalid | LkAgain.

(** A call that waits, and whether it was notified since it began to *)
Record Waiter : Type := MkWaiter { w_key : LockKey; w_owner : Z; w_req : FileLock; w_notified : bool }.

Record LockSys : Type := MkLockSys { locks : Locks; waiters : gmap nat Waiter }.
Definition lock_new : LockSys := MkLockSys ∅ ∅.

Definition notify_all (ws : gmap nat Waiter) : gmap nat Waiter :=
  (λ w, MkWaiter (w_key w) (w_owner w) (w_req w) true) <$> ws.

(** The loop of [set] and what follows it, from the test on *)
Definition lock_try (tid : nat) (key : LockKey) (owner : Z) (requested : FileLock) (blocking : bool) (s : LockSys) :
    LockSys * option LockResult :=
  if lock_blocked (locks s) key owner requested then
    if negb blocking then (s, Some LkAgain)
    else (MkLockSys (locks s) (<[tid := MkWaiter key owner requested false]> (waiters s)), None)
  else (MkLockSys (lock_commit (locks s) key owner requested) (notify_all (delete tid (waiters s))), Some LkOk).

Definition lock_set (tid : nat) (key : LockKey) (owner : Z) (requested : FileLock) (blocking : bool) (s : LockSys) :
    LockSys * option LockResult :=
  if negb (lock_valid requested) then (s, Some LkInvalid) else lock_try tid key owner requested blocking s.

(** A waiting call that returns from [wait] *)
Definition lock_wake (tid : nat) (s : LockSys) : option (LockSys * option LockResult) :=
  w ← waiters s !! tid; Some (lock_try tid (w_key w) (w_owner w) (w_req w) true s).

Definition lock_close (key : LockKey) (owner : Z) (s : LockSys) : LockSys :=
  MkLockSys (lock_release (locks s) key owner) (notify_all (waiters s)).

(** A number of the caller in use is a call that still waits. *)
Inductive lock_step : LockSys → LockSys → Prop :=
| StepSet tid key owner req blocking s :
    waiters s !! tid = None → 0 ≤ l_start req → l_end req < 2 ^ 64 →
    lock_step s (fst (lock_set tid key owner req blocking s))
| StepWake tid s s' r : lock_wake tid s = Some (s', r) → lock_step s s'
| StepClose key owner s : lock_step s (lock_close key owner s).

Inductive lock_reachable : LockSys → Prop :=
| lock_start : lock_reachable lock_new
| lock_next s s' : lock_reachable s → lock_step s s' → lock_reachable s'.

(** ** What a table stands for: the lock an owner has on a byte *)

Definition covers (r : RecordLock) (b : Z) : Prop := k_start r ≤ b ≤ k_end r.
Definition held (st : Locks) (key : LockKey) (owner b : Z) : option Z :=
  k_type <$> List.find (λ r, (k_owner r =? owner) && (k_start r <=? b) && (b <=? k_end r)) (records_of st key).

(** ** Well-formed tables *)

Definition record_ok (r : RecordLock) : Prop :=
  0 ≤ k_start r ≤ k_end r ∧ k_end r < 2 ^ 64 ∧ (k_type r = F_RDLCK ∨ k_type r = F_WRLCK).

(** Two records over a byte: of one owner they agree, of two they only read. *)
Definition compatible (r r' : RecordLock) : Prop :=
  ∀ b, covers r b → covers r' b →
  if decide (k_owner r = k_owner r') then k_type r = k_type r' else k_type r = F_RDLCK ∧ k_type r' = F_RDLCK.

Record records_wf (l : list RecordLock) : Prop := {
  wf_each r : r ∈ l → record_ok r;
  wf_pair r r' : r ∈ l → r' ∈ l → compatible r r' }.

Definition table_wf (st : Locks) : Prop := ∀ key, records_wf (records_of st key).

Lemma records_of_put st key l key' :
  records_of (put_records st key l) key' = if decide (key = key') then l else records_of st key'.
Proof.
  unfold records_of, put_records. destruct (decide (key = key')) as [<-|Hne].
  - destruct l; [by rewrite lookup_delete_eq | by rewrite lookup_insert_eq].
  - destruct l; [by rewrite lookup_delete_ne | by rewrite lookup_insert_ne].
Qed.

(** A piece of a record is inside it and, of the same owner, off the request. *)
Lemma cut_spec owner req r r' :
  l_start req ≤ l_end req → record_ok r → r' ∈ cut owner req r →
  record_ok r' ∧ k_owner r' = k_owner r ∧ k_type r' = k_type r
  ∧ ∀ b, covers r' b → covers r b ∧ (k_owner r = owner → ~ (l_start req ≤ b ≤ l_end req)).
Proof.
  intros Hreq [Hr [Hm Ht]]. unfold cut, record_ok, covers.
  destruct (Z.eqb_spec (k_owner r) owner), (Z.ltb_spec (k_end r) (l_start req)), (Z.ltb_spec (l_end req) (k_start r));
    cbn [negb orb]; rewrite ?list_elem_of_singleton; try (intros ->; split_and!; [lia.. | done | done | done | lia]).
  destruct (Z.ltb_spec (k_start r) (l_start req)), (Z.ltb_spec (l_end req) (k_end r)); cbn [app];
    rewrite ?elem_of_cons, ?elem_of_nil; intros Hin; destruct_or?; try done; subst r'; cbn; split_and!; try done; lia.
Qed.

(** Nothing else of the record is lost. *)
Lemma cut_covers owner req r b :
  covers r b → (k_owner r = owner → ~ (l_start req ≤ b ≤ l_end req)) → ∃ r', r' ∈ cut owner req r ∧ covers r' b.
Proof.
  unfold cut, covers. intros Hb Ho.
  destruct (Z.eqb_spec (k_owner r) owner), (Z.ltb_spec (k_end r) (l_start req)), (Z.ltb_spec (l_end req) (k_start r));
    cbn [negb orb]; try (exists r; split; [by apply list_elem_of_singleton | done]).
  specialize (Ho ltac:(done)). destruct (decide (b < l_start req)).
  - exists (MkRecordLock (k_owner r) (k_start r) (l_start req - 1) (k_type r) (k_pid r)). split; [|cbn; lia].
    apply elem_of_app. left. destruct (Z.ltb_spec (k_start r) (l_start req)); [by left | lia].
  - exists (MkRecordLock (k_owner r) (l_end req + 1) (k_end r) (k_type r) (k_pid r)). split; [|cbn; lia].
    apply elem_of_app. right. destruct (Z.ltb_spec (l_end req) (k_end r)); [by left | lia].
Qed.

Definition request_ok (req : FileLock) : Prop := lock_valid req = true ∧ 0 ≤ l_start req ∧ l_end req < 2 ^ 64.

Lemma request_ok_spec req :
  request_ok req → 0 ≤ l_start req ≤ l_end req ∧ l_end req < 2 ^ 64
    ∧ (l_type req = F_RDLCK ∨ l_type req = F_WRLCK ∨ l_type req = F_UNLCK).
Proof.
  intros [Hv Hb]. unfold lock_valid in Hv. apply andb_true_iff in Hv as [H1%Z.leb_le H2]. split; [lia|]. split; [lia|].
  rewrite !orb_true_iff, !Z.eqb_eq in H2. tauto.
Qed.

(** ** What conflicts *)

(** Another owner has a lock on a byte of the request that it cannot share. *)
Definition contended (st : Locks) (key : LockKey) (owner : Z) (req : FileLock) : Prop :=
  ∃ o b t, o ≠ owner ∧ l_start req ≤ b ≤ l_end req ∧ held st key o b = Some t ∧ (t = F_WRLCK ∨ l_type req = F_WRLCK).

Lemma held_spec st key owner b t :
  records_wf (records_of st key) →
  held st key owner b = Some t ↔ ∃ r, r ∈ records_of st key ∧ k_owner r = owner ∧ covers r b ∧ k_type r = t.
Proof.
  intros [_ Hp]. unfold held. set (P := λ r, _). split.
  - intros (r & Hf & ->)%fmap_Some. apply List.find_some in Hf as [Hin HP]. exists r. split; [by apply list_elem_of_In|].
    unfold P in HP. rewrite !andb_true_iff, Z.eqb_eq, !Z.leb_le in HP. unfold covers. by destruct HP as [[-> ?] ?].
  - intros (r & Hin & Ho & Hc & <-). destruct (List.find P (records_of st key)) as [r'|] eqn:Hf.
    + cbn. f_equal. apply List.find_some in Hf as [Hin' HP]. unfold P in HP. rewrite !andb_true_iff, Z.eqb_eq, !Z.leb_le in HP.
      destruct HP as [[Ho' ?] ?]. specialize (Hp r' r ltac:(by apply list_elem_of_In) Hin b ltac:(unfold covers; lia) Hc).
      rewrite decide_True in Hp by congruence. done.
    + exfalso. apply List.find_none with (x := r) in Hf; [|by apply list_elem_of_In]. unfold P, covers in *.
      rewrite Ho, Z.eqb_refl, (proj2 (Z.leb_le _ _)), (proj2 (Z.leb_le _ _)) in Hf by lia. done.
Qed.

Lemma conflict_contended st key owner req :
  records_wf (records_of st key) → l_start req ≤ l_end req →
  is_Some (conflict (records_of st key) owner req) ↔ contended st key owner req.
Proof.
  intros Hwf Hreq. unfold conflict, contended. set (P := λ r, _). split.
  - intros [r Hf]. apply List.find_some in Hf as [Hin HP]. unfold P in HP. apply list_elem_of_In in Hin.
    rewrite !andb_true_iff, negb_true_iff, orb_true_iff, Z.eqb_neq, !Z.leb_le, !Z.eqb_eq in HP.
    destruct HP as [[[Ho H1] H2] Ht]. destruct (wf_each _ Hwf r Hin) as [Hr _].
    exists (k_owner r), (Z.max (k_start r) (l_start req)), (k_type r). split_and!; [done | lia | lia | | done].
    apply held_spec; [done|]. exists r. unfold covers. split_and!; done || lia.
  - intros (o & b & t & Ho & Hb & Hh & Ht). apply held_spec in Hh as (r & Hin & <- & Hc & <-); [|done].
    destruct (List.find P (records_of st key)) as [r'|] eqn:Hf; [done|]. exfalso.
    apply List.find_none with (x := r) in Hf; [|by apply list_elem_of_In]. unfold P, covers in *.
    rewrite (proj2 (Z.eqb_neq _ _) Ho), (proj2 (Z.leb_le _ _)), (proj2 (Z.leb_le _ _)) in Hf by lia. cbn in Hf.
    apply orb_false_iff in Hf as [?%Z.eqb_neq ?%Z.eqb_neq]. tauto.
Qed.

(** ** A lock is taken *)

Definition new_record (owner : Z) (req : FileLock) : RecordLock :=
  MkRecordLock owner (l_start req) (l_end req) (l_type req) (l_pid req).

Lemma elem_of_commit st key owner req r :
  r ∈ records_of (lock_commit st key owner req) key ↔
  (∃ r0, r0 ∈ records_of st key ∧ r ∈ cut owner req r0) ∨ (l_type req ≠ F_UNLCK ∧ r = new_record owner req).
Proof.
  unfold lock_commit. rewrite records_of_put, decide_True by done. rewrite elem_of_app, list_elem_of_bind.
  destruct (Z.eqb_spec (l_type req) F_UNLCK); rewrite ?elem_of_nil, ?list_elem_of_singleton; unfold new_record; naive_solver.
Qed.

Lemma commit_other st key owner req key' :
  key ≠ key' → records_of (lock_commit st key owner req) key' = records_of st key'.
Proof. intros H. unfold lock_commit. by rewrite records_of_put, decide_False. Qed.

(** A piece beside the new record *)
Lemma piece_beside st key owner req r0 r :
  table_wf st → request_ok req → ~ contended st key owner req → l_type req ≠ F_UNLCK →
  r0 ∈ records_of st key → r ∈ cut owner req r0 → compatible r (new_record owner req).
Proof.
  intros Hwf Hreq Hc Hu Hin0 Hin b Hb Hb'. unfold new_record, covers in Hb'. cbn [k_start k_end] in Hb'. destruct (request_ok_spec _ Hreq) as (Hq & _ & Hty).
  destruct (cut_spec owner req r0 r) as (_ & Ho & Ht & Hcov); [lia | by apply (wf_each _ (Hwf key)) | done|].
  destruct (Hcov b Hb) as [Hb0 Hoff]. cbn [new_record k_owner k_type]. rewrite Ho, Ht.
  destruct (decide (k_owner r0 = owner)) as [E|E]; [by destruct (Hoff E)|].
  destruct (wf_each _ (Hwf key) r0 Hin0) as (_ & _ & Hty0).
  assert (held st key (k_owner r0) b = Some (k_type r0)) as Hh by (apply held_spec; [done | by exists r0]).
  destruct Hty0 as [Hty0|Hty0]; [|by destruct Hc; exists (k_owner r0), b, (k_type r0); auto].
  split; [done|]. destruct Hty as [|[Hw|]]; [done | | done]. by destruct Hc; exists (k_owner r0), b, (k_type r0); auto.
Qed.

Lemma compatible_sym r r' : compatible r r' → compatible r' r.
Proof. intros H b Hb Hb'. specialize (H b Hb' Hb). repeat case_decide; [done | congruence | congruence | tauto]. Qed.

Lemma commit_wf st key owner req :
  table_wf st → request_ok req → (l_type req ≠ F_UNLCK → ~ contended st key owner req) → table_wf (lock_commit st key owner req).
Proof.
  intros Hwf Hreq Hc key'. destruct (decide (key = key')) as [<-|Hne]; [|by rewrite commit_other].
  destruct (request_ok_spec _ Hreq) as (Hq & Hm & Hty). split.
  - intros r [(r0 & Hin0 & Hin)|[Hu ->]]%elem_of_commit.
    + by destruct (cut_spec owner req r0 r) as (? & _); [lia | apply (wf_each _ (Hwf key)) | |].
    + split; cbn; [lia|]. split; [lia|]. tauto.
  - intros r r' [(r0 & Hin0 & Hin)|[Hu ->]]%elem_of_commit [(r1 & Hin1 & Hin')|[Hu' ->]]%elem_of_commit.
    + destruct (cut_spec owner req r0 r) as (_ & Ho & Ht & Hcov); [lia | by apply (wf_each _ (Hwf key)) | done|].
      destruct (cut_spec owner req r1 r') as (_ & Ho' & Ht' & Hcov'); [lia | by apply (wf_each _ (Hwf key)) | done|].
      intros b Hb Hb'. rewrite Ho, Ho', Ht, Ht'. apply (wf_pair _ (Hwf key) r0 r1 Hin0 Hin1 b); [apply (Hcov b Hb) | apply (Hcov' b Hb')].
    + by apply (piece_beside st key owner req r0 r); auto.
    + apply compatible_sym. by apply (piece_beside st key owner req r1 r'); auto.
    + intros b _ _. by rewrite decide_True.
Qed.

(** The abstract table after a lock *)
Definition held_set (st : Locks) (key : LockKey) (owner : Z) (req : FileLock) (key' : LockKey) (o b : Z) : option Z :=
  if decide (key' = key ∧ o = owner ∧ l_start req ≤ b ≤ l_end req)
  then (if decide (l_type req = F_UNLCK) then None else Some (l_type req))
  else held st key' o b.

Lemma option_ext {A} (x y : option A) : (∀ a, x = Some a ↔ y = Some a) → x = y.
Proof. intros H. destruct x as [a|]; [symmetry; by apply H|]. destruct y as [a|]; [|done]. by rewrite (proj2 (H a)). Qed.

Lemma held_commit st key owner req key' o b :
  table_wf st → request_ok req → (l_type req ≠ F_UNLCK → ~ contended st key owner req) →
  held (lock_commit st key owner req) key' o b = held_set st key owner req key' o b.
Proof.
  intros Hwf Hreq Hc. pose proof (commit_wf st key owner req Hwf Hreq Hc) as Hwf'. destruct (request_ok_spec _ Hreq) as (Hq & _ & _).
  destruct (decide (key = key')) as [<-|Hne].
  2:{ unfold held_set. rewrite decide_False by naive_solver. unfold held. by rewrite commit_other. }
  apply option_ext. intros t. rewrite held_spec by done. setoid_rewrite elem_of_commit. unfold held_set. split.
  - intros (r & [(r0 & Hin0 & Hin)|[Hu ->]] & Ho & Hcv & Ht).
    + destruct (cut_spec owner req r0 r) as (_ & Ho' & Ht' & Hcov); [lia | by apply (wf_each _ (Hwf key)) | done|].
      destruct (Hcov b Hcv) as [Hb0 Hoff]. rewrite decide_False.
      * apply held_spec; [done|]. exists r0. split_and!; [done | congruence | done | congruence].
      * intros (_ & E & E'). apply Hoff; [congruence | done].
    + rewrite decide_True by (split_and!; [done | done | apply Hcv..]). rewrite decide_False by done. by f_equal.
  - destruct (decide _) as [(_ & -> & Hb)|Hd].
    + destruct (decide (l_type req = F_UNLCK)); [done|]. intros [= <-]. exists (new_record owner req). split_and!; [by right | done..].
    + intros (r & Hin & Ho & Hcv & Ht)%held_spec; [|done]. destruct (cut_covers owner req r b Hcv) as (r' & Hin' & Hcv').
      { intros E E'. apply Hd. split_and!; [done | congruence | apply E'..]. }
      destruct (cut_spec owner req r r') as (_ & Ho' & Ht' & _); [lia | by apply (wf_each _ (Hwf key)) | done|].
      exists r'. split_and!; [left; by exists r | congruence | done | congruence].
Qed.

(** ** Locks are dropped *)

Lemma records_of_release st key owner key' :
  records_of (lock_release st key owner) key'
  = if decide (key = key') then filter (λ r, k_owner r ≠ owner) (records_of st key') else records_of st key'.
Proof.
  unfold lock_release. destruct (st !! key) as [l|] eqn:E.
  - rewrite records_of_put. destruct (decide (key = key')) as [<-|]; [|done]. unfold records_of. by rewrite E.
  - destruct (decide (key = key')) as [<-|]; [|done]. unfold records_of. by rewrite E.
Qed.

Lemma release_wf st key owner : table_wf st → table_wf (lock_release st key owner).
Proof.
  intros Hwf key'. rewrite records_of_release. destruct (decide (key = key')); [|done]. destruct (Hwf key') as [He Hp].
  split; [intros r [_ ?]%list_elem_of_filter; by apply He | intros r r' [_ ?]%list_elem_of_filter [_ ?]%list_elem_of_filter; by apply Hp].
Qed.

Lemma held_release st key owner key' o b :
  table_wf st →
  held (lock_release st key owner) key' o b = if decide (key' = key ∧ o = owner) then None else held st key' o b.
Proof.
  intros Hwf. apply option_ext. intros t. rewrite held_spec by (apply release_wf; done). rewrite records_of_release.
  destruct (decide (key = key')) as [<-|Hne].
  - setoid_rewrite list_elem_of_filter. destruct (decide (key = key ∧ o = owner)) as [[_ ->]|Hd].
    + split; [naive_solver | done].
    + rewrite held_spec by done. split; [naive_solver|]. intros (r & Hin & <- & H). exists r. naive_solver.
  - rewrite decide_False by naive_solver. by rewrite held_spec.
Qed.

(** ** Every table that can be reached *)

Record sys_inv (s : LockSys) : Prop := {
  inv_table : table_wf (locks s);
  inv_request tid w : waiters s !! tid = Some w → request_ok (w_req w);
  inv_asleep tid w : waiters s !! tid = Some w → w_notified w = false → lock_blocked (locks s) (w_key w) (w_owner w) (w_req w) = true }.

Lemma blocked_contended st key owner req :
  table_wf st → request_ok req →
  lock_blocked st key owner req = true ↔ l_type req ≠ F_UNLCK ∧ contended st key owner req.
Proof.
  intros Hwf Hreq. destruct (request_ok_spec _ Hreq) as (Hq & _ & _). unfold lock_blocked.
  rewrite andb_true_iff, negb_true_iff, Z.eqb_neq, bool_decide_eq_true, conflict_contended by (done || lia). done.
Qed.

Lemma notify_lookup ws tid w :
  notify_all ws !! tid = Some w → w_notified w = true ∧ ∃ w0, ws !! tid = Some w0 ∧ w_req w = w_req w0.
Proof. unfold notify_all. rewrite lookup_fmap. intros (w0 & E & ->)%fmap_Some. split; [done | by exists w0]. Qed.

Lemma try_inv tid key owner req blocking s :
  sys_inv s → request_ok req → sys_inv (fst (lock_try tid key owner req blocking s)).
Proof.
  intros [Hwf Hr Ha] Hreq. unfold lock_try. destruct (lock_blocked (locks s) key owner req) eqn:Eb.
  - destruct blocking; cbn [negb fst]; [|done]. split; cbn; [done | |]; intros t w [[<- <-]|[Hne E]]%lookup_insert_Some; eauto.
  - assert (l_type req ≠ F_UNLCK → ~ contended (locks s) key owner req) as Hc.
    { intros Hu Hc. assert (lock_blocked (locks s) key owner req = true); [|congruence]. by apply blocked_contended. }
    split; cbn [fst locks waiters]; [by apply commit_wf | |]; intros t w (Hn & w0 & E & Ew)%notify_lookup; [|congruence].
    apply lookup_delete_Some in E as [_ E]. rewrite Ew. eauto.
Qed.

Lemma set_inv tid key owner req blocking s :
  sys_inv s → 0 ≤ l_start req → l_end req < 2 ^ 64 → sys_inv (fst (lock_set tid key owner req blocking s)).
Proof.
  intros Hs H0 H1. unfold lock_set. destruct (lock_valid req) eqn:E; [|done]. by apply try_inv.
Qed.

Lemma lock_reachable_inv s : lock_reachable s → sys_inv s.
Proof.
  induction 1 as [|s s' _ IH H].
  - split; cbn; [|by intros ? ? ?%lookup_empty_Some..]. intros key. unfold records_of. rewrite lookup_empty. cbn.
    split; intros; by destruct (not_elem_of_nil r).
  - destruct H as [tid key owner req blocking s Hn H0 H1|tid s s' r Hw|key owner s].
    + by apply set_inv.
    + unfold lock_wake in Hw. apply bind_Some in Hw as (w & E & [= Hw]).
      replace s' with (fst (lock_try tid (w_key w) (w_owner w) (w_req w) true s)) by (by rewrite Hw). apply try_inv; [done|]. by apply (inv_request s IH tid).
    + destruct IH as [Hwf Hr Ha]. split; cbn [lock_close locks waiters]; [by apply release_wf | |]; intros t w (Hn & w0 & E & Ew)%notify_lookup; [|congruence].
      rewrite Ew. eauto.
Qed.

(** Writers are alone. *)
Lemma wf_exclusive st key o o' b t t' :
  table_wf st → o ≠ o' → held st key o b = Some t → held st key o' b = Some t' → t = F_RDLCK ∧ t' = F_RDLCK.
Proof.
  intros Hwf Hne (r & Hin & <- & Hc & <-)%held_spec (r' & Hin' & <- & Hc' & <-)%held_spec; [|done..].
  specialize (wf_pair _ (Hwf key) r r' Hin Hin' b Hc Hc'). by rewrite decide_False.
Qed.

(** C29. The table of record locks, which keeps ranges and splits them, is a lock
    per owner and byte.  A call that does not wait is refused as invalid, or
    refused because another owner has a lock on a byte of the range that the
    request cannot share, both without effect; otherwise the owner's lock on
    every byte of the range becomes the one asked for, and no other lock of any
    file changes.  A byte that two owners have locked is locked for reading by
    both. *)
Theorem locks_are_per_byte s tid key owner req :
  lock_reachable s → waiters s !! tid = None → 0 ≤ l_start req → l_end req < 2 ^ 64 →
  ∃ s' r, lock_set tid key owner req false s = (s', Some r)
  ∧ match r with
    | LkInvalid => lock_valid req = false ∧ s' = s
    | LkAgain => lock_valid req = true ∧ l_type req ≠ F_UNLCK ∧ contended (locks s) key owner req ∧ s' = s
    | LkOk => lock_valid req = true ∧ (l_type req = F_UNLCK ∨ ~ contended (locks s) key owner req)
        ∧ ∀ key' o b, held (locks s') key' o b = held_set (locks s) key owner req key' o b
    end
  ∧ ∀ key' o o' b t t', o ≠ o' → held (locks s') key' o b = Some t → held (locks s') key' o' b = Some t' →
      t = F_RDLCK ∧ t' = F_RDLCK.
Proof.
  intros Hs%lock_reachable_inv Hn H0 H1. pose proof (set_inv tid key owner req false s Hs H0 H1) as [Hwf' _ _].
  destruct (lock_set tid key owner req false s) as [s' r] eqn:E. cbn [fst] in Hwf'. exists s'.
  unfold lock_set in E. destruct (lock_valid req) eqn:Ev; cbn [negb] in E.
  2:{ injection E as <- <-. exists LkInvalid. split_and!; [done | done | done|]. intros. by eapply wf_exclusive. }
  assert (request_ok req) as Hreq by done. pose proof (blocked_contended (locks s) key owner req (inv_table s Hs) Hreq) as Hb.
  unfold lock_try in E. destruct (lock_blocked (locks s) key owner req) eqn:Eb; cbn [negb] in E; injection E as <- <-.
  - exists LkAgain. destruct (proj1 Hb eq_refl) as [Hu Hc]. split_and!; [done.. | intros; by eapply wf_exclusive].
  - exists LkOk. assert (l_type req ≠ F_UNLCK → ~ contended (locks s) key owner req) as Hc by (intros Hu Hc; discriminate (proj2 Hb (conj Hu Hc))).
    split_and!; [done | done | | | intros; by eapply wf_exclusive].
    + destruct (decide (l_type req = F_UNLCK)); [by left | right; by apply Hc].
    + intros key' o b. cbn [locks]. by apply held_commit; [apply Hs | |].
Qed.

(** C30. A call that waits for a lock is not forgotten: once no other owner's
    lock is in its way it has been notified, and when it runs it returns with the
    lock on every byte it asked for. *)
Theorem waiter_gets_lock s tid w :
  lock_reachable s → waiters s !! tid = Some w → ~ contended (locks s) (w_key w) (w_owner w) (w_req w) →
  w_notified w = true ∧ ∃ s', lock_wake tid s = Some (s', Some LkOk) ∧ waiters s' !! tid = None
    ∧ ∀ key' o b, held (locks s') key' o b = held_set (locks s) (w_key w) (w_owner w) (w_req w) key' o b.
Proof.
  intros Hs%lock_reachable_inv E Hc. pose proof (inv_request s Hs tid w E) as Hreq.
  assert (lock_blocked (locks s) (w_key w) (w_owner w) (w_req w) = false) as Hb.
  { apply not_true_iff_false. rewrite blocked_contended by (done || apply Hs). tauto. }
  split.
  - destruct (w_notified w) eqn:Ew; [done|]. pose proof (inv_asleep s Hs tid w E Ew). congruence.
  - unfold lock_wake. rewrite E. cbn [mbind option_bind]. unfold lock_try. rewrite Hb. eexists. split; [done|]. cbn [waiters locks]. split.
    + unfold notify_all. by rewrite lookup_fmap, lookup_delete_eq.
    + intros key' o b. apply held_commit; [apply Hs | done | done].
Qed.

(** [get] tells of a lock in the way exactly when there is one. *)
Theorem get_reports_contention s key owner req :
  lock_reachable s → l_start req ≤ l_end req →
  l_type (lock_get (locks s) key owner req) ≠ F_UNLCK ↔ contended (locks s) key owner req.
Proof.
  intros Hs%lock_reachable_inv Hreq. rewrite <- conflict_contended by (done || apply Hs). unfold lock_get.
  destruct (conflict (records_of (locks s) key) owner req) as [r|] eqn:E; cbn; [|split; [done | by intros []]].
  split; [done|]. intros _ Ht. unfold conflict in E. apply List.find_some in E as [Hin _].
  destruct (wf_each _ (inv_table s Hs key) r) as (_ & _ & [H|H]); [by apply list_elem_of_In | | ]; rewrite H in Ht; done.
Qed.

(** ** An example: a lock is split, and a caller waits for the middle. *)

Definition k1 : LockKey := MkLockKey (LockSynthetic 1) false.
Definition wr (a b : Z) : FileLock := MkFileLock a b F_WRLCK 123.
Definition sys_split : LockSys :=
  fst (lock_set 0 k1 100 (MkFileLock 13 16 F_UNLCK 123) false
    (fst (lock_set 1 k1 200 (wr 13 16) true (fst (lock_set 0 k1 100 (wr 10 19) false lock_new))))).

Lemma sys_split_reachable : lock_reachable sys_split.
Proof. unfold sys_split. repeat (eapply lock_next; [|apply StepSet; [reflexivity | done | done]]). apply lock_start. Qed.

Lemma locks_are_per_byte_witness :
  ∃ s' r, lock_set 2 k1 300 (wr 16 17) false sys_split = (s', Some r) ∧ r = LkAgain ∧ s' = sys_split.
Proof.
  destruct (locks_are_per_byte sys_split 2 k1 300 (wr 16 17) sys_split_reachable eq_refl ltac:(done) ltac:(done)) as (s' & r & E & H & _).
  exists s', r. split; [done|]. assert (r = LkAgain) as -> by (vm_compute in E; congruence). split; [done | apply H].
Defined.

Lemma waiter_gets_lock_witness :
  ∃ s', lock_wake 1 sys_split = Some (s', Some LkOk) ∧ waiters s' !! 1%nat = None.
Proof.
  destruct (waiter_gets_lock sys_split 1 (MkWaiter k1 200 (wr 13 16) true) sys_split_reachable) as (_ & s' & H1 & H2 & _).
  - by vm_compute.
  - intros (o & b & t & Ho & Hb & Hh & _). revert Hh. unfold held. change (records_of (locks sys_split) _)
      with [MkRecordLock 100 10 12 F_WRLCK 123; MkRecordLock 100 17 19 F_WRLCK 123].
    cbn in Hb. cbn. destruct (Z.leb_spec 10 b), (Z.leb_spec b 12), (Z.leb_spec 17 b), (Z.leb_spec b 19); try lia; by rewrite ?andb_false_r.
  - by exists s'.
Defined.
