(* ===== verification/NodeTables.v ===== *)
(** * Identities of files.

    Models [engine/src/sarunfs.rs]: the table of inode numbers the kernel knows a
    box's files by, the table of open handles, the attributes and directory
    entries of the protocol; [kind_of_mode] of [engine/src/overlay.rs]; and the
    journal of [engine/src/sarunfs/mutation.rs].  A path is its UTF-8 bytes. *)

From stdpp Require Import gmap.
From S2P Require Import Prelude.
From S2P Require Import Glob.
Open Scope Z_scope.

(** ** Inode numbers *)

Abbreviation NodeKey := (Z * list Z)%type.

Record Inodes : Type := MkInodes {
  by_inode : gmap Z NodeKey; by_key : gmap NodeKey Z; lookups : gmap Z Z; ino_next : Z }.

Definition inodes_new (root : NodeKey) : Inodes := MkInodes {[1 := root]} {[root := 1]} ∅ 2.

Definition inode_key (t : Inodes) (inode : Z) : option NodeKey := by_inode t !! inode.
Definition key_inode (t : Inodes) (key : NodeKey) : option Z := by_key t !! key.

Definition U64_MAX : Z := 2 ^ 64 - 1.
Definition saturating_add (a b : Z) : Z := Z.min (a + b) U64_MAX.
Definition saturating_sub (a b : Z) : Z := Z.max (a - b) 0.

(** [intern]; [None] is the panic when the numbers are used up.  The second look
    under the write lock is the one that counts. *)
Definition intern (t : Inodes) (key : NodeKey) : option (Inodes * Z) :=
  match by_key t !! key with
  | Some inode => Some (t, inode)
  | None =>
      let inode := ino_next t in
      if ino_next t <? U64_MAX
      then Some (MkInodes (<[inode := key]> (by_inode t)) (<[key := inode]> (by_key t)) (lookups t) (ino_next t + 1), inode)
      else None
  end.

Definition acquire (t : Inodes) (inode count : Z) : Inodes :=
  if count =? 0 then t
  else if bool_decide (is_Some (by_inode t !! inode))
  then MkInodes (by_inode t) (by_key t) (<[inode := saturating_add (default 0 (lookups t !! inode)) count]> (lookups t)) (ino_next t)
  else t.

Definition forget (t : Inodes) (inode count : Z) : Inodes :=
  if inode =? 1 then t
  else
    let remaining := saturating_sub (default 0 (lookups t !! inode)) count in
    if negb (remaining =? 0) then MkInodes (by_inode t) (by_key t) (<[inode := remaining]> (lookups t)) (ino_next t)
    else
      MkInodes (delete inode (by_inode t))
        (match by_inode t !! inode with
         | Some key => if bool_decide (by_key t !! key = Some inode) then delete key (by_key t) else by_key t
         | None => by_key t
         end)
        (delete inode (lookups t)) (ino_next t).

Definition detach (t : Inodes) (key : NodeKey) : Inodes * option Z :=
  (MkInodes (by_inode t) (delete key (by_key t)) (lookups t) (ino_next t), by_key t !! key).

(** [str::strip_prefix] *)
Fixpoint strip_prefix (p s : list Z) : option (list Z) :=
  match p, s with
  | [], _ => Some s
  | c :: p, x :: s => if c =? x then strip_prefix p s else None
  | _, [] => None
  end.

(** The new key of a name in the subtree *)
Definition moved (box_id : Z) (old new : list Z) (key : NodeKey) : option NodeKey :=
  if key.1 =? box_id then
    if bool_decide (key.2 = old) then Some (key.1, new)
    else tail ← strip_prefix (old ++ [SLASH]) key.2; Some (key.1, new ++ [SLASH] ++ tail)
  else None.

(** [moves], with the entries of the map in the order the iterator gives *)
Definition moves_of (entries : list (NodeKey * Z)) (box_id : Z) (old new : list Z) : list (NodeKey * NodeKey * Z) :=
  omap (λ '(key, inode), key' ← moved box_id old new key; Some (key, key', inode)) entries.

Definition move_one (t : Inodes) (mv : NodeKey * NodeKey * Z) : Inodes :=
  let '(old_key, new_key, inode) := mv in
  MkInodes (<[inode := new_key]> (by_inode t)) (<[new_key := inode]> (delete old_key (by_key t))) (lookups t) (ino_next t).

Definition remap_with (entries : list (NodeKey * Z)) (t : Inodes) (box_id : Z) (old new : list Z) : Inodes :=
  foldl move_one t (moves_of entries box_id old new).

(** ** Handles *)

Record Handles (T : Type) : Type := MkHandles { h_next : Z; h_entries : gmap Z T }.
Arguments MkHandles {T}. Arguments h_next {T}. Arguments h_entries {T}.
Definition handles_new {T} : Handles T := MkHandles 1 ∅.

(** [insert]; the counter wraps, and the number 0 panics. *)
Definition handle_insert {T} (h : Handles T) (v : T) : Handles T * option Z :=
  let handle := h_next h in
  let next := (h_next h + 1) mod 2 ^ 64 in
  if handle =? 0 then (MkHandles next (h_entries h), None)
  else (MkHandles next (<[handle := v]> (h_entries h)), Some handle).
Definition handle_get {T} (h : Handles T) (handle : Z) : option T := h_entries h !! handle.
Definition handle_remove {T} (h : Handles T) (handle : Z) : Handles T * option T :=
  (MkHandles (h_next h) (delete handle (h_entries h)), h_entries h !! handle).

(** ** Attributes *)

Inductive NodeKind : Type := NamedPipe | CharDevice | BlockDevice | Directory | RegularFile | Symlink | Socket.
#[export] Instance NodeKind_eq_dec : EqDecision NodeKind.
Proof. solve_decision. Defined.

Definition kind_bits (k : NodeKind) : Z :=
  match k with
  | NamedPipe => 4096 | CharDevice => 8192 | BlockDevice => 24576 | Directory => 16384
  | RegularFile => 32768 | Symlink => 40960 | Socket => 49152
  end.
Definition IFMT : Z := 61440.

Definition kind_of_mode (mode : Z) : NodeKind :=
  let value := Z.land mode IFMT in
  if value =? 16384 then Directory
  else if value =? 40960 then Symlink
  else if value =? 8192 then CharDevice
  else if value =? 24576 then BlockDevice
  else if value =? 4096 then NamedPipe
  else if value =? 49152 then Socket
  else RegularFile.

(** A [SystemTime] is its nanoseconds since the epoch. *)
Record NodeAttr : Type := MkNodeAttr {
  a_inode : Z; a_size : Z; a_blocks : Z; a_atime : Z; a_mtime : Z; a_ctime : Z; a_kind : NodeKind; a_perm : Z;
  a_nlink : Z; a_uid : Z; a_gid : Z; a_rdev : Z; a_blksize : Z; a_flags : Z }.

Definition timestamp (ns : Z) : Z * Z := if ns <? 0 then (0, 0) else (ns / 10 ^ 9, ns mod 10 ^ 9).

(** [virtiofsd::fuse::Attr] *)
Record WireAttr : Type := MkWireAttr {
  w_ino : Z; w_size : Z; w_blocks : Z; w_atime : Z; w_mtime : Z; w_ctime : Z; w_atimensec : Z; w_mtimensec : Z;
  w_ctimensec : Z; w_mode : Z; w_nlink : Z; w_uid : Z; w_gid : Z; w_rdev : Z; w_blksize : Z; w_flags : Z }.

Definition virtio_attr (a : NodeAttr) (single_identity : bool) : WireAttr :=
  let '(atime, atimensec) := timestamp (a_atime a) in
  let '(mtime, mtimensec) := timestamp (a_mtime a) in
  let '(ctime, ctimensec) := timestamp (a_ctime a) in
  MkWireAttr (a_inode a) (a_size a) (a_blocks a) atime mtime ctime atimensec mtimensec ctimensec
    (Z.lor (kind_bits (a_kind a)) (a_perm a)) (a_nlink a)
    (if single_identity then 0 else a_uid a) (if single_identity then 0 else a_gid a)
    (a_rdev a) (a_blksize a) (a_flags a).

(** [ts] and [ns_ts] of [overlay.rs] *)
Definition ts (secs nanos : Z) : Z := if 0 <=? secs then secs * 10 ^ 9 + nanos else - (- secs * 10 ^ 9).
Definition ns_ts (ns : Z) : Z := ts (ns / 10 ^ 9) (ns mod 10 ^ 9).

(** Directory entries; [DT_*] is the kind without its low bits. *)
Record DirEntry : Type := MkDirEntry { de_ino : Z; de_offset : Z; de_type : Z; de_name : list Z }.
Record DirIter : Type := MkDirIter { di_entries : list DirEntry; di_next : Z }.
Definition dir_type (k : NodeKind) : Z :=
  match k with
  | NamedPipe => 1 | CharDevice => 2 | BlockDevice => 6 | Directory => 4 | RegularFile => 8 | Symlink => 10 | Socket => 12
  end.
(** [CString::new] refuses a zero byte. *)
Definition dir_iter_new (entries : list (Z * Z * NodeKind * list Z)) : DirIter :=
  MkDirIter (omap (λ '(inode, offset, kind, name),
    if bool_decide (0 ∈ name) then None else Some (MkDirEntry inode offset (dir_type kind) name)) entries) 0.
Definition dir_iter_next (d : DirIter) : DirIter * option DirEntry :=
  (MkDirIter (di_entries d) (saturating_add (di_next d) 1), di_entries d !! Z.to_nat (di_next d)).

(** ** The journal of mutations *)

Abbreviation Event := (Z * list Z * list Z)%type.
Definition EVENT_CAPACITY : Z := 4096.
Definition journal_record (events : list Event) (e : Event) : list Event :=
  (if EVENT_CAPACITY <=? zlen events then drop (Z.to_nat (EVENT_CAPACITY / 2)) events else events) ++ [e].
Definition journal_drain (events : list Event) : list Event * list Event := ([], events).

(** [malformed_fuse_reply]: the headers are 40 and 16 bytes, the request's
    [unique] is at byte 8; [EIO] is 5. *)
Definition malformed_fuse_reply (request response : list Z) : option (list Z * Z) :=
  if (zlen request <? 40) || (zlen response <? 16) then None
  else Some ([16; 0; 0; 0] ++ [251; 255; 255; 255] ++ take 8 (drop 8 request) ++ drop 16 response, 16).

(** * Identities of files: laws.

    What the kernel may rely on: a number names one file as long as it is
    looked up, follows it through renames, and is never given to another; handles
    are not reused; the protocol's mode has the kind and the permissions; the
    journal keeps the newest mutations in order. *)

(** ** Names in a subtree *)

Lemma strip_prefix_spec p s t : strip_prefix p s = Some t ↔ s = p ++ t.
Proof.
  revert s. induction p as [|c p IH]; intros s; cbn; [naive_solver|]. destruct s as [|x s]; [naive_solver|].
  destruct (Z.eqb_spec c x) as [->|]; [rewrite IH; naive_solver | naive_solver].
Qed.

(** [q] is [p] or below it. *)
Definition at_or_under (p q : list Z) : Prop := ∃ r, q = p ++ r ∧ (r = [] ∨ ∃ t, r = SLASH :: t).
Definition apart (old new : list Z) : Prop := ~ at_or_under old new ∧ ~ at_or_under new old.

Lemma moved_spec box old new k k' :
  moved box old new k = Some k' ↔
  k.1 = box ∧ k'.1 = box ∧ ∃ r, k.2 = old ++ r ∧ k'.2 = new ++ r ∧ (r = [] ∨ ∃ t, r = SLASH :: t).
Proof.
  unfold moved. destruct k as [b p], k' as [b' p']. cbn [fst snd]. destruct (Z.eqb_spec b box) as [->|]; [|naive_solver].
  case_bool_decide as Hp.
  - subst p. split.
    + intros [= <- <-]. split_and!; [done | done|]. exists []. rewrite !app_nil_r. auto.
    + intros (_ & -> & r & Hr & -> & _). assert (r = []) as -> by (destruct r; [done|]; apply (f_equal length) in Hr; rewrite length_app in Hr; cbn in Hr; lia).
      by rewrite app_nil_r.
  - split.
    + intros (t & Ht%strip_prefix_spec & [= <- <-])%bind_Some. split_and!; [done | done|]. exists (SLASH :: t). rewrite <- app_assoc in Ht. naive_solver.
    + intros (_ & -> & r & -> & -> & [->|[t ->]]); [by rewrite app_nil_r in Hp|].
      rewrite (proj2 (strip_prefix_spec (old ++ [SLASH]) (old ++ SLASH :: t) t)) by (by rewrite <- app_assoc). done.
Qed.

Lemma moved_inverse box old new k k' : moved box old new k = Some k' ↔ moved box new old k' = Some k.
Proof. rewrite !moved_spec. naive_solver. Qed.

Lemma under_both p q s : at_or_under p s → at_or_under q s → at_or_under p q ∨ at_or_under q p.
Proof.
  intros (r & -> & Hr) (r' & E & Hr'). apply app_eq_app in E as [l [[-> E]|[-> E]]]; [right | left]; exists l; (split; [done|]).
  - destruct l as [|c l]; [by left|]. right. exists l. destruct Hr' as [Hr'|[t Hr']]; rewrite Hr' in E; naive_solver.
  - destruct l as [|c l]; [by left|]. right. exists l. destruct Hr as [Hr|[t Hr]]; rewrite Hr in E; naive_solver.
Qed.

(** Where the two names are apart, a moved name is not moved again. *)
Lemma moved_once box old new k k' : apart old new → moved box old new k = Some k' → moved box old new k' = None.
Proof.
  intros [H1 H2] (_ & _ & r & _ & Hr & Hs)%moved_spec. destruct (moved box old new k') as [k2|] eqn:E; [|done].
  apply moved_spec in E as (_ & _ & r2 & Hr2 & _ & Hs2).
  destruct (under_both new old k'.2); [by exists r | by exists r2 | tauto | tauto].
Qed.

Lemma moved_inj box old new k1 k2 k' : moved box old new k1 = Some k' → moved box old new k2 = Some k' → k1 = k2.
Proof. rewrite !(moved_inverse box old new). congruence. Qed.

(** ** The loop over the moves *)

Definition olds (ms : list (NodeKey * NodeKey * Z)) : list NodeKey := (λ m, m.1.1) <$> ms.
Definition news (ms : list (NodeKey * NodeKey * Z)) : list NodeKey := (λ m, m.1.2) <$> ms.

Record moves_ok (ms : list (NodeKey * NodeKey * Z)) : Prop := {
  ok_news : NoDup (news ms);
  ok_inodes : NoDup (snd <$> ms);
  ok_apart k : k ∈ news ms → k ∉ olds ms }.

Lemma move_all ms t :
  moves_ok ms →
  (∀ m, m ∈ ms → by_inode (foldl move_one t ms) !! m.2 = Some m.1.2 ∧ by_key (foldl move_one t ms) !! m.1.2 = Some m.2)
  ∧ (∀ i, i ∉ snd <$> ms → by_inode (foldl move_one t ms) !! i = by_inode t !! i)
  ∧ (∀ k, k ∉ news ms → by_key (foldl move_one t ms) !! k = if decide (k ∈ olds ms) then None else by_key t !! k)
  ∧ lookups (foldl move_one t ms) = lookups t ∧ ino_next (foldl move_one t ms) = ino_next t.
Proof.
  revert t. induction ms as [|[[o n] i] ms IH]; intros t [Hn Hi Ha].
  { cbn. split_and!; try done. by intros m ?%not_elem_of_nil. }
  unfold olds, news in Hn, Ha. cbn [fmap list_fmap fst snd] in Hn, Hi, Ha. apply NoDup_cons in Hn as [Hn1 Hn2], Hi as [Hi1 Hi2].
  assert (moves_ok ms) as Hok.
  { split; [done | done|]. intros k Hk Hk'. apply (Ha k); by right. }
  cbn [foldl]. destruct (IH (move_one t (o, n, i)) Hok) as (IH1 & IH2 & IH3 & IH4 & IH5). cbn [move_one by_inode by_key lookups ino_next] in *.
  assert (n ∉ olds ms) as Hno by (intros H; apply (Ha n); [by left | by right]).
  split_and!; [| | |done | done].
  - intros m [->|Hm]%elem_of_cons; [|by apply IH1]. cbn [fst snd]. rewrite IH2, IH3 by done. rewrite decide_False by done.
    by rewrite !lookup_insert_eq.
  - intros j Hj. cbn in Hj. apply not_elem_of_cons in Hj as [Hj1 Hj2]. by rewrite IH2, lookup_insert_ne by done.
  - intros k Hk. unfold news in Hk. cbn in Hk. apply not_elem_of_cons in Hk as [Hk1 Hk2]. rewrite IH3 by done.
    unfold olds. cbn [fmap list_fmap fst]. destruct (decide (k ∈ (λ m, m.1.1) <$> ms)) as [Hin|Hin].
    + by rewrite decide_True by (by right).
    + rewrite lookup_insert_ne by done. destruct (decide (k = o)) as [->|Hko].
      * rewrite lookup_delete_eq. by rewrite decide_True by (by left).
      * rewrite lookup_delete_ne by done. rewrite decide_False; [done|]. by intros [?|?]%elem_of_cons.
Qed.

(** ** Tables *)

Record inodes_wf (t : Inodes) : Prop := {
  wf_next : 1 ≤ ino_next t;
  wf_key k i : by_key t !! k = Some i → by_inode t !! i = Some k;
  wf_given i k : by_inode t !! i = Some k → 1 ≤ i < ino_next t;
  wf_counts i n : lookups t !! i = Some n → 1 ≤ i < ino_next t }.

(** A file by its number: its name, and whether the name still leads to it *)
Definition node (t : Inodes) (i : Z) : option (NodeKey * bool) :=
  (λ k, (k, bool_decide (by_key t !! k = Some i))) <$> by_inode t !! i.

Lemma moves_of_spec entries t box old new :
  inodes_wf t → apart old new → entries ≡ₚ map_to_list (by_key t) → moves_ok (moves_of entries box old new)
  ∧ ∀ k k' i, (k, k', i) ∈ moves_of entries box old new ↔ by_key t !! k = Some i ∧ moved box old new k = Some k'.
Proof.
  intros Hwf Hap Hperm.
  assert (∀ k k' i, (k, k', i) ∈ moves_of entries box old new ↔ by_key t !! k = Some i ∧ moved box old new k = Some k') as Hspec.
  { intros k k' i. unfold moves_of. rewrite list_elem_of_omap. rewrite <- elem_of_map_to_list. setoid_rewrite Hperm. split.
    - intros ([k0 i0] & Hin & (k1 & Hk1 & [= <- <- <-])%bind_Some). done.
    - intros [Hin Hm]. exists (k, i). split; [done|]. by rewrite Hm. }
  split; [|done].
  assert (NoDup (moves_of entries box old new)) as Hnd.
  { unfold moves_of. assert (NoDup entries) as Hne by (rewrite Hperm; apply NoDup_map_to_list). clear Hspec Hperm.
    induction Hne as [|[k i] l Hl Hne IH]; cbn; [constructor|]. destruct (moved box old new k) as [k'|]; cbn; [|done].
    constructor; [|done]. intros ([k0 i0] & Hin & (k1 & Hk1 & [= -> -> ->])%bind_Some)%list_elem_of_omap. done. }
  split.
  - apply NoDup_fmap_2_strong; [|done]. intros [[k k'] i] [[k2 k2'] i2] [H1 H2]%Hspec [H3 H4]%Hspec E. cbn in E. subst k2'.
    assert (k = k2) as <- by (by eapply moved_inj). congruence.
  - apply NoDup_fmap_2_strong; [|done]. intros [[k k'] i] [[k2 k2'] i2] [H1 H2]%Hspec [H3 H4]%Hspec E. cbn in E. subst i2.
    apply (wf_key _ Hwf) in H1, H3. assert (k = k2) as <- by congruence. congruence.
  - intros k' ([[k k0] i] & E & [H1 H2]%Hspec)%list_elem_of_fmap ([[k2 k2'] i2] & E' & [H3 H4]%Hspec)%list_elem_of_fmap.
    cbn in E, E'. subst k0 k2. pose proof (moved_once _ _ _ _ _ Hap H2). congruence.
Qed.

(** The two maps after a rename *)
Lemma remap_lookups entries t box old new :
  inodes_wf t → apart old new → entries ≡ₚ map_to_list (by_key t) →
  let t' := remap_with entries t box old new in
  (∀ k k' i, by_key t !! k = Some i → moved box old new k = Some k' → by_inode t' !! i = Some k' ∧ by_key t' !! k' = Some i)
  ∧ (∀ k i, by_inode t !! i = Some k → (by_key t !! k = Some i → moved box old new k = None) → by_inode t' !! i = Some k)
  ∧ (∀ i, by_inode t !! i = None → by_inode t' !! i = None)
  ∧ (∀ k, (∀ k0 i, by_key t !! k0 = Some i → moved box old new k0 ≠ Some k) →
       by_key t' !! k = match moved box old new k with Some _ => None | None => by_key t !! k end)
  ∧ lookups t' = lookups t ∧ ino_next t' = ino_next t.
Proof.
  intros Hwf Hap Hperm t'. destruct (moves_of_spec entries t box old new Hwf Hap Hperm) as [Hok Hspec].
  destruct (move_all _ t Hok) as (H1 & H2 & H3 & H4 & H5). fold (remap_with entries t box old new) in H1, H2, H3, H4, H5. fold t' in H1, H2, H3, H4, H5.
  split_and!; [| | | |done | done].
  - intros k k' i Hk Hm. apply (H1 (k, k', i)). by apply Hspec.
  - intros k i Hi Hm. rewrite H2; [done|]. intros ([[k0 k'] i'] & E & [Hk0 Hm0]%Hspec)%list_elem_of_fmap. cbn in E. subst i'.
    pose proof (wf_key _ Hwf k0 i Hk0). assert (k0 = k) as -> by congruence. rewrite (Hm Hk0) in Hm0. done.
  - intros i Hi. rewrite H2; [done|]. intros ([[k0 k'] i'] & E & [Hk0 Hm0]%Hspec)%list_elem_of_fmap. cbn in E. subst i'.
    pose proof (wf_key _ Hwf k0 i Hk0). congruence.
  - intros k Hk. rewrite H3.
    2:{ intros ([[k0 k'] i'] & E & [Hk0 Hm0]%Hspec)%list_elem_of_fmap. cbn in E. subst k'. by apply (Hk k0 i'). }
    destruct (moved box old new k) as [k'|] eqn:Em.
    + destruct (decide (k ∈ olds (moves_of entries box old new))) as [|Hno]; [done|]. destruct (by_key t !! k) as [i|] eqn:Ek; [|done].
      destruct Hno. apply list_elem_of_fmap. exists (k, k', i). split; [done|]. by apply Hspec.
    + rewrite decide_False; [done|]. intros ([[k0 k'] i'] & E & [Hk0 Hm0]%Hspec)%list_elem_of_fmap. cbn in E. subst k0. congruence.
Qed.

(** ** What each operation does to a file *)

Inductive NodeOp : Type :=
| OpIntern (key : NodeKey)
| OpAcquire (inode count : Z)
| OpForget (inode count : Z)
| OpDetach (key : NodeKey)
| OpRemap (entries : list (NodeKey * Z)) (box_id : Z) (old new : list Z).

Definition node_run (t : Inodes) (op : NodeOp) : option Inodes :=
  match op with
  | OpIntern key => fst <$> intern t key
  | OpAcquire i n => Some (acquire t i n)
  | OpForget i n => Some (forget t i n)
  | OpDetach key => Some (fst (detach t key))
  | OpRemap entries box_id old new => Some (remap_with entries t box_id old new)
  end.

(** The kernel does not rename a directory into itself or over its own ancestor. *)
Definition op_allowed (t : Inodes) (op : NodeOp) : Prop :=
  match op with
  | OpRemap entries _ old new => apart old new ∧ entries ≡ₚ map_to_list (by_key t)
  | OpForget _ n => 0 ≤ n
  | _ => True
  end.

(** The file numbered [j] afterwards *)
Definition node_after (t : Inodes) (op : NodeOp) (j : Z) : option (NodeKey * bool) :=
  match op with
  | OpIntern key =>
      match by_key t !! key with
      | Some _ => node t j
      | None => if j =? ino_next t then Some (key, true) else node t j
      end
  | OpAcquire _ _ => node t j
  | OpForget i n => if (j =? i) && negb (i =? 1) && (default 0 (lookups t !! i) <=? n) then None else node t j
  | OpDetach key => (λ n : NodeKey * bool, (n.1, n.2 && bool_decide (n.1 ≠ key))) <$> node t j
  | OpRemap _ box_id old new =>
      (λ n : NodeKey * bool,
        if n.2 then
          match moved box_id old new n.1 with
          | Some k' => (k', true)
          | None =>
              (n.1, match moved box_id new old n.1 with
                    | Some k0 => negb (bool_decide (is_Some (by_key t !! k0)))
                    | None => true
                    end)
          end
        else n) <$> node t j
  end.

Lemma node_unlinked t k i : inodes_wf t → by_inode t !! i = Some k → by_key t !! k ≠ Some i → node t i = Some (k, false).
Proof. intros Hwf E H. unfold node. rewrite E. cbn. by rewrite bool_decide_eq_false_2. Qed.
Lemma node_linked t k i : inodes_wf t → by_key t !! k = Some i → node t i = Some (k, true).
Proof. intros Hwf E. unfold node. rewrite (wf_key _ Hwf k i E). cbn. by rewrite bool_decide_eq_true_2. Qed.
Lemma node_cases t i : inodes_wf t →
  (node t i = None ∧ by_inode t !! i = None)
  ∨ ∃ k, by_inode t !! i = Some k ∧ (node t i = Some (k, true) ∧ by_key t !! k = Some i ∨ node t i = Some (k, false) ∧ by_key t !! k ≠ Some i).
Proof.
  intros Hwf. unfold node. destruct (by_inode t !! i) as [k|] eqn:E; [right | by left]. exists k. split; [done|]. cbn.
  case_bool_decide; [by left | by right].
Qed.

Lemma intern_step t key t' i :
  inodes_wf t → intern t key = Some (t', i) →
  inodes_wf t' ∧ key_inode t' key = Some i ∧ (by_key t !! key = Some i ∨ i = ino_next t) ∧ ∀ j, node t' j = node_after t (OpIntern key) j.
Proof.
  intros [Hn Hk Hg Hc]. unfold intern. cbn [node_after]. destruct (by_key t !! key) as [i0|] eqn:E.
  { intros [= <- <-]. split_and!; [done | done | by left | done]. }
  destruct (_ <? _); [|done]. intros [= <- <-]. split_and!; [split; cbn | | by right |].
  - lia.
  - intros k j [[<- <-]|[Hne H]]%lookup_insert_Some; [apply lookup_insert_eq|]. rewrite lookup_insert_ne; [by apply Hk|].
    intros <-. apply Hk, Hg in H. lia.
  - intros j k [[<- <-]|[Hne H]]%lookup_insert_Some; [lia | apply Hg in H; lia].
  - intros j n H. apply Hc in H. lia.
  - unfold key_inode. cbn. apply lookup_insert_eq.
  - intros j. unfold node. cbn. destruct (Z.eqb_spec j (ino_next t)) as [->|Hj].
    + rewrite !lookup_insert_eq. cbn. rewrite bool_decide_eq_true_2; [done | apply lookup_insert_eq].
    + rewrite lookup_insert_ne by done. destruct (by_inode t !! j) as [k|] eqn:Ej; [|done]. cbn. do 2 f_equal. apply bool_decide_ext.
      destruct (decide (k = key)) as [->|Hne]; [rewrite lookup_insert_eq, E; naive_solver | by rewrite lookup_insert_ne].
Qed.

Lemma acquire_step t i n : inodes_wf t → inodes_wf (acquire t i n) ∧ ∀ j, node (acquire t i n) j = node t j.
Proof.
  intros Hwf. unfold acquire. destruct (n =? 0); [done|]. case_bool_decide as H; [|done]. split; [|done].
  destruct Hwf as [Hn Hk Hg Hc]. split; cbn; [done.. |]. intros j m [[<- _]|[_ Hm]]%lookup_insert_Some; [|by eapply Hc]. destruct H as [k H]. by eapply Hg.
Qed.

Lemma detach_step t key :
  inodes_wf t → inodes_wf (fst (detach t key)) ∧ ∀ j, node (fst (detach t key)) j = node_after t (OpDetach key) j.
Proof.
  intros Hwf. pose proof Hwf as [Hn Hk Hg Hc]. split.
  - split; cbn; [done | | done | done]. intros k i [_ H]%lookup_delete_Some. by apply Hk.
  - intros j. cbn [node_after]. unfold node. cbn. destruct (by_inode t !! j) as [k|] eqn:Ej; [|done]. cbn. do 2 f_equal.
    destruct (decide (k = key)) as [->|Hne].
    + rewrite lookup_delete_eq. rewrite (bool_decide_eq_false_2 (key ≠ key)) by (intros H; by apply H). by rewrite andb_false_r, bool_decide_eq_false_2.
    + rewrite lookup_delete_ne by done. rewrite (bool_decide_eq_true_2 (k ≠ key)) by done. by rewrite andb_true_r.
Qed.

Lemma forget_step t i n :
  inodes_wf t → 0 ≤ n → inodes_wf (forget t i n) ∧ ∀ j, node (forget t i n) j = node_after t (OpForget i n) j.
Proof.
  intros Hwf Hn0. pose proof Hwf as [Hn Hk Hg Hc]. cbn [node_after]. unfold forget. destruct (Z.eqb_spec i 1) as [->|Hi1].
  { split; [done|]. intros j. by rewrite andb_false_r. }
  unfold saturating_sub. set (c := default 0 (lookups t !! i)). destruct (Z.eqb_spec (Z.max (c - n) 0) 0) as [Hz|Hz]; cbn [negb].
  2:{ split; [split; cbn; [done.. |]|].
      - intros j m [[<- _]|[_ Hm]]%lookup_insert_Some; [|by eapply Hc]. subst c. destruct (lookups t !! i) as [m0|] eqn:Em; [by eapply Hc|]. cbn in Hz. lia.
      - intros j. destruct (Z.leb_spec c n); [lia|]. by rewrite andb_false_r. }
  assert (∀ k j, (match by_inode t !! i with
            | Some key => if bool_decide (by_key t !! key = Some i) then delete key (by_key t) else by_key t
            | None => by_key t end) !! k = Some j ↔ by_key t !! k = Some j ∧ j ≠ i) as Hb.
  { intros k j. destruct (by_inode t !! i) as [key|] eqn:Ei.
    - case_bool_decide as Hki; [rewrite lookup_delete_Some|]; split.
      + intros [Hne H]. split; [done|]. intros ->. apply Hk in H. congruence.
      + intros [H Hne]. split; [|done]. congruence.
      + intros H. split; [done|]. intros ->. pose proof (Hk _ _ H). congruence.
      + by intros [H _].
    - split; [|by intros [H _]]. intros H. split; [done|]. intros ->. apply Hk in H. congruence. }
  split; [split; cbn; [done | | |]|].
  - intros k j [H Hne]%Hb. rewrite lookup_delete_ne by done. by apply Hk.
  - intros j k [_ H]%lookup_delete_Some. by eapply Hg.
  - intros j m [_ H]%lookup_delete_Some. by eapply Hc.
  - intros j. destruct (Z.leb_spec c n); [|lia]. unfold node. cbn. destruct (Z.eqb_spec j i) as [->|Hj]; [by rewrite lookup_delete_eq|].
    cbn. rewrite lookup_delete_ne by done. destruct (by_inode t !! j) as [k|]; [|done]. cbn. do 2 f_equal. apply bool_decide_ext. rewrite Hb. tauto.
Qed.

Lemma remap_step entries t box old new :
  inodes_wf t → apart old new → entries ≡ₚ map_to_list (by_key t) →
  inodes_wf (remap_with entries t box old new)
  ∧ ∀ j, node (remap_with entries t box old new) j = node_after t (OpRemap entries box old new) j.
Proof.
  intros Hwf Hap Hperm. destruct (remap_lookups entries t box old new Hwf Hap Hperm) as (H1 & H2 & H3 & H4 & H5 & H6).
  set (t' := remap_with entries t box old new) in *.
  assert (∀ k, (∃ k0 i, by_key t !! k0 = Some i ∧ moved box old new k0 = Some k ∧ by_key t' !! k = Some i ∧ by_inode t' !! i = Some k)
      ∨ (match moved box new old k with Some k0 => by_key t !! k0 = None | None => True end)
        ∧ by_key t' !! k = match moved box old new k with Some _ => None | None => by_key t !! k end) as Hkey.
  { intros k. destruct (moved box new old k) as [k0|] eqn:Em.
    - pose proof Em as Em'. apply moved_inverse in Em'. destruct (by_key t !! k0) as [i|] eqn:Ek.
      + left. exists k0, i. destruct (H1 k0 k i Ek Em'). auto.
      + right. split; [done|]. apply H4. intros k1 i Hk1 Hm. assert (k1 = k0) as -> by (by eapply moved_inj). congruence.
    - right. split; [done|]. apply H4. intros k1 i Hk1 Hm. apply moved_inverse in Hm. congruence. }
  split.
  - destruct Hwf as [Hn Hk Hg Hc]. split; rewrite ?H5, ?H6; [done | | | done].
    + intros k i Hi. destruct (Hkey k) as [(k0 & i0 & _ & _ & E1 & E2)|[_ E]]; [congruence|]. rewrite E in Hi.
      destruct (moved box old new k) eqn:Em; [done|]. apply H2; [by apply Hk | done].
    + intros i k Hi. destruct (by_inode t !! i) as [k0|] eqn:E; [by eapply Hg|]. rewrite (H3 i E) in Hi. done.
  - intros j. cbn [node_after]. destruct (node_cases t j Hwf) as [[-> Hj]|(k & Hj & [[-> Hl]|[-> Hl]])]; cbn [fmap option_fmap option_map fst snd].
    + unfold node. by rewrite (H3 j Hj).
    + destruct (moved box old new k) as [k'|] eqn:Em.
      * destruct (H1 k k' j Hl Em) as [E1 E2]. unfold node. rewrite E1. cbn. by rewrite bool_decide_eq_true_2.
      * unfold node. rewrite (H2 k j Hj) by done. cbn. do 2 f_equal. destruct (Hkey k) as [(k0 & i0 & Ek0 & Em0 & E1 & E2)|[Hno E]].
        -- rewrite (proj1 (moved_inverse box old new k0 k) Em0), Ek0. rewrite (bool_decide_eq_true_2 (is_Some _)) by done.
           rewrite bool_decide_eq_false_2; [done|]. rewrite E1. intros [= ->].
           pose proof (wf_key _ Hwf _ _ Ek0). assert (k0 = k) as -> by congruence. congruence.
        -- rewrite Em in E. rewrite E, (bool_decide_eq_true_2 _ Hl). destruct (moved box new old k) as [k0|]; [|done].
           rewrite bool_decide_eq_false_2; [done|]. rewrite Hno. by intros [? ?].
    + unfold node. rewrite (H2 k j Hj) by (intros; done). cbn. do 2 f_equal. apply bool_decide_eq_false_2.
      destruct (Hkey k) as [(k0 & i0 & Ek0 & Em0 & E1 & E2)|[_ E]].
      * rewrite E1. intros [= ->]. pose proof (wf_key _ Hwf _ _ Ek0). assert (k0 = k) as -> by congruence. done.
      * rewrite E. by destruct (moved box old new k).
Qed.

(** ** Histories *)

Inductive node_history : Inodes → Prop :=
| hist_new root : node_history (inodes_new root)
| hist_op t op t' : node_history t → op_allowed t op → node_run t op = Some t' → node_history t'.

Lemma run_step t op t' :
  inodes_wf t → op_allowed t op → node_run t op = Some t' → inodes_wf t' ∧ ∀ j, node t' j = node_after t op j.
Proof.
  intros Hwf. destruct op as [key|i n|i n|key|entries box old new]; cbn [op_allowed node_run].
  - intros _ ([t1 i] & E & ->)%fmap_Some. destruct (intern_step t key t1 i Hwf E) as (? & _ & _ & ?). done.
  - intros _ [= <-]. by apply acquire_step.
  - intros H [= <-]. by apply forget_step.
  - intros _ [= <-]. by apply detach_step.
  - intros [Ha Hp] [= <-]. by apply remap_step.
Qed.

Lemma history_wf t : node_history t → inodes_wf t.
Proof.
  induction 1 as [root|t op t' _ IH Ha Hr]; [|by apply (run_step t op t')]. split; cbn; [lia | | |].
  - intros k i [<- <-]%lookup_singleton_Some. apply lookup_singleton_eq.
  - intros i k [<- <-]%lookup_singleton_Some. lia.
  - intros i n H. by rewrite lookup_empty in H.
Qed.

Lemma run_next t op t' : inodes_wf t → op_allowed t op → node_run t op = Some t' → ino_next t ≤ ino_next t'.
Proof.
  intros Hwf. destruct op as [key|i n|i n|key|entries box old new]; cbn [op_allowed node_run].
  - intros _ ([t1 i] & E & ->)%fmap_Some. unfold intern in E. destruct (by_key t !! key); [simplify_eq; cbn; lia|].
    destruct (_ <? _); [simplify_eq; cbn; lia | done].
  - intros _ [= <-]. unfold acquire. by repeat case_match.
  - intros _ [= <-]. unfold forget. by repeat case_match.
  - by intros _ [= <-].
  - intros [Ha Hp] [= <-]. destruct (remap_lookups entries t box old new Hwf Ha Hp) as (_ & _ & _ & _ & _ & ->). lia.
Qed.

(** C31. The numbers the kernel knows files by keep their meaning.  After any
    operations an operation changes the file of each number as [node_after] says
    and no other: a name that has no number gets one that was never given; a
    removed name leaves its file without one; a rename takes the files of the
    whole subtree to their new names and takes the name from a file that had it,
    whatever order the map is walked in; the last forget, and only that, drops the
    file, never a newer file of the same name.  A name leads to a number exactly
    when the number's file still has the name, and to one only. *)
Theorem identities_kept t op t' :
  node_history t → op_allowed t op → node_run t op = Some t' →
  (∀ j, node t' j = node_after t op j)
  ∧ (∀ k i, key_inode t' k = Some i ↔ node t' i = Some (k, true))
  ∧ ino_next t ≤ ino_next t' ∧ ∀ j n, node t' j = Some n → j < ino_next t'.
Proof.
  intros Hwf%history_wf Ha Hr. destruct (run_step t op t' Hwf Ha Hr) as [Hwf' Hn]. split_and!; [done | | by apply (run_next t op t') |].
  - intros k i. split; [by apply node_linked|]. unfold node, key_inode. intros (k0 & _ & [= <- E])%fmap_Some.
    symmetry in E. by apply bool_decide_eq_true in E.
  - intros j n. unfold node. intros (k & E & _)%fmap_Some. apply (wf_given _ Hwf') in E. lia.
Qed.

Module Names.
Definition old_ : list Z := [111].
Definition new_ : list Z := [110].
Definition t1 : Inodes := from_option fst (inodes_new (0, [])) (intern (inodes_new (0, [])) (4, old_)).
Definition t2 : Inodes := from_option fst t1 (intern t1 (4, old_ ++ [SLASH; 102])).
Definition t3 : Inodes := from_option fst t2 (intern t2 (4, new_)).
End Names.
Import Names.

Lemma names_history : node_history t3.
Proof.
  apply (hist_op t2 (OpIntern (4, new_))); [|done | by vm_compute].
  apply (hist_op t1 (OpIntern (4, old_ ++ [SLASH; 102]))); [|done | by vm_compute].
  apply (hist_op (inodes_new (0, [])) (OpIntern (4, old_))); [apply hist_new | done | by vm_compute].
Qed.

Lemma identities_kept_witness :
  let t' := remap_with (map_to_list (by_key t3)) t3 4 old_ new_ in
  node t' 2 = Some ((4, new_), true) ∧ node t' 3 = Some ((4, new_ ++ [SLASH; 102]), true) ∧ node t' 4 = Some ((4, new_), false).
Proof.
  intros t'. destruct (identities_kept t3 (OpRemap (map_to_list (by_key t3)) 4 old_ new_) t' names_history) as [H _]; [|done|].
  - split; [|done]. split; intros (r & E & _); discriminate E.
  - rewrite !H. split_and!; by vm_compute.
Defined.

(** A name whose rename is into its own subtree would lose its number for one
    order of the map and not for the other; the kernel refuses such a rename. *)
Lemma rename_into_itself :
  let t := from_option fst t1 (intern t1 (4, old_ ++ [SLASH] ++ old_)) in
  let e1 := [((4, old_), 2); ((4, old_ ++ [SLASH] ++ old_), 3)] in
  let e2 := [((4, old_ ++ [SLASH] ++ old_), 3); ((4, old_), 2)] in
  key_inode (remap_with e1 t 4 old_ (old_ ++ [SLASH] ++ old_)) (4, old_ ++ [SLASH] ++ old_) = None
  ∧ key_inode (remap_with e2 t 4 old_ (old_ ++ [SLASH] ++ old_)) (4, old_ ++ [SLASH] ++ old_) = Some 2.
Proof. by vm_compute. Qed.

(** ** Attributes *)

Lemma lor_apart (k p : Z) : 0 ≤ p < 4096 → Z.land k 4095 = 0 → Z.land (Z.lor k p) 4095 = p ∧ Z.land (Z.lor k p) 61440 = Z.land k 61440.
Proof.
  intros Hp Hk. rewrite !Z.land_lor_distr_l, Hk. split.
  - rewrite Z.lor_0_l. change 4095 with (Z.ones 12). rewrite Z.land_ones by lia. apply Z.mod_small. done.
  - assert (Z.land p 61440 = 0) as ->; [|by rewrite Z.lor_0_r].
    rewrite <- (Z.mod_small p 4096) by lia. change 4096 with (2 ^ 12). rewrite <- Z.land_ones by lia. rewrite <- Z.land_assoc.
    change (Z.land (Z.ones 12) 61440) with 0. apply Z.land_0_r.
Qed.

(** The mode on the wire has the kind and the permissions, and the kind read back
    from it is the node's. *)
Theorem wire_mode a single :
  0 ≤ a_perm a < 4096 →
  kind_of_mode (w_mode (virtio_attr a single)) = a_kind a ∧ Z.land (w_mode (virtio_attr a single)) 4095 = a_perm a.
Proof.
  intros Hp. unfold virtio_attr. destruct (timestamp (a_atime a)), (timestamp (a_mtime a)), (timestamp (a_ctime a)). cbn [w_mode].
  destruct (lor_apart (kind_bits (a_kind a)) (a_perm a) Hp) as [-> E]; [by destruct (a_kind a)|]. split; [|done].
  unfold kind_of_mode, IFMT. rewrite E. by destruct (a_kind a).
Qed.

(** A time before the epoch loses its fraction: half a second before it is read
    as a whole one. *)
Theorem early_time_rounded : ns_ts (- (5 * 10 ^ 8)) = - 10 ^ 9 ∧ ∀ ns, 0 ≤ ns → ns_ts ns = ns.
Proof.
  split; [by vm_compute|]. intros ns H. unfold ns_ts, ts. destruct (Z.leb_spec 0 (ns / 10 ^ 9)) as [|Hn].
  - pose proof (Z.div_mod ns (10 ^ 9)). lia.
  - assert (0 ≤ ns / 10 ^ 9) by (apply Z.div_pos; lia). lia.
Qed.

(** ** Handles *)

(** The number of a new handle is in use for no other, while fewer than [2 ^ 64]
    have been given. *)
Definition handles_fresh {T} (h : Handles T) : Prop :=
  1 ≤ h_next h < 2 ^ 64 ∧ ∀ i v, h_entries h !! i = Some v → 1 ≤ i < h_next h.

Lemma handle_insert_fresh {T} (h : Handles T) v :
  handles_fresh h →
  ∃ h' i, handle_insert h v = (h', Some i) ∧ handle_get h i = None ∧ handle_get h' i = Some v
  ∧ (∀ j, j ≠ i → handle_get h' j = handle_get h j) ∧ (h_next h < 2 ^ 64 - 1 → handles_fresh h').
Proof.
  intros [Hn He]. unfold handle_insert, handle_get. destruct (Z.eqb_spec (h_next h) 0); [lia|]. eexists _, _. split; [done|]. cbn. split_and!.
  - destruct (h_entries h !! h_next h) eqn:E; [apply He in E; lia | done].
  - apply lookup_insert_eq.
  - intros j Hj. by rewrite lookup_insert_ne.
  - intros Hlt. unfold handles_fresh. cbn [h_next h_entries]. rewrite Z.mod_small by lia. split; [lia|].
    intros i w [[<- _]|[_ H]]%lookup_insert_Some; [lia | apply He in H; lia].
Qed.

(** ** The journal *)

(** However many mutations are recorded between two drains, the journal has the
    newest of them, in order, at most 4096 and no fewer than 2049 where there are
    as many. *)
Theorem journal_keeps_newest es :
  let kept := foldl journal_record [] es in
  kept `suffix_of` es ∧ zlen kept ≤ EVENT_CAPACITY ∧ Z.min (zlen es) (EVENT_CAPACITY / 2 + 1) ≤ zlen kept.
Proof.
  cbv zeta. unfold EVENT_CAPACITY. change (4096 / 2) with 2048. induction es as [|e es IH] using rev_ind; [split_and!; [by exists [] | done | done]|].
  rewrite foldl_app. cbn [foldl]. set (kept := foldl journal_record [] es) in *. destruct IH as ([k Hk] & H1 & H2). unfold journal_record, EVENT_CAPACITY, zlen in *.
  destruct (Z.leb_spec 4096 (Z.of_nat (length kept))) as [Hl|Hl]; rewrite !length_app; cbn [length].
  - change (4096 / 2) with 2048. rewrite length_drop. split; [|lia]. apply suffix_app. rewrite Hk. exists (k ++ take (Z.to_nat 2048) kept).
    by rewrite <- app_assoc, take_drop.
  - split; [|lia]. apply suffix_app. by exists k.
Qed.
