(* ===== verification/BoxNodes.v ===== *)
(** * Operations on the files of a box.

    Models the operations of [engine/src/overlay.rs] that change the names a box
    sees: [child_path], [ro_denied], [copy_up] with [ensure_upper_blob],
    [mkdir_node], [symlink_node], [mknod_node], [link_node], [unlink_node],
    [rmdir_node] and [rename_node], with what they call of the layer resolution,
    the store of the box, the inode table, the open handles and the journal.  Of
    the attributes of a file ([attr_of]) the kind is kept.  The host below the
    boxes, the files the engine puts over it, the clock and the number of the
    writing process are arguments; errors of the engine's own disk are not
    modelled. *)

From stdpp Require Import strings gmap.
From S2P Require Import Prelude.
From S2P Require Import DepotModel.
From S2P Require Import DepotVariant.
From S2P Require Import Glob.
From S2P Require Import Rules.
From S2P Require Import LayerMirror.
From S2P Require Import SandboxLayers.
From S2P Require Import SandboxLayersLaws.
From S2P Require Import BoxStore.
From S2P Require Import NodeTables.
Open Scope Z_scope.

Inductive Errno : Type :=
| EACCES | EEXIST | EINVAL | EIO | EISDIR | ENOENT | ENOSYS | ENOTDIR | ENOTEMPTY | EPERM | EROFS | EXDEV.

(** ** What is not a box *)

(** The host at a path: its mode where it exists, the names in a directory, and
    a copy of its bytes, with whether the copy ended without an error *)
Record Backing : Type := MkBacking {
  lower_mode : text → option Z; lower_dir : text → option (list (list Z)); lower_copy : text → list Z * bool }.

(** Files the engine serves in place of a box's own: a projected file and
    whether its source is there, a projection below a path, the names of
    projections in a directory, a file served where the host would be, and one
    served unless the box wrote the path; and the private [tmp] of a box *)
Record Served : Type := MkServed {
  projected_file : Z → text → option bool; projected_below : Z → text → bool;
  projected_children : Z → text → list (list Z); over_lower : Z → text → bool; over_unwritten : Z → text → bool;
  api_tmp : Z → text }.

(** ** State *)

Inductive FileData : Type := NativeData | LowerData | SinkData.
Record OpenFile : Type := MkOpen { fh_box : Z; fh_rel : list Z; fh_linked : bool; fh_data : FileData }.

Record LiveBox : Type := MkLive {
  lv_store : Store; lv_no_host : bool; lv_api : bool; lv_parent : option Z; lv_ro : list RoAttachment }.

Section nodes.
Context {R : Type} `{!Readout R}.

Record Fs : Type := MkFs {
  fs_boxes : gmap Z LiveBox; fs_ext : gmap Z (list (ExtAttachment R)); fs_root : NodeKey; fs_inodes : Inodes;
  fs_detached : gmap Z NodeKind; fs_files : gmap Z OpenFile; fs_journal : list Event }.

(** A step changes the state and returns a value or an error; [None] is a panic. *)
Definition M (A : Type) : Type := Fs → option (Fs * Result A Errno).
#[export] Instance M_ret : MRet M := λ A a s, Some (s, Ok a).
#[export] Instance M_bind : MBind M := λ A B k m s,
  match m s with
  | Some (s, Ok a) => k a s
  | Some (s, Err e) => Some (s, Err e)
  | None => None
  end.
Definition fail {A} (e : Errno) : M A := λ s, Some (s, Err e).
Definition gets {A} (f : Fs → A) : M A := λ s, Some (s, Ok (f s)).
Definition update (f : Fs → Fs) : M unit := λ s, Some (f s, Ok tt).
Definition need {A} (o : option A) (e : Errno) : M A := match o with Some a => mret a | None => fail e end.
Definition refuse (b : bool) (e : Errno) : M unit := if b then fail e else mret tt.
Definition map_err {A} (e : Errno) (m : M A) : M A := λ s,
  match m s with Some (s, Err _) => Some (s, Err e) | r => r end.

Definition set_boxes (b : gmap Z LiveBox) (s : Fs) : Fs :=
  MkFs b (fs_ext s) (fs_root s) (fs_inodes s) (fs_detached s) (fs_files s) (fs_journal s).
Definition set_inodes (t : Inodes) (s : Fs) : Fs :=
  MkFs (fs_boxes s) (fs_ext s) (fs_root s) t (fs_detached s) (fs_files s) (fs_journal s).
Definition set_detached (d : gmap Z NodeKind) (s : Fs) : Fs :=
  MkFs (fs_boxes s) (fs_ext s) (fs_root s) (fs_inodes s) d (fs_files s) (fs_journal s).
Definition set_files (f : gmap Z OpenFile) (s : Fs) : Fs :=
  MkFs (fs_boxes s) (fs_ext s) (fs_root s) (fs_inodes s) (fs_detached s) f (fs_journal s).

Definition with_store (id : Z) (f : Store → Store) (s : Fs) : Fs :=
  set_boxes (alter (λ b, MkLive (f (lv_store b)) (lv_no_host b) (lv_api b) (lv_parent b) (lv_ro b)) id (fs_boxes s)) s.
Definition store_of (s : Fs) (id : Z) : Store := from_option lv_store store_new (fs_boxes s !! id).
Definition record (id : Z) (rel op : text) : M unit :=
  update (λ s, MkFs (fs_boxes s) (fs_ext s) (fs_root s) (fs_inodes s) (fs_detached s) (fs_files s) (journal_record (fs_journal s) (id, rel, op))).
Definition capture (id : Z) (f : Store → Store) : M unit := update (with_store id f).
Definition box_of (id : Z) : M LiveBox := λ s, need (fs_boxes s !! id) ENOENT s.

Definition key_of (inode : Z) (s : Fs) : option NodeKey := if inode =? 1 then Some (fs_root s) else inode_key (fs_inodes s) inode.
Definition ino_for (key : NodeKey) : M Z := λ s,
  if bool_decide (key = fs_root s) then Some (s, Ok 1)
  else match intern (fs_inodes s) key with Some (t, i) => Some (set_inodes t s, Ok i) | None => None end.
Definition acquire_ino (i n : Z) : M unit := update (λ s, set_inodes (acquire (fs_inodes s) i n) s).

(** ** Resolution *)

Definition box_view (id : Z) (b : LiveBox) : BoxState :=
  MkBox id (mirror (lv_store b)) (lv_no_host b) (lv_api b) (lv_parent b) (lv_ro b).
Definition overlay_of (s : Fs) : Overlay R := MkOverlay (map_imap (λ id b, Some (box_view id b)) (fs_boxes s)) (fs_ext s).
Definition fs_chain (s : Fs) (id : Z) : list (ChainLink R) := default [] (chain_of (overlay_of s) id).

Context (host : Backing) (served : Served).

Definition lower_exists (rel : text) : bool := bool_decide (is_Some (lower_mode host rel)).
Definition fs_resolve (s : Fs) (id : Z) (rel : text) : Layer R :=
  resolve (api_tmp served id) rel (from_option lv_api false (fs_boxes s !! id)) (fs_chain s id) (lower_exists rel).
Definition fs_layer (s : Fs) (id : Z) (rel : text) : Layer R :=
  match fs_boxes s !! id with Some b => own_layer (box_view id b) rel (lower_exists rel) | None => Absent end.

(** [ro_denied]; the 65th box ends the walk *)
Fixpoint ro_walk (fuel : nat) (s : Fs) (rel : text) (cur : option Z) : bool :=
  match fuel, cur with
  | S fuel, Some id =>
      match boxes (overlay_of s) !! id with
      | None => false
      | Some b =>
          existsb (λ l,
            match l with
            | LinkBox rb => bool_decide (is_Some (SandboxLayers.box_entry rb rel))
            | LinkExt a => match ext_entry a rel with Some _ => true | None => false end
            end) (attachment_links (overlay_of s) b)
          || ro_walk fuel s rel (box_parent b)
      end
  | _, _ => false
  end.
Definition ro_denied (s : Fs) (id : Z) (rel : text) : bool :=
  bool_decide (is_Some (projected_file served id rel)) || ro_walk 64 s rel (Some id).

(** [attr_of]: the kind of the file, where there is one *)
Definition attr_kind (s : Fs) (id : Z) (rel : text) : option NodeKind :=
  match projected_file served id rel with
  | Some readable => if readable then Some RegularFile else None
  | None =>
      if negb (lower_exists rel) && projected_below served id rel then Some Directory
      else
        let layer := fs_resolve s id rel in
        if (match layer with Lower => true | _ => false end && over_lower served id rel)
           || (bool_decide (BoxStore.box_entry (store_of s id) rel = None) && over_unwritten served id rel)
        then Some RegularFile
        else match layer with
             | Absent => None
             | Lower => kind_of_mode <$> lower_mode host rel
             | UpperFile owner rowid _ => if bool_decide (is_Some (pool (store_of s owner) !! rowid)) then Some RegularFile else None
             | ExtFile _ _ _ _ => Some RegularFile
             | UpperDir _ _ => Some Directory
             | UpperSymlink _ => Some Symlink
             | UpperSpecial m _ => Some (kind_of_mode m)
             end
  end.

(** ** [copy_up] *)

Definition ensure_upper_blob (owner rowid : Z) (rel : text) : M unit := λ s,
  if bool_decide (is_Some (pool (store_of s owner) !! rowid)) then Some (s, Ok tt)
  else Some (with_store owner (λ st, (outline_inline_row st rel).1) s, Ok tt).

Inductive Source : Type := FromBlob (owner rowid : Z) | FromLower | FromNothing.

Definition put_blob (id rowid : Z) (data : list Z) : M unit :=
  capture id (λ st, set_pool st (<[rowid := data]> (pool st))).

(** The content file of a new row *)
Definition fill_blob (id rowid : Z) (rel : text) (src : Source) : M unit :=
  here ← gets (λ s, pool (store_of s id) !! rowid);
  match here with
  | Some _ => mret tt
  | None =>
      match src with
      | FromLower =>
          put_blob id rowid (lower_copy host rel).1;;
          (if (lower_copy host rel).2 then mret tt else fail EIO)
      | FromBlob o r =>
          data ← gets (λ s, pool (store_of s o) !! r);
          data ← need data ENOENT;
          put_blob id rowid data
      | FromNothing => put_blob id rowid []
      end
  end.

Definition ensure_row (id now : Z) (rel : text) (m w : Z) : M Z := λ s,
  let '(st, rowid) := ensure_file_row (store_of s id) now rel m w in Some (with_store id (λ _, st) s, Ok rowid).

Definition copy_up (id : Z) (rel : text) (now w : Z) : M unit :=
  denied ← gets (λ s, ro_denied s id rel);
  refuse denied EROFS;;
  layer ← gets (λ s, fs_resolve s id rel);
  '(src, mode) ← match layer with
    | UpperFile owner rowid mode => ensure_upper_blob owner rowid rel;; mret (FromBlob owner rowid, mode)
    | Lower => mret (FromLower, default 33188 (lower_mode host rel))
    | ExtFile _ _ _ _ => fail EROFS
    | _ => mret (FromNothing, 33188)
    end;
  rowid ← ensure_row id now rel mode w;
  fill_blob id rowid rel src.

(** ** Names *)

Definition child_path (parent : Z) (name : option (list Z)) : M (Z * list Z) :=
  key ← gets (key_of parent);
  key ← need key ENOENT;
  refuse (key.1 =? 0) EPERM;;
  name ← need name EINVAL;
  mret (key.1, path_join key.2 name).

(** The box, and that no attachment denies the path *)
Definition writable (id : Z) (rel : text) : M LiveBox :=
  b ← box_of id;
  denied ← gets (λ s, ro_denied s id rel);
  refuse denied EROFS;;
  mret b.

Definition is_absent (l : Layer R) : bool := match l with Absent => true | _ => false end.

Definition mkdir_node (now w uid gid parent : Z) (name : option (list Z)) (mode : Z) : M Z :=
  '(id, rel) ← child_path parent name;
  writable id rel;;
  layer ← gets (λ s, fs_resolve s id rel);
  refuse (negb (is_absent layer)) EEXIST;;
  capture id (λ st, set_dir st now rel mode w);;
  capture id (λ st, set_owner st rel uid gid);;
  inode ← ino_for (id, rel);
  record id rel (str "mkdir");;
  acquire_ino inode 1;;
  mret inode.

Definition symlink_node (now w uid gid parent : Z) (name : option (list Z)) (target : text) : M Z :=
  '(id, rel) ← child_path parent name;
  writable id rel;;
  capture id (λ st, set_symlink st now rel target w);;
  capture id (λ st, set_owner st rel uid gid);;
  inode ← ino_for (id, rel);
  record id rel (str "symlink");;
  acquire_ino inode 1;;
  mret inode.

Definition mknod_node (now w uid gid parent : Z) (name : option (list Z)) (mode rdev : Z) : M Z :=
  '(id, rel) ← child_path parent name;
  writable id rel;;
  (if Z.land mode IFMT =? kind_bits RegularFile then
     rowid ← ensure_row id now rel mode w;
     capture id (λ st, set_owner st rel uid gid);;
     put_blob id rowid []
   else if existsb (λ k, Z.land mode IFMT =? kind_bits k) [NamedPipe; CharDevice; BlockDevice; Socket] then
     capture id (λ st, set_special st now rel mode rdev w);;
     capture id (λ st, set_owner st rel uid gid)
   else fail EINVAL);;
  record id rel (str "mknod");;
  inode ← ino_for (id, rel);
  kind ← gets (λ s, attr_kind s id rel);
  need kind EIO;;
  acquire_ino inode 1;;
  mret inode.

(** [hard_link] to the content file of a fresh row, whose file is not there yet *)
Definition link_node (now w inode new_parent : Z) (new_name : option (list Z)) : M Z :=
  key ← gets (key_of inode);
  key ← need key ENOENT;
  '(id, new_rel) ← child_path new_parent new_name;
  refuse (negb (key.1 =? id)) EXDEV;;
  writable id new_rel;;
  layer ← gets (λ s, fs_resolve s id new_rel);
  refuse (negb (is_absent layer)) EEXIST;;
  map_err EIO (copy_up id key.2 now w);;
  layer ← gets (λ s, fs_layer s id key.2);
  '(source_rowid, source_mode) ← match layer with UpperFile _ r m => mret (r, m) | _ => fail EPERM end;
  new_rowid ← ensure_row id now new_rel source_mode w;
  data ← gets (λ s, pool (store_of s id) !! source_rowid);
  data ← need data ENOENT;
  taken ← gets (λ s, pool (store_of s id) !! new_rowid);
  refuse (bool_decide (is_Some taken)) EEXIST;;
  put_blob id new_rowid data;;
  new_inode ← ino_for (id, new_rel);
  kind ← gets (λ s, attr_kind s id new_rel);
  need kind EIO;;
  acquire_ino new_inode 1;;
  record id new_rel (str "link");;
  mret new_inode.

(** ** Names that go *)

(** One round of the loop of [detach_open_handles] *)
Definition detach_open (id : Z) (rel : text) (now w : Z) (handle : Z) : M unit :=
  file ← gets (λ s, fs_files s !! handle);
  match file with
  | Some f =>
      if negb (fh_box f =? id) || negb (text_eqb (fh_rel f) rel) || negb (fh_linked f) then mret tt
      else
        data ← match fh_data f with LowerData => copy_up id rel now w;; mret NativeData | d => mret d end;
        update (λ s, set_files (<[handle := MkOpen (fh_box f) (fh_rel f) false data]> (fs_files s)) s)
  | None => mret tt
  end.
Fixpoint detach_all (id : Z) (rel : text) (now w : Z) (handles : list Z) : M unit :=
  match handles with
  | [] => mret tt
  | h :: handles => detach_open id rel now w h;; detach_all id rel now w handles
  end.
Definition detach_open_handles (id : Z) (rel : text) (now w : Z) : M unit :=
  box_of id;; ((λ s, detach_all id rel now w (map_to_list (fs_files s)).*1 s) : M unit).

Definition remap_open_handle_subtree (id : Z) (old new : text) : M unit :=
  update (λ s, set_files ((λ f,
    if negb (fh_box f =? id) || negb (fh_linked f) then f
    else match moved id old new (id, fh_rel f) with
         | Some k => MkOpen (fh_box f) k.2 (fh_linked f) (fh_data f)
         | None => f
         end) <$> fs_files s) s).

Definition remember (inode : Z) (kind : option NodeKind) : M unit :=
  match kind with Some k => update (λ s, set_detached (<[inode := k]> (fs_detached s)) s) | None => mret tt end.
Definition drop_name (key : NodeKey) : M unit := update (λ s, set_inodes (detach (fs_inodes s) key).1 s).

Definition detach_inode_name (id : Z) (rel : text) : M unit :=
  inode ← gets (λ s, key_inode (fs_inodes s) (id, rel));
  match inode with
  | None => mret tt
  | Some inode => kind ← gets (λ s, attr_kind s id rel); remember inode kind;; drop_name (id, rel)
  end.

Definition unlink_node (now w parent : Z) (name : option (list Z)) : M unit :=
  '(id, rel) ← child_path parent name;
  writable id rel;;
  inode ← ino_for (id, rel);
  kind ← gets (λ s, attr_kind s id rel);
  kind ← need kind ENOENT;
  refuse (bool_decide (kind = Directory)) EISDIR;;
  detach_open_handles id rel now w;;
  drop_name (id, rel);;
  remember inode (Some kind);;
  capture id (λ st, capture_delete st rel w);;
  record id rel (str "unlink").

(** The entries of [scan_dir]; every name of the merge gets a number. *)
Fixpoint intern_names (id : Z) (rel : text) (names : list (list Z)) : M (list (list Z)) :=
  match names with
  | [] => mret []
  | n :: names =>
      ino_for (id, path_join rel n);;
      kind ← gets (λ s, attr_kind s id (path_join rel n));
      rest ← intern_names id rel names;
      mret (match kind with Some _ => n :: rest | None => rest end)
  end.
Definition scan_dir (id : Z) (rel : text) : M (list (list Z)) := λ s,
  intern_names id rel (elements (scan_names (lower_dir host) lower_exists (fs_chain s id) rel
    ∪ list_to_set (projected_children served id rel))) s.

Definition rmdir_node (w parent : Z) (name : option (list Z)) : M unit :=
  '(id, rel) ← child_path parent name;
  writable id rel;;
  inode ← ino_for (id, rel);
  kind ← gets (λ s, attr_kind s id rel);
  kind ← need kind ENOENT;
  refuse (negb (bool_decide (kind = Directory))) ENOTDIR;;
  entries ← scan_dir id rel;
  refuse (negb (bool_decide (entries = []))) ENOTEMPTY;;
  drop_name (id, rel);;
  remember inode (Some kind);;
  capture id (λ st, capture_delete st rel w);;
  record id rel (str "rmdir").

(** ** [rename_node] *)

Definition RENAME_NOREPLACE : Z := 1.
Definition RENAME_EXCHANGE : Z := 2.

(** The rows of the box, by where the file is *)
Definition rename_rows (id : Z) (old new : text) (now w : Z) : M unit :=
  let lower := lower_mode host old in
  layer ← gets (λ s, fs_layer s id old);
  match layer with
  | Absent => fail ENOENT
  | UpperDir _ _ =>
      (λ s, match reparent (store_of s id) old new with
            | Some st => Some (with_store id (λ _, st) s, Ok tt)
            | None => None
            end : option (Fs * Result unit Errno));;
      (if bool_decide (kind_of_mode <$> lower = Some Directory) then capture id (λ st, set_whiteout st old w) else mret tt)
  | Lower =>
      map_err EIO (copy_up id old now w);;
      capture id (λ st, rename_row st old new);;
      capture id (λ st, set_whiteout st old w)
  | UpperFile _ _ _ | UpperSymlink _ | UpperSpecial _ _ =>
      capture id (λ st, rename_row st old new);;
      (if bool_decide (is_Some lower) then capture id (λ st, set_whiteout st old w) else mret tt)
  | ExtFile _ _ _ _ => fail EROFS
  end.

(** From the two paths on *)
Definition rename_paths (id : Z) (old new : text) (flags now w : Z) : M unit :=
  if text_eqb old new then mret tt
  else
    box_of id;;
    denied ← gets (λ s, ro_denied s id old || ro_denied s id new);
    refuse denied EROFS;;
    target ← gets (λ s, fs_resolve s id new);
    refuse (negb (Z.land flags RENAME_NOREPLACE =? 0) && negb (is_absent target)) EEXIST;;
    (if is_absent target then mret tt else detach_open_handles id new now w;; detach_inode_name id new);;
    rename_rows id old new now w;;
    update (λ s, set_inodes (remap_with (map_to_list (by_key (fs_inodes s))) (fs_inodes s) id old new) s);;
    remap_open_handle_subtree id old new;;
    record id old (str "rename_src");;
    record id new (str "rename_dst").

Definition rename_node (now w parent : Z) (name : option (list Z)) (new_parent : Z) (new_name : option (list Z)) (flags : Z) : M unit :=
  from ← gets (key_of parent);
  from ← need from EACCES;
  into ← gets (key_of new_parent);
  into ← need into EACCES;
  refuse ((from.1 =? 0) || (into.1 =? 0) || negb (from.1 =? into.1)) EXDEV;;
  refuse (negb (Z.land flags RENAME_EXCHANGE =? 0)) ENOSYS;;
  refuse (negb (Z.land flags (Z.lnot (Z.lor RENAME_NOREPLACE RENAME_EXCHANGE)) =? 0)) EINVAL;;
  name ← need name EINVAL;
  new_name ← need new_name EINVAL;
  rename_paths from.1 (path_join from.2 name) (path_join into.2 new_name) flags now w.

(** ** [setattr_node] on a captured path: not in a direct box, and no rule passes
    the path to the host *)

Record NodeSetattr : Type := MkSetattr {
  sa_size : option Z; sa_mode : option Z; sa_uid : option Z; sa_gid : option Z; sa_atime : option Z; sa_mtime : option Z }.

Definition resize (size : Z) (data : list Z) : list Z :=
  take (Z.to_nat size) data ++ replicate (Z.to_nat size - length data) 0.
Definition lower_is_dir (rel : text) : bool := bool_decide (kind_of_mode <$> lower_mode host rel = Some Directory).

(** [now] is the time of the content file as well *)
Definition setattr_size (id : Z) (rel : text) (now w size : Z) : M unit :=
  layer ← gets (λ s, fs_layer s id rel);
  rowid ← match layer with
    | UpperFile _ rowid _ => ensure_upper_blob id rowid rel;; mret rowid
    | Lower =>
        map_err EIO (copy_up id rel now w);;
        layer ← gets (λ s, fs_layer s id rel);
        match layer with UpperFile _ rowid _ => mret rowid | _ => fail EIO end
    | _ => fail EIO
    end;
  data ← gets (λ s, pool (store_of s id) !! rowid);
  data ← need data EIO;
  put_blob id rowid (resize size data);;
  capture id (λ st, finalize_file st rel size now w).

Definition setattr_mode (id : Z) (rel : text) (now w mode : Z) : M unit :=
  let permissions := Z.land mode 4095 in
  layer ← gets (λ s, fs_layer s id rel);
  match layer with
  | UpperFile _ _ _ => capture id (λ st, set_mode st rel (Z.lor FT_REG permissions))
  | UpperDir _ _ => capture id (λ st, set_mode st rel (Z.lor FT_DIR permissions))
  | UpperSymlink _ => mret tt
  | Lower =>
      if lower_is_dir rel then capture id (λ st, set_dir st now rel permissions w)
      else
        map_err EIO (copy_up id rel now w);;
        capture id (λ st, set_mode st rel (Z.lor FT_REG permissions))
  | Absent => fail ENOENT
  | UpperSpecial m _ => capture id (λ st, set_mode st rel (Z.lor (Z.land m S_IFMT) permissions))
  | ExtFile _ _ _ _ => fail EROFS
  end.

Definition setattr_owner (id : Z) (rel : text) (now w : Z) (uid gid : option Z) : M unit :=
  current ← gets (λ s, default (0, 0) (owners (store_of s id) !! rel));
  layer ← gets (λ s, fs_layer s id rel);
  (if match layer with Lower => true | _ => false end && negb (lower_is_dir rel)
   then map_err EIO (copy_up id rel now w) else mret tt);;
  layer ← gets (λ s, fs_layer s id rel);
  refuse (is_absent layer) ENOENT;;
  capture id (λ st, set_owner st rel (default current.1 uid) (default current.2 gid)).

Definition setattr_times (id : Z) (rel : text) (now w : Z) (atime mtime : option Z) : M unit :=
  layer ← gets (λ s, fs_layer s id rel);
  (if match layer with Lower => true | _ => false end then
     if lower_is_dir rel then capture id (λ st, set_dir st now rel (default 16877 (lower_mode host rel)) w)
     else map_err EIO (copy_up id rel now w)
   else mret tt);;
  match atime with Some t => capture id (λ st, set_atime st rel (Z.max t 0)) | None => mret tt end;;
  match mtime with Some t => capture id (λ st, set_mtime st rel (Z.max t 0)) | None => mret tt end;;
  layer ← gets (λ s, fs_layer s id rel);
  match layer with UpperFile _ rowid _ => ensure_upper_blob id rowid rel | _ => mret tt end.

Definition when {A} (o : option A) (k : A → M unit) : M unit := match o with Some a => k a | None => mret tt end.

Definition setattr_captured (now w inode : Z) (request : NodeSetattr) : M NodeKind :=
  key ← gets (key_of inode);
  key ← need key ENOENT;
  let id := key.1 in let rel := key.2 in
  writable id rel;;
  when (sa_size request) (setattr_size id rel now w);;
  when (sa_mode request) (setattr_mode id rel now w);;
  (match sa_uid request, sa_gid request with
   | None, None => mret tt
   | uid, gid => setattr_owner id rel now w uid gid
   end);;
  (match sa_atime request, sa_mtime request with
   | None, None => mret tt
   | atime, mtime => setattr_times id rel now w atime mtime
   end);;
  kind ← gets (λ s, attr_kind s id rel);
  need kind ENOENT.

End nodes.
Arguments Fs R : clear implicits.
Arguments M R : clear implicits.

(** * Operations on the files of a box: laws *)

(** ** A host with a directory [d] that has [f], and a file [g]; box 1 on it, and
    box 2 in box 1 *)
Module Host.
Definition modes : list (list Z * Z) := [(str "d", 16877); (str "d/f", 33188); (str "g", 33188)].
Definition host : Backing := MkBacking
  (λ rel, snd <$> List.find (λ e, text_eqb e.1 rel) modes)
  (λ rel, if text_eqb rel [] then Some [str "d"; str "g"] else if text_eqb rel (str "d") then Some [str "f"] else None)
  (λ rel, if text_eqb rel (str "d") then ([], false) else ([1; 2; 3], true)).
Definition served : Served := MkServed (λ _ _, None) (λ _ _, false) (λ _ _, []) (λ _ _, false) (λ _ _, false) (λ _, []).
Definition live (parent : option Z) : LiveBox := MkLive store_new false false parent [].
Definition fs : Fs ViewReadout :=
  MkFs {[1 := live None; 2 := live (Some 1)]} ∅ (1, []) (inodes_new (1, [])) ∅ ∅ [].
Definition fs2 : Fs ViewReadout :=
  MkFs {[1 := live None; 2 := live (Some 1)]} ∅ (2, []) (inodes_new (2, [])) ∅ ∅ [].

Definition mv (a b : string) : M ViewReadout unit := rename_node host served 0 7 1 (Some (str a)) 1 (Some (str b)) 0.
Definition after {A} (m : M ViewReadout A) (s : Fs ViewReadout) : Fs ViewReadout :=
  from_option fst s (m s).
Definition code {A} (m : M ViewReadout A) (s : Fs ViewReadout) : option (option Errno) :=
  (λ r, match r.2 with Ok _ => None | Err e => Some e end) <$> m s.
Definition at_ (s : Fs ViewReadout) (id : Z) (rel : string) : Layer ViewReadout := fs_resolve host served s id (str rel).
Definition kind_at (s : Fs ViewReadout) (id : Z) (rel : string) : option NodeKind := attr_kind host served s id (str rel).
End Host.
Import Host.

(** ** What renames of directories do *)

(** The rename of a host directory fails, and leaves a regular file in its place. *)
Theorem rename_host_directory :
  code (mv "d" "e") fs = Some (Some EIO) ∧ kind_at fs 1 "d" = Some Directory
  ∧ kind_at (after (mv "d" "e") fs) 1 "d" = Some RegularFile.
Proof. by vm_compute. Qed.

(** The rename of a host directory whose mode was changed succeeds, without the
    files of the host in it; they come back when the old name is made again. *)
Theorem rename_merged_directory :
  let chmod := setattr_captured host served 0 7 2 (MkSetattr None (Some 448) None None None None) in
  let s0 := after (ino_for (1, str "d")) fs in
  let s := after chmod s0 in
  let s' := after (mv "d" "e") s in
  code (mv "d" "e") s = Some None ∧ kind_at s 1 "d/f" = Some RegularFile ∧ kind_at s' 1 "e" = Some Directory
  ∧ kind_at s' 1 "e/f" = None
  ∧ kind_at (after (mkdir_node host served 0 7 0 0 1 (Some (str "d")) 493) s') 1 "d/f" = Some RegularFile.
Proof. by vm_compute. Qed.

(** A directory is renamed over one that is not empty: they are merged. *)
Theorem rename_over_full_directory :
  let dir := λ n, mkdir_node host served 0 7 0 0 1 (Some (str n)) 493 in
  let s := after (symlink_node served 0 7 0 0 3 (Some (str "y")) (str "t"))
             (after (symlink_node served 0 7 0 0 2 (Some (str "x")) (str "t")) (after (dir "b") (after (dir "a") fs))) in
  let s' := after (mv "a" "b") s in
  kind_at s 1 "a/x" = Some Symlink ∧ kind_at s 1 "b/y" = Some Symlink ∧ code (mv "a" "b") s = Some None
  ∧ kind_at s' 1 "b/x" = Some Symlink ∧ kind_at s' 1 "b/y" = Some Symlink.
Proof. by vm_compute. Qed.

(** A box cannot rename or change a file it sees from its parent; when it has
    changed the file by writing it, the rename leaves the parent's in view. *)
Theorem parent_file_stays :
  let s := after (symlink_node served 0 7 0 0 1 (Some (str "p")) (str "t")) fs in
  let s2 := MkFs (fs_boxes s) ∅ (2, []) (inodes_new (2, [])) ∅ ∅ [] in
  let s3 := after (symlink_node served 0 7 0 0 1 (Some (str "p")) (str "u")) s2 in
  kind_at s2 2 "p" = Some Symlink ∧ code (mv "p" "q") s2 = Some (Some ENOENT)
  ∧ code (mv "p" "q") s3 = Some None ∧ kind_at (after (mv "p" "q") s3) 2 "q" = Some Symlink
  ∧ at_ (after (mv "p" "q") s3) 2 "p" = UpperSymlink (str "t").
Proof. by vm_compute. Qed.

(** A file whose content was put back into its row cannot be looked up. *)
Theorem reverted_file_unseen :
  let s := after (setattr_captured host served 0 7 2 (MkSetattr None (Some 384) None None None None)) (after (ino_for (1, str "g")) fs) in
  let s' := with_store 1 (λ st,
    match (archive_write_inline st (str "g") [9]) with (st, Some id) => set_pool st (delete id (pool st)) | (st, None) => st end) s in
  kind_at s 1 "g" = Some RegularFile ∧ kind_at s' 1 "g" = None.
Proof. by vm_compute. Qed.

(** A change of the group alone of a file of the host gives it to user 0. *)
Theorem group_change_takes_owner :
  let s := after (setattr_captured host served 0 7 2 (MkSetattr None None None (Some 100) None None)) (after (ino_for (1, str "g")) fs) in
  owners (store_of s 1) !! str "g" = Some (0, 100).
Proof. by vm_compute. Qed.

(** ** A box of its own: no parent and no attachments *)

Definition alone (b : LiveBox) : Prop := lv_parent b = None ∧ lv_ro b = [] ∧ lv_api b = false.

Section alone.
Context {R : Type} `{!Readout R} (host : Backing) (served : Served).

Lemma chain_alone (s : Fs R) id b :
  fs_boxes s !! id = Some b → alone b → fs_chain s id = [LinkBox (box_view id b)].
Proof.
  intros Hb (Hp & Hr & _). unfold fs_chain, SandboxLayers.chain_of. cbn [chain_loop length Nat.leb].
  assert (boxes (overlay_of s) !! id = Some (box_view id b)) as ->.
  { unfold overlay_of. cbn. rewrite map_lookup_imap, Hb. done. }
  assert (attachment_links (overlay_of s) (box_view id b) = []) as ->.
  { unfold attachment_links, box_view. cbn. rewrite Hr. by destruct (default [] _). }
  cbn [app take chain_loop box_parent box_view]. by rewrite Hp.
Qed.

(** What the box sees where it has no entry *)
Definition below (b : LiveBox) (rel : text) : Layer R :=
  if lv_no_host b then Absent else if lower_exists host rel then Lower else Absent.
Definition opaque_above (st : Store) (rel : text) : bool := existsb (BoxStore.is_opaque st) (ancestors (length rel) rel).
Definition see (id : Z) (b : LiveBox) (rel : text) : Layer R :=
  match BoxStore.box_entry (lv_store b) rel with
  | Some EWhiteout => Absent
  | Some (EFile rowid mode) => UpperFile id rowid mode
  | Some (EDir mode mtime_ns _ _) => UpperDir mode mtime_ns
  | Some (ESymlink target) => UpperSymlink target
  | Some (ESpecial mode rdev) => UpperSpecial mode rdev
  | Some EHole => below b rel
  | None => if opaque_above (lv_store b) rel then Absent else below b rel
  end.

Lemma resolve_alone (s : Fs R) id b rel :
  fs_boxes s !! id = Some b → alone b → synthetic_landing rel = false → fs_resolve host served s id rel = see id b rel.
Proof.
  intros Hb Ha Hl. unfold fs_resolve. rewrite (chain_alone s id b Hb Ha), Hb. destruct Ha as (_ & _ & Hapi). cbn [from_option]. rewrite Hapi.
  unfold resolve. rewrite andb_false_r, Hl. cbn [andb resolve_chain orb no_host_fallback box_view].
  change (SandboxLayers.box_entry (box_view id b) rel) with (BoxStore.box_entry (lv_store b) rel).
  change (has_opaque_ancestor (box_view id b) rel) with (opaque_above (lv_store b) rel).
  unfold see, below. destruct (BoxStore.box_entry (lv_store b) rel) as [[]|]; try done.
  destruct (opaque_above (lv_store b) rel); [done|]. by destruct (has_rebased_ancestor (box_view id b) rel).
Qed.

(** Entries that no directory comes from or goes to *)
Definition not_dir (e : option Entry) : Prop := match e with Some (EDir _ _ _ _) => False | _ => True end.

Lemma see_frame id b b' old new rel :
  lv_no_host b' = lv_no_host b →
  (∀ p, p ≠ old → p ≠ new → BoxStore.box_entry (lv_store b') p = BoxStore.box_entry (lv_store b) p) →
  not_dir (BoxStore.box_entry (lv_store b) old) → not_dir (BoxStore.box_entry (lv_store b) new) →
  not_dir (BoxStore.box_entry (lv_store b') old) → not_dir (BoxStore.box_entry (lv_store b') new) →
  rel ≠ old → rel ≠ new → see id b' rel = see id b rel.
Proof.
  intros Hn He H1 H2 H3 H4 Ho Hw. unfold see, below. rewrite Hn, (He rel Ho Hw).
  assert (∀ p, BoxStore.is_opaque (lv_store b') p = BoxStore.is_opaque (lv_store b) p) as Hop.
  { intros p. unfold BoxStore.is_opaque. destruct (decide (p = old)) as [->|]; [|destruct (decide (p = new)) as [->|]; [|by rewrite He]].
    - destruct (BoxStore.box_entry (lv_store b') old) as [[]|], (BoxStore.box_entry (lv_store b) old) as [[]|]; done.
    - destruct (BoxStore.box_entry (lv_store b') new) as [[]|], (BoxStore.box_entry (lv_store b) new) as [[]|]; done. }
  assert (opaque_above (lv_store b') rel = opaque_above (lv_store b) rel) as ->; [|done].
  unfold opaque_above. generalize (ancestors (length rel) rel). induction l as [|p l IH]; cbn; [done | by rewrite Hop, IH].
Qed.

(** ** Entries after an operation of the store *)

Lemma get_insert m p e q : mirror_get (mirror_insert m p e).1 q = if decide (q = p) then Some e else mirror_get m q.
Proof.
  unfold mirror_get, mirror_insert. destruct (decide (q = p)) as [->|Hne].
  - destruct (parent_name p) as [[]|]; cbn; by rewrite lookup_insert_eq.
  - destruct (parent_name p) as [[]|]; cbn; by rewrite lookup_insert_ne.
Qed.
Lemma get_remove m p q : mirror_get (mirror_remove m p).1 q = if decide (q = p) then None else mirror_get m q.
Proof.
  unfold mirror_get, mirror_remove. destruct (decide (q = p)) as [->|Hne].
  - repeat case_match; cbn; rewrite ?lookup_delete_eq; try done; simplify_eq; try done.
  - repeat case_match; cbn; rewrite ?lookup_delete_ne; done.
Qed.

Lemma entry_rename st old new e q :
  BoxStore.box_entry st old = Some e →
  BoxStore.box_entry (rename_row st old new) q
  = if decide (q = new) then Some e else if decide (q = old) then None else BoxStore.box_entry st q.
Proof.
  intros He. unfold rename_row. rewrite He. unfold BoxStore.box_entry. cbn [set_mirror mirror]. rewrite get_insert, get_remove.
  destruct (stale_rowid st new); done.
Qed.
Lemma pool_rename st old new :
  stale_rowid st new = None → pool (rename_row st old new) = pool st.
Proof. intros Hs. unfold rename_row. destruct (BoxStore.box_entry st old); [|done]. by rewrite Hs. Qed.

Lemma entry_whiteout st rel w q :
  BoxStore.box_entry (set_whiteout st rel w) q = if decide (q = rel) then Some EWhiteout else BoxStore.box_entry st q.
Proof.
  unfold set_whiteout, BoxStore.box_entry. cbn [set_mirror mirror]. rewrite get_insert. by destruct (stale_rowid st rel).
Qed.
Lemma pool_whiteout st rel w : stale_rowid st rel = None → pool (set_whiteout st rel w) = pool st.
Proof. intros Hs. unfold set_whiteout. by rewrite Hs. Qed.

(** A row that was not there *)
Lemma ensure_fresh st now rel m w :
  BoxStore.box_entry st rel = None → sqlar st !! rel = None →
  let '(st', id) := ensure_file_row st now rel m w in
  id = fresh_rowid (sqlar st) ∧ pool st' = pool st
  ∧ ∀ q, BoxStore.box_entry st' q = if decide (q = rel) then Some (EFile id m) else BoxStore.box_entry st q.
Proof.
  intros He Hr. unfold ensure_file_row. rewrite He. cbn [sqlar clear_node_metadata set_sqlar]. unfold upsert. rewrite Hr.
  rewrite lookup_insert_eq. cbn [fmap option_fmap option_map default rowid from_option]. split_and!; [done | done|].
  intros q. unfold BoxStore.box_entry. cbn [set_mirror mirror clear_metadata_mirrors]. by rewrite get_insert.
Qed.

Lemma with_store_lookup (s : Fs R) id b f :
  fs_boxes s !! id = Some b →
  fs_boxes (with_store id f s) !! id = Some (MkLive (f (lv_store b)) (lv_no_host b) (lv_api b) (lv_parent b) (lv_ro b)).
Proof. intros H. unfold with_store. cbn. by rewrite lookup_alter_eq, H. Qed.

Lemma store_of_lookup (s : Fs R) id b : fs_boxes s !! id = Some b → store_of s id = lv_store b.
Proof. intros H. unfold store_of. by rewrite H. Qed.

(** ** Success, step by step *)

Lemma bind_ok {A B} (m : M R A) (k : A → M R B) s s' v :
  (m ≫= k) s = Some (s', Ok v) ↔ ∃ s1 a, m s = Some (s1, Ok a) ∧ k a s1 = Some (s', Ok v).
Proof.
  unfold mbind, M_bind. split.
  - destruct (m s) as [[s1 [a|e]]|]; [|done..]. intros H. by exists s1, a.
  - by intros (s1 & a & -> & H).
Qed.
Lemma refuse_ok b e (s s' : Fs R) v : refuse b e s = Some (s', Ok v) ↔ b = false ∧ s' = s.
Proof. destruct v. unfold refuse, fail, mret, M_ret. destruct b; naive_solver. Qed.
Lemma gets_ok {A} (f : Fs R → A) s s' v : gets f s = Some (s', Ok v) ↔ s' = s ∧ v = f s.
Proof. unfold gets. naive_solver. Qed.
Lemma update_ok (f : Fs R → Fs R) s s' v : update f s = Some (s', Ok v) ↔ s' = f s.
Proof. destruct v. unfold update. naive_solver. Qed.
Lemma ret_ok {A} (a : A) (s s' : Fs R) v : (mret a : M R A) s = Some (s', Ok v) ↔ s' = s ∧ v = a.
Proof. unfold mret, M_ret. naive_solver. Qed.
Lemma map_err_ok {A} e (m : M R A) s s' v : map_err e m s = Some (s', Ok v) ↔ m s = Some (s', Ok v).
Proof. unfold map_err. destruct (m s) as [[? []]|]; naive_solver. Qed.
End alone.

Ltac steps :=
  repeat match goal with
    | H : (_ ≫= _) _ = Some (_, Ok _) |- _ => apply bind_ok in H as (? & ? & ? & H)
    | H : refuse _ _ _ = Some (_, Ok _) |- _ => apply refuse_ok in H as [? ->]
    | H : gets _ _ = Some (_, Ok _) |- _ => apply gets_ok in H as [-> ->]
    | H : update _ _ = Some (_, Ok _) |- _ => apply update_ok in H as ->
    | H : capture _ _ _ = Some (_, Ok _) |- _ => apply update_ok in H as ->
    | H : map_err _ _ _ = Some (_, Ok _) |- _ => apply map_err_ok in H
    | H : mret _ _ = Some (_, Ok _) |- _ => apply ret_ok in H as [-> ?]; simplify_eq
    end.

Section rename.
Context {R : Type} `{!Readout R} (host : Backing) (served : Served).

(** The rows and the content files of the store belong together. *)
Definition tidy (st : Store) : Prop :=
  (∀ rel, BoxStore.box_entry st rel = None → sqlar st !! rel = None)
  ∧ ∀ i, is_Some (pool st !! i) → i < fresh_rowid (sqlar st).

(** A file of the host becomes one of the box, with its bytes. *)
Lemma copy_up_lower (s s' : Fs R) id b rel now w :
  fs_boxes s !! id = Some b → alone b → tidy (lv_store b) → BoxStore.box_entry (lv_store b) rel = None →
  fs_resolve host served s id rel = Lower → copy_up host served id rel now w s = Some (s', Ok tt) →
  ∃ b' rowid, fs_boxes s' !! id = Some b' ∧ alone b' ∧ lv_no_host b' = lv_no_host b
  ∧ pool (lv_store b') = <[rowid := (lower_copy host rel).1]> (pool (lv_store b))
  ∧ ∀ q, BoxStore.box_entry (lv_store b') q
      = if decide (q = rel) then Some (EFile rowid (default 33188 (lower_mode host rel))) else BoxStore.box_entry (lv_store b) q.
Proof.
  intros Hb (Hp & Hr & Ha) [Ht1 Ht2] He Hl H. unfold copy_up in H. steps. rewrite Hl in *. steps.
  match goal with H : ensure_row _ _ _ _ _ _ = _ |- _ => unfold ensure_row in H; rename H into Hrow end.
  rewrite (store_of_lookup s id b Hb) in Hrow.
  pose proof (ensure_fresh (lv_store b) now rel (default 33188 (lower_mode host rel)) w He (Ht1 rel He)) as Hf.
  destruct (ensure_file_row _ _ _ _ _) as [st rowid]. destruct Hf as (Hid & Hpool & Hent). injection Hrow as <- <-.
  pose proof (with_store_lookup s id b (λ _, st) Hb) as Hb1. set (s1 := with_store id (λ _, st) s) in *.
  unfold fill_blob in H. steps. rewrite (store_of_lookup s1 id _ Hb1) in H. cbn [lv_store] in H. rewrite Hpool in H.
  destruct (pool (lv_store b) !! rowid) as [d|] eqn:Ed.
  { pose proof (Ht2 rowid ltac:(by rewrite Ed)). lia. }
  steps. unfold put_blob in *. steps. destruct (lower_copy host rel) as [data ok]. cbn [fst snd] in *. destruct ok; [|done]. steps.
  rewrite (with_store_lookup _ id _ _ Hb1). eexists _, _. split; [done|]. cbn. rewrite Hpool. split_and!; [done.. |].
  intros q. rewrite <- Hent. done.
Qed.

(** The rows after [rename_rows], for a file *)
Definition movable (l : Layer R) : Prop :=
  match l with UpperFile _ _ _ | UpperSymlink _ | UpperSpecial _ _ | Lower => True | _ => False end.

Lemma layer_entry (s : Fs R) id b rel :
  fs_boxes s !! id = Some b →
  fs_layer host s id rel = match BoxStore.box_entry (lv_store b) rel with
    | Some EWhiteout => Absent
    | Some (EFile rowid mode) => UpperFile id rowid mode
    | Some (EDir mode mtime_ns _ _) => UpperDir mode mtime_ns
    | Some (ESymlink target) => UpperSymlink target
    | Some (ESpecial mode rdev) => UpperSpecial mode rdev
    | Some EHole | None => if lower_exists host rel then Lower else Absent
    end.
Proof. intros Hb. unfold fs_layer. by rewrite Hb. Qed.

(** A file of the box itself *)
Lemma rename_rows_own (s s' : Fs R) id b e old new now w :
  fs_boxes s !! id = Some b → alone b → BoxStore.box_entry (lv_store b) old = Some e → movable (fs_layer host s id old) → e ≠ EHole →
  old ≠ new → stale_rowid (lv_store b) new = None → rename_rows host served id old new now w s = Some (s', Ok tt) →
  ∃ b', fs_boxes s' !! id = Some b' ∧ alone b' ∧ lv_no_host b' = lv_no_host b ∧ pool (lv_store b') = pool (lv_store b)
  ∧ BoxStore.box_entry (lv_store b') new = Some e
  ∧ BoxStore.box_entry (lv_store b') old = (if lower_exists host old then Some EWhiteout else None)
  ∧ ∀ q, q ≠ old → q ≠ new → BoxStore.box_entry (lv_store b') q = BoxStore.box_entry (lv_store b) q.
Proof.
  intros Hb Ha He Hm Hh Hne Hst H. unfold rename_rows in H. steps. rewrite (layer_entry s id b old Hb), He in *.
  set (st1 := rename_row (lv_store b) old new).
  assert (∀ q, BoxStore.box_entry st1 q = if decide (q = new) then Some e else if decide (q = old) then None else BoxStore.box_entry (lv_store b) q) as Hent
    by (intros q; by apply entry_rename).
  assert (stale_rowid st1 old = None) as Hso.
  { unfold stale_rowid. rewrite Hent. rewrite decide_False by done. by rewrite decide_True. }
  assert (∃ b', fs_boxes s' !! id = Some b' ∧ alone b' ∧ lv_no_host b' = lv_no_host b
    ∧ lv_store b' = if lower_exists host old then set_whiteout st1 old w else st1) as (b' & Hb' & Ha' & Hn' & Hs').
  { pose proof (with_store_lookup s id b (λ st, rename_row st old new) Hb) as Hb1. unfold lower_exists.
    destruct e as [| | | | |]; try done; steps; (destruct (bool_decide (is_Some (lower_mode host old)));
      steps; [rewrite (with_store_lookup _ id _ _ Hb1) | rewrite Hb1]; eexists; (split; [done|]); destruct Ha as (? & ? & ?); done). }
  exists b'. rewrite Hs'. split_and!; [done.. | | | |].
  - destruct (lower_exists host old); [rewrite pool_whiteout by done|]; by apply pool_rename.
  - destruct (lower_exists host old); [rewrite entry_whiteout, decide_False by done|]; by rewrite Hent, decide_True.
  - destruct (lower_exists host old); [by rewrite entry_whiteout, decide_True|]. by rewrite Hent, decide_False, decide_True.
  - intros q Hq1 Hq2. destruct (lower_exists host old); [rewrite entry_whiteout, decide_False by done|]; by rewrite Hent, !decide_False by done.
Qed.

(** A file of the host *)
Lemma rename_rows_lower (s s' : Fs R) id b old new now w :
  fs_boxes s !! id = Some b → alone b → tidy (lv_store b) → BoxStore.box_entry (lv_store b) old = None → lower_exists host old = true →
  fs_resolve host served s id old = Lower →
  old ≠ new → stale_rowid (lv_store b) new = None → rename_rows host served id old new now w s = Some (s', Ok tt) →
  ∃ b' rowid, fs_boxes s' !! id = Some b' ∧ alone b' ∧ lv_no_host b' = lv_no_host b
  ∧ pool (lv_store b') !! rowid = Some (lower_copy host old).1
  ∧ BoxStore.box_entry (lv_store b') new = Some (EFile rowid (default 33188 (lower_mode host old)))
  ∧ BoxStore.box_entry (lv_store b') old = Some EWhiteout
  ∧ ∀ q, q ≠ old → q ≠ new → BoxStore.box_entry (lv_store b') q = BoxStore.box_entry (lv_store b) q.
Proof.
  intros Hb Ha Ht He Hl Hres Hne Hst H. unfold rename_rows in H. steps. rewrite (layer_entry s id b old Hb), He, Hl in *. steps.
  match goal with H : copy_up _ _ _ _ _ _ _ = Some (_, Ok ?u) |- _ => destruct u; rename H into Hc end.
  destruct (copy_up_lower s _ id b old now w Hb Ha Ht He Hres Hc) as (b1 & rowid & Hb1 & Ha1 & Hn1 & Hp1 & He1).
  set (st1 := lv_store b1) in *. assert (BoxStore.box_entry st1 old = Some (EFile rowid (default 33188 (lower_mode host old)))) as Hold by (by rewrite He1, decide_True).
  assert (stale_rowid st1 new = None) as Hst1 by (unfold stale_rowid in *; rewrite He1, decide_False by done; done).
  pose proof (λ q, entry_rename st1 old new _ q Hold) as Hent.
  assert (stale_rowid (rename_row st1 old new) old = None) as Hso.
  { unfold stale_rowid. rewrite Hent. rewrite decide_False by done. by rewrite decide_True. }
  rewrite (with_store_lookup _ id _ _ (with_store_lookup _ id b1 _ Hb1)). eexists _, rowid. split; [done|]. cbn [lv_store lv_no_host].
  fold st1. destruct Ha1 as (? & ? & ?). split_and!; [done.. | | | |].
  - rewrite pool_whiteout, pool_rename, Hp1 by done. apply lookup_insert_eq.
  - by rewrite entry_whiteout, decide_False, Hent, decide_True by done.
  - by rewrite entry_whiteout, decide_True.
  - intros q Hq1 Hq2. by rewrite entry_whiteout, decide_False, Hent, !decide_False, He1, decide_False by done.
Qed.

(** What is at a name after a file was moved to it *)
Definition moved_to (s s' : Fs R) (id : Z) (old new : text) : Prop :=
  match fs_layer host s id old with
  | Lower => ∃ rowid, fs_resolve host served s' id new = UpperFile id rowid (default 33188 (lower_mode host old))
      ∧ pool (store_of s' id) !! rowid = Some (lower_copy host old).1
  | l => fs_resolve host served s' id new = l ∧ pool (store_of s' id) = pool (store_of s id)
  end.

Lemma absent_entry (s : Fs R) id b rel :
  fs_boxes s !! id = Some b → alone b → synthetic_landing rel = false → fs_resolve host served s id rel = Absent →
  not_dir (BoxStore.box_entry (lv_store b) rel) ∧ stale_rowid (lv_store b) rel = None.
Proof.
  intros Hb Ha Hl. rewrite (resolve_alone host served s id b rel Hb Ha Hl). unfold see, stale_rowid.
  by destruct (BoxStore.box_entry (lv_store b) rel) as [[]|].
Qed.

(** The rename ends with the rows; what follows are numbers, handles and the
    journal. *)
Lemma rename_paths_rows (s s' : Fs R) id b old new flags now w :
  fs_boxes s !! id = Some b → old ≠ new → fs_resolve host served s id new = Absent →
  rename_paths host served id old new flags now w s = Some (s', Ok tt) →
  ∃ s1, rename_rows host served id old new now w s = Some (s1, Ok tt) ∧ fs_boxes s' = fs_boxes s1.
Proof.
  intros Hb Hne Ht H. unfold rename_paths in H. destruct (text_eqb old new) eqn:E; [by apply bool_decide_eq_true in E|]. steps.
  match goal with H : box_of _ _ = _ |- _ => unfold box_of in H; rewrite Hb in H; cbn in H; steps end.
  rewrite Ht in *. cbn [is_absent] in *. steps. unfold remap_open_handle_subtree, record in *. steps.
  match goal with H : rename_rows _ _ _ _ _ _ _ _ = Some (?s1, Ok ?u) |- _ => destruct u; exists s1 end. done.
Qed.

(** C28. A file keeps its place in the world when it is renamed.  In a box of its
    own, a successful rename of a file, symbolic link or special file to a free
    name shows at the new name what was at the old one, with its bytes (a file of
    the host has been copied first), nothing at the old name even where the host
    has a file of that name, and at every other path what was there before. *)
Theorem rename_moves_file (s s' : Fs R) id b old new flags now w :
  fs_boxes s !! id = Some b → alone b → tidy (lv_store b) → old ≠ new →
  synthetic_landing old = false → synthetic_landing new = false →
  BoxStore.box_entry (lv_store b) old ≠ Some EHole → movable (fs_layer host s id old) →
  fs_resolve host served s id old ≠ Absent → fs_resolve host served s id new = Absent →
  rename_paths host served id old new flags now w s = Some (s', Ok tt) →
  moved_to s s' id old new
  ∧ fs_resolve host served s' id old = Absent
  ∧ ∀ rel, rel ≠ old → rel ≠ new → synthetic_landing rel = false → fs_resolve host served s' id rel = fs_resolve host served s id rel.
Proof.
  intros Hb Ha Ht Hne Hlo Hln Hh Hm Hold Hnew H. destruct (absent_entry s id b new Hb Ha Hln Hnew) as [Hnd Hst].
  destruct (rename_paths_rows s s' id b old new flags now w Hb Hne Hnew H) as (s1 & Hr & Hbx).
  unfold moved_to. rewrite (layer_entry s id b old Hb) in *. rewrite (store_of_lookup s id b Hb).
  assert (∀ b', fs_boxes s1 !! id = Some b' → fs_boxes s' !! id = Some b') as Hup by (intros b'; by rewrite Hbx).
  destruct (BoxStore.box_entry (lv_store b) old) as [e|] eqn:He.
  - assert (movable (fs_layer host s id old)) as Hm' by (by rewrite (layer_entry s id b old Hb), He).
    destruct (rename_rows_own s s1 id b e old new now w Hb Ha He Hm' ltac:(congruence) Hne Hst Hr) as (b' & Hb' & Ha' & Hn' & Hp' & E1 & E2 & E3).
    apply Hup in Hb'. rewrite !(resolve_alone host served s' id b' _ Hb' Ha') by done. rewrite (store_of_lookup s' id b' Hb'). split_and!.
    + unfold see. rewrite E1. destruct e; try done.
    + unfold see. rewrite E2. destruct (lower_exists host old) eqn:El; [done|]. unfold below. rewrite El. by destruct (opaque_above _ _), (lv_no_host b').
    + intros rel H1 H2 Hl. rewrite (resolve_alone host served s' id b' rel Hb' Ha' Hl), (resolve_alone host served s id b rel Hb Ha Hl).
      apply (see_frame host id b b' old new); try done; rewrite ?He, ?E1, ?E2; [by destruct e | by destruct (lower_exists host old) | by destruct e].
  - destruct (lower_exists host old) eqn:El; [|done].
    assert (fs_resolve host served s id old = Lower) as Hres.
    { rewrite (resolve_alone host served s id b old Hb Ha Hlo) in *. unfold see, below in *. rewrite He, El in *.
      by destruct (opaque_above _ _), (lv_no_host b). }
    destruct (rename_rows_lower s s1 id b old new now w Hb Ha Ht He El Hres Hne Hst Hr) as (b' & rowid & Hb' & Ha' & Hn' & Hp' & E1 & E2 & E3).
    apply Hup in Hb'. rewrite !(resolve_alone host served s' id b' _ Hb' Ha') by done. rewrite (store_of_lookup s' id b' Hb'). split_and!.
    + exists rowid. split; [|done]. unfold see. by rewrite E1.
    + unfold see. by rewrite E2.
    + intros rel H1 H2 Hl. rewrite (resolve_alone host served s' id b' rel Hb' Ha' Hl), (resolve_alone host served s id b rel Hb Ha Hl).
      apply (see_frame host id b b' old new); try done; by rewrite ?He, ?E1, ?E2.
Qed.
End rename.

Lemma rename_moves_file_witness :
  fs_resolve host served (after (mv "g" "h") fs) 1 (str "g") = Absent ∧ at_ (after (mv "g" "h") fs) 1 "h" = UpperFile 1 1 33188.
Proof.
  unshelve epose proof (rename_moves_file host served fs (after (mv "g" "h") fs) 1 (live None) (str "g") (str "h") 0 0 7
    _ _ _ _ _ _ _ _ _ _ _) as (H1 & H2 & _); [by vm_compute | by vm_compute | | by vm_compute.. |].
  - split; [done|]. intros i [d Hi]. cbn in Hi. by rewrite lookup_empty in Hi.
  - split; [exact H2 | by vm_compute].
Defined.

(** ** No operation adds or drops a box *)

Section keep.
Context {R : Type} `{!Readout R} (host : Backing) (served : Served).

Definition keeps {A} (m : M R A) : Prop := ∀ s s' r, m s = Some (s', r) → ∀ id, is_Some (fs_boxes s !! id) → is_Some (fs_boxes s' !! id).

Lemma keeps_bind {A B} (m : M R A) (k : A → M R B) : keeps m → (∀ a, keeps (k a)) → keeps (m ≫= k).
Proof.
  intros Hm Hk s s' r. unfold mbind, M_bind. destruct (m s) as [[s1 [a|e]]|] eqn:E; [| |done].
  - intros H id Hid. eapply Hk, Hm; done.
  - intros [= <- <-] id Hid. by eapply Hm.
Qed.
Lemma keeps_ret {A} (a : A) : keeps (mret a).
Proof. intros s s' r. unfold mret, M_ret. by intros [= <- <-]. Qed.
Lemma keeps_fail {A} e : keeps (fail e : M R A).
Proof. intros s s' r. unfold fail. by intros [= <- <-]. Qed.
Lemma keeps_gets {A} (f : Fs R → A) : keeps (gets f).
Proof. intros s s' r. unfold gets. by intros [= <- <-]. Qed.
Lemma keeps_need {A} (o : option A) e : keeps (need o e : M R A).
Proof. destruct o; [apply keeps_ret | apply keeps_fail]. Qed.
Lemma keeps_refuse b e : keeps (refuse b e : M R unit).
Proof. destruct b; [apply keeps_fail | apply keeps_ret]. Qed.
Lemma keeps_update (f : Fs R → Fs R) : (∀ s id, is_Some (fs_boxes s !! id) → is_Some (fs_boxes (f s) !! id)) → keeps (update f).
Proof. intros Hf s s' r. unfold update. intros [= <- <-]. apply Hf. Qed.
Lemma with_store_some (s : Fs R) id' f id : is_Some (fs_boxes s !! id) → is_Some (fs_boxes (with_store id' f s) !! id).
Proof.
  unfold with_store. cbn. destruct (decide (id' = id)) as [->|]; [|by rewrite lookup_alter_ne]. rewrite lookup_alter_eq. intros [b ->]. by eexists.
Qed.
Lemma keeps_capture id f : keeps (capture id f : M R unit).
Proof. apply keeps_update. intros. by apply with_store_some. Qed.
Lemma keeps_map_err {A} e (m : M R A) : keeps m → keeps (map_err e m).
Proof. intros Hm s s' r. unfold map_err. destruct (m s) as [[s1 [a|e']]|] eqn:E; intros H; simplify_eq; by eapply Hm. Qed.
Lemma keeps_ensure_row id now rel m w : keeps (ensure_row id now rel m w : M R Z).
Proof. intros s s' r. unfold ensure_row. destruct (ensure_file_row _ _ _ _ _). intros [= <- <-]. intros. by apply with_store_some. Qed.
Lemma keeps_upper_blob o r rel : keeps (ensure_upper_blob o r rel : M R unit).
Proof. intros s s' v. unfold ensure_upper_blob. case_bool_decide; intros [= <- <-]; [done|]. intros. by apply with_store_some. Qed.
Lemma keeps_box_of id : keeps (box_of id : M R LiveBox).
Proof. intros s s' v H. unfold box_of in H. by apply (keeps_need (fs_boxes s !! id) ENOENT s s' v). Qed.
Lemma keeps_ino_for key : keeps (ino_for key : M R Z).
Proof. intros s s' v. unfold ino_for. case_bool_decide; [by intros [= <- <-]|]. destruct (intern _ _) as [[]|]; [|done]. by intros [= <- <-]. Qed.
End keep.

Create HintDb keeps.
#[export] Hint Resolve keeps_bind keeps_ret keeps_fail keeps_gets keeps_need keeps_refuse keeps_capture keeps_map_err
  keeps_ensure_row keeps_upper_blob keeps_box_of keeps_ino_for : keeps.
Ltac keep :=
  repeat (intros; match goal with
    | |- keeps (_ ≫= _) => apply keeps_bind
    | |- keeps (match ?x with _ => _ end) => destruct x
    | |- keeps (let '_ := _ in _) => cbv zeta
    end); eauto with keeps.

Section removal.
Context {R : Type} `{!Readout R} (host : Backing) (served : Served).

Lemma keeps_fill_blob id rowid rel src : keeps (fill_blob host id rowid rel src : M R unit).
Proof. unfold fill_blob, put_blob. keep. Qed.
#[local] Hint Resolve keeps_fill_blob : keeps.
Lemma keeps_copy_up id rel now w : keeps (copy_up host served id rel now w : M R unit).
Proof. unfold copy_up. keep. Qed.
#[local] Hint Resolve keeps_copy_up : keeps.
Lemma keeps_set_files f : keeps (update (λ s, set_files (f s) s) : M R unit).
Proof. by apply keeps_update. Qed.
#[local] Hint Resolve keeps_set_files : keeps.
Lemma keeps_detach_open id rel now w h : keeps (detach_open host served id rel now w h : M R unit).
Proof. unfold detach_open. keep. Qed.
Lemma keeps_detach_all id rel now w hs : keeps (detach_all host served id rel now w hs : M R unit).
Proof. induction hs as [|h hs IH]; cbn; keep. apply keeps_detach_open. Qed.
Lemma keeps_detach_open_handles id rel now w : keeps (detach_open_handles host served id rel now w : M R unit).
Proof. unfold detach_open_handles. keep. intros s s' v H. by eapply keeps_detach_all. Qed.
Lemma keeps_intern_names id rel names : keeps (intern_names host served id rel names : M R (list (list Z))).
Proof. induction names as [|n names IH]; cbn; keep. Qed.

(** ** What is removed is gone *)

(** The chain of a box begins with it. *)
Lemma chain_head (s : Fs R) id b :
  fs_boxes s !! id = Some b → ∃ rest, fs_chain s id = LinkBox (box_view id b) :: rest.
Proof.
  intros Hb. unfold fs_chain. destruct (chain_of_total (overlay_of s) id) as (l & -> & _ & Hl). cbn [default from_option].
  assert (boxes (overlay_of s) !! id = Some (box_view id b)) as Eb by (unfold overlay_of; cbn; by rewrite map_lookup_imap, Hb).
  rewrite Eb in Hl. destruct l as [|x l]; [done|]. injection Hl as ->. by exists l.
Qed.

(** A whiteout of the box itself hides the path, whatever is below. *)
Lemma whiteout_hides (s : Fs R) id b rel w :
  fs_boxes s !! id = Some b → rel ≠ str "tmp" ∨ lv_api b = false →
  fs_resolve host served (with_store id (λ st, capture_delete st rel w) s) id rel = Absent.
Proof.
  intros Hb Ht. pose proof (with_store_lookup s id b (λ st, capture_delete st rel w) Hb) as Hb'. unfold fs_resolve. rewrite Hb'. cbn [from_option lv_api].
  destruct (chain_head _ id _ Hb') as [rest ->]. unfold resolve.
  assert (text_eqb rel (str "tmp") && lv_api b = false) as ->.
  { destruct Ht as [H| ->]; [|by rewrite andb_false_r]. unfold text_eqb. by rewrite bool_decide_eq_false_2. }
  cbn [resolve_chain].
  assert (SandboxLayers.box_entry (box_view id (MkLive (capture_delete (lv_store b) rel w) (lv_no_host b) (lv_api b) (lv_parent b) (lv_ro b))) rel
    = Some EWhiteout) as ->; [|done].
  change (BoxStore.box_entry (capture_delete (lv_store b) rel w) rel = Some EWhiteout). unfold capture_delete.
  by rewrite entry_whiteout, decide_True.
Qed.

(** The tail of the two removals *)
Lemma removed (s s' : Fs R) id rel w op :
  is_Some (fs_boxes s !! id) → rel ≠ str "tmp" →
  (capture id (λ st, capture_delete st rel w);; record id rel op) s = Some (s', Ok tt) →
  fs_resolve host served s' id rel = Absent.
Proof. intros [b Hb] Ht H. steps. unfold record in *. steps. apply (whiteout_hides s id b rel w Hb). by left. Qed.

Lemma writable_some id rel (s s' : Fs R) b : writable served id rel s = Some (s', Ok b) → s' = s ∧ is_Some (fs_boxes s !! id).
Proof.
  unfold writable. intros H. steps. match goal with H : box_of _ _ = _ |- _ => unfold box_of in H; rename H into Hx end.
  destruct (fs_boxes s !! id) eqn:E; cbn in Hx; [|done]. steps. done.
Qed.

Lemma bind_keeps {A B} (m : M R A) (k : A → M R B) s s' v id :
  keeps m → is_Some (fs_boxes s !! id) → (m ≫= k) s = Some (s', Ok v) →
  ∃ s1 a, is_Some (fs_boxes s1 !! id) ∧ k a s1 = Some (s', Ok v).
Proof. intros Hm Hid (s1 & a & E & H)%bind_ok. exists s1, a. split; [by eapply Hm | done]. Qed.

Lemma keeps_drop_name key : keeps (drop_name key : M R unit).
Proof. by apply keeps_update. Qed.
Lemma keeps_remember i k : keeps (remember i k : M R unit).
Proof. destruct k; [by apply keeps_update | apply keeps_ret]. Qed.
Lemma keeps_scan_dir id rel : keeps (scan_dir host served id rel : M R (list (list Z))).
Proof. intros s s' v H. by eapply keeps_intern_names. Qed.

(** A name that was removed is gone for the box.  After a successful unlink
    or removal of a directory the path resolves to nothing, whatever the parents
    of the box, its attachments and the host have there, and whatever open
    handles the file had. *)
Theorem removed_is_absent (s s0 s' : Fs R) parent name id rel now w :
  child_path parent name s = Some (s0, Ok (id, rel)) → rel ≠ str "tmp" →
  unlink_node host served now w parent name s = Some (s', Ok tt) ∨ rmdir_node host served w parent name s = Some (s', Ok tt) →
  fs_resolve host served s' id rel = Absent.
Proof.
  intros Hc Ht [H|H]; [unfold unlink_node in H | unfold rmdir_node in H]; apply bind_ok in H as (s1 & [id1 rel1] & E & H); rewrite Hc in E; injection E as <- <- <-;
    apply bind_ok in H as (s2 & b & E & H); apply writable_some in E as [-> Hb].
  - do 7 (apply (bind_keeps _ _ _ _ _ id) in H as (? & ? & Hb' & H);
      [clear Hb; rename Hb' into Hb | eauto using keeps_detach_open_handles, keeps_drop_name, keeps_remember with keeps | done]).
    by eapply removed.
  - do 8 (apply (bind_keeps _ _ _ _ _ id) in H as (? & ? & Hb' & H);
      [clear Hb; rename Hb' into Hb | eauto using keeps_scan_dir, keeps_drop_name, keeps_remember with keeps | done]).
    by eapply removed.
Qed.
End removal.

Lemma removed_is_absent_witness :
  fs_resolve host served (after (unlink_node host served 0 7 1 (Some (str "g"))) fs) 1 (str "g") = Absent.
Proof.
  apply (removed_is_absent host served fs fs _ 1 (Some (str "g")) 1 (str "g") 0 7).
  - by vm_compute.
  - done.
  - left. by vm_compute.
Defined.
