(* ===== verification/HostDisk.v ===== *)
(** * The host's file system, with crashes.

    What the code uses of [std::fs] on Linux: names in directories, inodes with
    bytes and permission bits shared by hard links, symbolic links, path
    resolution, and each call as the steps the kernel takes.  A run has a budget
    of steps; when it is used up the machine stops there, and the disk is what a
    restart finds.  A run without a budget is never stopped.  Limits on lengths
    and a disk that is full or fails are not modelled. *)

From stdpp Require Import strings gmap sorting.
From S2P Require Import Prelude.
From S2P Require Import Glob.
From S2P Require Import SandboxLayers.
From S2P Require Import SandboxLayersLaws.
Open Scope Z_scope.

(** An absolute path, as the text between its slashes *)
Abbreviation path := (list (list Z)) (only parsing).

Record Inode : Type := MkInode { i_data : list Z; i_mode : Z }.
Inductive Entry : Type := EDir | EFile (ino : nat) | ELink (target : list Z).
Record Disk : Type := MkDisk { names : gmap path Entry; inodes : list Inode }.

(** The process: whether permission bits bind it, whether the names it links
    are on one device, and how many names a file may have *)
Record Env : Type := MkEnv { privileged : bool; same_device : bool; max_links : nat }.

Inductive Errno : Type := EACCES | EINVAL | EEXIST | EISDIR | ELOOP | EMLINK | ENOENT | ENOTDIR | EPERM | EXDEV.

#[export] Instance Entry_eq_dec : EqDecision Entry.
Proof. solve_decision. Defined.
#[export] Instance Errno_eq_dec : EqDecision Errno.
Proof. solve_decision. Defined.

(** ** Runs *)

(** An error of the file system, or one the program reports itself *)
Inductive Error : Type := Io (e : Errno) | NotAView (what : list Z).
#[export] Instance Error_eq_dec : EqDecision Error.
Proof. solve_decision. Defined.
Inductive Outcome (A : Type) : Type := Done (a : A) | Failed (e : Error) | Crashed.
Arguments Done {A} a.
Arguments Failed {A} e.
Arguments Crashed {A}.

Definition Run (A : Type) : Type := option nat → Disk → option nat * Disk * Outcome A.

#[export] Instance Run_ret : MRet Run := λ A a b d, (b, d, Done a).
#[export] Instance Run_bind : MBind Run := λ A B k m b d,
  match m b d with
  | (b, d, Done a) => k a b d
  | (b, d, Failed e) => (b, d, Failed e)
  | (b, d, Crashed) => (b, d, Crashed)
  end.
Definition raise {A} (e : Error) : Run A := λ b d, (b, d, Failed e).
Definition get_disk : Run Disk := λ b d, (b, d, Done d).

(** One step that changes the disk; the machine may stop before it *)
Definition act (f : Disk → Disk) : Run unit := λ b d,
  match b with
  | Some O => (b, d, Crashed)
  | Some (S n) => (Some n, f d, Done tt)
  | None => (None, f d, Done tt)
  end.

(** The result of a call, as a value: [Ok], or the error *)
Definition attempt {A} (m : Run A) : Run (Result A Error) := λ b d,
  match m b d with
  | (b, d, Done a) => (b, d, Done (Ok a))
  | (b, d, Failed e) => (b, d, Done (Err e))
  | (b, d, Crashed) => (b, d, Crashed)
  end.
Definition lift {A} (r : Result A Errno) : Run A := match r with Ok a => mret a | Err e => raise (Io e) end.

(** What a run leaves: the disk and the outcome *)
Definition run {A} (m : Run A) (budget : option nat) (d : Disk) : Disk * Outcome A :=
  let '(_, d, o) := m budget d in (d, o).

(** ** Paths *)

Definition DOT : list Z := str ".".
Definition DOTDOT : list Z := str "..".

(** The resolved path of the last component, which need not exist; a directory
    is entered, a symbolic link before the last component is followed, and at
    the last one where [follow]; the kernel follows 40 links. *)
Fixpoint walk (links : nat) (follow : bool) (d : Disk) : path → path → Result path Errno :=
  fix go (cur rest : path) {struct rest} : Result path Errno :=
    match rest with
    | [] => Ok cur
    | c :: rest =>
        if bool_decide (c = [] ∨ c = DOT) then go cur rest
        else if bool_decide (c = DOTDOT) then go (removelast cur) rest
        else if bool_decide (0 ∈ c) then Err EINVAL
        else
          match names d !! (cur ++ [c]), rest with
          | None, [] => Ok (cur ++ [c])
          | None, _ => Err ENOENT
          | Some EDir, _ => go (cur ++ [c]) rest
          | Some (EFile _), [] => Ok (cur ++ [c])
          | Some (EFile _), _ => Err ENOTDIR
          | Some (ELink t), _ =>
              if bool_decide (rest = []) && negb follow then Ok (cur ++ [c])
              else match links with
                   | O => Err ELOOP
                   | S links =>
                       walk links follow d (if bool_decide (head t = Some SLASH) then [] else cur) (split_on SLASH t ++ rest)
                   end
          end
    end.
Definition resolve_at (follow : bool) (d : Disk) (p : path) : Result path Errno := walk 40 follow d [] p.

(** The entry of a resolved path; the top of the tree is a directory. *)
Definition entry (d : Disk) (p : path) : option Entry := match p with [] => Some EDir | _ => names d !! p end.

(** [Path::join] *)
Definition join (p : path) (name : list Z) : path :=
  if bool_decide (head name = Some SLASH) then split_on SLASH name else p ++ split_on SLASH name.

(** [Path::parent] *)
Definition parent_of (p : path) : option path :=
  match filter (λ c, c ≠ [] ∧ c ≠ DOT) p with [] => None | cs => Some (removelast cs) end.

(** ** Calls *)

Definition set_name (p : path) (e : Entry) (d : Disk) : Disk := MkDisk (<[p := e]> (names d)) (inodes d).
Definition del_name (p : path) (d : Disk) : Disk := MkDisk (delete p (names d)) (inodes d).
Definition new_file (p : path) (m : Z) (d : Disk) : Disk :=
  MkDisk (<[p := EFile (length (inodes d))]> (names d)) (inodes d ++ [MkInode [] m]).
Definition set_data (i : nat) (b : list Z) (d : Disk) : Disk :=
  MkDisk (names d) (alter (λ n, MkInode b (i_mode n)) i (inodes d)).
Definition set_mode (i : nat) (m : Z) (d : Disk) : Disk :=
  MkDisk (names d) (alter (λ n, MkInode (i_data n) m) i (inodes d)).

(** [st_nlink] of a file *)
Definition nlink (d : Disk) (i : nat) : nat :=
  length (filter (λ e : path * Entry, e.2 = EFile i) (map_to_list (names d))).

Section calls.
Context (env : Env).

Definition locate (follow : bool) (p : path) : Run path := d ← get_disk; lift (resolve_at follow d p).

(** [Path::exists], [Path::is_dir] *)
Definition exists_ (p : path) : Run bool :=
  d ← get_disk; mret (match resolve_at true d p with Ok q => bool_decide (is_Some (entry d q)) | Err _ => false end).
Definition is_dir (p : path) : Run bool :=
  d ← get_disk; mret (match resolve_at true d p with Ok q => bool_decide (entry d q = Some EDir) | Err _ => false end).

(** [mkdir(2)], which allows slashes at the end *)
Fixpoint strip_slashes (p : path) : path :=
  match p with
  | [] => []
  | c :: p => match strip_slashes p with [] => if bool_decide (c = []) then [] else [c] | q => c :: q end
  end.
Definition mkdir (p : path) : Run unit :=
  q ← locate false (strip_slashes p); d ← get_disk;
  match entry d q with Some _ => raise (Io EEXIST) | None => act (set_name q EDir) end.

(** [fs::create_dir_all]; each round of the fuel takes the parent *)
Fixpoint create_dir_all (fuel : nat) (p : path) : Run unit :=
  r ← attempt (mkdir p);
  match r with
  | Ok _ => mret tt
  | Err e =>
      if bool_decide (e = Io ENOENT) then
        match fuel, parent_of p with
        | S fuel, Some q =>
            _ ← create_dir_all fuel q; r ← attempt (mkdir p);
            match r with
            | Ok _ => mret tt
            | Err e => dir ← is_dir p; if dir : bool then mret tt else raise e
            end
        | _, _ => raise e
        end
      else dir ← is_dir p; if dir : bool then mret tt else raise e
  end.

(** [open] for writing, with [O_CREAT | O_TRUNC]: the inode *)
Definition may_write (n : Inode) : bool := privileged env || negb (Z.land (i_mode n) 128 =? 0).
Definition open_write (p : path) (m : Z) : Run nat :=
  q ← locate true p; d ← get_disk;
  match entry d q with
  | None => _ ← act (new_file q m); mret (length (inodes d))
  | Some (EFile i) =>
      match inodes d !! i with
      | Some n => if may_write n then _ ← act (set_data i []); mret i else raise (Io EACCES)
      | None => raise (Io ENOENT)
      end
  | Some _ => raise (Io EISDIR)
  end.

(** [fs::write] *)
Definition write (p : path) (b : list Z) : Run unit := i ← open_write p 420; act (set_data i b).

(** [fs::set_permissions]: the file itself, through a link *)
Definition set_permissions (p : path) (m : Z) : Run unit :=
  q ← locate true p; d ← get_disk;
  match entry d q with
  | Some (EFile i) => act (set_mode i m)
  | Some _ => mret tt
  | None => raise (Io ENOENT)
  end.

(** [fs::read] and the permission bits of an open file *)
Definition read_inode (p : path) : Run Inode :=
  q ← locate true p; d ← get_disk;
  match entry d q with
  | Some (EFile i) => match inodes d !! i with Some n => mret n | None => raise (Io ENOENT) end
  | Some _ => raise (Io EISDIR)
  | None => raise (Io ENOENT)
  end.

(** [fs::copy]: the target is opened with the permission bits of the source and
    given them again where it was there before; then the bytes *)
Definition copy (p q : path) : Run unit :=
  n ← read_inode p; i ← open_write q (i_mode n); _ ← act (set_mode i (i_mode n)); act (set_data i (i_data n)).

(** [fs::rename] of a file; two names of one file are left alone *)
Definition rename (p q : path) : Run unit :=
  p ← locate false p; q ← locate false q; d ← get_disk;
  match entry d p, entry d q with
  | None, _ => raise (Io ENOENT)
  | Some EDir, _ => raise (Io EPERM)
  | Some _, Some EDir => raise (Io EISDIR)
  | Some (EFile i), Some (EFile j) =>
      if bool_decide (i = j) then mret tt else act (λ d, set_name q (EFile i) (del_name p d))
  | Some e, _ => act (λ d, set_name q e (del_name p d))
  end.

(** [fs::remove_file] *)
Definition unlink_file (p : path) : Run unit :=
  q ← locate false p; d ← get_disk;
  match entry d q with
  | None => raise (Io ENOENT)
  | Some EDir => raise (Io EISDIR)
  | Some _ => act (del_name q)
  end.

(** [fs::hard_link] *)
Definition hard_link (p q : path) : Run unit :=
  p ← locate false p; q ← locate false q; d ← get_disk;
  match entry d p with
  | None => raise (Io ENOENT)
  | Some EDir => raise (Io EPERM)
  | Some e =>
      if bool_decide (is_Some (entry d q)) then raise (Io EEXIST)
      else if negb (same_device env) then raise (Io EXDEV)
      else if match e with EFile i => (max_links env <=? nlink d i)%nat | _ => false end then raise (Io EMLINK)
      else act (set_name q e)
  end.

(** [unix::fs::symlink] *)
Definition symlink (target : list Z) (p : path) : Run unit :=
  if bool_decide (0 ∈ target) then raise (Io EINVAL)
  else if bool_decide (target = []) then raise (Io ENOENT)
  else
    q ← locate false p; d ← get_disk;
    match entry d q with Some _ => raise (Io EEXIST) | None => act (set_name q (ELink target)) end.

(** The permission bits [fs::symlink_metadata] reports; a link has all *)
Definition lstat_mode (p : path) : Run Z :=
  q ← locate false p; d ← get_disk;
  match entry d q with
  | Some (EFile i) => match inodes d !! i with Some n => mret (i_mode n) | None => raise (Io ENOENT) end
  | Some EDir => mret 493
  | Some (ELink _) => mret 511
  | None => raise (Io ENOENT)
  end.

(** [fs::read_dir]: the names a directory holds *)
Definition kids (d : Disk) (p : path) : list (list Z) :=
  omap (λ q, c ← last q; if bool_decide (q = p ++ [c]) then Some c else None) (map_to_list (names d)).*1.
Definition read_dir (p : path) : Run (list (list Z)) :=
  q ← locate true p; d ← get_disk;
  match entry d q with
  | Some EDir => mret (kids d q)
  | Some _ => raise (Io ENOTDIR)
  | None => raise (Io ENOENT)
  end.

(** [DirEntry::metadata]: [st_nlink], where the name is of a regular file *)
Definition lstat_links (p : path) : Run (option nat) :=
  q ← locate false p; d ← get_disk;
  match entry d q with
  | Some (EFile i) => mret (Some (nlink d i))
  | Some _ => mret None
  | None => raise (Io ENOENT)
  end.

(** [fs::remove_dir_all], the deepest names first; a link is removed itself *)
Definition deeper (p q : path) : Prop := (length q ≤ length p)%nat.
#[export] Instance deeper_dec p q : Decision (deeper p q).
Proof. unfold deeper. apply _. Defined.
Definition subtree (d : Disk) (p : path) : list path :=
  merge_sort deeper (filter (λ q, p `prefix_of` q) (map_to_list (names d)).*1).
Definition remove_dir_all (p : path) : Run unit :=
  q ← locate false p; d ← get_disk;
  match entry d q with
  | None => raise (Io ENOENT)
  | Some (EFile _) => raise (Io ENOTDIR)
  | Some (ELink _) => act (del_name q)
  | Some EDir => foldr (λ r rest, _ ← act (del_name r); rest) (mret tt) (subtree d q)
  end.
End calls.

(** ** What a path shows *)

Inductive Shown : Type := SDir | SFile (data : list Z) (m : Z) | SLink (target : list Z).
Definition shown_entry (d : Disk) (e : Entry) : option Shown :=
  match e with
  | EDir => Some SDir
  | EFile i => (λ n, SFile (i_data n) (i_mode n)) <$> inodes d !! i
  | ELink t => Some (SLink t)
  end.
Definition look (d : Disk) (p : path) : option Shown := entry d p ≫= shown_entry d.

(** A component that resolution takes as it is, and that [join] appends *)
Definition plain (c : list Z) : Prop := c ≠ [] ∧ c ≠ DOT ∧ c ≠ DOTDOT ∧ (0 ∉ c) ∧ (SLASH ∉ c).
#[export] Instance plain_dec c : Decision (plain c).
Proof. unfold plain. apply _. Defined.

(** Names are components, name inodes that are there, and are in directories
    that are there. *)
Definition wf (d : Disk) : Prop :=
  (∀ p i, names d !! p = Some (EFile i) → (i < length (inodes d))%nat) ∧
  (∀ p e, names d !! p = Some e → ∃ q c, p = q ++ [c] ∧ plain c ∧ entry d q = Some EDir).

(** The file of a name has no other name. *)
Definition sole (d : Disk) (p : path) : Prop :=
  ∀ i q, names d !! p = Some (EFile i) → names d !! q = Some (EFile i) → q = p.

(** ** Runs, whatever their budget *)

(** Every end of the run is as stated: a result, an error, or a stop, which
    only a budget brings about. *)
Definition wp {A} (m : Run A) (Q : A → Disk → Prop) (E : Error → Disk → Prop) (C : Disk → Prop) (d : Disk) : Prop :=
  ∀ b, match m b d with
       | (b', d', Done a) => (b = None → b' = None) ∧ Q a d'
       | (b', d', Failed e) => (b = None → b' = None) ∧ E e d'
       | (_, d', Crashed) => b ≠ None ∧ C d'
       end.

Lemma wp_done {A} (a : A) Q E C d : Q a d → wp (mret a) Q E C d.
Proof. by intros ? b. Qed.
Lemma wp_raise {A} e (Q : A → _) (E : _ → Disk → Prop) C d : E e d → wp (raise e) Q E C d.
Proof. by intros ? b. Qed.
Lemma wp_get (Q : Disk → _) E C d : Q d d → wp get_disk Q E C d.
Proof. by intros ? b. Qed.
Lemma wp_step f Q E (C : Disk → Prop) d : C d → Q tt (f d) → wp (act f) Q E C d.
Proof. by intros ? ? [[|n]|]. Qed.

Lemma wp_seq {A B} (m : Run A) (k : A → Run B) Q E C d :
  wp m (λ a, wp (k a) Q E C) E C d → wp (m ≫= k) Q E C d.
Proof.
  intros Hm b. specialize (Hm b). unfold mbind, Run_bind. destruct (m b d) as [[b1 d1] [a|e|]]; [|done|done].
  destruct Hm as [Hb Hk]. specialize (Hk b1). destruct (k a b1 d1) as [[b2 d2] [a2|e2|]]; naive_solver.
Qed.

Lemma wp_attempt {A} (m : Run A) Q E (C : Disk → Prop) d :
  wp m (λ a, Q (Ok a)) (λ e d, Q (Err e) d) C d → wp (attempt m) Q E C d.
Proof. intros Hm b. specialize (Hm b). unfold attempt. by destruct (m b d) as [[? ?] [?|?|]]. Qed.

Lemma wp_conseq {A} (m : Run A) (Q Q' : A → Disk → Prop) (E E' : Error → Disk → Prop) (C C' : Disk → Prop) d :
  wp m Q E C d → (∀ a d, Q a d → Q' a d) → (∀ e d, E e d → E' e d) → (∀ d, C d → C' d) → wp m Q' E' C' d.
Proof. intros Hm HQ HE HC b. specialize (Hm b). destruct (m b d) as [[? ?] [?|?|]]; naive_solver. Qed.

(** A run that is never stopped, and one that stops anywhere *)
Lemma wp_run {A} (m : Run A) Q E C d b :
  wp m Q E C d →
  match run m b d with
  | (d', Done a) => Q a d'
  | (d', Failed e) => E e d'
  | (d', Crashed) => b ≠ None ∧ C d'
  end.
Proof. intros Hm. specialize (Hm b). unfold run. destruct (m b d) as [[? ?] [?|?|]]; naive_solver. Qed.

(** ** Laws of names and inodes *)

Lemma entry_names d p : p ≠ [] → entry d p = names d !! p.
Proof. by destruct p. Qed.

Lemma wf_name d p e : wf d → names d !! p = Some e → p ≠ [] ∧ entry d (removelast p) = Some EDir.
Proof.
  intros [_ Hp] He. destruct (Hp _ _ He) as (q & c & -> & _ & Hq). rewrite removelast_last. by destruct q.
Qed.

Lemma wf_dir_prefix d p q : wf d → entry d (p ++ q) = Some EDir → entry d p = Some EDir.
Proof.
  intros Hwf. induction q as [|c q IH] using rev_ind; [by rewrite app_nil_r|]. rewrite app_assoc. intros He.
  apply IH. rewrite entry_names in He by by destruct (p ++ q). apply wf_name in He as [_ He]; [|done].
  by rewrite removelast_last in He.
Qed.

Lemma look_none d p : wf d → look d p = None ↔ entry d p = None.
Proof.
  intros [Hi _]. unfold look. destruct (entry d p) as [[|i|t]|] eqn:He; simpl; [done| |done|done].
  destruct p as [|c p]; [done|]. apply Hi in He. apply lookup_lt_is_Some in He as [n ->]. done.
Qed.
Lemma look_dir d p : look d p = Some SDir ↔ entry d p = Some EDir.
Proof.
  unfold look. destruct (entry d p) as [[|i|t]|]; simpl; [done| |done|done]. destruct (inodes d !! i); done.
Qed.
Lemma look_file d p b m :
  look d p = Some (SFile b m) ↔ ∃ i, entry d p = Some (EFile i) ∧ inodes d !! i = Some (MkInode b m).
Proof.
  unfold look. destruct (entry d p) as [[|i|t]|]; simpl; [naive_solver| |naive_solver|naive_solver].
  destruct (inodes d !! i) as [[]|] eqn:?; simpl; naive_solver.
Qed.
Lemma look_link d p t : look d p = Some (SLink t) ↔ entry d p = Some (ELink t).
Proof. unfold look. destruct (entry d p) as [[|i|?]|]; simpl; [done| |naive_solver|done]. destruct (inodes d !! i); done. Qed.

(** Below a file or a missing name there is nothing. *)
Lemma look_above d p q : wf d → q ≠ [] → is_Some (look d (p ++ q)) → look d p = Some SDir.
Proof.
  intros Hwf Hq [x Hl]. destruct q as [|c q _] using rev_ind; [done|]. rewrite app_assoc in Hl.
  assert (entry d ((p ++ q) ++ [c]) ≠ None) as He by (rewrite <- (look_none d _ Hwf), Hl; done).
  rewrite entry_names in He by by destruct (p ++ q). destruct (names d !! _) as [e|] eqn:Hn; [|done].
  apply wf_name in Hn as [_ Hn]; [|done]. rewrite removelast_last in Hn. apply look_dir. by eapply wf_dir_prefix.
Qed.

(** ** Resolution of plain paths *)

Lemma walk_plain d follow links rest : ∀ cur,
  wf d → Forall plain rest → entry d (removelast (cur ++ rest)) = Some EDir → rest ≠ [] →
  (follow = true → ∀ t, entry d (cur ++ rest) ≠ Some (ELink t)) → walk links follow d cur rest = Ok (cur ++ rest).
Proof.
  induction rest as [|c rest IH]; [done|]. intros cur Hwf Hp Hd _ Hl.
  inversion Hp as [|? ? (?&?&?&?&?) Hp']; subst.
  assert (bool_decide (c = [] ∨ c = DOT) = false) as B1 by (apply bool_decide_eq_false_2; by intros [?|?]).
  assert (bool_decide (c = DOTDOT) = false) as B2 by by apply bool_decide_eq_false_2.
  assert (bool_decide (0 ∈ c) = false) as B3 by by apply bool_decide_eq_false_2.
  assert (cur ++ c :: rest = (cur ++ [c]) ++ rest) as Happ by by rewrite <- app_assoc.
  rewrite Happ in Hd, Hl |- *.
  assert (entry d (cur ++ [c]) = names d !! (cur ++ [c])) as Hen by by destruct cur.
  assert (rest ≠ [] → entry d (cur ++ [c]) = Some EDir) as Hdir.
  { intros Hr. rewrite removelast_app in Hd by done. by eapply wf_dir_prefix. }
  rewrite Hen in Hdir. specialize (IH (cur ++ [c])). destruct links; simpl; rewrite B1, B2, B3.
  all: destruct rest as [|c' rest]; [|rewrite Hdir by done; by apply IH].
  all: rewrite app_nil_r, Hen in *; destruct (names d !! (cur ++ [c])) as [[|i|t]|] eqn:Hn; try done.
  all: destruct follow; [by destruct (Hl eq_refl t)|by rewrite bool_decide_eq_true_2].
Qed.

(** A plain path in a directory that is there *)
Definition ready (d : Disk) (p : path) : Prop :=
  wf d ∧ Forall plain p ∧ p ≠ [] ∧ look d (removelast p) = Some SDir.

Lemma resolve_ready d follow p :
  ready d p → (follow = true → ∀ t, look d p ≠ Some (SLink t)) → resolve_at follow d p = Ok p.
Proof.
  intros (Hwf & Hp & Hne & Hd) Hl. apply (walk_plain d follow 40 p []); [done|done|by apply look_dir|done|].
  intros Hf t. rewrite <- look_link. by apply Hl.
Qed.

Lemma ready_entry d p : ready d p → entry d p = names d !! p.
Proof. intros (_ & _ & ? & _). by apply entry_names. Qed.

Lemma locate_ready d follow p Q E C :
  ready d p → (follow = true → ∀ t, look d p ≠ Some (SLink t)) → Q p d → wp (locate follow p) Q E C d.
Proof.
  intros Hr Hl HQ. unfold locate. apply wp_seq, wp_get. rewrite resolve_ready by done. by apply wp_done.
Qed.

Lemma strip_plain p : Forall plain p → strip_slashes p = p.
Proof.
  induction 1 as [|c p (?&_) _ IH]; [done|]. simpl. rewrite IH. destruct p; [|done]. by rewrite bool_decide_eq_false_2.
Qed.

(** ** One name changed *)

(** From [d] to [d'] only [p] shows something else, [v], and no name of
    [shared] aside is given a second name. *)
Definition evolves (shared : list path) (d d' : Disk) (p : path) (v : option Shown) : Prop :=
  wf d' ∧ (∀ q, look d' q = if decide (q = p) then v else look d q) ∧
  (∀ q, q ∉ shared → sole d q → sole d' q).

Lemma evolves_trans sh d d1 d2 p v1 v2 : evolves sh d d1 p v1 → evolves sh d1 d2 p v2 → evolves sh d d2 p v2.
Proof.
  intros (_ & Hl1 & Hs1) (Hw & Hl2 & Hs2). split_and!; [done| |naive_solver].
  intros q. rewrite Hl2, Hl1. by destruct (decide (q = p)).
Qed.

Lemma removelast_ne {A} (p : list A) : p ≠ [] → removelast p ≠ p.
Proof.
  destruct p as [|x p _] using rev_ind; [done|]. intros _ Heq. rewrite removelast_last in Heq.
  apply (f_equal length) in Heq. rewrite length_app in Heq. simpl in Heq. lia.
Qed.

Lemma entry_add d d' p e q : names d' = <[p := e]> (names d) → q ≠ p → entry d' q = entry d q.
Proof. intros Hn Hq. destruct q; [done|]. simpl. by rewrite Hn, lookup_insert_ne. Qed.

Lemma wf_add d d' p e :
  ready d p → look d p = None → names d' = <[p := e]> (names d) → (length (inodes d) ≤ length (inodes d'))%nat →
  (∀ i, e = EFile i → (i < length (inodes d'))%nat) → wf d'.
Proof.
  intros Hr Hnone Hn Hlen He. pose proof Hr as (Hwf & Hpl & Hne & Hd). apply look_none in Hnone; [|done].
  apply look_dir in Hd. split.
  - intros q i. rewrite Hn. destruct (decide (q = p)) as [->|]; [rewrite lookup_insert_eq; naive_solver|].
    rewrite lookup_insert_ne by done. intros Hq. apply (proj1 Hwf) in Hq. lia.
  - intros q f. rewrite Hn. destruct (decide (q = p)) as [->|Hqp].
    + intros _. exists (removelast p), (List.last p []). split; [by apply app_removelast_last|].
      split; [rewrite (app_removelast_last [] Hne) in Hpl; apply Forall_app in Hpl as [_ Hpl]; by inversion Hpl|].
      rewrite (entry_add _ _ _ _ _ Hn); [done|by apply removelast_ne].
    + rewrite lookup_insert_ne by done. intros Hf. destruct (proj2 Hwf _ _ Hf) as (r & c & -> & Hc & Hqd). exists r, c. split; [done|]. split; [done|].
      rewrite (entry_add _ _ _ _ _ Hn); [done|]. intros Heq. congruence.
Qed.

Lemma look_add d d' p e q :
  wf d → names d' = <[p := e]> (names d) → q ≠ p →
  (∀ i, (i < length (inodes d))%nat → inodes d' !! i = inodes d !! i) → look d' q = look d q.
Proof.
  intros Hwf Hn Hq Hi. unfold look. rewrite (entry_add _ _ _ _ _ Hn Hq).
  destruct (entry d q) as [[|i|t]|] eqn:Hqe; simpl; [done| |done|done]. rewrite Hi; [done|].
  apply (proj1 Hwf q). rewrite <- entry_names; [done|]. by destruct q.
Qed.

(** A name that is alone stays so, unless the new name is of its file. *)
Lemma sole_add d d' p e q :
  names d' = <[p := e]> (names d) → (∀ i, names d !! q = Some (EFile i) → e ≠ EFile i) → q ≠ p →
  sole d q → sole d' q.
Proof.
  intros Hn He Hqp Hs i r. rewrite Hn, lookup_insert_ne by done. intros Hq.
  destruct (decide (r = p)) as [->|]; [rewrite lookup_insert_eq; naive_solver|].
  rewrite lookup_insert_ne by done. by apply Hs.
Qed.

(** A new directory or symbolic link *)
Lemma evolves_set_name d p e x :
  ready d p → look d p = None → shown_entry d e = Some x → (∀ i, e ≠ EFile i) →
  evolves [] d (set_name p e d) p (Some x).
Proof.
  intros Hr Hn Hx He. pose proof Hr as (Hwf & _ & Hne & _).
  split_and!; [by eapply wf_add; [..|naive_solver]| |].
  - intros q. case_decide as Hq; [subst q|by eapply look_add].
    unfold look. rewrite entry_names by done. simpl. by rewrite lookup_insert_eq.
  - intros q _ Hs. destruct (decide (q = p)) as [->|]; [|by eapply sole_add].
    intros i r. simpl. rewrite lookup_insert_eq. naive_solver.
Qed.

(** A new file, which has one name *)
Lemma evolves_new_file d p m :
  ready d p → look d p = None → evolves [] d (new_file p m d) p (Some (SFile [] m)) ∧ sole (new_file p m d) p.
Proof.
  intros Hr Hn. pose proof Hr as (Hwf & _ & Hne & _).
  assert (∀ i, (i < length (inodes d))%nat → inodes (new_file p m d) !! i = inodes d !! i) as Hi.
  { intros i ?. by apply lookup_app_l. }
  assert (sole (new_file p m d) p) as Hp.
  { intros i r. simpl. rewrite lookup_insert_eq. intros [= <-]. destruct (decide (r = p)) as [->|]; [done|].
    rewrite lookup_insert_ne by done. intros Hr'. apply (proj1 Hwf) in Hr'. lia. }
  split; [split_and!|done].
  - eapply wf_add; [done|done|done| |]; simpl; rewrite length_app; simpl; [lia|]. intros i [= <-]. lia.
  - intros q. case_decide as Hq; [subst q|by eapply look_add].
    unfold look. rewrite entry_names by done. simpl. rewrite lookup_insert_eq. simpl.
    by rewrite lookup_app_r, Nat.sub_diag by done.
  - intros q _ Hs. destruct (decide (q = p)) as [->|]; [done|]. eapply sole_add; [done| |done|done].
    intros i Hq [= <-]. apply (proj1 Hwf) in Hq. lia.
Qed.

(** A second name of a file *)
Lemma evolves_link d p q i :
  ready d p → look d p = None → names d !! q = Some (EFile i) →
  evolves [p; q] d (set_name p (EFile i) d) p (look d q).
Proof.
  intros Hr Hn Hq. pose proof Hr as (Hwf & _ & Hne & _).
  assert (q ≠ []) as Hqne by by apply (wf_name d q (EFile i)).
  split_and!.
  - eapply wf_add; [done..|]. intros j [= <-]. by eapply (proj1 Hwf).
  - intros r. case_decide as Hrp; [subst r|by eapply look_add].
    unfold look. rewrite !entry_names, Hq by done. simpl. by rewrite lookup_insert_eq.
  - intros r Hrq Hs. eapply sole_add; [done| |set_solver|done]. intros j Hj [= <-].
    apply Hrq. rewrite (Hs _ _ Hj Hq). set_solver.
Qed.

(** A name removed: of a file or link, or of a directory with nothing in it *)
Lemma evolves_del d p :
  wf d → p ≠ [] → (∀ c, look d (p ++ [c]) = None) → evolves [] d (del_name p d) p None.
Proof.
  intros Hwf Hne Hc.
  assert (∀ q, q ≠ p → entry (del_name p d) q = entry d q) as Hq.
  { intros [|c q] ?; [done|]. simpl. by rewrite lookup_delete_ne. }
  split_and!.
  - split; intros q e; simpl; rewrite lookup_delete_Some; intros [Hqp He]; [by eapply (proj1 Hwf)|].
    destruct (proj2 Hwf _ _ He) as (r & c & -> & Hc' & Hd). exists r, c. split; [done|]. split; [done|]. rewrite Hq; [done|].
    intros ->. specialize (Hc c). rewrite look_none, entry_names, He in Hc by (done || by destruct p). done.
  - intros q. case_decide as Hqp; [subst q|]; unfold look; [|by rewrite Hq].
    rewrite entry_names by done. simpl. by rewrite lookup_delete_eq.
  - intros q _ Hs i r. simpl. rewrite !lookup_delete_Some. intros [_ H1] [_ H2]. by eapply Hs.
Qed.

(** The inode of a name changed, where it is the only name *)
Lemma evolves_alter d p i f :
  wf d → names d !! p = Some (EFile i) → sole d p →
  evolves [] d (MkDisk (names d) (alter f i (inodes d))) p
    ((λ n, SFile (i_data (f n)) (i_mode (f n))) <$> inodes d !! i).
Proof.
  intros Hwf Hp Hs. split_and!; [|intros q|done].
  - split; intros q e; simpl; rewrite ?length_alter; [apply (proj1 Hwf)|]. intros He. by destruct (proj2 Hwf _ _ He) as (r & c & -> & ? & Hd); eauto.
  - unfold look. assert (p ≠ []) as Hne by by apply (wf_name d p (EFile i)).
    case_decide as Hq; [subst q|].
    + rewrite entry_names by done. simpl. rewrite Hp. simpl. rewrite list_lookup_alter_eq. by destruct (inodes d !! i).
    + change (entry (MkDisk (names d) (alter f i (inodes d))) q) with (entry d q).
      destruct (entry d q) as [[|j|t]|] eqn:Hqe; simpl; [done| |done|done]. rewrite list_lookup_alter_ne; [done|].
      intros ->. apply Hq. eapply Hs; [done|]. rewrite <- entry_names; [done|by destruct q].
Qed.

(** ** What the calls do *)

Section call_laws.
Context (env : Env).
Implicit Types (E : Error → Disk → Prop) (C : Disk → Prop).

Lemma walk_dirs d follow links a : ∀ cur rest,
  wf d → Forall plain a → entry d (cur ++ a) = Some EDir →
  walk links follow d cur (a ++ rest) = walk links follow d (cur ++ a) rest.
Proof.
  induction a as [|c a IH]; intros cur rest Hwf Hp Hd; [by rewrite app_nil_r|].
  inversion Hp as [|? ? (?&?&?&?&?) Hp']; subst.
  assert (cur ++ c :: a = (cur ++ [c]) ++ a) as Happ by by rewrite <- app_assoc. rewrite Happ in *.
  rewrite <- IH by done. apply wf_dir_prefix in Hd; [|done]. rewrite entry_names in Hd by by destruct cur.
  destruct links; simpl; rewrite bool_decide_eq_false_2 by (by intros [?|?]);
    rewrite !bool_decide_eq_false_2 by done; by rewrite Hd.
Qed.

Lemma wp_exists d p Q E C :
  ready d p → (∀ t, look d p ≠ Some (SLink t)) → Q (bool_decide (is_Some (look d p))) d → wp (exists_ p) Q E C d.
Proof.
  intros Hr Hl HQ. unfold exists_. apply wp_seq, wp_get, wp_done. rewrite resolve_ready by done.
  rewrite (bool_decide_ext _ (is_Some (look d p))); [done|]. rewrite !is_Some_alt.
  pose proof (look_none d p (proj1 Hr)). destruct (entry d p), (look d p); naive_solver.
Qed.

(** Below a directory that is not there *)
Lemma wp_exists_missing d q c r Q E C :
  wf d → Forall plain (q ++ [c]) → look d q = Some SDir → look d (q ++ [c]) = None → r ≠ [] →
  Q false d → wp (exists_ (q ++ c :: r)) Q E C d.
Proof.
  intros Hwf [Hp Hc]%Forall_app Hd Hn Hr HQ. unfold exists_. apply wp_seq, wp_get, wp_done.
  apply Forall_singleton in Hc as (?&?&?&?&?). unfold resolve_at. rewrite walk_dirs; [|done|done|by apply look_dir].
  apply look_none in Hn; [|done]. rewrite entry_names in Hn by by destruct q. simpl.
  rewrite bool_decide_eq_false_2 by (by intros [?|?]). rewrite !bool_decide_eq_false_2 by done. rewrite Hn.
  by destruct r.
Qed.

Lemma wp_is_dir d p Q E C :
  ready d p → look d p = Some SDir → Q true d → wp (is_dir p) Q E C d.
Proof.
  intros Hr Hl HQ. unfold is_dir. apply wp_seq, wp_get, wp_done. rewrite resolve_ready by naive_solver.
  rewrite bool_decide_eq_true_2; [done|]. by apply look_dir.
Qed.

Lemma wp_mkdir d p Q E C :
  ready d p → look d p = None → C d → (∀ d', evolves [] d d' p (Some SDir) → Q tt d') → wp (mkdir p) Q E C d.
Proof.
  intros Hr Hn HC HQ. unfold mkdir. rewrite strip_plain by apply Hr. apply wp_seq, locate_ready; [done|done|].
  apply wp_seq, wp_get. rewrite (proj1 (look_none d p (proj1 Hr)) Hn).
  apply wp_step; [done|]. by apply HQ, evolves_set_name.
Qed.

Lemma wp_mkdir_exists d p x Q E C :
  ready d p → look d p = Some x → E (Io EEXIST) d → wp (mkdir p) Q E C d.
Proof.
  intros Hr Hn HE. unfold mkdir. rewrite strip_plain by apply Hr. apply wp_seq, locate_ready; [done|done|].
  apply wp_seq, wp_get. destruct (entry d p) eqn:He; [by apply wp_raise|].
  apply (look_none d p (proj1 Hr)) in He. congruence.
Qed.

Lemma wp_create_dir_all fuel d p Q E C :
  ready d p → C d →
  (look d p = None ∧ ∀ d', evolves [] d d' p (Some SDir) → Q tt d') ∨ (look d p = Some SDir ∧ Q tt d) →
  wp (create_dir_all fuel p) Q E C d.
Proof.
  intros Hr HC H. destruct fuel; simpl.
  all: apply wp_seq, wp_attempt; destruct H as [[Hn HQ]|[Hd HQ]].
  1,3: apply wp_mkdir; [done|done|done|]; intros d' Hd'; apply wp_done; by apply HQ.
  all: eapply wp_mkdir_exists; [done|done|]; simpl; apply wp_seq, wp_is_dir; [done|done|by apply wp_done].
Qed.

Lemma wp_open_write d p m Q E C :
  ready d p → sole d p → C d →
  (look d p = None ∨ ∃ b0 m0, look d p = Some (SFile b0 m0)) →
  (∀ d' i m', evolves [] d d' p (Some (SFile [] m')) → sole d' p → names d' !! p = Some (EFile i) →
     (look d p = None → m' = m) → Q i d') →
  (∀ b0 m0, look d p = Some (SFile b0 m0) → may_write env (MkInode b0 m0) = false → E (Io EACCES) d) →
  wp (open_write env p m) Q E C d.
Proof.
  intros Hr Hs HC Hl HQ HE. pose proof Hr as (Hwf & _ & Hne & _).
  unfold open_write. apply wp_seq, locate_ready; [done|naive_solver|]. apply wp_seq, wp_get.
  destruct Hl as [Hn|(b0 & m0 & Hl)].
  - rewrite (proj1 (look_none d p Hwf) Hn). apply wp_seq, wp_step, wp_done; [done|].
    destruct (evolves_new_file d p m Hr Hn) as [He Hs']. eapply HQ; [done|done| |done].
    simpl. by rewrite lookup_insert_eq.
  - assert (Hf := Hl). apply look_file in Hl as (i & Hi & Hin). rewrite Hi, Hin.
    destruct (may_write _ _) eqn:Hm; [|apply wp_raise; by eapply HE]. rewrite entry_names in Hi by done.
    apply wp_seq, wp_step, wp_done; [done|].
    pose proof (evolves_alter d p i (λ n, MkInode [] (i_mode n)) Hwf Hi Hs) as He. rewrite Hin in He.
    eapply HQ; [exact He| |done|congruence]. by apply (proj2 (proj2 He)); [apply not_elem_of_nil|].
Qed.

Lemma wp_alter_inode d p i f b m Q E C :
  wf d → names d !! p = Some (EFile i) → sole d p → look d p = Some (SFile b m) → C d →
  (∀ d', evolves [] d d' p (Some (SFile (i_data (f (MkInode b m))) (i_mode (f (MkInode b m))))) → sole d' p →
     names d' !! p = Some (EFile i) → Q tt d') →
  wp (act (λ d, MkDisk (names d) (alter f i (inodes d)))) Q E C d.
Proof.
  intros Hwf Hp Hs Hl HC HQ. apply wp_step; [done|]. pose proof (evolves_alter d p i f Hwf Hp Hs) as He.
  apply look_file in Hl as (j & Hj & Hin). rewrite entry_names, Hp in Hj by by apply (wf_name d p (EFile i)).
  injection Hj as <-. rewrite Hin in He. apply HQ; [done| |done]. by apply (proj2 (proj2 He)); [apply not_elem_of_nil|].
Qed.

Lemma evolves_look sh d d' p v : evolves sh d d' p v → look d' p = v.
Proof. intros (_ & Hl & _). rewrite Hl. by case_decide. Qed.
Lemma evolves_wf sh d d' p v : evolves sh d d' p v → wf d'.
Proof. by intros []. Qed.

(** A write creates the name, or replaces the bytes of its file. *)
Lemma wp_write d p b Q E C :
  ready d p → sole d p → C d →
  (look d p = None ∨ ∃ b0 m0, look d p = Some (SFile b0 m0)) →
  (∀ d' m, evolves [] d d' p (Some (SFile [] m)) → C d') →
  (∀ d' m, evolves [] d d' p (Some (SFile b m)) → sole d' p → Q tt d') →
  (∀ b0 m0, look d p = Some (SFile b0 m0) → may_write env (MkInode b0 m0) = false → E (Io EACCES) d) →
  wp (write env p b) Q E C d.
Proof.
  intros Hr Hs HC Hl HC' HQ HE. unfold write. apply wp_seq, wp_open_write; [done..| |done].
  intros d1 i m He1 Hs1 Hn1 _. eapply wp_alter_inode; [by eapply evolves_wf|done|done|by eapply evolves_look|by eapply HC'|].
  intros d2 He2 Hs2 _. eapply HQ; [|done]. by eapply evolves_trans.
Qed.

Lemma wp_set_permissions d p b m m' Q E C :
  ready d p → sole d p → look d p = Some (SFile b m) → C d →
  (∀ d', evolves [] d d' p (Some (SFile b m')) → sole d' p → Q tt d') → wp (set_permissions p m') Q E C d.
Proof.
  intros Hr Hs Hl HC HQ. unfold set_permissions. apply wp_seq, locate_ready; [done|naive_solver|].
  apply wp_seq, wp_get. assert (Hf := Hl). apply look_file in Hl as (i & Hi & Hin). rewrite Hi.
  rewrite entry_names in Hi by apply Hr. eapply wp_alter_inode; [apply Hr|done|done|done|done|]. intros d' He ? _. by apply HQ.
Qed.

(** A copy to a new name has the bytes and the permission bits of the source. *)
Lemma wp_copy d p q b m Q E C :
  ready d p → look d p = Some (SFile b m) → ready d q → look d q = None → C d →
  (∀ d' b', evolves [] d d' q (Some (SFile b' m)) → C d') →
  (∀ d', evolves [] d d' q (Some (SFile b m)) → sole d' q → Q tt d') → wp (copy env p q) Q E C d.
Proof.
  intros Hp Hl Hq Hn HC HC' HQ. unfold copy, read_inode. apply wp_seq, wp_seq, locate_ready; [done|naive_solver|].
  apply wp_seq, wp_get. apply look_file in Hl as (i & Hi & Hin). rewrite Hi, Hin. apply wp_done. cbn [i_mode i_data].
  assert (sole d q) as Hs.
  { intros j r Hj. apply (look_none d q (proj1 Hq)) in Hn. rewrite (ready_entry _ _ Hq) in Hn. congruence. }
  apply wp_seq, wp_open_write; [done|done|done|by left| |congruence].
  intros d1 j m1 He1 Hs1 Hn1 Hm. rewrite (Hm Hn) in He1.
  apply wp_seq. eapply wp_alter_inode; [by eapply evolves_wf|done|done|by eapply evolves_look|by eapply HC'|].
  intros d2 He2 Hs2 Hn2. assert (He12 := evolves_trans _ _ _ _ _ _ _ He1 He2). cbn [i_data i_mode] in *.
  eapply wp_alter_inode; [by eapply evolves_wf|done|done|by eapply evolves_look|by eapply HC'|].
  intros d3 He3 Hs3 _. cbn [i_data i_mode] in *. apply HQ; [|done]. by eapply evolves_trans.
Qed.

Lemma wp_remove_file d p Q E C :
  ready d p → C d → (∀ b m, look d p = Some (SFile b m) → ∀ d', evolves [] d d' p None → Q tt d') →
  (look d p = None → E (Io ENOENT) d) → (look d p = None ∨ ∃ b m, look d p = Some (SFile b m)) →
  wp (unlink_file p) Q E C d.
Proof.
  intros Hr HC HQ HE Hl. pose proof Hr as (Hwf & _ & Hne & _). unfold unlink_file.
  apply wp_seq, locate_ready; [done|done|]. apply wp_seq, wp_get. destruct Hl as [Hn|(b & m & Hl)].
  - rewrite (proj1 (look_none d p Hwf) Hn). apply wp_raise, HE, Hn.
  - assert (Hf := Hl). apply look_file in Hl as (i & Hi & _). rewrite Hi. apply wp_step; [done|].
    eapply HQ; [done|]. apply evolves_del; [done|done|]. intros c. destruct (look d (p ++ [c])) eqn:Hc; [|done].
    pose proof (look_above d p [c] Hwf ltac:(done) ltac:(by eexists)). congruence.
Qed.

(** A link, where the file may have one more name; the caller sees any refusal *)
Lemma wp_hard_link d p q b m Q E C :
  ready d p → look d p = Some (SFile b m) → ready d q → look d q = None → C d →
  (∀ d', evolves [q; p] d d' q (Some (SFile b m)) → Q tt d') → (∀ e, E e d) → wp (hard_link env p q) Q E C d.
Proof.
  intros Hp Hl Hq Hn HC HQ HE. unfold hard_link. apply wp_seq, locate_ready; [done|done|].
  apply wp_seq, locate_ready; [done|done|]. apply wp_seq, wp_get.
  assert (Hf := Hl). apply look_file in Hl as (i & Hi & _). rewrite Hi.
  rewrite (proj1 (look_none d q (proj1 Hq)) Hn). rewrite bool_decide_eq_false_2 by (by intros []).
  destruct (negb _); [by apply wp_raise|]. destruct (_ <=? _)%nat; [by apply wp_raise|].
  rewrite (ready_entry _ _ Hp) in Hi. apply wp_step; [done|]. apply HQ. rewrite <- Hf. by apply evolves_link.
Qed.

Lemma wp_symlink d t p Q E C :
  ready d p → look d p = None → t ≠ [] → 0 ∉ t → C d →
  (∀ d', evolves [] d d' p (Some (SLink t)) → Q tt d') → wp (symlink t p) Q E C d.
Proof.
  intros Hr Hn Ht H0 HC HQ. unfold symlink. rewrite !bool_decide_eq_false_2 by done.
  apply wp_seq, locate_ready; [done|done|]. apply wp_seq, wp_get.
  rewrite (proj1 (look_none d p (proj1 Hr)) Hn). apply wp_step; [done|]. apply HQ, evolves_set_name; done.
Qed.

Lemma wp_lstat_mode d p b m Q E C :
  ready d p → look d p = Some (SFile b m) → Q m d → wp (lstat_mode p) Q E C d.
Proof.
  intros Hr Hl HQ. unfold lstat_mode. apply wp_seq, locate_ready; [done|done|]. apply wp_seq, wp_get.
  apply look_file in Hl as (i & -> & ->). by apply wp_done.
Qed.

(** A rename to a name that is free moves the file. *)
Lemma wp_rename d p q b m Q E C :
  ready d p → look d p = Some (SFile b m) → sole d p → ready d q → look d q = None → C d →
  (∀ d', wf d' → (∀ r, look d' r = if decide (r = q) then Some (SFile b m) else if decide (r = p) then None else look d r) →
     (∀ r, sole d r → sole d' r) → Q tt d') →
  wp (rename p q) Q E C d.
Proof.
  intros Hp Hl Hs Hq Hn HC HQ. pose proof Hp as (Hwf & _ & Hne & _). pose proof Hq as (_ & Hqp & Hqne & Hqd).
  assert (p ≠ q) as Hpq by congruence. assert (Hf := Hl). apply look_file in Hl as (i & Hi & Hin).
  assert (evolves [] d (del_name p d) p None) as (Hwf1 & Hl1 & Hs1).
  { apply evolves_del; [done|done|]. intros c. destruct (look d (p ++ [c])) eqn:Hc; [|done].
    pose proof (look_above d p [c] Hwf ltac:(done) ltac:(by eexists)). congruence. }
  unfold rename. apply wp_seq, locate_ready; [done|done|]. apply wp_seq, locate_ready; [done|done|].
  apply wp_seq, wp_get. rewrite Hi, (proj1 (look_none d q Hwf) Hn). apply wp_step; [done|].
  rewrite (ready_entry _ _ Hp) in Hi.
  assert (ready (del_name p d) q) as Hq1.
  { split_and!; [done|done|done|]. rewrite Hl1. case_decide as Hr; [|done]. rewrite Hr in Hqd. congruence. }
  assert (look (del_name p d) q = None) as Hn1 by (rewrite Hl1; by case_decide).
  apply HQ.
  - eapply wf_add; [exact Hq1|done|done|done|]. intros j [= <-]. by eapply (proj1 Hwf).
  - intros r. case_decide as Hrq; [subst r|].
    + unfold look. rewrite entry_names by done. simpl. rewrite lookup_insert_eq. simpl. by rewrite Hin.
    + rewrite (look_add (del_name p d) _ q (EFile i)); [apply Hl1|done|done|done|done].
  - intros r Hr. destruct (decide (r = q)) as [->|].
    + intros j s. simpl. rewrite lookup_insert_eq. intros [= <-]. destruct (decide (s = q)) as [->|]; [done|].
      rewrite lookup_insert_ne by done. rewrite lookup_delete_Some. intros [? Hj]. by rewrite (Hs _ _ Hi Hj) in *.
    + eapply sole_add; [done| |done|by apply Hs1; [apply not_elem_of_nil|]].
      intros j. simpl. rewrite lookup_delete_Some. intros [? Hj] [= <-]. by rewrite (Hs _ _ Hi Hj) in *.
Qed.

(** ** Removing a tree *)

(** Names were removed, none of them outside [p]. *)
Definition kept_outside (p : path) (d d' : Disk) : Prop :=
  wf d' ∧ (∀ q, ¬ p `prefix_of` q → look d' q = look d q) ∧ (∀ q, look d' q = None ∨ look d' q = look d q) ∧
  (∀ q, sole d q → sole d' q).

Lemma kept_refl p d : wf d → kept_outside p d d.
Proof. intros Hwf. split_and!; auto. Qed.
Lemma kept_evolves p d d1 d2 q :
  kept_outside p d d1 → evolves [] d1 d2 q None → p `prefix_of` q → kept_outside p d d2.
Proof.
  intros (_ & Hl & Hn & Hs) (Hwf & Hl2 & Hs2) Hp. split_and!; [done| | |].
  - intros r Hr. rewrite Hl2. case_decide; [by subst r|by apply Hl].
  - intros r. rewrite Hl2. case_decide; [by left|apply Hn].
  - intros r Hr. apply Hs2; [apply not_elem_of_nil|by apply Hs].
Qed.

Lemma wp_remove_names d p l : ∀ d1 Q E C,
  kept_outside p d d1 → p ≠ [] → StronglySorted deeper l → Forall (λ r, p `prefix_of` r) l →
  (∀ r, p `prefix_of` r → is_Some (look d1 r) → r ∈ l) →
  (∀ d', kept_outside p d d' → C d') →
  (∀ d', kept_outside p d d' → (∀ r, p `prefix_of` r → look d' r = None) → Q tt d') →
  wp (foldr (λ r rest, _ ← act (del_name r); rest) (mret tt) l) Q E C d1.
Proof.
  induction l as [|q l IH]; intros d1 Q E C Hk Hp Hs Hpre Hall HC HQ; simpl.
  - apply wp_done, HQ; [done|]. intros r Hr. destruct (look d1 r) eqn:Hl; [|done].
    pose proof (Hall r Hr ltac:(by eexists)) as Hin. by apply elem_of_nil in Hin.
  - apply StronglySorted_inv in Hs as [Hs Hq]. inversion Hpre as [|? ? Hpq Hpre']; subst.
    assert (evolves [] d1 (del_name q d1) q None) as He.
    { apply evolves_del; [apply Hk|by destruct Hpq as [? ->]; destruct p|]. intros c.
      destruct (look d1 (q ++ [c])) as [x|] eqn:Hl; [|done].
      assert (q ++ [c] ∈ q :: l) as Hin by (apply Hall; [by apply prefix_app_r|by eexists]).
      apply elem_of_cons in Hin as [Heq|Hin].
      - apply (f_equal length) in Heq. rewrite length_app in Heq. simpl in Heq. lia.
      - rewrite Forall_forall in Hq. apply Hq in Hin. unfold deeper in Hin. rewrite length_app in Hin. simpl in Hin. lia. }
    apply wp_seq, wp_step; [by apply HC|]. apply IH; [by eapply kept_evolves|done|done|done| |done|done].
    intros r Hr [x Hx]. rewrite (proj1 (proj2 He)) in Hx. case_decide; [done|].
    assert (r ∈ q :: l) as Hin by (apply Hall; [done|by eexists]). by apply elem_of_cons in Hin as [?|?].
Qed.

Lemma wp_remove_dir_all d p Q E C :
  ready d p → look d p = Some SDir →
  (∀ d', kept_outside p d d' → C d') →
  (∀ d', kept_outside p d d' → (∀ r, p `prefix_of` r → look d' r = None) → Q tt d') →
  wp (remove_dir_all p) Q E C d.
Proof.
  intros Hr Hl HC HQ. pose proof Hr as (Hwf & _ & Hne & _). unfold remove_dir_all.
  apply wp_seq, locate_ready; [done|done|]. apply wp_seq, wp_get. rewrite (proj1 (look_dir d p) Hl).
  assert (∀ q, q ∈ subtree d p ↔ p `prefix_of` q ∧ q ∈ (map_to_list (names d)).*1) as Hin.
  { intros q. unfold subtree. rewrite merge_sort_Permutation, list_elem_of_filter. done. }
  eapply wp_remove_names; [by apply kept_refl|done| | | |done|done].
  - unfold subtree. apply StronglySorted_merge_sort.
    + intros ? ? ?. unfold deeper. lia.
    + intros ? ?. unfold deeper. lia.
  - apply Forall_forall. intros q ?%Hin. tauto.
  - intros r Hpr [x Hx]. apply Hin. split; [done|]. destruct (entry d r) as [e|] eqn:He; [|by unfold look in Hx; rewrite He in Hx].
    rewrite entry_names in He by (by destruct Hpr as [? ->]; destruct p).
    apply list_elem_of_fmap. exists (r, e). split; [done|]. by apply elem_of_map_to_list.
Qed.

(** ** Link counts and listings *)

Lemma elem_of_links d i q : q ∈ filter (λ e : path * Entry, e.2 = EFile i) (map_to_list (names d)) ↔ q.2 = EFile i ∧ names d !! q.1 = Some (EFile i).
Proof.
  rewrite list_elem_of_filter. destruct q as [q e]. simpl. rewrite elem_of_map_to_list. naive_solver.
Qed.

Lemma nlink_sole d p i : names d !! p = Some (EFile i) → nlink d i = 1%nat ↔ sole d p.
Proof.
  intros Hp. unfold nlink. assert (NoDup (filter (λ e : path * Entry, e.2 = EFile i) (map_to_list (names d)))) as Hnd
    by apply NoDup_filter, NoDup_map_to_list.
  assert ((p, EFile i) ∈ filter (λ e : path * Entry, e.2 = EFile i) (map_to_list (names d))) as Hin by by apply elem_of_links.
  pose proof (elem_of_links d i) as He. destruct (filter _ _) as [|[q e] rest]; [by apply elem_of_nil in Hin|]. split.
  - intros Hlen. destruct rest; [|done]. intros j r Hj Hr. rewrite Hp in Hj. injection Hj as <-.
    apply list_elem_of_singleton in Hin as [= <- <-].
    assert ((r, EFile i) ∈ [(p, EFile i)]) as Hr' by by apply He. by apply list_elem_of_singleton in Hr' as [= ->].
  - intros Hs. assert (∀ x, x ∈ (q, e) :: rest → x = (p, EFile i)) as Hall.
    { intros [r f] Hx. apply He in Hx as [Hf Hr]. simpl in *. by rewrite Hf, (Hs _ _ Hp Hr). }
    destruct rest as [|y rest]; [done|]. apply NoDup_cons in Hnd as [Hne _]. exfalso. apply Hne.
    rewrite (Hall (q, e)) by left. rewrite (Hall y) by (right; left). left.
Qed.

Lemma elem_of_kids d p c : c ∈ kids d p ↔ is_Some (names d !! (p ++ [c])).
Proof.
  unfold kids. rewrite list_elem_of_omap. split.
  - intros (q & Hq & Hc). apply list_elem_of_fmap in Hq as ([q' e] & -> & Hq). apply elem_of_map_to_list in Hq. simpl in Hc.
    destruct (last q') as [c'|]; [|done]. simpl in Hc. case_bool_decide; [|done]. simplify_eq. by eexists.
  - intros [e He]. exists (p ++ [c]). split; [apply list_elem_of_fmap; exists (p ++ [c], e); split; [done|by apply elem_of_map_to_list]|].
    rewrite last_snoc. simpl. by rewrite bool_decide_eq_true_2.
Qed.

Lemma wp_read_dir d p Q E C : ready d p → look d p = Some SDir → Q (kids d p) d → wp (read_dir p) Q E C d.
Proof.
  intros Hr Hs HQ. unfold read_dir. apply wp_seq, locate_ready; [done|naive_solver|]. apply wp_seq, wp_get.
  rewrite (proj1 (look_dir d p) Hs). by apply wp_done.
Qed.
Lemma wp_lstat_links d p i Q E C :
  ready d p → names d !! p = Some (EFile i) → Q (Some (nlink d i)) d → wp (lstat_links p) Q E C d.
Proof.
  intros Hr Hi HQ. unfold lstat_links. apply wp_seq, locate_ready; [done|done|]. apply wp_seq, wp_get.
  rewrite (ready_entry _ _ Hr), Hi. by apply wp_done.
Qed.
Lemma wp_lstat_missing d p Q E C :
  ready d p → look d p = None → E (Io ENOENT) d → wp (lstat_links p) Q E C d.
Proof.
  intros Hr Hn HE. unfold lstat_links. apply wp_seq, locate_ready; [done|done|]. apply wp_seq, wp_get.
  rewrite (proj1 (look_none d p (proj1 Hr)) Hn). by apply wp_raise.
Qed.
(** The name of a file goes, and nothing else. *)
Lemma wp_unlink d p i Q E C :
  ready d p → names d !! p = Some (EFile i) → C d →
  (evolves [] d (del_name p d) p None → Q tt (del_name p d)) → wp (unlink_file p) Q E C d.
Proof.
  intros Hr Hi HC HQ. pose proof Hr as (Hwf & _ & Hne & _). unfold unlink_file.
  apply wp_seq, locate_ready; [done|done|]. apply wp_seq, wp_get. rewrite (ready_entry _ _ Hr), Hi.
  apply wp_step; [done|]. apply HQ, evolves_del; [done|done|]. intros c. destruct (look d (p ++ [c])) eqn:Hc; [|done].
  pose proof (look_above d p [c] Hwf ltac:(done) ltac:(by eexists)) as Hd. apply look_dir in Hd.
  rewrite (ready_entry _ _ Hr) in Hd. congruence.
Qed.
End call_laws.
