(* ===== verification/LayerCache.v ===== *)
(** * The materialization cache.

    Models [chupa/depot-cache/src/lib.rs]: a pool of immutable files named by
    the hash of their bytes, the views of layers as directory trees whose files
    are links into the pool, and their removal.  The hash ([Sha256], as hex) is
    a parameter; the file system and its crashes are those of [HostDisk].  The
    laws hold for any set of contents on which the hash has no collision: they
    say what a tree that is returned shows, that no crash and no error leaves a
    cache that would show anything else, and what is removed. *)

From stdpp Require Import strings gmap.
From S2P Require Import Prelude.
From S2P Require Import BTreeMap.
From S2P Require Import Glob.
From S2P Require Import SandboxLayers.
From S2P Require Import SandboxLayersLaws.
From S2P Require Import GitLayer.
From S2P Require Import GitLayerLaws.
From S2P Require Import GitSlotsLaws.
From S2P Require Import BoxTransfer.
From S2P Require Import DepotModel.
From S2P Require Import DepotCodec.
From S2P Require Import HostDisk.
Open Scope Z_scope.

(** [attr_mode]; digits are ASCII, so a value that is not UTF-8 does not parse *)
Definition attr_mode (a : option Attrs) : option Z :=
  match a with Some a => parse_a parse_u32 a (str "mode") | None => None end.

Section cache.
Context (hash : bytes → list Z) (pid : list Z) (env : Env) (croot : path).

(** [Cache::open] *)
Definition cache_open : Run unit :=
  _ ← create_dir_all (length croot) (join croot (str "blob"));
  create_dir_all (length croot) (join croot (str "tree")).

Definition pool_dir (hexname : list Z) : path := join (join croot (str "blob")) (take 2 hexname).
Definition blob_path (hexname : list Z) : path := join (pool_dir hexname) hexname.
Definition tmp_path (hexname : list Z) : path := join (pool_dir hexname) (str ".tmp." ++ pid).

Definition file_for (b : bytes) : Run path :=
  let name := hash b in
  let p := blob_path name in
  there ← exists_ p;
  if there : bool then mret p
  else
    _ ← create_dir_all (length p) (pool_dir name);
    let tmp := tmp_path name in
    _ ← write env tmp b;
    _ ← set_permissions tmp 292;
    _ ← rename tmp p;
    mret p.

Definition tree_key (l : Layer) : list Z := hash (encode l).
Definition dst_path (key : list Z) : path := join (join croot (str "tree")) key.
Definition done_path (key : list Z) : path := join (join croot (str "tree")) (key ++ str ".ok").

(** The arms of [mat_node] for a symbolic link and for a file *)
Definition mat_link (target : bytes) (p : path) : Run unit :=
  _ ← attempt (unlink_file p);
  symlink (GitLayer.from_utf8_lossy target) p.
Definition mat_file (b : bytes) (mode : option Z) (p : path) : Run unit :=
  pool ← file_for b;
  _ ← attempt (unlink_file p);
  r ← attempt (hard_link env pool p);
  _ ← (match r with Ok _ => mret tt | Err _ => copy env pool p end);
  match mode with
  | Some m =>
      if negb (Z.land m 73 =? 0) then
        pm ← lstat_mode p;
        if Z.land pm 73 =? 0 then
          _ ← unlink_file p;
          _ ← copy env pool p;
          set_permissions p 365
        else mret tt
      else mret tt
  | None => mret tt
  end.

(** A child of [mat_node]; [inner] is [mat_node] of the child *)
Definition mat_child (inner : path → Run unit) (name : list Z) (child : Node) (at_ : path) : Run unit :=
  if is_tombstone child then raise (NotAView (str "tombstone"))
  else if is_backdrop (anchor child) && is_keep (blob child) && negb (is_some (attrs child))
  then raise (NotAView (str "hole"))
  else
    let p := join at_ (GitLayer.from_utf8_lossy name) in
    let mode := attr_mode (attrs child) in
    match blob child with
    | SetBlob b =>
        _ ← (if bool_decide ((λ m, Z.land m 61440) <$> mode = Some 40960) then mat_link b p else mat_file b mode p);
        if is_nil (children child) then mret tt else raise (NotAView (str "blob node with children (fs views cannot express it)"))
    | Keep | Remove => _ ← create_dir_all (length p) p; inner p
    end.

Fixpoint mat_node (node : Node) (at_ : path) {struct node} : Run unit :=
  foldr (λ '(name, child) rest, _ ← mat_child (mat_node child) name child at_; rest) (mret tt) (children node).

Definition materialize (l : Layer) : Run path :=
  let key := tree_key l in
  let dst := dst_path key in
  let done := done_path key in
  complete ← exists_ done;
  if complete : bool then mret dst
  else
    there ← exists_ dst;
    _ ← (if there : bool then remove_dir_all dst else mret tt);
    _ ← create_dir_all (length dst) dst;
    _ ← mat_node (root l) dst;
    _ ← write env done [];
    mret dst.

Definition drop_tree (key : list Z) : Run unit :=
  _ ← attempt (unlink_file (done_path key));
  let dst := dst_path key in
  there ← exists_ dst;
  if there : bool then remove_dir_all dst else mret tt.

(** The loops of [evict_unreferenced] *)
Fixpoint evict_files (shard : path) (fs : list (list Z)) (removed : nat) : Run nat :=
  match fs with
  | [] => mret removed
  | f :: fs =>
      md ← attempt (lstat_links (shard ++ [f]));
      match md with
      | Ok (Some 1%nat) =>
          r ← attempt (unlink_file (shard ++ [f]));
          evict_files shard fs (match r with Ok _ => S removed | Err _ => removed end)
      | _ => evict_files shard fs removed
      end
  end.
Fixpoint evict_shards (blob_root : path) (shards : list (list Z)) (removed : nat) : Run nat :=
  match shards with
  | [] => mret removed
  | s :: shards =>
      dir ← is_dir (blob_root ++ [s]);
      removed ← (if dir : bool then fs ← read_dir (blob_root ++ [s]); evict_files (blob_root ++ [s]) fs removed
                 else mret removed);
      evict_shards blob_root shards removed
  end.
Definition evict_unreferenced : Run nat :=
  let blob_root := join croot (str "blob") in
  shards ← read_dir blob_root;
  evict_shards blob_root shards 0.
End cache.

(** ** Contents, layers and their views *)

(** A lower-case hexadecimal digit, a decimal digit *)
Definition is_hex (c : Z) : Prop := 48 ≤ c ≤ 57 ∨ 97 ≤ c ≤ 102.
Definition is_digit (c : Z) : Prop := 48 ≤ c ≤ 57.

(** The hash on the contents [U]: 64 hexadecimal digits, and no collision *)
Record hash_ok (hash : bytes → list Z) (U : bytes → Prop) : Prop := {
  hash_len : ∀ b, U b → length (hash b) = 64%nat;
  hash_hex : ∀ b, U b → Forall is_hex (hash b);
  hash_inj : ∀ a b, U a → U b → hash a = hash b → a = b }.

(** What a node is materialized as *)
Definition is_link (n : Node) : bool := bool_decide ((λ m, Z.land m 61440) <$> attr_mode (attrs n) = Some 40960).
Definition is_exec (n : Node) : bool :=
  match attr_mode (attrs n) with Some m => negb (Z.land m 73 =? 0) | None => false end.
Definition node_shown (n : Node) : Shown :=
  match blob n with
  | SetBlob b => if is_link n then SLink (GitLayer.from_utf8_lossy b) else SFile b (if is_exec n then 365 else 292)
  | _ => SDir
  end.

(** What the tree of a node, and of a layer, shows at a relative path *)
Fixpoint expected (r : path) (n : Node) : option Shown :=
  match r with
  | [] => Some (node_shown n)
  | c :: r => bt_get c (children n) ≫= expected r
  end.
Definition layer_shows (l : Layer) (r : path) : option Shown :=
  match r with [] => Some SDir | c :: r => bt_get c (children (root l)) ≫= expected r end.

(** A node, and a layer, that a directory tree can show *)
Fixpoint view_node (n : Node) : bool :=
  negb (is_tombstone n) && negb (is_backdrop (anchor n) && is_keep (blob n) && negb (is_some (attrs n))) &&
  match blob n with
  | SetBlob b =>
      is_nil (children n)
      && (negb (is_link n)
          || bool_decide (GitLayer.from_utf8_lossy b ≠ []) && bool_decide (0 ∉ GitLayer.from_utf8_lossy b))
  | _ => forallb (λ '(_, c), view_node c) (children n)
  end.
Definition view_layer (l : Layer) : bool := forallb (λ '(_, c), view_node c) (children (root l)).

(** Names that are UTF-8 and single components *)
Definition name_plain (c : list Z) : Prop := plain c ∧ GitLayer.from_utf8_lossy c = c.
#[export] Instance name_plain_dec c : Decision (name_plain c).
Proof. unfold name_plain. apply _. Defined.
Fixpoint named (n : Node) : bool := forallb (λ '(k, c), bool_decide (name_plain k) && named c) (children n).

(** The blobs of a node *)
Fixpoint contents (n : Node) : list bytes :=
  match blob n with SetBlob b => [b] | _ => [] end ++ concat ((λ '(_, c), contents c) <$> children n).

Definition layer_ok (U : bytes → Prop) (l : Layer) : Prop :=
  encodable l = true ∧ named (root l) = true ∧ U (encode l) ∧ Forall U (contents (root l)).

Lemma named_child n k c : named n = true → (k, c) ∈ children n → name_plain k ∧ named c = true.
Proof.
  destruct n as [? ? ? ? ? cs]. simpl. rewrite forallb_forall. intros Hn Hin.
  apply list_elem_of_In, Hn, andb_true_iff in Hin as [Hk ?]. by apply bool_decide_eq_true in Hk.
Qed.
Lemma contents_child U n k c : Forall U (contents n) → (k, c) ∈ children n → Forall U (contents c).
Proof.
  destruct n as [? ? ? ? ? cs]. simpl. rewrite Forall_app. intros [_ Hall] Hin. rewrite Forall_forall in *.
  intros x Hx. apply Hall, list_elem_of_In, in_concat. exists (contents c). split; [|by apply list_elem_of_In].
  apply list_elem_of_In, list_elem_of_fmap. by exists (k, c).
Qed.
Lemma contents_blob U n b : Forall U (contents n) → blob n = SetBlob b → U b.
Proof. destruct n as [? bl ? ? ? cs]. simpl. intros Hall ->. by inversion Hall. Qed.

Lemma view_child n k c : view_node n = true → (k, c) ∈ children n → view_node c = true.
Proof.
  destruct n as [? b ? ? ? cs]. simpl. intros Hv Hin. split_andb.
  assert (is_nil cs = true ∨ forallb (λ '(_, c), view_node c) cs = true) as [Hn|Ha].
  - destruct b; [by right| |by right]. left. split_andb. done.
  - destruct cs; [|done]. by apply elem_of_nil in Hin.
  - rewrite forallb_forall in Ha. by apply list_elem_of_In, Ha in Hin.
Qed.
Lemma view_layer_child l k c : view_layer l = true → (k, c) ∈ children (root l) → view_node c = true.
Proof. unfold view_layer. rewrite forallb_forall. intros Ha Hin. by apply list_elem_of_In, Ha in Hin. Qed.

(** The encoding drops nothing of a view, and nothing else becomes a view. *)
Lemma canon_view n : view_node n = true → canon n = n.
Proof.
  induction n as [n IH] using node_ind'. intros Hv. pose proof (view_child n) as Hk.
  destruct n as [[] b o a an cs]; [|done]. simpl in *. f_equal. apply canon_kids_id.
  intros k c Hin. apply (IH k c Hin), (Hk k c Hv Hin).
Qed.
Lemma view_canon_kids (cs : btmap Name Node) :
  (∀ k c, (k, c) ∈ cs → view_node (canon c) = view_node c) →
  forallb (λ '(_, c), view_node c) ((λ '(k, c), (k, canon c)) <$> cs) = forallb (λ '(_, c), view_node c) cs.
Proof.
  induction cs as [|[k c] cs IH]; intros Hall; [done|]. simpl. rewrite (Hall k c) by left.
  f_equal. apply IH. intros k' c' Hin. apply (Hall k'). by right.
Qed.
Lemma view_canon n : view_node (canon n) = view_node n.
Proof.
  induction n as [n IH] using node_ind'. destruct n as [[] b o a an cs]; [|done]. simpl in *.
  change (λ '(k, c), (k, canon c)) with (λ kc : Name * Node, let '(k, c) := kc in (k, canon c)).
  rewrite view_canon_kids by done. unfold is_link. cbn [attrs]. by destruct cs.
Qed.

(** Layers of one key are one layer, where one of them is a view. *)
Lemma same_key hash U l l' :
  hash_ok hash U → layer_ok U l → layer_ok U l' → view_layer l = true →
  tree_key hash l = tree_key hash l' → l' = l.
Proof.
  intros Hh (He & _ & Hu & _) (He' & _ & Hu' & _) Hv Hk. apply (hash_inj _ _ Hh) in Hk; [|done|done].
  pose proof (encode_injective _ _ He He' Hk) as Hc.
  apply encodable_spec in He as (_ & Ht & _). apply encodable_spec in He' as (_ & Ht' & _).
  assert (∀ l, is_tombstone (root l) = false → view_layer (canon_layer l) = view_layer l) as Hvc.
  { intros [[[] ? ? ? ? cs]] Hr; [|done]. apply view_canon_kids. intros. apply view_canon. }
  assert (∀ l, is_tombstone (root l) = false → view_layer l = true → canon_layer l = l) as Hid.
  { intros [[[] ? ? ? ? cs]] Hr Hvl; [|done]. unfold canon_layer. simpl. do 2 f_equal. apply canon_kids_id.
    intros k c Hin. apply canon_view. by eapply (view_layer_child _ k). }
  rewrite <- (Hid l Ht Hv), Hc. symmetry. apply Hid; [done|]. by rewrite <- Hvc, <- Hc, Hvc.
Qed.

(** ** The cache, as it is found *)

Section laws.
Context (hash : bytes → list Z) (pid : list Z) (env : Env) (croot : path) (U : bytes → Prop).

Abbreviation POOL := (str "blob").
Abbreviation TREES := (str "tree").
Abbreviation TMP := (str ".tmp." ++ pid).
Abbreviation key := (tree_key hash).
Abbreviation sh b := (take 2 (hash b)).
Abbreviation marker l := (tree_key hash l ++ str ".ok").

(** The pool: directories of files; the name of a content of [U] is the file
    with those bytes, read-only. *)
Record blob_zone (g : path → option Shown) : Prop := {
  bz_root : g [] = Some SDir;
  bz_shard : ∀ s, g [s] = None ∨ g [s] = Some SDir;
  bz_file : ∀ s x, g [s; x] = None ∨ ∃ c m, g [s; x] = Some (SFile c m);
  bz_blob : ∀ b, U b → g [sh b; hash b] = None ∨ g [sh b; hash b] = Some (SFile b 292) }.

(** The trees: a tree with its marker shows its layer. *)
Record tree_zone (t : path → option Shown) : Prop := {
  tz_root : t [] = Some SDir;
  tz_dst : ∀ l, layer_ok U l → t [key l] = None ∨ t [key l] = Some SDir;
  tz_done : ∀ l, layer_ok U l →
    t [marker l] = None ∨
    (∃ c m, t [marker l] = Some (SFile c m)) ∧ view_layer l = true ∧ ∀ r, t (key l :: r) = layer_shows l r }.

Record cache_ok (d : Disk) : Prop := {
  co_wf : wf d;
  co_blob : blob_zone (λ x, look d (croot ++ POOL :: x));
  co_tree : tree_zone (λ x, look d (croot ++ TREES :: x));
  co_tmp : ∀ b, U b → sole d (croot ++ [POOL; sh b; TMP]) }.

(** No read-only file is left where the next write to the pool goes. *)
Definition tmps_free (d : Disk) : Prop :=
  privileged env = true ∨
  ∀ b c m, U b → look d (croot ++ [POOL; sh b; TMP]) = Some (SFile c m) → Z.land m 128 ≠ 0.

Context (Hh : hash_ok hash U) (Hroot : Forall plain croot) (Hpid : Forall is_digit pid).

(** *** Names *)

Lemma plain_chars c : c ≠ [] → Forall (λ x, x ≠ 0 ∧ x ≠ 46 ∧ x ≠ 47) c → plain c.
Proof.
  intros Hne Hc. rewrite Forall_forall in Hc. split_and!; [done| | | |].
  - intros ->. by destruct (Hc 46 ltac:(vm_compute; left)) as (_&?&_).
  - intros ->. by destruct (Hc 46 ltac:(vm_compute; left)) as (_&?&_).
  - intros Hin. by apply Hc in Hin as (?&_&_).
  - intros Hin. by apply Hc in Hin as (_&_&?).
Qed.
Lemma hex_plain c : c ≠ [] → Forall is_hex c → plain c.
Proof. intros ? Hc. apply plain_chars; [done|]. eapply Forall_impl; [done|]. unfold is_hex. lia. Qed.
Lemma hash_plain b : U b → plain (hash b).
Proof.
  intros Hb. apply hex_plain; [|by apply (hash_hex _ _ Hh)]. intros Hn. pose proof (hash_len _ _ Hh b Hb) as Hl.
  by rewrite Hn in Hl.
Qed.
Lemma sh_plain b : U b → plain (sh b).
Proof.
  intros Hb. apply hex_plain; [|by apply Forall_take, (hash_hex _ _ Hh)]. intros Hn. apply (f_equal length) in Hn.
  rewrite length_take, (hash_len _ _ Hh b Hb) in Hn. done.
Qed.
Lemma tmp_plain : plain TMP.
Proof.
  split_and!; [done|done|done| |]; (intros [Hin|Hin]%elem_of_app;
    [vm_compute in Hin; repeat (apply elem_of_cons in Hin as [Hin|Hin]; [done|]); by apply elem_of_nil in Hin|]);
    rewrite Forall_forall in Hpid; apply Hpid in Hin; unfold is_digit, SLASH in Hin; lia.
Qed.
Lemma marker_plain l : U (encode l) → plain (marker l).
Proof.
  intros Hl. pose proof (hash_plain _ Hl) as (?&?&?&?&?).
  assert (length (marker l) = 67%nat) as Hlen by (rewrite length_app; unfold tree_key; by rewrite (hash_len _ _ Hh _ Hl)).
  split_and!; [intros Hn; by rewrite Hn in Hlen..| |].
  all: intros [Hin|Hin]%elem_of_app; [done|].
  all: vm_compute in Hin; repeat (apply elem_of_cons in Hin as [Hin|Hin]; [done|]); by apply elem_of_nil in Hin.
Qed.
Lemma hash_ne_tmp b : U b → hash b ≠ TMP.
Proof.
  intros Hb Heq. pose proof (hash_hex _ _ Hh b Hb) as Hx. rewrite Heq in Hx. inversion Hx as [|? ? Hd _]; subst.
  unfold is_hex in Hd. lia.
Qed.
Lemma marker_ne_key l l' : U (encode l) → U (encode l') → marker l ≠ key l'.
Proof.
  intros Hl Hl' Heq. apply (f_equal length) in Heq. unfold tree_key in Heq.
  rewrite length_app, (hash_len _ _ Hh _ Hl), (hash_len _ _ Hh _ Hl') in Heq. done.
Qed.

Lemma join_plain p c : plain c → join p c = p ++ [c].
Proof.
  intros (?&_&_&_&Hs). unfold join. rewrite split_on_name by done. rewrite bool_decide_eq_false_2; [done|].
  destruct c; [done|]. intros [= ->]. apply Hs. left.
Qed.
Lemma blob_plain : plain POOL.
Proof. by apply (bool_decide_unpack (plain POOL)). Qed.
Lemma tree_plain : plain TREES.
Proof. by apply (bool_decide_unpack (plain TREES)). Qed.
Lemma shard_eq b : U b → pool_dir croot (hash b) = croot ++ [POOL; sh b].
Proof.
  intros Hb. unfold pool_dir. rewrite (join_plain _ POOL) by apply blob_plain.
  rewrite join_plain by by apply sh_plain. by rewrite <- app_assoc.
Qed.
Lemma blob_eq b : U b → blob_path croot (hash b) = croot ++ [POOL; sh b; hash b].
Proof.
  intros Hb. unfold blob_path. rewrite shard_eq, join_plain by (done || by apply hash_plain). by rewrite <- app_assoc.
Qed.
Lemma tmp_eq b : U b → tmp_path pid croot (hash b) = croot ++ [POOL; sh b; TMP].
Proof.
  intros Hb. unfold tmp_path. rewrite shard_eq, join_plain by (done || apply tmp_plain). by rewrite <- app_assoc.
Qed.
Lemma dst_eq l : U (encode l) → dst_path croot (key l) = croot ++ [TREES; key l].
Proof.
  intros Hl. unfold dst_path. rewrite (join_plain _ TREES) by apply tree_plain.
  rewrite join_plain by by apply hash_plain. by rewrite <- app_assoc.
Qed.
Lemma done_eq l : U (encode l) → done_path croot (key l) = croot ++ [TREES; marker l].
Proof.
  intros Hl. unfold done_path. rewrite (join_plain _ TREES) by apply tree_plain.
  rewrite join_plain by by apply marker_plain. by rewrite <- app_assoc.
Qed.

(** *** Zones *)

Definition upd (g : path → option Shown) (x : path) (v : option Shown) : path → option Shown :=
  λ y, if decide (y = x) then v else g y.

Lemma zone_ext_blob g g' : (∀ y, g' y = g y) → blob_zone g → blob_zone g'.
Proof. intros He []. constructor; intros; rewrite !He; auto. Qed.
Lemma zone_ext_tree t t' : (∀ y, t' y = t y) → tree_zone t → tree_zone t'.
Proof.
  intros He [H1 H2 H3]. constructor; intros; rewrite ?He; auto.
  destruct (H3 l) as [|(Hf & Hv & Hs)]; [done|by left|right]. split_and!; [done|done|]. intros r. by rewrite He.
Qed.

Lemma bz_set_tmp g b v :
  blob_zone g → U b → (v = None ∨ ∃ c m, v = Some (SFile c m)) → blob_zone (upd g [sh b; TMP] v).
Proof.
  intros [H1 H2 H3 H4] Hb Hv. constructor; intros; unfold upd; repeat case_decide; simplify_eq; auto.
  by destruct (hash_ne_tmp b0).
Qed.
Lemma bz_set_shard g b : blob_zone g → U b → blob_zone (upd g [sh b] (Some SDir)).
Proof. intros [H1 H2 H3 H4] Hb. constructor; intros; unfold upd; repeat case_decide; simplify_eq; auto. Qed.
Lemma bz_set_blob g b : blob_zone g → U b → blob_zone (upd g [sh b; hash b] (Some (SFile b 292))).
Proof.
  intros [H1 H2 H3 H4] Hb. constructor; intros; unfold upd; repeat case_decide; simplify_eq; eauto.
  right. do 2 f_equal. by apply (hash_inj _ _ Hh).
Qed.
(** Any file of the pool may go. *)
Lemma bz_del_file g s x : blob_zone g → blob_zone (upd g [s; x] None).
Proof. intros [H1 H2 H3 H4]. constructor; intros; unfold upd; repeat case_decide; simplify_eq; auto. Qed.

(** Below the name of a tree without a marker anything may change. *)
Lemma tz_set_below t l x v :
  tree_zone t → layer_ok U l → t [marker l] = None → (x = [] → v = None ∨ v = Some SDir) →
  tree_zone (upd t (key l :: x) v).
Proof.
  intros [H1 H2 H3] Hl Hm Hv. constructor; unfold upd.
  - by case_decide.
  - intros l' Hl'. case_decide; [simplify_eq; auto|auto].
  - intros l' Hl'. rewrite decide_False; [|intros [= Hk _]; eapply marker_ne_key; [..|done]; [apply Hl'|apply Hl]].
    destruct (H3 l' Hl') as [|(Hf & Hvw & Hs)]; [by left|right]. split_and!; [done|done|].
    intros r. rewrite decide_False; [done|]. intros [= Hk _]. destruct Hf as (c & m & Hf).
    rewrite <- Hk in Hm. congruence.
Qed.
Lemma tz_set_done t l c m :
  tree_zone t → layer_ok U l → view_layer l = true → (∀ r, t (key l :: r) = layer_shows l r) →
  tree_zone (upd t [marker l] (Some (SFile c m))).
Proof.
  intros [H1 H2 H3] Hl Hv Hs. constructor; unfold upd.
  - done.
  - intros l' Hl'. rewrite decide_False; [auto|]. intros [= Hk]. symmetry in Hk.
    eapply marker_ne_key; [..|done]; [apply Hl|apply Hl'].
  - intros l' Hl'.
    assert (∀ r, key l' :: r ≠ [marker l]) as Hne.
    { intros r [= Hk _]. symmetry in Hk. eapply marker_ne_key; [..|done]; [apply Hl|apply Hl']. }
    case_decide as Hm.
    + right. split; [by eauto|]. injection Hm as Hk%app_inv_tail. symmetry in Hk.
      pose proof (same_key _ _ _ _ Hh Hl Hl' Hv Hk) as ->. split; [done|]. intros r. rewrite decide_False; [done|].
      apply Hne.
    + destruct (H3 l' Hl') as [|(Hf & Hvw & Hs')]; [by left|right]. split_and!; [done|done|].
      intros r. rewrite decide_False; [done|apply Hne].
Qed.
Lemma tz_del_done t l : tree_zone t → layer_ok U l → tree_zone (upd t [marker l] None).
Proof.
  intros [H1 H2 H3] Hl. constructor; unfold upd.
  - done.
  - intros l' Hl'. case_decide; auto.
  - intros l' Hl'. case_decide; [by left|].
    destruct (H3 l' Hl') as [|(Hf & Hvw & Hs')]; [by left|right]. split_and!; [done|done|].
    intros r. rewrite decide_False; [done|]. intros [= Hk _]. symmetry in Hk. 
    eapply marker_ne_key; [..|done]; [apply Hl|apply Hl'].
Qed.

(** A change in one zone leaves the other. *)
Lemma cache_blob_step shared d d' x v :
  cache_ok d → evolves shared d d' (croot ++ POOL :: x) v → (∀ b, U b → croot ++ [POOL; sh b; TMP] ∉ shared) →
  blob_zone (upd (λ x, look d (croot ++ POOL :: x)) x v) → cache_ok d'.
Proof.
  intros [Hwf Hb Ht Hs] (Hwf' & Hl & Hs') Hsh Hz. constructor; [done| | |].
  - eapply zone_ext_blob; [|exact Hz]. intros y. simpl. rewrite Hl. unfold upd.
    repeat case_decide; simplify_list_eq; done.
  - eapply zone_ext_tree; [|exact Ht]. intros y. simpl. rewrite Hl. case_decide; [simplify_list_eq|done].
  - intros b Hb'. apply Hs'; [by apply Hsh|by apply Hs].
Qed.
Lemma cache_tree_step shared d d' x v :
  cache_ok d → evolves shared d d' (croot ++ TREES :: x) v → (∀ b, U b → croot ++ [POOL; sh b; TMP] ∉ shared) →
  tree_zone (upd (λ x, look d (croot ++ TREES :: x)) x v) → cache_ok d'.
Proof.
  intros [Hwf Hb Ht Hs] (Hwf' & Hl & Hs') Hsh Hz. constructor; [done| | |].
  - eapply zone_ext_blob; [|exact Hb]. intros y. simpl. rewrite Hl. case_decide; [simplify_list_eq|done].
  - eapply zone_ext_tree; [|exact Hz]. intros y. simpl. rewrite Hl. unfold upd.
    repeat case_decide; simplify_list_eq; done.
  - intros b Hb'. apply Hs'; [by apply Hsh|by apply Hs].
Qed.

(** *** The pool *)

Definition same_outside (d d' : Disk) : Prop :=
  ∀ q, ¬ (croot ++ [POOL]) `prefix_of` q → look d' q = look d q.

Lemma same_outside_step shared d d1 d2 x v :
  same_outside d d1 → evolves shared d1 d2 (croot ++ POOL :: x) v → same_outside d d2.
Proof.
  intros Hs (_ & Hl & _) q Hq. rewrite Hl. case_decide as He; [|by apply Hs]. subst q. destruct Hq. exists x.
  by rewrite <- app_assoc.
Qed.

Lemma ready_snoc d p c : wf d → Forall plain p → plain c → look d p = Some SDir → ready d (p ++ [c]).
Proof.
  intros ? ? ? ?. split_and!; [done| |by destruct p|by rewrite removelast_last].
  apply Forall_app. by rewrite Forall_singleton.
Qed.

Lemma ready_shard d b : cache_ok d → U b → ready d (croot ++ [POOL; sh b]).
Proof.
  intros Hd Hb. change [POOL; sh b] with ([POOL] ++ [sh b]). rewrite app_assoc.
  apply ready_snoc; [apply Hd| |by apply sh_plain|apply (bz_root _ (co_blob _ Hd))].
  apply Forall_app. rewrite Forall_singleton. split; [done|apply blob_plain].
Qed.
Lemma ready_pool d b x :
  cache_ok d → U b → look d (croot ++ [POOL; sh b]) = Some SDir → plain x → ready d (croot ++ [POOL; sh b; x]).
Proof.
  intros Hd Hb Hs Hx. change [POOL; sh b; x] with ([POOL; sh b] ++ [x]). rewrite app_assoc.
  apply ready_snoc; [apply Hd| |done|done]. apply (ready_shard d b); done.
Qed.

Lemma not_free d b c m :
  U b → look d (croot ++ [POOL; sh b; TMP]) = Some (SFile c m) → may_write env (MkInode c m) = false → ¬ tmps_free d.
Proof.
  unfold may_write, tmps_free. cbn [i_mode]. intros Hb Hl [Hp Hm]%orb_false_iff. apply negb_false_iff, Z.eqb_eq in Hm.
  intros [Ht|Ht]; [congruence|]. by destruct (Ht b c m Hb Hl).
Qed.

(** The rename that ends a write *)
Lemma pool_renamed d d' b :
  cache_ok d → U b → wf d' →
  (∀ r, look d' r = if decide (r = croot ++ [POOL; sh b; hash b]) then Some (SFile b 292)
                    else if decide (r = croot ++ [POOL; sh b; TMP]) then None else look d r) →
  (∀ r, sole d r → sole d' r) → cache_ok d'.
Proof.
  intros Hd Hb Hwf Hlook Hs. constructor; [done| | |].
  - eapply zone_ext_blob; [|apply (bz_set_blob (upd (λ x, look d (croot ++ POOL :: x)) [sh b; TMP] None) b);
      [apply bz_set_tmp; [apply Hd|done|by left]|done]].
    intros y. simpl. rewrite Hlook. unfold upd. repeat case_decide; simplify_list_eq; done.
  - eapply zone_ext_tree; [|apply Hd]. intros y. simpl. rewrite Hlook. repeat case_decide; simplify_list_eq; done.
  - intros b' Hb'. apply Hs. by apply Hd.
Qed.

(** Writing beside the name and renaming: until the rename nothing but what
    lies beside the names of the pool has changed. *)
Lemma wp_pool_write d d0 b Q (E : _ → Disk → Prop) (C : Disk → Prop) :
  cache_ok d → U b → same_outside d0 d → (tmps_free d0 → tmps_free d) →
  look d (croot ++ [POOL; sh b]) = Some SDir → look d (croot ++ [POOL; sh b; hash b]) = None →
  (∀ d', cache_ok d' → same_outside d0 d' → C d') →
  (∀ d', cache_ok d' → same_outside d0 d' → (tmps_free d0 → tmps_free d') →
     look d' (croot ++ [POOL; sh b; hash b]) = Some (SFile b 292) → Q (croot ++ [POOL; sh b; hash b]) d') →
  (∀ e d', cache_ok d' → same_outside d0 d' → ¬ tmps_free d0 → E e d') →
  wp (_ ← write env (croot ++ [POOL; sh b; TMP]) b; _ ← set_permissions (croot ++ [POOL; sh b; TMP]) 292;
      _ ← rename (croot ++ [POOL; sh b; TMP]) (croot ++ [POOL; sh b; hash b]); mret (croot ++ [POOL; sh b; hash b])) Q E C d.
Proof.
  intros Hd Hb Hso Hfree Hsh Hnb HC HQ HE.
  assert (∀ d1 c m, evolves [] d d1 (croot ++ [POOL; sh b; TMP]) (Some (SFile c m)) → cache_ok d1 ∧ same_outside d0 d1) as Htmp.
  { intros d1 c m He. split; [|by eapply same_outside_step].
    eapply cache_blob_step; [done|done|set_solver|]. apply bz_set_tmp; [apply Hd|done|by eauto]. }
  apply wp_seq, wp_write; [by apply ready_pool, tmp_plain|by apply Hd|by apply HC|by apply (bz_file _ (co_blob _ Hd))| | |].
  { intros d1 m [? ?]%Htmp. by apply HC. }
  2: { intros c m Hl Hm. apply HE; [done|done|]. intros Hf%Hfree. by eapply not_free. }
  intros d1 m He1 Hs1. destruct (Htmp _ _ _ He1) as [Hd1 Hso1].
  assert (∀ x v, evolves [] d d1 (croot ++ [POOL; sh b; TMP]) v → x ≠ [sh b; TMP] →
    look d1 (croot ++ POOL :: x) = look d (croot ++ POOL :: x)) as Hl1.
  { intros x v (_ & Hl & _) Hx. rewrite Hl. case_decide; [simplify_list_eq|done]. }
  apply wp_seq. eapply wp_set_permissions; [|done|by eapply evolves_look|by apply HC|].
  { apply ready_pool; [done|done| |apply tmp_plain]. by rewrite (Hl1 _ _ He1). }
  intros d2 He2 Hs2. assert (He := evolves_trans _ _ _ _ _ _ _ He1 He2). destruct (Htmp _ _ _ He) as [Hd2 Hso2].
  assert (∀ x, x ≠ [sh b; TMP] → look d2 (croot ++ POOL :: x) = look d (croot ++ POOL :: x)) as Hl2.
  { intros x Hx. destruct He as (_ & Hl & _). rewrite Hl. case_decide; [simplify_list_eq|done]. }
  assert (look d2 (croot ++ [POOL; sh b]) = Some SDir) as Hsh2 by by rewrite Hl2.
  assert (hash b ≠ TMP) as Hht by by apply hash_ne_tmp.
  apply wp_seq. eapply wp_rename; [by apply ready_pool, tmp_plain|by eapply evolves_look|done|
    by apply ready_pool, hash_plain|rewrite Hl2; [done|congruence]|by apply HC|].
  intros d3 Hwf3 Hl3 Hs3. apply wp_done.
  assert (same_outside d0 d3) as Hso3.
  { intros q Hq. rewrite Hl3. assert (∀ x, q ≠ croot ++ POOL :: x) as Hx.
    { intros x ->. apply Hq. exists x. by rewrite <- app_assoc. }
    rewrite !decide_False by apply Hx. by apply Hso2. }
  apply HQ; [by eapply pool_renamed|done| |rewrite Hl3; by case_decide].
  intros Hf%Hfree. destruct Hf as [Hf|Hf]; [by left|right]. intros b' c m' Hb'. rewrite Hl3.
  rewrite decide_False by (intros Heq; simplify_list_eq). case_decide as Hne; [done|].
  rewrite Hl2 by (intros [= Heq]; by rewrite Heq in Hne). by apply Hf.
Qed.

Lemma wp_file_for d b Q (E : _ → Disk → Prop) (C : Disk → Prop) :
  cache_ok d → U b →
  (∀ d', cache_ok d' → same_outside d d' → C d') →
  (∀ d', cache_ok d' → same_outside d d' → (tmps_free d → tmps_free d') →
     look d' (croot ++ [POOL; sh b; hash b]) = Some (SFile b 292) → Q (croot ++ [POOL; sh b; hash b]) d') →
  (∀ e d', cache_ok d' → same_outside d d' → ¬ tmps_free d → E e d') →
  wp (file_for hash pid env croot b) Q E C d.
Proof.
  intros Hd Hb HC HQ HE. unfold file_for. rewrite blob_eq, shard_eq, tmp_eq by done.
  destruct (bz_shard _ (co_blob _ Hd) (sh b)) as [Hn|Hs].
  - assert (look d (croot ++ [POOL; sh b; hash b]) = None) as Hnb.
    { destruct (look d (croot ++ [POOL; sh b; hash b])) eqn:Hl; [|done].
      assert (look d (croot ++ [POOL; sh b]) = Some SDir); [|congruence].
      apply (look_above d _ [hash b]); [apply Hd|done|]. rewrite <- app_assoc. by eexists. }
    apply wp_seq. pose proof (ready_shard d b Hd Hb) as (_ & Hp & _).
    assert (∀ x, croot ++ POOL :: x = (croot ++ [POOL]) ++ x) as Happ by (intros; by rewrite <- app_assoc).
    rewrite (Happ [sh b; hash b]), (Happ [sh b]) in *.
    eapply wp_exists_missing; [apply Hd|done|apply (bz_root _ (co_blob _ Hd))|done|done|].
    rewrite <- !Happ in *. apply wp_seq, wp_create_dir_all; [by apply ready_shard|by apply HC|].
    left. split; [done|]. intros d1 He1.
    assert (cache_ok d1) as Hd1.
    { eapply cache_blob_step; [done|done|set_solver|]. apply bz_set_shard; [apply Hd|done]. }
    assert (∀ x, x ≠ [sh b] → look d1 (croot ++ POOL :: x) = look d (croot ++ POOL :: x)) as Hl1.
    { intros x Hx. destruct He1 as (_ & Hl & _). rewrite Hl. case_decide; [simplify_list_eq|done]. }
    apply (wp_pool_write d1 d); [done|done|by eapply same_outside_step| |by eapply evolves_look|by rewrite Hl1|done..].
    intros [Hf|Hf]; [by left|right]. intros b' c m Hb'. rewrite Hl1 by done. by apply Hf.
  - apply wp_seq, wp_exists; [by apply ready_pool, hash_plain|by destruct (bz_blob _ (co_blob _ Hd) b Hb) as [->| ->]|].
    destruct (bz_blob _ (co_blob _ Hd) b Hb) as [Hl|Hl]; rewrite Hl.
    + rewrite bool_decide_eq_false_2 by (by intros []).
      apply wp_seq, wp_create_dir_all; [by apply ready_shard|by apply HC|]. right. split; [done|].
      by apply (wp_pool_write d d).
    + rewrite bool_decide_eq_true_2 by by eexists. apply wp_done. by apply HQ.
Qed.

(** *** A tree that is being built *)

Section building.
Context (l : Layer) (Hl : layer_ok U l).

(** A path of the tree, and a state of the cache in which it has no marker *)
Definition in_tree (x : path) : path := croot ++ TREES :: key l :: x.
Definition building (d : Disk) : Prop := cache_ok d ∧ look d (croot ++ [TREES; marker l]) = None.

(** Only paths of [X], and the pool, changed. *)
Definition built (X : path → Prop) (d d' : Disk) : Prop :=
  building d' ∧ (∀ q, ¬ X q → ¬ (croot ++ [POOL]) `prefix_of` q → look d' q = look d q) ∧ (tmps_free d → tmps_free d').

Lemma built_refl X d : building d → built X d d.
Proof. done. Qed.
Lemma built_trans (X X' : path → Prop) d d1 d2 :
  built X d d1 → built X' d1 d2 → (∀ q, X' q → X q) → built X d d2.
Proof.
  intros (_ & H1 & F1) (Hb & H2 & F2) Hx. split_and!; [done| |auto]. intros q Hq Hp. rewrite H2 by auto. auto.
Qed.

Lemma in_tree_app x y : in_tree (x ++ y) = in_tree x ++ y.
Proof. unfold in_tree. by rewrite <- app_assoc. Qed.
Lemma in_tree_not_pool x : ¬ (croot ++ [POOL]) `prefix_of` in_tree x.
Proof. intros [y Hy]. unfold in_tree in Hy. rewrite <- app_assoc in Hy. simplify_list_eq. Qed.
Lemma in_tree_plain x : Forall plain x → Forall plain (in_tree x).
Proof.
  intros Hx. apply Forall_app. split; [done|]. constructor; [apply tree_plain|].
  constructor; [apply hash_plain, Hl|done].
Qed.
Lemma ready_in_tree d x c :
  building d → Forall plain x → plain c → look d (in_tree x) = Some SDir → ready d (in_tree (x ++ [c])).
Proof. intros [Hd _] Hx Hc Hs. rewrite in_tree_app. apply ready_snoc; [apply Hd|by apply in_tree_plain|done|done]. Qed.

Lemma free_step shared d d' x v : evolves shared d d' (in_tree x) v → tmps_free d → tmps_free d'.
Proof.
  intros (_ & He & _) [Hf|Hf]; [by left|right]. intros b c m Hb. rewrite He, decide_False; [by apply Hf|].
  unfold in_tree. intros Heq. simplify_list_eq.
Qed.

(** A change in the tree *)
Lemma built_step shared d d' x v :
  building d → evolves shared d d' (in_tree x) v → (x = [] → v = None ∨ v = Some SDir) →
  (∀ b, U b → croot ++ [POOL; sh b; TMP] ∉ shared) → built (λ q, in_tree x = q) d d' ∧ look d' (in_tree x) = v.
Proof.
  intros [Hd Hm] He Hx Hsh. split; [|by eapply evolves_look]. pose proof He as (_ & Hlook & _).
  split; [split|split; [|by eapply free_step]].
  - eapply cache_tree_step; [done|done|done|]. apply tz_set_below; [apply Hd|done|done|done].
  - rewrite Hlook, decide_False; [done|]. unfold in_tree. intros Heq. simplify_list_eq.
    eapply marker_ne_key; [..|done]; apply Hl.
  - intros q Hq _. rewrite Hlook. by rewrite decide_False.
Qed.

Lemma pool_built X d d' :
  building d → cache_ok d' → same_outside d d' → (tmps_free d → tmps_free d') → built X d d'.
Proof.
  intros [Hd Hm] Hd' Hs Hf. split; [split; [done|]|split; [intros q _ Hq; by apply Hs|done]].
  rewrite Hs; [done|]. intros [y Hy]. rewrite <- app_assoc in Hy. simplify_list_eq.
Qed.

Lemma tmp_not_shared b x y : U y → croot ++ [POOL; sh b; TMP] ∉ [in_tree x; croot ++ [POOL; sh y; hash y]].
Proof.
  intros Hy Hin. apply elem_of_cons in Hin as [Hin|Hin%list_elem_of_singleton]; unfold in_tree in *; simplify_list_eq.
  by destruct (hash_ne_tmp y).
Qed.

Lemma child_ne x c : in_tree (x ++ [c]) ≠ in_tree x.
Proof.
  rewrite in_tree_app. intros Heq. apply (f_equal length) in Heq. rewrite length_app in Heq. simpl in Heq. lia.
Qed.
Lemma pool_ne x y : croot ++ POOL :: y ≠ in_tree x.
Proof. unfold in_tree. intros Heq. simplify_list_eq. Qed.

(** A file at a new name, linked or copied; [k] is what follows *)
Lemma wp_link_or_copy d b x c (k : Run unit) Q (E : _ → Disk → Prop) (C : Disk → Prop) :
  building d → U b → Forall plain x → plain c → look d (in_tree x) = Some SDir → look d (in_tree (x ++ [c])) = None →
  look d (croot ++ [POOL; sh b; hash b]) = Some (SFile b 292) →
  (∀ d', built (λ q, in_tree (x ++ [c]) = q) d d' → C d') →
  (∀ d', built (λ q, in_tree (x ++ [c]) = q) d d' → look d' (in_tree (x ++ [c])) = Some (SFile b 292) →
     look d' (croot ++ [POOL; sh b; hash b]) = Some (SFile b 292) → wp k Q E C d') →
  wp (r ← attempt (hard_link env (croot ++ [POOL; sh b; hash b]) (in_tree (x ++ [c])));
      _ ← match r with Ok _ => mret tt | Err _ => copy env (croot ++ [POOL; sh b; hash b]) (in_tree (x ++ [c])) end; k) Q E C d.
Proof.
  intros Hd Hb Hx Hc Hdir Hn Hp HC HQ.
  assert (ready d (croot ++ [POOL; sh b; hash b])) as Hrp.
  { apply ready_pool; [apply Hd|done| |by apply hash_plain].
    apply (look_above d _ [hash b]); [apply Hd|done|]. rewrite <- app_assoc. by eexists. }
  assert (ready d (in_tree (x ++ [c]))) as Hrt by by apply ready_in_tree.
  assert (x ++ [c] ≠ []) as Hne by by destruct x.
  apply wp_seq, wp_attempt. eapply wp_hard_link; [done|done|done|done|by apply HC, built_refl| |].
  - intros d1 He1. apply wp_seq, wp_done. pose proof He1 as (_ & Hq1 & _).
    eapply built_step in He1 as [Hb1 Hl1]; [|done|done|intros b' _; by apply tmp_not_shared].
    apply HQ; [done|done|]. rewrite Hq1, decide_False; [done|apply pool_ne].
  - intros e. apply wp_seq. eapply wp_copy; [done|done|done|done|by apply HC, built_refl| |].
    + intros d1 b1 He1. eapply built_step in He1 as [Hb1 Hl1]; [by apply HC|done|done|set_solver].
    + intros d1 He1 _. pose proof He1 as (_ & Hq1 & _). eapply built_step in He1 as [Hb1 Hl1]; [|done|done|set_solver].
      apply HQ; [done|done|]. rewrite Hq1, decide_False; [done|apply pool_ne].
Qed.

(** The private copy of an executable file *)
Lemma wp_private_copy d b x c Q (E : _ → Disk → Prop) (C : Disk → Prop) :
  building d → U b → Forall plain x → plain c → look d (in_tree x) = Some SDir →
  look d (in_tree (x ++ [c])) = Some (SFile b 292) → look d (croot ++ [POOL; sh b; hash b]) = Some (SFile b 292) →
  (∀ d', built (λ q, in_tree (x ++ [c]) = q) d d' → C d') →
  (∀ d', built (λ q, in_tree (x ++ [c]) = q) d d' → look d' (in_tree (x ++ [c])) = Some (SFile b 365) → Q tt d') →
  wp (pm ← lstat_mode (in_tree (x ++ [c]));
      if Z.land pm 73 =? 0 then
        _ ← unlink_file (in_tree (x ++ [c])); _ ← copy env (croot ++ [POOL; sh b; hash b]) (in_tree (x ++ [c]));
        set_permissions (in_tree (x ++ [c])) 365
      else mret tt) Q E C d.
Proof.
  intros Hd Hb Hx Hc Hdir Hn Hp HC HQ. assert (x ++ [c] ≠ []) as Hne by by destruct x.
  assert (∀ d', built (λ q, in_tree (x ++ [c]) = q) d d' → ready d' (in_tree (x ++ [c]))) as Hready.
  { intros d' (Hd' & Hl' & _). apply ready_in_tree; [done|done|done|]. rewrite Hl'; [done| |apply in_tree_not_pool].
    apply child_ne. }
  assert (∀ d', built (λ q, in_tree (x ++ [c]) = q) d d' → ∀ d'' v, evolves [] d' d'' (in_tree (x ++ [c])) v →
    built (λ q, in_tree (x ++ [c]) = q) d d'' ∧ look d'' (in_tree (x ++ [c])) = v) as Hstep.
  { intros d' Hd' d'' v He. eapply built_step in He as [Hb2 Hl2]; [|apply Hd'|done|set_solver].
    split; [by eapply built_trans|done]. }
  assert (built (λ q, in_tree (x ++ [c]) = q) d d) as H0 by by apply built_refl.
  apply wp_seq. eapply wp_lstat_mode; [by apply Hready|done|]. simpl.
  apply wp_seq, wp_remove_file; [by apply Hready|by apply HC| |congruence|by eauto].
  intros _ _ _ d1 He1. assert (look d1 (croot ++ [POOL; sh b; hash b]) = Some (SFile b 292)) as Hp1.
  { destruct He1 as (_ & He1 & _). rewrite He1, decide_False; [done|apply pool_ne]. }
  apply Hstep in He1 as [Hb1 Hl1]; [|done].
  apply wp_seq. eapply wp_copy; [|done|by apply Hready|done|by apply HC| |].
  { apply ready_pool; [apply Hb1|done| |by apply hash_plain].
    apply (look_above d1 _ [hash b]); [apply Hb1|done|]. rewrite <- app_assoc. by eexists. }
  { intros d2 b' He2. apply Hstep in He2 as [Hb2 _]; [by apply HC|done]. }
  intros d2 He2 Hs2. apply Hstep in He2 as [Hb2 Hl2]; [|done].
  eapply wp_set_permissions; [by apply Hready|done|done|by apply HC|].
  intros d3 He3 _. apply Hstep in He3 as [Hb3 Hl3]; [by apply HQ|done].
Qed.

(** A file of the tree *)
Lemma wp_mat_file d b (mode : option Z) x c Q (E : _ → Disk → Prop) (C : Disk → Prop) :
  building d → U b → Forall plain x → plain c → look d (in_tree x) = Some SDir → look d (in_tree (x ++ [c])) = None →
  (∀ d', cache_ok d' → C d') →
  (∀ d', built (λ q, in_tree (x ++ [c]) = q) d d' →
     look d' (in_tree (x ++ [c])) =
       Some (SFile b (if match mode with Some m => negb (Z.land m 73 =? 0) | None => false end then 365 else 292)) → Q tt d') →
  (∀ e d', cache_ok d' → ¬ tmps_free d → E e d') →
  wp (mat_file hash pid env croot b mode (in_tree (x ++ [c]))) Q E C d.
Proof.
  intros Hd Hb Hx Hc Hdir Hn HC HQ HE.
  unfold mat_file. apply wp_seq, wp_file_for; [apply Hd|done|auto| |auto].
  intros d1 Hd1 Hs1 Hf1 Hp1. assert (built (λ q, in_tree (x ++ [c]) = q) d d1) as Hb1 by by apply pool_built.
  assert (look d1 (in_tree x) = Some SDir) as Hdir1 by (rewrite Hs1; [done|apply in_tree_not_pool]).
  assert (look d1 (in_tree (x ++ [c])) = None) as Hn1 by (rewrite Hs1; [done|apply in_tree_not_pool]).
  apply wp_seq, wp_attempt, wp_remove_file; [apply ready_in_tree; [apply Hb1|done..]|by apply HC|congruence| |by left].
  intros _. apply wp_link_or_copy; [apply Hb1|done..| |]; [intros d2 Hb2; apply HC, Hb2|].
  intros d2 Hb2 Hl2 Hp2. assert (built (λ q, in_tree (x ++ [c]) = q) d d2) as Hb12 by by eapply built_trans.
  assert (match mode with Some m => negb (Z.land m 73 =? 0) | None => false end = false → Q tt d2) as Hplain.
  { intros Hm. apply HQ; [done|]. by rewrite Hm. }
  destruct mode as [m|]; [|by apply wp_done, Hplain]. destruct (negb (Z.land m 73 =? 0)); [|by apply wp_done, Hplain].
  destruct Hb2 as (Hd2 & Hq2 & Hf2).
  apply wp_private_copy; [done|done|done|done| |done|done|intros d3 Hb3; apply HC, Hb3|].
  - rewrite Hq2; [done|apply child_ne|apply in_tree_not_pool].
  - intros d3 Hb3 Hl3. apply HQ; [by eapply built_trans|done].
Qed.

(** The tree below a directory, as the children of its node say *)
Abbreviation views kids := (forallb (λ '(_, c), view_node c) kids).
Definition node_spec (cs : btmap Name Node) (x : path) (d : Disk) (m : Run unit) : Prop :=
  wp m
    (λ _ d', built (λ q, ∃ k r, q = in_tree x ++ k :: r) d d' ∧ views cs = true ∧
       ∀ k r, look d' (in_tree x ++ k :: r) = bt_get k cs ≫= expected r)
    (λ _ d', cache_ok d' ∧ (tmps_free d → views cs = false)) cache_ok d.
Definition child_spec (ch : Node) (p : path) (d : Disk) (m : Run unit) : Prop :=
  wp m
    (λ _ d', built (λ q, p `prefix_of` q) d d' ∧ view_node ch = true ∧ ∀ r, look d' (p ++ r) = expected r ch)
    (λ _ d', cache_ok d' ∧ (tmps_free d → view_node ch = false)) cache_ok d.

Lemma view_unfold n :
  view_node n =
    negb (is_tombstone n) && negb (is_backdrop (anchor n) && is_keep (blob n) && negb (is_some (attrs n))) &&
    match blob n with
    | SetBlob b =>
        is_nil (children n)
        && (negb (is_link n)
            || bool_decide (GitLayer.from_utf8_lossy b ≠ []) && bool_decide (0 ∉ GitLayer.from_utf8_lossy b))
    | _ => views (children n)
    end.
Proof. by destruct n. Qed.

(** Below a file or a link there is nothing. *)
Lemma leaf_shows ch d' p :
  wf d' → is_nil (children ch) = true → look d' p = Some (node_shown ch) → node_shown ch ≠ SDir →
  ∀ r, look d' (p ++ r) = expected r ch.
Proof.
  intros Hwf Hnil Hp Hne [|k r]; [by rewrite app_nil_r|]. simpl. destruct (children ch); [|done]. simpl.
  destruct (look d' (p ++ k :: r)) eqn:Hk; [|done].
  assert (look d' p = Some SDir) by (apply (look_above d' p (k :: r)); [done|done|by eexists]). congruence.
Qed.

Lemma wp_mat_link d x c b Q (E : _ → Disk → Prop) (C : Disk → Prop) :
  building d → Forall plain x → plain c → look d (in_tree x) = Some SDir → look d (in_tree (x ++ [c])) = None →
  (∀ d', cache_ok d' → C d') →
  (∀ d', built (λ q, in_tree (x ++ [c]) = q) d d' →
     look d' (in_tree (x ++ [c])) = Some (SLink (GitLayer.from_utf8_lossy b)) →
     bool_decide (GitLayer.from_utf8_lossy b ≠ []) && bool_decide (0 ∉ GitLayer.from_utf8_lossy b) = true → Q tt d') →
  (∀ e, bool_decide (GitLayer.from_utf8_lossy b ≠ []) && bool_decide (0 ∉ GitLayer.from_utf8_lossy b) = false → E e d) →
  wp (mat_link b (in_tree (x ++ [c]))) Q E C d.
Proof.
  intros Hd Hx Hc Hdir Hn HC HQ HE. unfold mat_link. assert (ready d (in_tree (x ++ [c]))) as Hr by by apply ready_in_tree.
  apply wp_seq, wp_attempt, wp_remove_file; [done|apply HC, Hd|congruence| |by left]. intros _.
  destruct (decide (GitLayer.from_utf8_lossy b = [])) as [He|He].
  { unfold symlink. rewrite He. apply wp_raise, HE. by rewrite He. }
  destruct (decide (0 ∈ GitLayer.from_utf8_lossy b)) as [H0|H0].
  { unfold symlink. rewrite bool_decide_eq_true_2 by done. apply wp_raise, HE.
    rewrite (bool_decide_eq_false_2 (0 ∉ _)) by tauto. apply andb_false_r. }
  apply wp_symlink; [done|done|done|done|apply HC, Hd|]. intros d1 He1.
  eapply built_step in He1 as [Hb1 Hl1]; [apply HQ; [done|done|]|done|by destruct x|set_solver].
  by rewrite !bool_decide_eq_true_2.
Qed.

Lemma built_weaken (X X' : path → Prop) d d' : built X d d' → (∀ q, X q → X' q) → built X' d d'.
Proof. intros (Hb & Hq & Hf) Hx. split; [done|]. split; [|done]. intros q Hq'. apply Hq. auto. Qed.

(** A new directory is empty. *)
Lemma wp_new_dir d x c Q (E : _ → Disk → Prop) (C : Disk → Prop) fuel :
  building d → Forall plain x → plain c → look d (in_tree x) = Some SDir → look d (in_tree (x ++ [c])) = None →
  (∀ d', cache_ok d' → C d') →
  (∀ d1, built (λ q, in_tree (x ++ [c]) = q) d d1 → look d1 (in_tree (x ++ [c])) = Some SDir →
     (∀ k r, look d1 (in_tree (x ++ [c]) ++ k :: r) = None) → Q tt d1) →
  wp (create_dir_all fuel (in_tree (x ++ [c]))) Q E C d.
Proof.
  intros Hd Hx Hc Hdir Hn HC HQ. apply wp_create_dir_all; [by apply ready_in_tree|apply HC, Hd|]. left. split; [done|].
  intros d1 He1. pose proof He1 as (_ & Hq1 & _).
  eapply built_step in He1 as [Hb1 Hl1]; [|done|by right|set_solver]. apply HQ; [apply Hb1|done|].
  intros k r. rewrite Hq1, decide_False by (intros Heq; apply (f_equal length) in Heq; rewrite length_app in Heq; simpl in Heq; lia).
  destruct (look d (in_tree (x ++ [c]) ++ k :: r)) eqn:Hk; [|done].
  assert (look d (in_tree (x ++ [c])) = Some SDir); [|congruence].
  apply (look_above d _ (k :: r)); [apply Hd|done|by eexists].
Qed.

Lemma wp_mat_dir inner ch x c d fuel :
  building d → Forall plain x → plain c → look d (in_tree x) = Some SDir → look d (in_tree (x ++ [c])) = None →
  node_shown ch = SDir → view_node ch = views (children ch) →
  (∀ d1, building d1 → look d1 (in_tree (x ++ [c])) = Some SDir →
     (∀ k r, look d1 (in_tree (x ++ [c]) ++ k :: r) = None) →
     node_spec (children ch) (x ++ [c]) d1 (inner (in_tree (x ++ [c])))) →
  child_spec ch (in_tree (x ++ [c])) d (_ ← create_dir_all fuel (in_tree (x ++ [c])); inner (in_tree (x ++ [c]))).
Proof.
  intros Hd Hx Hc Hdir Hn Hs Hv Hin. unfold child_spec. rewrite Hv.
  apply wp_seq, wp_new_dir; [done..|]. intros d1 Hb1 Hl1 He1. eapply wp_conseq; [by apply Hin; [apply Hb1|..]| | |done].
  - intros _ d2 (Hb2 & Hvk & Hl2). split; [|split; [done|]].
    + eapply built_trans; [eapply built_weaken; [exact Hb1|]|exact Hb2|]; [by intros q <-|].
      intros q (k & r & ->). by exists (k :: r).
    + intros [|k r]; [|apply Hl2]. rewrite app_nil_r. simpl. rewrite Hs.
      destruct Hb2 as (_ & Hq2 & _). rewrite Hq2; [done| |apply in_tree_not_pool].
      intros (k & r & Heq). apply (f_equal length) in Heq. rewrite length_app in Heq. simpl in Heq. lia.
  - intros e d2 [Hd2 Hf2]. split; [done|]. intros Hf. apply Hf2. by apply Hb1.
Qed.

(** The last check of a blob node *)
Lemma wp_mat_end ch b d d1 p e :
  blob ch = SetBlob b → built (λ q, p = q) d d1 → look d1 p = Some (node_shown ch) →
  (is_nil (children ch) = true → view_node ch = true) → (view_node ch = true → is_nil (children ch) = true) →
  wp (if is_nil (children ch) then mret tt else raise e)
    (λ _ d', built (λ q, p `prefix_of` q) d d' ∧ view_node ch = true ∧ ∀ r, look d' (p ++ r) = expected r ch)
    (λ _ d', cache_ok d' ∧ (tmps_free d → view_node ch = false)) cache_ok d1.
Proof.
  intros Hb Hb1 Hl1 Hv Hv'. destruct (is_nil (children ch)) eqn:Hnil.
  - apply wp_done. split; [|split; [by apply Hv|]]; [eapply built_weaken; [done|]; by intros q <-|].
    apply leaf_shows; [apply Hb1|done|done|]. unfold node_shown. rewrite Hb. by destruct (is_link ch).
  - apply wp_raise. split; [apply Hb1|]. intros _. destruct (view_node ch); [by discriminate Hv'|done].
Qed.

Lemma wp_mat_child inner ch x c d :
  building d → Forall plain x → name_plain c → Forall U (contents ch) →
  look d (in_tree x) = Some SDir → look d (in_tree (x ++ [c])) = None →
  (∀ d1, building d1 → look d1 (in_tree (x ++ [c])) = Some SDir →
     (∀ k r, look d1 (in_tree (x ++ [c]) ++ k :: r) = None) →
     node_spec (children ch) (x ++ [c]) d1 (inner (in_tree (x ++ [c])))) →
  child_spec ch (in_tree (x ++ [c])) d (mat_child hash pid env croot inner c ch (in_tree x)).
Proof.
  intros Hd Hx [Hc Hutf] Hu Hdir Hn Hin. unfold mat_child.
  rewrite Hutf, join_plain, <- in_tree_app by done. pose proof (view_unfold ch) as Hv.
  destruct (is_tombstone ch); [apply wp_raise; split; [apply Hd|by rewrite Hv]|].
  destruct (is_backdrop _ && _ && _); [apply wp_raise; split; [apply Hd|by rewrite Hv]|]. simpl in Hv.
  destruct (blob ch) as [|b|] eqn:Hb;
    [apply wp_mat_dir; [done..|unfold node_shown; by rewrite Hb|done|done]| |
     apply wp_mat_dir; [done..|unfold node_shown; by rewrite Hb|done|done]].
  clear Hin. pose proof (contents_blob U ch b Hu Hb) as Hub. fold (is_link ch).
  apply wp_seq. destruct (is_link ch) eqn:Hlink.
  - apply wp_mat_link; [done|done|done|done|done|done| |].
    + intros d1 Hb1 Hl1 Ht. eapply wp_mat_end; [done|done|unfold node_shown; by rewrite Hb, Hlink| |]; rewrite Hv, Ht;
        destruct (is_nil _); done.
    + intros e Ht. split; [apply Hd|]. rewrite Hv, Ht. by rewrite andb_false_r.
  - apply wp_mat_file; [done|done|done|done|done|done|done| |].
    + intros d1 Hb1 Hl1. eapply wp_mat_end; [done|done|unfold node_shown, is_exec; by rewrite Hb, Hlink| |]; rewrite Hv;
        destruct (is_nil _); done.
    + intros e d1 Hd1 Hf. split; [done|]. by intros Hf'.
Qed.

Lemma wp_mat_kids (rec : Node → path → Run unit) x cs : ∀ d,
  Forall plain x → NoDup cs.*1 →
  (∀ k c, (k, c) ∈ cs → name_plain k ∧ Forall U (contents c) ∧
     ∀ d1, building d1 → look d1 (in_tree (x ++ [k])) = Some SDir →
       (∀ j r, look d1 (in_tree (x ++ [k]) ++ j :: r) = None) →
       node_spec (children c) (x ++ [k]) d1 (rec c (in_tree (x ++ [k])))) →
  building d → look d (in_tree x) = Some SDir → (∀ k r, k ∈ cs.*1 → look d (in_tree x ++ k :: r) = None) →
  wp (foldr (λ '(name, child) rest, _ ← mat_child hash pid env croot (rec child) name child (in_tree x); rest) (mret tt) cs)
    (λ _ d', built (λ q, ∃ k r, k ∈ cs.*1 ∧ q = in_tree x ++ k :: r) d d' ∧ views cs = true ∧
       ∀ k c r, (k, c) ∈ cs → look d' (in_tree x ++ k :: r) = expected r c)
    (λ _ d', cache_ok d' ∧ (tmps_free d → views cs = false)) cache_ok d.
Proof.
  induction cs as [|[k c] cs IH]; intros d Hx Hnd Hkids Hd Hdir Hnone; simpl.
  - apply wp_done. split; [by apply built_refl|]. split; [done|]. intros k c r Hin. by apply elem_of_nil in Hin.
  - apply NoDup_cons in Hnd as [Hk Hnd]. destruct (Hkids k c) as (Hname & Hu & Hrec); [left|].
    assert (∀ k r, in_tree x ++ k :: r = in_tree (x ++ [k]) ++ r) as Happ.
    { intros k' r. rewrite in_tree_app. by rewrite <- app_assoc. }
    apply wp_seq. eapply wp_conseq; [apply wp_mat_child; [done..| |done]| | |done].
    + rewrite in_tree_app. apply Hnone. left.
    + intros _ d1 (Hb1 & Hv1 & Hl1). pose proof Hb1 as (Hd1 & Hq1 & Hf1).
      assert (∀ j r, j ≠ k → look d1 (in_tree x ++ j :: r) = look d (in_tree x ++ j :: r)) as Hother.
      { intros j r Hj. apply Hq1; [|rewrite Happ, <- in_tree_app; apply in_tree_not_pool].
        rewrite in_tree_app. intros [z Hz]. rewrite <- app_assoc in Hz. simplify_list_eq. }
      eapply wp_conseq; [apply IH; [done|done| |done| |]| | |done].
      * intros j c' Hin. apply Hkids. by right.
      * rewrite Hq1; [done| |apply in_tree_not_pool]. rewrite in_tree_app. intros [z Hz].
        apply (f_equal length) in Hz. rewrite !length_app in Hz. simpl in Hz. lia.
      * intros j r Hj. rewrite Hother; [apply Hnone; by right|]. by intros ->.
      * intros _ d2 (Hb2 & Hv2 & Hl2). split; [|split; [by rewrite Hv1, Hv2|]].
        -- eapply built_trans; [eapply built_weaken; [exact Hb1|]|exact Hb2|].
           ++ intros q [z ->]. exists k, z. split; [left|by rewrite Happ].
           ++ intros q (j & r & Hj & ->). exists j, r. split; [by right|done].
        -- intros j c' r [[= -> ->]|Hin]%elem_of_cons; [|by apply Hl2]. rewrite <- Hl1, <- Happ.
           destruct Hb2 as (_ & Hq2 & _). apply Hq2; [|rewrite Happ, <- in_tree_app; apply in_tree_not_pool].
           intros (i & z & Hi & Heq). by simplify_list_eq.
      * intros e d2 [Hd2 Hf2]. split; [done|]. intros Hf. rewrite Hv1. simpl. apply Hf2. by apply Hf1.
    + intros e d1 [Hd1 Hf1]. split; [done|]. intros Hf. by rewrite (Hf1 Hf).
Qed.

Lemma mat_node_unfold n p :
  mat_node hash pid env croot n p =
  foldr (λ '(name, child) rest, _ ← mat_child hash pid env croot (mat_node hash pid env croot child) name child p; rest)
    (mret tt) (children n).
Proof. by destruct n. Qed.

Lemma wp_mat_node n : ∀ x d,
  wf_node n = true → named n = true → Forall U (contents n) → Forall plain x →
  building d → look d (in_tree x) = Some SDir → (∀ k r, look d (in_tree x ++ k :: r) = None) →
  node_spec (children n) x d (mat_node hash pid env croot n (in_tree x)).
Proof.
  induction n as [n IH] using node_ind'. intros x d Hwf Hn Hu Hx Hd Hdir Hnone.
  pose proof (wf_node_children _ Hwf) as Hok. rewrite mat_node_unfold. unfold node_spec.
  eapply wp_conseq; [apply wp_mat_kids; [done|by apply SlotsLaws.bt_keys_nodup| |done|done|by intros; apply Hnone]| |done|done].
  - intros k c Hin. pose proof (named_child n k c Hn Hin) as [Hk Hc]. pose proof (contents_child U n k c Hu Hin) as Huc.
    split; [done|split; [done|]]. intros d1 Hd1 Hl1 Hn1. apply (IH k c Hin); [|done|done| |done|done|done].
    + apply wf_node_unfold in Hwf as (_ & _ & Hall). by eapply Hall.
    + apply Forall_app. rewrite Forall_singleton. split; [done|apply Hk].
  - intros _ d' (Hb & Hv & Hs). split; [|split; [done|]].
    + eapply built_weaken; [done|]. intros q (k & r & _ & ->). eauto.
    + intros k r. destruct (bt_get k (children n)) as [c|] eqn:Hg; simpl.
      * apply (Hs k c). by apply bt_get_elem.
      * destruct Hb as (_ & Hq & _). rewrite Hq; [apply Hnone| |].
        -- intros (j & z & Hj & Heq). simplify_list_eq. apply list_elem_of_fmap in Hj as ([j' c] & -> & Hj).
           simpl in Hg. by rewrite (bt_elem_get _ _ _ Hok Hj) in Hg.
        -- rewrite <- in_tree_app. apply in_tree_not_pool.
Qed.

(** Removing the tree, wholly or in part *)
Lemma kept_building d d' : building d → kept_outside (in_tree []) d d' → built (λ q, in_tree [] `prefix_of` q) d d'.
Proof.
  intros [Hd Hm] (Hwf & Hq & Hn & Hs).
  assert (∀ x, ¬ in_tree [] `prefix_of` (croot ++ POOL :: x)) as Hpool.
  { intros x [z Hz]. unfold in_tree in Hz. rewrite <- app_assoc in Hz. simplify_list_eq. }
  assert (∀ k x, k ≠ key l → ¬ in_tree [] `prefix_of` (croot ++ TREES :: k :: x)) as Hother.
  { intros k x Hk [z Hz]. unfold in_tree in Hz. rewrite <- app_assoc in Hz. simplify_list_eq. }
  assert (∀ l', layer_ok U l' → marker l' ≠ key l) as Hmk by (intros l' Hl'; apply marker_ne_key; [apply Hl'|apply Hl]).
  split; [split|split].
  - constructor; [done| | |].
    + eapply zone_ext_blob; [|apply Hd]. intros x. by apply Hq.
    + destruct (co_tree _ Hd) as [H1 H2 H3]. constructor.
      * rewrite Hq; [done|]. unfold in_tree. intros [z Hz]. rewrite <- app_assoc in Hz. simplify_list_eq.
      * intros l' Hl'. destruct (Hn (croot ++ [TREES; key l'])) as [->| ->]; [by left|by apply H2].
      * intros l' Hl'. rewrite (Hq (croot ++ [TREES; marker l'])) by auto.
        destruct (H3 l' Hl') as [|(Hf & Hv & Hsh)]; [by left|right]. split_and!; [done|done|].
        intros r. rewrite Hq; [done|]. apply Hother. intros Hk. destruct Hf as (c & m & Hf). rewrite Hk in Hf. congruence.
    + intros b Hb. apply Hs. by apply Hd.
  - by rewrite Hq by auto.
  - intros q Hnp _. by apply Hq.
  - intros [Hf|Hf]; [by left|right]. intros b c m Hb. rewrite Hq by auto. by apply Hf.
Qed.

Lemma ready_tree_name d k : cache_ok d → plain k → ready d (croot ++ [TREES; k]).
Proof.
  intros Hd Hk. change [TREES; k] with ([TREES] ++ [k]). rewrite app_assoc.
  apply ready_snoc; [apply Hd| |done|apply (tz_root _ (co_tree _ Hd))].
  apply Forall_app. rewrite Forall_singleton. split; [done|apply tree_plain].
Qed.

(** Where the tree is absent, it is built from nothing. *)
Lemma wp_build d fuel (next : Run path) Q (E : _ → Disk → Prop) (C : Disk → Prop) :
  building d → look d (in_tree []) = None → (∀ d', cache_ok d' → C d') →
  (∀ d', built (λ q, in_tree [] `prefix_of` q) d d' → view_layer l = true →
     (∀ r, look d' (in_tree [] ++ r) = layer_shows l r) → wp next Q E C d') →
  (∀ e d', cache_ok d' → (tmps_free d → view_layer l = false) → E e d') →
  wp (_ ← create_dir_all fuel (in_tree []); _ ← mat_node hash pid env croot (root l) (in_tree []); next) Q E C d.
Proof.
  intros Hd Hn HC HQ HE. pose proof Hl as (Henc & Hname & _ & Hu). apply encodable_spec in Henc as (Hwf & _ & _).
  apply wp_seq, wp_create_dir_all; [apply ready_tree_name; [apply Hd|apply hash_plain, Hl]|apply HC, Hd|].
  left. split; [done|]. intros d1 He1. pose proof He1 as (_ & Hq1 & _).
  eapply built_step in He1 as [Hb1 Hl1]; [|done|by right|set_solver].
  apply wp_seq. eapply wp_conseq; [apply (wp_mat_node (root l) []); [done|done|done|done|apply Hb1|done|]| | |done].
  - intros k r. rewrite Hq1, decide_False by (intros Heq; apply (f_equal length) in Heq; rewrite length_app in Heq; simpl in Heq; lia).
    destruct (look d (in_tree [] ++ k :: r)) eqn:Hk; [|done].
    assert (look d (in_tree []) = Some SDir); [|congruence]. apply (look_above d _ (k :: r)); [apply Hd|done|by eexists].
  - intros _ d2 (Hb2 & Hv & Hs). apply HQ; [|done|].
    + eapply built_trans; [eapply built_weaken; [exact Hb1|]|exact Hb2|]; [by intros q <-|].
      intros q (k & r & ->). by exists (k :: r).
    + intros [|k r]; [|apply Hs]. rewrite app_nil_r. destruct Hb2 as (_ & Hq2 & _).
      rewrite Hq2; [done| |apply in_tree_not_pool]. intros (k & r & Heq). apply (f_equal length) in Heq.
      rewrite length_app in Heq. simpl in Heq. lia.
  - intros e d2 [Hd2 Hf]. apply HE; [done|]. intros ?. apply Hf. by apply Hb1.
Qed.

(** What a materialization may change: the tree, its marker and the pool *)
Definition elsewhere_kept (d d' : Disk) : Prop :=
  ∀ q, ¬ in_tree [] `prefix_of` q → q ≠ croot ++ [TREES; marker l] → ¬ (croot ++ [POOL]) `prefix_of` q → look d' q = look d q.

Lemma wp_mark d :
  building d → view_layer l = true → (∀ r, look d (in_tree [] ++ r) = layer_shows l r) →
  wp (write env (croot ++ [TREES; marker l]) [])
    (λ _ d', cache_ok d' ∧ (tmps_free d → tmps_free d') ∧ (∀ q, q ≠ croot ++ [TREES; marker l] → look d' q = look d q) ∧
       is_Some (look d' (croot ++ [TREES; marker l])))
    (λ _ _, False) cache_ok d.
Proof.
  intros [Hd Hm] Hv Hs.
  assert (∀ d' c m, evolves [] d d' (croot ++ [TREES; marker l]) (Some (SFile c m)) → cache_ok d') as Hstep.
  { intros d' c m He. eapply cache_tree_step; [done|done|set_solver|]. apply tz_set_done; [apply Hd|done|done|].
    intros r. specialize (Hs r). unfold in_tree in Hs. by rewrite <- app_assoc in Hs. }
  apply wp_write; [apply ready_tree_name; [done|apply marker_plain, Hl]| |done|by left|by intros; eapply Hstep| |congruence].
  - intros i q Hi. apply look_none in Hm; [|apply Hd]. rewrite entry_names in Hm by by destruct croot. congruence.
  - intros d' m He _. pose proof He as (_ & Hq & _). split_and!; [by eapply Hstep| | |].
    + intros [Hf|Hf]; [by left|right]. intros b c m' Hb. rewrite Hq, decide_False by (intros Heq; simplify_list_eq). by apply Hf.
    + intros q Hne. by rewrite Hq, decide_False.
    + rewrite Hq, decide_True by done. by eexists.
Qed.

(** The old tree is removed, a new one built, and then marked. *)
Lemma wp_rebuild d :
  building d →
  wp (there ← exists_ (in_tree []); _ ← (if there : bool then remove_dir_all (in_tree []) else mret tt);
      _ ← create_dir_all (length (in_tree [])) (in_tree []); _ ← mat_node hash pid env croot (root l) (in_tree []);
      _ ← write env (croot ++ [TREES; marker l]) []; mret (in_tree []))
    (λ p d', p = in_tree [] ∧ cache_ok d' ∧ view_layer l = true ∧ (∀ r, look d' (p ++ r) = layer_shows l r) ∧
       elsewhere_kept d d' ∧ (tmps_free d → tmps_free d') ∧ is_Some (look d' (croot ++ [TREES; marker l])))
    (λ _ d', cache_ok d' ∧ (tmps_free d → view_layer l = false)) cache_ok d.
Proof.
  intros Hd. assert (look d (in_tree []) = None ∨ look d (in_tree []) = Some SDir) as Hdst
    by apply (tz_dst _ (co_tree _ (proj1 Hd)) l Hl).
  assert (ready d (in_tree [])) as Hr by (apply ready_tree_name; [apply Hd|apply hash_plain, Hl]).
  assert (∀ d1, built (λ q, in_tree [] `prefix_of` q) d d1 → look d1 (in_tree []) = None →
    wp (_ ← create_dir_all (length (in_tree [])) (in_tree []); _ ← mat_node hash pid env croot (root l) (in_tree []);
        _ ← write env (croot ++ [TREES; marker l]) []; mret (in_tree []))
    (λ p d', p = in_tree [] ∧ cache_ok d' ∧ view_layer l = true ∧ (∀ r, look d' (p ++ r) = layer_shows l r) ∧
       elsewhere_kept d d' ∧ (tmps_free d → tmps_free d') ∧ is_Some (look d' (croot ++ [TREES; marker l])))
    (λ _ d', cache_ok d' ∧ (tmps_free d → view_layer l = false)) cache_ok d1) as Hgo.
  { intros d1 Hb1 Hn1. apply wp_build; [apply Hb1|done|done| |].
    - intros d2 Hb2 Hv Hs. assert (built (λ q, in_tree [] `prefix_of` q) d d2) as Hb by by eapply built_trans.
      apply wp_seq. eapply wp_conseq; [apply wp_mark; [apply Hb2|done|done]| |done|done].
      intros _ d3 (Hd3 & Hf3 & Hq3 & Hm3). apply wp_done. split; [done|split; [done|split; [done|split; [|split; [|split; [|done]]]]]].
      + intros r. rewrite Hq3; [done|]. unfold in_tree. rewrite <- app_assoc. intros Heq. simplify_list_eq.
        symmetry in H. revert H. apply marker_ne_key; apply Hl.
      + intros q H1 H2 H3. rewrite Hq3 by done. by apply Hb.
      + intros Hf. by apply Hf3, Hb.
    - intros e d2 Hd2 Hf. split; [done|]. intros ?. apply Hf. by apply Hb1. }
  apply wp_seq, wp_exists; [done|by destruct Hdst as [->| ->]|]. destruct Hdst as [Hn|Hs].
  - rewrite Hn, bool_decide_eq_false_2 by (by intros []). apply wp_seq, wp_done, Hgo; [by apply built_refl|done].
  - rewrite Hs, bool_decide_eq_true_2 by by eexists. apply wp_seq, wp_remove_dir_all; [done|done| |].
    + intros d1 Hk. by apply kept_building in Hk as [[? _] _].
    + intros d1 Hk Hnone. apply Hgo; [by apply kept_building|by apply Hnone].
Qed.

Lemma wp_materialize d :
  cache_ok d →
  wp (materialize hash pid env croot l)
    (λ p d', p = croot ++ [TREES; key l] ∧ cache_ok d' ∧ view_layer l = true ∧ (∀ r, look d' (p ++ r) = layer_shows l r) ∧
       elsewhere_kept d d' ∧ (tmps_free d → tmps_free d') ∧ is_Some (look d' (croot ++ [TREES; marker l])))
    (λ _ d', cache_ok d' ∧ (tmps_free d → view_layer l = false)) cache_ok d.
Proof.
  intros Hd. unfold materialize. rewrite dst_eq, done_eq by apply Hl.
  assert (ready d (croot ++ [TREES; marker l])) as Hr by (apply ready_tree_name; [done|apply marker_plain, Hl]).
  destruct (tz_done _ (co_tree _ Hd) l Hl) as [Hn|((c & m & Hf) & Hv & Hs)].
  - apply wp_seq, wp_exists; [done|by rewrite Hn|]. rewrite Hn, bool_decide_eq_false_2 by (by intros []).
    by apply wp_rebuild.
  - apply wp_seq, wp_exists; [done|by rewrite Hf|]. rewrite Hf, bool_decide_eq_true_2 by by eexists.
    apply wp_done. split; [done|split; [done|split; [done|split; [|split; [done|split; [done|by eexists]]]]]].
    intros r. rewrite <- app_assoc. apply Hs.
Qed.
(** Dropping the tree: the marker first, so that what is left is never taken
    for a tree. *)
Lemma wp_drop_tree d :
  cache_ok d →
  wp (drop_tree croot (key l))
    (λ _ d', cache_ok d' ∧ (elsewhere_kept d d' ∧ (tmps_free d → tmps_free d')) ∧ look d' (croot ++ [TREES; marker l]) = None ∧
       ∀ r, look d' (in_tree [] ++ r) = None)
    (λ _ _, False) cache_ok d.
Proof.
  intros Hd. unfold drop_tree. rewrite dst_eq, done_eq by apply Hl. change (croot ++ [TREES; key l]) with (in_tree []).
  assert (ready d (croot ++ [TREES; marker l])) as Hr by (apply ready_tree_name; [done|apply marker_plain, Hl]).
  assert (∀ d1, building d1 → elsewhere_kept d d1 ∧ (tmps_free d → tmps_free d1) →
    wp (there ← exists_ (in_tree []); if there : bool then remove_dir_all (in_tree []) else mret tt)
      (λ _ d', cache_ok d' ∧ (elsewhere_kept d d' ∧ (tmps_free d → tmps_free d')) ∧ look d' (croot ++ [TREES; marker l]) = None ∧
         ∀ r, look d' (in_tree [] ++ r) = None)
      (λ _ _, False) cache_ok d1) as Hgo.
  { intros d1 Hd1 [Hk1 Hf1]. assert (look d1 (in_tree []) = None ∨ look d1 (in_tree []) = Some SDir) as Hdst
      by apply (tz_dst _ (co_tree _ (proj1 Hd1)) l Hl).
    assert (ready d1 (in_tree [])) as Hr1 by (apply ready_tree_name; [apply Hd1|apply hash_plain, Hl]).
    apply wp_seq, wp_exists; [done|by destruct Hdst as [->| ->]|]. destruct Hdst as [Hn|Hs].
    - rewrite Hn, bool_decide_eq_false_2 by (by intros []). apply wp_done. split_and!; [apply Hd1|done|done|apply Hd1|].
      intros [|k r]; [by rewrite app_nil_r|]. destruct (look d1 (in_tree [] ++ k :: r)) eqn:Hk; [|done].
      assert (look d1 (in_tree []) = Some SDir); [|congruence]. apply (look_above d1 _ (k :: r)); [apply Hd1|done|by eexists].
    - rewrite Hs, bool_decide_eq_true_2 by by eexists. apply wp_remove_dir_all; [done|done| |].
      + intros d2 Hk. by apply kept_building in Hk as [[? _] _].
      + intros d2 Hk Hnone. pose proof (kept_building _ _ Hd1 Hk) as ([Hd2 Hm2] & Hq2 & Hf2). split_and!; [done| |auto|done|].
        * intros q H1 H2 H3. rewrite Hq2 by done. by apply Hk1.
        * intros r. apply Hnone. by apply prefix_app_r. }
  apply wp_seq, wp_attempt, wp_remove_file; [done|done| | |].
  - intros c m Hf d1 He. pose proof He as (_ & Hq & _). apply Hgo.
    + split; [|by eapply evolves_look]. eapply cache_tree_step; [done|done|set_solver|]. apply tz_del_done; [apply Hd|done].
    + split; [intros q _ Hne _; by rewrite Hq, decide_False|]. intros [Hf'|Hf']; [by left|right].
      intros b c' m' Hb. rewrite Hq, decide_False by (intros Heq; simplify_list_eq). by apply Hf'.
  - intros Hn. by apply Hgo.
  - destruct (tz_done _ (co_tree _ Hd) l Hl) as [Hn|((c & m & Hf) & _)]; [by left|right; by eauto].
Qed.
End building.

(** *** Eviction *)

Definition pool_path (p : path) : Prop := ∃ s x, p = croot ++ [POOL; s; x].

(** Names of the pool were removed, [n] of them, and none whose file is in use. *)
Record pruned (d d1 : Disk) (n : nat) : Prop := {
  pr_ok : cache_ok d1;
  pr_sub : names d1 ⊆ names d;
  pr_ino : inodes d1 = inodes d;
  pr_pool : ∀ p, ¬ pool_path p → names d1 !! p = names d !! p;
  pr_kept : ∀ p q i, names d !! p = Some (EFile i) → names d !! q = Some (EFile i) → ¬ pool_path q →
    names d1 !! p = names d !! p;
  pr_size : (size (names d1) + n = size (names d))%nat }.

Lemma pruned_refl d : cache_ok d → pruned d d 0.
Proof. by constructor; auto with lia. Qed.

Lemma pruned_step d d1 n s x i :
  pruned d d1 n → names d1 !! (croot ++ [POOL; s; x]) = Some (EFile i) → nlink d1 i = 1%nat →
  evolves [] d1 (del_name (croot ++ [POOL; s; x]) d1) (croot ++ [POOL; s; x]) None →
  pruned d (del_name (croot ++ [POOL; s; x]) d1) (S n).
Proof.
  intros [Hok Hsub Hino Hpool Hkept Hsize] Hi Hn He. apply (nlink_sole _ _ _ Hi) in Hn as Hs.
  assert (pool_path (croot ++ [POOL; s; x])) as Hpp by by eexists _, _. constructor.
  - eapply cache_blob_step; [done|done|set_solver|]. apply bz_del_file, Hok.
  - simpl. etrans; [apply delete_subseteq|done].
  - done.
  - intros p Hp. simpl. rewrite lookup_delete_ne by (by intros <-). auto.
  - intros p q j Hp Hq Hnq. simpl. destruct (decide (p = croot ++ [POOL; s; x])) as [->|]; [|rewrite lookup_delete_ne by done; eauto].
    exfalso. apply Hnq. assert (names d1 !! q = Some (EFile j)) as Hq1 by (rewrite Hpool; done).
    pose proof (lookup_weaken _ _ _ _ Hi Hsub) as Hp'. rewrite Hp in Hp'. injection Hp' as ->.
    by rewrite (Hs _ _ Hi Hq1).
  - simpl. rewrite map_size_delete, Hi. pose proof (map_size_ne_0_lookup_2 (names d1) (croot ++ [POOL; s; x]) ltac:(by eexists)).
    lia.
Qed.

Lemma sole_subset d d1 p : names d1 ⊆ names d → sole d p → sole d1 p.
Proof. intros Hsub Hs i q H1 H2. eapply Hs; by eapply lookup_weaken. Qed.

Lemma ready_file d s x :
  cache_ok d → plain s → look d (croot ++ [POOL; s]) = Some SDir → plain x → ready d ((croot ++ [POOL; s]) ++ [x]).
Proof.
  intros Hd Hs Hl Hx. apply ready_snoc; [apply Hd| |done|done].
  apply Forall_app. split; [done|]. constructor; [apply blob_plain|by constructor].
Qed.

Lemma pruned_dir d d1 n p : pruned d d1 n → ¬ pool_path p → look d1 p = look d p.
Proof.
  intros Hp Hn. unfold look. assert (entry d1 p = entry d p) as ->.
  { destruct p; [done|]. simpl. by apply Hp. }
  destruct (entry d p) as [[|i|t]|]; simpl; [done| |done|done]. by rewrite (pr_ino _ _ _ Hp).
Qed.

(** A listed file is removed when it has one name. *)
Lemma wp_evict_files d s fs : ∀ d1 n,
  plain s → look d (croot ++ [POOL; s]) = Some SDir → Forall plain fs → pruned d d1 n →
  wp (evict_files (croot ++ [POOL; s]) fs n)
    (λ n' d', pruned d d' n' ∧ names d' ⊆ names d1 ∧
       ∀ x, x ∈ fs → sole d (croot ++ [POOL; s; x]) → names d' !! (croot ++ [POOL; s; x]) = None)
    (λ _ _, False) cache_ok d1.
Proof.
  induction fs as [|f fs IH]; intros d1 n Hs Hdir Hfs Hp; simpl.
  { apply wp_done. split_and!; [done|done|]. intros x Hx. by apply elem_of_nil in Hx. }
  inversion Hfs as [|? ? Hf Hfs']; subst.
  assert (∀ y, (croot ++ [POOL; s]) ++ [y] = croot ++ [POOL; s; y]) as Happ by (intros; by rewrite <- app_assoc).
  assert (ready d1 (croot ++ [POOL; s; f])) as Hr.
  { rewrite <- Happ. apply ready_file; [apply Hp|done| |done]. rewrite (pruned_dir _ _ _ _ Hp); [done|].
    intros (s' & x & Heq). simplify_list_eq. }
  assert (∀ d2 n2, pruned d d2 n2 → names d2 ⊆ names d1 → (sole d (croot ++ [POOL; s; f]) → names d2 !! (croot ++ [POOL; s; f]) = None) →
    wp (evict_files (croot ++ [POOL; s]) fs n2)
      (λ n' d', pruned d d' n' ∧ names d' ⊆ names d1 ∧
         ∀ x, x ∈ f :: fs → sole d (croot ++ [POOL; s; x]) → names d' !! (croot ++ [POOL; s; x]) = None)
      (λ _ _, False) cache_ok d2) as Hgo.
  { intros d2 n2 Hp2 Hsub Hx2. eapply wp_conseq; [by apply IH| |done|done]. intros n3 d3 (Hp3 & Hsub3 & Hx3).
    split_and!; [done|by etrans|]. intros x [->|Hx]%elem_of_cons Hso; [|by apply Hx3]. by eapply lookup_weaken_None; [apply Hx2|]. }
  rewrite Happ. apply wp_seq, wp_attempt.
  destruct (bz_file _ (co_blob _ (pr_ok _ _ _ Hp)) s f) as [Hn|(c & m & Hl)].
  - apply wp_lstat_missing; [done|done|]. apply Hgo; [done|done|]. intros _. apply look_none in Hn; [|apply Hr].
    by rewrite (ready_entry _ _ Hr) in Hn.
  - apply look_file in Hl as (i & Hi & _). rewrite (ready_entry _ _ Hr) in Hi.
    eapply wp_lstat_links; [done|done|]. destruct (decide (nlink d1 i = 1%nat)) as [H1|H1].
    + rewrite H1. apply wp_seq, wp_attempt. eapply wp_unlink; [done|done|apply Hp|]. intros He.
      apply Hgo; [by eapply pruned_step|apply delete_subseteq|]. intros _. simpl. by rewrite lookup_delete_eq.
    + assert (sole d (croot ++ [POOL; s; f]) → names d1 !! (croot ++ [POOL; s; f]) = None) as Hnot.
      { intros Hso. destruct H1. apply (nlink_sole _ _ _ Hi). by eapply sole_subset; [apply Hp|]. }
      destruct (nlink d1 i) as [|[|k]]; [by apply Hgo|done|by apply Hgo].
Qed.

Lemma wp_is_dir_missing d p Q (E : _ → Disk → Prop) (C : Disk → Prop) :
  ready d p → look d p = None → Q false d → wp (is_dir p) Q E C d.
Proof.
  intros Hr Hl HQ. unfold is_dir. apply wp_seq, wp_get, wp_done. rewrite resolve_ready by naive_solver.
  rewrite (proj1 (look_none d p (proj1 Hr)) Hl). by rewrite bool_decide_eq_false_2.
Qed.

Lemma wp_evict_shards d ss : ∀ d1 n,
  Forall plain ss → pruned d d1 n →
  wp (evict_shards (croot ++ [POOL]) ss n)
    (λ n' d', pruned d d' n' ∧ names d' ⊆ names d1 ∧
       ∀ s x, s ∈ ss → sole d (croot ++ [POOL; s; x]) → names d' !! (croot ++ [POOL; s; x]) = None)
    (λ _ _, False) cache_ok d1.
Proof.
  induction ss as [|s ss IH]; intros d1 n Hss Hp; simpl.
  { apply wp_done. split_and!; [done|done|]. intros s x Hs. by apply elem_of_nil in Hs. }
  inversion Hss as [|? ? Hs Hss']; subst.
  assert (∀ y, (croot ++ [POOL]) ++ y = croot ++ POOL :: y) as Happ by (intros; by rewrite <- app_assoc). rewrite Happ.
  assert (ready d1 (croot ++ [POOL; s])) as Hr.
  { rewrite <- Happ. apply ready_snoc; [apply Hp| |done|apply (bz_root _ (co_blob _ (pr_ok _ _ _ Hp)))].
    apply Forall_app. rewrite Forall_singleton. split; [done|apply blob_plain]. }
  assert (∀ d2 n2, pruned d d2 n2 → names d2 ⊆ names d1 →
    (∀ x, sole d (croot ++ [POOL; s; x]) → names d2 !! (croot ++ [POOL; s; x]) = None) →
    wp (evict_shards (croot ++ [POOL]) ss n2)
      (λ n' d', pruned d d' n' ∧ names d' ⊆ names d1 ∧
         ∀ s' x, s' ∈ s :: ss → sole d (croot ++ [POOL; s'; x]) → names d' !! (croot ++ [POOL; s'; x]) = None)
      (λ _ _, False) cache_ok d2) as Hgo.
  { intros d2 n2 Hp2 Hsub Hx2. eapply wp_conseq; [by apply IH| |done|done]. intros n3 d3 (Hp3 & Hsub3 & Hx3).
    split_and!; [done|by etrans|]. intros s' x [->|Hin]%elem_of_cons Hso; [|by apply Hx3].
    by eapply lookup_weaken_None; [apply Hx2|]. }
  assert (∀ y, (croot ++ [POOL; s]) ++ [y] = croot ++ [POOL; s; y]) as Happ2 by (intros; by rewrite <- app_assoc).
  destruct (bz_shard _ (co_blob _ (pr_ok _ _ _ Hp)) s) as [Hn|Hd].
  - apply wp_seq, wp_is_dir_missing; [done|done|]. apply wp_seq, wp_done, Hgo; [done|done|]. intros x _.
    destruct (names d1 !! _) eqn:Hx; [|done]. apply (wf_name d1) in Hx as [_ Hx]; [|apply Hr].
    rewrite <- Happ2, removelast_last in Hx. apply look_dir in Hx. congruence.
  - apply wp_seq, wp_is_dir; [done|done|]. apply wp_seq, wp_seq, wp_read_dir; [done|done|].
    eapply wp_conseq; [apply (wp_evict_files d); [done| | |done]| |done|done].
    + rewrite <- (pruned_dir _ _ _ _ Hp); [done|]. intros (s' & x & Heq). simplify_list_eq.
    + apply Forall_forall. intros x [e He]%elem_of_kids. destruct (proj2 (co_wf _ (pr_ok _ _ _ Hp)) _ _ He) as (q & c & Heq & Hc & _).
      by apply app_inj_tail in Heq as [_ ->].
    + intros n2 d2 (Hp2 & Hsub2 & Hx2). apply Hgo; [done|done|]. intros x Hso.
      destruct (decide (x ∈ kids d1 (croot ++ [POOL; s]))) as [Hin|Hin]; [by apply Hx2|].
      rewrite elem_of_kids, Happ2 in Hin. eapply lookup_weaken_None; [|exact Hsub2]. apply eq_None_not_Some, Hin.
Qed.

Lemma wp_evict d :
  cache_ok d →
  wp (evict_unreferenced croot)
    (λ n d', pruned d d' n ∧ ∀ s x, sole d (croot ++ [POOL; s; x]) → names d' !! (croot ++ [POOL; s; x]) = None)
    (λ _ _, False) cache_ok d.
Proof.
  intros Hd. unfold evict_unreferenced. rewrite (join_plain _ POOL) by apply blob_plain.
  assert (look d (croot ++ [POOL]) = Some SDir) as Hdir by apply (bz_root _ (co_blob _ Hd)).
  assert (∀ y, (croot ++ [POOL]) ++ [y] = croot ++ [POOL; y]) as Happ by (intros; by rewrite <- app_assoc).
  assert (ready d (croot ++ [POOL])) as Hr.
  { apply ready_snoc; [apply Hd|done|apply blob_plain|]. apply (look_above d croot [POOL]); [apply Hd|done|by eexists]. }
  apply wp_seq, wp_read_dir; [done|done|].
  eapply wp_conseq; [apply (wp_evict_shards d); [|by apply pruned_refl]| |done|done].
  - apply Forall_forall. intros x [e He]%elem_of_kids. destruct (proj2 (co_wf _ Hd) _ _ He) as (q & c & Heq & Hc & _).
    by apply app_inj_tail in Heq as [_ ->].
  - intros n d' (Hp & Hsub & Hx). split; [done|]. intros s x Hso.
    destruct (decide (s ∈ kids d (croot ++ [POOL]))) as [Hin|Hin]; [by apply Hx|].
    destruct (names d' !! (croot ++ [POOL; s; x])) as [e|] eqn:He; [|done]. exfalso. apply Hin, elem_of_kids.
    eapply lookup_weaken in He; [|exact Hsub]. apply (wf_name d) in He as [_ He]; [|apply Hd].
    rewrite Happ. replace (croot ++ [POOL; s; x]) with ((croot ++ [POOL; s]) ++ [x]) in He by by rewrite <- app_assoc.
    rewrite removelast_last, entry_names in He by by destruct croot. by eexists.
Qed.

(** What lies beside the names of the pool stays or goes. *)
Lemma pruned_free d d1 n : pruned d d1 n → tmps_free d → tmps_free d1.
Proof.
  intros Hp [Hf|Hf]; [by left|right]. intros b c m Hb Hl. apply (Hf b c m Hb). apply look_file in Hl as (i & Hi & Hn).
  unfold look. rewrite entry_names in Hi |- * by by destruct croot. rewrite (lookup_weaken _ _ _ _ Hi (pr_sub _ _ _ Hp)).
  simpl. by rewrite <- (pr_ino _ _ _ Hp), Hn.
Qed.

(** *** Opening *)

Lemma wp_cache_open d :
  wf d → look d croot = Some SDir → croot ≠ [] → (∀ k r, look d (croot ++ k :: r) = None) →
  wp (cache_open croot) (λ _ d', cache_ok d' ∧ (∀ q, ¬ croot `prefix_of` q → look d' q = look d q) ∧
    ∀ s x, look d' (croot ++ [POOL; s; x]) = None) (λ _ _, False) wf d.
Proof.
  intros Hwf Hdir Hne Hnone. unfold cache_open. rewrite (join_plain _ POOL) by apply blob_plain.
  rewrite (join_plain _ TREES) by apply tree_plain.
  apply wp_seq, wp_create_dir_all; [apply ready_snoc; [done|done|apply blob_plain|done]|done|].
  left. split; [apply Hnone|]. intros d1 (Hwf1 & Hq1 & Hs1).
  apply wp_create_dir_all; [apply ready_snoc; [done|done|apply tree_plain|]|done|].
  { rewrite Hq1, decide_False; [done|]. intros Heq. apply (f_equal length) in Heq. rewrite length_app in Heq. simpl in Heq. lia. }
  left. split; [rewrite Hq1, decide_False; [apply Hnone|intros Heq; simplify_list_eq]|]. intros d2 (Hwf2 & Hq2 & Hs2).
  assert (∀ k r, look d2 (croot ++ k :: r) = if decide (k :: r = [TREES] ∨ k :: r = [POOL]) then Some SDir else None) as Hlook.
  { intros k r. rewrite Hq2. case_decide as E1; [apply app_inv_head in E1; by rewrite decide_True by by left|].
    rewrite Hq1. case_decide as E2; [apply app_inv_head in E2; by rewrite decide_True by by right|].
    rewrite Hnone, decide_False; [done|]. intros [Hk|Hk]; by rewrite Hk in *. }
  split; [constructor; [done| | |]|].
  - constructor; [by rewrite Hlook, decide_True by tauto|intros; left; by rewrite Hlook, decide_False by (intros [?|?]; discriminate)..].
  - constructor; [by rewrite Hlook, decide_True by tauto|intros; left; by rewrite Hlook, decide_False by (intros [?|?]; discriminate)..].
  - intros b Hb i q Hi. assert (look d2 (croot ++ [POOL; sh b; TMP]) = None) as Hn by (by rewrite Hlook, decide_False by (intros [?|?]; discriminate)).
    apply look_none in Hn; [|done]. rewrite entry_names in Hn by by destruct croot. congruence.
  - split; [|intros s x; by rewrite Hlook, decide_False by (intros [?|?]; discriminate)].
    intros q Hq. rewrite Hq2, Hq1. rewrite !decide_False; [done| |]; intros ->; apply Hq; by eexists.
Qed.
End laws.

(** ** Histories of a cache *)

Inductive CacheOp : Type := OFile (b : bytes) | OMaterialize (l : Layer) | ODrop (l : Layer) | OEvict.
Definition op_ok (U : bytes → Prop) (o : CacheOp) : Prop :=
  match o with OFile b => U b | OMaterialize l | ODrop l => layer_ok U l | OEvict => True end.

(** The disk an operation leaves, stopped where its budget ends *)
Definition cache_op hash pid env croot (o : CacheOp) (budget : option nat) (d : Disk) : Disk :=
  match o with
  | OFile b => (run (file_for hash pid env croot b) budget d).1
  | OMaterialize l => (run (materialize hash pid env croot l) budget d).1
  | ODrop l => (run (drop_tree croot (tree_key hash l)) budget d).1
  | OEvict => (run (evict_unreferenced croot) budget d).1
  end.
Definition history hash pid env croot (ops : list (CacheOp * option nat)) (d : Disk) : Disk :=
  foldl (λ d '(o, budget), cache_op hash pid env croot o budget d) d ops.

(** What the laws ask of a set-up: the hash on the contents that occur, the
    paths, and a directory for the cache with nothing in it *)
Record fresh_cache (hash : bytes → list Z) (pid : list Z) (croot : path) (U : bytes → Prop) (d : Disk) : Prop := {
  fc_hash : hash_ok hash U;
  fc_root : Forall plain croot;
  fc_pid : Forall is_digit pid;
  fc_wf : wf d;
  fc_dir : croot ≠ [] ∧ look d croot = Some SDir;
  fc_empty : ∀ k r, look d (croot ++ k :: r) = None }.

Lemma wp_left {A} (m : Run A) Q E (C P : Disk → Prop) d b :
  wp m Q E C d → (∀ a d, Q a d → P d) → (∀ e d, E e d → P d) → (∀ d, C d → P d) → P (run m b d).1.
Proof.
  intros Hm HQ HE HC. pose proof (wp_run m Q E C d b Hm) as Hr. destruct (run m b d) as [d' [a|e|]]; naive_solver.
Qed.

(** Without a budget, and without errors, a run returns. *)
Lemma wp_returns {A} (m : Run A) Q E C d :
  wp m Q E C d → (∀ e d, E e d → False) → ∃ d' a, run m None d = (d', Done a) ∧ Q a d'.
Proof.
  intros Hm HE. pose proof (wp_run m Q E C d None Hm) as Hr. destruct (run m None d) as [d' [a|e|]]; naive_solver.
Qed.

Section histories.
Context (hash : bytes → list Z) (pid : list Z) (env : Env) (croot : path) (U : bytes → Prop).

Lemma cache_op_ok d o budget :
  hash_ok hash U → Forall plain croot → Forall is_digit pid → op_ok U o →
  cache_ok hash pid croot U d → cache_ok hash pid croot U (cache_op hash pid env croot o budget d).
Proof.
  intros Hh Hr Hp Ho Hd. destruct o as [b|l|l|]; simpl.
  - eapply (wp_left _ (λ _, cache_ok hash pid croot U) (λ _, cache_ok hash pid croot U)); [|done..].
    eapply wp_file_for; [done|done|done|done|done|by intros..].
  - eapply wp_left; [by eapply wp_materialize| | |done]; [intros a d' (_ & ? & _)|intros e d' [? _]]; done.
  - eapply wp_left; [by eapply (wp_drop_tree hash pid env)| |done|done]. by intros a d' (? & _).
  - eapply wp_left; [by eapply (wp_evict hash pid)| |done|done]. intros a d' [Hp' _]. apply Hp'.
Qed.

Lemma history_ok ops : ∀ d,
  hash_ok hash U → Forall plain croot → Forall is_digit pid → (∀ o b, (o, b) ∈ ops → op_ok U o) →
  cache_ok hash pid croot U d → cache_ok hash pid croot U (history hash pid env croot ops d).
Proof.
  induction ops as [|[o b] ops IH]; intros d Hh Hr Hp Ho Hd; [done|]. simpl. apply IH; [done|done|done| |].
  - intros o' b' Hin. apply (Ho o' b'). by right.
  - apply cache_op_ok; [done|done|done|apply (Ho o b); left|done].
Qed.

Lemma open_history_ok ops d :
  fresh_cache hash pid croot U d → (∀ o b, (o, b) ∈ ops → op_ok U o) →
  cache_ok hash pid croot U (history hash pid env croot ops (run (cache_open croot) None d).1).
Proof.
  intros [Hh Hr Hp Hwf [Hne Hdir] Hemp] Ho. apply history_ok; [done..|].
  destruct (wp_returns (cache_open croot) _ _ _ d (wp_cache_open hash pid croot U Hr d Hwf Hdir Hne Hemp)) as (d' & a & -> & Hd' & _);
    done.
Qed.

(** An operation that ran to its end, on a view where it materializes *)
Definition finished (o : CacheOp) (budget : option nat) : Prop :=
  budget = None ∧ match o with OMaterialize l => view_layer l = true | _ => True end.

Abbreviation usable d := (cache_ok hash pid croot U d ∧ tmps_free hash pid env croot U d).

Lemma finished_free d o budget :
  hash_ok hash U → Forall plain croot → Forall is_digit pid → op_ok U o → finished o budget →
  usable d → usable (cache_op hash pid env croot o budget d).
Proof.
  intros Hh Hr Hp Ho [-> Hv] [Hd Hf]. destruct o as [b|l|l|]; simpl.
  - assert (wp (file_for hash pid env croot b) (λ _ d', usable d') (λ _ _, False) (λ _, True) d) as Hw.
    { eapply wp_file_for; [done|done|done|done|done|done|auto|by intros]. }
    apply wp_returns in Hw as (d' & a & -> & Hq); [done|done].
  - pose proof (wp_materialize hash pid env croot U Hh Hr Hp l Ho d Hd) as Hw.
    apply wp_returns in Hw as (d' & a & -> & _ & ? & _ & _ & _ & Hq & _); [auto|].
    intros e d' [_ Hx]. rewrite Hx in Hv; done.
  - pose proof (wp_drop_tree hash pid env croot U Hh Hr Hp l Ho d Hd) as Hw.
    apply wp_returns in Hw as (d' & a & -> & ? & [_ Hq] & _); [auto|done].
  - pose proof (wp_evict hash pid croot U Hh Hr Hp d Hd) as Hw.
    apply wp_returns in Hw as (d' & a & -> & Hq & _); [|done]. split; [apply Hq|by eapply pruned_free].
Qed.

Lemma history_free ops : ∀ d,
  hash_ok hash U → Forall plain croot → Forall is_digit pid →
  (∀ o b, (o, b) ∈ ops → op_ok U o) → (∀ o b, (o, b) ∈ ops → finished o b) →
  usable d → usable (history hash pid env croot ops d).
Proof.
  induction ops as [|[o b] ops IH]; intros d Hh Hr Hp Ho Hfin Hd; [done|]. simpl. apply IH; [done..| | |].
  - intros o' b' Hin. apply (Ho o' b'). by right.
  - intros o' b' Hin. apply Hfin. by right.
  - apply finished_free; [done..|apply (Ho o b); left|apply Hfin; left|done].
Qed.

Lemma open_history_free ops d :
  fresh_cache hash pid croot U d → (∀ o b, (o, b) ∈ ops → op_ok U o) → (∀ o b, (o, b) ∈ ops → finished o b) →
  tmps_free hash pid env croot U (history hash pid env croot ops (run (cache_open croot) None d).1).
Proof.
  intros [Hh Hr Hp Hwf [Hne Hdir] Hemp] Ho Hfin. apply history_free; [done..|].
  destruct (wp_returns (cache_open croot) _ _ _ d (wp_cache_open hash pid croot U Hr d Hwf Hdir Hne Hemp)) as (d' & a & -> & Hd' & _ & Hn);
    [done|]. split; [done|]. right. intros b c m _. simpl. by rewrite Hn.
Qed.
End histories.

(** ** The promises of the cache *)

(** C25. A cache opened on an empty directory and used one operation at a time,
    every operation stopped at any step of the file system or ended by an error,
    and not cleaned up; the layers have UTF-8 names that are single components
    and the contents that occur have different hashes.  Whatever the environment,
    materializing a view returns, if it returns a path, the path of a tree that
    shows exactly the layer at every path, whatever was left at its place; and
    every tree on the disk that has its marker, of whatever layer, shows that
    layer.  It does return where the process is privileged, or where every
    operation before it ran to its end, on views, or more generally where no
    read-only file is left at a temporary name of the pool.  (Without privileges
    such a file makes it fail with [EACCES]: [stale_tmp_refused].  Threads of one
    process can cross contents, and names that are not UTF-8 can collide:
    [threads_cross_contents], [lossy_names_collide].) *)
Theorem materialize_exact hash pid env croot U d ops l :
  fresh_cache hash pid croot U d → (∀ o b, (o, b) ∈ ops → op_ok U o) →
  layer_ok U l → view_layer l = true →
  let tree l := croot ++ [str "tree"; tree_key hash l] in
  let d1 := history hash pid env croot ops (run (cache_open croot) None d).1 in
  let '(d', out) := run (materialize hash pid env croot l) None d1 in
  (∀ p, out = Done p → p = tree l ∧ ∀ r, look d' (tree l ++ r) = layer_shows l r) ∧
  (∀ l', layer_ok U l' → look d' (croot ++ [str "tree"; tree_key hash l' ++ str ".ok"]) ≠ None →
     ∀ r, look d' (tree l' ++ r) = layer_shows l' r) ∧
  (privileged env = true ∨ (∀ o b, (o, b) ∈ ops → finished o b) ∨ tmps_free hash pid env croot U d1 →
     out = Done (tree l)).
Proof.
  intros Hf Ho Hl Hv tree d1. pose proof (open_history_ok hash pid env croot U ops d Hf Ho) as Hd.
  pose proof (open_history_free hash pid env croot U ops d Hf Ho) as Hfin. fold d1 in Hd, Hfin.
  destruct Hf as [Hh Hr Hpid _ _ _].
  pose proof (wp_run _ _ _ _ _ None (wp_materialize hash pid env croot U Hh Hr Hpid l Hl d1 Hd)) as Hrun.
  assert (∀ d' l', cache_ok hash pid croot U d' → layer_ok U l' →
    look d' (croot ++ [str "tree"; tree_key hash l' ++ str ".ok"]) ≠ None → ∀ r, look d' (tree l' ++ r) = layer_shows l' r) as Hmarked.
  { intros d' l' Hd' Hl' Hm r. unfold tree. rewrite <- app_assoc.
    destruct (tz_done _ _ _ (co_tree _ _ _ _ _ Hd') l' Hl') as [Hn|(_ & _ & Hs)]; [done|apply Hs]. }
  assert (privileged env = true ∨ (∀ o b, (o, b) ∈ ops → finished o b) ∨ tmps_free hash pid env croot U d1 →
    tmps_free hash pid env croot U d1) as Hfree by (intros [?|[?|?]]; [by left|by apply Hfin|done]).
  destruct (run (materialize hash pid env croot l) None d1) as [d' [p|e|]].
  - destruct Hrun as (-> & Hd' & _ & Hs & _). split_and!; [|by intros; apply Hmarked|done].
    by intros p [= <-].
  - destruct Hrun as [Hd' Hx]. split_and!; [done|by intros; apply Hmarked|].
    intros Hok%Hfree. rewrite Hx in Hv; done.
  - by destruct Hrun as [Hb _].
Qed.

(** C26. Eviction always ends. It removes names of the pool only, every one whose
    file has no other name and none whose file a tree holds, and returns how
    many it removed; so every tree shows what it did. *)
Theorem eviction_spares_trees hash pid env croot U d ops d1 :
  fresh_cache hash pid croot U d → (∀ o b, (o, b) ∈ ops → op_ok U o) →
  d1 = history hash pid env croot ops (run (cache_open croot) None d).1 →
  ∃ d' n, run (evict_unreferenced croot) None d1 = (d', Done n) ∧
    (∀ q, ¬ pool_path croot q → look d' q = look d1 q) ∧
    (∀ p q i, names d1 !! p = Some (EFile i) → names d1 !! q = Some (EFile i) → ¬ pool_path croot q → look d' p = look d1 p) ∧
    (∀ s x, sole d1 (croot ++ [str "blob"; s; x]) → look d' (croot ++ [str "blob"; s; x]) = None) ∧
    (size (names d') + n = size (names d1))%nat.
Proof.
  intros Hf Ho ->. pose proof (open_history_ok hash pid env croot U ops d Hf Ho) as Hd. destruct Hf as [Hh Hr Hpid _ _ _].
  destruct (wp_returns _ _ _ _ _ (wp_evict hash pid croot U Hh Hr Hpid _ Hd)) as (d' & n & Hrun & Hp & Hx); [done|].
  exists d', n. split_and!; [done| | | |apply Hp].
  - intros q Hq. by eapply pruned_dir.
  - intros p q i H1 H2 Hq. pose proof (pr_kept _ _ _ _ _ _ _ Hp p q i H1 H2 Hq) as Hk.
    assert (p ≠ []) as Hne by by apply (wf_name _ p (EFile i) (co_wf _ _ _ _ _ Hd)).
    unfold look. rewrite !entry_names, Hk by done. destruct (names _ !! p) as [[|j|t]|]; simpl; [done| |done|done].
    by rewrite (pr_ino _ _ _ _ _ _ _ Hp).
  - intros s x Hs. apply look_none; [apply Hp|]. rewrite entry_names by by destruct croot. by apply Hx.
Qed.

(** What is not a view is refused. *)
Theorem not_a_view_refused hash pid env croot U d ops l budget :
  fresh_cache hash pid croot U d → (∀ o b, (o, b) ∈ ops → op_ok U o) → layer_ok U l → view_layer l = false →
  ∀ p, (run (materialize hash pid env croot l) budget (history hash pid env croot ops (run (cache_open croot) None d).1)).2 ≠ Done p.
Proof.
  intros Hf Ho Hl Hv p. pose proof (open_history_ok hash pid env croot U ops d Hf Ho) as Hd. destruct Hf as [Hh Hr Hpid _ _ _].
  pose proof (wp_run _ _ _ _ _ budget (wp_materialize hash pid env croot U Hh Hr Hpid l Hl _ Hd)) as Hrun.
  destruct (run (materialize _ _ _ _ _) _ _) as [d' [a|e|]]; [|done|done]. destruct Hrun as (_ & _ & Hv' & _). congruence.
Qed.

(** ** A cache at work *)

Module Toy.
(** A stand-in for the hash: the digits of the bytes read as a number *)
Fixpoint hex_digits (n : nat) (v : Z) : list Z :=
  match n with O => [] | S n => (if v mod 16 <? 10 then 48 + v mod 16 else 87 + v mod 16) :: hex_digits n (v / 16) end.
Definition hash (b : bytes) : list Z := hex_digits 64 (foldr (λ x a, 1 + x + 257 * a) 0 b mod 16 ^ 64).
Definition pid : list Z := str "7".
Definition croot : path := [str "cache"].
Definition disk : Disk := MkDisk {[ croot := EDir ]} [].

Definition file (c mode : string) : Node := MkNode Live (SetBlob (str c)) false (Some [(str "mode", str mode)]) Lower [].
Definition dir (cs : btmap Name Node) : Node := MkNode Live Keep false (Some [(str "mode", str "16877")]) Lower cs.
Definition view : Layer := MkLayer (MkNode Live Keep false None Lower
  [(str "d", dir [(str "same", file "SHARED" "33188"); (str "tool", file "#!/bin/sh" "33261")]);
   (str "link", file "d/tool" "41471"); (str "top", file "SHARED" "33188")]).

(** The contents that occur *)
Definition used : list bytes := encode view :: contents (root view).
Definition U (b : bytes) : Prop := b ∈ used.
Definition root_env : Env := MkEnv true true 5.
Definition user_env : Env := MkEnv false true 5.

(** A materialization stopped after nine steps, a whole one, its removal
    stopped after two, an eviction *)
Definition ops : list (CacheOp * option nat) :=
  [(OMaterialize view, Some 9%nat); (OMaterialize view, None); (ODrop view, Some 2%nat); (OEvict, None)].

Lemma hash_fine : hash_ok hash U.
Proof.
  assert (Forall (λ b, length (hash b) = 64%nat ∧ Forall (λ c, 48 ≤ c ≤ 57 ∨ 97 ≤ c ≤ 102) (hash b)) used) as Hall
    by (apply (bool_decide_unpack _); vm_compute; exact I).
  assert (Forall (λ a, Forall (λ b, hash a ≠ hash b ∨ a = b) used) used) as Hinj
    by (apply (bool_decide_unpack _); vm_compute; exact I).
  rewrite Forall_forall in Hall, Hinj. constructor.
  - intros b Hb. by apply Hall.
  - intros b Hb. by apply Hall.
  - intros a b Ha Hb Heq. specialize (Hinj a Ha). rewrite Forall_forall in Hinj. by destruct (Hinj b Hb).
Qed.

Lemma disk_look q : look disk q = if decide (q = [] ∨ q = croot) then Some SDir else None.
Proof.
  unfold look. destruct q as [|c q]; [done|]. unfold entry, disk. cbn [names].
  destruct (decide (croot = c :: q)) as [<-|Hne].
  - rewrite lookup_singleton_eq. by rewrite decide_True by by right.
  - rewrite lookup_singleton_ne by done. rewrite decide_False; [done|]. intros [?|?]; by subst.
Qed.

Lemma fresh : fresh_cache hash pid croot U disk.
Proof.
  constructor; [apply hash_fine| | | |split; [done|by rewrite disk_look]|].
  - by apply (bool_decide_unpack (Forall plain croot)).
  - by apply (bool_decide_unpack (Forall (λ c, 48 ≤ c ≤ 57) pid)).
  - split; intros p e; unfold disk; cbn [names]; rewrite lookup_singleton_Some; [by intros [_ ?]|].
    intros [<- _]. exists [], (str "cache"). split_and!; [done|by apply (bool_decide_unpack (plain (str "cache")))|done].
  - intros k r. by rewrite disk_look, decide_False by (by intros [?|?]).
Qed.

Lemma view_fine : layer_ok U view.
Proof.
  split_and!; [by vm_compute|by vm_compute|left|]. apply Forall_forall. intros b Hb. by right.
Qed.
Lemma ops_fine o b : (o, b) ∈ ops → op_ok U o.
Proof.
  intros Hin. repeat (apply elem_of_cons in Hin as [[= -> ->]|Hin]; [apply view_fine || exact I|]).
  by apply elem_of_nil in Hin.
Qed.

(** Operations that ran to their end *)
Definition calm : list (CacheOp * option nat) :=
  [(OFile (str "SHARED"), None); (OMaterialize view, None); (ODrop view, None); (OEvict, None)].
Lemma calm_fine o b : (o, b) ∈ calm → op_ok U o ∧ finished o b.
Proof.
  assert (U (str "SHARED")) as Hu by by apply (bool_decide_unpack (str "SHARED" ∈ used)); vm_compute.
  intros Hin. repeat (apply elem_of_cons in Hin as [[= -> ->]|Hin];
    [split; [first [exact Hu|exact view_fine|exact I]|by vm_compute]|]).
  by apply elem_of_nil in Hin.
Qed.
End Toy.

(** With privileges after operations that were stopped; without, after
    operations that ran to their end *)
Lemma materialize_exact_witness :
  (∃ d', run (materialize Toy.hash Toy.pid Toy.root_env Toy.croot Toy.view) None
          (history Toy.hash Toy.pid Toy.root_env Toy.croot Toy.ops (run (cache_open Toy.croot) None Toy.disk).1)
        = (d', Done (Toy.croot ++ [str "tree"; tree_key Toy.hash Toy.view])) ∧
        ∀ r, look d' ((Toy.croot ++ [str "tree"; tree_key Toy.hash Toy.view]) ++ r) = layer_shows Toy.view r) ∧
  (∃ d', run (materialize Toy.hash Toy.pid Toy.user_env Toy.croot Toy.view) None
          (history Toy.hash Toy.pid Toy.user_env Toy.croot Toy.calm (run (cache_open Toy.croot) None Toy.disk).1)
        = (d', Done (Toy.croot ++ [str "tree"; tree_key Toy.hash Toy.view])) ∧
        ∀ r, look d' ((Toy.croot ++ [str "tree"; tree_key Toy.hash Toy.view]) ++ r) = layer_shows Toy.view r).
Proof.
  split.
  - pose proof (materialize_exact Toy.hash Toy.pid Toy.root_env Toy.croot Toy.U Toy.disk Toy.ops Toy.view
      Toy.fresh Toy.ops_fine Toy.view_fine eq_refl) as Hm. cbv zeta in Hm.
    destruct (run (materialize _ _ _ _ _) None _) as [d' out]. destruct Hm as (Hs & _ & Ho).
    rewrite Ho in Hs |- * by by left. exists d'. split; [reflexivity|]. by apply (Hs _ eq_refl).
  - pose proof (materialize_exact Toy.hash Toy.pid Toy.user_env Toy.croot Toy.U Toy.disk Toy.calm Toy.view
      Toy.fresh (λ o b Hin, proj1 (Toy.calm_fine o b Hin)) Toy.view_fine eq_refl) as Hm. cbv zeta in Hm.
    destruct (run (materialize _ _ _ _ _) None _) as [d' out]. destruct Hm as (Hs & _ & Ho).
    rewrite Ho in Hs |- * by (right; left; intros o b Hin; apply (Toy.calm_fine o b Hin)).
    exists d'. split; [reflexivity|]. by apply (Hs _ eq_refl).
Defined.

Lemma eviction_spares_trees_witness :
  ∃ d' n, run (evict_unreferenced Toy.croot) None
      (history Toy.hash Toy.pid Toy.root_env Toy.croot Toy.ops (run (cache_open Toy.croot) None Toy.disk).1) = (d', Done n).
Proof.
  destruct (eviction_spares_trees Toy.hash Toy.pid Toy.root_env Toy.croot Toy.U Toy.disk Toy.ops _
    Toy.fresh Toy.ops_fine eq_refl) as (d' & n & Hrun & _). exists d', n. exact Hrun.
Defined.

(** *** What the cache does not guard against *)

(** A write to the pool stopped between its last two steps leaves a read-only
    file where the next write of a process of the same number goes; without
    privileges that write is refused, and so is every later one. *)
Theorem stale_tmp_refused :
  let d := (run (cache_open Toy.croot) None Toy.disk).1 in
  let d := (run (file_for Toy.hash Toy.pid Toy.user_env Toy.croot (str "SHARED")) (Some 4%nat) d).1 in
  (run (file_for Toy.hash Toy.pid Toy.user_env Toy.croot (str "SHARED")) None d).2 = Failed (Io EACCES).
Proof. vm_compute. reflexivity. Qed.

(** Two threads of a process write their contents to one temporary name where
    the hashes begin alike: the first renames the bytes of the second under its
    own hash, and the pool keeps them there. *)
Theorem threads_cross_contents :
  let a := [65] in
  let b := [65; 255] in
  let tmp := tmp_path Toy.pid Toy.croot (Toy.hash a) in
  let p := blob_path Toy.croot (Toy.hash a) in
  let d := (run (cache_open Toy.croot) None Toy.disk).1 in
  let d := (run (_ ← create_dir_all 3 (pool_dir Toy.croot (Toy.hash a)); _ ← write Toy.user_env tmp a;
                 _ ← create_dir_all 3 (pool_dir Toy.croot (Toy.hash b));
                 _ ← write Toy.user_env (tmp_path Toy.pid Toy.croot (Toy.hash b)) b;
                 _ ← set_permissions tmp 292; rename tmp p) None d).1 in
  look d p = Some (SFile b 292) ∧
  (run (file_for Toy.hash Toy.pid Toy.user_env Toy.croot a) None d).2 = Done p.
Proof. vm_compute. split; reflexivity. Qed.

(** A mode is read as a decimal number; the layers of the git mirror hold it in
    octal, and a symbolic link of theirs becomes an executable file. *)
Theorem octal_link_is_file :
  let n := MkNode Live (SetBlob (str "d/tool")) false (Some [(str "mode", GitLayer.octal GitLayer.Symlink)]) Lower [] in
  node_shown n = SFile (str "d/tool") 365 ∧ view_node n = true.
Proof. vm_compute. split; reflexivity. Qed.

(** A name that is a path is followed out of the tree: the file there is
    replaced. *)
Theorem name_leaves_tree :
  let d := MkDisk {[ Toy.croot := EDir; [str "etc"] := EDir; [str "etc"; str "passwd"] := EFile 0 ]} [MkInode (str "root") 420] in
  let l := MkLayer (MkNode Live Keep false None Lower [(str "/etc/passwd", Toy.file "own" "33188")]) in
  let d := (run (_ ← cache_open Toy.croot; materialize Toy.hash Toy.pid Toy.user_env Toy.croot l) None d).1 in
  look d [str "etc"; str "passwd"] = Some (SFile (str "own") 292).
Proof. vm_compute. reflexivity. Qed.

(** Names that are not UTF-8 are replaced, and of two that become one the
    second is kept. *)
Theorem lossy_names_collide :
  let l := MkLayer (MkNode Live Keep false None Lower [([128], Toy.file "one" "33188"); ([129], Toy.file "two" "33188")]) in
  let r := run (_ ← cache_open Toy.croot; materialize Toy.hash Toy.pid Toy.user_env Toy.croot l) None Toy.disk in
  r.2 = Done (Toy.croot ++ [str "tree"; tree_key Toy.hash l]) ∧
  look r.1 (Toy.croot ++ [str "tree"; tree_key Toy.hash l; GitLayer.REPLACEMENT]) = Some (SFile (str "two") 292).
Proof. vm_compute. split; reflexivity. Qed.
